(* ===== verification/_CoqProject ===== *)
-Q . S2P
Prelude.v
Odometer.v
Float.v
ShapeContract.v
MachineModel.v
Diagnostics.v
CostModel.v
WorkloadGraph.v
LlkMap.v
LayoutConstraints.v
Routing.v
EventSchedule.v
JitCache.v
StorageLiveness.v
TileFacts.v
MappingRules.v
MappingPlan.v
MappingTarget.v
StorageFootprint.v
Placement.v
RuleMatching.v
Connections.v
Signatures.v
PlanEvents.v
PlanStream.v
StepPlan.v
StoragePlan.v
Sorting.v
SourceGraph.v
SearchTables.v
SearchBranch.v
CoveringSearch.v
ShapeEvaluation.v
ThreadPool.v
SearchSpace.v
Tuning.v
