(* ===== verification/Prelude.v ===== *)
(** * DSLCompiler: the core of the LLK kernel compiler, verified

    The repository compiles tensor kernels for machines described as graphs of
    memories, engines and executors.  This development is a shallow embedding of
    the parts of it that decide things: what a shape may be, what a machine model
    says, what a plan costs, which routes data may take, when the events of a plan
    run and how much storage they hold, and, at run time, how compiled kernels are
    cached and their tiles handed to threads.

    ** Files, and the code they model

    - [Prelude]: the error monad for [llvm::Error] and [llvm::Expected], loops
      with early return, machine integers, strings, sorting, injective encodings.
    - [Float]: [double] as IEEE-754 binary64 on [spec_float] of the Standard
      Library: arithmetic, comparison, [printf("%.6f")], conversions.
    - [ShapeContract]: lib/Shape/ShapeContract.cpp.  A contract declares the
      symbols of the ports of a kernel; it is validated, bound to actual extents,
      rendered canonically, and asked what it implies of a predicate.
    - [MachineModel]: lib/Machine/MachineModel.cpp, lib/Machine/MachineHash.h and
      the owner enumeration of MicroEnums.h.  The machine graph, its queries
      (containment, ownership, visibility), its verifier and its content hash.
    - [CostModel]: lib/Mapping/CostModel.cpp.  Costs, the orders that rank them,
      aggregation over shape samples, and the estimators of movement, transform
      and elementwise work.
    - [WorkloadGraph]: lib/Mapping/WorkloadGraph.cpp.  The data-flow graph of a
      kernel: its extraction from the operations of the kernel, resolving views and
      loop-carried values, its multiplicities from trip counts, its renumbering by
      content and its canonical text.
    - [MappingPlan]: lib/Mapping/MappingPlan.cpp and SearchBinding.cpp.  The records
      the mapping search builds, their canonical texts and the ids hashed from them.
    - [LlkMap]: lib/Mapping/LlkMap.cpp.  The language of layout and mapping rules:
      its lexer, its recursive-descent expression parser over a token cursor, the
      check of its vocabulary, its evaluator with bounded quantifiers, and the two
      renderings of an expression.
    - [LayoutConstraints]: lib/Mapping/LayoutConstraints.cpp.  Layout declarations in
      that language: their parser and printer, the registry and its hash, the affine
      maps they describe, the bounded solver over their finite domains, and the
      check of a recorded assignment.
    - [Diagnostics]: lib/Mapping/Diagnostics.cpp, StableHash.cpp.  The stable codes,
      the order of diagnostics, the refusal a report leads with, hashes and ids.
    - [Odometer]: the walk through a finite product that the layout solver and the
      candidate grid share.
    - [TileFacts]: lib/Mapping/TileFacts.cpp.  The rank, extents and element width a type
      states, for values that may be tiles of a buffer.
    - [MappingRules]: the declarations of lib/Mapping/MappingRules.cpp: the records of a
      rule, the registry in id order, the parser, printer and canonical text, and the
      access maps of the patterns.
    - [RuleMatching]: the rest of lib/Mapping/MappingRules.cpp: predicates, the
      backtracking match of a pattern on a graph, the enumeration that resolves a rule's
      constraints, the candidates, and the check of a recorded selection.
    - [MappingTarget]: lib/Mapping/MappingTarget.cpp, CodegenRequirements.cpp and
      BoundaryRequirements.h.  A target is a machine with its layouts and rules, verified
      against each other when it is loaded.
    - [Placement], [Connections]: lib/Mapping/Placement.cpp.  The placed instances of a
      candidate on a machine, up to symmetry; the ways to connect a producer to a
      consumer, their fan-out and fan-in.
    - [StorageFootprint]: lib/Mapping/StoragePlan.cpp up to [finalizeStoragePlan]: the
      bytes a layout occupies, the memory of a port, the peak over the steps of a plan.
    - [StepPlan], [StoragePlan]: [finalizeStoragePlan] of lib/Mapping/StoragePlan.cpp.  The
      order, steps and step edges of a plan; its allocations, the buffers they share, and
      the capacity of every memory.
    - [PlanEvents], [PlanStream]: lib/Mapping/CostEvent.cpp.  The event stream of a plan,
      and what it guarantees to the scheduler.
    - [Signatures]: lib/Mapping/LatencyProvider.cpp and [connectionSignatureFor] of
      CostEvent.cpp.  The keys under which measured latencies are looked up.
    - [ShapeEvaluation]: lib/Mapping/ShapeEvaluation.cpp.  The value of an index expression
      of the shape arithmetic at actual extents.
    - [Sorting]: what [std::sort] and [llvm::stable_sort] do, for the files below.
    - [SourceGraph]: [computeSourceGraphHash] of lib/Mapping/MappingMetadata.cpp.  The
      projection of a workload graph to its semantic nodes, its text and its hash.
    - [SearchTables], [SearchBranch], [CoveringSearch]: lib/Mapping/CoveringSearch.cpp.  The
      tables of placed instances per node and the links between them; the extension of a
      partial cover by one instance, with its memory charges and connection decisions; the
      deterministic, exact and beam walks, the plans they propose and the ranked result.
    - [Routing]: lib/Mapping/Routing.cpp.  The best-first enumeration of the paths
      a value can take between two memories.
    - [EventSchedule]: lib/Mapping/EventSchedule.cpp and the event data of
      include/LLK/Mapping/CostEvent.h.  The list scheduler on resource pools, and
      the validation of an event stream against a machine.
    - [StorageLiveness]: lib/Mapping/StorageLiveness.cpp.  Live windows and peak
      bytes from a schedule, and the edges storage reuse needs.
    - [JitCache]: runtime/JitCache.cpp and KernelKey.h.  The four-level LRU cache
      of compiled kernels and packed weights and its binary keys.
    - [ThreadPool]: runtime/ThreadPool.cpp.  The worker pool that runs the tiles of
      a kernel, and its barrier, as interleavings of atomic actions.
    - [SearchSpace]: lib/Perf/SearchSpace.cpp, Candidate.cpp, CandidateGenerator.cpp.
      The parameters of a schedule, the candidates they span, and their grid and
      random generation, the latter on the Mersenne twister it uses.
    - [Tuning]: lib/Perf/TuningSession.cpp.  A tuning session: generate, try, rank,
      measure the best, cut to the top.

    ** How the parts interact

    Shape contracts bound the problem; the machine model is read by everything
    after it.  [Routing] asks [MachineModel] for links, engines and layouts and
    ranks routes by a [double] latency.  [EventSchedule] takes the pools of the
    events from the machine and returns a [CostModel.Cost]; [StorageLiveness] reads
    the placement of the same events.  [LlkMap] evaluates machine queries on the
    same model, and [LayoutConstraints] solves its constraints with that evaluator,
    one quantifier budget for the whole solve.  Rules are matched on a [WorkloadGraph],
    resolved with [LlkMap], placed with [Placement] and connected with [Connections] over
    [Routing]'s routes; the plan those make is a [MappingPlan], whose stream [PlanEvents]
    emits, [EventSchedule] times and [StorageLiveness] measures, with memories and bytes
    from [StorageFootprint]; [StoragePlan] gives the plan its steps and allocations and uses
    all of these to check what it decided.  [CoveringSearch.search] composes them: the tables
    come from [RuleMatching] and [Placement], an extension asks [Connections] for the ways to
    realize each link and [TileFacts] and [StorageFootprint] for sizes, a complete cover is
    scored by [PlanEvents] and [EventSchedule] and ranked by [CostModel], and the result
    carries the hash of [SourceGraph].  [Tuning] drives [SearchSpace]; what it asks of legality, binding and
    analysis is the class [Tuning.TuningEnv].  The runtime files stand alone: they run what
    the compiler has produced.

    ** Conventions

    An [llvm::Expected] function is a function into [result E A], where [E] has one
    constructor per diagnostic, so an error theorem says which check failed.  A
    [std::map] is a [gmap] iterated in key order; a [DenseMap] or [unordered_map]
    is a [gmap] never iterated; a vector is a list, and an index out of range is
    written out.  Unsigned integers are [Z] with the wrap-around ([u64], [u32])
    where an operation can wrap; [size_t] positions are [nat].  What C++ leaves
    undefined or unspecified (a cast of a [double] out of range, [std::llround]
    out of range) is a section variable: the theorems hold for every behaviour.
    MLIR types and affine maps ([CostModel.MLIRTypes], [LayoutConstraints.AffineExprs]
    with the meaning [AffineMeaning] states, [TileFacts.MLIRTiles], [Placement.MLIRMaps],
    [StorageFootprint.MLIRMapTrees]), their texts and attributes ([WorkloadGraph.MLIRText],
    [MappingPlan.MLIRPrint], [RuleMatching.MLIRBuild]), MLIR operations and values
    ([WorkloadGraph.MLIROps]; a depth function says that their views and carried
    values are not circular) and the ORC compiler
    ([JitCache]) are parameters too.  Where [std::sort] orders elements its comparison ties,
    the result is a method of the class [Sorting.StdSort], which promises a sorted
    permutation and no more.  The lambdas of the covering search that report into its result
    are functions into [SearchTables.Logged], a value with the list of effects to apply; a null
    entry of a partial cover is [None], and the pointer identity of two chosen instances is
    equality of their place in the tables.  A layout solution is found in key order, where the
    code walks a [StringMap] and uses the answer only when all the solutions of the port agree;
    an enumeration of fan-out alternatives that fails reports no truncation in the model.  The
    texts of errors are the classes [SearchTexts] and [PlanEventTexts].  Threads are actions on a shared state, and a
    run is a list of actions.

    ** Theorems

    - Validation is exact: [validateShapeContract], [verifyMachineModel],
      [verifyMappingTarget], [validateEventResources], [legalHop] accept precisely the
      inputs their specifications describe.
    - Rules: loading text gives well-formed rules in an order-independent registry; a
      match is exactly an embedding of the pattern, each found once (interchangeable nodes
      of a pattern still give one in each order); resolution returns the legal
      assignments of the product; what is generated from a rule passes its verification,
      but for a context its node does not fix and for two memory requirements on one
      port; a loaded target's constraints never fail on an unknown handle.
    - Placement and connections: the instances are the product of the legal choices, one
      per symmetry class, cut at the cap; connections are legal and complete, and a
      fan-out is a cheapest choice of sources.
    - Footprints: the bytes are the padded product of exact extents (or a sound bound),
      a port's memory is decided as the precedence of its facts says, and the peak over
      the steps is attained and never exceeded.
    - Steps: the dependency order is the least topological one and fails only on cycles;
      steps are numbered so that every edge leads forward, when the values that are moved
      are read plainly (the moved result of an accumulator gives an edge back).
    - Storage plans: allocations that share a buffer fit it and follow each other in step
      order, strictly or in place; a complete plan stays within every capacity at all times
      of the schedule that is checked, which is its own when its barriers are those of the
      plan it was made from, and at every step where there is no such schedule.
    - Streams: what a plan emits is refused for nothing but a cycle, waits for exactly
      what steps and data order, keeps that order in every schedule (but for the further
      feeds of a gather), and does the same work hop by hop as whole (but for a gather,
      which combines at every hop); an attached snapshot is verified and answered.
    - The covering search: every plan returned partitions the nodes among instances their
      tables offer; an extension is the product of its connection decisions, cut at the cap
      and less what memories cannot hold; the exact walk judges every reachable complete
      cover, the deterministic one returns the first the exact one keeps, the beam never
      returns a fused instance; the result is the best plans, ranked.
    - The source identity of a graph is that of its content, whatever the order of its nodes
      and the numbering of its values.
    - Measurement keys and shape arithmetic: two operations or connections share a key only
      when they agree in all the key is made of; an index expression evaluates to its exact
      integer value, or is refused, where its operations are on 64 bits or indices; what
      narrower casts and operations lose, the code does not see.
    - What a shape contract proves of a predicate holds of every admissible extent, and
      what it disproves of none (but for divisibility by a number that is not positive).
    - Binding is sound and complete: [bindShapeValues] returns an assignment exactly
      when the ports are consistent with one.
    - Canonical texts identify: a shape contract is determined by its text, and two
      machine models that differ in declaration order have one text and hash.
    - A workload graph is described by its content: extraction ends with one node per
      operation, finalizing only renumbers and gives every insertion order of distinct
      contents one result; the id of a plan forgets collection orders, and not the
      engines it selected.
    - Rankings are orders: both [ranksBefore] (of plans and of tuning results) are
      strict total orders.
    - Reading a text always ends; printing and parsing an expression are inverse
      where the printed lexemes keep apart; the canonical text of an expression
      determines it; a validated expression never meets an unknown name; the bound
      on quantifiers never changes a value.
    - A loaded layout file is well formed; printing and loading a declaration are
      inverse; the solver returns the legal assignments in the order of the product,
      a prefix when a bound ends it, and nothing when it could not decide; a recorded
      assignment is accepted exactly when it is legal; map clauses keep their
      meaning; a loaded declaration never fails on its own words.
    - Candidates: the grid is the lexicographic product, random candidates are grid
      points with distinct ids, a session accounts for every candidate and fails
      only before it starts.
    - Searches are right and end: routes found are legal, all legal routes are found
      when nothing was truncated, containment queries decide reachability.
    - Schedules are schedules: dependencies precede, pools are never over-subscribed,
      the prediction is the makespan and at most the sequential time.
    - Storage: the peak is the maximum over all time, windows contain uses, reuse
      never overlaps.
    - The cache refines an abstract most-recently-used list, keeps recent entries,
      and its keys never confuse two kernels or two weight tensors.
    - [parallelFor] runs every tile exactly once and returns, in all interleavings.
    - Three theorems exhibit runs that go wrong: a cache pointer that dangles, a
      tile counter that wraps, a barrier that deadlocks.

    ** Fuel

    Loops that are not structural carry fuel, and each has a lemma that its fuel is
    enough: [MachineModel.isWithin_loop] the number of executors (a chain repeats
    after that), [Routing.routeFuel] the number of partial routes that can ever be
    queued, [EventSchedule.scheduleLoop] and [visitLoop] the number of events,
    [EventSchedule.beginLoop] two rounds (the second is a fixed point),
    [StorageLiveness.rootOf_loop] and [chainRoot_loop] one more than the number of
    allocations, [StepPlan.topoLoop] the number of nodes and [StoragePlan.rootIndex_loop]
    the number of allocations (no alias chain is longer), [JitCache.evictWhile] the length of the list,
    [LlkMap.lex_loop] the length of the text, [LlkMap.expressionFuel] and the loops
    of the parser the tokens that are left (each round and each nested expression
    consumes one), [WorkloadGraph.extractWorkloadGraph] the depth of the views and
    carried values, [LayoutConstraints.solveFuel] and [SearchSpace.gridFuel] the number
    of points of the product, [SearchSpace.randomLoop] the attempts it may make, [Tuning.measureLoop] the candidates it may still
    measure or reject, [Placement.placeFuel], [Connections.choiceFuel] and
    [RuleMatching.resolveFuel] the size of the product they walk,
    [StorageFootprint]'s walks along carried values and reuse chains the number of values
    or allocations and one or two more.  [PlanEvents.storageValue_loop] has the bound of 64
    the code itself has, [ShapeEvaluation]'s evaluation its depth limit, and
    [CoveringSearch.visit] the number of tables, since every extension covers a node.  [parallelFor] has
    no fuel: it is a step relation proved to terminate.

    ** Not modelled, and what comes next

    Not modelled: the MLIR dialects and their generated code, the importers, passes,
    lowerings and emitters (IR rewriting over MLIR data structures), the command
    line tools, the Python bindings, and the parsing of machine files from YAML.
    Left out of the mapping library: plan binding, the reports and verification of plans, and
    their metadata but the source identity; and the performance library but its search spaces
    and sessions. *)
From Stdlib Require Export Ascii.
From stdpp Require Export prelude gmap strings pretty sorting.

#[global] Open Scope Z_scope.

(** ** The error monad

    The functions of the repository that return [llvm::Error] or
    [llvm::Expected<T>] become functions into [result E A]; [E] is the
    component's own type of diagnostics, one constructor per message. *)
Inductive result (E A : Type) : Type :=
| Ok (value : A)
| Err (error : E).
Arguments Ok {E A} value.
Arguments Err {E A} error.

#[export] Instance result_ret {E} : MRet (result E) := λ A a, Ok a.
#[export] Instance result_bind {E} : MBind (result E) := λ A B f r,
  match r with
  | Ok a => f a
  | Err e => Err e
  end.
#[export] Instance result_fmap {E} : FMap (result E) := λ A B f r,
  match r with
  | Ok a => Ok (f a)
  | Err e => Err e
  end.
#[export] Instance result_eq_dec {E A} `{EqDecision E, EqDecision A} :
  EqDecision (result E A).
Proof. solve_decision. Defined.

Declare Scope dsl_scope.
Delimit Scope dsl_scope with dsl.

(** [if (condition) return error;] *)
Definition fail_if {E} (condition : bool) (error : E) : result E unit :=
  if condition then Err error else Ok tt.

Notation "'fail!' e 'when' c ';' k" :=
  (mbind (λ _ : unit, k) (fail_if c e))
  (at level 20, e at level 9, c at level 100, k at level 200,
   format "'[' fail!  e  when  c ; ']' '/' k") : dsl_scope.
#[global] Open Scope dsl_scope.

(** [for (const auto &x : xs) if (Error e = body(x)) return e;] *)
Fixpoint for_each {E A} (body : A → result E unit) (xs : list A) : result E unit :=
  match xs with
  | [] => Ok tt
  | x :: xs => _ ← body x; for_each body xs
  end.

(** The same loop with the element's index, counted from [i]. *)
Fixpoint for_each_from {E A} (i : nat) (body : nat → A → result E unit)
    (xs : list A) : result E unit :=
  match xs with
  | [] => Ok tt
  | x :: xs => _ ← body i x; for_each_from (S i) body xs
  end.

(** A loop that threads a state and may return early. *)
Fixpoint fold_result {E S A} (body : S → A → result E S) (s : S) (xs : list A) :
    result E S :=
  match xs with
  | [] => Ok s
  | x :: xs => s' ← body s x; fold_result body s' xs
  end.

(** The same with the element's index. *)
Fixpoint fold_result_from {E S A} (i : nat) (body : nat → S → A → result E S)
    (s : S) (xs : list A) : result E S :=
  match xs with
  | [] => Ok s
  | x :: xs => s' ← body i s x; fold_result_from (Datatypes.S i) body s' xs
  end.

(** ** Machine integers

    A [w]-bit unsigned integer is its value in [Z]; the wrap-around of an
    operation is written out where the code relies on the width. *)
Definition u64 (z : Z) : Z := z `mod` 2 ^ 64.
Definition u32 (z : Z) : Z := z `mod` 2 ^ 32.
Definition u64_max : Z := 2 ^ 64 - 1.
Definition i64_max : Z := 2 ^ 63 - 1.
Definition i64_min : Z := - 2 ^ 63.

Definition in_u64 (z : Z) : Prop := 0 ≤ z < 2 ^ 64.
Definition in_u32 (z : Z) : Prop := 0 ≤ z < 2 ^ 32.
Definition in_i64 (z : Z) : Prop := - 2 ^ 63 ≤ z < 2 ^ 63.

#[export] Instance in_u64_dec z : Decision (in_u64 z).
Proof. unfold in_u64. apply _. Defined.
#[export] Instance in_u32_dec z : Decision (in_u32 z).
Proof. unfold in_u32. apply _. Defined.
#[export] Instance in_i64_dec z : Decision (in_i64 z).
Proof. unfold in_i64. apply _. Defined.

(** [static_cast<int64_t>(v)] of an unsigned 64-bit value. *)
Definition i64_of_u64 (z : Z) : Z := if decide (z < 2 ^ 63) then z else z - 2 ^ 64.

(** [__builtin_add_overflow] and [__builtin_mul_overflow] on [uint64_t]:
    [None] when the exact result does not fit. *)
Definition checked_add_u64 (a b : Z) : option Z :=
  if decide (in_u64 (a + b)) then Some (a + b) else None.
Definition checked_mul_u64 (a b : Z) : option Z :=
  if decide (in_u64 (a * b)) then Some (a * b) else None.

(** FNV-1a over 64 bits, the hash the repository fixes for content ids. *)
Definition fnv_offset_basis : Z := 0xcbf29ce484222325.
Definition fnv_prime : Z := 0x100000001b3.

(** ** Strings

    [std::string] is [string]; [operator<] is the lexicographic order on the
    unsigned bytes, which is [String.compare]. *)
Definition str_ltb (a b : string) : bool :=
  match String.compare a b with Lt => true | _ => false end.
Definition str_empty (s : string) : bool := bool_decide (s = "")%string.

(** [std::to_string] on an integer of any width. *)
Definition to_string (z : Z) : string := pretty z.

Definition newline : string := String (Ascii.ascii_of_nat 10) EmptyString.

(** [llvm::is_contained]. *)
Definition contains {A} `{EqDecision A} (xs : list A) (x : A) : bool :=
  bool_decide (x ∈ xs).

(** ** Sorting

    [llvm::sort] with a comparator that is a strict order on a key; where the
    keys are distinct, the result does not depend on the algorithm. *)
Definition key_le {A} (key : A → string) (a b : A) : Prop :=
  String.le (key a) (key b).
#[export] Instance key_le_dec {A} (key : A → string) : RelDecision (key_le key).
Proof. intros a b. unfold key_le. apply _. Defined.
#[export] Instance key_le_trans {A} (key : A → string) : Transitive (key_le key).
Proof. intros a b c. unfold key_le. apply transitivity. Qed.
#[export] Instance key_le_total {A} (key : A → string) : Total (key_le key).
Proof. intros a b. unfold key_le. apply total, _. Qed.

Definition sort_by {A} (key : A → string) (xs : list A) : list A :=
  merge_sort (key_le key) xs.
Definition sort_strings (xs : list string) : list string := merge_sort String.le xs.

(** The entries of a [std::map<std::string, V>] in iteration order. *)
Definition in_order {V} (m : gmap string V) : list (string * V) :=
  sort_by fst (map_to_list m).

(** ** Lemmas and automation

    [dsl] is the hint database of the facts that decompose the error monad;
    [inv_result] is the tactic built on it. *)
Create HintDb dsl.
Create Rewrite HintDb dsl_rw.

Lemma bind_ok {E A B} (f : A → result E B) (m : result E A) (b : B) :
  m ≫= f = Ok b ↔ ∃ a, m = Ok a ∧ f a = Ok b.
Proof. destruct m as [a|x]; cbn; split; [exists a; auto|intros (? & [= ->] & ?); auto|done|intros (? & [=] & _)]. Qed.

Lemma bind_err {E A B} (f : A → result E B) (m : result E A) (e : E) :
  m ≫= f = Err e ↔ m = Err e ∨ ∃ a, m = Ok a ∧ f a = Err e.
Proof.
  destruct m as [a|x]; cbn; split.
  - right; exists a; auto.
  - by intros [[=]|(? & [= ->] & ?)].
  - by left; congruence.
  - by intros [[= ->]|(? & [=] & _)].
Qed.

Lemma fail_if_ok {E} c (e : E) u : fail_if c e = Ok u ↔ c = false.
Proof. destruct c, u; cbn; intuition congruence. Qed.

Lemma fail_if_err {E} c (e e' : E) : fail_if c e = Err e' ↔ c = true ∧ e = e'.
Proof. destruct c; cbn; intuition congruence. Qed.

Lemma fail_then_ok {E A} c (e : E) (k : result E A) (b : A) :
  (fail! e when c; k) = Ok b ↔ c = false ∧ k = Ok b.
Proof. destruct c; cbn; intuition congruence. Qed.

Lemma fail_then_err {E A} c (e e' : E) (k : result E A) :
  (fail! e when c; k) = Err e' ↔ (c = true ∧ e = e') ∨ (c = false ∧ k = Err e').
Proof. destruct c; cbn; intuition congruence. Qed.

Lemma seq_ok {E A} (m : result E unit) (k : result E A) (b : A) :
  (_ ← m; k) = Ok b ↔ m = Ok tt ∧ k = Ok b.
Proof. destruct m as [[]|]; cbn; intuition congruence. Qed.

(** Decomposes every hypothesis that says a monadic computation returned. *)
Ltac inv_result :=
  repeat match goal with
  | H : mbind _ (fail_if _ _) = Ok _ |- _ => apply fail_then_ok in H as [? H]
  | H : mbind _ _ = Ok _ |- _ => apply bind_ok in H as (? & ? & ?)
  | H : fail_if _ _ = Ok _ |- _ => apply fail_if_ok in H
  | H : fail_if _ _ = Err _ |- _ => apply fail_if_err in H as [? ?]
  | H : Ok _ = Ok _ |- _ => injection H as H
  | H : Err _ = Err _ |- _ => injection H as H
  | H : Ok _ = Err _ |- _ => discriminate H
  | H : Err _ = Ok _ |- _ => discriminate H
  | H : mret _ = Ok _ |- _ => unfold mret, result_ret in H
  | u : unit |- _ => destruct u
  | H : bool_decide _ = false |- _ => apply bool_decide_eq_false in H
  | H : bool_decide _ = true |- _ => apply bool_decide_eq_true in H
  | H : (_ || _)%bool = false |- _ => apply orb_false_iff in H as [? ?]
  | H : (_ && _)%bool = true |- _ => apply andb_true_iff in H as [? ?]
  | H : negb _ = false |- _ => apply negb_false_iff in H
  | H : negb _ = true |- _ => apply negb_true_iff in H
  end; subst.

Lemma for_each_ok {E A} (body : A → result E unit) xs :
  for_each body xs = Ok tt ↔ ∀ x, x ∈ xs → body x = Ok tt.
Proof.
  induction xs as [|x xs IH]; simpl.
  - split; [|done]. intros _ x Hx. by apply elem_of_nil in Hx.
  - rewrite bind_ok. setoid_rewrite elem_of_cons. split.
    + intros ([] & Hx & Hxs) y [->|Hy]; [done|]. by apply IH.
    + intros H. exists tt. split; [by apply H; left|]. apply IH. eauto.
Qed.

(** A loop that fails reports the first failing element. *)
Lemma for_each_err {E A} (body : A → result E unit) xs e :
  for_each body xs = Err e ↔
  ∃ pre x post, xs = pre ++ x :: post ∧ body x = Err e ∧
    ∀ y, y ∈ pre → body y = Ok tt.
Proof.
  induction xs as [|x xs IH]; simpl.
  - split; [done|]. intros (pre & x & post & H & _). by destruct pre.
  - rewrite bind_err. setoid_rewrite IH. split.
    + intros [H|([] & Hx & pre & y & post & -> & Hy & Hpre)].
      * exists [], x, xs. split_and!; [done..|]. intros y Hy. by apply elem_of_nil in Hy.
      * exists (x :: pre), y, post. split_and!; [done..|].
        intros z [->|Hz]%elem_of_cons; auto.
    + intros ([|z pre] & y & post & Heq & Hy & Hpre); simplify_list_eq; [by left|].
      right. exists tt. split; [apply Hpre; left|].
      exists pre, y, post. split_and!; [done..|]. intros w Hw. apply Hpre. by right.
Qed.

Lemma for_each_from_ok {E A} (body : nat → A → result E unit) xs i :
  for_each_from i body xs = Ok tt ↔
  ∀ k x, xs !! k = Some x → body (i + k)%nat x = Ok tt.
Proof.
  revert i. induction xs as [|x xs IH]; intros i; simpl.
  - split; [|done]. intros _ k x Hx. by rewrite lookup_nil in Hx.
  - rewrite bind_ok. split.
    + intros ([] & Hx & Hxs) [|k] y Hy; simpl in Hy.
      * simplify_eq. by rewrite Nat.add_0_r.
      * rewrite IH in Hxs. replace (i + S k)%nat with (S i + k)%nat by lia. eauto.
    + intros H. exists tt. split.
      * rewrite <- (Nat.add_0_r i). by apply H.
      * apply IH. intros k y Hy. replace (S i + k)%nat with (i + S k)%nat by lia. by apply H.
Qed.

Lemma fold_result_app {E S A} (body : S → A → result E S) s xs ys :
  fold_result body s (xs ++ ys) = (s' ← fold_result body s xs; fold_result body s' ys).
Proof.
  revert s. induction xs as [|x xs IH]; intros s; simpl; [done|].
  destruct (body s x) as [s'|e]; simpl; [apply IH|done].
Qed.

(** The invariant rule of a monadic loop: the invariant speaks of the prefix
    already consumed. *)
Lemma fold_result_inv {E S A} (body : S → A → result E S) (I : list A → S → Prop) xs s s' :
  I [] s →
  (∀ pre x post t t', xs = pre ++ x :: post → I pre t → body t x = Ok t' →
    I (pre ++ [x]) t') →
  fold_result body s xs = Ok s' → I xs s'.
Proof.
  revert s' . induction xs as [|x xs IH] using rev_ind; intros s' H0 Hstep Hrun; simpl in *.
  - by simplify_eq.
  - rewrite fold_result_app in Hrun. apply bind_ok in Hrun as (t & Ht & Hrun).
    simpl in Hrun. apply bind_ok in Hrun as (t' & Ht' & [= <-]).
    eapply Hstep; [done| |done]. apply IH; [done| |done].
    intros pre y post u u' -> ??. eapply (Hstep pre y (post ++ [x])); [|done..].
    by simplify_list_eq.
Qed.

(** *** Machine integers *)
Lemma u64_id z : in_u64 z → u64 z = z.
Proof. unfold in_u64, u64. intros. by apply Z.mod_small. Qed.
Lemma u32_id z : in_u32 z → u32 z = z.
Proof. unfold in_u32, u32. intros. by apply Z.mod_small. Qed.
Lemma u64_range z : in_u64 (u64 z).
Proof. unfold in_u64, u64. by apply Z.mod_pos_bound. Qed.
Lemma u32_range z : in_u32 (u32 z).
Proof. unfold in_u32, u32. by apply Z.mod_pos_bound. Qed.
#[export] Hint Resolve u64_range u32_range : dsl.
#[export] Hint Rewrite @u64_id @u32_id using (by auto with dsl || lia) : dsl_rw.

Lemma checked_add_u64_spec a b c : checked_add_u64 a b = Some c ↔ c = a + b ∧ in_u64 (a + b).
Proof. unfold checked_add_u64. case_decide as Hd; (split; [intros Hc|intros [Hc1 Hc2]]);
  [by injection Hc as <-|by rewrite Hc1|discriminate|done].
Qed.
Lemma checked_mul_u64_spec a b c : checked_mul_u64 a b = Some c ↔ c = a * b ∧ in_u64 (a * b).
Proof. unfold checked_mul_u64. case_decide as Hd; (split; [intros Hc|intros [Hc1 Hc2]]);
  [by injection Hc as <-|by rewrite Hc1|discriminate|done].
Qed.

(** *** Strings *)
Lemma str_app_cons c (a b : string) : String c a +:+ b = String c (a +:+ b).
Proof. reflexivity. Qed.
Lemma str_app_nil_l (a : string) : "" +:+ a = a.
Proof. reflexivity. Qed.
Lemma str_app_nil_r (a : string) : a +:+ "" = a.
Proof. induction a as [|x a IH]; [done|]. by rewrite str_app_cons, IH. Qed.
Lemma str_app_assoc (a b c : string) : (a +:+ b) +:+ c = a +:+ (b +:+ c).
Proof. induction a as [|x a IH]; [done|]. by rewrite !str_app_cons, IH. Qed.
Lemma str_app_length (a b : string) :
  String.length (a +:+ b) = (String.length a + String.length b)%nat.
Proof. induction a as [|x a IH]; [done|]. rewrite str_app_cons. cbn. by rewrite IH. Qed.
#[export] Hint Rewrite str_app_cons str_app_nil_l str_app_nil_r str_app_assoc : dsl_rw.

(** [operator<] is the strict part of a total order. *)
Lemma str_ltb_le a b : str_ltb a b = true ↔ ¬ String.le b a.
Proof.
  unfold str_ltb, String.le, String.leb. rewrite (String.compare_antisym a b).
  destruct (String.compare b a); cbn; intuition congruence.
Qed.
Lemma str_ltb_irrefl a : str_ltb a a = false.
Proof. apply not_true_iff_false. rewrite str_ltb_le. intros H. by apply H. Qed.
Lemma str_ltb_trans a b c : str_ltb a b = true → str_ltb b c = true → str_ltb a c = true.
Proof.
  rewrite !str_ltb_le. intros H1 H2 H3. destruct (total String.le b c) as [H|H]; [|done].
  apply H1. by transitivity c.
Qed.
Lemma str_ltb_total a b : str_ltb a b = true ∨ a = b ∨ str_ltb b a = true.
Proof.
  rewrite !str_ltb_le. destruct (decide (String.le b a)) as [H1|]; [|by left].
  destruct (decide (String.le a b)) as [H2|]; [|by right; right]. right; left. by apply (anti_symm String.le).
Qed.

(** Two texts split at the same length are equal piece by piece. *)
Lemma str_app_inj_length (a b s t : string) :
  String.length a = String.length b → a +:+ s = b +:+ t → a = b ∧ s = t.
Proof.
  revert b. induction a as [|x a IH]; intros [|y b] Hlen Heq; cbn in Hlen; try lia; [done|].
  rewrite !str_app_cons in Heq. injection Heq as -> Heq. destruct (IH b) as [-> ->]; auto.
Qed.

(** The characters of a text satisfy a test. *)
Fixpoint str_all (p : Ascii.ascii → bool) (s : string) : bool :=
  match s with
  | EmptyString => true
  | String c s => p c && str_all p s
  end.

Lemma str_all_app p a b : str_all p (a +:+ b) = str_all p a && str_all p b.
Proof. induction a as [|x a IH]; [done|]. rewrite str_app_cons. cbn. by rewrite IH, andb_assoc. Qed.

(** A text without the delimiter [c], followed by [c], is determined by the
    whole: the lemma behind every delimited encoding. *)
Lemma str_split_at (c : Ascii.ascii) (a b s t : string) :
  str_all (λ x, bool_decide (x ≠ c)) a = true →
  str_all (λ x, bool_decide (x ≠ c)) b = true →
  a +:+ String c s = b +:+ String c t → a = b ∧ s = t.
Proof.
  revert b. induction a as [|x a IH]; intros [|y b]; rewrite ?str_app_cons, ?str_app_nil_l; cbn; intros Ha Hb Heq.
  - by injection Heq.
  - injection Heq as -> Heq. by rewrite bool_decide_false in Hb by auto.
  - injection Heq as -> Heq. by rewrite bool_decide_false in Ha by auto.
  - injection Heq as -> Heq. apply andb_true_iff in Ha as [_ Ha], Hb as [_ Hb].
    destruct (IH b) as [-> ->]; auto.
Qed.

Definition is_decimal (c : Ascii.ascii) : bool :=
  contains ["0";"1";"2";"3";"4";"5";"6";"7";"8";"9";"-"]%char c.

Lemma pretty_N_char_decimal x : is_decimal (pretty_N_char x) = true.
Proof. unfold pretty_N_char. by repeat case_match. Qed.

Lemma pretty_N_go_decimal x s :
  str_all is_decimal s = true → str_all is_decimal (pretty_N_go x s) = true.
Proof.
  revert s. induction (N.lt_wf_0 x) as [x _ IH]; intros s Hs.
  destruct (decide (x = 0)%N) as [->|]; [by rewrite pretty_N_go_0|].
  rewrite pretty_N_go_step by lia. apply IH; [apply N.div_lt; lia|].
  cbn -[is_decimal]. by rewrite pretty_N_char_decimal.
Qed.

Lemma to_string_decimal z : str_all is_decimal (to_string z) = true.
Proof.
  assert (∀ p, str_all is_decimal (pretty (N.pos p)) = true) as Hp.
  { intros p. unfold pretty, pretty_N. case_decide; [done|]. by apply pretty_N_go_decimal. }
  destruct z as [|p|p]; [done|apply Hp|].
  unfold to_string, pretty, pretty_Z. rewrite str_app_cons, str_app_nil_l. cbn -[is_decimal].
  apply Hp.
Qed.

Lemma str_all_impl (p q : Ascii.ascii → bool) s :
  (∀ c, p c = true → q c = true) → str_all p s = true → str_all q s = true.
Proof.
  intros Hpq. induction s as [|c s IH]; cbn; [done|].
  rewrite !andb_true_iff. intros [??]. auto.
Qed.

Lemma to_string_without c z :
  is_decimal c = false → str_all (λ x, bool_decide (x ≠ c)) (to_string z) = true.
Proof.
  intros Hc. eapply str_all_impl, to_string_decimal. intros x Hx. cbn.
  apply bool_decide_eq_true. congruence.
Qed.

(** A printed number followed by a non-numeric delimiter is determined by the
    whole text. *)
Lemma to_string_split c z z' s t :
  is_decimal c = false →
  to_string z +:+ String c s = to_string z' +:+ String c t → z = z' ∧ s = t.
Proof.
  intros Hc Heq. apply str_split_at in Heq as [Heq ->]; [|by apply to_string_without..].
  split; [|done]. by apply (inj pretty).
Qed.

(** The same at the end of a text: the last occurrence of a delimiter splits it. *)
Lemma str_split_last (c : Ascii.ascii) (a b s t : string) :
  str_all (λ x, bool_decide (x ≠ c)) s = true → str_all (λ x, bool_decide (x ≠ c)) t = true →
  a +:+ String c s = b +:+ String c t → a = b ∧ s = t.
Proof.
  intros Hs Ht.
  assert (∀ d u, str_all (λ x, bool_decide (x ≠ c)) (d +:+ String c u) = false) as Hno.
  { intros d u. rewrite str_all_app. cbn. by rewrite bool_decide_false, andb_false_r by tauto. }
  revert b. induction a as [|x a IH]; intros [|y b]; rewrite ?str_app_cons, ?str_app_nil_l; intros Heq.
  - by injection Heq.
  - injection Heq as _ ->. by rewrite Hno in Hs.
  - injection Heq as _ <-. by rewrite Hno in Ht.
  - injection Heq as -> Heq. apply IH in Heq as [-> ->]. done.
Qed.

Lemma to_string_split_last c z z' a b :
  is_decimal c = false → a +:+ String c (to_string z) = b +:+ String c (to_string z') → a = b ∧ z = z'.
Proof.
  intros Hc Heq. apply str_split_last in Heq as [-> Heq]; [|by apply to_string_without..].
  split; [done|]. by apply (inj pretty).
Qed.

(** *** Sorting and map iteration *)
Lemma sort_by_perm {A} (key : A → string) xs : sort_by key xs ≡ₚ xs.
Proof. apply merge_sort_Permutation. Qed.

Lemma sort_by_sorted {A} (key : A → string) xs : StronglySorted (key_le key) (sort_by key xs).
Proof. apply StronglySorted_merge_sort; apply _. Qed.

(** With distinct keys, a sorted list is determined by its elements, and sorting
    forgets the order of the input. *)
Lemma sorted_unique {A} (key : A → string) xs ys :
  NoDup (key <$> xs) → StronglySorted (key_le key) xs → StronglySorted (key_le key) ys →
  xs ≡ₚ ys → xs = ys.
Proof.
  intros Hnd Hxs Hys Hperm. eapply (StronglySorted_unique_strong (key_le key)); [|done..].
  intros x1 x2 Hx1 Hx2 H12 H21.
  assert (key x1 = key x2) as Hk.
  { unfold key_le in *. by apply (anti_symm String.le). }
  rewrite <- Hperm in Hx2. apply list_elem_of_lookup in Hx1 as [i Hi], Hx2 as [j Hj].
  assert (i = j) as ->; [|congruence].
  apply (NoDup_lookup (key <$> xs) i j (key x1) Hnd);
    rewrite list_lookup_fmap, ?Hi, ?Hj; cbn; congruence.
Qed.

Lemma sort_by_unique {A} (key : A → string) xs ys :
  NoDup (key <$> xs) → xs ≡ₚ ys → sort_by key xs = sort_by key ys.
Proof.
  intros Hnd Hperm. apply (sorted_unique key).
  - by rewrite sort_by_perm.
  - apply sort_by_sorted.
  - apply sort_by_sorted.
  - by rewrite !sort_by_perm.
Qed.

(** Sorting commutes with a map that keeps the (distinct) keys. *)
Lemma sort_by_fmap {A B} (key : B → string) (f : A → B) xs :
  NoDup (key <$> (f <$> xs)) → f <$> sort_by (key ∘ f) xs = sort_by key (f <$> xs).
Proof.
  intros Hnd. apply (sorted_unique key).
  - by rewrite sort_by_perm.
  - eapply StronglySorted_fmap; [|apply (sort_by_sorted (key ∘ f))]. done.
  - apply sort_by_sorted.
  - by rewrite !sort_by_perm.
Qed.

Lemma sort_strings_perm xs ys : xs ≡ₚ ys → sort_strings xs = sort_strings ys.
Proof.
  intros Hp. eapply (StronglySorted_unique String.le); try (apply StronglySorted_merge_sort; apply _).
  unfold sort_strings. by rewrite !merge_sort_Permutation.
Qed.

Lemma in_order_perm {V} (m : gmap string V) : in_order m ≡ₚ map_to_list m.
Proof. apply sort_by_perm. Qed.

Lemma in_order_elem {V} (m : gmap string V) k v : (k, v) ∈ in_order m ↔ m !! k = Some v.
Proof. rewrite in_order_perm. apply elem_of_map_to_list. Qed.

(** The iteration of a map determines the map. *)
Lemma in_order_inj {V} (m1 m2 : gmap string V) : in_order m1 = in_order m2 → m1 = m2.
Proof.
  intros Heq. apply map_eq. intros k. apply option_eq. intros v.
  by rewrite <- !in_order_elem, Heq.
Qed.

Lemma in_order_length {V} (m : gmap string V) : length (in_order m) = size m.
Proof. by rewrite in_order_perm, length_map_to_list. Qed.

(** *** Lists *)
Lemma sorted_lookup {A} (R : relation A) l i j x y :
  StronglySorted R l → l !! i = Some x → l !! j = Some y → (i < j)%nat → R x y.
Proof.
  intros Hs. revert i j. induction Hs as [|z l Hs IH Hz]; intros i j Hi Hj Hlt; [done|].
  destruct j as [|j]; [lia|]. destruct i as [|i]; cbn in Hi, Hj.
  - injection Hi as ->. rewrite Forall_forall in Hz. by eapply Hz, list_elem_of_lookup_2.
  - apply (IH i j); [done|done|lia].
Qed.

Lemma contains_true {A} `{EqDecision A} (xs : list A) x : contains xs x = true ↔ x ∈ xs.
Proof. apply bool_decide_eq_true. Qed.
Lemma contains_false {A} `{EqDecision A} (xs : list A) x : contains xs x = false ↔ x ∉ xs.
Proof. apply bool_decide_eq_false. Qed.

(** Equality of finite sets, by membership. *)
Ltac set_tauto :=
  apply set_eq; intros ?;
  rewrite ?elem_of_union, ?elem_of_singleton, ?elem_of_empty; tauto.

(** *** Prefix codes

    A rendering whose value can be read back off the front of any text, the
    property that makes a concatenation of renderings injective. *)
Definition prefix_code {A} (f : A → string) : Prop :=
  ∀ x y s t, f x +:+ s = f y +:+ t → x = y ∧ s = t.

Lemma str_concat_cons (x : string) xs :
  String.concat "" (x :: xs) = x +:+ String.concat "" xs.
Proof. destruct xs as [|y xs]; cbn; [by rewrite str_app_nil_r|done]. Qed.

Lemma prefix_code_list {A} (f : A → string) xs ys s t :
  prefix_code f → length xs = length ys →
  String.concat "" (f <$> xs) +:+ s = String.concat "" (f <$> ys) +:+ t →
  xs = ys ∧ s = t.
Proof.
  intros Hf. revert ys. induction xs as [|x xs IH]; intros [|y ys] Hlen Heq; try done.
  rewrite !fmap_cons, !str_concat_cons, !str_app_assoc in Heq.
  apply Hf in Heq as [-> Heq]. apply IH in Heq as [-> ->]; [done|]. by injection Hlen.
Qed.

Lemma prefix_code_inj {A} (f : A → string) : prefix_code f → Inj (=) (=) f.
Proof.
  intros Hf x y Heq. apply (Hf x y "" ""). by rewrite Heq.
Qed.
