(* ===== verification/Odometer.v ===== *)
(** The odometer that enumerates a finite product.

    Two parts of the program walk a product of finite domains with the last wheel
    turning fastest: the grid of lib/Perf/CandidateGenerator.cpp and the layout
    solver of lib/Mapping/LayoutConstraints.cpp.  The lemmas say that the walk
    visits the index vectors in lexicographic order, each once. *)
From S2P Require Import Prelude.
Open Scope Z_scope.

(** ** One turn *)

(** The odometer's loop from [position] down: the first wheel that does not wrap
    and the indices, or all wheels back at 0. *)
Fixpoint odometer (sizes : list nat) (position : nat) (indices : list nat) : list nat * option nat :=
  match position with
  | O => (indices, None)
  | S position =>
    let i := S (default O (indices !! position)) in
    if (i <? default O (sizes !! position))%nat then (<[position := i]> indices, Some position)
    else odometer sizes position (<[position := O]> indices)
  end.

(** ** It enumerates the product *)

(** The specification: index vectors in lexicographic order, the last index
    varying fastest. *)
Fixpoint index_vectors (sizes : list nat) : list (list nat) :=
  match sizes with
  | [] => [[]]
  | n :: sizes => seq 0 n ≫= λ i, cons i <$> index_vectors sizes
  end.

Definition zeros (sizes : list nat) : list nat := replicate (length sizes) O.

(** The successor in that order. *)
Fixpoint next_indices (sizes indices : list nat) : option (list nat) :=
  match sizes, indices with
  | n :: sizes, i :: indices =>
    match next_indices sizes indices with
    | Some indices => Some (i :: indices)
    | None => if (S i <? n)%nat then Some (S i :: zeros sizes) else None
    end
  | _, _ => None
  end.

Lemma odometer_cons n ns i js position : (position ≤ length js)%nat →
  odometer (n :: ns) (S position) (i :: js) =
  match odometer ns position js with
  | (js', Some q) => (i :: js', Some (S q))
  | (js', None) => if (S i <? n)%nat then (S i :: js', Some O) else (O :: js', None)
  end.
Proof.
  revert js. induction position as [|position IH]; intros js Hp; [done|].
  assert (∀ ms ks, odometer ms (S position) ks =
    if (S (default O (ks !! position)) <? default O (ms !! position))%nat
    then (<[position := S (default O (ks !! position))]> ks, Some position)
    else odometer ms position (<[position := O]> ks)) as Hstep by done.
  rewrite (Hstep ns js).
  change (odometer (n :: ns) (S (S position)) (i :: js)) with
    (if (S (default O (js !! position)) <? default O (ns !! position))%nat
     then (i :: <[position := S (default O (js !! position))]> js, Some (S position))
     else odometer (n :: ns) (S position) (i :: <[position := O]> js)).
  destruct (S (default O (js !! position)) <? default O (ns !! position))%nat; [done|].
  apply IH. rewrite length_insert. cbn in Hp. lia.
Qed.

Lemma odometer_next sizes js : length js = length sizes →
  match next_indices sizes js with
  | Some js' => length js' = length sizes ∧
      ∃ q, odometer sizes (length js) js = (js', Some q) ∧ (q = O → js' !! O ≠ Some O)
  | None => odometer sizes (length js) js = (zeros sizes, None)
  end.
Proof.
  revert js. induction sizes as [|n ns IH]; intros [|i js] Hl; try done. cbn [next_indices length].
  injection Hl as Hl. specialize (IH js Hl). rewrite odometer_cons by done.
  destruct (next_indices ns js) as [js'|].
  - destruct IH as (Hl' & q & -> & _). split; [by cbn; rewrite Hl'|]. by exists (S q).
  - rewrite IH. destruct (S i <? n)%nat; [|done]. split; [by cbn; unfold zeros; rewrite length_replicate|].
    by exists O.
Qed.

(** The vectors from [v] to the last one. *)
Inductive enum (sizes : list nat) : list nat → list (list nat) → Prop :=
| enum_last v : next_indices sizes v = None → enum sizes v [v]
| enum_step v v' l : next_indices sizes v = Some v' → enum sizes v' l → enum sizes v (v :: l).

Lemma enum_below n ns v l i rest : enum ns v l → (S i < n)%nat →
  enum (n :: ns) (S i :: zeros ns) rest → enum (n :: ns) (i :: v) ((cons i <$> l) ++ rest)%list.
Proof.
  intros Hl Hi Hrest. induction Hl as [v Hv|v v' l Hv _ IH]; cbn [fmap list_fmap app].
  - apply enum_step with (S i :: zeros ns); [|done]. cbn [next_indices]. rewrite Hv. by rewrite (proj2 (Nat.ltb_lt _ _) Hi).
  - apply enum_step with (i :: v'); [|done]. cbn [next_indices]. by rewrite Hv.
Qed.

Lemma enum_top n ns v l i : enum ns v l → S i = n → enum (n :: ns) (i :: v) (cons i <$> l).
Proof.
  intros Hl <-. induction Hl as [v Hv|v v' l Hv _ IH]; cbn [fmap list_fmap app].
  - apply enum_last. cbn [next_indices]. rewrite Hv. by rewrite Nat.ltb_irrefl.
  - apply enum_step with (i :: v'); [|done]. cbn [next_indices]. by rewrite Hv.
Qed.

Lemma index_vectors_enum sizes : Forall (λ n, n ≠ O) sizes → enum sizes (zeros sizes) (index_vectors sizes).
Proof.
  induction sizes as [|n ns IH]; intros Hs; [by apply enum_last|].
  apply Forall_cons in Hs as [Hn Hs]. specialize (IH Hs). cbn [index_vectors].
  assert (∀ m i, (i + S m)%nat = n →
    enum (n :: ns) (i :: zeros ns) (seq i (S m) ≫= λ j, cons j <$> index_vectors ns)) as H.
  { induction m as [|m IHm]; intros i Hi; cbn [seq mbind list_bind].
    - rewrite app_nil_r. apply enum_top; [done|lia].
    - apply enum_below; [done|lia|]. apply IHm. lia. }
  destruct n as [|n]; [done|]. by apply (H n O).
Qed.

Lemma elem_of_index_vectors sizes v :
  v ∈ index_vectors sizes ↔ Forall2 (λ i n, (i < n)%nat) v sizes.
Proof.
  revert v. induction sizes as [|n ns IH]; intros v; cbn [index_vectors].
  - rewrite list_elem_of_singleton. split; [intros ->; constructor|]. by inversion 1.
  - rewrite list_elem_of_bind. setoid_rewrite list_elem_of_fmap. setoid_rewrite IH.
    setoid_rewrite elem_of_seq. split.
    + intros (i & (v' & -> & Hv) & Hi). constructor; [lia|done].
    + inversion 1 as [|i ? v' ? Hi Hv]; subst. exists i. split; [by exists v'|lia].
Qed.

Lemma index_vectors_NoDup sizes : NoDup (index_vectors sizes).
Proof.
  induction sizes as [|n ns IH]; cbn [index_vectors]; [apply NoDup_singleton|].
  generalize O as i. induction n as [|n IHn]; intros i; [apply NoDup_nil_2|].
  cbn [seq mbind list_bind]. apply NoDup_app. split_and!.
  - apply NoDup_fmap_2; [intros ? ? [= ->]; done|done].
  - intros v (v' & -> & _)%list_elem_of_fmap Hin.
    apply list_elem_of_bind in Hin as (j & (w & [= <- _] & _)%list_elem_of_fmap & Hj%elem_of_seq). lia.
  - apply IHn.
Qed.

Lemma index_vectors_length sizes : length (index_vectors sizes) = foldr Nat.mul 1%nat sizes.
Proof.
  induction sizes as [|n ns IH]; [done|]. cbn [index_vectors foldr]. rewrite <- IH. generalize O as i.
  induction n as [|n IHn]; intros i; [done|]. cbn [seq mbind list_bind].
  rewrite length_app, length_fmap, IHn. lia.
Qed.

Lemma enum_nonempty sizes v l : enum sizes v l → ∃ l', l = v :: l'.
Proof. inversion 1; eauto. Qed.
