(* ===== verification/Float.v ===== *)
(** Binary64 arithmetic.

    The sources compute costs in [double].  A [double] is the Standard
    Library's [spec_float] at precision 53 and exponent range 1024, whose
    operations round to nearest, ties to even.  This file fixes the operations
    the sources use, the conversions between integers and doubles, the fixed
    "%.6f" rendering, and the order laws of the comparisons away from NaN. *)
From Stdlib Require Import SpecFloat.
From S2P Require Import Prelude.
Open Scope string_scope.
Open Scope Z_scope.

Abbreviation double := spec_float.

Definition prec : Z := 53.
Definition emax : Z := 1024.

Definition dzero : double := S754_zero false.
Definition dinfinity : double := S754_infinity false.
Definition dadd : double → double → double := SFadd prec emax.
Definition dmul : double → double → double := SFmul prec emax.
Definition ddiv : double → double → double := SFdiv prec emax.
Definition dltb : double → double → bool := SFltb.
Definition dleb : double → double → bool := SFleb.
Definition deqb : double → double → bool := SFeqb.

(** [std::min(l, r)] is [r < l ? r : l] and [std::max(l, r)] is [l < r ? r : l]. *)
Definition dmin (l r : double) : double := if dltb r l then r else l.
Definition dmax (l r : double) : double := if dltb l r then r else l.

(** [static_cast<double>] of an integer. *)
Definition double_of_Z (z : Z) : double := binary_normalize prec emax z 0 false.

Definition is_nan (x : double) : bool := match x with S754_nan => true | _ => false end.
Definition isinf (x : double) : bool := match x with S754_infinity _ => true | _ => false end.
Definition isfinite (x : double) : bool :=
  match x with S754_nan | S754_infinity _ => false | _ => true end.

(** [std::ceil] of a finite value, as the integer it is. *)
Definition ceil_Z (x : double) : option Z :=
  match x with
  | S754_zero _ => Some 0
  | S754_finite s m e =>
    let v := if s then - Zpos m else Zpos m in
    Some (if decide (0 <= e) then v * 2 ^ e else - ((- v) `div` 2 ^ (- e)))
  | _ => None
  end.

(** ** "%.6f" *)

(** [num / den] to the nearest integer, ties to even. *)
Definition div_nearest_even (num den : Z) : Z :=
  let q := num `div` den in
  let r := num `mod` den in
  match 2 * r ?= den with
  | Lt => q
  | Gt => q + 1
  | Eq => if Z.even q then q else q + 1
  end.

(** The magnitude in millionths. *)
Definition micros (m : positive) (e : Z) : Z :=
  if decide (0 <= e) then Zpos m * 2 ^ e * 1000000
  else div_nearest_even (Zpos m * 1000000) (2 ^ (- e)).

Fixpoint pad_zeros (n : nat) (s : string) : string :=
  match n with
  | O => s
  | S n => if (String.length s <=? n)%nat then "0" +:+ pad_zeros n s else s
  end.

Definition fixed_6 (magnitude : Z) : string :=
  to_string (magnitude `div` 1000000) +:+ "." +:+ pad_zeros 6 (to_string (magnitude `mod` 1000000)).

Definition sign_text (s : bool) : string := if s then "-" else "".

Definition printf_6f (x : double) : string :=
  match x with
  | S754_zero s => sign_text s +:+ fixed_6 0
  | S754_infinity s => sign_text s +:+ "inf"
  | S754_nan => "nan"
  | S754_finite s m e => sign_text s +:+ fixed_6 (micros m e)
  end.

(** [char buffer[32]; snprintf(buffer, sizeof(buffer), "%.6f", value)]: at most
    31 characters survive. *)
Definition formatDouble (x : double) : string := String.substring 0 31 (printf_6f x).

Example format_half : formatDouble (ddiv (double_of_Z 129) (double_of_Z 2)) = "64.500000".
Proof. reflexivity. Qed.

(** ** The order of the comparisons

    Away from NaN the comparison is the lexicographic order of a key. *)
Definition dkey (x : double) : Z * Z * Z :=
  match x with
  | S754_infinity true => (-2, 0, 0)
  | S754_finite true m e => (-1, - e, - Zpos m)
  | S754_zero _ => (0, 0, 0)
  | S754_finite false m e => (1, e, Zpos m)
  | S754_infinity false => (2, 0, 0)
  | S754_nan => (3, 0, 0)
  end.

Definition key_lt (a b : Z * Z * Z) : Prop :=
  let '(a1, a2, a3) := a in
  let '(b1, b2, b3) := b in
  a1 < b1 ∨ (a1 = b1 ∧ (a2 < b2 ∨ (a2 = b2 ∧ a3 < b3))).

Lemma SFcompare_key x y :
  is_nan x = false → is_nan y = false →
  match SFcompare x y with
  | Some Lt => key_lt (dkey x) (dkey y)
  | Some Eq => dkey x = dkey y
  | Some Gt => key_lt (dkey y) (dkey x)
  | None => False
  end.
Proof.
  intros Hx Hy.
  destruct x as [sx|sx| |sx mx ex], y as [sy|sy| |sy my ey]; try done;
    try (destruct sx, sy; cbn; (done || lia)); try (destruct sx; cbn; (done || lia));
    try (destruct sy; cbn; (done || lia)).
  assert (Pos.compare_cont Eq mx my = (Zpos mx ?= Zpos my)) as Hc by done.
  destruct sx, sy; cbn -[Pos.compare_cont Z.compare]; try lia; rewrite Hc;
    destruct (Z.compare_spec ex ey); cbn -[Z.compare]; try lia;
    destruct (Z.compare_spec (Zpos mx) (Zpos my)); cbn -[Z.compare];
    subst; try lia; repeat f_equal; lia.
Qed.

Lemma SFcompare_nan x y : is_nan x = true ∨ is_nan y = true → SFcompare x y = None.
Proof. by destruct x as [[]|[]| |[]], y as [[]|[]| |[]]; intros [|]. Qed.

Lemma dltb_true x y :
  dltb x y = true ↔ is_nan x = false ∧ is_nan y = false ∧ key_lt (dkey x) (dkey y).
Proof.
  unfold dltb, SFltb.
  destruct (is_nan x) eqn:Hx; [rewrite SFcompare_nan by auto; split; [done|by intros []]|].
  destruct (is_nan y) eqn:Hy; [rewrite SFcompare_nan by auto; split; [done|by intros (_ & [=] & _)]|].
  pose proof (SFcompare_key x y Hx Hy) as Hk.
  destruct (dkey x) as [[a1 a2] a3], (dkey y) as [[b1 b2] b3].
  destruct (SFcompare x y) as [[]|]; [|done| |done];
    (split; [done|intros (_ & _ & Hlt)]); [injection Hk as -> -> ->|]; cbn in *; lia.
Qed.

Lemma deqb_true x y :
  deqb x y = true ↔ is_nan x = false ∧ is_nan y = false ∧ dkey x = dkey y.
Proof.
  unfold deqb, SFeqb.
  destruct (is_nan x) eqn:Hx; [rewrite SFcompare_nan by auto; split; [done|by intros []]|].
  destruct (is_nan y) eqn:Hy; [rewrite SFcompare_nan by auto; split; [done|by intros (_ & [=] & _)]|].
  pose proof (SFcompare_key x y Hx Hy) as Hk.
  destruct (dkey x) as [[a1 a2] a3], (dkey y) as [[b1 b2] b3].
  destruct (SFcompare x y) as [[]|]; [done| | |done];
    (split; [done|intros (_ & _ & [= -> -> ->])]); cbn in *; lia.
Qed.

Lemma key_lt_irrefl a : ¬ key_lt a a.
Proof. destruct a as [[? ?] ?]; cbn; lia. Qed.
Lemma key_lt_trans a b c : key_lt a b → key_lt b c → key_lt a c.
Proof. destruct a as [[? ?] ?], b as [[? ?] ?], c as [[? ?] ?]; cbn; lia. Qed.
Lemma key_lt_total a b : key_lt a b ∨ a = b ∨ key_lt b a.
Proof.
  destruct a as [[a1 a2] a3], b as [[b1 b2] b3]; cbn.
  destruct (Z.lt_trichotomy a1 b1) as [?|[->|?]]; [lia| |lia].
  destruct (Z.lt_trichotomy a2 b2) as [?|[->|?]]; [lia| |lia].
  destruct (Z.lt_trichotomy a3 b3) as [?|[->|?]]; [lia| |lia]. auto.
Qed.

(** [<] on doubles is a strict order, and away from NaN two values that are not
    [==] are ordered one way. *)
Lemma dltb_irrefl x : dltb x x = false.
Proof. apply not_true_iff_false. intros (_ & _ & H)%dltb_true. by apply key_lt_irrefl in H. Qed.
Lemma dltb_trans x y z : dltb x y = true → dltb y z = true → dltb x z = true.
Proof.
  rewrite !dltb_true. intros (? & ? & ?) (? & ? & ?). split_and!; [done..|]. by eapply key_lt_trans.
Qed.
Lemma dltb_total x y :
  is_nan x = false → is_nan y = false → dltb x y = true ∨ deqb x y = true ∨ dltb y x = true.
Proof.
  intros. rewrite !dltb_true, deqb_true.
  destruct (key_lt_total (dkey x) (dkey y)) as [?|[?|?]]; auto.
Qed.
Lemma deqb_refl x : is_nan x = false → deqb x x = true.
Proof. intros. by apply deqb_true. Qed.
Lemma deqb_sym x y : deqb x y = deqb y x.
Proof. apply eq_true_iff_eq. rewrite !deqb_true. naive_solver. Qed.
Lemma deqb_trans x y z : deqb x y = true → deqb y z = true → deqb x z = true.
Proof. rewrite !deqb_true. intros (? & ? & ->) (? & ? & ->). auto. Qed.
Lemma deqb_dltb x y : deqb x y = true → dltb x y = false.
Proof.
  intros (_ & _ & Hk)%deqb_true. apply not_true_iff_false. intros (_ & _ & H)%dltb_true.
  rewrite Hk in H. by apply key_lt_irrefl in H.
Qed.
Lemma dltb_deqb_l x y z : deqb x y = true → dltb x z = dltb y z.
Proof.
  intros (? & ? & Hk)%deqb_true. apply eq_true_iff_eq. rewrite !dltb_true, Hk. naive_solver.
Qed.
Lemma dltb_deqb_r x y z : deqb x y = true → dltb z x = dltb z y.
Proof.
  intros (? & ? & Hk)%deqb_true. apply eq_true_iff_eq. rewrite !dltb_true, Hk. naive_solver.
Qed.
Lemma dltb_asym x y : dltb x y = true → dltb y x = false.
Proof.
  intros H. apply not_true_iff_false. intros H'. pose proof (dltb_trans _ _ _ H H') as Hxx.
  by rewrite dltb_irrefl in Hxx.
Qed.

(** ** Conversions never produce NaN *)
Lemma shr_1_nonneg r : 0 <= shr_m r → 0 <= shr_m (shr_1 r).
Proof. destruct r as [[|[p|p|]|[p|p|]] rb sb]; cbn; lia. Qed.

Lemma iter_shr_nonneg p r : 0 <= shr_m r → 0 <= shr_m (SpecFloat.iter_pos shr_1 p r).
Proof.
  revert r. induction p as [p IH|p IH|]; intros r Hr; cbn.
  - by apply IH, IH, shr_1_nonneg.
  - by apply IH, IH.
  - by apply shr_1_nonneg.
Qed.

Lemma shr_fexp_nonneg m e l : 0 <= m → 0 <= shr_m (shr_fexp prec emax m e l).1.
Proof.
  intros Hm. unfold shr_fexp, shr.
  assert (0 <= shr_m (shr_record_of_loc m l)) by by destruct l as [|[]].
  case_match; cbn; [done| |done]. by apply iter_shr_nonneg.
Qed.

Lemma round_nearest_even_nonneg m l : 0 <= m → 0 <= round_nearest_even m l.
Proof. destruct l as [|[]]; cbn; try case_match; lia. Qed.

Lemma binary_round_aux_nan s m e l : 0 <= m → is_nan (binary_round_aux prec emax s m e l) = false.
Proof.
  intros Hm. unfold binary_round_aux.
  pose proof (shr_fexp_nonneg m e l Hm) as H1. destruct (shr_fexp prec emax m e l) as [r e'].
  cbn in H1. pose proof (round_nearest_even_nonneg (shr_m r) (loc_of_shr_record r) H1) as H2.
  pose proof (shr_fexp_nonneg _ e' loc_Exact H2) as H3.
  destruct (shr_fexp prec emax (round_nearest_even _ _) e' loc_Exact) as [r' e''].
  cbn in H3. destruct (shr_m r'); [done| |lia]. by case_match.
Qed.

Lemma double_of_Z_nan z : is_nan (double_of_Z z) = false.
Proof.
  unfold double_of_Z, binary_normalize. destruct z as [|p|p]; [done| |];
    unfold binary_round; case_match; by apply binary_round_aux_nan.
Qed.
