(* ===== verification/ShapeContract.v ===== *)
(** The symbolic shape contract: include/LLK/Shape/ShapeContract.h and
    lib/Shape/ShapeContract.cpp.

    A contract relates ordered named ports through a table of symbols with
    bounds and a divisor; [bindShapeValues] binds concrete extents to it,
    [classifyPredicate] decides a predicate over the declared domain and
    [canonicalShapeContract] renders the contract's identity.  A [std::map] is
    a [gmap] iterated in key order; an [llvm::StringSet] is a [gset] whose
    iteration order is the hash order of LLVM, a parameter of the section. *)
From S2P Require Import Prelude.
Open Scope string_scope.
Open Scope Z_scope.

(** ** Data *)
Inductive PortDirection := Input | Output.

(** A tagged extent: the class keeps [constant_ = 0] under a symbol and an
    empty [symbol_] under a constant, so the tag and its own field carry all. *)
Inductive Dimension :=
| DimConstant (constant : Z)
| DimSymbol (name : string).

Record SymbolConstraint := mkConstraint {
  min : Z;
  max : option Z;
  multipleOf : Z;
}.

Record ShapePort := mkPort {
  port_name : string;
  direction : PortDirection;
  shape : list Dimension;
}.

Record ShapeContract := mkContract {
  ports : list ShapePort;
  symbols : gmap string SymbolConstraint;
}.

Record PortShapeValues := mkValues {
  value_direction : PortDirection;
  value_index : Z;
  extents : list Z;
}.

Abbreviation ShapeValues := (gmap string Z).

#[export] Instance PortDirection_eq_dec : EqDecision PortDirection.
Proof. solve_decision. Defined.
#[export] Instance Dimension_eq_dec : EqDecision Dimension.
Proof. solve_decision. Defined.
#[export] Instance SymbolConstraint_eq_dec : EqDecision SymbolConstraint.
Proof. solve_decision. Defined.
#[export] Instance ShapePort_eq_dec : EqDecision ShapePort.
Proof. solve_decision. Defined.
#[export] Instance PortShapeValues_eq_dec : EqDecision PortShapeValues.
Proof. solve_decision. Defined.

(** The diagnostics, in the order the source declares them. *)
Inductive shape_error :=
| DuplicatePort (port : string)
| RankZero (port : string)
| NegativeExtent (port : string) (dim : nat)
| EmptySymbolAt (port : string) (dim : nat)
| EmptySymbol
| NegativeMinimum (symbol : string)
| MaxBelowMin (symbol : string)
| InvalidDivisor (symbol : string) (divisor : Z)
| NoMultipleInRange (symbol : string) (divisor : Z)
| UnusedSymbol (symbol : string)
| UndeclaredSymbol (symbol : string)
| DuplicatePortValues (port : string)
| UnknownPort (side : PortDirection) (index : Z)
| MissingPort (port : string)
| RankMismatch (port : string) (expected actual : nat)
| NegativeValueAt (port : string) (dim : nat)
| ConstantMismatch (port : string) (dim : nat) (expected actual : Z)
| SymbolConflict (symbol : string) (first second : Z)
| BelowMinimum (symbol : string) (value bound : Z)
| AboveMaximum (symbol : string) (value bound : Z)
| NotAMultiple (symbol : string) (value divisor : Z)
| MissingValue (symbol : string)
| NegativeValue (symbol : string)
| UnknownValue (symbol : string)
| MapAtOutOfRange (symbol : string).

Inductive PredicateVerdict := Proven | Disproven | RuntimeGuard.
Inductive PredicateKind := DivisibleBy | EqualTo | AtLeast.

Record ShapePredicate := mkPredicate {
  kind : PredicateKind;
  predicate_symbol : string;
  predicate_value : Z;
}.

#[export] Instance PredicateVerdict_eq_dec : EqDecision PredicateVerdict.
Proof. solve_decision. Defined.

(** ** Vocabulary and rendering helpers *)
Definition stringifyDirection (d : PortDirection) : string :=
  match d with
  | Input => "input"
  | Output => "output"
  end.

Definition symbolizeDirection (text : string) : option PortDirection :=
  if bool_decide (text = "input") then Some Input
  else if bool_decide (text = "output") then Some Output
  else None.

Definition stringifyPredicateVerdict (v : PredicateVerdict) : string :=
  match v with
  | Proven => "proven"
  | Disproven => "disproven"
  | RuntimeGuard => "runtime_guard"
  end.

(** [tag=size:value;] *)
Definition appendField (tag value : string) : string :=
  tag +:+ "=" +:+ to_string (Z.of_nat (String.length value)) +:+ ":" +:+ value +:+ ";".

(** [tag=value;] *)
Definition appendInt (tag : string) (value : Z) : string :=
  tag +:+ "=" +:+ to_string value +:+ ";".

Definition appendDimension (d : Dimension) : string :=
  match d with
  | DimSymbol s => "dim=symbol:" +:+ to_string (Z.of_nat (String.length s)) +:+ ":" +:+ s +:+ ";"
  | DimConstant c => "dim=constant:" +:+ to_string c +:+ ";"
  end.

(** ** Validation *)

(** [%] on [int64_t] truncates, which is [Z.rem]. *)
Definition hasMultipleInRange (minimum : Z) (maximum : option Z) (divisor : Z) : bool :=
  if bool_decide (divisor <= 0) then false
  else
    let remainder := Z.rem minimum divisor in
    if bool_decide (remainder = 0) then true
    else
      let delta := divisor - remainder in
      if bool_decide (minimum > i64_max - delta) then false
      else
        let first := minimum + delta in
        match maximum with
        | None => true
        | Some m => bool_decide (first <= m)
        end.

Section contract.
(** The iteration order of an [llvm::StringSet], which LLVM's hash decides. *)
Variable stringset_order : gset string → list string.

Definition validateSymbol (used : gset string) (entry : string * SymbolConstraint) :
    result shape_error unit :=
  let '(name, c) := entry in
  fail! EmptySymbol when str_empty name;
  fail! (NegativeMinimum name) when bool_decide (min c < 0);
  fail! (MaxBelowMin name) when
    match max c with Some m => bool_decide (m < min c) | None => false end;
  fail! (InvalidDivisor name (multipleOf c)) when bool_decide (multipleOf c <= 0);
  fail! (NoMultipleInRange name (multipleOf c)) when
    negb (hasMultipleInRange (min c) (max c) (multipleOf c));
  fail! (UnusedSymbol name) when bool_decide (name ∉ used);
  Ok tt.

Definition validateSymbolTable (table : gmap string SymbolConstraint) (used : gset string) :
    result shape_error unit :=
  _ ← for_each (validateSymbol used) (in_order table);
  for_each (λ name, fail_if (bool_decide (table !! name = None)) (UndeclaredSymbol name))
    (stringset_order used).

(** The loop that rejects a repeated port name; [seen] is the [std::set]. *)
Definition checkPortName (seen : gset string) (p : ShapePort) : result shape_error (gset string) :=
  fail! (DuplicatePort (port_name p)) when bool_decide (port_name p ∈ seen);
  Ok ({[port_name p]} ∪ seen).

Definition collectDimension (port : string) (dim : nat) (used : gset string) (d : Dimension) :
    result shape_error (gset string) :=
  match d with
  | DimConstant c => fail! (NegativeExtent port dim) when bool_decide (c < 0); Ok used
  | DimSymbol s => fail! (EmptySymbolAt port dim) when str_empty s; Ok ({[s]} ∪ used)
  end.

Definition collectPort (used : gset string) (p : ShapePort) : result shape_error (gset string) :=
  fail! (RankZero (port_name p)) when bool_decide (shape p = []);
  fold_result_from 0 (collectDimension (port_name p)) used (shape p).

Definition validateShapeContract (c : ShapeContract) : result shape_error unit :=
  _ ← fold_result checkPortName ∅ (ports c);
  used ← fold_result collectPort ∅ (ports c);
  validateSymbolTable (symbols c) used.

(** ** Binding *)

(** The position of each port among the ports of its own direction, from the
    two [uint32_t] counters [next]. *)
Fixpoint portPositions (next_input next_output : Z) (ps : list ShapePort) :
    list (PortDirection * Z) :=
  match ps with
  | [] => []
  | p :: ps =>
    match direction p with
    | Input => (Input, next_input) :: portPositions (u32 (next_input + 1)) next_output ps
    | Output => (Output, next_output) :: portPositions next_input (u32 (next_output + 1)) ps
    end
  end.

(** The direction and index an entry names. *)
Definition value_key (e : PortShapeValues) : PortDirection * Z :=
  (value_direction e, value_index e).

(** One supplied entry: the first port at its position takes it. *)
Definition supplyEntry (c : ShapeContract) (positions : list (PortDirection * Z))
    (supplied : list (option PortShapeValues)) (entry : PortShapeValues) :
    result shape_error (list (option PortShapeValues)) :=
  match list_find (λ pos, pos = value_key entry) positions with
  | None => Err (UnknownPort (value_direction entry) (value_index entry))
  | Some (port, _) =>
    match mjoin (supplied !! port) with
    | Some _ => Err (DuplicatePortValues (from_option port_name "" (ports c !! port)))
    | None => Ok (<[port := Some entry]> supplied)
    end
  end.

Definition bindDimension (port : string) (dim : nat) (bound : ShapeValues)
    (pair : Dimension * Z) : result shape_error ShapeValues :=
  let '(expected, extent) := pair in
  fail! (NegativeValueAt port dim) when bool_decide (extent < 0);
  match expected with
  | DimConstant c =>
    fail! (ConstantMismatch port dim c extent) when bool_decide (extent ≠ c); Ok bound
  | DimSymbol s =>
    match bound !! s with
    | None => Ok (<[s := extent]> bound)
    | Some prior =>
      fail! (SymbolConflict s prior extent) when bool_decide (prior ≠ extent); Ok bound
    end
  end.

Definition bindPort (bound : ShapeValues) (pair : ShapePort * option PortShapeValues) :
    result shape_error ShapeValues :=
  let '(declared, actual) := pair in
  match actual with
  | None => Err (MissingPort (port_name declared))
  | Some actual =>
    fail! (RankMismatch (port_name declared) (length (shape declared)) (length (extents actual)))
      when bool_decide (length (extents actual) ≠ length (shape declared));
    fold_result_from 0 (bindDimension (port_name declared)) bound
      (zip (shape declared) (extents actual))
  end.

Definition checkConstraint (name : string) (c : SymbolConstraint) (value : Z) :
    result shape_error unit :=
  fail! (BelowMinimum name value (min c)) when bool_decide (value < min c);
  match max c with
  | Some m => fail_if (bool_decide (value > m)) (AboveMaximum name value m)
  | None => Ok tt
  end ;;
  fail! (NotAMultiple name value (multipleOf c)) when
    bool_decide (Z.rem value (multipleOf c) ≠ 0);
  Ok tt.

(** [contract.symbols.at(name)] throws for an absent name. *)
Definition checkBound (table : gmap string SymbolConstraint) (entry : string * Z) :
    result shape_error unit :=
  match table !! entry.1 with
  | None => Err (MapAtOutOfRange entry.1)
  | Some c => checkConstraint entry.1 c entry.2
  end.

Definition bindShapeValues (c : ShapeContract) (values : list PortShapeValues) :
    result shape_error ShapeValues :=
  _ ← validateShapeContract c;
  supplied ← fold_result (supplyEntry c (portPositions 0 0 (ports c)))
    (replicate (length (ports c)) None) values;
  _ ← for_each (λ pair, fail_if (bool_decide (pair.2 = None)) (MissingPort (port_name pair.1)))
    (zip (ports c) supplied);
  bound ← fold_result bindPort ∅ (zip (ports c) supplied);
  _ ← for_each (checkBound (symbols c)) (in_order bound);
  Ok bound.

Definition checkDeclared (values : ShapeValues) (entry : string * SymbolConstraint) :
    result shape_error unit :=
  match values !! entry.1 with
  | None => Err (MissingValue entry.1)
  | Some v =>
    fail! (NegativeValue entry.1) when bool_decide (v < 0);
    checkConstraint entry.1 entry.2 v
  end.

Definition validateShapeValues (c : ShapeContract) (values : ShapeValues) :
    result shape_error unit :=
  _ ← validateShapeContract c;
  _ ← for_each (checkDeclared values) (in_order (symbols c));
  for_each (λ entry, fail_if (bool_decide (symbols c !! entry.1 = None)) (UnknownValue entry.1))
    (in_order values).
End contract.

(** ** Identity *)
Definition canonicalPort (p : ShapePort) : string :=
  appendField "name" (port_name p) +:+
  appendField "direction" (stringifyDirection (direction p)) +:+
  appendInt "rank" (Z.of_nat (length (shape p))) +:+
  String.concat "" (appendDimension <$> shape p).

Definition canonicalSymbol (entry : string * SymbolConstraint) : string :=
  appendField "symbol" entry.1 +:+
  appendInt "min" (min entry.2) +:+
  match max entry.2 with
  | Some m => appendInt "max" m
  | None => "max=none;"
  end +:+
  appendInt "multiple_of" (multipleOf entry.2).

Definition canonicalShapeContract (c : ShapeContract) : string :=
  appendInt "ports" (Z.of_nat (length (ports c))) +:+
  String.concat "" (canonicalPort <$> ports c) +:+
  appendInt "symbols" (Z.of_nat (size (symbols c))) +:+
  String.concat "" (canonicalSymbol <$> in_order (symbols c)).

(** ** Predicate classification *)
Definition classifyPredicate (p : ShapePredicate) (c : ShapeContract) : PredicateVerdict :=
  match symbols c !! predicate_symbol p with
  | None => RuntimeGuard
  | Some k =>
    if bool_decide (multipleOf k <= 0) then RuntimeGuard
    else
      let value := predicate_value p in
      let single := match max k with Some m => bool_decide (min k = m) | None => false end in
      match kind p with
      | DivisibleBy =>
        if bool_decide (value <= 0) then Disproven
        else if bool_decide (Z.rem (multipleOf k) value = 0) then Proven
        else if single
        then if bool_decide (Z.rem (min k) value = 0) then Proven else Disproven
        else if negb (hasMultipleInRange (min k) (max k) value) then Disproven
        else RuntimeGuard
      | EqualTo =>
        if bool_decide (value < min k) ||
           match max k with Some m => bool_decide (value > m) | None => false end
        then Disproven
        else if bool_decide (Z.rem value (multipleOf k) ≠ 0) then Disproven
        else if single then Proven
        else RuntimeGuard
      | AtLeast =>
        if bool_decide (min k >= value) then Proven
        else if match max k with Some m => bool_decide (m < value) | None => false end
        then Disproven
        else RuntimeGuard
      end
  end.

(** ** What the operations promise *)

(** The extents a constraint admits, among the values an [int64_t] holds. *)
Definition admissible (c : SymbolConstraint) (x : Z) : Prop :=
  in_i64 x ∧ min c <= x ∧ (∀ m, max c = Some m → x <= m) ∧ (multipleOf c | x).

Definition constraint_typed (c : SymbolConstraint) : Prop :=
  in_i64 (min c) ∧ (∀ m, max c = Some m → in_i64 m) ∧ in_i64 (multipleOf c).

Definition contract_typed (c : ShapeContract) : Prop :=
  ∀ name k, symbols c !! name = Some k → constraint_typed k.

Definition constraint_wf (k : SymbolConstraint) : Prop :=
  0 <= min k ∧ (∀ m, max k = Some m → min k <= m) ∧ 0 < multipleOf k ∧
  ∃ x, admissible k x.

Definition dimension_wf (d : Dimension) : Prop :=
  match d with
  | DimConstant c => 0 <= c
  | DimSymbol s => s ≠ ""
  end.

Definition port_uses (p : ShapePort) (s : string) : Prop := DimSymbol s ∈ shape p.

Definition contract_wf (c : ShapeContract) : Prop :=
  NoDup (port_name <$> ports c) ∧
  (∀ p, p ∈ ports c → shape p ≠ [] ∧ ∀ d, d ∈ shape p → dimension_wf d) ∧
  (∀ s k, symbols c !! s = Some k →
    s ≠ "" ∧ constraint_wf k ∧ ∃ p, p ∈ ports c ∧ port_uses p s) ∧
  (∀ p s, p ∈ ports c → port_uses p s → is_Some (symbols c !! s)).

(** What a predicate says of an extent, in the source's own operators. *)
Definition predicate_holds (p : ShapePredicate) (x : Z) : Prop :=
  match kind p with
  | DivisibleBy => Z.rem x (predicate_value p) = 0
  | EqualTo => x = predicate_value p
  | AtLeast => x >= predicate_value p
  end.

(** ** Congruence arithmetic *)
Lemma rem_zero_divide a b : b ≠ 0 → Z.rem a b = 0 ↔ (b | a).
Proof. intros Hb. by rewrite Z.rem_divide. Qed.

Lemma next_multiple_least lo d x :
  0 <= lo → 0 < d → Z.rem lo d ≠ 0 → (d | x) → lo <= x → lo + (d - Z.rem lo d) <= x.
Proof.
  intros Hlo Hd Hrem [k ->] Hle. rewrite Z.rem_mod_nonneg in * by lia.
  pose proof (Z.div_mod lo d ltac:(lia)) as Hdm.
  pose proof (Z.mod_pos_bound lo d ltac:(lia)) as Hb.
  assert (lo `div` d < k) by nia. nia.
Qed.

Lemma next_multiple_divides lo d :
  0 <= lo → 0 < d → (d | lo + (d - Z.rem lo d)).
Proof.
  intros Hlo Hd. rewrite Z.rem_mod_nonneg by lia. exists (lo `div` d + 1).
  pose proof (Z.div_mod lo d ltac:(lia)). lia.
Qed.

(** The range test is exact: it holds iff a multiple lies in the range. *)
Lemma hasMultipleInRange_spec lo hi d :
  0 <= lo → in_i64 lo → 0 < d → (∀ m, hi = Some m → lo <= m ∧ in_i64 m) →
  hasMultipleInRange lo hi d = true ↔
  ∃ x, in_i64 x ∧ lo <= x ∧ (∀ m, hi = Some m → x <= m) ∧ (d | x).
Proof.
  intros Hlo Hty Hd Hhi. unfold hasMultipleInRange.
  rewrite bool_decide_false by lia.
  assert (0 <= Z.rem lo d < d) as Hrem.
  { rewrite Z.rem_mod_nonneg by lia. by apply Z.mod_pos_bound. }
  unfold in_i64, i64_max in *.
  destruct (decide (Z.rem lo d = 0)) as [H0|H0].
  { rewrite bool_decide_true by done. split; [intros _|done].
    exists lo. split_and!; [lia..| |by apply rem_zero_divide; [lia|]].
    intros m Hm. by apply Hhi. }
  rewrite (bool_decide_false _ H0).
  pose proof (next_multiple_divides lo d Hlo Hd) as Hdiv.
  split.
  - case_bool_decide; [done|]. intros Hmax.
    exists (lo + (d - Z.rem lo d)). split_and!; [lia..| |done].
    intros m ->. by apply bool_decide_eq_true in Hmax.
  - intros (x & Hx & Hlox & Hxm & Hdx).
    pose proof (next_multiple_least lo d x Hlo Hd H0 Hdx Hlox).
    rewrite bool_decide_false by lia. destruct hi as [m|]; [|done].
    apply bool_decide_eq_true. specialize (Hxm m eq_refl). lia.
Qed.

Lemma single_point k m x :
  max k = Some m → min k = m → admissible k x → x = min k.
Proof. intros Hm Hs (_ & Hlo & Hhi & _). specialize (Hhi m Hm). lia. Qed.

(** ** Classification *)

Lemma classify_unfold p c k :
  symbols c !! predicate_symbol p = Some k → classifyPredicate p c ≠ RuntimeGuard →
  0 < multipleOf k.
Proof.
  intros Hk. unfold classifyPredicate. rewrite Hk. case_bool_decide; [done|lia].
Qed.

Lemma admissible_rem k v x :
  0 < multipleOf k → 0 < v → Z.rem (multipleOf k) v = 0 → admissible k x → Z.rem x v = 0.
Proof.
  intros Hk Hv Hrem (_ & _ & _ & Hd). apply rem_zero_divide in Hrem; [|lia].
  apply rem_zero_divide; [lia|]. by etrans.
Qed.

(** A divisor is positive, or the predicate is another. *)
Lemma classify_in_domain (p : ShapePredicate) (c : ShapeContract) (k : SymbolConstraint) :
  symbols c !! predicate_symbol p = Some k →
  constraint_typed k → 0 <= min k → (∀ m, max k = Some m → min k <= m) →
  (kind p = DivisibleBy → 0 < predicate_value p) →
  (classifyPredicate p c = Proven → ∀ x, admissible k x → predicate_holds p x) ∧
  (classifyPredicate p c = Disproven → ∀ x, admissible k x → ¬ predicate_holds p x).
Proof.
  intros Hk (Hmin & Hmax & _) Hlo Hhi Hdiv.
  unfold classifyPredicate, predicate_holds. rewrite Hk.
  case_bool_decide as Hm; [done|]. destruct (kind p).
  - specialize (Hdiv eq_refl). rewrite bool_decide_false by lia.
    case_bool_decide as Hdecl.
    { split; [intros _ x Hx|done]. eapply (admissible_rem k); [lia|done..]. }
    destruct (max k) as [m|] eqn:Hmk; [case_bool_decide as Hs|].
    { case_bool_decide as Hr; (split; [try done|try done]);
        intros _ x Hx; by rewrite (single_point k m x). }
    all: split; [by case_match|]; destruct (hasMultipleInRange _ _ _) eqn:Hr; [done|];
      intros _ x (Hx & Hlox & Hxm & _) Hz;
      apply not_true_iff_false in Hr; apply Hr, hasMultipleInRange_spec; try done.
    1: by intros ? [= <-]; split; [apply Hhi|apply Hmax].
    all: exists x; split_and!; [apply Hx..|lia| |by apply rem_zero_divide; [lia|]].
    + intros ? [= <-]. by apply Hxm.
    + done.
  - destruct (_ || _)%bool eqn:Hout.
    { split; [done|]. intros _ x (_ & Hlox & Hxm & _) ->.
      apply orb_true_iff in Hout as [Hout%bool_decide_eq_true|Hout]; [lia|].
      destruct (max k) as [m|]; [|done]. apply bool_decide_eq_true in Hout.
      specialize (Hxm m eq_refl). lia. }
    apply orb_false_iff in Hout as [Hge%bool_decide_eq_false Hout].
    destruct (decide (Z.rem (predicate_value p) (multipleOf k) ≠ 0)) as [Hr|Hr];
      [rewrite bool_decide_true by done|rewrite bool_decide_false by done].
    { split; [done|]. intros _ x (_ & _ & _ & Hd) ->. apply Hr, rem_zero_divide; [lia|done]. }
    destruct (max k) as [m|] eqn:Hmk; [|done].
    apply bool_decide_eq_false in Hout. case_bool_decide as Hs; [|done].
    split; [|done]. intros _ x Hx. rewrite (single_point k m x) by done. lia.
  - case_bool_decide as Hge.
    { split; [|done]. intros _ x (_ & Hlox & _). lia. }
    destruct (max k) as [m|] eqn:Hmk; [case_bool_decide as Hs|]; try done.
    split; [done|]. intros _ x (_ & _ & Hxm & _). specialize (Hxm m Hmk). lia.
Qed.


Definition example_constraint : SymbolConstraint := mkConstraint 0 (Some 96) 16.
Definition example_contract : ShapeContract :=
  mkContract
    [mkPort "lhs" Input [DimSymbol "M"; DimConstant 64];
     mkPort "out" Output [DimSymbol "M"; DimConstant 32]]
    {["M" := example_constraint]}.

Lemma example_typed : constraint_typed example_constraint.
Proof. split_and!; [|intros m [= <-]|]; split; done. Qed.


(** ** Validation is exact *)
Section validation.
Context (stringset_order : gset string → list string).
Hypothesis stringset_order_perm : ∀ s, stringset_order s ≡ₚ elements s.

Lemma str_empty_false s : str_empty s = false ↔ s ≠ "".
Proof. apply bool_decide_eq_false. Qed.

Lemma checkPortName_ok seen p seen' :
  (checkPortName seen p = Ok seen') ↔ (port_name p ∉ seen) ∧ seen' = {[port_name p]} ∪ seen.
Proof.
  unfold checkPortName. rewrite fail_then_ok, bool_decide_eq_false.
  split; intros [? H]; (split; [done|]); congruence.
Qed.

Lemma checkPortName_fold ps seen :
  (∃ seen', fold_result checkPortName seen ps = Ok seen') ↔
  NoDup (port_name <$> ps) ∧ (∀ p, p ∈ ps → port_name p ∉ seen).
Proof.
  revert seen. induction ps as [|p ps IH]; intros seen; csimpl.
  { split; [|by eexists]. split; [constructor|]. by intros p Hp%elem_of_nil. }
  setoid_rewrite bind_ok. setoid_rewrite checkPortName_ok. rewrite NoDup_cons.
  setoid_rewrite elem_of_cons. split.
  - intros (seen' & t & [Hp ->] & Hrun).
    destruct (proj1 (IH _) (ex_intro _ seen' Hrun)) as [Hnd Hseen].
    setoid_rewrite not_elem_of_union in Hseen. setoid_rewrite not_elem_of_singleton in Hseen.
    split; [split; [|done]|].
    + intros (q & Hq & Hin)%list_elem_of_fmap. by destruct (Hseen q Hin).
    + intros q [->|Hin]; [done|]. by destruct (Hseen q Hin).
  - intros [[Hp Hnd] Hseen].
    destruct (proj2 (IH ({[port_name p]} ∪ seen))) as [seen' Hrun]; [|eauto 8].
    split; [done|]. intros q Hin. rewrite not_elem_of_union, not_elem_of_singleton.
    split; [|auto]. intros Heq. apply Hp. rewrite <- Heq. by apply list_elem_of_fmap_2.
Qed.

(** The symbols a list of extents names. *)
Definition dims_symbols (ds : list Dimension) : gset string :=
  list_to_set (omap (λ d, match d with DimSymbol s => Some s | DimConstant _ => None end) ds).

Lemma elem_of_dims_symbols s ds : s ∈ dims_symbols ds ↔ DimSymbol s ∈ ds.
Proof.
  unfold dims_symbols. rewrite elem_of_list_to_set, list_elem_of_omap. split.
  - by intros ([c|s'] & Hin & [= ->]).
  - intros Hin. by exists (DimSymbol s).
Qed.

Lemma dims_symbols_nil : dims_symbols [] = ∅.
Proof. done. Qed.
Lemma dims_symbols_constant c ds : dims_symbols (DimConstant c :: ds) = dims_symbols ds.
Proof. done. Qed.
Lemma dims_symbols_symbol s ds : dims_symbols (DimSymbol s :: ds) = {[s]} ∪ dims_symbols ds.
Proof. done. Qed.

Lemma collectDimension_fold port i ds used used' :
  fold_result_from i (collectDimension port) used ds = Ok used' ↔
  (∀ d, d ∈ ds → dimension_wf d) ∧ used' = used ∪ dims_symbols ds.
Proof.
  revert i used. induction ds as [|d ds IH]; intros i used; simpl.
  { split.
    - intros [= <-]. split; [by intros d Hd%elem_of_nil|]. by rewrite dims_symbols_nil, union_empty_r_L.
    - intros [_ ->]. by rewrite dims_symbols_nil, union_empty_r_L. }
  rewrite bind_ok. setoid_rewrite IH. setoid_rewrite elem_of_cons. split.
  - intros (t & Ht & Hds & ->). destruct d as [c|s]; simpl in Ht; inv_result.
    + split; [|by rewrite dims_symbols_constant]. intros d [->|Hd]; [simpl; lia|auto].
    + split; [|rewrite dims_symbols_symbol; set_tauto].
      apply str_empty_false in H. intros d [->|Hd]; auto.
  - intros [Hds ->]. pose proof (Hds d (or_introl eq_refl)) as Hd. destruct d as [c|s]; simpl in *.
    + exists used. rewrite bool_decide_false by lia. split_and!; eauto.
    + exists ({[s]} ∪ used). apply str_empty_false in Hd. rewrite Hd. split_and!; eauto.
      rewrite dims_symbols_symbol. set_tauto.
Qed.

Definition ports_symbols (ps : list ShapePort) : gset string := ⋃ (dims_symbols ∘ shape <$> ps).

Lemma elem_of_ports_symbols s ps : s ∈ ports_symbols ps ↔ ∃ p, p ∈ ps ∧ port_uses p s.
Proof.
  unfold ports_symbols, port_uses. rewrite elem_of_union_list. split.
  - intros (X & (p & -> & Hp)%list_elem_of_fmap & Hs). exists p.
    split; [done|]. by apply elem_of_dims_symbols.
  - intros (p & Hp & Hs). exists (dims_symbols (shape p)).
    split; [|by apply elem_of_dims_symbols]. by apply (list_elem_of_fmap_2 (dims_symbols ∘ shape)).
Qed.

Lemma ports_symbols_nil : ports_symbols [] = ∅.
Proof. done. Qed.

Lemma collectPort_fold ps used used' :
  fold_result collectPort used ps = Ok used' ↔
  (∀ p, p ∈ ps → shape p ≠ [] ∧ ∀ d, d ∈ shape p → dimension_wf d) ∧
  used' = used ∪ ports_symbols ps.
Proof.
  revert used. induction ps as [|p ps IH]; intros used; simpl.
  { split.
    - intros [= <-]. split; [by intros d Hd%elem_of_nil|]. by rewrite ports_symbols_nil, union_empty_r_L.
    - intros [_ ->]. by rewrite ports_symbols_nil, union_empty_r_L. }
  rewrite bind_ok. setoid_rewrite IH. setoid_rewrite elem_of_cons.
  unfold collectPort at 1. setoid_rewrite bind_ok. setoid_rewrite collectDimension_fold.
  setoid_rewrite fail_if_ok. setoid_rewrite bool_decide_eq_false.
  assert (ports_symbols (p :: ps) = dims_symbols (shape p) ∪ ports_symbols ps) as -> by done.
  split.
  - intros (t & ([] & Hne & Hd & ->) & Hps & ->). split; [|set_tauto].
    intros q [->|Hq]; auto.
  - intros [Hps ->]. exists (used ∪ dims_symbols (shape p)).
    destruct (Hps p (or_introl eq_refl)) as [Hne Hd]. split; [exists tt; auto|].
    split; [auto|set_tauto].
Qed.

Lemma validateSymbol_ok used name k :
  constraint_typed k →
  validateSymbol used (name, k) = Ok tt ↔ name ≠ "" ∧ constraint_wf k ∧ name ∈ used.
Proof.
  intros (Hmin & Hmax & Hmul). unfold validateSymbol, constraint_wf.
  rewrite !fail_then_ok, str_empty_false, negb_false_iff, !bool_decide_eq_false.
  assert ((match max k with Some m => bool_decide (m < min k) | None => false end) = false ↔
    ∀ m, max k = Some m → min k <= m) as Hmm.
  { destruct (max k) as [m|]; [|naive_solver]. rewrite bool_decide_eq_false.
    split; [intros H ? [= <-]; lia|intros H; specialize (H m eq_refl); lia]. }
  rewrite Hmm.
  split.
  - intros (? & Hlo & Hhi & Hd & Hr & Hu & _). apply dec_stable in Hu.
    split_and!; try done; try lia.
    apply hasMultipleInRange_spec in Hr as (x & ? & ? & ? & ?); [by exists x|lia|done|lia|].
    intros m Hm. auto.
  - intros (Hne & (Hlo & Hhi & Hd & x & Hx) & Hu). split_and!; try done; try lia; [|by intros []].
    apply hasMultipleInRange_spec; [lia|done|lia|auto|].
    exists x. destruct Hx as (?&?&?&?). auto.
Qed.

Lemma validate_iff (c : ShapeContract) :
  contract_typed c →
  validateShapeContract stringset_order c = Ok tt ↔ contract_wf c.
Proof.
  intros Hty. unfold validateShapeContract, validateSymbolTable.
  setoid_rewrite bind_ok. setoid_rewrite bind_ok. setoid_rewrite bind_ok.
  setoid_rewrite collectPort_fold. setoid_rewrite for_each_ok.
  setoid_rewrite fail_if_ok. setoid_rewrite bool_decide_eq_false.
  setoid_rewrite stringset_order_perm. setoid_rewrite elem_of_elements.
  unfold contract_wf. split.
  - intros (seen & Hnames & used & (Hps & ->) & [] & Hsym & Hdecl).
    rewrite union_empty_l_L in *. rewrite for_each_ok in Hsym.
    split_and!; [by apply (checkPortName_fold (ports c) ∅); exists seen|done| |].
    + intros s k Hk. assert ((s, k) ∈ in_order (symbols c)) as Hin by by apply in_order_elem.
      apply Hsym, validateSymbol_ok in Hin as (? & ? & Hu);
        [|by eapply Hty]. split_and!; [done..|]. by apply elem_of_ports_symbols.
    + intros p s Hp Hs. apply not_eq_None_Some. apply Hdecl. apply elem_of_ports_symbols. eauto.
  - intros (Hnd & Hps & Hsym & Hdecl).
    destruct (proj2 (checkPortName_fold (ports c) ∅)) as [seen Hseen];
      [split; [done|]; intros p _; apply not_elem_of_empty|].
    exists seen. split; [done|].
    exists (∅ ∪ ports_symbols (ports c)). split; [done|]. rewrite union_empty_l_L.
    exists tt. split.
    + apply for_each_ok. intros [s k] Hin%in_order_elem. apply validateSymbol_ok; [by eapply Hty|].
      destruct (Hsym s k Hin) as (? & ? & Hu). split_and!; [done..|]. by apply elem_of_ports_symbols.
    + intros s (p & Hp & Hs)%elem_of_ports_symbols. apply not_eq_None_Some. eauto.
Qed.

(** Validation accepts exactly the well-formed contracts: port names are
    unique, every port has an extent and no extent is negative or unnamed,
    every declared symbol is used and has bounds some extent satisfies, and
    every used symbol is declared. *)
Theorem validateShapeContract_exact (c : ShapeContract) :
  contract_typed c →
  validateShapeContract stringset_order c = Ok tt ↔ contract_wf c.
Proof. exact (validate_iff c). Qed.
End validation.

Lemma validateShapeContract_exact_witness :
  contract_typed example_contract ∧
  validateShapeContract elements example_contract = Ok tt ∧ contract_wf example_contract.
Proof.
  assert (contract_typed example_contract) as Hty.
  { intros s k Hk. unfold example_contract in Hk. simpl in Hk.
    apply lookup_singleton_Some in Hk as [<- <-]. apply example_typed. }
  split_and!; [done|reflexivity|].
  by apply (validateShapeContract_exact elements (λ s, reflexivity _) example_contract).
Defined.

(** ** The identity is collision-free *)
Lemma appendInt_code tag : prefix_code (appendInt tag).
Proof.
  intros x y s t. unfold appendInt. autorewrite with dsl_rw. intros Heq.
  apply (inj (String.app tag)) in Heq. injection Heq as Heq.
  by apply to_string_split in Heq.
Qed.

(** A length-delimited text. *)
Lemma delimited_split (a b s t : string) :
  to_string (Z.of_nat (String.length a)) +:+ ":" +:+ a +:+ s =
  to_string (Z.of_nat (String.length b)) +:+ ":" +:+ b +:+ t → a = b ∧ s = t.
Proof.
  intros Heq. rewrite !(str_app_cons ":"%char), !str_app_nil_l in Heq.
  apply to_string_split in Heq as [Hlen Heq]; [|done].
  apply str_app_inj_length in Heq; [done|lia].
Qed.

Lemma appendField_code tag : prefix_code (appendField tag).
Proof.
  intros x y s t. unfold appendField. rewrite !str_app_assoc. intros Heq.
  apply (inj (String.app tag)) in Heq. injection Heq as Heq.
  apply delimited_split in Heq as [-> Heq]. by injection Heq.
Qed.

Lemma appendDimension_code : prefix_code appendDimension.
Proof.
  intros [c|a] [c'|b] s t; unfold appendDimension; rewrite !str_app_assoc; intros Heq;
    [|by injection Heq..|].
  - injection Heq as Heq. apply to_string_split in Heq as [-> ->]; done.
  - injection Heq as Heq. apply delimited_split in Heq as [-> Heq]. by injection Heq.
Qed.

Lemma stringifyDirection_inj : Inj (=) (=) stringifyDirection.
Proof. by intros [] []. Qed.

Lemma canonicalPort_code : prefix_code canonicalPort.
Proof.
  intros [n d ds] [n' d' ds'] s t. unfold canonicalPort; cbn [port_name direction shape].
  rewrite !str_app_assoc. intros Heq.
  apply appendField_code in Heq as [-> Heq].
  apply appendField_code in Heq as [->%stringifyDirection_inj Heq].
  apply appendInt_code in Heq as [Hlen Heq].
  by apply (prefix_code_list _ _ _ _ _ appendDimension_code) in Heq as [-> ->]; [|lia].
Qed.

Definition canonicalMax (m : option Z) : string :=
  match m with Some m => appendInt "max" m | None => "max=none;" end.

Lemma canonicalMax_code : prefix_code canonicalMax.
Proof.
  intros [m|] [m'|] s t Heq.
  - by apply appendInt_code in Heq as [-> ->].
  - exfalso. unfold canonicalMax, appendInt in Heq. rewrite !str_app_assoc in Heq.
    injection Heq as Heq. pose proof (to_string_decimal m) as Hd.
    destruct (to_string m) as [|c r] eqn:Hm; injection Heq as Heq; subst; done.
  - exfalso. unfold canonicalMax, appendInt in Heq. rewrite !str_app_assoc in Heq.
    injection Heq as Heq. pose proof (to_string_decimal m') as Hd.
    destruct (to_string m') as [|c r] eqn:Hm; injection Heq as Heq; subst; done.
  - by injection Heq.
Qed.

Lemma canonicalSymbol_code : prefix_code canonicalSymbol.
Proof.
  intros [n [lo hi d]] [n' [lo' hi' d']] s t.
  unfold canonicalSymbol; cbn [fst snd min max multipleOf]. rewrite !str_app_assoc.
  change (match hi with Some m => appendInt "max" m | None => "max=none;" end)
    with (canonicalMax hi).
  change (match hi' with Some m => appendInt "max" m | None => "max=none;" end)
    with (canonicalMax hi').
  intros Heq. apply appendField_code in Heq as [-> Heq].
  apply appendInt_code in Heq as [-> Heq]. apply canonicalMax_code in Heq as [-> Heq].
  by apply appendInt_code in Heq as [-> ->].
Qed.

(** Two contracts with the same canonical text are the same contract: the
    identity is collision-safe for every choice of port and symbol names. *)
Theorem canonicalShapeContract_injective (c1 c2 : ShapeContract) :
  canonicalShapeContract c1 = canonicalShapeContract c2 → c1 = c2.
Proof.
  destruct c1 as [ps1 m1], c2 as [ps2 m2]. unfold canonicalShapeContract; cbn [ports symbols].
  intros Heq. apply appendInt_code in Heq as [Hlen Heq].
  apply (prefix_code_list _ _ _ _ _ canonicalPort_code) in Heq as [-> Heq]; [|lia].
  apply appendInt_code in Heq as [Hsize Heq]. f_equal.
  apply in_order_inj.
  rewrite <- (str_app_nil_r (String.concat "" (canonicalSymbol <$> in_order m1))) in Heq.
  rewrite <- (str_app_nil_r (String.concat "" (canonicalSymbol <$> in_order m2))) in Heq.
  apply (prefix_code_list _ _ _ _ _ canonicalSymbol_code) in Heq as [-> _]; [done|].
  rewrite !in_order_length. lia.
Qed.

(** Two symbol tables filled in different orders. *)
Definition two_symbols (order : list (string * SymbolConstraint)) : ShapeContract :=
  mkContract [mkPort "a;b:" Input [DimSymbol "M"; DimConstant 8; DimSymbol "N"]]
    (list_to_map order).

Lemma canonicalShapeContract_injective_witness :
  two_symbols [("M", mkConstraint 1 None 1); ("N", mkConstraint 0 (Some 64) 8)] =
  two_symbols [("N", mkConstraint 0 (Some 64) 8); ("M", mkConstraint 1 None 1)].
Proof. apply canonicalShapeContract_injective. vm_compute. reflexivity. Defined.

(** ** Binding *)

(** The extents a port receives agree with its declared dimensions under the
    assignment [σ]. *)
Definition extent_match (σ : ShapeValues) (d : Dimension) (x : Z) : Prop :=
  0 <= x ∧ match d with DimConstant c => x = c | DimSymbol s => σ !! s = Some x end.
Definition extents_match (σ : ShapeValues) : list Dimension → list Z → Prop :=
  Forall2 (extent_match σ).

Lemma extents_match_mono σ σ' ds xs : σ ⊆ σ' → extents_match σ ds xs → extents_match σ' ds xs.
Proof.
  intros Hsub H. eapply Forall2_impl; [exact H|]. intros [c|s] x [Hx Hm]; split; auto.
  by eapply lookup_weaken.
Qed.

Lemma bindDimension_spec port i bound d x bound' :
  bindDimension port i bound (d, x) = Ok bound' →
  bound ⊆ bound' ∧ extent_match bound' d x ∧ dom bound' = dom bound ∪ dims_symbols [d].
Proof.
  unfold bindDimension, extent_match. rewrite fail_then_ok, bool_decide_eq_false.
  intros [Hx Hd]. destruct d as [c|s].
  - apply fail_then_ok in Hd as [Hc%bool_decide_eq_false [= <-]].
    split_and!; [done|lia|by apply dec_stable in Hc|]. rewrite dims_symbols_constant, dims_symbols_nil.
    set_tauto.
  - rewrite dims_symbols_symbol, dims_symbols_nil. destruct (bound !! s) as [v|] eqn:Hs.
    + apply fail_then_ok in Hd as [Hc%bool_decide_eq_false [= <-]]. apply dec_stable in Hc as ->.
      split_and!; [done|lia|done|]. apply elem_of_dom_2 in Hs.
      apply set_eq. intros y. rewrite !elem_of_union, elem_of_singleton, elem_of_empty.
      split; [by left|]. by intros [?|[->|[]]].
    + injection Hd as <-. split_and!; [by apply insert_subseteq|lia|by rewrite lookup_insert_eq|].
      rewrite dom_insert_L. set_tauto.
Qed.

Lemma bindDimension_complete port i σ bound d x :
  bound ⊆ σ → extent_match σ d x →
  ∃ bound', bindDimension port i bound (d, x) = Ok bound' ∧ bound' ⊆ σ.
Proof.
  intros Hsub [Hx Hd]. unfold bindDimension. rewrite bool_decide_false by lia. cbn.
  destruct d as [c|s]; [subst; rewrite bool_decide_false by congruence; cbn; eauto|].
  destruct (bound !! s) as [v|] eqn:Hs.
  - eapply lookup_weaken in Hs; [|done]. rewrite bool_decide_false by congruence. cbn. eauto.
  - eexists. split; [done|]. by apply insert_subseteq_l.
Qed.

Lemma bindDims_spec port i ds xs bound bound' :
  length xs = length ds →
  fold_result_from i (bindDimension port) bound (zip ds xs) = Ok bound' →
  bound ⊆ bound' ∧ extents_match bound' ds xs ∧ dom bound' = dom bound ∪ dims_symbols ds.
Proof.
  revert i xs bound. induction ds as [|d ds IH]; intros i [|x xs] bound Hlen Hrun; try done.
  - injection Hrun as <-. split_and!; [done|constructor|]. rewrite dims_symbols_nil. set_tauto.
  - cbn [zip zip_with fold_result_from] in Hrun. apply bind_ok in Hrun as (t & Ht & Hrun).
    apply bindDimension_spec in Ht as (Hsub & Hm & Hdom).
    apply IH in Hrun as (Hsub' & Hms & Hdom'); [|by injection Hlen].
    split_and!; [by etrans| |].
    + constructor; [|done]. destruct Hm as [Hx Hm]. split; [done|].
      destruct d; [done|]. by eapply lookup_weaken.
    + rewrite Hdom', Hdom. destruct d;
        rewrite ?dims_symbols_constant, ?dims_symbols_symbol, ?dims_symbols_nil; set_tauto.
Qed.

Lemma bindDims_complete port i ds xs σ bound :
  bound ⊆ σ → extents_match σ ds xs →
  ∃ bound', fold_result_from i (bindDimension port) bound (zip ds xs) = Ok bound' ∧ bound' ⊆ σ.
Proof.
  intros Hsub Hm. revert i bound Hsub.
  induction Hm as [|d x ds xs Hd Hm IH]; intros i bound Hsub;
    cbn [zip zip_with fold_result_from]; [eauto|].
  destruct (bindDimension_complete port i σ bound d x Hsub Hd) as (b & -> & Hb). cbn. by apply IH.
Qed.

Lemma bindPort_spec bound p e bound' :
  bindPort bound (p, Some e) = Ok bound' →
  bound ⊆ bound' ∧ extents_match bound' (shape p) (extents e) ∧
  dom bound' = dom bound ∪ dims_symbols (shape p).
Proof.
  unfold bindPort. intros [Hlen%bool_decide_eq_false%dec_stable Hrun]%fail_then_ok.
  by eapply bindDims_spec.
Qed.

Lemma bindPorts_spec ps es bound bound' :
  length es = length ps → Forall (λ e, e ≠ None) es →
  fold_result bindPort bound (zip ps es) = Ok bound' →
  bound ⊆ bound' ∧ dom bound' = dom bound ∪ ports_symbols ps ∧
  Forall2 (λ p e, ∃ v, e = Some v ∧ extents_match bound' (shape p) (extents v)) ps es.
Proof.
  revert es bound. induction ps as [|p ps IH]; intros [|e es] bound Hlen Hsome Hrun; try done.
  { injection Hrun as <-. split_and!; [done| |constructor]. rewrite ports_symbols_nil. set_tauto. }
  apply Forall_cons in Hsome as [He Hsome]. destruct e as [e|]; [|done].
  cbn [zip zip_with fold_result] in Hrun. apply bind_ok in Hrun as (t & Ht & Hrun).
  apply bindPort_spec in Ht as (Hsub & Hm & Hdom).
  apply IH in Hrun as (Hsub' & Hdom' & Hms); [|by injection Hlen|done].
  split_and!; [by etrans| |].
  - rewrite Hdom', Hdom. change (ports_symbols (p :: ps)) with (dims_symbols (shape p) ∪ ports_symbols ps).
    set_tauto.
  - constructor; [|done]. exists e. split; [done|]. by eapply extents_match_mono.
Qed.

Lemma bindPorts_complete ps es σ bound :
  bound ⊆ σ →
  Forall2 (λ p e, ∃ v, e = Some v ∧ extents_match σ (shape p) (extents v)) ps es →
  ∃ bound', fold_result bindPort bound (zip ps es) = Ok bound' ∧ bound' ⊆ σ.
Proof.
  intros Hsub Hm. revert bound Hsub.
  induction Hm as [|p e ps es (v & -> & Hv) Hm IH]; intros bound Hsub;
    cbn [zip zip_with fold_result]; [eauto|].
  unfold bindPort. pose proof (Forall2_length _ _ _ Hv) as Hlen.
  rewrite bool_decide_false by (rewrite Hlen; auto). cbn.
  destruct (bindDims_complete (port_name p) 0 _ _ _ bound Hsub Hv) as (b & -> & Hb). cbn.
  by apply IH.
Qed.

(** *** Positions and the supplied table *)
Lemma portPositions_length a b ps : length (portPositions a b ps) = length ps.
Proof. revert a b. induction ps as [|p ps IH]; intros; cbn; [done|]. case_match; cbn; by rewrite IH. Qed.

Lemma portPositions_lower a b ps k :
  0 <= a → 0 <= b → a + Z.of_nat (length ps) < 2 ^ 32 → b + Z.of_nat (length ps) < 2 ^ 32 →
  ((Input, k) ∈ portPositions a b ps → a <= k) ∧ ((Output, k) ∈ portPositions a b ps → b <= k).
Proof.
  revert a b. induction ps as [|p ps IH]; intros a b Ha Hb Hla Hlb.
  { split; intros H%elem_of_nil; done. }
  cbn [length] in *. cbn [portPositions]. destruct (direction p).
  - rewrite u32_id by (unfold in_u32; lia).
    destruct (IH (a + 1) b) as [IHi IHo]; [lia..|].
    split; intros [Heq|Hin]%elem_of_cons; simplify_eq; [lia|specialize (IHi Hin); lia|auto].
  - rewrite u32_id by (unfold in_u32; lia).
    destruct (IH a (b + 1)) as [IHi IHo]; [lia..|].
    split; intros [Heq|Hin]%elem_of_cons; simplify_eq; [auto|lia|specialize (IHo Hin); lia].
Qed.

(** The two counters give every port a position of its own. *)
Lemma portPositions_NoDup a b ps :
  0 <= a → 0 <= b → a + Z.of_nat (length ps) < 2 ^ 32 → b + Z.of_nat (length ps) < 2 ^ 32 →
  NoDup (portPositions a b ps).
Proof.
  revert a b. induction ps as [|p ps IH]; intros a b Ha Hb Hla Hlb; [constructor|].
  cbn [length] in *. cbn [portPositions].
  destruct (direction p); rewrite u32_id by (unfold in_u32; lia);
    (constructor; [|apply IH; lia]).
  - intros Hin. apply portPositions_lower in Hin; lia.
  - intros Hin. apply portPositions_lower in Hin; lia.
Qed.

Section binding.
Context (c : ShapeContract) (positions : list (PortDirection * Z)).

Lemma supplyEntry_ok supplied e supplied' :
  supplyEntry c positions supplied e = Ok supplied' →
  ∃ i, positions !! i = Some (value_key e) ∧ supplied' = <[i := Some e]> supplied.
Proof.
  unfold supplyEntry. destruct (list_find _ positions) as [[i pos]|] eqn:Hf; [|done].
  apply list_find_Some in Hf as (Hi & -> & _). case_match; [done|]. intros [= <-]. eauto.
Qed.

Lemma supply_sound values supplied' :
  fold_result (supplyEntry c positions) (replicate (length positions) None) values = Ok supplied' →
  length supplied' = length positions ∧
  ∀ i e, supplied' !! i = Some (Some e) → e ∈ values ∧ positions !! i = Some (value_key e).
Proof.
  intros Hrun.
  apply (fold_result_inv _ (λ pre s, length s = length positions ∧
    ∀ i e, s !! i = Some (Some e) → e ∈ pre ∧ positions !! i = Some (value_key e))) in Hrun;
    [done| |].
  - split; [apply length_replicate|]. intros i e H. by apply lookup_replicate in H as [].
  - intros pre e post t t' _ [Hlen Ht] (i & Hi & ->)%supplyEntry_ok.
    rewrite length_insert. split; [done|]. intros j e' Hj.
    rewrite elem_of_app, list_elem_of_singleton.
    destruct (decide (i = j)) as [->|Hne].
    + rewrite list_lookup_insert_eq in Hj by (rewrite Hlen; by eapply lookup_lt_Some).
      simplify_eq. auto.
    + rewrite list_lookup_insert_ne in Hj by done. apply Ht in Hj as []. auto.
Qed.

Lemma supply_complete values supplied :
  NoDup positions → NoDup (value_key <$> values) → length supplied = length positions →
  (∀ e, e ∈ values → value_key e ∈ positions) →
  (∀ e i, e ∈ values → positions !! i = Some (value_key e) → supplied !! i = Some None) →
  ∃ supplied', fold_result (supplyEntry c positions) supplied values = Ok supplied' ∧
    length supplied' = length positions ∧
    (∀ i, (∃ e, e ∈ values ∧ positions !! i = Some (value_key e) ∧ supplied' !! i = Some (Some e)) ∨
          ((∀ e, e ∈ values → positions !! i ≠ Some (value_key e)) ∧
           supplied' !! i = supplied !! i)).
Proof.
  intros Hnd. revert supplied. induction values as [|e values IH]; intros supplied Hkeys Hlen Hin Hfree.
  { exists supplied. split_and!; [done..|]. intros i. right. split; [by intros e ?%elem_of_nil|done]. }
  csimpl in *. apply NoDup_cons in Hkeys as [Hfresh Hkeys].
  assert (value_key e ∈ positions) as He by (apply Hin; left).
  destruct (list_find_elem_of (λ pos, pos = value_key e) positions (value_key e) He eq_refl)
    as [[i pos] Hf].
  assert (positions !! i = Some (value_key e)) as Hi by (apply list_find_Some in Hf as (? & -> & _); done).
  pose proof (Hfree e i ltac:(left) Hi) as Hnone.
  assert (supplyEntry c positions supplied e = Ok (<[i := Some e]> supplied)) as ->.
  { unfold supplyEntry. by rewrite Hf, Hnone. }
  cbn. destruct (IH (<[i := Some e]> supplied)) as (s & -> & Hs & Hall).
  - done.
  - by rewrite length_insert.
  - intros e' He'. apply Hin. by right.
  - intros e' j He' Hj. rewrite list_lookup_insert_ne; [apply (Hfree e'); [by right|done]|].
    intros <-. apply Hfresh.
    assert (value_key e = value_key e') as -> by congruence.
    by apply list_elem_of_fmap_2.
  - exists s. split_and!; [done..|]. intros j. destruct (Hall j) as [(e' & He' & Hj & Hsj)|[Hno Hsj]].
    + left. exists e'. split_and!; [by right|done..].
    + destruct (decide (i = j)) as [->|Hne].
      * left. exists e. split_and!; [left|done|]. rewrite Hsj.
        apply list_lookup_insert_eq. rewrite Hlen. by eapply lookup_lt_Some.
      * right. rewrite list_lookup_insert_ne in Hsj by done. split; [|done].
        intros e' [->|He']%elem_of_cons; [|by apply Hno]. intros Hj. apply Hne.
        exact (NoDup_lookup positions i j _ Hnd Hi Hj).
Qed.
End binding.

Lemma checkConstraint_ok name k v :
  0 < multipleOf k →
  checkConstraint name k v = Ok tt ↔
  min k <= v ∧ (∀ m, max k = Some m → v <= m) ∧ (multipleOf k | v).
Proof.
  intros Hk. unfold checkConstraint. rewrite fail_then_ok, bool_decide_eq_false.
  destruct (max k) as [m|].
  - rewrite fail_then_ok, fail_then_ok, !bool_decide_eq_false, <- (rem_zero_divide v) by lia.
    split.
    + intros (? & ? & H%dec_stable & _). split_and!; [lia| |done]. intros ? [= <-]. lia.
    + intros (? & Hm & H). specialize (Hm m eq_refl). split_and!; [lia|lia|by intros []|done].
  - cbn. rewrite fail_then_ok, !bool_decide_eq_false, <- (rem_zero_divide v) by lia.
    split.
    + intros (? & H%dec_stable & _). split_and!; [lia|done|done].
    + intros (? & Hm & H). split_and!; [lia|by intros []|done].
Qed.

Section contract_properties.
Context (stringset_order : gset string → list string).
Hypothesis stringset_order_perm : ∀ s, stringset_order s ≡ₚ elements s.

(** What a complete assignment satisfies. *)
Definition values_wf (c : ShapeContract) (σ : ShapeValues) : Prop :=
  dom σ = dom (symbols c) ∧
  ∀ s k v, symbols c !! s = Some k → σ !! s = Some v →
    0 <= v ∧ min k <= v ∧ (∀ m, max k = Some m → v <= m) ∧ (multipleOf k | v).

Lemma validateShapeValues_exact c σ :
  contract_typed c →
  validateShapeValues stringset_order c σ = Ok tt ↔ contract_wf c ∧ values_wf c σ.
Proof.
  intros Hty. unfold validateShapeValues. rewrite !seq_ok, validate_iff by done.
  rewrite !for_each_ok. unfold values_wf. split.
  - intros (Hwf & Hdecl & Hknown). split; [done|].
    assert (∀ s k, symbols c !! s = Some k → ∃ v, σ !! s = Some v ∧ 0 <= v ∧ min k <= v ∧
      (∀ m, max k = Some m → v <= m) ∧ (multipleOf k | v)) as Hv.
    { intros s k Hk. pose proof (Hdecl (s, k) (proj2 (in_order_elem _ _ _) Hk)) as Hd.
      unfold checkDeclared in Hd. cbn in Hd. destruct (σ !! s) as [v|]; [|done].
      apply fail_then_ok in Hd as [Hv%bool_decide_eq_false Hd].
      apply checkConstraint_ok in Hd; [exists v; split_and!; [done|lia|apply Hd..]|].
      destruct Hwf as (_ & _ & Hs & _). by destruct (Hs s k Hk) as (_ & (_ & _ & ? & _) & _). }
    split.
    + apply set_eq. intros s. rewrite !elem_of_dom. split.
      * intros [v Hs]. pose proof (Hknown (s, v) (proj2 (in_order_elem _ _ _) Hs)) as Hk.
        apply fail_if_ok, bool_decide_eq_false in Hk. by apply not_eq_None_Some.
      * intros [k Hk]. destruct (Hv s k Hk) as (v & -> & _). eauto.
    + intros s k v Hk Hs. destruct (Hv s k Hk) as (v' & Hs' & H). by simplify_eq.
  - intros (Hwf & Hdom & Hv). split_and!; [done| |].
    + intros [s k] Hk%in_order_elem. unfold checkDeclared. cbn.
      assert (is_Some (σ !! s)) as [v Hs] by (rewrite <- elem_of_dom, Hdom; by eapply elem_of_dom_2).
      rewrite Hs. destruct (Hv s k v Hk Hs) as (? & Hc). rewrite bool_decide_false by lia. cbn.
      apply checkConstraint_ok; [|done].
      destruct Hwf as (_ & _ & Hsy & _). by destruct (Hsy s k Hk) as (_ & (_ & _ & ? & _) & _).
    + intros [s v] Hs%in_order_elem. apply fail_if_ok, bool_decide_eq_false. cbn.
      apply not_eq_None_Some. rewrite <- elem_of_dom, <- Hdom. by eapply elem_of_dom_2.
Qed.

Lemma zip_missing_ok (ps : list ShapePort) (es : list (option PortShapeValues)) :
  length es = length ps →
  for_each (λ pair, fail_if (bool_decide (pair.2 = None)) (MissingPort (port_name pair.1)))
    (zip ps es) = Ok tt ↔ Forall (λ e, e ≠ None) es.
Proof.
  revert es. induction ps as [|p ps IH]; intros [|e es] Hlen; try done.
  cbn [zip zip_with for_each]. rewrite seq_ok, IH, Forall_cons by (by injection Hlen).
  by rewrite fail_if_ok, bool_decide_eq_false.
Qed.

Lemma declared_symbols c :
  contract_wf c → ports_symbols (ports c) = dom (symbols c).
Proof.
  intros (_ & _ & Hs & Hd). apply set_eq. intros s.
  rewrite elem_of_ports_symbols, elem_of_dom. split.
  - intros (p & Hp & Hu). eauto.
  - intros [k Hk]. by destruct (Hs s k Hk) as (_ & _ & ?).
Qed.

(** C6: A successful binding is right: every port received exactly the extents
    its dimensions declare under the returned assignment, from the entry
    supplied at its position, and the assignment passes [validateShapeValues]. *)
Theorem bindShapeValues_sound (c : ShapeContract) (values : list PortShapeValues)
    (σ : ShapeValues) :
  contract_typed c →
  bindShapeValues stringset_order c values = Ok σ →
  validateShapeValues stringset_order c σ = Ok tt ∧
  ∀ i p, ports c !! i = Some p →
    ∃ e, e ∈ values ∧ portPositions 0 0 (ports c) !! i = Some (value_key e) ∧
      extents_match σ (shape p) (extents e).
Proof.
  intros Hty. unfold bindShapeValues. rewrite seq_ok, validate_iff by done.
  intros (Hwf & (es & Hes & Hrun)%bind_ok).
  rewrite <- (portPositions_length 0 0) in Hes. apply supply_sound in Hes as [Hlen Hes].
  rewrite portPositions_length in Hlen.
  rewrite seq_ok, zip_missing_ok in Hrun by done. destruct Hrun as [Hsome Hrun].
  apply bind_ok in Hrun as (b & Hb & Hrun).
  apply bindPorts_spec in Hb as (_ & Hdom & Hports); [|done..].
  apply seq_ok in Hrun as [Hc [= <-]]. rewrite for_each_ok in Hc.
  rewrite dom_empty_L, union_empty_l_L, declared_symbols in Hdom by done.
  assert (∀ i p, ports c !! i = Some p → ∃ e, e ∈ values ∧
    portPositions 0 0 (ports c) !! i = Some (value_key e) ∧ extents_match b (shape p) (extents e))
    as Hall.
  { intros i p Hp. destruct (Forall2_lookup_l _ _ _ i p Hports Hp) as (o & Ho & e & -> & Hm).
    destruct (Hes i e Ho). eauto. }
  split; [|done]. apply validateShapeValues_exact; [done|]. split; [done|]. split; [done|].
  intros s k v Hk Hv.
  destruct Hwf as (_ & _ & Hsy & _). destruct (Hsy s k Hk) as (_ & (_ & _ & Hmul & _) & p & Hp & Hu).
  apply list_elem_of_lookup in Hp as [i Hi]. destruct (Hall i p Hi) as (e & _ & _ & Hm).
  apply list_elem_of_lookup in Hu as [j Hj].
  destruct (Forall2_lookup_l _ _ _ j _ Hm Hj) as (x & _ & Hx & Hsx). simplify_eq. split; [done|].
  pose proof (Hc (s, v) (proj2 (in_order_elem _ _ _) Hv)) as Hcb. unfold checkBound in Hcb.
  cbn in Hcb. rewrite Hk in Hcb. by apply checkConstraint_ok in Hcb.
Qed.

(** Binding finds every consistent assignment: if each port is supplied
    exactly once, by extents that agree with an assignment the contract
    accepts, the result is that assignment. *)
Theorem bindShapeValues_complete (c : ShapeContract) (values : list PortShapeValues)
    (σ : ShapeValues) :
  contract_typed c → Z.of_nat (length (ports c)) < 2 ^ 32 →
  validateShapeValues stringset_order c σ = Ok tt →
  value_key <$> values ≡ₚ portPositions 0 0 (ports c) →
  (∀ i p e, ports c !! i = Some p → e ∈ values →
    portPositions 0 0 (ports c) !! i = Some (value_key e) →
    extents_match σ (shape p) (extents e)) →
  bindShapeValues stringset_order c values = Ok σ.
Proof.
  intros Hty Hsmall [Hwf Hσ]%validateShapeValues_exact Hkeys Hm; [|done].
  assert (NoDup (portPositions 0 0 (ports c))) as Hnd by (apply portPositions_NoDup; lia).
  unfold bindShapeValues. apply seq_ok. split; [by apply validate_iff|].
  destruct (supply_complete c (portPositions 0 0 (ports c)) values
    (replicate (length (ports c)) None)) as (es & Hes & Hlen & Hall).
  - done.
  - by rewrite Hkeys.
  - by rewrite length_replicate, portPositions_length.
  - intros e He. rewrite <- Hkeys. by apply list_elem_of_fmap_2.
  - intros e i _ Hi%lookup_lt_Some. rewrite portPositions_length in Hi.
    by apply lookup_replicate_2.
  - rewrite portPositions_length in Hlen.
    assert (Forall2 (λ p e, ∃ v, e = Some v ∧ extents_match σ (shape p) (extents v)) (ports c) es)
      as Hports.
    { apply Forall2_same_length_lookup_2; [done|]. intros i p o Hp Ho.
      destruct (Hall i) as [(e & He & Hi & Hei)|[Hno _]]; [simplify_eq; eauto|].
      exfalso. assert (is_Some (portPositions 0 0 (ports c) !! i)) as [pos Hpos].
      { apply lookup_lt_is_Some. rewrite portPositions_length. by eapply lookup_lt_Some. }
      assert (pos ∈ value_key <$> values) as (e & -> & He)%list_elem_of_fmap
        by (rewrite Hkeys; by eapply list_elem_of_lookup_2).
      by apply (Hno e). }
    apply bind_ok. exists es. split; [done|]. apply seq_ok. split.
    { apply zip_missing_ok; [done|]. eapply Forall2_Forall_r; [done|].
      apply Forall_true. by intros p e (v & -> & _). }
    destruct (bindPorts_complete (ports c) es σ ∅) as (b & Hb & Hsub);
      [apply map_empty_subseteq|done|].
    apply bind_ok. exists b. split; [done|].
    assert (b = σ) as ->.
    { apply bindPorts_spec in Hb as (_ & Hdom & _); [|done|].
      - rewrite dom_empty_L, union_empty_l_L, declared_symbols in Hdom by done.
        destruct Hσ as [Hd _]. apply (anti_symm (⊆)); [done|].
        apply map_subseteq_spec. intros s v Hs.
        assert (s ∈ dom b) as [v' Hv']%elem_of_dom by (rewrite Hdom, <- Hd; by eapply elem_of_dom_2).
        pose proof (lookup_weaken _ _ _ _ Hv' Hsub). by simplify_eq.
      - eapply Forall2_Forall_r; [done|]. apply Forall_true. by intros p e (v & -> & _). }
    apply seq_ok. split; [|done]. apply for_each_ok. intros [s v] Hs%in_order_elem.
    unfold checkBound. cbn. destruct Hσ as [Hd Hv].
    assert (s ∈ dom (symbols c)) as [k Hk]%elem_of_dom by (rewrite <- Hd; by eapply elem_of_dom_2).
    rewrite Hk. destruct (Hv s k v Hk Hs) as (_ & Hc). apply checkConstraint_ok; [|done].
    destruct Hwf as (_ & _ & Hsy & _). by destruct (Hsy s k Hk) as (_ & (_ & _ & ? & _) & _).
Qed.
End contract_properties.

(** One invocation of the example contract, its outputs supplied first. *)
Definition example_values : list PortShapeValues :=
  [mkValues Output 0 [48; 32]; mkValues Input 0 [48; 64]].
Definition example_assignment : ShapeValues := {["M" := 48]}.

Lemma bindShapeValues_sound_witness :
  bindShapeValues elements example_contract example_values = Ok example_assignment ∧
  validateShapeValues elements example_contract example_assignment = Ok tt.
Proof.
  assert (contract_typed example_contract) as Hty.
  { intros s k Hk. unfold example_contract in Hk. simpl in Hk.
    apply lookup_singleton_Some in Hk as [<- <-]. apply example_typed. }
  split; [reflexivity|].
  by apply (bindShapeValues_sound elements (λ s, reflexivity _) example_contract example_values
    example_assignment).
Defined.

Lemma bindShapeValues_complete_witness :
  bindShapeValues elements example_contract example_values = Ok example_assignment.
Proof.
  apply (bindShapeValues_complete elements (λ s, reflexivity _) example_contract example_values
    example_assignment).
  - intros s k Hk. unfold example_contract in Hk. simpl in Hk.
    apply lookup_singleton_Some in Hk as [<- <-]. apply example_typed.
  - reflexivity.
  - reflexivity.
  - apply Permutation_swap.
  - intros i p e Hp [->|[->|[]%elem_of_nil]%elem_of_cons]%elem_of_cons Hi;
      destruct i as [|[|i]]; simplify_eq/=; try discriminate;
      repeat constructor; by vm_compute.
Defined.

(** A repeated symbol that binds two extents is refused, whichever port comes
    first. *)
Example symbol_conflict :
  bindShapeValues elements example_contract
    [mkValues Output 0 [32; 32]; mkValues Input 0 [48; 64]] = Err (SymbolConflict "M" 48 32).
Proof. reflexivity. Qed.

(** [hasMultipleInRange] is only exact for a nonnegative minimum: below zero
    the truncated remainder skips a multiple. *)
Example hasMultipleInRange_negative : hasMultipleInRange (-3) (Some 4) 5 = false.
Proof. reflexivity. Qed.

(** A negative divisor is classified as disproven although [%] accepts it. *)
Example negative_divisor :
  classifyPredicate (mkPredicate DivisibleBy "M" (-2)) example_contract = Disproven ∧
  Z.rem 16 (-2) = 0.
Proof. split; reflexivity. Qed.
