(* ===== verification/MachineModel.v ===== *)
(** The machine topology: include/LLK/Machine/MachineModel.h,
    lib/Machine/MachineModel.cpp, lib/Machine/MachineHash.h and the two Micro
    vocabularies it validates against (include/LLK/Dialect/Micro/MicroEnums.h).

    A machine is a graph of nodes named by ids.  A pointer to a node is its
    index in the vector that holds it; [findById] returns the first node with
    an id, as the source's loop does.  [verifyMachineModel] is shown to accept
    exactly the [WellFormed] models, [isWithin] to decide reachability along the
    containment chain on any model, malformed ones included, and the canonical
    string to be independent of declaration order. *)
From S2P Require Import Prelude Float.
Open Scope string_scope.
Open Scope Z_scope.

(** ** Vocabulary *)
Inductive SchedulingClass := InOrder | OutOfOrder.
Inductive LinkDirectionality := Unidirectional | Bidirectional.
Inductive Owner := group | worker | vector | matrix | transfer.
Inductive MemorySpace := dram | l2 | sram | rf | acc | scratch.

#[export] Instance SchedulingClass_eq_dec : EqDecision SchedulingClass.
Proof. solve_decision. Defined.
#[export] Instance LinkDirectionality_eq_dec : EqDecision LinkDirectionality.
Proof. solve_decision. Defined.
#[export] Instance Owner_eq_dec : EqDecision Owner.
Proof. solve_decision. Defined.
#[export] Instance MemorySpace_eq_dec : EqDecision MemorySpace.
Proof. solve_decision. Defined.

Definition stringifySchedulingClass (value : SchedulingClass) : string :=
  match value with
  | InOrder => "in_order"
  | OutOfOrder => "out_of_order"
  end.

Definition symbolizeSchedulingClass (text : string) : option SchedulingClass :=
  if bool_decide (text = "in_order") then Some InOrder
  else if bool_decide (text = "out_of_order") then Some OutOfOrder
  else None.

Definition stringifyLinkDirectionality (value : LinkDirectionality) : string :=
  match value with
  | Unidirectional => "unidirectional"
  | Bidirectional => "bidirectional"
  end.

Definition symbolizeLinkDirectionality (text : string) : option LinkDirectionality :=
  if bool_decide (text = "unidirectional") then Some Unidirectional
  else if bool_decide (text = "bidirectional") then Some Bidirectional
  else None.

Definition stringifyOwner (value : Owner) : string :=
  match value with
  | group => "group"
  | worker => "worker"
  | vector => "vector"
  | matrix => "matrix"
  | transfer => "transfer"
  end.

Definition symbolizeOwner (text : string) : option Owner :=
  if bool_decide (text = "group") then Some group
  else if bool_decide (text = "worker") then Some worker
  else if bool_decide (text = "vector") then Some vector
  else if bool_decide (text = "matrix") then Some matrix
  else if bool_decide (text = "transfer") then Some transfer
  else None.

Definition stringifyMemorySpace (value : MemorySpace) : string :=
  match value with
  | dram => "dram"
  | l2 => "l2"
  | sram => "sram"
  | rf => "rf"
  | acc => "acc"
  | scratch => "scratch"
  end.

Definition symbolizeMemorySpace (text : string) : option MemorySpace :=
  if bool_decide (text = "dram") then Some dram
  else if bool_decide (text = "l2") then Some l2
  else if bool_decide (text = "sram") then Some sram
  else if bool_decide (text = "rf") then Some rf
  else if bool_decide (text = "acc") then Some acc
  else if bool_decide (text = "scratch") then Some scratch
  else None.

(** ** Stable hashing *)
Fixpoint stableHash_from (hash : Z) (data : string) : Z :=
  match data with
  | EmptyString => hash
  | String raw data =>
    stableHash_from (u64 (Z.lxor hash (Z.of_N (Ascii.N_of_ascii raw)) * fnv_prime)) data
  end.
Definition stableHash (data : string) : Z := stableHash_from fnv_offset_basis data.

Definition hex_digit (d : Z) : Ascii.ascii :=
  Ascii.ascii_of_N (Z.to_N (if bool_decide (d < 10) then 48 + d else 87 + d)).

(** The last [n] hexadecimal digits of [value]. *)
Fixpoint hex_digits (n : nat) (value : Z) : string :=
  match n with
  | O => ""
  | S n => hex_digits n (value / 16) +:+ String (hex_digit (value mod 16)) ""
  end.
Definition hex64 (value : Z) : string := hex_digits 16 value.

(** ** Data *)
Record ExecutorNode := mkExecutor {
  ex_id : string;
  ex_kind : string;
  parent : option string;
  coordinates : list Z;
  ex_concurrency : Z;
  ex_refines : list string;
  schedulingClass : SchedulingClass;
  equivalentTo : list string;
}.

Record MemoryNode := mkMemory {
  mem_id : string;
  mem_kind : string;
  visibleFrom : string;
  capacityBytes : Z;
  alignmentBytes : Z;
  mem_layouts : list string;
  banks : option Z;
  mem_bandwidth : double;
  mem_latency : Z;
  accessGranularityBytes : option Z;
}.

Record ComputeNode := mkCompute {
  cmp_id : string;
  cmp_kind : string;
  cmp_refines : list string;
  cmp_attachedTo : string;
  elementTypes : list string;
  cmp_layouts : list string;
  shapes : list (list Z);
  lanes : gmap string Z;
  issueCycles : Z;
  cmp_latency : Z;
  throughputPerCycle : option double;
  cmp_concurrency : Z;
  accumulatorDTypes : list string;
  occupancyLimit : option Z;
}.

Record TransferEngineNode := mkEngine {
  eng_id : string;
  eng_kind : string;
  eng_refines : list string;
  eng_attachedTo : string;
  count : Z;
  maxOutstanding : Z;
  setupCycles : Z;
}.

Record LinkEdge := mkLink {
  link_id : string;
  source : string;
  destination : string;
  link_bandwidth : double;
  link_latency : Z;
  transactionBytes : Z;
  link_engines : list string;
  link_concurrency : Z;
  directionality : LinkDirectionality;
}.

Record SyncModel := mkSync { barrierCycles : Z; waitCycles : Z }.

Record MachineModel := mkMachine {
  schemaMajor : Z;
  schemaMinor : Z;
  target : string;
  description : string;
  clockHz : option Z;
  workerThreads : Z;
  sync : SyncModel;
  executors : list ExecutorNode;
  memories : list MemoryNode;
  computes : list ComputeNode;
  transferEngines : list TransferEngineNode;
  links : list LinkEdge;
  contentHash : Z;
}.

Definition kSupportedSchemaMajor : Z := 2.

(** ** Rendering *)
Definition joinStrings (parts : list string) (separator : string) : string :=
  foldl (λ out part, (if str_empty out then out else out +:+ separator) +:+ part) "" parts.

Definition joinNumbers (values : list Z) : string :=
  foldl (λ out value, (if str_empty out then out else out +:+ ",") +:+ to_string value) "" values.

Definition optionalString (value : option string) : string := default "<none>" value.
Definition optionalNumber (value : option Z) : string := from_option to_string "<none>" value.

Definition renderExecutor (node : ExecutorNode) : string :=
  "executor|id=" +:+ ex_id node +:+
  "|kind=" +:+ ex_kind node +:+
  "|parent=" +:+ optionalString (parent node) +:+
  "|coordinates=" +:+ joinNumbers (coordinates node) +:+
  "|concurrency=" +:+ to_string (ex_concurrency node) +:+
  "|refines=" +:+ joinStrings (sort_strings (ex_refines node)) "," +:+
  "|scheduling=" +:+ stringifySchedulingClass (schedulingClass node) +:+
  "|equivalent_to=" +:+ joinStrings (sort_strings (equivalentTo node)) ",".

Definition renderMemory (node : MemoryNode) : string :=
  "memory|id=" +:+ mem_id node +:+
  "|kind=" +:+ mem_kind node +:+
  "|visible_from=" +:+ visibleFrom node +:+
  "|capacity=" +:+ to_string (capacityBytes node) +:+
  "|alignment=" +:+ to_string (alignmentBytes node) +:+
  "|layouts=" +:+ joinStrings (sort_strings (mem_layouts node)) "," +:+
  "|banks=" +:+ optionalNumber (banks node) +:+
  "|bandwidth=" +:+ formatDouble (mem_bandwidth node) +:+
  "|latency=" +:+ to_string (mem_latency node) +:+
  "|access_granularity=" +:+ optionalNumber (accessGranularityBytes node).

Definition renderCompute (node : ComputeNode) : string :=
  "compute|id=" +:+ cmp_id node +:+
  "|kind=" +:+ cmp_kind node +:+
  "|refines=" +:+ joinStrings (sort_strings (cmp_refines node)) "," +:+
  "|attached_to=" +:+ cmp_attachedTo node +:+
  "|element_types=" +:+ joinStrings (sort_strings (elementTypes node)) "," +:+
  "|layouts=" +:+ joinStrings (sort_strings (cmp_layouts node)) "," +:+
  "|shapes=" +:+ String.concat "" ((λ shape, "[" +:+ joinNumbers shape +:+ "]") <$> shapes node) +:+
  "|lanes=" +:+ String.concat ""
    ((λ lane : string * Z, lane.1 +:+ ":" +:+ to_string lane.2 +:+ ",") <$> in_order (lanes node)) +:+
  "|issue=" +:+ to_string (issueCycles node) +:+
  "|latency=" +:+ to_string (cmp_latency node) +:+
  "|throughput=" +:+ from_option formatDouble "<none>" (throughputPerCycle node) +:+
  "|concurrency=" +:+ to_string (cmp_concurrency node) +:+
  "|accumulator_dtypes=" +:+ joinStrings (sort_strings (accumulatorDTypes node)) "," +:+
  "|occupancy=" +:+ optionalNumber (occupancyLimit node).

Definition renderTransferEngine (node : TransferEngineNode) : string :=
  "transfer|id=" +:+ eng_id node +:+
  "|kind=" +:+ eng_kind node +:+
  "|refines=" +:+ joinStrings (sort_strings (eng_refines node)) "," +:+
  "|attached_to=" +:+ eng_attachedTo node +:+
  "|count=" +:+ to_string (count node) +:+
  "|max_outstanding=" +:+ to_string (maxOutstanding node) +:+
  "|setup=" +:+ to_string (setupCycles node).

Definition renderLink (node : LinkEdge) : string :=
  "link|id=" +:+ link_id node +:+
  "|source=" +:+ source node +:+
  "|destination=" +:+ destination node +:+
  "|bandwidth=" +:+ formatDouble (link_bandwidth node) +:+
  "|latency=" +:+ to_string (link_latency node) +:+
  "|transaction=" +:+ to_string (transactionBytes node) +:+
  "|engines=" +:+ joinStrings (sort_strings (link_engines node)) "," +:+
  "|concurrency=" +:+ to_string (link_concurrency node) +:+
  "|directionality=" +:+ stringifyLinkDirectionality (directionality node).

(** A section in id order. *)
Definition renderSection {NodeT} (id : NodeT → string) (render : NodeT → string)
    (nodes : list NodeT) : string :=
  String.concat "" ((λ node, render node +:+ newline) <$> sort_by id nodes).

Definition canonicalMachineString (model : MachineModel) : string :=
  "schema=" +:+ to_string (schemaMajor model) +:+
  newline +:+ "target=" +:+ target model +:+
  newline +:+ "description=" +:+ description model +:+
  newline +:+ "clock_hz=" +:+ optionalNumber (clockHz model) +:+
  newline +:+ "worker_threads=" +:+ to_string (workerThreads model) +:+
  newline +:+ "sync=barrier:" +:+ to_string (barrierCycles (sync model)) +:+
  ",wait:" +:+ to_string (waitCycles (sync model)) +:+ newline +:+
  renderSection ex_id renderExecutor (executors model) +:+
  renderSection mem_id renderMemory (memories model) +:+
  renderSection cmp_id renderCompute (computes model) +:+
  renderSection eng_id renderTransferEngine (transferEngines model) +:+
  renderSection link_id renderLink (links model).

Definition computeContentHash (model : MachineModel) : Z :=
  stableHash (canonicalMachineString model).

(** ** Queries *)

(** The first node with the id, with its index, which stands for its address. *)
Definition findById {NodeT} (id : NodeT → string) (nodes : list NodeT) (wanted : string) :
    option (nat * NodeT) :=
  list_find (λ node, id node = wanted) nodes.

Definition findExecutorAt (model : MachineModel) (id : string) : option (nat * ExecutorNode) :=
  findById ex_id (executors model) id.
Definition findExecutor (model : MachineModel) (id : string) : option ExecutorNode :=
  snd <$> findExecutorAt model id.
Definition findMemory (model : MachineModel) (id : string) : option MemoryNode :=
  snd <$> findById mem_id (memories model) id.
Definition findCompute (model : MachineModel) (id : string) : option ComputeNode :=
  snd <$> findById cmp_id (computes model) id.
Definition findTransferEngine (model : MachineModel) (id : string) : option TransferEngineNode :=
  snd <$> findById eng_id (transferEngines model) id.
Definition findLink (model : MachineModel) (id : string) : option LinkEdge :=
  snd <$> findById link_id (links model) id.

(** The loop of [isWithin]; [visited] holds the addresses already passed. *)
Fixpoint isWithin_loop (fuel : nat) (model : MachineModel) (ancestorId : string)
    (visited : gset nat) (current : option (nat * ExecutorNode)) : bool :=
  match fuel, current with
  | S fuel, Some (address, node) =>
    if bool_decide (ex_id node = ancestorId) then true
    else
      match parent node with
      | None => false
      | Some up =>
        if bool_decide (address ∈ visited) then false
        else isWithin_loop fuel model ancestorId ({[address]} ∪ visited) (findExecutorAt model up)
      end
  | _, _ => false
  end.

Definition isWithin (model : MachineModel) (nodeId ancestorId : string) : bool :=
  isWithin_loop (S (length (executors model))) model ancestorId ∅ (findExecutorAt model nodeId).

Definition ownerMatches (model : MachineModel) (ownerKind executorId : string) : bool :=
  match findExecutor model executorId with
  | None => false
  | Some executor =>
    bool_decide (ex_kind executor = ownerKind) || contains (ex_refines executor) ownerKind
  end.

(** The lambda [consider] of [ownerClass], over [resolved] and [conflicting]. *)
Definition consider (state : option string * bool) (refines : list string) :
    option string * bool :=
  foldl (λ '(resolved, conflicting) refined,
    match symbolizeOwner refined with
    | None => (resolved, conflicting)
    | Some cls =>
      let name := stringifyOwner cls in
      match resolved with
      | Some other => (resolved, if bool_decide (other ≠ name) then true else conflicting)
      | None => (Some name, conflicting)
      end
    end) state refines.

(** The refinement lists of the nodes that declare [spelling] as their kind. *)
Definition declaredRefines {NodeT} (kind : NodeT → string) (refines : NodeT → list string)
    (spelling : string) (nodes : list NodeT) : list (list string) :=
  refines <$> filter (λ node, kind node = spelling) nodes.

Definition ownerClass (model : MachineModel) (spelling : string) : option string :=
  match symbolizeOwner spelling with
  | Some abstract => Some (stringifyOwner abstract)
  | None =>
    let state := foldl consider (None, false)
      (declaredRefines ex_kind ex_refines spelling (executors model)) in
    let state := foldl consider state
      (declaredRefines cmp_kind cmp_refines spelling (computes model)) in
    let '(resolved, conflicting) := foldl consider state
      (declaredRefines eng_kind eng_refines spelling (transferEngines model)) in
    if conflicting : bool then None else resolved
  end.

Definition isVisible (model : MachineModel) (memoryId executorId : string) : bool :=
  match findMemory model memoryId with
  | None => false
  | Some memory => isWithin model executorId (visibleFrom memory)
  end.

Definition findLinkByKinds (model : MachineModel) (sourceKind destinationKind : string) :
    option LinkEdge :=
  snd <$> list_find (λ link, Is_true
    match findMemory model (source link), findMemory model (destination link) with
    | Some s, Some d =>
      bool_decide (mem_kind s = sourceKind) && bool_decide (mem_kind d = destinationKind)
    | _, _ => false
    end) (links model).

Definition computesOfKind (model : MachineModel) (kind : string) : list ComputeNode :=
  filter (λ node, cmp_kind node = kind) (computes model).

Definition transferEngineCount (model : MachineModel) : Z :=
  foldl (λ total engine, u32 (total + count engine)) 0 (transferEngines model).

Definition primaryTransferEngine (model : MachineModel) : option TransferEngineNode :=
  head (transferEngines model).

Definition findMemoryOfKind (model : MachineModel) (kind : string) : option MemoryNode :=
  snd <$> list_find (λ node, mem_kind node = kind) (memories model).

Definition ownerCount (model : MachineModel) (ownerKind : string) : Z :=
  foldl (λ total executor,
    if ownerMatches model ownerKind (ex_id executor)
    then u32 (total + Z.max 1 (ex_concurrency executor)) else total) 0 (executors model).

Definition hasOwnerKind (model : MachineModel) (ownerKind : string) : bool :=
  bool_decide (ownerCount model ownerKind > 0).

(** The first capability of the kind answers; a missing dtype is [nullopt]. *)
Definition lanesFor (model : MachineModel) (computeKind elementType : string) : option Z :=
  match list_find (λ node, cmp_kind node = computeKind) (computes model) with
  | Some (_, node) => lanes node !! elementType
  | None => None
  end.

Definition computesFor (model : MachineModel) (executorId : string) : list ComputeNode :=
  filter (λ node, cmp_attachedTo node = executorId) (computes model).

Definition transferEnginesFor (model : MachineModel) (executorId : string) :
    list TransferEngineNode :=
  filter (λ node, eng_attachedTo node = executorId) (transferEngines model).

(** ** Verification *)
Inductive NodeSection :=
  InExecutors | InMemories | InComputes | InTransferEngines | InLinks.

(** The diagnostics; the index is the node's position in its section. *)
Inductive machine_error :=
| UnsupportedSchemaMajor (major : Z)
| EmptyTarget
| ZeroClock
| ZeroWorkerThreads
| EmptyId (sec : NodeSection) (i : nat)
| DuplicateId (sec : NodeSection) (i : nat) (id : string)
| UnknownKind (sec : NodeSection) (i : nat) (kind : string)
| BadRefinement (sec : NodeSection) (i : nat) (refined : string)
| ZeroConcurrency (sec : NodeSection) (i : nat)
| UnknownParent (i : nat) (parent : string)
| SelfEquivalent (i : nat) (id : string)
| UnknownEquivalent (i : nat) (id : string)
| EquivalentKindMismatch (i : nat) (id : string)
| NotMutual (i : nat) (id : string)
| ContainmentCycle (i : nat)
| UnknownVisibleFrom (i : nat) (id : string)
| ZeroCapacity (i : nat)
| ZeroAlignment (i : nat)
| ZeroAccessGranularity (i : nat)
| UnknownAttachedTo (sec : NodeSection) (i : nat) (id : string)
| ZeroOccupancyLimit (i : nat)
| EmptyShapes (i : nat)
| EmptyShape (i : nat)
| NonPositiveExtent (i : nat)
| NonPositiveLanes (i : nat) (dtype : string)
| ZeroCount (i : nat)
| ZeroMaxOutstanding (i : nat)
| UnknownSource (i : nat) (id : string)
| UnknownDestination (i : nat) (id : string)
| NonPositiveBandwidth (i : nat)
| ZeroTransactionBytes (i : nat)
| UnknownLinkEngine (i : nat) (id : string).

Definition isKnownOwnerKind (model : MachineModel) (kind : string) : bool :=
  bool_decide (is_Some (ownerClass model kind)).
Definition isKnownMemoryKind (kind : string) : bool :=
  bool_decide (is_Some (symbolizeMemorySpace kind)).
Definition isKnownComputeKind (model : MachineModel) (kind : string) : bool :=
  match ownerClass model kind with
  | Some cls => bool_decide (cls = stringifyOwner matrix) || bool_decide (cls = stringifyOwner vector)
  | None => false
  end.
Definition isKnownTransferKind (model : MachineModel) (kind : string) : bool :=
  match ownerClass model kind with
  | Some cls => bool_decide (cls = stringifyOwner transfer)
  | None => false
  end.

Definition checkId (sec : NodeSection) (i : nat) (seenIds : gset string) (id : string) :
    result machine_error (gset string) :=
  fail! (EmptyId sec i) when str_empty id;
  fail! (DuplicateId sec i id) when bool_decide (id ∈ seenIds);
  Ok ({[id]} ∪ seenIds).

Definition checkIds (model : MachineModel) : result machine_error (gset string) :=
  seen ← fold_result_from 0 (checkId InExecutors) ∅ (ex_id <$> executors model);
  seen ← fold_result_from 0 (checkId InMemories) seen (mem_id <$> memories model);
  seen ← fold_result_from 0 (checkId InComputes) seen (cmp_id <$> computes model);
  seen ← fold_result_from 0 (checkId InTransferEngines) seen (eng_id <$> transferEngines model);
  fold_result_from 0 (checkId InLinks) seen (link_id <$> links model).

Definition checkRefines (sec : NodeSection) (i : nat) (refines : list string) :
    result machine_error unit :=
  for_each (λ refined, fail_if (bool_decide (symbolizeOwner refined = None))
    (BadRefinement sec i refined)) refines.

Definition checkEquivalent (model : MachineModel) (i : nat) (executor : ExecutorNode)
    (equivalent : string) : result machine_error unit :=
  fail! (SelfEquivalent i (ex_id executor)) when bool_decide (equivalent = ex_id executor);
  match findExecutor model equivalent with
  | None => Err (UnknownEquivalent i equivalent)
  | Some other =>
    fail! (EquivalentKindMismatch i equivalent) when bool_decide (ex_kind other ≠ ex_kind executor);
    fail_if (negb (contains (equivalentTo other) (ex_id executor))) (NotMutual i equivalent)
  end.

Definition verifyExecutor (model : MachineModel) (i : nat) (executor : ExecutorNode) :
    result machine_error unit :=
  fail! (UnknownKind InExecutors i (ex_kind executor)) when
    negb (isKnownOwnerKind model (ex_kind executor));
  _ ← checkRefines InExecutors i (ex_refines executor);
  fail! (ZeroConcurrency InExecutors i) when bool_decide (ex_concurrency executor = 0);
  fail! (UnknownParent i (default "" (parent executor))) when
    match parent executor with
    | Some p => bool_decide (findExecutor model p = None)
    | None => false
    end;
  for_each (checkEquivalent model i executor) (equivalentTo executor).

(** The walk up one executor's parents: true when it meets an address again. *)
Fixpoint containmentCycle (fuel : nat) (model : MachineModel) (visited : gset nat)
    (current : option (nat * ExecutorNode)) : bool :=
  match fuel, current with
  | S fuel, Some (address, node) =>
    if bool_decide (address ∈ visited) then true
    else
      match parent node with
      | None => false
      | Some up =>
        containmentCycle fuel model ({[address]} ∪ visited) (findExecutorAt model up)
      end
  | _, _ => false
  end.

Definition verifyContainment (model : MachineModel) (i : nat) (executor : ExecutorNode) :
    result machine_error unit :=
  fail_if (containmentCycle (S (length (executors model))) model ∅ (Some (i, executor)))
    (ContainmentCycle i).

Definition verifyMemory (model : MachineModel) (i : nat) (memory : MemoryNode) :
    result machine_error unit :=
  fail! (UnknownKind InMemories i (mem_kind memory)) when negb (isKnownMemoryKind (mem_kind memory));
  fail! (UnknownVisibleFrom i (visibleFrom memory)) when
    bool_decide (findExecutor model (visibleFrom memory) = None);
  fail! (ZeroCapacity i) when bool_decide (capacityBytes memory = 0);
  fail! (ZeroAlignment i) when bool_decide (alignmentBytes memory = 0);
  fail_if (bool_decide (accessGranularityBytes memory = Some 0)) (ZeroAccessGranularity i).

Definition verifyShape (i : nat) (shape : list Z) : result machine_error unit :=
  fail! (EmptyShape i) when bool_decide (shape = []);
  for_each (λ extent, fail_if (bool_decide (extent <= 0)) (NonPositiveExtent i)) shape.

Definition verifyCompute (model : MachineModel) (i : nat) (compute : ComputeNode) :
    result machine_error unit :=
  fail! (UnknownKind InComputes i (cmp_kind compute)) when
    negb (isKnownComputeKind model (cmp_kind compute));
  _ ← checkRefines InComputes i (cmp_refines compute);
  fail! (UnknownAttachedTo InComputes i (cmp_attachedTo compute)) when
    bool_decide (findExecutor model (cmp_attachedTo compute) = None);
  fail! (ZeroConcurrency InComputes i) when bool_decide (cmp_concurrency compute = 0);
  fail! (ZeroOccupancyLimit i) when bool_decide (occupancyLimit compute = Some 0);
  fail! (EmptyShapes i) when bool_decide (shapes compute = []);
  _ ← for_each (verifyShape i) (shapes compute);
  for_each (λ lane, fail_if (bool_decide (lane.2 <= 0)) (NonPositiveLanes i lane.1))
    (in_order (lanes compute)).

Definition verifyTransferEngine (model : MachineModel) (i : nat) (engine : TransferEngineNode) :
    result machine_error unit :=
  fail! (UnknownKind InTransferEngines i (eng_kind engine)) when
    negb (isKnownTransferKind model (eng_kind engine));
  _ ← checkRefines InTransferEngines i (eng_refines engine);
  fail! (UnknownAttachedTo InTransferEngines i (eng_attachedTo engine)) when
    bool_decide (findExecutor model (eng_attachedTo engine) = None);
  fail! (ZeroCount i) when bool_decide (count engine = 0);
  fail_if (bool_decide (maxOutstanding engine = 0)) (ZeroMaxOutstanding i).

Definition verifyLink (model : MachineModel) (i : nat) (link : LinkEdge) :
    result machine_error unit :=
  fail! (UnknownSource i (source link)) when bool_decide (findMemory model (source link) = None);
  fail! (UnknownDestination i (destination link)) when
    bool_decide (findMemory model (destination link) = None);
  fail! (NonPositiveBandwidth i) when dleb (link_bandwidth link) dzero;
  fail! (ZeroTransactionBytes i) when bool_decide (transactionBytes link = 0);
  fail! (ZeroConcurrency InLinks i) when bool_decide (link_concurrency link = 0);
  for_each (λ engine, fail_if (bool_decide (findTransferEngine model engine = None))
    (UnknownLinkEngine i engine)) (link_engines link).

Definition verifyMachineModel (model : MachineModel) : result machine_error unit :=
  fail! (UnsupportedSchemaMajor (schemaMajor model)) when
    bool_decide (schemaMajor model ≠ kSupportedSchemaMajor);
  fail! EmptyTarget when str_empty (target model);
  fail! ZeroClock when bool_decide (clockHz model = Some 0);
  fail! ZeroWorkerThreads when bool_decide (workerThreads model = 0);
  _ ← checkIds model;
  _ ← for_each_from 0 (verifyExecutor model) (executors model);
  _ ← for_each_from 0 (verifyContainment model) (executors model);
  _ ← for_each_from 0 (verifyMemory model) (memories model);
  _ ← for_each_from 0 (verifyCompute model) (computes model);
  _ ← for_each_from 0 (verifyTransferEngine model) (transferEngines model);
  for_each_from 0 (verifyLink model) (links model).

(** ** What a well-formed model is *)

(** One step up the containment chain, on addresses. *)
Definition parentAt (model : MachineModel) (i : nat) : option nat :=
  node ← executors model !! i;
  up ← parent node;
  fst <$> findExecutorAt model up.

(** The chain above address [i] ends at a root after [k] steps. *)
Fixpoint chainEnds (model : MachineModel) (k i : nat) : Prop :=
  match k, parentAt model i with
  | O, None => True
  | S k, Some j => chainEnds model k j
  | _, _ => False
  end.

(** The executor at address [i], or one above it, has the id [ancestorId]. *)
Inductive Within (model : MachineModel) (ancestorId : string) : nat → Prop :=
| within_here i node :
    executors model !! i = Some node → ex_id node = ancestorId → Within model ancestorId i
| within_up i j :
    parentAt model i = Some j → Within model ancestorId j → Within model ancestorId i.

Definition all_ids (model : MachineModel) : list string :=
  (ex_id <$> executors model) ++ (mem_id <$> memories model) ++ (cmp_id <$> computes model) ++
  (eng_id <$> transferEngines model) ++ (link_id <$> links model).

Definition AbstractOwner (name : string) : Prop := ∃ o, name = stringifyOwner o.

Record ExecutorOk (model : MachineModel) (e : ExecutorNode) : Prop := {
  ok_ex_kind : is_Some (ownerClass model (ex_kind e));
  ok_ex_refines : ∀ r, r ∈ ex_refines e → AbstractOwner r;
  ok_ex_concurrency : ex_concurrency e ≠ 0;
  ok_ex_parent : ∀ p, parent e = Some p → p ∈ ex_id <$> executors model;
  ok_ex_equivalent : ∀ q, q ∈ equivalentTo e →
    q ≠ ex_id e ∧ ∃ other, other ∈ executors model ∧ ex_id other = q ∧
      ex_kind other = ex_kind e ∧ ex_id e ∈ equivalentTo other;
}.

Record MemoryOk (model : MachineModel) (m : MemoryNode) : Prop := {
  ok_mem_kind : ∃ space, mem_kind m = stringifyMemorySpace space;
  ok_mem_visible : visibleFrom m ∈ ex_id <$> executors model;
  ok_mem_capacity : capacityBytes m ≠ 0;
  ok_mem_alignment : alignmentBytes m ≠ 0;
  ok_mem_granularity : accessGranularityBytes m ≠ Some 0;
}.

Record ComputeOk (model : MachineModel) (c : ComputeNode) : Prop := {
  ok_cmp_kind : ownerClass model (cmp_kind c) = Some "matrix" ∨
    ownerClass model (cmp_kind c) = Some "vector";
  ok_cmp_refines : ∀ r, r ∈ cmp_refines c → AbstractOwner r;
  ok_cmp_attached : cmp_attachedTo c ∈ ex_id <$> executors model;
  ok_cmp_concurrency : cmp_concurrency c ≠ 0;
  ok_cmp_occupancy : occupancyLimit c ≠ Some 0;
  ok_cmp_shapes : shapes c ≠ [];
  ok_cmp_shape : ∀ s, s ∈ shapes c → s ≠ [] ∧ ∀ x, x ∈ s → 0 < x;
  ok_cmp_lanes : ∀ d n, lanes c !! d = Some n → 0 < n;
}.

Record EngineOk (model : MachineModel) (e : TransferEngineNode) : Prop := {
  ok_eng_kind : ownerClass model (eng_kind e) = Some "transfer";
  ok_eng_refines : ∀ r, r ∈ eng_refines e → AbstractOwner r;
  ok_eng_attached : eng_attachedTo e ∈ ex_id <$> executors model;
  ok_eng_count : count e ≠ 0;
  ok_eng_outstanding : maxOutstanding e ≠ 0;
}.

Record LinkOk (model : MachineModel) (l : LinkEdge) : Prop := {
  ok_link_source : source l ∈ mem_id <$> memories model;
  ok_link_destination : destination l ∈ mem_id <$> memories model;
  ok_link_bandwidth : dleb (link_bandwidth l) dzero = false;
  ok_link_transaction : transactionBytes l ≠ 0;
  ok_link_concurrency : link_concurrency l ≠ 0;
  ok_link_engines : ∀ e, e ∈ link_engines l → e ∈ eng_id <$> transferEngines model;
}.

Record WellFormed (model : MachineModel) : Prop := {
  wf_schema : schemaMajor model = 2;
  wf_target : target model ≠ "";
  wf_clock : clockHz model ≠ Some 0;
  wf_workers : workerThreads model ≠ 0;
  wf_ids_nonempty : "" ∉ all_ids model;
  wf_ids_unique : NoDup (all_ids model);
  wf_executors : ∀ e, e ∈ executors model → ExecutorOk model e;
  wf_containment : ∀ i, (i < length (executors model))%nat → ∃ k, chainEnds model k i;
  wf_memories : ∀ m, m ∈ memories model → MemoryOk model m;
  wf_computes : ∀ c, c ∈ computes model → ComputeOk model c;
  wf_engines : ∀ e, e ∈ transferEngines model → EngineOk model e;
  wf_links : ∀ l, l ∈ links model → LinkOk model l;
}.

(** ** Lookups *)
Lemma findById_some {NodeT} (id : NodeT → string) nodes wanted i node :
  findById id nodes wanted = Some (i, node) → nodes !! i = Some node ∧ id node = wanted.
Proof. intros (? & ? & _)%list_find_Some. auto. Qed.

Lemma findById_none {NodeT} (id : NodeT → string) nodes wanted :
  findById id nodes wanted = None ↔ wanted ∉ id <$> nodes.
Proof.
  unfold findById. rewrite list_find_None, Forall_forall, list_elem_of_fmap. naive_solver.
Qed.

Lemma find_fmap_none {NodeT} (id : NodeT → string) nodes wanted :
  snd <$> findById id nodes wanted = None ↔ wanted ∉ id <$> nodes.
Proof. rewrite fmap_None. apply findById_none. Qed.

(** With distinct ids the first match is the only one. *)
Lemma find_fmap_some {NodeT} (id : NodeT → string) nodes wanted node :
  NoDup (id <$> nodes) →
  snd <$> findById id nodes wanted = Some node ↔ node ∈ nodes ∧ id node = wanted.
Proof.
  intros Hnd. split.
  - intros ([i ?] & (Hi & ?)%findById_some & ->)%fmap_Some_1. cbn in *.
    split; [by eapply list_elem_of_lookup_2|done].
  - intros [[i Hi]%list_elem_of_lookup_1 <-].
    destruct (findById id nodes (id node)) as [[j other]|] eqn:Hf; cbn.
    + apply findById_some in Hf as [Hj Hid]. f_equal.
      assert (j = i) as ->; [|congruence].
      apply (NoDup_lookup (id <$> nodes) j i (id node) Hnd);
        rewrite list_lookup_fmap, ?Hj, ?Hi; cbn; congruence.
    + apply findById_none in Hf. destruct Hf. apply list_elem_of_fmap. exists node.
      split; [done|by eapply list_elem_of_lookup_2].
Qed.

Lemma findExecutorAt_some model id i node :
  findExecutorAt model id = Some (i, node) → executors model !! i = Some node ∧ ex_id node = id.
Proof. apply findById_some. Qed.

Lemma symbolizeOwner_stringify o : symbolizeOwner (stringifyOwner o) = Some o.
Proof. by destruct o. Qed.

Lemma symbolizeOwner_some s o : symbolizeOwner s = Some o ↔ s = stringifyOwner o.
Proof.
  split; [|intros ->; apply symbolizeOwner_stringify].
  unfold symbolizeOwner. repeat case_bool_decide; naive_solver.
Qed.

Lemma symbolizeOwner_none s : symbolizeOwner s = None ↔ ¬ AbstractOwner s.
Proof.
  split.
  - intros Hn [o Ho]. apply symbolizeOwner_some in Ho. congruence.
  - intros Hn. destruct (symbolizeOwner s) as [o|] eqn:Ho; [|done].
    apply symbolizeOwner_some in Ho. destruct Hn. by exists o.
Qed.

Lemma symbolizeMemorySpace_some s m : symbolizeMemorySpace s = Some m ↔ s = stringifyMemorySpace m.
Proof.
  split; [|intros ->; by destruct m].
  unfold symbolizeMemorySpace. repeat case_bool_decide; naive_solver.
Qed.

Lemma parentAt_find model i node :
  executors model !! i = Some node →
  parentAt model i = fst <$> (parent node ≫= findExecutorAt model).
Proof. intros Hi. unfold parentAt. rewrite Hi. cbn. by destruct (parent node). Qed.

Lemma parentAt_lt model i j : parentAt model i = Some j → (j < length (executors model))%nat.
Proof.
  unfold parentAt. intros (node & _ & (up & _ & Hf)%bind_Some)%bind_Some.
  apply fmap_Some_1 in Hf as ([j' other] & [Hj _]%findExecutorAt_some & ->).
  by eapply lookup_lt_Some.
Qed.

(** ** Walks along a deterministic chain

    [reaches k i] says that the first address satisfying [hit] on the chain from
    [i] is [k] steps away.  Distances are unique, so the addresses passed on the
    way are distinct: a chain of [n] addresses is walked in at most [n] steps
    and a visited set never stops a walk that has not reached its goal. *)
Section chain.
Variable hit : nat → Prop.
Variable next : nat → option nat.
Variable n : nat.
Hypothesis next_lt : ∀ i j, next i = Some j → (j < n)%nat.

Fixpoint reaches (k i : nat) : Prop :=
  match k with
  | O => hit i
  | S k => ¬ hit i ∧ ∃ j, next i = Some j ∧ reaches k j
  end.

Lemma reaches_unique k k' i : reaches k i → reaches k' i → k = k'.
Proof.
  revert k' i. induction k as [|k IH]; intros [|k'] i; cbn; [done|naive_solver|naive_solver|].
  intros (_ & j & Hj & Hk) (_ & j' & Hj' & Hk'). simplify_eq. f_equal. eauto.
Qed.

Lemma reaches_path k i :
  (i < n)%nat → reaches k i →
  ∃ l, length l = S k ∧ NoDup l ∧ ∀ x, x ∈ l → (x < n)%nat ∧ ∃ k', (k' <= k)%nat ∧ reaches k' x.
Proof.
  revert i. induction k as [|k IH]; intros i Hi Hr.
  - exists [i]. split_and!; [done|apply NoDup_singleton|]. intros x ->%list_elem_of_singleton. eauto.
  - pose proof Hr as (_ & j & Hj & Hk). destruct (IH j) as (l & Hlen & Hnd & Hl); [eauto..|].
    exists (i :: l). split_and!; [cbn; lia| |].
    + constructor; [|done]. intros (_ & k' & Hle & Hk')%Hl.
      pose proof (reaches_unique _ _ _ Hr Hk'). lia.
    + intros x [->|Hx]%elem_of_cons; [by eauto|].
      destruct (Hl x Hx) as (? & k' & ? & ?). split; [done|]. exists k'. split; [lia|done].
Qed.

Lemma reaches_bound k i : (i < n)%nat → reaches k i → (k < n)%nat.
Proof.
  intros Hi Hr. destruct (reaches_path k i Hi Hr) as (l & Hlen & Hnd & Hl).
  assert (length l <= length (seq 0 n))%nat as Hle.
  { apply NoDup_incl_length; [by apply NoDup_ListNoDup|].
    intros x Hx%list_elem_of_In. apply in_seq. apply Hl in Hx as [? _]. lia. }
  rewrite length_seq in Hle. lia.
Qed.

(** The addresses already visited lie before the current one. *)
Definition behind (visited : gset nat) (k : nat) : Prop :=
  ∀ v k', v ∈ visited → reaches k' v → (k < k')%nat.

Lemma behind_fresh visited k i : behind visited k → reaches k i → i ∉ visited.
Proof. intros Hb Hr Hi. specialize (Hb _ _ Hi Hr). lia. Qed.

Lemma behind_step visited k i :
  behind visited (S k) → reaches (S k) i → behind ({[i]} ∪ visited) k.
Proof.
  intros Hb Hr v k' [->%elem_of_singleton|Hv]%elem_of_union Hk'.
  - pose proof (reaches_unique _ _ _ Hr Hk'). lia.
  - specialize (Hb _ _ Hv Hk'). lia.
Qed.
End chain.

(** ** The two walks of the model *)
Section walks.
Variable model : MachineModel.
Local Abbreviation size := (length (executors model)).

Definition hasId (ancestorId : string) (i : nat) : Prop :=
  ∃ node, executors model !! i = Some node ∧ ex_id node = ancestorId.
Definition isRoot (i : nat) : Prop := parentAt model i = None.

#[local] Instance hasId_dec ancestorId i : Decision (hasId ancestorId i).
Proof.
  unfold hasId. destruct (executors model !! i) as [node|].
  - destruct (decide (ex_id node = ancestorId)); [left; by exists node|right; naive_solver].
  - right. naive_solver.
Defined.

Lemma chainEnds_reaches k i : chainEnds model k i ↔ reaches isRoot (parentAt model) k i.
Proof.
  revert i. induction k as [|k IH]; intros i; cbn; unfold isRoot; destruct (parentAt model i) eqn:Hp;
    rewrite ?IH; naive_solver.
Qed.

Lemma Within_reaches ancestorId i :
  Within model ancestorId i ↔ ∃ k, reaches (hasId ancestorId) (parentAt model) k i.
Proof.
  split.
  - induction 1 as [i node Hi Hid|i j Hp _ [k Hk]].
    + exists O. by exists node.
    + destruct (decide (hasId ancestorId i)) as [Hh|Hh]; [by exists O|].
      exists (S k). split; [done|]. by exists j.
  - intros [k Hk]. revert i Hk. induction k as [|k IH]; intros i; cbn.
    + intros (node & ? & ?). by eapply within_here.
    + intros (_ & j & ? & ?). eapply within_up; eauto.
Qed.

Lemma isWithin_loop_complete fuel ancestorId k i visited node :
  executors model !! i = Some node →
  reaches (hasId ancestorId) (parentAt model) k i →
  behind (hasId ancestorId) (parentAt model) visited k →
  (k < fuel)%nat →
  isWithin_loop fuel model ancestorId visited (Some (i, node)) = true.
Proof.
  revert k i visited node. induction fuel as [|fuel IH]; intros k i visited node Hi Hr Hb Hk; [lia|].
  cbn. case_bool_decide as Hid; [done|].
  destruct k as [|k]; [destruct Hr as (? & ? & ?); congruence|].
  pose proof Hr as (_ & j & Hj & Hr'). rewrite (parentAt_find _ _ _ Hi) in Hj.
  destruct (parent node) as [up|]; [|done]. cbn in Hj.
  destruct (findExecutorAt model up) as [[j' node']|] eqn:Hf; [|done]. injection Hj as ->.
  rewrite bool_decide_false by by eapply behind_fresh.
  apply (IH k); [by apply findExecutorAt_some in Hf as []|done|by eapply behind_step|lia].
Qed.

Lemma isWithin_loop_sound fuel ancestorId i visited node :
  executors model !! i = Some node →
  isWithin_loop fuel model ancestorId visited (Some (i, node)) = true → Within model ancestorId i.
Proof.
  revert i visited node. induction fuel as [|fuel IH]; intros i visited node Hi; cbn; [done|].
  case_bool_decide as Hid; [intros _; by eapply within_here|].
  destruct (parent node) as [up|] eqn:Hp; [|done].
  case_bool_decide; [done|].
  destruct (findExecutorAt model up) as [[j node']|] eqn:Hf; [|by destruct fuel].
  intros Hl. apply within_up with j.
  - by rewrite (parentAt_find _ _ _ Hi), Hp; cbn; rewrite Hf.
  - eapply IH; [|done]. by apply findExecutorAt_some in Hf as [].
Qed.

Lemma isWithin_true nodeId ancestorId :
  isWithin model nodeId ancestorId = true ↔
  ∃ i node, findExecutorAt model nodeId = Some (i, node) ∧ Within model ancestorId i.
Proof.
  unfold isWithin. destruct (findExecutorAt model nodeId) as [[i node]|] eqn:Hf.
  2:{ split; [done|naive_solver]. }
  pose proof Hf as [Hi _]%findExecutorAt_some. split.
  - intros H. exists i, node. split; [done|]. by eapply isWithin_loop_sound.
  - intros (? & ? & [= <- <-] & [k Hk]%Within_reaches).
    eapply isWithin_loop_complete; [done..| |].
    + intros v k' []%not_elem_of_empty.
    + assert (k < size)%nat; [|lia].
      eapply reaches_bound; [apply parentAt_lt| |exact Hk]. by eapply lookup_lt_Some.
Qed.

Lemma containmentCycle_false_complete fuel k i visited node :
  executors model !! i = Some node →
  chainEnds model k i →
  behind isRoot (parentAt model) visited k →
  containmentCycle fuel model visited (Some (i, node)) = false.
Proof.
  revert k i visited node. induction fuel as [|fuel IH]; intros k i visited node Hi Hr Hb; [done|].
  apply chainEnds_reaches in Hr.
  cbn. rewrite bool_decide_false by by eapply behind_fresh.
  destruct (parent node) as [up|] eqn:Hp; [|done].
  destruct (findExecutorAt model up) as [[j node']|] eqn:Hf; [|by destruct fuel].
  assert (parentAt model i = Some j) as Hj.
  { by rewrite (parentAt_find _ _ _ Hi), Hp; cbn; rewrite Hf. }
  destruct k as [|k]; [cbn in Hr; unfold isRoot in Hr; congruence|].
  pose proof Hr as (_ & j' & Hj' & Hr'). rewrite Hj in Hj'. injection Hj' as <-.
  apply (IH k); [by apply findExecutorAt_some in Hf as []|by apply chainEnds_reaches|].
  by eapply behind_step.
Qed.

(** With the fuel [verifyMachineModel] gives it, a walk that meets no address
    twice has reached a root. *)
Lemma containmentCycle_false_sound fuel i visited node :
  executors model !! i = Some node →
  (∀ v, v ∈ visited → (v < size)%nat) →
  (size < fuel + base.size visited)%nat →
  containmentCycle fuel model visited (Some (i, node)) = false →
  ∃ k, chainEnds model k i.
Proof.
  assert (∀ s : gset nat, (∀ v, v ∈ s → (v < size)%nat) → (base.size s <= size)%nat) as Hbound.
  { intros s Hs. transitivity (base.size (set_seq (C := gset nat) 0 size)).
    - apply subseteq_size. intros v Hv. apply elem_of_set_seq. specialize (Hs v Hv). lia.
    - by rewrite size_set_seq. }
  revert i visited node. induction fuel as [|fuel IH]; intros i visited node Hi Hv Hf Hw.
  { specialize (Hbound visited Hv). lia. }
  cbn in Hw. case_bool_decide as Hfresh; [done|].
  assert (i < size)%nat by by eapply lookup_lt_Some.
  pose proof (parentAt_find _ _ _ Hi) as Hp.
  destruct (parent node) as [up|]; cbn in Hp; [|exists O; cbn; by rewrite Hp].
  destruct (findExecutorAt model up) as [[j node']|] eqn:Hup; cbn in Hp;
    [|exists O; cbn; by rewrite Hp].
  destruct (IH j ({[i]} ∪ visited) node') as [k Hk].
  - by apply findExecutorAt_some in Hup as [].
  - set_solver.
  - rewrite size_union, size_singleton by set_solver. lia.
  - done.
  - exists (S k). cbn. by rewrite Hp.
Qed.

Lemma verifyContainment_ok i node :
  executors model !! i = Some node →
  verifyContainment model i node = Ok tt ↔ ∃ k, chainEnds model k i.
Proof.
  intros Hi. unfold verifyContainment. rewrite fail_if_ok. split.
  - apply containmentCycle_false_sound; [done|set_solver|rewrite size_empty; lia].
  - intros [k Hk]. eapply containmentCycle_false_complete; [done..|].
    intros v k' []%not_elem_of_empty.
Qed.
End walks.

Lemma Within_trans model ancestorId mid i j node :
  Within model mid i → findExecutorAt model mid = Some (j, node) →
  Within model ancestorId j →
  (∀ e, executors model !! i = Some e → ex_id e = mid → i = j) →
  Within model ancestorId i.
Proof.
  intros Hw Hf Hj. induction Hw as [i e Hi Hid|i k Hp _ IH]; intros Hfirst.
  - by rewrite (Hfirst _ Hi Hid).
  - apply within_up with k; [done|]. apply IH. intros e Hk Hid.
    apply bind_Some in Hp as (e' & _ & (up & _ & Hup)%bind_Some).
    apply fmap_Some_1 in Hup as ([k' e''] & Hup & ->). cbn in *.
    pose proof Hup as [Hk' Hid']%findExecutorAt_some. assert (up = mid) as -> by congruence.
    congruence.
Qed.

(** ** What each check accepts *)
Definition fresh_ids (seen : gset string) (ids : list string) : Prop :=
  ("" ∉ ids) ∧ NoDup ids ∧ ∀ id, id ∈ ids → id ∉ seen.

Lemma fresh_ids_app seen ids ids' :
  fresh_ids seen (ids ++ ids') ↔ fresh_ids seen ids ∧ fresh_ids (list_to_set ids ∪ seen) ids'.
Proof.
  unfold fresh_ids. rewrite NoDup_app, not_elem_of_app.
  setoid_rewrite elem_of_app. setoid_rewrite elem_of_union. setoid_rewrite elem_of_list_to_set.
  naive_solver.
Qed.

Lemma checkIds_section sec ids i seen seen' :
  fold_result_from i (checkId sec) seen ids = Ok seen' ↔
  fresh_ids seen ids ∧ seen' = list_to_set ids ∪ seen.
Proof.
  revert i seen. induction ids as [|id ids IH]; intros i seen; cbn.
  - split.
    + intros [= ->]. unfold fresh_ids. rewrite union_empty_l_L.
      split_and!; [by apply not_elem_of_nil|constructor|by intros ? ?%not_elem_of_nil|done].
    + intros (_ & ->). by rewrite union_empty_l_L.
  - change (id :: ids) with (app [id] ids). rewrite fresh_ids_app. cbn. rewrite union_empty_r_L.
    rewrite bind_ok. setoid_rewrite IH. unfold checkId at 1, str_empty.
    setoid_rewrite fail_then_ok. setoid_rewrite fail_then_ok.
    repeat setoid_rewrite bool_decide_eq_false. unfold fresh_ids at 2; cbn.
    setoid_rewrite list_elem_of_singleton. split.
    + intros (s & (Hne & Hs & [= <-]) & Hf & ->).
      split_and!; [naive_solver|apply NoDup_singleton|naive_solver|done|set_tauto].
    + intros (((Hne & _ & Hs) & Hf) & ->). exists ({[id]} ∪ seen).
      split_and!; [naive_solver|naive_solver|done|done|set_tauto].
Qed.

Lemma checkIds_ok model :
  (∃ seen, checkIds model = Ok seen) ↔ ("" ∉ all_ids model) ∧ NoDup (all_ids model).
Proof.
  transitivity (fresh_ids ∅ (all_ids model)).
  - unfold all_ids, checkIds. rewrite !fresh_ids_app.
    repeat setoid_rewrite bind_ok. repeat setoid_rewrite checkIds_section. split; last first.
    { intros (? & ? & ? & ? & ?). eexists. do 4 (eexists; split; [by split|]). by split. }
    intros (? & ? & [? ->] & ? & [? ->] & ? & [? ->] & ? & [? ->] & ? & ->). auto.
  - unfold fresh_ids. set_solver.
Qed.

Lemma checkRefines_ok sec i refines :
  checkRefines sec i refines = Ok tt ↔ ∀ r, r ∈ refines → AbstractOwner r.
Proof.
  unfold checkRefines. rewrite for_each_ok. setoid_rewrite fail_if_ok.
  setoid_rewrite bool_decide_eq_false. setoid_rewrite symbolizeOwner_none.
  split; intros H r Hr; [|by intros []; apply H].
  destruct (symbolizeOwner r) as [o|] eqn:Ho; [exists o; by apply symbolizeOwner_some|].
  apply symbolizeOwner_none in Ho. by destruct (H r Hr).
Qed.

Lemma find_exists {NodeT} (id : NodeT → string) nodes wanted :
  bool_decide (snd <$> findById id nodes wanted = None) = false ↔ wanted ∈ id <$> nodes.
Proof.
  rewrite bool_decide_eq_false, find_fmap_none. split; [|tauto]. apply dec_stable.
Qed.

Lemma kind_compute model kind :
  isKnownComputeKind model kind = true ↔
  ownerClass model kind = Some "matrix" ∨ ownerClass model kind = Some "vector".
Proof.
  unfold isKnownComputeKind. destruct (ownerClass model kind); [|naive_solver].
  rewrite orb_true_iff, !bool_decide_eq_true. cbn. naive_solver.
Qed.

Lemma kind_transfer model kind :
  isKnownTransferKind model kind = true ↔ ownerClass model kind = Some "transfer".
Proof.
  unfold isKnownTransferKind. destruct (ownerClass model kind); [|naive_solver].
  rewrite bool_decide_eq_true. cbn. naive_solver.
Qed.

Lemma kind_memory kind :
  isKnownMemoryKind kind = true ↔ ∃ space, kind = stringifyMemorySpace space.
Proof.
  unfold isKnownMemoryKind. rewrite bool_decide_eq_true. unfold is_Some.
  by setoid_rewrite symbolizeMemorySpace_some.
Qed.

Lemma NoDup_all_ids model :
  NoDup (all_ids model) → NoDup (ex_id <$> executors model).
Proof. unfold all_ids. rewrite NoDup_app. tauto. Qed.

Lemma checkEquivalent_ok model i e q :
  NoDup (ex_id <$> executors model) →
  checkEquivalent model i e q = Ok tt ↔
  q ≠ ex_id e ∧ ∃ other, other ∈ executors model ∧ ex_id other = q ∧
    ex_kind other = ex_kind e ∧ ex_id e ∈ equivalentTo other.
Proof.
  intros Hnd. unfold checkEquivalent. rewrite fail_then_ok, bool_decide_eq_false.
  apply and_iff_compat_l. destruct (findExecutor model q) as [other|] eqn:Hf.
  - apply find_fmap_some in Hf as [Hin Hid]; [|done].
    rewrite fail_then_ok, fail_if_ok, bool_decide_eq_false, negb_false_iff, contains_true.
    split; [intros [? ?]; exists other; split_and!; [done..|by apply dec_stable|done]|].
    intros (other' & Hin' & Hid' & ? & ?).
    assert (other' = other) as ->; [|tauto].
    assert (findExecutor model q = Some other') as H1 by by apply find_fmap_some.
    assert (findExecutor model q = Some other) as H2 by by apply find_fmap_some. congruence.
  - split; [done|]. intros (other & Hin & Hid & _).
    apply find_fmap_none in Hf. destruct Hf. apply list_elem_of_fmap. naive_solver.
Qed.

Lemma verifyExecutor_ok model i e :
  NoDup (ex_id <$> executors model) → verifyExecutor model i e = Ok tt ↔ ExecutorOk model e.
Proof.
  intros Hnd. unfold verifyExecutor.
  rewrite fail_then_ok, seq_ok, !fail_then_ok, checkRefines_ok, for_each_ok, negb_false_iff.
  unfold isKnownOwnerKind. rewrite bool_decide_eq_true, bool_decide_eq_false.
  setoid_rewrite (checkEquivalent_ok model i e); [|done].
  assert (match parent e with Some p => bool_decide (findExecutor model p = None) | None => false end
    = false ↔ ∀ p, parent e = Some p → p ∈ ex_id <$> executors model) as ->.
  { destruct (parent e) as [p|]; [|naive_solver]. unfold findExecutor, findExecutorAt.
    rewrite find_exists. naive_solver. }
  split; [intros (?&?&?&?&?); by constructor|intros []; auto].
Qed.

Lemma verifyMemory_ok model i m : verifyMemory model i m = Ok tt ↔ MemoryOk model m.
Proof.
  unfold verifyMemory, findExecutor, findExecutorAt.
  rewrite !fail_then_ok, fail_if_ok, negb_false_iff, kind_memory, find_exists, !bool_decide_eq_false.
  split; [intros (?&?&?&?&?); by constructor|intros []; auto].
Qed.

Lemma verifyShape_ok i s : verifyShape i s = Ok tt ↔ s ≠ [] ∧ ∀ x, x ∈ s → 0 < x.
Proof.
  unfold verifyShape. rewrite fail_then_ok, for_each_ok, bool_decide_eq_false.
  setoid_rewrite fail_if_ok. setoid_rewrite bool_decide_eq_false.
  by setoid_rewrite Z.nle_gt.
Qed.

Lemma verifyCompute_ok model i c : verifyCompute model i c = Ok tt ↔ ComputeOk model c.
Proof.
  unfold verifyCompute, findExecutor, findExecutorAt.
  rewrite fail_then_ok, seq_ok, !fail_then_ok, seq_ok, checkRefines_ok, !for_each_ok,
    negb_false_iff, kind_compute, find_exists, !bool_decide_eq_false.
  setoid_rewrite verifyShape_ok. setoid_rewrite fail_if_ok. setoid_rewrite bool_decide_eq_false.
  assert ((∀ x, x ∈ in_order (lanes c) → ¬ x.2 <= 0) ↔
    (∀ d n, lanes c !! d = Some n → 0 < n)) as ->.
  { setoid_rewrite <- in_order_elem. split.
    - intros H d n Hn. apply H in Hn. cbn in Hn. lia.
    - intros H [d n] Hn. apply H in Hn. cbn. lia. }
  split; [intros (?&?&?&?&?&?&?&?); by constructor|intros []; auto 10].
Qed.

Lemma verifyTransferEngine_ok model i e :
  verifyTransferEngine model i e = Ok tt ↔ EngineOk model e.
Proof.
  unfold verifyTransferEngine, findExecutor, findExecutorAt.
  rewrite fail_then_ok, seq_ok, !fail_then_ok, fail_if_ok, checkRefines_ok, negb_false_iff,
    kind_transfer, find_exists, !bool_decide_eq_false.
  split; [intros (?&?&?&?&?); by constructor|intros []; auto].
Qed.

Lemma verifyLink_ok model i l : verifyLink model i l = Ok tt ↔ LinkOk model l.
Proof.
  unfold verifyLink, findMemory, findTransferEngine.
  rewrite !fail_then_ok, for_each_ok, !find_exists, !bool_decide_eq_false.
  setoid_rewrite fail_if_ok. setoid_rewrite find_exists.
  split; [intros (?&?&?&?&?&?); by constructor|intros []; auto 10].
Qed.

(** A loop over a section accepts when every node of it is acceptable. *)
Lemma section_ok {NodeT} (check : nat → NodeT → result machine_error unit) (P : NodeT → Prop) nodes :
  (∀ i node, check i node = Ok tt ↔ P node) →
  for_each_from 0 check nodes = Ok tt ↔ ∀ node, node ∈ nodes → P node.
Proof.
  intros HP. rewrite for_each_from_ok. setoid_rewrite HP. split.
  - intros H node [k Hk]%list_elem_of_lookup_1. eauto.
  - intros H k node Hk. apply H. by eapply list_elem_of_lookup_2.
Qed.

Lemma containment_section model :
  for_each_from 0 (verifyContainment model) (executors model) = Ok tt ↔
  ∀ i, (i < length (executors model))%nat → ∃ k, chainEnds model k i.
Proof.
  rewrite for_each_from_ok. cbn. split.
  - intros H i [node Hi]%lookup_lt_is_Some_2. by eapply verifyContainment_ok, H.
  - intros H i node Hi. eapply verifyContainment_ok; [done|]. apply H. by eapply lookup_lt_Some.
Qed.

(** ** The theorems *)

Lemma verify_iff model : verifyMachineModel model = Ok tt ↔ WellFormed model.
Proof.
  unfold verifyMachineModel, str_empty. rewrite !fail_then_ok, bind_ok, !bool_decide_eq_false.
  repeat setoid_rewrite seq_ok.
  setoid_rewrite containment_section.
  setoid_rewrite (section_ok _ _ _ (verifyMemory_ok model)).
  setoid_rewrite (section_ok _ _ _ (verifyCompute_ok model)).
  setoid_rewrite (section_ok _ _ _ (verifyTransferEngine_ok model)).
  setoid_rewrite (section_ok _ _ _ (verifyLink_ok model)).
  split.
  - intros (? & ? & ? & ? & seen & Hids & Hex & ? & ? & ? & ? & ?).
    destruct (proj1 (checkIds_ok model)) as [Hne Hnd]; [by exists seen|].
    constructor; try done; [by apply dec_stable|].
    eapply section_ok; [|done]. intros i e. apply verifyExecutor_ok. by apply NoDup_all_ids.
  - intros []. destruct (proj2 (checkIds_ok model)) as [seen Hseen]; [done|].
    split_and!; try done; [by intros []|].
    exists seen. split_and!; try done.
    eapply section_ok; [|done]. intros i e. apply verifyExecutor_ok. by apply NoDup_all_ids.
Qed.

Lemma verified_ids model : verifyMachineModel model = Ok tt →
  NoDup (ex_id <$> executors model) ∧ NoDup (mem_id <$> memories model) ∧ NoDup (cmp_id <$> computes model).
Proof.
  intros Hw%verify_iff. pose proof (wf_ids_unique _ Hw) as Hnd. unfold all_ids in Hnd. rewrite !NoDup_app in Hnd. tauto.
Qed.

(** C7: [verifyMachineModel] accepts exactly the well-formed models: supported
    schema, one namespace of non-empty distinct ids, known kinds, mutual
    equivalences, references that resolve, positive quantities, and containment
    chains that all reach a root. *)
Theorem verifyMachineModel_exact model :
  verifyMachineModel model = Ok tt ↔ WellFormed model.
Proof. exact (verify_iff model). Qed.

(** [isWithin] answers true exactly when the named executor exists and the
    ancestor's id is met on its containment chain, on any model: a cyclic chain
    neither hangs the walk nor makes it miss an ancestor. *)
Theorem isWithin_exact model nodeId ancestorId :
  isWithin model nodeId ancestorId = true ↔
  ∃ i node, findExecutorAt model nodeId = Some (i, node) ∧ Within model ancestorId i.
Proof. apply isWithin_true. Qed.

(** Memory visibility is inherited: what an executor can address, every
    executor inside it can address. *)
Theorem isVisible_inherited model memoryId executorId descendantId :
  isVisible model memoryId executorId = true →
  isWithin model descendantId executorId = true →
  isVisible model memoryId descendantId = true.
Proof.
  unfold isVisible. destruct (findMemory model memoryId) as [memory|]; [|done].
  rewrite !isWithin_true. intros (j & ex & Hj & Hanc) (i & d & Hi & Hin).
  exists i, d. split; [done|]. eapply Within_trans; [done..|].
  intros e He Hid. apply findExecutorAt_some in Hi as Hd. destruct Hd as [Hd Hdid].
  assert (d = e) as -> by congruence. congruence.
Qed.

(** *** Owner classes *)

(** The abstract classes the nodes of kind [spelling] declare, in visiting
    order. *)
Definition declaredClasses (model : MachineModel) (spelling : string) : list string :=
  omap (λ r, stringifyOwner <$> symbolizeOwner r) (concat
    (declaredRefines ex_kind ex_refines spelling (executors model) ++
     declaredRefines cmp_kind cmp_refines spelling (computes model) ++
     declaredRefines eng_kind eng_refines spelling (transferEngines model))).

Lemma consider_app state xs ys : consider state (xs ++ ys) = consider (consider state xs) ys.
Proof. apply foldl_app. Qed.

Lemma foldl_consider state lists : foldl consider state lists = consider state (concat lists).
Proof.
  revert state. induction lists as [|xs lists IH]; intros state; cbn; [done|].
  by rewrite IH, consider_app.
Qed.

(** [resolved] is the first class met, [conflicting] whether another follows. *)
Lemma consider_resolved refines name conflicting :
  consider (Some name, conflicting) refines =
    (Some name, conflicting || existsb (λ other, bool_decide (name ≠ other))
      (omap (λ r, stringifyOwner <$> symbolizeOwner r) refines)).
Proof.
  revert conflicting. induction refines as [|r refines IH]; intros conflicting; cbn.
  - by rewrite orb_false_r.
  - destruct (symbolizeOwner r) as [o|]; cbn; rewrite IH; [|done].
    by case_bool_decide; rewrite ?orb_true_r.
Qed.

Lemma consider_start refines :
  consider (None, false) refines =
    match omap (λ r, stringifyOwner <$> symbolizeOwner r) refines with
    | [] => (None, false)
    | name :: names => (Some name, existsb (λ other, bool_decide (name ≠ other)) names)
    end.
Proof.
  induction refines as [|r refines IH]; cbn; [done|].
  destruct (symbolizeOwner r) as [o|]; cbn; [|done]. apply consider_resolved.
Qed.

(** A spelling resolves to a class exactly when it is that abstract class,
    or, not being one, the nodes that declare it as their kind declare that class
    and no other; an undeclared or ambiguous label has no class. *)
Theorem ownerClass_exact model spelling cls :
  ownerClass model spelling = Some cls ↔
  (AbstractOwner spelling ∧ cls = spelling) ∨
  ((¬ AbstractOwner spelling) ∧ cls ∈ declaredClasses model spelling ∧
    ∀ other, other ∈ declaredClasses model spelling → other = cls).
Proof.
  unfold ownerClass. destruct (symbolizeOwner spelling) as [o|] eqn:Ho.
  { apply symbolizeOwner_some in Ho. split; [intros [= <-]; left; split; [by exists o|done]|].
    intros [[_ ->]|[[] _]]; [by rewrite Ho|by exists o]. }
  apply symbolizeOwner_none in Ho. rewrite <- !foldl_app, foldl_consider, consider_start.
  unfold declaredClasses. rewrite (assoc_L app).
  destruct (omap _ _) as [|name names].
  { split; [done|]. intros [[]|(_ & []%not_elem_of_nil & _)]; done. }
  setoid_rewrite elem_of_cons.
  destruct (existsb (λ other, bool_decide (name ≠ other)) names) eqn:Hex.
  - apply existsb_exists in Hex as (other & Hin%list_elem_of_In & Hne%bool_decide_eq_true).
    split; [done|]. intros [[]|(_ & _ & Hall)]; [done|].
    destruct Hne. by rewrite (Hall name), (Hall other) by auto.
  - assert (∀ other, other ∈ names → other = name) as Hall.
    { intros other Hin. apply dec_stable. intros Hne. apply not_true_iff_false in Hex. destruct Hex.
      apply existsb_exists. exists other. rewrite bool_decide_eq_true, <- list_elem_of_In. auto. }
    naive_solver.
Qed.

(** *** Identity *)


(** Two nodes that differ only in the order of the lists the rendering sorts. *)
Definition sameExecutor (a b : ExecutorNode) : Prop :=
  ∃ refines equivalents, ex_refines a ≡ₚ refines ∧ equivalentTo a ≡ₚ equivalents ∧
    b = mkExecutor (ex_id a) (ex_kind a) (parent a) (coordinates a) (ex_concurrency a) refines
          (schedulingClass a) equivalents.
Definition sameMemory (a b : MemoryNode) : Prop :=
  ∃ layouts, mem_layouts a ≡ₚ layouts ∧
    b = mkMemory (mem_id a) (mem_kind a) (visibleFrom a) (capacityBytes a) (alignmentBytes a) layouts
          (banks a) (mem_bandwidth a) (mem_latency a) (accessGranularityBytes a).
Definition sameCompute (a b : ComputeNode) : Prop :=
  ∃ refines types layouts accumulators, cmp_refines a ≡ₚ refines ∧ elementTypes a ≡ₚ types ∧
    cmp_layouts a ≡ₚ layouts ∧ accumulatorDTypes a ≡ₚ accumulators ∧
    b = mkCompute (cmp_id a) (cmp_kind a) refines (cmp_attachedTo a) types layouts (shapes a) (lanes a)
          (issueCycles a) (cmp_latency a) (throughputPerCycle a) (cmp_concurrency a) accumulators
          (occupancyLimit a).
Definition sameEngine (a b : TransferEngineNode) : Prop :=
  ∃ refines, eng_refines a ≡ₚ refines ∧
    b = mkEngine (eng_id a) (eng_kind a) refines (eng_attachedTo a) (count a) (maxOutstanding a)
          (setupCycles a).
Definition sameLink (a b : LinkEdge) : Prop :=
  ∃ engines, link_engines a ≡ₚ engines ∧
    b = mkLink (link_id a) (source a) (destination a) (link_bandwidth a) (link_latency a)
          (transactionBytes a) engines (link_concurrency a) (directionality a).

(** One section is a reordering of the other, up to [R] on the nodes. *)
Definition reordered {NodeT} (R : NodeT → NodeT → Prop) (xs ys : list NodeT) : Prop :=
  ∃ zs, xs ≡ₚ zs ∧ Forall2 R zs ys.

(** The same machine, declared in another order (and possibly another minor
    revision, which is metadata). *)
Record SameMachine (a b : MachineModel) : Prop := {
  same_schema : schemaMajor a = schemaMajor b;
  same_target : target a = target b;
  same_description : description a = description b;
  same_clock : clockHz a = clockHz b;
  same_workers : workerThreads a = workerThreads b;
  same_sync : sync a = sync b;
  same_executors : reordered sameExecutor (executors a) (executors b);
  same_memories : reordered sameMemory (memories a) (memories b);
  same_computes : reordered sameCompute (computes a) (computes b);
  same_engines : reordered sameEngine (transferEngines a) (transferEngines b);
  same_links : reordered sameLink (links a) (links b);
}.

(** A section's rendering depends on the ids and the nodes' renderings only. *)
Lemma renderSection_pairs {NodeT} (id render : NodeT → string) nodes :
  NoDup (id <$> nodes) →
  renderSection id render nodes =
    String.concat "" ((λ p : string * string, p.2 +:+ newline) <$>
      sort_by fst ((λ node, (id node, render node)) <$> nodes)).
Proof.
  intros Hnd. rewrite <- sort_by_fmap; [by rewrite <- list_fmap_compose|].
  by rewrite <- list_fmap_compose.
Qed.

Lemma Forall2_fmap_eq {A B} (f : A → B) (R : A → A → Prop) xs ys :
  (∀ a b, R a b → f a = f b) → Forall2 R xs ys → f <$> xs = f <$> ys.
Proof. intros HR. induction 1; csimpl; [done|]. f_equal; auto. Qed.

Lemma renderSection_reordered {NodeT} (id render : NodeT → string) (R : NodeT → NodeT → Prop) xs ys :
  (∀ a b, R a b → id a = id b ∧ render a = render b) →
  NoDup (id <$> xs) → reordered R xs ys →
  renderSection id render xs = renderSection id render ys.
Proof.
  intros HR Hnd (zs & Hperm & Hall).
  assert (NoDup (id <$> zs)) as Hz by by rewrite <- Hperm.
  assert (id <$> zs = id <$> ys) as Hids.
  { apply (Forall2_fmap_eq id R); [|done]. intros a b Hab. by destruct (HR a b Hab). }
  rewrite !renderSection_pairs; [|by rewrite <- Hids|done].
  rewrite <- (Forall2_fmap_eq (λ node, (id node, render node)) R zs ys); [| |done].
  - do 2 f_equal. apply sort_by_unique; [by rewrite <- list_fmap_compose|]. by rewrite Hperm.
  - intros a b Hab. by destruct (HR a b Hab) as [-> ->].
Qed.

Ltac same_render :=
  intros ? ? Hab; unfold sameExecutor, sameMemory, sameCompute, sameEngine, sameLink in Hab;
  destruct_and?; repeat match goal with H : ∃ _, _ |- _ => destruct H end; destruct_and!; subst;
  split; [done|];
  unfold renderExecutor, renderMemory, renderCompute, renderTransferEngine, renderLink; cbn -[String.append];
  repeat match goal with H : _ ≡ₚ _ |- _ => apply sort_strings_perm in H; rewrite H; clear H end; done.

(** The canonical string, and so the content hash, does not depend on the
    order in which a file declares its nodes or their set-valued lists. *)
Theorem canonicalMachineString_order a b :
  NoDup (all_ids a) → SameMachine a b →
  canonicalMachineString a = canonicalMachineString b ∧ computeContentHash a = computeContentHash b.
Proof.
  unfold all_ids. rewrite !NoDup_app. intros Hnd []. unfold computeContentHash.
  assert (canonicalMachineString a = canonicalMachineString b) as ->; [|done].
  unfold canonicalMachineString.
  rewrite same_schema0, same_target0, same_description0, same_clock0, same_workers0, same_sync0.
  rewrite (renderSection_reordered ex_id renderExecutor sameExecutor (executors a) (executors b));
    [|same_render|tauto|done].
  rewrite (renderSection_reordered mem_id renderMemory sameMemory (memories a) (memories b));
    [|same_render|tauto|done].
  rewrite (renderSection_reordered cmp_id renderCompute sameCompute (computes a) (computes b));
    [|same_render|tauto|done].
  rewrite (renderSection_reordered eng_id renderTransferEngine sameEngine (transferEngines a)
    (transferEngines b)); [|same_render|tauto|done].
  rewrite (renderSection_reordered link_id renderLink sameLink (links a) (links b));
    [|same_render|tauto|done].
  done.
Qed.

(** *** A concrete machine *)
Definition sample_group := mkExecutor "group.0" "group" None [] 1 [] InOrder [].
Definition sample_pe0 := mkExecutor "pe.0" "pe" (Some "group.0") [0] 1 ["worker"] InOrder ["pe.1"].
Definition sample_pe1 := mkExecutor "pe.1" "pe" (Some "group.0") [1] 1 ["worker"] InOrder ["pe.0"].
Definition sample_dram := mkMemory "dram.0" "dram" "group.0" 65536 64 ["row"; "tiled"] None
  (double_of_Z 16) 100 None.
Definition sample_sram := mkMemory "sram.0" "sram" "pe.0" 4096 16 ["row"] (Some 4)
  (double_of_Z 64) 10 (Some 16).
Definition sample_mxu := mkCompute "mxu.0" "mxu" ["matrix"] "pe.0" ["f16"; "f32"] ["row"] [[16; 16; 16]]
  {["f16" := 32]} 1 8 None 1 ["f32"] None.
Definition sample_dma := mkEngine "dma.0" "dma" ["transfer"] "group.0" 2 4 32.
Definition sample_link := mkLink "dram_to_sram" "dram.0" "sram.0" (double_of_Z 32) 20 64 ["dma.0"] 1
  Unidirectional.
Definition sample_machine : MachineModel :=
  mkMachine 2 0 "toy" "" (Some 1000000000) 4 (mkSync 10 5)
    [sample_group; sample_pe0; sample_pe1] [sample_dram; sample_sram] [sample_mxu] [sample_dma]
    [sample_link] 0.

(** The same machine with its sections and one layout list in another order. *)
Definition sample_shuffled : MachineModel :=
  mkMachine 2 0 "toy" "" (Some 1000000000) 4 (mkSync 10 5)
    [sample_pe1; sample_group; sample_pe0]
    [sample_sram; mkMemory "dram.0" "dram" "group.0" 65536 64 ["tiled"; "row"] None
       (double_of_Z 16) 100 None]
    [sample_mxu] [sample_dma] [sample_link] 0.

Example sample_verifies : verifyMachineModel sample_machine = Ok tt.
Proof. vm_compute. reflexivity. Qed.

Example sample_rejects_cycle :
  verifyMachineModel (mkMachine 2 0 "toy" "" None 1 (mkSync 0 0)
    [mkExecutor "a" "group" (Some "b") [] 1 [] InOrder [];
     mkExecutor "b" "group" (Some "a") [] 1 [] InOrder []] [] [] [] [] 0) = Err (ContainmentCycle 0).
Proof. vm_compute. reflexivity. Qed.

Lemma isVisible_inherited_witness :
  isVisible sample_machine "dram.0" "group.0" = true ∧
  isVisible sample_machine "dram.0" "pe.1" = true.
Proof.
  split; [vm_compute; reflexivity|].
  apply (isVisible_inherited sample_machine "dram.0" "group.0" "pe.1"); vm_compute; reflexivity.
Defined.

Lemma reordered_refl {NodeT} (R : NodeT → NodeT → Prop) xs : (∀ x, R x x) → reordered R xs xs.
Proof. intros HR. exists xs. split; [done|]. by apply Forall_Forall2_diag, Forall_true. Qed.

Lemma canonicalMachineString_order_witness :
  canonicalMachineString sample_machine = canonicalMachineString sample_shuffled ∧
  computeContentHash sample_machine = computeContentHash sample_shuffled.
Proof.
  apply (canonicalMachineString_order sample_machine sample_shuffled).
  - apply (bool_decide_eq_true_1 _). vm_compute. reflexivity.
  - constructor; try reflexivity.
    + exists [sample_pe1; sample_group; sample_pe0]. split; [|repeat constructor; by eexists _, _].
      cbn. solve_Permutation.
    + exists [sample_sram; sample_dram]. split; [apply perm_swap|].
      repeat constructor; [by eexists|]. exists ["tiled"; "row"]. split; [apply perm_swap|done].
    + apply reordered_refl. intros []. by eexists _, _, _, _.
    + apply reordered_refl. intros []. by eexists.
    + apply reordered_refl. intros []. by eexists.
Defined.

(** [hasOwnerKind] is documented as "true when [ownerKind] names at least one
    executor", but the 32-bit sum behind it wraps: this verified machine has two
    workers and is said to have none. *)
Definition wrapping_machine : MachineModel :=
  mkMachine 2 0 "toy" "" None 1 (mkSync 0 0)
    [mkExecutor "w.0" "worker" None [] (2 ^ 31) [] InOrder [];
     mkExecutor "w.1" "worker" None [] (2 ^ 31) [] InOrder []] [] [] [] [] 0.

Lemma hasOwnerKind_wraps :
  verifyMachineModel wrapping_machine = Ok tt ∧
  ownerMatches wrapping_machine "worker" "w.0" = true ∧
  hasOwnerKind wrapping_machine "worker" = false.
Proof. split_and!; vm_compute; reflexivity. Qed.

(** Vocabulary round trips. *)
Lemma symbolizeSchedulingClass_stringify v :
  symbolizeSchedulingClass (stringifySchedulingClass v) = Some v.
Proof. by destruct v. Qed.
Lemma symbolizeLinkDirectionality_stringify v :
  symbolizeLinkDirectionality (stringifyLinkDirectionality v) = Some v.
Proof. by destruct v. Qed.
