(* ===== verification/Diagnostics.v ===== *)
(** Diagnostics and stable hashes: lib/Mapping/Diagnostics.cpp and
    lib/Mapping/StableHash.cpp.

    Diagnostics are ordered by code, then by message; [primaryRefusal] picks the
    one a "no plan" report leads with.  The hashes are FNV-1a folds whose inputs
    are ordered first where the input is a set; [hexId] prints them so that the
    order of the texts is the order of the numbers. *)
From S2P Require Import Prelude MachineModel.
Open Scope string_scope.
Open Scope Z_scope.

(** ** Codes *)
Inductive DiagnosticCode :=
| NoMatchingRule
| NoLegalLayout
| NoLegalExecutor
| MemoryCapacityExceeded
| UnsupportedComputeFragment
| NoMemoryRoute
| NoLayoutTransform
| GlobalConstraintFailed
| SearchTruncated
| LatencyCacheMiss
| TargetBundleInvalid
| AssumedValueSize
| InvalidMappingMetadata
| ConnectionChoiceUnexplored
| InvalidGatherDeclaration
| UnsupportedMaterialization.
#[export] Instance DiagnosticCode_eq_dec : EqDecision DiagnosticCode.
Proof. solve_decision. Defined.

(** The enumerators, in order of declaration. *)
Definition allCodes : list DiagnosticCode :=
  [NoMatchingRule; NoLegalLayout; NoLegalExecutor; MemoryCapacityExceeded; UnsupportedComputeFragment;
   NoMemoryRoute; NoLayoutTransform; GlobalConstraintFailed; SearchTruncated; LatencyCacheMiss;
   TargetBundleInvalid; AssumedValueSize; InvalidMappingMetadata; ConnectionChoiceUnexplored;
   InvalidGatherDeclaration; UnsupportedMaterialization].

(** [static_cast<int>(code)]. *)
Definition ordinal (code : DiagnosticCode) : nat :=
  match code with
  | NoMatchingRule => 0
  | NoLegalLayout => 1
  | NoLegalExecutor => 2
  | MemoryCapacityExceeded => 3
  | UnsupportedComputeFragment => 4
  | NoMemoryRoute => 5
  | NoLayoutTransform => 6
  | GlobalConstraintFailed => 7
  | SearchTruncated => 8
  | LatencyCacheMiss => 9
  | TargetBundleInvalid => 10
  | AssumedValueSize => 11
  | InvalidMappingMetadata => 12
  | ConnectionChoiceUnexplored => 13
  | InvalidGatherDeclaration => 14
  | UnsupportedMaterialization => 15
  end.

Definition stringifyDiagnosticCode (code : DiagnosticCode) : string :=
  match code with
  | NoMatchingRule => "no_matching_rule"
  | NoLegalLayout => "no_legal_layout"
  | NoLegalExecutor => "no_legal_executor"
  | MemoryCapacityExceeded => "memory_capacity_exceeded"
  | UnsupportedComputeFragment => "unsupported_compute_fragment"
  | NoMemoryRoute => "no_memory_route"
  | NoLayoutTransform => "no_layout_transform"
  | GlobalConstraintFailed => "global_constraint_failed"
  | SearchTruncated => "search_truncated"
  | LatencyCacheMiss => "latency_cache_miss"
  | TargetBundleInvalid => "target_bundle_invalid"
  | AssumedValueSize => "assumed_value_size"
  | InvalidMappingMetadata => "invalid_mapping_metadata"
  | ConnectionChoiceUnexplored => "connection_choice_unexplored"
  | InvalidGatherDeclaration => "invalid_gather_declaration"
  | UnsupportedMaterialization => "unsupported_materialization"
  end.

Definition symbolizeDiagnosticCode (name : string) : option DiagnosticCode :=
  if decide (name = "no_matching_rule") then Some NoMatchingRule
  else if decide (name = "no_legal_layout") then Some NoLegalLayout
  else if decide (name = "no_legal_executor") then Some NoLegalExecutor
  else if decide (name = "memory_capacity_exceeded") then Some MemoryCapacityExceeded
  else if decide (name = "unsupported_compute_fragment") then Some UnsupportedComputeFragment
  else if decide (name = "no_memory_route") then Some NoMemoryRoute
  else if decide (name = "no_layout_transform") then Some NoLayoutTransform
  else if decide (name = "global_constraint_failed") then Some GlobalConstraintFailed
  else if decide (name = "search_truncated") then Some SearchTruncated
  else if decide (name = "latency_cache_miss") then Some LatencyCacheMiss
  else if decide (name = "target_bundle_invalid") then Some TargetBundleInvalid
  else if decide (name = "assumed_value_size") then Some AssumedValueSize
  else if decide (name = "invalid_mapping_metadata") then Some InvalidMappingMetadata
  else if decide (name = "connection_choice_unexplored") then Some ConnectionChoiceUnexplored
  else if decide (name = "invalid_gather_declaration") then Some InvalidGatherDeclaration
  else if decide (name = "unsupported_materialization") then Some UnsupportedMaterialization
  else None.

Record Diagnostic := mkDiagnostic { code : DiagnosticCode; message : string }.
#[export] Instance Diagnostic_eq_dec : EqDecision Diagnostic.
Proof. solve_decision. Defined.

Definition diagnosticLess (lhs rhs : Diagnostic) : bool :=
  if decide (code lhs ≠ code rhs) then (ordinal (code lhs) <? ordinal (code rhs))%nat
  else str_ltb (message lhs) (message rhs).

Definition isRejection (code : DiagnosticCode) : bool :=
  match code with
  | SearchTruncated | LatencyCacheMiss | AssumedValueSize | ConnectionChoiceUnexplored => false
  | NoMatchingRule | NoLegalLayout | NoLegalExecutor | MemoryCapacityExceeded
  | UnsupportedComputeFragment | NoMemoryRoute | NoLayoutTransform | GlobalConstraintFailed
  | TargetBundleInvalid | InvalidMappingMetadata | InvalidGatherDeclaration
  | UnsupportedMaterialization => true
  end.

Definition isPlanLevel (code : DiagnosticCode) : bool :=
  match code with UnsupportedMaterialization | MemoryCapacityExceeded => true | _ => false end.

(** The loop of [primaryRefusal], with the first rejection seen so far. *)
Fixpoint refusalLoop (first : option Diagnostic) (diagnostics : list Diagnostic) : option Diagnostic :=
  match diagnostics with
  | [] => first
  | detail :: diagnostics =>
    if negb (isRejection (code detail)) then refusalLoop first diagnostics
    else if isPlanLevel (code detail) then Some detail
    else refusalLoop (match first with None => Some detail | Some d => Some d end) diagnostics
  end.
Definition primaryRefusal (diagnostics : list Diagnostic) : option Diagnostic := refusalLoop None diagnostics.

(** ** Hashes *)
Fixpoint le_bytes (n : nat) (value : Z) : list Z :=
  match n with
  | O => []
  | S n => Z.land value 255 :: le_bytes n (Z.shiftr value 8)
  end.

Definition stableHashBytes (seed : Z) (data : list Z) : Z :=
  foldl (λ hash raw, u64 (Z.lxor hash raw * fnv_prime)) seed data.

Definition stableHashCombine (seed value : Z) : Z := stableHashBytes seed (le_bytes 8 value).

Definition stableHashSortedSet (values : list Z) : Z :=
  foldl stableHashCombine fnv_offset_basis (merge_sort Z.le values).

(** [%016llx]. *)
Definition hexId (value : Z) : string := hex64 value.

(** ** The order of diagnostics *)

(** The codes and their stable names are in bijection: every code is read back
    from its name, and a name that is read names that code. *)
Theorem diagnostic_codes_roundtrip name code :
  symbolizeDiagnosticCode (stringifyDiagnosticCode code) = Some code ∧
  (symbolizeDiagnosticCode name = Some code ↔ name = stringifyDiagnosticCode code).
Proof.
  assert (∀ c, symbolizeDiagnosticCode (stringifyDiagnosticCode c) = Some c) as H by (by intros []).
  split; [done|]. split; [|by intros ->]. unfold symbolizeDiagnosticCode.
  repeat (destruct (decide (name = _)) as [->|]; [by intros [= <-]|]). done.
Qed.

Lemma ordinal_inj c d : ordinal c = ordinal d → c = d.
Proof. by destruct c, d. Qed.

Lemma diagnosticLess_spec a b : diagnosticLess a b = true ↔
  (ordinal (code a) < ordinal (code b))%nat ∨ code a = code b ∧ str_ltb (message a) (message b) = true.
Proof.
  unfold diagnosticLess. destruct (decide (code a ≠ code b)) as [Hne|Heq%dec_stable].
  - rewrite Nat.ltb_lt. naive_solver.
  - rewrite Heq. split; [auto|]. intros [?|[_ ?]]; [lia|done].
Qed.

(** [diagnosticLess] is a strict total order, so sorting a frontier of distinct
    diagnostics by it gives one list, however they were found. *)
Theorem diagnosticLess_strict_total a b c :
  diagnosticLess a a = false ∧
  (diagnosticLess a b = true → diagnosticLess b c = true → diagnosticLess a c = true) ∧
  (diagnosticLess a b = true ∨ a = b ∨ diagnosticLess b a = true).
Proof.
  rewrite <- not_true_iff_false, !diagnosticLess_spec. destruct a as [ca ma], b as [cb mb], c as [cc mc]. cbn.
  split_and!.
  - rewrite str_ltb_irrefl. intros [?|[_ ?]]; [lia|done].
  - intros [?|[-> ?]] [?|[-> ?]]; auto with lia. right. split; [done|by eapply str_ltb_trans].
  - destruct (decide (ca = cb)) as [->|Hne].
    + destruct (str_ltb_total ma mb) as [?|[->|?]]; auto.
    + assert (ordinal ca ≠ ordinal cb) by (by intros ?%ordinal_inj). lia.
Qed.

(** ** The refusal that leads *)
Definition isRefusal (d : Diagnostic) : bool := isRejection (code d).
Definition isPlanRefusal (d : Diagnostic) : bool := isPlanLevel (code d).

Lemma planLevel_rejects c : isPlanLevel c = true → isRejection c = true.
Proof. by destruct c. Qed.

Lemma refusalLoop_spec first ds : refusalLoop first ds =
  match List.find isPlanRefusal ds with
  | Some d => Some d
  | None => match first with Some d => Some d | None => List.find isRefusal ds end
  end.
Proof.
  revert first. induction ds as [|d ds IH]; intros first; cbn; [by destruct first|].
  unfold isPlanRefusal, isRefusal. destruct (isRejection (code d)) eqn:Hr; cbn.
  - destruct (isPlanLevel (code d)); [done|]. rewrite IH. fold isPlanRefusal. by destruct first, (List.find _ ds).
  - destruct (isPlanLevel (code d)) eqn:Hp; [by rewrite planLevel_rejects in Hr|]. apply IH.
Qed.

(** [primaryRefusal] leads with the first plan-level refusal wherever it stands,
    with the first rejection when there is none, and reports nothing exactly when
    the diagnostics hold only notices. *)
Theorem primaryRefusal_exact ds :
  primaryRefusal ds = match List.find isPlanRefusal ds with
                      | Some d => Some d
                      | None => List.find isRefusal ds
                      end ∧
  (primaryRefusal ds = None ↔ Forall (λ d, isRejection (code d) = false) ds).
Proof.
  assert (primaryRefusal ds = match List.find isPlanRefusal ds with
    | Some d => Some d | None => List.find isRefusal ds end) as H.
  { unfold primaryRefusal. rewrite refusalLoop_spec. by destruct (List.find _ ds). }
  split; [done|]. rewrite H. split.
  - intros Hn. destruct (List.find isPlanRefusal ds) eqn:Hp; [done|]. apply Forall_forall. intros d Hd.
    by apply (List.find_none _ _ Hn), list_elem_of_In.
  - rewrite Forall_forall. intros Hall. destruct (List.find isPlanRefusal ds) as [d|] eqn:Hp.
    + apply List.find_some in Hp as [Hin Hp]. apply planLevel_rejects in Hp.
      rewrite (Hall d) in Hp; [done|by apply list_elem_of_In].
    + destruct (List.find isRefusal ds) as [d|] eqn:Hr; [|done].
      apply List.find_some in Hr as [Hin Hr]. unfold isRefusal in Hr.
      rewrite (Hall d) in Hr; [done|by apply list_elem_of_In].
Qed.

(** ** Hashes and ids *)
Lemma merge_sort_unique (xs ys : list Z) : xs ≡ₚ ys → merge_sort Z.le xs = merge_sort Z.le ys.
Proof.
  intros H. apply (StronglySorted_unique Z.le).
  - apply StronglySorted_merge_sort; apply _.
  - apply StronglySorted_merge_sort; apply _.
  - by rewrite !merge_sort_Permutation.
Qed.

(** The hash of a set does not depend on the order its members were collected in. *)
Lemma stableHashSortedSet_perm xs ys : xs ≡ₚ ys → stableHashSortedSet xs = stableHashSortedSet ys.
Proof. intros H. unfold stableHashSortedSet. by rewrite (merge_sort_unique xs ys H). Qed.

Lemma hex_digits_length n v : String.length (hex_digits n v) = n.
Proof. revert v. induction n as [|n IH]; intros v; [done|]. cbn [hex_digits]. rewrite str_app_length, IH. cbn. lia. Qed.

Lemma hex_digit_order d e : 0 <= d < 16 → 0 <= e < 16 →
  Ascii.compare (hex_digit d) (hex_digit e) = (d ?= e).
Proof.
  intros Hd He. assert (forallb (λ d, forallb (λ e,
    bool_decide (Ascii.compare (hex_digit d) (hex_digit e) = (d ?= e))) (seqZ 0 16)) (seqZ 0 16) = true) as H
    by (vm_compute; reflexivity).
  assert (∀ x, 0 <= x < 16 → In x (seqZ 0 16)) as Hin by (intros x Hx; apply list_elem_of_In, elem_of_seqZ; lia).
  rewrite forallb_forall in H. specialize (H d (Hin d Hd)). rewrite forallb_forall in H.
  by apply (bool_decide_eq_true _), (H e (Hin e He)).
Qed.

Lemma str_compare_app a b s t : String.length a = String.length b →
  String.compare (a +:+ s) (b +:+ t) = match String.compare a b with Eq => String.compare s t | c => c end.
Proof.
  revert b. induction a as [|x a IH]; intros [|y b] Hl; try done. rewrite !str_app_cons. cbn [String.compare].
  rewrite IH by (by injection Hl). by destruct (Ascii.compare x y).
Qed.

Lemma hex_digits_order n v w : 0 <= v < 16 ^ Z.of_nat n → 0 <= w < 16 ^ Z.of_nat n →
  String.compare (hex_digits n v) (hex_digits n w) = (v ?= w).
Proof.
  revert v w. induction n as [|n IH]; intros v w Hv Hw.
  { cbn in Hv, Hw. replace v with 0 by lia. by replace w with 0 by lia. }
  cbn [hex_digits]. rewrite str_compare_app by (by rewrite !hex_digits_length).
  rewrite Nat2Z.inj_succ, Z.pow_succ_r in Hv, Hw by lia.
  pose proof (Z.mod_pos_bound v 16 ltac:(lia)). pose proof (Z.mod_pos_bound w 16 ltac:(lia)).
  pose proof (Z.div_mod v 16 ltac:(lia)) as Ev. pose proof (Z.div_mod w 16 ltac:(lia)) as Ew.
  rewrite IH by (split; [apply Z.div_pos; lia|apply Z.div_lt_upper_bound; lia]).
  destruct (Z.compare_spec (v / 16) (w / 16)).
  - cbn [String.compare]. rewrite hex_digit_order by done.
    destruct (Z.compare_spec (v mod 16) (w mod 16)), (Z.compare_spec v w); first [done|exfalso; lia].
  - destruct (Z.compare_spec v w); first [done|exfalso; lia].
  - destruct (Z.compare_spec v w); first [done|exfalso; lia].
Qed.

(** Ids are printed with a fixed width of 16 digits, so the order of the texts
    is the order of the numbers, and equal texts are equal ids. *)
Theorem hexId_order a b : in_u64 a → in_u64 b →
  String.length (hexId a) = 16%nat ∧
  (str_ltb (hexId a) (hexId b) = true ↔ a < b) ∧ (hexId a = hexId b ↔ a = b).
Proof.
  intros Ha Hb. pose proof (hex_digits_order 16 a b Ha Hb) as H. fold (hexId a) (hexId b) in H.
  split_and!; [apply hex_digits_length|unfold str_ltb; fold hexId|].
  - unfold hexId, hex64 in *. rewrite H. destruct (Z.compare_spec a b); split; first [done|lia].
  - split; [|by intros ->]. intros He. unfold hexId, hex64 in *. rewrite He in H.
    apply Z.compare_eq. rewrite <- H.
    destruct (String.compare _ _) eqn:Hc; [done|..]; pose proof (String.compare_antisym (hex_digits 16 b) (hex_digits 16 b)) as Ha';
      rewrite Hc in Ha'; done.
Qed.

Lemma hexId_order_witness :
  hexId 255 = "00000000000000ff" ∧
  (String.length (hexId 255) = 16%nat ∧
   (str_ltb (hexId 255) (hexId 4096) = true ↔ 255 < 4096) ∧ (hexId 255 = hexId 4096 ↔ 255 = 4096)).
Proof. split; [reflexivity|]. apply hexId_order; unfold in_u64; lia. Defined.
