(* ===== verification/CostModel.v ===== *)
(** The multi-dimensional mapping cost: include/LLK/Mapping/CostModel.h and
    lib/Mapping/CostModel.cpp.

    A [Cost] keeps its dimensions apart until an [ObjectiveOrder] ranks it.
    [costLess] is shown to be a strict weak order and [ranksBefore] a strict
    total order on costs without NaN, the bounds of the search to be ordered
    with the dead bound last, and the transform estimate to charge only a
    capability that can do the work.  MLIR's types and affine maps are not part
    of the repository: [MLIRTypes] lists the queries the code makes of them. *)
From Stdlib Require Import SpecFloat.
From S2P Require Import Prelude Float MachineModel.
Open Scope string_scope.
Open Scope Z_scope.

(** ** Data *)
Record Cost := mkCost {
  latencyCycles : double;
  dramBytes : Z;
  localBytes : Z;
  spillBytes : Z;
  computeUtilization : double;
  transferUtilization : double;
}.

Definition zeroCost : Cost := mkCost dzero 0 0 0 dzero dzero.

Inductive CostMetric :=
  LatencyCycles | DramBytes | LocalBytes | SpillBytes | ComputeUtilization | TransferUtilization.

#[export] Instance CostMetric_eq_dec : EqDecision CostMetric.
Proof. solve_decision. Defined.

Record WeightedCost := mkWeighted { sample_cost : Cost; weight : double }.

Record ObjectiveOrder := mkOrder {
  primary : CostMetric;
  secondary : list CostMetric;
  minimize : bool;
}.

Inductive cost_error :=
| NoSamples
| BadWeight
| NonFiniteLatency
| TotalWeightOverflow
| UnrepresentableCount (what : string)
| NonFiniteMetric
| UnknownMetric (metric : string)
| UnknownSecondaryMetric (metric : string)
| TransformMemoryNotModeled
| NoVectorResource
| NotShaped
| DynamicExtent
| UnsizedElement
| UnknownComputeResource (name : string)
| NoComputeResource
| UnknownMemoryNode (name : string)
| NotAVectorEngine
| MemoryNotAccessible.

(** ** Metrics *)
Definition kMetrics : list (CostMetric * string) :=
  [(LatencyCycles, "latency_cycles"); (DramBytes, "dram_bytes"); (LocalBytes, "local_bytes");
   (SpillBytes, "spill_bytes"); (ComputeUtilization, "compute_utilization");
   (TransferUtilization, "transfer_utilization")].

Definition stringifyCostMetric (metric : CostMetric) : string :=
  match list_find (λ info, info.1 = metric) kMetrics with
  | Some (_, info) => info.2
  | None => ""
  end.

Definition symbolizeCostMetric (text : string) : option CostMetric :=
  match list_find (λ info, info.2 = text) kMetrics with
  | Some (_, info) => Some info.1
  | None => None
  end.

Definition symbolizeMicroMetric (text : string) : option CostMetric :=
  if bool_decide (text = "latency_cycles") then Some LatencyCycles
  else if bool_decide (text = "dram_bytes") then Some DramBytes
  else if bool_decide (text = "sram_bytes") then Some LocalBytes
  else if bool_decide (text = "matrix_utilization") then Some ComputeUtilization
  else if bool_decide (text = "dma_utilization") then Some TransferUtilization
  else if bool_decide (text = "capacity_spill_bytes") then Some SpillBytes
  else symbolizeCostMetric text.

Definition costMetric (cost : Cost) (metric : CostMetric) : double :=
  match metric with
  | LatencyCycles => latencyCycles cost
  | DramBytes => double_of_Z (dramBytes cost)
  | LocalBytes => double_of_Z (localBytes cost)
  | SpillBytes => double_of_Z (spillBytes cost)
  | ComputeUtilization => computeUtilization cost
  | TransferUtilization => transferUtilization cost
  end.

Definition canonicalCostString (cost : Cost) : string :=
  foldl (λ out info,
    (if str_empty out then out else out +:+ ";") +:+ info.2 +:+ "=" +:+
      formatDouble (costMetric cost info.1)) "" kMetrics.

(** ** Combination *)
Definition addCost (lhs rhs : Cost) : Cost :=
  mkCost (dadd (latencyCycles lhs) (latencyCycles rhs))
    (u64 (dramBytes lhs + dramBytes rhs))
    (u64 (localBytes lhs + localBytes rhs))
    (u64 (spillBytes lhs + spillBytes rhs))
    (dadd (computeUtilization lhs) (computeUtilization rhs))
    (dadd (transferUtilization lhs) (transferUtilization rhs)).

(** [std::llround] of a nonnegative finite value: half away from zero. *)
Definition round_half_up (x : double) : Z :=
  match x with
  | S754_finite false m e =>
    if decide (0 <= e) then Zpos m * 2 ^ e else (2 * Zpos m + 2 ^ (- e)) `div` 2 ^ (1 - e)
  | _ => 0
  end.

Section weighted.
(** What [std::llround] returns where the result does not fit [long long]; the
    C++ standard leaves it unspecified. *)
Variable llround_out_of_range : double → Z.

Definition llround (x : double) : Z :=
  if decide (in_i64 (round_half_up x)) then round_half_up x else llround_out_of_range x.

Record Totals := mkTotals {
  t_weight : double; t_latency : double; t_dram : double; t_local : double; t_spill : double;
  t_compute : double; t_transfer : double;
}.

Definition addSample (t : Totals) (s : WeightedCost) : result cost_error Totals :=
  let c := sample_cost s in
  let w := weight s in
  fail! BadWeight when negb (isfinite w) || dleb w dzero;
  fail! NonFiniteLatency when negb (isfinite (latencyCycles c));
  Ok (mkTotals (dadd (t_weight t) w)
    (dadd (t_latency t) (dmul (latencyCycles c) w))
    (dadd (t_dram t) (dmul (double_of_Z (dramBytes c)) w))
    (dadd (t_local t) (dmul (double_of_Z (localBytes c)) w))
    (dadd (t_spill t) (dmul (double_of_Z (spillBytes c)) w))
    (dadd (t_compute t) (dmul (computeUtilization c) w))
    (dadd (t_transfer t) (dmul (transferUtilization c) w))).

Definition roundCount (totalWeight value : double) (what : string) : result cost_error Z :=
  let mean := ddiv value totalWeight in
  fail! (UnrepresentableCount what) when
    negb (isfinite mean) || dltb mean dzero || dltb (double_of_Z u64_max) mean;
  Ok (u64 (llround mean)).

Definition weightedMeanCost (samples : list WeightedCost) : result cost_error Cost :=
  fail! NoSamples when bool_decide (samples = []);
  t ← fold_result addSample (mkTotals dzero dzero dzero dzero dzero dzero dzero) samples;
  fail! TotalWeightOverflow when negb (isfinite (t_weight t)) || dleb (t_weight t) dzero;
  let latency := ddiv (t_latency t) (t_weight t) in
  dram ← roundCount (t_weight t) (t_dram t) "dram byte count";
  local ← roundCount (t_weight t) (t_local t) "local byte count";
  spill ← roundCount (t_weight t) (t_spill t) "spill byte count";
  let compute := ddiv (t_compute t) (t_weight t) in
  let transfer := ddiv (t_transfer t) (t_weight t) in
  fail! NonFiniteMetric when
    negb (isfinite latency) || negb (isfinite compute) || negb (isfinite transfer);
  Ok (mkCost latency dram local spill compute transfer).
End weighted.

Definition machineSyncPeriodCycles (machine : MachineModel) : option double :=
  let cycles := u64 (barrierCycles (sync machine) + waitCycles (sync machine)) in
  if bool_decide (cycles = 0) then None else Some (double_of_Z cycles).

Definition utilizationEstimate (busyCycles : double) (machine : MachineModel) (parallelUnits : Z) :
    option double :=
  if bool_decide (parallelUnits = 0) then None
  else
    match machineSyncPeriodCycles machine with
    | None => None
    | Some period => Some (ddiv busyCycles (dmul period (double_of_Z parallelUnits)))
    end.

(** ** Ranking *)

(** The lambda [compare] of [costLess]: [-1], [0] or [1]. *)
Definition compareMetric (lhs rhs : Cost) (order : ObjectiveOrder) (metric : CostMetric) : Z :=
  let l := costMetric lhs metric in
  let r := costMetric rhs metric in
  if deqb l r then 0
  else if (if minimize order then dltb l r else dltb r l) then -1 else 1.

Fixpoint costLess_secondary (lhs rhs : Cost) (order : ObjectiveOrder) (metrics : list CostMetric) :
    bool :=
  match metrics with
  | [] => false
  | metric :: metrics =>
    let verdict := compareMetric lhs rhs order metric in
    if bool_decide (verdict ≠ 0) then bool_decide (verdict < 0)
    else costLess_secondary lhs rhs order metrics
  end.

Definition costLess (lhs rhs : Cost) (order : ObjectiveOrder) : bool :=
  let verdict := compareMetric lhs rhs order (primary order) in
  if bool_decide (verdict ≠ 0) then bool_decide (verdict < 0)
  else costLess_secondary lhs rhs order (secondary order).

Definition ranksBefore (lhs : Cost) (lhsId : Z) (rhs : Cost) (rhsId : Z) (order : ObjectiveOrder) :
    bool :=
  if costLess lhs rhs order then true
  else if costLess rhs lhs order then false
  else bool_decide (lhsId < rhsId).

Definition bestCostForObjective (lhs rhs : Cost) (order : ObjectiveOrder) : Cost :=
  let pick l r := if minimize order then dmin l r else dmax l r in
  let pickUnsigned l r := if minimize order then Z.min l r else Z.max l r in
  mkCost (pick (latencyCycles lhs) (latencyCycles rhs))
    (pickUnsigned (dramBytes lhs) (dramBytes rhs))
    (pickUnsigned (localBytes lhs) (localBytes rhs))
    (pickUnsigned (spillBytes lhs) (spillBytes rhs))
    (pick (computeUtilization lhs) (computeUtilization rhs))
    (pick (transferUtilization lhs) (transferUtilization rhs)).

Definition infiniteCost : Cost :=
  mkCost dinfinity u64_max u64_max u64_max dinfinity dinfinity.

Definition boundIsDead (cost : Cost) : bool :=
  isinf (latencyCycles cost) && isinf (computeUtilization cost) &&
  isinf (transferUtilization cost) && bool_decide (dramBytes cost = u64_max) &&
  bool_decide (localBytes cost = u64_max) && bool_decide (spillBytes cost = u64_max).

Definition boundIsBetterThan (lhs rhs : Cost) (order : ObjectiveOrder) : bool :=
  if boundIsDead lhs then false
  else if boundIsDead rhs then true
  else costLess lhs rhs order.

Definition resolveSecondary (resolved : list CostMetric) (spelling : string) :
    result cost_error (list CostMetric) :=
  match symbolizeMicroMetric spelling with
  | None => Err (UnknownSecondaryMetric spelling)
  | Some metric => Ok (resolved ++ [metric])%list
  end.

Definition objectiveOrderFromMicro (metric : string) (min : bool) (second : list string) :
    result cost_error ObjectiveOrder :=
  match symbolizeMicroMetric metric with
  | None => Err (UnknownMetric metric)
  | Some p =>
    resolved ← fold_result resolveSecondary [] second;
    Ok (mkOrder p resolved min)
  end.

(** ** Elementwise and transform costs *)

(** [llvm::divideCeil] on unsigned integers. *)
Definition divideCeil (n d : Z) : Z := (n + d - 1) `div` d.

Definition lanesOf (engine : ComputeNode) (dtype : string) : Z :=
  match lanes engine !! dtype with
  | Some n => if bool_decide (n > 0) then n else 1
  | None => 1
  end.

Definition elementwiseCycles (engine : ComputeNode) (dtype : string) (elements : Z) : Z :=
  u64 (divideCeil elements (lanesOf engine dtype) * Z.max 1 (issueCycles engine)).

Definition selectTransformResource (machine : MachineModel) (memoryNode : string) :
    result cost_error string :=
  fail! TransformMemoryNotModeled when bool_decide (findMemory machine memoryNode = None);
  match list_find (λ engine, Is_true (isVisible machine memoryNode (cmp_attachedTo engine)))
    (computesOfKind machine "vector_engine") with
  | Some (_, engine) => Ok (cmp_id engine)
  | None => Err NoVectorResource
  end.

(** The facts the code asks of MLIR: the kinds and widths of types, the static
    extent of a shaped type, and equality of affine maps. *)
Class MLIRTypes := {
  mlir_type : Type;
  shaped_type : Type;
  affine_map : Type;
  affine_map_eq_dec :: EqDecision affine_map;
  as_shaped : mlir_type → option shaped_type;
  hasStaticShape : shaped_type → bool;
  getNumElements : shaped_type → Z;
  getElementType : shaped_type → mlir_type;
  float_width : mlir_type → option Z;
  isF64 : mlir_type → bool;
  isF32 : mlir_type → bool;
  isF16 : mlir_type → bool;
  isBF16 : mlir_type → bool;
  int_width : mlir_type → option Z;
}.

Section transform.
Context `{MLIRTypes}.

Record TransformCostInput := mkTransformInput {
  inputType : option mlir_type;
  outputType : option mlir_type;
  srcMap : option affine_map;
  dstMap : option affine_map;
  memoryNode : string;
  computeResource : string;
}.

Definition transformFootprintType (input : TransformCostInput) : option shaped_type :=
  match outputType input ≫= as_shaped with
  | Some shaped => Some shaped
  | None => inputType input ≫= as_shaped
  end.

Definition elementTypeName (type : option mlir_type) : string :=
  match type with
  | None => ""
  | Some t =>
    match float_width t with
    | Some w =>
      if isF64 t then "f64"
      else if isF32 t then "f32"
      else if isF16 t then "f16"
      else if isBF16 t then "bf16"
      else "f" +:+ to_string w
    | None =>
      match int_width t with
      | Some w => "i" +:+ to_string w
      | None => ""
      end
    end
  end.

Definition elementByteWidth (type : option mlir_type) : option Z :=
  match type with
  | None => None
  | Some t =>
    match float_width t with
    | Some w => Some (divideCeil w 8)
    | None => (λ w, divideCeil w 8) <$> int_width t
    end
  end.

(** The capability the conversion runs on: the named one, or the machine's
    first vector engine. *)
Definition transformEngine (input : TransformCostInput) (machine : MachineModel) :
    result cost_error ComputeNode :=
  if str_empty (computeResource input) then
    match computesOfKind machine "vector_engine" with
    | [] => Err NoComputeResource
    | engine :: _ => Ok engine
    end
  else
    match findCompute machine (computeResource input) with
    | None => Err (UnknownComputeResource (computeResource input))
    | Some engine => Ok engine
    end.

(** A node id or, failing that, a space kind. *)
Definition transformMemory (input : TransformCostInput) (machine : MachineModel) :
    option MemoryNode :=
  match findMemory machine (memoryNode input) with
  | Some memory => Some memory
  | None => findMemoryOfKind machine (memoryNode input)
  end.

Definition estimateTransformCost (input : TransformCostInput) (machine : MachineModel) :
    result cost_error Cost :=
  match transformFootprintType input with
  | None => Err NotShaped
  | Some footprint =>
    fail! DynamicExtent when negb (hasStaticShape footprint);
    let dtype := elementTypeName (Some (getElementType footprint)) in
    match elementByteWidth (Some (getElementType footprint)) with
    | None => Err UnsizedElement
    | Some width =>
      fail! UnsizedElement when str_empty dtype;
      let elements := u64 (getNumElements footprint) in
      let bytes := u64 (elements * width) in
      engine ← transformEngine input machine;
      fail! (UnknownMemoryNode (memoryNode input)) when
        negb (str_empty (memoryNode input)) &&
        bool_decide (findMemory machine (memoryNode input) = None) &&
        bool_decide (findMemoryOfKind machine (memoryNode input) = None);
      fail! NotAVectorEngine when bool_decide (cmp_kind engine ≠ "vector_engine");
      fail! MemoryNotAccessible when
        match transformMemory input machine with
        | Some memory => negb (isVisible machine (mem_id memory) (cmp_attachedTo engine))
        | None => false
        end;
      let identity :=
        match srcMap input, dstMap input with
        | Some s, Some d => bool_decide (s = d)
        | _, _ => false
        end in
      let latency :=
        if identity : bool then dzero
        else double_of_Z (u64 (divideCeil elements (lanesOf engine dtype) *
               Z.max 1 (issueCycles engine))) in
      let utilization :=
        default dzero (utilizationEstimate latency machine (workerThreads machine)) in
      Ok (mkCost latency 0 bytes 0 utilization dzero)
    end
  end.
End transform.

(** ** Order laws *)

(** No dimension is NaN: the costs the objective can compare. *)
Definition comparable (cost : Cost) : Prop :=
  is_nan (latencyCycles cost) = false ∧ is_nan (computeUtilization cost) = false ∧
  is_nan (transferUtilization cost) = false.

Lemma comparable_metric cost metric : comparable cost → is_nan (costMetric cost metric) = false.
Proof. intros (? & ? & ?). destruct metric; cbn; auto using double_of_Z_nan. Qed.

(** The lexicographic order behind [costLess], over all its metrics. *)
Definition order_metrics (order : ObjectiveOrder) : list CostMetric :=
  primary order :: secondary order.

Lemma costLess_metrics lhs rhs order :
  costLess lhs rhs order = costLess_secondary lhs rhs order (order_metrics order).
Proof. done. Qed.

(** [compareMetric] as a comparison: [0] for equal values, antisymmetric
    otherwise. *)
Definition better (order : ObjectiveOrder) (l r : double) : bool :=
  if minimize order then dltb l r else dltb r l.

Lemma compareMetric_zero lhs rhs order metric :
  compareMetric lhs rhs order metric = 0 ↔ deqb (costMetric lhs metric) (costMetric rhs metric) = true.
Proof. unfold compareMetric. repeat case_match; naive_solver. Qed.

Lemma compareMetric_neg lhs rhs order metric :
  compareMetric lhs rhs order metric < 0 ↔
  better order (costMetric lhs metric) (costMetric rhs metric) = true.
Proof.
  unfold compareMetric, better. destruct (deqb _ _) eqn:Heq.
  - pose proof (deqb_dltb _ _ Heq) as H1. rewrite deqb_sym in Heq. pose proof (deqb_dltb _ _ Heq) as H2.
    case_match; split; (lia || congruence).
  - case_match; case_match; split; (lia || congruence).
Qed.

Lemma costLess_cons lhs rhs order metric metrics :
  costLess_secondary lhs rhs order (metric :: metrics) = true ↔
  better order (costMetric lhs metric) (costMetric rhs metric) = true ∨
  (deqb (costMetric lhs metric) (costMetric rhs metric) = true ∧
   costLess_secondary lhs rhs order metrics = true).
Proof.
  rewrite <- compareMetric_zero, <- (compareMetric_neg lhs rhs order metric). cbn.
  case_bool_decide as Hz; [rewrite bool_decide_eq_true|]; naive_solver lia.
Qed.

Lemma better_irrefl order x : better order x x = false.
Proof. unfold better. case_match; apply dltb_irrefl. Qed.
Lemma better_trans order x y z : better order x y = true → better order y z = true → better order x z = true.
Proof. unfold better. case_match; intros; [by eapply dltb_trans|by eapply (dltb_trans z y x)]. Qed.
Lemma better_total order x y :
  is_nan x = false → is_nan y = false →
  better order x y = true ∨ deqb x y = true ∨ better order y x = true.
Proof. intros Hx Hy. unfold better. destruct (dltb_total x y Hx Hy) as [?|[?|?]]; case_match; auto. Qed.
Lemma better_deqb_l order x y z : deqb x y = true → better order x z = better order y z.
Proof. unfold better. intros. case_match; [by apply dltb_deqb_l|by apply dltb_deqb_r]. Qed.
Lemma better_deqb_r order x y z : deqb x y = true → better order z x = better order z y.
Proof. unfold better. intros. case_match; [by apply dltb_deqb_r|by apply dltb_deqb_l]. Qed.

Lemma costLess_secondary_irrefl c order metrics : costLess_secondary c c order metrics = false.
Proof.
  induction metrics as [|metric metrics IH]; [done|]. apply not_true_iff_false.
  rewrite costLess_cons, better_irrefl, IH. intros [?|[? ?]]; done.
Qed.

Lemma costLess_secondary_trans a b c order metrics :
  costLess_secondary a b order metrics = true → costLess_secondary b c order metrics = true →
  costLess_secondary a c order metrics = true.
Proof.
  induction metrics as [|metric metrics IH]; [done|].
  rewrite !costLess_cons. intros [Hab|[Hab Hab']] [Hbc|[Hbc Hbc']].
  - left. by eapply better_trans.
  - left. by rewrite <- (better_deqb_r _ _ _ _ Hbc).
  - left. by rewrite (better_deqb_l _ _ _ _ Hab).
  - right. split; [by eapply deqb_trans|by apply IH].
Qed.

(** Neither ranks ahead exactly when every metric ties. *)
Lemma costLess_secondary_tie a b order metrics :
  comparable a → comparable b →
  costLess_secondary a b order metrics = false ∧ costLess_secondary b a order metrics = false ↔
  ∀ metric, metric ∈ metrics → deqb (costMetric a metric) (costMetric b metric) = true.
Proof.
  intros Ha Hb. induction metrics as [|metric metrics IH].
  - split; [|done]. by intros _ ? ?%not_elem_of_nil.
  - setoid_rewrite elem_of_cons.
    rewrite <- !not_true_iff_false, !costLess_cons, !not_true_iff_false in *.
    pose proof (comparable_metric a metric Ha) as Hna. pose proof (comparable_metric b metric Hb) as Hnb.
    pose proof (better_total order _ _ Hna Hnb) as Htot.
    rewrite (deqb_sym (costMetric b metric)).
    split.
    + intros [H1 H2] m [->|Hm]; [by destruct Htot as [?|[?|?]]; auto; tauto|].
      destruct Htot as [?|[Heq|?]]; [tauto| |tauto]. apply IH; [|done].
      split; apply not_true_iff_false; tauto.
    + intros H. assert (deqb (costMetric a metric) (costMetric b metric) = true) as Heq by auto.
      destruct (proj2 IH) as [H1 H2]; [auto|].
      rewrite (better_deqb_l _ _ _ _ Heq), better_irrefl, (better_deqb_r _ _ _ _ Heq), better_irrefl.
      rewrite H1, H2. split; intros [?|[? ?]]; done.
Qed.

(** A cost tied with another on every metric can replace it on either side. *)
Lemma costLess_secondary_tied a a' b b' order metrics :
  (∀ metric, metric ∈ metrics → deqb (costMetric a metric) (costMetric a' metric) = true) →
  (∀ metric, metric ∈ metrics → deqb (costMetric b metric) (costMetric b' metric) = true) →
  costLess_secondary a b order metrics = costLess_secondary a' b' order metrics.
Proof.
  induction metrics as [|metric metrics IH]; [done|]. setoid_rewrite elem_of_cons. intros Ha Hb.
  apply eq_true_iff_eq. rewrite !costLess_cons, IH by auto.
  assert (deqb (costMetric a metric) (costMetric a' metric) = true) as Ha' by auto.
  assert (deqb (costMetric b metric) (costMetric b' metric) = true) as Hb' by auto.
  rewrite (better_deqb_l _ _ _ _ Ha'), (better_deqb_r _ _ _ _ Hb').
  assert (deqb (costMetric a metric) (costMetric b metric) = true ↔
    deqb (costMetric a' metric) (costMetric b' metric) = true) as ->; [|done].
  rewrite !deqb_true in *. intuition congruence.
Qed.

(** On costs without NaN, [costLess] is a strict weak order for every
    objective: irreflexive, transitive, and "neither ranks ahead" is transitive,
    which is what sorting plans by it needs. *)
Theorem costLess_strict_weak_order order a b c :
  comparable a → comparable b → comparable c →
  costLess a a order = false ∧
  (costLess a b order = true → costLess b c order = true → costLess a c order = true) ∧
  (costLess a b order = false ∧ costLess b a order = false →
   costLess b c order = false ∧ costLess c b order = false →
   costLess a c order = false ∧ costLess c a order = false).
Proof.
  intros Ha Hb Hc. rewrite !costLess_metrics. split_and!.
  - apply costLess_secondary_irrefl.
  - apply costLess_secondary_trans.
  - rewrite !costLess_secondary_tie by done. intros Hab Hbc m Hm. eapply deqb_trans; eauto.
Qed.

Lemma ranksBefore_cases lhs lhsId rhs rhsId order :
  ranksBefore lhs lhsId rhs rhsId order = true ↔
  costLess lhs rhs order = true ∨
  (costLess lhs rhs order = false ∧ costLess rhs lhs order = false ∧ lhsId < rhsId).
Proof.
  unfold ranksBefore. destruct (costLess lhs rhs order), (costLess rhs lhs order);
    rewrite ?bool_decide_eq_true; naive_solver.
Qed.

(** [ranksBefore] is a strict total order on (cost, id) pairs without NaN:
    irreflexive, transitive, and two entries with different ids are always
    ranked one way, so the same plans are always reported in the same order. *)
Theorem ranksBefore_total_order order a i b j c k :
  comparable a → comparable b → comparable c →
  ranksBefore a i a i order = false ∧
  (ranksBefore a i b j order = true → ranksBefore b j c k order = true →
   ranksBefore a i c k order = true) ∧
  (i ≠ j → ranksBefore a i b j order = negb (ranksBefore b j a i order)).
Proof.
  intros Ha Hb Hc. split_and!.
  - apply not_true_iff_false. rewrite ranksBefore_cases, costLess_metrics, costLess_secondary_irrefl.
    intros [?|(_ & _ & ?)]; [done|lia].
  - rewrite !ranksBefore_cases, !costLess_metrics.
    assert (∀ x m, comparable x → m ∈ order_metrics order →
      deqb (costMetric x m) (costMetric x m) = true) as Hrefl
      by (intros; by apply deqb_refl, comparable_metric).
    intros [Hab|(Hab & Hba & ?)] [Hbc|(Hbc & Hcb & ?)].
    + left. by eapply costLess_secondary_trans.
    + left. rewrite <- (costLess_secondary_tied a a b c); [done|eauto|].
      by eapply costLess_secondary_tie.
    + left. rewrite (costLess_secondary_tied a b c c); [done| |eauto].
      by eapply costLess_secondary_tie.
    + right. pose proof (proj1 (costLess_secondary_tie a b order _ Ha Hb) (conj Hab Hba)) as Tab.
      pose proof (proj1 (costLess_secondary_tie b c order _ Hb Hc) (conj Hbc Hcb)) as Tbc.
      rewrite (and_assoc (_ = false)). split; [|lia].
      apply costLess_secondary_tie; [done..|]. intros m Hm. eapply deqb_trans; eauto.
  - intros Hne. unfold ranksBefore. rewrite !costLess_metrics.
    destruct (costLess_secondary a b order (order_metrics order)) eqn:Hab.
    + destruct (costLess_secondary b a order (order_metrics order)) eqn:Hba; [|done].
      pose proof (costLess_secondary_trans _ _ _ _ _ Hab Hba) as Haa.
      by rewrite costLess_secondary_irrefl in Haa.
    + destruct (costLess_secondary b a order (order_metrics order)); [done|].
      repeat case_bool_decide; (done || lia).
Qed.

(** *** Search bounds *)
Lemma infiniteCost_dead : boundIsDead infiniteCost = true.
Proof. reflexivity. Qed.

(** Pruning order of the bounds: a dead bound beats nothing and is beaten by
    every live one whichever way the objective points, no completion with a
    finite latency is dead, and live bounds are ordered by the objective. *)
Theorem boundIsBetterThan_dead_last lhs rhs order :
  (boundIsDead lhs = true → boundIsBetterThan lhs rhs order = false) ∧
  (boundIsDead lhs = false → boundIsDead rhs = true → boundIsBetterThan lhs rhs order = true) ∧
  (isfinite (latencyCycles lhs) = true → boundIsDead lhs = false) ∧
  (boundIsDead lhs = false → boundIsDead rhs = false →
   boundIsBetterThan lhs rhs order = costLess lhs rhs order) ∧
  (boundIsBetterThan lhs rhs order = true → boundIsBetterThan rhs lhs order = false).
Proof.
  unfold boundIsBetterThan. split_and!.
  - by intros ->.
  - by intros -> ->.
  - unfold boundIsDead. by destruct (latencyCycles lhs).
  - by intros -> ->.
  - destruct (boundIsDead lhs), (boundIsDead rhs); try done. rewrite !costLess_metrics. intros Hlr.
    apply not_true_iff_false. intros Hrl. pose proof (costLess_secondary_trans _ _ _ _ _ Hlr Hrl) as H.
    by rewrite costLess_secondary_irrefl in H.
Qed.

(** [better] of the picked value: no operand is strictly better than it. *)
Lemma pick_best order l r :
  let b := if minimize order then dmin l r else dmax l r in
  (b = l ∨ b = r) ∧ better order l b = false ∧ better order r b = false.
Proof.
  cbn. unfold better, dmin, dmax. destruct (minimize order).
  - destruct (dltb r l) eqn:Hrl; (split_and!; [auto|..]); auto using dltb_irrefl, dltb_asym.
  - destruct (dltb l r) eqn:Hlr; (split_and!; [auto|..]); auto using dltb_irrefl, dltb_asym.
Qed.

Definition betterCount (order : ObjectiveOrder) (l r : Z) : Prop :=
  if minimize order then l < r else r < l.

(** [bestCostForObjective] is the optimistic combination: every dimension
    comes from one of the two costs and neither cost is strictly better in it
    under the objective's direction. *)
Theorem bestCostForObjective_optimal lhs rhs order cost :
  cost = lhs ∨ cost = rhs →
  let best := bestCostForObjective lhs rhs order in
  better order (latencyCycles cost) (latencyCycles best) = false ∧
  better order (computeUtilization cost) (computeUtilization best) = false ∧
  better order (transferUtilization cost) (transferUtilization best) = false ∧
  (¬ betterCount order (dramBytes cost) (dramBytes best)) ∧
  (¬ betterCount order (localBytes cost) (localBytes best)) ∧
  (¬ betterCount order (spillBytes cost) (spillBytes best)) ∧
  (latencyCycles best = latencyCycles lhs ∨ latencyCycles best = latencyCycles rhs) ∧
  (computeUtilization best = computeUtilization lhs ∨
   computeUtilization best = computeUtilization rhs) ∧
  (transferUtilization best = transferUtilization lhs ∨
   transferUtilization best = transferUtilization rhs).
Proof.
  intros Hcost. cbn -[dmin dmax].
  destruct (pick_best order (latencyCycles lhs) (latencyCycles rhs)) as (?&?&?).
  destruct (pick_best order (computeUtilization lhs) (computeUtilization rhs)) as (?&?&?).
  destruct (pick_best order (transferUtilization lhs) (transferUtilization rhs)) as (?&?&?).
  split_and!; try done; unfold betterCount;
    destruct Hcost as [->| ->]; try done; destruct (minimize order); lia.
Qed.

(** *** Elementwise cycles *)
Lemma divideCeil_spec n d : 0 < d → d * divideCeil n d - d < n <= d * divideCeil n d.
Proof.
  intros Hd. unfold divideCeil.
  pose proof (Z.div_mod (n + d - 1) d). pose proof (Z.mod_pos_bound (n + d - 1) d). lia.
Qed.

Lemma divideCeil_mono n d : 0 <= n → 1 <= d → 0 <= divideCeil n d <= n.
Proof. intros ??. pose proof (divideCeil_spec n d). nia. Qed.

Lemma lanesOf_pos engine dtype : 1 <= lanesOf engine dtype.
Proof. unfold lanesOf. repeat case_match; try case_bool_decide; lia. Qed.

(** The elementwise charge covers every element and never exceeds one issue
    per element, so an undeclared dtype is charged no less than any declared
    one; without 64-bit overflow the charge is the exact ceiling formula. *)
Theorem elementwiseCycles_conservative engine dtype undeclared elements :
  0 <= elements → elements * Z.max 1 (issueCycles engine) < 2 ^ 64 →
  lanes engine !! undeclared = None →
  elements * Z.max 1 (issueCycles engine) <=
    elementwiseCycles engine dtype elements * lanesOf engine dtype ∧
  elementwiseCycles engine dtype elements <= elementwiseCycles engine undeclared elements.
Proof.
  intros He Hov Hnone. unfold elementwiseCycles.
  assert (lanesOf engine undeclared = 1) as -> by by unfold lanesOf; rewrite Hnone.
  pose proof (lanesOf_pos engine dtype) as Hl.
  pose proof (divideCeil_spec elements (lanesOf engine dtype)) as Hc.
  pose proof (divideCeil_mono elements (lanesOf engine dtype) He Hl) as Hm.
  assert (divideCeil elements 1 = elements) as ->.
  { unfold divideCeil. replace (elements + 1 - 1) with elements by lia. apply Z.div_1_r. }
  rewrite !u64_id by (unfold in_u64; nia). nia.
Qed.

(** *** Objectives *)
Lemma resolveSecondary_ok second acc resolved :
  fold_result resolveSecondary acc second = Ok resolved ↔
  ∃ metrics, resolved = (acc ++ metrics)%list ∧
    Forall2 (λ spelling metric, symbolizeMicroMetric spelling = Some metric) second metrics.
Proof.
  revert acc. induction second as [|spelling second IH]; intros acc; simpl.
  - split.
    + intros [= ->]. exists []. by rewrite app_nil_r.
    + intros (metrics & -> & ->%Forall2_nil_inv_l). by rewrite app_nil_r.
  - unfold resolveSecondary at 2. destruct (symbolizeMicroMetric spelling) as [m|] eqn:Hm; simpl.
    + rewrite IH. split.
      * intros (metrics & -> & Hall). exists (m :: metrics).
        split; [by rewrite <- (assoc_L app)|by constructor].
      * intros (metrics & -> & (m' & metrics' & ? & ? & ->)%Forall2_cons_inv_l).
        exists metrics'. split; [|done]. rewrite <- (assoc_L app). cbn. congruence.
    + split; [done|]. intros (metrics & _ & (m' & ? & ? & _)%Forall2_cons_inv_l). congruence.
Qed.

(** [objectiveOrderFromMicro] accepts exactly the objectives all of whose
    metrics resolve, and keeps the declared direction and the declared order of
    the tie-breakers; an unresolved metric is an error, never a default. *)
Theorem objectiveOrderFromMicro_exact metric min second order :
  objectiveOrderFromMicro metric min second = Ok order ↔
  symbolizeMicroMetric metric = Some (primary order) ∧ minimize order = min ∧
  Forall2 (λ spelling m, symbolizeMicroMetric spelling = Some m) second (secondary order).
Proof.
  unfold objectiveOrderFromMicro. destruct (symbolizeMicroMetric metric) as [p|]; [|naive_solver].
  rewrite bind_ok. setoid_rewrite resolveSecondary_ok. destruct order as [p' second' min']. cbn.
  split.
  - intros (a & (metrics & -> & Hall) & [= -> -> ->]). done.
  - intros ([= ->] & -> & Hall). exists second'. split; [by exists second'|done].
Qed.

(** Every metric the Micro verifier accepts, and every spelling of
    [stringifyCostMetric], resolves to its dimension. *)
Lemma symbolizeMicroMetric_stringify metric :
  symbolizeMicroMetric (stringifyCostMetric metric) = Some metric.
Proof. by destruct metric. Qed.

(** *** Layout transforms *)

(** The selected transform resource is the first declared vector engine that
    can address the memory. *)
Lemma selectTransformResource_sound machine memoryNode id :
  selectTransformResource machine memoryNode = Ok id →
  ∃ pre engine post, computesOfKind machine "vector_engine" = (pre ++ engine :: post)%list ∧
    cmp_id engine = id ∧ isVisible machine memoryNode (cmp_attachedTo engine) = true ∧
    ∀ other, other ∈ pre → isVisible machine memoryNode (cmp_attachedTo other) = false.
Proof.
  unfold selectTransformResource. rewrite fail_then_ok. intros [_ Hok].
  destruct (list_find _ _) as [[i engine]|] eqn:Hf; [|done]. injection Hok as <-.
  apply list_find_Some in Hf as (Hi & Hvis & Hpre).
  exists (take i (computesOfKind machine "vector_engine")), engine,
    (drop (S i) (computesOfKind machine "vector_engine")).
  split_and!; [by rewrite take_drop_middle|done|by apply Is_true_eq_true|].
  intros other (j & Hj & Hlt)%elem_of_take. apply not_true_iff_false. intros Hv.
  apply (Hpre j other Hj Hlt). by apply Is_true_eq_left.
Qed.

Section transform_proofs.
Context `{MLIRTypes}.

(** An accepted transform estimate names a vector engine that can address
    the memory, charges the footprint's bytes as local traffic and nothing to
    DRAM, and charges arithmetic exactly when the two layout maps are not one
    declared map. *)
Theorem estimateTransformCost_sound input machine cost :
  estimateTransformCost input machine = Ok cost →
  ∃ footprint width engine,
    transformFootprintType input = Some footprint ∧ hasStaticShape footprint = true ∧
    elementByteWidth (Some (getElementType footprint)) = Some width ∧
    transformEngine input machine = Ok engine ∧ cmp_kind engine = "vector_engine" ∧
    (∀ memory, transformMemory input machine = Some memory →
       isVisible machine (mem_id memory) (cmp_attachedTo engine) = true) ∧
    localBytes cost = u64 (u64 (getNumElements footprint) * width) ∧
    dramBytes cost = 0 ∧ spillBytes cost = 0 ∧ transferUtilization cost = dzero ∧
    (srcMap input ≠ None → srcMap input = dstMap input → latencyCycles cost = dzero) ∧
    (srcMap input = None ∨ srcMap input ≠ dstMap input →
     latencyCycles cost = double_of_Z (elementwiseCycles engine
       (elementTypeName (Some (getElementType footprint))) (u64 (getNumElements footprint)))).
Proof.
  unfold estimateTransformCost. destruct (transformFootprintType input) as [footprint|]; [|done].
  rewrite fail_then_ok. intros [Hstatic Hok]. apply negb_false_iff in Hstatic.
  destruct (elementByteWidth _) as [width|] eqn:Hw; [|done].
  apply fail_then_ok in Hok as [_ Hok]. apply bind_ok in Hok as (engine & Hengine & Hok).
  apply fail_then_ok in Hok as [_ Hok]. apply fail_then_ok in Hok as [Hkind Hok].
  apply fail_then_ok in Hok as [Hvis Hok]. injection Hok as <-.
  exists footprint, width, engine. cbn -[double_of_Z]. split_and!; try done.
  - apply bool_decide_eq_false in Hkind. by apply dec_stable.
  - intros memory Hm. rewrite Hm in Hvis. by apply negb_false_iff in Hvis.
  - intros Hs Heq. rewrite <- Heq. destruct (srcMap input); [|done]. by rewrite bool_decide_true.
  - intros Hne. destruct (srcMap input) as [s|], (dstMap input) as [d|]; try done.
    rewrite bool_decide_false by naive_solver. done.
Qed.
End transform_proofs.

(** *** Witnesses *)
Definition fast_cost := mkCost (double_of_Z 100) 4096 0 0 dzero dzero.
Definition slow_cost := mkCost (double_of_Z 200) 1024 0 0 dzero dzero.
Definition latency_first := mkOrder LatencyCycles [DramBytes] true.

Example ranks_fast_first : ranksBefore fast_cost 7 slow_cost 3 latency_first = true.
Proof. reflexivity. Qed.

Lemma costLess_strict_weak_order_witness :
  costLess fast_cost fast_cost latency_first = false.
Proof.
  destruct (costLess_strict_weak_order latency_first fast_cost slow_cost fast_cost) as [H _];
    [by split_and!..|exact H].
Defined.

Lemma ranksBefore_total_order_witness :
  ranksBefore fast_cost 1 fast_cost 2 latency_first =
    negb (ranksBefore fast_cost 2 fast_cost 1 latency_first).
Proof.
  destruct (ranksBefore_total_order latency_first fast_cost 1 fast_cost 2 fast_cost 3) as (_ & _ & H);
    [by split_and!..|]. apply H. lia.
Defined.

Lemma boundIsBetterThan_dead_last_witness :
  boundIsBetterThan infiniteCost slow_cost latency_first = false.
Proof.
  destruct (boundIsBetterThan_dead_last infiniteCost slow_cost latency_first) as [H _].
  apply H. reflexivity.
Defined.

Lemma bestCostForObjective_optimal_witness :
  better latency_first (latencyCycles fast_cost)
    (latencyCycles (bestCostForObjective fast_cost slow_cost latency_first)) = false.
Proof. apply (bestCostForObjective_optimal fast_cost slow_cost latency_first fast_cost). by left. Defined.

Definition sample_vector := mkCompute "vpu.0" "vector_engine" ["vector"] "pe.0" ["f16"] ["row"] [[1]]
  {["f16" := 32]} 2 8 None 1 [] None.

Lemma elementwiseCycles_conservative_witness :
  elementwiseCycles sample_vector "f16" 100 <= elementwiseCycles sample_vector "f64" 100.
Proof. apply (elementwiseCycles_conservative sample_vector "f16" "f64" 100); [lia|cbn; lia|reflexivity]. Defined.

Definition vector_machine : MachineModel :=
  mkMachine 2 0 "toy" "" None 4 (mkSync 10 5) [sample_group; sample_pe0; sample_pe1]
    [sample_dram; sample_sram] [sample_vector] [sample_dma] [sample_link] 0.

Example selects_vpu : selectTransformResource vector_machine "sram.0" = Ok "vpu.0".
Proof. vm_compute. reflexivity. Qed.

(** Types as an integer width and a list of extents; maps as their name. *)
#[local] Instance sample_types : MLIRTypes := {|
  mlir_type := Z * list Z;
  shaped_type := Z * list Z;
  affine_map := string;
  as_shaped t := if bool_decide (t.2 = []) then None else Some t;
  hasStaticShape t := true;
  getNumElements t := foldr Z.mul 1 t.2;
  getElementType t := (t.1, []);
  float_width t := None;
  isF64 t := false;
  isF32 t := false;
  isF16 t := false;
  isBF16 t := false;
  int_width t := Some t.1;
|}.

Definition sample_transform : TransformCostInput :=
  mkTransformInput (Some (8, [16; 16])) (Some (8, [16; 16])) (Some "row") (Some "tiled") "sram.0" "".

Lemma estimateTransformCost_sound_witness :
  ∃ cost engine, estimateTransformCost sample_transform vector_machine = Ok cost ∧
    transformEngine sample_transform vector_machine = Ok engine ∧
    cmp_kind engine = "vector_engine" ∧ dramBytes cost = 0.
Proof.
  destruct (estimateTransformCost sample_transform vector_machine) as [cost|] eqn:Hok;
    [|vm_compute in Hok; discriminate].
  destruct (estimateTransformCost_sound sample_transform vector_machine cost Hok)
    as (footprint & width & engine & _ & _ & _ & He & Hk & _ & _ & Hd & _).
  exists cost, engine. auto.
Defined.

(** [weightedMeanCost] lets a mean through up to [2^64] and rounds it with
    [std::llround], whose result type is [long long]: a single sample of [2^63]
    bytes is accepted with whatever [llround] leaves there. *)
Lemma weightedMeanCost_llround_overflow (llround_out_of_range : double → Z) :
  weightedMeanCost llround_out_of_range
    [mkWeighted (mkCost dzero (2 ^ 63) 0 0 dzero dzero) (double_of_Z 1)] =
  Ok (mkCost dzero (u64 (llround_out_of_range (double_of_Z (2 ^ 63)))) 0 0 dzero dzero).
Proof. cbv -[u64]. reflexivity. Qed.
