(* ===== verification/WorkloadGraph.v ===== *)
(** The workload graph: include/LLK/Mapping/WorkloadGraph.h and
    lib/Mapping/WorkloadGraph.cpp.

    A graph is a list of values and a list of nodes whose ports name values by
    position.  [finalize] sorts both by content keys and renumbers; the theorems
    say that it only renumbers, that it does so once and for all, and that graphs
    with distinguishable content built in any insertion order become the same
    graph.  Trip counts and multiplicities are shown to count iterations, and an
    extraction to give a graph [finalize] accepts.

    Ids are positions in the two [llvm::SmallVector]s.  Such a vector cannot grow
    past [2^32 - 1] elements (growing it further is a fatal error), so the casts to
    the 32-bit ids do not wrap and ids are [nat]. *)
From S2P Require Import Prelude CostModel.
Open Scope string_scope.
Open Scope Z_scope.

(** ** Data *)
Inductive PortDirection := Input | Output.
#[export] Instance PortDirection_eq_dec : EqDecision PortDirection.
Proof. solve_decision. Defined.

Record PortRef := mkRef { ref_node : nat; direction : PortDirection; ref_index : nat }.
#[export] Instance PortRef_eq_dec : EqDecision PortRef.
Proof. solve_decision. Defined.

(** What the code asks of MLIR besides the queries of [MLIRTypes]: attribute
    dictionaries, and the printed forms of types (null ones too) and attributes. *)
Class MLIRText `{MLIRTypes} := {
  dictionary : Type;
  typeString : option mlir_type → string;
  attributeString : dictionary → string;
}.

Section graph.
Context `{MLIRText}.

Record WorkloadValue := mkValue {
  v_id : nat;
  v_type : option mlir_type;
  v_name : string;
  external : bool;
  loopCarried : bool;
  carriedFrom : option nat;
  memoryKind : option string;
}.

Record WorkloadPort := mkPort {
  p_value : nat;
  p_type : option mlir_type;
  accessMap : option affine_map;
}.

Record WorkloadNode := mkNode {
  n_id : nat;
  opName : string;
  inputs : list WorkloadPort;
  outputs : list WorkloadPort;
  attributes : option dictionary;
  sourceOrdinal : nat;
  executionMultiplicity : option Z;
  simultaneousMultiplicity : option Z;
}.

Record WorkloadGraph := mkGraph { nodes : list WorkloadNode; values : list WorkloadValue }.

Definition emptyGraph : WorkloadGraph := mkGraph [] [].

Definition kNodeOps : list string :=
  ["micro.mma"; "micro.vector"; "micro.reduce"; "micro.async_copy"; "micro.tile_async_copy";
   "micro.store"; "micro.tile_store"; "micro.tile_load"].
Definition kTransparentOps : list string := ["micro.tile_view"; "micro.tile_partition"].
Definition isWorkloadNodeOp (name : string) : bool := contains kNodeOps name.
Definition isTransparentWorkloadOp (name : string) : bool := contains kTransparentOps name.

(** ** Building and reading a graph *)
Definition value_with_id (i : nat) (v : WorkloadValue) : WorkloadValue :=
  mkValue i (v_type v) (v_name v) (external v) (loopCarried v) (carriedFrom v) (memoryKind v).

Definition addValue (graph : WorkloadGraph) (value : WorkloadValue) : nat * WorkloadGraph :=
  let id := length (values graph) in
  (id, mkGraph (nodes graph) (values graph ++ [value_with_id id value])).

Definition addNode (graph : WorkloadGraph) (node : WorkloadNode) : WorkloadGraph :=
  mkGraph (nodes graph ++ [node]) (values graph).

Definition findNode (graph : WorkloadGraph) (id : nat) : option WorkloadNode := nodes graph !! id.
Definition findValue (graph : WorkloadGraph) (id : nat) : option WorkloadValue := values graph !! id.

Definition markLoopCarried (graph : WorkloadGraph) (id : nat) (from : option nat) : WorkloadGraph :=
  mkGraph (nodes graph)
    (alter (λ v, mkValue (v_id v) (v_type v) (v_name v) (external v) true from (memoryKind v))
       id (values graph)).

Definition lookupPort (graph : WorkloadGraph) (ref : PortRef) : option WorkloadPort :=
  match findNode graph (ref_node ref) with
  | None => None
  | Some node =>
    match direction ref with
    | Input => inputs node !! ref_index ref
    | Output => outputs node !! ref_index ref
    end
  end.

Definition canonicalPortRefString (p : PortRef) : string :=
  "node=" +:+ to_string (Z.of_nat (ref_node p)) +:+
  (if decide (direction p = Input) then ",input=" else ",output=") +:+
  to_string (Z.of_nat (ref_index p)).

(** ** Canonicalization *)
Definition portTypes (ports : list WorkloadPort) : string :=
  foldl (λ key port, key +:+ typeString (p_type port) +:+ ",") "" ports.

Definition nodeContentKey (node : WorkloadNode) : string :=
  opName node +:+ "|in:" +:+ portTypes (inputs node) +:+ "|out:" +:+ portTypes (outputs node) +:+
  "|attr:" +:+ from_option attributeString "" (attributes node) +:+
  "|ordinal:" +:+ to_string (Z.of_nat (sourceOrdinal node)).

(** The (node, result) positions that define each value, in the order of the two
    loops; a later definition replaces an earlier one. *)
Definition definitions (ns : list WorkloadNode) : list (nat * (nat * nat)) :=
  mjoin (imap (λ ni node, imap (λ ri port, (p_value port, (ni, ri))) (outputs node)) ns).
Definition producerOf (ns : list WorkloadNode) : gmap nat (nat * nat) :=
  foldl (λ m e, <[e.1 := e.2]> m) ∅ (definitions ns).

Definition valueKey (nodeKeys : list string) (producer : gmap nat (nat * nat)) (valueIndex : nat)
    (value : WorkloadValue) : string :=
  match external value, producer !! valueIndex with
  | false, Some (node, result) =>
    "def:" +:+ default "" (nodeKeys !! node) +:+ "#" +:+ to_string (Z.of_nat result)
  | _, _ => "ext:" +:+ v_name value
  end.

Definition nodeKeysOf (g : WorkloadGraph) : list string := nodeContentKey <$> nodes g.
Definition valueKeysOf (g : WorkloadGraph) : list string :=
  imap (valueKey (nodeKeysOf g) (producerOf (nodes g))) (values g).

(** [llvm::stable_sort] of the positions by their keys: equal keys keep the order
    of the positions. *)
Definition index_le (keys : list string) (i j : nat) : Prop :=
  let a := default "" (keys !! i) in
  let b := default "" (keys !! j) in
  str_ltb a b = true ∨ a = b ∧ (i ≤ j)%nat.
#[global] Instance index_le_dec keys : RelDecision (index_le keys).
Proof. intros i j. unfold index_le. apply _. Defined.

Definition stableOrder (keys : list string) : list nat :=
  merge_sort (index_le keys) (seq 0 (length keys)).

(** [remap[order[newId]] = newId]. *)
Definition remapOf (order : list nat) : list nat :=
  foldl (λ r e, <[e.2 := e.1]> r) (replicate (length order) O) (imap pair order).

(** Indexing the remap out of its range is undefined; the model stops. *)
Definition remapPort (remap : list nat) (port : WorkloadPort) : option WorkloadPort :=
  (λ v, mkPort v (p_type port) (accessMap port)) <$> remap !! p_value port.

Definition remapValue (remap : list nat) (newId : nat) (v : WorkloadValue) : WorkloadValue :=
  mkValue newId (v_type v) (v_name v) (external v) (loopCarried v)
    (carriedFrom v ≫= λ c, remap !! c) (memoryKind v).

Definition remapNode (remap : list nat) (newId : nat) (node : WorkloadNode) : option WorkloadNode :=
  ins ← mapM (remapPort remap) (inputs node);
  outs ← mapM (remapPort remap) (outputs node);
  Some (mkNode newId (opName node) ins outs (attributes node) (sourceOrdinal node)
          (executionMultiplicity node) (simultaneousMultiplicity node)).

Definition remapNodes (remap : list nat) (ns : list WorkloadNode) : option (list WorkloadNode) :=
  mapM (λ e, remapNode remap e.1 e.2) (imap pair ns).

(** The finalized graph, with the final id of each temporary value id. *)
Definition finalize (g : WorkloadGraph) : option (list nat * WorkloadGraph) :=
  let valueOrder := stableOrder (valueKeysOf g) in
  let valueRemap := remapOf valueOrder in
  let newValues := imap (remapValue valueRemap) (omap (λ i, values g !! i) valueOrder) in
  let nodeOrder := stableOrder (nodeKeysOf g) in
  newNodes ← remapNodes valueRemap (omap (λ i, nodes g !! i) nodeOrder);
  Some (valueRemap, mkGraph newNodes newValues).

(** ** Printing *)
Definition canonicalValueLine (value : WorkloadValue) : string :=
  "value " +:+ to_string (Z.of_nat (v_id value)) +:+
  (if external value then " external " else " internal ") +:+ typeString (v_type value) +:+
  from_option (λ k, " memory=" +:+ k) "" (memoryKind value) +:+
  " name=" +:+ v_name value +:+ newline.

Definition portIds (ports : list WorkloadPort) : string :=
  foldl (λ out port, out +:+ to_string (Z.of_nat (p_value port)) +:+ ",") "" ports.

Definition canonicalNodeLine (node : WorkloadNode) : string :=
  "node " +:+ to_string (Z.of_nat (n_id node)) +:+ " " +:+ opName node +:+ " in=[" +:+
  portIds (inputs node) +:+ "] out=[" +:+ portIds (outputs node) +:+ "]" +:+
  from_option (λ a, " attrs=" +:+ attributeString a) "" (attributes node) +:+ newline.

Definition canonicalString (g : WorkloadGraph) : string :=
  foldl (λ out node, out +:+ canonicalNodeLine node)
    (foldl (λ out value, out +:+ canonicalValueLine value) "" (values g)) (nodes g).
End graph.

(** ** Stable order *)
#[global] Instance index_le_trans keys : Transitive (index_le keys).
Proof.
  intros i j k. unfold index_le. intros [Hij|[-> Hij]] [Hjk|[Hk Hjk]].
  - left. by eapply str_ltb_trans.
  - left. by rewrite <- Hk.
  - by left.
  - right. split; [done|lia].
Qed.
#[global] Instance index_le_total keys : Total (index_le keys).
Proof.
  intros i j. unfold index_le.
  destruct (str_ltb_total (default "" (keys !! i)) (default "" (keys !! j))) as [?|[Heq|?]]; auto.
  destruct (le_ge_dec i j); auto.
Qed.
#[global] Instance index_le_anti keys : AntiSymm (=) (index_le keys).
Proof.
  intros i j. unfold index_le. intros [Hij|[Hij ?]] [Hji|[Hji ?]]; [|..|lia].
  - pose proof (str_ltb_trans _ _ _ Hij Hji) as Hf. by rewrite str_ltb_irrefl in Hf.
  - rewrite Hji in Hij. by rewrite str_ltb_irrefl in Hij.
  - rewrite Hij in Hji. by rewrite str_ltb_irrefl in Hji.
Qed.

Lemma stableOrder_perm keys : stableOrder keys ≡ₚ seq 0 (length keys).
Proof. apply merge_sort_Permutation. Qed.
Lemma stableOrder_sorted keys : StronglySorted (index_le keys) (stableOrder keys).
Proof. apply StronglySorted_merge_sort; apply _. Qed.
Lemma stableOrder_length keys : length (stableOrder keys) = length keys.
Proof. by rewrite stableOrder_perm, length_seq. Qed.
Lemma stableOrder_NoDup keys : NoDup (stableOrder keys).
Proof. rewrite stableOrder_perm. apply NoDup_seq. Qed.
Lemma elem_of_stableOrder keys i : i ∈ stableOrder keys ↔ (i < length keys)%nat.
Proof. rewrite stableOrder_perm, elem_of_seq. lia. Qed.
Lemma stableOrder_lookup keys k i : stableOrder keys !! k = Some i → (i < length keys)%nat.
Proof. intros Hk%list_elem_of_lookup_2. by apply elem_of_stableOrder. Qed.

(** The order is determined: it is the one sorted list of the positions. *)
Lemma stableOrder_unique keys l :
  l ≡ₚ seq 0 (length keys) → StronglySorted (index_le keys) l → stableOrder keys = l.
Proof.
  intros Hp Hs. apply (StronglySorted_unique (index_le keys)); [apply stableOrder_sorted|done|].
  by rewrite stableOrder_perm.
Qed.

Lemma stableOrder_sorted_keys keys :
  StronglySorted String.le keys → stableOrder keys = seq 0 (length keys).
Proof.
  intros Hs. apply stableOrder_unique; [done|].
  assert (∀ n s, (s + n ≤ length keys)%nat → StronglySorted (index_le keys) (seq s n)) as H;
    [|by apply H].
  induction n as [|n IH]; intros s Hn; cbn [seq]; constructor; [apply IH; lia|].
  apply Forall_forall. intros j [Hj Hj']%elem_of_seq.
  destruct (lookup_lt_is_Some_2 keys s) as [a Ha]; [lia|].
  destruct (lookup_lt_is_Some_2 keys j) as [b Hb]; [lia|].
  unfold index_le. rewrite Ha, Hb. cbn. 
  assert (String.le a b) as Hab.
  { eapply (sorted_lookup String.le); [done..|]. lia. }
  destruct (str_ltb_total a b) as [?|[->|Hba]]; [auto|right; split; [done|lia]|].
  apply str_ltb_le in Hba. done.
Qed.

(** The remap inverts the order. *)
Lemma remapOf_lookup order x k : NoDup order → order ≡ₚ seq 0 (length order) →
  remapOf order !! x = Some k ↔ order !! k = Some x.
Proof.
  intros Hnd Hp. unfold remapOf.
  assert (∀ l s r, Forall (λ i, (i < length r)%nat) l → NoDup l →
    ∀ x, foldl (λ r (e : nat * nat), <[e.2 := e.1]> r) r (imap (λ k i, ((s + k)%nat, i)) l) !! x =
      match list_find (eq x) l with Some (k, _) => Some (s + k)%nat | None => r !! x end) as H.
  { induction l as [|i l IH]; intros s r Hr Hl y; [done|]. cbn [imap foldl].
    apply Forall_cons in Hr as [Hi Hr]. apply NoDup_cons in Hl as [Hin Hl].
    rewrite (imap_ext _ (λ k i, ((S s + k)%nat, i))) by (intros; cbn; f_equal; lia).
    rewrite IH by (rewrite ?length_insert; done). cbn [list_find fst snd].
    destruct (decide (y = i)) as [->|Hne].
    - assert (list_find (eq i) l = None) as ->.
      { apply list_find_None. apply Forall_forall. by intros j Hj ->. }
      by rewrite list_lookup_insert_eq.
    - destruct (list_find (eq y) l) as [[k' ?]|] eqn:Hf; cbn; [f_equal; lia|].
      by rewrite list_lookup_insert_ne. }
  rewrite (imap_ext _ (λ k i, ((0 + k)%nat, i))) by done.
  assert (Forall (λ i, (i < length order)%nat) order) as Hall.
  { apply Forall_forall. intros i Hi. rewrite Hp in Hi. apply elem_of_seq in Hi. lia. }
  rewrite H by (rewrite ?length_replicate; done).
  destruct (list_find (eq x) order) as [[k' y]|] eqn:Hf.
  - apply list_find_Some in Hf as (Hk & -> & _). split; [intros [= <-]; done|].
    intros Hk2. f_equal. by eapply NoDup_lookup.
  - apply list_find_None in Hf. split; [|intros Hk%list_elem_of_lookup_2].
    + intros [_ Hx]%lookup_replicate.
      assert (x ∈ order) as Hin by (rewrite Hp; apply elem_of_seq; lia).
      rewrite Forall_forall in Hf. by apply Hf in Hin.
    + rewrite Forall_forall in Hf. by apply Hf in Hk.
Qed.

Lemma remapOf_length order : length (remapOf order) = length order.
Proof.
  unfold remapOf. rewrite <- (length_replicate (length order) O) at 2.
  generalize (replicate (length order) O). generalize (imap pair order).
  intros l. induction l as [|e l IH]; intros r; [done|]. cbn. rewrite IH. apply length_insert.
Qed.

Section finalize_proofs.
Context `{MLIRText}.

(** ** Which node defines a value *)
Definition outValues (ns : list WorkloadNode) : list nat := ns ≫= λ n, p_value <$> outputs n.

Lemma elem_of_definitions ns v ni ri : (v, (ni, ri)) ∈ definitions ns ↔
  ∃ node port, ns !! ni = Some node ∧ outputs node !! ri = Some port ∧ p_value port = v.
Proof.
  unfold definitions. rewrite list_elem_of_join. split.
  - intros (l & Hin & Hl). apply elem_of_lookup_imap in Hl as (ni' & node & -> & Hn).
    apply elem_of_lookup_imap in Hin as (ri' & port & [= -> -> ->] & Hp). eauto.
  - intros (node & port & Hn & Hp & <-). eexists. split; [|apply elem_of_lookup_imap; eauto].
    apply elem_of_lookup_imap. eauto.
Qed.

Lemma definitions_fst ns : (definitions ns).*1 = outValues ns.
Proof.
  unfold definitions, outValues.
  assert (∀ f : nat → list WorkloadPort → list (nat * (nat * nat)),
    (∀ i ps, (f i ps).*1 = p_value <$> ps) → ∀ ns : list WorkloadNode,
    (mjoin (imap (λ i n, f i (outputs n)) ns)).*1 = ns ≫= λ n, p_value <$> outputs n) as Hf.
  { intros f Hf ns'. revert f Hf. induction ns' as [|n ns' IH]; intros f Hf; [done|].
    cbn. rewrite fmap_app, Hf. f_equal. apply (IH (λ i, f (S i))). intros i ps. apply Hf. }
  apply (Hf (λ ni ps, imap (λ ri port, (p_value port, (ni, ri))) ps)). intros i ps.
  rewrite fmap_imap, <- imap_const. apply imap_ext. done.
Qed.

Lemma producerOf_lookup ns v p : NoDup (outValues ns) →
  producerOf ns !! v = Some p ↔ (v, p) ∈ definitions ns.
Proof.
  rewrite <- definitions_fst. unfold producerOf.
  assert (∀ (l : list (nat * (nat * nat))) (m : gmap nat (nat * nat)), NoDup l.*1 →
    foldl (λ m e, <[e.1 := e.2]> m) m l !! v = Some p ↔
      (v, p) ∈ l ∨ v ∉ l.*1 ∧ m !! v = Some p) as Hl.
  { induction l as [|[w q] l IH]; intros m Hnd; cbn.
    - rewrite elem_of_nil. split; [|tauto]. intros ?. right. split; [by intros ?%not_elem_of_nil|done].
    - apply NoDup_cons in Hnd as [Hw Hnd]. rewrite IH, !elem_of_cons by done. cbn.
      destruct (decide (w = v)) as [->|Hne].
      + rewrite lookup_insert_eq. naive_solver.
      + rewrite lookup_insert_ne by done. naive_solver. }
  intros Hnd. rewrite Hl by done. rewrite lookup_empty. naive_solver.
Qed.

Lemma producerOf_is_Some ns v : NoDup (outValues ns) →
  is_Some (producerOf ns !! v) ↔ v ∈ outValues ns.
Proof.
  intros Hnd. rewrite <- definitions_fst, list_elem_of_fmap. split.
  - intros [p Hp%producerOf_lookup]; [|done]. by exists (v, p).
  - intros ([w p] & -> & Hp). exists p. by apply producerOf_lookup.
Qed.

(** ** Renaming the values of a graph *)
Definition rename_port (σ : nat → nat) (p : WorkloadPort) : WorkloadPort :=
  mkPort (σ (p_value p)) (p_type p) (accessMap p).
Definition rename_node (σ : nat → nat) (n : WorkloadNode) : WorkloadNode :=
  mkNode O (opName n) (rename_port σ <$> inputs n) (rename_port σ <$> outputs n) (attributes n)
    (sourceOrdinal n) (executionMultiplicity n) (simultaneousMultiplicity n).
Definition rename_value (σ : nat → nat) (v : WorkloadValue) : WorkloadValue :=
  mkValue O (v_type v) (v_name v) (external v) (loopCarried v) (σ <$> carriedFrom v) (memoryKind v).

(** [g'] is [g] with its values and nodes inserted in another order: value [i] of
    [g] is value [σ i] of [g']. *)
Record Reordered (σ : nat → nat) (g g' : WorkloadGraph) : Prop := {
  ro_inj : Inj (=) (=) σ;
  ro_length : length (values g') = length (values g);
  ro_range i : (σ i < length (values g))%nat ↔ (i < length (values g))%nat;
  ro_values i v : values g !! i = Some v →
    ∃ v', values g' !! σ i = Some v' ∧ rename_value id v' = rename_value σ v;
  ro_nodes : rename_node id <$> nodes g' ≡ₚ rename_node σ <$> nodes g;
}.

(** Every port names a value, and no value is defined twice. *)
Record WellFormed (g : WorkloadGraph) : Prop := {
  wf_ports n p : n ∈ nodes g → p ∈ (inputs n ++ outputs n)%list → (p_value p < length (values g))%nat;
  wf_defined_once : NoDup (outValues (nodes g));
}.

Lemma portTypes_rename σ ps : portTypes (rename_port σ <$> ps) = portTypes ps.
Proof.
  unfold portTypes.
  assert (∀ f : string → WorkloadPort → string, (∀ key p, f key (rename_port σ p) = f key p) →
    ∀ key, foldl f key (rename_port σ <$> ps) = foldl f key ps) as Hf; [|by apply Hf].
  intros f Hf. induction ps as [|p ps IH]; intros key; [done|]. cbn. by rewrite Hf.
Qed.
Lemma nodeContentKey_rename σ n : nodeContentKey (rename_node σ n) = nodeContentKey n.
Proof.
  unfold nodeContentKey. cbn [inputs outputs opName attributes sourceOrdinal rename_node].
  by rewrite !portTypes_rename.
Qed.
Lemma outValues_rename σ ns : outValues (rename_node σ <$> ns) = σ <$> outValues ns.
Proof.
  unfold outValues. induction ns as [|n ns IH]; [done|]. cbn. rewrite fmap_app, IH. f_equal.
  by rewrite <- !list_fmap_compose.
Qed.
Lemma outValues_rename_id ns : outValues (rename_node id <$> ns) = outValues ns.
Proof. rewrite outValues_rename. apply list_fmap_id. Qed.
Lemma outValues_perm ns ns' : ns ≡ₚ ns' → outValues ns ≡ₚ outValues ns'.
Proof. apply bind_Permutation. Qed.

Section reordered.
Context (σ : nat → nat) (g g' : WorkloadGraph) (Hro : Reordered σ g g') (Hwf : WellFormed g).

Lemma reordered_outValues : outValues (nodes g') ≡ₚ σ <$> outValues (nodes g).
Proof.
  destruct Hro. rewrite <- outValues_rename, <- (outValues_rename_id (nodes g')). by apply outValues_perm.
Qed.

Lemma reordered_wf : WellFormed g'.
Proof.
  destruct Hro as [Hinj Hlen Hrange _ Hns]. constructor.
  - intros n' p' Hn' Hp'. rewrite Hlen.
    assert (rename_node id n' ∈ rename_node σ <$> nodes g) as (n & Heq & Hn)%list_elem_of_fmap
      by (rewrite <- Hns; by apply list_elem_of_fmap_2).
    assert (rename_port id p' ∈ (inputs (rename_node id n') ++ outputs (rename_node id n'))%list) as Hp
      by (cbn; rewrite <- fmap_app; by apply list_elem_of_fmap_2).
    rewrite Heq in Hp. cbn in Hp. rewrite <- fmap_app in Hp.
    apply list_elem_of_fmap in Hp as (p & [= Hv _ _] & Hp). cbn in Hv. rewrite Hv, Hrange.
    by eapply wf_ports.
  - rewrite reordered_outValues. apply (NoDup_fmap_2 σ), Hwf.
Qed.

Lemma reordered_definition i node port ni ri :
  nodes g !! ni = Some node → outputs node !! ri = Some port → p_value port = i →
  ∃ ni' node', producerOf (nodes g') !! σ i = Some (ni', ri) ∧ nodes g' !! ni' = Some node' ∧
    nodeContentKey node' = nodeContentKey node.
Proof.
  intros Hn Hp <-. destruct Hro as [_ _ _ _ Hns].
  assert (rename_node σ node ∈ rename_node id <$> nodes g') as (node' & Heq & Hn')%list_elem_of_fmap
    by (rewrite Hns; by eapply list_elem_of_fmap_2, list_elem_of_lookup_2).
  apply list_elem_of_lookup in Hn' as [ni' Hn']. exists ni', node'. split_and!.
  - apply producerOf_lookup; [apply reordered_wf|]. apply elem_of_definitions.
    assert (outputs (rename_node σ node) !! ri = Some (rename_port σ port)) as Hr
      by (cbn; by rewrite list_lookup_fmap, Hp).
    rewrite Heq in Hr. cbn in Hr. rewrite list_lookup_fmap in Hr.
    destruct (outputs node' !! ri) as [port'|] eqn:Hp'; [|done]. injection Hr as Hv _ _.
    exists node', port'. split_and!; [done..|]. by cbn in Hv.
  - done.
  - rewrite <- (nodeContentKey_rename id), <- (nodeContentKey_rename σ node). by f_equal.
Qed.

Lemma reordered_keys i : (i < length (values g))%nat →
  valueKeysOf g' !! σ i = valueKeysOf g !! i.
Proof.
  intros [v Hv]%lookup_lt_is_Some_2. destruct (ro_values _ _ _ Hro i v Hv) as (v' & Hv' & Heq).
  unfold valueKeysOf. rewrite !list_lookup_imap, Hv, Hv'. cbn. f_equal.
  injection Heq as _ Hname Hext _ _ _. unfold valueKey. rewrite Hext, Hname.
  destruct (external v); [done|].
  pose proof (wf_defined_once _ Hwf) as Hnd. pose proof (wf_defined_once _ reordered_wf) as Hnd'.
  destruct (producerOf (nodes g) !! i) as [[ni ri]|] eqn:Hp.
  - apply producerOf_lookup in Hp; [|done]. apply elem_of_definitions in Hp as (node & port & Hn & Hr & Hi).
    destruct (reordered_definition i node port ni ri Hn Hr Hi) as (ni' & node' & -> & Hn' & Hk).
    unfold nodeKeysOf. rewrite !list_lookup_fmap, Hn, Hn'. cbn. by rewrite Hk.
  - destruct (producerOf (nodes g') !! σ i) as [q|] eqn:Hp'; [|done].
    assert (σ i ∈ outValues (nodes g')) as Hin by (by apply producerOf_is_Some).
    rewrite reordered_outValues in Hin. apply list_elem_of_fmap in Hin as (j & Hj & Hin).
    apply (ro_inj _ _ _ Hro) in Hj as <-. apply producerOf_is_Some in Hin as [? Hin]; [|done]. congruence.
Qed.

Lemma valueKeysOf_length (h : WorkloadGraph) : length (valueKeysOf h) = length (values h).
Proof. apply length_imap. Qed.

Lemma reordered_seq : σ <$> seq 0 (length (values g)) ≡ₚ seq 0 (length (values g)).
Proof.
  destruct Hro as [Hinj _ Hrange _ _]. apply submseteq_length_Permutation.
  - apply NoDup_submseteq; [apply (NoDup_fmap_2 σ), NoDup_seq|].
    intros i (j & -> & Hj%elem_of_seq)%list_elem_of_fmap. apply elem_of_seq.
    assert (σ j < length (values g))%nat by (apply Hrange; lia). lia.
  - by rewrite length_fmap.
Qed.

(** With distinct keys the order of the values is the same, up to the renaming. *)
Lemma reordered_order : NoDup (valueKeysOf g) →
  stableOrder (valueKeysOf g') = σ <$> stableOrder (valueKeysOf g).
Proof.
  intros Hnd. apply stableOrder_unique.
  - rewrite stableOrder_perm, !valueKeysOf_length, (ro_length _ _ _ Hro). apply reordered_seq.
  - assert (Forall (λ i, (i < length (values g))%nat) (stableOrder (valueKeysOf g))) as Hall.
    { apply Forall_forall. intros i. by rewrite elem_of_stableOrder, valueKeysOf_length. }
    pose proof (stableOrder_sorted (valueKeysOf g)) as Hs.
    induction Hs as [|i l Hs IH Hi]; cbn; constructor; apply Forall_cons in Hall as [Hi' Hall]; [by apply IH|].
    apply Forall_fmap. rewrite Forall_forall in Hi, Hall |- *. intros j Hj. specialize (Hi j Hj). cbn.
    specialize (Hall j Hj). unfold index_le in *. rewrite !reordered_keys by done.
    destruct Hi as [?|[Heq _]]; [by left|]. right. split; [done|].
    assert (i = j) as ->; [|done].
    destruct (lookup_lt_is_Some_2 (valueKeysOf g) i) as [a Ha]; [by rewrite valueKeysOf_length|].
    destruct (lookup_lt_is_Some_2 (valueKeysOf g) j) as [b Hb]; [by rewrite valueKeysOf_length|].
    rewrite Ha, Hb in Heq. cbn in Heq. subst b. by eapply NoDup_lookup.
Qed.
End reordered.

(** ** The lists in their new order *)
Lemma omap_seq_lookup {A} (xs : list A) : omap (λ i, xs !! i) (seq 0 (length xs)) = xs.
Proof.
  induction xs as [|x xs IH] using rev_ind; [done|].
  rewrite length_app, seq_app, omap_app. cbn. rewrite lookup_app_r, Nat.sub_diag by done. cbn. f_equal.
  rewrite <- IH at 2. apply list_omap_ext, Forall2_same_length_lookup. split; [done|].
  intros i a b Ha Hb. assert (a = b) as <- by congruence. apply lookup_seq in Ha as [-> Hi].
  by rewrite lookup_app_l.
Qed.

Lemma omap_order_perm {A} (xs : list A) keys : length keys = length xs →
  omap (λ i, xs !! i) (stableOrder keys) ≡ₚ xs.
Proof. intros Hl. rewrite stableOrder_perm, Hl. by rewrite omap_seq_lookup. Qed.

Lemma omap_order_lookup {A} (xs : list A) keys k : length keys = length xs →
  omap (λ i, xs !! i) (stableOrder keys) !! k = stableOrder keys !! k ≫= λ i, xs !! i.
Proof.
  intros Hl.
  assert (Forall (λ i, is_Some (xs !! i)) (stableOrder keys)) as Hall.
  { apply Forall_forall. intros i Hi%elem_of_stableOrder. apply lookup_lt_is_Some. lia. }
  revert k. induction Hall as [|i l [x Hx] _ IH]; intros k; [done|]. cbn. rewrite Hx.
  destruct k as [|k]; [done|apply IH].
Qed.

Lemma index_le_key keys i j a b : keys !! i = Some a → keys !! j = Some b → index_le keys i j → String.le a b.
Proof.
  unfold index_le. intros -> ->. cbn. intros [Hlt|[-> _]]; [|done].
  destruct (total String.le a b) as [?|Hle]; [done|]. by apply str_ltb_le in Hlt.
Qed.

Lemma omap_key_sorted {A} (key : A → string) (xs : list A) :
  StronglySorted (key_le key) (omap (λ i, xs !! i) (stableOrder (key <$> xs))).
Proof.
  pose proof (stableOrder_sorted (key <$> xs)) as Hs.
  induction Hs as [|i l _ IH Hi]; [constructor|]. cbn. destruct (xs !! i) as [x|] eqn:Hx; [|done].
  constructor; [done|]. apply Forall_forall. intros y (j & Hj & Hy)%list_elem_of_omap.
  rewrite Forall_forall in Hi. eapply (index_le_key (key <$> xs) i j); [..|by apply Hi];
    rewrite list_lookup_fmap, ?Hx, ?Hy; done.
Qed.

Lemma omap_order_sorted (ns : list WorkloadNode) :
  StronglySorted (key_le nodeContentKey) (omap (λ i, ns !! i) (stableOrder (nodeContentKey <$> ns))).
Proof. apply omap_key_sorted. Qed.
Lemma omap_keys_sorted keys : StronglySorted String.le (omap (λ i, keys !! i) (stableOrder keys)).
Proof. pose proof (omap_key_sorted id keys) as Hs. by rewrite list_fmap_id in Hs. Qed.

Lemma remapNode_rename σ remap remap' k n : (∀ x, remap' !! σ x = remap !! x) →
  remapNode remap' k (rename_node σ n) = remapNode remap k n.
Proof.
  intros Hr. assert (∀ ps, mapM (remapPort remap') (rename_port σ <$> ps) = mapM (remapPort remap) ps) as Hps.
  { intros ps. apply Forall2_mapM_ext, Forall2_fmap_l, Forall_Forall2_diag, Forall_true.
    intros p. unfold remapPort. cbn. by rewrite Hr. }
  unfold remapNode. cbn [inputs outputs opName attributes sourceOrdinal executionMultiplicity
    simultaneousMultiplicity rename_node]. by rewrite !Hps.
Qed.

Lemma remapNodes_rename σ remap remap' ns : (∀ x, remap' !! σ x = remap !! x) →
  remapNodes remap' (rename_node σ <$> ns) = remapNodes remap ns.
Proof.
  intros Hr. unfold remapNodes.
  assert (imap pair (rename_node σ <$> ns) = prod_map id (rename_node σ) <$> imap pair ns) as ->.
  { rewrite fmap_imap, imap_fmap. by apply imap_ext. }
  apply Forall2_mapM_ext, Forall2_fmap_l, Forall_Forall2_diag, Forall_true.
  intros [k n]. by apply remapNode_rename.
Qed.

Lemma remapOf_order keys x k : remapOf (stableOrder keys) !! x = Some k ↔ stableOrder keys !! k = Some x.
Proof.
  apply remapOf_lookup; [apply stableOrder_NoDup|]. by rewrite stableOrder_length, stableOrder_perm.
Qed.

(** ** Distinguishable content

    Nodes are told apart by their program position, values by their producer or,
    where they have none, by their name. *)
Definition unproduced (g : WorkloadGraph) (i : nat) (v : WorkloadValue) : Prop :=
  external v = true ∨ i ∉ outValues (nodes g).

Record Distinguishable (g : WorkloadGraph) : Prop := {
  di_ordinals : NoDup (sourceOrdinal <$> nodes g);
  di_names i j v w : values g !! i = Some v → values g !! j = Some w →
    unproduced g i v → unproduced g j w → v_name v = v_name w → i = j;
}.

Lemma nodeContentKey_ordinal n m : nodeContentKey n = nodeContentKey m → sourceOrdinal n = sourceOrdinal m.
Proof.
  intros Heq. assert (∀ n, ∃ a, nodeContentKey n = a +:+ String ":" (to_string (Z.of_nat (sourceOrdinal n)))) as Hk.
  { intros k. eexists (opName k +:+ "|in:" +:+ portTypes (inputs k) +:+ "|out:" +:+ portTypes (outputs k) +:+
      "|attr:" +:+ from_option attributeString "" (attributes k) +:+ "|ordinal").
    unfold nodeContentKey. by rewrite !str_app_assoc. }
  destruct (Hk n) as [a Ha], (Hk m) as [b Hb]. rewrite Ha, Hb in Heq.
  apply to_string_split_last in Heq as [_ Heq]; [lia|done].
Qed.

Lemma nodeKeys_NoDup g : Distinguishable g → NoDup (nodeKeysOf g).
Proof.
  intros [Hnd _]. unfold nodeKeysOf. apply NoDup_alt. intros i j k Hi Hj.
  rewrite list_lookup_fmap in Hi, Hj. destruct (nodes g !! i) as [n|] eqn:Hn; [|done].
  destruct (nodes g !! j) as [m|] eqn:Hm; [|done]. injection Hi as Hi. injection Hj as Hj.
  apply (NoDup_lookup _ i j (sourceOrdinal n) Hnd); rewrite list_lookup_fmap, ?Hn, ?Hm; [done|]. cbn. f_equal.
  apply nodeContentKey_ordinal. congruence.
Qed.

Lemma valueKey_cases g i v : NoDup (outValues (nodes g)) →
  (∃ ni ri n p, external v = false ∧ nodes g !! ni = Some n ∧ outputs n !! ri = Some p ∧ p_value p = i ∧
     valueKey (nodeKeysOf g) (producerOf (nodes g)) i v =
     "def:" +:+ nodeContentKey n +:+ "#" +:+ to_string (Z.of_nat ri)) ∨
  unproduced g i v ∧ valueKey (nodeKeysOf g) (producerOf (nodes g)) i v = "ext:" +:+ v_name v.
Proof.
  intros Hnd. unfold valueKey, unproduced. destruct (external v); [by auto|].
  destruct (producerOf (nodes g) !! i) as [[ni ri]|] eqn:Hp.
  - left. apply producerOf_lookup in Hp; [|done]. apply elem_of_definitions in Hp as (n & p & Hn & Hr & Hi).
    exists ni, ri, n, p. split_and!; [done..|]. unfold nodeKeysOf. by rewrite list_lookup_fmap, Hn.
  - right. split; [|done]. right. rewrite <- producerOf_is_Some, Hp by done. by intros [? ?].
Qed.

Lemma valueKeys_NoDup g : WellFormed g → Distinguishable g → NoDup (valueKeysOf g).
Proof.
  intros [_ Hnd] Hd. pose proof (nodeKeys_NoDup g Hd) as Hnk. destruct Hd as [_ Hnames].
  unfold valueKeysOf. apply NoDup_alt. intros i j k Hi Hj.
  rewrite list_lookup_imap in Hi, Hj. destruct (values g !! i) as [v|] eqn:Hv; [|done].
  destruct (values g !! j) as [w|] eqn:Hw; [|done]. injection Hi as Hi. injection Hj as Hj. subst k.
  destruct (valueKey_cases g i v Hnd) as [(ni & ri & n & p & _ & Hn & Hr & <- & Hk)|[Hu Hk]];
    destruct (valueKey_cases g j w Hnd) as [(nj & rj & m & q & _ & Hm & Hq & <- & Hk')|[Hu' Hk']];
    rewrite Hk, Hk' in Hj.
  - apply (to_string_split_last "#" _ _ ("def:" +:+ nodeContentKey m) ("def:" +:+ nodeContentKey n))
      in Hj as [[= Hj] Hri]; [|done]. rewrite !str_app_nil_l in Hj.
    assert (ni = nj) as <-.
    { apply (NoDup_lookup (nodeKeysOf g) ni nj (nodeContentKey n) Hnk);
        unfold nodeKeysOf; rewrite list_lookup_fmap, ?Hn, ?Hm; cbn; congruence. }
    assert (rj = ri) as -> by lia. congruence.
  - done.
  - done.
  - injection Hj as Hj. by eapply Hnames.
Qed.

(** ** The canonical form *)
Lemma remapValue_rename σ remap remap' k v v' : (∀ x, remap' !! σ x = remap !! x) →
  rename_value id v' = rename_value σ v → remapValue remap' k v' = remapValue remap k v.
Proof.
  intros Hr Heq. injection Heq as Ht Hn He Hl Hc Hm. rewrite option_fmap_id in Hc. unfold remapValue.
  rewrite Ht, Hn, He, Hl, Hc, Hm. f_equal.
  by destruct (carriedFrom v) as [c|]; cbn.
Qed.

Section canonical.
Context (σ : nat → nat) (g g' : WorkloadGraph) (Hro : Reordered σ g g') (Hwf : WellFormed g)
  (Hd : Distinguishable g).

Lemma canonical_remap x :
  remapOf (stableOrder (valueKeysOf g')) !! σ x = remapOf (stableOrder (valueKeysOf g)) !! x.
Proof.
  apply option_eq. intros k. rewrite !remapOf_order.
  rewrite (reordered_order σ g g') by (try done; by apply valueKeys_NoDup). rewrite list_lookup_fmap.
  destruct (stableOrder (valueKeysOf g) !! k) as [y|]; cbn; [|done].
  split; [intros [= Hy]; f_equal; by apply (ro_inj _ _ _ Hro)|by intros [= ->]].
Qed.

Lemma canonical_values :
  imap (remapValue (remapOf (stableOrder (valueKeysOf g'))))
    (omap (λ i, values g' !! i) (stableOrder (valueKeysOf g'))) =
  imap (remapValue (remapOf (stableOrder (valueKeysOf g))))
    (omap (λ i, values g !! i) (stableOrder (valueKeysOf g))).
Proof.
  pose proof canonical_remap as Hr. apply list_eq. intros k. rewrite !list_lookup_imap.
  rewrite !omap_order_lookup by apply valueKeysOf_length.
  rewrite (reordered_order σ g g'), list_lookup_fmap by (try done; by apply valueKeys_NoDup).
  destruct (stableOrder (valueKeysOf g) !! k) as [i|] eqn:Hi; [|done]. cbn.
  apply stableOrder_lookup in Hi. rewrite valueKeysOf_length in Hi.
  apply lookup_lt_is_Some_2 in Hi as [v Hv].
  destruct (ro_values _ _ _ Hro i v Hv) as (v' & Hv' & Heq). rewrite Hv, Hv'. cbn. f_equal.
  rewrite <- (reordered_order σ g g') by (try done; by apply valueKeys_NoDup).
  by apply (remapValue_rename σ).
Qed.

Lemma canonical_nodes :
  remapNodes (remapOf (stableOrder (valueKeysOf g')))
    (omap (λ i, nodes g' !! i) (stableOrder (nodeKeysOf g'))) =
  remapNodes (remapOf (stableOrder (valueKeysOf g)))
    (omap (λ i, nodes g !! i) (stableOrder (nodeKeysOf g))).
Proof.
  rewrite <- (remapNodes_rename σ _ _ (omap (λ i, nodes g !! i) _) canonical_remap).
  rewrite <- (remapNodes_rename id _ _ (omap (λ i, nodes g' !! i) _) (λ x, eq_refl)).
  f_equal. assert (∀ τ h, StronglySorted (key_le nodeContentKey)
    (rename_node τ <$> omap (λ i, nodes h !! i) (stableOrder (nodeKeysOf h)))) as Hs.
  { intros τ h. eapply StronglySorted_fmap; [|apply omap_order_sorted].
    intros n m. unfold key_le. by rewrite !nodeContentKey_rename. }
  assert (∀ h, omap (λ i, nodes h !! i) (stableOrder (nodeKeysOf h)) ≡ₚ nodes h) as Hp
    by (intros h; apply omap_order_perm, length_fmap).
  apply (sorted_unique nodeContentKey); [|apply Hs..|].
  - rewrite (Hp g'), (ro_nodes _ _ _ Hro), <- list_fmap_compose.
    rewrite (list_fmap_ext _ nodeContentKey) by (intros; apply nodeContentKey_rename).
    by apply nodeKeys_NoDup.
  - rewrite (Hp g'), (Hp g). apply Hro.
Qed.

(** Two insertion orders of the same content finalize to the same graph. *)
Theorem finalize_canonical : snd <$> finalize g' = snd <$> finalize g.
Proof.
  unfold finalize. rewrite canonical_nodes, canonical_values. by destruct (remapNodes _ _).
Qed.
End canonical.

(** ** Finalizing only renumbers *)

(** A source outside the graph is dropped. *)
Definition knownSource (g : WorkloadGraph) (v : WorkloadValue) : WorkloadValue :=
  mkValue (v_id v) (v_type v) (v_name v) (external v) (loopCarried v)
    (carriedFrom v ≫= λ c, if decide (c < length (values g))%nat then Some c else None) (memoryKind v).
Definition knownSources (g : WorkloadGraph) : WorkloadGraph :=
  mkGraph (nodes g) (knownSource g <$> values g).

Record Numbered (g : WorkloadGraph) : Prop := {
  nb_values i v : values g !! i = Some v → v_id v = i;
  nb_nodes i n : nodes g !! i = Some n → n_id n = i;
  nb_sources v c : v ∈ values g → carriedFrom v = Some c → (c < length (values g))%nat;
}.

Lemma remapNode_total remap k n :
  (∀ p, p ∈ (inputs n ++ outputs n)%list → (p_value p < length remap)%nat) →
  remapNode remap k n = Some (mkNode k (opName n)
    (rename_port (λ x, default x (remap !! x)) <$> inputs n)
    (rename_port (λ x, default x (remap !! x)) <$> outputs n) (attributes n) (sourceOrdinal n)
    (executionMultiplicity n) (simultaneousMultiplicity n)).
Proof.
  intros Hp. assert (∀ ps, (∀ p, p ∈ ps → (p_value p < length remap)%nat) →
    mapM (remapPort remap) ps = Some (rename_port (λ x, default x (remap !! x)) <$> ps)) as Hps.
  { intros ps Hps. apply mapM_Some, Forall2_fmap_r, Forall_Forall2_diag, Forall_forall.
    intros p [x Hx]%Hps%lookup_lt_is_Some_2. unfold remapPort, rename_port. cbn. by rewrite Hx. }
  unfold remapNode. rewrite !Hps; [done|..]; intros p Hin; apply Hp, elem_of_app; auto.
Qed.

Section renumber.
Context (g : WorkloadGraph) (Hwf : WellFormed g).
Let order := stableOrder (valueKeysOf g).
Let remap := remapOf order.
Let σ (x : nat) : nat := default x (remap !! x).

Lemma remap_length : length remap = length (values g).
Proof. unfold remap, order. by rewrite remapOf_length, stableOrder_length, valueKeysOf_length. Qed.

Lemma remap_order x k : remap !! x = Some k ↔ order !! k = Some x.
Proof. apply remapOf_order. Qed.
Lemma order_length : length order = length (values g).
Proof. unfold order. by rewrite stableOrder_length, valueKeysOf_length. Qed.

Lemma renumber_order k i : order !! k = Some i → σ i = k.
Proof. intros Hk. apply remap_order in Hk. unfold σ. by rewrite Hk. Qed.

Lemma renumber_position i : (i < length (values g))%nat → order !! σ i = Some i.
Proof.
  intros Hi. rewrite <- remap_length in Hi. apply lookup_lt_is_Some_2 in Hi as [k Hk].
  unfold σ. rewrite Hk. by apply remap_order.
Qed.

Lemma renumber_foreign i : (length (values g) ≤ i)%nat → σ i = i.
Proof. intros Hi. unfold σ. by rewrite lookup_ge_None_2 by (rewrite remap_length; lia). Qed.

Lemma renumber_range i : (σ i < length (values g))%nat ↔ (i < length (values g))%nat.
Proof.
  destruct (decide (i < length (values g))%nat) as [Hi|Hi].
  - pose proof (renumber_position i Hi) as Hk%lookup_lt_Some. rewrite order_length in Hk. tauto.
  - rewrite renumber_foreign by lia. done.
Qed.

Lemma renumber_inj : Inj (=) (=) σ.
Proof.
  intros i j Heq. destruct (decide (i < length (values g))%nat) as [Hi|Hi].
  - assert (j < length (values g))%nat as Hj by (rewrite <- renumber_range, <- Heq; by apply renumber_range).
    apply renumber_position in Hi, Hj. congruence.
  - destruct (decide (j < length (values g))%nat) as [Hj|Hj].
    + rewrite <- renumber_range, <- Heq, renumber_range in Hj. lia.
    + by rewrite !renumber_foreign in Heq by lia.
Qed.

Definition newValuesOf : list WorkloadValue := imap (remapValue remap) (omap (λ i, values g !! i) order).
Definition sortedNodes : list WorkloadNode := omap (λ i, nodes g !! i) (stableOrder (nodeKeysOf g)).
Definition newNodesOf : list WorkloadNode :=
  imap (λ k n, mkNode k (opName n) (rename_port σ <$> inputs n) (rename_port σ <$> outputs n)
    (attributes n) (sourceOrdinal n) (executionMultiplicity n) (simultaneousMultiplicity n)) sortedNodes.
Let g' := mkGraph newNodesOf newValuesOf.

Lemma sortedNodes_perm : sortedNodes ≡ₚ nodes g.
Proof. apply omap_order_perm, length_fmap. Qed.

Lemma finalize_eq : finalize g = Some (remap, g').
Proof.
  unfold finalize. fold order remap sortedNodes newValuesOf.
  assert (remapNodes remap sortedNodes = Some newNodesOf) as ->; [|done].
  unfold remapNodes, newNodesOf. apply mapM_Some, Forall2_same_length_lookup.
  rewrite !length_imap. split; [done|]. intros k e n.
  rewrite !list_lookup_imap. destruct (sortedNodes !! k) as [m|] eqn:Hm; [|done].
  intros [= <-] [= <-]. apply remapNode_total. intros p Hp. rewrite remap_length.
  apply (wf_ports _ Hwf m p); [|done]. rewrite <- sortedNodes_perm. by eapply list_elem_of_lookup_2.
Qed.

Lemma newValuesOf_lookup k : newValuesOf !! k =
  remapValue remap k <$> (order !! k ≫= λ i, values g !! i).
Proof.
  unfold newValuesOf. rewrite list_lookup_imap. unfold order at 1.
  by rewrite omap_order_lookup by apply valueKeysOf_length.
Qed.

Lemma newValuesOf_length : length newValuesOf = length (values g).
Proof.
  unfold newValuesOf. rewrite length_imap. unfold order.
  by rewrite (Permutation_length (omap_order_perm (values g) _ (valueKeysOf_length g))).
Qed.

Lemma finalize_reorders : Reordered σ (knownSources g) g'.
Proof.
  constructor; cbn.
  - apply renumber_inj.
  - by rewrite newValuesOf_length, length_fmap.
  - intros i. rewrite length_fmap. apply renumber_range.
  - intros i w Hw. rewrite list_lookup_fmap in Hw. destruct (values g !! i) as [v|] eqn:Hv; [|done].
    injection Hw as <-. apply lookup_lt_Some in Hv as Hi. rewrite newValuesOf_lookup, renumber_position by done.
    cbn. rewrite Hv. cbn. eexists. split; [done|]. unfold rename_value, knownSource. cbn. f_equal.
    rewrite option_fmap_id. destruct (carriedFrom v) as [c|]; cbn; [|done]. case_decide as Hc; cbn.
    + unfold σ. destruct (remap !! c) eqn:Hr; [done|]. apply lookup_ge_None in Hr. rewrite remap_length in Hr. lia.
    + apply lookup_ge_None. rewrite remap_length. lia.
  - unfold newNodesOf. rewrite <- sortedNodes_perm. rewrite fmap_imap.
    rewrite <- (imap_const (rename_node σ)).
    assert (∀ f h : nat → WorkloadNode → WorkloadNode, (∀ k n, f k n = h k n) →
      imap f sortedNodes = imap h sortedNodes) as Hext by (intros f h Hf; by apply imap_ext).
    erewrite Hext; [done|]. intros k n. unfold rename_node. cbn.
    rewrite <- !list_fmap_compose. done.
Qed.

Lemma finalize_numbered : Numbered g'.
Proof.
  constructor; cbn.
  - intros i v. rewrite newValuesOf_lookup. destruct (order !! i ≫= _); [|done]. by intros [= <-].
  - intros i n. unfold newNodesOf. rewrite list_lookup_imap. destruct (sortedNodes !! i); [|done].
    by intros [= <-].
  - intros v c Hv. apply list_elem_of_lookup in Hv as [k Hv]. rewrite newValuesOf_lookup in Hv.
    destruct (order !! k ≫= _) as [w|]; [|done]. injection Hv as <-. cbn. rewrite newValuesOf_length.
    destruct (carriedFrom w) as [d|]; [|done]. cbn. intros Hr%remap_order%lookup_lt_Some.
    by rewrite order_length in Hr.
Qed.

Lemma knownSources_wf : WellFormed (knownSources g).
Proof.
  destruct Hwf as [Hp Hd]. constructor; [|done]. cbn. intros n p. rewrite length_fmap. apply Hp.
Qed.

Lemma knownSources_keys : valueKeysOf (knownSources g) = valueKeysOf g.
Proof. unfold valueKeysOf. cbn. rewrite imap_fmap. by apply imap_ext. Qed.

Lemma finalize_sorted_keys :
  stableOrder (valueKeysOf g') = seq 0 (length (values g)) ∧
  stableOrder (nodeKeysOf g') = seq 0 (length (nodes g')).
Proof.
  split.
  - rewrite stableOrder_sorted_keys; [rewrite valueKeysOf_length; cbn [values g']; by rewrite newValuesOf_length|].
    assert (valueKeysOf g' = omap (λ i, valueKeysOf g !! i) order) as ->.
    { apply list_eq. intros k. unfold order. rewrite omap_order_lookup by done. fold order.
      destruct (order !! k) as [i|] eqn:Hk.
      - cbn [mbind option_bind]. rewrite <- (renumber_order k i Hk).
        rewrite (reordered_keys σ (knownSources g) g').
        + by rewrite knownSources_keys.
        + apply finalize_reorders.
        + apply knownSources_wf.
        + cbn. rewrite length_fmap, <- renumber_range, (renumber_order k i Hk).
          apply lookup_lt_Some in Hk. by rewrite order_length in Hk.
      - change (valueKeysOf g' !! k = None). apply lookup_ge_None in Hk. apply lookup_ge_None.
        rewrite order_length in Hk. rewrite valueKeysOf_length; cbn [values g']; by rewrite newValuesOf_length. }
    apply omap_keys_sorted.
  - rewrite stableOrder_sorted_keys; [by unfold nodeKeysOf; rewrite length_fmap|].
    assert (nodeKeysOf g' = nodeContentKey <$> sortedNodes) as ->.
    { unfold nodeKeysOf. cbn. unfold newNodesOf. rewrite fmap_imap, <- imap_const. apply imap_ext.
      intros k n _. cbn. rewrite <- (nodeContentKey_rename σ n). done. }
    eapply StronglySorted_fmap; [|apply omap_order_sorted]. done.
Qed.
End renumber.

Lemma remapOf_seq n : remapOf (seq 0 n) = seq 0 n.
Proof.
  apply list_eq. intros i. apply option_eq. intros k.
  rewrite remapOf_lookup; [|apply NoDup_seq|by rewrite length_seq]. rewrite !lookup_seq. lia.
Qed.

Lemma seq_default n x : default x (seq 0 n !! x) = x.
Proof.
  destruct (seq 0 n !! x) as [y|] eqn:Hy; [|done]. apply lookup_seq in Hy. cbn. lia.
Qed.

Lemma rename_ports_same (σ : nat → nat) (ps : list WorkloadPort) : (∀ x, σ x = x) → rename_port σ <$> ps = ps.
Proof.
  intros Hσ. rewrite <- (list_fmap_id ps) at 2. apply list_fmap_ext.
  intros _ [] _. unfold rename_port. cbn. by rewrite Hσ.
Qed.

(** A numbered graph whose keys are in order is its own finalization. *)
Lemma finalize_fixed g : WellFormed g → Numbered g →
  stableOrder (valueKeysOf g) = seq 0 (length (values g)) →
  stableOrder (nodeKeysOf g) = seq 0 (length (nodes g)) →
  finalize g = Some (seq 0 (length (values g)), g).
Proof.
  intros Hwf [Hv Hn Hs] Ho Hk. rewrite finalize_eq by done. rewrite Ho, remapOf_seq. f_equal. f_equal.
  destruct g as [ns vs]. cbn [nodes values] in *. f_equal.
  - unfold newNodesOf, sortedNodes. cbv zeta. rewrite Ho, Hk, remapOf_seq. cbn. rewrite omap_seq_lookup.
    apply list_eq. intros i. rewrite list_lookup_imap. destruct (ns !! i) as [n|] eqn:Hi; [|done].
    apply Hn in Hi. destruct n; cbn in *. subst.
    by rewrite !rename_ports_same by apply seq_default.
  - unfold newValuesOf. cbv zeta. rewrite Ho, remapOf_seq. cbn. rewrite omap_seq_lookup.
    apply list_eq. intros i. rewrite list_lookup_imap. destruct (vs !! i) as [v|] eqn:Hi; [|done].
    pose proof (Hv i v Hi) as Hid. apply list_elem_of_lookup_2 in Hi. specialize (Hs v).
    destruct v as [vid ? ? ? ? c ?]. cbn in *. unfold remapValue. cbn. subst. f_equal. f_equal.
    destruct c as [c|]; [|done]. cbn. apply lookup_seq. specialize (Hs c Hi eq_refl). lia.
Qed.

Lemma finalize_ok g : WellFormed g →
  ∃ remap g', finalize g = Some (remap, g') ∧
    Reordered (λ x, default x (remap !! x)) (knownSources g) g' ∧
    WellFormed g' ∧ Numbered g' ∧ finalize g' = Some (seq 0 (length (values g)), g').
Proof.
  intros Hwf. eexists _, _. split; [by apply finalize_eq|].
  pose proof (finalize_reorders g) as Hro. pose proof (knownSources_wf g Hwf) as Hwk.
  pose proof (finalize_numbered g) as Hnb. pose proof (reordered_wf _ _ _ Hro Hwk) as Hwf'.
  destruct (finalize_sorted_keys g Hwf) as [Hv Hn].
  split_and!; [done..|]. rewrite finalize_fixed; try done; cbn [values]; by rewrite newValuesOf_length.
Qed.

(** Finalizing a well-formed graph succeeds and only renumbers it: the result is
    the graph with its values renamed by the reported map and its nodes permuted,
    well formed again, with every id the position it is found at; and finalizing
    that again changes nothing. *)
Theorem finalize_renumbers g : WellFormed g →
  ∃ remap g', finalize g = Some (remap, g') ∧
    Reordered (λ x, default x (remap !! x)) (knownSources g) g' ∧
    WellFormed g' ∧ Numbered g' ∧ finalize g' = Some (seq 0 (length (values g)), g').
Proof. apply finalize_ok. Qed.
End finalize_proofs.

(** ** Loops

    What the code reads of a structural operation: its name, the constant index
    each operand carries where there is one, and its integer [stages] attribute. *)
Record StructuralOp := mkStructural {
  so_name : string;
  so_operands : list (option Z);
  so_stages : option Z;
}.

Definition loopTripCount (loop : StructuralOp) : option Z :=
  match so_operands loop with
  | lower :: upper :: step :: _ =>
    match lower, upper, step with
    | Some lower, Some upper, Some step =>
      if bool_decide (step <= 0) then None
      else if bool_decide (upper <= lower) then Some 0
      else
        let span := u64 (u64 upper - u64 lower) in
        let stride := u64 step in
        if bool_decide (span > u64_max - (stride - 1)) then None
        else Some ((span + stride - 1) `div` stride)
    | _, _, _ => None
    end
  | _ => None
  end.

Definition pipelineStages (pipeline : StructuralOp) : option Z :=
  match so_stages pipeline with
  | Some n => if bool_decide (n > 0) then Some n else None
  | None => None
  end.

(** The factor an enclosing operation contributes; [None] where it contributes
    none ([continue]), [Some None] where the factor is unknown. *)
Definition executionFactor (op : StructuralOp) : option (option Z) :=
  if bool_decide (so_name op = "micro.for") || bool_decide (so_name op = "micro.spatial_for")
  then Some (loopTripCount op)
  else if bool_decide (so_name op = "micro.pipeline") then Some (pipelineStages op)
  else None.

Definition simultaneousFactor (op : StructuralOp) : option (option Z) :=
  if bool_decide (so_name op = "micro.spatial_for") then Some (loopTripCount op)
  else if bool_decide (so_name op = "micro.pipeline") then Some (pipelineStages op)
  else None.

Fixpoint multiply (factor : StructuralOp → option (option Z)) (product : Z) (parents : list StructuralOp) :
    option Z :=
  match parents with
  | [] => Some product
  | op :: parents =>
    match factor op with
    | None => multiply factor product parents
    | Some None => None
    | Some (Some f) =>
      match checked_mul_u64 product f with
      | None => None
      | Some scaled => multiply factor scaled parents
      end
    end
  end.

(** The operations between the node and the kernel, innermost first. *)
Definition executionMultiplicityOf (parents : list StructuralOp) : option Z := multiply executionFactor 1 parents.
Definition simultaneousMultiplicityOf (parents : list StructuralOp) : option Z := multiply simultaneousFactor 1 parents.

(** A trip count is the number of iterations: [lower + k * step] is below the
    upper bound exactly for the [k] below the count.  With constant bounds and a
    positive step it is missing only where the span rounded up to the step leaves
    64 bits. *)
Theorem loopTripCount_exact name lower upper step rest stages :
  in_i64 lower → in_i64 upper → in_i64 step → 0 < step →
  match loopTripCount (mkStructural name (Some lower :: Some upper :: Some step :: rest) stages) with
  | Some n => in_u64 n ∧ ∀ k, 0 <= k → (k < n ↔ lower + k * step < upper)
  | None => 2 ^ 64 <= upper - lower + (step - 1)
  end.
Proof.
  intros Hl Hu Hs Hpos. unfold in_i64, in_u64 in *. unfold loopTripCount. cbn [so_operands].
  rewrite bool_decide_false by lia. case_bool_decide as Hle.
  - split; [lia|]. intros k Hk. nia.
  - assert (u64 (u64 upper - u64 lower) = upper - lower) as ->.
    { unfold u64. rewrite <- Zminus_mod. apply Z.mod_small. lia. }
    assert (u64 step = step) as -> by (apply u64_id; unfold in_u64; lia).
    unfold u64_max. case_bool_decide as Hb; [lia|].
    set (span := upper - lower) in *.
    assert (span + step - 1 = step * ((span + step - 1) `div` step) + (span + step - 1) `mod` step)
      as Hdm by (apply Z.div_mod; lia).
    pose proof (Z.mod_pos_bound (span + step - 1) step Hpos) as Hm.
    set (n := (span + step - 1) `div` step) in *.
    assert (0 <= n) by (apply Z.div_pos; lia).
    assert (n <= span + step - 1) by (apply Z.div_le_upper_bound; nia).
    split; [lia|]. intros k Hk. split; intros Hlt.
    + pose proof (Z.mul_le_mono_nonneg_r k (n - 1) step ltac:(lia) ltac:(lia)). lia.
    + destruct (Z.lt_ge_cases k n) as [?|Hge]; [done|].
      pose proof (Z.mul_le_mono_nonneg_r n k step ltac:(lia) Hge). lia.
Qed.

Lemma loopTripCount_exact_witness :
  let count := loopTripCount (mkStructural "micro.for" [Some 3; Some 10; Some 4] None) in
  count = Some 2 ∧
  match count with
  | Some n => in_u64 n ∧ ∀ k, 0 <= k → (k < n ↔ 3 + k * 4 < 10)
  | None => 2 ^ 64 <= 10 - 3 + (4 - 1)
  end.
Proof.
  split; [reflexivity|].
  apply (loopTripCount_exact "micro.for" 3 10 4 [] None); unfold in_i64; lia.
Defined.

(** ** Multiplicities *)
Definition product (factor : StructuralOp → option (option Z)) (parents : list StructuralOp) : Z :=
  foldr (λ op p, match factor op with Some (Some f) => f * p | _ => p end) 1 parents.

Lemma multiply_spec factor parents p n : multiply factor p parents = Some n →
  n = p * product factor parents ∧ Forall (λ op, factor op ≠ Some None) parents.
Proof.
  revert p. induction parents as [|op parents IH]; intros p; cbn -[Z.mul].
  - intros [= <-]. split; [lia|constructor].
  - destruct (factor op) as [[f|]|] eqn:Hf; [|done|].
    + destruct (checked_mul_u64 p f) as [q|] eqn:Hq; [|done]. apply checked_mul_u64_spec in Hq as [-> _].
      intros [Hn ?]%IH. unfold product in *. split; [nia|]. constructor; [congruence|done].
    + intros [-> ?]%IH. split; [done|]. constructor; [congruence|done].
Qed.

(** Every resident occurrence is an occurrence: the execution multiplicity is the
    simultaneous one times the trips of the temporal loops. *)
Theorem multiplicities_agree parents n m :
  executionMultiplicityOf parents = Some n → simultaneousMultiplicityOf parents = Some m →
  n = m * product (λ op, if bool_decide (so_name op = "micro.for") then Some (loopTripCount op) else None) parents.
Proof.
  intros [-> Hall]%multiply_spec [-> _]%multiply_spec. rewrite !Z.mul_1_l.
  unfold product in *. induction Hall as [|op parents Hop Hall IH]; [done|]. cbn -[Z.mul].
  unfold executionFactor, simultaneousFactor in *. destruct (bool_decide (so_name op = "micro.for")) eqn:Hf.
  - apply bool_decide_eq_true in Hf. rewrite Hf in *.
    change (bool_decide ("micro.for" = "micro.spatial_for")) with false.
    change (bool_decide ("micro.for" = "micro.pipeline")) with false. cbn -[Z.mul loopTripCount] in *.
    destruct (loopTripCount op) as [t|]; [|done]. rewrite IH. lia.
  - cbn -[Z.mul loopTripCount] in *. destruct (bool_decide (so_name op = "micro.spatial_for")).
    + destruct (loopTripCount op) as [t|]; [|done]. rewrite IH. lia.
    + destruct (bool_decide (so_name op = "micro.pipeline")); [|done].
      destruct (pipelineStages op) as [t|]; [|done]. rewrite IH. lia.
Qed.

(** ** Extraction from a kernel

    [extractWorkloadGraph] reads MLIR operations and SSA values; [MLIROps] lists
    what it asks of them.  [parents] is the chain of [getParentOp], innermost
    first; [walk] the operations in the order [Operation::walk] visits them;
    [blockArgument] gives the operation that holds the argument's block, the
    argument's number and the number of arguments of the block. *)
Class MLIROps `{MLIRText} := {
  operation : Type;
  ssa : Type;
  operation_eq_dec :: EqDecision operation;
  ssa_eq_dec :: EqDecision ssa;
  ssa_countable :: Countable ssa;
  getName : operation → string;
  getOperands : operation → list ssa;
  getResults : operation → list ssa;
  getDefiningOp : ssa → option operation;
  getResultNumber : ssa → nat;
  getType : ssa → mlir_type;
  isIndexType : mlir_type → bool;
  getRank : shaped_type → Z;
  integerAttr : operation → string → option Z;
  shapeAttr : operation → option (list Z);
  memoriesAttr : operation → option (list (option string));
  getAttrDictionary : operation → dictionary;
  parents : operation → list operation;
  walk : operation → list operation;
  blockArgument : ssa → option (option operation * nat * nat);
  ownerIsEntry : operation → ssa → bool;
  terminatorOperands : operation → option (list ssa);
  affine_expr : Type;
  affineDim : nat → affine_expr;
  affineConstant : Z → affine_expr;
  affineAdd : affine_expr → affine_expr → affine_expr;
  affineMapGet : nat → list affine_expr → affine_map;
}.

Section extraction.
Context `{MLIROps}.

Definition isAsyncToken (type : mlir_type) : bool :=
  bool_decide (typeString (Some type) = "!micro.async_token").

Definition nameFor (value : ssa) : string :=
  match blockArgument value with
  | Some (_, number, _) => "arg" +:+ to_string (Z.of_nat number)
  | None =>
    match getDefiningOp value with
    | None => "value"
    | Some op => getName op +:+ ".result" +:+ to_string (Z.of_nat (getResultNumber value))
    end
  end.

Definition constantIndex (value : ssa) : option Z :=
  match getDefiningOp value with
  | None => None
  | Some op => if decide (getName op = "arith.constant") then integerAttr op "value" else None
  end.

Definition isStructuralLoopName (name : string) : bool :=
  bool_decide (name = "micro.for") || bool_decide (name = "micro.spatial_for") ||
  bool_decide (name = "micro.pipeline").

(** The operations between a node and the kernel, as the loops above read them. *)
Definition structural (op : operation) : StructuralOp :=
  mkStructural (getName op) (constantIndex <$> getOperands op) (integerAttr op "stages").
Fixpoint until (kernel : operation) (ops : list operation) : list operation :=
  match ops with
  | [] => []
  | op :: ops => if decide (op = kernel) then [] else op :: until kernel ops
  end.
Definition enclosing (kernel op : operation) : list StructuralOp := structural <$> until kernel (parents op).

Definition carriedSourceOf (value : ssa) : option ssa :=
  match blockArgument value with
  | Some (loop, index, argumentCount) =>
    match loop with
    | None => None
    | Some loop =>
      if negb (isStructuralLoopName (getName loop)) then None
      else if bool_decide (index = O) || bool_decide (argumentCount <= index)%nat then None
      else
        let iterCount := (argumentCount - 1)%nat in
        if bool_decide (length (getOperands loop) < iterCount)%nat then None
        else getOperands loop !! (length (getOperands loop) - iterCount + (index - 1))%nat
    end
  | None =>
    match getDefiningOp value with
    | None => None
    | Some loop =>
      if negb (isStructuralLoopName (getName loop)) then None
      else terminatorOperands loop ≫= λ ops, ops !! getResultNumber value
    end
  end.

(** [accessMapFor] follows the chain of views from [current]: [offsets] is unset
    until the first view states the rank.  The outer [None] is a chain longer than
    the fuel.  The sum of the offsets is a signed 64-bit sum in the code. *)
Fixpoint accessLoop (fuel : nat) (current : ssa) (offsets : option (list Z)) : option (option affine_map) :=
  match fuel with
  | O => None
  | S fuel =>
    let finished :=
      match offsets with
      | None => None
      | Some offsets =>
        match as_shaped (getType current) with
        | None => None
        | Some source =>
          if decide (getRank source ≠ Z.of_nat (length offsets)) then None
          else Some (affineMapGet (length offsets)
            (imap (λ i offset,
               if decide (offset = 0) then affineDim i
               else affineAdd (affineDim i) (affineConstant offset)) offsets))
        end
      end in
    match getDefiningOp current with
    | None => Some finished
    | Some op =>
      if negb (isTransparentWorkloadOp (getName op)) then Some finished
      else if decide (getName op ≠ "micro.tile_view") then Some None
      else
        match shapeAttr op, getOperands op with
        | Some shape, source :: offsetOperands =>
          let ranked := default (replicate (length shape) 0) offsets in
          if decide (length ranked ≠ length shape) then Some None
          else if decide (length offsetOperands ≠ O ∧ length offsetOperands ≠ length ranked) then Some None
          else
            match mapM constantIndex offsetOperands with
            | None => Some None
            | Some added =>
              accessLoop fuel source
                (Some (imap (λ i o, o + default 0 (added !! i)) ranked))
            end
        | _, _ => Some None
        end
    end
  end.

Definition accessMapFor (fuel : nat) (operand : ssa) : option (option affine_map) :=
  match getDefiningOp operand with
  | None => Some None
  | Some defining =>
    if negb (isTransparentWorkloadOp (getName defining)) then Some None
    else accessLoop fuel operand None
  end.

Record Extraction := mkExtraction {
  ex_graph : WorkloadGraph;
  valueIds : gmap ssa nat;
  pendingValues : gmap nat ssa;
  ordinalOps : gmap nat operation;
  carriedResults : list (nat * ssa);
  ordinal : nat;
}.
Definition startExtraction : Extraction := mkExtraction emptyGraph ∅ ∅ ∅ [] O.

Definition boundaryMemory (kernel : operation) (value : ssa) : option string :=
  match blockArgument value with
  | None => None
  | Some (_, number, _) =>
    if negb (ownerIsEntry kernel value) then None
    else memoriesAttr kernel ≫= λ memories, mjoin (memories !! number)
  end.

(** Registers a new value for [value] under its own name. *)
Definition registerValue (st : Extraction) (value : ssa) (ext carried : bool) (from : option nat)
    (memory : option string) : nat * Extraction :=
  let (id, graph) := addValue (ex_graph st)
    (mkValue O (Some (getType value)) (nameFor value) ext carried from memory) in
  (id, mkExtraction graph (<[value := id]> (valueIds st)) (<[id := value]> (pendingValues st))
         (ordinalOps st) (carriedResults st) (ordinal st)).

#[local] Arguments registerValue : simpl never.

Definition aliasValue (st : Extraction) (value : ssa) (id : nat) : Extraction :=
  mkExtraction (ex_graph st) (<[value := id]> (valueIds st)) (pendingValues st) (ordinalOps st)
    (carriedResults st) (ordinal st).

(** The view a value is seen through. *)
Definition viewedValue (value : ssa) : option ssa :=
  match getDefiningOp value with
  | None => None
  | Some op => if isTransparentWorkloadOp (getName op) then head (getOperands op) else None
  end.

(** [None]: deeper than the fuel. *)
Fixpoint resolve (fuel : nat) (kernel : operation) (value : ssa) (st : Extraction) :
    option (nat * Extraction) :=
  match fuel with
  | O => None
  | S fuel =>
    match valueIds st !! value with
    | Some id => Some (id, st)
    | None =>
      match viewedValue value with
      | Some viewed =>
        '(source, st) ← resolve fuel kernel viewed st;
        Some (source, aliasValue st value source)
      | None =>
        match carriedSourceOf value with
        | Some source =>
          '(from, st) ← resolve fuel kernel source st;
          Some (registerValue st value true true (Some from) (boundaryMemory kernel value))
        | None => Some (registerValue st value true false None (boundaryMemory kernel value))
        end
      end
    end
  end.

(** A loop over a list that threads the state and collects what it pushes. *)
Fixpoint collect {A B} (body : A → Extraction → option (option B * Extraction)) (xs : list A)
    (st : Extraction) : option (list B * Extraction) :=
  match xs with
  | [] => Some ([], st)
  | x :: xs =>
    '(y, st) ← body x st;
    '(ys, st) ← collect body xs st;
    Some (match y with Some y => y :: ys | None => ys end, st)
  end.

Definition inputPort (fuel : nat) (kernel : operation) (operand : ssa) (st : Extraction) :
    option (option WorkloadPort * Extraction) :=
  if isAsyncToken (getType operand) || isIndexType (getType operand) then Some (None, st)
  else
    '(id, st) ← resolve fuel kernel operand st;
    access ← accessMapFor fuel operand;
    Some (Some (mkPort id (Some (getType operand)) access), st).

Definition outputPort (result : ssa) (st : Extraction) : option (option WorkloadPort * Extraction) :=
  if isAsyncToken (getType result) then Some (None, st)
  else
    let (id, st) := registerValue st result false false None None in
    Some (Some (mkPort id (Some (getType result)) None), st).

Definition extractNode (fuel : nat) (kernel op : operation) (st : Extraction) : option Extraction :=
  let position := ordinal st in
  let st := mkExtraction (ex_graph st) (valueIds st) (pendingValues st)
    (<[position := op]> (ordinalOps st)) (carriedResults st) (S position) in
  '(ins, st) ← collect (inputPort fuel kernel) (getOperands op) st;
  '(outs, st) ← collect outputPort (getResults op) st;
  Some (mkExtraction
    (addNode (ex_graph st)
       (mkNode O (getName op) ins outs (Some (getAttrDictionary op)) position
          (executionMultiplicityOf (enclosing kernel op)) (simultaneousMultiplicityOf (enclosing kernel op))))
    (valueIds st) (pendingValues st) (ordinalOps st) (carriedResults st) (ordinal st)).

Definition otherResult (op : operation) (result : ssa) (st : Extraction) : option Extraction :=
  if isAsyncToken (getType result) || bool_decide (is_Some (valueIds st !! result)) then Some st
  else
    let (id, st) := registerValue st result true false None None in
    if isStructuralLoopName (getName op) then
      match carriedSourceOf result with
      | Some source =>
        Some (mkExtraction (ex_graph st) (valueIds st) (pendingValues st) (ordinalOps st)
                (carriedResults st ++ [(id, source)]) (ordinal st))
      | None => Some st
      end
    else Some st.

(** A loop over a list that only threads the state. *)
Fixpoint thread {A} (body : A → Extraction → option Extraction) (xs : list A) (st : Extraction) :
    option Extraction :=
  match xs with
  | [] => Some st
  | x :: xs => st ← body x st; thread body xs st
  end.

(** The callback of the walk. *)
Definition visitOp (fuel : nat) (kernel op : operation) (st : Extraction) : option Extraction :=
  if isTransparentWorkloadOp (getName op) then
    match getResults op, getOperands op with
    | _ :: _, operand :: _ =>
      '(source, st) ← resolve fuel kernel operand st;
      Some (foldl (λ st result, aliasValue st result source) st (getResults op))
    | _, _ => Some st
    end
  else if isWorkloadNodeOp (getName op) then extractNode fuel kernel op st
  else thread (otherResult op) (getResults op) st.

Definition markCarried (fuel : nat) (kernel : operation) (entry : nat * ssa) (st : Extraction) :
    option Extraction :=
  '(from, st) ← resolve fuel kernel entry.2 st;
  Some (mkExtraction (markLoopCarried (ex_graph st) entry.1 (Some from)) (valueIds st) (pendingValues st)
          (ordinalOps st) (carriedResults st) (ordinal st)).

Record WorkloadGraphBinding := mkBinding { nodeOps : gmap nat operation; bound_values : gmap nat ssa }.

Definition bindValues (remap : list nat) (pending : gmap nat ssa) : gmap nat ssa :=
  foldr (λ e m, <[default O (remap !! e.1) := e.2]> m) ∅ (map_to_list pending).
Definition bindNodes (ops : gmap nat operation) (ns : list WorkloadNode) : gmap nat operation :=
  foldl (λ m n, match ops !! sourceOrdinal n with Some op => <[n_id n := op]> m | None => m end) ∅ ns.

(** The state after the walk and the loop over the carried results. *)
Definition extractState (fuel : nat) (kernel : operation) : option Extraction :=
  st ← thread (visitOp fuel kernel) (walk kernel) startExtraction;
  thread (markCarried fuel kernel) (carriedResults st) st.

Definition extractWorkloadGraph (fuel : nat) (kernel : operation) :
    option (result unit (WorkloadGraph * WorkloadGraphBinding)) :=
  if decide (getName kernel ≠ "micro.kernel") then Some (Err tt)
  else
    st ← extractState fuel kernel;
    '(remap, graph) ← finalize (ex_graph st);
    Some (Ok (graph, mkBinding (bindNodes (ordinalOps st) (nodes graph))
                       (bindValues remap (pendingValues st)))).

(** *** What an extraction keeps *)
Definition count (st : Extraction) : nat := length (values (ex_graph st)).

Record Ids (st : Extraction) : Prop := {
  ids_known v i : valueIds st !! v = Some i → (i < count st)%nat;
  ids_pending i v : pendingValues st !! i = Some v → (i < count st)%nat;
  ids_sources v c : v ∈ values (ex_graph st) → carriedFrom v = Some c → (c < count st)%nat;
}.

(** Only values were added. *)
Record Grows (st st' : Extraction) : Prop := {
  gr_nodes : nodes (ex_graph st') = nodes (ex_graph st);
  gr_ops : ordinalOps st' = ordinalOps st;
  gr_ordinal : ordinal st' = ordinal st;
  gr_count : (count st ≤ count st')%nat;
}.
#[local] Instance Grows_preorder : PreOrder Grows.
Proof.
  split; [by constructor|]. intros a b c [Ha1 Ha2 Ha3 Ha4] [Hb1 Hb2 Hb3 Hb4]. constructor; [congruence..|lia].
Qed.

Lemma registerValue_ok st value ext carried from memory i st' : Ids st →
  (∀ c, from = Some c → (c < count st)%nat) →
  registerValue st value ext carried from memory = (i, st') →
  Ids st' ∧ Grows st st' ∧ i = count st ∧ count st' = S (count st).
Proof.
  intros [Hk Hp Hs] Hf [= <- <-].
  assert (count (mkExtraction (addValue (ex_graph st) (mkValue O (Some (getType value)) (nameFor value)
    ext carried from memory)).2 ∅ ∅ ∅ [] O) = S (count st)) as Hc
    by (unfold count; cbn; rewrite length_app; cbn; lia).
  unfold count in *. cbn in Hc. split_and!; [|constructor; cbn; [done..|unfold count; cbn; lia]|done|done].
  constructor; unfold count; cbn; rewrite Hc.
  - intros v i. destruct (decide (v = value)) as [->|Hne].
    + rewrite lookup_insert_eq. intros [= <-]. lia.
    + rewrite lookup_insert_ne by done. intros Hi%Hk. lia.
  - intros i v. destruct (decide (i = length (values (ex_graph st)))) as [->|Hne]; [lia|].
    rewrite lookup_insert_ne by done. intros Hi%Hp. lia.
  - intros v c [Hv|Hv]%elem_of_app; [intros Hc'; specialize (Hs v c Hv Hc'); lia|].
    apply list_elem_of_singleton in Hv as ->. cbn. intros Hc'%Hf. lia.
Qed.

Lemma aliasValue_ok st value i : Ids st → (i < count st)%nat →
  Ids (aliasValue st value i) ∧ Grows st (aliasValue st value i).
Proof.
  intros [Hk Hp Hs] Hi. split; [|by constructor]. constructor; [|done..]. cbn. intros v j.
  destruct (decide (v = value)) as [->|Hne]; [rewrite lookup_insert_eq|rewrite lookup_insert_ne by done].
  - by intros [= <-].
  - apply Hk.
Qed.

Lemma resolve_ok fuel kernel value st i st' : Ids st → resolve fuel kernel value st = Some (i, st') →
  Ids st' ∧ Grows st st' ∧ (i < count st')%nat.
Proof.
  revert value st i st'. induction fuel as [|fuel IH]; intros value st i st' Hid; [done|]. cbn.
  destruct (valueIds st !! value) as [j|] eqn:Hj.
  { intros [= <- <-]. split_and!; [done|done|by eapply ids_known]. }
  destruct (viewedValue value) as [viewed|].
  - destruct (resolve fuel kernel viewed st) as [[j st1]|] eqn:Hr; [|done].
    apply IH in Hr as (Hid1 & Hg1 & Hj1); [|done]. intros [= <- <-].
    destruct (aliasValue_ok st1 value j Hid1 Hj1) as [Hid2 Hg2].
    split_and!; [done|by etrans|done].
  - destruct (carriedSourceOf value) as [source|].
    + destruct (resolve fuel kernel source st) as [[j st1]|] eqn:Hr; [|done].
      apply IH in Hr as (Hid1 & Hg1 & Hj1); [|done]. cbn [mbind option_bind].
      destruct (registerValue st1 _ _ _ _ _) as [k st2] eqn:Heq. intros [= <- <-].
      apply registerValue_ok in Heq as (? & Hg2 & -> & Hc); [|done|by intros c [= <-]].
      split_and!; [done|by etrans|lia].
    + destruct (registerValue st _ _ _ _ _) as [k st2] eqn:Heq. intros [= <- <-].
      apply registerValue_ok in Heq as (? & ? & -> & Hc); [|done..].
      split_and!; [done..|lia].
Qed.

(** *** Ports *)
Definition isData (operand : ssa) : bool := negb (isAsyncToken (getType operand) || isIndexType (getType operand)).
Definition isResult (result : ssa) : bool := negb (isAsyncToken (getType result)).

Lemma inputPort_eq fuel kernel operand st : inputPort fuel kernel operand st =
  if isData operand then
    '(id, st) ← resolve fuel kernel operand st;
    access ← accessMapFor fuel operand;
    Some (Some (mkPort id (Some (getType operand)) access), st)
  else Some (None, st).
Proof. unfold inputPort, isData. by destruct (_ || _). Qed.

Lemma outputPort_eq result st : outputPort result st =
  if isResult result then
    let (id, st) := registerValue st result false false None None in
    Some (Some (mkPort id (Some (getType result)) None), st)
  else Some (None, st).
Proof. unfold outputPort, isResult. by destruct (isAsyncToken _). Qed.

Lemma collect_inputs fuel kernel xs st ps st' : Ids st →
  collect (inputPort fuel kernel) xs st = Some (ps, st') →
  Ids st' ∧ Grows st st' ∧ Forall (λ p, (p_value p < count st')%nat) ps ∧
  p_type <$> ps = (λ x, Some (getType x)) <$> filter (λ x, isData x = true) xs.
Proof.
  revert st ps st'. induction xs as [|x xs IH]; intros st ps st' Hid; cbn [collect].
  { intros [= <- <-]. split_and!; [done|done|constructor|done]. }
  rewrite filter_cons, inputPort_eq.
  destruct (decide (isData x = true)) as [Hx|Hx%not_true_is_false]; rewrite Hx; cbn [mbind option_bind]; swap 1 2.
  - destruct (collect _ xs st) as [[qs st1]|] eqn:Hc; [|done]. intros [= <- <-]. by apply IH.
  - destruct (resolve fuel kernel x st) as [[i st1]|] eqn:Hr; [|done]. cbn [mbind option_bind].
    destruct (accessMapFor fuel x); [|done]. cbn [mbind option_bind].
    apply resolve_ok in Hr as (Hid1 & Hg1 & Hi); [|done].
    destruct (collect _ xs st1) as [[qs st2]|] eqn:Hc; [|done]. intros [= <- <-].
    apply IH in Hc as (Hid2 & Hg2 & Hall & Hty); [|done].
    split_and!; [done|by etrans| |cbn; by rewrite Hty]. constructor; [|done]. cbn.
    pose proof (gr_count _ _ Hg2). lia.
Qed.

Lemma collect_outputs xs st ps st' : Ids st → collect outputPort xs st = Some (ps, st') →
  Ids st' ∧ Grows st st' ∧ p_value <$> ps = seq (count st) (length ps) ∧ count st' = (count st + length ps)%nat ∧
  p_type <$> ps = (λ x, Some (getType x)) <$> filter (λ x, isResult x = true) xs.
Proof.
  revert st ps st'. induction xs as [|x xs IH]; intros st ps st' Hid; cbn [collect].
  { intros [= <- <-]. split_and!; [done|done|done|cbn; lia|done]. }
  rewrite filter_cons, outputPort_eq.
  destruct (decide (isResult x = true)) as [Hx|Hx%not_true_is_false]; rewrite Hx; cbn [mbind option_bind]; swap 1 2.
  - destruct (collect _ xs st) as [[qs st1]|] eqn:Hc; [|done]. intros [= <- <-]. by apply IH.
  - destruct (registerValue st x false false None None) as [i st1] eqn:Hr.
    apply registerValue_ok in Hr as (Hid1 & Hg1 & -> & Hn); [|done..]. cbn [mbind option_bind].
    destruct (collect _ xs st1) as [[qs st2]|] eqn:Hc; [|done]. intros [= <- <-].
    apply IH in Hc as (Hid2 & Hg2 & Hv & Hn2 & Hty); [|done].
    split_and!; [done|by etrans|cbn; by rewrite Hv, Hn|cbn; lia|cbn; by rewrite Hty].
Qed.

(** *** The whole walk *)

(** Node [n] is what the extraction makes of operation [op]. *)
Record Describes (kernel : operation) (n : WorkloadNode) (op : operation) : Prop := {
  ds_name : opName n = getName op;
  ds_inputs : p_type <$> inputs n = (λ x, Some (getType x)) <$> filter (λ x, isData x = true) (getOperands op);
  ds_outputs : p_type <$> outputs n = (λ x, Some (getType x)) <$> filter (λ x, isResult x = true) (getResults op);
  ds_attributes : attributes n = Some (getAttrDictionary op);
  ds_execution : executionMultiplicity n = executionMultiplicityOf (enclosing kernel op);
  ds_simultaneous : simultaneousMultiplicity n = simultaneousMultiplicityOf (enclosing kernel op);
}.

Record Extracted (kernel : operation) (ops : list operation) (st : Extraction) : Prop := {
  xt_ids : Ids st;
  xt_ports n p : n ∈ nodes (ex_graph st) → p ∈ (inputs n ++ outputs n)%list → (p_value p < count st)%nat;
  xt_once : NoDup (outValues (nodes (ex_graph st)));
  xt_nodes : Forall2 (Describes kernel) (nodes (ex_graph st)) ops;
  xt_ordinals : sourceOrdinal <$> nodes (ex_graph st) = seq 0 (length ops);
  xt_ordinal : ordinal st = length ops;
  xt_ops k : ordinalOps st !! k = ops !! k;
}.

Lemma outValues_below st : (∀ n p, n ∈ nodes (ex_graph st) → p ∈ (inputs n ++ outputs n)%list → (p_value p < count st)%nat) →
  Forall (λ i, (i < count st)%nat) (outValues (nodes (ex_graph st))).
Proof.
  intros Hp. apply Forall_forall. intros i (n & (p & -> & Hin)%list_elem_of_fmap & Hn)%list_elem_of_bind.
  eapply Hp; [done|]. apply elem_of_app. auto.
Qed.

Lemma extracted_grows kernel ops st st' : Extracted kernel ops st → Ids st' → Grows st st' →
  Extracted kernel ops st'.
Proof.
  intros [Hid Hp Hnd Hns Hor Ho Hop] Hid' [Hn Hops Hord Hc]. constructor; rewrite ?Hn, ?Hops, ?Hord; try done.
  intros n p Hin Hip. specialize (Hp n p Hin Hip). lia.
Qed.

Lemma extractNode_ok fuel kernel op ops st st' : Extracted kernel ops st →
  extractNode fuel kernel op st = Some st' → Extracted kernel (ops ++ [op]) st'.
Proof.
  intros [Hid Hp Hnd Hns Hor Ho Hop]. unfold extractNode.
  set (st0 := mkExtraction (ex_graph st) (valueIds st) (pendingValues st) _ (carriedResults st) _).
  assert (Ids st0) as Hid0 by (destruct Hid; by constructor).
  destruct (collect (inputPort fuel kernel) (getOperands op) st0) as [[ins st1]|] eqn:Hi; [|done]. cbn.
  destruct (collect outputPort (getResults op) st1) as [[outs st2]|] eqn:Hr; [|done]. intros [= <-].
  apply collect_inputs in Hi as (Hid1 & [Hn1 Hops1 Hord1 Hc1] & Hall & Hti); [|done].
  apply collect_outputs in Hr as (Hid2 & [Hn2 Hops2 Hord2 Hc2] & Hv & Hc & Hto); [|done].
  assert (count st ≤ count st1)%nat as Hc0 by exact Hc1. rewrite Hn1 in Hn2. cbn in Hn2.
  set (n0 := mkNode _ _ _ _ _ _ _ _).
  assert (∀ a b c d e, count (mkExtraction (addNode (ex_graph st2) n0) a b c d e) = count st2) as Hcf by done.
  constructor; rewrite ?Hcf; cbn [nodes ex_graph addNode ordinal ordinalOps]; rewrite ?Hn2.
  - destruct Hid2. by constructor.
  - intros n p [Hin|Hin]%elem_of_app Hip; [specialize (Hp n p Hin Hip); lia|].
    apply list_elem_of_singleton in Hin as ->. cbn in Hip. apply elem_of_app in Hip as [Hip|Hip].
    + rewrite Forall_forall in Hall. specialize (Hall p Hip). cbn in Hall. lia.
    + assert (p_value p ∈ p_value <$> outs) as Hin by (by apply list_elem_of_fmap_2).
      rewrite Hv in Hin. apply elem_of_seq in Hin. lia.
  - unfold outValues. rewrite bind_app. cbn. rewrite app_nil_r, Hv. apply NoDup_app. split_and!; [done| |apply NoDup_seq].
    intros i Hin Hs%elem_of_seq. pose proof (outValues_below st Hp) as Hb. rewrite Forall_forall in Hb.
    specialize (Hb i Hin). cbn in Hb. lia.
  - apply Forall2_app; [done|]. constructor; [|constructor]. by constructor.
  - rewrite fmap_app, Hor, length_app, seq_app. cbn. by rewrite Ho.
  - rewrite Hord2, Hord1. cbn. rewrite Ho, length_app. cbn. lia.
  - intros k. rewrite Hops2, Hops1. cbn. rewrite Ho. destruct (decide (k = length ops)) as [->|Hne].
    + by rewrite lookup_insert_eq, list_lookup_middle.
    + rewrite lookup_insert_ne, Hop by done. destruct (decide (k < length ops)%nat).
      * by rewrite lookup_app_l.
      * rewrite !(lookup_ge_None_2) by (rewrite ?length_app; cbn; lia). done.
Qed.

Lemma otherResult_ok op result st st' : Ids st → otherResult op result st = Some st' → Ids st' ∧ Grows st st'.
Proof.
  intros Hid. unfold otherResult. destruct (_ || _); [by intros [= <-]|].
  destruct (registerValue st result true false None None) as [i st1] eqn:Hr.
  apply registerValue_ok in Hr as ([Hk Hp Hs] & [Hn Ho Hor Hc] & _ & _); [|done..].
  destruct (isStructuralLoopName (getName op)); [|by intros [= <-]].
  destruct (carriedSourceOf result); intros [= <-]; [|done]. by split; constructor.
Qed.

Lemma thread_grows {A} (body : A → Extraction → option Extraction) xs st st' :
  (∀ x st st', Ids st → body x st = Some st' → Ids st' ∧ Grows st st') →
  Ids st → thread body xs st = Some st' → Ids st' ∧ Grows st st'.
Proof.
  intros Hb. revert st. induction xs as [|x xs IH]; intros st Hid; cbn; [by intros [= <-]|].
  destruct (body x st) as [st1|] eqn:Hx; [|done]. cbn. apply Hb in Hx as [Hid1 Hg1]; [|done].
  intros [Hid2 Hg2]%IH; [|done]. split; [done|by etrans].
Qed.

Lemma aliases_ok source rs st : Ids st → (source < count st)%nat →
  Ids (foldl (λ st result, aliasValue st result source) st rs) ∧
  Grows st (foldl (λ st result, aliasValue st result source) st rs).
Proof.
  revert st. induction rs as [|r rs IH]; intros st Hid Hs; [done|]. cbn.
  destruct (aliasValue_ok st r source Hid Hs) as [Hid1 Hg1].
  destruct (IH (aliasValue st r source)) as [Hid2 Hg2]; [done|done|]. split; [done|by etrans].
Qed.

Definition isNode (op : operation) : bool := isWorkloadNodeOp (getName op).

Lemma transparent_not_node name : isTransparentWorkloadOp name = true → isWorkloadNodeOp name = false.
Proof.
  unfold isTransparentWorkloadOp. rewrite contains_true. unfold kTransparentOps.
  rewrite !elem_of_cons, elem_of_nil. intros [->|[->|[]]]; reflexivity.
Qed.

Lemma visitOp_ok fuel kernel op ops st st' : Extracted kernel ops st → visitOp fuel kernel op st = Some st' →
  Extracted kernel (ops ++ filter (λ op, isNode op = true) [op]) st'.
Proof.
  intros Hx. unfold visitOp. rewrite filter_cons, filter_nil. unfold isNode.
  destruct (isTransparentWorkloadOp (getName op)) eqn:Ht.
  - apply transparent_not_node in Ht. rewrite Ht, decide_False, app_nil_r by done.
    destruct (getResults op) as [|r rs]; [by intros [= <-]|].
    destruct (getOperands op) as [|operand rest]; [by intros [= <-]|].
    destruct (resolve fuel kernel operand st) as [[source st1]|] eqn:Hr; [|done].
    apply resolve_ok in Hr as (Hid1 & Hg1 & Hs); [|apply Hx]. intros [= <-].
    destruct (aliases_ok source (r :: rs) st1 Hid1 Hs) as [Hid2 Hg2].
    eapply extracted_grows; [done|done|by etrans].
  - destruct (isWorkloadNodeOp (getName op)) eqn:Hn.
    + rewrite decide_True by done. by apply extractNode_ok.
    + rewrite decide_False, app_nil_r by done. intros Hth.
      apply thread_grows in Hth as [Hid1 Hg1]; [by eapply extracted_grows| |apply Hx].
      intros. by eapply otherResult_ok.
Qed.

Lemma walk_ok fuel kernel opsV st st' done_ : Extracted kernel done_ st →
  thread (visitOp fuel kernel) opsV st = Some st' →
  Extracted kernel (done_ ++ filter (λ op, isNode op = true) opsV) st'.
Proof.
  revert done_ st. induction opsV as [|op opsV IH]; intros done_ st Hx; cbn [thread].
  { intros [= <-]. by rewrite app_nil_r. }
  destruct (visitOp fuel kernel op st) as [st1|] eqn:Hv; [|done]. cbn [mbind option_bind].
  intros Hth. apply (visitOp_ok _ _ _ _ _ _ Hx) in Hv.
  change (op :: opsV) with ([op] ++ opsV)%list. rewrite filter_app, (assoc_L (++)%list). by eapply IH.
Qed.

Lemma markCarried_ok fuel kernel entry st st' : Ids st → markCarried fuel kernel entry st = Some st' →
  Ids st' ∧ Grows st st'.
Proof.
  intros Hid. unfold markCarried. destruct (resolve fuel kernel entry.2 st) as [[from st1]|] eqn:Hr; [|done].
  apply resolve_ok in Hr as ([Hk Hp Hs] & [Hn Ho Hor Hc] & Hf); [|done]. intros [= <-].
  assert (∀ a b c d e, count (mkExtraction (markLoopCarried (ex_graph st1) entry.1 (Some from)) a b c d e) = count st1)
    as Hcf by (intros; unfold count; cbn; apply length_alter).
  split; constructor; rewrite ?Hcf; try done. intros v c Hv Hc'. cbn in Hv.
  apply list_elem_of_lookup in Hv as [i Hi]. rewrite list_lookup_alter in Hi.
  destruct (decide (entry.1 = i)) as [<-|Hne].
  - destruct (values (ex_graph st1) !! entry.1); [|done]. injection Hi as <-. by injection Hc' as <-.
  - eapply Hs; [by eapply list_elem_of_lookup_2|done].
Qed.

Definition nodesIn (kernel : operation) : list operation := filter (λ op, isNode op = true) (walk kernel).

Lemma start_extracted kernel : Extracted kernel [] startExtraction.
Proof.
  constructor; cbn; try done.
  - constructor; cbn; [intros ? ?; by rewrite lookup_empty|intros ? ?; by rewrite lookup_empty|].
    by intros v c ?%not_elem_of_nil.
  - by intros n p ?%not_elem_of_nil.
  - constructor.
Qed.

Lemma extractState_ok fuel kernel st : extractState fuel kernel = Some st → Extracted kernel (nodesIn kernel) st.
Proof.
  unfold extractState. destruct (thread (visitOp fuel kernel) _ _) as [st1|] eqn:Hw; [|done].
  cbn [mbind option_bind]. intros Hm. apply (walk_ok _ _ _ _ _ [] (start_extracted kernel)) in Hw.
  cbn [app] in Hw. apply thread_grows in Hm as [Hid Hg]; [|apply markCarried_ok|apply Hw].
  by eapply extracted_grows.
Qed.

(** *** The bindings *)
Lemma bindNodes_lookup ops ns id :
  (∀ i n, ns !! i = Some n → n_id n = i ∧ is_Some (ops !! sourceOrdinal n)) →
  bindNodes ops ns !! id = ns !! id ≫= λ n, ops !! sourceOrdinal n.
Proof.
  unfold bindNodes. induction ns as [|n ns IH] using rev_ind; intros Hns; [apply lookup_empty|].
  rewrite foldl_app. cbn.
  destruct (Hns (length ns) n) as [Hid [op Hop]]; [by apply list_lookup_middle|]. rewrite Hop, Hid.
  destruct (decide (id = length ns)) as [->|Hne].
  - by rewrite lookup_insert_eq, list_lookup_middle.
  - rewrite lookup_insert_ne, IH by (try done; intros i m Hi; by apply Hns, lookup_app_l_Some).
    destruct (decide (id < length ns)%nat); [by rewrite lookup_app_l|].
    rewrite !lookup_ge_None_2 by (rewrite ?length_app; cbn; lia). done.
Qed.

Lemma rename_types σ (ps : list WorkloadPort) : p_type <$> (rename_port σ <$> ps) = p_type <$> ps.
Proof. rewrite <- list_fmap_compose. by apply list_fmap_ext. Qed.

Lemma ordinal_position kernel ops st i n : Extracted kernel ops st →
  nodes (ex_graph st) !! i = Some n → sourceOrdinal n = i ∧ ∃ op, ops !! i = Some op ∧ Describes kernel n op.
Proof.
  intros [_ _ _ Hns Hor _ _] Hi. split.
  - assert ((sourceOrdinal <$> nodes (ex_graph st)) !! i = Some (sourceOrdinal n)) as Ho
      by (by rewrite list_lookup_fmap, Hi).
    rewrite Hor in Ho. apply lookup_seq in Ho. lia.
  - by eapply Forall2_lookup_l in Hns.
Qed.

(** *** It succeeds

    SSA values are acyclic: going from a view to what it views and from a carried
    value to what the loop carries, [depth] decreases. *)
Section total.
Context (depth : ssa → nat) (fuel : nat) (kernel : operation).
Context (depth_view : ∀ v u, viewedValue v = Some u → (depth u < depth v)%nat).
Context (depth_carried : ∀ v u, viewedValue v = None → carriedSourceOf v = Some u → (depth u < depth v)%nat).
Context (depth_fuel : ∀ v, (depth v < fuel)%nat).

Lemma resolve_total value st : is_Some (resolve fuel kernel value st).
Proof.
  specialize (depth_fuel value). revert value st depth_fuel. clear -depth_view depth_carried.
  induction fuel as [|n IH]; intros value st Hd; [lia|]. cbn. destruct (valueIds st !! value); [by eexists|].
  destruct (viewedValue value) as [u|] eqn:Hu.
  - destruct (IH u st) as [[i st1] ->]; [apply depth_view in Hu; lia|]. cbn. by eexists.
  - destruct (carriedSourceOf value) as [u|] eqn:Hc; [|by eexists].
    destruct (IH u st) as [[i st1] ->]; [specialize (depth_carried _ _ Hu Hc); lia|]. cbn. by eexists.
Qed.

Lemma accessLoop_total value offsets : is_Some (accessLoop fuel value offsets).
Proof.
  specialize (depth_fuel value). revert value offsets depth_fuel. clear -depth_view.
  induction fuel as [|n IH]; intros value offsets Hd; [lia|]. cbn [accessLoop].
  destruct (getDefiningOp value) as [op|] eqn:Hop; [|by eexists].
  destruct (isTransparentWorkloadOp (getName op)) eqn:Ht; cbn [negb]; [|by eexists].
  case_decide; [by eexists|]. destruct (shapeAttr op) as [shape|]; [|by eexists].
  destruct (getOperands op) as [|source rest] eqn:Ho; [by eexists|].
  case_decide; [by eexists|]. case_decide; [by eexists|]. destruct (mapM constantIndex rest); [|by eexists].
  apply IH. assert (viewedValue value = Some source) as Hv by (unfold viewedValue; by rewrite Hop, Ht, Ho).
  apply depth_view in Hv. lia.
Qed.

Lemma accessMapFor_total value : is_Some (accessMapFor fuel value).
Proof.
  unfold accessMapFor. destruct (getDefiningOp value) as [op|]; [|by eexists].
  destruct (isTransparentWorkloadOp (getName op)); [apply accessLoop_total|by eexists].
Qed.

Lemma collect_total {A B} (body : A → Extraction → option (option B * Extraction)) xs st :
  (∀ x st, is_Some (body x st)) → is_Some (collect body xs st).
Proof.
  intros Hb. revert st. induction xs as [|x xs IH]; intros st; cbn; [by eexists|].
  destruct (Hb x st) as [[y st1] ->]. cbn. destruct (IH st1) as [[ys st2] ->]. by eexists.
Qed.

Lemma thread_total {A} (body : A → Extraction → option Extraction) xs st :
  (∀ x st, is_Some (body x st)) → is_Some (thread body xs st).
Proof.
  intros Hb. revert st. induction xs as [|x xs IH]; intros st; cbn; [by eexists|].
  destruct (Hb x st) as [st1 ->]. apply IH.
Qed.

Lemma visitOp_total op st : is_Some (visitOp fuel kernel op st).
Proof.
  unfold visitOp. destruct (isTransparentWorkloadOp (getName op)).
  - destruct (getResults op); [by eexists|]. destruct (getOperands op) as [|operand rest]; [by eexists|].
    destruct (resolve_total operand st) as [[i st1] ->]. by eexists.
  - destruct (isWorkloadNodeOp (getName op)).
    + unfold extractNode. set (st0 := mkExtraction _ _ _ _ _ _).
      destruct (collect_total (inputPort fuel kernel) (getOperands op) st0) as [[ins st1] ->].
      { intros x st2. rewrite inputPort_eq. destruct (isData x); [|by eexists].
        destruct (resolve_total x st2) as [[i st3] ->]. cbn.
        destruct (accessMapFor_total x) as [m ->]. by eexists. }
      cbn [mbind option_bind]. destruct (collect_total outputPort (getResults op) st1) as [[outs st2] ->]; [|by eexists].
      intros x st3. rewrite outputPort_eq. destruct (isResult x); [|by eexists].
      destruct (registerValue st3 x false false None None). by eexists.
    + apply thread_total. intros x st1. unfold otherResult. destruct (_ || _); [by eexists|].
      destruct (registerValue st1 x true false None None).
      destruct (isStructuralLoopName _); [|by eexists]. destruct (carriedSourceOf x); by eexists.
Qed.

Lemma extractState_total : is_Some (extractState fuel kernel).
Proof.
  unfold extractState.
  destruct (thread_total (visitOp fuel kernel) (walk kernel) startExtraction visitOp_total) as [st ->].
  apply thread_total. intros e st1. unfold markCarried.
  destruct (resolve_total e.2 st1) as [[i st2] ->]. by eexists.
Qed.

(** C20: Extracting a kernel ends with a well-formed, finalized graph that has one node
    per node operation of the walk -- its name, the types of its data operands and
    results, its attributes and its multiplicities -- and the binding leads each
    node back to its operation. *)
Theorem extraction_describes_kernel : getName kernel = "micro.kernel" →
  ∃ g b ops, extractWorkloadGraph fuel kernel = Some (Ok (g, b)) ∧
    WellFormed g ∧ Numbered g ∧ finalize g = Some (seq 0 (length (values g)), g) ∧
    ops ≡ₚ nodesIn kernel ∧ Forall2 (Describes kernel) (nodes g) ops ∧
    ∀ id, nodeOps b !! id = ops !! id.
Proof.
  intros Hk. destruct extractState_total as [st Hst]. pose proof (extractState_ok _ _ _ Hst) as Hx.
  assert (WellFormed (ex_graph st)) as Hwf.
  { destruct Hx as [_ Hp Hnd _ _ _ _]. by constructor. }
  destruct (finalize_ok _ Hwf) as (remap & g & Hf & _ & Hwf' & Hnb & Hfix).
  set (order := stableOrder (nodeKeysOf (ex_graph st))).
  assert (length (nodesIn kernel) = length (nodes (ex_graph st))) as Hlen
    by (symmetry; eapply Forall2_length, Hx).
  assert (length (nodeKeysOf (ex_graph st)) = length (nodes (ex_graph st))) as Hlk by apply length_fmap.
  pose proof Hf as Hg. rewrite finalize_eq in Hg by done. injection Hg as _ Hg.
  exists g, (mkBinding (bindNodes (ordinalOps st) (nodes g)) (bindValues remap (pendingValues st))),
    (omap (λ i, nodesIn kernel !! i) order).
  assert (∀ k n, nodes g !! k = Some n → ∃ i op, order !! k = Some i ∧ nodesIn kernel !! i = Some op ∧
    sourceOrdinal n = i ∧ Describes kernel n op) as Hnode.
  { intros k n. rewrite <- Hg. cbn [nodes]. unfold newNodesOf. rewrite list_lookup_imap.
    unfold sortedNodes. rewrite omap_order_lookup by done. fold order.
    destruct (order !! k) as [i|]; [|done]. cbn.
    destruct (nodes (ex_graph st) !! i) as [m|] eqn:Hm; [|done]. intros [= <-].
    destruct (ordinal_position _ _ _ _ _ Hx Hm) as [Ho (op & Hop & [])]. exists i, op.
    split_and!; [done..|]. constructor; cbn; rewrite ?rename_types; done. }
  assert (length (nodes g) = length (nodes (ex_graph st))) as Hlg.
  { rewrite <- Hg. cbn. unfold newNodesOf. rewrite length_imap. apply Permutation_length, sortedNodes_perm. }
  split_and!; [|done|done| | | |].
  - unfold extractWorkloadGraph. rewrite decide_False by (by intros Hn). rewrite Hst. cbn. by rewrite Hf.
  - rewrite Hfix, <- Hg. cbn [values]. by rewrite newValuesOf_length.
  - by apply omap_order_perm; rewrite Hlk.
  - apply Forall2_same_length_lookup. split.
    + rewrite Hlg, <- Hlen. symmetry. apply Permutation_length, omap_order_perm. by rewrite Hlk.
    + intros k n op Hn Hop. unfold order in Hop. rewrite omap_order_lookup in Hop by (by rewrite Hlk).
      destruct (Hnode k n Hn) as (i & op' & Hi & Hop' & _ & Hd). fold order in Hop. rewrite Hi in Hop.
      cbn in Hop. congruence.
  - intros id. cbn [nodeOps]. unfold order. rewrite omap_order_lookup by (by rewrite Hlk). fold order. rewrite bindNodes_lookup.
    + destruct (nodes g !! id) as [n|] eqn:Hn; cbn.
      * destruct (Hnode id n Hn) as (i & op & Hi & Hop & -> & _). by rewrite Hi, (xt_ops _ _ _ Hx).
      * apply lookup_ge_None in Hn. rewrite lookup_ge_None_2; [done|].
        unfold order. rewrite stableOrder_length, Hlk. lia.
    + intros i n Hn. split; [by eapply nb_nodes|].
      destruct (Hnode i n Hn) as (j & op & Hj & Hop & -> & _). rewrite (xt_ops _ _ _ Hx). by eexists.
Qed.
End total.
End extraction.

(** ** Witnesses *)
#[local] Existing Instance sample_types.
#[local] Instance sample_text : MLIRText := {|
  dictionary := string;
  typeString t := match t with
                  | None => "<<NULL TYPE>>"
                  | Some (width, extents) => "tensor<" +:+ String.concat "x" (to_string <$> extents) +:+ "xi" +:+ to_string width +:+ ">"
                  end;
  attributeString a := a;
|}.

Definition toyType : mlir_type := (8, [4; 4]).
Definition toyValue (name : string) (ext : bool) : WorkloadValue := mkValue O (Some toyType) name ext false None None.
Definition toyPort (value : nat) : WorkloadPort := mkPort value (Some toyType) None.
Definition toyNode (name : string) (ins outs : list nat) (position : nat) : WorkloadNode :=
  mkNode O name (toyPort <$> ins) (toyPort <$> outs) (Some "{}") position (Some 1) (Some 1).

(** A load and a vector operation, inserted in two orders. *)
Definition toyGraph : WorkloadGraph :=
  mkGraph [toyNode "micro.tile_load" [0%nat] [1%nat] 0; toyNode "micro.vector" [1%nat; 1%nat] [2%nat] 1]
    [toyValue "arg0" true; toyValue "load.result0" false; toyValue "vector.result0" false].
Definition toyReordered : WorkloadGraph :=
  mkGraph [toyNode "micro.vector" [1%nat; 1%nat] [0%nat] 1; toyNode "micro.tile_load" [2%nat] [1%nat] 0]
    [toyValue "vector.result0" false; toyValue "load.result0" false; toyValue "arg0" true].
Definition toySwap (i : nat) : nat := match i with O => 2 | 1 => 1 | 2 => O | i => i end%nat.

Example toy_finalized : fst <$> finalize toyGraph = Some [2; 0; 1]%nat.
Proof. vm_compute. reflexivity. Qed.

Lemma toy_wf : WellFormed toyGraph.
Proof.
  constructor.
  - intros n p Hn Hp. cbn in Hn. repeat apply elem_of_cons in Hn as [->|Hn]; try by apply not_elem_of_nil in Hn.
    all: cbn in Hp; repeat apply elem_of_cons in Hp as [->|Hp]; try by apply not_elem_of_nil in Hp.
    all: cbn; lia.
  - by apply (bool_decide_unpack _).
Qed.

Lemma toy_distinguishable : Distinguishable toyGraph.
Proof.
  constructor; [by apply (bool_decide_unpack _)|].
  intros i j v w Hi Hj Hu Hu' Hn.
  destruct i as [|[|[|i]]]; cbn in Hi; try done; injection Hi as <-;
    destruct j as [|[|[|j]]]; cbn in Hj; try done; injection Hj as <-; done.
Qed.

Lemma toy_reordered : Reordered toySwap toyGraph toyReordered.
Proof.
  constructor.
  - intros [|[|[|i]]] [|[|[|j]]]; cbn; congruence.
  - done.
  - intros [|[|[|i]]]; cbn; lia.
  - intros [|[|[|i]]] v Hi; cbn in Hi; try done; injection Hi as <-; eexists; split; reflexivity.
  - apply Permutation_swap.
Qed.

Lemma finalize_canonical_witness :
  toyReordered ≠ toyGraph ∧ snd <$> finalize toyReordered = snd <$> finalize toyGraph.
Proof.
  split; [done|].
  apply (finalize_canonical toySwap); [apply toy_reordered|apply toy_wf|apply toy_distinguishable].
Defined.

Lemma finalize_renumbers_witness : ∃ remap g', finalize toyGraph = Some (remap, g') ∧
  Reordered (λ x, default x (remap !! x)) (knownSources toyGraph) g' ∧
  WellFormed g' ∧ Numbered g' ∧ finalize g' = Some (seq 0 (length (values toyGraph)), g').
Proof. apply (finalize_renumbers toyGraph), toy_wf. Defined.

(** Values that share a name, as the results of two allocations do, keep the order
    they were inserted in: the same graph inserted in two orders finalizes to two
    graphs. *)
Definition alloc (extents : list Z) : WorkloadValue :=
  mkValue O (Some (8, extents)) "micro.tile_alloc.result0" true false None None.
Definition swap01 (i : nat) : nat := match i with O => 1 | 1 => O | i => i end%nat.

Lemma same_names_keep_insertion_order :
  ∃ g g', Reordered swap01 g g' ∧ WellFormed g ∧ snd <$> finalize g' ≠ snd <$> finalize g.
Proof.
  exists (mkGraph [toyNode "micro.store" [0%nat] [] 0] [alloc [4]; alloc [8]]),
    (mkGraph [toyNode "micro.store" [1%nat] [] 0] [alloc [8]; alloc [4]]). split_and!.
  - constructor.
    + intros [|[|i]] [|[|j]]; cbn; congruence.
    + done.
    + intros [|[|i]]; cbn; lia.
    + intros [|[|i]] v Hi; cbn in Hi; try done; injection Hi as <-; eexists; split; reflexivity.
    + done.
  - constructor; [|by apply (bool_decide_unpack _)]. intros n p Hn Hp. cbn in Hn.
    apply list_elem_of_singleton in Hn as ->. cbn in Hp. apply list_elem_of_singleton in Hp as ->. cbn. lia.
  - vm_compute. discriminate.
Qed.

(** A kernel with a load, a view of its result and a vector operation on the view:
    operations and values are numbers, [4] is the load's second result. *)
#[local] Instance toy_ops : MLIROps := {|
  operation := nat;
  ssa := nat;
  getName op := nth op ["micro.kernel"; "micro.tile_load"; "micro.tile_view"; "micro.vector"] "";
  getOperands op := nth op [[]; [0]; [1]; [2; 0]]%nat [];
  getResults op := nth op [[]; [1; 4]; [2]; [3]]%nat [];
  getDefiningOp v := nth v [None; Some 1; Some 2; Some 3; Some 1]%nat None;
  getResultNumber v := if decide (v = 4%nat) then 1%nat else O;
  getType v := toyType;
  isIndexType t := false;
  getRank s := Z.of_nat (length s.2);
  integerAttr op name := None;
  shapeAttr op := if decide (op = 2%nat) then Some [4; 4] else None;
  memoriesAttr op := Some [Some "dram"];
  getAttrDictionary op := "{}";
  parents op := [O];
  walk op := [1; 2; 3; 0]%nat;
  blockArgument v := if decide (v = O) then Some (Some O, O, 1%nat) else None;
  ownerIsEntry kernel v := true;
  terminatorOperands op := None;
  affine_expr := string;
  affineDim i := "d" +:+ to_string (Z.of_nat i);
  affineConstant z := to_string z;
  affineAdd a b := a +:+ " + " +:+ b;
  affineMapGet n es := String.concat ", " es;
|}.

Definition toyDepth (v : nat) : nat := if decide (v = 2%nat) then 1 else O.

Example toy_extracted : (λ r, match r with
    | Ok (g, b) => (opName <$> nodes g, (λ n, accessMap <$> inputs n) <$> nodes g, v_name <$> values g)
    | Err _ => ([], [], [])
    end) <$> extractWorkloadGraph 2 O =
  Some (["micro.tile_load"; "micro.vector"], [[None]; [Some "d0, d1"; None]],
        ["micro.tile_load.result0"; "micro.tile_load.result1"; "micro.vector.result0"; "arg0"]).
Proof. vm_compute. reflexivity. Qed.

Lemma extraction_describes_kernel_witness : ∃ g b ops, extractWorkloadGraph 2 O = Some (Ok (g, b)) ∧
  WellFormed g ∧ Numbered g ∧ finalize g = Some (seq 0 (length (values g)), g) ∧
  ops ≡ₚ nodesIn O ∧ Forall2 (Describes O) (nodes g) ops ∧ ∀ id, nodeOps b !! id = ops !! id.
Proof.
  refine (@extraction_describes_kernel _ _ toy_ops toyDepth 2%nat O _ _ _ _).
  - intros v u Hv. do 5 (destruct v as [|v]; [vm_compute in Hv; first [done|injection Hv as <-; vm_compute; lia]|]).
    unfold viewedValue in Hv. cbn in Hv. by destruct v.
  - intros v u _ Hc. do 5 (destruct v as [|v]; [vm_compute in Hc; done|]).
    unfold carriedSourceOf in Hc. cbn in Hc. by destruct v.
  - intros v. unfold toyDepth. case_decide; lia.
  - done.
Defined.
