(* ===== verification/LlkMap.v ===== *)
(** The LLKMap language: lib/Mapping/LlkMap.cpp and include/LLK/Mapping/LlkMap.h.

    Layout and rule declarations share a token set, an expression grammar, an
    evaluator and two renderings; they are modelled here: the lexer ([lex]), the
    recursive-descent parser over a token cursor ([parseExpression]), the check of
    the vocabulary ([validateExpr]), the evaluator with its bounded quantifiers
    ([evaluateExpr]), the source printer ([printExpr]) and the canonical text
    ([canonicalExprString]).

    The theorems: parsing ends and builds well-formed expressions or reports an
    error; printing and parsing are inverse on the expressions whose printed form
    keeps its tokens apart; the canonical text determines the expression; a
    validated expression never meets an unknown name; the default bound on
    quantifiers never changes a value it returns. *)
From S2P Require Import Prelude MachineModel.
Open Scope string_scope.
Open Scope Z_scope.

(** ** Expressions and values *)

(** [std::variant<int64_t, std::string>]. *)
Inductive LayoutValue := IntValue (i : Z) | StrValue (s : string).
#[export] Instance LayoutValue_eq_dec : EqDecision LayoutValue.
Proof. solve_decision. Defined.

Inductive ExprKind := IntLit | StringLit | Ident | Call | MemberCall | Unary | Binary | Quantifier.
#[export] Instance ExprKind_eq_dec : EqDecision ExprKind.
Proof. solve_decision. Defined.

(** [Expr]; the parser never stores a null operand. *)
Inductive Expr := mkExpr {
  kind : ExprKind;
  intValue : Z;
  text : string;
  operands : list Expr;
}.

Definition makeExpr (k : ExprKind) (t : string) (ops : list Expr) : Expr := mkExpr k 0 t ops.

Record LayoutContext := mkContext { rank : Z; elementType : string }.

(** ** Tokens *)
Inductive TokenKind := TIdentifier | TInt | TString | TPunct | TEnd.
#[export] Instance TokenKind_eq_dec : EqDecision TokenKind.
Proof. solve_decision. Defined.

Record LlkMapToken := mkToken {
  tk_kind : TokenKind;
  tk_text : string;
  tk_int : Z;
  tk_line : Z;
  tk_column : Z;
}.

(** *** Lexer *)
Definition in_range (lo hi c : ascii) : bool :=
  (nat_of_ascii lo <=? nat_of_ascii c)%nat && (nat_of_ascii c <=? nat_of_ascii hi)%nat.
Definition isalpha (c : ascii) : bool := in_range "a" "z" c || in_range "A" "Z" c.
Definition isdigit (c : ascii) : bool := in_range "0" "9" c.
Definition isIdentifierStart (c : ascii) : bool := isalpha c || bool_decide (c = "_"%char).
Definition isIdentifierChar (c : ascii) : bool :=
  isalpha c || isdigit c || bool_decide (c = "_"%char) || bool_decide (c = "."%char).
Definition isBlank (c : ascii) : bool :=
  bool_decide (c = "010"%char) || bool_decide (c = " "%char) || bool_decide (c = "009"%char) ||
  bool_decide (c = "013"%char).
Definition quote : ascii := "034"%char.

Fixpoint str_take (n : nat) (s : string) : string :=
  match n, s with
  | S n, String c s => String c (str_take n s)
  | _, _ => ""
  end.
Fixpoint str_drop (n : nat) (s : string) : string :=
  match n, s with
  | S n, String _ s => str_drop n s
  | _, _ => s
  end.

(** The length of the longest prefix whose characters satisfy [p]. *)
Fixpoint span_length (p : ascii → bool) (s : string) : nat :=
  match s with
  | String c s => if p c then S (span_length p s) else O
  | "" => O
  end.

(** [find]: the first index at which [pat] starts. *)
Fixpoint str_find (pat s : string) : option nat :=
  if String.prefix pat s then Some O
  else match s with
       | String _ s => S <$> str_find pat s
       | "" => None
       end.

Definition digit_value (c : ascii) : Z := Z.of_nat (nat_of_ascii c) - 48.
Fixpoint digits_value (acc : Z) (s : string) : Z :=
  match s with
  | String c s => digits_value (acc * 10 + digit_value c) s
  | "" => acc
  end.

(** What ends a lexing: the two messages, the character that starts no token, and
    the exception of [std::stoll] on a literal above INT64_MAX. *)
Inductive lex_error :=
| UnterminatedComment
| UnterminatedString
| UnexpectedCharacter (c : ascii)
| LiteralOutOfRange (digits : string).

Definition kTwoChar : list string := [".."; "->"; "=="; "!="; "<="; ">="; "&&"; "||"].
Definition kOneChar : string := "(){}[],;.<>!+-*/%=:".
Fixpoint str_mem (c : ascii) (s : string) : bool :=
  match s with
  | String d s => bool_decide (c = d) || str_mem c s
  | "" => false
  end.

(** What the loop body does at a nonempty text: skip, emit, or fail; with the
    number of characters it consumes. *)
Inductive lex_item :=
| Skip (count : nat)
| Emit (k : TokenKind) (t : string) (i : Z) (count : nat).

Definition lexItem (c : ascii) (rest : string) : result lex_error lex_item :=
  let text := String c rest in
  if isBlank c then Ok (Skip 1)
  else if String.prefix "//" text then
    Ok (Skip (default (String.length text) (str_find newline text)))
  else if String.prefix "/*" text then
    match str_find "*/" (str_drop 2 text) with
    | None => Err UnterminatedComment
    | Some k => Ok (Skip (k + 4))
    end
  else if isIdentifierStart c then
    let n := S (span_length isIdentifierChar rest) in
    Ok (Emit TIdentifier (str_take n text) 0 n)
  else if isdigit c then
    let n := span_length isdigit text in
    let value := digits_value 0 (str_take n text) in
    fail! (LiteralOutOfRange (str_take n text)) when bool_decide (value > i64_max);
    Ok (Emit TInt (str_take n text) value n)
  else if bool_decide (c = quote) then
    let n := span_length (λ d, negb (bool_decide (d = quote))) rest in
    fail! UnterminatedString when bool_decide (n = String.length rest);
    Ok (Emit TString (str_take n rest) 0 (n + 2))
  else
    match List.find (λ p, String.prefix p text) kTwoChar with
    | Some p => Ok (Emit TPunct p 0 2)
    | None =>
      fail! (UnexpectedCharacter c) when negb (str_mem c kOneChar);
      Ok (Emit TPunct (String c "") 0 1)
    end.

(** [advance]: the line and column after a consumed text. *)
Fixpoint advancePos (consumed : string) (line column : Z) : Z * Z :=
  match consumed with
  | "" => (line, column)
  | String c s =>
    if bool_decide (c = "010"%char) then advancePos s (u32 (line + 1)) 1
    else advancePos s line (u32 (column + 1))
  end.

Fixpoint lex_loop (fuel : nat) (text : string) (line column : Z) : result lex_error (list LlkMapToken) :=
  match text with
  | "" => Ok [mkToken TEnd "" 0 line column]
  | String c rest =>
    match fuel with
    | O => Ok []
    | S fuel =>
      item ← lexItem c rest;
      match item with
      | Skip n =>
        let '(line, column) := advancePos (str_take n text) line column in
        lex_loop fuel (str_drop n text) line column
      | Emit k t i n =>
        let '(line', column') := advancePos (str_take n text) line column in
        tokens ← lex_loop fuel (str_drop n text) line' column';
        Ok (mkToken k t i line column :: tokens)
      end
    end
  end.

(** Every round consumes a character. *)
Definition lex (text : string) : result lex_error (list LlkMapToken) :=
  lex_loop (String.length text) text 1 1.

(** What a caller sees: an [llvm::Error], or an exception passing through. *)
Inductive lex_failure := Reported (message : string) | Thrown (digits : string).

Definition lexLlkMap (text sourceName : string) : result lex_failure (list LlkMapToken) :=
  let reported (m : string) := Err (Reported (sourceName +:+ ": error: " +:+ m)) in
  match lex text with
  | Ok tokens => Ok tokens
  | Err UnterminatedComment => reported "unterminated block comment"
  | Err UnterminatedString => reported "unterminated string literal"
  | Err (UnexpectedCharacter c) => reported ("unexpected character '" +:+ String c "'")
  | Err (LiteralOutOfRange d) => Err (Thrown d)
  end.

(** ** The parser *)

(** The cursor is the rest of the token vector from [pos_] on; its head is
    [current()].  [error_] keeps the first message. *)
Record LlkMapParser := mkParser { tokens : list LlkMapToken; error_ : string }.

Definition endToken : LlkMapToken := mkToken TEnd "" 0 1 1.
Definition current (p : LlkMapParser) : LlkMapToken := default endToken (head (tokens p)).
(** The cursor does not move past the last token. *)
Definition advance (p : LlkMapParser) : LlkMapParser :=
  match tokens p with
  | _ :: t :: ts => mkParser (t :: ts) (error_ p)
  | _ => p
  end.
Definition isPunct (p : LlkMapParser) (punct : string) : bool :=
  bool_decide (tk_kind (current p) = TPunct) && bool_decide (tk_text (current p) = punct).
Definition isIdentifier (p : LlkMapParser) : bool := bool_decide (tk_kind (current p) = TIdentifier).

(** A parse returns its value, fails with a message in [error_], or has run out
    of fuel, which it never does. *)
Inductive outcome A := Parsed (a : A) | Rejected | NoFuel.
Arguments Parsed {A} _.
Arguments Rejected {A}.
Arguments NoFuel {A}.

Definition parser (A : Type) : Type := LlkMapParser → outcome A * LlkMapParser.
#[export] Instance parser_ret : MRet parser := λ A a p, (Parsed a, p).
#[export] Instance parser_bind : MBind parser := λ A B f m p,
  match m p with
  | (Parsed a, p) => f a p
  | (Rejected, p) => (Rejected, p)
  | (NoFuel, p) => (NoFuel, p)
  end.

Definition step : parser unit := λ p, (Parsed tt, advance p).
Definition get {A} (f : LlkMapParser → parser A) : parser A := λ p, f p p.

Section parser.
Variable source : string.

Definition failAt {A} (message : string) : parser A := λ p,
  let token := current p in
  (Rejected, mkParser (tokens p)
    (if str_empty (error_ p)
     then source +:+ ":" +:+ to_string (tk_line token) +:+ ":" +:+ to_string (tk_column token) +:+
          ": error: " +:+ message
     else error_ p)).

Definition expectPunct (punct : string) : parser unit := λ p,
  if isPunct p punct then step p else failAt ("expected '" +:+ punct +:+ "'") p.

Definition expectIdentifier (what : string) : parser string := λ p,
  if isIdentifier p then (Parsed (tk_text (current p)), advance p) else failAt ("expected " +:+ what) p.

Definition anyPunct (p : LlkMapParser) (ops : list string) : bool := existsb (isPunct p) ops.

(** A level of binary operators, left associative, over the next level. *)
Fixpoint binaryLoop (fuel : nat) (ops : list string) (next : parser Expr) (lhs : Expr) : parser Expr :=
  λ p,
  if anyPunct p ops then
    match fuel with
    | O => (NoFuel, p)
    | S fuel =>
      let op := tk_text (current p) in
      (rhs ← next; binaryLoop fuel ops next (makeExpr Binary op [lhs; rhs])) (advance p)
    end
  else (Parsed lhs, p).

Definition binaryLevel (ops : list string) (next : parser Expr) : parser Expr :=
  lhs ← next; get (λ p, binaryLoop (length (tokens p)) ops next lhs).

(** The functions below call back into [parseExpression]. *)
Section grammar.
Variable parseExpression : parser Expr.

Fixpoint argsLoop (fuel : nat) (out : list Expr) : parser (list Expr) :=
  arg ← parseExpression;
  let out := (out ++ [arg])%list in
  get (λ p,
    if isPunct p "," then
      match fuel with
      | O => λ p, (NoFuel, p)
      | S fuel => _ ← step; argsLoop fuel out
      end
    else _ ← expectPunct ")"; mret out).

Definition parseCallArgs : parser (list Expr) :=
  _ ← expectPunct "(";
  get (λ p,
    if isPunct p ")" then _ ← step; mret []
    else argsLoop (length (tokens p)) []).

Definition parseQuantifier : parser Expr :=
  get (λ p,
    let op := tk_text (current p) in
    _ ← step;
    variable ← expectIdentifier "a quantifier variable";
    get (λ p,
      if isIdentifier p && bool_decide (tk_text (current p) = "in") then
        _ ← step;
        domain ← parseExpression;
        _ ← expectPunct ":";
        body ← parseExpression;
        mret (makeExpr Quantifier op [makeExpr Ident variable []; domain; body])
      else failAt "expected 'in'")).

Definition parsePrimary : parser Expr :=
  get (λ p,
    let token := current p in
    match tk_kind token with
    | TInt => _ ← step; mret (mkExpr IntLit (tk_int token) "" [])
    | TString => _ ← step; mret (makeExpr StringLit (tk_text token) [])
    | TIdentifier =>
      if contains ["forall"; "exists"] (tk_text token) then parseQuantifier
      else
        _ ← step;
        get (λ p,
          if isPunct p "(" then args ← parseCallArgs; mret (makeExpr Call (tk_text token) args)
          else mret (makeExpr Ident (tk_text token) []))
    | _ =>
      if isPunct p "(" then
        _ ← step; inner ← parseExpression; _ ← expectPunct ")"; mret inner
      else failAt "expected an expression"
    end).

Fixpoint postfixLoop (fuel : nat) (expr : Expr) : parser Expr := λ p,
  if isPunct p "." then
    match fuel with
    | O => (NoFuel, p)
    | S fuel =>
      (_ ← step;
       member ← expectIdentifier "a member name";
       args ← get (λ p, if isPunct p "(" then parseCallArgs else mret []);
       postfixLoop fuel (makeExpr MemberCall member (expr :: args))) p
    end
  else (Parsed expr, p).

Definition parsePostfix : parser Expr :=
  expr ← parsePrimary; get (λ p, postfixLoop (length (tokens p)) expr).

Fixpoint unaryLoop (fuel : nat) : parser Expr := λ p,
  if anyPunct p ["!"; "-"] then
    match fuel with
    | O => (NoFuel, p)
    | S fuel =>
      let op := tk_text (current p) in
      (_ ← step; operand ← unaryLoop fuel; mret (makeExpr Unary op [operand])) p
    end
  else parsePostfix p.
Definition parseUnary : parser Expr := get (λ p, unaryLoop (length (tokens p))).

Definition parseMultiplicative : parser Expr := binaryLevel ["*"; "/"; "%"] parseUnary.
Definition parseAdditive : parser Expr := binaryLevel ["+"; "-"] parseMultiplicative.
Definition parseRelational : parser Expr := binaryLevel ["<"; "<="; ">"; ">="] parseAdditive.
Definition parseEquality : parser Expr := binaryLevel ["=="; "!="] parseRelational.
Definition parseAnd : parser Expr := binaryLevel ["&&"] parseEquality.
Definition parseOr : parser Expr := binaryLevel ["||"] parseAnd.
End grammar.

(** Each nested expression starts after a token of its own. *)
Fixpoint expressionFuel (fuel : nat) : parser Expr :=
  match fuel with
  | O => λ p, (NoFuel, p)
  | S fuel => parseOr (expressionFuel fuel)
  end.
Definition parseExpression : parser Expr := get (λ p, expressionFuel (S (length (tokens p)))).

(** [ lo ".." hi ] or a braced list of literals. *)
Definition expectInt (message : string) : parser Z := λ p,
  if bool_decide (tk_kind (current p) = TInt) then (Parsed (tk_int (current p)), advance p)
  else failAt message p.

Definition literalMember : parser LayoutValue := λ p,
  let token := current p in
  match tk_kind token with
  | TInt => (Parsed (IntValue (tk_int token)), advance p)
  | TString => (Parsed (StrValue (tk_text token)), advance p)
  | _ => failAt "expected a literal domain member" p
  end.

Fixpoint membersLoop (fuel : nat) (out : list LayoutValue) : parser (list LayoutValue) :=
  v ← literalMember;
  let out := (out ++ [v])%list in
  get (λ p,
    if isPunct p "," then
      match fuel with
      | O => λ p, (NoFuel, p)
      | S fuel => _ ← step; membersLoop fuel out
      end
    else _ ← expectPunct "}"; mret out).

Definition parseDomainValues : parser (list LayoutValue) :=
  get (λ p,
    if isPunct p "[" then
      _ ← step;
      lower ← expectInt "expected an integer lower bound";
      _ ← expectPunct "..";
      upper ← expectInt "expected an integer upper bound";
      _ ← expectPunct "]";
      if bool_decide (upper < lower) then failAt "empty integer range"
      else mret (IntValue <$> seqZ lower (upper - lower + 1))
    else if isPunct p "{" then _ ← step; get (λ p, membersLoop (length (tokens p)) [])
    else failAt "expected '[' or '{'").
End parser.

(** *** The vocabulary *)
Definition isKnownCall (name : string) : bool :=
  contains ["floordiv"; "ceildiv"; "mod"; "min"; "max"; "machine.compute"; "machine.memory"] name.
Definition isKnownMember (name : string) : bool :=
  contains ["lanes"; "count"; "capacity_bytes"; "alignment_bytes"] name.

(** The first complaint about a list. *)
Definition firstComplaint {A} (check : A → option string) : list A → option string :=
  fix go xs := match xs with
               | [] => None
               | x :: xs => match check x with Some m => Some m | None => go xs end
               end.

(** The message [validateExpr] fails with, if any.  A quantifier holds its
    variable, its domain and its body. *)
Fixpoint complaint (allowed : gset string) (e : Expr) : option string :=
  let all := firstComplaint (complaint allowed) (operands e) in
  match kind e with
  | IntLit | StringLit => None
  | Ident =>
    if bool_decide (text e ∈ allowed) then None else Some ("unknown identifier '" +:+ text e +:+ "'")
  | Call => if isKnownCall (text e) then all else Some ("unknown function '" +:+ text e +:+ "'")
  | MemberCall =>
    if isKnownMember (text e) then all else Some ("unknown machine query '" +:+ text e +:+ "'")
  | Unary | Binary => all
  | Quantifier =>
    match operands e with
    | variable :: domain :: body :: _ =>
      let inner := complaint ({[text variable]} ∪ allowed) body in
      if decide (kind domain = Ident) then
        if bool_decide (text domain = "dimensions") then inner
        else Some ("unknown quantifier domain '" +:+ text domain +:+ "'")
      else if decide (kind domain = Call ∧ text domain = "domain") then
        match operands domain with
        | [parameter] =>
          if decide (kind parameter = Ident) then
            if bool_decide (text parameter ∈ allowed) then inner
            else Some ("unknown parameter '" +:+ text parameter +:+ "' in quantifier domain")
          else Some "'domain' needs a declared parameter name"
        | _ => Some "'domain' needs a declared parameter name"
        end
      else if decide (kind domain = Call ∧ text domain = "executors") then
        match operands domain with
        | [k] => match complaint allowed k with Some m => Some m | None => inner end
        | _ => Some "'executors' takes a kind argument"
        end
      else Some ("expected a quantifier domain " +:+
                 "('domain(<param>)', 'executors(<kind>)', or 'dimensions')")
    | _ => Some ""
    end
  end.

Definition validateExpr (source : string) (expr : Expr) (allowed : gset string) : parser unit :=
  match complaint allowed expr with
  | None => mret tt
  | Some message => failAt source message
  end.

(** The first diagnostic about the subject of a literal machine query. *)
Fixpoint resolveMachineQueries (resolver : string → string → option string) (expr : Expr) : string :=
  let inner :=
    (fix go es := match es with
                  | [] => ""
                  | e :: es => let message := resolveMachineQueries resolver e in
                               if str_empty message then go es else message
                  end) (operands expr) in
  match operands expr with
  | [subject] =>
    if decide (kind expr = Call ∧ kind subject = StringLit) then
      if contains ["machine.compute"; "machine.memory"] (text expr) then
        match resolver (text expr) (text subject) with Some m => m | None => inner end
      else inner
    else inner
  | _ => inner
  end.

(** ** Evaluation *)
Inductive EvalValue := VInt (i : Z) | VStr (s : string) | VHandle (s : string).

(** The errors an evaluation returns, by the message they carry, and the two
    cases in which C++ defines no result: a signed overflow and an operand that
    is not there. *)
Inductive eval_error :=
| RequiresIntegers (op : string)
| MixedComparison
| DivisionByZero
| UnknownOperator (op : string)
| WrongArguments (callee : string)
| NeedsString (callee : string)
| NonPositiveDivisor
| UnknownFunction (callee : string)
| NonMachineValue (member : string)
| MalformedHandle
| AppliesToOther (member : string)
| UnknownComputeKind (subject : string)
| UnmodelledType (subject dtype : string)
| UnknownMemory (subject : string)
| UnknownQuery (member : string)
| UnknownIdentifier (name : string)
| NoResolver
| UnknownDomain (name : string)
| UnknownExecutorKind (k : string)
| NoExecutors (k : string)
| UnknownQuantifierDomain
| NonIntegerBody
| Undecided
| UndefinedOverflow
| UndefinedOperand.

Record QuantifierBudget := mkBudget { limit : Z; used : Z; exhausted : bool }.
Definition kDefaultQuantifierIterations : Z := 100000.

(** [QuantifierBudget::step]. *)
Definition budget_step (b : QuantifierBudget) : bool * QuantifierBudget :=
  if bool_decide (limit b <= used b) then (false, mkBudget (limit b) (used b) true)
  else (true, mkBudget (limit b) (u64 (used b + 1)) (exhausted b)).

(** An evaluation threads the budget. *)
Definition eval (A : Type) : Type := QuantifierBudget → result eval_error A * QuantifierBudget.
#[export] Instance eval_ret : MRet eval := λ A a b, (Ok a, b).
#[export] Instance eval_bind : MBind eval := λ A B f m b,
  match m b with
  | (Ok a, b) => f a b
  | (Err e, b) => (Err e, b)
  end.
Definition evalError {A} (e : eval_error) : eval A := λ b, (Err e, b).

(** A result of signed arithmetic. *)
Definition makeInt (z : Z) : eval EvalValue :=
  if bool_decide (in_i64 z) then mret (VInt z) else evalError UndefinedOverflow.
Definition makeBool (b : bool) : eval EvalValue := mret (VInt (if b then 1 else 0)).

Definition divide (l r : Z) : eval EvalValue :=
  if bool_decide (r = 0) then evalError DivisionByZero else makeInt (Z.quot l r).
(** INT64_MIN % -1 overflows like the quotient. *)
Definition remainder (l r : Z) : eval EvalValue :=
  if bool_decide (r = 0) then evalError DivisionByZero
  else if bool_decide (in_i64 (Z.quot l r)) then makeInt (Z.rem l r)
  else evalError UndefinedOverflow.

Definition evalBinary (op : string) (lhs rhs : EvalValue) : eval EvalValue :=
  if contains ["&&"; "||"] op then
    match lhs, rhs with
    | VInt l, VInt r =>
      let l := bool_decide (l ≠ 0) in
      let r := bool_decide (r ≠ 0) in
      makeBool (if decide (op = "&&") then l && r else l || r)
    | _, _ => evalError (RequiresIntegers op)
    end
  else if contains ["=="; "!="] op then
    let answer (equal : bool) := makeBool (Bool.eqb (bool_decide (op = "==")) equal) in
    match lhs, rhs with
    | VInt l, VInt r => answer (bool_decide (l = r))
    | VStr l, VStr r | VHandle l, VHandle r => answer (bool_decide (l = r))
    | _, _ => evalError MixedComparison
    end
  else
    match lhs, rhs with
    | VInt l, VInt r =>
      if decide (op = "<") then makeBool (bool_decide (l < r))
      else if decide (op = "<=") then makeBool (bool_decide (l <= r))
      else if decide (op = ">") then makeBool (bool_decide (l > r))
      else if decide (op = ">=") then makeBool (bool_decide (l >= r))
      else if decide (op = "+") then makeInt (l + r)
      else if decide (op = "-") then makeInt (l - r)
      else if decide (op = "*") then makeInt (l * r)
      else if decide (op = "/") then divide l r
      else if decide (op = "%") then remainder l r
      else evalError (UnknownOperator op)
    | _, _ => evalError (RequiresIntegers op)
    end.

Definition evalFunction (callee : string) (lhs rhs : EvalValue) : eval EvalValue :=
  match lhs, rhs with
  | VInt l, VInt r =>
    if decide (callee = "floordiv") then divide l r
    else if decide (callee = "mod") then remainder l r
    else if decide (callee = "ceildiv") then
      if bool_decide (r <= 0) then evalError NonPositiveDivisor
      else if bool_decide (in_i64 (l + r) ∧ in_i64 (l + r - 1))
      then makeInt (Z.quot (l + r - 1) r)
      else evalError UndefinedOverflow
    else if decide (callee = "min") then makeInt (Z.min l r)
    else if decide (callee = "max") then makeInt (Z.max l r)
    else evalError (UnknownFunction callee)
  | _, _ => evalError (RequiresIntegers callee)
  end.

Definition isMachineCall (callee : string) : bool := contains ["machine.compute"; "machine.memory"] callee.

(** A member query on a handle [<callee>:<subject>]. *)
Definition evalMember (machine : MachineModel) (member handle : string) (argument : option (eval EvalValue)) :
    eval EvalValue :=
  match str_find ":" handle with
  | None => evalError MalformedHandle
  | Some colon =>
    let isCompute := String.prefix "machine.compute:" handle in
    let subject := str_drop (S colon) handle in
    if decide (member = "count") then
      if negb isCompute then evalError (AppliesToOther member)
      else
        let count := Z.of_nat (length (filter (λ c, cmp_kind c = subject) (computes machine))) in
        if bool_decide (count = 0) then evalError (UnknownComputeKind subject) else makeInt count
    else if decide (member = "lanes") then
      if negb isCompute then evalError (AppliesToOther member)
      else match argument with
      | None => evalError (WrongArguments member)
      | Some dtype =>
        dtype ← dtype;
        match dtype with
        | VStr dtype =>
          match lanesFor machine subject dtype with
          | Some lanes => mret (VInt lanes)
          | None => evalError (UnmodelledType subject dtype)
          end
        | _ => evalError (NeedsString member)
        end
      end
    else if contains ["capacity_bytes"; "alignment_bytes"] member then
      if isCompute then evalError (AppliesToOther member)
      else match findMemory machine subject with
      | None => evalError (UnknownMemory subject)
      | Some memory =>
        mret (VInt (i64_of_u64 (if decide (member = "capacity_bytes")
                                then capacityBytes memory else alignmentBytes memory)))
      end
    else evalError (UnknownQuery member)
  end.

(** What an evaluation is given besides the expression; [domainResolver] is the
    caller's, and may be absent. *)
Record EvalEnv := mkEnv {
  machine : MachineModel;
  context : LayoutContext;
  domainResolver : option (string → option (list LayoutValue));
}.

Definition valueOf (v : LayoutValue) : EvalValue :=
  match v with IntValue i => VInt i | StrValue s => VStr s end.

Definition evalIdent (env : EvalEnv) (bindings : gmap string LayoutValue) (name : string) : eval EvalValue :=
  match bindings !! name with
  | Some v => mret (valueOf v)
  | None =>
    if decide (name = "rank") then mret (VInt (rank (context env)))
    else if decide (name = "element_type") then mret (VStr (elementType (context env)))
    else evalError (UnknownIdentifier name)
  end.

(** The elements a quantifier ranges over, given its domain and the evaluation of
    the domain's operand. *)
Definition evalDomain (env : EvalEnv) (domain : Expr) (operand : eval EvalValue) :
    eval (list LayoutValue) :=
  if decide (kind domain = Ident ∧ text domain = "dimensions") then
    mret (IntValue <$> seqZ 0 (rank (context env)))
  else if decide (kind domain = Call ∧ text domain = "domain") then
    match domainResolver env with
    | None => evalError NoResolver
    | Some resolve =>
      match operands domain with
      | parameter :: _ =>
        match resolve (text parameter) with
        | None => evalError (UnknownDomain (text parameter))
        | Some values => mret values
        end
      | [] => evalError UndefinedOperand
      end
    end
  else if decide (kind domain = Call ∧ text domain = "executors") then
    k ← operand;
    match k with
    | VStr k =>
      let ids := ex_id <$> filter (λ e, ownerMatches (machine env) k (ex_id e) = true) (executors (machine env)) in
      if bool_decide (ids = []) then
        evalError (if bool_decide (ownerClass (machine env) k = None)
                   then UnknownExecutorKind k else NoExecutors k)
      else mret (StrValue <$> ids)
    | _ => evalError (NeedsString "executors")
    end
  else evalError UnknownQuantifierDomain.

(** The loop over the domain: a counterexample or a witness decides, a spent
    budget yields 0. *)
Fixpoint quantifierLoop (isForall : bool) (body : LayoutValue → eval EvalValue) (domain : list LayoutValue) :
    eval EvalValue := λ b,
  match domain with
  | [] => makeBool isForall b
  | value :: domain =>
    match budget_step b with
    | (false, b) => makeBool false b
    | (true, b) =>
      match body value b with
      | (Err e, b) => (Err e, b)
      | (Ok (VInt i), b) =>
        let truthy := bool_decide (i ≠ 0) in
        if isForall && negb truthy then makeBool false b
        else if negb isForall && truthy then makeBool true b
        else quantifierLoop isForall body domain b
      | (Ok _, b) => (Err NonIntegerBody, b)
      end
    end
  end.

Fixpoint evalImpl (env : EvalEnv) (bindings : gmap string LayoutValue) (expr : Expr) : eval EvalValue :=
  match kind expr with
  | IntLit => mret (VInt (intValue expr))
  | StringLit => mret (VStr (text expr))
  | Ident => evalIdent env bindings (text expr)
  | Unary =>
    match operands expr with
    | operand :: _ =>
      operand ← evalImpl env bindings operand;
      match operand with
      | VInt i => if decide (text expr = "!") then makeBool (bool_decide (i = 0)) else makeInt (- i)
      | _ => evalError (RequiresIntegers (text expr))
      end
    | [] => evalError UndefinedOperand
    end
  | Binary =>
    match operands expr with
    | lhs :: rhs :: _ =>
      lhs ← evalImpl env bindings lhs; rhs ← evalImpl env bindings rhs; evalBinary (text expr) lhs rhs
    | _ => evalError UndefinedOperand
    end
  | Call =>
    if isMachineCall (text expr) then
      match operands expr with
      | [argument] =>
        argument ← evalImpl env bindings argument;
        match argument with
        | VStr s => mret (VHandle (text expr +:+ ":" +:+ s))
        | _ => evalError (NeedsString (text expr))
        end
      | _ => evalError (WrongArguments (text expr))
      end
    else
      match operands expr with
      | [lhs; rhs] =>
        lhs ← evalImpl env bindings lhs; rhs ← evalImpl env bindings rhs; evalFunction (text expr) lhs rhs
      | _ => evalError (WrongArguments (text expr))
      end
  | MemberCall =>
    match operands expr with
    | [] => evalError UndefinedOperand
    | receiver :: arguments =>
      receiver ← evalImpl env bindings receiver;
      match receiver with
      | VHandle handle =>
        evalMember (machine env) (text expr) handle
          (match arguments with [argument] => Some (evalImpl env bindings argument) | _ => None end)
      | _ => evalError (NonMachineValue (text expr))
      end
    end
  | Quantifier =>
    match operands expr with
    | variable :: domain :: body :: _ =>
      values ← evalDomain env domain
        (match operands domain with k :: _ => evalImpl env bindings k | [] => evalError UndefinedOperand end);
      quantifierLoop (bool_decide (text expr = "forall"))
        (λ v, evalImpl env (<[text variable := v]> bindings) body) values
    | _ => evalError UndefinedOperand
    end
  end.

(** Without a budget of the caller's own; with one, the caller gets [evalImpl]. *)
Definition evaluateExpr (env : EvalEnv) (bindings : gmap string LayoutValue) (expr : Expr) :
    result eval_error EvalValue :=
  let '(r, b) := evalImpl env bindings expr (mkBudget kDefaultQuantifierIterations 0 false) in
  match r with
  | Err e => Err e
  | Ok v => if exhausted b then Err Undecided else Ok v
  end.

(** ** Renderings *)
Fixpoint str_join (sep : string) (xs : list string) : string :=
  match xs with
  | [] => ""
  | [x] => x
  | x :: xs => x +:+ sep +:+ str_join sep xs
  end.

Definition lengthPrefixed (s : string) : string := to_string (Z.of_nat (String.length s)) +:+ ":" +:+ s.

Definition prefixOf (k : ExprKind) : string :=
  match k with
  | Call => "call:"
  | MemberCall => "member:"
  | Unary => "unary:"
  | Binary => "binary:"
  | Quantifier => "quant:"
  | _ => ""
  end.

Fixpoint canonicalExprString (expr : Expr) : string :=
  match kind expr with
  | IntLit => "int:" +:+ to_string (intValue expr)
  | StringLit => "str:" +:+ lengthPrefixed (text expr)
  | Ident => "id:" +:+ text expr
  | k => prefixOf k +:+ text expr +:+ "(" +:+
         str_join "," (canonicalExprString <$> operands expr) +:+ ")"
  end.

Definition canonicalValueString (value : LayoutValue) : string :=
  match value with
  | IntValue i => "i:" +:+ to_string i
  | StrValue s => "s:" +:+ lengthPrefixed s
  end.

Definition quoted (s : string) : string := String quote (s +:+ String quote "").
Definition printValue (value : LayoutValue) : string :=
  match value with IntValue i => to_string i | StrValue s => quoted s end.

Definition isCompoundExpr (expr : Expr) : bool :=
  match kind expr with Unary | Binary | Quantifier => true | _ => false end.

Fixpoint printExpr (expr : Expr) : string :=
  let operand (k : nat) := default "" ((printExpr <$> operands expr) !! k) in
  match kind expr with
  | IntLit => to_string (intValue expr)
  | StringLit => quoted (text expr)
  | Ident => text expr
  | Call => text expr +:+ "(" +:+ str_join ", " (printExpr <$> operands expr) +:+ ")"
  | MemberCall =>
    match operands expr with
    | [] => "<null>." +:+ text expr
    | receiver :: arguments =>
      (if isCompoundExpr receiver then "(" +:+ printExpr receiver +:+ ")" else printExpr receiver) +:+
      "." +:+ text expr +:+
      match arguments with
      | [] => ""
      | _ => "(" +:+ str_join ", " (printExpr <$> arguments) +:+ ")"
      end
    end
  | Unary => "(" +:+ text expr +:+ operand 0%nat +:+ ")"
  | Binary => "(" +:+ operand 0%nat +:+ " " +:+ text expr +:+ " " +:+ operand 1%nat +:+ ")"
  | Quantifier =>
    "(" +:+ text expr +:+ " " +:+ operand 0%nat +:+ " in " +:+ operand 1%nat +:+ " : " +:+
    operand 2%nat +:+ ")"
  end.

Definition parseText (t : string) : option (outcome Expr * LlkMapParser) :=
  match lex t with Ok ts => Some (parseExpression "f" (mkParser ts "")) | Err _ => None end.

(** ** Well-formed expressions *)
Fixpoint Expr_nested_ind (P : Expr → Prop)
    (step : ∀ k i t ops, Forall P ops → P (mkExpr k i t ops)) (e : Expr) : P e :=
  match e with
  | mkExpr k i t ops =>
    step k i t ops ((fix go es := match es return Forall P es with
                                  | [] => Forall_nil_2 _
                                  | e :: es => Forall_cons_2 _ _ _ (Expr_nested_ind P step e) (go es)
                                  end) ops)
  end.

Definition isName (s : string) : bool :=
  match s with
  | String c s => isIdentifierStart c && str_all isIdentifierChar s
  | "" => false
  end.
Definition noQuote (s : string) : bool := str_all (λ c, negb (bool_decide (c = quote))) s.
Definition kUnaryOps : list string := ["!"; "-"].
Definition kBinaryOps : list string := ["||"; "&&"; "=="; "!="; "<"; "<="; ">"; ">="; "+"; "-"; "*"; "/"; "%"].
Definition kQuantifiers : list string := ["forall"; "exists"].
Definition isVariable (e : Expr) : bool :=
  match e with mkExpr Ident i t [] => bool_decide (i = 0) && isName t | _ => false end.

(** What the parser builds. *)
Fixpoint wf (e : Expr) : bool :=
  match e with
  | mkExpr k i t ops =>
    forallb wf (match k, ops with Quantifier, _ :: ops => ops | _, _ => ops end) &&
    match k, ops with
    | IntLit, [] => bool_decide (t = "") && bool_decide (0 <= i <= i64_max)
    | StringLit, [] => bool_decide (i = 0) && noQuote t
    | Ident, [] => bool_decide (i = 0) && isName t && negb (contains kQuantifiers t)
    | Call, _ => bool_decide (i = 0) && isName t && negb (contains kQuantifiers t)
    | MemberCall, _ :: _ => bool_decide (i = 0) && isName t
    | Unary, [_] => bool_decide (i = 0) && contains kUnaryOps t
    | Binary, [_; _] => bool_decide (i = 0) && contains kBinaryOps t
    | Quantifier, [v; _; _] => bool_decide (i = 0) && contains kQuantifiers t && isVariable v
    | _, _ => false
    end
  end.

(** ** Parsing ends, and builds well-formed expressions *)
Definition token_ok (t : LlkMapToken) : bool :=
  match tk_kind t with
  | TIdentifier => isName (tk_text t)
  | TInt => bool_decide (0 <= tk_int t <= i64_max)
  | TString => noQuote (tk_text t)
  | TPunct | TEnd => true
  end.

(** A cursor over good tokens that ends with the end token. *)
Record valid (p : LlkMapParser) : Prop := {
  vd_end : ∃ ts t, tokens p = (ts ++ [t])%list ∧ tk_kind t = TEnd;
  vd_tokens : Forall (λ t, token_ok t = true) (tokens p);
}.

Lemma current_ok p : valid p → token_ok (current p) = true.
Proof.
  intros [(ts & t & Ht & _) Hok]. unfold current. destruct (tokens p); [by destruct ts|].
  by apply Forall_cons in Hok as [? _].
Qed.

Lemma advance_valid p : valid p → tk_kind (current p) ≠ TEnd →
  valid (advance p) ∧ S (length (tokens (advance p))) = length (tokens p) ∧ error_ (advance p) = error_ p.
Proof.
  intros [(ts & t & Ht & Hk) Hok] Hc. unfold advance, current in *.
  destruct (tokens p) as [|x [|y xs]] eqn:Hp; [by destruct ts| |].
  - destruct ts as [|z [|]]; [|done..]. injection Ht as ->. done.
  - split_and!; [|done..]. split; cbn.
    + destruct ts as [|z ts]; [done|]. injection Ht as -> Ht. rewrite Ht. by eexists _, _.
    + by apply Forall_cons in Hok as [_ ?].
Qed.

(** [m] returns from [p] with at least [d] tokens consumed and a value in [Q], or
    fails with a message. *)
Definition goodAt {A} (p : LlkMapParser) (d : nat) (Q : A → Prop) (m : parser A) : Prop :=
  match m p with
  | (Parsed a, p') =>
    valid p' ∧ (length (tokens p') + d <= length (tokens p))%nat ∧ Q a ∧ error_ p' = error_ p
  | (Rejected, p') => error_ p' ≠ ""
  | (NoFuel, _) => False
  end.

Lemma good_bind {A B} p d1 d2 (Q : A → Prop) (R : B → Prop) (m : parser A) (f : A → parser B) :
  goodAt p d1 Q m →
  (∀ a p', valid p' → (length (tokens p') + d1 <= length (tokens p))%nat → Q a → goodAt p' d2 R (f a)) →
  goodAt p (d1 + d2) R (m ≫= f).
Proof.
  unfold goodAt, mbind, parser_bind. destruct (m p) as [[a| |] p']; [|done..].
  intros (Hv & Hl & Hq & He) Hf. specialize (Hf a p' Hv Hl Hq).
  destruct (f a p') as [[b| |] p'']; [|done..]. destruct Hf as (? & ? & ? & He').
  split_and!; [done|lia|done|congruence].
Qed.

Lemma good_ret {A} p (Q : A → Prop) (a : A) : valid p → Q a → goodAt p 0 Q (mret a).
Proof. intros Hv Hq. cbn. split_and!; [done|lia|done..]. Qed.

Lemma good_step p : valid p → tk_kind (current p) ≠ TEnd → goodAt p 1 (λ _, True) step.
Proof. intros Hv Hc. destruct (advance_valid p Hv Hc) as (? & ? & ?). cbn. split_and!; [done|lia|done..]. Qed.

Lemma good_fail {A} source p d (Q : A → Prop) m : goodAt p d Q (failAt source m).
Proof.
  unfold goodAt, failAt. cbn. unfold str_empty. case_bool_decide as H; [|done].
  intros Hn. apply (f_equal String.length) in Hn. rewrite !str_app_length in Hn. cbn in Hn. lia.
Qed.

Lemma good_weaken {A} p d d' (Q R : A → Prop) m : goodAt p d Q m → (d' <= d)%nat → (∀ a, Q a → R a) →
  goodAt p d' R m.
Proof. unfold goodAt. destruct (m p) as [[]]; [|done..]. intros (? & ? & ? & ?) ? ?. split_and!; auto. lia. Qed.

Lemma isPunct_live p t : isPunct p t = true → tk_kind (current p) ≠ TEnd.
Proof. unfold isPunct. intros [Hk _]%andb_true_iff. apply bool_decide_eq_true in Hk. congruence. Qed.
Lemma isIdentifier_live p : isIdentifier p = true → tk_kind (current p) ≠ TEnd.
Proof. unfold isIdentifier. intros Hk%bool_decide_eq_true. congruence. Qed.
Lemma anyPunct_spec p ops : anyPunct p ops = true →
  tk_kind (current p) ≠ TEnd ∧ tk_text (current p) ∈ ops.
Proof.
  unfold anyPunct. intros (op & Hin & Hp)%existsb_exists. split; [by eapply isPunct_live|].
  unfold isPunct in Hp. apply andb_true_iff in Hp as [_ ->%bool_decide_eq_true]. by apply list_elem_of_In.
Qed.
#[local] Hint Resolve isPunct_live isIdentifier_live : core.

Section total.
Variable source : string.

Lemma good_expect p t : valid p → goodAt p 1 (λ _, True) (expectPunct source t).
Proof.
  intros Hv. unfold expectPunct, goodAt. destruct (isPunct p t) eqn:Hp.
  - apply (good_step p Hv). eauto.
  - apply (good_fail source p 1 (λ _ : (), True)).
Qed.

Lemma good_identifier p w : valid p → goodAt p 1 (λ s, isName s = true) (expectIdentifier source w).
Proof.
  intros Hv. unfold expectIdentifier, goodAt. destruct (isIdentifier p) eqn:Hp.
  - destruct (advance_valid p Hv) as (? & ? & ?); [eauto|]. pose proof (current_ok p Hv) as Hok.
    unfold isIdentifier in Hp. apply bool_decide_eq_true in Hp. unfold token_ok in Hok. rewrite Hp in Hok.
    split_and!; [done|lia|done..].
  - apply (good_fail source p 1 (λ s, isName s = true)).
Qed.

Definition goodBelow (n : nat) (m : parser Expr) : Prop :=
  ∀ p, valid p → (length (tokens p) <= n)%nat → goodAt p 1 (λ e, wf e = true) m.

Lemma wf_binary op l r : contains kBinaryOps op = true → wf l = true → wf r = true →
  wf (makeExpr Binary op [l; r]) = true.
Proof. intros Ho Hl Hr. cbn -[contains]. by rewrite Hl, Hr, Ho. Qed.

Lemma good_binaryLoop n ops next fuel p lhs : (∀ op, op ∈ ops → contains kBinaryOps op = true) →
  goodBelow n next → valid p → (length (tokens p) <= n)%nat → (length (tokens p) <= fuel)%nat →
  wf lhs = true → goodAt p 0 (λ e, wf e = true) (binaryLoop fuel ops next lhs).
Proof.
  intros Hops Hnext. revert p lhs. induction fuel as [|fuel IH]; intros p lhs Hv Hn Hf Hl.
  { destruct Hv as [(ts & t & Ht & _) _]. rewrite Ht, length_app in Hf. cbn in Hf. lia. }
  unfold goodAt. cbn [binaryLoop]. destruct (anyPunct p ops) eqn:Hany; [|by apply (good_ret p (λ e, wf e = true))].
  apply anyPunct_spec in Hany as [Hlive Hop]. destruct (advance_valid p Hv Hlive) as (Hv' & Hlen & Herr).
  set (op := tk_text (current p)) in *.
  assert (goodAt (advance p) 1 (λ e, wf e = true)
    (rhs ← next; binaryLoop fuel ops next (makeExpr Binary op [lhs; rhs]))) as Hg.
  { apply (good_bind _ 1 0 (λ e, wf e = true)); [apply Hnext; [done|lia]|].
    intros rhs p' Hvp' Hlp' Hrhs. apply IH; [done|lia..|]. by apply wf_binary; [apply Hops| |]. }
  unfold goodAt in Hg. destruct (mbind _ next (advance p)) as [[e| |] p']; [|done..].
  destruct Hg as (? & ? & ? & ?). split_and!; [done|lia|done|congruence].
Qed.

Lemma good_binaryLevel n ops next : (∀ op, op ∈ ops → contains kBinaryOps op = true) →
  goodBelow n next → goodBelow n (binaryLevel ops next).
Proof.
  intros Hops Hnext p Hv Hn. apply (good_bind _ 1 0 (λ e, wf e = true)); [by apply Hnext|].
  intros lhs p' Hv' Hl Hw. apply (good_binaryLoop n); [done..|lia|lia|done].
Qed.

Lemma good_after {A} p d (Q : A → Prop) (m : parser A) : valid p → tk_kind (current p) ≠ TEnd →
  goodAt (advance p) d Q m → goodAt p (S d) Q (λ p, m (advance p)).
Proof.
  intros Hv Hlive. destruct (advance_valid p Hv Hlive) as (_ & Hlen & Herr). unfold goodAt.
  destruct (m (advance p)) as [[a| |] p']; [|done..]. intros (? & ? & ? & ?). split_and!; [done|lia|done|congruence].
Qed.

Lemma good_stepped {A} p d (Q : A → Prop) (m : parser A) : valid p → tk_kind (current p) ≠ TEnd →
  goodAt (advance p) d Q m → goodAt p (S d) Q (_ ← step; m).
Proof. apply good_after. Qed.

Section good_grammar.
Variables (n : nat) (rec : parser Expr).
Hypothesis Hrec : ∀ p, valid p → (length (tokens p) < n)%nat → goodAt p 1 (λ e, wf e = true) rec.

Definition wfs (es : list Expr) : Prop := forallb wf es = true.

Lemma good_argsLoop fuel p out : valid p → (length (tokens p) < n)%nat → (length (tokens p) <= fuel)%nat →
  wfs out → goodAt p 1 wfs (argsLoop source rec fuel out).
Proof.
  revert p out. induction fuel as [|fuel IH]; intros p out Hv Hn Hf Ho.
  { destruct Hv as [(ts & t & Ht & _) _]. rewrite Ht, length_app in Hf. cbn in Hf. lia. }
  cbn [argsLoop]. apply (good_bind _ 1 0 (λ e, wf e = true)); [by apply Hrec|].
  intros arg p' Hv' Hl Hw. unfold get, goodAt. fold (@goodAt (list Expr)).
  assert (wfs (out ++ [arg])) as Hout.
  { unfold wfs in *. rewrite forallb_app, Ho. cbn. by rewrite Hw. }
  destruct (isPunct p' ",") eqn:Hc.
  - apply (good_weaken p' 2 0 wfs wfs); [|lia|done]. apply good_stepped; [done|eauto|].
    destruct (advance_valid p' Hv') as (? & ? & ?); [eauto|]. apply IH; [done|lia..|done].
  - apply (good_weaken p' 1 0 wfs wfs); [|lia|done].
    apply (good_bind _ 1 0 (λ _, True)); [by apply good_expect|]. intros _ p'' Hv'' _ _. by apply good_ret.
Qed.

Lemma good_parseCallArgs p : valid p → (length (tokens p) <= n)%nat →
  goodAt p 1 wfs (parseCallArgs source rec).
Proof.
  intros Hv Hn. apply (good_bind _ 1 0 (λ _, True)); [by apply good_expect|].
  intros _ p' Hv' Hl _. unfold get, goodAt. destruct (isPunct p' ")") eqn:Hc.
  - apply (good_weaken p' 1 0 wfs wfs); [|lia|done]. apply good_stepped; [done|eauto|]. apply good_ret; [|done].
    apply (advance_valid p' Hv'). eauto.
  - apply (good_weaken p' 1 0 wfs wfs); [|lia|done]. apply good_argsLoop; [done|lia..|done].
Qed.

Lemma good_parseQuantifier p : valid p → (length (tokens p) <= n)%nat → isIdentifier p = true →
  contains kQuantifiers (tk_text (current p)) = true →
  goodAt p 1 (λ e, wf e = true) (parseQuantifier source rec).
Proof.
  intros Hv Hn Hid Hq. unfold parseQuantifier, get.
  apply (good_stepped p 0); [done|eauto|]. destruct (advance_valid p Hv) as (Hv1 & Hl1 & _); [eauto|].
  apply (good_weaken _ 1 0 (λ e, wf e = true) (λ e, wf e = true)); [|lia|done].
  apply (good_bind _ 1 0 (λ s, isName s = true)); [by apply good_identifier|].
  intros v p2 Hv2 Hl2 Hname. unfold goodAt.
  destruct (isIdentifier p2 && _) eqn:Hin; [|apply (good_fail source p2 0 (λ e, wf e = true))].
  apply andb_true_iff in Hin as [Hin _].
  apply (good_weaken p2 1 0 (λ e, wf e = true) (λ e, wf e = true)); [|lia|done].
  apply good_stepped; [done|eauto|]. destruct (advance_valid p2 Hv2) as (Hv3 & Hl3 & _); [eauto|].
  apply (good_weaken _ 1 0 (λ e, wf e = true) (λ e, wf e = true)); [|lia|done].
  apply (good_bind _ 1 0 (λ e, wf e = true)); [apply Hrec; [done|lia]|]. intros domain p4 Hv4 Hl4 Hd.
  apply (good_weaken _ 1 0 (λ e, wf e = true) (λ e, wf e = true)); [|lia|done].
  apply (good_bind _ 1 0 (λ _, True)); [by apply good_expect|]. intros _ p5 Hv5 Hl5 _.
  apply (good_weaken _ 1 0 (λ e, wf e = true) (λ e, wf e = true)); [|lia|done].
  apply (good_bind _ 1 0 (λ e, wf e = true)); [apply Hrec; [done|lia]|]. intros body p6 Hv6 Hl6 Hb.
  apply good_ret; [done|]. cbn -[contains]. by rewrite Hd, Hb, Hq, Hname.
Qed.

Lemma good_parsePrimary : goodBelow n (parsePrimary source rec).
Proof.
  intros p Hv Hn. unfold parsePrimary, get. pose proof (current_ok p Hv) as Hok. unfold token_ok in Hok.
  unfold goodAt. fold (@goodAt Expr).
  destruct (tk_kind (current p)) eqn:Hk.
  - destruct (contains ["forall"; "exists"] (tk_text (current p))) eqn:Hq.
    + apply good_parseQuantifier; [done..| |done]. unfold isIdentifier. by rewrite Hk.
    + apply good_stepped; [done|congruence|]. destruct (advance_valid p Hv) as (Hv1 & Hl1 & _); [congruence|].
      unfold get, goodAt. destruct (isPunct (advance p) "(") eqn:Hc.
      * apply (good_weaken _ 1 0 (λ e, wf e = true) (λ e, wf e = true)); [|lia|done].
        apply (good_bind _ 1 0 wfs); [apply good_parseCallArgs; [done|lia]|]. intros args p2 Hv2 _ Ha.
        apply good_ret; [done|]. unfold wfs in Ha. cbn -[contains]. rewrite Ha, Hok. unfold kQuantifiers. by rewrite Hq.
      * apply good_ret; [done|]. cbn -[contains]. rewrite Hok. unfold kQuantifiers. by rewrite Hq.
  - apply good_stepped; [done|congruence|]. apply good_ret; [apply advance_valid; [done|congruence]|].
    cbn. by rewrite Hok.
  - apply good_stepped; [done|congruence|]. apply good_ret; [apply advance_valid; [done|congruence]|].
    cbn. by rewrite Hok.
  - destruct (isPunct p "(") eqn:Hc; [|apply (good_fail source p 1 (λ e, wf e = true))].
    apply good_stepped; [done|eauto|]. destruct (advance_valid p Hv) as (Hv1 & Hl1 & _); [eauto|].
    apply (good_weaken _ 1 0 (λ e, wf e = true) (λ e, wf e = true)); [|lia|done].
    apply (good_bind _ 1 0 (λ e, wf e = true)); [apply Hrec; [done|lia]|]. intros inner p2 Hv2 _ Hi.
    apply (good_weaken _ 1 0 (λ e, wf e = true) (λ e, wf e = true)); [|lia|done].
    apply (good_bind _ 1 0 (λ _, True)); [by apply good_expect|]. intros _ p3 Hv3 _ _. by apply good_ret.
  - destruct (isPunct p "(") eqn:Hc; [|apply (good_fail source p 1 (λ e, wf e = true))].
    apply isPunct_live in Hc. congruence.
Qed.

Lemma good_postfixLoop fuel p expr : valid p → (length (tokens p) <= n)%nat → (length (tokens p) <= fuel)%nat →
  wf expr = true → goodAt p 0 (λ e, wf e = true) (postfixLoop source rec fuel expr).
Proof.
  revert p expr. induction fuel as [|fuel IH]; intros p expr Hv Hn Hf Hw.
  { destruct Hv as [(ts & t & Ht & _) _]. rewrite Ht, length_app in Hf. cbn in Hf. lia. }
  unfold goodAt. cbn [postfixLoop]. destruct (isPunct p ".") eqn:Hc; [|by apply (good_ret p (λ e, wf e = true))].
  apply (good_weaken p 1 0 (λ e, wf e = true) (λ e, wf e = true)); [|lia|done].
  apply good_stepped; [done|eauto|]. destruct (advance_valid p Hv) as (Hv1 & Hl1 & _); [eauto|].
  apply (good_weaken _ 1 0 (λ e, wf e = true) (λ e, wf e = true)); [|lia|done].
  apply (good_bind _ 1 0 (λ s, isName s = true)); [by apply good_identifier|]. intros member p2 Hv2 Hl2 Hname.
  apply (good_bind _ 0 0 wfs).
  - unfold get, goodAt. destruct (isPunct p2 "(") eqn:Hc2; [|by apply (good_ret p2 wfs)].
    apply (good_weaken _ 1 0 wfs wfs); [|lia|done]. apply good_parseCallArgs; [done|lia].
  - intros args p3 Hv3 Hl3 Ha. apply IH; [done|lia..|]. unfold wfs in Ha. cbn. by rewrite Hw, Ha, Hname.
Qed.

Lemma good_parsePostfix : goodBelow n (parsePostfix source rec).
Proof.
  intros p Hv Hn. apply (good_bind _ 1 0 (λ e, wf e = true)); [by apply good_parsePrimary|].
  intros e p' Hv' Hl Hw. apply good_postfixLoop; [done|lia|lia|done].
Qed.

Lemma good_unaryLoop fuel p : valid p → (length (tokens p) <= n)%nat → (length (tokens p) <= fuel)%nat →
  goodAt p 1 (λ e, wf e = true) (unaryLoop source rec fuel).
Proof.
  revert p. induction fuel as [|fuel IH]; intros p Hv Hn Hf.
  { destruct Hv as [(ts & t & Ht & _) _]. rewrite Ht, length_app in Hf. cbn in Hf. lia. }
  unfold goodAt. cbn [unaryLoop]. destruct (anyPunct p ["!"; "-"]) eqn:Hany; [|by apply good_parsePostfix].
  apply anyPunct_spec in Hany as [Hlive Hop]. destruct (advance_valid p Hv Hlive) as (Hv1 & Hl1 & _).
  apply good_stepped; [done..|].
  apply (good_weaken _ 1 0 (λ e, wf e = true) (λ e, wf e = true)); [|lia|done].
  apply (good_bind _ 1 0 (λ e, wf e = true)); [apply IH; [done|lia..]|]. intros operand p2 Hv2 _ Hw.
  apply good_ret; [done|]. cbn -[contains]. rewrite Hw. apply contains_true in Hop. unfold kUnaryOps. by rewrite Hop.
Qed.

Lemma good_parseUnary : goodBelow n (parseUnary source rec).
Proof. intros p Hv Hn. by apply good_unaryLoop. Qed.

Lemma good_parseOr : goodBelow n (parseOr source rec).
Proof.
  unfold parseOr, parseAnd, parseEquality, parseRelational, parseAdditive, parseMultiplicative.
  repeat (apply good_binaryLevel;
    [intros op Hop; repeat (apply elem_of_cons in Hop as [->|Hop]; [done|]); by apply elem_of_nil in Hop|]).
  apply good_parseUnary.
Qed.
End good_grammar.

Lemma good_expressionFuel f p : valid p → (length (tokens p) < f)%nat →
  goodAt p 1 (λ e, wf e = true) (expressionFuel source f).
Proof.
  revert p. induction f as [|f IH]; intros p Hv Hl; [lia|]. cbn [expressionFuel].
  apply (good_parseOr f); [|done|lia]. intros p' Hv' Hl'. by apply IH.
Qed.
End total.

(** Parsing ends on every token vector the lexer can produce: it returns a
    well-formed expression with the cursor further on, on a vector that still ends
    with the end token, or it fails with a message.  It never gets stuck. *)
Theorem parseExpression_total source p : valid p →
  match parseExpression source p with
  | (Parsed e, p') => wf e = true ∧ valid p' ∧ (length (tokens p') < length (tokens p))%nat ∧ error_ p' = error_ p
  | (Rejected, p') => error_ p' ≠ ""
  | (NoFuel, _) => False
  end.
Proof.
  intros Hv. pose proof (good_expressionFuel source (S (length (tokens p))) p Hv ltac:(lia)) as H.
  unfold goodAt in H. unfold parseExpression, get. destruct (expressionFuel _ _ p) as [[e| |] p']; [|done..].
  destruct H as (? & ? & ? & ?). split_and!; [done..|lia|done].
Qed.

(** ** Lexing what is printed

    Positions matter only to messages, so texts are related to lexemes. *)
Definition Lexeme : Type := TokenKind * string * Z.
Definition lexeme (t : LlkMapToken) : Lexeme := (tk_kind t, tk_text t, tk_int t).
Abbreviation P t := (TPunct, t%string, 0).
Definition theEnd : Lexeme := (TEnd, "", 0).

Lemma str_drop_length n s : String.length (str_drop n s) = (String.length s - n)%nat.
Proof. revert n. induction s as [|c s IH]; intros [|n]; cbn; auto. Qed.

Lemma span_length_le p s : (span_length p s <= String.length s)%nat.
Proof. induction s as [|c s IH]; cbn; [lia|]. destruct (p c); lia. Qed.

Lemma str_find_head pat c s k : str_find pat (String c s) = Some k → String.prefix pat (String c s) = false →
  (1 <= k)%nat.
Proof.
  intros H Hp. cbn [str_find] in H. rewrite Hp in H. destruct (str_find pat s); [|done]. cbn in H.
  injection H as <-. lia.
Qed.

Definition count (item : lex_item) : nat := match item with Skip n | Emit _ _ _ n => n end.

(** The first characters of the lexemes are told apart by their codes. *)
Lemma prefix_head p c a b : String.prefix (String p a) (String c b) = true → c = p.
Proof. cbn. destruct (ascii_dec p c) as [<-|]; done. Qed.

Lemma lexItem_progress c rest item : lexItem c rest = Ok item → (1 <= count item)%nat.
Proof.
  unfold lexItem. destruct (isBlank c); [intros [= <-]; cbn; lia|].
  destruct (String.prefix "//" (String c rest)) eqn:Hc.
  { destruct (str_find newline (String c rest)) as [k|] eqn:Hf; unfold default, id; intros H; injection H as <-;
      cbn [count]; [|cbn; lia].
    apply str_find_head in Hf; [done|]. by apply prefix_head in Hc as ->. }
  destruct (String.prefix "/*" (String c rest)).
  { destruct (str_find _ _); [|done]. intros [= <-]. cbn. lia. }
  destruct (isIdentifierStart c); [intros [= <-]; cbn; lia|].
  destruct (isdigit c) eqn:Hd.
  { intros [_ H]%fail_then_ok. injection H as <-. cbn. rewrite Hd. lia. }
  destruct (bool_decide (c = quote)); [intros [_ H]%fail_then_ok; injection H as <-; cbn; lia|].
  destruct (List.find _ kTwoChar); [intros [= <-]; cbn; lia|].
  intros [_ H]%fail_then_ok. injection H as <-. cbn. lia.
Qed.

(** More fuel than characters changes nothing. *)
Lemma lex_loop_fuel n text line column : (String.length text <= n)%nat →
  lex_loop n text line column = lex_loop (String.length text) text line column.
Proof.
  revert n text line column.
  assert (∀ k n m text line column, (String.length text <= k)%nat → (String.length text <= n)%nat →
    (String.length text <= m)%nat → lex_loop n text line column = lex_loop m text line column) as H.
  { induction k as [|k IH]; intros n m [|c rest] line column Hk Hn Hm; [by destruct n, m| |by destruct n, m|].
    { cbn in Hk. lia. }
    cbn [String.length] in *. destruct n as [|n]; [lia|]. destruct m as [|m]; [lia|]. cbn [lex_loop].
    destruct (lexItem c rest) as [item|] eqn:Hi; [|done]. cbn [mbind result_bind].
    apply lexItem_progress in Hi.
    assert (String.length (str_drop (count item) (String c rest)) <= String.length rest)%nat as Hd.
    { rewrite str_drop_length. cbn [String.length]. lia. }
    destruct item as [i|kd t v i]; cbn [count] in *; destruct (advancePos _ _ _);
      rewrite (IH n m) by lia; done. }
  intros n text line column Hn. by apply (H (String.length text)).
Qed.

Definition Lexes (text : string) (ls : list Lexeme) : Prop :=
  ∀ line column, ∃ ts, lex_loop (String.length text) text line column = Ok ts ∧ lexeme <$> ts = (ls ++ [theEnd])%list.

Lemma Lexes_nil : Lexes "" [].
Proof. intros line column. by eexists. Qed.

Lemma Lexes_item c rest item ls : lexItem c rest = Ok item →
  Lexes (str_drop (count item) (String c rest)) ls →
  Lexes (String c rest) (match item with Emit k t i _ => (k, t, i) :: ls | Skip _ => ls end).
Proof.
  intros Hi Hl line column. cbn [String.length lex_loop]. rewrite Hi. cbn [mbind result_bind].
  apply lexItem_progress in Hi.
  assert (String.length (str_drop (count item) (String c rest)) <= String.length rest)%nat as Hd.
  { rewrite str_drop_length. cbn [String.length]. lia. }
  destruct item as [n|k t i n]; cbn [count] in *; destruct (advancePos _ _ _) as [line' column'];
    destruct (Hl line' column') as (ts & Hts & Hls); rewrite lex_loop_fuel, Hts by done.
  - by exists ts.
  - cbn. eexists. split; [done|]. cbn. by rewrite Hls.
Qed.

(** What follows a text does not extend its last lexeme. *)
Definition notHead (p : ascii → bool) (s : string) : Prop :=
  match s with "" => True | String c _ => p c = false end.

Lemma span_length_app p a b : str_all p a = true → notHead p b → span_length p (a +:+ b) = String.length a.
Proof.
  induction a as [|c a IH]; intros Ha Hb.
  - rewrite str_app_nil_l. destruct b as [|d b]; [done|]. cbn [span_length]. cbn in Hb. by rewrite Hb.
  - cbn [str_all] in Ha. apply andb_true_iff in Ha as [Hc Ha]. rewrite str_app_cons. cbn [span_length].
    rewrite Hc. cbn [String.length]. by rewrite IH.
Qed.
Lemma str_take_app a b : str_take (String.length a) (a +:+ b) = a.
Proof. induction a as [|c a IH]; [by destruct b|]. rewrite str_app_cons. cbn. by rewrite IH. Qed.
Lemma str_drop_app a b : str_drop (String.length a) (a +:+ b) = b.
Proof. induction a as [|c a IH]; [by destruct b|]. rewrite str_app_cons. cbn. by rewrite IH. Qed.

Lemma start_plain c : isIdentifierStart c = true ∨ isdigit c = true ∨ c = quote →
  isBlank c = false ∧ c ≠ "/"%char.
Proof.
  intros H. split.
  - destruct (isBlank c) eqn:Hb; [|done]. unfold isBlank in Hb.
    rewrite !orb_true_iff, !bool_decide_eq_true in Hb.
    destruct Hb as [[[->| ->]| ->]| ->]; destruct H as [H|[H|H]]; vm_compute in H; discriminate H.
  - intros ->. destruct H as [H|[H|H]]; vm_compute in H; discriminate H.
Qed.

Lemma not_comment c rest : c ≠ "/"%char →
  String.prefix "//" (String c rest) = false ∧ String.prefix "/*" (String c rest) = false.
Proof. intros Hc. split; apply not_true_iff_false; intros H%prefix_head; congruence. Qed.

Lemma Lexes_name s rest ls : isName s = true → notHead isIdentifierChar rest → Lexes rest ls →
  Lexes (s +:+ rest) ((TIdentifier, s, 0) :: ls).
Proof.
  destruct s as [|c s]; [done|]. cbn [isName]. intros [Hc Hs]%andb_true_iff Hr Hl. rewrite str_app_cons.
  destruct (start_plain c) as [Hb Hsl]; [auto|]. destruct (not_comment c (s +:+ rest) Hsl) as [H1 H2].
  apply (Lexes_item c (s +:+ rest) (Emit TIdentifier (String c s) 0 (String.length (String c s)))).
  - unfold lexItem. rewrite Hb, H1, H2, Hc, span_length_app by done. cbn [str_take]. by rewrite str_take_app.
  - cbn [count String.length]. rewrite <- str_app_cons.
    change (S (String.length s)) with (String.length (String c s)). by rewrite str_drop_app.
Qed.

Lemma Lexes_string s rest ls : noQuote s = true → Lexes rest ls →
  Lexes (quoted s +:+ rest) ((TString, s, 0) :: ls).
Proof.
  intros Hs Hl. unfold quoted. rewrite str_app_cons, str_app_assoc, str_app_cons, str_app_nil_l.
  destruct (start_plain quote) as [Hb Hsl]; [by right; right|].
  apply (Lexes_item quote _ (Emit TString s 0 (String.length s + 2))).
  - unfold lexItem. rewrite Hb. destruct (not_comment quote (s +:+ String quote rest) Hsl) as [-> ->].
    change (isIdentifierStart quote) with false. change (isdigit quote) with false.
    rewrite (bool_decide_true (quote = quote)), span_length_app by done. rewrite bool_decide_false.
    2: { rewrite str_app_length. cbn. lia. }
    cbn [fail_if mbind result_bind]. by rewrite str_take_app.
  - cbn [count]. rewrite Nat.add_comm.
    change (Lexes (str_drop (S (String.length s)) (s +:+ String quote rest)) ls).
    assert (str_drop (S (String.length s)) (s +:+ String quote rest) = rest) as ->; [|done].
    clear. induction s as [|c s IH]; [done|]. rewrite str_app_cons. exact IH.
Qed.

(** *** Integers *)
Lemma pretty_char_digit d : (d < 10)%N →
  isdigit (pretty_N_char d) = true ∧ digit_value (pretty_N_char d) = Z.of_N d.
Proof.
  intros Hd. assert (d = 0 ∨ d = 1 ∨ d = 2 ∨ d = 3 ∨ d = 4 ∨ d = 5 ∨ d = 6 ∨ d = 7 ∨ d = 8 ∨ d = 9)%N as H by lia.
  by repeat destruct H as [->|H]; subst.
Qed.

Lemma pretty_go_digits x s : str_all isdigit s = true →
  str_all isdigit (pretty_N_go x s) = true ∧ digits_value 0 (pretty_N_go x s) = digits_value (Z.of_N x) s.
Proof.
  revert s. induction (N.lt_wf_0 x) as [x _ IH]; intros s Hs.
  destruct (decide (x = 0)%N) as [->|]; [by rewrite pretty_N_go_0|].
  rewrite pretty_N_go_step by lia. destruct (pretty_char_digit (x mod 10)) as [Hd Hv]; [by apply N.mod_lt|].
  destruct (IH (x `div` 10)%N) with (s := String (pretty_N_char (x mod 10)) s) as [H1 H2].
  { apply N.div_lt; lia. }
  { cbn [str_all]. by rewrite Hd. }
  split; [done|]. rewrite H2. cbn [digits_value]. rewrite Hv. f_equal.
  rewrite (N.div_mod x 10) at 3 by done. lia.
Qed.

Lemma to_string_digits i : 0 <= i → str_all isdigit (to_string i) = true ∧ digits_value 0 (to_string i) = i ∧
  to_string i ≠ "".
Proof.
  intros Hi. destruct i as [|p|p]; [done| |lia]. change (to_string (Z.pos p)) with (pretty (N.pos p)).
  unfold pretty, pretty_N. case_decide; [done|].
  destruct (pretty_go_digits (N.pos p) "") as [H1 H2]; [done|]. split_and!; [done|by rewrite H2|].
  intros H0. by rewrite H0 in H2.
Qed.

Lemma digit_not_start c : isdigit c = true → isIdentifierStart c = false.
Proof.
  unfold isdigit, isIdentifierStart, isalpha, in_range. intros H.
  rewrite andb_true_iff, !Nat.leb_le in H. change (nat_of_ascii "0") with 48%nat in H.
  change (nat_of_ascii "9") with 57%nat in H. apply orb_false_iff. split.
  - apply orb_false_iff. rewrite !andb_false_iff, !Nat.leb_gt.
    change (nat_of_ascii "a") with 97%nat. change (nat_of_ascii "A") with 65%nat. split; left; lia.
  - apply bool_decide_eq_false. intros ->. vm_compute in H. lia.
Qed.

Lemma Lexes_int i rest ls : 0 <= i <= i64_max → notHead isdigit rest → Lexes rest ls →
  Lexes (to_string i +:+ rest) ((TInt, to_string i, i) :: ls).
Proof.
  intros Hi Hr Hl. destruct (to_string_digits i) as (Hd & Hv & Hne); [lia|].
  destruct (to_string i) as [|c s] eqn:Hs; [done|]. rewrite str_app_cons.
  assert (isdigit c = true) as Hc by (cbn in Hd; by apply andb_true_iff in Hd as [? _]).
  destruct (start_plain c) as [Hb Hsl]; [auto|]. destruct (not_comment c (s +:+ rest) Hsl) as [H1 H2].
  apply (Lexes_item c (s +:+ rest) (Emit TInt (String c s) i (String.length (String c s)))).
  - unfold lexItem. rewrite Hb, H1, H2, (digit_not_start c Hc), Hc. rewrite <- str_app_cons, span_length_app by done.
    rewrite str_take_app, Hv. by rewrite bool_decide_false by lia.
  - cbn [count]. rewrite <- str_app_cons. by rewrite str_drop_app.
Qed.

(** *** Punctuation *)
Lemma Lexes_blank rest ls : Lexes rest ls → Lexes (" " +:+ rest) ls.
Proof. intros Hl. rewrite str_app_cons, str_app_nil_l. by apply (Lexes_item _ _ (Skip 1)). Qed.

Lemma Lexes_one c rest ls : lexItem c rest = Ok (Emit TPunct (String c "") 0 1) → Lexes rest ls →
  Lexes (String c rest) (P (String c "") :: ls).
Proof. intros Hi Hl. by apply (Lexes_item _ _ _ _ Hi). Qed.

Lemma Lexes_two c d rest ls : lexItem c (String d rest) = Ok (Emit TPunct (String c (String d "")) 0 2) →
  Lexes rest ls → Lexes (String c (String d rest)) (P (String c (String d "")) :: ls).
Proof. intros Hi Hl. by apply (Lexes_item _ _ _ _ Hi). Qed.

Lemma Lexes_op op rest ls : contains kBinaryOps op = true → Lexes rest ls →
  Lexes (op +:+ " " +:+ rest) (P op :: ls).
Proof.
  intros Ho%contains_true Hl%Lexes_blank.
  repeat (apply elem_of_cons in Ho as [->|Ho];
    [first [apply Lexes_two; [reflexivity|exact Hl] | apply Lexes_one; [reflexivity|exact Hl]]|]).
  by apply elem_of_nil in Ho.
Qed.

(** Parentheses, commas and colons are never part of a longer lexeme. *)
Lemma Lexes_plain c rest ls : str_mem c "(),:" = true → Lexes rest ls →
  Lexes (String c rest) (P (String c "") :: ls).
Proof.
  intros Hc. apply Lexes_one. cbn [str_mem] in Hc. rewrite !orb_true_iff, !bool_decide_eq_true in Hc.
  destruct Hc as [->|[->|[->|[->|Hc]]]]; [reflexivity..|done].
Qed.

(** How a printed expression can start. *)
Definition isStart (c : ascii) : Prop :=
  isIdentifierStart c = true ∨ isdigit c = true ∨ c = quote ∨ c = "("%char.
Lemma isStart_not c : isStart c → c ≠ ">"%char ∧ c ≠ "="%char ∧ c ≠ "."%char.
Proof. intros H. split_and!; intros ->; destruct H as [H|[H|[H|H]]]; vm_compute in H; discriminate H. Qed.

Lemma Lexes_unary op c rest ls : contains kUnaryOps op = true → isStart c → Lexes (String c rest) ls →
  Lexes (op +:+ String c rest) (P op :: ls).
Proof.
  intros Ho%contains_true Hc Hl. destruct (isStart_not c Hc) as (H1 & H2 & _).
  repeat (apply elem_of_cons in Ho as [->|Ho];
    [apply Lexes_one; [|exact Hl]; clear -H1 H2;
     destruct c as [[] [] [] [] [] [] [] []]; first [reflexivity|congruence]|]).
  by apply elem_of_nil in Ho.
Qed.

Lemma Lexes_dot m rest ls : isName m = true → Lexes (m +:+ rest) ls → Lexes ("." +:+ m +:+ rest) (P "." :: ls).
Proof.
  destruct m as [|c m]; [done|]. cbn [isName]. intros [Hc _]%andb_true_iff Hl.
  rewrite (str_app_cons "."), str_app_nil_l. apply Lexes_one; [|exact Hl]. rewrite str_app_cons.
  destruct (isStart_not c) as (_ & _ & H); [by left|].
  clear -H. destruct c as [[] [] [] [] [] [] [] []]; first [reflexivity|congruence].
Qed.

(** ** Printing and parsing

    The printed form of a member query runs into its receiver when the receiver
    ends in a name: [(x).count] is printed [x.count], one identifier.  The other
    expressions keep their lexemes apart. *)
Definition endsInName (e : Expr) : bool :=
  match kind e, operands e with
  | Ident, _ => true
  | MemberCall, [_] => true
  | _, _ => false
  end.
Fixpoint keepsApart (e : Expr) : bool :=
  match e with
  | mkExpr k _ _ ops =>
    forallb keepsApart ops &&
    match k, ops with MemberCall, r :: _ => negb (endsInName r) | _, _ => true end
  end.

Fixpoint joinLexemes (xs : list (list Lexeme)) : list Lexeme :=
  match xs with
  | [] => []
  | [x] => x
  | x :: xs => x ++ P "," :: joinLexemes xs
  end.

Lemma joinLexemes_cons x y xs : joinLexemes (x :: y :: xs) = (x ++ P "," :: joinLexemes (y :: xs))%list.
Proof. done. Qed.

Definition nameLexeme (s : string) : Lexeme := (TIdentifier, s, 0).

Fixpoint lexemesOf (e : Expr) : list Lexeme :=
  let operand (k : nat) := default [] ((lexemesOf <$> operands e) !! k) in
  match kind e with
  | IntLit => [(TInt, to_string (intValue e), intValue e)]
  | StringLit => [(TString, text e, 0)]
  | Ident => [nameLexeme (text e)]
  | Call => nameLexeme (text e) :: P "(" :: joinLexemes (lexemesOf <$> operands e) ++ [P ")"]
  | MemberCall =>
    match operands e with
    | [] => []
    | receiver :: arguments =>
      (if isCompoundExpr receiver then P "(" :: lexemesOf receiver ++ [P ")"] else lexemesOf receiver) ++
      P "." :: nameLexeme (text e) ::
      match arguments with
      | [] => []
      | _ => P "(" :: joinLexemes (lexemesOf <$> arguments) ++ [P ")"]
      end
    end
  | Unary => P "(" :: P (text e) :: operand 0%nat ++ [P ")"]
  | Binary => P "(" :: operand 0%nat ++ P (text e) :: operand 1%nat ++ [P ")"]
  | Quantifier =>
    P "(" :: nameLexeme (text e) :: operand 0%nat ++ nameLexeme "in" :: operand 1%nat ++ P ":" ::
    operand 2%nat ++ [P ")"]
  end%list.

(** The text after an expression does not run into it. *)
Definition follows (e : Expr) (rest : string) : Prop :=
  if endsInName e then notHead isIdentifierChar rest
  else match kind e with IntLit => notHead isdigit rest | _ => True end.

Lemma follows_plain e c rest : str_mem c "(),: " = true → follows e (String c rest).
Proof.
  intros Hc. assert (isIdentifierChar c = false ∧ isdigit c = false) as [H1 H2].
  { cbn [str_mem] in Hc. rewrite !orb_true_iff, !bool_decide_eq_true in Hc.
    by destruct Hc as [->|[->|[->|[->|[->|Hc]]]]]. }
  unfold follows, notHead. destruct (endsInName e); [done|]. by destruct (kind e).
Qed.

Lemma printExpr_head e : wf e = true → ∃ c s, printExpr e = String c s ∧ isStart c.
Proof.
  induction e as [k i t ops IH] using Expr_nested_ind. intros Hw. cbn [wf] in Hw.
  apply andb_true_iff in Hw as [Hops Hk]. unfold isStart. cbn [printExpr kind text operands intValue].
  destruct k; cbn [kind text operands intValue].
  - destruct ops; [|done]. apply andb_true_iff in Hk as [_ Hk]. apply bool_decide_eq_true in Hk.
    destruct (to_string_digits i) as (Hd & _ & Hne); [lia|]. destruct (to_string i) as [|c s]; [done|].
    eexists _, _. split; [done|]. cbn in Hd. apply andb_true_iff in Hd as [-> _]. auto.
  - eexists _, _. split; [done|]. auto.
  - destruct ops; [|done]. destruct t as [|c s]; [by rewrite andb_false_r in Hk|]. eexists _, _. split; [done|].
    cbn in Hk. apply andb_true_iff in Hk as [Hk _]. apply andb_true_iff in Hk as [_ Hk].
    apply andb_true_iff in Hk as [-> _]. auto.
  - destruct t as [|c s]; [by rewrite andb_false_r in Hk|]. eexists _, _. rewrite str_app_cons. split; [done|].
    apply andb_true_iff in Hk as [Hk _]. apply andb_true_iff in Hk as [_ Hk].
    cbn in Hk. apply andb_true_iff in Hk as [-> _]. auto.
  - destruct ops as [|r ops]; [done|]. apply Forall_cons in IH as [IH _]. cbn in Hops.
    apply andb_true_iff in Hops as [Hr _]. destruct (isCompoundExpr r).
    + eexists _, _. rewrite str_app_cons, str_app_nil_l, !str_app_cons. split; [done|]. auto.
    + destruct (IH Hr) as (c & s & -> & Hc). eexists _, _. rewrite str_app_cons. by split.
  - eexists _, _. rewrite str_app_cons. split; [done|]. auto.
  - eexists _, _. rewrite str_app_cons. split; [done|]. auto.
  - eexists _, _. rewrite str_app_cons. split; [done|]. auto.
Qed.

Lemma Lexes_join es rest ls :
  Forall (λ e, ∀ rest ls, follows e rest → Lexes rest ls → Lexes (printExpr e +:+ rest) (lexemesOf e ++ ls)) es →
  Lexes (String ")" rest) ls →
  Lexes (str_join ", " (printExpr <$> es) +:+ String ")" rest) (joinLexemes (lexemesOf <$> es) ++ ls).
Proof.
  intros Hes Hl. induction Hes as [|e [|e' es] He Hes IH].
  - cbn. by rewrite str_app_nil_l.
  - cbn [fmap list_fmap str_join joinLexemes]. apply He; [by apply follows_plain|done].
  - cbn [fmap list_fmap str_join joinLexemes] in IH |- *. rewrite !str_app_assoc, <- app_assoc.
    apply He; [by apply follows_plain|]. rewrite (str_app_cons ","). apply Lexes_plain; [done|].
    by apply Lexes_blank.
Qed.

Lemma contains_ops_name t : contains kQuantifiers t = true → isName t = true.
Proof. intros [->|[->|[]%elem_of_nil]%elem_of_cons]%contains_true%elem_of_cons; done. Qed.

Definition lexes_ok (e : Expr) : Prop :=
  ∀ rest ls, follows e rest → Lexes rest ls → Lexes (printExpr e +:+ rest) (lexemesOf e ++ ls).

Lemma lexes_ok_all es : Forall (λ e, wf e = true → keepsApart e = true → lexes_ok e) es →
  forallb wf es = true → forallb keepsApart es = true → Forall lexes_ok es.
Proof.
  induction 1 as [|e es He Hes IH]; intros Hw Ha; [constructor|]. cbn in Hw, Ha.
  apply andb_true_iff in Hw as [? ?], Ha as [? ?]. constructor; auto.
Qed.

(** A parenthesis, or another lexeme of its own, and what follows. *)
Ltac lex_char :=
  match goal with
  | |- Lexes (String _ ?s) (P _ :: _) => apply Lexes_plain; [reflexivity|]
  | |- Lexes (String " " ?s) _ => apply (Lexes_blank s)
  end.
Ltac lex_norm :=
  cbn [app]; rewrite <- ?app_assoc; cbn [app]; rewrite <- ?app_assoc; cbn [app]; rewrite ?str_app_assoc, ?str_app_cons, ?str_app_nil_l.

Lemma lexes_receiver r rest ls : wf r = true → lexes_ok r → endsInName r = false → isName rest = true →
  ∀ s, Lexes (rest +:+ s) ls →
  Lexes ((if isCompoundExpr r then "(" +:+ printExpr r +:+ ")" else printExpr r) +:+ "." +:+ rest +:+ s)
    ((if isCompoundExpr r then P "(" :: lexemesOf r ++ [P ")"] else lexemesOf r) ++ P "." :: ls).
Proof.
  intros Hw Hr Hn Hm s Hs. apply Lexes_dot in Hs; [|done]. destruct (isCompoundExpr r) eqn:Hc.
  - lex_norm. lex_char. apply Hr; [by apply follows_plain|]. by lex_char.
  - apply Hr; [|done]. unfold follows. rewrite Hn. by destruct (kind r).
Qed.

Lemma Lexes_print e : wf e = true → keepsApart e = true → lexes_ok e.
Proof.
  induction e as [k i t ops IH] using Expr_nested_ind. intros Hw Ha rest ls Hf Hl.
  cbn [wf keepsApart] in Hw, Ha. apply andb_true_iff in Hw as [Hops Hk], Ha as [Haps Har].
  assert (k ≠ Quantifier → Forall lexes_ok ops) as Hall.
  { intros Hq. apply lexes_ok_all; [done| |done]. by destruct k. }
  destruct k; cbn [printExpr lexemesOf kind text operands intValue] in *; try specialize (Hall ltac:(done)).
  - destruct ops; [|done]. apply andb_true_iff in Hk as [_ Hk]. apply bool_decide_eq_true in Hk.
    by apply Lexes_int.
  - destruct ops; [|done]. apply andb_true_iff in Hk as [_ Hk]. by apply Lexes_string.
  - destruct ops; [|done]. apply andb_true_iff in Hk as [Hk _]. apply andb_true_iff in Hk as [_ Hk].
    by apply Lexes_name.
  - apply andb_true_iff in Hk as [Hk _]. apply andb_true_iff in Hk as [_ Hk].
    lex_norm. apply Lexes_name; [done..|]. lex_char. apply Lexes_join; [done|]. by lex_char.
  - destruct ops as [|r args]; [done|]. apply andb_true_iff in Hk as [_ Hk].
    apply Forall_cons in Hall as [Hr Hargs]. cbn [forallb] in Hops. apply andb_true_iff in Hops as [Hwr _].
    apply negb_true_iff in Har. destruct args as [|a args].
    + rewrite !str_app_assoc, <- app_assoc. cbn [app]. rewrite str_app_nil_l.
      apply lexes_receiver; [done..|]. by apply Lexes_name.
    + rewrite !str_app_assoc, <- app_assoc. cbn [app]. apply lexes_receiver; [done..|]. apply Lexes_name; [done..|].
      lex_norm. lex_char. apply (Lexes_join (a :: args)); [done|]. by lex_char.
  - destruct ops as [|o [|]]; [done| |done]. apply andb_true_iff in Hk as [_ Hk].
    apply Forall_cons in Hall as [Ho _]. cbn [forallb] in Hops. apply andb_true_iff in Hops as [Hwo _].
    cbn [lookup list_lookup fmap list_fmap default]. unfold default, id. lex_norm. lex_char.
    destruct (printExpr_head o Hwo) as (c & s & Hs & Hc). specialize (Ho (String ")" rest) (P ")" :: ls)).
    rewrite Hs, str_app_cons in Ho |- *. apply Lexes_unary; [done..|]. apply Ho; [by apply follows_plain|by lex_char].
  - destruct ops as [|a [|b [|]]]; [done..| |done]. apply andb_true_iff in Hk as [_ Hk].
    apply Forall_cons in Hall as [Hla Hall]. apply Forall_cons in Hall as [Hlb _].
    cbn [lookup list_lookup fmap list_fmap]. unfold default, id. lex_norm. lex_char.
    apply Hla; [by apply follows_plain|]. lex_char.
    apply (Lexes_op t (printExpr b +:+ String ")" rest)); [done|]. apply Hlb; [by apply follows_plain|by lex_char].
  - destruct ops as [|v [|d [|b [|]]]]; [done..| |done]. apply andb_true_iff in Hk as [Hk Hv].
    apply andb_true_iff in Hk as [_ Hk]. cbn [forallb] in Haps. apply andb_true_iff in Haps as [_ Haps].
    apply Forall_cons in IH as [_ IH]. apply lexes_ok_all in IH as [Hd [Hb _]%Forall_cons]%Forall_cons; [|done..].
    destruct v as [[] vi vt []]; try discriminate Hv. cbn in Hv. apply andb_true_iff in Hv as [_ Hv].
    cbn [lookup list_lookup fmap list_fmap lexemesOf printExpr kind text]. unfold default, id. lex_norm. lex_char.
    apply Lexes_name; [by apply contains_ops_name|done|]. lex_char. apply Lexes_name; [done..|]. lex_char.
    apply (Lexes_name "in"); [done..|]. lex_char. apply Hd; [by apply follows_plain|]. lex_char. lex_char. lex_char.
    apply Hb; [by apply follows_plain|by lex_char].
Qed.

(** *** Parsing lexemes *)
Definition at_ (p : LlkMapParser) (ls : list Lexeme) : Prop := lexeme <$> tokens p = ls.

(** [m] returns [a] on any cursor at [ls] and leaves it at [ls']. *)
Definition runs {A} (m : parser A) (ls : list Lexeme) (a : A) (ls' : list Lexeme) : Prop :=
  ∀ p, at_ p ls → ∃ p', m p = (Parsed a, p') ∧ at_ p' ls' ∧ error_ p' = error_ p.

Definition isP (s : string) (ls : list Lexeme) : bool :=
  match ls with (k, t, _) :: _ => bool_decide (k = TPunct) && bool_decide (t = s) | [] => false end.

Lemma at_current p x ls : at_ p (x :: ls) → lexeme (current p) = x.
Proof. unfold at_, current. destruct (tokens p); [done|]. by intros [= <- _]. Qed.

Lemma at_isPunct p ls s : at_ p ls → isPunct p s = isP s ls.
Proof.
  intros H. unfold isPunct. destruct ls as [|[[k t] i] ls].
  - unfold at_ in H. apply fmap_nil_inv in H. unfold current. by rewrite H.
  - apply at_current in H. unfold lexeme in H. by injection H as -> -> _.
Qed.

Lemma at_anyPunct p ls ops : at_ p ls → anyPunct p ops = existsb (λ s, isP s ls) ops.
Proof. intros H. unfold anyPunct. induction ops as [|op ops IH]; [done|]. cbn. by rewrite (at_isPunct p ls), IH. Qed.

Lemma at_advance p x y ls : at_ p (x :: y :: ls) → at_ (advance p) (y :: ls) ∧ error_ (advance p) = error_ p.
Proof.
  unfold at_, advance. destruct (tokens p) as [|t [|t' ts]]; [done..|]. intros [= _ <- <-]. done.
Qed.

Lemma at_length p ls : at_ p ls → length (tokens p) = length ls.
Proof. intros <-. by rewrite length_fmap. Qed.

Lemma runs_bind {A B} (m : parser A) (f : A → parser B) ls a ls1 b ls2 :
  runs m ls a ls1 → runs (f a) ls1 b ls2 → runs (m ≫= f) ls b ls2.
Proof.
  intros Hm Hf p Hp. destruct (Hm p Hp) as (p1 & H1 & Hp1 & He1). destruct (Hf p1 Hp1) as (p2 & H2 & Hp2 & He2).
  exists p2. unfold mbind, parser_bind. rewrite H1. split_and!; [done..|congruence].
Qed.
Lemma runs_ret {A} (a : A) ls : runs (mret a) ls a ls.
Proof. intros p Hp. by exists p. Qed.
Lemma runs_step x y ls : runs step (x :: y :: ls) () (y :: ls).
Proof. intros p Hp. destruct (at_advance p x y ls Hp). by eexists. Qed.
Lemma runs_get {A} (f : LlkMapParser → parser A) ls a ls' :
  (∀ p, at_ p ls → runs (f p) ls a ls') → runs (get f) ls a ls'.
Proof. intros H p Hp. by apply (H p Hp). Qed.

(** Lengths of lexeme lists, whichever way their type is written. *)
Ltac llia := unfold Lexeme in *; lia.

Section roundtrip.
Variable source : string.

Lemma runs_expect s y ls : runs (expectPunct source s) (P s :: y :: ls) () (y :: ls).
Proof.
  intros p Hp. unfold expectPunct. rewrite (at_isPunct p _ s Hp). cbn [isP]. rewrite !bool_decide_true by done.
  exact (runs_step _ _ _ p Hp).
Qed.

Lemma runs_identifier w s i y ls : runs (expectIdentifier source w) ((TIdentifier, s, i) :: y :: ls) s (y :: ls).
Proof.
  intros p Hp. unfold expectIdentifier, isIdentifier. pose proof (at_current _ _ _ Hp) as Hc. unfold lexeme in Hc.
  injection Hc as Hk Ht _. rewrite Hk, Ht, bool_decide_true by done. destruct (at_advance _ _ _ _ Hp). by eexists.
Qed.

Lemma runs_step_on x ls : ls ≠ [] → runs step (x :: ls) () ls.
Proof. destruct ls; [done|]. intros _. apply runs_step. Qed.
Lemma runs_expect_on t ls : ls ≠ [] → runs (expectPunct source t) (P t :: ls) () ls.
Proof. destruct ls; [done|]. intros _. apply runs_expect. Qed.
Lemma before_stop (X : list Lexeme) ls : ls ≠ [] → (X ++ ls)%list ≠ [].
Proof. by destruct X. Qed.

(** A level of operators passes on what its operand leaves, or takes one. *)
Lemma binaryLoop_pass fuel ops next lhs ls : existsb (λ s, isP s ls) ops = false →
  runs (binaryLoop fuel ops next lhs) ls lhs ls.
Proof.
  intros Ho p Hp. exists p. destruct fuel; cbn [binaryLoop]; by rewrite (at_anyPunct p ls), Ho.
Qed.

Lemma runs_pass ops next X a ls : runs next X a ls → existsb (λ s, isP s ls) ops = false →
  runs (binaryLevel ops next) X a ls.
Proof.
  intros Hn Ho. eapply runs_bind; [exact Hn|]. apply runs_get. intros p _. by apply binaryLoop_pass.
Qed.

Lemma runs_binary ops next op X a y Y b ls : runs next X a (P op :: y :: Y) → runs next (y :: Y) b ls →
  existsb (λ s, isP s [P op]) ops = true → existsb (λ s, isP s ls) ops = false →
  runs (binaryLevel ops next) X (makeExpr Binary op [a; b]) ls.
Proof.
  intros Ha Hb Ho Hls. eapply runs_bind; [exact Ha|]. apply runs_get. intros p0 Hp0. rewrite (at_length _ _ Hp0).
  cbn [length]. intros p Hp. cbn [binaryLoop]. rewrite (at_anyPunct p _ _ Hp).
  change (existsb (λ s, isP s (P op :: y :: Y)) ops) with (existsb (λ s, isP s [P op]) ops). rewrite Ho.
  pose proof (at_current _ _ _ Hp) as Hc. unfold lexeme in Hc. injection Hc as _ Ht _.
  destruct (at_advance _ _ _ _ Hp) as [Hp1 He1]. rewrite Ht.
  destruct (runs_bind next (λ rhs, binaryLoop (S (length Y)) ops next (makeExpr Binary op [a; rhs])) _ _ _ _ _
    Hb (binaryLoop_pass _ _ _ _ _ Hls) (advance p) Hp1) as (p' & H' & Hp' & He').
  exists p'. rewrite He', He1. by split_and!.
Qed.

(** What may come after an expression. *)
Definition stop (ls : list Lexeme) : Prop :=
  ∃ x xs, ls = x :: xs ∧ x ∈ [P ")"; P ","; P ":"; theEnd; P ";"].

Definition opens (e : Expr) (ls : list Lexeme) : Prop := endsInName e = true → isP "(" ls = false.

(** [parsePostfix] reads [e] from [X] and goes on with its loop. *)
Definition readsAs (X : list Lexeme) (e : Expr) (f : nat) : Prop := ∀ ls, ls ≠ [] → opens e ls →
  ∃ n, (length ls <= n)%nat ∧ ∀ p, at_ p (X ++ ls) → ∃ p',
    parsePostfix source (expressionFuel source f) p =
      postfixLoop source (expressionFuel source f) n e p' ∧ at_ p' ls ∧ error_ p' = error_ p.
Definition reads (e : Expr) (f : nat) : Prop := readsAs (lexemesOf e) e f.

Lemma postfixLoop_stop rec n e ls : isP "." ls = false → runs (postfixLoop source rec n e) ls e ls.
Proof. intros Hd p Hp. exists p. destruct n; cbn [postfixLoop]; by rewrite (at_isPunct p ls), Hd. Qed.

(** The first lexeme of an expression is no unary operator. *)
Lemma lexemesOf_head e : wf e = true → ∃ x xs, lexemesOf e = x :: xs ∧
  existsb (λ s, isP s [x]) ["!"; "-"] = false ∧ isP ")" [x] = false.
Proof.
  induction e as [k i t ops IH] using Expr_nested_ind. intros Hw. cbn [wf] in Hw.
  apply andb_true_iff in Hw as [Hops Hk].
  destruct k; cbn [lexemesOf kind text operands intValue]; try (by eexists _, _).
  destruct ops as [|r ops]; [done|]. apply Forall_cons in IH as [IH _]. cbn in Hops.
  apply andb_true_iff in Hops as [Hr _]. destruct (isCompoundExpr r); [by eexists _, _|].
  destruct (IH Hr) as (x & xs & -> & ? & ?). by eexists _, _.
Qed.

Lemma unaryLoop_postfix rec n x X e ls : existsb (λ s, isP s [x]) ["!"; "-"] = false →
  runs (parsePostfix source rec) (x :: X) e ls → runs (unaryLoop source rec n) (x :: X) e ls.
Proof.
  intros Hx Hr p Hp. destruct (Hr p Hp) as (p' & H' & Hp' & He'). exists p'. split_and!; [|done..].
  assert (anyPunct p ["!"; "-"] = false) as Hany by (rewrite (at_anyPunct p _ _ Hp); exact Hx).
  destruct n; cbn [unaryLoop]; by rewrite Hany.
Qed.

Lemma runs_postfix X e f ls : readsAs X e f → ls ≠ [] → opens e ls → isP "." ls = false →
  runs (parsePostfix source (expressionFuel source f)) (X ++ ls) e ls.
Proof.
  intros Hr Hne Ho Hd p Hp. destruct (Hr ls Hne Ho) as (n & _ & Hn). destruct (Hn p Hp) as (p1 & H1 & Hp1 & He1).
  destruct (postfixLoop_stop (expressionFuel source f) n e ls Hd p1 Hp1) as (p2 & H2 & Hp2 & He2).
  exists p2. split_and!; congruence.
Qed.

Lemma runs_unaryLoop e f n ls : wf e = true → reads e f → ls ≠ [] → opens e ls → isP "." ls = false →
  runs (unaryLoop source (expressionFuel source f) n) (lexemesOf e ++ ls) e ls.
Proof.
  intros Hw Hr Hne Ho Hd. pose proof (runs_postfix _ _ _ _ Hr Hne Ho Hd) as Hp.
  destruct (lexemesOf_head e Hw) as (x & xs & He & Hx & _). rewrite He in Hp |- *. by apply unaryLoop_postfix.
Qed.

Lemma runs_unary e f ls : wf e = true → reads e f → ls ≠ [] → opens e ls → isP "." ls = false →
  runs (parseUnary source (expressionFuel source f)) (lexemesOf e ++ ls) e ls.
Proof. intros Hw Hr Hne Ho Hd. apply runs_get. intros p _. by apply runs_unaryLoop. Qed.

Ltac levels := unfold parseOr, parseAnd, parseEquality, parseRelational, parseAdditive, parseMultiplicative.

Lemma runs_levels X e f ls : runs (parseUnary source (expressionFuel source f)) X e ls → stop ls →
  runs (expressionFuel source (S f)) X e ls.
Proof.
  intros Hu (x & xs & -> & Hx). cbn [expressionFuel]. levels.
  repeat (apply elem_of_cons in Hx as [->|Hx]; [repeat (apply runs_pass; [|done]); exact Hu|]).
  by apply elem_of_nil in Hx.
Qed.

Lemma stop_opens e ls : stop ls → ls ≠ [] ∧ opens e ls ∧ isP "." ls = false.
Proof.
  intros (x & xs & -> & Hx). unfold opens.
  repeat (apply elem_of_cons in Hx as [->|Hx]; [done|]). by apply elem_of_nil in Hx.
Qed.

Lemma runs_expression e f ls : wf e = true → reads e f → stop ls →
  runs (expressionFuel source (S f)) (lexemesOf e ++ ls) e ls.
Proof.
  intros Hw Hr Hs. apply runs_levels; [|done]. destruct (stop_opens e ls Hs) as (? & ? & ?). by apply runs_unary.
Qed.

(** The levels below the operator pass on [op], the others the stop. *)
Lemma runs_binary_expression op a b f ls : contains kBinaryOps op = true → wf a = true → wf b = true →
  reads a f → reads b f → stop ls →
  runs (expressionFuel source (S f)) (lexemesOf a ++ P op :: lexemesOf b ++ ls) (makeExpr Binary op [a; b]) ls.
Proof.
  intros Ho%contains_true Ha Hb Hra Hrb Hs. destruct (lexemesOf_head b Hb) as (y & Y & Hy & _).
  destruct (stop_opens b ls Hs) as (Hne & Hopb & Hdot).
  assert (runs (parseUnary source (expressionFuel source f)) (y :: Y ++ ls) b ls) as Hub.
  { change (y :: Y ++ ls)%list with ((y :: Y) ++ ls)%list. rewrite <- Hy. by apply runs_unary. }
  assert (∀ op, op ∈ kBinaryOps → runs (parseUnary source (expressionFuel source f))
    (lexemesOf a ++ P op :: (y :: Y) ++ ls) a (P op :: (y :: Y) ++ ls)) as Hua.
  { intros o Hin. apply runs_unary; [done..| |].
    - intros _. repeat (apply elem_of_cons in Hin as [->|Hin]; [done|]). by apply elem_of_nil in Hin.
    - repeat (apply elem_of_cons in Hin as [->|Hin]; [done|]). by apply elem_of_nil in Hin. }
  rewrite Hy. destruct Hs as (x & xs & -> & Hx). specialize (Hua op Ho). cbn [expressionFuel]. levels.
  repeat (apply elem_of_cons in Hx as [->|Hx];
    [repeat (apply elem_of_cons in Ho as [->|Ho];
       [repeat first
          [ eapply runs_binary; [repeat (apply runs_pass; [|done]); exact Hua|
                                 repeat (apply runs_pass; [|done]); exact Hub|done|done]
          | apply runs_pass; [|done] ]|]);
     by apply elem_of_nil in Ho|]).
  by apply elem_of_nil in Hx.
Qed.

Lemma reads_primary X e f :
  (∀ ls, ls ≠ [] → opens e ls → runs (parsePrimary source (expressionFuel source f)) (X ++ ls) e ls) →
  readsAs X e f.
Proof.
  intros H ls Hne Ho. exists (length ls). split; [done|]. intros p Hp.
  destruct (H ls Hne Ho p Hp) as (p' & H' & Hp' & He'). exists p'. split_and!; [|done..].
  unfold parsePostfix, mbind, parser_bind. rewrite H'. unfold get. by rewrite (at_length _ _ Hp').
Qed.

Lemma reads_parens X e f ls : runs (expressionFuel source f) (X ++ P ")" :: ls) e (P ")" :: ls) → ls ≠ [] →
  X ≠ [] → runs (parsePrimary source (expressionFuel source f)) (P "(" :: X ++ P ")" :: ls) e ls.
Proof.
  intros Hr Hne HX. destruct ls as [|y ls]; [done|]. destruct X as [|x X]; [done|]. apply runs_get. intros p0 Hp0. cbv beta zeta.
  pose proof (at_current _ _ _ Hp0) as Hc. unfold lexeme in Hc. injection Hc as Hk _ _. rewrite Hk.
  rewrite (at_isPunct p0 _ "(" Hp0). cbn [isP]. rewrite !bool_decide_true by done. cbn [andb].
  eapply runs_bind; [apply runs_step|]. eapply runs_bind; [exact Hr|].
  eapply runs_bind; [apply runs_expect|]. apply runs_ret.
Qed.

(** Argument lists. *)
Lemma lexemesOf_nonempty e : wf e = true → lexemesOf e ≠ [].
Proof. intros Hw. destruct (lexemesOf_head e Hw) as (x & xs & -> & _). done. Qed.

Lemma runs_argsLoop f es e out fuel ls : ls ≠ [] → forallb wf (e :: es) = true →
  Forall (λ e, reads e f) (e :: es) → (length es <= fuel)%nat →
  runs (argsLoop source (expressionFuel source (S f)) fuel out)
    (joinLexemes (lexemesOf <$> e :: es) ++ P ")" :: ls) (out ++ e :: es)%list ls.
Proof.
  intros Hne. destruct ls as [|y ls]; [done|]. revert e out fuel.
  induction es as [|e' es IH]; intros e out fuel Hw Hr Hf; cbn [forallb] in Hw;
    apply andb_true_iff in Hw as [Hwe Hws]; apply Forall_cons in Hr as [Hre Hrs].
  - destruct fuel; cbn [argsLoop fmap list_fmap joinLexemes];
      (eapply runs_bind; [apply runs_expression; [done..|by eexists _, _; split; [done|left]]|]);
      apply runs_get; intros p Hp; rewrite (at_isPunct p _ "," Hp); cbn [isP];
      (eapply runs_bind; [apply runs_expect|apply runs_ret]).
  - destruct fuel as [|fuel]; [cbn in Hf; lia|].
    cbn [argsLoop]. rewrite !fmap_cons, joinLexemes_cons, <- app_assoc. cbn [app].
    eapply runs_bind; [apply runs_expression; [done..|by eexists _, _; split; [done|right; left]]|].
    apply runs_get. intros p Hp. rewrite (at_isPunct p _ "," Hp). cbn [isP]. rewrite !bool_decide_true by done.
    cbn [andb app]. destruct (joinLexemes (lexemesOf e' :: (lexemesOf <$> es))) as [|x xs] eqn:Hj.
    { exfalso. cbn [fmap list_fmap joinLexemes] in Hj. cbn [forallb] in Hws. apply andb_true_iff in Hws as [Hwe' _].
      apply lexemesOf_nonempty in Hwe'. destruct es; cbn in Hj; [done|]. by destruct (lexemesOf e'). }
    eapply runs_bind; [apply runs_step|]. specialize (IH e' (out ++ [e])%list fuel Hws Hrs ltac:(cbn in Hf; lia)).
    rewrite fmap_cons, Hj, <- app_assoc in IH. exact IH.
Qed.

Lemma joinLexemes_length es : forallb wf es = true → (length es <= length (joinLexemes (lexemesOf <$> es)))%nat.
Proof.
  induction es as [|e [|e' es] IH]; intros Hw; cbn [forallb] in Hw; [done|..];
    apply andb_true_iff in Hw as [Hwe Hws]; apply lexemesOf_nonempty in Hwe; cbn [fmap list_fmap joinLexemes] in *.
  - destruct (lexemesOf e); [done|]. cbn. lia.
  - rewrite length_app. specialize (IH Hws). cbn [length] in *. lia.
Qed.

Lemma runs_callArgs f es ls : ls ≠ [] → forallb wf es = true → Forall (λ e, reads e f) es →
  runs (parseCallArgs source (expressionFuel source (S f)))
    (P "(" :: joinLexemes (lexemesOf <$> es) ++ P ")" :: ls) es ls.
Proof.
  intros Hne Hw Hr. destruct ls as [|y ls]; [done|]. pose proof (joinLexemes_length es Hw) as Hlen.
  destruct es as [|e es].
  - eapply runs_bind; [apply runs_expect|]. apply runs_get. intros p Hp. rewrite (at_isPunct p _ ")" Hp).
    eapply runs_bind; [apply runs_step|apply runs_ret].
  - destruct (lexemesOf_head e) as (x & xs & Hx & _ & Hx').
    { cbn in Hw. by apply andb_true_iff in Hw as [? _]. }
    assert (∃ X, joinLexemes (lexemesOf <$> e :: es) = x :: X) as [X HX].
    { cbn [fmap list_fmap joinLexemes]. rewrite Hx. destruct es; cbn; by eexists. }
    rewrite HX. eapply runs_bind; [apply runs_expect|]. apply runs_get. intros p Hp.
    assert (isPunct p ")" = false) as -> by (rewrite (at_isPunct p _ ")" Hp); exact Hx').
    pose proof (runs_argsLoop f es e [] (length (tokens p)) (y :: ls) ltac:(done) Hw Hr) as H.
    rewrite HX in H. apply H. rewrite (at_length _ _ Hp). rewrite HX in Hlen. cbn [length app] in *.
    rewrite length_app. lia.
Qed.

Lemma joined_length e es : e ∈ es → (length (lexemesOf e) <= length (joinLexemes (lexemesOf <$> es)))%nat.
Proof.
  induction es as [|e1 [|e2 es] IH]; intros Hin; [by apply elem_of_nil in Hin|..].
  - apply list_elem_of_singleton in Hin as ->. done.
  - rewrite !fmap_cons, joinLexemes_cons, length_app. cbn [length].
    apply elem_of_cons in Hin as [->|Hin]; [lia|]. specialize (IH Hin). rewrite fmap_cons in IH. lia.
Qed.

(** The operands of an expression, given those of its operands. *)
Lemma reads_operands ops f :
  Forall (λ e, wf e = true → keepsApart e = true → ∀ f, (length (lexemesOf e) <= f)%nat → reads e f) ops →
  forallb wf ops = true → forallb keepsApart ops = true →
  (∀ e, e ∈ ops → (length (lexemesOf e) <= f)%nat) → Forall (λ e, reads e f) ops.
Proof.
  rewrite !Forall_forall. intros H Hw Ha Hl e He. apply H; [done| | |auto];
    [rewrite forallb_forall in Hw; apply Hw|rewrite forallb_forall in Ha; apply Ha]; by apply list_elem_of_In.
Qed.

Lemma reads_call f t ops : isName t = true → contains kQuantifiers t = false → forallb wf ops = true →
  Forall (λ e, reads e f) ops → reads (makeExpr Call t ops) (S f).
Proof.
  intros Ht Hq Hw Hr. apply reads_primary. intros ls Hne _. cbn [lexemesOf kind text operands makeExpr app].
  rewrite <- app_assoc. cbn [app]. apply runs_get. intros p Hp. cbv beta zeta.
  pose proof (at_current _ _ _ Hp) as Hc. unfold lexeme in Hc. injection Hc as Hk Htx _. rewrite Hk, Htx.
  change (contains ["forall"; "exists"] t) with (contains kQuantifiers t). rewrite Hq.
  eapply runs_bind; [apply runs_step|]. apply runs_get. intros p1 Hp1. rewrite (at_isPunct p1 _ "(" Hp1).
  cbn [isP]. rewrite !bool_decide_true by done. cbn [andb].
  eapply runs_bind; [by apply runs_callArgs|apply runs_ret].
Qed.

Lemma reads_ident f t : contains kQuantifiers t = false → reads (makeExpr Ident t []) f.
Proof.
  intros Hq. apply reads_primary. intros ls Hne Ho. destruct ls as [|y ls]; [done|].
  apply runs_get. intros p Hp. cbv beta zeta. pose proof (at_current _ _ _ Hp) as Hc. unfold lexeme in Hc.
  injection Hc as Hk Htx _. rewrite Hk, Htx.
  change (contains ["forall"; "exists"] t) with (contains kQuantifiers t). rewrite Hq.
  eapply runs_bind; [apply runs_step|]. apply runs_get. intros p1 Hp1.
  rewrite (at_isPunct p1 _ "(" Hp1), (Ho eq_refl). apply runs_ret.
Qed.

Lemma reads_literal f k i t : (k = IntLit ∧ t = "") ∨ (k = StringLit ∧ i = 0) → reads (mkExpr k i t []) f.
Proof.
  intros Hcase. apply reads_primary. intros ls Hne _. destruct ls as [|y ls]; [done|].
  apply runs_get. intros p Hp. cbv beta zeta.
  destruct Hcase as [[-> ->]|[-> ->]]; pose proof (at_current _ _ _ Hp) as Hc; unfold lexeme in Hc;
    injection Hc as Hk Htx Hi; rewrite Hk, ?Htx, ?Hi; (eapply runs_bind; [apply runs_step|apply runs_ret]).
Qed.

(** A member query continues the loop its receiver started. *)
Lemma reads_member f X r m args : readsAs X r (S f) → endsInName r = false → forallb wf args = true →
  Forall (λ e, reads e f) args →
  readsAs (X ++ P "." :: nameLexeme m :: match args with
                                          | [] => []
                                          | _ => P "(" :: joinLexemes (lexemesOf <$> args) ++ [P ")"]
                                          end) (makeExpr MemberCall m (r :: args)) (S f).
Proof.
  intros HX Hn Hw Hr ls Hne Ho.
  set (tl := match args with [] => [] | _ => _ end). rewrite <- app_assoc. cbn [app].
  destruct (HX (P "." :: nameLexeme m :: tl ++ ls)) as (n & Hlen & H); [done|by intros ?; congruence|].
  destruct n as [|n]; [cbn in Hlen; lia|]. exists n. split.
  { cbn [length] in Hlen. rewrite length_app in Hlen. lia. }
  intros p Hp. destruct (H p Hp) as (p1 & H1 & Hp1 & He1). rewrite H1. cbn [postfixLoop].
  rewrite (at_isPunct p1 _ "." Hp1). cbn [isP]. rewrite !bool_decide_true by done. cbn [andb].
  assert (∃ y Y, (tl ++ ls = y :: Y)%list) as (y & Y & HY).
  { destruct ls as [|z ls]; [done|]. destruct tl; by eexists _, _. }
  rewrite HY in Hp1. destruct (runs_step _ _ _ p1 Hp1) as (p2 & H2 & Hp2 & He2).
  destruct (runs_identifier "a member name" _ _ _ _ p2 Hp2) as (p3 & H3 & Hp3 & He3).
  assert (at_ p3 (tl ++ ls)) as Hp3' by (rewrite HY; exact Hp3).
  assert (runs (get (λ p, if isPunct p "(" then parseCallArgs source (expressionFuel source (S f)) else mret []))
    (tl ++ ls) args ls) as Hargs.
  { apply runs_get. intros p0 Hp0. rewrite (at_isPunct p0 _ "(" Hp0). unfold tl. destruct args as [|a args].
    - cbn [app]. rewrite (Ho eq_refl). apply runs_ret.
    - cbn [isP app]. rewrite !bool_decide_true by done. cbn [andb]. rewrite <- app_assoc. cbn [app].
      by apply runs_callArgs. }
  destruct (Hargs p3 Hp3') as (p4 & H4 & Hp4 & He4). exists p4. split_and!; [|done|congruence].
  unfold mbind, parser_bind. rewrite H2, H3, H4. done.
Qed.

Lemma runs_quantifier f op v d b ls : contains kQuantifiers op = true → wf d = true → wf b = true →
  reads d f → reads b f → stop ls →
  runs (expressionFuel source (S (S f)))
    (nameLexeme op :: nameLexeme v :: nameLexeme "in" :: lexemesOf d ++ P ":" :: lexemesOf b ++ ls)
    (makeExpr Quantifier op [makeExpr Ident v []; d; b]) ls.
Proof.
  intros Hop Hwd Hwb Hd Hb Hs. destruct (stop_opens b ls Hs) as (Hne & _ & Hdot). apply runs_levels; [|done].
  apply runs_get. intros p0 _. apply unaryLoop_postfix; [done|]. eapply runs_bind.
  2: { apply runs_get. intros p1 _. by apply postfixLoop_stop. }
  apply runs_get. intros p Hp. cbv beta zeta. pose proof (at_current _ _ _ Hp) as Hc. unfold lexeme in Hc.
  injection Hc as Hk Htx _. rewrite Hk, Htx. change (contains ["forall"; "exists"] op) with (contains kQuantifiers op).
  rewrite Hop. apply runs_get. intros p2 Hp2. pose proof (at_current _ _ _ Hp2) as Hc. unfold lexeme in Hc.
  injection Hc as _ Htx2 _. rewrite Htx2. eapply runs_bind; [apply runs_step|].
  eapply runs_bind; [apply runs_identifier|]. apply runs_get. intros p3 Hp3.
  pose proof (at_current _ _ _ Hp3) as Hc. unfold lexeme in Hc. injection Hc as Hk3 Htx3 _.
  unfold isIdentifier. rewrite Hk3, Htx3, !bool_decide_true by done. cbn [andb].
  eapply runs_bind; [apply runs_step_on; by apply before_stop|].
  eapply runs_bind; [apply runs_expression; [done..|by eexists _, _; split; [done|right; right; left]]|].
  eapply runs_bind; [apply runs_expect_on; by apply before_stop|].
  eapply runs_bind; [by apply runs_expression|]. apply runs_ret.
Qed.

Lemma runs_unary_expression op e f ls : contains kUnaryOps op = true → wf e = true → reads e f → stop ls →
  runs (expressionFuel source (S f)) (P op :: lexemesOf e ++ ls) (makeExpr Unary op [e]) ls.
Proof.
  intros Hop Hw Hr Hs. destruct (stop_opens e ls Hs) as (Hne & Ho & Hd). apply runs_levels; [|done].
  apply runs_get. intros p0 Hp0. rewrite (at_length _ _ Hp0). cbn [length]. intros p Hp. cbn [unaryLoop].
  assert (anyPunct p ["!"; "-"] = true) as ->.
  { rewrite (at_anyPunct p _ _ Hp). apply contains_true in Hop.
    repeat (apply elem_of_cons in Hop as [->|Hop]; [done|]). by apply elem_of_nil in Hop. }
  pose proof (at_current _ _ _ Hp) as Hc. unfold lexeme in Hc. injection Hc as _ Htx _. rewrite Htx.
  refine (runs_bind step _ _ _ _ _ _ (runs_step_on _ _ _) _ p Hp); [by apply before_stop|].
  eapply runs_bind; [by apply runs_unaryLoop|apply runs_ret].
Qed.

Lemma reads_parenthesised X e f : X ≠ [] →
  (∀ rest, stop rest → runs (expressionFuel source f) (X ++ rest) e rest) →
  readsAs (P "(" :: X ++ [P ")"]) e f.
Proof.
  intros HX Hr. apply reads_primary. intros ls Hne _. cbn [app]. rewrite <- app_assoc. cbn [app].
  apply reads_parens; [|done..]. apply Hr. eexists _, _. split; [done|left].
Qed.

Lemma reads_all e : wf e = true → keepsApart e = true → ∀ f, (length (lexemesOf e) <= f)%nat → reads e f.
Proof.
  induction e as [k i t ops IH] using Expr_nested_ind. intros Hw Ha f Hf.
  cbn [wf keepsApart] in Hw, Ha. apply andb_true_iff in Hw as [Hops Hk], Ha as [Haps Har].
  assert (∀ g, k ≠ Quantifier → (∀ e, e ∈ ops → (length (lexemesOf e) <= g)%nat) →
    Forall (λ e, reads e g) ops) as Hall.
  { intros g Hq Hg. apply reads_operands; [done| |done|done]. by destruct k. }
  destruct k.
  - destruct ops; [|done]. apply andb_true_iff in Hk as [Ht%bool_decide_eq_true _]. apply reads_literal. auto.
  - destruct ops; [|done]. apply andb_true_iff in Hk as [Hi%bool_decide_eq_true _]. apply reads_literal. auto.
  - destruct ops; [|done]. apply andb_true_iff in Hk as [Hk Hq%negb_true_iff].
    apply andb_true_iff in Hk as [->%bool_decide_eq_true _]. by apply reads_ident.
  - apply andb_true_iff in Hk as [Hk Hq%negb_true_iff]. apply andb_true_iff in Hk as [->%bool_decide_eq_true Ht].
    destruct f as [|f]; [cbn in Hf; llia|]. apply reads_call; [done..|]. apply Hall; [done|].
    intros e He%joined_length. cbn in Hf. rewrite length_app in Hf. llia.
  - destruct ops as [|r args]; [done|]. apply andb_true_iff in Hk as [->%bool_decide_eq_true Ht].
    apply negb_true_iff in Har. cbn [forallb] in Hops. apply andb_true_iff in Hops as [Hwr Hwa].
    destruct f as [|f].
    { exfalso. cbn [lexemesOf kind operands text] in Hf. rewrite !length_app in Hf. cbn in Hf. llia. }
    assert (length (lexemesOf r) <= S f ∧ (isCompoundExpr r = true → length (lexemesOf r) <= f) ∧
      ∀ e, e ∈ args → length (lexemesOf e) <= f)%nat as (Hlr & Hlc & Hla).
    { cbn [lexemesOf kind operands text] in Hf. rewrite length_app in Hf. cbn [length] in Hf. split_and!.
      - destruct (isCompoundExpr r); cbn [length] in Hf; rewrite ?length_app in Hf; llia.
      - intros Hc. rewrite Hc in Hf. cbn [length] in Hf. rewrite length_app in Hf. cbn [length] in Hf. llia.
      - intros e He. destruct args as [|a args]; [by apply elem_of_nil in He|]. apply joined_length in He.
        cbn [length] in Hf. rewrite (length_app (joinLexemes _)) in Hf. cbn [length] in Hf. llia. }
    apply reads_member; [|done..|].
    + apply Forall_cons in IH as [IHr _]. cbn [forallb] in Haps. apply andb_true_iff in Haps as [Hkr _].
      destruct (isCompoundExpr r) eqn:Hc; [|by apply IHr].
      apply reads_parenthesised; [by apply lexemesOf_nonempty|]. intros rest Hs.
      apply runs_expression; [done| |done]. apply IHr; auto.
    + apply Forall_forall. intros e He. rewrite Forall_forall in IH. apply IH; [by right| | |auto].
      * rewrite forallb_forall in Hwa. by apply Hwa, list_elem_of_In.
      * cbn [forallb] in Haps. apply andb_true_iff in Haps as [_ Haps]. rewrite forallb_forall in Haps.
        by apply Haps, list_elem_of_In.
  - destruct ops as [|o [|]]; [done| |done]. apply andb_true_iff in Hk as [->%bool_decide_eq_true Ht].
    destruct f as [|f]; [cbn in Hf; llia|].
    assert (reads o f) as Ho.
    { specialize (Hall f ltac:(done)). apply Forall_cons in Hall as [? _]; [done|].
      intros e ->%list_elem_of_singleton. cbn in Hf. rewrite length_app in Hf. unfold default, id in Hf. llia. }
    cbn [forallb] in Hops. apply andb_true_iff in Hops as [Hwo _].
    apply (reads_parenthesised (P t :: lexemesOf o)); [done|]. intros rest Hs. by apply runs_unary_expression.
  - destruct ops as [|a [|b [|]]]; [done..| |done]. apply andb_true_iff in Hk as [->%bool_decide_eq_true Ht].
    destruct f as [|f]; [cbn in Hf; llia|].
    assert (reads a f ∧ reads b f) as [Hra Hrb].
    { specialize (Hall f ltac:(done)). apply Forall_cons in Hall as [? Hall]; [by apply Forall_cons in Hall as [? _]|].
      cbn in Hf. unfold default, id in Hf. rewrite length_app in Hf. cbn in Hf. rewrite length_app in Hf.
      intros e [->| ->%list_elem_of_singleton]%elem_of_cons; llia. }
    cbn [forallb] in Hops. apply andb_true_iff in Hops as [Hwa [Hwb _]%andb_true_iff].
    assert (lexemesOf (mkExpr Binary 0 t [a; b]) = P "(" :: (lexemesOf a ++ P t :: lexemesOf b) ++ [P ")"])%list as Hl.
    { cbn. unfold default, id. by rewrite <- app_assoc. }
    unfold reads. rewrite Hl. apply reads_parenthesised; [by apply lexemesOf_nonempty in Hwa; destruct (lexemesOf a)|].
    intros rest Hs. rewrite <- app_assoc. by apply runs_binary_expression.
  - destruct ops as [|v [|d [|b [|]]]]; [done..| |done]. apply andb_true_iff in Hk as [Hk Hv].
    apply andb_true_iff in Hk as [->%bool_decide_eq_true Ht].
    destruct v as [[] vi vt []]; try discriminate Hv. cbn in Hv. apply andb_true_iff in Hv as [->%bool_decide_eq_true Hv].
    cbn [forallb] in Hops, Haps. apply andb_true_iff in Hops as [Hwd [Hwb _]%andb_true_iff].
    apply andb_true_iff in Haps as [_ Haps]. apply andb_true_iff in Haps as [Had [Hab _]%andb_true_iff].
    assert (lexemesOf (mkExpr Quantifier 0 t [mkExpr Ident 0 vt []; d; b]) =
      P "(" :: (nameLexeme t :: nameLexeme vt :: nameLexeme "in" :: lexemesOf d ++ P ":" :: lexemesOf b) ++ [P ")"])%list as Hl.
    { cbn. unfold default, id. cbn. by rewrite <- app_assoc. }
    unfold reads. rewrite Hl in Hf |- *. destruct f as [|[|f]]; [cbn in Hf; llia..|].
    cbn [length app] in Hf. rewrite !length_app in Hf. cbn [length] in Hf. 
    apply Forall_cons in IH as [_ IH]. apply Forall_cons in IH as [IHd [IHb _]%Forall_cons].
    apply reads_parenthesised; [done|]. intros rest Hs. cbn [app]. rewrite <- app_assoc. cbn [app].
    apply runs_quantifier; [done..| | |done]; [apply IHd|apply IHb]; try done; llia.
Qed.
End roundtrip.

(** An expression is read from its lexemes, up to a token that ends it. *)
Lemma runs_parseExpression source e ls : wf e = true → keepsApart e = true → stop ls →
  runs (parseExpression source) (lexemesOf e ++ ls) e ls.
Proof.
  intros Hw Ha Hs. apply runs_get. intros p Hp. rewrite (at_length _ _ Hp). apply runs_expression; [done| |done].
  apply reads_all; [done..|]. rewrite length_app. llia.
Qed.

(** C17: The printer and the parser are inverse: the text of a well-formed
    expression whose lexemes keep apart lexes, and parsing the tokens gives the
    expression back, with only the end token left and no error. *)
Theorem parse_print_roundtrip source e : wf e = true → keepsApart e = true →
  ∃ ts p', lex (printExpr e) = Ok ts ∧
    parseExpression source (mkParser ts "") = (Parsed e, p') ∧
    lexeme <$> tokens p' = [theEnd] ∧ error_ p' = "".
Proof.
  intros Hw Ha. destruct (Lexes_print e Hw Ha "" [] ltac:(unfold follows; repeat case_match; done) Lexes_nil 1 1)
    as (ts & Hts & Hls).
  rewrite str_app_nil_r, app_nil_r in *. exists ts.
  assert (at_ (mkParser ts "") (lexemesOf e ++ [theEnd])) as Hat by exact Hls.
  destruct (runs_parseExpression source e [theEnd] Hw Ha) with (p := mkParser ts "") as (p' & Hp & Hat' & He);
    [by eexists _, _; split; [done|right; right; right; left]|done|].
  exists p'. split_and!; [done|exact Hp|done|exact He].
Qed.

Lemma parse_print_roundtrip_witness :
  let e := makeExpr Binary "&&" [
    makeExpr MemberCall "lanes" [makeExpr Call "machine.compute" [makeExpr StringLit "simd" []];
                                 makeExpr Ident "element_type" []];
    makeExpr Quantifier "forall" [makeExpr Ident "d" []; makeExpr Ident "dimensions" [];
      makeExpr Unary "!" [makeExpr MemberCall "count" [makeExpr Unary "-" [mkExpr IntLit 3 "" []]]]]] in
  wf e = true ∧ keepsApart e = true ∧
  ∃ ts p', lex (printExpr e) = Ok ts ∧ parseExpression "f" (mkParser ts "") = (Parsed e, p') ∧
    lexeme <$> tokens p' = [theEnd] ∧ error_ p' = "".
Proof. split; [reflexivity|]. split; [reflexivity|]. apply parse_print_roundtrip; reflexivity. Defined.

(** A member query on a name is read back as one dotted name. *)
Lemma member_of_name_misread :
  let e := makeExpr MemberCall "count" [makeExpr Ident "x" []] in
  wf e = true ∧ printExpr e = "x.count" ∧
  fst <$> parseText "(x).count" = Some (Parsed e) ∧
  fst <$> parseText (printExpr e) = Some (Parsed (makeExpr Ident "x.count" [])).
Proof. vm_compute. done. Qed.

(** ** From text to expressions *)
Lemma span_take p s : str_all p (str_take (span_length p s) s) = true.
Proof. induction s as [|c s IH]; [done|]. cbn [span_length]. destruct (p c) eqn:Hc; [cbn; by rewrite Hc|done]. Qed.

Lemma digits_value_nonneg s acc : str_all isdigit s = true → 0 <= acc → 0 <= digits_value acc s.
Proof.
  revert acc. induction s as [|c s IH]; intros acc Hs Ha; [done|]. cbn in Hs |- *.
  apply andb_true_iff in Hs as [Hc Hs]. apply IH; [done|]. unfold digit_value.
  unfold isdigit, in_range in Hc. rewrite andb_true_iff, !Nat.leb_le in Hc.
  change (nat_of_ascii "0") with 48%nat in Hc. lia.
Qed.

Lemma lexItem_ok c rest k t i n line column : lexItem c rest = Ok (Emit k t i n) →
  token_ok (mkToken k t i line column) = true.
Proof.
  unfold lexItem. destruct (isBlank c); [done|]. destruct (String.prefix "//" _); [done|].
  destruct (String.prefix "/*" _); [by destruct (str_find _ _)|].
  destruct (isIdentifierStart c) eqn:Hs.
  { intros [= <- <- <- <-]. cbn. by rewrite Hs, span_take. }
  destruct (isdigit c) eqn:Hd.
  { pose proof (span_take isdigit (String c rest)) as Hspan.
    generalize dependent (str_take (span_length isdigit (String c rest)) (String c rest)). intros d Hspan.
    intros [Hv H]%fail_then_ok. injection H as <- <- <- <-. apply bool_decide_eq_false in Hv.
    apply bool_decide_eq_true. cbn. apply digits_value_nonneg with (acc := 0) in Hspan; lia. }
  destruct (bool_decide (c = quote)).
  { intros [Hv H]%fail_then_ok. injection H as <- <- <- <-. apply span_take. }
  destruct (List.find _ kTwoChar); [by intros [= <- <- <- <-]|].
  intros [Hv H]%fail_then_ok. by injection H as <- <- <- <-.
Qed.

Lemma lex_loop_valid fuel text line column ts : (String.length text <= fuel)%nat →
  lex_loop fuel text line column = Ok ts → valid (mkParser ts "").
Proof.
  revert text line column ts. induction fuel as [|fuel IH]; intros [|c rest] line column ts Hf; cbn [lex_loop].
  1, 3: intros [= <-]; split; [by exists [], (mkToken TEnd "" 0 line column)|by constructor].
  { cbn in Hf. lia. }
  destruct (lexItem c rest) as [item|] eqn:Hi; [|done]. cbn [mbind result_bind].
  pose proof (lexItem_progress _ _ _ Hi) as Hc.
  assert (String.length (str_drop (count item) (String c rest)) <= fuel)%nat as Hd.
  { rewrite str_drop_length. cbn in *. lia. }
  destruct item as [n|k t i n]; cbn [count] in *; destruct (advancePos _ _ _) as [line' column'].
  - by apply IH.
  - destruct (lex_loop fuel _ line' column') as [ts'|] eqn:Hl; [|done]. cbn [mbind result_bind].
    intros [= <-]. apply IH in Hl as [(xs & x & Hx & Hk) Hok]; [|done]. cbn in Hx, Hok. split; cbn.
    + exists (mkToken k t i line column :: xs), x. by rewrite Hx.
    + constructor; [by eapply lexItem_ok|done].
Qed.

(** Reading a text always ends: the lexer reports why it stops, or its tokens
    parse to a well-formed expression with the cursor further on, still before the
    end token, or the parser fails with a message.  Neither gets stuck. *)
Theorem reading_total source text :
  match lex text with
  | Err _ => True
  | Ok ts =>
    match parseExpression source (mkParser ts "") with
    | (Parsed e, p') => wf e = true ∧ valid p' ∧ (length (tokens p') < length ts)%nat ∧ error_ p' = ""
    | (Rejected, p') => error_ p' ≠ ""
    | (NoFuel, _) => False
    end
  end.
Proof.
  destruct (lex text) as [ts|] eqn:Hl; [|done]. apply lex_loop_valid in Hl; [|done].
  pose proof (parseExpression_total source _ Hl) as H. by destruct (parseExpression _ _) as [[]].
Qed.

(** ** The canonical text determines the expression *)
Lemma span_split p a b a' b' : str_all p a = true → str_all p a' = true → notHead p b → notHead p b' →
  a +:+ b = a' +:+ b' → a = a' ∧ b = b'.
Proof.
  intros Ha Ha' Hb Hb' H. assert (String.length a = String.length a') as Hl.
  { rewrite <- (span_length_app p a b), <- (span_length_app p a' b') by done. by rewrite H. }
  split.
  - by rewrite <- (str_take_app a b), <- (str_take_app a' b'), Hl, H.
  - by rewrite <- (str_drop_app a b), <- (str_drop_app a' b'), Hl, H.
Qed.

Definition notParen (c : ascii) : bool := negb (bool_decide (c = "("%char)).

(** What the canonical text needs of an expression: the texts of names and
    operators hold no delimiter. *)
Fixpoint plain (e : Expr) : bool :=
  match e with
  | mkExpr k i t ops =>
    forallb plain ops &&
    match k, ops with
    | IntLit, [] => bool_decide (t = "") && bool_decide (0 <= i)
    | StringLit, [] => bool_decide (i = 0)
    | Ident, [] => bool_decide (i = 0) && str_all isIdentifierChar t
    | IntLit, _ | StringLit, _ | Ident, _ => false
    | _, _ => bool_decide (i = 0) && str_all notParen t
    end
  end.

Lemma isName_chars s : isName s = true → str_all isIdentifierChar s = true.
Proof.
  destruct s as [|c s]; [done|]. cbn [isName str_all]. intros [Hc ->]%andb_true_iff. rewrite andb_true_r.
  unfold isIdentifierStart in Hc. unfold isIdentifierChar. apply orb_true_iff in Hc as [->| ->]; [done|].
  by rewrite orb_true_r.
Qed.
Lemma isName_notParen s : isName s = true → str_all notParen s = true.
Proof.
  intros H%isName_chars. revert H. apply str_all_impl. intros c H. unfold notParen.
  case_bool_decide as Hc; [|done]. by rewrite Hc in H.
Qed.
Lemma contains_notParen ops t : forallb (str_all notParen) ops = true → contains ops t = true → str_all notParen t = true.
Proof. rewrite forallb_forall. intros H Hc%contains_true. by apply H, list_elem_of_In. Qed.

Lemma wf_plain e : wf e = true → plain e = true.
Proof.
  induction e as [k i t ops IH] using Expr_nested_ind. cbn [wf plain]. rewrite !andb_true_iff. intros [Hops Hk].
  assert (Forall (λ e, wf e = true → plain e = true) ops → forallb wf ops = true → forallb plain ops = true) as Hall.
  { clear. induction 1 as [|e es He _ IHes]; cbn; [done|]. rewrite !andb_true_iff. intros [? ?]. auto. }
  destruct k; try specialize (Hall IH Hops).
  - destruct ops; [|done]. apply andb_true_iff in Hk as [-> Hk]. apply bool_decide_eq_true in Hk. split; [done|].
    apply bool_decide_eq_true. lia.
  - destruct ops; [|done]. rewrite andb_true_iff in Hk. by destruct Hk.
  - destruct ops; [|done]. apply andb_true_iff in Hk as [[-> Hk]%andb_true_iff _].
    split; [done|by apply isName_chars].
  - apply andb_true_iff in Hk as [[Hi Hn]%andb_true_iff _]. rewrite Hi, isName_notParen by done.
    split; [done|by destruct ops].
  - destruct ops as [|]; [done|]. rewrite andb_true_iff in Hk. destruct Hk as [Hi Hn]. by rewrite Hi, isName_notParen.
  - destruct ops as [|? [|]]; [done| |done]. rewrite andb_true_iff in Hk. destruct Hk as [Hi Hn].
    rewrite Hi, (contains_notParen kUnaryOps) by done. done.
  - destruct ops as [|? [|? [|]]]; [done..| |done]. rewrite andb_true_iff in Hk. destruct Hk as [Hi Hn].
    rewrite Hi, (contains_notParen kBinaryOps) by done. done.
  - destruct ops as [|v [|d [|b [|]]]]; [done..| |done]. apply andb_true_iff in Hk as [[Hi Hn]%andb_true_iff Hv].
    rewrite Hi, (contains_notParen kQuantifiers) by done. split; [|done]. cbn [forallb].
    apply Forall_cons in IH as [_ IH]. apply Forall_cons in IH as [IHd [IHb _]%Forall_cons]. cbn in Hops.
    rewrite !andb_true_iff in *. destruct Hops as (? & ? & _). split_and!; auto.
    destruct v as [[] vi vt []]; try discriminate Hv. cbn in Hv |- *. apply andb_true_iff in Hv as [-> Hv].
    by apply isName_chars in Hv.
Qed.

(** What may come after a canonical text inside a larger one. *)
Definition delimited (s : string) : Prop := notHead isIdentifierChar s ∧ notHead isdigit s.
Lemma delimited_close s : delimited (String ")" s).
Proof. done. Qed.
Lemma delimited_comma s : delimited (String "," s).
Proof. done. Qed.
#[local] Hint Resolve delimited_close delimited_comma : core.

Definition decodes (e : Expr) : Prop := ∀ e' s t, plain e' = true → delimited s → delimited t →
  canonicalExprString e +:+ s = canonicalExprString e' +:+ t → e = e' ∧ s = t.

Lemma canonical_head e : ∃ c s, canonicalExprString e = String c s ∧ c ≠ ")"%char.
Proof. destruct e as [[] i t ops]; cbn; rewrite ?str_app_cons; by eexists _, _. Qed.

(** The operands, up to the closing parenthesis. *)
Lemma canonical_join_split es : Forall decodes es → ∀ es' s t, forallb plain es' = true →
  str_join "," (canonicalExprString <$> es) +:+ String ")" s =
  str_join "," (canonicalExprString <$> es') +:+ String ")" t → es = es' ∧ s = t.
Proof.
  induction 1 as [|e es He Hes IH]; intros es' s t Hp H.
  - destruct es' as [|e' es']; [by injection H|]. exfalso. destruct (canonical_head e') as (c & r & Hc & Hne).
    destruct es'; cbn [fmap list_fmap str_join] in H; rewrite Hc, ?str_app_cons, str_app_nil_l in H;
      by injection H as H _.
  - destruct es' as [|e' es'].
    { exfalso. destruct (canonical_head e) as (c & r & Hc & Hne).
      destruct es; cbn [fmap list_fmap str_join] in H; rewrite Hc, ?str_app_cons, str_app_nil_l in H;
        by injection H as H _. }
    cbn [forallb] in Hp. apply andb_true_iff in Hp as [Hp Hps].
    destruct es as [|e2 es], es' as [|e2' es']; cbn [fmap list_fmap str_join] in H, IH;
      rewrite ?str_app_assoc in H; apply He in H as [-> H]; try done.
    + by injection H as ->.
    + rewrite !(str_app_cons ","), !str_app_nil_l in H. injection H as H.
      destruct (IH (e2' :: es') s t Hps H) as [[= -> ->] ->]. done.
Qed.

Lemma canonical_node k t t' ops ops' s s' :
  Forall decodes ops → forallb plain ops' = true → str_all notParen t = true → str_all notParen t' = true →
  t +:+ String "(" (str_join "," (canonicalExprString <$> ops) +:+ String ")" s) =
  t' +:+ String "(" (str_join "," (canonicalExprString <$> ops') +:+ String ")" s') →
  mkExpr k 0 t ops = mkExpr k 0 t' ops' ∧ s = s'.
Proof.
  intros Hops Hp Ht Ht' H. apply (span_split notParen) in H as [-> H]; [|done..]. injection H as H.
  by apply canonical_join_split in H as [-> ->].
Qed.

Lemma canonical_decodes e : plain e = true → decodes e.
Proof.
  induction e as [k i t ops IH] using Expr_nested_ind. intros Hp [k' i' t' ops'] s s' Hp' Hs Hs' H.
  cbn [plain] in Hp, Hp'. apply andb_true_iff in Hp as [Hops Hp], Hp' as [Hops' Hp'].
  assert (Forall decodes ops) as Hd.
  { rewrite forallb_forall in Hops. rewrite Forall_forall in IH |- *. intros e He.
    apply IH; [done|]. by apply Hops, list_elem_of_In. }
  destruct k, k'; cbn [canonicalExprString kind text operands intValue prefixOf] in H;
    rewrite ?str_app_assoc, ?str_app_cons in H; try (by injection H); rewrite ?str_app_nil_l in H;
    repeat (injection H as H); try (rewrite <- ?str_app_assoc in H; discriminate H).
  all: try (destruct ops; [|done]; destruct ops'; [|done]).
  all: repeat match goal with
       | H : _ && _ = true |- _ => apply andb_true_iff in H as [? H]
       | H : bool_decide _ = true |- _ => apply bool_decide_eq_true in H
       end; subst.
  1: { destruct Hs as [_ Hs], Hs' as [_ Hs']. apply (span_split isdigit) in H as [Hi ->]; try done.
       - split; [|done]. apply (f_equal (digits_value 0)) in Hi. apply to_string_digits in Hp as (_ & <- & _).
         by rewrite Hi; apply to_string_digits in Hp' as (_ & -> & _).
       - by apply to_string_digits in Hp as (? & _).
       - by apply to_string_digits in Hp' as (? & _). }
  1: { unfold lengthPrefixed in H. rewrite !str_app_assoc, !(str_app_cons ":"), !str_app_nil_l in H.
       apply to_string_split in H as [Hl H]; [|done]. by apply str_app_inj_length in H as [-> ->]; [|lia]. }
  1: { destruct Hs as [Hs _], Hs' as [Hs' _]. by apply (span_split isIdentifierChar) in H as [-> ->]. }
  all: by apply canonical_node.
Qed.

(** The canonical text of an expression the parser builds determines it: two
    such expressions with the same text are the same expression, so the text is a
    faithful hash input. *)
Theorem canonicalExprString_injective e1 e2 : wf e1 = true → wf e2 = true →
  canonicalExprString e1 = canonicalExprString e2 → e1 = e2.
Proof.
  intros H1%wf_plain H2%wf_plain H. apply (canonical_decodes e1 H1 e2 "" "" H2); [done..|by rewrite H].
Qed.

Lemma canonicalExprString_injective_witness :
  let e := makeExpr Binary "+" [makeExpr StringLit ")" []; makeExpr Call "min" [mkExpr IntLit 1 "" []; makeExpr Ident "d" []]] in
  wf e = true ∧ canonicalExprString e = "binary:+(str:1:),call:min(int:1,id:d))" ∧
  e = e.
Proof. split; [reflexivity|]. split; [reflexivity|]. apply canonicalExprString_injective; reflexivity. Defined.

(** ** The bound on quantifiers *)

(** Two unspent budgets, the second with at least as much left. *)
Record unspent (b : QuantifierBudget) : Prop := {
  un_used : 0 <= used b;
  un_limit : limit b <= u64_max;
  un_left : exhausted b = false;
}.
Record sim (b b' : QuantifierBudget) : Prop := {
  sim_left : unspent b;
  sim_right : unspent b';
  sim_more : limit b - used b <= limit b' - used b';
}.

(** A spent budget stays spent, and an evaluation that does not spend its budget
    ends in the same way under a larger one. *)
Definition robust {A} (m : eval A) : Prop :=
  (∀ b, exhausted b = true → exhausted (m b).2 = true) ∧
  ∀ b b', sim b b' → exhausted (m b).2 = true ∨ (m b').1 = (m b).1 ∧ sim (m b).2 (m b').2.

Lemma robust_ret {A} (a : A) : robust (mret a).
Proof. split; [done|]. intros b b' Hs. by right. Qed.
Lemma robust_error {A} e : robust (@evalError A e).
Proof. split; [done|]. intros b b' Hs. by right. Qed.
#[local] Hint Resolve robust_ret robust_error : core.

Lemma robust_bind {A B} (m : eval A) (f : A → eval B) : robust m → (∀ a, robust (f a)) → robust (m ≫= f).
Proof.
  intros [Hm1 Hm2] Hf. unfold mbind, eval_bind. split.
  - intros b Hb. specialize (Hm1 b Hb). destruct (m b) as [[a|e] c]; [|done]. by apply (Hf a).
  - intros b b' Hs. specialize (Hm2 b b' Hs). destruct (m b) as [[a|e] c], (m b') as [r' c']; cbn in *.
    + destruct Hm2 as [Hc|[-> Hc]]; [|by apply (Hf a)]. left. by apply (Hf a).
    + destruct Hm2 as [Hc|[-> Hc]]; [by left|by right].
Qed.

Lemma budget_step_spent b : exhausted b = true → exhausted (budget_step b).2 = true.
Proof. unfold budget_step. by case_bool_decide. Qed.

Lemma budget_step_sim b b' : sim b b' → exhausted (budget_step b).2 = true ∨
  (budget_step b').1 = (budget_step b).1 ∧ sim (budget_step b).2 (budget_step b').2.
Proof.
  intros [[Hu Hl He] [Hu' Hl' He'] Hm]. unfold budget_step. case_bool_decide; [by left|]. right.
  rewrite bool_decide_false by lia. split; [done|].
  rewrite !u64_id by (unfold in_u64, u64_max in *; lia). split; [split; cbn; [lia|done..]..|cbn; lia].
Qed.

Lemma robust_step {A} (f g : eval A) : robust f → robust g →
  robust (λ b, match budget_step b with (false, b) => f b | (true, b) => g b end).
Proof.
  intros [Hf1 Hf2] [Hg1 Hg2]. split.
  - intros b Hb%budget_step_spent. destruct (budget_step b) as [[] c]; auto.
  - intros b b' Hs%budget_step_sim. destruct (budget_step b) as [[] c], (budget_step b') as [[] c']; cbn in *;
      destruct Hs as [Hs|[? Hs]]; try done; auto.
Qed.

Lemma robust_ext {A} (m m' : eval A) : (∀ b, m b = m' b) → robust m → robust m'.
Proof. intros H [H1 H2]. split; [intros b|intros b b']; rewrite <- !H; auto. Qed.

(** What a round of a quantifier does with the value of its body. *)
Definition decideRound (isForall : bool) (next : eval EvalValue) (v : EvalValue) : eval EvalValue :=
  match v with
  | VInt i =>
    let truthy := bool_decide (i ≠ 0) in
    if isForall && negb truthy then makeBool false
    else if negb isForall && truthy then makeBool true else next
  | _ => evalError NonIntegerBody
  end.
Lemma quantifierLoop_cons isForall body v domain b :
  quantifierLoop isForall body (v :: domain) b =
  match budget_step b with
  | (false, b) => makeBool false b
  | (true, b) => (r ← body v; decideRound isForall (quantifierLoop isForall body domain) r) b
  end.
Proof.
  cbn [quantifierLoop]. destruct (budget_step b) as [[] c]; [|done]. unfold mbind, eval_bind.
  destruct (body v c) as [[[i| |]|] d]; cbn; repeat case_match; done.
Qed.

Lemma robust_quantifierLoop isForall body domain : (∀ v, robust (body v)) →
  robust (quantifierLoop isForall body domain).
Proof.
  intros Hb. induction domain as [|v domain IH]; [apply robust_ret|].
  eapply robust_ext; [intros b; symmetry; apply quantifierLoop_cons|]. apply robust_step; [apply robust_ret|].
  apply robust_bind; [done|]. intros [i| |]; cbn; [|apply robust_error..].
  by repeat case_match; try apply robust_ret.
Qed.

(** Closure under every construct of the evaluator. *)
Ltac robust_tac :=
  repeat (first
    [ assumption | apply robust_ret | apply robust_error
    | apply robust_bind; [|intros ?]
    | match goal with
      | |- robust (match ?x with _ => _ end) => destruct x eqn:?
      | |- robust (if ?x then _ else _) => destruct x eqn:?
      | |- robust (let _ := _ in _) => cbv zeta
      end ]).
Lemma robust_makeInt z : robust (makeInt z).
Proof. unfold makeInt. robust_tac. Qed.
Lemma robust_evalBinary op l r : robust (evalBinary op l r).
Proof. unfold evalBinary, makeBool, divide, remainder. pose proof robust_makeInt. robust_tac; auto. Qed.
Lemma robust_evalFunction f l r : robust (evalFunction f l r).
Proof. unfold evalFunction, divide, remainder. pose proof robust_makeInt. robust_tac; auto. Qed.
Lemma robust_evalMember m member handle arg : (∀ a, arg = Some a → robust a) → robust (evalMember m member handle arg).
Proof. intros Ha. unfold evalMember. pose proof robust_makeInt. robust_tac; auto. Qed.
Lemma robust_evalDomain env d operand : robust operand → robust (evalDomain env d operand).
Proof. intros Ho. unfold evalDomain. robust_tac. Qed.
Lemma robust_evalIdent env bindings name : robust (evalIdent env bindings name).
Proof. unfold evalIdent. robust_tac. Qed.
#[local] Hint Resolve robust_makeInt robust_evalBinary robust_evalFunction robust_evalIdent : core.

(** Induction with the operands of the operands at hand, as the domain of a
    quantifier needs them. *)
Lemma Expr_deep_ind (Q : Expr → Prop) :
  (∀ k i t ops, Forall (λ e, Q e ∧ Forall Q (operands e)) ops → Q (mkExpr k i t ops)) → ∀ e, Q e.
Proof.
  intros H e. assert (Q e ∧ Forall Q (operands e)) as [? _]; [|done].
  induction e as [k i t ops IH] using Expr_nested_ind. split; [by apply H|].
  eapply Forall_impl; [exact IH|]. by intros ? [? _].
Qed.

Lemma robust_evalImpl env e : ∀ bindings, robust (evalImpl env bindings e).
Proof.
  induction e as [k i t ops IH] using Expr_deep_ind. intros bindings.
  destruct k; cbn [evalImpl kind text operands intValue]; try solve [auto].
  - destruct (isMachineCall t).
    + destruct ops as [|a [|]]; auto. apply Forall_cons in IH as [[IHa _] _]. apply robust_bind; auto.
      intros [| |]; auto.
    + destruct ops as [|a [|b [|]]]; auto. apply Forall_cons in IH as [[IHa _] [[IHb _] _]%Forall_cons].
      apply robust_bind; auto. intros ?. apply robust_bind; auto.
  - destruct ops as [|r args]; auto. apply Forall_cons in IH as [[IHr _] IH]. apply robust_bind; auto.
    intros [| |]; auto. apply robust_evalMember. intros a Ha. destruct args as [|a' [|]]; [done| |done].
    injection Ha as <-. by apply Forall_cons in IH as [[IHa _] _].
  - destruct ops as [|a ops]; auto. apply Forall_cons in IH as [[IHa _] _]. apply robust_bind; auto.
    intros [| |]; auto. destruct (decide (t = "!")); auto. apply robust_ret.
  - destruct ops as [|a [|b ops]]; auto. apply Forall_cons in IH as [[IHa _] [[IHb _] _]%Forall_cons].
    apply robust_bind; auto. intros ?. apply robust_bind; auto.
  - destruct ops as [|v [|d [|b ops]]]; auto.
    apply Forall_cons in IH as [_ IH]. apply Forall_cons in IH as [[_ IHd] [[IHb _] _]%Forall_cons].
    apply robust_bind; [|intros values; by apply robust_quantifierLoop]. apply robust_evalDomain.
    destruct (operands d); auto. by apply Forall_cons in IHd as [? _].
Qed.

(** The default bound on quantified evaluation is never silently ignored: a
    value [evaluateExpr] returns was decided within the bound, and every larger
    bound gives the same value; an evaluation that spends the bound is an error. *)
Theorem evaluateExpr_bound_irrelevant env bindings e v lim :
  evaluateExpr env bindings e = Ok v → kDefaultQuantifierIterations <= lim <= u64_max →
  ∃ b, evalImpl env bindings e (mkBudget lim 0 false) = (Ok v, b) ∧ exhausted b = false.
Proof.
  intros H Hl. destruct (robust_evalImpl env e bindings) as [_ Hr].
  destruct (Hr (mkBudget kDefaultQuantifierIterations 0 false) (mkBudget lim 0 false)) as [He|[He Hs]];
    [by repeat split; unfold kDefaultQuantifierIterations in *; cbn; lia|unfold evaluateExpr in H..].
  - destruct (evalImpl _ _ _ _) as [[v'|err] b]; [|done]. cbn in He. by rewrite He in H.
  - destruct (evalImpl _ _ _ (mkBudget kDefaultQuantifierIterations _ _)) as [[v'|err] b]; [|done].
    destruct (exhausted b); [done|]. injection H as ->.
    destruct (evalImpl _ _ _ (mkBudget lim 0 false)) as [r b']. cbn in He, Hs. subst r.
    exists b'. by destruct Hs as [_ [] _].
Qed.

Definition anEnv : EvalEnv := mkEnv sample_machine (mkContext 4 "f32") None.

Lemma evaluateExpr_bound_irrelevant_witness :
  let e := makeExpr Quantifier "forall" [makeExpr Ident "d" []; makeExpr Ident "dimensions" [];
             makeExpr Binary "<" [makeExpr Ident "d" []; makeExpr Ident "rank" []]] in
  evaluateExpr anEnv ∅ e = Ok (VInt 1) ∧
  ∃ b, evalImpl anEnv ∅ e (mkBudget 200000 0 false) = (Ok (VInt 1), b) ∧ exhausted b = false.
Proof.
  assert (evaluateExpr anEnv ∅ (makeExpr Quantifier "forall" [makeExpr Ident "d" []; makeExpr Ident "dimensions" [];
             makeExpr Binary "<" [makeExpr Ident "d" []; makeExpr Ident "rank" []]]) = Ok (VInt 1)) as H
    by (vm_compute; reflexivity).
  split; [exact H|]. apply (evaluateExpr_bound_irrelevant _ _ _ _ _ H). unfold kDefaultQuantifierIterations, u64_max. lia.
Defined.

(** ** Validated expressions *)

(** The errors that say a name or a shape is not the language's. *)
Definition isUnknown (e : eval_error) : bool :=
  match e with
  | UnknownOperator _ | UnknownFunction _ | UnknownQuery _ | UnknownIdentifier _
  | UnknownQuantifierDomain | UndefinedOperand => true
  | _ => false
  end.
Definition known {A} (m : eval A) : Prop :=
  ∀ b, match (m b).1 with Err e => isUnknown e = false | Ok _ => True end.

Lemma known_ret {A} (a : A) : known (mret a).
Proof. done. Qed.
Lemma known_error {A} e : isUnknown e = false → known (@evalError A e).
Proof. by intros H b. Qed.
Lemma known_bind {A B} (m : eval A) (f : A → eval B) : known m → (∀ a, known (f a)) → known (m ≫= f).
Proof.
  intros Hm Hf b. unfold mbind, eval_bind. specialize (Hm b). destruct (m b) as [[a|e] c]; [apply Hf|done].
Qed.
#[local] Hint Resolve known_ret known_error : core.
Ltac known_tac :=
  repeat (first
    [ assumption | apply known_ret | apply known_error; reflexivity
    | apply known_bind; [|intros ?]
    | match goal with
      | |- known (match ?x with _ => _ end) => destruct x eqn:?
      | |- known (if ?x then _ else _) => destruct x eqn:?
      | |- known (let _ := _ in _) => cbv zeta
      end ]).

Lemma known_makeInt z : known (makeInt z).
Proof. unfold makeInt. known_tac. Qed.
#[local] Hint Resolve known_makeInt : core.

Lemma known_evalBinary op l r : contains kBinaryOps op = true → known (evalBinary op l r).
Proof.
  intros Ho%contains_true. unfold evalBinary, makeBool, divide, remainder. pose proof known_makeInt.
  known_tac; auto. exfalso. unfold kBinaryOps in Ho. set_unfold in Ho.
  repeat match goal with H : contains _ _ = false |- _ => apply contains_false in H; set_unfold in H end. naive_solver.
Qed.
Lemma known_evalFunction f l r : isKnownCall f = true → isMachineCall f = false → known (evalFunction f l r).
Proof.
  intros Hk%contains_true Hm%contains_false. unfold evalFunction, divide, remainder. pose proof known_makeInt.
  known_tac; auto. set_unfold in Hk. set_unfold in Hm. naive_solver.
Qed.
Lemma known_evalMember m member handle arg : isKnownMember member = true → (∀ a, arg = Some a → known a) →
  known (evalMember m member handle arg).
Proof.
  intros Hk%contains_true Ha. unfold evalMember. pose proof known_makeInt. known_tac; auto.
  set_unfold in Hk. match goal with H : contains _ _ = false |- _ => apply contains_false in H; set_unfold in H end.
  naive_solver.
Qed.

Lemma known_quantifierLoop isForall body domain : (∀ v, known (body v)) →
  known (quantifierLoop isForall body domain).
Proof.
  intros Hb. induction domain as [|v domain IH]; [done|]. intros b. rewrite quantifierLoop_cons.
  destruct (budget_step b) as [[] c]; [|done]. apply known_bind; [done|]. intros [i| |]; cbn; known_tac.
Qed.

Lemma firstComplaint_none {A} (check : A → option string) xs :
  firstComplaint check xs = None → Forall (λ x, check x = None) xs.
Proof.
  induction xs as [|x xs IH]; [constructor|]. cbn. destruct (check x) eqn:Hx; [done|]. by constructor; auto.
Qed.

(** What an evaluation knows: the bound names and the two of the context. *)
Definition covered (allowed : gset string) (bindings : gmap string LayoutValue) : Prop :=
  allowed ⊆ dom bindings ∪ {["rank"; "element_type"]}.

Lemma known_evalIdent env allowed bindings name : covered allowed bindings → name ∈ allowed →
  known (evalIdent env bindings name).
Proof.
  intros Hc Hn%Hc. unfold evalIdent. destruct (bindings !! name) eqn:Hb; [done|].
  apply not_elem_of_dom in Hb. known_tac. set_solver.
Qed.

Definition knownIn (env : EvalEnv) (e : Expr) : Prop := ∀ allowed bindings, wf e = true →
  complaint allowed e = None → covered allowed bindings → known (evalImpl env bindings e).

(** The domain of a quantifier, once the vocabulary check has passed it. *)
Lemma known_evalDomain env allowed bindings i v d b ops t : wf d = true → covered allowed bindings →
  Forall (knownIn env) (operands d) → complaint allowed (mkExpr Quantifier i t (v :: d :: b :: ops)) = None →
  known (evalDomain env d (match operands d with k :: _ => evalImpl env bindings k | [] => evalError UndefinedOperand end))
  ∧ complaint ({[text v]} ∪ allowed) b = None.
Proof.
  intros Hw Hc Hd. cbn [complaint kind operands]. unfold evalDomain.
  destruct d as [k j dt dops]. cbn [kind text operands] in *.
  destruct (decide (k = Ident)) as [->|].
  { case_bool_decide as Ht; [|done]. intros Hb. split; [|done]. rewrite decide_True by done. done. }
  rewrite (decide_False (P := k = Ident ∧ dt = "dimensions")) by (by intros [? _]).
  destruct (decide (k = Call ∧ dt = "domain")) as [[-> ->]|].
  { destruct dops as [|p [|]]; [done| |done]. destruct (decide (kind p = Ident)); [|done].
    case_bool_decide; [|done]. intros Hb. split; [|done]. known_tac. }
  destruct (decide (k = Call ∧ dt = "executors")) as [[-> ->]|]; [|done].
  destruct dops as [|e [|]]; [done| |done]. destruct (complaint allowed e) eqn:He; [done|]. intros Hb.
  split; [|done]. apply Forall_cons in Hd as [Hd _]. cbn [wf forallb] in Hw.
  apply andb_true_iff in Hw as [[Hwe _]%andb_true_iff _]. specialize (Hd allowed bindings Hwe He Hc). known_tac.
  apply known_error. by destruct (bool_decide (ownerClass _ _ = _)).
Qed.

Lemma covered_insert allowed bindings x v : covered allowed bindings →
  covered ({[x]} ∪ allowed) (<[x := v]> bindings).
Proof. unfold covered. rewrite dom_insert. set_solver. Qed.

Lemma known_evalImpl env e : knownIn env e.
Proof.
  induction e as [k i t ops IH] using Expr_deep_ind. intros allowed bindings Hw Hk Hc.
  pose proof Hw as Hw'. cbn [wf] in Hw. apply andb_true_iff in Hw as [Hops Hw].
  assert (k ≠ Quantifier → k ≠ IntLit → k ≠ StringLit → k ≠ Ident → complaint allowed (mkExpr k i t ops) = None →
    Forall (λ e, known (evalImpl env bindings e)) ops) as Hall.
  { intros Hq Hi Hs Hid H. assert (forallb wf ops = true) as Hwops by by destruct k.
    assert (firstComplaint (complaint allowed) ops = None) as Hf%firstComplaint_none.
    { destruct k; cbn [complaint kind operands text] in H; try done; by case_match. }
    rewrite forallb_forall in Hwops. rewrite Forall_forall in IH, Hf |- *. intros e He.
    apply (proj1 (IH e He) allowed); auto. by apply Hwops, list_elem_of_In. }
  destruct k; try specialize (Hall ltac:(done) ltac:(done) ltac:(done) ltac:(done) Hk);
    cbn [evalImpl kind text operands intValue]; auto.
  - cbn [complaint kind text] in Hk. case_bool_decide; [|done]. by eapply known_evalIdent.
  - cbn [complaint kind text] in Hk. destruct (isKnownCall t) eqn:Hn; [|done].
    destruct (isMachineCall t) eqn:Hm.
    + destruct ops as [|a [|]]; auto. apply Forall_cons in Hall as [? _]. known_tac.
    + destruct ops as [|a [|b [|]]]; auto. apply Forall_cons in Hall as [? [? _]%Forall_cons].
      known_tac. by apply known_evalFunction.
  - cbn [complaint kind text] in Hk. destruct (isKnownMember t) eqn:Hn; [|done].
    destruct ops as [|r args]; [done|]. apply Forall_cons in Hall as [? Hall]. known_tac.
    apply known_evalMember; [done|]. intros m Hm. destruct args as [|a' [|]]; [done| |done]. injection Hm as <-.
    by apply Forall_cons in Hall as [? _].
  - destruct ops as [|a ops]; [done|]. apply Forall_cons in Hall as [? _]. pose proof known_makeInt.
    unfold makeBool. known_tac. auto.
  - destruct ops as [|a [|b [|]]]; [done..| |done]. apply Forall_cons in Hall as [? [? _]%Forall_cons].
    apply andb_true_iff in Hw as [_ Hw]. known_tac. by apply known_evalBinary.
  - destruct ops as [|v [|d [|b [|]]]]; [done..| |done]. apply Forall_cons in IH as [_ IH].
    apply Forall_cons in IH as [[_ IHd] [[IHb _] _]%Forall_cons]. cbn in Hops.
    apply andb_true_iff in Hops as [Hwd [Hwb _]%andb_true_iff].
    destruct (known_evalDomain env allowed bindings i v d b [] t Hwd Hc IHd Hk) as [Hd Hb].
    apply known_bind; [done|]. intros values. apply known_quantifierLoop. intros x.
    by eapply IHb; [..|apply covered_insert].
Qed.

(** An expression that passes the check of the vocabulary never meets an
    unknown name when it is evaluated: with every allowed identifier bound or one
    of the two the context gives, no evaluation ends in an unknown identifier,
    function, operator, query or quantifier domain, or reads a missing operand. *)
Theorem validated_never_unknown env allowed bindings source p e :
  wf e = true → (validateExpr source e allowed p).1 = Parsed () →
  allowed ⊆ dom bindings ∪ {["rank"; "element_type"]} →
  match evaluateExpr env bindings e with Ok _ => True | Err err => isUnknown err = false end.
Proof.
  intros Hw Hv Hc. unfold validateExpr in Hv. destruct (complaint allowed e) eqn:Hk; [done|].
  unfold evaluateExpr. pose proof (known_evalImpl env e allowed bindings Hw Hk Hc) as H.
  specialize (H (mkBudget kDefaultQuantifierIterations 0 false)). destruct (evalImpl _ _ _ _) as [[v|err] b]; [|done].
  by destruct (exhausted b).
Qed.

Lemma validated_never_unknown_witness :
  let e := makeExpr Binary "<=" [
    makeExpr Call "mod" [makeExpr Ident "tile" []; mkExpr IntLit 8 "" []];
    makeExpr MemberCall "count" [makeExpr Call "machine.compute" [makeExpr StringLit "mxu" []]]] in
  (validateExpr "f" e {["tile"]} (mkParser [] "")).1 = Parsed () ∧
  evaluateExpr anEnv {["tile" := IntValue 17]} e = Ok (VInt 1) ∧
  match evaluateExpr anEnv {["tile" := IntValue 17]} e with Ok _ => True | Err err => isUnknown err = false end.
Proof.
  split; [reflexivity|]. split; [reflexivity|].
  apply (validated_never_unknown _ {["tile"]} _ "f" (mkParser [] "")); [reflexivity..|].
  rewrite dom_singleton. set_solver.
Defined.
