(* ===== verification/LayoutConstraints.v ===== *)
(** Layout declarations: lib/Mapping/LayoutConstraints.cpp.

    A [layout] declaration names parameters, the finite domains they range over,
    the constraints that make a choice legal and an affine map.  The file models
    the declaration parser on top of the expression grammar ([parseLayoutText]),
    the printer ([printLayout]), the canonical text and the registry
    ([LayoutRegistry]), the translation of a map clause ([buildAffineMap]), the
    bounded solver ([solveLayout]) and the check of a recorded assignment
    ([verifySolvedLayout]).  MLIR's affine expressions are the class
    [AffineExprs].

    The theorems: a parsed registry is well formed; printing and parsing a
    declaration are inverse; the solver's answer is the list of the legal
    assignments in the order of the product, a prefix of it when a bound ends the
    search; the check of a recorded assignment accepts exactly the legal ones. *)
From S2P Require Import Prelude Odometer MachineModel Diagnostics LlkMap.
Open Scope string_scope.
Open Scope Z_scope.

(** ** Declarations *)
Record LayoutParam := mkParam { name : string; symbolic : bool }.

Record ParamDomain := mkDomain { values : list LayoutValue }.

Record AffineMapSpec := mkSpec { dims : list string; results : list Expr }.

Record LayoutDef := mkLayout {
  id : string;
  params : list LayoutParam;
  domains : gmap string ParamDomain;
  constraints : list Expr;
  map : option AffineMapSpec;
  implementsKind : string;
}.

Definition findParam (def : LayoutDef) (n : string) : option LayoutParam :=
  List.find (λ p, bool_decide (name p = n)) (params def).
Definition isSymbolic (def : LayoutDef) (n : string) : bool :=
  match findParam def n with Some p => symbolic p | None => false end.

(** ** The registry *)
Definition LayoutRegistry : Type := list LayoutDef.
Definition find (registry : LayoutRegistry) (i : string) : option LayoutDef :=
  List.find (λ def, bool_decide (id def = i)) registry.
Definition add (registry : LayoutRegistry) (def : LayoutDef) : result string LayoutRegistry :=
  match find registry (id def) with
  | Some _ => Err ("duplicate layout id '" +:+ id def +:+ "'")
  | None => Ok (registry ++ [def])%list
  end.
Definition implementing (registry : LayoutRegistry) (k : string) : list LayoutDef :=
  if str_empty k then [] else List.filter (λ def, bool_decide (implementsKind def = k)) registry.

(** ** Parsing *)
Definition with_params (d : LayoutDef) ps := mkLayout (id d) ps (domains d) (constraints d) (map d) (implementsKind d).
Definition with_domain (d : LayoutDef) n dom :=
  mkLayout (id d) (params d) (<[n := dom]> (domains d)) (constraints d) (map d) (implementsKind d).
Definition with_constraint (d : LayoutDef) e :=
  mkLayout (id d) (params d) (domains d) (constraints d ++ [e]) (map d) (implementsKind d).
Definition with_map (d : LayoutDef) m := mkLayout (id d) (params d) (domains d) (constraints d) (Some m) (implementsKind d).
Definition with_kind (d : LayoutDef) k := mkLayout (id d) (params d) (domains d) (constraints d) (map d) k.
Definition emptyLayout (i : string) : LayoutDef := mkLayout i [] ∅ [] None "".

Definition atEnd (p : LlkMapParser) : bool := bool_decide (tk_kind (current p) = TEnd).
Definition keyword (p : LlkMapParser) (words : list string) : bool :=
  bool_decide (tk_kind (current p) = TIdentifier) && contains words (tk_text (current p)).
Definition noFuel {A} : parser A := λ p, (NoFuel, p).

Section parser.
Variable source : string.

(** [LlkMapParser::fail]: a message without a position. *)
Definition fail {A} (message : string) : parser A := λ p,
  (Rejected, mkParser (tokens p)
    (if str_empty (error_ p) then source +:+ ": error: " +:+ message else error_ p)).

Fixpoint paramsLoop (fuel : nat) (ps : list LayoutParam) : parser (list LayoutParam) :=
  get (λ p,
    let typed := keyword p ["int"; "sym"] in
    let sym := typed && bool_decide (tk_text (current p) = "sym") in
    _ ← (if typed then step else mret ());
    n ← expectIdentifier source "a parameter name";
    if existsb (λ q, bool_decide (name q = n)) ps then failAt source ("duplicate parameter '" +:+ n +:+ "'")
    else
      let ps := (ps ++ [mkParam n sym])%list in
      get (λ p,
        if isPunct p "," then
          match fuel with
          | O => noFuel
          | S fuel => _ ← step; paramsLoop fuel ps
          end
        else mret ps)).
Definition parseParams : parser (list LayoutParam) :=
  get (λ p, if isPunct p ")" then mret [] else paramsLoop (length (tokens p)) []).

Definition parseImplements (out : LayoutDef) : parser LayoutDef :=
  if negb (str_empty (implementsKind out)) then failAt source "duplicate implements clause"
  else
    _ ← step;
    k ← expectIdentifier source "a layout kind";
    _ ← expectPunct source ";";
    mret (with_kind out k).

Definition parseDomain (out : LayoutDef) : parser LayoutDef :=
  _ ← step;
  n ← expectIdentifier source "a parameter name";
  if bool_decide (findParam out n = None) then
    failAt source ("domain for undeclared parameter '" +:+ n +:+ "'")
  else if bool_decide (is_Some (domains out !! n)) then
    failAt source ("duplicate domain for parameter '" +:+ n +:+ "'")
  else
    get (λ p,
      if negb (keyword p ["in"]) then failAt source "expected 'in'"
      else
        _ ← step;
        vs ← parseDomainValues source;
        _ ← expectPunct source ";";
        mret (with_domain out n (mkDomain vs))).

Definition paramNames (out : LayoutDef) : gset string := list_to_set (name <$> params out).

Definition parseRequire (out : LayoutDef) : parser LayoutDef :=
  _ ← step;
  e ← parseExpression source;
  _ ← expectPunct source ";";
  _ ← validateExpr source e (paramNames out ∪ {["rank"; "element_type"]});
  mret (with_constraint out e).

Fixpoint dimsLoop (fuel : nat) (ds : list string) : parser (list string) :=
  d ← expectIdentifier source "a map dimension";
  let ds := (ds ++ [d])%list in
  get (λ p,
    if isPunct p "," then
      match fuel with
      | O => noFuel
      | S fuel => _ ← step; dimsLoop fuel ds
      end
    else mret ds).

Fixpoint resultsLoop (fuel : nat) (es : list Expr) : parser (list Expr) :=
  e ← parseExpression source;
  let es := (es ++ [e])%list in
  get (λ p,
    if isPunct p "," then
      match fuel with
      | O => noFuel
      | S fuel => _ ← step; resultsLoop fuel es
      end
    else mret es).

Fixpoint validateAll (allowed : gset string) (es : list Expr) : parser unit :=
  match es with
  | [] => mret ()
  | e :: es => _ ← validateExpr source e allowed; validateAll allowed es
  end.

Definition parseMapClause (out : LayoutDef) : parser LayoutDef :=
  if bool_decide (is_Some (map out)) then failAt source "duplicate map clause"
  else
    _ ← step;
    _ ← expectPunct source "(";
    ds ← get (λ p, if isPunct p ")" then mret [] else dimsLoop (length (tokens p)) []);
    _ ← expectPunct source ")";
    _ ← expectPunct source "->";
    _ ← expectPunct source "(";
    rs ← get (λ p, resultsLoop (length (tokens p)) []);
    _ ← expectPunct source ")";
    _ ← expectPunct source ";";
    _ ← validateAll (paramNames out ∪ list_to_set ds) rs;
    mret (with_map out (mkSpec ds rs)).

Definition parseStatement (out : LayoutDef) : parser LayoutDef :=
  get (λ p,
    if negb (isIdentifier p) then failAt source "expected a statement"
    else if decide (tk_text (current p) = "param") then parseDomain out
    else if decide (tk_text (current p) = "require") then parseRequire out
    else if decide (tk_text (current p) = "map") then parseMapClause out
    else if decide (tk_text (current p) = "implements") then parseImplements out
    else failAt source ("unknown statement '" +:+ tk_text (current p) +:+ "'")).

Fixpoint statementsLoop (fuel : nat) (out : LayoutDef) : parser LayoutDef :=
  get (λ p,
    if isPunct p "}" then mret out
    else if atEnd p then failAt source ("expected '}' to close layout '" +:+ id out +:+ "'")
    else
      match fuel with
      | O => noFuel
      | S fuel => out ← parseStatement out; statementsLoop fuel out
      end).

Definition parseLayout : parser LayoutDef :=
  _ ← step;
  i ← expectIdentifier source "a layout id";
  _ ← expectPunct source "(";
  ps ← parseParams;
  _ ← expectPunct source ")";
  _ ← expectPunct source "{";
  def ← get (λ p, statementsLoop (length (tokens p)) (with_params (emptyLayout i) ps));
  _ ← step;
  mret def.

Fixpoint fileLoop (fuel : nat) (registry : LayoutRegistry) : parser LayoutRegistry :=
  get (λ p,
    if atEnd p then mret registry
    else if negb (keyword p ["layout"]) then failAt source "expected 'layout'"
    else
      match fuel with
      | O => noFuel
      | S fuel =>
        def ← parseLayout;
        match add registry def with
        | Err message => fail message
        | Ok registry => fileLoop fuel registry
        end
      end).
Definition parseFile : parser LayoutRegistry := get (λ p, fileLoop (length (tokens p)) []).
End parser.

(** What [parseLayoutText] returns: the registry, the parser's message, or what the
    lexer said; [None] if a loop ran out of fuel, which none does. *)
Definition parseLayoutText (text sourceName : string) : option (result lex_failure LayoutRegistry) :=
  match lexLlkMap text sourceName with
  | Err e => Some (Err e)
  | Ok ts =>
    match parseFile sourceName (mkParser ts "") with
    | (Parsed registry, _) => Some (Ok registry)
    | (Rejected, p) => Some (Err (Reported (error_ p)))
    | (NoFuel, _) => None
    end
  end.

(** ** Printing *)
Definition printAffineMapSpec (spec : AffineMapSpec) : string :=
  "(" +:+ str_join ", " (dims spec) +:+ ") -> (" +:+ str_join ", " (printExpr <$> results spec) +:+ ")".

(** A non-empty run of consecutive integers. *)
Fixpoint isRun_loop (previous : option Z) (vs : list LayoutValue) : bool :=
  match vs with
  | [] => true
  | IntValue i :: vs =>
    match previous with
    | Some p => bool_decide (i = p + 1) && isRun_loop (Some i) vs
    | None => isRun_loop (Some i) vs
    end
  | StrValue _ :: _ => false
  end.
Definition isRun (vs : list LayoutValue) : bool := negb (bool_decide (vs = [])) && isRun_loop None vs.

Definition intOf (v : option LayoutValue) : Z := match v with Some (IntValue i) => i | _ => 0 end.
Definition printParamDomain (domain : ParamDomain) : string :=
  let vs := values domain in
  if isRun vs then "[" +:+ to_string (intOf (head vs)) +:+ ".." +:+ to_string (intOf (last vs)) +:+ "]"
  else "{" +:+ str_join ", " (printValue <$> vs) +:+ "}".

Definition printParam (p : LayoutParam) : string := (if symbolic p then "sym " else "int ") +:+ name p.
Definition printDomainLine (def : LayoutDef) (p : LayoutParam) : string :=
  match domains def !! name p with
  | Some domain => "  param " +:+ name p +:+ " in " +:+ printParamDomain domain +:+ ";" +:+ newline
  | None => ""
  end.
Definition printLayout (def : LayoutDef) : string :=
  "layout " +:+ id def +:+ "(" +:+ str_join ", " (printParam <$> params def) +:+ ") {" +:+ newline +:+
  String.concat "" (printDomainLine def <$> params def) +:+
  (if str_empty (implementsKind def) then "" else "  implements " +:+ implementsKind def +:+ ";" +:+ newline) +:+
  String.concat "" ((λ e, "  require " +:+ printExpr e +:+ ";" +:+ newline) <$> constraints def) +:+
  match map def with
  | Some m => "  map " +:+ printAffineMapSpec m +:+ ";" +:+ newline
  | None => ""
  end +:+
  "}" +:+ newline.

(** ** Canonical text *)
Definition canonicalAffineMapSpecString (spec : AffineMapSpec) : string :=
  str_join "," (dims spec) +:+ "->" +:+ str_join "," (canonicalExprString <$> results spec).

Definition field (key value : string) : string := key +:+ ":" +:+ lengthPrefixed value +:+ newline.

Definition canonicalLayoutDefString (def : LayoutDef) : string :=
  field "id" (id def) +:+
  String.concat "" ((λ p, field "param" (name p +:+ (if symbolic p then ":symbolic" else ":integer"))) <$> params def) +:+
  String.concat "" ((λ '(n, domain),
    field "domain" (n +:+ "=" +:+ str_join "," (canonicalValueString <$> values domain))) <$> in_order (domains def)) +:+
  String.concat "" (field "constraint" ∘ canonicalExprString <$> constraints def) +:+
  (if str_empty (implementsKind def) then "" else field "implements" (implementsKind def)) +:+
  match map def with Some m => field "map" (canonicalAffineMapSpecString m) | None => "" end.

Definition computeContentHash (registry : LayoutRegistry) : Z :=
  stableHash (String.concat "" (canonicalLayoutDefString <$> sort_by id registry)).

(** ** Affine maps

    What the code uses of MLIR: building expressions and maps, asking whether an
    expression is a constant, and comparing maps. *)
Inductive AffineExprKind := Add | Mul | Mod | FloorDiv | CeilDiv.

Class AffineExprs := {
  AffineExpr : Type;
  AffineMap : Type;
  getAffineConstantExpr : Z → AffineExpr;
  getAffineDimExpr : nat → AffineExpr;
  getAffineBinaryOpExpr : AffineExprKind → AffineExpr → AffineExpr → AffineExpr;
  isConstant : AffineExpr → bool;
  affineMapGet : nat → list AffineExpr → AffineMap;
  #[global] AffineMap_eq_dec :: EqDecision AffineMap;
}.

Inductive map_error :=
| NeitherDimensionNorParameter (n : string)
| NonAffineUnary (op : string)
| NonAffineMultiplication
| NonAffineOperator (op : string)
| MapTakesTwoArguments (callee : string)
| NonAffineFunction (callee : string)
| NonAffineExpression
| MissingOperand.

Section affine.
Context `{AffineExprs}.

Definition minusOne : AffineExpr := getAffineConstantExpr (-1).

Definition convertBinary (op : string) (lhs rhs : AffineExpr) : result map_error AffineExpr :=
  if decide (op = "+") then Ok (getAffineBinaryOpExpr Add lhs rhs)
  else if decide (op = "-") then Ok (getAffineBinaryOpExpr Add lhs (getAffineBinaryOpExpr Mul minusOne rhs))
  else if decide (op = "*") then
    if negb (isConstant lhs) && negb (isConstant rhs) then Err NonAffineMultiplication
    else Ok (getAffineBinaryOpExpr Mul lhs rhs)
  else if decide (op = "/") then Ok (getAffineBinaryOpExpr FloorDiv lhs rhs)
  else if decide (op = "%") then Ok (getAffineBinaryOpExpr Mod lhs rhs)
  else Err (NonAffineOperator op).

Definition convertCall (callee : string) (lhs rhs : AffineExpr) : result map_error AffineExpr :=
  if decide (callee = "floordiv") then Ok (getAffineBinaryOpExpr FloorDiv lhs rhs)
  else if decide (callee = "ceildiv") then Ok (getAffineBinaryOpExpr CeilDiv lhs rhs)
  else if decide (callee = "mod") then Ok (getAffineBinaryOpExpr Mod lhs rhs)
  else Err (NonAffineFunction callee).

(** [AffineBuilder::convert]. *)
Fixpoint convert (dimIndex : gmap string nat) (constants : gmap string Z) (e : Expr) :
    result map_error AffineExpr :=
  match kind e with
  | IntLit => Ok (getAffineConstantExpr (intValue e))
  | Ident =>
    match dimIndex !! text e with
    | Some d => Ok (getAffineDimExpr d)
    | None =>
      match constants !! text e with
      | Some c => Ok (getAffineConstantExpr c)
      | None => Err (NeitherDimensionNorParameter (text e))
      end
    end
  | Unary =>
    match operands e with
    | operand :: _ =>
      operand ← convert dimIndex constants operand;
      if decide (text e = "-") then Ok (getAffineBinaryOpExpr Mul minusOne operand)
      else Err (NonAffineUnary (text e))
    | [] => Err MissingOperand
    end
  | Binary =>
    match operands e with
    | lhs :: rhs :: _ =>
      lhs ← convert dimIndex constants lhs; rhs ← convert dimIndex constants rhs; convertBinary (text e) lhs rhs
    | _ => Err MissingOperand
    end
  | Call =>
    match operands e with
    | [lhs; rhs] =>
      lhs ← convert dimIndex constants lhs; rhs ← convert dimIndex constants rhs; convertCall (text e) lhs rhs
    | _ => Err (MapTakesTwoArguments (text e))
    end
  | StringLit | MemberCall | Quantifier => Err NonAffineExpression
  end.

(** A dimension named twice has its last position. *)
Definition dimIndices (ds : list string) : gmap string nat :=
  foldl (λ m '(i, d), <[d := i]> m) ∅ (imap pair ds).

Definition buildAffineMap (spec : AffineMapSpec) (constants : gmap string Z) : result map_error AffineMap :=
  rs ← fold_result (λ rs e, r ← convert (dimIndices (dims spec)) constants e; Ok (rs ++ [r])%list) [] (results spec);
  Ok (affineMapGet (length (dims spec)) rs).
End affine.

(** ** Solving *)
Record SolverLimits := mkLimits {
  maxAssignments : Z;
  maxSolutions : Z;
  maxQuantifierIterations : Z;
}.
Definition defaultLimits : SolverLimits := mkLimits 100000 8 kDefaultQuantifierIterations.

Inductive solve_error :=
| NoDomain (p : string)
| EmptyDomain (p : string)
| EvaluationFailed (e : eval_error)
| MapFailed (e : map_error).

(** The product of the domain sizes, saturating. *)
Fixpoint domainsLoop (def : LayoutDef) (ps : list LayoutParam) (total : Z) :
    result solve_error (list (string * list LayoutValue) * Z) :=
  match ps with
  | [] => Ok ([], total)
  | p :: ps =>
    match domains def !! name p with
    | None => Err (NoDomain (name p))
    | Some domain =>
      let size := Z.of_nat (length (values domain)) in
      fail! (EmptyDomain (name p)) when bool_decide (size = 0);
      rest ← domainsLoop def ps (if bool_decide (total > u64_max / size) then u64_max else u64 (total * size));
      Ok ((name p, values domain) :: rest.1, rest.2)
    end
  end.

(** The bindings of an index vector; a name declared twice has its last value. *)
Definition assignment (ds : list (string * list LayoutValue)) (index : list nat) : gmap string LayoutValue :=
  foldl (λ m '((n, vs), i), match vs !! i with Some v => <[n := v]> m | None => m end) ∅ (zip ds index).

Definition integers (bindings : gmap string LayoutValue) : gmap string Z :=
  omap (λ v, match v with IntValue i => Some i | StrValue _ => None end) bindings.

Fixpoint checkConstraints (env : EvalEnv) (bindings : gmap string LayoutValue) (es : list Expr) : eval bool :=
  match es with
  | [] => mret true
  | e :: es =>
    v ← evalImpl env bindings e;
    match v with
    | VInt i => if bool_decide (i = 0) then mret false else checkConstraints env bindings es
    | _ => mret false
    end
  end.

(** [resolveDomain]: a quantifier reads the declared domains. *)
Definition envOf (machine : MachineModel) (context : LayoutContext) (def : LayoutDef) : EvalEnv :=
  mkEnv machine context (Some (λ n, values <$> domains def !! n)).

Section solve.
Context `{AffineExprs}.

Record LayoutSolution := mkSolution {
  sol_values : gmap string LayoutValue;
  sol_map : option AffineMap;
}.
Record LayoutSolveResult := mkSolved {
  solutions : list LayoutSolution;
  truncated : bool;
  undecided : bool;
}.

Variables (machine : MachineModel) (context : LayoutContext).

Definition makeSolution (def : LayoutDef) (bindings : gmap string LayoutValue) : result map_error LayoutSolution :=
  match map def with
  | None => Ok (mkSolution bindings None)
  | Some spec => m ← buildAffineMap spec (integers bindings); Ok (mkSolution bindings (Some m))
  end.

Fixpoint solveLoop (fuel : nat) (def : LayoutDef) (limits : SolverLimits) (ds : list (string * list LayoutValue))
    (index : list nat) (assignments : Z) (b : QuantifierBudget) (sols : list LayoutSolution) :
    result solve_error (list LayoutSolution * Z * QuantifierBudget) :=
  match fuel with
  | O => Ok (sols, assignments, b)
  | S fuel =>
    if bool_decide (maxAssignments limits <= assignments) then Ok (sols, assignments, b)
    else
      let bindings := assignment ds index in
      let assignments := u64 (assignments + 1) in
      let next (b : QuantifierBudget) (sols : list LayoutSolution) :=
        match odometer (length ∘ snd <$> ds) (length index) index with
        | (_, None) => Ok (sols, assignments, b)
        | (index, Some _) => solveLoop fuel def limits ds index assignments b sols
        end in
      match checkConstraints (envOf machine context def) bindings (constraints def) b with
      | (Err e, _) => Err (EvaluationFailed e)
      | (Ok false, b) => next b sols
      | (Ok true, b) =>
        match makeSolution def bindings with
        | Err e => Err (MapFailed e)
        | Ok solution =>
          let sols := (sols ++ [solution])%list in
          if bool_decide (maxSolutions limits <= Z.of_nat (length sols)) then Ok (sols, assignments, b)
          else next b sols
        end
      end
  end.

(** One round per point of the product. *)
Definition solveFuel (ds : list (string * list LayoutValue)) : nat := foldr Nat.mul 1%nat (length ∘ snd <$> ds).

Definition solveLayout (def : LayoutDef) (limits : SolverLimits) : result solve_error LayoutSolveResult :=
  dt ← domainsLoop def (params def) 1;
  let '(ds, total) := dt in
  r ← solveLoop (solveFuel ds) def limits ds (replicate (length ds) O) 0
        (mkBudget (maxQuantifierIterations limits) 0 false) [];
  let '(sols, assignments, b) := r in
  Ok (mkSolved (if exhausted b then [] else sols)
        (bool_decide (assignments < total) || exhausted b) (exhausted b)).

(** ** Checking a recorded assignment *)
Inductive verify_error :=
| Undeclared (p : string)
| Unrecorded (p : string)
| WithoutDomain (p : string)
| OutsideDomain (p : string) (v : LayoutValue)
| SolveFailed (e : solve_error)
| SolveUndecided
| ConstraintsReject
| RecordsUndeclaredMap
| RebuildFailed (e : map_error)
| OtherMap.

(** The order in which a [StringMap] of recorded values is walked. *)
Variable entries : gmap string LayoutValue → list (string * LayoutValue).

Definition checkRecordedParam (def : LayoutDef) (recordedValues : gmap string LayoutValue) (p : LayoutParam) :
    result verify_error unit :=
  match recordedValues !! name p with
  | None => Err (Unrecorded (name p))
  | Some recorded =>
    match domains def !! name p with
    | None => Err (WithoutDomain (name p))
    | Some domain =>
      fail! (OutsideDomain (name p) recorded) when negb (contains (values domain) recorded);
      Ok ()
    end
  end.

Definition pinDomains (def : LayoutDef) (recordedValues : gmap string LayoutValue) : LayoutDef :=
  foldl (λ d p, with_domain d (name p)
           (mkDomain [default (IntValue 0) (recordedValues !! name p)])) def (params def).

Definition verifySolvedLayout (def : LayoutDef) (recordedValues : gmap string LayoutValue)
    (recordedMap : option AffineMap) (limits : SolverLimits) : result verify_error unit :=
  for_each (λ '(n, _), fail! (Undeclared n) when bool_decide (findParam def n = None); Ok ())
    (entries recordedValues);;
  for_each (checkRecordedParam def recordedValues) (params def);;
  match solveLayout (pinDomains def recordedValues) limits with
  | Err e => Err (SolveFailed e)
  | Ok solved =>
    fail! SolveUndecided when undecided solved;
    fail! ConstraintsReject when bool_decide (length (solutions solved) = O);
    match map def with
    | None =>
      fail! RecordsUndeclaredMap when bool_decide (is_Some recordedMap);
      Ok ()
    | Some spec =>
      match buildAffineMap spec (integers recordedValues) with
      | Err e => Err (RebuildFailed e)
      | Ok expected =>
        fail! OtherMap when negb (bool_decide (recordedMap = None)) && negb (bool_decide (recordedMap = Some expected));
        Ok ()
      end
    end
  end.

(** The message: the stable code, where, and the detail. *)
Definition rejectMessage (where_ detail : string) : string :=
  stringifyDiagnosticCode NoLegalLayout +:+ ": " +:+ (if str_empty where_ then "" else where_ +:+ ": ") +:+ detail.
End solve.

(** ** The solver enumerates the legal assignments *)

(** A constraint holds when it has a nonzero value, with all the budget there is. *)
Definition satisfies (env : EvalEnv) (bindings : gmap string LayoutValue) (e : Expr) : bool :=
  match (evalImpl env bindings e (mkBudget u64_max 0 false)).1 with
  | Ok (VInt i) => negb (bool_decide (i = 0))
  | _ => false
  end.
Definition legal (machine : MachineModel) (context : LayoutContext) (def : LayoutDef)
    (bindings : gmap string LayoutValue) : bool :=
  forallb (satisfies (envOf machine context def) bindings) (constraints def).

Lemma sim_full b : unspent b → sim b (mkBudget u64_max 0 false).
Proof. intros H. split; [done|split; cbn; unfold u64_max; lia|]. destruct H. cbn. lia. Qed.

(** An evaluation that does not spend its budget gives the value of the full one. *)
Lemma eval_full env bindings e b r c : unspent b → evalImpl env bindings e b = (r, c) → exhausted c = false →
  unspent c ∧ (evalImpl env bindings e (mkBudget u64_max 0 false)).1 = r.
Proof.
  intros Hb H Hc. destruct (robust_evalImpl env e bindings) as [_ Hr].
  destruct (Hr b _ (sim_full b Hb)) as [He|[He Hs]]; rewrite H in *; [cbn in He; congruence|].
  split; [by destruct Hs|done].
Qed.

Lemma checkConstraints_spent env bindings es b : exhausted b = true →
  exhausted (checkConstraints env bindings es b).2 = true.
Proof.
  revert b. induction es as [|e es IH]; intros b Hb; [done|]. cbn [checkConstraints]. unfold mbind, eval_bind.
  destruct (robust_evalImpl env e bindings) as [Hr _]. specialize (Hr b Hb).
  destruct (evalImpl env bindings e b) as [[[i| |]|] c]; try done. by case_bool_decide; [|apply IH].
Qed.

Lemma checkConstraints_legal env bindings es b s c : unspent b →
  checkConstraints env bindings es b = (Ok s, c) → exhausted c = false →
  unspent c ∧ s = forallb (satisfies env bindings) es.
Proof.
  revert b. induction es as [|e es IH]; intros b Hb; cbn [checkConstraints]; [by intros [= <- <-]|].
  unfold mbind, eval_bind. destruct (evalImpl env bindings e b) as [[v|] d] eqn:He; [|done]. intros H Hc.
  assert (exhausted d = false) as Hd.
  { destruct (exhausted d) eqn:Hd; [|done]. destruct v as [i| |]; try (by injection H as _ <-; congruence).
    case_bool_decide; [by injection H as _ <-; congruence|].
    pose proof (checkConstraints_spent env bindings es d Hd) as Hs. rewrite H in Hs. cbn in Hs. congruence. }
  destruct (eval_full env bindings e b (Ok v) d Hb He Hd) as [Hu Hv].
  cbn [forallb]. unfold satisfies at 1. rewrite Hv.
  destruct v as [i| |]; try by injection H as <- <-. case_bool_decide; [by injection H as <- <-|]. by apply (IH d).
Qed.

Section solve_proofs.
Context `{AffineExprs}.
Variables (machine : MachineModel) (context : LayoutContext).

Lemma solveLoop_spent fuel def limits ds index a b sols sols' a' b' :
  solveLoop machine context fuel def limits ds index a b sols = Ok (sols', a', b') →
  exhausted b = true → exhausted b' = true.
Proof.
  revert index a b sols. induction fuel as [|fuel IH]; intros index a b sols; cbn [solveLoop]; [by intros [= <- <- <-]|].
  case_bool_decide; [by intros [= <- <- <-]|]. intros Hl Hb.
  pose proof (checkConstraints_spent (envOf machine context def) (assignment ds index) (constraints def) b Hb) as Hc.
  destruct (checkConstraints _ _ _ b) as [[[]|] c]; [| |done]; cbn in Hc.
  - destruct (makeSolution def _) as [sol|]; [|done]. case_bool_decide; [by injection Hl as <- <- <-|].
    destruct (odometer _ _ _) as [? [|]]; [by eapply IH|by injection Hl as <- <- <-].
  - destruct (odometer _ _ _) as [? [|]]; [by eapply IH|by injection Hl as <- <- <-].
Qed.

Definition sizesOf (ds : list (string * list LayoutValue)) : list nat := length ∘ snd <$> ds.

Lemma makeSolution_values def bindings sol : makeSolution def bindings = Ok sol → sol_values sol = bindings.
Proof.
  unfold makeSolution. destruct (map def) as [spec|]; [|by intros [= <-]].
  destruct (buildAffineMap spec _); [|done]. by intros [= <-].
Qed.

(** What a run that ends at [a'] with [sols'] has done with the vectors [l]. *)
Definition covers (limits : SolverLimits) (def : LayoutDef) (ds : list (string * list LayoutValue))
    (l : list (list nat)) (a a' : Z) (sols sols' : list LayoutSolution) : Prop :=
  ∃ k S, (k <= length l)%nat ∧ a' = a + Z.of_nat k ∧ (k = 0%nat ∨ a' <= maxAssignments limits) ∧
    sols' = (sols ++ S)%list ∧ sol_values <$> S = List.filter (legal machine context def) (assignment ds <$> take k l) ∧
    Forall (λ s, makeSolution def (sol_values s) = Ok s) S ∧
    (k = length l ∨ maxAssignments limits <= a' ∨ maxSolutions limits <= Z.of_nat (length sols')).

(** The solutions one vector adds. *)
Definition adds (def : LayoutDef) (ds : list (string * list LayoutValue)) (v : list nat) (S : list LayoutSolution) : Prop :=
  sol_values <$> S = List.filter (legal machine context def) [assignment ds v] ∧
  Forall (λ s, makeSolution def (sol_values s) = Ok s) S.

Lemma covers_none limits def ds l a sols : maxAssignments limits <= a → covers limits def ds l a a sols sols.
Proof.
  intros Ha. exists O, []. rewrite app_nil_r. split_and!; [lia|lia|by left|done|by rewrite take_0|constructor|auto].
Qed.

Lemma covers_stop limits def ds v l a sols S : a < maxAssignments limits → adds def ds v S →
  l = [] ∨ maxSolutions limits <= Z.of_nat (length (sols ++ S)%list) →
  covers limits def ds (v :: l) a (a + 1) sols (sols ++ S)%list.
Proof.
  intros Ha [HS HF] Hd. exists 1%nat, S. cbn [length take]. rewrite take_0.
  split_and!; [lia|lia|right; lia|done..|]. destruct Hd as [->|?]; auto.
Qed.

Lemma covers_step limits def ds v l a a' sols sols' S : a < maxAssignments limits → adds def ds v S →
  covers limits def ds l (a + 1) a' (sols ++ S)%list sols' → covers limits def ds (v :: l) a a' sols sols'.
Proof.
  intros Ha [HS HF] (k & S' & Hk & -> & Hm & -> & HS' & HF' & Hd). exists (1 + k)%nat, (S ++ S')%list.
  rewrite app_assoc. cbn [length take Nat.add].
  split_and!; [lia|lia|right; lia|done| |by apply Forall_app|destruct Hd as [->|[?|?]]; auto with lia].
  rewrite fmap_app, HS, HS'. rewrite fmap_cons. by rewrite <- List.filter_app.
Qed.

(** The rest of a round once the bound on assignments is passed. *)
Definition round (def : LayoutDef) (limits : SolverLimits) (bindings : gmap string LayoutValue) (a : Z)
    (next : QuantifierBudget → list LayoutSolution → result solve_error (list LayoutSolution * Z * QuantifierBudget))
    (b : QuantifierBudget) (sols : list LayoutSolution) :=
  match checkConstraints (envOf machine context def) bindings (constraints def) b with
  | (Err e, _) => Err (EvaluationFailed e)
  | (Ok false, b) => next b sols
  | (Ok true, b) =>
    match makeSolution def bindings with
    | Err e => Err (MapFailed e)
    | Ok solution =>
      let sols := (sols ++ [solution])%list in
      if bool_decide (maxSolutions limits <= Z.of_nat (length sols)) then Ok (sols, a, b) else next b sols
    end
  end.

Lemma round_spec def limits ds v a next b sols sols' a' b' :
  round def limits (assignment ds v) a next b sols = Ok (sols', a', b') →
  unspent b → exhausted b' = false →
  (∀ c s, next c s = Ok (sols', a', b') → exhausted c = true → exhausted b' = true) →
  ∃ S, adds def ds v S ∧
    (sols' = (sols ++ S)%list ∧ a' = a ∧ maxSolutions limits <= Z.of_nat (length sols') ∨ ∃ c, unspent c ∧ next c (sols ++ S)%list = Ok (sols', a', b')).
Proof.
  unfold round. intros Hr Hb Hb' Hnext.
  destruct (checkConstraints _ _ _ b) as [[s|] c] eqn:Hc; [|done].
  assert (exhausted c = false) as Hu.
  { destruct (exhausted c) eqn:He; [|done]. destruct s; [|by rewrite (Hnext _ _ Hr He) in Hb'].
    destruct (makeSolution def _); [|done]. case_bool_decide; [injection Hr as <- <- <-; congruence|].
    by rewrite (Hnext _ _ Hr He) in Hb'. }
  destruct (checkConstraints_legal _ _ _ _ _ _ Hb Hc Hu) as [Huc Hs]. change (s = legal machine context def (assignment ds v)) in Hs.
  destruct s.
  - destruct (makeSolution def _) as [sol|] eqn:Hsol; [|done]. pose proof (makeSolution_values _ _ _ Hsol) as Hv.
    exists [sol]. split.
    { split; [cbn; rewrite Hv; by destruct (legal machine context def _)|]. by rewrite Forall_singleton, Hv. }
    case_bool_decide; [injection Hr as <- <- <-; left; split_and!; [done..|lia]|right; eauto].
  - exists []. rewrite app_nil_r. split; [|right; eauto]. split; [|constructor]. cbn.
    by destruct (legal machine context def _).
Qed.

(** The loop over the vectors [l] that are left. *)
Lemma solveLoop_enum fuel def limits ds v l a b sols sols' a' b' :
  enum (sizesOf ds) v l → length v = length (sizesOf ds) → (length l <= fuel)%nat →
  0 <= a → maxAssignments limits <= u64_max →
  solveLoop machine context fuel def limits ds v a b sols = Ok (sols', a', b') →
  unspent b → exhausted b' = false → covers limits def ds l a a' sols sols'.
Proof.
  intros Hl. revert fuel a b sols. induction Hl as [v Hv|v v' l Hv Hl IH]; intros fuel a b sols Hlen Hf Ha Hm Hr Hb Hb';
    (destruct fuel as [|fuel]; [cbn in Hf; lia|]); cbn [solveLoop] in Hr; fold (sizesOf ds) in Hr;
    (case_bool_decide as Hmax; [injection Hr as <- <- <-; by apply covers_none|]);
    rewrite u64_id in Hr by (unfold in_u64, u64_max in *; lia);
    pose proof (odometer_next (sizesOf ds) v Hlen) as Hnext; rewrite Hv in Hnext.
  - rewrite Hnext in Hr. apply (round_spec _ _ _ _ _ (λ b s, Ok (s, a + 1, b))) in Hr; [|done..|].
    2: { intros c s [= <- <- <-]. done. }
    destruct Hr as (S & HS & [(-> & -> & ?)|(c & _ & [= <- <- _])]); apply covers_stop; auto; lia.
  - destruct Hnext as (Hlen' & q & Hq & _). rewrite Hq in Hr.
    apply (round_spec _ _ _ _ _ (solveLoop machine context fuel def limits ds v' (a + 1))) in Hr; [|done..|].
    2: { intros c s. apply solveLoop_spent. }
    destruct Hr as (S & HS & [(-> & -> & ?)|(c & Hc & Hr)]); [apply covers_stop; auto; lia|].
    eapply covers_step; [lia|done|]. eapply IH; [done| |lia|lia|done..]. cbn in Hf. lia.
Qed.

Lemma sizes_nonzero (P : string * list LayoutValue → Prop) ds : Forall (λ nd, P nd ∧ nd.2 ≠ []) ds →
  Forall (λ n, n ≠ 0%nat) (sizesOf ds) ∧ foldr Nat.mul 1%nat (sizesOf ds) ≠ 0%nat.
Proof.
  induction 1 as [|[n vs] ds [_ Hv] _ [IH1 IH2]]; [done|]. cbn [snd] in Hv.
  change (sizesOf ((n, vs) :: ds)) with (length vs :: sizesOf ds).
  assert (length vs ≠ 0%nat) as Hl by (by destruct vs). split; [by constructor|]. cbn [foldr].
  intros [?|?]%Nat.eq_mul_0; done.
Qed.

(** The domains, in declaration order, and the size of their product. *)
Lemma domainsLoop_spec def ps total ds t : 1 <= total <= u64_max → domainsLoop def ps total = Ok (ds, t) →
  ds.*1 = name <$> ps ∧ Forall (λ nd, values <$> domains def !! nd.1 = Some nd.2 ∧ nd.2 ≠ []) ds ∧
  t = Z.min u64_max (total * Z.of_nat (foldr Nat.mul 1%nat (sizesOf ds))).
Proof.
  revert total ds t. induction ps as [|p ps IH]; intros total ds t Ht; cbn [domainsLoop].
  { intros [= <- <-]. split_and!; [done|constructor|cbn; lia]. }
  destruct (domains def !! name p) as [domain|] eqn:Hd; [|done]. intros [Hs%bool_decide_eq_false Hr]%fail_then_ok.
  destruct (domainsLoop def ps _) as [[ds' t']|] eqn:Hl; [|done]. injection Hr as <- <-.
  set (n := Z.of_nat (length (values domain))) in *.
  assert (1 <= n) as Hn by (unfold n in *; lia).
  apply IH in Hl as (Hnames & HF & ->).
  - cbn [fst snd fmap list_fmap]. split_and!; [by rewrite Hnames|constructor; [|done]|].
    + cbn. rewrite Hd. split; [done|]. intros Hv. unfold n in Hs. rewrite Hv in Hs. done.
    + unfold sizesOf. cbn [fmap list_fmap foldr compose snd]. rewrite Nat2Z.inj_mul. fold n. fold (sizesOf ds').
      set (m := Z.of_nat (foldr Nat.mul 1%nat (sizesOf ds'))). assert (1 <= m) as Hm.
      { unfold m. enough (foldr Nat.mul 1%nat (sizesOf ds') ≠ 0)%nat by lia.
        by eapply (sizes_nonzero (λ nd, values <$> domains def !! nd.1 = Some nd.2)). }
      case_bool_decide as Hb.
      * pose proof (Z.mul_succ_div_gt u64_max n ltac:(lia)). assert (u64_max < total * n) by nia.
        rewrite !Z.min_l; [done|nia..].
      * pose proof (Z.mul_div_le u64_max n ltac:(lia)). assert (0 <= total * n <= u64_max) by nia.
        rewrite u64_id by (unfold in_u64, u64_max in *; lia). f_equal. ring.
  - case_bool_decide as Hb; [unfold u64_max; lia|]. pose proof (Z.mul_div_le u64_max n ltac:(lia)).
    assert (1 <= total * n <= u64_max) by nia. by rewrite u64_id by (unfold in_u64, u64_max in *; lia).
Qed.

(** The reference: every assignment of the declared domains, in the order of the
    product. *)
Definition declaredDomains (def : LayoutDef) : list (string * list LayoutValue) :=
  (λ p, (name p, default [] (values <$> domains def !! name p))) <$> params def.
Definition allAssignments (def : LayoutDef) : list (gmap string LayoutValue) :=
  let ds := declaredDomains def in assignment ds <$> index_vectors (sizesOf ds).

Lemma domainsLoop_declared def ds t : domainsLoop def (params def) 1 = Ok (ds, t) →
  ds = declaredDomains def ∧ Forall (λ n, n ≠ 0%nat) (sizesOf ds) ∧
  t = Z.min u64_max (Z.of_nat (length (allAssignments def))).
Proof.
  intros Hds. apply domainsLoop_spec in Hds as (Hn & HF & ->); [|unfold u64_max; lia].
  assert (ds = declaredDomains def) as ->.
  { unfold declaredDomains. revert ds Hn HF. generalize (params def). intros ps.
    induction ps as [|p ps IH]; intros [|[n vs] ds] Hn HF; try done. injection Hn as -> Hn.
    apply Forall_cons in HF as [[Hv _] HF]. cbn in Hv |- *. rewrite Hv. cbn. f_equal. auto. }
  split; [done|]. split; [by eapply (sizes_nonzero (λ nd, values <$> domains def !! nd.1 = Some nd.2))|].
  unfold allAssignments. by rewrite length_fmap, index_vectors_length, Z.mul_1_l.
Qed.

(** C18: The solver's answer is exact.  When a quantifier has spent the budget the
    result is undecided and holds no solution.  Otherwise the solutions are the
    legal assignments, each with the map its values build, among the first points
    of the product of the domains; all of them when the result is not truncated,
    and when it is, a bound on assignments or on solutions has been reached. *)
Theorem solveLayout_exact def limits r :
  0 <= maxAssignments limits < u64_max → maxQuantifierIterations limits <= u64_max →
  solveLayout machine context def limits = Ok r →
  if undecided r then solutions r = [] ∧ truncated r = true
  else ∃ k,
    sol_values <$> solutions r = List.filter (legal machine context def) (take k (allAssignments def)) ∧
    Forall (λ s, makeSolution def (sol_values s) = Ok s) (solutions r) ∧
    (truncated r = false → k = length (allAssignments def)) ∧
    (truncated r = true → (k < length (allAssignments def))%nat ∧
      (maxAssignments limits <= Z.of_nat k ∨ maxSolutions limits <= Z.of_nat (length (solutions r)))).
Proof.
  intros Hm Hq. unfold solveLayout. destruct (domainsLoop def (params def) 1) as [[ds t]|] eqn:Hd; [|done].
  apply domainsLoop_declared in Hd as (-> & Hnz & ->). cbn [mbind result_bind].
  destruct (solveLoop _ _ _ _ _ _ _ _ _ _) as [[[sols a] b]|] eqn:Hl; [|done]. cbn [mbind result_bind].
  intros [= <-]. cbn [undecided solutions truncated]. destruct (exhausted b) eqn:Hb; [by rewrite orb_true_r|].
  rewrite orb_false_r. set (ds := declaredDomains def) in *.
  assert (replicate (length ds) 0%nat = zeros (sizesOf ds)) as Hz by (unfold zeros, sizesOf; by rewrite length_fmap).
  rewrite Hz in Hl. eapply (solveLoop_enum _ _ _ _ _ (index_vectors (sizesOf ds))) in Hl as
    (k & S & Hk & -> & Hmax & -> & HS & HF & Hend);
    [|by apply index_vectors_enum|unfold zeros; by rewrite length_replicate|unfold solveFuel; fold (sizesOf ds); by rewrite index_vectors_length|lia|lia|split; cbn; [lia|done..]|done].
  cbn [app] in *. assert (length (allAssignments def) = length (index_vectors (sizesOf ds))) as Hlen by apply length_fmap.
  exists k. split_and!; [by unfold allAssignments; rewrite <- fmap_take|done|..].
  - intros Ht%bool_decide_eq_false. unfold u64_max in *. lia.
  - intros Ht%bool_decide_eq_true. rewrite Hlen. split; [lia|]. destruct Hend as [->|[?|?]]; [lia|left; lia|by right].
Qed.
End solve_proofs.

(** ** The assignments of a declaration *)
Definition bindStep (m : gmap string LayoutValue) (x : string * list LayoutValue * nat) : gmap string LayoutValue :=
  let '((n, vs), i) := x in match vs !! i with Some v => <[n := v]> m | None => m end.

Definition inDomains (ds : list (string * list LayoutValue)) (m : gmap string LayoutValue) : Prop :=
  ∀ nd, nd ∈ ds → ∃ x, x ∈ nd.2 ∧ m !! nd.1 = Some x.

Lemma bind_all m0 ds v : NoDup ds.*1 → Forall2 (λ i nd, (i < length nd.2)%nat) v ds →
  let m := foldl bindStep m0 (zip ds v) in
  dom m = dom m0 ∪ list_to_set ds.*1 ∧ (∀ n, n ∉ ds.*1 → m !! n = m0 !! n) ∧ inDomains ds m.
Proof.
  intros Hnd Hv. revert m0 Hnd. induction Hv as [|i [n vs] v ds Hi Hv IH]; intros m0 Hnd; cbn.
  { split_and!; [set_solver|done|by intros ? []%elem_of_nil]. }
  cbn in Hi, Hnd. apply NoDup_cons in Hnd as [Hn Hnd]. destruct (lookup_lt_is_Some_2 vs i Hi) as [x Hx].
  rewrite Hx. destruct (IH (<[n := x]> m0) Hnd) as (H1 & H2 & H3). split_and!.
  - rewrite H1, dom_insert_L. set_solver.
  - intros n' Hn'. rewrite H2 by set_solver. apply lookup_insert_ne. set_solver.
  - intros nd [->|Hin]%elem_of_cons; [|auto]. exists x. cbn. split; [by eapply list_elem_of_lookup_2|].
    by rewrite H2, lookup_insert_eq.
Qed.

Lemma bind_onto m m0 ds : inDomains ds m → (∀ n, n ∉ ds.*1 → m0 !! n = m !! n) →
  ∃ v, Forall2 (λ i nd, (i < length nd.2)%nat) v ds ∧ foldl bindStep m0 (zip ds v) = m.
Proof.
  revert m0. induction ds as [|[n vs] ds IH]; intros m0 Hm H0.
  { exists []. split; [constructor|]. cbn. apply map_eq. intros n. apply H0. by intros ?%elem_of_nil. }
  destruct (Hm (n, vs)) as (x & Hx & Hl); [by left|]. cbn in Hx, Hl.
  apply list_elem_of_lookup_1 in Hx as [i Hi]. destruct (IH (<[n := x]> m0)) as (v & Hv & Hf).
  - intros nd Hin. apply Hm. by right.
  - intros n' Hn'. destruct (decide (n' = n)) as [->|Hne]; [by rewrite lookup_insert_eq|].
    rewrite lookup_insert_ne by done. apply H0. cbn. set_solver.
  - exists (i :: v). split; [constructor; [by eapply lookup_lt_Some|done]|]. cbn. by rewrite Hi.
Qed.

Lemma declaredDomains_names def : (declaredDomains def).*1 = name <$> params def.
Proof. unfold declaredDomains. rewrite <- list_fmap_compose. by apply list_fmap_ext. Qed.

(** The assignments of a declaration with distinct parameters: every parameter,
    and nothing else, has a value of its domain. *)
Lemma elem_of_allAssignments def m : NoDup (name <$> params def) →
  m ∈ allAssignments def ↔ dom m = paramNames def ∧ inDomains (declaredDomains def) m.
Proof.
  intros Hnd. unfold allAssignments. cbv zeta. rewrite list_elem_of_fmap. setoid_rewrite elem_of_index_vectors.
  unfold sizesOf. setoid_rewrite Forall2_fmap_r. unfold compose. rewrite <- declaredDomains_names in Hnd.
  assert (∀ v, assignment (declaredDomains def) v = foldl bindStep ∅ (zip (declaredDomains def) v)) as Hfold by done.
  split.
  - intros (v & -> & Hv). rewrite Hfold. destruct (bind_all ∅ _ v Hnd Hv) as (H1 & _ & H3).
    split; [|done]. rewrite H1, declaredDomains_names. unfold paramNames. set_solver.
  - intros [Hd Hm]. destruct (bind_onto m ∅ _ Hm) as (v & Hv & Hf).
    + intros n Hn. symmetry. apply not_elem_of_dom. rewrite Hd. rewrite declaredDomains_names in Hn.
      unfold paramNames. set_solver.
    + exists v. split; [|done]. by rewrite Hfold, Hf.
Qed.

(** ** Constraints without quantifiers *)
Fixpoint quantifierFree (e : Expr) : bool :=
  negb (bool_decide (kind e = Quantifier)) && forallb quantifierFree (operands e).

(** Two evaluations that leave their budgets alone and end in the same way. *)
Definition alike {A} (m m' : eval A) : Prop := ∀ b b', ∃ r, m b = (r, b) ∧ m' b' = (r, b').

Lemma alike_ret {A} (a : A) : alike (mret a) (mret a).
Proof. intros b b'. by eexists. Qed.
Lemma alike_error {A} e : alike (@evalError A e) (evalError e).
Proof. intros b b'. by eexists. Qed.
Lemma alike_bind {A B} (m m' : eval A) (f f' : A → eval B) : alike m m' → (∀ a, alike (f a) (f' a)) →
  alike (m ≫= f) (m' ≫= f').
Proof.
  intros Hm Hf b b'. unfold mbind, eval_bind. destruct (Hm b b') as ([a|e] & -> & ->); [apply Hf|by eexists].
Qed.
Ltac alike_tac :=
  repeat (first
    [ assumption | apply alike_ret | apply alike_error
    | apply alike_bind; [|intros ?]
    | match goal with
      | |- alike (match ?x with _ => _ end) _ => destruct x eqn:?
      | |- alike (if ?x then _ else _) _ => destruct x eqn:?
      end ]).
Lemma alike_makeInt z : alike (makeInt z) (makeInt z).
Proof. unfold makeInt. alike_tac. Qed.
Lemma alike_evalBinary op l r : alike (evalBinary op l r) (evalBinary op l r).
Proof. unfold evalBinary, makeBool, divide, remainder. pose proof alike_makeInt. alike_tac; auto. Qed.
Lemma alike_evalFunction f l r : alike (evalFunction f l r) (evalFunction f l r).
Proof. unfold evalFunction, divide, remainder. pose proof alike_makeInt. alike_tac; auto. Qed.
Lemma alike_evalMember m member handle arg arg' : option_Forall2 alike arg arg' →
  alike (evalMember m member handle arg) (evalMember m member handle arg').
Proof.
  intros Ha. unfold evalMember. pose proof alike_makeInt. destruct Ha as [a a' Ha|]; alike_tac; auto.
Qed.
#[local] Hint Resolve alike_ret alike_error alike_makeInt alike_evalBinary alike_evalFunction : core.

(** A quantifier-free expression reads neither the budget nor the domains. *)
Lemma alike_evalImpl env env' bindings e : machine env' = machine env → context env' = context env →
  quantifierFree e = true → alike (evalImpl env bindings e) (evalImpl env' bindings e).
Proof.
  intros Hm Hc. induction e as [k i t ops IH] using Expr_nested_ind. cbn [quantifierFree kind operands].
  intros [Hk Hops]%andb_true_iff.
  assert (Forall (λ e, alike (evalImpl env bindings e) (evalImpl env' bindings e)) ops) as Hall.
  { rewrite forallb_forall in Hops. rewrite Forall_forall in IH |- *. intros e He. apply IH; [done|].
    by apply Hops, list_elem_of_In. }
  clear IH Hops. destruct k; cbn [evalImpl kind text operands intValue]; auto.
  - unfold evalIdent. rewrite Hc. destruct (bindings !! t); auto. repeat case_decide; auto.
  - destruct (isMachineCall t).
    + destruct ops as [|a [|]]; auto. apply Forall_cons in Hall as [? _]. apply alike_bind; auto. intros [| |]; auto.
    + destruct ops as [|a [|b [|]]]; auto. apply Forall_cons in Hall as [? [? _]%Forall_cons].
      apply alike_bind; auto. intros ?. apply alike_bind; auto.
  - destruct ops as [|r args]; auto. apply Forall_cons in Hall as [? Hall]. apply alike_bind; auto. intros [| |]; auto.
    rewrite Hm. apply alike_evalMember. destruct args as [|a [|]]; [constructor| |constructor].
    constructor. by apply Forall_cons in Hall as [? _].
  - destruct ops as [|a ops]; auto. apply Forall_cons in Hall as [? _]. apply alike_bind; auto. intros [| |]; auto.
    destruct (decide _); auto. apply alike_ret.
  - destruct ops as [|a [|b ops]]; auto. apply Forall_cons in Hall as [? [? _]%Forall_cons].
    apply alike_bind; auto. intros ?. apply alike_bind; auto.
  - by rewrite bool_decide_true in Hk.
Qed.

Lemma checkConstraints_free env env' bindings es b : machine env' = machine env → context env' = context env →
  forallb quantifierFree es = true →
  ∃ r, checkConstraints env bindings es b = (r, b) ∧ (r = Ok true ↔ forallb (satisfies env' bindings) es = true).
Proof.
  intros Hm Hc. induction es as [|e es IH]; cbn [forallb checkConstraints].
  { intros _. by exists (Ok true). }
  intros [He Hes]%andb_true_iff. destruct (IH Hes) as (s & Hs & Hr).
  destruct (alike_evalImpl env env' bindings e Hm Hc He b (mkBudget u64_max 0 false)) as (r & H1 & H2).
  unfold mbind, eval_bind. rewrite H1. unfold satisfies at 1. rewrite H2. cbn [fst].
  destruct r as [[i| |]|err]; try (eexists; by split).
  case_bool_decide; [eexists; by split|]. by exists s.
Qed.

(** ** Checking a recorded assignment *)
Section verify.
Context `{AffineExprs}.
Variables (machine : MachineModel) (context : LayoutContext).
Variable entries : gmap string LayoutValue → list (string * LayoutValue).
Hypothesis entries_perm : ∀ m, entries m ≡ₚ map_to_list m.

Lemma pinDomains_fields def rec : let d := pinDomains def rec in
  params d = params def ∧ constraints d = constraints def ∧ map d = map def ∧
  ∀ p, p ∈ params def → domains d !! name p = Some (mkDomain [default (IntValue 0) (rec !! name p)]).
Proof.
  unfold pinDomains. assert (∀ ps d0, let d := foldl (λ d p, with_domain d (name p)
      (mkDomain [default (IntValue 0) (rec !! name p)])) d0 ps in
    params d = params d0 ∧ constraints d = constraints d0 ∧ map d = map d0 ∧
    (∀ n, n ∉ name <$> ps → domains d !! n = domains d0 !! n) ∧
    ∀ p, p ∈ ps → domains d !! name p = Some (mkDomain [default (IntValue 0) (rec !! name p)])) as Hgen.
  { induction ps as [|p ps IH]; intros d0; cbn [foldl]; [split_and!; [done..|by intros ? ?%elem_of_nil]|].
    destruct (IH (with_domain d0 (name p) (mkDomain [default (IntValue 0) (rec !! name p)]))) as (H1 & H2 & H3 & H4 & H5).
    split_and!; [done..| |].
    - intros n Hn. rewrite fmap_cons in Hn. rewrite H4 by set_solver. cbn. apply lookup_insert_ne. set_solver.
    - intros q [->|Hq]%elem_of_cons; [|auto].
      destruct (decide (name p ∈ name <$> ps)) as [(q & Heq & Hq)%list_elem_of_fmap|Hn].
      + specialize (H5 q Hq). rewrite <- Heq in H5. exact H5.
      + rewrite H4 by done. cbn. by rewrite lookup_insert_eq. }
  destruct (Hgen (params def) def) as (? & ? & ? & _ & ?). done.
Qed.

Lemma findParam_names def n : findParam def n = None ↔ n ∉ name <$> params def.
Proof.
  unfold findParam. split.
  - intros Hf (p & -> & Hp)%list_elem_of_fmap. apply list_elem_of_In in Hp.
    pose proof (List.find_none _ _ Hf p Hp) as Hn. cbn in Hn. by rewrite bool_decide_true in Hn.
  - intros Hn. destruct (List.find _ _) as [p|] eqn:Hf; [|done]. exfalso.
    apply List.find_some in Hf as [Hp%list_elem_of_In <-%bool_decide_eq_true]. apply Hn. by apply list_elem_of_fmap_2.
Qed.

Lemma checkRecordedParam_ok def rec p : checkRecordedParam def rec p = Ok () ↔
  ∃ x, x ∈ default [] (values <$> domains def !! name p) ∧ rec !! name p = Some x.
Proof.
  unfold checkRecordedParam. destruct (rec !! name p) as [x|]; [|naive_solver].
  destruct (domains def !! name p) as [domain|]; cbn [fmap option_fmap option_map default].
  - rewrite fail_then_ok, negb_false_iff, contains_true. unfold default, id. naive_solver.
  - split; [done|]. unfold default, id. by intros (? & ?%elem_of_nil & _).
Qed.

(** The recorded values are those of the parameters, each in its domain. *)
Lemma recorded_checks def rec : NoDup (name <$> params def) →
  (for_each (λ '(n, _), fail! (Undeclared n) when bool_decide (findParam def n = None); Ok ()) (entries rec) = Ok () ∧
   for_each (checkRecordedParam def rec) (params def) = Ok ()) ↔ rec ∈ allAssignments def.
Proof.
  intros Hnd. rewrite elem_of_allAssignments, !for_each_ok by done. setoid_rewrite checkRecordedParam_ok.
  split.
  - intros [H1 H2]. split.
    + apply set_eq. intros n. unfold paramNames. rewrite elem_of_list_to_set, elem_of_dom. split.
      * intros [x Hx]. apply elem_of_map_to_list in Hx. rewrite <- entries_perm in Hx. specialize (H1 _ Hx).
        cbn in H1. apply fail_then_ok in H1 as [Hf%bool_decide_eq_false _]. rewrite findParam_names in Hf.
        by apply dec_stable.
      * intros (p & -> & Hp)%list_elem_of_fmap. destruct (H2 p Hp) as (x & _ & ->). done.
    + intros nd (p & -> & Hp)%list_elem_of_fmap. by apply H2.
  - intros [Hd Hi]. split.
    + intros [n x] Hx. rewrite entries_perm in Hx. apply elem_of_map_to_list in Hx. apply fail_then_ok.
      split; [|done]. apply bool_decide_eq_false. rewrite findParam_names. intros Hn. apply Hn.
      assert (n ∈ dom rec) as Hin by (by apply elem_of_dom). rewrite Hd in Hin. unfold paramNames in Hin.
      by apply elem_of_list_to_set in Hin.
    + intros p Hp. apply (Hi (name p, _)). apply list_elem_of_fmap. by exists p.
Qed.

(** The pinned declaration has one assignment, the recorded one. *)
Lemma index_vectors_ones (ds : list (string * list LayoutValue)) : Forall (λ nd, length nd.2 = 1%nat) ds →
  index_vectors (sizesOf ds) = [zeros (sizesOf ds)].
Proof.
  induction 1 as [|[n vs] ds Hl _ IH]; [done|]. unfold sizesOf in *. cbn in Hl |- *. rewrite Hl. cbn.
  by rewrite IH.
Qed.

Lemma pinned_domains def rec : declaredDomains (pinDomains def rec) =
  (λ p, (name p, [default (IntValue 0) (rec !! name p)])) <$> params def.
Proof.
  destruct (pinDomains_fields def rec) as (Hp & _ & _ & Hd). unfold declaredDomains. rewrite Hp.
  apply list_fmap_ext. intros i p Hi. rewrite Hd by (by eapply list_elem_of_lookup_2). done.
Qed.

Lemma pinned_assignments def rec : NoDup (name <$> params def) → dom rec = paramNames def →
  allAssignments (pinDomains def rec) = [rec].
Proof.
  intros Hnd Hdom. destruct (pinDomains_fields def rec) as (Hp & _).
  assert (rec ∈ allAssignments (pinDomains def rec)) as Hin.
  { apply elem_of_allAssignments; [by rewrite Hp|]. unfold paramNames in *. rewrite Hp. split; [done|].
    rewrite pinned_domains. intros nd (p & -> & Hin)%list_elem_of_fmap. cbn.
    assert (is_Some (rec !! name p)) as [x Hx].
    { apply elem_of_dom. rewrite Hdom. apply elem_of_list_to_set. by apply list_elem_of_fmap_2. }
    exists x. rewrite Hx. split; [by left|done]. }
  unfold allAssignments in *. cbv zeta in *. rewrite index_vectors_ones in *.
  - apply list_elem_of_singleton in Hin. cbn [fmap list_fmap]. by f_equal.
  - rewrite pinned_domains. apply Forall_fmap, Forall_true. done.
  - rewrite pinned_domains. apply Forall_fmap, Forall_true. done.
Qed.

Lemma domainsLoop_singletons def (v : LayoutParam → LayoutValue) ps :
  (∀ p, p ∈ ps → domains def !! name p = Some (mkDomain [v p])) →
  domainsLoop def ps 1 = Ok ((λ p, (name p, [v p])) <$> ps, 1).
Proof.
  induction ps as [|p ps IH]; intros Hd; [done|]. cbn [domainsLoop]. rewrite (Hd p) by left.
  cbn [values length]. rewrite (bool_decide_false (Z.of_nat 1 = 0)) by done. cbn [fail_if mbind result_bind].
  rewrite bool_decide_false by (by vm_compute). change (u64 (1 * Z.of_nat 1)) with 1.
  rewrite IH; [done|]. intros q Hq. apply Hd. by right.
Qed.

Lemma odometer_single sizes : index_vectors sizes = [zeros sizes] → Forall (λ n, n ≠ 0%nat) sizes →
  odometer sizes (length (zeros sizes)) (zeros sizes) = (zeros sizes, None).
Proof.
  intros Hs Hnz%index_vectors_enum. rewrite Hs in Hnz.
  assert (length (zeros sizes) = length sizes) as Hl by apply length_replicate.
  pose proof (odometer_next sizes (zeros sizes) Hl) as Hn. inversion Hnz as [? Hlast|? ? ? ? Hrest]; subst.
  - by rewrite Hlast in Hn.
  - inversion Hrest.
Qed.

(** What the solver does with the pinned declaration. *)
Lemma solve_pinned def rec limits : NoDup (name <$> params def) → dom rec = paramNames def →
  forallb quantifierFree (constraints def) = true → 1 <= maxAssignments limits →
  ∃ r, (r = Ok true ↔ legal machine context def rec = true) ∧
    solveLayout machine context (pinDomains def rec) limits =
    match r with
    | Err e => Err (EvaluationFailed e)
    | Ok false => Ok (mkSolved [] false false)
    | Ok true => match makeSolution def rec with
                 | Err e => Err (MapFailed e)
                 | Ok s => Ok (mkSolved [s] false false)
                 end
    end.
Proof.
  intros Hnd Hdom Hfree Hm. set (d := pinDomains def rec).
  destruct (pinDomains_fields def rec) as (Hps & Hcs & Hmap & Hds). fold d in Hps, Hcs, Hmap, Hds.
  destruct (checkConstraints_free (envOf machine context d) (envOf machine context def) rec (constraints def)
    (mkBudget (maxQuantifierIterations limits) 0 false) eq_refl eq_refl Hfree) as (r & Hr & Hlegal).
  exists r. split; [exact Hlegal|]. unfold solveLayout. rewrite Hps.
  rewrite (domainsLoop_singletons d (λ p, default (IntValue 0) (rec !! name p))) by done.
  cbn [mbind result_bind]. pose proof (pinned_domains def rec) as Hpd. fold d in Hpd. rewrite <- Hpd.
  pose proof (pinned_assignments def rec Hnd Hdom) as Ha. fold d in Ha. unfold allAssignments in Ha. cbv zeta in Ha.
  set (ds := declaredDomains d) in *.
  assert (Forall (λ nd : string * list LayoutValue, length nd.2 = 1%nat) ds) as Hones.
  { rewrite Hpd. apply Forall_fmap, Forall_true. done. }
  assert (Forall (λ n, n ≠ 0%nat) (sizesOf ds)) as Hnz.
  { unfold sizesOf. apply Forall_fmap. eapply Forall_impl; [exact Hones|]. intros [n vs]. cbn. lia. }
  pose proof (index_vectors_ones ds Hones) as Hiv. rewrite Hiv in Ha. injection Ha as Ha.
  assert (solveFuel ds = 1%nat) as ->.
  { change (solveFuel ds) with (foldr Nat.mul 1%nat (sizesOf ds)). by rewrite <- index_vectors_length, Hiv. }
  assert (replicate (length ds) 0%nat = zeros (sizesOf ds)) as -> by (unfold zeros, sizesOf; by rewrite length_fmap).
  cbn [solveLoop]. fold (sizesOf ds). rewrite bool_decide_false by lia. rewrite Ha.
  rewrite (odometer_single _ Hiv Hnz). change (u64 (0 + 1)) with 1.
  change (constraints d) with (constraints d). rewrite Hcs, Hr.
  destruct r as [[]|err]; [|done..]. unfold makeSolution. rewrite Hmap.
  destruct (map def) as [spec|]; [destruct (buildAffineMap spec _) as [m|]|]; cbn [mbind result_bind]; try done.
  all: by case_bool_decide.
Qed.

(** The map a recorded assignment builds, and what may have been recorded for it. *)
Definition recordedMapAgrees (def : LayoutDef) (rec : gmap string LayoutValue) (recordedMap : option AffineMap) : Prop :=
  match map def with
  | None => recordedMap = None
  | Some spec => ∃ m, buildAffineMap spec (integers rec) = Ok m ∧ (recordedMap = None ∨ recordedMap = Some m)
  end.

(** For a declaration with distinct parameters whose constraints hold no
    quantifier, the check of a recorded assignment accepts exactly the legal
    assignments of the declaration, recorded with no map or with the map their
    values build (with none when the declaration has none). *)
Theorem verifySolvedLayout_exact def rec recordedMap limits :
  NoDup (name <$> params def) → forallb quantifierFree (constraints def) = true → 1 <= maxAssignments limits →
  verifySolvedLayout machine context entries def rec recordedMap limits = Ok () ↔
  rec ∈ allAssignments def ∧ legal machine context def rec = true ∧ recordedMapAgrees def rec recordedMap.
Proof.
  intros Hnd Hfree Hm. pose proof (recorded_checks def rec Hnd) as Hrec. unfold verifySolvedLayout.
  destruct (for_each _ (entries rec)) as [[]|e1] eqn:H1; cbn [mbind result_bind]; [|naive_solver].
  destruct (for_each (checkRecordedParam def rec) (params def)) as [[]|e2] eqn:H2; cbn [mbind result_bind]; [|naive_solver].
  assert (rec ∈ allAssignments def) as Hin by (by apply Hrec).
  pose proof Hin as [Hdom _]%elem_of_allAssignments; [|done].
  destruct (solve_pinned def rec limits Hnd Hdom Hfree Hm) as (r & Hlegal & ->).
  assert (recordedMapAgrees def rec recordedMap → ∃ s, makeSolution def rec = Ok s) as Hsol.
  { unfold recordedMapAgrees, makeSolution. destruct (map def) as [spec|]; [|by eexists].
    intros (m & -> & _). by eexists. }
  destruct r as [[]|err]; [|naive_solver..].
  assert (legal machine context def rec = true) as Hl by (by apply Hlegal).
  destruct (makeSolution def rec) as [s|] eqn:Hs; [|split; [done|intros (_ & _ & [? ?]%Hsol); done]].
  cbn [undecided solutions length fail_if mbind result_bind]. rewrite (bool_decide_false (1%nat = 0%nat)) by done.
  cbn [fail_if mbind result_bind]. unfold recordedMapAgrees, makeSolution in *. destruct (map def) as [spec|].
  - destruct (buildAffineMap spec (integers rec)) as [m|]; [|done]. rewrite fail_then_ok, andb_false_iff, !negb_false_iff, !bool_decide_eq_true.
    naive_solver.
  - rewrite fail_then_ok, bool_decide_eq_false. destruct recordedMap; naive_solver.
Qed.
End verify.

(** ** Concrete declarations *)

(** Affine expressions as they are built, without MLIR's simplifications. *)
Inductive PlainAffine :=
| PlainConstant (c : Z)
| PlainDim (d : nat)
| PlainBinary (k : AffineExprKind) (lhs rhs : PlainAffine).
#[export] Instance AffineExprKind_eq_dec : EqDecision AffineExprKind.
Proof. solve_decision. Defined.
#[export] Instance PlainAffine_eq_dec : EqDecision PlainAffine.
Proof. solve_decision. Defined.
Definition plainAffine : AffineExprs := {|
  AffineExpr := PlainAffine;
  AffineMap := nat * list PlainAffine;
  getAffineConstantExpr := PlainConstant;
  getAffineDimExpr := PlainDim;
  getAffineBinaryOpExpr := PlainBinary;
  isConstant := λ e, match e with PlainConstant _ => true | _ => false end;
  affineMapGet := pair;
|}.

Definition eInt (i : Z) : Expr := mkExpr IntLit i "" [].
Definition eId (t : string) : Expr := makeExpr Ident t [].
Definition blocked : LayoutDef :=
  mkLayout "toy.blocked_2d" [mkParam "VW" false] {["VW" := mkDomain (IntValue <$> [4; 8; 16])]}
    [makeExpr Binary "<=" [eId "VW"; eInt 8]]
    (Some (mkSpec ["m"; "n"] [eId "m"; makeExpr Call "floordiv" [eId "n"; eId "VW"];
                              makeExpr Call "mod" [eId "n"; eId "VW"]])) "blocked".
Definition toyContext : LayoutContext := mkContext 2 "f32".

Lemma solveLayout_exact_witness :
  ∃ r, @solveLayout plainAffine sample_machine toyContext blocked defaultLimits = Ok r ∧
    sol_values <$> solutions r = [{["VW" := IntValue 4]}; {["VW" := IntValue 8]}] ∧
    if undecided r then solutions r = [] ∧ truncated r = true
    else ∃ k,
      sol_values <$> solutions r = List.filter (legal sample_machine toyContext blocked) (take k (allAssignments blocked)) ∧
      Forall (λ s, makeSolution blocked (sol_values s) = Ok s) (solutions r) ∧
      (truncated r = false → k = length (allAssignments blocked)) ∧
      (truncated r = true → (k < length (allAssignments blocked))%nat ∧
        (maxAssignments defaultLimits <= Z.of_nat k ∨ maxSolutions defaultLimits <= Z.of_nat (length (solutions r)))).
Proof.
  assert (∃ r, @solveLayout plainAffine sample_machine toyContext blocked defaultLimits = Ok r ∧
    sol_values <$> solutions r = [{["VW" := IntValue 4]}; {["VW" := IntValue 8]}]) as (r & Hr & Hv).
  { eexists. split; [vm_compute; reflexivity|reflexivity]. }
  exists r. split; [exact Hr|]. split; [exact Hv|].
  apply (solveLayout_exact _ _ _ _ _); [by vm_compute..|exact Hr].
Defined.

Lemma verifySolvedLayout_exact_witness :
  @verifySolvedLayout plainAffine sample_machine toyContext map_to_list blocked {["VW" := IntValue 8]} None defaultLimits = Ok () ↔
  {["VW" := IntValue 8]} ∈ allAssignments blocked ∧
    legal sample_machine toyContext blocked {["VW" := IntValue 8]} = true ∧
    @recordedMapAgrees plainAffine blocked {["VW" := IntValue 8]} None.
Proof.
  apply (verifySolvedLayout_exact sample_machine toyContext map_to_list (λ m, Permutation_refl _));
    [by apply NoDup_singleton|reflexivity|done].
Defined.

(** Pinning the domains changes what [domain(VW)] ranges over: the largest value is
    required, the solver finds it, and the check accepts the other one too. *)
Definition largest : LayoutDef :=
  mkLayout "toy.largest" [mkParam "VW" false] {["VW" := mkDomain (IntValue <$> [4; 8])]}
    [makeExpr Quantifier "forall" [eId "v"; makeExpr Call "domain" [eId "VW"]; makeExpr Binary "<=" [eId "v"; eId "VW"]]]
    None "".
Lemma pinning_changes_domain_quantifiers :
  (∃ r, @solveLayout plainAffine sample_machine toyContext largest defaultLimits = Ok r ∧
     sol_values <$> solutions r = [{["VW" := IntValue 8]}] ∧ truncated r = false) ∧
  @verifySolvedLayout plainAffine sample_machine toyContext map_to_list largest {["VW" := IntValue 4]} None defaultLimits = Ok ().
Proof. split; [eexists; split; [vm_compute; reflexivity|done]|vm_compute; reflexivity]. Qed.

(** ** A parsed registry is well formed *)
Definition value_ok (v : LayoutValue) : bool :=
  match v with IntValue i => bool_decide (0 <= i <= i64_max) | StrValue s => noQuote s end.

Record wfMap (allowed : gset string) (m : AffineMapSpec) : Prop := {
  wm_dims : Forall (λ d, isName d = true) (dims m);
  wm_results : results m ≠ [] ∧ Forall (λ e, wf e = true ∧ complaint (allowed ∪ list_to_set (dims m)) e = None) (results m);
}.

Record wfLayout (def : LayoutDef) : Prop := {
  wl_id : isName (id def) = true;
  wl_params : NoDup (name <$> params def) ∧ Forall (λ p, isName (name p) = true) (params def);
  wl_domains : ∀ n domain, domains def !! n = Some domain →
    n ∈ paramNames def ∧ values domain ≠ [] ∧ Forall (λ v, value_ok v = true) (values domain);
  wl_constraints : Forall (λ e, wf e = true ∧ complaint (paramNames def ∪ {["rank"; "element_type"]}) e = None) (constraints def);
  wl_map : ∀ m, map def = Some m → wfMap (paramNames def) m;
  wl_kind : implementsKind def = "" ∨ isName (implementsKind def) = true;
}.

Lemma good_seq {A B} p d1 d2 d (Q : A → Prop) (R : B → Prop) (m : parser A) (f : A → parser B) :
  goodAt p d1 Q m → (d <= d1 + d2)%nat →
  (∀ a p', valid p' → (length (tokens p') + d1 <= length (tokens p))%nat → Q a → goodAt p' d2 R (f a)) →
  goodAt p d R (m ≫= f).
Proof. intros Hm Hd Hf. eapply good_weaken; [by eapply good_bind|lia|done]. Qed.

Lemma good_get {A} p d (Q : A → Prop) (f : LlkMapParser → parser A) : goodAt p d Q (f p) → goodAt p d Q (get f).
Proof. done. Qed.

Lemma good_step_seq {B} p d (R : B → Prop) (f : () → parser B) : valid p → tk_kind (current p) ≠ TEnd →
  (∀ p', valid p' → (length (tokens p') + 1 <= length (tokens p))%nat → goodAt p' (d - 1) R (f ())) →
  goodAt p d R (step ≫= f).
Proof.
  intros Hv Hl Hf. eapply (good_seq _ 1 (d - 1)); [by apply good_step|lia|]. intros [] p' Hv' Hl' _. auto.
Qed.

Section good_layout.
Variable source : string.

Lemma good_parseExpression p : valid p → goodAt p 1 (λ e, wf e = true) (parseExpression source).
Proof. intros Hv. apply good_get, good_expressionFuel; [done|lia]. Qed.

Lemma good_expect_seq {B} p d s (R : B → Prop) (f : () → parser B) : valid p →
  (∀ p', valid p' → (length (tokens p') + 1 <= length (tokens p))%nat → goodAt p' (d - 1) R (f ())) →
  goodAt p d R (expectPunct source s ≫= f).
Proof.
  intros Hv Hf. eapply (good_seq _ 1 (d - 1)); [by apply good_expect|lia|]. intros [] p' Hv' Hl' _. auto.
Qed.

Lemma good_name_seq {B} p d w (R : B → Prop) (f : string → parser B) : valid p →
  (∀ n p', valid p' → (length (tokens p') + 1 <= length (tokens p))%nat → isName n = true → goodAt p' (d - 1) R (f n)) →
  goodAt p d R (expectIdentifier source w ≫= f).
Proof. intros Hv Hf. eapply (good_seq _ 1 (d - 1)); [by apply good_identifier|lia|done]. Qed.

Lemma good_expr_seq {B} p d (R : B → Prop) (f : Expr → parser B) : valid p →
  (∀ e p', valid p' → (length (tokens p') + 1 <= length (tokens p))%nat → wf e = true → goodAt p' (d - 1) R (f e)) →
  goodAt p d R (parseExpression source ≫= f).
Proof. intros Hv Hf. eapply (good_seq _ 1 (d - 1)); [by apply good_parseExpression|lia|done]. Qed.

Lemma good_validate_seq {B} p d e allowed (R : B → Prop) (f : () → parser B) : valid p →
  (complaint allowed e = None → goodAt p d R (f ())) → goodAt p d R (validateExpr source e allowed ≫= f).
Proof.
  intros Hv Hf. unfold validateExpr. destruct (complaint allowed e) as [m|] eqn:Hc; [|by apply Hf].
  pose proof (@good_fail B source p d R m) as Hfail. exact Hfail.
Qed.

Lemma valid_nonempty p : valid p → (1 <= length (tokens p))%nat.
Proof. intros [(ts & t & -> & _) _]. rewrite length_app. cbn. lia. Qed.

Lemma keyword_live p ws : keyword p ws = true → tk_kind (current p) ≠ TEnd.
Proof. unfold keyword. intros [Hk%bool_decide_eq_true _]%andb_true_iff. congruence. Qed.

(** *** Domains *)
Definition values_ok (vs : list LayoutValue) : Prop := vs ≠ [] ∧ Forall (λ v, value_ok v = true) vs.

Lemma good_expectInt p m : valid p → goodAt p 1 (λ i, 0 <= i <= i64_max) (expectInt source m).
Proof.
  intros Hv. unfold expectInt, goodAt. case_bool_decide as Hk; [|exact (good_fail source p 1 (λ i, 0 <= i <= i64_max) m)].
  destruct (advance_valid p Hv) as (? & ? & ?); [congruence|]. pose proof (current_ok p Hv) as Hok.
  unfold token_ok in Hok. rewrite Hk in Hok. apply bool_decide_eq_true in Hok. split_and!; first [done|lia].
Qed.

Lemma good_literalMember p : valid p → goodAt p 1 (λ v, value_ok v = true) (literalMember source).
Proof.
  intros Hv. unfold literalMember, goodAt. pose proof (current_ok p Hv) as Hok. unfold token_ok in Hok.
  destruct (tk_kind (current p)) eqn:Hk;
    try exact (good_fail source p 1 (λ v, value_ok v = true) "expected a literal domain member");
    (destruct (advance_valid p Hv) as (? & ? & ?); [congruence|]; split_and!; [done|lia|done..]).
Qed.

Lemma good_membersLoop fuel p out : valid p → (length (tokens p) <= fuel)%nat → Forall (λ v, value_ok v = true) out →
  goodAt p 1 values_ok (membersLoop source fuel out).
Proof.
  revert p out. induction fuel as [|fuel IH]; intros p out Hv Hf Ho; [pose proof (valid_nonempty p Hv); lia|].
  cbn [membersLoop]. eapply (good_seq _ 1 0); [by apply good_literalMember|lia|]. intros v p1 Hv1 Hl1 Hvok.
  assert (Forall (λ v, value_ok v = true) (out ++ [v])) as Ho' by (apply Forall_app; by rewrite Forall_singleton).
  apply good_get. destruct (isPunct p1 ",") eqn:Hc.
  - apply good_step_seq; [done|by eapply isPunct_live|]. intros p2 Hv2 Hl2.
    eapply good_weaken; [apply IH; [done|lia|done]|lia|done].
  - apply good_expect_seq; [done|]. intros p2 Hv2 Hl2. apply good_ret; [done|]. split; [by destruct out|done].
Qed.

Lemma good_parseDomainValues p : valid p → goodAt p 1 values_ok (parseDomainValues source).
Proof.
  intros Hv. apply good_get. destruct (isPunct p "[") eqn:Hb.
  - apply good_step_seq; [done|by eapply isPunct_live|]. intros p1 Hv1 _.
    eapply (good_seq _ 1 0); [by apply good_expectInt|lia|]. intros lo p2 Hv2 _ Hlo.
    apply good_expect_seq; [done|]. intros p3 Hv3 _.
    eapply (good_seq _ 1 0); [by apply good_expectInt|lia|]. intros hi p4 Hv4 _ Hhi.
    apply good_expect_seq; [done|]. intros p5 Hv5 _.
    case_bool_decide; [exact (good_fail source p5 0 values_ok "empty integer range")|].
    apply good_ret; [done|]. split.
    + rewrite seqZ_cons by lia. done.
    + apply Forall_fmap, Forall_forall. intros i Hi%elem_of_seqZ. cbn. apply bool_decide_eq_true. cbn beta in *. lia.
  - destruct (isPunct p "{") eqn:Hc; [|exact (good_fail source p 1 values_ok _)].
    apply good_step_seq; [done|by eapply isPunct_live|]. intros p1 Hv1 _. apply good_get.
    eapply good_weaken; [by apply good_membersLoop|lia|done].
Qed.

(** *** Parameters *)
Definition params_ok (ps : list LayoutParam) : Prop :=
  NoDup (name <$> ps) ∧ Forall (λ p, isName (name p) = true) ps.

Lemma good_paramsLoop fuel p ps : valid p → (length (tokens p) <= fuel)%nat → params_ok ps →
  goodAt p 1 params_ok (paramsLoop source fuel ps).
Proof.
  revert p ps. induction fuel as [|fuel IH]; intros p ps Hv Hf Hps; [pose proof (valid_nonempty p Hv); lia|].
  cbn [paramsLoop]. apply good_get.
  assert (goodAt p 0 (λ _, True) (if keyword p ["int"; "sym"] then step else mret ())) as Hs.
  { destruct (keyword p _) eqn:Hk; [|by apply good_ret].
    eapply good_weaken; [apply (good_step p Hv); by eapply keyword_live|lia|done]. }
  eapply (good_seq _ 0 1); [exact Hs|lia|]. intros [] p1 Hv1 Hl1 _. apply good_name_seq; [done|].
  intros n p2 Hv2 Hl2 Hn. destruct (existsb _ ps) eqn:Hdup; [exact (good_fail source p2 _ params_ok _)|].
  set (prm := mkParam n _). assert (params_ok (ps ++ [prm])) as Hps'.
  { destruct Hps as [H1 H2]. split; [|apply Forall_app; by rewrite Forall_singleton].
    rewrite fmap_app. apply NoDup_app. split_and!; [done| |apply NoDup_singleton].
    intros n' (q & -> & Hq)%list_elem_of_fmap Heq%list_elem_of_singleton. cbn in Heq.
    apply not_true_iff_false in Hdup. apply Hdup, existsb_exists. exists q.
    split; [by apply list_elem_of_In|]. by apply bool_decide_eq_true. }
  apply good_get. destruct (isPunct p2 ",") eqn:Hc.
  - apply good_step_seq; [done|by eapply isPunct_live|]. intros p3 Hv3 Hl3.
    eapply good_weaken; [apply IH; [done|lia|done]|lia|done].
  - by apply good_ret.
Qed.

Lemma good_parseParams p : valid p → goodAt p 0 params_ok (parseParams source).
Proof.
  intros Hv. apply good_get. destruct (isPunct p ")"); [apply good_ret; [done|split; [apply NoDup_nil_2|constructor]]|].
  eapply good_weaken; [apply good_paramsLoop; [done|lia|split; [apply NoDup_nil_2|constructor]]|lia|done].
Qed.

(** *** Statements *)
Definition keeps (def : LayoutDef) (def' : LayoutDef) : Prop := wfLayout def' ∧ id def' = id def.

Lemma good_parseImplements p def : valid p → tk_kind (current p) ≠ TEnd → wfLayout def →
  goodAt p 1 (keeps def) (parseImplements source def).
Proof.
  intros Hv Hlive Hw. unfold parseImplements. destruct (negb _); [exact (good_fail source p _ (keeps def) _)|].
  apply good_step_seq; [done..|]. intros p1 Hv1 _. apply good_name_seq; [done|]. intros k p2 Hv2 _ Hk.
  apply good_expect_seq; [done|]. intros p3 Hv3 _. apply good_ret; [done|]. split; [|done].
  destruct Hw. split; cbn; auto.
Qed.

Lemma good_parseDomain p def : valid p → tk_kind (current p) ≠ TEnd → wfLayout def →
  goodAt p 1 (keeps def) (parseDomain source def).
Proof.
  intros Hv Hlive Hw. unfold parseDomain. apply good_step_seq; [done..|]. intros p1 Hv1 _.
  apply good_name_seq; [done|]. intros n p2 Hv2 _ Hn.
  case_bool_decide as Hfind; [exact (good_fail source p2 _ (keeps def) _)|].
  case_bool_decide; [exact (good_fail source p2 _ (keeps def) _)|].
  apply good_get. destruct (keyword p2 ["in"]) eqn:Hin; cbn [negb]; [|exact (good_fail source p2 _ (keeps def) _)].
  apply good_step_seq; [done|by eapply keyword_live|]. intros p3 Hv3 _.
  eapply (good_seq _ 1 0); [by apply good_parseDomainValues|lia|]. intros vs p4 Hv4 _ [Hne Hvs].
  apply good_expect_seq; [done|]. intros p5 Hv5 _. apply good_ret; [done|]. split; [|done].
  destruct Hw. split; cbn; auto. intros n' domain [[<- <-]|[_ Hd]]%lookup_insert_Some; [|by apply wl_domains0].
  split_and!; [|done..]. unfold paramNames. apply elem_of_list_to_set. cbn.
  rewrite findParam_names in Hfind. by apply dec_stable.
Qed.

Lemma good_parseRequire p def : valid p → tk_kind (current p) ≠ TEnd → wfLayout def →
  goodAt p 1 (keeps def) (parseRequire source def).
Proof.
  intros Hv Hlive Hw. unfold parseRequire. apply good_step_seq; [done..|]. intros p1 Hv1 _.
  apply good_expr_seq; [done|]. intros e p2 Hv2 _ He. apply good_expect_seq; [done|]. intros p3 Hv3 _.
  apply good_validate_seq; [done|]. intros Hc. apply good_ret; [done|]. split; [|done].
  destruct Hw. split; cbn; auto. apply Forall_app. by rewrite Forall_singleton.
Qed.

Lemma good_dimsLoop fuel p ds : valid p → (length (tokens p) <= fuel)%nat → Forall (λ d, isName d = true) ds →
  goodAt p 1 (Forall (λ d, isName d = true)) (dimsLoop source fuel ds).
Proof.
  revert p ds. induction fuel as [|fuel IH]; intros p ds Hv Hf Hds; [pose proof (valid_nonempty p Hv); lia|].
  cbn [dimsLoop]. apply good_name_seq; [done|]. intros d p1 Hv1 Hl1 Hd.
  assert (Forall (λ d, isName d = true) (ds ++ [d])) as Hds' by (apply Forall_app; by rewrite Forall_singleton).
  apply good_get. destruct (isPunct p1 ",") eqn:Hc; [|by apply good_ret].
  apply good_step_seq; [done|by eapply isPunct_live|]. intros p2 Hv2 Hl2.
  eapply good_weaken; [apply IH; [done|lia|done]|lia|done].
Qed.

Definition exprs_ok (es : list Expr) : Prop := es ≠ [] ∧ Forall (λ e, wf e = true) es.
Lemma good_resultsLoop fuel p es : valid p → (length (tokens p) <= fuel)%nat → Forall (λ e, wf e = true) es →
  goodAt p 1 exprs_ok (resultsLoop source fuel es).
Proof.
  revert p es. induction fuel as [|fuel IH]; intros p es Hv Hf Hes; [pose proof (valid_nonempty p Hv); lia|].
  cbn [resultsLoop]. apply good_expr_seq; [done|]. intros e p1 Hv1 Hl1 He.
  assert (Forall (λ e, wf e = true) (es ++ [e])) as Hes' by (apply Forall_app; by rewrite Forall_singleton).
  apply good_get. destruct (isPunct p1 ",") eqn:Hc; [|apply good_ret; [done|split; [by destruct es|done]]].
  apply good_step_seq; [done|by eapply isPunct_live|]. intros p2 Hv2 Hl2.
  eapply good_weaken; [apply IH; [done|lia|done]|lia|done].
Qed.

Lemma good_validateAll p allowed es : valid p →
  goodAt p 0 (λ _, Forall (λ e, complaint allowed e = None) es) (validateAll source allowed es).
Proof.
  intros Hv. induction es as [|e es IH]; [by apply good_ret|]. cbn [validateAll]. apply good_validate_seq; [done|].
  intros He. eapply good_weaken; [exact IH|done|]. by constructor.
Qed.

Lemma good_parseMapClause p def : valid p → tk_kind (current p) ≠ TEnd → wfLayout def →
  goodAt p 1 (keeps def) (parseMapClause source def).
Proof.
  intros Hv Hlive Hw. unfold parseMapClause. case_bool_decide; [exact (good_fail source p _ (keeps def) _)|].
  apply good_step_seq; [done..|]. intros p1 Hv1 _. apply good_expect_seq; [done|]. intros p2 Hv2 _.
  eapply (good_seq _ 0 0 _ (Forall (λ d, isName d = true))).
  { apply good_get. destruct (isPunct p2 ")"); [apply good_ret; [done|constructor]|].
    eapply good_weaken; [apply good_dimsLoop; [done|lia|constructor]|lia|done]. }
  { lia. }
  intros ds p3 Hv3 _ Hds. apply good_expect_seq; [done|]. intros p4 Hv4 _. apply good_expect_seq; [done|]. intros p5 Hv5 _.
  apply good_expect_seq; [done|]. intros p6 Hv6 _.
  eapply (good_seq _ 1 0 _ exprs_ok); [apply good_get, good_resultsLoop; [done|lia|constructor]|lia|].
  intros rs p7 Hv7 _ [Hne Hrs]. apply good_expect_seq; [done|]. intros p8 Hv8 _. apply good_expect_seq; [done|]. intros p9 Hv9 _.
  eapply (good_seq _ 0 0); [by apply good_validateAll|lia|]. intros [] p10 Hv10 _ Hc.
  apply good_ret; [done|]. split; [|done]. destruct Hw. split; cbn; auto. intros m [= <-]. split; cbn; [done|].
  split; [done|]. apply Forall_and. by split.
Qed.

Lemma good_parseStatement p def : valid p → wfLayout def → goodAt p 1 (keeps def) (parseStatement source def).
Proof.
  intros Hv Hw. apply good_get. destruct (isIdentifier p) eqn:Hid; cbn [negb]; [|exact (good_fail source p _ (keeps def) _)].
  assert (tk_kind (current p) ≠ TEnd) by (by eapply isIdentifier_live).
  case_decide; [by apply good_parseDomain|]. case_decide; [by apply good_parseRequire|].
  case_decide; [by apply good_parseMapClause|]. case_decide; [by apply good_parseImplements|].
  exact (good_fail source p _ (keeps def) _).
Qed.

Lemma good_statementsLoop fuel p def : valid p → (length (tokens p) <= fuel)%nat → wfLayout def →
  goodAt p 0 (λ def', keeps def def') (statementsLoop source fuel def).
Proof.
  revert p def. induction fuel as [|fuel IH]; intros p def Hv Hf Hw; [pose proof (valid_nonempty p Hv); lia|].
  cbn [statementsLoop]. apply good_get. destruct (isPunct p "}"); [by apply good_ret|].
  destruct (atEnd p) eqn:Hend; [exact (good_fail source p _ (keeps def) _)|].
  eapply (good_seq _ 1 0); [by apply good_parseStatement|lia|]. intros d p1 Hv1 Hl1 [Hd Hid].
  eapply good_weaken; [apply IH; [done|lia|done]|lia|]. intros d' [? ?]. split; [done|congruence].
Qed.

Lemma good_step_any p : valid p → goodAt p 0 (λ _, True) step.
Proof.
  intros Hv. destruct (decide (tk_kind (current p) = TEnd)) as [He|He].
  2: { eapply good_weaken; [by apply good_step|lia|done]. }
  assert (valid (advance p) ∧ (length (tokens (advance p)) <= length (tokens p))%nat ∧ error_ (advance p) = error_ p)
    as (? & ? & ?).
  { unfold advance. destruct (tokens p) as [|x [|y xs]] eqn:Hp; [by rewrite Hp..|].
    destruct Hv as [(ts & t & Ht & Hk) Hok]. cbn. rewrite Hp in Ht, Hok. split_and!; [|lia|done].
    split; [|by apply Forall_cons in Hok as [_ ?]]. destruct ts as [|z ts]; [done|].
    injection Ht as -> Ht. cbn. exists ts, t. by rewrite Ht. }
  cbn. split_and!; [done|lia|done..].
Qed.

Lemma good_parseLayout p : valid p → tk_kind (current p) ≠ TEnd → goodAt p 1 wfLayout (parseLayout source).
Proof.
  intros Hv Hlive. unfold parseLayout. apply good_step_seq; [done..|]. intros p1 Hv1 _.
  apply good_name_seq; [done|]. intros i p2 Hv2 _ Hi. apply good_expect_seq; [done|]. intros p3 Hv3 _.
  eapply (good_seq _ 0 0); [by apply good_parseParams|lia|]. intros ps p4 Hv4 _ [Hnd Hps].
  apply good_expect_seq; [done|]. intros p5 Hv5 _. apply good_expect_seq; [done|]. intros p6 Hv6 _.
  assert (wfLayout (with_params (emptyLayout i) ps)) as Hw.
  { split; cbn; auto; done. }
  eapply (good_seq _ 0 0); [apply good_get, good_statementsLoop; [done|lia|done]|lia|].
  intros def p7 Hv7 _ [Hdef _]. eapply (good_seq _ 0 0); [by apply good_step_any|lia|]. intros [] p8 Hv8 _ _.
  by apply good_ret.
Qed.

Definition wfRegistry (registry : LayoutRegistry) : Prop := NoDup (id <$> registry) ∧ Forall wfLayout registry.

Lemma find_ids registry i : find registry i = None ↔ i ∉ id <$> registry.
Proof.
  unfold find. split.
  - intros Hf (d & -> & Hd)%list_elem_of_fmap. apply list_elem_of_In in Hd.
    pose proof (List.find_none _ _ Hf d Hd) as Hn. cbn in Hn. by rewrite bool_decide_true in Hn.
  - intros Hn. destruct (List.find _ _) as [d|] eqn:Hf; [|done]. exfalso.
    apply List.find_some in Hf as [Hd%list_elem_of_In <-%bool_decide_eq_true]. apply Hn. by apply list_elem_of_fmap_2.
Qed.

Lemma add_wf registry def registry' : wfRegistry registry → wfLayout def → add registry def = Ok registry' →
  wfRegistry registry'.
Proof.
  intros [Hnd Hw] Hd. unfold add. destruct (find registry (id def)) eqn:Hf; [done|]. intros [= <-].
  apply find_ids in Hf. split; [|apply Forall_app; by rewrite Forall_singleton]. rewrite fmap_app. apply NoDup_app.
  split_and!; [done|by intros ? ? ->%list_elem_of_singleton|apply NoDup_singleton].
Qed.

Lemma good_fail_plain {A} p d (Q : A → Prop) m : goodAt p d Q (fail source m).
Proof.
  unfold goodAt, fail. cbn. unfold str_empty. case_bool_decide; [|done].
  intros Hn. apply (f_equal String.length) in Hn. rewrite !str_app_length in Hn. cbn in Hn. lia.
Qed.

Lemma good_fileLoop fuel p registry : valid p → (length (tokens p) <= fuel)%nat → wfRegistry registry →
  goodAt p 0 wfRegistry (fileLoop source fuel registry).
Proof.
  revert p registry. induction fuel as [|fuel IH]; intros p registry Hv Hf Hr; [pose proof (valid_nonempty p Hv); lia|].
  cbn [fileLoop]. apply good_get. destruct (atEnd p); [by apply good_ret|].
  destruct (keyword p ["layout"]) eqn:Hk; cbn [negb]; [|exact (good_fail source p _ wfRegistry _)].
  eapply (good_seq _ 1 0); [apply good_parseLayout; [done|by eapply keyword_live]|lia|]. intros def p1 Hv1 Hl1 Hd.
  destruct (add registry def) as [registry'|m] eqn:Ha; [|apply good_fail_plain].
  eapply IH; [done|lia|]. by eapply add_wf.
Qed.
End good_layout.

Lemma parse_layouts_wf text sourceName :
  match parseLayoutText text sourceName with
  | Some (Ok registry) => wfRegistry registry
  | Some (Err (Reported message)) => message ≠ ""
  | Some (Err (Thrown _)) => True
  | None => False
  end.
Proof.
  unfold parseLayoutText, lexLlkMap. destruct (lex text) as [ts|[| |c|d]] eqn:Hl; try done.
  2-4: intros Hn; apply (f_equal String.length) in Hn; rewrite !str_app_length in Hn; cbn in Hn; lia.
  apply lex_loop_valid in Hl; [|done].
  pose proof (good_fileLoop sourceName (length ts) (mkParser ts "") [] Hl (Nat.le_refl _)) as H.
  specialize (H (conj (NoDup_nil_2) (Forall_nil_2 _))). unfold parseFile, get. cbn [tokens]. unfold goodAt in H.
  destruct (fileLoop _ _ _ _) as [[registry| |] p]; [by destruct H as (_ & _ & ? & _)|done|done].
Qed.

(** Loading a declaration file always ends, and what it loads is well formed:
    distinct ids and parameters, a domain only for a declared parameter and never
    empty, literals in range, constraints and map results over the names they may
    use; otherwise the first problem is reported. *)
Theorem parseLayoutText_wf text sourceName :
  match parseLayoutText text sourceName with
  | Some (Ok registry) => wfRegistry registry
  | Some (Err (Reported message)) => message ≠ ""
  | Some (Err (Thrown _)) => True
  | None => False
  end.
Proof. exact (parse_layouts_wf text sourceName). Qed.

(** ** Solving what was loaded *)
Lemma known_checkConstraints env bindings allowed es : covered allowed bindings →
  Forall (λ e, wf e = true ∧ complaint allowed e = None) es → known (checkConstraints env bindings es).
Proof.
  intros Hc. induction 1 as [|e es [Hw Hk] _ IH]; [done|]. cbn [checkConstraints].
  apply known_bind; [by eapply known_evalImpl|]. intros [i| |]; [|done..]. by case_bool_decide.
Qed.

Definition excluded (e : solve_error) : bool :=
  match e with EvaluationFailed e => isUnknown e | EmptyDomain _ => true | _ => false end.

Section loaded.
Context `{AffineExprs}.
Variables (machine : MachineModel) (context : LayoutContext).

Lemma round_errors def limits bindings a next b sols err :
  known (checkConstraints (envOf machine context def) bindings (constraints def)) →
  (∀ c s, next c s = Err err → excluded err = false) →
  round machine context def limits bindings a next b sols = Err err → excluded err = false.
Proof.
  intros Hk Hn. unfold round. specialize (Hk b). destruct (checkConstraints _ _ _ b) as [[[]|e] c]; cbn in Hk.
  - destruct (makeSolution def bindings); [|by intros [= <-]]. case_bool_decide; [done|apply Hn].
  - apply Hn.
  - by intros [= <-].
Qed.

Lemma solveLoop_errors fuel def limits ds v l a b sols err :
  enum (sizesOf ds) v l → length v = length (sizesOf ds) →
  (∀ w, w ∈ l → known (checkConstraints (envOf machine context def) (assignment ds w) (constraints def))) →
  solveLoop machine context fuel def limits ds v a b sols = Err err → excluded err = false.
Proof.
  intros Hl. revert fuel a b sols. induction Hl as [v Hv|v v' l Hv Hl IH]; intros [|fuel] a b sols Hlen Hk; try done;
    cbn [solveLoop]; fold (sizesOf ds); (case_bool_decide; [done|]);
    pose proof (odometer_next (sizesOf ds) v Hlen) as Hnext; rewrite Hv in Hnext.
  - rewrite Hnext. apply (round_errors _ _ _ _ (λ b s, Ok (s, u64 (a + 1), b))); [apply Hk; by left|done].
  - destruct Hnext as (Hlen' & q & Hq & _). rewrite Hq.
    apply (round_errors _ _ _ _ (solveLoop machine context fuel def limits ds v' (u64 (a + 1)))); [apply Hk; by left|].
    intros c s. apply IH; [done|]. intros w Hw. apply Hk. by right.
Qed.

(** The declared domains, when each parameter has a nonempty one. *)
Lemma domainsLoop_error def ps total err : domainsLoop def ps total = Err err →
  (∃ p, p ∈ ps ∧ domains def !! name p = None ∧ err = NoDomain (name p)) ∨
  (∃ p domain, p ∈ ps ∧ domains def !! name p = Some domain ∧ values domain = [] ∧ err = EmptyDomain (name p)).
Proof.
  revert total. induction ps as [|p ps IH]; intros total; cbn [domainsLoop]; [done|].
  destruct (domains def !! name p) as [domain|] eqn:Hd; [|intros [= <-]; left; exists p; split_and!; [by left|done|done]].
  rewrite fail_then_err. intros [[Hs%bool_decide_eq_true <-]|[_ Hr]].
  - right. exists p, domain. split_and!; [by left|done| |done]. by destruct (values domain).
  - destruct (domainsLoop def ps _) as [[ds t]|e] eqn:Hl; [done|]. injection Hr as ->.
    destruct (IH _ Hl) as [(q & ? & ? & ?)|(q & d & ? & ? & ? & ?)]; [left; exists q|right; exists q, d]; split_and!; try done; by right.
Qed.

(** Solving a declaration that was loaded from a file cannot fail because of
    the declaration's own words: no constraint meets an unknown identifier,
    function, query, operator or quantifier domain or a missing operand, no domain
    is empty; only a parameter without a domain, an arithmetic or machine error of
    a constraint, or a map that is not affine can be reported. *)
Theorem loaded_layout_errors text sourceName registry def limits err :
  parseLayoutText text sourceName = Some (Ok registry) → def ∈ registry →
  solveLayout machine context def limits = Err err →
  excluded err = false ∧ (∀ n, err = NoDomain n → n ∈ paramNames def ∧ domains def !! n = None).
Proof.
  intros Ht Hin. pose proof (parse_layouts_wf text sourceName) as Hw. rewrite Ht in Hw.
  destruct Hw as [_ Hw]. rewrite Forall_forall in Hw. specialize (Hw def Hin). destruct Hw.
  unfold solveLayout. destruct (domainsLoop def (params def) 1) as [[ds t]|e] eqn:Hd; cbn [mbind result_bind].
  - apply domainsLoop_declared in Hd as (-> & Hnz & _). set (ds := declaredDomains def) in *.
    assert (replicate (length ds) 0%nat = zeros (sizesOf ds)) as -> by (unfold zeros, sizesOf; by rewrite length_fmap).
    destruct (solveLoop _ _ _ _ _ _ _ _ _ _) as [[[sols a] b]|e] eqn:Hl; [done|]. intros [= <-].
    split.
    + eapply (solveLoop_errors _ _ _ _ _ (index_vectors (sizesOf ds))); [by apply index_vectors_enum| | |exact Hl].
      { unfold zeros. by rewrite length_replicate. }
      intros w Hw. eapply known_checkConstraints; [|done]. unfold covered.
      assert (assignment ds w ∈ allAssignments def) as Ha by (apply list_elem_of_fmap; by exists w).
      apply elem_of_allAssignments in Ha as [-> _]; [done|by destruct wl_params0].
    + intros n ->. clear -Hl. exfalso. revert Hl. generalize (zeros (sizesOf ds)) 0 (mkBudget (maxQuantifierIterations limits) 0 false) (@nil LayoutSolution).
      generalize (solveFuel ds) as fuel. induction fuel as [|fuel IH]; intros v a b sols; [done|]. cbn [solveLoop].
      case_bool_decide; [done|]. destruct (checkConstraints _ _ _ b) as [[[]|] c]; [| |done].
      * destruct (makeSolution def _); [|done]. case_bool_decide; [done|]. destruct (odometer _ _ _) as [? [|]]; [apply IH|done].
      * destruct (odometer _ _ _) as [? [|]]; [apply IH|done].
  - intros [= ->]. apply domainsLoop_error in Hd as [(p & Hp & Hn & ->)|(p & domain & Hp & Hdom & Hv & ->)].
    + split; [done|]. intros n [= <-]. split; [|done]. apply elem_of_list_to_set. by apply list_elem_of_fmap_2.
    + exfalso. by destruct (wl_domains0 _ _ Hdom) as (_ & ? & _).
Qed.
End loaded.

Definition sample_text : string :=
  "layout toy.pair(int A, sym S) { // two parameters
     param A in [1..4]; param S in {" +:+ quoted "x" +:+ "};
     require 8 / (A - 2) > 0 && element_type == S; map (m) -> (m / A); }".
Definition sample_registry : LayoutRegistry :=
  match parseLayoutText sample_text "f" with Some (Ok registry) => registry | _ => [] end.
Definition sample_layout : LayoutDef := default (emptyLayout "") (head sample_registry).

Lemma loaded_layout_errors_witness :
  parseLayoutText sample_text "f" = Some (Ok sample_registry) ∧ sample_layout ∈ sample_registry ∧
  @solveLayout plainAffine sample_machine toyContext sample_layout defaultLimits = Err (EvaluationFailed DivisionByZero) ∧
  excluded (EvaluationFailed DivisionByZero) = false ∧
  (∀ n, EvaluationFailed DivisionByZero = NoDomain n → n ∈ paramNames sample_layout ∧ domains sample_layout !! n = None).
Proof.
  assert (parseLayoutText sample_text "f" = Some (Ok sample_registry)) as H1 by (vm_compute; reflexivity).
  assert (sample_layout ∈ sample_registry) as H2 by (vm_compute; left).
  assert (@solveLayout plainAffine sample_machine toyContext sample_layout defaultLimits =
    Err (EvaluationFailed DivisionByZero)) as H3 by (vm_compute; reflexivity).
  split; [exact H1|]. split; [exact H2|]. split; [exact H3|].
  exact (@loaded_layout_errors plainAffine sample_machine toyContext _ _ _ _ _ _ H1 H2 H3).
Defined.

(** ** Printing and parsing *)

(** The lexemes of a printed declaration. *)
Definition paramLexemes (p : LayoutParam) : list Lexeme :=
  [nameLexeme (if symbolic p then "sym" else "int"); nameLexeme (name p)].
Definition valueLexeme (v : LayoutValue) : Lexeme :=
  match v with IntValue i => (TInt, to_string i, i) | StrValue s => (TString, s, 0) end.
Definition intLexeme (i : Z) : Lexeme := (TInt, to_string i, i).
Definition domainLexemes (domain : ParamDomain) : list Lexeme :=
  let vs := values domain in
  if isRun vs then [P "["; intLexeme (intOf (head vs)); P ".."; intLexeme (intOf (last vs)); P "]"]
  else (P "{" :: joinLexemes ((λ v, [valueLexeme v]) <$> vs) ++ [P "}"])%list.
Definition domainLineLexemes (def : LayoutDef) (p : LayoutParam) : list Lexeme :=
  match domains def !! name p with
  | Some domain => (nameLexeme "param" :: nameLexeme (name p) :: nameLexeme "in" :: domainLexemes domain ++ [P ";"])%list
  | None => []
  end.
Definition kindLexemes (k : string) : list Lexeme :=
  if str_empty k then [] else [nameLexeme "implements"; nameLexeme k; P ";"].
Definition requireLexemes (e : Expr) : list Lexeme := (nameLexeme "require" :: lexemesOf e ++ [P ";"])%list.
Definition mapLexemes (m : AffineMapSpec) : list Lexeme :=
  (nameLexeme "map" :: P "(" :: joinLexemes ((λ d, [nameLexeme d]) <$> dims m) ++ P ")" :: P "->" :: P "(" ::
   joinLexemes (lexemesOf <$> results m) ++ [P ")"; P ";"])%list.
Definition layoutLexemes (def : LayoutDef) : list Lexeme :=
  (nameLexeme "layout" :: nameLexeme (id def) :: P "(" :: joinLexemes (paramLexemes <$> params def) ++ P ")" :: P "{" ::
   List.concat (domainLineLexemes def <$> params def) ++ kindLexemes (implementsKind def) ++
   List.concat (requireLexemes <$> constraints def) ++
   match map def with Some m => mapLexemes m | None => [] end ++ [P "}"])%list.

(** [s] is read as [ls] whatever follows. *)
Definition prints (s : string) (ls : list Lexeme) : Prop := ∀ rest ls', Lexes rest ls' → Lexes (s +:+ rest) (ls ++ ls').

Lemma prints_app s ls t ls' : prints s ls → prints t ls' → prints (s +:+ t) (ls ++ ls').
Proof. intros H1 H2 rest l Hl. rewrite str_app_assoc, <- app_assoc. by apply H1, H2. Qed.
Lemma prints_nil : prints "" [].
Proof. intros rest ls Hl. by rewrite str_app_nil_l. Qed.
Lemma prints_concat {A} (f : A → string) (g : A → list Lexeme) xs : Forall (λ x, prints (f x) (g x)) xs →
  prints (String.concat "" (f <$> xs)) (List.concat (g <$> xs)).
Proof.
  induction 1 as [|x xs Hx _ IH]; [apply prints_nil|]. rewrite !fmap_cons, str_concat_cons. cbn [List.concat].
  by apply prints_app.
Qed.

(** One lexeme of the printed form, or a blank. *)
Ltac lex_one :=
  match goal with
  | |- Lexes (String " " ?s) _ => apply (Lexes_blank s)
  | |- Lexes (String _ ?s) (P _ :: _) => first
    [ apply Lexes_one; [reflexivity|]
    | apply Lexes_two; [match goal with |- lexItem _ (String _ ?r) = _ => destruct r; reflexivity end|] ]
  | |- Lexes (_ +:+ _) ((TIdentifier, _, 0) :: _) => apply Lexes_name; [done|done|]
  | |- Lexes (newline +:+ ?s) ?ls => change (Lexes (String "010" s) ls); apply (Lexes_item _ _ (Skip 1)); [reflexivity|];
                                    change (Lexes s ls)
  end.

Lemma Lexes_joined {A} (f : A → string) (g : A → list Lexeme) xs c rest ls : str_mem c "(),:]};" = true →
  Forall (λ x, ∀ d rest ls, str_mem d "(),:]};" = true → Lexes (String d rest) ls → Lexes (f x +:+ String d rest) (g x ++ ls)) xs →
  Lexes (String c rest) ls → Lexes (str_join ", " (f <$> xs) +:+ String c rest) (joinLexemes (g <$> xs) ++ ls).
Proof.
  intros Hc Hxs Hl. induction Hxs as [|x [|y xs] Hx Hxs IH].
  - cbn. by rewrite str_app_nil_l.
  - cbn [fmap list_fmap str_join joinLexemes]. by apply Hx.
  - cbn [fmap list_fmap str_join joinLexemes] in IH |- *. rewrite !str_app_assoc, <- app_assoc. cbn [app].
    rewrite (str_app_cons ","). apply Hx; [done|]. apply Lexes_plain; [done|]. by apply Lexes_blank.
Qed.

Lemma closer_plain c : str_mem c "(),:]};" = true → isIdentifierChar c = false ∧ isdigit c = false.
Proof.
  cbn [str_mem]. rewrite !orb_true_iff, !bool_decide_eq_true.
  intros [->|[->|[->|[->|[->|[->|[->|Hc]]]]]]]; done.
Qed.

Lemma Lexes_value v c rest ls : value_ok v = true → str_mem c "(),:]};" = true → Lexes (String c rest) ls →
  Lexes (printValue v +:+ String c rest) (valueLexeme v :: ls).
Proof.
  intros Hv [_ Hd]%closer_plain Hl. destruct v as [i|s]; cbn in Hv |- *.
  - apply bool_decide_eq_true in Hv. by apply Lexes_int.
  - by apply Lexes_string.
Qed.

Lemma Lexes_expr e c rest ls : wf e = true → keepsApart e = true → str_mem c "(),:]};" = true →
  Lexes (String c rest) ls → Lexes (printExpr e +:+ String c rest) (lexemesOf e ++ ls).
Proof.
  intros Hw Ha [Hi Hd]%closer_plain Hl. apply Lexes_print; [done..| |done]. unfold follows, notHead.
  destruct (endsInName e); [done|]. by destruct (kind e).
Qed.

Lemma intOf_ok vs v : Forall (λ v, value_ok v = true) vs → isRun_loop None vs = true → v ∈ vs →
  0 <= intOf (Some v) <= i64_max.
Proof.
  intros Hok Hrun Hv. rewrite Forall_forall in Hok. specialize (Hok v Hv). destruct v as [i|s]; cbn in Hok |- *.
  - by apply bool_decide_eq_true in Hok.
  - unfold i64_max. lia.
Qed.

Lemma prints_domain domain rest ls : values_ok (values domain) → Lexes (String ";" rest) ls →
  Lexes (printParamDomain domain +:+ String ";" rest) (domainLexemes domain ++ ls).
Proof.
  intros [Hne Hok] Hl. unfold printParamDomain, domainLexemes. destruct (isRun (values domain)) eqn:Hr.
  - apply andb_true_iff in Hr as [_ Hr]. destruct (values domain) as [|v vs] eqn:Hvs; [done|].
    assert (∃ w, last (v :: vs) = Some w ∧ w ∈ v :: vs) as (w & Hw & Hin).
    { destruct (last (v :: vs)) as [w|] eqn:Hlast; [|by apply last_None in Hlast]. exists w. split; [done|].
      by apply last_Some_elem_of. }
    pose proof (intOf_ok _ v Hok Hr ltac:(left)) as Hv0. pose proof (intOf_ok _ w Hok Hr Hin) as Hw0.
    rewrite Hw. cbn [head]. rewrite !str_app_assoc. cbn [app]. rewrite !str_app_cons, !str_app_nil_l.
    lex_one. apply Lexes_int; [done|done|]. lex_one. apply Lexes_int; [done|done|]. by lex_one.
  - rewrite !str_app_assoc. cbn [app]. rewrite <- app_assoc, !str_app_cons, !str_app_nil_l. cbn [app]. lex_one.
    apply (Lexes_joined printValue (λ v, [valueLexeme v])); [done| |by lex_one].
    eapply Forall_impl; [exact Hok|]. intros v Hv d rest' ls' Hd Hl'. by apply Lexes_value.
Qed.

Lemma prints_domainLine def p : wfLayout def → isName (name p) = true →
  prints (printDomainLine def p) (domainLineLexemes def p).
Proof.
  intros Hw Hn. unfold printDomainLine, domainLineLexemes. destruct (domains def !! name p) as [domain|] eqn:Hd;
    [|apply prints_nil]. intros rest ls Hl. rewrite !str_app_assoc. cbn [app]. rewrite <- app_assoc. cbn [app].
  rewrite !str_app_cons, !str_app_nil_l. do 2 lex_one. apply (Lexes_name "param"); [done..|]. lex_one.
  apply Lexes_name; [done..|]. lex_one. apply (Lexes_name "in"); [done..|]. lex_one.
  apply prints_domain; [|do 2 lex_one; exact Hl]. destruct Hw. by destruct (wl_domains0 _ _ Hd) as (_ & ? & ?).
Qed.

Lemma prints_kind k : k = "" ∨ isName k = true →
  prints (if str_empty k then "" else "  implements " +:+ k +:+ ";" +:+ newline) (kindLexemes k).
Proof.
  intros Hk. unfold kindLexemes, str_empty. case_bool_decide as He; [apply prints_nil|]. destruct Hk as [|Hk]; [done|].
  intros rest ls Hl. rewrite !str_app_assoc. cbn [app]. rewrite !str_app_cons, !str_app_nil_l. do 2 lex_one.
  apply (Lexes_name "implements"); [done..|]. lex_one. apply Lexes_name; [done..|]. do 2 lex_one. exact Hl.
Qed.

Lemma prints_require e : wf e = true → keepsApart e = true →
  prints ("  require " +:+ printExpr e +:+ ";" +:+ newline) (requireLexemes e).
Proof.
  intros Hw Ha rest ls Hl. unfold requireLexemes. rewrite !str_app_assoc. cbn [app]. rewrite <- app_assoc. cbn [app].
  rewrite !str_app_cons, !str_app_nil_l. do 2 lex_one. apply (Lexes_name "require"); [done..|]. lex_one.
  apply Lexes_expr; [done..|]. do 2 lex_one. exact Hl.
Qed.

Lemma prints_map m : Forall (λ d, isName d = true) (dims m) →
  Forall (λ e, wf e = true ∧ keepsApart e = true) (results m) →
  prints ("  map " +:+ printAffineMapSpec m +:+ ";" +:+ newline) (mapLexemes m).
Proof.
  intros Hd Hr rest ls Hl. unfold printAffineMapSpec, mapLexemes. rewrite !str_app_assoc. cbn [app].
  rewrite <- !app_assoc. cbn [app]. rewrite <- !app_assoc. cbn [app].
  rewrite !str_app_cons, !str_app_nil_l. do 2 lex_one. apply (Lexes_name "map"); [done..|]. do 2 lex_one.
  assert (dims m = (λ d : string, d) <$> dims m) as Hid by (by rewrite list_fmap_id). rewrite Hid at 1. clear Hid.
  apply (Lexes_joined (A := string) (λ d, d) (λ d, [nameLexeme d])); [done| |].
  { eapply Forall_impl; [exact Hd|]. intros d Hn c rest' ls' [Hc _]%closer_plain Hl'. by apply Lexes_name. }
  do 4 lex_one. lex_one. apply Lexes_joined; [done| |do 3 lex_one; exact Hl].
  eapply Forall_impl; [exact Hr|]. intros e [Hw Ha] c rest' ls' Hc Hl'. by apply Lexes_expr.
Qed.

(** What the printer needs: the expressions of the declaration keep apart. *)
Definition printable (def : LayoutDef) : Prop :=
  Forall (λ e, keepsApart e = true) (constraints def) ∧
  ∀ m, map def = Some m → Forall (λ e, keepsApart e = true) (results m).

Lemma prints_layout def : wfLayout def → printable def → prints (printLayout def) (layoutLexemes def).
Proof.
  intros Hw [Hpc Hpm] rest ls Hl. unfold printLayout, layoutLexemes. rewrite !str_app_assoc. cbn [app].
  rewrite <- !app_assoc. cbn [app]. rewrite !str_app_cons, !str_app_nil_l.
  apply (Lexes_name "layout"); [done..|]. lex_one. apply Lexes_name; [apply Hw|done|]. lex_one.
  apply Lexes_joined; [done| |].
  { destruct (wl_params _ Hw) as [_ Hps]. eapply Forall_impl; [exact Hps|]. intros p Hp c rest' ls' [Hc _]%closer_plain Hl'.
    unfold printParam, paramLexemes. cbn [app]. destruct (symbolic p); rewrite str_app_assoc; cbn [app].
    - apply (Lexes_name "sym"); [done..|]. lex_one. by apply Lexes_name.
    - apply (Lexes_name "int"); [done..|]. lex_one. by apply Lexes_name. }
  do 4 lex_one. rewrite <- !app_assoc.
  apply (prints_concat (printDomainLine def) (domainLineLexemes def)).
  { destruct (wl_params _ Hw) as [_ Hps]. eapply Forall_impl; [exact Hps|]. intros p Hp. by apply prints_domainLine. }
  apply prints_kind; [apply Hw|].
  apply (prints_concat (λ e, "  require " +:+ printExpr e +:+ ";" +:+ newline) requireLexemes).
  { pose proof (wl_constraints _ Hw) as Hc. apply Forall_forall. intros e He. rewrite Forall_forall in Hc, Hpc.
    apply prints_require; [by apply Hc|by apply Hpc]. }
  assert (Lexes ("}" +:+ newline +:+ rest) (P "}" :: ls)) as Hend by (rewrite !str_app_cons, !str_app_nil_l; do 2 lex_one; exact Hl).
  destruct (map def) as [m|] eqn:Hm.
  - pose proof (wl_map _ Hw m Hm) as [Hds [_ Hrs]].
    apply prints_map; [done| |exact Hend]. specialize (Hpm m eq_refl). rewrite Forall_forall in Hpm, Hrs |- *.
    intros e He. split; [by apply Hrs|by apply Hpm].
  - rewrite str_app_nil_l. exact Hend.
Qed.

(** *** Reading a printed declaration *)
Section read_layout.
Variable source : string.

Lemma runs_validate e allowed ls : complaint allowed e = None → runs (validateExpr source e allowed) ls () ls.
Proof. intros Hc. unfold validateExpr. rewrite Hc. apply runs_ret. Qed.

Lemma runs_punct {A} s (m n : LlkMapParser → parser A) x a ls : isP s x = true → (∀ p, at_ p x → runs (m p) x a ls) →
  runs (get (λ p, if isPunct p s then m p else n p)) x a ls.
Proof. intros Hs Hm. apply runs_get. intros p Hp. rewrite (at_isPunct p _ s Hp), Hs. by apply Hm. Qed.
Lemma runs_other {A} s (m n : LlkMapParser → parser A) x a ls : isP s x = false → (∀ p, at_ p x → runs (n p) x a ls) →
  runs (get (λ p, if isPunct p s then m p else n p)) x a ls.
Proof. intros Hs Hn. apply runs_get. intros p Hp. rewrite (at_isPunct p _ s Hp), Hs. by apply Hn. Qed.
Lemma runs_comma {A} (m n : parser A) ls a ls' : ls ≠ [] → runs m ls a ls' →
  runs (get (λ p, if isPunct p "," then _ ← step; m else n)) (P "," :: ls) a ls'.
Proof. intros Hne Hm. apply runs_punct; [done|]. intros p _. eapply runs_bind; [by apply runs_step_on|done]. Qed.
Lemma runs_name w n ls : ls ≠ [] → runs (expectIdentifier source w) (nameLexeme n :: ls) n ls.
Proof. destruct ls; [done|]. intros _. apply runs_identifier. Qed.
Lemma append_nonempty {A} (X : list A) y ls : (X ++ y :: ls)%list ≠ [].
Proof. by destruct X. Qed.
#[local] Hint Resolve append_nonempty : core.

(** The lexemes of a list of two or more, the first taken off. *)
Lemma joined_cons {A} (g : A → list Lexeme) x y xs rest :
  (joinLexemes (g <$> x :: y :: xs) ++ rest = g x ++ P "," :: joinLexemes (g <$> y :: xs) ++ rest)%list.
Proof. rewrite !fmap_cons, joinLexemes_cons, <- app_assoc. done. Qed.

Lemma runs_params fuel done_ ps y ls : ps ≠ [] → (length ps <= fuel)%nat → NoDup (name <$> done_ ++ ps)%list →
  isP "," (y :: ls) = false →
  runs (paramsLoop source fuel done_) (joinLexemes (paramLexemes <$> ps) ++ y :: ls) (done_ ++ ps)%list (y :: ls).
Proof.
  revert fuel done_. induction ps as [|p ps IH]; [done|]. intros fuel done_ _ Hf Hnd Hy.
  destruct fuel as [|fuel]; [cbn in Hf; lia|].
  assert (∀ Y, Y ≠ [] → runs (get (λ q, if isPunct q "," then _ ← step; paramsLoop source fuel (done_ ++ [p]) else mret (done_ ++ [p])))%list
    Y (done_ ++ p :: ps)%list (y :: ls) → runs (paramsLoop source (S fuel) done_) (paramLexemes p ++ Y) (done_ ++ p :: ps)%list (y :: ls)) as Hone.
  { intros Y HY Hrun. cbn [paramsLoop paramLexemes app]. apply runs_get. intros q Hq. cbv zeta.
    pose proof (at_current _ _ _ Hq) as Hc. unfold lexeme in Hc. injection Hc as Hk Ht _.
    unfold keyword. rewrite Hk, Ht. rewrite (bool_decide_true (TIdentifier = TIdentifier)) by done.
    assert (contains ["int"; "sym"] (if symbolic p then "sym" else "int") = true) as -> by (by destruct (symbolic p)).
    cbn [andb]. eapply runs_bind; [apply runs_step|]. eapply runs_bind; [by apply runs_name|].
    assert (existsb (λ q, bool_decide (name q = name p)) done_ = false) as ->.
    { apply not_true_iff_false. intros (r & Hr & Heq%bool_decide_eq_true)%existsb_exists.
      rewrite fmap_app in Hnd. apply NoDup_app in Hnd as (_ & Hnd & _). apply (Hnd (name p)).
      - rewrite <- Heq. apply list_elem_of_fmap_2. by apply list_elem_of_In.
      - by left. }
    assert (mkParam (name p) (bool_decide ((if symbolic p then "sym" else "int") = "sym")) = p) as ->.
    { by destruct p as [n []]. }
    exact Hrun. }
  destruct ps as [|q ps].
  - apply Hone; [done|]. by apply runs_other; [|intros p' _; apply runs_ret].
  - rewrite joined_cons. apply Hone; [done|]. apply runs_comma; [done|].
    replace (done_ ++ p :: q :: ps)%list with ((done_ ++ [p]) ++ q :: ps)%list by (by rewrite <- app_assoc).
    apply IH; [done|cbn in *; lia| |done]. by rewrite <- app_assoc.
Qed.

Lemma runs_parseParams ps ls : NoDup (name <$> ps) →
  runs (parseParams source) (joinLexemes (paramLexemes <$> ps) ++ P ")" :: ls) ps (P ")" :: ls).
Proof.
  intros Hnd. unfold parseParams. destruct ps as [|p ps]; [by apply runs_punct; [|intros p' _; apply runs_ret]|].
  apply runs_get. intros q Hq. rewrite (at_isPunct q _ _ Hq), (at_length _ _ Hq).
  assert (isP ")" (joinLexemes (paramLexemes <$> p :: ps) ++ P ")" :: ls) = false) as ->.
  { destruct ps; [done|]. by rewrite joined_cons. }
  apply (runs_params _ []); [done| |done|done]. rewrite length_app.
  clear. enough (length (p :: ps) <= length (joinLexemes (paramLexemes <$> p :: ps)))%nat by lia.
  revert p. induction ps as [|q ps IH]; intros p; [cbn; lia|]. specialize (IH q).
  rewrite !fmap_cons, joinLexemes_cons, length_app in *. cbn [length] in *. llia.
Qed.

(** *** Domains *)
Lemma isRun_after v vs : isRun_loop (Some v) vs = true → vs = IntValue <$> seqZ (v + 1) (Z.of_nat (length vs)).
Proof.
  revert v. induction vs as [|[i|s] vs IH]; intros v; [done| |done]. cbn [isRun_loop].
  intros [->%bool_decide_eq_true Hr]%andb_true_iff. cbn [length]. rewrite seqZ_cons by lia.
  cbn [fmap list_fmap]. f_equal. replace (Z.pred (Z.of_nat (S (length vs)))) with (Z.of_nat (length vs)) by lia.
  replace (Z.succ (v + 1)) with (v + 1 + 1) by lia. by apply IH.
Qed.

Lemma last_run v n : (0 < n)%nat → last (IntValue <$> seqZ v (Z.of_nat n)) = Some (IntValue (v + Z.of_nat n - 1)).
Proof.
  intros Hn. rewrite fmap_last. rewrite last_lookup, length_seqZ. rewrite lookup_seqZ_lt by lia. cbn. do 2 f_equal. lia.
Qed.

(** A run is the range between its ends. *)
Lemma isRun_range vs : isRun vs = true →
  intOf (head vs) <= intOf (last vs) ∧
  vs = IntValue <$> seqZ (intOf (head vs)) (intOf (last vs) - intOf (head vs) + 1).
Proof.
  unfold isRun. intros [Hne Hr]%andb_true_iff. destruct vs as [|[i|s] vs]; [done| |done]. cbn [isRun_loop] in Hr.
  apply isRun_after in Hr. assert (IntValue i :: vs = IntValue <$> seqZ i (Z.of_nat (length (IntValue i :: vs)))) as H.
  { cbn [length]. rewrite seqZ_cons by lia. cbn [fmap list_fmap]. f_equal.
    replace (Z.pred (Z.of_nat (S (length vs)))) with (Z.of_nat (length vs)) by lia. exact Hr. }
  assert (intOf (last (IntValue i :: vs)) = i + Z.of_nat (length (IntValue i :: vs)) - 1) as Hl.
  { rewrite H at 1. rewrite last_run by (cbn; lia). done. }
  rewrite Hl. cbn [head intOf]. split; [cbn; lia|]. rewrite H at 1. do 2 f_equal. lia.
Qed.

Lemma runs_int m i y ls : runs (expectInt source m) (intLexeme i :: y :: ls) i (y :: ls).
Proof.
  intros p Hp. unfold expectInt. pose proof (at_current _ _ _ Hp) as Hc. unfold lexeme in Hc.
  injection Hc as Hk _ Hi. rewrite Hk, Hi, bool_decide_true by done. destruct (at_advance _ _ _ _ Hp). by eexists.
Qed.

Lemma runs_member v y ls : runs (literalMember source) (valueLexeme v :: y :: ls) v (y :: ls).
Proof.
  intros p Hp. unfold literalMember. pose proof (at_current _ _ _ Hp) as Hc. unfold lexeme in Hc.
  destruct (at_advance _ _ _ _ Hp). destruct v; injection Hc as Hk Ht Hi; rewrite Hk, ?Hi, ?Ht; by eexists.
Qed.

Lemma runs_members fuel done_ vs ls : vs ≠ [] → (length vs <= fuel)%nat → ls ≠ [] →
  runs (membersLoop source fuel done_) (joinLexemes ((λ v, [valueLexeme v]) <$> vs) ++ P "}" :: ls) (done_ ++ vs)%list ls.
Proof.
  revert fuel done_. induction vs as [|v vs IH]; [done|]. intros fuel done_ _ Hf Hne.
  destruct fuel as [|fuel]; [cbn in Hf; lia|]. destruct vs as [|w vs].
  - cbn [membersLoop fmap list_fmap joinLexemes app]. eapply runs_bind; [apply runs_member|].
    apply runs_other; [done|]. intros p _. eapply runs_bind; [by apply runs_expect_on|apply runs_ret].
  - rewrite joined_cons. cbn [membersLoop app]. eapply runs_bind; [apply runs_member|]. apply runs_comma; [done|].
    replace (done_ ++ v :: w :: vs)%list with ((done_ ++ [v]) ++ w :: vs)%list by (by rewrite <- app_assoc).
    apply IH; [done|cbn in *; lia|done].
Qed.

Lemma runs_domainValues vs ls : vs ≠ [] → ls ≠ [] →
  runs (parseDomainValues source) (domainLexemes (mkDomain vs) ++ ls) vs ls.
Proof.
  intros Hvs Hne. unfold parseDomainValues, domainLexemes. cbn [values]. destruct (isRun vs) eqn:Hr.
  - destruct (isRun_range vs Hr) as [Hle Hrange]. cbn [app]. apply runs_punct; [done|]. intros p _.
    eapply runs_bind; [apply runs_step|]. eapply runs_bind; [apply runs_int|].
    eapply runs_bind; [apply runs_expect|]. eapply runs_bind; [apply runs_int|].
    eapply runs_bind; [by apply runs_expect_on|]. rewrite bool_decide_false by lia. rewrite <- Hrange. apply runs_ret.
  - cbn [app]. rewrite <- app_assoc. cbn [app]. apply runs_other; [done|]. intros q0 Hq0.
    rewrite (at_isPunct _ _ "{" Hq0). cbn [isP]. rewrite !bool_decide_true by done. cbn [andb].
    eapply runs_bind; [by apply runs_step_on|]. apply runs_get. intros p Hp. rewrite (at_length _ _ Hp). apply (runs_members _ []); [done| |done].
    rewrite length_app. cbn [length]. clear. enough (length vs <= length (joinLexemes ((λ v, [valueLexeme v]) <$> vs)))%nat by llia.
    induction vs as [|v [|w vs] IH]; [cbn; lia..|]. rewrite !fmap_cons, joinLexemes_cons, length_app in *. cbn [length] in *. llia.
Qed.

(** *** Statements *)
Lemma runs_statement (m : LayoutDef → parser LayoutDef) out word X out' ls :
  (word = "param" ∧ m = parseDomain source) ∨ (word = "require" ∧ m = parseRequire source) ∨
  (word = "map" ∧ m = parseMapClause source) ∨ (word = "implements" ∧ m = parseImplements source) →
  runs (m out) (nameLexeme word :: X) out' ls → runs (parseStatement source out) (nameLexeme word :: X) out' ls.
Proof.
  intros Hcase Hm. apply runs_get. intros p Hp. pose proof (at_current _ _ _ Hp) as Hc. unfold lexeme in Hc.
  injection Hc as Hk Ht _. unfold isIdentifier. rewrite Hk, Ht. rewrite (bool_decide_true (TIdentifier = TIdentifier)) by done.
  cbn [negb]. by destruct Hcase as [[-> ->]|[[-> ->]|[[-> ->]|[-> ->]]]].
Qed.

(** The statements [Y] turn [out] into [out'] and end before [Z]. *)
Definition body (out : LayoutDef) (Y : list Lexeme) (out' : LayoutDef) (Z : list Lexeme) : Prop :=
  ∀ fuel, (length Y <= fuel)%nat → runs (statementsLoop source fuel out) Y out' Z.

Lemma body_end out ls : body out (P "}" :: ls) out (P "}" :: ls).
Proof.
  intros [|fuel] Hf; [cbn in Hf; lia|]. cbn [statementsLoop]. apply runs_punct; [done|]. intros q0 _. apply runs_ret.
Qed.

Lemma body_step out word X Y out1 out' Z : 
  runs (parseStatement source out) (nameLexeme word :: X ++ Y) out1 Y → body out1 Y out' Z →
  body out (nameLexeme word :: X ++ Y) out' Z.
Proof.
  intros Hs Hb [|fuel] Hf; [cbn in Hf; lia|]. cbn [statementsLoop]. apply runs_other; [done|]. intros p Hp.
  assert (atEnd p = false) as ->.
  { pose proof (at_current _ _ _ Hp) as Hc. unfold lexeme in Hc. injection Hc as Hk _ _. unfold atEnd. by rewrite Hk. }
  eapply runs_bind; [exact Hs|]. apply Hb. cbn [length] in Hf. rewrite length_app in Hf. llia.
Qed.

Lemma runs_domainLine out p domain ls : findParam out (name p) ≠ None → domains out !! name p = None →
  values domain ≠ [] → ls ≠ [] →
  runs (parseDomain source out) (nameLexeme "param" :: nameLexeme (name p) :: nameLexeme "in" :: domainLexemes domain ++ P ";" :: ls)
    (with_domain out (name p) domain) ls.
Proof.
  intros Hf Hd Hvs Hne. unfold parseDomain. eapply runs_bind; [apply runs_step|]. eapply runs_bind; [by apply runs_name|].
  rewrite bool_decide_false by done. rewrite Hd, bool_decide_false by (by intros [? ?]). apply runs_get. intros q Hq.
  pose proof (at_current _ _ _ Hq) as Hc. unfold lexeme in Hc. injection Hc as Hk Ht _. unfold keyword. rewrite Hk, Ht.
  change (negb (bool_decide (TIdentifier = TIdentifier) && contains ["in"] "in")) with false. cbv match.
  destruct domain as [vs]. eapply runs_bind; [by apply runs_step_on|]. eapply runs_bind; [by apply runs_domainValues|].
  eapply runs_bind; [by apply runs_expect_on|apply runs_ret].
Qed.

Lemma runs_implements out k ls : implementsKind out = "" → ls ≠ [] →
  runs (parseImplements source out) (nameLexeme "implements" :: nameLexeme k :: P ";" :: ls) (with_kind out k) ls.
Proof.
  intros Hk Hne. unfold parseImplements. rewrite Hk. cbn [str_empty negb]. eapply runs_bind; [apply runs_step|].
  eapply runs_bind; [by apply runs_name|]. eapply runs_bind; [by apply runs_expect_on|apply runs_ret].
Qed.

Lemma stop_semi ls : stop (P ";" :: ls).
Proof. eexists _, _. split; [done|]. by right; right; right; right; left. Qed.
Lemma stop_comma ls : stop (P "," :: ls).
Proof. eexists _, _. split; [done|]. by right; left. Qed.
Lemma stop_close ls : stop (P ")" :: ls).
Proof. eexists _, _. split; [done|]. by left. Qed.
#[local] Hint Resolve stop_semi stop_comma stop_close : core.

Lemma runs_require out e ls : wf e = true → keepsApart e = true →
  complaint (paramNames out ∪ {["rank"; "element_type"]}) e = None → ls ≠ [] →
  runs (parseRequire source out) (nameLexeme "require" :: lexemesOf e ++ P ";" :: ls) (with_constraint out e) ls.
Proof.
  intros Hw Ha Hc Hne. unfold parseRequire. eapply runs_bind; [by apply runs_step_on|].
  eapply runs_bind; [by apply runs_parseExpression|]. eapply runs_bind; [by apply runs_expect_on|].
  eapply runs_bind; [by apply runs_validate|apply runs_ret].
Qed.

Lemma runs_dims fuel done_ ds y ls : ds ≠ [] → (length ds <= fuel)%nat → isP "," (y :: ls) = false →
  runs (dimsLoop source fuel done_) (joinLexemes ((λ d, [nameLexeme d]) <$> ds) ++ y :: ls) (done_ ++ ds)%list (y :: ls).
Proof.
  revert fuel done_. induction ds as [|d ds IH]; [done|]. intros fuel done_ _ Hf Hy.
  destruct fuel as [|fuel]; [cbn in Hf; lia|]. destruct ds as [|e ds].
  - cbn [dimsLoop fmap list_fmap joinLexemes app]. eapply runs_bind; [by apply runs_name|].
    apply runs_other; [done|]. intros p _. apply runs_ret.
  - rewrite joined_cons. cbn [dimsLoop app]. eapply runs_bind; [by apply runs_name|]. apply runs_comma; [done|].
    replace (done_ ++ d :: e :: ds)%list with ((done_ ++ [d]) ++ e :: ds)%list by (by rewrite <- app_assoc).
    apply IH; [done|cbn in *; lia|done].
Qed.

Lemma runs_results fuel done_ es ls : es ≠ [] → (length es <= fuel)%nat →
  Forall (λ e, wf e = true ∧ keepsApart e = true) es →
  runs (resultsLoop source fuel done_) (joinLexemes (lexemesOf <$> es) ++ P ")" :: ls) (done_ ++ es)%list (P ")" :: ls).
Proof.
  intros Hne Hf Hes. revert fuel done_ Hne Hf. induction Hes as [|e es [Hw Ha] Hes IH]; intros fuel done_ Hne Hf; [done|].
  destruct fuel as [|fuel]; [cbn in Hf; lia|]. destruct es as [|e' es].
  - cbn [resultsLoop fmap list_fmap joinLexemes app]. eapply runs_bind; [by apply runs_parseExpression|].
    apply runs_other; [done|]. intros p _. apply runs_ret.
  - rewrite joined_cons. cbn [resultsLoop]. eapply runs_bind; [by apply runs_parseExpression|].
    apply runs_comma; [done|].
    replace (done_ ++ e :: e' :: es)%list with ((done_ ++ [e]) ++ e' :: es)%list by (by rewrite <- app_assoc).
    apply IH; [done|cbn in *; lia].
Qed.

Lemma runs_validateAll allowed es ls : Forall (λ e, complaint allowed e = None) es →
  runs (validateAll source allowed es) ls () ls.
Proof.
  induction 1 as [|e es He _ IH]; [apply runs_ret|]. cbn [validateAll].
  eapply runs_bind; [by apply runs_validate|exact IH].
Qed.

Lemma runs_mapClause out m ls : map out = None → results m ≠ [] →
  Forall (λ e, wf e = true ∧ keepsApart e = true) (results m) →
  Forall (λ e, complaint (paramNames out ∪ list_to_set (dims m)) e = None) (results m) → ls ≠ [] →
  runs (parseMapClause source out) (mapLexemes m ++ ls) (with_map out m) ls.
Proof.
  intros Hm Hr Hwa Hc Hne. unfold parseMapClause, mapLexemes. rewrite Hm, bool_decide_false by (by intros [? ?]).
  cbn [app]. rewrite <- app_assoc. cbn [app]. rewrite <- app_assoc. cbn [app].
  eapply runs_bind; [apply runs_step|]. eapply runs_bind; [by apply runs_expect_on|].
  eapply (runs_bind _ _ _ (dims m)).
  { destruct (dims m) as [|d ds]; [by apply runs_punct; [|intros q _; apply runs_ret]|]. apply runs_get. intros q Hq.
    rewrite (at_isPunct _ _ ")" Hq), (at_length _ _ Hq).
    assert (∀ Y, isP ")" (joinLexemes ((λ d : string, [nameLexeme d]) <$> d :: ds) ++ Y) = false) as Hj
      by (intros Y; destruct ds; [done|by rewrite joined_cons]). rewrite Hj.
    apply (runs_dims _ []); [done| |done]. rewrite length_app. clear.
    enough (length (d :: ds) <= length (joinLexemes ((λ d, [nameLexeme d]) <$> d :: ds)))%nat by llia.
    revert d. induction ds as [|e ds IH]; intros d; [cbn; lia|]. specialize (IH e).
    rewrite !fmap_cons, joinLexemes_cons, length_app in *. cbn [length] in *. llia. }
  eapply runs_bind; [by apply runs_expect_on|]. eapply runs_bind; [by apply runs_expect_on|].
  eapply runs_bind; [by apply runs_expect_on|]. eapply (runs_bind _ _ _ (results m)).
  { apply runs_get. intros q Hq. rewrite (at_length _ _ Hq). apply (runs_results _ []); [done| |done].
    rewrite length_app. enough (length (results m) <= length (joinLexemes (lexemesOf <$> results m)))%nat by llia.
    clear -Hwa. induction Hwa as [|e [|e' es] [He _] _ IH]; [cbn; lia|..].
    - destruct (lexemesOf_head e He) as (x & xs & Hx & _). cbn. rewrite Hx. cbn. lia.
    - rewrite !fmap_cons, joinLexemes_cons, length_app in *. cbn [length] in *. llia. }
  eapply runs_bind; [by apply runs_expect_on|]. eapply runs_bind; [by apply runs_expect_on|].
  eapply runs_bind; [by apply runs_validateAll|]. destruct m. apply runs_ret.
Qed.

(** *** The body of a printed declaration *)
Definition addDomains (def : LayoutDef) (ps : list LayoutParam) (out : LayoutDef) : LayoutDef :=
  foldl (λ o p, match domains def !! name p with Some d => with_domain o (name p) d | None => o end) out ps.

Lemma body_domains def ps out Y out' Z : (∀ n d, domains def !! n = Some d → values d ≠ []) →
  NoDup (name <$> ps) → (∀ p, p ∈ ps → findParam out (name p) ≠ None ∧ domains out !! name p = None) → Y ≠ [] →
  body (addDomains def ps out) Y out' Z → body out (List.concat (domainLineLexemes def <$> ps) ++ Y) out' Z.
Proof.
  intros Hdef. revert out. induction ps as [|p ps IH]; intros out Hnd Hps HY Hb; [done|].
  rewrite fmap_cons in Hnd. apply NoDup_cons in Hnd as [Hn Hnd]. destruct (Hps p ltac:(left)) as [Hf Hd].
  rewrite fmap_cons. cbn [List.concat]. rewrite <- app_assoc. cbn [addDomains foldl] in Hb. unfold domainLineLexemes at 1.
  destruct (domains def !! name p) as [domain|] eqn:Hdom.
  - assert (body (with_domain out (name p) domain) (List.concat (domainLineLexemes def <$> ps) ++ Y) out' Z) as Hrest.
    { apply IH; [done| |done|done]. intros q Hq. destruct (Hps q ltac:(by right)) as [? ?]. split; [done|].
      cbn. rewrite lookup_insert_ne; [done|]. intros Heq. apply Hn. rewrite Heq. by apply list_elem_of_fmap_2. }
    apply (body_step _ _ (nameLexeme (name p) :: nameLexeme "in" :: domainLexemes domain ++ [P ";"]) _ (with_domain out (name p) domain)); [|done].
    apply (runs_statement (parseDomain source)); [by left|]. cbn [app]. rewrite <- app_assoc. cbn [app].
    apply runs_domainLine; [done|done|by eapply Hdef|]. destruct (List.concat _); [done|done].
  - cbn [app]. apply IH; [done| |done|done]. intros q Hq. apply Hps. by right.
Qed.

Lemma body_kind out k Y out' Z : implementsKind out = "" → Y ≠ [] → body (with_kind out k) Y out' Z →
  body out (kindLexemes k ++ Y) out' Z.
Proof.
  intros Hk HY Hb. unfold kindLexemes, str_empty. case_bool_decide as He.
  - subst k. destruct out; cbn in Hk; subst. exact Hb.
  - apply (body_step _ _ [nameLexeme k; P ";"] _ (with_kind out k)); [|done].
    apply (runs_statement (parseImplements source)); [by right; right; right|]. by apply runs_implements.
Qed.

Lemma body_requires es out Y out' Z : Forall (λ e, wf e = true ∧ keepsApart e = true ∧
    complaint (paramNames out ∪ {["rank"; "element_type"]}) e = None) es → Y ≠ [] →
  body (foldl with_constraint out es) Y out' Z → body out (List.concat (requireLexemes <$> es) ++ Y) out' Z.
Proof.
  intros Hes HY. revert out Hes. induction es as [|e es IH]; intros out Hes Hb; [done|].
  apply Forall_cons in Hes as [(Hw & Ha & Hc) Hes]. rewrite fmap_cons. cbn [List.concat]. rewrite <- app_assoc.
  apply (body_step _ _ (lexemesOf e ++ [P ";"]) _ (with_constraint out e)); [|by apply IH].
  apply (runs_statement (parseRequire source)); [by right; left|]. rewrite <- app_assoc. cbn [app].
  apply runs_require; [done..|]. by destruct (List.concat _).
Qed.

Lemma body_map out m Y out' Z : map out = None → results m ≠ [] →
  Forall (λ e, wf e = true ∧ keepsApart e = true) (results m) →
  Forall (λ e, complaint (paramNames out ∪ list_to_set (dims m)) e = None) (results m) → Y ≠ [] →
  body (with_map out m) Y out' Z → body out (mapLexemes m ++ Y) out' Z.
Proof.
  intros Hm Hr Hwa Hc HY Hb. pose proof (runs_mapClause out m Y Hm Hr Hwa Hc HY) as Hrun.
  change (mapLexemes m ++ Y)%list with (nameLexeme "map" :: tail (mapLexemes m) ++ Y)%list in *.
  eapply body_step; [|exact Hb]. apply (runs_statement (parseMapClause source)); [by right; right; left|exact Hrun].
Qed.

Lemma addDomains_fields def ps out : let o := addDomains def ps out in
  id o = id out ∧ params o = params out ∧ constraints o = constraints out ∧ map o = map out ∧
  implementsKind o = implementsKind out ∧
  ∀ n, domains o !! n = if decide (n ∈ name <$> ps ∧ is_Some (domains def !! n)) then domains def !! n else domains out !! n.
Proof.
  revert out. induction ps as [|p ps IH]; intros out; cbn zeta.
  { split_and!; try done. }
  cbn [addDomains foldl]. destruct (domains def !! name p) as [d|] eqn:Hd.
  - destruct (IH (with_domain out (name p) d)) as (H1 & H2 & H3 & H4 & H5 & H6). split_and!; try done.
    intros n. unfold addDomains in H6. rewrite H6. cbn. destruct (decide (n = name p)) as [->|Hne].
    + rewrite lookup_insert_eq, Hd. rewrite (decide_True (P := name p ∈ name p :: (name <$> ps) ∧ is_Some (Some d))) by (split; [by left|done]).
      by case_decide.
    + rewrite lookup_insert_ne by done. apply decide_ext. set_solver.
  - destruct (IH out) as (H1 & H2 & H3 & H4 & H5 & H6). split_and!; try done.
    intros n. unfold addDomains in H6. rewrite H6. apply decide_ext. split; intros [Hn Hs]; split; try done.
    + by right.
    + rewrite fmap_cons in Hn. apply elem_of_cons in Hn as [->|?]; [|done]. rewrite Hd in Hs. by destruct Hs.
Qed.

Lemma foldl_constraint out es : foldl with_constraint out es =
  mkLayout (id out) (params out) (domains out) (constraints out ++ es) (map out) (implementsKind out).
Proof.
  revert out. induction es as [|e es IH]; intros out; [rewrite app_nil_r; by destruct out|].
  cbn [foldl]. rewrite IH. cbn. by rewrite <- app_assoc.
Qed.

(** The declaration its statements rebuild. *)
Lemma rebuilt def : wfLayout def →
  let o1 := with_kind (addDomains def (params def) (with_params (emptyLayout (id def)) (params def))) (implementsKind def) in
  let o2 := foldl with_constraint o1 (constraints def) in
  match map def with Some m => with_map o2 m | None => o2 end = def.
Proof.
  intros Hw. cbv zeta. rewrite foldl_constraint.
  destruct (addDomains_fields def (params def) (with_params (emptyLayout (id def)) (params def))) as (H1 & H2 & H3 & H4 & _ & H6).
  cbn [with_kind id params constraints map implementsKind domains] in *. cbn in H1, H2, H3, H4.
  assert (domains (addDomains def (params def) (with_params (emptyLayout (id def)) (params def))) = domains def) as Hd.
  { apply map_eq. intros n. rewrite H6. cbn. case_decide as Hc; [done|]. rewrite lookup_empty.
    destruct (domains def !! n) as [d|] eqn:Hn; [|done]. exfalso. apply Hc. split; [|done].
    destruct (wl_domains _ Hw n d Hn) as (Hin & _). unfold paramNames in Hin. by apply elem_of_list_to_set in Hin. }
  rewrite H1, H2, H3, H4, Hd. destruct def as [i ps ds cs [m|] k]; done.
Qed.

Lemma runs_layout def ls : wfLayout def → printable def → ls ≠ [] →
  runs (parseLayout source) (layoutLexemes def ++ ls) def ls.
Proof.
  intros Hw [Hpc Hpm] Hne. unfold parseLayout, layoutLexemes. cbn [app]. rewrite <- !app_assoc. cbn [app].
  rewrite <- !app_assoc. eapply runs_bind; [apply runs_step|]. eapply runs_bind; [by apply runs_name|].
  eapply runs_bind; [by apply runs_expect_on|]. destruct (wl_params _ Hw) as [Hnd Hps].
  eapply runs_bind; [by apply runs_parseParams|]. eapply runs_bind; [by apply runs_expect_on|].
  assert (∀ W X Y Z : list Lexeme, (W ++ X ++ Y ++ Z ++ [P "}"] ++ ls)%list ≠ []) as Hnon.
  { intros [|] [|] [|] [|]; done. }
  eapply runs_bind; [by apply runs_expect_on|].
  eapply (runs_bind _ _ _ def (P "}" :: ls)); [|eapply runs_bind; [by apply runs_step_on|apply runs_ret]].
  apply runs_get. intros p Hp. rewrite (at_length _ _ Hp). revert p Hp.
  enough (body (with_params (emptyLayout (id def)) (params def))
    (List.concat (domainLineLexemes def <$> params def) ++ kindLexemes (implementsKind def) ++
     List.concat (requireLexemes <$> constraints def) ++
     match map def with Some m => mapLexemes m | None => [] end ++ P "}" :: ls)%list def (P "}" :: ls)) as Hb.
  { intros p _. by apply Hb. }
  assert (∀ X Y Z : list Lexeme, (X ++ Y ++ Z ++ P "}" :: ls)%list ≠ []) as Hn3 by (by intros [|] [|] [|]).
  pose proof (rebuilt def Hw) as Hre. cbv zeta in Hre.
  apply body_domains; [intros n d Hd; by destruct (wl_domains _ Hw n d Hd) as (_ & ? & _)|done| |apply Hn3|].
  { intros q Hq. split; [|apply lookup_empty]. intros Hn. apply findParam_names in Hn. apply Hn. cbn. by apply list_elem_of_fmap_2. }
  set (o0 := addDomains def (params def) _) in *.
  destruct (addDomains_fields def (params def) (with_params (emptyLayout (id def)) (params def))) as (H1 & H2 & H3 & H4 & H5 & _).
  fold o0 in H1, H2, H3, H4, H5. cbn in H2, H4, H5.
  apply body_kind; [done|apply (Hn3 [])|]. set (o1 := with_kind o0 (implementsKind def)) in *.
  assert (paramNames o1 = paramNames def) as Hn1 by (unfold paramNames; cbn; by rewrite H2).
  apply body_requires.
  { rewrite Hn1. pose proof (wl_constraints _ Hw) as Hc. apply Forall_forall. intros e He. rewrite Forall_forall in Hc, Hpc.
    destruct (Hc e He). split_and!; auto. }
  { apply (Hn3 [] []). }
  set (o2 := foldl with_constraint o1 (constraints def)) in *.
  destruct (map def) as [m|] eqn:Hm; [|cbn [app]; rewrite Hre; apply body_end].
  destruct (wl_map _ Hw m Hm) as [Hds [Hrne Hrs]]. specialize (Hpm m eq_refl).
  assert (map o2 = None ∧ paramNames o2 = paramNames def) as [Hmo Hpo].
  { unfold o2. rewrite foldl_constraint. unfold paramNames in *. cbn. by rewrite H4. }
  apply body_map; [done|done| | |done|rewrite Hre; apply body_end].
  - apply Forall_forall. intros e He. rewrite Forall_forall in Hrs, Hpm. split; [by apply Hrs|by apply Hpm].
  - rewrite Hpo. eapply Forall_impl; [exact Hrs|]. by intros e [_ ?].
Qed.
End read_layout.

(** C19: Printing and parsing a declaration are inverse: the text of a well-formed
    declaration whose expressions keep apart loads as the registry that holds
    exactly this declaration, domains, statements and all. *)
Theorem print_layout_roundtrip def sourceName : wfLayout def → printable def →
  parseLayoutText (printLayout def) sourceName = Some (Ok [def]).
Proof.
  intros Hw Hp. destruct (prints_layout def Hw Hp "" [] Lexes_nil 1 1) as (ts & Hts & Hls).
  rewrite str_app_nil_r, app_nil_r in *. unfold parseLayoutText, lexLlkMap, lex. rewrite Hts.
  assert (at_ (mkParser ts "") (layoutLexemes def ++ [theEnd])) as Hat by exact Hls.
  assert (runs (parseFile sourceName) (layoutLexemes def ++ [theEnd]) [def] [theEnd]) as Hrun.
  { apply runs_get. intros p Hp0. rewrite (at_length _ _ Hp0), length_app. cbn [length].
    replace (length (layoutLexemes def) + 1)%nat with (S (length (layoutLexemes def))) by lia. revert p Hp0.
    assert (runs (fileLoop sourceName (S (length (layoutLexemes def))) []) (layoutLexemes def ++ [theEnd]) [def] [theEnd]) as Hf.
    { cbn [fileLoop]. apply runs_get. intros p Hp0.
      pose proof (at_current _ _ _ Hp0) as Hc. unfold lexeme in Hc. injection Hc as Hk Ht _.
      unfold atEnd, keyword. rewrite Hk, Ht.
      change (bool_decide (TIdentifier = TEnd)) with false.
      change (negb (bool_decide (TIdentifier = TIdentifier) && contains ["layout"] "layout")) with false. cbv match.
      eapply runs_bind; [by apply runs_layout|]. cbn [add find List.find app].
      assert (∀ fuel, runs (fileLoop sourceName fuel [def]) [theEnd] [def] [theEnd]) as Hend; [|apply Hend].
      intros [|fuel]; cbn [fileLoop]; apply runs_get; intros q Hq; pose proof (at_current _ _ _ Hq) as Hc;
        unfold lexeme in Hc; injection Hc as Hk' _ _; unfold atEnd; rewrite Hk', bool_decide_true by done; apply runs_ret. }
    intros p Hp0. exact Hf. }
  destruct (Hrun _ Hat) as (p' & -> & _ & _). done.
Qed.

Lemma print_layout_roundtrip_witness :
  wfLayout blocked ∧ parseLayoutText (printLayout blocked) "f" = Some (Ok [blocked]).
Proof.
  assert (wfLayout blocked) as Hw.
  { split; try done.
    - split; [apply NoDup_singleton|by constructor].
    - intros n d Hd. change (({["VW" := mkDomain (IntValue <$> [4; 8; 16])]} : gmap string ParamDomain) !! n = Some d) in Hd.
      apply lookup_singleton_Some in Hd as [<- <-]. split_and!; [done|done|by repeat constructor].
    - repeat constructor; vm_compute; done.
    - intros m [= <-]. split; [by repeat constructor|]. split; [done|]. repeat constructor; vm_compute; done.
    - by right. }
  split; [exact Hw|]. apply print_layout_roundtrip; [exact Hw|]. split; [by repeat constructor|].
  intros m [= <-]. by repeat constructor.
Defined.

(** ** What a map clause means *)

(** The documented meaning of MLIR's affine expressions at a point: the three
    divisions are defined for a positive divisor and round down, round up and
    take the nonnegative remainder. *)
Class AffineMeaning (A : AffineExprs) := {
  affineValue : AffineExpr → (nat → Z) → Z;
  value_constant c x : affineValue (getAffineConstantExpr c) x = c;
  value_dim d x : affineValue (getAffineDimExpr d) x = x d;
  value_add l r x : affineValue (getAffineBinaryOpExpr Add l r) x = affineValue l x + affineValue r x;
  value_mul l r x : affineValue (getAffineBinaryOpExpr Mul l r) x = affineValue l x * affineValue r x;
  value_floordiv l r x : 0 < affineValue r x →
    affineValue (getAffineBinaryOpExpr FloorDiv l r) x = affineValue l x / affineValue r x;
  value_ceildiv l r x : 0 < affineValue r x →
    affineValue (getAffineBinaryOpExpr CeilDiv l r) x = - (- affineValue l x / affineValue r x);
  value_mod l r x : 0 < affineValue r x →
    affineValue (getAffineBinaryOpExpr Mod l r) x = affineValue l x mod affineValue r x;
}.

Definition positiveDivisor (r v : Z) : option Z := if bool_decide (0 < r) then Some v else None.
Definition operatorMeaning (op : string) (l r : Z) : option Z :=
  if decide (op = "+") then Some (l + r)
  else if decide (op = "-") then Some (l - r)
  else if decide (op = "*") then Some (l * r)
  else if decide (op = "/") then positiveDivisor r (l / r)
  else if decide (op = "%") then positiveDivisor r (l mod r)
  else if decide (op = "floordiv") then positiveDivisor r (l / r)
  else if decide (op = "ceildiv") then positiveDivisor r (- (- l / r))
  else if decide (op = "mod") then positiveDivisor r (l mod r)
  else None.

(** The value of a map expression, names read by [sigma]. *)
Fixpoint mapMeaning (sigma : string → option Z) (e : Expr) : option Z :=
  match kind e, operands e with
  | IntLit, _ => Some (intValue e)
  | Ident, _ => sigma (text e)
  | Unary, [a] => Z.opp <$> mapMeaning sigma a
  | Binary, [a; b] | Call, [a; b] =>
    l ← mapMeaning sigma a; r ← mapMeaning sigma b; operatorMeaning (text e) l r
  | _, _ => None
  end.

Section meaning.
Context {A : AffineExprs} {M : AffineMeaning A}.

Lemma convertBinary_meaning op l r x a y : convertBinary op l r = Ok x →
  operatorMeaning op (affineValue l a) (affineValue r a) = Some y → affineValue x a = y.
Proof.
  unfold convertBinary, operatorMeaning, positiveDivisor, minusOne.
  destruct (decide (op = "+")); [intros [= <-] [= <-]; apply value_add|].
  destruct (decide (op = "-")); [intros [= <-] [= <-]; rewrite value_add, value_mul, value_constant; lia|].
  destruct (decide (op = "*")); [destruct (_ && _); [done|]; intros [= <-] [= <-]; apply value_mul|].
  destruct (decide (op = "/")); [intros [= <-]; case_bool_decide; intros [= <-]; by apply value_floordiv|].
  destruct (decide (op = "%")); [intros [= <-]; case_bool_decide; intros [= <-]; by apply value_mod|done].
Qed.

Lemma convertCall_meaning f l r x a y : convertCall f l r = Ok x →
  operatorMeaning f (affineValue l a) (affineValue r a) = Some y → affineValue x a = y.
Proof.
  unfold convertCall, operatorMeaning, positiveDivisor. destruct (decide (f = "floordiv")) as [->|].
  { intros [= <-]. cbn. case_bool_decide; intros [= <-]. by apply value_floordiv. }
  destruct (decide (f = "ceildiv")) as [->|].
  { intros [= <-]. cbn. case_bool_decide; intros [= <-]. by apply value_ceildiv. }
  destruct (decide (f = "mod")) as [->|]; [|done].
  intros [= <-]. cbn. case_bool_decide; intros [= <-]. by apply value_mod.
Qed.

(** The names of a map clause at a point: dimensions first, then the constants. *)
Definition names (dimIndex : gmap string nat) (constants : gmap string Z) (a : nat → Z) (n : string) : option Z :=
  match dimIndex !! n with Some d => Some (a d) | None => constants !! n end.

(** Translating a map clause keeps its meaning: wherever the expression has a
    value (every divisor positive), the affine expression built for it takes that
    value at every point, with floor and ceiling division and the nonnegative
    remainder. *)
Theorem convert_meaning dimIndex constants e x a y : convert dimIndex constants e = Ok x →
  mapMeaning (names dimIndex constants a) e = Some y → affineValue x a = y.
Proof.
  revert x y. induction e as [k i t ops IH] using Expr_nested_ind. intros x y.
  destruct k; cbn [convert mapMeaning kind text operands intValue]; try done.
  - intros [= <-] [= <-]. apply value_constant.
  - unfold names. destruct (dimIndex !! t) as [d|]; [intros [= <-] [= <-]; apply value_dim|].
    destruct (constants !! t); [|done]. intros [= <-] [= <-]. apply value_constant.
  - destruct ops as [|l [|r [|]]]; try done. apply Forall_cons in IH as [IHl [IHr _]%Forall_cons].
    destruct (convert _ _ l) as [xl|]; [|done]. destruct (convert _ _ r) as [xr|]; [|done].
    cbn [mbind result_bind]. destruct (mapMeaning _ l) as [yl|]; [|done]. destruct (mapMeaning _ r) as [yr|]; [|done].
    cbn [mbind option_bind]. rewrite <- (IHl xl yl), <- (IHr xr yr) by done. apply convertCall_meaning.
  - destruct ops as [|l [|r ops]]; try done. apply Forall_cons in IH as [IHl _].
    destruct (convert _ _ l) as [xl|]; [|done]. cbn [mbind result_bind]. destruct (decide (t = "-")); [|done].
    intros [= <-]. destruct (mapMeaning _ l) as [yl|]; [|done]. cbn. intros [= <-].
    rewrite value_mul. unfold minusOne. rewrite value_constant, (IHl xl yl) by done. lia.
  - destruct ops as [|l [|r [|? ops]]]; try done. apply Forall_cons in IH as [IHl [IHr _]%Forall_cons].
    destruct (convert _ _ l) as [xl|]; [|done]. destruct (convert _ _ r) as [xr|]; [|done].
    cbn [mbind result_bind]. destruct (mapMeaning _ l) as [yl|]; [|done]. destruct (mapMeaning _ r) as [yr|]; [|done].
    cbn [mbind option_bind]. rewrite <- (IHl xl yl), <- (IHr xr yr) by done. apply convertBinary_meaning.
Qed.
End meaning.

Fixpoint plainValue (e : PlainAffine) (x : nat → Z) : Z :=
  match e with
  | PlainConstant c => c
  | PlainDim d => x d
  | PlainBinary k l r =>
    let l := plainValue l x in
    let r := plainValue r x in
    match k with
    | Add => l + r
    | Mul => l * r
    | FloorDiv => l / r
    | CeilDiv => - (- l / r)
    | Mod => l mod r
    end
  end.
Definition plainMeaning : AffineMeaning plainAffine.
Proof. refine {| affineValue := plainValue : @AffineExpr plainAffine → _ |}; done. Defined.

Lemma convert_meaning_witness :
  @convert plainAffine {["n" := 1%nat]} {["VW" := 8]} (makeExpr Call "floordiv" [eId "n"; eId "VW"]) =
    Ok (PlainBinary FloorDiv (PlainDim 1) (PlainConstant 8)) ∧
  mapMeaning (names {["n" := 1%nat]} {["VW" := 8]} (λ d, if decide (d = 1%nat) then -9 else 0))
    (makeExpr Call "floordiv" [eId "n"; eId "VW"]) = Some (-2) ∧
  plainValue (PlainBinary FloorDiv (PlainDim 1) (PlainConstant 8)) (λ d, if decide (d = 1%nat) then -9 else 0) = -2.
Proof.
  split; [reflexivity|]. split; [reflexivity|].
  apply (@convert_meaning plainAffine plainMeaning {["n" := 1%nat]} {["VW" := 8]} (makeExpr Call "floordiv" [eId "n"; eId "VW"]));
    reflexivity.
Defined.

(** The content hash of a registry does not depend on the order of its
    declarations. *)
Lemma computeContentHash_order (r1 r2 : LayoutRegistry) : NoDup (id <$> r1) → r1 ≡ₚ r2 →
  computeContentHash r1 = computeContentHash r2.
Proof. intros Hnd Hp. unfold computeContentHash. by rewrite (sort_by_unique id r1 r2 Hnd Hp). Qed.
