(* ===== verification/Routing.v ===== *)
(** Memory-to-memory routing: include/LLK/Mapping/Routing.h and
    lib/Mapping/Routing.cpp.

    [enumerateRoutes] explores partial routes best first through a priority
    queue.  The queue is a list; [pop] removes a least element, the first of
    those no other beats (with distinct link ids and costs that are not NaN no
    two partial routes compare equal, so the choice is not visible).  The loop
    is shown to stop by its own conditions within the fuel it is given, every
    returned route to be a legal simple path, and an enumeration that does not
    report truncation to list every legal simple path. *)
From S2P Require Import Prelude Float MachineModel CostModel.
Open Scope string_scope.
Open Scope Z_scope.

(** ** Data *)
Record RouteRequest := mkRequest {
  req_source : string;
  req_destination : string;
  bytes : Z;
  req_alignmentBytes : Z;
  producerExecutor : option string;
  consumerExecutor : option string;
  layoutClass : option string;
  liveBytesOnIntermediate : Z;
  liveBytesByIntermediate : gmap string Z;
}.

Record MemoryRoute := mkRoute {
  nodes : list string;
  route_links : list string;
  route_engines : list string;
  route_cost : Cost;
}.

Record RouteOptions := mkOptions { maxRoutes : Z; maxHops : Z }.

Record PartialRoute := mkPartial {
  p_nodes : list string;
  p_links : list string;
  p_engines : list string;
  linkIds : list string;
  p_cost : double;
}.

Inductive route_error :=
| BytesNotPositive
| AlignmentNotPositive
| UnknownSourceMemory (id : string)
| UnknownDestinationMemory (id : string)
| ExecutorCannotSee (executor memory : string)
| UnsupportedAlignment (memory : string)
| UnsupportedLayout (memory layout : string)
| LimitNotPositive
| NoRoute.

(** ** Hop legality *)
Definition isDramClass (kind : string) : bool := bool_decide (kind = "dram").

Definition supportsAlignment (memory : MemoryNode) (alignment : Z) : bool :=
  bool_decide (alignmentBytes memory mod alignment = 0).

Definition memorySupportsLayout (memory : MemoryNode) (layout : string) : bool :=
  contains (mem_layouts memory) layout.

(** The engines of one link, in order. *)
Fixpoint legalEngine_loop (model : MachineModel) (link : LinkEdge) (engines : list string) :
    option string :=
  match engines with
  | [] => None
  | engineId :: engines =>
    match findTransferEngine model engineId with
    | Some engine =>
      if isVisible model (source link) (eng_attachedTo engine) then Some engineId
      else legalEngine_loop model link engines
    | None => legalEngine_loop model link engines
    end
  end.

Definition legalEngine (model : MachineModel) (link : LinkEdge) : option string :=
  legalEngine_loop model link (link_engines link).

(** What is live on an intermediate, capped at its capacity. *)
Definition liveOn (request : RouteRequest) (next : MemoryNode) : Z :=
  Z.min (default (liveBytesOnIntermediate request) (liveBytesByIntermediate request !! mem_id next))
    (capacityBytes next).

Definition legalHop (model : MachineModel) (link : LinkEdge) (next : MemoryNode)
    (request : RouteRequest) (destination : string) : option string :=
  if bool_decide (transactionBytes link = 0) ||
     bool_decide (bytes request mod transactionBytes link ≠ 0) then None
  else if negb (supportsAlignment next (req_alignmentBytes request)) then None
  else if match layoutClass request with
          | Some layout => negb (memorySupportsLayout next layout)
          | None => false
          end then None
  else if bool_decide (mem_id next ≠ destination) &&
          bool_decide (capacityBytes next - liveOn request next < bytes request) then None
  else legalEngine model link.

Fixpoint hasLegalExtension_loop (model : MachineModel) (memoryId : string) (visited : list string)
    (request : RouteRequest) (dest : string) (candidates : list LinkEdge) : bool :=
  match candidates with
  | [] => false
  | link :: candidates =>
    let continue := hasLegalExtension_loop model memoryId visited request dest candidates in
    if bool_decide (source link ≠ memoryId) then continue
    else
      match findMemory model (destination link) with
      | None => continue
      | Some next =>
        if contains visited (mem_id next) then continue
        else
          match legalHop model link next request dest with
          | Some _ => true
          | None => continue
          end
      end
  end.

Definition hasLegalExtension (model : MachineModel) (memoryId : string) (visited : list string)
    (request : RouteRequest) (dest : string) : bool :=
  hasLegalExtension_loop model memoryId visited request dest (links model).

(** ** The queue *)

(** [operator>] on [std::vector<std::string>]. *)
Fixpoint str_list_ltb (xs ys : list string) : bool :=
  match xs, ys with
  | _, [] => false
  | [], _ :: _ => true
  | x :: xs, y :: ys =>
    if str_ltb x y then true else if str_ltb y x then false else str_list_ltb xs ys
  end.

Definition WorstFirst (lhs rhs : PartialRoute) : bool :=
  if negb (deqb (p_cost lhs) (p_cost rhs)) then dltb (p_cost rhs) (p_cost lhs)
  else if bool_decide (length (p_links lhs) ≠ length (p_links rhs))
  then (length (p_links rhs) <? length (p_links lhs))%nat
  else str_list_ltb (linkIds rhs) (linkIds lhs).

(** [work.top()] and [work.pop()]. *)
Fixpoint pop (work : list PartialRoute) : option (PartialRoute * list PartialRoute) :=
  match work with
  | [] => None
  | p :: work =>
    match pop work with
    | None => Some (p, [])
    | Some (q, rest) => if WorstFirst p q then Some (q, p :: rest) else Some (p, q :: rest)
    end
  end.

(** ** Expansion *)
Definition outgoing (model : MachineModel) (memoryId : string) : list LinkEdge :=
  sort_by link_id (filter (λ link, source link = memoryId) (links model)).

Fixpoint firstLegalEngine (model : MachineModel) (candidates : list LinkEdge) : option string :=
  match candidates with
  | [] => None
  | link :: candidates =>
    match legalEngine model link with
    | Some engine => Some engine
    | None => firstLegalEngine model candidates
    end
  end.

Definition legalTransferEngine (model : MachineModel) (sourceMemory destinationMemory : string) :
    option string :=
  firstLegalEngine model (sort_by link_id
    (filter (λ link, source link = sourceMemory ∧ destination link = destinationMemory)
      (links model))).

(** [current.nodes.back()]; a partial route always has a node. *)
Definition currentId (p : PartialRoute) : string := default "" (last (p_nodes p)).

Definition hopCost (request : RouteRequest) (link : LinkEdge) : double :=
  dadd (double_of_Z (link_latency link)) (ddiv (double_of_Z (bytes request)) (link_bandwidth link)).

Definition advance (request : RouteRequest) (current : PartialRoute) (link : LinkEdge)
    (next : MemoryNode) (engine : string) : PartialRoute :=
  mkPartial (p_nodes current ++ [mem_id next]) (p_links current ++ [link_id link])
    (if contains (p_engines current) engine then p_engines current
     else p_engines current ++ [engine])
    (linkIds current ++ [link_id link])
    (dadd (p_cost current) (hopCost request link)).

(** The partial route a link leads to, when the loop body pushes one. *)
Definition expandLink (model : MachineModel) (request : RouteRequest) (dest : string)
    (current : PartialRoute) (link : LinkEdge) : option PartialRoute :=
  match findMemory model (destination link) with
  | None => None
  | Some next =>
    if contains (p_nodes current) (mem_id next) then None
    else advance request current link next <$> legalHop model link next request dest
  end.

Definition expand (model : MachineModel) (request : RouteRequest) (dest : string)
    (current : PartialRoute) : list PartialRoute :=
  omap (expandLink model request dest current) (outgoing model (currentId current)).

Fixpoint routeDramBytes (model : MachineModel) (request : RouteRequest) (dram : Z)
    (ids : list string) : Z :=
  match ids with
  | from :: (to :: _) as rest =>
    let isDram id := match findMemory model id with
                     | Some memory => isDramClass (mem_kind memory)
                     | None => false
                     end in
    routeDramBytes model request (if isDram from || isDram to then u64 (dram + bytes request) else dram)
      rest
  | _ => dram
  end.

Definition completeRoute (model : MachineModel) (request : RouteRequest) (current : PartialRoute) :
    MemoryRoute :=
  mkRoute (p_nodes current) (p_links current) (p_engines current)
    (mkCost (p_cost current) (routeDramBytes model request 0 (p_nodes current)) (bytes request) 0
      dzero (default dzero (utilizationEstimate (p_cost current) model (transferEngineCount model)))).

(** ** The enumeration *)
Record RouteState := mkState {
  work : list PartialRoute;
  routes : list MemoryRoute;
  hopCapPruned : bool;
}.

(** One iteration, after [current] has been popped. *)
Definition routeStep (model : MachineModel) (options : RouteOptions) (request : RouteRequest)
    (dest : string) (current : PartialRoute) (st : RouteState) : RouteState :=
  if bool_decide (currentId current = dest) then
    mkState (work st) (routes st ++ [completeRoute model request current]) (hopCapPruned st)
  else if bool_decide (maxHops options <= Z.of_nat (length (p_links current))) then
    mkState (work st) (routes st)
      (if hasLegalExtension model (currentId current) (p_nodes current) request dest then true
       else hopCapPruned st)
  else
    mkState (work st ++ expand model request dest current) (routes st) (hopCapPruned st).

Fixpoint routeLoop (fuel : nat) (model : MachineModel) (options : RouteOptions)
    (request : RouteRequest) (dest : string) (limit : Z) (st : RouteState) : RouteState :=
  match fuel with
  | O => st
  | S fuel =>
    if bool_decide (Z.of_nat (length (routes st)) < limit) then
      match pop (work st) with
      | None => st
      | Some (current, rest) =>
        routeLoop fuel model options request dest limit
          (routeStep model options request dest current (mkState rest (routes st) (hopCapPruned st)))
      end
    else st
  end.

(** The number of partial routes reachable in [depth] hops over [width] links. *)
Fixpoint exploration (width depth : nat) : nat :=
  match depth with
  | O => 1
  | S depth => 1 + width * exploration width depth
  end.

Definition routeFuel (model : MachineModel) : nat :=
  exploration (length (links model)) (length (memories model)).

Definition startRoute (id : string) : PartialRoute := mkPartial [id] [] [] [] dzero.

(** The checks before the search: the endpoints, or the diagnostic. *)
Definition routeEndpoints (model : MachineModel) (request : RouteRequest) :
    result route_error (MemoryNode * MemoryNode) :=
  fail! BytesNotPositive when bool_decide (bytes request = 0);
  fail! AlignmentNotPositive when bool_decide (req_alignmentBytes request = 0);
  match findMemory model (req_source request), findMemory model (req_destination request) with
  | None, _ => Err (UnknownSourceMemory (req_source request))
  | _, None => Err (UnknownDestinationMemory (req_destination request))
  | Some src, Some dst =>
    fail! (ExecutorCannotSee (default "" (producerExecutor request)) (req_source request)) when
      match producerExecutor request with
      | Some e => negb (isVisible model (req_source request) e)
      | None => false
      end;
    fail! (ExecutorCannotSee (default "" (consumerExecutor request)) (req_destination request)) when
      match consumerExecutor request with
      | Some e => negb (isVisible model (req_destination request) e)
      | None => false
      end;
    Ok (src, dst)
  end.

Definition endpointFacts (request : RouteRequest) (src dst : MemoryNode) :
    result route_error unit :=
  fail! (UnsupportedAlignment (mem_id src)) when
    negb (supportsAlignment src (req_alignmentBytes request));
  fail! (UnsupportedAlignment (mem_id dst)) when
    negb (supportsAlignment dst (req_alignmentBytes request));
  match layoutClass request with
  | None => Ok tt
  | Some layout =>
    fail! (UnsupportedLayout (mem_id src) layout) when negb (memorySupportsLayout src layout);
    fail! (UnsupportedLayout (mem_id dst) layout) when negb (memorySupportsLayout dst layout);
    Ok tt
  end.

Definition effectiveLimit (options : RouteOptions) (limit : Z) : Z := Z.min limit (maxRoutes options).

Definition searchRoutes (model : MachineModel) (options : RouteOptions) (request : RouteRequest)
    (src dst : MemoryNode) (limit : Z) : RouteState :=
  routeLoop (routeFuel model) model options request (mem_id dst) (effectiveLimit options limit)
    (mkState [startRoute (mem_id src)] [] false).

(** The routes or the diagnostic, with what [*truncated] is set to. *)
Definition enumerateRoutes (model : MachineModel) (options : RouteOptions) (request : RouteRequest)
    (limit : Z) : bool * result route_error (list MemoryRoute) :=
  match routeEndpoints model request with
  | Err e => (false, Err e)
  | Ok (src, dst) =>
    if bool_decide (mem_id src = mem_id dst) then
      (false, Ok [mkRoute [mem_id src] [] [] zeroCost])
    else
      match endpointFacts request src dst with
      | Err e => (false, Err e)
      | Ok _ =>
        if bool_decide (effectiveLimit options limit = 0) then (false, Err LimitNotPositive)
        else
          let st := searchRoutes model options request src dst limit in
          (hopCapPruned st || bool_decide (effectiveLimit options limit <= Z.of_nat (length (routes st))),
           if bool_decide (routes st = []) then Err NoRoute else Ok (routes st))
      end
  end.

(** ** Lemmas *)
Lemma pop_none ps : pop ps = None → ps = [].
Proof. destruct ps as [|p ps]; [done|]. cbn. destruct (pop ps) as [[q rest]|]; [|done]. by case_match. Qed.

Lemma pop_perm ps p rest : pop ps = Some (p, rest) → ps ≡ₚ p :: rest.
Proof.
  revert p rest. induction ps as [|x ps IH]; intros p rest; cbn; [done|].
  destruct (pop ps) as [[q rest']|] eqn:Hpop.
  - specialize (IH _ _ eq_refl). case_match; intros [= <- <-]; rewrite IH; [apply perm_swap|done].
  - intros [= <- <-]. by rewrite (pop_none _ Hpop).
Qed.

(** The facts a legal hop rests on. *)
Lemma legalEngine_loop_sound model link engines engine :
  legalEngine_loop model link engines = Some engine →
  engine ∈ engines ∧ ∃ node, findTransferEngine model engine = Some node ∧
    isVisible model (source link) (eng_attachedTo node) = true.
Proof.
  induction engines as [|e engines IH]; cbn; [done|].
  destruct (findTransferEngine model e) as [node|] eqn:Hf.
  - destruct (isVisible _ _ _) eqn:Hv.
    + intros [= <-]. split; [by left|]. eauto.
    + intros [? ?]%IH. split; [by right|done].
  - intros [? ?]%IH. split; [by right|done].
Qed.

Lemma legalHop_sound model link next request dest engine :
  legalHop model link next request dest = Some engine →
  transactionBytes link ≠ 0 ∧ bytes request mod transactionBytes link = 0 ∧
  alignmentBytes next mod req_alignmentBytes request = 0 ∧
  (∀ layout, layoutClass request = Some layout → layout ∈ mem_layouts next) ∧
  (mem_id next ≠ dest → liveOn request next + bytes request <= capacityBytes next) ∧
  engine ∈ link_engines link ∧
  ∃ node, findTransferEngine model engine = Some node ∧
    isVisible model (source link) (eng_attachedTo node) = true.
Proof.
  unfold legalHop. destruct (_ || _) eqn:Ht; [done|].
  apply orb_false_iff in Ht as [Ht1%bool_decide_eq_false Ht2%bool_decide_eq_false].
  destruct (negb (supportsAlignment _ _)) eqn:Ha; [done|].
  apply negb_false_iff, bool_decide_eq_true in Ha.
  destruct (match layoutClass request with Some layout => _ | None => false end) eqn:Hl; [done|].
  destruct (_ && _) eqn:Hc; [done|].
  intros [Hin Hvis]%legalEngine_loop_sound. split_and!; try done.
  - by apply dec_stable.
  - intros layout Hlayout. rewrite Hlayout in Hl. by apply negb_false_iff, contains_true in Hl.
  - intros Hne. rewrite bool_decide_true in Hc by done. cbn in Hc.
    apply bool_decide_eq_false in Hc. lia.
Qed.

Section paths.
Variable model : MachineModel.
Variable options : RouteOptions.
Variable request : RouteRequest.
Variable src dest : string.
Hypothesis src_known : src ∈ mem_id <$> memories model.

(** One legal hop of the topology. *)
Definition HopFrom (p q : PartialRoute) : Prop :=
  ∃ link next engine, link ∈ links model ∧ source link = currentId p ∧
    findMemory model (destination link) = Some next ∧ mem_id next ∉ p_nodes p ∧
    legalHop model link next request dest = Some engine ∧
    q = advance request p link next engine.

(** A legal simple path from the source. *)
Definition LegalPath (p : PartialRoute) : Prop := rtc HopFrom (startRoute src) p.

Lemma expand_spec p q : q ∈ expand model request dest p ↔ HopFrom p q.
Proof.
  unfold expand, outgoing. rewrite list_elem_of_omap. setoid_rewrite sort_by_perm.
  setoid_rewrite list_elem_of_filter. unfold expandLink. split.
  - intros (link & [Hs Hl] & He). destruct (findMemory _ _) as [next|] eqn:Hf; [|done].
    destruct (contains _ _) eqn:Hc; [done|]. apply contains_false in Hc.
    apply fmap_Some_1 in He as (engine & He & ->). by exists link, next, engine.
  - intros (link & next & engine & Hl & Hs & Hf & Hc & He & ->). exists link. split; [done|].
    rewrite Hf, (proj2 (contains_false _ _) Hc), He. done.
Qed.

Lemma hasLegalExtension_loop_true p candidates :
  hasLegalExtension_loop model (currentId p) (p_nodes p) request dest candidates = true ↔
  ∃ link next engine, link ∈ candidates ∧ source link = currentId p ∧
    findMemory model (destination link) = Some next ∧ mem_id next ∉ p_nodes p ∧
    legalHop model link next request dest = Some engine.
Proof.
  induction candidates as [|link candidates IH]; cbn.
  - split; [done|]. by intros (? & ? & ? & []%not_elem_of_nil & _).
  - setoid_rewrite elem_of_cons. case_bool_decide as Hs.
    { rewrite IH. naive_solver. }
    destruct (findMemory model (destination link)) as [next|] eqn:Hf;
      [|rewrite IH; naive_solver].
    destruct (contains (p_nodes p) (mem_id next)) eqn:Hc.
    { apply contains_true in Hc. rewrite IH. naive_solver. }
    apply contains_false in Hc.
    destruct (legalHop model link next request dest) as [engine|] eqn:Hh; [|rewrite IH; naive_solver].
    split; [|done]. intros _. exists link, next, engine. auto.
Qed.

Lemma hasLegalExtension_true p :
  hasLegalExtension model (currentId p) (p_nodes p) request dest = true ↔ ∃ q, HopFrom p q.
Proof.
  unfold hasLegalExtension, HopFrom. rewrite hasLegalExtension_loop_true.
  split; [intros (l & n & e & ?&?&?&?&?); by exists (advance request p l n e), l, n, e|].
  intros (q & l & n & e & ?&?&?&?&?&_). by exists l, n, e.
Qed.

Lemma findMemory_elem id next :
  findMemory model id = Some next → mem_id next = id ∧ next ∈ memories model.
Proof.
  unfold findMemory. intros ([i node] & Hf & ->)%fmap_Some_1. apply findById_some in Hf as [Hi Hid].
  split; [done|]. by eapply list_elem_of_lookup_2.
Qed.

(** The shape of every partial route on the queue. *)
Record PathShape (p : PartialRoute) : Prop := {
  shape_nodup : NoDup (p_nodes p);
  shape_known : ∀ id, id ∈ p_nodes p → id ∈ mem_id <$> memories model;
  shape_length : length (p_nodes p) = S (length (p_links p));
  shape_linkIds : linkIds p = p_links p;
}.

Lemma advance_shape p q : PathShape p → HopFrom p q → PathShape q.
Proof.
  intros [Hnd Hk Hl Hi] (link & next & engine & _ & _ & Hf & Hn & _ & ->).
  apply findMemory_elem in Hf as [_ Hmem]. constructor; cbn.
  - apply NoDup_app. split_and!; [done| |apply NoDup_singleton]. set_solver.
  - intros id [Hid| ->%list_elem_of_singleton]%elem_of_app; [auto|]. by apply list_elem_of_fmap_2.
  - rewrite !length_app, Hl. cbn. lia.
  - by rewrite Hi.
Qed.

Lemma path_shape p : LegalPath p → PathShape p.
Proof.
  intros Hp. unfold LegalPath in Hp. remember (startRoute src) as s eqn:Hs.
  assert (PathShape s) as Hshape.
  { subst. constructor; cbn; [apply NoDup_singleton| |done|done].
    by intros id ->%list_elem_of_singleton. }
  clear Hs. induction Hp as [|p q r Hpq _ IH]; [done|]. by eapply IH, advance_shape.
Qed.

Lemma shape_size p : PathShape p → (length (p_nodes p) <= length (memories model))%nat.
Proof.
  intros [Hnd Hk _ _]. rewrite <- (length_fmap mem_id). apply NoDup_incl_length.
  - by apply NoDup_ListNoDup.
  - intros x Hx%list_elem_of_In. by apply list_elem_of_In, Hk.
Qed.

Lemma path_prefix p q : rtc HopFrom p q → ∃ suffix, p_nodes q = (p_nodes p ++ suffix)%list.
Proof.
  induction 1 as [p|p q r (link & next & engine & _ & _ & _ & _ & _ & ->) _ [suffix IH]].
  - exists []. by rewrite app_nil_r.
  - exists (mem_id next :: suffix). rewrite IH. cbn. by rewrite <- (assoc_L app).
Qed.

Lemma currentId_elem p : PathShape p → currentId p ∈ p_nodes p.
Proof.
  intros [_ _ Hlen _]. unfold currentId.
  destruct (p_nodes p) as [|x l _] using rev_ind; [done|]. rewrite last_snoc. cbn. set_solver.
Qed.

(** A path does not pass through its own end. *)
Lemma path_end_fresh p q r :
  PathShape p → HopFrom p q → rtc HopFrom q r → PathShape r → currentId r ≠ currentId p.
Proof.
  intros Hp Hpq Hqr Hr Heq. pose proof (currentId_elem p Hp) as Hin.
  destruct (path_prefix _ _ Hqr) as [suffix Hn].
  destruct Hpq as (link & next & engine & _ & _ & _ & _ & _ & ->). cbn in Hn.
  assert (currentId r ∈ mem_id next :: suffix) as Hlast.
  { unfold currentId. rewrite Hn, <- (assoc_L app). cbn.
    rewrite last_app_cons. destruct (last (mem_id next :: suffix)) as [x|] eqn:Hl.
    - cbn. by apply last_Some_elem_of in Hl.
    - by apply last_None in Hl. }
  destruct Hr as [Hnd _ _ _]. rewrite Hn, <- (assoc_L app) in Hnd.
  apply NoDup_app in Hnd as (_ & Hdis & _). apply (Hdis (currentId p)); [done|]. by rewrite <- Heq.
Qed.

(** *** The loop *)
Lemma routeLoop_inv (P : RouteState → Prop) fuel limit st :
  (∀ st current rest, P st → Z.of_nat (length (routes st)) < limit →
     work st ≡ₚ current :: rest →
     P (routeStep model options request dest current (mkState rest (routes st) (hopCapPruned st)))) →
  P st → P (routeLoop fuel model options request dest limit st).
Proof.
  intros Hstep. revert st. induction fuel as [|fuel IH]; intros st HP; cbn; [done|].
  case_bool_decide as Hlim; [|done]. destruct (pop (work st)) as [[current rest]|] eqn:Hpop; [|done].
  apply IH, Hstep; [done..|]. by apply pop_perm.
Qed.

(** Everything on the queue is a legal path within the hop cap, everything
    returned is a completed one. *)
Definition Sound (limit : Z) (st : RouteState) : Prop :=
  (∀ p, p ∈ work st → LegalPath p ∧ Z.of_nat (length (p_links p)) <= maxHops options) ∧
  (∀ r, r ∈ routes st → ∃ p, LegalPath p ∧ currentId p = dest ∧
     Z.of_nat (length (p_links p)) <= maxHops options ∧ r = completeRoute model request p) ∧
  Z.of_nat (length (routes st)) <= limit.

Lemma sound_step limit st current rest :
  Sound limit st → Z.of_nat (length (routes st)) < limit → work st ≡ₚ current :: rest →
  Sound limit (routeStep model options request dest current (mkState rest (routes st) (hopCapPruned st))).
Proof.
  intros (Hwork & Hroutes & Hlen) Hlim Hperm. setoid_rewrite Hperm in Hwork.
  destruct (Hwork current) as [Hcur Hhops]; [by left|].
  assert (∀ p, p ∈ rest → LegalPath p ∧ Z.of_nat (length (p_links p)) <= maxHops options) as Hrest
    by (intros; apply Hwork; by right).
  unfold routeStep. case_bool_decide as Hdest; [|case_bool_decide as Hcap]; unfold Sound; cbn.
  - split_and!; [done| |rewrite length_app; cbn; lia].
    intros r [Hr| ->%list_elem_of_singleton]%elem_of_app; [auto|]. eauto.
  - done.
  - split_and!; [|done|done]. intros p [Hp|Hp]%elem_of_app; [auto|].
    apply expand_spec in Hp. split; [by eapply rtc_r|].
    destruct Hp as (link & next & engine & _ & _ & _ & _ & _ & ->). cbn. rewrite length_app. cbn. lia.
Qed.

(** Every legal path to the destination is returned, or still has a prefix on
    the queue, or the hop cap was recorded as the reason it is not. *)
Definition Complete (st : RouteState) : Prop :=
  (∀ p, p ∈ work st → LegalPath p) ∧
  (hopCapPruned st = true ∨ ∀ p, LegalPath p → currentId p = dest →
     completeRoute model request p ∈ routes st ∨ ∃ w, w ∈ work st ∧ rtc HopFrom w p).

Lemma complete_step st current rest :
  Complete st → work st ≡ₚ current :: rest →
  Complete (routeStep model options request dest current (mkState rest (routes st) (hopCapPruned st))).
Proof.
  intros [Hwork Hall] Hperm. setoid_rewrite Hperm in Hwork. setoid_rewrite Hperm in Hall.
  assert (LegalPath current) as Hcur by (apply Hwork; by left).
  assert (∀ p, p ∈ rest → LegalPath p) as Hrest by (intros; apply Hwork; by right).
  assert (∀ p q, HopFrom current q → rtc HopFrom q p → LegalPath p → currentId p = dest →
    currentId current ≠ dest) as Hfresh.
  { intros p q Hq Hqp Hp Hd Heq. eapply (path_end_fresh current q p); [by apply path_shape|done..| |].
    - by apply path_shape.
    - congruence. }
  split.
  { unfold routeStep. repeat case_bool_decide; cbn; [done..|].
    intros p [Hp|Hp]%elem_of_app; [auto|]. apply expand_spec in Hp. by eapply rtc_r. }
  destruct Hall as [Hpr|Hall].
  { left. unfold routeStep. repeat case_bool_decide; cbn; [done| |done]. by case_match. }
  destruct (decide (hasLegalExtension model (currentId current) (p_nodes current) request dest = true ∧
    currentId current ≠ dest ∧ maxHops options <= Z.of_nat (length (p_links current)))) as [(He&Hd&Hc)|Hno].
  { left. unfold routeStep. rewrite bool_decide_false, bool_decide_true by done. cbn. by rewrite He. }
  right. intros p Hp Hd. destruct (Hall p Hp Hd) as [Hin|(w & [->|Hw]%elem_of_cons & Hwp)].
  - left. unfold routeStep. repeat case_bool_decide; cbn; [set_solver|done..].
  - inversion Hwp as [|? q ? Hq Hqp]; subst.
    + left. unfold routeStep. rewrite bool_decide_true by done. cbn. set_solver.
    + right. exists q. split; [|done].
      assert (currentId current ≠ dest) as Hne by by eapply Hfresh.
      unfold routeStep. rewrite bool_decide_false by done. rewrite bool_decide_false.
      * cbn. apply elem_of_app. right. by apply expand_spec.
      * intros Hc. destruct Hno. split_and!; [|done..]. apply hasLegalExtension_true. eauto.
  - right. exists w. split; [|done]. unfold routeStep.
    repeat case_bool_decide; cbn; [done..|]. apply elem_of_app. by left.
Qed.

(** *** The fuel *)
Definition weight (p : PartialRoute) : nat :=
  exploration (length (links model)) (length (memories model) - length (p_nodes p)).

Lemma exploration_pos width depth : (1 <= exploration width depth)%nat.
Proof. destruct depth; cbn; lia. Qed.

Lemma sum_list_bound {A} (f : A → nat) xs n :
  (∀ x, x ∈ xs → (f x <= n)%nat) → (sum_list_with f xs <= length xs * n)%nat.
Proof.
  induction xs as [|x xs IH]; csimpl; intros H; [lia|].
  assert (f x <= n)%nat by (apply H; by left).
  assert (sum_list_with f xs <= length xs * n)%nat by (apply IH; intros; apply H; by right). lia.
Qed.

Lemma omap_length {A B} (f : A → option B) xs : (length (omap f xs) <= length xs)%nat.
Proof. induction xs as [|x xs IH]; csimpl; [lia|]. destruct (f x); cbn; lia. Qed.

Lemma expand_weight p :
  LegalPath p → (sum_list_with weight (expand model request dest p) < weight p)%nat.
Proof.
  intros Hp. pose proof (path_shape p Hp) as Hshape.
  assert (length (expand model request dest p) <= length (links model))%nat as Hlen.
  { unfold expand, outgoing. etransitivity; [apply omap_length|].
    rewrite sort_by_perm. apply length_filter. }
  assert (∀ q, q ∈ expand model request dest p →
    length (p_nodes q) = S (length (p_nodes p)) ∧
    (S (length (p_nodes p)) <= length (memories model))%nat) as Hgrow.
  { intros q Hq%expand_spec. pose proof (advance_shape _ _ Hshape Hq) as Hqs%shape_size.
    destruct Hq as (l & n & e & _ & _ & _ & _ & _ & ->). cbn in *. rewrite length_app in *. cbn in *. lia. }
  destruct (expand model request dest p) as [|q qs] eqn:He; [apply exploration_pos|].
  destruct (Hgrow q) as [_ Hroom]; [by left|].
  unfold weight at 2. destruct (length (memories model) - length (p_nodes p))%nat as [|d] eqn:Hd; [lia|].
  cbn [exploration]. eapply Nat.le_lt_trans;
    [apply (sum_list_bound weight _ (exploration (length (links model)) d))|].
  - intros x Hx. unfold weight. destruct (Hgrow x Hx) as [-> _].
    replace (length (memories model) - S (length (p_nodes p)))%nat with d by lia. done.
  - cbn in *. nia.
Qed.

Lemma routeLoop_done fuel limit st :
  (∀ p, p ∈ work st → LegalPath p) → (sum_list_with weight (work st) <= fuel)%nat →
  let st' := routeLoop fuel model options request dest limit st in
  work st' = [] ∨ limit <= Z.of_nat (length (routes st')).
Proof.
  revert st. induction fuel as [|fuel IH]; intros st Hpath Hfuel; cbn.
  - left. destruct (work st) as [|p ps] eqn:Hw; [done|].
    cbn in Hfuel. pose proof (exploration_pos (length (links model))
      (length (memories model) - length (p_nodes p))). unfold weight in Hfuel. lia.
  - case_bool_decide as Hlim; [|right; lia].
    destruct (pop (work st)) as [[current rest]|] eqn:Hpop; [|left; by apply pop_none].
    apply pop_perm in Hpop. setoid_rewrite Hpop in Hpath. rewrite Hpop in Hfuel. cbn in Hfuel.
    assert (LegalPath current) as Hcur by (apply Hpath; by left).
    pose proof (expand_weight current Hcur) as Hexp.
    assert (1 <= weight current)%nat by apply exploration_pos.
    apply IH; unfold routeStep; repeat case_bool_decide; cbn.
    + intros; apply Hpath; by right.
    + intros; apply Hpath; by right.
    + intros p [Hp|Hp]%elem_of_app; [apply Hpath; by right|]. apply expand_spec in Hp. by eapply rtc_r.
    + lia.
    + lia.
    + rewrite sum_list_with_app. lia.
Qed.
End paths.

(** ** The theorems *)

(** An engine of the link that exists and whose executor sees the link's
    source. *)
Definition CanCarry (model : MachineModel) (link : LinkEdge) (engine : string) : Prop :=
  ∃ node, findTransferEngine model engine = Some node ∧
    isVisible model (source link) (eng_attachedTo node) = true.

Lemma legalEngine_loop_exact model link engines engine :
  legalEngine_loop model link engines = Some engine ↔
  ∃ pre post, engines = (pre ++ engine :: post)%list ∧ CanCarry model link engine ∧
    ∀ other, other ∈ pre → ¬ CanCarry model link other.
Proof.
  induction engines as [|e engines IH]; cbn.
  { split; [done|]. by intros ([|??] & ? & ? & _). }
  assert (CanCarry model link e ↔ match findTransferEngine model e with
    | Some node => isVisible model (source link) (eng_attachedTo node) | None => false end = true) as He.
  { unfold CanCarry. destruct (findTransferEngine model e) as [node|]; naive_solver. }
  transitivity ((CanCarry model link e ∧ e = engine) ∨
    ((¬ CanCarry model link e) ∧ legalEngine_loop model link engines = Some engine)).
  { rewrite He. destruct (findTransferEngine model e) as [node|]; [|naive_solver].
    destruct (isVisible model (source link) (eng_attachedTo node)); naive_solver. }
  rewrite IH. split.
  - intros [[Hc ->]|(Hn & pre & post & -> & Hc & Hpre)].
    + exists [], engines. split_and!; [done..|]. by intros ? ?%not_elem_of_nil.
    + exists (e :: pre), post. split_and!; [done..|]. intros x [->|Hx]%elem_of_cons; auto.
  - intros ([|x pre] & post & Heq & Hc & Hpre); simplify_list_eq; [by left|].
    right. split; [apply Hpre; by left|]. exists pre, post. split_and!; [done..|].
    intros y Hy. apply Hpre. by right.
Qed.

(** [legalHop] returns an engine exactly when every modelled fact holds: the
    value tiles into whole transactions, the next memory supports its alignment
    and layout, an intermediate has room on top of what is live there (the
    destination is exempt), and the engine is the first of the link's that
    exists and reaches the link's source. *)
Theorem legalHop_exact model link next request dest engine :
  legalHop model link next request dest = Some engine ↔
  transactionBytes link ≠ 0 ∧ bytes request mod transactionBytes link = 0 ∧
  alignmentBytes next mod req_alignmentBytes request = 0 ∧
  (∀ layout, layoutClass request = Some layout → layout ∈ mem_layouts next) ∧
  (mem_id next ≠ dest → liveOn request next + bytes request <= capacityBytes next) ∧
  ∃ pre post, link_engines link = (pre ++ engine :: post)%list ∧ CanCarry model link engine ∧
    ∀ other, other ∈ pre → ¬ CanCarry model link other.
Proof.
  rewrite <- legalEngine_loop_exact. fold (legalEngine model link). unfold legalHop.
  destruct (bool_decide (transactionBytes link = 0)) eqn:H0.
  { apply bool_decide_eq_true in H0. naive_solver. }
  destruct (bool_decide (bytes request mod transactionBytes link ≠ 0)) eqn:H1.
  { apply bool_decide_eq_true in H1. naive_solver. }
  apply bool_decide_eq_false in H0, H1. apply dec_stable in H1. cbn.
  unfold supportsAlignment. case_bool_decide as Ha; cbn; [|naive_solver].
  destruct (match layoutClass request with
            | Some layout => negb (memorySupportsLayout next layout) | None => false end) eqn:Hl.
  { destruct (layoutClass request) as [layout|]; [|done].
    apply negb_true_iff, contains_false in Hl. naive_solver. }
  assert (∀ layout, layoutClass request = Some layout → layout ∈ mem_layouts next) as Hlayout.
  { intros layout Heq. rewrite Heq in Hl. by apply negb_false_iff, contains_true in Hl. }
  repeat case_bool_decide; cbn; naive_solver lia.
Qed.

Section enumeration.
Variable model : MachineModel.
Variable options : RouteOptions.
Variable request : RouteRequest.
Hypothesis maxHops_nonneg : 0 <= maxHops options.

(** The search ran: both endpoints exist, differ and satisfy the request. *)
Definition Searched (src dst : MemoryNode) : Prop :=
  routeEndpoints model request = Ok (src, dst) ∧ mem_id src ≠ mem_id dst ∧
  endpointFacts request src dst = Ok tt.

Lemma routeEndpoints_source src dst :
  routeEndpoints model request = Ok (src, dst) →
  findMemory model (req_source request) = Some src ∧
  findMemory model (req_destination request) = Some dst.
Proof.
  unfold routeEndpoints. rewrite !fail_then_ok. intros (_ & _ & H).
  destruct (findMemory model (req_source request)) as [s|]; [|done].
  destruct (findMemory model (req_destination request)) as [d|]; [|done].
  rewrite !fail_then_ok in H. by destruct H as (_ & _ & [= -> ->]).
Qed.

Lemma searched_source_known src dst : Searched src dst → mem_id src ∈ mem_id <$> memories model.
Proof.
  intros ([Hs _]%routeEndpoints_source & _). apply findMemory_elem in Hs as [_ Hs].
  by apply list_elem_of_fmap_2.
Qed.

Lemma enumerateRoutes_searched src dst limit :
  Searched src dst → effectiveLimit options limit ≠ 0 →
  enumerateRoutes model options request limit =
    let st := searchRoutes model options request src dst limit in
    (hopCapPruned st || bool_decide (effectiveLimit options limit <= Z.of_nat (length (routes st))),
     if bool_decide (routes st = []) then Err NoRoute else Ok (routes st)).
Proof.
  intros (He & Hne & Hf) Hl. unfold enumerateRoutes.
  by rewrite He, bool_decide_false, Hf, bool_decide_false by done.
Qed.

Lemma search_finished src dst limit :
  Searched src dst →
  let st := searchRoutes model options request src dst limit in
  work st = [] ∨ effectiveLimit options limit <= Z.of_nat (length (routes st)).
Proof.
  intros Hs. unfold searchRoutes. apply (routeLoop_done _ _ _ (mem_id src)).
  - by eapply searched_source_known.
  - cbn. intros p ->%list_elem_of_singleton. unfold LegalPath. reflexivity.
  - cbn. unfold weight. cbn. unfold routeFuel.
    assert (∀ w d, exploration w (d - 1) <= exploration w d)%nat as Hmono.
    { intros w d. destruct d as [|d]; [done|]. cbn. rewrite Nat.sub_0_r.
      induction d as [|d IH]; cbn in *; nia. }
    specialize (Hmono (length (links model)) (length (memories model))). lia.
Qed.

(** Termination: within its fuel the enumeration always stops by its own
    loop condition, the queue is empty or the route limit is reached. *)
Theorem searchRoutes_terminates src dst limit :
  Searched src dst →
  let st := searchRoutes model options request src dst limit in
  work st = [] ∨ effectiveLimit options limit <= Z.of_nat (length (routes st)).
Proof. apply search_finished. Qed.

Lemma routes_sound src dst limit truncated rs :
  Searched src dst → 0 <= effectiveLimit options limit →
  enumerateRoutes model options request limit = (truncated, Ok rs) →
  rs ≠ [] ∧ Z.of_nat (length rs) <= effectiveLimit options limit ∧
  ∀ r, r ∈ rs → ∃ p, LegalPath model request (mem_id src) (mem_id dst) p ∧
    currentId p = mem_id dst ∧ NoDup (nodes r) ∧
    length (nodes r) = S (length (route_links r)) ∧
    Z.of_nat (length (route_links r)) <= maxHops options ∧ r = completeRoute model request p.
Proof.
  intros Hs Hpos Henum. pose proof (searched_source_known _ _ Hs) as Hknown.
  destruct (decide (effectiveLimit options limit = 0)) as [H0|H0].
  { destruct Hs as (He & Hne & Hf). unfold enumerateRoutes in Henum.
    rewrite He, bool_decide_false, Hf, bool_decide_true in Henum by done. done. }
  rewrite (enumerateRoutes_searched src dst) in Henum by done. cbn zeta in Henum.
  assert (Sound model options request (mem_id src) (mem_id dst) (effectiveLimit options limit)
    (searchRoutes model options request src dst limit)) as (_ & Hr & Hlen).
  { unfold searchRoutes. apply routeLoop_inv.
    - intros st current rest HS Hl Hp. by apply sound_step.
    - unfold Sound; cbn. split_and!; [|by intros ? ?%not_elem_of_nil|lia].
      intros p ->%list_elem_of_singleton. split; [unfold LegalPath; reflexivity|cbn; lia]. }
  injection Henum as _ Henum. case_bool_decide as Hempty; [done|]. injection Henum as <-.
  split_and!; [done..|]. intros r Hin. destruct (Hr r Hin) as (p & Hp & Hd & Hh & ->).
  destruct (path_shape model request _ (mem_id dst) Hknown p Hp) as [Hnd _ Hl _].
  exists p. by split_and!.
Qed.

(** C8: Soundness: every returned route is a legal simple path from the source
    to the destination within the hop cap, rendered with its costs; there is at
    least one and there are at most as many as the effective limit. *)
Theorem enumerateRoutes_sound src dst limit truncated rs :
  Searched src dst → 0 <= effectiveLimit options limit →
  enumerateRoutes model options request limit = (truncated, Ok rs) →
  rs ≠ [] ∧ Z.of_nat (length rs) <= effectiveLimit options limit ∧
  ∀ r, r ∈ rs → ∃ p, LegalPath model request (mem_id src) (mem_id dst) p ∧
    currentId p = mem_id dst ∧ NoDup (nodes r) ∧
    length (nodes r) = S (length (route_links r)) ∧
    Z.of_nat (length (route_links r)) <= maxHops options ∧ r = completeRoute model request p.
Proof. apply routes_sound. Qed.

Lemma routes_complete src dst limit res p :
  Searched src dst → effectiveLimit options limit ≠ 0 →
  enumerateRoutes model options request limit = (false, res) →
  LegalPath model request (mem_id src) (mem_id dst) p → currentId p = mem_id dst →
  ∃ rs, res = Ok rs ∧ completeRoute model request p ∈ rs.
Proof.
  intros Hs H0 Henum Hp Hd. pose proof (searched_source_known _ _ Hs) as Hknown.
  rewrite (enumerateRoutes_searched src dst) in Henum by done. cbn zeta in Henum.
  injection Henum as Htrunc Hres. apply orb_false_iff in Htrunc as [Hpr Hlim%bool_decide_eq_false].
  assert (Complete model request (mem_id src) (mem_id dst)
    (searchRoutes model options request src dst limit)) as [_ Hall].
  { unfold searchRoutes. apply routeLoop_inv.
    - intros st current rest HS _ Hperm. by apply complete_step.
    - split; cbn.
      + intros q ->%list_elem_of_singleton. unfold LegalPath. reflexivity.
      + right. intros q Hq _. right. eexists. split; [by apply list_elem_of_singleton|done]. }
  destruct (search_finished src dst limit Hs) as [Hwork|]; [|done].
  destruct Hall as [|Hall]; [congruence|].
  destruct (Hall p Hp Hd) as [Hin|(w & Hw & _)].
  - case_bool_decide as He; [rewrite He in Hin; by apply not_elem_of_nil in Hin|]. eauto.
  - rewrite Hwork in Hw. by apply not_elem_of_nil in Hw.
Qed.

(** Completeness: an enumeration that does not set [truncated] lists every
    legal simple path from the source to the destination, of any length, and
    reports "no route" only when there is none. *)
Theorem enumerateRoutes_complete src dst limit res p :
  Searched src dst → effectiveLimit options limit ≠ 0 →
  enumerateRoutes model options request limit = (false, res) →
  LegalPath model request (mem_id src) (mem_id dst) p → currentId p = mem_id dst →
  ∃ rs, res = Ok rs ∧ completeRoute model request p ∈ rs.
Proof. apply routes_complete. Qed.
End enumeration.

(** ** A concrete topology

    Two ways from DRAM to the register file: staged through SRAM, or direct over
    a slow link. *)
Definition toy_memory (id kind : string) (capacity : Z) : MemoryNode :=
  mkMemory id kind "group.0" capacity 64 ["row"] None dzero 0 None.
Definition toy_link (id from to : string) (latency : Z) (engines : list string) : LinkEdge :=
  mkLink id from to (double_of_Z 16) latency 64 engines 1 Unidirectional.
Definition toy_machine : MachineModel :=
  mkMachine 2 0 "toy" "" None 1 (mkSync 8 0) [sample_group]
    [toy_memory "dram.0" "dram" 65536; toy_memory "sram.0" "sram" 4096; toy_memory "rf.0" "rf" 1024]
    [] [mkEngine "dma.0" "dma" ["transfer"] "group.0" 1 1 0; mkEngine "dma.1" "dma" ["transfer"] "group.0" 1 1 0]
    [toy_link "l2" "dram.0" "rf.0" 500 ["dma.0"]; toy_link "l0" "dram.0" "sram.0" 20 ["dma.0"];
     toy_link "l1" "sram.0" "rf.0" 4 ["none"; "dma.1"]] 0.
Definition toy_request : RouteRequest :=
  mkRequest "dram.0" "rf.0" 256 64 None None (Some "row") 0 ∅.
Definition toy_options : RouteOptions := mkOptions 8 4.

Example toy_routes :
  (λ r, (route_links r, route_engines r)) <$>
    match enumerateRoutes toy_machine toy_options toy_request 8 with
    | (_, Ok rs) => rs
    | _ => []
    end = [(["l0"; "l1"], ["dma.0"; "dma.1"]); (["l2"], ["dma.0"])].
Proof. vm_compute. reflexivity. Qed.

Example toy_not_truncated : (enumerateRoutes toy_machine toy_options toy_request 8).1 = false.
Proof. vm_compute. reflexivity. Qed.

(** With a hop cap of one, the staged route is cut and truncation is reported. *)
Example toy_hop_cap : (enumerateRoutes toy_machine (mkOptions 8 1) toy_request 8).1 = true.
Proof. vm_compute. reflexivity. Qed.

Lemma toy_searched :
  Searched toy_machine toy_request (toy_memory "dram.0" "dram" 65536) (toy_memory "rf.0" "rf" 1024).
Proof. split_and!; [vm_compute; reflexivity|done|vm_compute; reflexivity]. Defined.

Lemma searchRoutes_terminates_witness :
  let st := searchRoutes toy_machine toy_options toy_request (toy_memory "dram.0" "dram" 65536)
              (toy_memory "rf.0" "rf" 1024) 8 in
  work st = [] ∨ effectiveLimit toy_options 8 <= Z.of_nat (length (routes st)).
Proof. apply searchRoutes_terminates, toy_searched. Defined.

Lemma enumerateRoutes_sound_witness :
  ∃ rs, enumerateRoutes toy_machine toy_options toy_request 8 = (false, Ok rs) ∧
    rs ≠ [] ∧ Z.of_nat (length rs) <= 8.
Proof.
  destruct (enumerateRoutes toy_machine toy_options toy_request 8) as [t [rs|e]] eqn:Hrun;
    [|vm_compute in Hrun; discriminate].
  destruct (enumerateRoutes_sound toy_machine toy_options toy_request ltac:(done)
    (toy_memory "dram.0" "dram" 65536) (toy_memory "rf.0" "rf" 1024) 8 t rs toy_searched
    ltac:(done) Hrun) as (Hne & Hlen & _).
  exists rs. split_and!; [|done|done].
  pose proof toy_not_truncated as Ht. rewrite Hrun in Ht. cbn in Ht. by subst.
Defined.

(** The direct path is legal, so the untruncated enumeration lists it. *)
Definition toy_direct : PartialRoute :=
  advance toy_request (startRoute "dram.0") (toy_link "l2" "dram.0" "rf.0" 500 ["dma.0"])
    (toy_memory "rf.0" "rf" 1024) "dma.0".

Lemma toy_direct_legal : LegalPath toy_machine toy_request "dram.0" "rf.0" toy_direct.
Proof.
  eapply rtc_once. eexists _, _, _. split_and!; [..|reflexivity].
  - by left.
  - done.
  - vm_compute. reflexivity.
  - cbn. intros [=]%list_elem_of_singleton.
  - vm_compute. reflexivity.
Defined.

Lemma enumerateRoutes_complete_witness :
  ∃ rs, (enumerateRoutes toy_machine toy_options toy_request 8).2 = Ok rs ∧
    completeRoute toy_machine toy_request toy_direct ∈ rs.
Proof.
  apply (enumerateRoutes_complete toy_machine toy_options toy_request
    (toy_memory "dram.0" "dram" 65536) (toy_memory "rf.0" "rf" 1024) 8).
  - apply toy_searched.
  - done.
  - rewrite <- toy_not_truncated. by destruct (enumerateRoutes _ _ _ _).
  - apply toy_direct_legal.
  - reflexivity.
Defined.

(** The header documents [legalTransferEngine] as the first engine of the first
    link joining the two memories "in machine declaration order"; the code takes
    the links in id order. *)
Lemma legalTransferEngine_id_order :
  legalTransferEngine
    (mkMachine 2 0 "toy" "" None 1 (mkSync 8 0) [sample_group]
      [toy_memory "dram.0" "dram" 65536; toy_memory "sram.0" "sram" 4096] []
      [mkEngine "dma.0" "dma" ["transfer"] "group.0" 1 1 0; mkEngine "dma.1" "dma" ["transfer"] "group.0" 1 1 0]
      [toy_link "b" "dram.0" "sram.0" 20 ["dma.0"]; toy_link "a" "dram.0" "sram.0" 20 ["dma.1"]] 0)
    "dram.0" "sram.0" = Some "dma.1".
Proof. vm_compute. reflexivity. Qed.
