(* ===== verification/EventSchedule.v ===== *)
(** The shared resource scheduler: include/LLK/Mapping/CostEvent.h (the event
    data), include/LLK/Mapping/EventSchedule.h and lib/Mapping/EventSchedule.cpp.

    [scheduleNormalizedEvents] is a list scheduler: the lowest ready event id
    goes first and starts when its dependencies have finished and a slot of
    every pool it claims is free.  The theorems say that what it schedules is a
    schedule (dependencies precede, pools are never over-subscribed, durations
    are the charges), that an acyclic stream is scheduled completely, that the
    prediction never exceeds the sequential sum, and that
    [validateEventResources] accepts exactly the streams that are well formed.

    Event ids are indices ([nat]); the ready heap is a list from which the least
    id is taken; [remaining] counts dependencies (a counter is positive whenever
    the code decrements it).  [cast_out_of_range] is what the conversion of a
    double that does not fit [uint64_t] yields, which C++ leaves undefined. *)
From S2P Require Import Prelude Float MachineModel CostModel.
Open Scope string_scope.
Open Scope Z_scope.

(** ** Events *)
Inductive CostEventKind := Compute | TransferHop | Transform | Synchronization | Capacity.
Inductive StorageAccess := Read | Write.
Inductive PlanEventSource := Accumulation | Snapshot.

#[export] Instance CostEventKind_eq_dec : EqDecision CostEventKind.
Proof. solve_decision. Defined.
#[export] Instance StorageAccess_eq_dec : EqDecision StorageAccess.
Proof. solve_decision. Defined.

Definition kKinds : list (CostEventKind * string) :=
  [(Compute, "compute"); (TransferHop, "transfer_hop"); (Transform, "transform");
   (Synchronization, "synchronization"); (Capacity, "capacity")].

Definition stringifyCostEventKind (kind : CostEventKind) : string :=
  match list_find (λ info, info.1 = kind) kKinds with
  | Some (_, info) => info.2
  | None => ""
  end.

Definition symbolizeCostEventKind (text : string) : option CostEventKind :=
  match list_find (λ info, info.2 = text) kKinds with
  | Some (_, info) => Some info.1
  | None => None
  end.

Record CostEvent := mkEvent { ev_kind : CostEventKind; resource : string; ev_cost : Cost }.

Record StorageUse := mkUse { use_allocation : Z; use_occurrence : Z; use_access : StorageAccess }.

Record PlanCostEvent := mkPlanEvent {
  event : CostEvent;
  workItems : Z;
  ev_bytes : Z;
  sourceBytes : Z;
  destinationBytes : Z;
  fillElements : Z;
  deps : list nat;
  owner : string;
  srcMemory : string;
  dstMemory : string;
  sourceNode : string;
  ev_occurrence : Z;
  planStep : option Z;
  connectionId : option Z;
  hopIndex : Z;
  storageUses : list StorageUse;
}.

Record PlanEventDAG := mkDAG { events : list PlanCostEvent; dag_source : PlanEventSource }.

Definition stringifyPlanEventSource (src : PlanEventSource) : string :=
  match src with
  | Accumulation => "accumulation"
  | Snapshot => "snapshot"
  end.

Definition stringifyStorageAccess (access : StorageAccess) : string :=
  match access with
  | Read => "read"
  | Write => "write"
  end.

(** [llvm::sort] and [std::unique]: the distinct ids in order. *)
Definition sortUnique (ids : list nat) : list nat := merge_sort Nat.le (remove_dups ids).

Definition makePlanCostEvent (kind : CostEventKind) (res : string) (latency : double)
    (items bytes : Z) (dependencies : list nat) : PlanCostEvent :=
  mkPlanEvent (mkEvent kind res (mkCost latency 0 bytes 0 dzero dzero)) items bytes 0 0 0
    (sortUnique dependencies) "" "" "" "" 0 None None 0 [].

(** ** Pools *)
Section schedule.
Variable cast_out_of_range : double → Z.

(** [static_cast<uint64_t>(std::ceil(x))]. *)
Definition eventCycles (e : PlanCostEvent) : Z :=
  let x := latencyCycles (ev_cost (event e)) in
  match ceil_Z x with
  | Some c => if decide (in_u64 c) then c else cast_out_of_range x
  | None => cast_out_of_range x
  end.

(** A pool's key and its number of slots. *)
Definition poolFor (e : PlanCostEvent) (machine : MachineModel) : string * Z :=
  let res := resource (event e) in
  match ev_kind (event e) with
  | Compute | Transform =>
    match findCompute machine res with
    | Some engine =>
      ((if bool_decide (cmp_kind engine = "matrix_engine") then "matrix/" else "vector/") +:+ res,
       Z.max 1 (cmp_concurrency engine))
    | None => ("vector/" +:+ res, 1)
    end
  | TransferHop =>
    ("dma/" +:+ res, Z.max 1 (from_option count 1 (findTransferEngine machine res)))
  | Synchronization | Capacity => ("sync/" +:+ res, 1)
  end.

Definition ownerSlots (machine : MachineModel) (name : string) : Z :=
  match findExecutor machine name with
  | Some executor => Z.max 1 (ex_concurrency executor)
  | None => Z.max 1 (ownerCount machine name)
  end.

(** [ResourcePool]: when each slot frees up. *)
Definition newPool (slots : Z) : list Z := replicate (Z.to_nat (Z.max 1 slots)) 0.

Fixpoint earliestFree (available : list Z) : Z :=
  match available with
  | [] => 0
  | [t] => t
  | t :: available => Z.min t (earliestFree available)
  end.

(** [std::min_element]: the first slot that frees first. *)
Definition earliestSlot (available : list Z) : nat :=
  match list_find (λ t, t = earliestFree available) available with
  | Some (slot, _) => slot
  | None => O
  end.

Definition acquire (available : list Z) (start duration : Z) : list Z :=
  <[earliestSlot available := u64 (start + duration)]> available.

(** ** The scheduler *)
Record ScheduledEvent := mkScheduled { sch_id : nat; sch_start : Z; sch_finish : Z }.

Record EventScheduleResult := mkResult {
  predictedCycles : Z;
  criticalId : nat;
  sequentialCycles : Z;
  entries : list ScheduledEvent;
}.

Record ScheduleState := mkSchedule {
  start : list Z;
  finish : list Z;
  remaining : list nat;
  ready : list nat;
  pools : gmap string (list Z);
}.

(** The dependencies the scheduler honours: not itself, not out of range. *)
Definition realDeps (n id : nat) (e : PlanCostEvent) : list nat :=
  filter (λ dep, dep ≠ id ∧ (dep < n)%nat) (deps e).

(** [dependents[dep]], filled in id order, once per listed edge. *)
Definition dependentsOf (es : list PlanCostEvent) (dep : nat) : list nat :=
  concat (imap (λ id e, (λ _, id) <$> filter (λ d, d = dep) (realDeps (length es) id e)) es).

(** The least ready id: the top of the heap. *)
Fixpoint popLeast (heap : list nat) : option (nat * list nat) :=
  match heap with
  | [] => None
  | id :: heap =>
    match popLeast heap with
    | None => Some (id, [])
    | Some (least, rest) =>
      if (least <? id)%nat then Some (least, id :: rest) else Some (id, least :: rest)
    end
  end.

(** [if (--remaining[dependent] == 0) ready.push(dependent)]. *)
Definition release (state : list nat * list nat) (dependent : nat) : list nat * list nat :=
  let '(remaining, ready) := state in
  let left := pred (default O (remaining !! dependent)) in
  (<[dependent := left]> remaining,
   if bool_decide (left = O) then (ready ++ [dependent])%list else ready).

(** What an event claims: its resource pool, then its owner pool when the
    owners are parallel to the events and it names one. *)
Definition claims (machine : MachineModel) (n : nat) (owners : list string) (id : nat)
    (e : PlanCostEvent) : list (string * Z) :=
  poolFor e machine ::
  match owners !! id with
  | Some name =>
    if bool_decide (length owners = n) && negb (str_empty name)
    then [("owner/" +:+ name, ownerSlots machine name)] else []
  | None => []
  end.

(** [pools.try_emplace(key, slots)]. *)
Definition emplace (pools : gmap string (list Z)) (claim : string * Z) : gmap string (list Z) :=
  match pools !! claim.1 with
  | Some _ => pools
  | None => <[claim.1 := newPool claim.2]> pools
  end.

Definition poolOf (pools : gmap string (list Z)) (claim : string * Z) : list Z :=
  default [] (pools !! claim.1).

(** [max(begin, pool.earliestFree(), ownerPool->earliestFree())]. *)
Definition candidate (pools : gmap string (list Z)) (cs : list (string * Z)) (begin : Z) : Z :=
  foldl (λ c claim, Z.max c (earliestFree (poolOf pools claim))) begin cs.

(** The [for (;;)] that raises [begin] until every claim is free. *)
Fixpoint beginLoop (fuel : nat) (pools : gmap string (list Z)) (cs : list (string * Z))
    (begin : Z) : option Z :=
  match fuel with
  | O => None
  | S fuel =>
    let next := candidate pools cs begin in
    if bool_decide (next = begin) then Some begin else beginLoop fuel pools cs next
  end.

Definition acquireAll (pools : gmap string (list Z)) (cs : list (string * Z)) (begin cycles : Z) :
    gmap string (list Z) :=
  foldl (λ ps claim, <[claim.1 := acquire (poolOf ps claim) begin cycles]> ps) pools cs.

Definition earliestStart (n id : nat) (e : PlanCostEvent) (finish : list Z) : Z :=
  foldl (λ m dep, Z.max m (default 0 (finish !! dep))) 0 (realDeps n id e).

(** One iteration of the loop for the event [id], already off the heap. *)
Definition scheduleOne (es : list PlanCostEvent) (machine : MachineModel) (owners : list string)
    (id : nat) (e : PlanCostEvent) (st : ScheduleState) : ScheduleState :=
  let n := length es in
  let cs := claims machine n owners id e in
  let pools1 := foldl emplace (pools st) cs in
  let earliest := earliestStart n id e (finish st) in
  let begin := default earliest (beginLoop 2 pools1 cs earliest) in
  let cycles := eventCycles e in
  let '(remaining', ready') := foldl release (remaining st, ready st) (dependentsOf es id) in
  mkSchedule (<[id := begin]> (start st)) (<[id := u64 (begin + cycles)]> (finish st))
    remaining' ready' (acquireAll pools1 cs begin cycles).

Fixpoint scheduleLoop (fuel : nat) (es : list PlanCostEvent) (machine : MachineModel)
    (owners : list string) (st : ScheduleState) : ScheduleState :=
  match fuel, popLeast (ready st) with
  | S fuel, Some (id, rest) =>
    match es !! id with
    | Some e =>
      scheduleLoop fuel es machine owners (scheduleOne es machine owners id e
        (mkSchedule (start st) (finish st) (remaining st) rest (pools st)))
    | None => st
    end
  | _, _ => st
  end.

Definition initialRemaining (es : list PlanCostEvent) : list nat :=
  imap (λ id e, length (realDeps (length es) id e)) es.

Definition initialReady (remaining : list nat) : list nat :=
  filter (λ id, remaining !! id = Some O) (seq 0 (length remaining)).

Definition runSchedule (es : list PlanCostEvent) (machine : MachineModel) (owners : list string) :
    ScheduleState :=
  let n := length es in
  scheduleLoop n es machine owners
    (mkSchedule (replicate n 0) (replicate n 0) (initialRemaining es)
      (initialReady (initialRemaining es)) ∅).

(** The final loop: the latest finish, the first event that attains it, and the
    sequential sum. *)
Definition accumulate (finish : list Z) (acc : Z * nat * Z) (p : nat * PlanCostEvent) :
    Z * nat * Z :=
  let '(predicted, critical, sequential) := acc in
  let f := default 0 (finish !! p.1) in
  (if bool_decide (f > predicted) then f else predicted,
   if bool_decide (f > predicted) then p.1 else critical,
   u64 (sequential + eventCycles p.2)).

Definition scheduleNormalizedEvents (es : list PlanCostEvent) (machine : MachineModel)
    (owners : list string) : EventScheduleResult :=
  let st := runSchedule es machine owners in
  let '(predicted, critical, sequential) :=
    foldl (accumulate (finish st)) (0, O, 0) (imap pair es) in
  mkResult predicted (if bool_decide (predicted = 0) then O else critical) sequential
    (imap (λ id _, mkScheduled id (default 0 (start st !! id)) (default 0 (finish st !! id))) es).

(** ** Traffic and the plan's cost *)
Definition kindOf (machine : MachineModel) (name : string) : string :=
  match findMemory machine name with
  | Some node => if str_empty (mem_kind node) then name else mem_kind node
  | None => name
  end.

Definition dramTrafficBytes (es : list PlanCostEvent) (machine : MachineModel) : Z :=
  foldl (λ total e,
    let source := if bool_decide (sourceBytes e ≠ 0) then sourceBytes e else ev_bytes e in
    let dest := if bool_decide (destinationBytes e ≠ 0) then destinationBytes e else ev_bytes e in
    let total := if negb (str_empty (srcMemory e)) && bool_decide (kindOf machine (srcMemory e) = "dram")
                 then u64 (total + source) else total in
    if negb (str_empty (dstMemory e)) && bool_decide (kindOf machine (dstMemory e) = "dram")
    then u64 (total + dest) else total) 0 es.

Definition busyCycles (kind : CostEventKind) (es : list PlanCostEvent) : Z :=
  foldl (λ busy e, if bool_decide (ev_kind (event e) = kind) then u64 (busy + eventCycles e) else busy)
    0 es.

Definition schedulePlanEvents (dag : PlanEventDAG) (machine : MachineModel) : Cost :=
  let es := events dag in
  let schedule := scheduleNormalizedEvents es machine (owner <$> es) in
  mkCost (double_of_Z (predictedCycles schedule)) (dramTrafficBytes es machine)
    (foldl (λ total e, u64 (total + ev_bytes e)) 0 es) 0
    (default dzero (utilizationEstimate (double_of_Z (busyCycles Compute es)) machine
       (workerThreads machine)))
    (default dzero (utilizationEstimate (double_of_Z (busyCycles TransferHop es)) machine
       (transferEngineCount machine))).
End schedule.

(** ** Validation *)
Inductive event_error :=
| UnknownComputeOf (id : nat) (res : string)
| ZeroComputeConcurrency (id : nat) (res : string)
| UnknownEngineOf (id : nat) (res : string)
| ZeroEngineCount (id : nat) (res : string)
| SelfDependency (id : nat)
| DependencyOutOfRange (id dep n : nat)
| RepeatedDependency (id dep : nat)
| DependencyCycle (n : nat).

Definition checkResource (machine : MachineModel) (id : nat) (e : PlanCostEvent) :
    result event_error unit :=
  let res := resource (event e) in
  match ev_kind (event e) with
  | Compute | Transform =>
    match findCompute machine res with
    | None => Err (UnknownComputeOf id res)
    | Some node => fail_if (bool_decide (cmp_concurrency node = 0)) (ZeroComputeConcurrency id res)
    end
  | TransferHop =>
    match findTransferEngine machine res with
    | None => Err (UnknownEngineOf id res)
    | Some node => fail_if (bool_decide (count node = 0)) (ZeroEngineCount id res)
    end
  | Synchronization | Capacity => Ok tt
  end.

(** The [index]-th dependency, against those before it. *)
Definition checkDependency (n id : nat) (e : PlanCostEvent) (index dep : nat) :
    result event_error unit :=
  fail! (SelfDependency id) when bool_decide (dep = id);
  fail! (DependencyOutOfRange id dep n) when (n <=? dep)%nat;
  fail_if (contains (take index (deps e)) dep) (RepeatedDependency id dep).

Definition checkEvent (n : nat) (machine : MachineModel) (id : nat) (e : PlanCostEvent) :
    result event_error unit :=
  _ ← checkResource machine id e;
  for_each_from 0 (checkDependency n id e) (deps e).

(** [ready.back()] and [ready.pop_back()]. *)
Definition popBack (ready : list nat) : option (nat * list nat) :=
  match last ready with
  | Some id => Some (id, take (pred (length ready)) ready)
  | None => None
  end.

(** Kahn's loop; the result counts the events visited. *)
Fixpoint visitLoop (fuel : nat) (es : list PlanCostEvent) (indegree ready : list nat)
    (visited : nat) : nat :=
  match fuel, popBack ready with
  | S fuel, Some (id, rest) =>
    let '(indegree', ready') := foldl release (indegree, rest) (dependentsOf es id) in
    visitLoop fuel es indegree' ready' (S visited)
  | _, _ => visited
  end.

(** The in-degrees count every listed edge; the checks before have made sure
    that each is a real one, so they are [initialRemaining]. *)
Definition validateEventResources (dag : PlanEventDAG) (machine : MachineModel) :
    result event_error unit :=
  let es := events dag in
  let n := length es in
  _ ← for_each_from 0 (checkEvent n machine) es;
  fail_if (bool_decide
    (visitLoop n es (initialRemaining es) (initialReady (initialRemaining es)) O ≠ n))
    (DependencyCycle n).

(** ** Topological order

    Both loops are Kahn's algorithm with different choices from the ready set.
    [Kahn remaining ready done] is their common invariant: [done] is what has
    been taken, in order. *)
Definition occ (x : nat) (xs : list nat) : nat := length (filter (λ y, y = x) xs).

Lemma occ_cons x y xs : occ x (y :: xs) = ((if decide (y = x) then 1 else 0) + occ x xs)%nat.
Proof. unfold occ. rewrite filter_cons. by case_decide. Qed.

Lemma occ_app x xs ys : occ x (xs ++ ys) = (occ x xs + occ x ys)%nat.
Proof. unfold occ. by rewrite filter_app, length_app. Qed.

Lemma occ_zero x xs : occ x xs = O ↔ x ∉ xs.
Proof.
  unfold occ. rewrite length_zero_iff_nil. split.
  - intros Hnil Hx. apply (not_elem_of_nil x). rewrite <- Hnil. by apply list_elem_of_filter.
  - intros Hx. destruct (filter (λ y, y = x) xs) as [|z zs] eqn:Hf; [done|].
    assert (z ∈ filter (λ y, y = x) xs) as Hz by (rewrite Hf; by left).
    apply list_elem_of_filter in Hz as [-> Hz]. done.
Qed.

Lemma occ_elem x xs : occ x xs ≠ O ↔ x ∈ xs.
Proof. rewrite occ_zero. split; [apply dec_stable|tauto]. Qed.

Lemma occ_const x id (ys : list nat) :
  occ x ((λ _, id) <$> ys) = if decide (id = x) then length ys else O.
Proof.
  induction ys as [|y ys IH]; csimpl; [by case_decide|].
  rewrite occ_cons, IH. by case_decide.
Qed.

Lemma dependents_occ_from (h : nat → PlanCostEvent → list nat) k es x :
  occ x (concat (imap (λ i e, (λ _, (k + i)%nat) <$> h (k + i)%nat e) es)) =
  if decide (x < k)%nat then O else from_option (λ e, length (h x e)) O (es !! (x - k)%nat).
Proof.
  revert k. induction es as [|e es IH]; intros k; csimpl.
  { by case_decide. }
  rewrite occ_app, Nat.add_0_r, occ_const.
  rewrite (imap_ext _ (λ i e, (λ _, (S k + i)%nat) <$> h (S k + i)%nat e)).
  2:{ intros i e' _. cbn. by rewrite Nat.add_succ_r. }
  rewrite IH. destruct (decide (k = x)) as [->|Hne].
  - rewrite Nat.sub_diag. rewrite (decide_False (P := (x < x)%nat)) by lia.
    rewrite (decide_True (P := (x < S x)%nat)) by lia. cbn. lia.
  - case_decide; case_decide; try lia.
    by replace (x - k)%nat with (S (x - S k)) by lia.
Qed.

Section kahn.
Variable es : list PlanCostEvent.
Local Abbreviation n := (length es).

(** The honoured dependencies of an id. *)
Definition depsOf (id : nat) : list nat := from_option (realDeps n id) [] (es !! id).

Lemma dependentsOf_occ x d : occ x (dependentsOf es d) = occ d (depsOf x).
Proof.
  unfold dependentsOf. pose proof (dependents_occ_from
    (λ id e, filter (λ y, y = d) (realDeps n id e)) 0 es x) as Hocc.
  rewrite decide_False in Hocc by lia. rewrite Nat.sub_0_r in Hocc. cbn in Hocc.
  rewrite Hocc. unfold depsOf. by destruct (es !! x).
Qed.

Lemma depsOf_real x d : d ∈ depsOf x → d ≠ x ∧ (d < n)%nat ∧ (x < n)%nat.
Proof.
  unfold depsOf. destruct (es !! x) as [e|] eqn:He; cbn; [|by intros ?%not_elem_of_nil].
  apply lookup_lt_Some in He. unfold realDeps. rewrite list_elem_of_filter. tauto.
Qed.

Lemma release_all remaining ready ds remaining' ready' :
  foldl release (remaining, ready) ds = (remaining', ready') →
  (∀ x, x ∈ ds → ∃ r, remaining !! x = Some r ∧ (occ x ds <= r)%nat) →
  length remaining' = length remaining ∧
  (∀ x, remaining' !! x = (λ r, r - occ x ds)%nat <$> remaining !! x) ∧
  ∃ new, ready' = (ready ++ new)%list ∧ NoDup new ∧
    ∀ x, x ∈ new ↔ x ∈ ds ∧ remaining !! x = Some (occ x ds).
Proof.
  revert remaining ready. induction ds as [|d ds IH]; intros remaining ready; cbn [foldl].
  - intros [= <- <-] _. split_and!; [done| |].
    + intros x. cbn. destruct (remaining !! x); cbn; [f_equal; lia|done].
    + exists []. rewrite app_nil_r. split_and!; [done|constructor|].
      intros x. split; [by intros ?%not_elem_of_nil|by intros [?%not_elem_of_nil _]].
  - intros Hrun Hocc. destruct (Hocc d) as (r & Hr & Hle); [by left|].
    rewrite occ_cons, decide_True in Hle by done.
    cbn [release] in Hrun. rewrite Hr in Hrun. cbn [from_option id] in Hrun.
    assert (Hlook : ∀ x, <[d:=pred r]> remaining !! x =
      if decide (d = x) then Some (pred r) else remaining !! x).
    { intros x. destruct (decide (d = x)) as [<-|Hx];
        [apply list_lookup_insert_eq; by eapply lookup_lt_Some|].
      by apply list_lookup_insert_ne. }
    destruct (IH _ _ Hrun) as (Hlen & Hrem & new & Hready & Hnd & Hnew).
    { intros x Hx. rewrite Hlook. destruct (Hocc x) as (rx & Hrx & Hlex); [by right|].
      rewrite occ_cons in Hlex. clear Hrun. case_decide; [subst|eauto].
      exists (pred r). split; [done|]. simplify_eq. lia. }
    clear Hrun. split_and!; [by rewrite Hlen, length_insert| |].
    + intros x. rewrite Hrem, Hlook, occ_cons. destruct (decide (d = x)) as [<-|]; [|done].
      rewrite Hr. cbn. f_equal. lia.
    + exists ((if bool_decide (pred r = O) then [d] else []) ++ new)%list.
      assert (pred r = O → d ∉ ds) as Hlast by (intros; apply occ_zero; lia).
      split_and!.
      * rewrite Hready. case_bool_decide as Hz; [by rewrite <- (assoc_L app)|done].
      * case_bool_decide as Hz; [|done]. apply NoDup_cons. split; [|done].
        intros [Hd _]%Hnew. by apply Hlast.
      * intros x. rewrite elem_of_app, Hnew, Hlook, occ_cons, elem_of_cons.
        clear Hready. destruct (decide (d = x)) as [<-|Hx]; case_bool_decide as Hz;
          rewrite ?list_elem_of_singleton, ?Hr.
        -- specialize (Hlast Hz). apply occ_zero in Hlast as Hn. rewrite Hn.
           split; [intros _; split; [by left|f_equal; lia]|by left].
        -- split.
           ++ intros [?%not_elem_of_nil|[? [= ?]]]; [done|]. split; [auto|f_equal; lia].
           ++ intros [_ [= Heq]]. right. split; [|f_equal; lia].
              apply dec_stable. intros Hd%occ_zero. lia.
        -- split; [intros [->|[? ?]]; [done|auto]|]. intros [[->|?] ?]; [done|auto].
        -- split; [intros [?%not_elem_of_nil|[? ?]]; [done|auto]|].
           intros [[->|?] ?]; [done|auto].
Qed.

(** The dependencies of [x] not yet in [done]. *)
Definition pending (don : list nat) (x : nat) : list nat := filter (λ d, d ∉ don) (depsOf x).

Record Kahn (remaining ready don : list nat) : Prop := {
  kahn_length : length remaining = n;
  kahn_nodup : NoDup (don ++ ready);
  kahn_lt : ∀ x, x ∈ don ∨ x ∈ ready → (x < n)%nat;
  kahn_remaining : ∀ x, (x < n)%nat → remaining !! x = Some (length (pending don x));
  kahn_zero : ∀ x, (x < n)%nat → x ∈ don ∨ x ∈ ready ↔ pending don x = [];
  kahn_order : ∀ pre x post, don = (pre ++ x :: post)%list → ∀ d, d ∈ depsOf x → d ∈ pre;
}.

Lemma pending_snoc don x id : id ∉ don →
  length (pending don x) = (length (pending (don ++ [id]) x) + occ id (depsOf x))%nat.
Proof.
  intros Hid. unfold pending. induction (depsOf x) as [|d ds IH]; [done|].
  rewrite !filter_cons, occ_cons.
  destruct (decide (d = id)) as [->|Hne].
  - rewrite decide_True by done. rewrite decide_False by set_solver. cbn. lia.
  - destruct (decide (d ∉ don)) as [Hd|Hd].
    + rewrite decide_True by set_solver. cbn. lia.
    + rewrite decide_False by set_solver. cbn. lia.
Qed.

Lemma kahn_initial : Kahn (initialRemaining es) (initialReady (initialRemaining es)) [].
Proof.
  assert (length (initialRemaining es) = n) as Hlen by apply length_imap.
  assert (∀ x, pending [] x = depsOf x) as Hpend.
  { intros x. unfold pending.
    induction (depsOf x) as [|d ds IH]; [done|]. rewrite filter_cons, decide_True, IH; [done|].
    apply not_elem_of_nil. }
  assert (∀ x, (x < n)%nat → initialRemaining es !! x = Some (length (depsOf x))) as Hrem.
  { intros x [e He]%lookup_lt_is_Some_2. unfold initialRemaining, depsOf. by rewrite list_lookup_imap, He. }
  assert (∀ x, x ∈ initialReady (initialRemaining es) ↔ (x < n)%nat ∧ depsOf x = []) as Hready.
  { intros x. unfold initialReady. rewrite list_elem_of_filter, elem_of_seq, Hlen. split.
    - intros [Hx [_ Hlt]]. split; [lia|]. rewrite Hrem in Hx by lia. injection Hx. apply length_zero_iff_nil.
    - intros [Hlt Hx]. rewrite Hrem, Hx by done. split; [done|lia]. }
  constructor.
  - done.
  - cbn. apply NoDup_filter, NoDup_seq.
  - intros x [?%not_elem_of_nil|Hx%Hready]; [done|tauto].
  - intros x Hx. by rewrite Hrem, Hpend.
  - intros x Hx. rewrite Hready, Hpend. split; [intros [?%not_elem_of_nil|?]; tauto|auto].
  - by intros [|] ? ? ?.
Qed.

Lemma kahn_step remaining ready don id rest remaining' ready' :
  Kahn remaining ready don → ready ≡ₚ id :: rest →
  foldl release (remaining, rest) (dependentsOf es id) = (remaining', ready') →
  Kahn remaining' ready' (don ++ [id]).
Proof.
  intros [Hlen Hnd Hlt Hrem Hzero Horder] Hperm Hrun.
  rewrite Hperm in Hnd. setoid_rewrite Hperm in Hlt. setoid_rewrite Hperm in Hzero.
  assert (id ∉ don ∧ id ∉ rest) as [Hid Hidr].
  { apply NoDup_app in Hnd as (_ & Hdis & [? _]%NoDup_cons). set_solver. }
  assert (id < n)%nat as Hidn by (apply Hlt; set_solver).
  assert (pending don id = []) as Hidz by (apply Hzero; [done|set_solver]).
  destruct (release_all _ _ _ _ _ Hrun) as (Hlen' & Hrem' & new & -> & Hndn & Hnew).
  { intros x Hx. assert (x < n)%nat as Hxn.
    { apply occ_elem in Hx. rewrite dependentsOf_occ in Hx. apply occ_elem in Hx.
      by apply depsOf_real in Hx as (_ & _ & ?). }
    exists (length (pending don x)). split; [by apply Hrem|].
    rewrite dependentsOf_occ. pose proof (pending_snoc don x id Hid). lia. }
  assert (∀ x, (x < n)%nat → length (pending don x) =
    (length (pending (don ++ [id]) x) + occ x (dependentsOf es id))%nat) as Hpend.
  { intros x _. rewrite dependentsOf_occ. by apply pending_snoc. }
  assert (∀ x, x ∈ new → (x < n)%nat ∧ pending (don ++ [id]) x = [] ∧ pending don x ≠ []) as Hfresh.
  { intros x [Hx Hr]%Hnew. assert (x < n)%nat as Hxn.
    { apply lookup_lt_Some in Hr. by rewrite Hlen in Hr. }
    rewrite Hrem in Hr by done. injection Hr as Hr. pose proof (Hpend x Hxn).
    assert (occ x (dependentsOf es id) ≠ O) by by apply occ_elem.
    split_and!; [done|apply length_zero_iff_nil; lia|intros Hn; rewrite Hn in Hr; cbn in Hr; lia]. }
  constructor.
  - by rewrite Hlen'.
  - assert (NoDup ((don ++ id :: rest) ++ new)) as Hall.
    { apply NoDup_app. split_and!; [done| |done]. intros x Hx Hxn.
      destruct (Hfresh x Hxn) as (Hlx & _ & Hne). apply Hne, Hzero; [done|]. set_solver. }
    rewrite <- !(assoc_L app) in *. done.
  - intros x Hx. destruct (decide (x ∈ new)) as [Hn|Hn]; [by apply Hfresh|]. apply Hlt. set_solver.
  - intros x Hx. rewrite Hrem', Hrem by done. cbn. f_equal. pose proof (Hpend x Hx). lia.
  - intros x Hx. split.
    + intros Hin. destruct (decide (x ∈ new)) as [Hn|Hn]; [by apply Hfresh|].
      assert (pending don x = []) as Hz by (apply Hzero; [done|set_solver]).
      pose proof (Hpend x Hx) as Hp. rewrite Hz in Hp. cbn in Hp. apply length_zero_iff_nil. lia.
    + intros Hz. destruct (decide (pending don x = [])) as [Hp|Hp].
      * apply Hzero in Hp; [|done]. set_solver.
      * right. apply elem_of_app. right. apply Hnew.
        pose proof (Hpend x Hx) as Hl. rewrite Hz in Hl. cbn in Hl. split.
        -- apply occ_elem. intros Ho. apply Hp, length_zero_iff_nil. lia.
        -- rewrite Hrem by done. by f_equal.
  - intros pre x post Heq d Hd.
    destruct post as [|y post _] using rev_ind.
    + apply app_inj_tail in Heq as [-> ->]. apply dec_stable. intros Hn.
      apply (not_elem_of_nil d). rewrite <- Hidz. by apply list_elem_of_filter.
    + rewrite app_comm_cons, (assoc_L app) in Heq. apply app_inj_tail in Heq as [-> _].
      by eapply Horder.
Qed.

(** *** Completion *)
Definition Acyclic : Prop := ∃ rank : nat → nat, ∀ x d, d ∈ depsOf x → (rank d < rank x)%nat.

Lemma kahn_size remaining ready don : Kahn remaining ready don → (length don + length ready <= n)%nat.
Proof.
  intros [_ Hnd Hlt _ _ _]. rewrite <- length_app, <- (length_seq n 0). apply NoDup_incl_length.
  - by apply NoDup_ListNoDup.
  - intros x Hx%list_elem_of_In. apply in_seq. rewrite elem_of_app in Hx. specialize (Hlt x Hx). lia.
Qed.

Lemma kahn_full remaining don : Kahn remaining [] don → length don = n ↔ ∀ x, (x < n)%nat → x ∈ don.
Proof.
  intros HK. pose proof (kahn_size _ _ _ HK) as Hsize. destruct HK as [_ Hnd Hlt _ _ _].
  rewrite app_nil_r in Hnd. cbn in Hsize. split.
  - intros Hlen x Hx. apply dec_stable. intros Hn.
    assert (length (x :: don) <= length (seq 0 n))%nat as Hle; [|rewrite length_seq in Hle; cbn in Hle; lia].
    apply NoDup_incl_length; [apply NoDup_ListNoDup; by constructor|].
    intros y Hy%list_elem_of_In. apply in_seq. apply elem_of_cons in Hy as [->|Hy]; [lia|].
    specialize (Hlt y (or_introl Hy)). lia.
  - intros Hall. assert (length (seq 0 n) <= length don)%nat as Hle; [|rewrite length_seq in Hle; lia].
    apply NoDup_incl_length; [apply NoDup_ListNoDup, NoDup_seq|].
    intros y Hy%in_seq. apply list_elem_of_In, Hall. lia.
Qed.

(** With nothing left ready, everything has been taken exactly when the
    dependencies are acyclic. *)
Lemma kahn_acyclic remaining don : Kahn remaining [] don → (length don = n ↔ Acyclic).
Proof.
  intros HK. rewrite (kahn_full _ _ HK). destruct HK as [_ Hnd Hlt _ Hzero Horder]. split.
  - intros Hall. rewrite app_nil_r in Hnd.
    exists (λ x, from_option fst O (list_find (λ y, y = x) don)). intros x d Hd.
    destruct (depsOf_real x d Hd) as (_ & _ & Hx).
    destruct (list_elem_of_split don x (Hall x Hx)) as (pre & post & Heq).
    pose proof (Horder pre x post Heq d Hd) as Hpre.
    assert (x ∉ pre) as Hxp.
    { rewrite Heq in Hnd. apply NoDup_app in Hnd as (_ & Hdis & _). intros Hin.
      apply (Hdis x Hin). by left. }
    destruct (list_find_elem_of (λ y, y = d) pre d Hpre eq_refl) as [[i y] Hi].
    apply list_find_Some in Hi as Hi'. destruct Hi' as (Hli & _ & _). apply lookup_lt_Some in Hli.
    rewrite Heq, (list_find_app_l _ _ _ _ _ Hi), list_find_app_r.
    2:{ apply list_find_None, Forall_forall. intros y' Hy ->. done. }
    cbn. rewrite decide_True by done. cbn. lia.
  - intros [rank Hrank] x. remember (rank x) as r eqn:Hr. revert x Hr.
    induction (lt_wf r) as [r _ IH]. intros x -> Hx.
    assert (x ∈ don ∨ x ∈ []) as [?|?%not_elem_of_nil]; [|done..].
    apply Hzero; [done|]. destruct (pending don x) as [|d ds] eqn:Hp; [done|].
    assert (d ∈ pending don x) as Hd by (rewrite Hp; by left).
    apply list_elem_of_filter in Hd as [Hn Hd]. destruct Hn.
    apply (IH (rank d)); [by apply Hrank|done|]. by apply depsOf_real in Hd as (_ & ? & _).
Qed.

End kahn.

Lemma popBack_none ready : popBack ready = None → ready = [].
Proof. unfold popBack. destruct (last ready) eqn:Hl; [done|]. intros _. by apply last_None in Hl. Qed.

Lemma popBack_perm ready id rest : popBack ready = Some (id, rest) → ready ≡ₚ id :: rest.
Proof.
  unfold popBack. destruct (last ready) as [x|] eqn:Hl; [|done]. intros [= <- <-].
  apply last_Some in Hl as [l ->]. rewrite length_app. cbn.
  replace (pred (length l + 1)) with (length l) by lia. rewrite take_app_length. by rewrite Permutation_app_comm.
Qed.

Lemma popLeast_none ready : popLeast ready = None → ready = [].
Proof.
  destruct ready as [|x ready]; [done|]. cbn. destruct (popLeast ready) as [[y rest]|]; [|done].
  by case_match.
Qed.

Lemma popLeast_perm ready id rest : popLeast ready = Some (id, rest) → ready ≡ₚ id :: rest.
Proof.
  revert id rest. induction ready as [|x ready IH]; intros id rest; cbn; [done|].
  destruct (popLeast ready) as [[y rest']|] eqn:Hpop.
  - specialize (IH _ _ eq_refl). case_match; intros [= <- <-]; rewrite IH; [apply perm_swap|done].
  - intros [= <- <-]. by rewrite (popLeast_none _ Hpop).
Qed.

(** The least id is the one taken. *)
Lemma popLeast_least ready id rest x :
  popLeast ready = Some (id, rest) → x ∈ ready → (id <= x)%nat.
Proof.
  revert id rest. induction ready as [|y ready IH]; intros id rest; cbn -[Nat.ltb]; [done|].
  destruct (popLeast ready) as [[z rest']|] eqn:Hpop.
  - specialize (IH _ _ eq_refl). destruct (z <? y)%nat eqn:Hzy; intros [= <- <-] [->|Hx]%elem_of_cons.
    + apply Nat.ltb_lt in Hzy. lia.
    + auto.
    + done.
    + apply Nat.ltb_ge in Hzy. specialize (IH Hx). lia.
  - intros [= <- <-] [->|Hx]%elem_of_cons; [done|]. rewrite (popLeast_none _ Hpop) in Hx.
    by apply not_elem_of_nil in Hx.
Qed.

Lemma kahn_ready_empty es remaining ready don :
  Kahn es remaining ready don → (length es <= length don)%nat → ready = [].
Proof. intros HK%kahn_size Hl. apply length_zero_iff_nil. lia. Qed.

Lemma visitLoop_spec es fuel remaining ready don :
  Kahn es remaining ready don → (length es <= fuel + length don)%nat →
  ∃ remaining' don', Kahn es remaining' [] don' ∧
    visitLoop fuel es remaining ready (length don) = length don'.
Proof.
  revert remaining ready don. induction fuel as [|fuel IH]; intros remaining ready don HK Hf; cbn.
  { exists remaining, don. split; [|done]. by rewrite <- (kahn_ready_empty _ _ _ _ HK) at 1. }
  destruct (popBack ready) as [[id rest]|] eqn:Hpop.
  - apply popBack_perm in Hpop.
    destruct (foldl release (remaining, rest) (dependentsOf es id)) as [rem' rdy'] eqn:Hrel.
    pose proof (kahn_step _ _ _ _ _ _ _ _ HK Hpop Hrel) as HK'.
    destruct (IH _ _ _ HK') as (rem'' & don' & ? & Hv); [rewrite length_app; cbn; lia|].
    exists rem'', don'. split; [done|]. rewrite <- Hv, length_app. cbn. by rewrite Nat.add_1_r.
  - apply popBack_none in Hpop as ->. eauto.
Qed.

(** ** Validation is exact *)
Definition ResourceOk (machine : MachineModel) (e : PlanCostEvent) : Prop :=
  match ev_kind (event e) with
  | Compute | Transform => ∃ node, findCompute machine (resource (event e)) = Some node ∧
      cmp_concurrency node ≠ 0
  | TransferHop => ∃ node, findTransferEngine machine (resource (event e)) = Some node ∧
      count node ≠ 0
  | Synchronization | Capacity => True
  end.

Record StreamOk (dag : PlanEventDAG) (machine : MachineModel) : Prop := {
  stream_resources : ∀ e, e ∈ events dag → ResourceOk machine e;
  stream_deps : ∀ id e, events dag !! id = Some e →
    NoDup (deps e) ∧ (id ∉ deps e) ∧ ∀ d, d ∈ deps e → (d < length (events dag))%nat;
  stream_acyclic : ∃ rank : nat → nat, ∀ id e d,
    events dag !! id = Some e → d ∈ deps e → (rank d < rank id)%nat;
}.

Lemma checkResource_ok machine id e : checkResource machine id e = Ok tt ↔ ResourceOk machine e.
Proof.
  unfold checkResource, ResourceOk. destruct (ev_kind (event e)); try done.
  - destruct (findCompute _ _) as [node|]; [|naive_solver].
    rewrite fail_if_ok, bool_decide_eq_false. naive_solver.
  - destruct (findTransferEngine _ _) as [node|]; [|naive_solver].
    rewrite fail_if_ok, bool_decide_eq_false. naive_solver.
  - destruct (findCompute _ _) as [node|]; [|naive_solver].
    rewrite fail_if_ok, bool_decide_eq_false. naive_solver.
Qed.

Lemma NoDup_take_iff {A} (xs : list A) :
  NoDup xs ↔ ∀ k x, xs !! k = Some x → x ∉ take k xs.
Proof.
  split.
  - intros Hnd k x Hk (j & Hj & Hlt)%elem_of_take.
    pose proof (NoDup_lookup _ _ _ _ Hnd Hj Hk). lia.
  - intros H. apply NoDup_alt. intros i j x Hi Hj.
    destruct (lt_eq_lt_dec i j) as [[Hlt| ->]|Hlt]; [exfalso|done|exfalso].
    + apply (H j x Hj), elem_of_take. eauto.
    + apply (H i x Hi), elem_of_take. eauto.
Qed.

Lemma checkDependency_ok n id e k d :
  checkDependency n id e k d = Ok tt ↔ d ≠ id ∧ (d < n)%nat ∧ d ∉ take k (deps e).
Proof.
  unfold checkDependency. by rewrite !fail_then_ok, fail_if_ok, bool_decide_eq_false, Nat.leb_gt, contains_false.
Qed.

Lemma checkDependencies_ok n id e :
  for_each_from 0 (checkDependency n id e) (deps e) = Ok tt ↔
  NoDup (deps e) ∧ (id ∉ deps e) ∧ ∀ d, d ∈ deps e → (d < n)%nat.
Proof.
  rewrite for_each_from_ok, NoDup_take_iff. setoid_rewrite checkDependency_ok. cbn. split.
  - intros H. split_and!.
    + intros k x Hk. by apply H.
    + intros [k Hk]%list_elem_of_lookup_1. by apply H in Hk as [? _].
    + intros d [k Hk]%list_elem_of_lookup_1. by apply H in Hk as (_ & ? & _).
  - intros (H1 & H2 & H3) k x Hk. pose proof (list_elem_of_lookup_2 _ _ _ Hk).
    split_and!; [by intros ->|by apply H3|by apply H1].
Qed.

Lemma realDeps_all n id e :
  id ∉ deps e → (∀ d, d ∈ deps e → (d < n)%nat) → realDeps n id e = deps e.
Proof.
  intros Hself Hlt. unfold realDeps. revert Hself Hlt.
  induction (deps e) as [|d ds IH]; [done|]. intros Hself Hlt.
  rewrite filter_cons, decide_True, IH; [done|set_solver..|].
  split; [set_solver|]. apply Hlt. by left.
Qed.

Lemma validate_ok dag machine :
  validateEventResources dag machine = Ok tt ↔ StreamOk dag machine.
Proof.
  unfold validateEventResources. rewrite seq_ok, fail_if_ok, bool_decide_eq_false.
  destruct (visitLoop_spec (events dag) (length (events dag)) _ _ [] (kahn_initial (events dag)))
    as (rem' & don & HK & Hv); [cbn; lia|]. cbn in Hv. rewrite Hv.
  assert (¬ length don ≠ length (events dag) ↔ length don = length (events dag)) as -> by lia.
  rewrite (kahn_acyclic _ _ _ HK), for_each_from_ok. unfold checkEvent.
  setoid_rewrite seq_ok. setoid_rewrite checkResource_ok. setoid_rewrite checkDependencies_ok. cbn.
  assert (∀ id e, events dag !! id = Some e → id ∉ deps e →
    (∀ d, d ∈ deps e → (d < length (events dag))%nat) → depsOf (events dag) id = deps e) as Hdeps.
  { intros id e He Hs Hl. unfold depsOf. rewrite He. cbn. by apply realDeps_all. }
  split.
  - intros [Hev [rank Hrank]]. constructor.
    + intros e [id He]%list_elem_of_lookup_1. by apply Hev in He as [? _].
    + intros id e He. by apply Hev in He as [_ ?].
    + exists rank. intros id e d He Hd. destruct (Hev id e He) as (_ & _ & Hs & Hl).
      apply Hrank. by rewrite (Hdeps id e).
  - intros [Hres Hd [rank Hrank]]. split.
    + intros id e He. split; [|by apply Hd]. by eapply Hres, list_elem_of_lookup_2.
    + exists rank. intros x d Hx. pose proof (depsOf_real _ _ _ Hx) as (_ & _ & Hxn).
      apply lookup_lt_is_Some_2 in Hxn as [e He]. destruct (Hd x e He) as (_ & Hs & Hl).
      rewrite (Hdeps x e) in Hx by done. eauto.
Qed.

(** [validateEventResources] accepts exactly the well-formed streams: every
    event names a modelled resource with at least one slot, its dependencies are
    distinct other events of the stream, and the dependencies are acyclic. *)
Theorem validateEventResources_exact dag machine :
  validateEventResources dag machine = Ok tt ↔ StreamOk dag machine.
Proof. apply validate_ok. Qed.

(** ** Pools *)
Lemma earliestFree_elem av : av ≠ [] → earliestFree av ∈ av.
Proof.
  induction av as [|t [|u av] IH]; [done|intros _; by left|]. intros _.
  change (earliestFree (t :: u :: av)) with (Z.min t (earliestFree (u :: av))).
  destruct (Z.min_spec t (earliestFree (u :: av))) as [[_ ->]|[_ ->]]; [by left|].
  right. by apply IH.
Qed.

Lemma earliestFree_le av t : t ∈ av → earliestFree av <= t.
Proof.
  induction av as [|a [|b av] IH]; [by intros ?%not_elem_of_nil|by intros ->%list_elem_of_singleton|].
  change (earliestFree (a :: b :: av)) with (Z.min a (earliestFree (b :: av))).
  intros [->|Ht]%elem_of_cons; [lia|]. specialize (IH Ht). lia.
Qed.

Lemma earliestSlot_lookup av : av ≠ [] → av !! earliestSlot av = Some (earliestFree av).
Proof.
  intros Hne%earliestFree_elem. unfold earliestSlot.
  destruct (list_find_elem_of (λ t, t = earliestFree av) av _ Hne eq_refl) as [[i t] Hf].
  rewrite Hf. apply list_find_Some in Hf as (Hi & -> & _). done.
Qed.

Lemma newPool_spec slots : newPool slots ≠ [] ∧ (∀ t, t ∈ newPool slots → t = 0) ∧
  length (newPool slots) = Z.to_nat (Z.max 1 slots).
Proof.
  unfold newPool. rewrite length_replicate. split_and!; [|by intros t [-> _]%elem_of_replicate|done].
  destruct (Z.to_nat (Z.max 1 slots)) eqn:Hn; [lia|done].
Qed.

(** Adding the claimed pools keeps the ones there are. *)
Lemma emplace_all pools cs k :
  foldl emplace pools cs !! k =
  match pools !! k with
  | Some av => Some av
  | None => newPool ∘ snd <$> (snd <$> list_find (λ c, c.1 = k) cs)
  end.
Proof.
  revert pools. induction cs as [|c cs IH]; intros pools; cbn [foldl].
  - by destruct (pools !! k).
  - rewrite IH. unfold emplace. cbn [list_find].
    destruct (decide (c.1 = k)) as [<-|Hne].
    + destruct (pools !! c.1) eqn:Hc; [by rewrite ?Hc|]. by rewrite lookup_insert_eq.
    + destruct (pools !! c.1) eqn:Hc; [|rewrite lookup_insert_ne by done];
        (destruct (pools !! k); [done|]); by destruct (list_find _ cs) as [[? ?]|].
Qed.

Lemma acquireAll_lookup pools cs begin cycles k :
  NoDup cs.*1 →
  acquireAll pools cs begin cycles !! k =
  if decide (k ∈ cs.*1) then Some (acquire (default [] (pools !! k)) begin cycles) else pools !! k.
Proof.
  unfold acquireAll. revert pools. induction cs as [|c cs IH]; intros pools Hnd; cbn [foldl fmap list_fmap].
  - rewrite decide_False; [done|]. apply not_elem_of_nil.
  - inversion Hnd as [|? ? Hc Hnd']; subst. rewrite IH by done.
    destruct (decide (k ∈ cs.*1)) as [Hk|Hk].
    + rewrite (decide_True (P := k ∈ c.1 :: cs.*1)) by by right.
      rewrite lookup_insert_ne by (intros Heq; apply Hc; by rewrite Heq). done.
    + destruct (decide (c.1 = k)) as [<-|Hne].
      * rewrite decide_True by by left. by rewrite lookup_insert_eq.
      * rewrite decide_False by (intros [?|?]%elem_of_cons; [congruence|done]).
        by rewrite lookup_insert_ne.
Qed.

Lemma foldl_max_lub {A} (f : A → Z) xs b m :
  foldl (λ c x, Z.max c (f x)) b xs <= m ↔ b <= m ∧ ∀ x, x ∈ xs → f x <= m.
Proof.
  revert b. induction xs as [|x xs IH]; intros b; cbn [foldl].
  - split; [|tauto]. intros ?. split; [done|]. by intros ? ?%not_elem_of_nil.
  - rewrite IH. setoid_rewrite elem_of_cons. split.
    + intros [Hb Hxs]. split; [lia|]. intros y [->|Hy]; [lia|auto].
    + intros [Hb Hxs]. split; [|auto]. specialize (Hxs x (or_introl eq_refl)). lia.
Qed.

(** The candidate is the least upper bound of the start and the free times, so
    the loop that raises it is at its fixpoint after one round. *)
Lemma candidate_lub pools cs b m :
  candidate pools cs b <= m ↔ b <= m ∧ ∀ c, c ∈ cs → earliestFree (poolOf pools c) <= m.
Proof. apply (foldl_max_lub (λ c, earliestFree (poolOf pools c))). Qed.

Lemma beginLoop_two pools cs b : beginLoop 2 pools cs b = Some (candidate pools cs b).
Proof.
  assert (candidate pools cs (candidate pools cs b) = candidate pools cs b) as Hfix.
  { pose proof (proj1 (candidate_lub pools cs b (candidate pools cs b)) (Z.le_refl _)) as [Hb Hcs].
    pose proof (proj1 (candidate_lub pools cs (candidate pools cs b) _) (Z.le_refl _)) as [Hb' _].
    apply Z.le_antisymm; [|done]. by apply candidate_lub. }
  cbn. case_bool_decide as Heq; [by rewrite Heq|]. by rewrite Hfix, bool_decide_true.
Qed.

(** Dependencies bound the earliest start. *)
Lemma earliestStart_lub n id e fin m :
  earliestStart n id e fin <= m ↔
  0 <= m ∧ ∀ d, d ∈ realDeps n id e → default 0 (fin !! d) <= m.
Proof. apply (foldl_max_lub (λ d, default 0 (fin !! d))). Qed.

(** *** A key determines its pool *)
Section keys.
Variable machine : MachineModel.
Variable n : nat.
Variable owners : list string.

Lemma append_cancel_slash (p q a b : string) :
  p +:+ "/" +:+ a = q +:+ "/" +:+ b →
  str_all (λ x, bool_decide (x ≠ "/"%char)) p = true →
  str_all (λ x, bool_decide (x ≠ "/"%char)) q = true → p = q ∧ a = b.
Proof. intros Heq Hp Hq. exact (str_split_at "/"%char p q a b Hp Hq Heq). Qed.

(** Every claim is a class, a slash and a name, and its slots are a function of
    the class and the name. *)
Definition classSlots (cls name : string) : Z :=
  if bool_decide (cls = "owner") then ownerSlots machine name
  else if bool_decide (cls = "dma") then Z.max 1 (from_option count 1 (findTransferEngine machine name))
  else if bool_decide (cls = "sync") then 1
  else from_option (λ engine, Z.max 1 (cmp_concurrency engine)) 1 (findCompute machine name).

Definition PoolClass (cls : string) : Prop :=
  cls = "matrix" ∨ cls = "vector" ∨ cls = "dma" ∨ cls = "sync".

Lemma poolFor_class e :
  ∃ cls, PoolClass cls ∧
    poolFor e machine = (cls +:+ "/" +:+ resource (event e), classSlots cls (resource (event e))).
Proof.
  unfold poolFor, PoolClass. destruct (ev_kind (event e)).
  1,3: destruct (findCompute machine (resource (event e))) as [engine|] eqn:Hf;
    [case_bool_decide; [exists "matrix"|exists "vector"]|exists "vector"];
    (split; [tauto|]); unfold classSlots; by rewrite Hf.
  - exists "dma". split; [tauto|done].
  - exists "sync". split; [tauto|done].
  - exists "sync". split; [tauto|done].
Qed.

Lemma claims_class id e c :
  c ∈ claims machine n owners id e →
  ∃ cls name, (PoolClass cls ∨ cls = "owner") ∧ c = (cls +:+ "/" +:+ name, classSlots cls name).
Proof.
  unfold claims. intros [->|Hc]%elem_of_cons.
  - destruct (poolFor_class e) as (cls & Hcls & ->). by exists cls, (resource (event e)); auto.
  - destruct (owners !! id) as [name|]; [|by apply not_elem_of_nil in Hc].
    case_match; [|by apply not_elem_of_nil in Hc]. apply list_elem_of_singleton in Hc as ->.
    exists "owner", name. auto.
Qed.

Lemma class_no_slash cls :
  PoolClass cls ∨ cls = "owner" → str_all (λ x, bool_decide (x ≠ "/"%char)) cls = true.
Proof. unfold PoolClass. by intros [[|[|[|]]]|]; subst. Qed.

Lemma claims_slots id e c id' e' c' :
  c ∈ claims machine n owners id e → c' ∈ claims machine n owners id' e' → c.1 = c'.1 → c.2 = c'.2.
Proof.
  intros (cls & name & Hcls & ->)%claims_class (cls' & name' & Hcls' & ->)%claims_class Heq.
  apply append_cancel_slash in Heq as [-> ->]; [done|by apply class_no_slash..].
Qed.

Lemma claims_nodup id e : NoDup (claims machine n owners id e).*1.
Proof.
  unfold claims. destruct (poolFor_class e) as (cls & Hcls & ->).
  destruct (owners !! id) as [name|]; csimpl; [|apply NoDup_singleton].
  case_match; csimpl; [|apply NoDup_singleton].
  apply NoDup_cons. split; [|apply NoDup_singleton]. intros Heq%list_elem_of_singleton.
  apply (append_cancel_slash cls "owner") in Heq as [-> _]; [|apply class_no_slash; auto..].
  by destruct Hcls as [|[|[|]]].
Qed.
End keys.

(** ** The schedule *)
Section timing.
Variable cast_out_of_range : double → Z.
Hypothesis cast_u64 : ∀ x, in_u64 (cast_out_of_range x).
Variable machine : MachineModel.
Variable es : list PlanCostEvent.
Variable owners : list string.
Local Abbreviation n := (length es).

(** The charge of an event and the sum of charges. *)
Definition charge (x : nat) : Z := from_option (eventCycles cast_out_of_range) 0 (es !! x).
Definition charges (xs : list nat) : Z := foldr (λ x s, charge x + s) 0 xs.
Definition claimsOf (x : nat) : list (string * Z) :=
  from_option (claims machine n owners x) [] (es !! x).
Definition startOf (st : ScheduleState) (x : nat) : Z := default 0 (start st !! x).
Definition finishOf (st : ScheduleState) (x : nat) : Z := default 0 (finish st !! x).

Lemma charge_u64 x : in_u64 (charge x).
Proof.
  unfold charge. destruct (es !! x) as [e|]; cbn; [|done]. unfold eventCycles.
  destruct (ceil_Z _); [case_decide|]; auto.
Qed.

Lemma charges_app xs ys : charges (xs ++ ys) = charges xs + charges ys.
Proof. unfold charges. induction xs as [|x xs IH]; cbn; [done|]. rewrite IH. lia. Qed.

Lemma charges_nonneg xs : 0 <= charges xs.
Proof.
  induction xs as [|x xs IH]; [done|]. change (charges (x :: xs)) with (charge x + charges xs).
  pose proof (charge_u64 x) as [? _]. lia.
Qed.

Lemma charges_perm xs ys : xs ≡ₚ ys → charges xs = charges ys.
Proof. unfold charges. induction 1; cbn [foldr]; lia. Qed.

(** The sum over any set of distinct events is at most the sum over all. *)
Lemma charges_le xs : NoDup xs → (∀ x, x ∈ xs → (x < n)%nat) → charges xs <= charges (seq 0 n).
Proof.
  intros Hnd Hlt. assert (xs ⊆+ seq 0 n) as [ys Hperm]%submseteq_Permutation.
  { apply NoDup_submseteq; [done|]. intros x Hx. apply elem_of_seq. specialize (Hlt x Hx). lia. }
  rewrite (charges_perm _ _ Hperm), charges_app. pose proof (charges_nonneg ys). lia.
Qed.

(** Two events do not overlap in time. *)
Definition Apart (st : ScheduleState) (x y : nat) : Prop :=
  finishOf st x <= startOf st y ∨ finishOf st y <= startOf st x.

(** The events of [don] that claim the pool [k], put on its slots without
    overlap, each slot free again after the last of them. *)
Definition SlotsOk (st : ScheduleState) (don : list nat) (k : string) (av : list Z) : Prop :=
  ∃ slot : nat → nat, ∀ x, x ∈ don → k ∈ (claimsOf x).*1 →
    (∃ t, av !! slot x = Some t ∧ finishOf st x <= t) ∧
    ∀ y, y ∈ don → k ∈ (claimsOf y).*1 → x ≠ y → slot x = slot y → Apart st x y.

Record PoolOk (st : ScheduleState) (don : list nat) (k : string) (av : list Z) : Prop := {
  pool_nonempty : av ≠ [];
  pool_times : ∀ t, t ∈ av → 0 <= t <= charges don;
  pool_width : ∀ x c, c ∈ claimsOf x → c.1 = k → length av = Z.to_nat (Z.max 1 c.2);
  pool_slots : SlotsOk st don k av;
}.

Record Timing (st : ScheduleState) (don : list nat) : Prop := {
  time_length : length (start st) = n ∧ length (finish st) = n;
  time_finish : ∀ x, x ∈ don →
    finishOf st x = startOf st x + charge x ∧ 0 <= startOf st x ∧ finishOf st x <= charges don;
  time_unscheduled : ∀ x, x ∉ don → startOf st x = 0 ∧ finishOf st x = 0;
  time_deps : ∀ x d, x ∈ don → d ∈ depsOf es x → finishOf st d <= startOf st x;
  time_pools : ∀ k av, pools st !! k = Some av → PoolOk st don k av;
  time_claimed : ∀ x c, x ∈ don → c ∈ claimsOf x → is_Some (pools st !! c.1);
}.

Lemma claimsOf_slots x y c c' : c ∈ claimsOf x → c' ∈ claimsOf y → c.1 = c'.1 → c.2 = c'.2.
Proof.
  unfold claimsOf. destruct (es !! x), (es !! y); cbn;
    [|by intros ? ?%not_elem_of_nil|by intros ?%not_elem_of_nil..].
  apply claims_slots.
Qed.

Lemma timing_initial :
  Timing (mkSchedule (replicate n 0) (replicate n 0) (initialRemaining es)
    (initialReady (initialRemaining es)) ∅) [].
Proof.
  assert (∀ x, default 0 (replicate n 0 !! x) = 0) as Hz.
  { intros x. destruct (replicate n 0 !! x) as [t|] eqn:Ht; [|done].
    by apply lookup_replicate in Ht as [-> _]. }
  constructor; cbn.
  - by rewrite length_replicate.
  - by intros ? ?%not_elem_of_nil.
  - intros x _. by unfold startOf, finishOf; cbn; rewrite Hz.
  - by intros ? ? ?%not_elem_of_nil.
  - intros k av. by rewrite lookup_empty.
  - by intros ? ? ?%not_elem_of_nil.
Qed.

(** A pool as the iteration for [id] finds it: the one there is, or a new one. *)
Lemma pools_emplaced st don id k av :
  Timing st don → foldl emplace (pools st) (claimsOf id) !! k = Some av → PoolOk st don k av.
Proof.
  intros HT. rewrite emplace_all. destruct (pools st !! k) as [av'|] eqn:Hk.
  { intros [= <-]. by apply HT. }
  destruct (list_find (λ c, c.1 = k) (claimsOf id)) as [[i c]|] eqn:Hf; [|done].
  cbn. intros [= <-]. apply list_find_Some in Hf as (Hi & <- & _).
  apply list_elem_of_lookup_2 in Hi. destruct (newPool_spec c.2) as (Hne & Hzero & Hlen).
  constructor; [done| | |].
  - intros t ->%Hzero. pose proof (charges_nonneg don). lia.
  - intros x c' Hc' Heq. by rewrite Hlen, (claimsOf_slots x id c' c).
  - exists (λ _, O). intros x Hx (c' & Heq & Hc')%list_elem_of_fmap.
    destruct (time_claimed _ _ HT x c' Hx Hc') as [av' Hav]. congruence.
Qed.

Hypothesis fits : charges (seq 0 n) < 2 ^ 64.

Section step.
Variable st : ScheduleState.
Variable don : list nat.
Variable id : nat.
Variable e : PlanCostEvent.
Hypothesis Htime : Timing st don.
Hypothesis He : es !! id = Some e.
Hypothesis Hfresh : id ∉ don.
Hypothesis Hnodup : NoDup (don ++ [id]).
Hypothesis Hlt : ∀ x, x ∈ don → (x < n)%nat.
Hypothesis Hdeps : ∀ d, d ∈ depsOf es id → d ∈ don.
Hypothesis Hclosed : ∀ x d, x ∈ don → d ∈ depsOf es x → d ∈ don.

Local Abbreviation cs := (claims machine n owners id e).
Local Abbreviation pools1 := (foldl emplace (pools st) cs).
Local Abbreviation begin := (candidate pools1 cs (earliestStart n id e (finish st))).
Local Abbreviation st' := (scheduleOne cast_out_of_range es machine owners id e st).

Lemma step_claims : claimsOf id = cs.
Proof. unfold claimsOf. by rewrite He. Qed.

Lemma step_charge : charge id = eventCycles cast_out_of_range e.
Proof. unfold charge. by rewrite He. Qed.

Lemma step_pool k av : pools1 !! k = Some av → PoolOk st don k av.
Proof. rewrite <- step_claims. by apply pools_emplaced. Qed.

Lemma step_pool_claimed c : c ∈ cs → is_Some (pools1 !! c.1).
Proof.
  intros Hc. rewrite emplace_all. destruct (pools st !! c.1); [done|].
  destruct (list_find_elem_of (λ c', c'.1 = c.1) cs c Hc eq_refl) as [[i c'] Hf].
  rewrite Hf. done.
Qed.

Lemma step_begin :
  (∀ d, d ∈ depsOf es id → finishOf st d <= begin) ∧
  (∀ c, c ∈ cs → earliestFree (poolOf pools1 c) <= begin) ∧ 0 <= begin <= charges don.
Proof.
  pose proof (proj1 (candidate_lub pools1 cs (earliestStart n id e (finish st)) begin) (Z.le_refl _))
    as [Hb Hcs].
  pose proof (proj1 (earliestStart_lub n id e (finish st) _) (Z.le_refl _)) as [H0 Hd].
  assert (depsOf es id = realDeps n id e) as Heq by (unfold depsOf; by rewrite He).
  split_and!; [|done|lia|].
  - intros d Hin. rewrite Heq in Hin. specialize (Hd d Hin). unfold finishOf. lia.
  - apply candidate_lub. split.
    + apply earliestStart_lub. split; [apply charges_nonneg|]. intros d Hin. rewrite <- Heq in Hin.
      by apply (time_finish _ _ Htime), Hdeps.
    + intros c Hc. destruct (step_pool_claimed c Hc) as [av Hav]. unfold poolOf. rewrite Hav. cbn.
      pose proof (step_pool _ _ Hav) as HP.
      apply (pool_times _ _ _ _ HP), earliestFree_elem, (pool_nonempty _ _ _ _ HP).
Qed.

Lemma step_charges : charges (don ++ [id]) = charges don + charge id ∧ charges don + charge id < 2 ^ 64.
Proof.
  rewrite charges_app. assert (charges [id] = charge id) as -> by (unfold charges; cbn [foldr]; lia).
  split; [done|]. assert (charges (don ++ [id]) <= charges (seq 0 n)) as Hle.
  { apply charges_le; [done|]. intros x [Hx| ->%list_elem_of_singleton]%elem_of_app; [auto|].
    by eapply lookup_lt_Some. }
  rewrite charges_app in Hle. unfold charges at 2 in Hle. cbn [foldr] in Hle. lia.
Qed.

Lemma step_end : u64 (begin + charge id) = begin + charge id.
Proof.
  apply u64_id. pose proof step_begin as (_ & _ & ? & ?).
  pose proof step_charges as [_ ?]. pose proof (charge_u64 id) as [? _]. unfold in_u64. lia.
Qed.

Lemma step_fields :
  start st' = <[id := begin]> (start st) ∧ finish st' = <[id := begin + charge id]> (finish st) ∧
  pools st' = acquireAll pools1 cs begin (charge id).
Proof.
  unfold scheduleOne. destruct (foldl release _ _) as [rem' rdy']. cbn [start finish pools].
  rewrite beginLoop_two. cbn [from_option Datatypes.id]. rewrite <- step_charge. by rewrite step_end.
Qed.

Lemma step_startOf x : startOf st' x = if decide (x = id) then begin else startOf st x.
Proof.
  unfold startOf. rewrite (proj1 step_fields). case_decide as Hx.
  - subst. rewrite list_lookup_insert_eq; [done|]. rewrite (proj1 (time_length _ _ Htime)).
    by eapply lookup_lt_Some.
  - by rewrite list_lookup_insert_ne.
Qed.

Lemma step_finishOf x : finishOf st' x = if decide (x = id) then begin + charge id else finishOf st x.
Proof.
  unfold finishOf. rewrite (proj1 (proj2 step_fields)). case_decide as Hx.
  - subst. rewrite list_lookup_insert_eq; [done|]. rewrite (proj2 (time_length _ _ Htime)).
    by eapply lookup_lt_Some.
  - by rewrite list_lookup_insert_ne.
Qed.

Lemma step_apart x y : x ≠ id → y ≠ id → Apart st x y → Apart st' x y.
Proof. intros. unfold Apart. rewrite !step_startOf, !step_finishOf. by rewrite !decide_False by done. Qed.

(** A pool the event does not claim keeps its slots. *)
Lemma step_slots_other k av : k ∉ cs.*1 → SlotsOk st don k av → SlotsOk st' (don ++ [id]) k av.
Proof.
  intros Hk [slot Hslot]. exists slot.
  assert (∀ x, x ∈ (don ++ [id])%list → k ∈ (claimsOf x).*1 → x ∈ don ∧ x ≠ id) as Hold.
  { intros x [Hx| ->%list_elem_of_singleton]%elem_of_app Hc; [split; [done|by intros ->]|].
    by rewrite step_claims in Hc. }
  intros x Hx Hc. destruct (Hold x Hx Hc) as [Hxd Hxi]. destruct (Hslot x Hxd Hc) as [Ht Hap].
  split; [by rewrite step_finishOf, decide_False|].
  intros y Hy Hcy Hne Heq. destruct (Hold y Hy Hcy). apply step_apart; auto.
Qed.

(** The event takes the slot that frees first, after everything on it. *)
Lemma step_slots_claimed k av c :
  c ∈ cs → c.1 = k → pools1 !! k = Some av → PoolOk st don k av →
  SlotsOk st' (don ++ [id]) k (acquire av begin (charge id)).
Proof.
  intros Hc Hk Hav [Hne Htimes Hwidth [slot Hslot]].
  pose proof step_begin as (_ & Hfree & _).
  assert (earliestFree av <= begin) as Hbegin.
  { specialize (Hfree c Hc). unfold poolOf in Hfree. rewrite Hk, Hav in Hfree. done. }
  pose proof step_end as Hu.
  pose proof (earliestSlot_lookup av Hne) as Hes.
  pose proof (charge_u64 id) as [Hpos _].
  exists (λ x, if decide (x = id) then earliestSlot av else slot x).
  assert (∀ x, x ∈ don → x ≠ id) as Hneq by (intros x Hx ->; done).
  assert (∀ x, x ∈ don → k ∈ (claimsOf x).*1 → slot x = earliestSlot av → finishOf st x <= begin) as Hbefore.
  { intros x Hx Hcx Hs. destruct (Hslot x Hx Hcx) as [(t & Ht & Hle) _]. rewrite Hs, Hes in Ht.
    injection Ht as <-. lia. }
  unfold acquire. rewrite Hu.
  intros x [Hx| ->%list_elem_of_singleton]%elem_of_app Hcx.
  - rewrite (decide_False (P := x = id)) by auto.
    destruct (Hslot x Hx Hcx) as [(t & Ht & Hle) Hap]. split.
    + rewrite step_finishOf, decide_False by auto.
      destruct (decide (slot x = earliestSlot av)) as [Hs|Hs].
      * rewrite Hs, list_lookup_insert_eq by (by eapply lookup_lt_Some).
        eexists. split; [done|]. specialize (Hbefore x Hx Hcx Hs). lia.
      * rewrite list_lookup_insert_ne by done. eauto.
    + intros y [Hy| ->%list_elem_of_singleton]%elem_of_app Hcy Hxy Heq.
      * rewrite decide_False in Heq by auto. apply step_apart; auto.
      * rewrite decide_True in Heq by done. left.
        rewrite step_finishOf, step_startOf, (decide_False (P := x = id)), decide_True by auto.
        by apply Hbefore.
  - rewrite (decide_True (P := id = id)) by done. split.
    + rewrite step_finishOf, decide_True by done.
      rewrite list_lookup_insert_eq by (by eapply lookup_lt_Some). eexists. split; [done|lia].
    + intros y [Hy| ->%list_elem_of_singleton]%elem_of_app Hcy Hxy Heq; [|done].
      rewrite decide_False in Heq by auto. right.
      rewrite step_finishOf, step_startOf, (decide_False (P := y = id)), decide_True by auto.
      by apply Hbefore.
Qed.

Lemma step_pools k av : pools st' !! k = Some av → PoolOk st' (don ++ [id]) k av.
Proof.
  rewrite (proj2 (proj2 step_fields)), acquireAll_lookup by apply claims_nodup.
  pose proof step_charges as [Hch _]. pose proof (charge_u64 id) as [Hpos _].
  pose proof step_begin as (_ & _ & Hb0 & Hb1).
  destruct (decide (k ∈ cs.*1)) as [Hk|Hk].
  - apply list_elem_of_fmap in Hk as (c & Hck & Hc).
    destruct (step_pool_claimed c Hc) as [av1 Hav]. rewrite <- Hck in Hav. rewrite Hav.
    cbn [from_option Datatypes.id]. intros Heq.
    assert (av = acquire av1 begin (charge id)) as -> by congruence. clear Heq. pose proof (step_pool _ _ Hav) as HP.
    pose proof HP as [Hne Htimes Hwidth _]. constructor.
    + unfold acquire. intros Heq%(f_equal length). rewrite length_insert in Heq.
      by apply length_zero_iff_nil in Heq.
    + intros t [j Hj]%list_elem_of_lookup_1. unfold acquire in Hj.
      destruct (decide (earliestSlot av1 = j)) as [<-|Hne'].
      * rewrite list_lookup_insert_eq in Hj by by eapply lookup_lt_Some, earliestSlot_lookup.
        rewrite step_end in Hj. assert (t = begin + charge id) as -> by congruence. lia.
      * rewrite list_lookup_insert_ne in Hj by done. apply list_elem_of_lookup_2, Htimes in Hj. lia.
    + intros x c' Hc' Heq. unfold acquire. rewrite length_insert. eauto.
    + by eapply step_slots_claimed.
  - intros Hav. pose proof (step_pool _ _ Hav) as [Hne Htimes Hwidth Hslots]. constructor; [done| |done|].
    + intros t Ht. specialize (Htimes t Ht). lia.
    + by apply step_slots_other.
Qed.

Lemma timing_step : Timing st' (don ++ [id]).
Proof.
  pose proof step_charges as [Hch _]. pose proof (charge_u64 id) as [Hpos _].
  pose proof step_begin as (Hbd & _ & Hb0 & Hb1). pose proof Htime as [Hlen Hfin Hun Hdep _ Hcl].
  assert (∀ x, x ∈ don → x ≠ id) as Hneq by (intros x Hx ->; done).
  constructor.
  - destruct step_fields as (-> & -> & _). by rewrite !length_insert.
  - intros x Hx. rewrite step_startOf, step_finishOf, Hch.
    apply elem_of_app in Hx as [Hx| ->%list_elem_of_singleton].
    + rewrite !decide_False by auto. destruct (Hfin x Hx) as (? & ? & ?). lia.
    + rewrite !decide_True by done. lia.
  - intros x [Hx Hxi]%not_elem_of_app. rewrite list_elem_of_singleton in Hxi.
    rewrite step_startOf, step_finishOf, !decide_False by done. auto.
  - intros x d Hx Hd. rewrite step_startOf, step_finishOf.
    apply elem_of_app in Hx as [Hx| ->%list_elem_of_singleton].
    + rewrite (decide_False (P := x = id)) by auto. case_decide as Hdi; [|by apply Hdep].
      subst. destruct Hfresh. by eapply Hclosed.
    + rewrite (decide_True (P := id = id)) by done. rewrite decide_False by auto. by apply Hbd.
  - apply step_pools.
  - intros x c Hx Hc. destruct step_fields as (_ & _ & ->).
    rewrite acquireAll_lookup by apply claims_nodup. case_decide as Hk; [done|].
    apply elem_of_app in Hx as [Hx| ->%list_elem_of_singleton].
    + rewrite emplace_all. by destruct (Hcl x c Hx Hc) as [av ->].
    + rewrite step_claims in Hc. destruct Hk. by apply list_elem_of_fmap_2.
Qed.
End step.

Lemma scheduleLoop_spec fuel st don :
  Kahn es (remaining st) (ready st) don → Timing st don → (n <= fuel + length don)%nat →
  let st' := scheduleLoop cast_out_of_range fuel es machine owners st in
  ∃ don', Kahn es (remaining st') [] don' ∧ Timing st' don'.
Proof.
  revert st don. induction fuel as [|fuel IH]; intros st don HK HT Hf; cbn [scheduleLoop].
  { exists don. split; [|done]. by rewrite <- (kahn_ready_empty _ _ _ _ HK) at 1. }
  destruct (popLeast (ready st)) as [[id rest]|] eqn:Hpop.
  2:{ apply popLeast_none in Hpop. rewrite Hpop in HK. eauto. }
  apply popLeast_perm in Hpop. pose proof HK as [_ Hnd Hlt _ Hzero Horder].
  assert (id ∉ don ∧ (id < n)%nat) as [Hid Hidn].
  { split; [|apply Hlt; right; rewrite Hpop; by left].
    rewrite Hpop in Hnd. apply NoDup_app in Hnd as (_ & Hdis & _). intros Hin. apply (Hdis id Hin). by left. }
  pose proof Hidn as [e He]%lookup_lt_is_Some_2. rewrite He.
  set (st1 := mkSchedule (start st) (finish st) (remaining st) rest (pools st)).
  assert (Timing st1 don) as HT1.
  { destruct HT as [? ? ? ? Hp ?]. constructor; try done. intros k av Hk.
    destruct (Hp k av Hk). by constructor. }
  destruct (foldl release (remaining st, rest) (dependentsOf es id)) as [rem' rdy'] eqn:Hrel.
  assert (remaining (scheduleOne cast_out_of_range es machine owners id e st1) = rem' ∧
    ready (scheduleOne cast_out_of_range es machine owners id e st1) = rdy') as [Hr1 Hr2].
  { unfold scheduleOne. cbn [remaining ready st1]. by rewrite Hrel. }
  apply (IH _ (don ++ [id])%list); [|apply timing_step; try done|rewrite length_app; cbn; lia].
  - rewrite Hr1, Hr2. by eapply kahn_step.
  - apply NoDup_app. split_and!; [by apply NoDup_app in Hnd as (? & _)| |apply NoDup_singleton].
    intros x Hx ->%list_elem_of_singleton. done.
  - intros x Hx. apply Hlt. by left.
  - intros d Hd. assert (pending es don id = []) as Hp.
    { apply Hzero; [done|]. right. rewrite Hpop. by left. }
    apply dec_stable. intros Hn. apply (not_elem_of_nil d). rewrite <- Hp. by apply list_elem_of_filter.
  - intros x d Hx Hd. apply list_elem_of_split in Hx as (pre & post & Heq).
    rewrite Heq. apply elem_of_app. left. by eapply Horder.
Qed.

Lemma runSchedule_spec :
  ∃ don, Kahn es (remaining (runSchedule cast_out_of_range es machine owners)) [] don ∧
    Timing (runSchedule cast_out_of_range es machine owners) don.
Proof.
  apply scheduleLoop_spec with []; [apply kahn_initial|apply timing_initial|cbn; lia].
Qed.

(** The result's entries are the final start and finish times. *)
Lemma entries_lookup x s f :
  entries (scheduleNormalizedEvents cast_out_of_range es machine owners) !! x =
    Some (mkScheduled x s f) ↔
  (x < n)%nat ∧ s = startOf (runSchedule cast_out_of_range es machine owners) x ∧
    f = finishOf (runSchedule cast_out_of_range es machine owners) x.
Proof.
  unfold scheduleNormalizedEvents. destruct (foldl _ _ _) as [[p c] q]. cbn [entries].
  rewrite list_lookup_imap. fold (startOf (runSchedule cast_out_of_range es machine owners) x).
  fold (finishOf (runSchedule cast_out_of_range es machine owners) x). split.
  - destruct (es !! x) eqn:He; [|done]. cbn. intros [= <- <-].
    split; [by eapply lookup_lt_Some|done].
  - intros ([e He]%lookup_lt_is_Some_2 & -> & ->). by rewrite He.
Qed.

(** *** The final loop *)
Definition cyclesSum (ps : list (nat * PlanCostEvent)) : Z :=
  foldr (λ p s, eventCycles cast_out_of_range p.2 + s) 0 ps.

Lemma accumulate_spec fin ps p c s p' c' s' :
  foldl (accumulate cast_out_of_range fin) (p, c, s) ps = (p', c', s') →
  0 <= s → (∀ q, q ∈ ps → 0 <= eventCycles cast_out_of_range q.2) → s + cyclesSum ps < 2 ^ 64 →
  p <= p' ∧ (∀ q, q ∈ ps → default 0 (fin !! q.1) <= p') ∧
  ((p' = p ∧ c' = c) ∨ ∃ q, q ∈ ps ∧ c' = q.1 ∧ default 0 (fin !! q.1) = p') ∧
  s' = s + cyclesSum ps.
Proof.
  revert p c s. induction ps as [|q ps IH]; intros p c s; cbn [foldl].
  - intros [= <- <- <-] ???. split_and!; [done|by intros ? ?%not_elem_of_nil|by left|cbn; lia].
  - cbn [accumulate]. intros Hrun Hs Hpos Hsum.
    change (cyclesSum (q :: ps)) with (eventCycles cast_out_of_range q.2 + cyclesSum ps) in *.
    assert (0 <= cyclesSum ps) as Hrest.
    { clear -Hpos. induction ps as [|r ps IH]; [done|].
      change (cyclesSum (r :: ps)) with (eventCycles cast_out_of_range r.2 + cyclesSum ps).
      assert (0 <= eventCycles cast_out_of_range r.2) by (apply Hpos; right; by left).
      assert (0 <= cyclesSum ps); [|lia]. apply IH. intros x [->|Hx]%elem_of_cons; apply Hpos; [by left|].
      right. by right. }
    assert (0 <= eventCycles cast_out_of_range q.2) as Hq by (apply Hpos; by left).
    apply IH in Hrun as (Hp & Hall & Hcrit & ->).
    2:{ apply u64_range. }
    2:{ intros r Hr. apply Hpos. by right. }
    2:{ rewrite u64_id; [lia|]. unfold in_u64. lia. }
    rewrite u64_id by (unfold in_u64; lia). split_and!; [| | |lia].
    + case_bool_decide; lia.
    + intros r [->|Hr]%elem_of_cons; [|auto]. case_bool_decide; lia.
    + destruct Hcrit as [[-> ->]|(r & Hr & -> & Hfr)].
      * case_bool_decide; [right; exists q; split_and!; [by left|done..]|by left].
      * right. exists r. split_and!; [by right|done..].
Qed.

Lemma charges_cyclesSum : cyclesSum (imap pair es) = charges (seq 0 n).
Proof.
  assert (∀ l k, (∀ i, es !! (k + i)%nat = l !! i) →
    cyclesSum (imap (λ i e, ((k + i)%nat, e)) l) = charges (seq k (length l))) as Hgen.
  { induction l as [|e l IH]; intros k Hl; [done|]. cbn [length seq].
    change (charges (k :: seq (S k) (length l))) with (charge k + charges (seq (S k) (length l))).
    rewrite <- IH by (intros i; rewrite Nat.add_succ_comm; apply (Hl (S i))).
    unfold charge. specialize (Hl O) as H0. rewrite Nat.add_0_r in H0. rewrite H0.
    rewrite imap_cons. unfold cyclesSum at 1. cbn [foldr from_option lookup]. f_equal.
    unfold cyclesSum. f_equal. apply imap_ext. intros i x _. cbn. by rewrite Nat.add_succ_r. }
  exact (Hgen es O (λ i, eq_refl)).
Qed.
End timing.

(** ** The theorems *)
Section theorems.
Variable cast_out_of_range : double → Z.
Hypothesis cast_u64 : ∀ x, in_u64 (cast_out_of_range x).
Variable machine : MachineModel.
Variable es : list PlanCostEvent.
Variable owners : list string.
(** The sequential sum fits the 64-bit clock. *)
Hypothesis fits : foldr (λ e s, eventCycles cast_out_of_range e + s) 0 es < 2 ^ 64.
Hypothesis acyclic : Acyclic es.

Local Abbreviation result := (scheduleNormalizedEvents cast_out_of_range es machine owners).

Lemma cyclesSum_total :
  cyclesSum cast_out_of_range (imap pair es) = foldr (λ e s, eventCycles cast_out_of_range e + s) 0 es.
Proof.
  assert (∀ (f : nat → nat) l, foldr (λ (p : nat * PlanCostEvent) s, eventCycles cast_out_of_range p.2 + s) 0
    (imap (λ i e, (f i, e)) l) = foldr (λ e s, eventCycles cast_out_of_range e + s) 0 l) as Hsum.
  { intros f l. revert f. induction l as [|e l IH]; intros f; [done|].
    rewrite imap_cons. cbn [foldr snd]. f_equal. apply (IH (f ∘ S)). }
  apply (Hsum (λ i, i)).
Qed.

Lemma fits_charges : charges cast_out_of_range es (seq 0 (length es)) < 2 ^ 64.
Proof. by rewrite <- charges_cyclesSum, cyclesSum_total. Qed.

Lemma all_scheduled :
  ∃ don, Timing cast_out_of_range machine es owners (runSchedule cast_out_of_range es machine owners) don ∧
    (∀ x, (x < length es)%nat → x ∈ don) ∧ NoDup don ∧ ∀ x, x ∈ don → (x < length es)%nat.
Proof.
  destruct (runSchedule_spec cast_out_of_range cast_u64 machine es owners fits_charges) as (don & HK & HT).
  exists don. split_and!; [done| | |].
  - apply (kahn_full _ _ _ HK). by apply (kahn_acyclic _ _ _ HK).
  - rewrite <- (app_nil_r don). by destruct HK.
  - intros x Hx. apply (kahn_lt _ _ _ _ HK). by left.
Qed.

(** C9: An acyclic stream is scheduled completely and correctly: every event has
    an entry, occupies its resource for exactly its cycle charge, and starts no
    earlier than the finish of each dependency it lists, whatever the id order. *)
Theorem schedule_respects_dependencies :
  length (entries result) = length es ∧
  ∀ x e s f, es !! x = Some e → entries result !! x = Some (mkScheduled x s f) →
    0 <= s ∧ f = s + eventCycles cast_out_of_range e ∧
    ∀ d s' f', d ∈ realDeps (length es) x e → entries result !! d = Some (mkScheduled d s' f') →
      f' <= s.
Proof.
  destruct all_scheduled as (don & HT & Hall & _). split.
  { unfold scheduleNormalizedEvents. destruct (foldl _ _ _) as [[p c] q]. apply length_imap. }
  intros x e s f He (Hx & -> & ->)%entries_lookup.
  destruct (time_finish _ _ _ _ _ _ HT x (Hall x Hx)) as (Hf & Hs & _).
  split_and!; [done| |].
  - rewrite Hf. unfold charge. by rewrite He.
  - intros d s' f' Hd (Hdn & -> & ->)%entries_lookup.
    apply (time_deps _ _ _ _ _ _ HT); [by apply Hall|]. unfold depsOf. by rewrite He.
Qed.

(** C10: No pool is over-subscribed: the events that claim a pool of [width]
    slots, a resource's or an owner's, can be put on [width] slots so that no two
    events on one slot overlap in time. *)
Theorem schedule_respects_pools key width :
  ∃ slot : nat → nat, ∀ x e s f,
    es !! x = Some e → (key, width) ∈ claims machine (length es) owners x e →
    entries result !! x = Some (mkScheduled x s f) →
    (slot x < Z.to_nat (Z.max 1 width))%nat ∧
    ∀ y e' s' f', es !! y = Some e' → (key, width) ∈ claims machine (length es) owners y e' →
      entries result !! y = Some (mkScheduled y s' f') →
      x ≠ y → slot x = slot y → f <= s' ∨ f' <= s.
Proof.
  destruct all_scheduled as (don & HT & Hall & _).
  destruct (pools (runSchedule cast_out_of_range es machine owners) !! key) as [av|] eqn:Hav.
  - destruct (time_pools _ _ _ _ _ _ HT key av Hav) as [_ _ Hwidth [slot Hslot]].
    exists slot. intros x e s f He Hc (Hx & -> & ->)%entries_lookup.
    assert (claimsOf machine es owners x = claims machine (length es) owners x e) as Hcx
      by (unfold claimsOf; by rewrite He).
    destruct (Hslot x (Hall x Hx)) as [(t & Ht & _) Hap].
    { rewrite Hcx. apply list_elem_of_fmap. by exists (key, width). }
    split.
    + pose proof (Hwidth x (key, width)) as Hw. cbn [fst snd] in Hw.
      rewrite <- Hw; [by eapply lookup_lt_Some|by rewrite Hcx|done].
    + intros y e' s' f' He' Hc' (Hy & -> & ->)%entries_lookup Hne Heq.
      apply Hap; [by apply Hall| |done|done].
      unfold claimsOf. rewrite He'. apply list_elem_of_fmap. by exists (key, width).
  - exists (λ _, O). intros x e s f He Hc (Hx & -> & ->)%entries_lookup.
    destruct (time_claimed _ _ _ _ _ _ HT x (key, width) (Hall x Hx)) as [av' Hav'].
    + unfold claimsOf. by rewrite He.
    + cbn in Hav'. congruence.
Qed.

(** The prediction is the latest finish of the schedule, attained by the
    critical event when it is not zero, and never exceeds the sequential sum of
    the charges, which is computed without wrap-around. *)
Theorem predicted_is_makespan :
  sequentialCycles result = foldr (λ e s, eventCycles cast_out_of_range e + s) 0 es ∧
  0 <= predictedCycles result <= sequentialCycles result ∧
  (∀ x s f, entries result !! x = Some (mkScheduled x s f) → f <= predictedCycles result) ∧
  (predictedCycles result ≠ 0 → ∃ s,
     entries result !! criticalId result = Some (mkScheduled (criticalId result) s (predictedCycles result))).
Proof.
  destruct all_scheduled as (don & HT & Hall & Hdon).
  pose proof fits_charges as Hfits. rewrite <- charges_cyclesSum in Hfits.
  set (run := runSchedule cast_out_of_range es machine owners) in *.
  assert (∀ q, q ∈ imap pair es → (q.1 < length es)%nat ∧ es !! q.1 = Some q.2) as Himap.
  { intros q [i Hi]%list_elem_of_lookup_1. rewrite list_lookup_imap in Hi.
    destruct (es !! i) as [e|] eqn:He; [|done]. injection Hi as <-. cbn.
    split; [by eapply lookup_lt_Some|done]. }
  destruct (foldl (accumulate cast_out_of_range (finish run)) (0, O, 0) (imap pair es))
    as [[p c] q] eqn:Hrun.
  destruct (accumulate_spec _ _ _ _ _ _ _ _ _ Hrun) as (Hp & Hmax & Hcrit & Hq).
  { done. }
  { intros r Hr. apply Himap in Hr as [_ Hr].
    pose proof (charge_u64 cast_out_of_range cast_u64 es r.1) as [Hc _].
    unfold charge in Hc. by rewrite Hr in Hc. }
  { done. }
  assert (sequentialCycles result = q ∧ predictedCycles result = p ∧
    criticalId result = if bool_decide (p = 0) then O else c) as (Hseq & Hpred & Hcid).
  { unfold scheduleNormalizedEvents. fold run. by rewrite Hrun. }
  rewrite Hseq, Hpred, Hcid.
  rewrite cyclesSum_total in Hq. split_and!.
  - lia.
  - done.
  - destruct Hcrit as [[-> _]|(r & Hr & _ & <-)].
    + rewrite Hq, <- cyclesSum_total, charges_cyclesSum by done. by apply charges_nonneg.
    + apply Himap in Hr as [Hr _]. fold (finishOf run r.1).
      destruct (time_finish _ _ _ _ _ _ HT r.1 (Hall _ Hr)) as (_ & _ & Hle).
      rewrite Hq, <- cyclesSum_total, charges_cyclesSum by done.
      etransitivity; [exact Hle|]. apply charges_le; [done| |].
      * by destruct Hdon.
      * by destruct Hdon.
  - intros x s f (Hx & -> & ->)%entries_lookup. apply lookup_lt_is_Some_2 in Hx as [e He].
    apply (Hmax (x, e)). apply (list_elem_of_lookup_2 _ x). by rewrite list_lookup_imap, He.
  - intros Hne. rewrite bool_decide_false by done.
    destruct Hcrit as [[? _]|(r & Hr & -> & Hf)]; [done|]. apply Himap in Hr as [Hr _].
    eexists. apply entries_lookup. split_and!; [done|reflexivity|]. fold run. by rewrite <- Hf.
Qed.
End theorems.

(** ** A concrete stream

    Two transfers and two vector events; the first event depends on the third,
    which is listed after it. *)
Definition toy_compute (id : string) (slots : Z) : ComputeNode :=
  mkCompute id "vector_engine" ["vector"] "group.0" ["f16"] [] [[1]] ∅ 1 0 None slots [] None.
Definition toy_events_machine : MachineModel :=
  mkMachine 2 0 "toy" "" None 1 (mkSync 8 0) [sample_group] [] [toy_compute "vpu.0" 1]
    [mkEngine "dma.0" "dma" ["transfer"] "group.0" 2 1 0] [] 0.
Definition toy_stream : list PlanCostEvent :=
  [makePlanCostEvent Compute "vpu.0" (double_of_Z 10) 1 0 [2%nat];
   makePlanCostEvent TransferHop "dma.0" (double_of_Z 7) 1 64 [];
   makePlanCostEvent TransferHop "dma.0" (ddiv (double_of_Z 9) (double_of_Z 2)) 1 64 [];
   makePlanCostEvent Compute "vpu.0" (double_of_Z 3) 1 0 [1%nat; 2%nat]].
Definition no_cast (x : double) : Z := 0.

Example toy_schedule :
  scheduleNormalizedEvents no_cast toy_stream toy_events_machine [] =
  mkResult 18 3 25 [mkScheduled 0 5 15; mkScheduled 1 0 7; mkScheduled 2 0 5; mkScheduled 3 15 18].
Proof. vm_compute. reflexivity. Qed.

Example toy_stream_valid :
  validateEventResources (mkDAG toy_stream Snapshot) toy_events_machine = Ok tt.
Proof. vm_compute. reflexivity. Qed.

Example toy_cycle_rejected :
  validateEventResources (mkDAG [makePlanCostEvent Compute "vpu.0" dzero 1 0 [1%nat];
    makePlanCostEvent Compute "vpu.0" dzero 1 0 [0%nat]] Snapshot) toy_events_machine =
  Err (DependencyCycle 2).
Proof. vm_compute. reflexivity. Qed.

Lemma no_cast_u64 x : in_u64 (no_cast x).
Proof. done. Defined.

Lemma toy_fits : foldr (λ e s, eventCycles no_cast e + s) 0 toy_stream < 2 ^ 64.
Proof. vm_compute. reflexivity. Defined.

Lemma toy_acyclic : Acyclic toy_stream.
Proof.
  exists (λ x, if decide (x = 0 ∨ x = 3)%nat then 1%nat else O).
  intros x d Hd. pose proof (depsOf_real _ _ _ Hd) as (_ & _ & Hx).
  destruct x as [|[|[|[|x]]]]; [| | | |cbn in Hx; lia].
  - change (d ∈ [2%nat]) in Hd. apply list_elem_of_singleton in Hd as ->. vm_compute. lia.
  - change (d ∈ @nil nat) in Hd. by apply not_elem_of_nil in Hd.
  - change (d ∈ @nil nat) in Hd. by apply not_elem_of_nil in Hd.
  - change (d ∈ [1%nat; 2%nat]) in Hd. apply elem_of_cons in Hd as [->|Hd]; [vm_compute; lia|].
    apply list_elem_of_singleton in Hd as ->. vm_compute. lia.
Defined.

Lemma schedule_respects_dependencies_witness :
  length (entries (scheduleNormalizedEvents no_cast toy_stream toy_events_machine [])) = 4%nat.
Proof.
  destruct (schedule_respects_dependencies no_cast no_cast_u64 toy_events_machine toy_stream [] toy_fits
    toy_acyclic) as [Hlen _].
  exact Hlen.
Defined.

Lemma schedule_respects_pools_witness :
  ∃ slot : nat → nat, (slot 1 < 2)%nat ∧ (slot 2 < 2)%nat ∧ (slot 1 ≠ slot 2)%nat.
Proof.
  destruct (schedule_respects_pools no_cast no_cast_u64 toy_events_machine toy_stream [] toy_fits toy_acyclic
    "dma/dma.0" 2) as [slot Hslot].
  exists slot.
  destruct (Hslot 1%nat _ 0 7 eq_refl ltac:(by left) ltac:(vm_compute; reflexivity)) as [H1 Hap].
  destruct (Hslot 2%nat _ 0 5 eq_refl ltac:(by left) ltac:(vm_compute; reflexivity)) as [H2 _].
  split_and!; [exact H1|exact H2|]. intros Heq.
  destruct (Hap 2%nat _ 0 5 eq_refl ltac:(by left) ltac:(vm_compute; reflexivity) ltac:(done) Heq); lia.
Defined.

Lemma predicted_is_makespan_witness :
  predictedCycles (scheduleNormalizedEvents no_cast toy_stream toy_events_machine []) <=
  sequentialCycles (scheduleNormalizedEvents no_cast toy_stream toy_events_machine []).
Proof.
  destruct (predicted_is_makespan no_cast no_cast_u64 toy_events_machine toy_stream [] toy_fits toy_acyclic)
    as (_ & [_ Hle] & _).
  exact Hle.
Defined.
