(* ===== verification/JitCache.v ===== *)
(** The JIT's caches: runtime/JitCache.cpp, include/LLK/Runtime/JitCache.h and
    include/LLK/Runtime/KernelKey.h.

    A [CacheLevel] is a hash index into a doubly linked list kept most recently
    used first.  A list node is an [Entry] with the address that stands for its
    iterator, as [std::list] keeps a node where it is while it is spliced.  The
    level refines an abstract bounded list of key-value pairs ([lru_get],
    [lru_put]), its index and list agree in every reachable state, and the binary
    keys of the kernel and weight caches are injective.  A pointer returned by
    [lookup] outlives the lock, and the last section shows the interleaving in
    which it dangles.

    The ORC compilation behind [lookupOrCompile] is LLVM's and is not modelled. *)
From S2P Require Import Prelude.
Open Scope string_scope.
Open Scope Z_scope.

(** ** One cache level *)
Record Entry := mkEntry { addr : nat; key : string; value : string }.

Record CacheLevel := mkLevel {
  index : gmap string nat;
  lru_list : list Entry;
  max_entries : nat;
  hit_count : Z;
  miss_count : Z;
  eviction_count : Z;
  next_addr : nat;
}.

Definition emptyLevel : CacheLevel := mkLevel ∅ [] 1024 0 0 0 O.

(** The node an iterator denotes; [None] when it has been erased. *)
Definition deref (level : CacheLevel) (a : nat) : option Entry :=
  snd <$> list_find (λ e, addr e = a) (lru_list level).

(** The list without the node at [a]. *)
Definition unlink (a : nat) (l : list Entry) : list Entry := filter (λ e, addr e ≠ a) l.

(** [lru_list.splice(lru_list.begin(), lru_list, it)]. *)
Definition splice_front (l : list Entry) (e : Entry) : list Entry := e :: unlink (addr e) l.

(** The address of the node found, whose value the caller may read. *)
Definition lookup_level (level : CacheLevel) (k : string) : option nat * CacheLevel :=
  match index level !! k with
  | None =>
    (None, mkLevel (index level) (lru_list level) (max_entries level) (hit_count level)
             (u64 (miss_count level + 1)) (eviction_count level) (next_addr level))
  | Some a =>
    (Some a, mkLevel (index level)
               (match deref level a with
                | Some e => splice_front (lru_list level) e
                | None => lru_list level
                end)
               (max_entries level) (u64 (hit_count level + 1)) (miss_count level)
               (eviction_count level) (next_addr level))
  end.

(** [const auto &back = lru_list.back(); index.erase(back.key);
    lru_list.pop_back(); eviction_count++]. *)
Definition evictBack (level : CacheLevel) : CacheLevel :=
  match last (lru_list level) with
  | None => level
  | Some back =>
    mkLevel (delete (key back) (index level)) (take (pred (length (lru_list level))) (lru_list level))
      (max_entries level) (hit_count level) (miss_count level) (u64 (eviction_count level + 1))
      (next_addr level)
  end.

(** [while (over(lru_list.size()) && !lru_list.empty())], each round of which
    shortens the list, so that its length is fuel enough. *)
Fixpoint evictWhile (fuel : nat) (over : nat → bool) (level : CacheLevel) : CacheLevel :=
  match fuel with
  | O => level
  | S fuel =>
    if over (length (lru_list level)) && bool_decide (lru_list level ≠ [])
    then evictWhile fuel over (evictBack level) else level
  end.

Definition insert_level (level : CacheLevel) (k v : string) : CacheLevel :=
  match index level !! k with
  | Some a =>
    mkLevel (index level)
      (match deref level a with
       | Some e => splice_front (lru_list level) (mkEntry a (key e) v)
       | None => lru_list level
       end)
      (max_entries level) (hit_count level) (miss_count level) (eviction_count level) (next_addr level)
  | None =>
    let level := evictWhile (length (lru_list level)) (λ n, max_entries level <=? n)%nat level in
    mkLevel (<[k := next_addr level]> (index level))
      (mkEntry (next_addr level) k v :: lru_list level)
      (max_entries level) (hit_count level) (miss_count level) (eviction_count level)
      (S (next_addr level))
  end.

Definition remove_level (level : CacheLevel) (k : string) : CacheLevel :=
  match index level !! k with
  | None => level
  | Some a =>
    mkLevel (delete k (index level)) (unlink a (lru_list level)) (max_entries level)
      (hit_count level) (miss_count level) (eviction_count level) (next_addr level)
  end.

Definition clear_level (level : CacheLevel) : CacheLevel :=
  mkLevel ∅ [] (max_entries level) (hit_count level) (miss_count level) (eviction_count level)
    (next_addr level).

Definition size_level (level : CacheLevel) : nat := size (index level).

(** [evictLRU] on the chosen level. *)
Definition evict_level (level : CacheLevel) (bound : nat) : CacheLevel :=
  let level := evictWhile (length (lru_list level)) (λ n, bound <? n)%nat level in
  mkLevel (index level) (lru_list level) bound (hit_count level) (miss_count level)
    (eviction_count level) (next_addr level).

(** ** Keys of the object and weight caches *)
Inductive DType := BF16 | FP16 | FP32.
Inductive CpuIsa := AVX2 | AVX512_BF16 | AVX512_VNNI | AMX_BF16 | NEON | SVE | UNKNOWN.
Inductive OperationKind := FusedSwiGLU | RoPE | Attention.
Inductive Layout := RowMajor | PackedKN.
Inductive MathMode := Strict | BoundedFast | UnsafeFast.

Definition DType_value (d : DType) : Z := match d with BF16 => 0 | FP16 => 1 | FP32 => 2 end.
Definition CpuIsa_value (i : CpuIsa) : Z :=
  match i with
  | AVX2 => 0 | AVX512_BF16 => 1 | AVX512_VNNI => 2 | AMX_BF16 => 3
  | NEON => 4 | SVE => 5 | UNKNOWN => 6
  end.
Definition OperationKind_value (o : OperationKind) : Z :=
  match o with FusedSwiGLU => 0 | RoPE => 1 | Attention => 2 end.
Definition Layout_value (l : Layout) : Z := match l with RowMajor => 0 | PackedKN => 1 end.
Definition MathMode_value (m : MathMode) : Z :=
  match m with Strict => 0 | BoundedFast => 1 | UnsafeFast => 2 end.

Record KernelKey := mkKernelKey {
  operation : OperationKind;
  input_type : DType;
  output_type : DType;
  M_bucket : Z;
  kk_N : Z;
  kk_K : Z;
  weight_layout : Layout;
  isa : CpuIsa;
  math_mode : MathMode;
  thread_count : Z;
  compiler_version : Z;
  schedule_version : Z;
}.

(** [memcpy] of the low [n] bytes of an integer, least significant first; a
    negative value contributes its two's complement. *)
Fixpoint le_string (n : nat) (z : Z) : string :=
  match n with
  | O => EmptyString
  | S n => String (Ascii.ascii_of_N (Z.to_N (z `mod` 256))) (le_string n (z `div` 256))
  end.

(** [memcpy] back out of the first [n] bytes, unsigned. *)
Fixpoint le_value (n : nat) (s : string) : Z :=
  match n, s with
  | S n, String c s => Z.of_N (Ascii.N_of_ascii c) + 256 * le_value n s
  | _, _ => 0
  end.

(** The fields in the order of their offsets, which leave no gap:
    0 1 2 | 3 11 19 | 27 28 29 | 30 | 32 40. *)
Definition kernelKeyToString (k : KernelKey) : string :=
  le_string 1 (OperationKind_value (operation k)) +:+
  le_string 1 (DType_value (input_type k)) +:+
  le_string 1 (DType_value (output_type k)) +:+
  le_string 8 (M_bucket k) +:+ le_string 8 (kk_N k) +:+ le_string 8 (kk_K k) +:+
  le_string 1 (Layout_value (weight_layout k)) +:+
  le_string 1 (CpuIsa_value (isa k)) +:+
  le_string 1 (MathMode_value (math_mode k)) +:+
  le_string 2 (thread_count k) +:+
  le_string 8 (compiler_version k) +:+ le_string 8 (schedule_version k).

Definition mix (x : Z) : Z :=
  let x := u64 (Z.lxor x (Z.shiftr x 30) * 0xbf58476d1ce4e5b9) in
  let x := u64 (Z.lxor x (Z.shiftr x 27) * 0x94d049bb133111eb) in
  Z.lxor x (Z.shiftr x 31).

Definition hash (k : KernelKey) : Z :=
  fold_left (λ h v, mix (Z.lxor h v))
    [OperationKind_value (operation k); DType_value (input_type k); DType_value (output_type k);
     u64 (M_bucket k); u64 (kk_N k); u64 (kk_K k); Layout_value (weight_layout k);
     CpuIsa_value (isa k); MathMode_value (math_mode k); thread_count k;
     compiler_version k; schedule_version k]
    0x9ae16a3b2f90404f.

Definition toString (k : KernelKey) : string :=
  "KernelKey{op=" +:+ to_string (OperationKind_value (operation k)) +:+
  " dtype_in=" +:+ to_string (DType_value (input_type k)) +:+
  " dtype_out=" +:+ to_string (DType_value (output_type k)) +:+
  " M_bucket=" +:+ to_string (M_bucket k) +:+ " N=" +:+ to_string (kk_N k) +:+
  " K=" +:+ to_string (kk_K k) +:+
  " layout=" +:+ to_string (Layout_value (weight_layout k)) +:+
  " isa=" +:+ to_string (CpuIsa_value (isa k)) +:+
  " math=" +:+ to_string (MathMode_value (math_mode k)) +:+
  " threads=" +:+ to_string (thread_count k) +:+
  " compiler=" +:+ to_string (compiler_version k) +:+
  " schedule=" +:+ to_string (schedule_version k) +:+ "}".

(** A pointer is its address. *)
Record WeightKey := mkWeightKey {
  weight_ptr : Z;
  shape_hash : Z;
  BK : Z;
  BN : Z;
  wk_K : Z;
  wk_N : Z;
}.

Definition WeightKey_eqb (a b : WeightKey) : bool :=
  (weight_ptr a =? weight_ptr b) && (shape_hash a =? shape_hash b) &&
  (BK a =? BK b) && (BN a =? BN b) && (wk_K a =? wk_K b) && (wk_N a =? wk_N b).

Definition weightKeyToString (k : WeightKey) : string :=
  le_string 8 (weight_ptr k) +:+ le_string 8 (shape_hash k) +:+
  le_string 8 (BK k) +:+ le_string 8 (BN k) +:+ le_string 8 (wk_K k) +:+ le_string 8 (wk_N k).

(** [std::hash<WeightKey>]. *)
Definition WeightKey_hash (w : WeightKey) : Z :=
  Z.lxor (Z.lxor (Z.lxor (Z.lxor (Z.lxor (weight_ptr w) (shape_hash w)) (u64 (BK w)))
    (u64 (Z.shiftl (u64 (BN w)) 16))) (u64 (Z.shiftl (u64 (wk_K w)) 32)))
    (u64 (Z.shiftl (u64 (wk_N w)) 48)).

Record Tensor2D := mkTensor2D {
  tdata : Z;
  dim0 : Z;
  dim1 : Z;
  stride0 : Z;
  stride1 : Z;
}.

Record MemRef2D := mkMemRef2D {
  allocated : Z;
  aligned : Z;
  mr_offset : Z;
  size0 : Z;
  size1 : Z;
  mr_stride0 : Z;
  mr_stride1 : Z;
}.

Definition makeMemRef2D (t : Tensor2D) : MemRef2D :=
  mkMemRef2D (tdata t) (tdata t) 0 (dim0 t) (dim1 t) (stride0 t) (stride1 t).

Definition weightShapeHash (weight : Tensor2D) : Z :=
  fold_left (λ h v, u64 (Z.lxor h (u64 v) * 1099511628211))
    [dim0 weight; dim1 weight; stride0 weight; stride1 weight] 14695981039346656037.

Definition makeWeightKey (weight : Tensor2D) (bk : Z) : WeightKey :=
  mkWeightKey (tdata weight) (weightShapeHash weight) bk (dim1 weight) (dim0 weight) (dim1 weight).

(** ** The cache *)
Record JitCache (J : Type) := mkJitCache {
  jit_ : J;
  cache_ : gmap string Z;
  variant_cache_ : gmap string Z;
  ir_cache_ : CacheLevel;
  optimized_cache_ : CacheLevel;
  object_cache_ : CacheLevel;
  weight_cache_ : CacheLevel;
}.
Arguments mkJitCache {J}.
Arguments jit_ {J}. Arguments cache_ {J}. Arguments variant_cache_ {J}. Arguments ir_cache_ {J}.
Arguments optimized_cache_ {J}. Arguments object_cache_ {J}. Arguments weight_cache_ {J}.

Record CacheStats := mkStats { hits : list Z; misses : list Z; evictions : list Z }.

Section cache.
(** The lowering pipeline, the translation to LLVM IR and the ORC instance: from
    the state of the JIT and a module to the entry point or an error message. *)
Context {J M : Type} (compile : J → M → result string Z * J).
Implicit Types (c : JitCache J).

Definition newJitCache (jit : J) : JitCache J :=
  mkJitCache jit ∅ ∅ emptyLevel emptyLevel emptyLevel emptyLevel.

Definition set_level c (n : nat) (level : CacheLevel) : JitCache J :=
  match n with
  | 1%nat => mkJitCache (jit_ c) (cache_ c) (variant_cache_ c) level (optimized_cache_ c)
               (object_cache_ c) (weight_cache_ c)
  | 2%nat => mkJitCache (jit_ c) (cache_ c) (variant_cache_ c) (ir_cache_ c) level
               (object_cache_ c) (weight_cache_ c)
  | 3%nat => mkJitCache (jit_ c) (cache_ c) (variant_cache_ c) (ir_cache_ c) (optimized_cache_ c)
               level (weight_cache_ c)
  | 4%nat => mkJitCache (jit_ c) (cache_ c) (variant_cache_ c) (ir_cache_ c) (optimized_cache_ c)
               (object_cache_ c) level
  | _ => c
  end.

(** The value the pointer returned by [lookup] denotes when it is read. *)
Definition read_value (level : CacheLevel) (a : nat) : option string := value <$> deref level a.

(** [lookup] followed, with no other thread in between, by the read of its
    result: under the level's invariant a hit always yields a value. *)
Definition lookup_value (level : CacheLevel) (k : string) : option string * CacheLevel :=
  let (found, level) := lookup_level level k in
  (a ← found; read_value level a, level).

(** [cache_[cache_key] = fn]. *)
Definition remember c (cache_key : string) (fn : Z) : JitCache J :=
  mkJitCache (jit_ c) (<[cache_key := fn]> (cache_ c)) (variant_cache_ c) (ir_cache_ c)
    (optimized_cache_ c) (object_cache_ c) (weight_cache_ c).

Definition lookupOrCompile c (cache_key : string) (module : M) : result string Z * JitCache J :=
  match cache_ c !! cache_key with
  | Some fn => (Ok fn, c)
  | None =>
    let (compiled, jit) := compile (jit_ c) module in
    let c := mkJitCache jit (cache_ c) (variant_cache_ c) (ir_cache_ c) (optimized_cache_ c)
               (object_cache_ c) (weight_cache_ c) in
    match compiled with
    | Err e => (Err e, c)
    | Ok fn => (Ok fn, remember c cache_key fn)
    end
  end.

Definition lookupOrCompile_key c (key : KernelKey) (module : M) : result string Z * JitCache J :=
  lookupOrCompile c (kernelKeyToString key) module.

Definition lookupObjectCode c (key : KernelKey) : option Z * JitCache J :=
  let (val, level) := lookup_value (object_cache_ c) (kernelKeyToString key) in
  (v ← val; if (String.length v <? 8)%nat then None else Some (le_value 8 v), set_level c 3 level).

Definition insertObjectCode c (key : KernelKey) (fn : Z) : JitCache J :=
  set_level c 3 (insert_level (object_cache_ c) (kernelKeyToString key) (le_string 8 fn)).

Definition lookupOptimizedMLIR c (key : string) : option string * JitCache J :=
  let (val, level) := lookup_value (optimized_cache_ c) key in (val, set_level c 2 level).
Definition insertOptimizedMLIR c (key moduleStr : string) : JitCache J :=
  set_level c 2 (insert_level (optimized_cache_ c) key moduleStr).

Definition lookupIR c (key : string) : option string * JitCache J :=
  let (val, level) := lookup_value (ir_cache_ c) key in (val, set_level c 1 level).
Definition insertIR c (key moduleStr : string) : JitCache J :=
  set_level c 1 (insert_level (ir_cache_ c) key moduleStr).

Definition lookupPackedWeights c (key : WeightKey) : option string * JitCache J :=
  let (val, level) := lookup_value (weight_cache_ c) (weightKeyToString key) in
  (val, set_level c 4 level).
Definition insertPackedWeights c (key : WeightKey) (packedBlob : string) : JitCache J :=
  set_level c 4 (insert_level (weight_cache_ c) (weightKeyToString key) packedBlob).

Definition evictLRU c (level max_entries : nat) : JitCache J :=
  match level with
  | 1%nat => set_level c 1 (evict_level (ir_cache_ c) max_entries)
  | 2%nat => set_level c 2 (evict_level (optimized_cache_ c) max_entries)
  | 3%nat => set_level c 3 (evict_level (object_cache_ c) max_entries)
  | 4%nat => set_level c 4 (evict_level (weight_cache_ c) max_entries)
  | _ => c
  end.

Definition setMaxEntries c (level max_entries : nat) : JitCache J := evictLRU c level max_entries.

Definition getStats c : CacheStats :=
  let levels := [ir_cache_ c; optimized_cache_ c; object_cache_ c; weight_cache_ c] in
  mkStats (hit_count <$> levels) (miss_count <$> levels) (eviction_count <$> levels).

Definition clear c : JitCache J :=
  mkJitCache (jit_ c) ∅ ∅ (clear_level (ir_cache_ c)) (clear_level (optimized_cache_ c))
    (clear_level (object_cache_ c)) (clear_level (weight_cache_ c)).

Definition size_cache c : nat :=
  (size (cache_ c) + size (variant_cache_ c) + size_level (ir_cache_ c) +
   size_level (optimized_cache_ c) + size_level (object_cache_ c) + size_level (weight_cache_ c))%nat.

(** The canonical string of the variant identity is the key. *)
Definition lookupVariantObjectCode c (canonical : string) : option Z :=
  if str_empty canonical then None else variant_cache_ c !! canonical.
Definition insertVariantObjectCode c (canonical : string) (fn : Z) : JitCache J :=
  if str_empty canonical then c
  else mkJitCache (jit_ c) (cache_ c) (<[canonical := fn]> (variant_cache_ c)) (ir_cache_ c)
         (optimized_cache_ c) (object_cache_ c) (weight_cache_ c).
End cache.

(** ** The level's invariant

    The index holds exactly the nodes of the list, keys and addresses are unique,
    an address is never reused, and the bound holds, except that a bound of 0
    admits the entry just inserted. *)
Record level_ok (level : CacheLevel) : Prop := {
  ok_keys : NoDup (key <$> lru_list level);
  ok_addrs : NoDup (addr <$> lru_list level);
  ok_index : ∀ k a, index level !! k = Some a ↔ ∃ e, e ∈ lru_list level ∧ key e = k ∧ addr e = a;
  ok_fresh : ∀ e, e ∈ lru_list level → (addr e < next_addr level)%nat;
  ok_bound : (length (lru_list level) ≤ max 1 (max_entries level))%nat;
}.

(** The specification: key-value pairs, most recently used first. *)
Definition pair_of (e : Entry) : string * string := (key e, value e).
Definition pairs (level : CacheLevel) : list (string * string) := pair_of <$> lru_list level.

Definition lru_del (k : string) (l : list (string * string)) : list (string * string) :=
  filter (λ p, p.1 ≠ k) l.
Definition lru_find (k : string) (l : list (string * string)) : option string :=
  snd ∘ snd <$> list_find (λ p, p.1 = k) l.
Definition lru_get (k : string) (l : list (string * string)) : option string * list (string * string) :=
  match lru_find k l with
  | Some v => (Some v, (k, v) :: lru_del k l)
  | None => (None, l)
  end.
Definition lru_put (bound : nat) (k v : string) (l : list (string * string)) :
    list (string * string) :=
  match lru_find k l with
  | Some _ => (k, v) :: lru_del k l
  | None => (k, v) :: take (pred bound) l
  end.

(** *** Lemmas on keyed lists *)
Section keyed.
Context {A B : Type} `{EqDecision B} (f : A → B).

Lemma find_by (l : list A) e :
  NoDup (f <$> l) → e ∈ l → snd <$> list_find (λ x, f x = f e) l = Some e.
Proof.
  intros Hnd He. destruct (list_find (λ x, f x = f e) l) as [[i x]|] eqn:Hf.
  - apply list_find_Some in Hf as (Hi & Hx & _). cbn. f_equal.
    apply list_elem_of_lookup in He as [j Hj].
    assert (i = j) as ->; [|congruence].
    apply (NoDup_lookup (f <$> l) i j (f e) Hnd); rewrite list_lookup_fmap, ?Hi, ?Hj; cbn; congruence.
  - apply list_find_None in Hf. rewrite Forall_forall in Hf. by destruct (Hf e He).
Qed.

Lemma find_by_none (l : list A) b :
  (∀ e, e ∈ l → f e ≠ b) → snd <$> list_find (λ x, f x = b) l = None.
Proof.
  intros Hl. destruct (list_find _ l) as [[i x]|] eqn:Hf; [|done].
  apply list_find_Some in Hf as (Hi & Hx & _).
  destruct (Hl x); [|done]. by eapply list_elem_of_lookup_2.
Qed.

Lemma filter_out_id (l : list A) b :
  (∀ e, e ∈ l → f e ≠ b) → filter (λ x, f x ≠ b) l = l.
Proof.
  intros Hl. induction l as [|x l IH]; [done|].
  rewrite filter_cons_True by (apply Hl; left). rewrite IH; [done|].
  intros e He. apply Hl. by right.
Qed.

Lemma filter_out (l1 l2 : list A) e :
  NoDup (f <$> (l1 ++ e :: l2)%list) → filter (λ x, f x ≠ f e) (l1 ++ e :: l2)%list = (l1 ++ l2)%list.
Proof.
  rewrite fmap_app, fmap_cons. intros Hnd.
  apply NoDup_app in Hnd as (_ & H1 & [H2 _]%NoDup_cons).
  rewrite filter_app, filter_cons_False by tauto.
  rewrite !filter_out_id; [done| |].
  - intros x Hx Heq. apply H2. rewrite <- Heq. by apply list_elem_of_fmap_2.
  - intros x Hx Heq. apply (H1 (f x)); [by apply list_elem_of_fmap_2|]. rewrite Heq. left.
Qed.
End keyed.

(** The node with a given key or address is the same one in the list, its pairs
    and the index. *)
Lemma level_hit level k a : level_ok level → index level !! k = Some a →
  ∃ e l1 l2, lru_list level = (l1 ++ e :: l2)%list ∧ key e = k ∧ addr e = a ∧
    deref level a = Some e ∧ unlink a (lru_list level) = (l1 ++ l2)%list ∧
    lru_find k (pairs level) = Some (value e) ∧
    lru_del k (pairs level) = pair_of <$> (l1 ++ l2)%list.
Proof.
  intros Hok Ha. apply (ok_index _ Hok) in Ha as (e & He & <- & <-).
  pose proof (ok_keys _ Hok) as Hk. pose proof (ok_addrs _ Hok) as Hd.
  destruct (list_elem_of_split _ _ He) as (l1 & l2 & Heq).
  exists e, l1, l2. split_and!; [done..| | | |].
  - unfold deref. by apply find_by.
  - unfold unlink. rewrite Heq in *. by apply filter_out.
  - unfold lru_find. rewrite option_fmap_compose.
    rewrite (find_by fst (pairs level) (pair_of e)); [done| |by apply list_elem_of_fmap_2].
    unfold pairs. by rewrite <- list_fmap_compose.
  - unfold lru_del, pairs. rewrite Heq in *. rewrite !fmap_app, fmap_cons.
    rewrite (filter_out fst _ _ (pair_of e)); [done|].
    by rewrite <- fmap_cons, <- fmap_app, <- list_fmap_compose.
Qed.

Lemma level_miss level k : level_ok level → index level !! k = None →
  lru_find k (pairs level) = None ∧ ∀ e, e ∈ lru_list level → key e ≠ k.
Proof.
  intros Hok Hk. assert (∀ e, e ∈ lru_list level → key e ≠ k) as Hl.
  { intros e He <-. assert (index level !! key e = Some (addr e)); [|congruence].
    apply (ok_index _ Hok). eauto. }
  split; [|done]. unfold lru_find. rewrite option_fmap_compose, find_by_none; [done|].
  intros p (e & -> & He)%list_elem_of_fmap. by apply Hl.
Qed.

Lemma emptyLevel_ok : level_ok emptyLevel.
Proof.
  split; cbn; try apply NoDup_nil_2; try lia.
  - intros k a. split; [by rewrite lookup_empty|]. by intros (e & []%elem_of_nil & _).
  - by intros e []%elem_of_nil.
Qed.

(** *** Every operation preserves the invariant and implements the specification

    The invariant sees the list only through its keys and addresses, in any
    order. *)
Definition ids (l : list Entry) : list (string * nat) := (λ e, (key e, addr e)) <$> l.

Lemma ids_elem l e l' : ids l ≡ₚ ids l' → e ∈ l →
  ∃ e', e' ∈ l' ∧ key e' = key e ∧ addr e' = addr e.
Proof.
  intros Hp He. assert ((key e, addr e) ∈ ids l') as Hin.
  { rewrite <- Hp. unfold ids. apply list_elem_of_fmap. eauto. }
  apply list_elem_of_fmap in Hin as (e' & [= Hk Ha] & He'). exists e'. by rewrite Hk, Ha.
Qed.

Lemma level_ok_ids level level' :
  level_ok level → index level' = index level → next_addr level' = next_addr level →
  max_entries level' = max_entries level → ids (lru_list level') ≡ₚ ids (lru_list level) →
  level_ok level'.
Proof.
  intros [Hk Ha Hi Hf Hb] Ei En Em Hp.
  assert (key <$> lru_list level' ≡ₚ key <$> lru_list level) as Hpk.
  { apply (fmap_Permutation fst) in Hp. unfold ids in Hp. by rewrite <- !list_fmap_compose in Hp. }
  assert (addr <$> lru_list level' ≡ₚ addr <$> lru_list level) as Hpa.
  { apply (fmap_Permutation snd) in Hp. unfold ids in Hp. by rewrite <- !list_fmap_compose in Hp. }
  split.
  - by rewrite Hpk.
  - by rewrite Hpa.
  - intros k a. rewrite Ei, Hi. split; intros (e & He & <- & <-);
      [symmetry in Hp|]; by apply (ids_elem _ _ _ Hp) in He.
  - intros e He. apply (ids_elem _ _ _ Hp) in He as (e' & He' & _ & <-). rewrite En. by apply Hf.
  - rewrite Em. apply Permutation_length in Hp. unfold ids in Hp. rewrite !length_fmap in Hp. lia.
Qed.

Lemma ids_front l1 l2 e e' : key e' = key e → addr e' = addr e →
  ids (e' :: l1 ++ l2)%list ≡ₚ ids (l1 ++ e :: l2)%list.
Proof.
  intros Hk Ha. unfold ids. rewrite !fmap_cons, !fmap_app, fmap_cons. cbv beta. rewrite Hk, Ha.
  by rewrite Permutation_middle.
Qed.

Lemma lookup_level_ok level k : level_ok level → level_ok (lookup_level level k).2.
Proof.
  intros Hok. unfold lookup_level. destruct (index level !! k) as [a|] eqn:Ha.
  - destruct (level_hit _ _ _ Hok Ha) as (e & l1 & l2 & Hl & Hk & Hd & Hde & Hun & _).
    rewrite Hde. apply (level_ok_ids level); [done..|]. unfold splice_front. cbn [snd lru_list].
    rewrite Hd, Hun, Hl. by apply ids_front.
  - by apply (level_ok_ids level).
Qed.

(** The pointer a lookup returns denotes the value found, and the level has
    moved it to the front. *)
Lemma lookup_value_spec level k : level_ok level →
  (lookup_value level k).1 = (lru_get k (pairs level)).1 ∧
  pairs (lookup_value level k).2 = (lru_get k (pairs level)).2.
Proof.
  intros Hok. unfold lookup_value, lookup_level, lru_get.
  destruct (index level !! k) as [a|] eqn:Ha.
  - destruct (level_hit _ _ _ Hok Ha) as (e & l1 & l2 & Hl & Hk & Hd & Hde & Hun & -> & ->).
    rewrite Hde. unfold read_value, deref, splice_front. cbn.
    rewrite Hd, Hun, decide_True by done. split; [done|].
    unfold pairs. cbn. unfold pair_of at 1. by rewrite Hk.
  - destruct (level_miss _ _ Hok Ha) as [-> _]. done.
Qed.

Lemma evictBack_spec level l b : level_ok level → lru_list level = (l ++ [b])%list →
  level_ok (evictBack level) ∧ lru_list (evictBack level) = l ∧
  max_entries (evictBack level) = max_entries level ∧
  next_addr (evictBack level) = next_addr level.
Proof.
  intros [Hk Ha Hi Hf Hb] Hl. unfold evictBack. rewrite Hl, last_snoc.
  rewrite length_app, Nat.add_1_r; cbn [pred length]. rewrite take_app_length.
  rewrite Hl in *. rewrite fmap_app in Hk. rewrite fmap_app in Ha. split_and!; [|done..].
  apply NoDup_app in Hk as (Hk & Hkb & _), Ha as (Ha & Hab & _).
  split; cbn; [done|done| | |].
  - intros k a. rewrite lookup_delete_Some, Hi. split.
    + intros (Hne & e & He & <- & <-). apply elem_of_app in He as [He|He%list_elem_of_singleton]; [eauto|congruence].
    + intros (e & He & <- & <-). split.
      * intros Heq. apply (Hkb (key e)); [by apply list_elem_of_fmap_2|]. rewrite <- Heq. left.
      * exists e. split; [|done]. apply elem_of_app. by left.
  - intros e He. apply Hf, elem_of_app. by left.
  - rewrite length_app in Hb. cbn in Hb. lia.
Qed.

Lemma evictWhile_spec fuel over bound level :
  (∀ n, n ≠ O → over n = true ↔ (bound < n)%nat) → level_ok level →
  (length (lru_list level) ≤ fuel)%nat →
  level_ok (evictWhile fuel over level) ∧
  lru_list (evictWhile fuel over level) = take bound (lru_list level) ∧
  max_entries (evictWhile fuel over level) = max_entries level ∧
  next_addr (evictWhile fuel over level) = next_addr level.
Proof.
  intros Hover. revert level. induction fuel as [|fuel IH]; intros level Hok Hfuel; cbn [evictWhile].
  { destruct (lru_list level) eqn:Hl; [|cbn in Hfuel; lia]. by rewrite take_nil. }
  destruct (lru_list level) as [|b l _] eqn:Hl using rev_ind.
  { rewrite andb_false_r, take_nil. by rewrite Hl. }
  rewrite <- Hl in *. assert (length (lru_list level) = S (length l)) as Hlen.
  { rewrite Hl, length_app. cbn. lia. }
  rewrite bool_decide_true, andb_true_r by (intros H; rewrite H in Hlen; done).
  destruct (over (length (lru_list level))) eqn:Ho.
  - apply Hover in Ho; [|lia]. destruct (evictBack_spec _ _ _ Hok Hl) as (Hok' & Hl' & Hm & Hn).
    destruct (IH (evictBack level)) as (? & -> & -> & ->); [done|rewrite Hl'; lia|].
    rewrite Hl', Hl, take_app_le by lia. done.
  - assert (¬ (bound < length (lru_list level))%nat) as Hle.
    { rewrite <- Hover by lia. by rewrite Ho. }
    rewrite take_ge by lia. done.
Qed.

Lemma insert_level_spec level k v : level_ok level →
  level_ok (insert_level level k v) ∧
  pairs (insert_level level k v) = lru_put (max_entries level) k v (pairs level).
Proof.
  intros Hok. unfold insert_level, lru_put. destruct (index level !! k) as [a|] eqn:Ha.
  - destruct (level_hit _ _ _ Hok Ha) as (e & l1 & l2 & Hl & Hk & Hd & -> & Hun & -> & ->).
    unfold splice_front. cbn [addr]. rewrite Hun. split.
    + apply (level_ok_ids level); [done..|]. cbn [lru_list]. rewrite Hl. by apply ids_front.
    + unfold pairs. cbn. unfold pair_of at 1. by rewrite Hk.
  - destruct (level_miss _ _ Hok Ha) as [-> Hne].
    destruct (evictWhile_spec (length (lru_list level)) (λ n, max_entries level <=? n)%nat
      (pred (max_entries level)) level) as (Hok' & Hl & Hm & Hn); [|done|lia|].
    { intros n Hn. rewrite Nat.leb_le. lia. }
    set (level' := evictWhile _ _ _) in *. cbv zeta.
    assert (∀ e, e ∈ lru_list level' → key e ≠ k) as Hne'.
    { rewrite Hl. intros e He. apply Hne. by eapply subseteq_take. }
    destruct Hok' as [Hk Hd Hi Hf Hb]. split; [split; cbn|].
    + apply NoDup_cons. split; [|done]. intros (e & Heq & He)%list_elem_of_fmap. by apply (Hne' e).
    + apply NoDup_cons. split; [|done]. intros (e & Heq & He)%list_elem_of_fmap. apply Hf in He. lia.
    + intros k' a'. rewrite lookup_insert_Some. setoid_rewrite elem_of_cons. split.
      * intros [[<- <-]|[Hk' He]]; [by eexists; split; [left|]|].
        apply Hi in He as (e & He & ?). exists e. by split; [right|].
      * intros (e & [->|He] & <- & <-); [by left|]. right. split; [intros Heq; by apply (Hne' e)|].
        apply Hi. eauto.
    + intros e [->|He]%elem_of_cons; cbn; [lia|]. apply Hf in He. lia.
    + rewrite Hl, length_take. lia.
    + unfold pairs at 1. cbn. rewrite Hl. unfold pairs. by rewrite fmap_take.
Qed.

Lemma remove_level_spec level k : level_ok level →
  level_ok (remove_level level k) ∧ pairs (remove_level level k) = lru_del k (pairs level).
Proof.
  intros Hok. unfold remove_level. destruct (index level !! k) as [a|] eqn:Ha.
  - destruct (level_hit _ _ _ Hok Ha) as (e & l1 & l2 & Hl & Hk & Hd & _ & -> & _ & ->).
    split; [|done]. destruct Hok as [Hks Hds Hi Hf Hb]. rewrite Hl in *.
    rewrite fmap_app, fmap_cons, <- Permutation_middle, <- fmap_app in Hks.
    rewrite fmap_app, fmap_cons, <- Permutation_middle, <- fmap_app in Hds.
    apply NoDup_cons in Hks as [Hk1 Hks], Hds as [Hd1 Hds].
    split; cbn; [done|done| | |].
    + intros k' a'. rewrite lookup_delete_Some, Hi. split.
      * intros (Hne & x & Hx & <- & <-). exists x. split; [|done].
        rewrite <- Permutation_middle in Hx. apply elem_of_cons in Hx as [->|]; congruence.
      * intros (x & Hx & <- & <-). split.
        { intros Heq. apply Hk1. rewrite Hk, Heq. by apply list_elem_of_fmap_2. }
        exists x. rewrite <- Permutation_middle. by split; [right|].
    + intros x Hx. apply Hf. rewrite <- Permutation_middle. by right.
    + rewrite length_app in *. cbn in Hb. lia.
  - destruct (level_miss _ _ Hok Ha) as [_ Hne]. split; [done|].
    unfold lru_del. rewrite filter_out_id; [done|].
    intros p (e & -> & He)%list_elem_of_fmap. by apply Hne.
Qed.

Lemma clear_level_ok level : level_ok (clear_level level).
Proof.
  split; cbn; try apply NoDup_nil_2; try lia.
  - intros k a. split; [by rewrite lookup_empty|]. by intros (e & []%elem_of_nil & _).
  - by intros e []%elem_of_nil.
Qed.

Lemma evict_level_spec level bound : level_ok level →
  level_ok (evict_level level bound) ∧ pairs (evict_level level bound) = take bound (pairs level).
Proof.
  intros Hok. destruct (evictWhile_spec (length (lru_list level)) (λ n, bound <? n)%nat bound level)
    as (Hok' & Hl & _ & _); [by intros n Hn; rewrite Nat.ltb_lt|done|lia|].
  unfold evict_level. split.
  - destruct Hok' as [Hk Hd Hi Hf Hb]. split; cbn [lru_list index next_addr max_entries]; try done. rewrite Hl, length_take. lia.
  - unfold pairs. cbn [lru_list]. rewrite Hl. by rewrite fmap_take.
Qed.

(** ** Runs of a level against the specification *)
Inductive level_op :=
| OpLookup (k : string)
| OpInsert (k v : string)
| OpRemove (k : string)
| OpClear
| OpEvict (bound : nat).

Definition step_level (level : CacheLevel) (op : level_op) : option string * CacheLevel :=
  match op with
  | OpLookup k => lookup_value level k
  | OpInsert k v => (None, insert_level level k v)
  | OpRemove k => (None, remove_level level k)
  | OpClear => (None, clear_level level)
  | OpEvict bound => (None, evict_level level bound)
  end.

(** The specification's state is the bound and the pairs. *)
Definition step_lru (s : nat * list (string * string)) (op : level_op) :
    option string * (nat * list (string * string)) :=
  let '(bound, l) := s in
  match op with
  | OpLookup k => ((lru_get k l).1, (bound, (lru_get k l).2))
  | OpInsert k v => (None, (bound, lru_put bound k v l))
  | OpRemove k => (None, (bound, lru_del k l))
  | OpClear => (None, (bound, []))
  | OpEvict bound' => (None, (bound', take bound' l))
  end.

Fixpoint run {S} (step : S → level_op → option string * S) (s : S) (ops : list level_op) :
    list (option string) * S :=
  match ops with
  | [] => ([], s)
  | op :: ops =>
    let (out, s) := step s op in
    let (outs, s) := run step s ops in (out :: outs, s)
  end.

Definition level_state (level : CacheLevel) : nat * list (string * string) :=
  (max_entries level, pairs level).

Lemma insert_level_max level k v : max_entries (insert_level level k v) = max_entries level.
Proof.
  unfold insert_level. destruct (index level !! k); [done|].
  cbn [max_entries]. generalize (length (lru_list level)) as fuel.
  generalize (λ n, (max_entries level <=? n)%nat) as over. intros over fuel. revert level.
  induction fuel as [|fuel IH]; intros level; [done|]. cbn [evictWhile]. case_match; [|done].
  rewrite IH. unfold evictBack. by destruct (last _).
Qed.

Lemma step_level_refines level op : level_ok level →
  (step_level level op).1 = (step_lru (level_state level) op).1 ∧
  level_state (step_level level op).2 = (step_lru (level_state level) op).2 ∧
  level_ok (step_level level op).2.
Proof.
  intros Hok. destruct op as [k|k v|k| |bound]; cbn.
  - destruct (lookup_value_spec level k Hok) as [-> H2]. split_and!; [done| |].
    + unfold level_state. rewrite H2. f_equal. unfold lookup_value, lookup_level. by destruct (index level !! k).
    + pose proof (lookup_level_ok level k Hok). unfold lookup_value. by destruct (lookup_level level k).
  - destruct (insert_level_spec level k v Hok) as [Hok' Hp]. unfold level_state.
    by rewrite Hp, insert_level_max.
  - destruct (remove_level_spec level k Hok) as [Hok' Hp]. unfold level_state. rewrite Hp.
    split_and!; [done| |done]. unfold remove_level. by case_match.
  - split_and!; [done|done|apply clear_level_ok].
  - destruct (evict_level_spec level bound Hok) as [Hok' Hp]. unfold level_state. by rewrite Hp.
Qed.

Lemma run_level_refines ops level : level_ok level →
  (run step_level level ops).1 = (run step_lru (level_state level) ops).1 ∧
  level_state (run step_level level ops).2 = (run step_lru (level_state level) ops).2 ∧
  level_ok (run step_level level ops).2.
Proof.
  revert level. induction ops as [|op ops IH]; intros level Hok; [done|]. cbn [run].
  destruct (step_level_refines level op Hok) as (H1 & H2 & H3).
  destruct (step_level level op) as [out level'], (step_lru (level_state level) op) as [out' s'].
  cbn in H1, H2, H3. subst. destruct (IH level' H3) as (H1 & H2 & H4).
  destruct (run step_level level' ops), (run step_lru (level_state level') ops). cbn in *. by subst.
Qed.

(** C11: From the empty level, every sequence of lookups, insertions, removals,
    clears and evictions returns the values and reaches the pairs, in order, and
    the bound of the abstract bounded most-recently-used list; the index agrees
    with the list, and the bound holds (a bound of 0 admits one entry). *)
Theorem level_refines_lru (ops : list level_op) :
  let r := run step_level emptyLevel ops in
  let r' := run step_lru (1024%nat, []) ops in
  r.1 = r'.1 ∧ level_state r.2 = r'.2 ∧ level_ok r.2.
Proof. apply (run_level_refines ops emptyLevel), emptyLevel_ok. Qed.

(** Keys an operation touches. *)
Definition op_key (op : level_op) : option string :=
  match op with
  | OpLookup k | OpInsert k _ | OpRemove k => Some k
  | _ => None
  end.
Definition touched (ops : list level_op) : gset string := list_to_set (omap op_key ops).

(** The operations that leave an entry [k] alone: no clear, no explicit eviction,
    no removal or overwriting of [k]. *)
Definition spares (k : string) (op : level_op) : Prop :=
  match op with
  | OpLookup _ => True
  | OpInsert k' _ | OpRemove k' => k' ≠ k
  | _ => False
  end.

(** [k ↦ v] is stored and only keys of [T] are ahead of it. *)
Definition within (T : gset string) (k v : string) (l : list (string * string)) : Prop :=
  ∃ pre post, l = (pre ++ (k, v) :: post)%list ∧ NoDup (fst <$> pre) ∧
    ∀ p, p ∈ pre → p.1 ∈ T ∧ p.1 ≠ k.

Lemma within_length (T : gset string) k (pre : list (string * string)) :
  NoDup (fst <$> pre) → (∀ p, p ∈ pre → p.1 ∈ T ∧ p.1 ≠ k) →
  (length pre ≤ size (T ∖ {[k]}))%nat.
Proof.
  intros Hnd Hpre. rewrite <- (length_fmap fst pre).
  rewrite <- (size_list_to_set (C:=gset string)) by done. apply subseteq_size.
  intros x. rewrite elem_of_list_to_set, elem_of_difference, elem_of_singleton.
  intros (p & -> & Hp)%list_elem_of_fmap. by apply Hpre.
Qed.

Lemma lru_find_app k (l1 l2 : list (string * string)) v :
  (∀ p, p ∈ l1 → p.1 ≠ k) → lru_find k (l1 ++ (k, v) :: l2)%list = Some v.
Proof.
  intros H1. unfold lru_find. rewrite option_fmap_compose.
  induction l1 as [|p l1 IH]; cbn; [by rewrite decide_True|].
  rewrite decide_False by (apply H1; left).
  assert (∀ p, p ∈ l1 → p.1 ≠ k) as H1' by (intros; apply H1; by right).
  specialize (IH H1'). destruct (list_find _ (l1 ++ _)%list) as [[]|]; cbn in *; congruence.
Qed.

Lemma NoDup_fmap_filter {A B} (f : A → B) (P : A → Prop) `{∀ x, Decision (P x)} (l : list A) :
  NoDup (f <$> l) → NoDup (f <$> filter P l).
Proof.
  induction l as [|x l IH]; [done|]. rewrite fmap_cons, NoDup_cons. intros [Hx Hl].
  destruct (decide (P x)); [rewrite filter_cons_True by done|rewrite filter_cons_False by done; auto].
  rewrite fmap_cons. apply NoDup_cons. split; [|auto].
  intros (y & Hy & [_ Hin]%list_elem_of_filter)%list_elem_of_fmap. apply Hx. rewrite Hy.
  by apply list_elem_of_fmap_2.
Qed.

Lemma within_del T k v k' l : k' ≠ k → within T k v l →
  ∃ pre post, lru_del k' l = (pre ++ (k, v) :: post)%list ∧ NoDup (fst <$> pre) ∧
    ∀ p, p ∈ pre → p.1 ∈ T ∧ p.1 ≠ k ∧ p.1 ≠ k'.
Proof.
  intros Hk (pre & post & -> & Hnd & Hpre). unfold lru_del.
  rewrite filter_app, filter_cons_True by (by cbn; auto).
  eexists _, _. split_and!; [reflexivity|by apply NoDup_fmap_filter|].
  intros p [? ?]%list_elem_of_filter. naive_solver.
Qed.

(** Bringing another key to the front keeps [k] within one more key. *)
Lemma within_front T k v k' v' l : k' ≠ k → within T k v l →
  within ({[k']} ∪ T) k v ((k', v') :: lru_del k' l).
Proof.
  intros Hk Hw. destruct (within_del _ _ _ _ _ Hk Hw) as (pre & post & -> & Hnd & Hpre).
  exists ((k', v') :: pre), post. split_and!; [done| |].
  - rewrite fmap_cons. apply NoDup_cons. split; [|done].
    intros (p & Hp & Hin)%list_elem_of_fmap. cbn in Hp. apply Hpre in Hin. naive_solver.
  - intros p [->|Hp]%elem_of_cons; cbn.
    + split; [|done]. rewrite elem_of_union, elem_of_singleton. by left.
    + apply Hpre in Hp. rewrite elem_of_union. naive_solver.
Qed.

Lemma within_mono T T' k v l : T ⊆ T' → within T k v l → within T' k v l.
Proof. intros HT (pre & post & -> & Hnd & Hpre). exists pre, post. naive_solver. Qed.

Lemma within_push T k v k' v' bound l :
  k' ≠ k → lru_find k' l = None → within T k v l →
  (size (({[k']} ∪ T) ∖ {[k]}) < bound)%nat →
  within ({[k']} ∪ T) k v ((k', v') :: take (pred bound) l).
Proof.
  intros Hk Hnone (pre & post & -> & Hnd & Hpre) Hsize.
  assert (∀ p, p ∈ pre → p.1 ≠ k') as Hne.
  { intros p Hp <-. revert Hnone. unfold lru_find. rewrite option_fmap_compose.
    destruct (list_find _ _) as [[i x]|] eqn:Hf; [done|]. intros _.
    apply list_find_None in Hf. rewrite Forall_app, Forall_forall in Hf. by apply (proj1 Hf p). }
  assert (NoDup (fst <$> (k', v') :: pre)) as Hnd'.
  { rewrite fmap_cons. apply NoDup_cons. split; [|done].
    intros (p & Hp & Hin)%list_elem_of_fmap. by apply (Hne p). }
  assert (∀ p, p ∈ (k', v') :: pre → p.1 ∈ {[k']} ∪ T ∧ p.1 ≠ k) as Hpre'.
  { intros p [->|Hp]%elem_of_cons; cbn; rewrite elem_of_union, elem_of_singleton; [by split; [left|]|].
    apply Hpre in Hp. naive_solver. }
  pose proof (within_length _ _ _ Hnd' Hpre') as Hlen. cbn in Hlen.
  exists ((k', v') :: pre), (take (pred bound - length pre - 1) post). split_and!; [|done|done].
  cbn. f_equal. rewrite take_app_ge by lia. f_equal.
  destruct (pred bound - length pre)%nat as [|n] eqn:Hn; [lia|]. cbn. by rewrite Nat.sub_0_r.
Qed.

Lemma within_step T k v bound l op : spares k op → within T k v l →
  (size ((list_to_set (option_list (op_key op)) ∪ T) ∖ {[k]}) < bound)%nat →
  let s := (step_lru (bound, l) op).2 in
  s.1 = bound ∧ within (list_to_set (option_list (op_key op)) ∪ T) k v s.2.
Proof.
  intros Hop Hw Hsize. destruct op as [k'|k' v'|k'| |]; cbn in *; try done; (split; [done|]).
  - unfold lru_get. destruct (decide (k' = k)) as [->|Hk].
    + destruct Hw as (pre & post & -> & Hnd & Hpre). rewrite lru_find_app by naive_solver. cbn.
      eexists [], _. split_and!; [done|apply NoDup_nil_2|]. by intros p []%elem_of_nil.
    + destruct (lru_find k' l); cbn; rewrite (right_id_L ∅ (∪)).
      * by apply within_front.
      * eapply within_mono, Hw. set_solver.
  - rewrite (right_id_L ∅ (∪)) in *. unfold lru_put. destruct (lru_find k' l) eqn:Hf.
    + by apply within_front.
    + by apply within_push.
  - destruct (within_del _ _ _ _ _ Hop Hw) as (pre & post & -> & Hnd & Hpre).
    exists pre, post. split_and!; [done|done|]. intros p Hp. apply Hpre in Hp.
    rewrite elem_of_union. naive_solver.
Qed.

Lemma touched_cons op ops :
  touched (op :: ops) = list_to_set (option_list (op_key op)) ∪ touched ops.
Proof. unfold touched. cbn. destruct (op_key op); cbn; set_solver. Qed.

Lemma run_within k v bound ops T l : Forall (spares k) ops → within T k v l →
  (size ((touched ops ∪ T) ∖ {[k]}) < bound)%nat →
  let s := (run step_lru (bound, l) ops).2 in
  s.1 = bound ∧ within (touched ops ∪ T) k v s.2.
Proof.
  revert T l. induction ops as [|op ops IH]; intros T l Hops Hw Hsize; cbn [run].
  { split; [done|]. eapply within_mono, Hw. set_solver. }
  apply Forall_cons in Hops as [Hop Hops]. rewrite touched_cons in Hsize |- *.
  destruct (within_step T k v bound l op) as [Hb Hw']; [done|done| |].
  { eapply Nat.le_lt_trans, Hsize. apply subseteq_size. set_solver. }
  destruct (step_lru (bound, l) op) as [out [b l']]. cbn in Hb, Hw'. subst b.
  destruct (IH _ l' Hops Hw') as [Hb Hw'']; [eapply Nat.le_lt_trans, Hsize; apply subseteq_size; set_solver|].
  destruct (run step_lru (bound, l') ops) as [outs s]. cbn in *.
  split; [done|]. eapply within_mono, Hw''. set_solver.
Qed.

(** An entry survives as long as fewer than [max_entries] other keys are
    used: whatever lookups, insertions and removals of other keys follow, a value
    just inserted is found again if they touch fewer than the bound of distinct
    other keys. *)
Theorem recently_used_survives level k v ops :
  level_ok level → Forall (spares k) ops →
  (size (touched ops ∖ {[k]}) < max_entries level)%nat →
  (lookup_value (run step_level (insert_level level k v) ops).2 k).1 = Some v.
Proof.
  intros Hok Hops Hsize. destruct (insert_level_spec level k v Hok) as [Hok' Hp].
  destruct (run_level_refines ops _ Hok') as (_ & Hs & Hok'').
  destruct (lookup_value_spec _ k Hok'') as [-> _].
  assert (within ∅ k v (pairs (insert_level level k v))) as Hw.
  { rewrite Hp. unfold lru_put. destruct (lru_find k (pairs level));
      (eexists [], _; split_and!; [done|apply NoDup_nil_2|by intros p []%elem_of_nil]). }
  unfold level_state at 2 in Hs. rewrite insert_level_max in Hs.
  destruct (run_within k v (max_entries level) ops ∅ _ Hops Hw) as [_ (pre & post & Heq & _ & Hpre)].
  { by rewrite (right_id_L ∅ (∪)). }
  rewrite <- Hs in Heq. cbn in Heq. unfold lru_get. rewrite Heq, lru_find_app by naive_solver. done.
Qed.

Lemma recently_used_survives_witness :
  (lookup_value (run step_level (insert_level (evict_level emptyLevel 2) "k" "v")
     [OpInsert "a" "1"; OpLookup "k"; OpInsert "a" "2"; OpRemove "a"]).2 "k").1 = Some "v".
Proof.
  apply recently_used_survives.
  - apply evict_level_spec, emptyLevel_ok.
  - repeat (apply Forall_cons; split; [done|]). apply Forall_nil_2.
  - apply Nat.ltb_lt. vm_compute. reflexivity.
Defined.

Lemma lru_find_cons k (p : string * string) l :
  lru_find k (p :: l) = if decide (p.1 = k) then Some p.2 else lru_find k l.
Proof.
  unfold lru_find. cbn. destruct (decide (p.1 = k)); [done|]. by destruct (list_find _ l) as [[]|].
Qed.

Lemma lru_find_del k k' l : k' ≠ k → lru_find k' (lru_del k l) = lru_find k' l.
Proof.
  intros Hne. unfold lru_del. induction l as [|p l IH]; [done|]. rewrite lru_find_cons.
  destruct (decide (p.1 = k)).
  - rewrite filter_cons_False, IH by tauto. by rewrite decide_False by congruence.
  - rewrite filter_cons_True by done. by rewrite lru_find_cons, IH.
Qed.

Lemma lru_find_take k n l w : lru_find k (take n l) = Some w → lru_find k l = Some w.
Proof.
  revert n. induction l as [|p l IH]; intros [|n]; cbn [take]; try done.
  rewrite !lru_find_cons. case_decide; [done|]. apply IH.
Qed.

Lemma lru_get_find k l : (lru_get k l).1 = lru_find k l.
Proof. unfold lru_get. by destruct (lru_find k l). Qed.

(** After a put, a lookup under its key finds the value put, and one under
    another key finds nothing it did not find before. *)
Lemma lru_find_put bound k v l : lru_find k (lru_put bound k v l) = Some v.
Proof. unfold lru_put. destruct (lru_find k l); by rewrite lru_find_cons, decide_True. Qed.

Lemma lru_find_put_ne bound k v k' l w : k' ≠ k →
  lru_find k' (lru_put bound k v l) = Some w → lru_find k' l = Some w.
Proof.
  intros Hne. unfold lru_put. destruct (lru_find k l); rewrite lru_find_cons, decide_False by auto.
  - by rewrite lru_find_del.
  - apply lru_find_take.
Qed.

Lemma lookup_value_find level k : level_ok level →
  (lookup_value level k).1 = lru_find k (pairs level).
Proof. intros Hok. destruct (lookup_value_spec level k Hok) as [-> _]. apply lru_get_find. Qed.

Lemma lookup_insert_level level k v : level_ok level →
  (lookup_value (insert_level level k v) k).1 = Some v.
Proof.
  intros Hok. destruct (insert_level_spec level k v Hok) as [Hok' Hp].
  by rewrite lookup_value_find, Hp, lru_find_put.
Qed.

Lemma lookup_insert_level_ne level k v k' w : level_ok level → k' ≠ k →
  (lookup_value (insert_level level k v) k').1 = Some w → (lookup_value level k').1 = Some w.
Proof.
  intros Hok Hne. destruct (insert_level_spec level k v Hok) as [Hok' Hp].
  rewrite !lookup_value_find, Hp by done. by apply lru_find_put_ne.
Qed.

(** ** Binary keys *)
Lemma le_string_length n z : String.length (le_string n z) = n.
Proof. revert z. induction n as [|n IH]; intros z; cbn; [done|]. by rewrite IH. Qed.

Lemma le_value_string n z : le_value n (le_string n z) = z `mod` 2 ^ (8 * Z.of_nat n).
Proof.
  revert z. induction n as [|n IH]; intros z; cbn [le_string le_value].
  { by rewrite Z.mod_1_r. }
  pose proof (Z.mod_pos_bound z 256 ltac:(lia)) as Hb.
  rewrite IH, Ascii.N_ascii_embedding by lia. rewrite Z2N.id by lia.
  replace (2 ^ (8 * Z.of_nat (S n))) with (256 * 2 ^ (8 * Z.of_nat n)).
  - rewrite Z.rem_mul_r; lia.
  - replace (8 * Z.of_nat (S n)) with (8 + 8 * Z.of_nat n) by lia. rewrite Z.pow_add_r by lia. lia.
Qed.

(** A field determines its value modulo its width. *)
Lemma le_string_inj n a b s t : le_string n a +:+ s = le_string n b +:+ t →
  a `mod` 2 ^ (8 * Z.of_nat n) = b `mod` 2 ^ (8 * Z.of_nat n) ∧ s = t.
Proof.
  intros Heq. apply str_app_inj_length in Heq as [Hab ->]; [|by rewrite !le_string_length].
  split; [|done]. by rewrite <- !le_value_string, Hab.
Qed.

Lemma i64_mod_inj a b : in_i64 a → in_i64 b → a `mod` 2 ^ 64 = b `mod` 2 ^ 64 → a = b.
Proof. unfold in_i64. intros. Z.to_euclidean_division_equations. nia. Qed.
Lemma u64_mod_inj a b : in_u64 a → in_u64 b → a `mod` 2 ^ 64 = b `mod` 2 ^ 64 → a = b.
Proof. unfold in_u64. intros ??. by rewrite !Z.mod_small. Qed.

Definition kernelKey_ok (k : KernelKey) : Prop :=
  in_i64 (M_bucket k) ∧ in_i64 (kk_N k) ∧ in_i64 (kk_K k) ∧ 0 ≤ thread_count k < 2 ^ 16 ∧
  in_u64 (compiler_version k) ∧ in_u64 (schedule_version k).

Definition weightKey_ok (k : WeightKey) : Prop :=
  in_u64 (weight_ptr k) ∧ in_u64 (shape_hash k) ∧ in_i64 (BK k) ∧ in_i64 (BN k) ∧
  in_i64 (wk_K k) ∧ in_i64 (wk_N k).

Lemma kernelKeyToString_inj k k' : kernelKey_ok k → kernelKey_ok k' →
  kernelKeyToString k = kernelKeyToString k' → k = k'.
Proof.
  intros (H1 & H2 & H3 & H4 & H5 & H6) (H1' & H2' & H3' & H4' & H5' & H6').
  unfold kernelKeyToString. intros Heq.
  rewrite <- (str_app_nil_r (le_string 8 (schedule_version k))),
    <- (str_app_nil_r (le_string 8 (schedule_version k'))) in Heq.
  apply le_string_inj in Heq as [Eop Heq].
  apply le_string_inj in Heq as [Ein Heq].
  apply le_string_inj in Heq as [Eout Heq].
  apply le_string_inj in Heq as [EM%i64_mod_inj Heq]; [|done..].
  apply le_string_inj in Heq as [EN%i64_mod_inj Heq]; [|done..].
  apply le_string_inj in Heq as [EK%i64_mod_inj Heq]; [|done..].
  apply le_string_inj in Heq as [El Heq].
  apply le_string_inj in Heq as [Ei Heq].
  apply le_string_inj in Heq as [Em Heq].
  apply le_string_inj in Heq as [Et Heq].
  apply le_string_inj in Heq as [Ec%u64_mod_inj Heq]; [|done..].
  apply le_string_inj in Heq as [Es%u64_mod_inj _]; [|done..].
  assert (thread_count k = thread_count k') as Et'.
  { change (thread_count k `mod` 2 ^ 16 = thread_count k' `mod` 2 ^ 16) in Et.
    by rewrite !Z.mod_small in Et. }
  destruct k as [op i o ? ? ? l isa m ? ? ?], k' as [op' i' o' ? ? ? l' isa' m' ? ? ?]; cbn in *.
  subst. destruct op, op'; try done; destruct i, i'; try done; destruct o, o'; try done;
    destruct l, l'; try done; destruct m, m'; try done; destruct isa, isa'; done.
Qed.

Lemma weightKeyToString_inj k k' : weightKey_ok k → weightKey_ok k' →
  weightKeyToString k = weightKeyToString k' → k = k'.
Proof.
  intros (H1 & H2 & H3 & H4 & H5 & H6) (H1' & H2' & H3' & H4' & H5' & H6').
  unfold weightKeyToString. intros Heq.
  rewrite <- (str_app_nil_r (le_string 8 (wk_N k))), <- (str_app_nil_r (le_string 8 (wk_N k'))) in Heq.
  apply le_string_inj in Heq as [E1%u64_mod_inj Heq]; [|done..].
  apply le_string_inj in Heq as [E2%u64_mod_inj Heq]; [|done..].
  apply le_string_inj in Heq as [E3%i64_mod_inj Heq]; [|done..].
  apply le_string_inj in Heq as [E4%i64_mod_inj Heq]; [|done..].
  apply le_string_inj in Heq as [E5%i64_mod_inj Heq]; [|done..].
  apply le_string_inj in Heq as [E6%i64_mod_inj _]; [|done..].
  destruct k, k'; cbn in *; congruence.
Qed.

(** ** The whole cache *)
Section laws.
Context {J M : Type} (compile : J → M → result string Z * J).
Implicit Types (c : JitCache J).

Definition cache_ok c : Prop :=
  level_ok (ir_cache_ c) ∧ level_ok (optimized_cache_ c) ∧ level_ok (object_cache_ c) ∧
  level_ok (weight_cache_ c).

Lemma newJitCache_ok (jit : J) : cache_ok (newJitCache jit).
Proof. split_and!; apply emptyLevel_ok. Qed.

Lemma lookup_value_ok level k : level_ok level → level_ok (lookup_value level k).2.
Proof. intros Hok. by destruct (step_level_refines level (OpLookup k) Hok) as (_ & _ & ?). Qed.

(** Every operation keeps the four levels well formed. *)
Lemma lookupObjectCode_ok c key : cache_ok c → cache_ok (lookupObjectCode c key).2.
Proof.
  intros (H1 & H2 & H3 & H4). unfold lookupObjectCode.
  pose proof (lookup_value_ok _ (kernelKeyToString key) H3) as H. destruct (lookup_value _ _). by split_and!.
Qed.
Lemma insertObjectCode_ok c key fn : cache_ok c → cache_ok (insertObjectCode c key fn).
Proof. intros (H1 & H2 & H3 & H4). split_and!; try done. by apply insert_level_spec. Qed.
Lemma insertPackedWeights_ok c key b : cache_ok c → cache_ok (insertPackedWeights c key b).
Proof. intros (H1 & H2 & H3 & H4). split_and!; try done. by apply insert_level_spec. Qed.
Lemma evictLRU_ok c n b : cache_ok c → cache_ok (evictLRU c n b).
Proof.
  intros (H1 & H2 & H3 & H4).
  destruct n as [|[|[|[|[|n]]]]]; cbn; split_and!; try done; by apply evict_level_spec.
Qed.

Definition decode_fn (v : string) : option Z :=
  if (String.length v <? 8)%nat then None else Some (le_value 8 v).

Lemma lookupObjectCode_value c key :
  (lookupObjectCode c key).1 = (lookup_value (object_cache_ c) (kernelKeyToString key)).1 ≫= decode_fn.
Proof. unfold lookupObjectCode. by destruct (lookup_value _ _). Qed.

Lemma lookupPackedWeights_value c key :
  (lookupPackedWeights c key).1 = (lookup_value (weight_cache_ c) (weightKeyToString key)).1.
Proof. unfold lookupPackedWeights. by destruct (lookup_value _ _). Qed.

Lemma decode_le_string fn : in_u64 fn → decode_fn (le_string 8 fn) = Some fn.
Proof.
  intros Hfn. unfold decode_fn. rewrite le_string_length. change (8 <? 8)%nat with false. cbv iota.
  rewrite le_value_string. f_equal. by apply Z.mod_small.
Qed.

(** A kernel inserted in the object cache is what a lookup with its key
    returns, and an insertion under one key never makes a lookup with any other
    key return a kernel it did not return before: the 48-byte key is injective
    and the pointer survives its 8-byte encoding. *)
Theorem object_code_roundtrip c key key' fn fn' :
  cache_ok c → in_u64 fn → kernelKey_ok key → kernelKey_ok key' → key' ≠ key →
  (lookupObjectCode (insertObjectCode c key fn) key).1 = Some fn ∧
  ((lookupObjectCode (insertObjectCode c key fn) key').1 = Some fn' →
   (lookupObjectCode c key').1 = Some fn').
Proof.
  intros (_ & _ & Hok & _) Hfn Hk Hk' Hne. rewrite !lookupObjectCode_value. cbn [insertObjectCode set_level object_cache_].
  split.
  - rewrite lookup_insert_level by done. by apply decode_le_string.
  - intros (w & Hw & Hdec)%bind_Some.
    apply lookup_insert_level_ne in Hw; [|done|].
    + by rewrite Hw.
    + intros Heq. by apply Hne, kernelKeyToString_inj.
Qed.

(** A packed-weight buffer is retrieved only for the tensor it was packed
    from: a lookup for a tensor with another address, other extents or another
    block size never returns a buffer inserted for this one, while the same
    tensor finds it. *)
Theorem packed_weights_never_alias c t t' bk bk' blob blob' :
  cache_ok c → weightKey_ok (makeWeightKey t bk) → weightKey_ok (makeWeightKey t' bk') →
  (tdata t, dim0 t, dim1 t, bk) ≠ (tdata t', dim0 t', dim1 t', bk') →
  let c' := insertPackedWeights c (makeWeightKey t bk) blob in
  (lookupPackedWeights c' (makeWeightKey t bk)).1 = Some blob ∧
  ((lookupPackedWeights c' (makeWeightKey t' bk')).1 = Some blob' →
   (lookupPackedWeights c (makeWeightKey t' bk')).1 = Some blob').
Proof.
  intros (_ & _ & _ & Hok) Hk Hk' Hne c'. rewrite !lookupPackedWeights_value. split.
  - by apply lookup_insert_level.
  - apply lookup_insert_level_ne; [done|]. intros Heq. apply weightKeyToString_inj in Heq; [|done..].
    unfold makeWeightKey in Heq. congruence.
Qed.

(** A second request for a compiled module is answered from the map, without
    the JIT. *)
Lemma lookupOrCompile_again c k m m' fn c' :
  lookupOrCompile compile c k m = (Ok fn, c') → lookupOrCompile compile c' k m' = (Ok fn, c').
Proof.
  unfold lookupOrCompile. destruct (cache_ c !! k) as [fn0|] eqn:Hk.
  - intros [= <- <-]. by rewrite Hk.
  - destruct (compile (jit_ c) m) as [[fn0|e] jit]; [|done]. intros [= <- <-]. cbn.
    by rewrite lookup_insert_eq.
Qed.
End laws.

(** ** What is not guaranteed *)

(** The pointer [lookup] returns is read after the level's lock is released.
    Another thread's [insert] in between may evict the node it points into: from
    the empty cache with a bound of 1, one insertion, a lookup that hits, and an
    insertion by another thread leave the first thread with a dangling pointer. *)
Theorem lookup_pointer_dangles :
  let level := (run step_level emptyLevel [OpEvict 1; OpInsert "k" "v"]).2 in
  level_ok level ∧
  ∃ a, (lookup_level level "k").1 = Some a ∧
    read_value (lookup_level level "k").2 a = Some "v" ∧
    read_value (insert_level (lookup_level level "k").2 "other" "w") a = None.
Proof.
  split; [apply (run_level_refines _ emptyLevel), emptyLevel_ok|].
  exists O. split_and!; vm_compute; reflexivity.
Qed.

(** A bound of 0 is not enforced: the entry just inserted stays. *)
Lemma zero_bound_keeps_one :
  length (lru_list (run step_level emptyLevel [OpEvict 0; OpInsert "k" "v"]).2) = 1%nat.
Proof. reflexivity. Qed.

Definition sample_key : KernelKey := mkKernelKey FusedSwiGLU BF16 FP32 (-1) 128 256 PackedKN NEON Strict 4 1 2.
Definition sample_key2 : KernelKey := mkKernelKey FusedSwiGLU BF16 FP32 (-1) 128 255 PackedKN NEON Strict 4 1 2.

Lemma object_code_roundtrip_witness :
  (lookupObjectCode (insertObjectCode (newJitCache tt) sample_key 4096) sample_key).1 = Some 4096 ∧
  ((lookupObjectCode (insertObjectCode (newJitCache tt) sample_key 4096) sample_key2).1 = Some 1 →
   (lookupObjectCode (newJitCache tt) sample_key2).1 = Some 1).
Proof.
  apply object_code_roundtrip; [apply newJitCache_ok| | | |].
  - unfold in_u64. lia.
  - unfold kernelKey_ok, in_i64, in_u64. cbn. lia.
  - unfold kernelKey_ok, in_i64, in_u64. cbn. lia.
  - discriminate.
Defined.

Definition sample_tensor (data k n : Z) : Tensor2D := mkTensor2D data k n n 1.

Lemma packed_weights_never_alias_witness :
  let c' := insertPackedWeights (newJitCache tt) (makeWeightKey (sample_tensor 64 8 16) 4) "blob" in
  (lookupPackedWeights c' (makeWeightKey (sample_tensor 64 8 16) 4)).1 = Some "blob" ∧
  ((lookupPackedWeights c' (makeWeightKey (sample_tensor 64 16 8) 4)).1 = Some "x" →
   (lookupPackedWeights (newJitCache tt) (makeWeightKey (sample_tensor 64 16 8) 4)).1 = Some "x").
Proof.
  apply packed_weights_never_alias; [apply newJitCache_ok| | |discriminate].
  - unfold weightKey_ok, in_i64, in_u64. vm_compute. intuition congruence.
  - unfold weightKey_ok, in_i64, in_u64. vm_compute. intuition congruence.
Defined.
