(* ===== verification/StorageLiveness.v ===== *)
(** Live storage from a schedule: include/LLK/Mapping/StorageLiveness.h and
    lib/Mapping/StorageLiveness.cpp, with [StorageAllocation] and [PlanStepEdge]
    of include/LLK/Mapping/MappingPlan.h.

    [analyzeStorageLiveness] gives every allocation the window of event time in
    which the schedule touches it, merges the windows of allocations that share
    storage, and reports the peak bytes of each memory; the theorems say that the
    peak is the maximum over all instants although only window starts are tried,
    which inputs are rejected, and that the edges of [requiredReuseEdgesFor] keep
    the occupants of one buffer apart.

    Of the plan only [allocations] is read.  Ids, steps, bytes and times are
    integers; positions in a vector are [nat].  [llvm::DenseMap] from ids to
    positions is [gmap]. *)
From S2P Require Import Prelude EventSchedule.
Open Scope string_scope.
Open Scope Z_scope.

(** ** Data *)
Record StorageAllocation := mkAllocation {
  al_id : Z;
  al_value : Z;
  al_memory : string;
  al_bytes : Z;
  aliasOf : option Z;
  beginStep : Z;
  endStep : Z;
  borrowed : bool;
  simultaneousOccurrences : Z;
}.

Record PlanStepEdge := mkEdge { from : Z; to : Z }.
#[export] Instance PlanStepEdge_eq_dec : EqDecision PlanStepEdge.
Proof. solve_decision. Defined.

Record LiveWindow := mkWindow {
  w_start : Z;
  w_end : Z;
  residency : Z;
  readStart : Z;
  writeStart : Z;
  written : bool;
  touched : bool;
}.

Definition noWindow : LiveWindow := mkWindow 0 0 0 0 0 false false.

Record StorageLivenessResult := mkLiveness {
  peakBytes : gmap string Z;
  requiredReuseEdges : list PlanStepEdge;
}.

Inductive liveness_error :=
| NotCovered (entries events : nat)
| DuplicateId (id : Z)
| EntryNames (event id : nat)
| UnknownTouched (event : nat) (id : Z)
| Untouched (id : Z) (memory : string)
| CyclicAlias (id : Z)
| UnknownAlias (id target : Z)
| FootprintOverflow (id : Z)
| LiveOverflow (memory : string).

(** ** Reuse *)

(** [indexById[allocations[index].id] = index], the later position winning. *)
Definition indexOf (allocations : list StorageAllocation) : gmap Z nat :=
  foldl (λ m p, <[al_id p.2 := p.1]> m) ∅ (imap (λ i a, (i, a)) allocations).

(** Following [aliasOf] from [index]: [seen] has the positions already left, so a
    chain has at most [length allocations] steps. *)
Fixpoint rootOf_loop (fuel : nat) (allocations : list StorageAllocation)
    (seen : list nat) (index : nat) : nat :=
  match fuel with
  | O => index
  | S fuel =>
    match allocations !! index ≫= aliasOf with
    | None => index
    | Some target =>
      match indexOf allocations !! target with
      | None => index
      | Some next =>
        if contains seen index then index
        else rootOf_loop fuel allocations (seen ++ [index]) next
      end
    end
  end.

Definition rootOf (allocations : list StorageAllocation) (index : nat) : nat :=
  rootOf_loop (S (length allocations)) allocations [] index.

(** The comparator of the members of a root. *)
Definition begins_before (allocations : list StorageAllocation) (lhs rhs : nat) : Prop :=
  match allocations !! lhs, allocations !! rhs with
  | Some l, Some r =>
    beginStep l < beginStep r ∨ (beginStep l = beginStep r ∧ al_id l ≤ al_id r)
  | _, _ => False
  end.
#[export] Instance begins_before_dec allocations : RelDecision (begins_before allocations).
Proof. intros l r. unfold begins_before. repeat case_match; apply _. Defined.

Definition membersByRoot (allocations : list StorageAllocation) (root : nat) : list nat :=
  filter (λ i, rootOf allocations i = root) (seq 0 (length allocations)).

(** The edges between consecutive members. *)
Fixpoint edges_along (allocations : list StorageAllocation) (members : list nat) : list PlanStepEdge :=
  match members with
  | prev :: ((next :: _) as rest) =>
    match allocations !! prev, allocations !! next with
    | Some p, Some n => [mkEdge (endStep p) (beginStep n)]
    | _, _ => []
    end ++ edges_along allocations rest
  | _ => []
  end%list.

Definition edges_of_root (allocations : list StorageAllocation) (root : nat) : list PlanStepEdge :=
  let members := membersByRoot allocations root in
  if (length members <? 2)%nat then []
  else edges_along allocations (merge_sort (begins_before allocations) members).

Definition edge_le (lhs rhs : PlanStepEdge) : Prop :=
  if decide (from lhs = from rhs) then to lhs ≤ to rhs else from lhs < from rhs.
#[export] Instance edge_le_dec : RelDecision edge_le.
Proof. intros l r. unfold edge_le. destruct (decide (from l = from r)); apply _. Defined.

(** Sorted, without the consecutive duplicates. *)
Definition requiredReuseEdgesFor (allocations : list StorageAllocation) : list PlanStepEdge :=
  merge_sort edge_le
    (remove_dups (mjoin (edges_of_root allocations <$> seq 0 (length allocations)))).

(** ** Live windows *)

(** One use of a placed event. *)
Definition touch (w : LiveWindow) (placed : ScheduledEvent) (access : StorageAccess) : LiveWindow :=
  let w := if touched w then w
    else mkWindow (sch_start placed) (sch_finish placed) (residency w) (sch_start placed)
           (sch_start placed) (written w) true in
  let w_end' := Z.max (w_end w) (sch_finish placed) in
  match access with
  | Write => mkWindow (w_start w) w_end' (residency w) (readStart w)
               (Z.min (writeStart w) (sch_start placed)) true (touched w)
  | Read => mkWindow (w_start w) w_end' (residency w) (Z.min (readStart w) (sch_start placed))
              (writeStart w) (written w) (touched w)
  end.

Definition set_residency (w : LiveWindow) (r : Z) : LiveWindow :=
  mkWindow (w_start w) (w_end w) r (readStart w) (writeStart w) (written w) (touched w).

(** The uses of one event: the windows, and the occurrences named per position. *)
Definition useStep (byId : gmap Z nat) (e : nat) (placed : ScheduledEvent)
    (s : list LiveWindow * gmap nat (gset Z)) (use : StorageUse) :
    result liveness_error (list LiveWindow * gmap nat (gset Z)) :=
  match byId !! use_allocation use with
  | None => Err (UnknownTouched e (use_allocation use))
  | Some index =>
    Ok (alter (λ w, touch w placed (use_access use)) index s.1,
        <[index := {[use_occurrence use]} ∪ default ∅ (s.2 !! index)]> s.2)
  end.

(** [window.residency = max(window.residency, occurrences.size())]. *)
Definition raise_residency (occurrences : gmap nat (gset Z)) (i : nat) (w : LiveWindow) : LiveWindow :=
  match occurrences !! i with
  | None => w
  | Some occ => set_residency w (Z.max (residency w) (Z.of_nat (size occ)))
  end.

Definition eventStep (byId : gmap Z nat) (entries : list ScheduledEvent) (e : nat)
    (windows : list LiveWindow) (ev : PlanCostEvent) : result liveness_error (list LiveWindow) :=
  match entries !! e with
  | None => Ok windows
  | Some placed =>
    fail! (EntryNames e (sch_id placed)) when negb (sch_id placed =? e)%nat;
    s ← fold_result (useStep byId e placed) (windows, ∅) (storageUses ev);
    Ok (imap (raise_residency s.2) s.1)
  end.

(** The window the uses leave: opened by the write if there is one. *)
Definition closeWindow (w : LiveWindow) : LiveWindow :=
  mkWindow (if written w then writeStart w else readStart w) (w_end w)
    (if residency w =? 0 then 1 else residency w) (readStart w) (writeStart w) (written w) (touched w).

Fixpoint closeWindows (allocations : list StorageAllocation) (windows : list LiveWindow) :
    result liveness_error (list LiveWindow) :=
  match allocations, windows with
  | a :: allocations, w :: windows =>
    fail! (Untouched (al_id a) (al_memory a)) when negb (touched w);
    rest ← closeWindows allocations windows;
    Ok (closeWindow w :: rest)
  | _, _ => Ok []
  end.

(** The ids, each new. *)
Definition indexStep (s : gmap Z nat) (p : nat * StorageAllocation) : result liveness_error (gmap Z nat) :=
  fail! (DuplicateId (al_id p.2)) when bool_decide (is_Some (s !! al_id p.2));
  Ok (<[al_id p.2 := p.1]> s).

Definition indexUnique (allocations : list StorageAllocation) : result liveness_error (gmap Z nat) :=
  fold_result indexStep ∅ (imap (λ i a, (i, a)) allocations).

(** The root of one allocation's alias chain; a repeated position is a cycle. *)
Fixpoint chainRoot_loop (fuel : nat) (allocations : list StorageAllocation) (byId : gmap Z nat)
    (seen : list nat) (current : nat) : result liveness_error nat :=
  match fuel with
  | O => Err (CyclicAlias 0)
  | S fuel =>
    match allocations !! current with
    | None => Ok current
    | Some a =>
      match aliasOf a with
      | None => Ok current
      | Some target =>
        fail! (CyclicAlias (al_id a)) when contains seen current;
        match byId !! target with
        | None => Err (UnknownAlias (al_id a) target)
        | Some next => chainRoot_loop fuel allocations byId (seen ++ [current]) next
        end
      end
    end
  end.

Definition chainRoot (allocations : list StorageAllocation) (byId : gmap Z nat) (index : nat) :
    result liveness_error nat :=
  chainRoot_loop (S (length allocations)) allocations byId [] index.

Fixpoint map_result {E A B} (f : A → result E B) (xs : list A) : result E (list B) :=
  match xs with
  | [] => Ok []
  | x :: xs => y ← f x; ys ← map_result f xs; Ok (y :: ys)
  end.

(** The window of a storage root: the hull of its members'. *)
Definition hull (group w : LiveWindow) : LiveWindow :=
  mkWindow (Z.min (w_start group) (w_start w)) (Z.max (w_end group) (w_end w))
    (Z.max (residency group) (residency w)) (readStart group) (writeStart group) (written group)
    (touched group).

Definition groupStep (groups : gmap nat LiveWindow) (p : nat * LiveWindow) : gmap nat LiveWindow :=
  match groups !! p.1 with
  | None => <[p.1 := p.2]> groups
  | Some group => <[p.1 := hull group p.2]> groups
  end.

(** The groups in the order of the map, with the allocation each is named by. *)
Definition groupList (allocations : list StorageAllocation) (roots : list nat)
    (windows : list LiveWindow) : list (StorageAllocation * LiveWindow) :=
  let groups := foldl groupStep ∅ (zip roots windows) in
  omap (λ p, w ← groups !! p.1; Some (p.2, w)) (imap (λ i a, (i, a)) allocations).

(** ** The peak *)
Definition covers (time : Z) (w : LiveWindow) : bool := (w_start w <=? time) && (time <? w_end w).

Definition liveStep (time : Z) (live : gmap string Z) (g : StorageAllocation * LiveWindow) :
    result liveness_error (gmap string Z) :=
  if negb (covers time g.2) then Ok live
  else
    match checked_mul_u64 (al_bytes g.1) (residency g.2) with
    | None => Err (FootprintOverflow (al_id g.1))
    | Some weight =>
      match checked_add_u64 (default 0 (live !! al_memory g.1)) weight with
      | None => Err (LiveOverflow (al_memory g.1))
      | Some held => Ok (<[al_memory g.1 := held]> live)
      end
    end.

Definition peakStep (groups : list (StorageAllocation * LiveWindow)) (peak : gmap string Z) (time : Z) :
    result liveness_error (gmap string Z) :=
  live ← fold_result (liveStep time) ∅ groups;
  Ok (union_with (λ p v, Some (Z.max p v)) peak live).

Definition candidateTimes (groups : list (StorageAllocation * LiveWindow)) : list Z :=
  merge_sort Z.le (remove_dups ((λ g, w_start g.2) <$> groups)).

(** The storage roots with their windows: the part of [analyzeStorageLiveness]
    before the peak. *)
Definition storageGroups (allocations : list StorageAllocation) (dag : PlanEventDAG)
    (schedule : EventScheduleResult) : result liveness_error (list (StorageAllocation * LiveWindow)) :=
  fail! (NotCovered (length (entries schedule)) (length (events dag)))
    when negb (length (entries schedule) =? length (events dag))%nat;
  byId ← indexUnique allocations;
  windows ← fold_result_from 0 (eventStep byId (entries schedule))
              (replicate (length allocations) noWindow) (events dag);
  windows ← closeWindows allocations windows;
  roots ← map_result (chainRoot allocations byId) (seq 0 (length allocations));
  Ok (groupList allocations roots windows).

Definition analyzeStorageLiveness (allocations : list StorageAllocation) (dag : PlanEventDAG)
    (schedule : EventScheduleResult) : result liveness_error StorageLivenessResult :=
  groups ← storageGroups allocations dag schedule;
  peaks ← fold_result (peakStep groups) ∅ (candidateTimes groups);
  Ok (mkLiveness peaks (requiredReuseEdgesFor allocations)).

(** ** The peak is the maximum over time *)

(** The bytes memory [m] holds at an instant, as a sum in [Z]. *)
Definition weight (g : StorageAllocation * LiveWindow) : Z := al_bytes g.1 * residency g.2.

Fixpoint liveAt (groups : list (StorageAllocation * LiveWindow)) (m : string) (time : Z) : Z :=
  match groups with
  | [] => 0
  | g :: groups =>
    (if covers time g.2 && bool_decide (al_memory g.1 = m) then weight g else 0) + liveAt groups m time
  end.

(** Some storage of [m] is live at the instant. *)
Definition occupied (groups : list (StorageAllocation * LiveWindow)) (m : string) (time : Z) : Prop :=
  ∃ g, g ∈ groups ∧ covers time g.2 = true ∧ al_memory g.1 = m.

Definition groups_ok (groups : list (StorageAllocation * LiveWindow)) : Prop :=
  ∀ g, g ∈ groups → 0 ≤ al_bytes g.1 ∧ 0 ≤ residency g.2.

Lemma groups_ok_cons g gs : groups_ok (g :: gs) → 0 ≤ weight g ∧ groups_ok gs.
Proof.
  intros H. split.
  - destruct (H g) as [??]; [left|]. unfold weight. by apply Z.mul_nonneg_nonneg.
  - intros g' Hg'. apply H. by right.
Qed.

Lemma liveAt_nonneg gs m t : groups_ok gs → 0 ≤ liveAt gs m t.
Proof.
  induction gs as [|g gs IH]; cbn [liveAt]; [done|]. intros [Hg Hgs]%groups_ok_cons.
  apply IH in Hgs. case_match; lia.
Qed.

Lemma liveAt_unoccupied gs m t : ¬ occupied gs m t → liveAt gs m t = 0.
Proof.
  induction gs as [|g gs IH]; cbn [liveAt]; [done|]. intros Hno.
  rewrite IH by (intros (g' & ? & ?); apply Hno; exists g'; split; [by right|done]).
  case_match eqn:Hg; [|done]. apply andb_true_iff in Hg as [? ?%bool_decide_eq_true].
  destruct Hno. exists g. split; [left|done].
Qed.

(** Every window live at [t] that is also live at [s] keeps its contribution. *)
Lemma liveAt_mono gs m t s : groups_ok gs →
  (∀ g, g ∈ gs → al_memory g.1 = m → covers t g.2 = true → covers s g.2 = true) →
  liveAt gs m t ≤ liveAt gs m s.
Proof.
  induction gs as [|g gs IH]; cbn [liveAt]; [done|]. intros [Hg Hgs]%groups_ok_cons Hcov.
  assert (liveAt gs m t ≤ liveAt gs m s) by (apply IH; [done|]; intros; apply Hcov; [by right|done..]).
  destruct (covers t g.2 && bool_decide (al_memory g.1 = m)) eqn:Ht.
  - apply andb_true_iff in Ht as [Ht Hm]. rewrite (Hcov g), Hm; cbn; [lia|left|by apply bool_decide_eq_true in Hm|done].
  - destruct (covers s g.2 && _); lia.
Qed.

(** One instant's fold: the live bytes of each memory, when nothing overflows. *)
Definition live_ok (live : gmap string Z) : Prop := map_Forall (λ _, in_u64) live.

Lemma liveStep_ok t live g live' : 0 ≤ weight g → live_ok live → liveStep t live g = Ok live' →
  live_ok live' ∧ ∀ m,
    default 0 (live' !! m) = default 0 (live !! m) + liveAt [g] m t ∧
    (is_Some (live' !! m) ↔ is_Some (live !! m) ∨ occupied [g] m t).
Proof.
  intros Hw Hlive. unfold liveStep. cbn [liveAt].
  destruct (covers t g.2) eqn:Hc; cbn [negb andb].
  - destruct (checked_mul_u64 _ _) as [w|] eqn:Hmul; [|done].
    apply checked_mul_u64_spec in Hmul as [-> _]. fold (weight g).
    destruct (checked_add_u64 _ _) as [held|] eqn:Hadd; [|done].
    apply checked_add_u64_spec in Hadd as [-> Hin]. intros [= <-]. split.
    + by apply map_Forall_insert_2.
    + intros m. destruct (decide (al_memory g.1 = m)) as [<-|Hne].
      * rewrite lookup_insert_eq, bool_decide_true by done. cbn. split; [lia|].
        split; [|by eexists]. intros _. right. exists g. split_and!; [left|done..].
      * rewrite lookup_insert_ne, bool_decide_false by done. split; [lia|].
        split; [by left|]. intros [?|(g' & ->%list_elem_of_singleton & _ & ?)]; done.
  - intros [= <-]. split; [done|]. intros m. split; [lia|].
    split; [by left|]. intros [?|(g' & ->%list_elem_of_singleton & ? & _)]; [done|congruence].
Qed.

Lemma occupied_cons g gs m t : occupied (g :: gs) m t ↔ occupied [g] m t ∨ occupied gs m t.
Proof.
  split.
  - intros (g' & [->|Hg']%elem_of_cons & ?); [left; exists g; split; [left|done]|right; by exists g'].
  - intros [(g' & ->%list_elem_of_singleton & ?)|(g' & ? & ?)]; [exists g; split; [left|done]|].
    exists g'. split; [by right|done].
Qed.

Lemma live_fold_ok t gs live live' : groups_ok gs → live_ok live →
  fold_result (liveStep t) live gs = Ok live' →
  live_ok live' ∧ ∀ m, default 0 (live' !! m) = default 0 (live !! m) + liveAt gs m t ∧
    (is_Some (live' !! m) ↔ is_Some (live !! m) ∨ occupied gs m t).
Proof.
  revert live. induction gs as [|g gs IH]; intros live Hgs Hlive.
  - intros [= <-]. split; [done|]. intros m. cbn. split; [lia|]. split; [by left|].
    intros [?|(g & []%elem_of_nil & _)]; done.
  - apply groups_ok_cons in Hgs as [Hw Hgs]. cbn [fold_result]. intros (live1 & H1 & H2)%bind_ok.
    destruct (liveStep_ok _ _ _ _ Hw Hlive H1) as [Hlive1 Hm1].
    destruct (IH _ Hgs Hlive1 H2) as [Hlive' Hm2]. split; [done|]. intros m.
    destruct (Hm1 m) as [E1 S1], (Hm2 m) as [E2 S2]. cbn [liveAt] in *. split; [lia|].
    rewrite S2, S1, (occupied_cons g gs). tauto.
Qed.

(** It succeeds when the live bytes of every memory fit. *)
Lemma live_fold_total t gs live : groups_ok gs → live_ok live →
  (∀ m, default 0 (live !! m) + liveAt gs m t < 2 ^ 64) →
  ∃ live', fold_result (liveStep t) live gs = Ok live'.
Proof.
  revert live. induction gs as [|g gs IH]; intros live Hgs Hlive Hfit; [by eexists|].
  apply groups_ok_cons in Hgs as [Hw Hgs]. cbn [fold_result].
  assert (∀ m, 0 ≤ default 0 (live !! m)) as Hpos.
  { intros m. destruct (live !! m) as [v|] eqn:Hv; cbn; [|lia]. by apply Hlive in Hv as [? _]. }
  assert (∃ live1, liveStep t live g = Ok live1) as [live1 H1].
  { unfold liveStep. specialize (Hfit (al_memory g.1)). specialize (Hpos (al_memory g.1)).
    cbn [liveAt] in Hfit. rewrite bool_decide_true, andb_true_r in Hfit by done.
    pose proof (liveAt_nonneg gs (al_memory g.1) t Hgs).
    destruct (covers t g.2); cbn [negb]; [|by eexists].
    unfold checked_mul_u64. fold (weight g). rewrite decide_True by (unfold in_u64; lia).
    unfold checked_add_u64. rewrite decide_True by (unfold in_u64; lia). by eexists. }
  rewrite H1. cbn. destruct (liveStep_ok _ _ _ _ Hw Hlive H1) as [Hlive1 Hm1].
  apply IH; [done..|]. intros m. destruct (Hm1 m) as [-> _]. specialize (Hfit m). cbn [liveAt] in *. lia.
Qed.

(** The peaks after trying some instants. *)
Lemma peak_fold_ok gs ts pk0 pk : groups_ok gs → fold_result (peakStep gs) pk0 ts = Ok pk →
  ∀ m, (∀ t, t ∈ ts → occupied gs m t → ∃ p, pk !! m = Some p ∧ liveAt gs m t ≤ p) ∧
    (∀ p0, pk0 !! m = Some p0 → ∃ p, pk !! m = Some p ∧ p0 ≤ p) ∧
    (∀ p, pk !! m = Some p → pk0 !! m = Some p ∨ ∃ t, t ∈ ts ∧ occupied gs m t ∧ liveAt gs m t = p).
Proof.
  intros Hgs. revert pk0. induction ts as [|t ts IH]; intros pk0; cbn [fold_result].
  - intros [= <-] m. split_and!; [by intros t []%elem_of_nil|intros p0 Hp0; exists p0; split; [done|lia]|intros p Hp; by left].
  - intros (pk1 & H1 & H2)%bind_ok m. unfold peakStep in H1. apply bind_ok in H1 as (live & Hl & [= <-]).
    destruct (live_fold_ok t gs ∅ live Hgs (map_Forall_empty _) Hl) as [_ Hlive].
    destruct (Hlive m) as [Elive Slive]. rewrite lookup_empty in Elive, Slive. cbn in Elive.
    destruct (IH _ H2 m) as (IH1 & IH2 & IH3). rewrite lookup_union_with in IH2, IH3.
    split_and!.
    + intros s [->|Hs]%elem_of_cons Hocc; [|by apply IH1].
      destruct (live !! m) as [v|] eqn:Hv; cbn in Elive; [|by destruct (proj2 Slive (or_intror Hocc)) as [? [=]]].
      destruct (pk0 !! m) as [p0|]; cbn in IH2;
        destruct (IH2 _ eq_refl) as (p & Hp & ?); exists p; (split; [done|lia]).
    + intros p0 Hp0. rewrite Hp0 in IH2. destruct (live !! m) as [v|]; cbn in IH2.
      * destruct (IH2 _ eq_refl) as (p & Hp & ?). exists p. split; [done|lia].
      * by apply IH2.
    + intros p Hp. destruct (IH3 p Hp) as [Hu|(s & Hs & ?)]; [|right; exists s; split; [by right|done]].
      destruct (live !! m) as [v|] eqn:Hv, (pk0 !! m) as [p0|] eqn:Hp0; cbn in Hu, Elive; try done.
      * apply (inj Some) in Hu. destruct (Z.max_spec p0 v) as [[_ Hm]|[_ Hm]]; [right|left; congruence].
        exists t. split_and!; [left| |lia]. destruct (proj1 Slive ltac:(by eexists)) as [[? ?]|?]; done.
      * apply (inj Some) in Hu. right. exists t.
        split_and!; [left| |lia]. destruct (proj1 Slive ltac:(by eexists)) as [[? ?]|?]; done.
      * by left.
Qed.

Lemma peak_fold_fits gs ts pk0 pk : groups_ok gs → fold_result (peakStep gs) pk0 ts = Ok pk →
  ∀ m t, t ∈ ts → liveAt gs m t < 2 ^ 64.
Proof.
  intros Hgs. revert pk0. induction ts as [|t ts IH]; intros pk0; cbn [fold_result]; [by intros _ m t []%elem_of_nil|].
  intros (pk1 & H1 & H2)%bind_ok m s [->|Hs]%elem_of_cons; [|by eapply IH].
  unfold peakStep in H1. apply bind_ok in H1 as (live & Hl & _).
  destruct (live_fold_ok t gs ∅ live Hgs (map_Forall_empty _) Hl) as [Hok Hlive].
  destruct (Hlive m) as [Elive _]. rewrite lookup_empty in Elive. cbn in Elive.
  replace (liveAt gs m t) with (default 0 (live !! m)) by (rewrite Elive; lia).
  destruct (live !! m) as [v|] eqn:Hv; cbn; [|lia]. by apply Hok in Hv as [_ ?].
Qed.

Lemma peak_fold_total gs ts pk0 : groups_ok gs →
  (∀ m t, t ∈ ts → liveAt gs m t < 2 ^ 64) → ∃ pk, fold_result (peakStep gs) pk0 ts = Ok pk.
Proof.
  intros Hgs. revert pk0. induction ts as [|t ts IH]; intros pk0 Hfit; [by eexists|]. cbn [fold_result].
  destruct (live_fold_total t gs ∅ Hgs (map_Forall_empty _)) as [live Hl].
  { intros m. rewrite lookup_empty. cbn. apply Hfit. left. }
  assert (peakStep gs pk0 t = Ok (union_with (λ p v, Some (Z.max p v)) pk0 live)) as ->
    by (unfold peakStep; by rewrite Hl).
  cbn [mbind result_bind]. apply IH. intros m s Hs. apply Hfit. by right.
Qed.

#[export] Instance occupied_dec gs m t : Decision (occupied gs m t).
Proof.
  refine (cast_if (decide (Exists (λ g, covers t g.2 = true ∧ al_memory g.1 = m) gs)));
    unfold occupied; by rewrite <- Exists_exists.
Defined.

(** The latest start among the windows live at an instant is at least as full. *)
Lemma latest_start gs m t : occupied gs m t →
  ∃ g, g ∈ gs ∧ al_memory g.1 = m ∧ covers t g.2 = true ∧
    ∀ g', g' ∈ gs → al_memory g'.1 = m → covers t g'.2 = true → w_start g'.2 ≤ w_start g.2.
Proof.
  induction gs as [|g gs IH]; [by intros (g & []%elem_of_nil & _)|].
  intros Hocc. destruct (decide (covers t g.2 = true ∧ al_memory g.1 = m)) as [[Hc Hm]|Hno].
  - destruct (decide (occupied gs m t)) as [Ho|Ho].
    + destruct (IH Ho) as (h & Hh & Hhm & Hhc & Hmax).
      destruct (decide (w_start g.2 ≤ w_start h.2)).
      * exists h. split_and!; [by right|done..|]. intros g' [->|?]%elem_of_cons; auto.
      * exists g. split_and!; [left|done..|]. intros g' [->|?]%elem_of_cons ??; [lia|].
        specialize (Hmax g'). transitivity (w_start h.2); [auto|lia].
    + exists g. split_and!; [left|done..|]. intros g' [->|?]%elem_of_cons ??; [done|].
      destruct Ho. by exists g'.
  - apply occupied_cons in Hocc as [(g' & ->%list_elem_of_singleton & ?)|Ho]; [tauto|].
    destruct (IH Ho) as (h & Hh & Hhm & Hhc & Hmax).
    exists h. split_and!; [by right|done..|]. intros g' [->|?]%elem_of_cons; [tauto|auto].
Qed.

Lemma candidate_dominates gs m t : groups_ok gs → occupied gs m t →
  ∃ s, s ∈ candidateTimes gs ∧ occupied gs m s ∧ liveAt gs m t ≤ liveAt gs m s.
Proof.
  intros Hgs Hocc. destruct (latest_start gs m t Hocc) as (g & Hg & Hm & Hc & Hmax).
  assert (∀ g', g' ∈ gs → al_memory g'.1 = m → covers t g'.2 = true → covers (w_start g.2) g'.2 = true) as Hcov.
  { intros g' Hg' Hm' Hc'. pose proof (Hmax _ Hg' Hm' Hc'). unfold covers in *.
    rewrite andb_true_iff, Z.leb_le, Z.ltb_lt in *. lia. }
  exists (w_start g.2). split_and!.
  - unfold candidateTimes. rewrite merge_sort_Permutation, elem_of_remove_dups.
    apply list_elem_of_fmap. by exists g.
  - exists g. auto.
  - by apply liveAt_mono.
Qed.

(** ** The window of an allocation holds its uses *)

(** What a window says of the uses [T] it was built from, in stream order. *)
Record window_of (T : list (ScheduledEvent * StorageAccess)) (w : LiveWindow) : Prop := {
  wo_touched : touched w = true ↔ T ≠ [];
  wo_written : written w = true ↔ ∃ p, (p, Write) ∈ T;
  wo_end : ∀ p a, (p, a) ∈ T → sch_finish p ≤ w_end w;
  wo_write : ∀ p, (p, Write) ∈ T → writeStart w ≤ sch_start p;
  wo_read : ∀ p, (p, Read) ∈ T → readStart w ≤ sch_start p;
  wo_end_at : T ≠ [] → ∃ p a, (p, a) ∈ T ∧ w_end w = sch_finish p;
  wo_write_at : T ≠ [] → ∃ p a, (p, a) ∈ T ∧ writeStart w = sch_start p;
  wo_read_at : T ≠ [] → ∃ p a, (p, a) ∈ T ∧ readStart w = sch_start p;
}.

Lemma noWindow_of : window_of [] noWindow.
Proof.
  split; cbn; try done; try (by intros ?? []%elem_of_nil); try (by intros ? []%elem_of_nil).
  split; [done|]. by intros (p & []%elem_of_nil).
Qed.

Lemma window_of_residency T w r : window_of T w → window_of T (set_residency w r).
Proof. intros []. by split. Qed.

Lemma min_attained (P : Z → Prop) a b : P a → P b → P (Z.min a b).
Proof. intros. by destruct (Z.min_spec a b) as [[_ ->]|[_ ->]]. Qed.
Lemma max_attained (P : Z → Prop) a b : P a → P b → P (Z.max a b).
Proof. intros. by destruct (Z.max_spec a b) as [[_ ->]|[_ ->]]. Qed.

Definition end_at (T : list (ScheduledEvent * StorageAccess)) (t : Z) : Prop :=
  ∃ p a, (p, a) ∈ T ∧ t = sch_finish p.
Definition start_at (T : list (ScheduledEvent * StorageAccess)) (t : Z) : Prop :=
  ∃ p a, (p, a) ∈ T ∧ t = sch_start p.

Lemma at_snoc T p a : start_at (T ++ [(p, a)])%list (sch_start p) ∧ end_at (T ++ [(p, a)])%list (sch_finish p).
Proof. split; exists p, a; (split; [|done]); apply elem_of_app; right; left. Qed.
Lemma start_at_weaken T x t : start_at T t → start_at (T ++ [x])%list t.
Proof. intros (p & a & ? & ->). exists p, a. split; [|done]. apply elem_of_app. by left. Qed.
Lemma end_at_weaken T x t : end_at T t → end_at (T ++ [x])%list t.
Proof. intros (p & a & ? & ->). exists p, a. split; [|done]. apply elem_of_app. by left. Qed.

Lemma snoc_ne_nil {A} (l : list A) x : (l ++ [x])%list ≠ [].
Proof. by destruct l. Qed.

(** The window before the use is folded in: opened here if this is the first. *)
Lemma touch_opened T w p : window_of T w →
  let w' := if touched w then w
    else mkWindow (sch_start p) (sch_finish p) (residency w) (sch_start p) (sch_start p) (written w) true in
  touched w' = true ∧ (written w' = true ↔ ∃ q, (q, Write) ∈ T) ∧ residency w' = residency w ∧
  (∀ q a, (q, a) ∈ T → sch_finish q ≤ w_end w') ∧
  (∀ q, (q, Write) ∈ T → writeStart w' ≤ sch_start q) ∧
  (∀ q, (q, Read) ∈ T → readStart w' ≤ sch_start q) ∧
  (w_end w' = sch_finish p ∨ end_at T (w_end w')) ∧
  (writeStart w' = sch_start p ∨ start_at T (writeStart w')) ∧
  (readStart w' = sch_start p ∨ start_at T (readStart w')).
Proof.
  intros [Ht Hw He Hws Hrs Hea Hwa Hra]. destruct (touched w) eqn:Htw; cbv zeta.
  - assert (T ≠ []) as HT by (by apply Ht). split_and!; [done..| | |]; right.
    + by apply Hea.
    + by apply Hwa.
    + by apply Hra.
  - assert (T = []) as ->. { destruct T; [done|]. by assert (false = true) by (by apply Ht). }
    cbn. split_and!; [done|done|done|..]; try (by left);
      try (by intros ?? []%elem_of_nil); by intros ? []%elem_of_nil.
Qed.

Lemma touch_window_of T w p a : window_of T w → window_of (T ++ [(p, a)])%list (touch w p a).
Proof.
  intros Hw. pose proof (touch_opened T w p Hw) as H. unfold touch. cbv zeta in H.
  set (w' := if touched w then w else _) in *.
  destruct H as (Ht & Hwr & _ & He & Hws & Hrs & Hea & Hwa & Hra).
  destruct (at_snoc T p a) as [Hps Hpe].
  assert (end_at (T ++ [(p, a)])%list (w_end w')) as Hea'.
  { destruct Hea as [->|?]; [done|by apply end_at_weaken]. }
  assert (start_at (T ++ [(p, a)])%list (writeStart w')) as Hwa'.
  { destruct Hwa as [->|?]; [done|by apply start_at_weaken]. }
  assert (start_at (T ++ [(p, a)])%list (readStart w')) as Hra'.
  { destruct Hra as [->|?]; [done|by apply start_at_weaken]. }
  assert (∀ q b, (q, b) ∈ (T ++ [(p, a)])%list → sch_finish q ≤ Z.max (w_end w') (sch_finish p)) as Hend.
  { intros q b [Hq|[= -> ->]%list_elem_of_singleton]%elem_of_app; [apply He in Hq; lia|lia]. }
  destruct a; split; cbn; try (by auto using max_attained, min_attained);
    try (by intros _; apply max_attained); try (by intros _; apply min_attained).
  all: try (by split; [intros _; apply snoc_ne_nil|]).
  - rewrite Hwr. setoid_rewrite elem_of_app. setoid_rewrite list_elem_of_singleton. naive_solver.
  - intros q [Hq|[= ]%list_elem_of_singleton]%elem_of_app; auto.
  - intros q [Hq|[= ->]%list_elem_of_singleton]%elem_of_app; [apply Hrs in Hq; lia|lia].
  - split; [intros _|done]. exists p. apply elem_of_app. right. left.
  - intros q [Hq|[= ->]%list_elem_of_singleton]%elem_of_app; [apply Hws in Hq; lia|lia].
  - intros q [Hq|[= ]%list_elem_of_singleton]%elem_of_app; auto.
Qed.

Lemma touch_residency w p a : residency (touch w p a) = residency w.
Proof. unfold touch. by destruct (touched w), a. Qed.

(** The uses an event makes of the allocation at position [i]. *)
Definition uses_of (byId : gmap Z nat) (i : nat) (uses : list StorageUse) : list StorageUse :=
  filter (λ u, byId !! use_allocation u = Some i) uses.
Definition occurrences_of (byId : gmap Z nat) (i : nat) (uses : list StorageUse) : gset Z :=
  list_to_set (use_occurrence <$> uses_of byId i uses).

Lemma uses_fold byId e placed uses s s' :
  fold_result (useStep byId e placed) s uses = Ok s' →
  ∀ i, s'.1 !! i = (λ w, foldl (λ w u, touch w placed (use_access u)) w (uses_of byId i uses)) <$> s.1 !! i ∧
    default ∅ (s'.2 !! i) = occurrences_of byId i uses ∪ default ∅ (s.2 !! i).
Proof.
  revert s. induction uses as [|u uses IH]; intros s; cbn [fold_result].
  - intros [= <-] i. unfold occurrences_of. cbn. split; [by destruct (s.1 !! i)|by rewrite (left_id_L ∅ (∪))].
  - intros (s1 & H1 & H2)%bind_ok i. destruct (IH _ H2 i) as [-> ->]. clear IH H2.
    unfold useStep in H1. destruct (byId !! use_allocation u) as [j|] eqn:Hj; [|done].
    injection H1 as <-. cbn [fst snd]. unfold occurrences_of, uses_of.
    destruct (decide (j = i)) as [->|Hne].
    + rewrite filter_cons_True by done. rewrite list_lookup_alter_eq, lookup_insert_eq. cbn.
      split; [by destruct (s.1 !! i)|]. set_tauto.
    + rewrite filter_cons_False by congruence.
      by rewrite list_lookup_alter_ne, lookup_insert_ne by done.
Qed.

Lemma uses_fold_known byId e placed uses s s' u :
  fold_result (useStep byId e placed) s uses = Ok s' → u ∈ uses → is_Some (byId !! use_allocation u).
Proof.
  revert s. induction uses as [|v uses IH]; intros s; cbn [fold_result]; [by intros _ []%elem_of_nil|].
  intros (s1 & H1 & H2)%bind_ok [->|Hu]%elem_of_cons; [|by eapply IH].
  unfold useStep in H1. by destruct (byId !! use_allocation v).
Qed.

Lemma touch_fold_of T w placed (us : list StorageUse) : window_of T w →
  window_of (T ++ ((λ u, (placed, use_access u)) <$> us))%list
    (foldl (λ w u, touch w placed (use_access u)) w us) ∧
  residency (foldl (λ w u, touch w placed (use_access u)) w us) = residency w.
Proof.
  revert T w. induction us as [|u us IH]; intros T w Hw; cbn; [by rewrite app_nil_r|].
  destruct (IH _ _ (touch_window_of T w placed (use_access u) Hw)) as [H1 ->].
  rewrite touch_residency. split; [|done]. by rewrite <- app_assoc in H1.
Qed.

(** The uses of position [i] in the events from [e] on, with where they run. *)
Fixpoint touches (byId : gmap Z nat) (es : list ScheduledEvent) (i : nat) (e : nat)
    (evs : list PlanCostEvent) : list (ScheduledEvent * StorageAccess) :=
  match evs with
  | [] => []
  | ev :: evs =>
    match es !! e with
    | Some placed => (λ u, (placed, use_access u)) <$> uses_of byId i (storageUses ev)
    | None => []
    end ++ touches byId es i (S e) evs
  end%list.

Lemma eventStep_spec byId es e ws ev ws' : eventStep byId es e ws ev = Ok ws' →
  ∀ i w' T, ws' !! i = Some w' → (∀ w, ws !! i = Some w → window_of T w) →
  window_of (T ++ touches byId es i e [ev])%list w' ∧
  ∃ w, ws !! i = Some w ∧ residency w ≤ residency w' ∧
    (is_Some (es !! e) → Z.of_nat (size (occurrences_of byId i (storageUses ev))) ≤ Z.max 0 (residency w')).
Proof.
  unfold eventStep. cbn [touches]. destruct (es !! e) as [placed|]; cbn [app].
  - intros H i w' T Hw' HT. apply fail_then_ok in H as [_ H]. apply bind_ok in H as (s & Hs & [= <-]).
    destruct (uses_fold _ _ _ _ _ _ Hs i) as [H1 H2]. cbn [fst snd] in H1, H2.
    rewrite list_lookup_imap, H1 in Hw'. destruct (ws !! i) as [w|] eqn:Hw; [|done].
    cbn in Hw'. injection Hw' as <-. rewrite app_nil_r.
    destruct (touch_fold_of T w placed (uses_of byId i (storageUses ev)) (HT w eq_refl)) as [Hof Hres].
    rewrite lookup_empty in H2. cbn in H2. rewrite (right_id_L ∅ (∪)) in H2.
    unfold raise_residency. destruct (s.2 !! i) as [occ|]; cbn in H2.
    + split; [by apply window_of_residency|]. exists w. cbn. rewrite Hres, H2. split_and!; [done|lia|lia].
    + split; [done|]. exists w. rewrite Hres, <- H2. split_and!; [done|lia|]. rewrite size_empty. lia.
  - intros [= <-] i w' T Hw' HT. rewrite app_nil_r. split; [by apply HT|].
    exists w'. split_and!; [done|lia|]. by intros [? [=]].
Qed.

Lemma touches_cons byId es i e ev evs :
  touches byId es i e (ev :: evs) = (touches byId es i e [ev] ++ touches byId es i (S e) evs)%list.
Proof. cbn [touches]. by rewrite app_nil_r. Qed.

Lemma events_fold byId es e evs ws ws' :
  fold_result_from e (eventStep byId es) ws evs = Ok ws' →
  ∀ i w' T, ws' !! i = Some w' → (∀ w, ws !! i = Some w → window_of T w) →
  window_of (T ++ touches byId es i e evs)%list w' ∧
  ∃ w, ws !! i = Some w ∧ residency w ≤ residency w' ∧
    ∀ k ev, evs !! k = Some ev → is_Some (es !! (e + k)%nat) →
      Z.of_nat (size (occurrences_of byId i (storageUses ev))) ≤ Z.max 0 (residency w').
Proof.
  revert e ws. induction evs as [|ev evs IH]; intros e ws; cbn [fold_result_from].
  - intros [= <-] i w' T Hw' HT. cbn. rewrite app_nil_r. split; [by apply HT|].
    exists w'. split_and!; [done|lia|]. intros k ev Hk. by rewrite lookup_nil in Hk.
  - intros (ws1 & H1 & H2)%bind_ok i w' T Hw' HT.
    destruct (IH _ _ H2 i w' (T ++ touches byId es i e [ev])%list Hw') as [Hof (w1 & Hw1 & Hr1 & Hocc)].
    { intros w1 Hw1. by eapply eventStep_spec. }
    rewrite touches_cons, app_assoc. split; [done|].
    destruct (eventStep_spec _ _ _ _ _ _ H1 i w1 T Hw1 HT) as [_ (w & Hw & Hr & Hocc1)].
    exists w. split_and!; [done|lia|]. intros [|k] ev' Hk; cbn in Hk.
    + injection Hk as <-. rewrite Nat.add_0_r. intros He. specialize (Hocc1 He). lia.
    + rewrite Nat.add_succ_r. by apply Hocc.
Qed.

Lemma elem_of_touches byId es i e evs p a :
  (p, a) ∈ touches byId es i e evs ↔
  ∃ k ev u, evs !! k = Some ev ∧ es !! (e + k)%nat = Some p ∧ u ∈ storageUses ev ∧
    byId !! use_allocation u = Some i ∧ use_access u = a.
Proof.
  revert e. induction evs as [|ev evs IH]; intros e; cbn [touches].
  - split; [by intros []%elem_of_nil|]. by intros (k & ? & ? & Hk & _).
  - rewrite elem_of_app, IH. split.
    + intros [H|(k & ev' & u & ? & ? & ?)].
      * destruct (es !! e) as [placed|] eqn:He; [|by apply elem_of_nil in H].
        apply list_elem_of_fmap in H as (u & [= -> ->] & [? ?]%list_elem_of_filter).
        exists O, ev, u. rewrite Nat.add_0_r. auto.
      * exists (S k), ev', u. by rewrite Nat.add_succ_r.
    + intros ([|k] & ev' & u & Hk & He & ?); cbn in Hk.
      * injection Hk as <-. rewrite Nat.add_0_r in He. left. rewrite He. apply list_elem_of_fmap.
        exists u. destruct_and!. split; [by subst|]. by apply list_elem_of_filter.
      * right. exists k, ev', u. by rewrite Nat.add_succ_r in He.
Qed.

(** *** The remaining steps of the analysis *)
Lemma elem_of_indexed {A} (l : list A) i x : (i, x) ∈ imap (λ i a, (i, a)) l ↔ l !! i = Some x.
Proof.
  rewrite elem_of_lookup_imap. split; [by intros (j & y & [= -> ->] & ?)|].
  intros H. by exists i, x.
Qed.

Definition index_ok (allocations : list StorageAllocation) (byId : gmap Z nat) : Prop :=
  ∀ k i, byId !! k = Some i ↔ ∃ a, allocations !! i = Some a ∧ al_id a = k.

Lemma indexUnique_ok allocations byId :
  indexUnique allocations = Ok byId → index_ok allocations byId.
Proof.
  intros H k i. setoid_rewrite <- elem_of_indexed. revert k i.
  refine (fold_result_inv indexStep
    (λ pre s, ∀ k i, s !! k = Some i ↔ ∃ a, (i, a) ∈ pre ∧ al_id a = k) _ _ _ _ _ H).
  - intros k i. rewrite lookup_empty. split; [done|]. by intros (a & []%elem_of_nil & _).
  - intros pre [j b] post s s' _ IH Hs k i. unfold indexStep in Hs. apply fail_then_ok in Hs as [Hnew Hs].
    apply bool_decide_eq_false, eq_None_not_Some in Hnew. cbn in Hnew, Hs. injection Hs as <-.
    setoid_rewrite elem_of_app. setoid_rewrite list_elem_of_singleton. rewrite lookup_insert_Some. split.
    + intros [[<- <-]|[_ Hk]]; [exists b; auto|]. apply IH in Hk as (a & ? & ?). exists a. auto.
    + intros (a & [Ha|[= -> ->]] & <-); [|by left]. right.
      assert (s !! al_id a = Some i) as Hk by (apply IH; eauto). split; [congruence|done].
Qed.

Lemma eventStep_length byId es e ws ev ws' : eventStep byId es e ws ev = Ok ws' → length ws' = length ws.
Proof.
  unfold eventStep. destruct (es !! e) as [placed|]; [|congruence].
  intros H. apply fail_then_ok in H as [_ H]. apply bind_ok in H as (s & Hs & [= <-]).
  rewrite length_imap. change (length ws) with (length (ws, (∅ : gmap nat (gset Z))).1).
  generalize dependent (ws, (∅ : gmap nat (gset Z))). intros s0.
  revert s0. induction (storageUses ev) as [|u us IH]; intros s0; cbn [fold_result]; [congruence|].
  intros (s1 & H1 & H2)%bind_ok. apply IH in H2. unfold useStep in H1.
  destruct (byId !! _); [|done]. injection H1 as <-. cbn in H2. by rewrite length_alter in H2.
Qed.

Lemma events_length byId es e evs ws ws' :
  fold_result_from e (eventStep byId es) ws evs = Ok ws' → length ws' = length ws.
Proof.
  revert e ws. induction evs as [|ev evs IH]; intros e ws; cbn [fold_result_from]; [congruence|].
  intros (ws1 & H1%eventStep_length & H2%IH)%bind_ok. congruence.
Qed.

Lemma closeWindows_lookup allocations ws ws' i w' :
  closeWindows allocations ws = Ok ws' → ws' !! i = Some w' →
  ∃ w, ws !! i = Some w ∧ touched w = true ∧ w' = closeWindow w.
Proof.
  revert ws ws' i. induction allocations as [|a allocations IH]; intros [|w ws] ws' i; cbn [closeWindows];
    try (intros [= <-]; by rewrite lookup_nil).
  intros H Hi. apply fail_then_ok in H as [Ht H]. apply bind_ok in H as (rest & Hr & [= <-]).
  destruct i as [|i]; cbn in Hi |- *; [|by eapply IH].
  injection Hi as <-. exists w. split_and!; [done| |done]. by apply negb_false_iff in Ht.
Qed.

Lemma closeWindows_length allocations ws ws' :
  closeWindows allocations ws = Ok ws' → length ws = length allocations → length ws' = length allocations.
Proof.
  revert ws ws'. induction allocations as [|a allocations IH]; intros [|w ws] ws'; cbn [closeWindows length];
    try done; try (intros [= <-]; done).
  intros H [= Hl]. apply fail_then_ok in H as [_ H]. apply bind_ok in H as (rest & Hr & [= <-]).
  cbn. f_equal. by eapply IH.
Qed.

Lemma map_result_lookup {E A B} (f : A → result E B) xs ys :
  map_result f xs = Ok ys → length ys = length xs ∧
  ∀ i x, xs !! i = Some x → ∃ y, ys !! i = Some y ∧ f x = Ok y.
Proof.
  revert ys. induction xs as [|x xs IH]; intros ys; cbn [map_result].
  - intros [= <-]. split; [done|]. intros i x. by rewrite lookup_nil.
  - intros (y & Hy & (ys' & Hys & [= <-])%bind_ok)%bind_ok. destruct (IH _ Hys) as [Hl IH'].
    split; [by cbn; rewrite Hl|]. intros [|i] z Hz; cbn in Hz |- *; [|by apply IH'].
    injection Hz as <-. by exists y.
Qed.

(** One step of the plan's alias relation. *)
Definition alias_step (allocations : list StorageAllocation) (a b : StorageAllocation) : Prop :=
  aliasOf a = Some (al_id b) ∧ b ∈ allocations.

Lemma chainRoot_loop_ok fuel allocations byId seen i a r : index_ok allocations byId →
  allocations !! i = Some a → chainRoot_loop fuel allocations byId seen i = Ok r →
  ∃ b, allocations !! r = Some b ∧ rtc (alias_step allocations) a b ∧ aliasOf b = None.
Proof.
  intros Hidx. revert seen i a. induction fuel as [|fuel IH]; intros seen i a Ha; cbn [chainRoot_loop]; [done|].
  rewrite Ha. destruct (aliasOf a) as [target|] eqn:Hal; [|intros [= <-]; exists a; by split_and!].
  intros H. apply fail_then_ok in H as [_ H]. destruct (byId !! target) as [next|] eqn:Hn; [|done].
  apply Hidx in Hn as (b & Hb & <-). destruct (IH _ _ b Hb H) as (c & ? & ? & ?).
  exists c. split_and!; [done| |done]. eapply rtc_l; [|done]. split; [done|]. by eapply list_elem_of_lookup_2.
Qed.

Record hull_of (ws : list LiveWindow) (g : LiveWindow) : Prop := {
  ho_start : ∀ w, w ∈ ws → w_start g ≤ w_start w;
  ho_end : ∀ w, w ∈ ws → w_end w ≤ w_end g;
  ho_residency : ∀ w, w ∈ ws → residency w ≤ residency g;
  ho_start_at : ∃ w, w ∈ ws ∧ w_start g = w_start w;
  ho_end_at : ∃ w, w ∈ ws ∧ w_end g = w_end w;
  ho_residency_at : ∃ w, w ∈ ws ∧ residency g = residency w;
}.

Lemma hull_snoc ws g w : hull_of ws g → hull_of (ws ++ [w])%list (hull g w).
Proof.
  intros [H1 H2 H3 (w1 & ? & ?) (w2 & ? & ?) (w3 & ? & ?)].
  split; cbn; setoid_rewrite elem_of_app; setoid_rewrite list_elem_of_singleton.
  - intros x [Hx| ->]; [apply H1 in Hx; lia|lia].
  - intros x [Hx| ->]; [apply H2 in Hx; lia|lia].
  - intros x [Hx| ->]; [apply H3 in Hx; lia|lia].
  - apply (min_attained (λ z, ∃ w', (w' ∈ ws ∨ w' = w) ∧ z = w_start w')); eauto.
  - apply (max_attained (λ z, ∃ w', (w' ∈ ws ∨ w' = w) ∧ z = w_end w')); eauto.
  - apply (max_attained (λ z, ∃ w', (w' ∈ ws ∨ w' = w) ∧ z = residency w')); eauto.
Qed.

Lemma hull_single w : hull_of [w] w.
Proof.
  split; try (intros x ->%list_elem_of_singleton; lia); exists w; (split; [left|done]).
Qed.

Definition members_of (r : nat) (ps : list (nat * LiveWindow)) : list LiveWindow :=
  (filter (λ p, p.1 = r) ps).*2.

Lemma groups_fold ps r :
  match foldl groupStep ∅ ps !! r with
  | None => members_of r ps = []
  | Some g => hull_of (members_of r ps) g
  end.
Proof.
  induction ps as [|[r' w] ps IH] using rev_ind; [done|].
  rewrite foldl_snoc. unfold members_of in *. rewrite filter_app, fmap_app. unfold groupStep at 1. cbn [fst snd].
  destruct (decide (r' = r)) as [->|Hne].
  - rewrite (filter_cons_True _ (r, w)), filter_nil by done. cbn.
    destruct (foldl groupStep ∅ ps !! r) as [g|] eqn:Hg; rewrite lookup_insert_eq.
    + by apply hull_snoc.
    + rewrite IH. apply hull_single.
  - rewrite (filter_cons_False _ (r', w)), filter_nil by done. cbn. rewrite app_nil_r.
    by destruct (foldl groupStep ∅ ps !! r'); rewrite lookup_insert_ne by done.
Qed.

Lemma elem_of_members r ps w : w ∈ members_of r ps ↔ (r, w) ∈ ps.
Proof.
  unfold members_of. rewrite list_elem_of_fmap. split.
  - by intros ([r' w'] & -> & [<- ?]%list_elem_of_filter).
  - intros H. exists (r, w). split; [done|]. by apply list_elem_of_filter.
Qed.

Lemma elem_of_groupList allocations roots windows b g :
  (b, g) ∈ groupList allocations roots windows ↔
  ∃ r, allocations !! r = Some b ∧ foldl groupStep ∅ (zip roots windows) !! r = Some g.
Proof.
  unfold groupList. rewrite list_elem_of_omap. split.
  - intros ([r b'] & Hin%elem_of_indexed & Hb). cbn in Hb.
    apply bind_Some in Hb as (g' & Hg & [= -> ->]). eauto.
  - intros (r & Hb & Hg). exists (r, b). rewrite elem_of_indexed. cbn. by rewrite Hg.
Qed.

(** What [storageGroups] returned says of every group and every allocation. *)
Lemma storageGroups_inv allocations dag sched gs :
  storageGroups allocations dag sched = Ok gs →
  ∃ byId ws roots, index_ok allocations byId ∧ length (entries sched) = length (events dag) ∧
    length ws = length allocations ∧ length roots = length allocations ∧
    gs = groupList allocations roots (closeWindow <$> ws) ∧
    (∀ i w, ws !! i = Some w → touched w = true ∧ 0 ≤ residency w ∧
      window_of (touches byId (entries sched) i 0 (events dag)) w ∧
      ∀ k ev, events dag !! k = Some ev →
        Z.of_nat (size (occurrences_of byId i (storageUses ev))) ≤ residency w) ∧
    (∀ i r a, roots !! i = Some r → allocations !! i = Some a → ∃ b, allocations !! r = Some b ∧
      rtc (alias_step allocations) a b ∧ aliasOf b = None).
Proof.
  intros H. unfold storageGroups in H. apply fail_then_ok in H as [Hlen H].
  apply negb_false_iff, Nat.eqb_eq in Hlen.
  apply bind_ok in H as (byId & Hidx%indexUnique_ok & H).
  apply bind_ok in H as (ws & Hws & H). apply bind_ok in H as (ws' & Hclose & H).
  apply bind_ok in H as (roots & Hroots & [= <-]).
  pose proof (events_length _ _ _ _ _ _ Hws) as Hwl. rewrite length_replicate in Hwl.
  pose proof (closeWindows_length _ _ _ Hclose Hwl) as Hwl'.
  destruct (map_result_lookup _ _ _ Hroots) as [Hrl Hr]. rewrite length_seq in Hrl.
  exists byId, ws, roots. split_and!; try done.
  - f_equal. apply list_eq. intros i. rewrite list_lookup_fmap. destruct (ws' !! i) as [w'|] eqn:Hi.
    + destruct (closeWindows_lookup _ _ _ _ _ Hclose Hi) as (w & -> & _ & ->). done.
    + apply lookup_ge_None in Hi. by rewrite (proj2 (lookup_ge_None ws i)) by lia.
  - intros i w Hw. destruct (events_fold _ _ _ _ _ _ Hws i w [] Hw) as [Hof (w0 & Hw0 & Hres & Hocc)].
    { intros w0 [-> _]%lookup_replicate. apply noWindow_of. }
    apply lookup_replicate in Hw0 as [-> _]. cbn in Hres.
    assert (is_Some (ws' !! i)) as [w' Hw'].
    { apply lookup_lt_is_Some. apply lookup_lt_Some in Hw. lia. }
    destruct (closeWindows_lookup _ _ _ _ _ Hclose Hw') as (w0 & Hw0 & Ht & _).
    assert (w0 = w) as -> by congruence. split_and!; [done..|].
    intros k ev Hk. specialize (Hocc k ev Hk). rewrite Z.max_r in Hocc by done. apply Hocc.
    apply lookup_lt_is_Some. apply lookup_lt_Some in Hk. lia.
  - intros i r a Hi Ha. destruct (Hr i i) as (r' & Hr' & Hc).
    { apply lookup_seq. split; [done|]. by apply lookup_lt_Some in Ha. }
    assert (r' = r) as -> by congruence. by eapply chainRoot_loop_ok.
Qed.

(** The group of an allocation. *)
Lemma group_of allocations roots ws i r w : roots !! i = Some r → ws !! i = Some w →
  ∃ g, foldl groupStep ∅ (zip roots ws) !! r = Some g ∧ w_start g ≤ w_start w ∧ w_end w ≤ w_end g ∧
    residency w ≤ residency g ∧
    ∀ b, allocations !! r = Some b → (b, g) ∈ groupList allocations roots ws.
Proof.
  intros Hr Hw. pose proof (groups_fold (zip roots ws) r) as Hg.
  assert (w ∈ members_of r (zip roots ws)) as Hin.
  { apply elem_of_members, list_elem_of_lookup. exists i. rewrite lookup_zip_with, Hr. cbn. by rewrite Hw. }
  destruct (foldl groupStep ∅ (zip roots ws) !! r) as [g|] eqn:Hgr; [|by rewrite Hg in Hin; apply elem_of_nil in Hin].
  exists g. destruct Hg as [H1 H2 H3 _ _ _]. split_and!; auto.
  intros b Hb. apply elem_of_groupList. eauto.
Qed.

(** An allocation's uses by id are its uses by position. *)
Lemma uses_by_id allocations byId i a ev : index_ok allocations byId → allocations !! i = Some a →
  uses_of byId i (storageUses ev) = filter (λ u, use_allocation u = al_id a) (storageUses ev).
Proof.
  intros Hidx Ha. unfold uses_of. apply list_filter_iff. intros u. rewrite (Hidx _ i). split.
  - intros (b & Hb & <-). congruence.
  - intros ->. eauto.
Qed.

(** ** Theorems *)

(** A use the schedule places: event [k] runs as [placed] and uses [a]. *)
Definition placed_use (dag : PlanEventDAG) (sched : EventScheduleResult) (a : StorageAllocation)
    (placed : ScheduledEvent) (u : StorageUse) : Prop :=
  ∃ k ev, events dag !! k = Some ev ∧ entries sched !! k = Some placed ∧ u ∈ storageUses ev ∧
    use_allocation u = al_id a.

(** The occurrences of [a] that one event names. *)
Definition named (a : StorageAllocation) (ev : PlanCostEvent) : gset Z :=
  list_to_set (use_occurrence <$> filter (λ u, use_allocation u = al_id a) (storageUses ev)).

Definition never_written (dag : PlanEventDAG) (sched : EventScheduleResult) (a : StorageAllocation) : Prop :=
  ∀ placed u, placed_use dag sched a placed u → use_access u = Read.

Lemma placed_use_touches allocations byId dag sched i a placed u :
  index_ok allocations byId → allocations !! i = Some a → placed_use dag sched a placed u →
  (placed, use_access u) ∈ touches byId (entries sched) i 0 (events dag).
Proof.
  intros Hidx Ha (k & ev & Hk & Hp & Hu & Hid). apply elem_of_touches.
  exists k, ev, u. split_and!; try done. apply Hidx. eauto.
Qed.

Lemma touches_placed_use allocations byId dag sched i a placed x :
  index_ok allocations byId → allocations !! i = Some a →
  (placed, x) ∈ touches byId (entries sched) i 0 (events dag) →
  ∃ u, placed_use dag sched a placed u ∧ use_access u = x.
Proof.
  intros Hidx Ha (k & ev & u & Hk & Hp & Hu & Hid & <-)%elem_of_touches.
  exists u. split; [|done]. exists k, ev. split_and!; try done.
  apply Hidx in Hid as (b & ? & ?). congruence.
Qed.

(** The window of every allocation's storage root holds what the schedule
    does with it: it is open from the start of each of its writes, or of each of
    its reads when nothing writes it, through the end of every use, and it counts
    at least as many resident versions as any one event names.  Conversely a
    window starts and ends where a use of some member does. *)
Theorem windows_contain_uses allocations dag sched gs :
  storageGroups allocations dag sched = Ok gs →
  (∀ a, a ∈ allocations → ∃ root g, (root, g) ∈ gs ∧
     rtc (alias_step allocations) a root ∧ aliasOf root = None ∧
     (∀ placed u, placed_use dag sched a placed u →
        sch_finish placed ≤ w_end g ∧
        (use_access u = Write ∨ never_written dag sched a → w_start g ≤ sch_start placed)) ∧
     ∀ ev, ev ∈ events dag → Z.of_nat (size (named a ev)) ≤ residency g) ∧
  (∀ root g, (root, g) ∈ gs →
     (∃ a placed u, a ∈ allocations ∧ placed_use dag sched a placed u ∧ w_start g = sch_start placed) ∧
     (∃ a placed u, a ∈ allocations ∧ placed_use dag sched a placed u ∧ w_end g = sch_finish placed)).
Proof.
  intros H. destruct (storageGroups_inv _ _ _ _ H)
    as (byId & ws & roots & Hidx & Hlen & Hwl & Hrl & -> & Hws & Hroots). split.
  - intros a [i Ha]%list_elem_of_lookup.
    assert (is_Some (ws !! i)) as [w Hw] by (apply lookup_lt_is_Some; apply lookup_lt_Some in Ha; lia).
    assert (is_Some (roots !! i)) as [r Hr] by (apply lookup_lt_is_Some; apply lookup_lt_Some in Ha; lia).
    destruct (Hroots i r a Hr Ha) as (b & Hb & Hchain & Hroot).
    destruct (group_of allocations roots (closeWindow <$> ws) i r (closeWindow w) Hr) as
      (g & _ & Hs & He & Hres & Hin); [by rewrite list_lookup_fmap, Hw|].
    destruct (Hws i w Hw) as (_ & Hr0 & Hof & Hocc). exists b, g. split_and!; [by apply Hin|done..| |].
    + intros placed u Hu. pose proof (placed_use_touches _ _ _ _ _ _ _ _ Hidx Ha Hu) as Hin'.
      split; [pose proof (wo_end _ _ Hof _ _ Hin'); cbn in He; lia|]. intros Hacc.
      cbn in Hs. destruct (written w) eqn:Hwr.
      * destruct Hacc as [Hacc|Hnw]; [rewrite Hacc in Hin'; pose proof (wo_write _ _ Hof _ Hin'); lia|].
        apply (wo_written _ _ Hof) in Hwr as [p Hp].
        destruct (touches_placed_use _ _ _ _ _ _ _ _ Hidx Ha Hp) as (u' & Hu' & Hwu).
        apply Hnw in Hu'. congruence.
      * destruct (use_access u) eqn:Hua; [pose proof (wo_read _ _ Hof _ Hin'); lia|].
        assert (written w = true) by (apply (wo_written _ _ Hof); eauto). congruence.
    + intros ev [k Hk]%list_elem_of_lookup. specialize (Hocc k ev Hk).
      unfold occurrences_of in Hocc. rewrite (uses_by_id _ _ _ _ _ Hidx Ha) in Hocc.
      fold (named a ev) in Hocc. cbn in Hres. destruct (residency w =? 0) eqn:?; lia.
  - intros b g (r & Hb & Hg)%elem_of_groupList.
    pose proof (groups_fold (zip roots (closeWindow <$> ws)) r) as Hh. rewrite Hg in Hh.
    destruct Hh as [_ _ _ (w1 & Hw1 & ->) (w2 & Hw2 & ->) _].
    assert (∀ w', w' ∈ members_of r (zip roots (closeWindow <$> ws)) → ∃ a i w,
      allocations !! i = Some a ∧ a ∈ allocations ∧ w' = closeWindow w ∧
      touches byId (entries sched) i 0 (events dag) ≠ [] ∧
      window_of (touches byId (entries sched) i 0 (events dag)) w) as Hmem.
    { intros w' [i Hi]%elem_of_members%list_elem_of_lookup.
      rewrite lookup_zip_Some, list_lookup_fmap in Hi. destruct Hi as [Hi Hi'].
      destruct (ws !! i) as [w|] eqn:Hw; cbn in Hi'; [|done]. injection Hi' as <-.
      assert (is_Some (allocations !! i)) as [a Ha] by (apply lookup_lt_is_Some; apply lookup_lt_Some in Hw; lia).
      destruct (Hws i w Hw) as (Ht & _ & Hof & _). exists a, i, w.
      split_and!; [done|by eapply list_elem_of_lookup_2|done|by apply (wo_touched _ _ Hof)|done]. }
    split.
    + destruct (Hmem _ Hw1) as (a & i & w & Ha & Hin & -> & Hne & Hof). cbn.
      assert (start_at (touches byId (entries sched) i 0 (events dag))
        (if written w then writeStart w else readStart w)) as (p & x & Hp & ->).
      { destruct (written w); [by apply (wo_write_at _ _ Hof)|by apply (wo_read_at _ _ Hof)]. }
      destruct (touches_placed_use _ _ _ _ _ _ _ _ Hidx Ha Hp) as (u & Hu & _). exists a, p, u. auto.
    + destruct (Hmem _ Hw2) as (a & i & w & Ha & Hin & -> & Hne & Hof). cbn.
      destruct (wo_end_at _ _ Hof Hne) as (p & x & Hp & ->).
      destruct (touches_placed_use _ _ _ _ _ _ _ _ Hidx Ha Hp) as (u & Hu & _). exists a, p, u. auto.
Qed.

Lemma storageGroups_ok allocations dag sched gs :
  (∀ a, a ∈ allocations → 0 ≤ al_bytes a) → storageGroups allocations dag sched = Ok gs → groups_ok gs.
Proof.
  intros Hbytes H. destruct (storageGroups_inv _ _ _ _ H)
    as (byId & ws & roots & Hidx & Hlen & Hwl & Hrl & -> & Hws & Hroots).
  intros [b g] (r & Hb & Hg)%elem_of_groupList. cbn. split; [by eapply Hbytes, list_elem_of_lookup_2|].
  pose proof (groups_fold (zip roots (closeWindow <$> ws)) r) as Hh. rewrite Hg in Hh.
  destruct Hh as [_ _ _ _ _ (w' & Hw' & ->)].
  apply elem_of_members, list_elem_of_lookup in Hw' as [i Hi].
  rewrite lookup_zip_Some, list_lookup_fmap in Hi. destruct Hi as [Hi Hi'].
  destruct (ws !! i) as [w|] eqn:Hw; cbn in Hi'; [|done]. injection Hi' as <-.
  destruct (Hws i w Hw) as (_ & ? & _). cbn. by destruct (residency w =? 0).
Qed.

Lemma analyze_peak allocations dag sched gs :
  (∀ a, a ∈ allocations → 0 ≤ al_bytes a) →
  storageGroups allocations dag sched = Ok gs →
  ((∃ r, analyzeStorageLiveness allocations dag sched = Ok r) ↔ ∀ m t, liveAt gs m t < 2 ^ 64) ∧
  ∀ r m, analyzeStorageLiveness allocations dag sched = Ok r →
    match peakBytes r !! m with
    | Some p => (∀ t, liveAt gs m t ≤ p) ∧ ∃ t, occupied gs m t ∧ liveAt gs m t = p
    | None => ∀ t, ¬ occupied gs m t
    end.
Proof.
  intros Hbytes Hgs. pose proof (storageGroups_ok _ _ _ _ Hbytes Hgs) as Hok.
  unfold analyzeStorageLiveness. rewrite Hgs. cbn [mbind result_bind].
  assert (∀ pk, fold_result (peakStep gs) ∅ (candidateTimes gs) = Ok pk → ∀ m,
    match pk !! m with
    | Some p => (∀ t, liveAt gs m t ≤ p) ∧ ∃ t, occupied gs m t ∧ liveAt gs m t = p
    | None => ∀ t, ¬ occupied gs m t
    end) as Hpeak.
  { intros pk Hpk m. destruct (peak_fold_ok _ _ _ _ Hok Hpk m) as (H1 & _ & H3).
    assert (∀ t, occupied gs m t → ∃ p, pk !! m = Some p ∧ liveAt gs m t ≤ p) as Hle.
    { intros t Ht. destruct (candidate_dominates gs m t Hok Ht) as (s & Hs & Hos & Hls).
      destruct (H1 s Hs Hos) as (p & ? & ?). exists p. split; [done|lia]. }
    destruct (pk !! m) as [p|] eqn:Hp.
    - destruct (H3 p eq_refl) as [Hno|(t & _ & Ht & <-)]; [by rewrite lookup_empty in Hno|].
      split; [|eauto]. intros s. destruct (decide (occupied gs m s)) as [Hs|Hs].
      + destruct (Hle s Hs) as (p & ? & ?). congruence.
      + rewrite (liveAt_unoccupied _ _ _ Hs). by apply liveAt_nonneg.
    - intros t Ht. by destruct (Hle t Ht) as (p & ? & _). }
  split.
  - split.
    + intros [r Hr] m t. apply bind_ok in Hr as (pk & Hpk & _).
      destruct (decide (occupied gs m t)) as [Ht|Ht]; [|by rewrite (liveAt_unoccupied _ _ _ Ht)].
      destruct (candidate_dominates gs m t Hok Ht) as (s & Hs & _ & Hle).
      pose proof (peak_fold_fits _ _ _ _ Hok Hpk m s Hs). lia.
    + intros Hfit. destruct (peak_fold_total gs (candidateTimes gs) ∅ Hok) as [pk Hpk]; [auto|].
      rewrite Hpk. by eexists.
  - intros r m Hr. apply bind_ok in Hr as (pk & Hpk & [= <-]). by apply Hpeak.
Qed.

(** The reported peak of a memory is the maximum, over all instants, of the
    bytes its live storage roots hold there, although only window starts are
    tried; a memory without a peak is never occupied.  Once the windows are
    determined, the analysis fails exactly when the bytes live at some instant do
    not fit 64 bits. *)
Theorem peak_is_maximum allocations dag sched gs :
  (∀ a, a ∈ allocations → 0 ≤ al_bytes a) →
  storageGroups allocations dag sched = Ok gs →
  ((∃ r, analyzeStorageLiveness allocations dag sched = Ok r) ↔ ∀ m t, liveAt gs m t < 2 ^ 64) ∧
  ∀ r m, analyzeStorageLiveness allocations dag sched = Ok r →
    match peakBytes r !! m with
    | Some p => (∀ t, liveAt gs m t ≤ p) ∧ ∃ t, occupied gs m t ∧ liveAt gs m t = p
    | None => ∀ t, ¬ occupied gs m t
    end.
Proof. apply analyze_peak. Qed.

(** *** Reuse edges *)
Lemma indexOf_valid allocations k i : indexOf allocations !! k = Some i → (i < length allocations)%nat.
Proof.
  unfold indexOf.
  assert (∀ l (m : gmap Z nat), (∀ p, p ∈ l → (p.1 < length allocations)%nat) →
    (∀ k i, m !! k = Some i → (i < length allocations)%nat) →
    ∀ k i, foldl (λ m (p : nat * StorageAllocation), <[al_id p.2 := p.1]> m) m l !! k = Some i →
      (i < length allocations)%nat) as H.
  { induction l as [|p l IH]; intros m Hl Hm; cbn; [done|]. apply IH; [intros; apply Hl; by right|].
    intros k' i' [[_ <-]|[_ H]]%lookup_insert_Some; [apply Hl; left|by eapply Hm]. }
  apply (H _ ∅); [|done]. intros [j a] Hj%elem_of_indexed. cbn. by eapply lookup_lt_Some.
Qed.

Lemma rootOf_valid allocations i : (i < length allocations)%nat → (rootOf allocations i < length allocations)%nat.
Proof.
  unfold rootOf. generalize (S (length allocations)) as fuel, (@nil nat) as seen. intros fuel.
  revert i. induction fuel as [|fuel IH]; intros i seen Hi; cbn [rootOf_loop]; [done|].
  destruct (allocations !! i ≫= aliasOf) as [target|]; [|done].
  destruct (indexOf allocations !! target) as [next|] eqn:Hn; [|done].
  destruct (contains seen i); [done|]. apply IH. by eapply indexOf_valid.
Qed.

Lemma elem_of_membersByRoot allocations r i :
  i ∈ membersByRoot allocations r ↔ rootOf allocations i = r ∧ (i < length allocations)%nat.
Proof. unfold membersByRoot. rewrite list_elem_of_filter, elem_of_seq. lia. Qed.

Lemma edges_along_in allocations L e : e ∈ edges_along allocations L ↔
  ∃ k i j a b, L !! k = Some i ∧ L !! S k = Some j ∧ allocations !! i = Some a ∧
    allocations !! j = Some b ∧ e = mkEdge (endStep a) (beginStep b).
Proof.
  induction L as [|p [|n L] IH].
  - cbn. split; [by intros []%elem_of_nil|]. by intros (k & ? & ? & ? & ? & ? & _).
  - cbn. split; [by intros []%elem_of_nil|]. by intros ([|k] & ? & ? & ? & ? & ? & ? & _).
  - change (edges_along allocations (p :: n :: L)) with
      ((match allocations !! p, allocations !! n with
        | Some p, Some n => [mkEdge (endStep p) (beginStep n)]
        | _, _ => []
        end ++ edges_along allocations (n :: L))%list).
    rewrite elem_of_app, IH. split.
    + intros [He|(k & H)]; [|exists (S k); exact H].
      destruct (allocations !! p) as [a|] eqn:Ha, (allocations !! n) as [b|] eqn:Hb;
        try by apply elem_of_nil in He.
      apply list_elem_of_singleton in He as ->. exists O, p, n, a, b. done.
    + intros ([|k] & i & j & a & b & Hi & Hj & Ha & Hb & ->); [|right; exists k, i, j, a, b; done].
      cbn in Hi, Hj. injection Hi as ->. injection Hj as ->. rewrite Ha, Hb. left. left.
Qed.

Lemma requiredReuseEdges_in allocations e : e ∈ requiredReuseEdgesFor allocations ↔
  ∃ r, (r < length allocations)%nat ∧ e ∈ edges_of_root allocations r.
Proof.
  unfold requiredReuseEdgesFor. rewrite merge_sort_Permutation, elem_of_remove_dups, list_elem_of_join.
  setoid_rewrite list_elem_of_fmap. setoid_rewrite elem_of_seq. split.
  - intros (l & Hl & r & -> & Hr). exists r. split; [lia|done].
  - intros (r & Hr & He). exists (edges_of_root allocations r). split; [done|]. exists r. split; [done|lia].
Qed.

(** Along consecutive edges the occupants are ordered pairwise. *)
Lemma chain_ordered (R : Z → Z → Prop) `{!Transitive R} allocations L :
  (∀ i, i ∈ L → is_Some (allocations !! i)) →
  (∀ a, a ∈ allocations → R (beginStep a) (endStep a)) →
  (∀ e, e ∈ edges_along allocations L → R (from e) (to e)) →
  ∀ k l i j a b, (k < l)%nat → L !! k = Some i → L !! l = Some j →
    allocations !! i = Some a → allocations !! j = Some b → R (endStep a) (beginStep b).
Proof.
  intros HL Hlive Hedge k l i j a b Hkl Hi Hj Ha Hb. revert j b Hj Hb.
  induction l as [|l IH]; [lia|]. intros j b Hj Hb.
  destruct (decide (k = l)) as [->|Hne].
  { apply (Hedge (mkEdge (endStep a) (beginStep b))), edges_along_in. by exists l, i, j, a, b. }
  destruct (lookup_lt_is_Some_2 L l) as [p Hp]; [apply lookup_lt_Some in Hj; lia|].
  destruct (HL p) as [c Hc]; [by eapply list_elem_of_lookup_2|].
  transitivity (beginStep c); [apply (IH ltac:(lia) p c Hp Hc)|].
  transitivity (endStep c); [by eapply Hlive, list_elem_of_lookup_2|].
  apply (Hedge (mkEdge (endStep c) (beginStep b))), edges_along_in. by exists l, p, j, c, b.
Qed.

(** *** The fuel of the alias walks

    A walk leaves a position at most once, so one round per allocation and one
    more reach the end: more fuel does not change the result. *)
Lemma seen_bound n (seen : list nat) : NoDup seen → (∀ x, x ∈ seen → (x < n)%nat) → (length seen ≤ n)%nat.
Proof.
  intros Hnd Hlt. assert (seen ⊆+ seq 0 n) as Hsub.
  { apply NoDup_submseteq; [done|]. intros x Hx. apply elem_of_seq. specialize (Hlt x Hx). lia. }
  apply submseteq_length in Hsub. by rewrite length_seq in Hsub.
Qed.

Lemma seen_snoc n (seen : list nat) i : NoDup seen → (∀ x, x ∈ seen → (x < n)%nat) →
  (i < n)%nat → contains seen i = false →
  NoDup (seen ++ [i])%list ∧ ∀ x, x ∈ (seen ++ [i])%list → (x < n)%nat.
Proof.
  intros Hnd Hlt Hi Hc%contains_false. split.
  - apply NoDup_app. split_and!; [done| |apply NoDup_singleton].
    by intros x Hx ->%list_elem_of_singleton.
  - intros x [Hx|Hx%list_elem_of_singleton]%elem_of_app; [by apply Hlt|by subst].
Qed.

Lemma rootOf_loop_fuel allocations fuel seen i :
  NoDup seen → (∀ x, x ∈ seen → (x < length allocations)%nat) → (i < length allocations)%nat →
  (S (length allocations) ≤ fuel + length seen)%nat →
  rootOf_loop (S fuel) allocations seen i = rootOf_loop fuel allocations seen i.
Proof.
  revert seen i. induction fuel as [|fuel IH]; intros seen i Hnd Hlt Hi Hfuel.
  { pose proof (seen_bound _ _ Hnd Hlt). lia. }
  change (rootOf_loop (S (S fuel)) allocations seen i) with
    (match allocations !! i ≫= aliasOf with
     | None => i
     | Some target =>
       match indexOf allocations !! target with
       | None => i
       | Some next => if contains seen i then i else rootOf_loop (S fuel) allocations (seen ++ [i]) next
       end
     end).
  cbn [rootOf_loop]. destruct (allocations !! i ≫= aliasOf) as [target|]; [|done].
  destruct (indexOf allocations !! target) as [next|] eqn:Hn; [|done].
  destruct (contains seen i) eqn:Hc; [done|].
  destruct (seen_snoc _ _ _ Hnd Hlt Hi Hc). apply IH; [done..|by eapply indexOf_valid|].
  rewrite length_app. cbn. lia.
Qed.

Lemma chainRoot_loop_fuel allocations byId fuel seen i : index_ok allocations byId →
  NoDup seen → (∀ x, x ∈ seen → (x < length allocations)%nat) → (i < length allocations)%nat →
  (S (length allocations) ≤ fuel + length seen)%nat →
  chainRoot_loop (S fuel) allocations byId seen i = chainRoot_loop fuel allocations byId seen i.
Proof.
  intros Hidx. revert seen i. induction fuel as [|fuel IH]; intros seen i Hnd Hlt Hi Hfuel.
  { pose proof (seen_bound _ _ Hnd Hlt). lia. }
  change (chainRoot_loop (S (S fuel)) allocations byId seen i) with
    (match allocations !! i with
     | None => Ok i
     | Some a =>
       match aliasOf a with
       | None => Ok i
       | Some target =>
         fail! (CyclicAlias (al_id a)) when contains seen i;
         match byId !! target with
         | None => Err (UnknownAlias (al_id a) target)
         | Some next => chainRoot_loop (S fuel) allocations byId (seen ++ [i]) next
         end
       end
     end).
  cbn [chainRoot_loop]. destruct (allocations !! i) as [a|]; [|done].
  destruct (aliasOf a) as [target|]; [|done]. destruct (contains seen i) eqn:Hc; [done|].
  cbn [fail_if mbind result_bind]. destruct (byId !! target) as [next|] eqn:Hn; [|done].
  destruct (seen_snoc _ _ _ Hnd Hlt Hi Hc).
  apply IH; [done..| |rewrite length_app; cbn; lia].
  apply Hidx in Hn as (b & Hb & _). by eapply lookup_lt_Some.
Qed.

(** C12: The required reuse edges keep the occupants of one buffer apart: in any
    transitive order of the steps that contains them and runs every allocation
    from its first step to its last, of two allocations with one storage root one
    is dead before the other begins.  No edge is reported for another reason: each
    runs from the end of one occupant to the beginning of another of the same
    root. *)
Theorem occupants_separated allocations (R : Z → Z → Prop) :
  Transitive R →
  (∀ a, a ∈ allocations → R (beginStep a) (endStep a)) →
  (∀ e, e ∈ requiredReuseEdgesFor allocations → R (from e) (to e)) →
  (∀ i j a b, i ≠ j → allocations !! i = Some a → allocations !! j = Some b →
     rootOf allocations i = rootOf allocations j →
     R (endStep a) (beginStep b) ∨ R (endStep b) (beginStep a)) ∧
  ∀ e, e ∈ requiredReuseEdgesFor allocations → ∃ i j a b, i ≠ j ∧
    allocations !! i = Some a ∧ allocations !! j = Some b ∧
    rootOf allocations i = rootOf allocations j ∧ e = mkEdge (endStep a) (beginStep b).
Proof.
  intros HR Hlive Hedge. split.
  - intros i j a b Hij Ha Hb Hroot. set (r := rootOf allocations i) in *.
    pose proof (lookup_lt_Some _ _ _ Ha) as Hi. pose proof (lookup_lt_Some _ _ _ Hb) as Hj.
    pose proof (merge_sort_Permutation (begins_before allocations) (membersByRoot allocations r)) as Hp.
    set (L := merge_sort (begins_before allocations) (membersByRoot allocations r)) in *.
    assert (i ∈ L) as HiL by (rewrite Hp; by apply elem_of_membersByRoot).
    assert (j ∈ L) as HjL by (rewrite Hp; apply elem_of_membersByRoot; done).
    apply list_elem_of_lookup in HiL as [k Hk], HjL as [l Hl].
    assert (k ≠ l) as Hkl by congruence.
    assert (2 ≤ length (membersByRoot allocations r))%nat as Hlen.
    { rewrite <- Hp. apply lookup_lt_Some in Hk, Hl. lia. }
    assert (∀ x, x ∈ L → is_Some (allocations !! x)) as Hall.
    { intros x Hx. rewrite Hp in Hx. apply elem_of_membersByRoot in Hx as [_ ?]. by apply lookup_lt_is_Some. }
    assert (∀ e, e ∈ edges_along allocations L → R (from e) (to e)) as HLe.
    { intros e He. apply Hedge, requiredReuseEdges_in. exists r. split; [by apply rootOf_valid|].
      unfold edges_of_root. by rewrite (proj2 (Nat.ltb_ge _ _)) by lia. }
    destruct (Nat.lt_total k l) as [Hlt|[?|Hlt]]; [left|done|right];
      by eapply (chain_ordered R allocations L Hall Hlive HLe).
  - intros e (r & _ & He)%requiredReuseEdges_in. unfold edges_of_root in He.
    destruct (_ <? 2)%nat; [by apply elem_of_nil in He|].
    apply edges_along_in in He as (k & i & j & a & b & Hi & Hj & Ha & Hb & ->).
    exists i, j, a, b. split_and!; [|done|done| |done].
    + intros ->. assert (k = S k); [|lia].
      eapply (NoDup_lookup (merge_sort (begins_before allocations) (membersByRoot allocations r))); [|done..].
      rewrite merge_sort_Permutation. apply NoDup_filter, NoDup_seq.
    + apply list_elem_of_lookup_2 in Hi, Hj. rewrite merge_sort_Permutation in Hi.
      rewrite merge_sort_Permutation in Hj.
      apply elem_of_membersByRoot in Hi as [-> _], Hj as [-> _]. done.
Qed.

(** ** Examples *)
Definition sample_alloc (id bytes : Z) (alias : option Z) (b e : Z) : StorageAllocation :=
  mkAllocation id id "sram" bytes alias b e false 1.
Definition sample_allocs : list StorageAllocation :=
  [sample_alloc 10 64 None 0 1; sample_alloc 11 64 (Some 10) 1 2; sample_alloc 12 32 None 0 2].

Definition sample_event (deps : list nat) (uses : list StorageUse) : PlanCostEvent :=
  mkPlanEvent (mkEvent Compute "e" (CostModel.mkCost Float.dzero 0 0 0 Float.dzero Float.dzero)) 1 0 0 0 0 deps
    "" "" "" "" 0 None None 0 uses.
Definition sample_dag : PlanEventDAG :=
  mkDAG [sample_event [] [mkUse 10 0 Write; mkUse 12 0 Write];
         sample_event [O] [mkUse 10 0 Read; mkUse 11 0 Write];
         sample_event [1%nat] [mkUse 11 0 Read; mkUse 12 0 Read; mkUse 12 1 Read]] Accumulation.
Definition sample_schedule : EventScheduleResult :=
  mkResult 30 2 30 [mkScheduled 0 0 10; mkScheduled 1 10 20; mkScheduled 2 20 30].
Definition sample_groups : list (StorageAllocation * LiveWindow) :=
  match storageGroups sample_allocs sample_dag sample_schedule with
  | Ok gs => gs
  | Err _ => []
  end.

Lemma windows_contain_uses_witness :
  ∃ root g, (root, g) ∈ sample_groups ∧ rtc (alias_step sample_allocs) (sample_alloc 11 64 (Some 10) 1 2) root ∧
    aliasOf root = None.
Proof.
  destruct (windows_contain_uses sample_allocs sample_dag sample_schedule sample_groups) as [H _];
    [vm_compute; reflexivity|].
  destruct (H (sample_alloc 11 64 (Some 10) 1 2)) as (root & g & Hg & Hc & Hr & _); [right; left|].
  exact (ex_intro _ root (ex_intro _ g (conj Hg (conj Hc Hr)))).
Defined.

Definition peak_of (r : result liveness_error StorageLivenessResult) (m : string) : option Z :=
  match r with
  | Ok r => peakBytes r !! m
  | Err _ => None
  end.

Lemma sample_bytes a : a ∈ sample_allocs → 0 ≤ al_bytes a ∧ beginStep a ≤ endStep a.
Proof.
  intros Ha. repeat (apply elem_of_cons in Ha as [->|Ha]; [cbn; lia|]). by apply elem_of_nil in Ha.
Qed.

Lemma peak_is_maximum_witness :
  peak_of (analyzeStorageLiveness sample_allocs sample_dag sample_schedule) "sram" = Some 128 ∧
  ∀ t, liveAt sample_groups "sram" t ≤ 128.
Proof.
  assert (peak_of (analyzeStorageLiveness sample_allocs sample_dag sample_schedule) "sram" = Some 128) as Hp
    by (vm_compute; reflexivity).
  split; [exact Hp|].
  destruct (peak_is_maximum sample_allocs sample_dag sample_schedule sample_groups) as [_ H].
  - intros a Ha. exact (proj1 (sample_bytes a Ha)).
  - vm_compute. reflexivity.
  - destruct (analyzeStorageLiveness sample_allocs sample_dag sample_schedule) as [r|e]; [|discriminate Hp].
    specialize (H r "sram" eq_refl). cbn [peak_of] in Hp. rewrite Hp in H. exact (proj1 H).
Defined.

Lemma occupants_separated_witness :
  endStep (sample_alloc 10 64 None 0 1) ≤ beginStep (sample_alloc 11 64 (Some 10) 1 2) ∨
  endStep (sample_alloc 11 64 (Some 10) 1 2) ≤ beginStep (sample_alloc 10 64 None 0 1).
Proof.
  destruct (occupants_separated sample_allocs Z.le) as [H _].
  - intros x y z. apply Z.le_trans.
  - intros a Ha. exact (proj2 (sample_bytes a Ha)).
  - assert (requiredReuseEdgesFor sample_allocs = [mkEdge 1 1]) as -> by (vm_compute; reflexivity).
    intros e ->%list_elem_of_singleton. cbn. lia.
  - apply (H 0%nat 1%nat); [discriminate|reflexivity|reflexivity|vm_compute; reflexivity].
Defined.

(** A written allocation whose first use in the stream is a read is live from
    that read, not from the start of its writer. *)
Lemma written_window_opens_at_read :
  let w := closeWindow (touch (touch noWindow (mkScheduled 0 0 1) Read) (mkScheduled 1 5 6) Write) in
  written w = true ∧ w_start w = 0.
Proof. done. Qed.

(** The edges come in order and without repetition. *)
Lemma requiredReuseEdges_sorted allocations :
  StronglySorted edge_le (requiredReuseEdgesFor allocations) ∧ NoDup (requiredReuseEdgesFor allocations).
Proof.
  unfold requiredReuseEdgesFor. split.
  - apply StronglySorted_merge_sort.
    + intros a b c. unfold edge_le. repeat destruct (decide _); lia.
    + intros a b. unfold edge_le. repeat destruct (decide _); lia.
  - rewrite merge_sort_Permutation. apply NoDup_remove_dups.
Qed.
