(* ===== verification/TileFacts.v ===== *)
(** What a value type says of the tile it carries: include/LLK/Mapping/TileFacts.h
    and lib/Mapping/TileFacts.cpp.

    A tile type of the dialect is opaque to the mapping core, so it is read through
    its printed form: the text up to the first [,] or [>] is wrapped in [tensor<...>]
    and parsed again.  Sizes are checked products on 64 bits, and a size that does not
    fit is unknown, never small. *)
From S2P Require Import Prelude MachineModel CostModel WorkloadGraph.
Open Scope string_scope.
Open Scope Z_scope.

(** What the code asks of MLIR here: the parser of types, which types are bare
    scalars ([FloatType], [IntegerType], [IndexType]), and the shape of a shaped type. *)
Class MLIRTiles `{MLIRText} := {
  mlir_type_eq_dec :: EqDecision mlir_type;
  parseType : string → option mlir_type;
  isScalarType : mlir_type → bool;
  getShape : shaped_type → list Z;
}.

(** [StringRef::consume_front]. *)
Fixpoint consume_front (head text : string) : option string :=
  match head, text with
  | EmptyString, _ => Some text
  | String c head, String d text => if Ascii.eqb c d then consume_front head text else None
  | String _ _, EmptyString => None
  end.

(** [take_front(find_first_of(stops))], when there is such a character. *)
Fixpoint take_until (stops : list Ascii.ascii) (text : string) : option string :=
  match text with
  | EmptyString => None
  | String c text => if contains stops c then Some "" else String c <$> take_until stops text
  end.

Section tiles.
Context `{MLIRTiles}.

Record TileFacts := mkFacts { f_bytes : Z; f_alignment : Z; f_known : bool }.
Definition noFacts : TileFacts := mkFacts 0 0 false.

(** Unlike [elementByteWidth] of the cost model, a float's width is rounded down. *)
Definition elementByteWidth (element : mlir_type) : option Z :=
  match float_width element with
  | Some w => Some (w `div` 8)
  | None => (λ w, (w + 7) `div` 8) <$> int_width element
  end.

Definition tileAsTensor (type : option mlir_type) : option mlir_type :=
  t ← type;
  text ← consume_front "!micro.tile<" (typeString (Some t));
  head ← take_until [","; ">"]%char text;
  parseType ("tensor<" +:+ head +:+ ">").

Definition elementTypeOf (type : option mlir_type) : option mlir_type :=
  t ← type;
  match as_shaped t with
  | Some shaped => Some (getElementType shaped)
  | None =>
    if isScalarType t then Some t
    else tile ← tileAsTensor type; getElementType <$> as_shaped tile
  end.

(** The shaped type a value's type is, or its tile denotes. *)
Definition shapedOf (type : option mlir_type) : option shaped_type :=
  t ← type;
  match as_shaped t with
  | Some shaped => Some shaped
  | None => tile ← tileAsTensor type; as_shaped tile
  end.

Definition staticShapeOf (type : option mlir_type) : option (list Z) :=
  shaped ← shapedOf type;
  if hasStaticShape shaped then Some (getShape shaped) else None.

Definition tileFactsFor (valueType : option mlir_type) : TileFacts :=
  match shapedOf valueType with
  | None => noFacts
  | Some shaped =>
    if negb (hasStaticShape shaped) then noFacts
    else
      match elementByteWidth (getElementType shaped) with
      | None => noFacts
      | Some width =>
        if bool_decide (width = 0) then noFacts
        else if bool_decide (getNumElements shaped < 0) then noFacts
        else
          match checked_mul_u64 (getNumElements shaped) width with
          | None => noFacts
          | Some bytes => mkFacts bytes width true
          end
      end
  end.

(** Facts are known exactly for a static shape of elements of whole positive width
    whose size fits 64 bits, and then they are its exact size; otherwise both
    numbers are 0. *)
Lemma tileFactsFor_exact type :
  (∀ shaped w, shapedOf type = Some shaped →
     float_width (getElementType shaped) = Some w ∨ int_width (getElementType shaped) = Some w → 0 <= w) →
  if f_known (tileFactsFor type) then
    ∃ shaped, shapedOf type = Some shaped ∧ hasStaticShape shaped = true ∧
      elementByteWidth (getElementType shaped) = Some (f_alignment (tileFactsFor type)) ∧
      0 < f_alignment (tileFactsFor type) ∧ in_u64 (f_bytes (tileFactsFor type)) ∧
      f_bytes (tileFactsFor type) = getNumElements shaped * f_alignment (tileFactsFor type)
  else tileFactsFor type = noFacts.
Proof.
  intros Hw. unfold tileFactsFor. destruct (shapedOf type) as [shaped|] eqn:Hsh; [|done].
  destruct (hasStaticShape shaped) eqn:Hs; [|done]. cbn [negb].
  destruct (elementByteWidth (getElementType shaped)) as [w|] eqn:He; [|done].
  case_bool_decide; [done|]. case_bool_decide; [done|].
  destruct (checked_mul_u64 _ w) as [bytes|] eqn:Hm; [|done].
  apply checked_mul_u64_spec in Hm as [-> Hm]. cbn. exists shaped. split_and!; try done.
  enough (0 <= w) by lia. unfold elementByteWidth in He.
  destruct (float_width (getElementType shaped)) as [v|] eqn:Hf.
  - injection He as <-. apply Z.div_pos; [|done]. eapply Hw; [done|by left].
  - destruct (int_width (getElementType shaped)) as [v|] eqn:Hi; [|done]. injection He as <-.
    apply Z.div_pos; [|done]. specialize (Hw _ v eq_refl (or_intror Hi)). lia.
Qed.
End tiles.
