(* ===== verification/MappingRules.v ===== *)
(** Rule declarations: include/LLK/Mapping/MappingRules.h and the first half of
    lib/Mapping/MappingRules.cpp.

    A mapping rule names the operation, or the bounded graph of operations, that a
    target bundle implements, with predicates on it and requirements on the machine.
    The parser extends the one of [LlkMap]; rules are kept in a registry sorted by
    id.  The theorems: loading a rule file always ends and what it loads is well
    formed; the affine map of a loaded predicate always builds; a registry does not
    depend on the order its rules were added in.

    What matching does with the rules is the file [RuleMatching]. *)
From S2P Require Import Prelude MachineModel LlkMap LayoutConstraints WorkloadGraph TileFacts.
From Stdlib Require Import Sorted.
Import (hints) LlkMap.
Open Scope string_scope.
Open Scope Z_scope.

(** ** Data *)
Inductive RulePredicateKind := AttributePredicate | ElementTypePredicate | ShapePredicate | AccessMapPredicate.
#[export] Instance RulePredicateKind_eq_dec : EqDecision RulePredicateKind.
Proof. solve_decision. Defined.

Record RulePredicate := mkPredicate {
  rp_kind : RulePredicateKind;
  rp_attribute : string;
  directionSet : bool;
  rp_isInput : bool;
  portIndex : Z;
  dimension : Z;
  rp_value : LayoutValue;
  rp_accessMap : option AffineMapSpec;
}.

Record RulePort := mkRulePort { rport_name : string; rport_isInput : bool }.
#[export] Instance RulePort_eq_dec : EqDecision RulePort.
Proof. solve_decision. Defined.

Record KindRequirement := mkKind { role : string; kr_kind : string; kr_port : option RulePort }.
Record RuleLayoutRequirement := mkRuleLayout { rl_port : string; layoutId : string }.

Record RulePatternNode := mkPatternNode { pn_name : string; pn_op : string; pn_predicates : list RulePredicate }.
Record RulePatternEdge := mkPatternEdge {
  pe_producer : string;
  resultIndex : Z;
  pe_consumer : string;
  operandIndex : Z;
}.
#[export] Instance RulePatternEdge_eq_dec : EqDecision RulePatternEdge.
Proof. solve_decision. Defined.
Record RulePattern := mkPattern { pt_nodes : list RulePatternNode; pt_edges : list RulePatternEdge }.

(** [RulePattern::findNode], with the position of the node. *)
Definition findPatternNode (pattern : RulePattern) (n : string) : option (nat * RulePatternNode) :=
  list_find (λ node, pn_name node = n) (pt_nodes pattern).

Record RuleDef := mkRule {
  r_id : string;
  r_version : Z;
  matchOp : string;
  r_pattern : option RulePattern;
  predicates : list RulePredicate;
  r_params : list LayoutParam;
  r_domains : gmap string ParamDomain;
  r_constraints : list Expr;
  kindRequirements : list KindRequirement;
  r_layoutRequirements : list RuleLayoutRequirement;
  r_ports : list RulePort;
  r_bundle : string;
  bundleParameters : list (string * LayoutValue);
  emitter : string;
  costLowerBound : option Z;
}.
Definition emptyRule (i : string) (version : Z) : RuleDef :=
  mkRule i version "" None [] [] ∅ [] [] [] [] "" [] "" None.

Definition findRuleParam (def : RuleDef) (n : string) : option LayoutParam :=
  List.find (λ p, bool_decide (name p = n)) (r_params def).

(** ** The registry

    [defs_] is sorted by id, where the binary search of [llvm::lower_bound] is the
    first position whose id is not smaller. *)
Definition RuleRegistry : Type := list RuleDef.

Fixpoint lowerBound (i : string) (defs : RuleRegistry) : RuleRegistry * RuleRegistry :=
  match defs with
  | [] => ([], [])
  | d :: ds =>
    if str_ltb (r_id d) i then let '(before, after) := lowerBound i ds in (d :: before, after)
    else ([], d :: ds)
  end.

Definition findRule (defs : RuleRegistry) (i : string) : option RuleDef :=
  match (lowerBound i defs).2 with
  | d :: _ => if decide (r_id d = i) then Some d else None
  | [] => None
  end.

Definition addRule (defs : RuleRegistry) (def : RuleDef) : result string RuleRegistry :=
  match findRule defs (r_id def) with
  | Some _ => Err ("duplicate rule id '" +:+ r_id def +:+ "'")
  | None => let '(before, after) := lowerBound (r_id def) defs in Ok (before ++ def :: after)%list
  end.

(** ** Parsing *)

(** [StringRef::getAsInteger(10, uint64_t)]. *)
Definition getAsU64 (s : string) : option Z :=
  if negb (str_empty s) && str_all isdigit s && bool_decide (digits_value 0 s < 2 ^ 64)
  then Some (digits_value 0 s) else None.

Definition parseVersionToken (s : string) : option Z :=
  match s with
  | String c rest => if bool_decide (c = "v"%char) && str_all isdigit rest then getAsU64 rest else None
  | EmptyString => None
  end.

(** Affine in the sense of the map builder. *)
Fixpoint isAffineSpecExpr (e : Expr) : bool :=
  match kind e with
  | IntLit | Ident => true
  | Unary =>
    match operands e with
    | operand :: _ => bool_decide (text e = "-") && isAffineSpecExpr operand
    | [] => false
    end
  | Binary =>
    match operands e with
    | lhs :: rhs :: _ =>
      if decide (text e = "*") then
        (bool_decide (kind lhs = IntLit) || bool_decide (kind rhs = IntLit)) &&
        isAffineSpecExpr lhs && isAffineSpecExpr rhs
      else if decide (text e ∈ ["+"; "-"; "/"; "%"]) then isAffineSpecExpr lhs && isAffineSpecExpr rhs
      else false
    | _ => false
    end
  | Call =>
    bool_decide (text e ∈ ["floordiv"; "ceildiv"; "mod"]) &&
    match operands e with
    | [lhs; rhs] => isAffineSpecExpr lhs && isAffineSpecExpr rhs
    | _ => false
    end
  | StringLit | MemberCall | Quantifier => false
  end.

Definition peek (p : LlkMapParser) (ahead : nat) : LlkMapToken :=
  match tokens p !! ahead with Some t => t | None => default endToken (last (tokens p)) end.
Definition peekWord (p : LlkMapParser) (ahead : nat) (words : list string) : bool :=
  bool_decide (tk_kind (peek p ahead) = TIdentifier) && contains words (tk_text (peek p ahead)).

(** The position of the last dot. *)
Fixpoint rfind_dot (s : string) : option nat :=
  match s with
  | EmptyString => None
  | String c s =>
    match rfind_dot s with
    | Some i => Some (S i)
    | None => if bool_decide (c = "."%char) then Some O else None
    end
  end.

Inductive PredicateValueKind := AnyValue | IntOnly | SymbolOnly.
#[export] Instance PredicateValueKind_eq_dec : EqDecision PredicateValueKind.
Proof. solve_decision. Defined.

Definition set_match (d : RuleDef) (op : string) (pattern : option RulePattern) (ps : list RulePredicate) : RuleDef :=
  mkRule (r_id d) (r_version d) op pattern ps (r_params d) (r_domains d) (r_constraints d) (kindRequirements d)
    (r_layoutRequirements d) (r_ports d) (r_bundle d) (bundleParameters d) (emitter d) (costLowerBound d).
Definition set_params (d : RuleDef) ps doms : RuleDef :=
  mkRule (r_id d) (r_version d) (matchOp d) (r_pattern d) (predicates d) ps doms (r_constraints d) (kindRequirements d)
    (r_layoutRequirements d) (r_ports d) (r_bundle d) (bundleParameters d) (emitter d) (costLowerBound d).
Definition set_require (d : RuleDef) cs ks ls : RuleDef :=
  mkRule (r_id d) (r_version d) (matchOp d) (r_pattern d) (predicates d) (r_params d) (r_domains d) cs ks ls
    (r_ports d) (r_bundle d) (bundleParameters d) (emitter d) (costLowerBound d).
Definition set_ports (d : RuleDef) ps : RuleDef :=
  mkRule (r_id d) (r_version d) (matchOp d) (r_pattern d) (predicates d) (r_params d) (r_domains d) (r_constraints d)
    (kindRequirements d) (r_layoutRequirements d) ps (r_bundle d) (bundleParameters d) (emitter d) (costLowerBound d).
Definition set_metadata (d : RuleDef) b bps e c : RuleDef :=
  mkRule (r_id d) (r_version d) (matchOp d) (r_pattern d) (predicates d) (r_params d) (r_domains d) (r_constraints d)
    (kindRequirements d) (r_layoutRequirements d) (r_ports d) b bps e c.

Section parser.
Variable source : string.

Definition failAtToken {A} (token : LlkMapToken) (message : string) : parser A := λ p,
  (Rejected, mkParser (tokens p)
    (if str_empty (error_ p)
     then source +:+ ":" +:+ to_string (tk_line token) +:+ ":" +:+ to_string (tk_column token) +:+
          ": error: " +:+ message
     else error_ p)).

(** A quoted name. *)
Definition expectString (message : string) : parser string := λ p,
  if bool_decide (tk_kind (current p) = TString) then (Parsed (tk_text (current p)), advance p)
  else failAt source message p.

(** An integer that may not be negative. *)
Definition expectIndex (message negative : string) : parser Z := λ p,
  if bool_decide (tk_kind (current p) = TInt) then
    if bool_decide (tk_int (current p) < 0) then failAt source negative p
    else (Parsed (tk_int (current p)), advance p)
  else failAt source message p.

Definition parsePredicateValue (expected : PredicateValueKind) : parser LayoutValue :=
  _ ← expectPunct source "=";
  get (λ p,
    let token := current p in
    if bool_decide (expected ≠ SymbolOnly) && bool_decide (tk_kind token = TInt) then
      _ ← step; mret (IntValue (tk_int token))
    else if bool_decide (expected ≠ IntOnly) && (bool_decide (tk_kind token = TString) || bool_decide (tk_kind token = TIdentifier)) then
      _ ← step; mret (StrValue (tk_text token))
    else
      match expected with
      | IntOnly => failAt source "expected an integer predicate value"
      | SymbolOnly => failAt source "expected a symbolic predicate value"
      | AnyValue => failAt source "expected a predicate value"
      end).

Fixpoint checkResults (allowed : gset string) (rs : list Expr) : parser unit :=
  match rs with
  | [] => mret ()
  | r :: rs =>
    _ ← validateExpr source r allowed;
    if isAffineSpecExpr r then checkResults allowed rs else failAt source "access map is not affine"
  end.

Definition parseAffineMapSpec : parser AffineMapSpec :=
  _ ← expectPunct source "(";
  ds ← get (λ p, if isPunct p ")" then mret [] else dimsLoop source (length (tokens p)) []);
  _ ← expectPunct source ")";
  _ ← expectPunct source "->";
  _ ← expectPunct source "(";
  rs ← get (λ p, resultsLoop source (length (tokens p)) []);
  _ ← expectPunct source ")";
  _ ← checkResults (list_to_set ds) rs;
  mret (mkSpec ds rs).

(** [input[i].] or [output[i].]; a bare [input] is an attribute name. *)
Definition parseSubject : parser (option (bool * Z)) :=
  get (λ p,
    if contains ["input"; "output"] (tk_text (current p)) &&
       bool_decide (tk_kind (peek p 1) = TPunct) && bool_decide (tk_text (peek p 1) = "[") then
      let isInput := bool_decide (tk_text (current p) = "input") in
      _ ← step; _ ← step;
      index ← expectIndex "expected a port index" "expected a non-negative port index";
      _ ← expectPunct source "]";
      _ ← expectPunct source ".";
      mret (Some (isInput, index))
    else mret None).

Definition parsePredicate : parser RulePredicate :=
  subject ← parseSubject;
  let set := bool_decide (subject ≠ None) in
  let isInput := from_option fst true subject in
  let index := from_option snd 0 subject in
  n ← expectIdentifier source "a predicate name";
  if decide (n = "element_type") then
    v ← parsePredicateValue SymbolOnly;
    mret (mkPredicate ElementTypePredicate n set isInput index 0 v None)
  else if decide (n = "shape") then
    _ ← expectPunct source "[";
    d ← expectIndex "expected a shape dimension" "expected a non-negative shape dimension";
    _ ← expectPunct source "]";
    v ← parsePredicateValue IntOnly;
    mret (mkPredicate ShapePredicate n set isInput index d v None)
  else if decide (n = "access_map") then
    _ ← expectPunct source "=";
    spec ← parseAffineMapSpec;
    mret (mkPredicate AccessMapPredicate n set isInput index 0 (IntValue 0) (Some spec))
  else if set then failAt source "port predicates support element_type, shape, and access_map"
  else
    v ← parsePredicateValue AnyValue;
    mret (mkPredicate AttributePredicate n set isInput index 0 v None).

Fixpoint predicatesLoop (fuel : nat) (ps : list RulePredicate) : parser (list RulePredicate) :=
  q ← parsePredicate;
  let ps := (ps ++ [q])%list in
  get (λ p,
    if isPunct p "," then
      match fuel with
      | O => noFuel
      | S fuel => _ ← step; predicatesLoop fuel ps
      end
    else mret ps).

(** [operation(predicate, ...)]. *)
Definition parseOperation : parser (string * list RulePredicate) :=
  op ← expectIdentifier source "a Micro operation";
  if negb (isWorkloadNodeOp op) then failAt source ("unknown Micro operation '" +:+ op +:+ "'")
  else
    _ ← expectPunct source "(";
    ps ← get (λ p, if isPunct p ")" then mret [] else predicatesLoop (length (tokens p)) []);
    _ ← expectPunct source ")";
    _ ← expectPunct source ";";
    mret (op, ps).

Definition parsePatternNode (pattern : RulePattern) : parser RulePattern :=
  _ ← step;
  n ← expectIdentifier source "a node name";
  if bool_decide (findPatternNode pattern n ≠ None) then
    failAt source ("duplicate node name '" +:+ n +:+ "' in the match graph")
  else
    _ ← expectPunct source ":";
    '(op, ps) ← parseOperation;
    mret (mkPattern (pt_nodes pattern ++ [mkPatternNode n op ps]) (pt_edges pattern)).

(** [NODE.result], [NODE.resultK]; the index is narrowed to 32 bits. *)
Definition parseEndpoint (prefix : string) : parser (string * Z) :=
  endpoint ← expectIdentifier source "a node and its occurrence";
  let expected :=
    "expected 'NODE." +:+ prefix +:+ "' or 'NODE." +:+ prefix +:+ "K', found '" +:+ endpoint +:+ "'" in
  match rfind_dot endpoint with
  | None => failAt source expected
  | Some dot =>
    let n := str_take dot endpoint in
    match consume_front prefix (str_drop (S dot) endpoint) with
    | None => failAt source expected
    | Some digits =>
      if str_empty n then failAt source expected
      else if str_empty digits then mret (n, 0)
      else
        match getAsU64 digits with
        | None => failAt source ("expected an occurrence index in '" +:+ endpoint +:+ "'")
        | Some v => mret (n, u32 v)
        end
    end
  end.

Definition parsePatternEdge (pattern : RulePattern) : parser RulePattern :=
  _ ← step;
  '(producer, result) ← parseEndpoint "result";
  _ ← expectPunct source "->";
  '(consumer, operand) ← parseEndpoint "operand";
  _ ← expectPunct source ";";
  let edge := mkPatternEdge producer result consumer operand in
  if contains (pt_edges pattern) edge then failAt source "duplicate edge in the match graph"
  else mret (mkPattern (pt_nodes pattern) (pt_edges pattern ++ [edge])).

Fixpoint graphLoop (fuel : nat) (pattern : RulePattern) : parser RulePattern :=
  get (λ p,
    if isPunct p "}" then mret pattern
    else if atEnd p then failAt source "expected '}' to close the match graph"
    else if negb (isIdentifier p) then failAt source "expected 'node' or 'edge'"
    else
      match fuel with
      | O => noFuel
      | S fuel =>
        pattern ←
          (if decide (tk_text (current p) = "node") then parsePatternNode pattern
           else if decide (tk_text (current p) = "edge") then parsePatternEdge pattern
           else failAt source ("expected 'node' or 'edge', found '" +:+ tk_text (current p) +:+ "'"));
        graphLoop fuel pattern
      end).

Fixpoint undeclaredEndpoint (pattern : RulePattern) (es : list RulePatternEdge) : option string :=
  match es with
  | [] => None
  | e :: es =>
    if decide (findPatternNode pattern (pe_producer e) = None) then Some (pe_producer e)
    else if decide (findPatternNode pattern (pe_consumer e) = None) then Some (pe_consumer e)
    else undeclaredEndpoint pattern es
  end.

Definition parseGraphMatch (out : RuleDef) : parser RuleDef :=
  _ ← step;
  _ ← expectPunct source "{";
  pattern ← get (λ p, graphLoop (length (tokens p)) (mkPattern [] []));
  _ ← step;
  match pt_nodes pattern with
  | [] => failAt source "a match graph needs at least one node"
  | anchor :: _ =>
    match undeclaredEndpoint pattern (pt_edges pattern) with
    | Some n => failAt source ("edge names undeclared node '" +:+ n +:+ "'")
    | None => mret (set_match out (pn_op anchor) (Some pattern) (predicates out))
    end
  end.

Definition parseMatch (out : RuleDef) : parser RuleDef :=
  if negb (str_empty (matchOp out)) then failAt source "duplicate match clause"
  else
    _ ← step;
    get (λ p,
      if keyword p ["graph"] then parseGraphMatch out
      else
        '(op, ps) ← parseOperation;
        mret (set_match out op (r_pattern out) (predicates out ++ ps))).

Definition parseRuleDomain (out : RuleDef) : parser RuleDef :=
  _ ← step;
  n ← expectIdentifier source "a parameter name";
  if bool_decide (is_Some (r_domains out !! n)) then
    failAt source ("duplicate domain for parameter '" +:+ n +:+ "'")
  else
    get (λ p,
      if negb (keyword p ["in"]) then failAt source "expected 'in'"
      else
        _ ← step;
        vs ← parseDomainValues source;
        _ ← expectPunct source ";";
        let symbolic := existsb (λ v, match v with StrValue _ => true | IntValue _ => false end) vs in
        mret (set_params out
          (match findRuleParam out n with Some _ => r_params out | None => (r_params out ++ [mkParam n symbolic])%list end)
          (<[n := mkDomain vs]> (r_domains out)))).

Definition collides (lhs rhs : option RulePort) : bool :=
  match lhs, rhs with
  | Some l, Some r => bool_decide (l = r)
  | _, _ => true
  end.
Definition clashes (requirement existing : KindRequirement) : bool :=
  bool_decide (role existing = role requirement) && bool_decide (kr_kind existing = kr_kind requirement) &&
  collides (kr_port existing) (kr_port requirement).

(** The rest of [require role ...], from the role on. *)
Definition parseKindRequirement (out : RuleDef) (portForm : bool) : parser RuleDef :=
  get (λ p,
    let roleToken := current p in
    let r := tk_text roleToken in
    _ ← step;
    port ←
      (if negb portForm then mret None
       else if bool_decide (r ≠ "memory") then failAtToken roleToken "only a memory requirement may name a port"
       else
         get (λ p,
           let isInput := bool_decide (tk_text (current p) = "input") in
           _ ← step;
           n ← expectString "expected a quoted port name";
           get (λ p,
             if keyword p ["kind"] then mret (Some (mkRulePort n isInput))
             else failAt source "expected 'kind'")));
    _ ← step;
    k ← expectIdentifier source "a capability kind";
    _ ← expectPunct source ";";
    let requirement := mkKind r k port in
    if existsb (clashes requirement) (kindRequirements out)
    then failAtToken roleToken ("duplicate " +:+ r +:+ " kind requirement '" +:+ k +:+ "'")
    else mret (set_require out (r_constraints out) (kindRequirements out ++ [requirement]) (r_layoutRequirements out))).

Definition ruleParamNames (out : RuleDef) : gset string := list_to_set (name <$> r_params out).

Definition parseRuleRequire (out : RuleDef) : parser RuleDef :=
  _ ← step;
  get (λ p,
    let bareForm := peekWord p 1 ["kind"] in
    let portForm := peekWord p 1 ["input"; "output"] in
    if keyword p ["executor"; "compute"; "memory"] && (bareForm || portForm) then parseKindRequirement out portForm
    else if keyword p ["layout"] && bool_decide (tk_kind (peek p 1) = TIdentifier) && peekWord p 2 ["satisfies"] then
      _ ← step;
      port ← expectIdentifier source "a port name";
      _ ← step;
      l ← expectIdentifier source "a layout id";
      _ ← expectPunct source ";";
      mret (set_require out (r_constraints out) (kindRequirements out) (r_layoutRequirements out ++ [mkRuleLayout port l]))
    else
      e ← parseExpression source;
      _ ← expectPunct source ";";
      _ ← validateExpr source e (ruleParamNames out ∪ {["rank"; "element_type"]});
      mret (set_require out (r_constraints out ++ [e]) (kindRequirements out) (r_layoutRequirements out))).

Definition parsePort (out : RuleDef) : parser RuleDef :=
  get (λ p,
    let isInput := bool_decide (tk_text (current p) = "input") in
    _ ← step;
    n ← expectString "expected a quoted port name";
    _ ← expectPunct source ";";
    if existsb (λ q, bool_decide (rport_name q = n)) (r_ports out) then failAt source ("duplicate port '" +:+ n +:+ "'")
    else mret (set_ports out (r_ports out ++ [mkRulePort n isInput]))).

Definition parameterValue (n : string) : parser LayoutValue :=
  get (λ p,
    let token := current p in
    match tk_kind token with
    | TInt => _ ← step; mret (IntValue (tk_int token))
    | TString | TIdentifier => _ ← step; mret (StrValue (tk_text token))
    | _ => failAt source ("expected an integer or symbolic value for '" +:+ n +:+ "'")
    end).

Fixpoint bundleLoop (fuel : nat) (out : list (string * LayoutValue)) : parser (list (string * LayoutValue)) :=
  n ← expectIdentifier source "a bundle parameter name";
  if existsb (λ e, bool_decide (e.1 = n)) out then failAt source ("duplicate bundle parameter '" +:+ n +:+ "'")
  else
    _ ← expectPunct source "=";
    v ← parameterValue n;
    let out := (out ++ [(n, v)])%list in
    get (λ p,
      if isPunct p "," then
        match fuel with
        | O => noFuel
        | S fuel => _ ← step; bundleLoop fuel out
        end
      else mret out).

(** The block after [bundle "name"]. *)
Definition parseBundleParameters (earlier : list (string * LayoutValue)) : parser (list (string * LayoutValue)) :=
  _ ← step;
  get (λ p,
    if isPunct p "}" then failAt source "expected a bundle parameter name"
    else
      out ← bundleLoop (length (tokens p)) earlier;
      _ ← expectPunct source "}";
      _ ← expectPunct source ";";
      mret (sort_by fst out)).

Definition parseMetadata (out : RuleDef) : parser RuleDef :=
  get (λ p,
    let word := tk_text (current p) in
    _ ← step;
    if decide (word = "bundle") then
      if negb (str_empty (r_bundle out)) then failAt source "duplicate 'bundle'"
      else
        b ← expectString "expected a quoted name after 'bundle'";
        bps ← get (λ p,
          if isPunct p "{" then parseBundleParameters (bundleParameters out)
          else _ ← expectPunct source ";"; mret (bundleParameters out));
        mret (set_metadata out b bps (emitter out) (costLowerBound out))
    else if decide (word = "emit") then
      if negb (str_empty (emitter out)) then failAt source "duplicate 'emit'"
      else
        e ← expectString "expected a quoted name after 'emit'";
        _ ← expectPunct source ";";
        mret (set_metadata out (r_bundle out) (bundleParameters out) e (costLowerBound out))
    else if bool_decide (costLowerBound out ≠ None) then failAt source "duplicate 'cost'"
    else
      c ← expectInt source "expected an integer cost";
      _ ← expectPunct source ";";
      mret (set_metadata out (r_bundle out) (bundleParameters out) (emitter out) (Some (u64 c)))).

Definition parseRuleStatement (out : RuleDef) : parser RuleDef :=
  get (λ p,
    if negb (isIdentifier p) then failAt source "expected a statement"
    else
      let word := tk_text (current p) in
      if decide (word = "match") then parseMatch out
      else if decide (word = "param") then parseRuleDomain out
      else if decide (word = "require") then parseRuleRequire out
      else if decide (word ∈ ["input"; "output"]) then parsePort out
      else if decide (word ∈ ["bundle"; "emit"; "cost"]) then parseMetadata out
      else failAt source ("unknown statement '" +:+ word +:+ "'")).

Fixpoint ruleLoop (fuel : nat) (out : RuleDef) : parser RuleDef :=
  get (λ p,
    if isPunct p "}" then mret out
    else if atEnd p then failAt source ("expected '}' to close rule '" +:+ r_id out +:+ "'")
    else
      match fuel with
      | O => noFuel
      | S fuel => out ← parseRuleStatement out; ruleLoop fuel out
      end).

(** The first memory requirement whose port the rule does not declare. *)
Fixpoint undeclaredPort (ports : list RulePort) (ks : list KindRequirement) : option RulePort :=
  match ks with
  | [] => None
  | k :: ks =>
    match kr_port k with
    | Some port => if contains ports port then undeclaredPort ports ks else Some port
    | None => undeclaredPort ports ks
    end
  end.

Definition checkRule (out : RuleDef) : parser RuleDef :=
  if str_empty (matchOp out) then failAt source ("rule '" +:+ r_id out +:+ "' is missing a match clause")
  else if str_empty (r_bundle out) then failAt source ("rule '" +:+ r_id out +:+ "' is missing a bundle")
  else if str_empty (emitter out) then failAt source ("rule '" +:+ r_id out +:+ "' is missing an emit")
  else
    match undeclaredPort (r_ports out) (kindRequirements out) with
    | Some port =>
      failAt source ("rule '" +:+ r_id out +:+ "': memory requirement names undeclared " +:+
        (if rport_isInput port then "input '" else "output '") +:+ rport_name port +:+ "'")
    | None => mret out
    end.

Definition parseRule : parser RuleDef :=
  _ ← step;
  i ← expectIdentifier source "a rule id";
  version ← get (λ p,
    match (if isIdentifier p then parseVersionToken (tk_text (current p)) else None) with
    | Some v => _ ← step; mret v
    | None => mret 1
    end);
  _ ← expectPunct source "{";
  out ← get (λ p, ruleLoop (length (tokens p)) (emptyRule i version));
  _ ← step;
  checkRule out.

Fixpoint rulesLoop (fuel : nat) (registry : RuleRegistry) : parser RuleRegistry :=
  get (λ p,
    if atEnd p then mret registry
    else if negb (keyword p ["rule"]) then failAt source "expected 'rule'"
    else
      match fuel with
      | O => noFuel
      | S fuel =>
        def ← parseRule;
        match addRule registry def with
        | Err message => fail source message
        | Ok registry => rulesLoop fuel registry
        end
      end).
Definition parseRules : parser RuleRegistry := get (λ p, rulesLoop (length (tokens p)) []).
End parser.

Definition parseRuleText (text sourceName : string) : option (result lex_failure RuleRegistry) :=
  match lexLlkMap text sourceName with
  | Err e => Some (Err e)
  | Ok ts =>
    match parseRules sourceName (mkParser ts "") with
    | (Parsed registry, _) => Some (Ok registry)
    | (Rejected, p) => Some (Err (Reported (error_ p)))
    | (NoFuel, _) => None
    end
  end.

(** ** Printing *)
Definition printPredicateSubject (q : RulePredicate) : string :=
  if directionSet q
  then (if rp_isInput q then "input[" else "output[") +:+ to_string (portIndex q) +:+ "]." else "".

Definition printPredicate (q : RulePredicate) : string :=
  match rp_kind q with
  | AttributePredicate => rp_attribute q +:+ " = " +:+ printValue (rp_value q)
  | ElementTypePredicate => printPredicateSubject q +:+ "element_type = " +:+ printValue (rp_value q)
  | ShapePredicate =>
    printPredicateSubject q +:+ "shape[" +:+ to_string (dimension q) +:+ "] = " +:+ printValue (rp_value q)
  | AccessMapPredicate =>
    printPredicateSubject q +:+ "access_map = " +:+ from_option printAffineMapSpec "<null>" (rp_accessMap q)
  end.

Definition printPatternNode (node : RulePatternNode) : string :=
  "    node " +:+ pn_name node +:+ ": " +:+ pn_op node +:+ "(" +:+
  str_join ", " (printPredicate <$> pn_predicates node) +:+ ");" +:+ newline.
Definition printPatternEdge (edge : RulePatternEdge) : string :=
  "    edge " +:+ pe_producer edge +:+ ".result" +:+ to_string (resultIndex edge) +:+ " -> " +:+
  pe_consumer edge +:+ ".operand" +:+ to_string (operandIndex edge) +:+ ";" +:+ newline.

Definition printRuleDomain (def : RuleDef) (p : LayoutParam) : string :=
  match r_domains def !! name p with
  | Some domain => "  param " +:+ name p +:+ " in " +:+ printParamDomain domain +:+ ";" +:+ newline
  | None => ""
  end.

Definition printKindRequirement (k : KindRequirement) : string :=
  "  require " +:+ role k +:+
  match kr_port k with
  | Some port => (if rport_isInput port then " input " else " output ") +:+ quoted (rport_name port)
  | None => ""
  end +:+ " kind " +:+ kr_kind k +:+ ";" +:+ newline.

Definition printRule (def : RuleDef) : string :=
  "rule " +:+ r_id def +:+ " v" +:+ to_string (r_version def) +:+ " {" +:+ newline +:+
  match r_pattern def with
  | Some pattern =>
    "  match graph {" +:+ newline +:+ String.concat "" (printPatternNode <$> pt_nodes pattern) +:+
    String.concat "" (printPatternEdge <$> pt_edges pattern) +:+ "  }" +:+ newline
  | None =>
    "  match " +:+ matchOp def +:+ "(" +:+ str_join ", " (printPredicate <$> predicates def) +:+ ");" +:+ newline
  end +:+
  String.concat "" (printRuleDomain def <$> r_params def) +:+
  String.concat "" ((λ e, "  require " +:+ printExpr e +:+ ";" +:+ newline) <$> r_constraints def) +:+
  String.concat "" (printKindRequirement <$> kindRequirements def) +:+
  String.concat "" ((λ l, "  require layout " +:+ rl_port l +:+ " satisfies " +:+ layoutId l +:+ ";" +:+ newline)
    <$> r_layoutRequirements def) +:+
  String.concat "" ((λ q, "  " +:+ (if rport_isInput q then "input" else "output") +:+ " " +:+ quoted (rport_name q) +:+
    ";" +:+ newline) <$> r_ports def) +:+
  "  bundle " +:+ quoted (r_bundle def) +:+
  (if bool_decide (bundleParameters def = []) then ""
   else " {" +:+ str_join "," ((λ e, " " +:+ e.1 +:+ " = " +:+ printValue e.2) <$> bundleParameters def) +:+ " }") +:+
  ";" +:+ newline +:+
  "  emit " +:+ quoted (emitter def) +:+ ";" +:+ newline +:+
  from_option (λ c, "  cost " +:+ to_string c +:+ ";" +:+ newline) "" (costLowerBound def) +:+
  "}" +:+ newline.

(** ** Canonical text *)
Definition predicateKindName (k : RulePredicateKind) : string :=
  match k with
  | AttributePredicate => "attribute"
  | ElementTypePredicate => "element_type"
  | ShapePredicate => "shape"
  | AccessMapPredicate => "access_map"
  end.

Definition predicateText (q : RulePredicate) : string :=
  predicateKindName (rp_kind q) +:+ " " +:+ rp_attribute q +:+
  (if directionSet q
   then " port=" +:+ (if rp_isInput q then "input[" else "output[") +:+ to_string (portIndex q) +:+ "]"
   else " unqualified=") +:+
  " dim=" +:+ to_string (dimension q) +:+ " value=" +:+ canonicalValueString (rp_value q) +:+
  from_option (λ m, " map=" +:+ canonicalAffineMapSpecString m) "" (rp_accessMap q).

Definition unitSeparator : string := String (Ascii.ascii_of_nat 31) EmptyString.
Definition requireText (k : KindRequirement) : string :=
  role k +:+
  match kr_port k with
  | Some port =>
    unitSeparator +:+ (if rport_isInput port then "i" else "o") +:+ unitSeparator +:+ rport_name port +:+
    unitSeparator +:+ kr_kind k
  | None => ":" +:+ kr_kind k
  end.

Definition canonicalRuleDefString (def : RuleDef) : string :=
  let each {A} (render : A → string) (xs : list A) := String.concat "" (render <$> xs) in
  field "id" (r_id def) +:+ field "version" (to_string (r_version def)) +:+ field "match" (matchOp def) +:+
  each (λ q, field "predicate" (predicateText q)) (predicates def) +:+
  match r_pattern def with
  | Some pattern =>
    each (λ node, field "pattern.node" (pn_name node) +:+ field "pattern.op" (pn_op node) +:+
      each (λ q, field "pattern.predicate" (predicateText q)) (pn_predicates node)) (pt_nodes pattern) +:+
    each (λ edge, field "pattern.edge"
      (pe_producer edge +:+ "." +:+ to_string (resultIndex edge) +:+ "->" +:+ pe_consumer edge +:+ "." +:+
       to_string (operandIndex edge))) (pt_edges pattern)
  | None => ""
  end +:+
  each (λ p, field "param" (name p +:+ (if symbolic p then ":symbolic" else ":integer"))) (r_params def) +:+
  each (λ '(n, domain), field "domain" (n +:+ "=" +:+ str_join "," (canonicalValueString <$> LayoutConstraints.values domain)))
    (in_order (r_domains def)) +:+
  each (λ e, field "constraint" (canonicalExprString e)) (r_constraints def) +:+
  each (λ k, field "require" (requireText k)) (kindRequirements def) +:+
  each (λ l, field "layout" (rl_port l +:+ ":" +:+ layoutId l)) (r_layoutRequirements def) +:+
  each (λ q, field "port" (rport_name q +:+ (if rport_isInput q then ":input" else ":output"))) (r_ports def) +:+
  field "bundle" (r_bundle def) +:+
  each (λ e, field "bundle_parameter" (e.1 +:+ "=" +:+ canonicalValueString e.2)) (bundleParameters def) +:+
  field "emitter" (emitter def) +:+
  from_option (λ c, field "cost" (to_string c)) "" (costLowerBound def).

Definition computeRulesHash (registry : RuleRegistry) : Z :=
  stableHash (String.concat "" (canonicalRuleDefString <$> sort_by r_id registry)).

(** ** The registry does not depend on the order of insertion *)
Definition SortedById (defs : RuleRegistry) : Prop := StronglySorted (λ a b, str_ltb (r_id a) (r_id b) = true) defs.

Lemma lowerBound_spec i defs : SortedById defs →
  let '(before, after) := lowerBound i defs in
  defs = (before ++ after)%list ∧ Forall (λ d, str_ltb (r_id d) i = true) before ∧
  Forall (λ d, str_ltb (r_id d) i = false) after.
Proof.
  induction 1 as [|d ds Hs IH Hd]; cbn [lowerBound]; [done|].
  destruct (str_ltb (r_id d) i) eqn:Hi.
  - destruct (lowerBound i ds) as [before after]. destruct IH as (-> & Hb & Ha). split_and!; [done|by constructor|done].
  - split_and!; [done|constructor|]. constructor; [done|]. eapply Forall_impl; [exact Hd|]. intros e He.
    destruct (str_ltb (r_id e) i) eqn:Hei; [|done]. by rewrite (str_ltb_trans _ _ _ He Hei) in Hi.
Qed.

Lemma find_after i defs : SortedById defs → Forall (λ d, str_ltb (r_id d) i = false) defs →
  List.find (λ d, bool_decide (r_id d = i)) defs = match defs with d :: _ => if decide (r_id d = i) then Some d else None | [] => None end.
Proof.
  intros Hs Ha. destruct defs as [|d ds]; [done|]. cbn [List.find]. case_decide as Hi; [by rewrite bool_decide_true|].
  rewrite bool_decide_false by done. apply StronglySorted_inv in Hs as [_ Hd]. apply Forall_cons in Ha as [Hda _].
  clear -Hd Hda. induction Hd as [|e es He _ IH]; [done|]. cbn [List.find].
  rewrite bool_decide_false; [done|]. intros <-. congruence.
Qed.

Lemma findRule_spec defs i : SortedById defs → findRule defs i = List.find (λ d, bool_decide (r_id d = i)) defs.
Proof.
  intros Hs. pose proof (lowerBound_spec i defs Hs) as Hl. unfold findRule.
  destruct (lowerBound i defs) as [before after]. destruct Hl as (-> & Hb & Ha). cbn [snd].
  apply StronglySorted_app in Hs as (_ & _ & Hs).
  assert (∀ l, List.find (λ d, bool_decide (r_id d = i)) (before ++ l)%list = List.find (λ d, bool_decide (r_id d = i)) l) as ->.
  { intros l. clear Hs Ha. induction Hb as [|d ds Hd _ IH]; [done|]. cbn [app List.find].
    rewrite bool_decide_false; [done|]. intros <-. by rewrite str_ltb_irrefl in Hd. }
  by rewrite find_after.
Qed.

Lemma find_none_ids (defs : RuleRegistry) i : List.find (λ d, bool_decide (r_id d = i)) defs = None ↔ i ∉ r_id <$> defs.
Proof.
  split.
  - intros Hf (d & -> & Hd)%list_elem_of_fmap. apply list_elem_of_In in Hd.
    pose proof (List.find_none _ _ Hf d Hd) as Hn. cbn in Hn. by rewrite bool_decide_true in Hn.
  - intros Hn. destruct (List.find _ _) as [d|] eqn:Hf; [|done]. exfalso.
    apply List.find_some in Hf as [Hd%list_elem_of_In <-%bool_decide_eq_true]. apply Hn. by apply list_elem_of_fmap_2.
Qed.

(** Adding fails exactly for an id that is there, and otherwise adds the rule in its
    place. *)
Lemma addRule_spec defs def : SortedById defs →
  match addRule defs def with
  | Ok defs' => SortedById defs' ∧ defs' ≡ₚ def :: defs ∧ r_id def ∉ r_id <$> defs
  | Err _ => r_id def ∈ r_id <$> defs
  end.
Proof.
  intros Hs. unfold addRule. rewrite findRule_spec by done. destruct (List.find _ _) as [d|] eqn:Hf.
  { apply List.find_some in Hf as [Hd%list_elem_of_In Hi%bool_decide_eq_true]. rewrite <- Hi. by apply list_elem_of_fmap_2. }
  apply find_none_ids in Hf. pose proof (lowerBound_spec (r_id def) defs Hs) as Hl.
  destruct (lowerBound (r_id def) defs) as [before after]. destruct Hl as (-> & Hb & Ha).
  split_and!; [|by rewrite <- Permutation_middle|done].
  assert (Forall (λ d, str_ltb (r_id def) (r_id d) = true) after) as Ha'.
  { rewrite Forall_forall in Ha |- *. intros d Hd. specialize (Ha d Hd).
    destruct (str_ltb_total (r_id def) (r_id d)) as [?|[He|?]]; [done| |congruence]. exfalso. apply Hf. rewrite He.
    apply list_elem_of_fmap_2, elem_of_app. by right. }
  apply StronglySorted_app in Hs as (Hba & Hsb & Hsa). apply StronglySorted_app. split_and!; [|done|by constructor].
  rewrite Forall_forall in Hb. intros x y Hx [->|Hy]%elem_of_cons; [by apply Hb|by apply Hba].
Qed.

Definition addRules (defs : RuleRegistry) (xs : list RuleDef) : result string RuleRegistry := fold_result addRule defs xs.

Lemma addRules_spec defs xs : SortedById defs → NoDup (r_id <$> defs) →
  match addRules defs xs with
  | Ok defs' => SortedById defs' ∧ defs' ≡ₚ (xs ++ defs)%list ∧ NoDup (r_id <$> (xs ++ defs)%list)
  | Err _ => ¬ NoDup (r_id <$> (xs ++ defs)%list)
  end.
Proof.
  revert defs. induction xs as [|x xs IH]; intros defs Hs Hn; [done|]. unfold addRules. cbn [fold_result].
  pose proof (addRule_spec defs x Hs) as Ha. destruct (addRule defs x) as [defs'|m]; cbn [mbind result_bind].
  - destruct Ha as (Hs' & Hp & Hx). assert (NoDup (r_id <$> defs')) as Hn' by (rewrite Hp; by constructor).
    specialize (IH defs' Hs' Hn'). unfold addRules in IH.
    assert ((xs ++ defs')%list ≡ₚ ((x :: xs) ++ defs)%list) as He by (by rewrite Hp, <- Permutation_middle).
    destruct (fold_result addRule defs' xs); rewrite He in IH; [|done]. done.
  - cbn [app fmap list_fmap]. rewrite NoDup_cons. intros [Hx _]. apply Hx. rewrite fmap_app. apply elem_of_app. by right.
Qed.

(** A registry does not depend on the order its rules were added in: it holds
    them sorted by id, so two orders of one set of rules give one registry and one
    content hash; loading fails exactly when two rules share an id. *)
Theorem addRules_order_independent xs ys : xs ≡ₚ ys →
  match addRules [] xs with
  | Ok registry => addRules [] ys = Ok registry ∧ SortedById registry ∧ registry ≡ₚ xs ∧
      (∀ x, x ∈ xs → findRule registry (r_id x) = Some x) ∧ computeRulesHash registry = computeRulesHash xs
  | Err _ => (∃ m, addRules [] ys = Err m) ∧ ¬ NoDup (r_id <$> xs)
  end.
Proof.
  intros Hp. pose proof (addRules_spec [] xs (SSorted_nil _) NoDup_nil_2) as Hx.
  pose proof (addRules_spec [] ys (SSorted_nil _) NoDup_nil_2) as Hy. rewrite !app_nil_r in Hx, Hy.
  destruct (addRules [] xs) as [rx|], (addRules [] ys) as [ry|m].
  - destruct Hx as (Hsx & Hpx & Hnx), Hy as (Hsy & Hpy & Hny).
    assert (AntiSymm (=) (λ a b, str_ltb (r_id a) (r_id b) = true)) as Hanti.
    { intros a b Ha Hb. pose proof (str_ltb_trans _ _ _ Ha Hb) as H. by rewrite str_ltb_irrefl in H. }
    assert (rx = ry) as -> by (apply (StronglySorted_unique _ rx ry Hsx Hsy); by rewrite Hpx, Hp).
    split_and!; [done..| |].
    + intros x Hin. rewrite findRule_spec by done. destruct (List.find _ _) as [d|] eqn:Hf.
      * apply List.find_some in Hf as [Hd%list_elem_of_In Hi%bool_decide_eq_true]. f_equal.
        rewrite Hpx in Hd. apply list_elem_of_lookup in Hd as [i Hi1], Hin as [j Hj].
        assert (i = j) as ->.
        { eapply (NoDup_lookup (r_id <$> xs)); [done|by rewrite list_lookup_fmap, Hi1|].
          rewrite list_lookup_fmap, Hj. cbn. by rewrite Hi. }
        congruence.
      * apply find_none_ids in Hf. exfalso. apply Hf. rewrite Hpx. by apply list_elem_of_fmap_2.
    + unfold computeRulesHash. rewrite (sort_by_unique r_id ry xs); [done| |done]. by rewrite Hpx.
  - exfalso. apply Hy. rewrite <- Hp. by destruct Hx as (_ & _ & ?).
  - exfalso. apply Hx. rewrite Hp. by destruct Hy as (_ & _ & ?).
  - split; [by eexists|done].
Qed.

(** ** A loaded rule is well formed *)
Lemma firstComplaint_mono {A} (check check' : A → option string) xs :
  Forall (λ x, check x = None → check' x = None) xs → firstComplaint check xs = None → firstComplaint check' xs = None.
Proof.
  induction 1 as [|x xs Hx _ IH]; [done|]. cbn. destruct (check x); [done|]. by rewrite Hx.
Qed.

(** More names never make a complaint. *)
Definition monotone (e : Expr) : Prop :=
  ∀ allowed allowed', allowed ⊆ allowed' → complaint allowed e = None → complaint allowed' e = None.

Lemma complaint_mono e : monotone e ∧ Forall monotone (operands e).
Proof.
  induction e as [k i t ops IH] using Expr_nested_ind.
  assert (Forall monotone ops) as Hops by (eapply Forall_impl; [exact IH|by intros x [? _]]). split; [|done].
  intros allowed allowed' Hsub. destruct k; cbn [complaint kind operands text]; try done.
  - repeat case_bool_decide; try done. set_solver.
  - destruct (isKnownCall t); [|done]. apply firstComplaint_mono. eapply Forall_impl; [exact Hops|]. intros x Hx. by apply Hx.
  - destruct (isKnownMember t); [|done]. apply firstComplaint_mono. eapply Forall_impl; [exact Hops|]. intros x Hx. by apply Hx.
  - apply firstComplaint_mono. eapply Forall_impl; [exact Hops|]. intros x Hx. by apply Hx.
  - apply firstComplaint_mono. eapply Forall_impl; [exact Hops|]. intros x Hx. by apply Hx.
  - destruct ops as [|v [|d [|b rest]]]; try done.
    apply Forall_cons in Hops as [_ Hops]. apply Forall_cons in Hops as [_ Hops]. apply Forall_cons in Hops as [Hb _].
    apply Forall_cons in IH as [_ IH]. apply Forall_cons in IH as [[_ Hd] _].
    assert (complaint ({[text v]} ∪ allowed) b = None → complaint ({[text v]} ∪ allowed') b = None) as Hb'.
    { apply Hb. set_solver. }
    repeat case_decide; repeat case_bool_decide; try done;
      destruct (operands d) as [|k [|]]; try done; repeat case_decide; repeat case_bool_decide; try done; try set_solver.
    apply Forall_cons in Hd as [Hk _]. destruct (complaint allowed k) as [m|] eqn:Hc; [done|].
    rewrite (Hk _ _ Hsub Hc). exact Hb'.
Qed.

(** The names of its own dimensions, affinely. *)
Record wfAccess (m : AffineMapSpec) : Prop := {
  wa_dims : Forall (λ d, isName d = true) (dims m);
  wa_results : results m ≠ [] ∧
    Forall (λ e, wf e = true ∧ complaint (list_to_set (dims m)) e = None ∧ isAffineSpecExpr e = true) (results m);
}.

Record wfPredicate (q : RulePredicate) : Prop := {
  wq_kind : match rp_kind q with
            | AttributePredicate => directionSet q = false
            | ElementTypePredicate => ∃ s, rp_value q = StrValue s
            | ShapePredicate => 0 <= dimension q ∧ ∃ i, rp_value q = IntValue i
            | AccessMapPredicate => ∃ m, rp_accessMap q = Some m ∧ wfAccess m
            end;
  wq_port : directionSet q = true → 0 <= portIndex q;
}.

Record wfPattern (pattern : RulePattern) : Prop := {
  wt_names : NoDup (pn_name <$> pt_nodes pattern);
  wt_nodes : Forall (λ n, isWorkloadNodeOp (pn_op n) = true ∧ Forall wfPredicate (pn_predicates n)) (pt_nodes pattern);
  wt_edges : NoDup (pt_edges pattern);
  wt_index : Forall (λ e, in_u32 (resultIndex e) ∧ in_u32 (operandIndex e)) (pt_edges pattern);
}.

(** What every statement keeps. *)
Record wfBody (def : RuleDef) : Prop := {
  wr_predicates : Forall wfPredicate (predicates def);
  wr_match : matchOp def = "" ∨ isWorkloadNodeOp (matchOp def) = true;
  wr_pattern : ∀ pattern, r_pattern def = Some pattern → wfPattern pattern ∧
    pn_op <$> head (pt_nodes pattern) = Some (matchOp def) ∧
    Forall (λ e, {[pe_producer e; pe_consumer e]} ⊆@{gset string} list_to_set (pn_name <$> pt_nodes pattern)) (pt_edges pattern);
  wr_params : NoDup (name <$> r_params def) ∧
    ∀ n, n ∈ name <$> r_params def ↔ is_Some (r_domains def !! n);
  wr_domains : ∀ n domain, r_domains def !! n = Some domain →
    LayoutConstraints.values domain ≠ [] ∧ Forall (λ v, value_ok v = true) (LayoutConstraints.values domain);
  wr_constraints : Forall (λ e, wf e = true ∧ complaint (ruleParamNames def ∪ {["rank"; "element_type"]}) e = None) (r_constraints def);
  wr_kinds : ForallOrdPairs (λ k k', clashes k' k = false) (kindRequirements def);
  wr_roles : Forall (λ k, role k ∈ ["executor"; "compute"; "memory"] ∧ (role k = "memory" ∨ kr_port k = None)) (kindRequirements def);
  wr_ports : NoDup (rport_name <$> r_ports def);
  wr_bundle : NoDup (bundleParameters def).*1;
  wr_cost : ∀ c, costLowerBound def = Some c → in_u64 c;
}.

Record wfRule (def : RuleDef) : Prop := {
  wf_body : wfBody def;
  wf_match : isWorkloadNodeOp (matchOp def) = true;
  wf_names : r_bundle def ≠ "" ∧ emitter def ≠ "";
  wf_declared : ∀ k port, k ∈ kindRequirements def → kr_port k = Some port → port ∈ r_ports def;
}.

Section good_rules.
Variable source : string.
Notation good := (λ p d Q m, goodAt p d Q m) (only parsing).

(** Every alternative of a statement may fail. *)
Ltac fails := match goal with |- goodAt ?p _ ?Q (failAt _ ?m) => exact (good_fail source p _ Q m) end.
Ltac next := first
  [ apply good_step_seq; [done|first [done|by eapply isPunct_live|by eapply keyword_live|by eapply isIdentifier_live]|]
  | apply good_expect_seq; [done|] | apply good_name_seq; [done|] | apply good_expr_seq; [done|] ].

Lemma good_failAtToken {A} p d (Q : A → Prop) t m : goodAt p d Q (failAtToken source t m).
Proof.
  unfold goodAt, failAtToken. cbn. unfold str_empty. case_bool_decide as H; [|done].
  intros Hn. apply (f_equal String.length) in Hn. rewrite !str_app_length in Hn. cbn in Hn. lia.
Qed.

Lemma good_expectString p m : valid p → goodAt p 1 (λ _, True) (expectString source m).
Proof.
  intros Hv. unfold expectString, goodAt. case_bool_decide as Hk; [|exact (good_fail source p 1 (λ _ : string, True) m)].
  destruct (advance_valid p Hv) as (? & ? & ?); [congruence|]. split_and!; first [done|lia].
Qed.

Lemma good_expectIndex p m m' : valid p → goodAt p 1 (λ i, 0 <= i) (expectIndex source m m').
Proof.
  intros Hv. unfold expectIndex, goodAt. case_bool_decide as Hk; [|exact (good_fail source p 1 (λ i, 0 <= i) m)].
  case_bool_decide as Hi; [exact (good_fail source p 1 (λ i, 0 <= i) m')|].
  destruct (advance_valid p Hv) as (? & ? & ?); [congruence|]. split_and!; first [done|lia].
Qed.

Lemma good_parsePredicateValue p expected : valid p →
  goodAt p 1 (λ v, match expected with
                   | IntOnly => ∃ i, v = IntValue i
                   | SymbolOnly => ∃ s, v = StrValue s
                   | AnyValue => True
                   end) (parsePredicateValue source expected).
Proof.
  intros Hv. unfold parsePredicateValue. next. intros p1 Hv1 Hl1. apply good_get.
  destruct (bool_decide (expected ≠ SymbolOnly) && bool_decide (tk_kind (current p1) = TInt)) eqn:He1.
  { apply andb_true_iff in He1 as [Hs%bool_decide_eq_true Hk%bool_decide_eq_true].
    apply good_step_seq; [done|congruence|]. intros p2 Hv2 _. apply good_ret; [done|].
    destruct expected; [done|by eexists|done]. }
  destruct (bool_decide (expected ≠ IntOnly) && _) eqn:He2.
  { apply andb_true_iff in He2 as [Hs%bool_decide_eq_true Hk].
    apply good_step_seq; [done|intros Hend; rewrite Hend in Hk; done|]. intros p2 Hv2 _. apply good_ret; [done|].
    destruct expected; [done|done|by eexists]. }
  destruct expected; fails.
Qed.

Lemma good_checkResults p allowed rs : valid p →
  goodAt p 0 (λ _, Forall (λ e, complaint allowed e = None ∧ isAffineSpecExpr e = true) rs) (checkResults source allowed rs).
Proof.
  intros Hv. induction rs as [|r rs IH]; [by apply good_ret|]. cbn [checkResults]. apply good_validate_seq; [done|].
  intros Hc. destruct (isAffineSpecExpr r) eqn:Ha; [|fails]. eapply good_weaken; [exact IH|done|]. by constructor.
Qed.

Lemma good_parseAffineMapSpec p : valid p → goodAt p 1 wfAccess (parseAffineMapSpec source).
Proof.
  intros Hv. unfold parseAffineMapSpec. next. intros p2 Hv2 _.
  eapply (good_seq _ 0 0 _ (Forall (λ d, isName d = true))).
  { apply good_get. destruct (isPunct p2 ")"); [apply good_ret; [done|constructor]|].
    eapply good_weaken; [apply good_dimsLoop; [done|lia|constructor]|lia|done]. }
  { lia. }
  intros ds p3 Hv3 _ Hds. next. intros p4 Hv4 _. next. intros p5 Hv5 _. next. intros p6 Hv6 _.
  eapply (good_seq _ 1 0 _ exprs_ok); [apply good_get, good_resultsLoop; [done|lia|constructor]|lia|].
  intros rs p7 Hv7 _ [Hne Hrs]. next. intros p8 Hv8 _.
  eapply (good_seq _ 0 0); [by apply good_checkResults|lia|]. intros [] p10 Hv10 _ Hc.
  apply good_ret; [done|]. split; cbn; [done|]. split; [done|]. apply Forall_and. by split.
Qed.

Lemma good_parseSubject p : valid p →
  goodAt p 0 (λ s, ∀ d i, s = Some (d, i) → 0 <= i) (parseSubject source).
Proof.
  intros Hv. unfold parseSubject. apply good_get. destruct (contains _ _ && _ && _) eqn:Hc; [|by apply good_ret].
  eapply (good_seq _ 0 0); [by apply good_step_any|lia|]. intros [] p1 Hv1 _ _.
  eapply (good_seq _ 0 0); [by apply good_step_any|lia|]. intros [] p2 Hv2 _ _.
  eapply (good_seq _ 1 0); [by apply good_expectIndex|lia|]. intros i p3 Hv3 _ Hi. next. intros p4 Hv4 _. next. intros p5 Hv5 _.
  apply good_ret; [done|]. by intros d j [= _ <-].
Qed.

Lemma good_parsePredicate p : valid p → goodAt p 1 wfPredicate (parsePredicate source).
Proof.
  intros Hv. unfold parsePredicate. eapply (good_seq _ 0 1); [by apply good_parseSubject|lia|].
  intros subject p1 Hv1 _ Hs.
  assert (bool_decide (subject ≠ None) = true → 0 <= from_option snd 0 subject) as Hport.
  { intros Hd%bool_decide_eq_true. destruct subject as [[d i]|]; [|done]. cbn. by eapply Hs. }
  next. intros n p2 Hv2 _ Hn. case_decide.
  { eapply (good_seq _ 1 0); [by apply good_parsePredicateValue|lia|]. intros v p3 Hv3 _ Hk. by apply good_ret. }
  case_decide.
  { next. intros p3 Hv3 _. eapply (good_seq _ 1 0); [by apply good_expectIndex|lia|]. intros d p4 Hv4 _ Hd.
    next. intros p5 Hv5 _. eapply (good_seq _ 1 0); [by apply good_parsePredicateValue|lia|]. intros v p6 Hv6 _ Hk.
    by apply good_ret. }
  case_decide.
  { next. intros p3 Hv3 _. eapply (good_seq _ 1 0); [by apply good_parseAffineMapSpec|lia|]. intros spec p4 Hv4 _ Hw.
    apply good_ret; [done|]. split; [by eexists|done]. }
  destruct (bool_decide (subject ≠ None)) eqn:Hset; [fails|].
  eapply (good_seq _ 1 0); [by apply good_parsePredicateValue|lia|]. intros v p3 Hv3 _ _. by apply good_ret.
Qed.

Lemma good_predicatesLoop fuel p ps : valid p → (length (tokens p) <= fuel)%nat → Forall wfPredicate ps →
  goodAt p 1 (Forall wfPredicate) (predicatesLoop source fuel ps).
Proof.
  revert p ps. induction fuel as [|fuel IH]; intros p ps Hv Hf Hps; [pose proof (valid_nonempty p Hv); lia|].
  cbn [predicatesLoop]. eapply (good_seq _ 1 0); [by apply good_parsePredicate|lia|]. intros q p1 Hv1 Hl1 Hq.
  assert (Forall wfPredicate (ps ++ [q])) as Hps' by (apply Forall_app; by rewrite Forall_singleton).
  apply good_get. destruct (isPunct p1 ",") eqn:Hc; [|by apply good_ret].
  next. intros p2 Hv2 Hl2. eapply good_weaken; [apply IH; [done|lia|done]|lia|done].
Qed.

Lemma good_parseOperation p : valid p →
  goodAt p 1 (λ r, isWorkloadNodeOp r.1 = true ∧ Forall wfPredicate r.2) (parseOperation source).
Proof.
  intros Hv. unfold parseOperation. next. intros op p1 Hv1 _ _. destruct (isWorkloadNodeOp op) eqn:Hop; cbn [negb]; [|fails].
  next. intros p2 Hv2 _. eapply (good_seq _ 0 0 _ (Forall wfPredicate)).
  { apply good_get. destruct (isPunct p2 ")"); [apply good_ret; [done|constructor]|].
    eapply good_weaken; [apply good_predicatesLoop; [done|lia|constructor]|lia|done]. }
  { lia. }
  intros ps p3 Hv3 _ Hps. next. intros p4 Hv4 _. next. intros p5 Hv5 _. by apply good_ret.
Qed.

(** *** Graph patterns *)
Lemma findPatternNode_none pattern n : findPatternNode pattern n = None ↔ n ∉ pn_name <$> pt_nodes pattern.
Proof.
  unfold findPatternNode. rewrite list_find_None, Forall_forall. split.
  - intros Hf (x & -> & Hx)%list_elem_of_fmap. by eapply Hf.
  - intros Hn x Hx He. apply Hn. rewrite <- He. by apply list_elem_of_fmap_2.
Qed.

Lemma good_parsePatternNode p pattern : valid p → tk_kind (current p) ≠ TEnd → wfPattern pattern →
  goodAt p 1 wfPattern (parsePatternNode source pattern).
Proof.
  intros Hv Hlive [Hn Hnodes He Hi]. unfold parsePatternNode. next. intros p1 Hv1 _. next. intros n p2 Hv2 _ _.
  case_bool_decide as Hf; [fails|]. next. intros p3 Hv3 _.
  eapply (good_seq _ 1 0); [by apply good_parseOperation|lia|]. intros [op ps] p4 Hv4 _ [Hop Hps].
  apply good_ret; [done|]. split; cbn; [|apply Forall_app; by rewrite Forall_singleton|done..].
  assert (findPatternNode pattern n = None) as Hf' by (by destruct (findPatternNode pattern n); [destruct Hf|]).
  apply findPatternNode_none in Hf'. rewrite fmap_app. apply NoDup_app. split_and!; [done| |apply NoDup_singleton].
  by intros x Hx ->%list_elem_of_singleton.
Qed.

Lemma good_parseEndpoint p prefix : valid p → goodAt p 1 (λ r, in_u32 r.2) (parseEndpoint source prefix).
Proof.
  intros Hv. unfold parseEndpoint. next. intros e p1 Hv1 _ _. destruct (rfind_dot e) as [dot|]; [|fails].
  destruct (consume_front prefix _) as [digits|]; [|fails]. destruct (str_empty _); [fails|].
  destruct (str_empty digits); [by apply good_ret|]. destruct (getAsU64 digits) as [v|]; [|fails].
  apply good_ret; [done|]. unfold in_u32, u32. cbn. apply Z.mod_pos_bound. lia.
Qed.

Lemma good_parsePatternEdge p pattern : valid p → tk_kind (current p) ≠ TEnd → wfPattern pattern →
  goodAt p 1 wfPattern (parsePatternEdge source pattern).
Proof.
  intros Hv Hlive [Hn Hnodes He Hi]. unfold parsePatternEdge. next. intros p1 Hv1 _.
  eapply (good_seq _ 1 0); [by apply good_parseEndpoint|lia|]. intros [pr r] p2 Hv2 _ Hr. next. intros p3 Hv3 _.
  eapply (good_seq _ 1 0); [by apply good_parseEndpoint|lia|]. intros [c o] p4 Hv4 _ Ho. next. intros p5 Hv5 _.
  unfold contains. case_bool_decide as Hin; [fails|]. apply good_ret; [done|].
  split; cbn; [done|done| |apply Forall_app; by rewrite Forall_singleton].
  apply NoDup_app. split_and!; [done| |apply NoDup_singleton]. by intros x Hx ->%list_elem_of_singleton.
Qed.

Lemma good_graphLoop fuel p pattern : valid p → (length (tokens p) <= fuel)%nat → wfPattern pattern →
  goodAt p 0 wfPattern (graphLoop source fuel pattern).
Proof.
  revert p pattern. induction fuel as [|fuel IH]; intros p pattern Hv Hf Hw; [pose proof (valid_nonempty p Hv); lia|].
  cbn [graphLoop]. apply good_get. destruct (isPunct p "}"); [by apply good_ret|]. destruct (atEnd p); [fails|].
  destruct (isIdentifier p) eqn:Hid; cbn [negb]; [|fails].
  assert (tk_kind (current p) ≠ TEnd) by (by eapply isIdentifier_live).
  eapply (good_seq _ 1 0 _ wfPattern).
  - case_decide; [by apply good_parsePatternNode|]. case_decide; [by apply good_parsePatternEdge|fails].
  - lia.
  - intros pattern' p1 Hv1 Hl1 Hw1. eapply good_weaken; [apply IH; [done|lia|done]|lia|done].
Qed.

Lemma undeclaredEndpoint_none pattern es : undeclaredEndpoint pattern es = None →
  Forall (λ e, {[pe_producer e; pe_consumer e]} ⊆@{gset string} list_to_set (pn_name <$> pt_nodes pattern)) es.
Proof.
  induction es as [|e es IH]; [constructor|]. cbn. case_decide as H1; [done|]. case_decide as H2; [done|]. intros H.
  rewrite findPatternNode_none in H1, H2. apply dec_stable in H1, H2. constructor; [|auto].
  intros x [->%elem_of_singleton | ->%elem_of_singleton]%elem_of_union; by apply elem_of_list_to_set.
Qed.

Lemma good_parseGraphMatch p def : valid p → tk_kind (current p) ≠ TEnd → wfBody def → 
  goodAt p 1 wfBody (parseGraphMatch source def).
Proof.
  intros Hv Hlive Hw. unfold parseGraphMatch. next. intros p1 Hv1 _. next. intros p2 Hv2 _.
  eapply (good_seq _ 0 0 _ wfPattern).
  { apply good_get, good_graphLoop; [done|lia|]. split; cbn; [apply NoDup_nil_2|done|apply NoDup_nil_2|done]. }
  { lia. }
  intros pattern p3 Hv3 _ Hp. eapply (good_seq _ 0 0); [by apply good_step_any|lia|]. intros [] p4 Hv4 _ _.
  destruct (pt_nodes pattern) as [|anchor rest] eqn:Hn; [fails|].
  destruct (undeclaredEndpoint pattern _) eqn:Hu; [fails|]. apply good_ret; [done|].
  apply undeclaredEndpoint_none in Hu. destruct Hw. split; cbn; auto.
  - right. destruct Hp as [_ Ho _ _]. rewrite Hn in Ho. by apply Forall_cons in Ho as [[? _] _].
  - intros pattern' [= <-]. split_and!; [done|by rewrite Hn|done].
Qed.

Lemma good_parseMatch p def : valid p → tk_kind (current p) ≠ TEnd → wfBody def →
  goodAt p 1 wfBody (parseMatch source def).
Proof.
  intros Hv Hlive Hw. unfold parseMatch. destruct (str_empty (matchOp def)) eqn:Hm; cbn [negb]; [|fails].
  apply bool_decide_eq_true in Hm. next. intros p1 Hv1 _. apply good_get. destruct (keyword p1 ["graph"]) eqn:Hg.
  { eapply good_weaken; [apply good_parseGraphMatch; [done|by eapply keyword_live|done]|lia|done]. }
  eapply (good_seq _ 1 0); [by apply good_parseOperation|lia|]. intros [op ps] p2 Hv2 _ [Hop Hps]. apply good_ret; [done|].
  destruct Hw. split; cbn; auto; [by apply Forall_app|]. intros pattern Hp. destruct (wr_pattern0 pattern Hp) as (Hwp & Hh & _).
  exfalso. rewrite Hm in Hh. destruct (pt_nodes pattern) as [|a rest] eqn:Ha; [done|]. injection Hh as Hh.
  destruct Hwp as [_ Ho _ _]. rewrite Ha in Ho. apply Forall_cons in Ho as [[Ho _] _]. by rewrite Hh in Ho.
Qed.

(** *** The other statements *)
Lemma findRuleParam_none def n : findRuleParam def n = None ↔ n ∉ name <$> r_params def.
Proof.
  unfold findRuleParam. split.
  - intros Hf (d & -> & Hd)%list_elem_of_fmap. apply list_elem_of_In in Hd.
    pose proof (List.find_none _ _ Hf d Hd) as Hn. cbn in Hn. by rewrite bool_decide_true in Hn.
  - intros Hn. destruct (List.find _ _) as [d|] eqn:Hf; [|done]. exfalso.
    apply List.find_some in Hf as [Hd%list_elem_of_In <-%bool_decide_eq_true]. apply Hn. by apply list_elem_of_fmap_2.
Qed.

Lemma good_parseRuleDomain p def : valid p → tk_kind (current p) ≠ TEnd → wfBody def →
  goodAt p 1 wfBody (parseRuleDomain source def).
Proof.
  intros Hv Hlive Hw. unfold parseRuleDomain. next. intros p1 Hv1 _. next. intros n p2 Hv2 _ Hn.
  case_bool_decide as Hdup; [fails|]. apply good_get. destruct (keyword p2 ["in"]) eqn:Hin; cbn [negb]; [|fails].
  next. intros p3 Hv3 _. eapply (good_seq _ 1 0); [by apply good_parseDomainValues|lia|]. intros vs p4 Hv4 _ [Hne Hvs].
  next. intros p5 Hv5 _. apply good_ret; [done|]. destruct Hw. destruct wr_params0 as [Hnd Hpar].
  assert (n ∉ name <$> r_params def) as Hnew by (by rewrite Hpar).
  rewrite (proj2 (findRuleParam_none def n) Hnew).
  split; cbn; auto.
  - rewrite fmap_app. cbn. split.
    + apply NoDup_app. split_and!; [done| |apply NoDup_singleton]. by intros x Hx ->%list_elem_of_singleton.
    + intros m. rewrite elem_of_app, list_elem_of_singleton, Hpar, lookup_insert_is_Some'. naive_solver.
  - intros m domain [[<- <-]|[_ Hd]]%lookup_insert_Some; [done|by eapply wr_domains0].
  - eapply Forall_impl; [exact wr_constraints0|]. intros e [He Hc]. split; [done|].
    eapply (proj1 (complaint_mono e)); [|exact Hc]. unfold ruleParamNames. cbn. rewrite fmap_app, list_to_set_app_L. set_solver.
Qed.

Lemma good_kindTail p def r port roleToken : valid p → wfBody def →
  r ∈ ["executor"; "compute"; "memory"] → (r = "memory" ∨ port = None) →
  goodAt p 0 wfBody
    (_ ← step; k ← expectIdentifier source "a capability kind"; _ ← expectPunct source ";";
     if existsb (clashes (mkKind r k port)) (kindRequirements def)
     then failAtToken source roleToken ("duplicate " +:+ r +:+ " kind requirement '" +:+ k +:+ "'")
     else mret (set_require def (r_constraints def) (kindRequirements def ++ [mkKind r k port]) (r_layoutRequirements def))).
Proof.
  intros Hv Hw Hr Hp. eapply (good_seq _ 0 0); [by apply good_step_any|lia|]. intros [] p1 Hv1 _ _.
  next. intros k p2 Hv2 _ _. next. intros p3 Hv3 _. destruct (existsb _ _) eqn:He; [apply good_failAtToken|].
  apply good_ret; [done|]. destruct Hw. split; cbn; auto.
  - assert (Forall (λ k', clashes (mkKind r k port) k' = false) (kindRequirements def)) as Hall.
    { apply Forall_forall. intros k' Hk'. apply not_true_iff_false. intros Hc. apply not_true_iff_false in He. apply He.
      apply existsb_exists. exists k'. by rewrite <- list_elem_of_In. }
    clear He wr_roles0. induction wr_kinds0 as [|x xs Hx Hxs IH]; cbn; [by repeat constructor|].
    apply Forall_cons in Hall as [H1 H2]. constructor; [|by apply IH]. apply Forall_app. by rewrite Forall_singleton.
  - apply Forall_app. by rewrite Forall_singleton.
Qed.

Lemma good_constraintTail p def : valid p → wfBody def →
  goodAt p 0 wfBody
    (e ← parseExpression source; _ ← expectPunct source ";";
     _ ← validateExpr source e (ruleParamNames def ∪ {["rank"; "element_type"]});
     mret (set_require def (r_constraints def ++ [e]) (kindRequirements def) (r_layoutRequirements def))).
Proof.
  intros Hv Hw. next. intros e p2 Hv2 _ He. next. intros p3 Hv3 _. apply good_validate_seq; [done|]. intros Hc.
  apply good_ret; [done|]. destruct Hw. split; cbn; auto. apply Forall_app. by rewrite Forall_singleton.
Qed.

Lemma good_parseRuleRequire p def : valid p → tk_kind (current p) ≠ TEnd → wfBody def →
  goodAt p 1 wfBody (parseRuleRequire source def).
Proof.
  intros Hv Hlive Hw. unfold parseRuleRequire. next. intros p1 Hv1 _. apply good_get.
  destruct (keyword p1 ["executor"; "compute"; "memory"]) eqn:Hrole; cbn [andb].
  2: destruct (keyword p1 ["layout"]) eqn:Hl; cbn [andb].
  - assert (tk_text (current p1) ∈ ["executor"; "compute"; "memory"]) as Hin.
    { unfold keyword in Hrole. by apply andb_true_iff in Hrole as [_ ?%bool_decide_eq_true]. }
    destruct (peekWord p1 1 ["kind"] || peekWord p1 1 ["input"; "output"]).
    + unfold parseKindRequirement. apply good_get. next. intros p2 Hv2 _.
      eapply (good_seq _ 0 0 _ (λ port, tk_text (current p1) = "memory" ∨ port = None)).
      * destruct (peekWord p1 1 ["input"; "output"]); cbn [negb]; [|apply good_ret; [done|by right]].
        case_bool_decide as Hm; [apply good_failAtToken|]. apply good_get.
        eapply (good_seq _ 0 0); [by apply good_step_any|lia|]. intros [] p3 Hv3 _ _.
        eapply (good_seq _ 1 0); [by apply good_expectString|lia|]. intros n p4 Hv4 _ _. apply good_get.
        destruct (keyword p4 ["kind"]); [|fails]. apply good_ret; [done|]. by left.
      * lia.
      * intros port p3 Hv3 _ Hp. by apply good_kindTail.
    + assert (keyword p1 ["layout"] = false) as ->.
      { apply not_true_iff_false. unfold keyword. intros [_ Hl%bool_decide_eq_true%list_elem_of_singleton]%andb_true_iff.
        rewrite Hl in Hin. by repeat (apply elem_of_cons in Hin as [?|Hin]; [done|]); apply elem_of_nil in Hin. }
      by apply good_constraintTail.
  - destruct (bool_decide _ && _).
    + next. intros p2 Hv2 _. next. intros port p3 Hv3 _ _.
      eapply (good_seq _ 0 0); [by apply good_step_any|lia|]. intros [] p4 Hv4 _ _. next. intros l p5 Hv5 _ _.
      next. intros p6 Hv6 _. apply good_ret; [done|]. by destruct Hw.
    + by apply good_constraintTail.
  - by apply good_constraintTail.
Qed.

Lemma good_parsePort p def : valid p → tk_kind (current p) ≠ TEnd → wfBody def →
  goodAt p 1 wfBody (parsePort source def).
Proof.
  intros Hv Hlive Hw. unfold parsePort. apply good_get. next. intros p1 Hv1 _.
  eapply (good_seq _ 1 0); [by apply good_expectString|lia|]. intros n p2 Hv2 _ _. next. intros p3 Hv3 _.
  destruct (existsb _ _) eqn:He; [fails|]. apply good_ret; [done|]. destruct Hw. split; cbn; auto.
  rewrite fmap_app. apply NoDup_app. split_and!; [done| |apply NoDup_singleton].
  intros x (q & -> & Hq)%list_elem_of_fmap Heq%list_elem_of_singleton. cbn in Heq.
  apply not_true_iff_false in He. apply He, existsb_exists. exists q. split; [by apply list_elem_of_In|].
  by apply bool_decide_eq_true.
Qed.

Lemma good_parameterValue p n : valid p → goodAt p 1 (λ _, True) (parameterValue source n).
Proof.
  intros Hv. unfold parameterValue. apply good_get. destruct (tk_kind (current p)) eqn:Hk; try fails.
  all: apply good_step_seq; [done|congruence|]; intros p1 Hv1 _; by apply good_ret.
Qed.

Lemma good_bundleLoop fuel p out : valid p → (length (tokens p) <= fuel)%nat → NoDup out.*1 →
  goodAt p 1 (λ out, NoDup out.*1) (bundleLoop source fuel out).
Proof.
  revert p out. induction fuel as [|fuel IH]; intros p out Hv Hf Ho; [pose proof (valid_nonempty p Hv); lia|].
  cbn [bundleLoop]. next. intros n p1 Hv1 Hl1 _. destruct (existsb _ _) eqn:He; [fails|]. next. intros p2 Hv2 Hl2.
  eapply (good_seq _ 1 0); [by apply good_parameterValue|lia|]. intros v p3 Hv3 Hl3 _.
  assert (NoDup (out ++ [(n, v)])%list.*1) as Ho'.
  { rewrite fmap_app. apply NoDup_app. split_and!; [done| |apply NoDup_singleton].
    intros x (q & -> & Hq)%list_elem_of_fmap Heq%list_elem_of_singleton. cbn in Heq.
    apply not_true_iff_false in He. apply He, existsb_exists. exists q. split; [by apply list_elem_of_In|].
    by apply bool_decide_eq_true. }
  apply good_get. destruct (isPunct p3 ",") eqn:Hc; [|by apply good_ret].
  next. intros p4 Hv4 Hl4. eapply good_weaken; [apply IH; [done|lia|done]|lia|done].
Qed.

Lemma good_parseMetadata p def : valid p → tk_kind (current p) ≠ TEnd → wfBody def →
  goodAt p 1 wfBody (parseMetadata source def).
Proof.
  intros Hv Hlive Hw. unfold parseMetadata. apply good_get. next. intros p1 Hv1 _. case_decide; [|case_decide].
  - destruct (negb _); [fails|]. eapply (good_seq _ 1 0); [by apply good_expectString|lia|]. intros b p2 Hv2 _ _.
    eapply (good_seq _ 0 0 _ (λ bps, NoDup bps.*1)).
    + apply good_get. destruct (isPunct p2 "{") eqn:Hb.
      * unfold parseBundleParameters. next. intros p3 Hv3 _. apply good_get. destruct (isPunct p3 "}"); [fails|].
        eapply (good_seq _ 1 0); [apply good_bundleLoop; [done|lia|by destruct Hw]|lia|]. intros out p4 Hv4 _ Ho.
        next. intros p5 Hv5 _. next. intros p6 Hv6 _. apply good_ret; [done|]. by rewrite sort_by_perm.
      * next. intros p3 Hv3 _. apply good_ret; [done|]. by destruct Hw.
    + lia.
    + intros bps p3 Hv3 _ Hb. apply good_ret; [done|]. by destruct Hw.
  - destruct (negb _); [fails|]. eapply (good_seq _ 1 0); [by apply good_expectString|lia|]. intros b p2 Hv2 _ _.
    next. intros p3 Hv3 _. apply good_ret; [done|]. by destruct Hw.
  - case_bool_decide; [fails|]. eapply (good_seq _ 1 0); [by apply good_expectInt|lia|]. intros c p2 Hv2 _ Hc.
    next. intros p3 Hv3 _. apply good_ret; [done|]. destruct Hw. split; cbn; auto. intros c' [= <-].
    unfold in_u64, u64. apply Z.mod_pos_bound. lia.
Qed.

Lemma good_parseRuleStatement p def : valid p → wfBody def → goodAt p 1 wfBody (parseRuleStatement source def).
Proof.
  intros Hv Hw. apply good_get. destruct (isIdentifier p) eqn:Hid; cbn [negb]; [|fails].
  assert (tk_kind (current p) ≠ TEnd) by (by eapply isIdentifier_live).
  repeat case_decide; [by apply good_parseMatch|by apply good_parseRuleDomain|by apply good_parseRuleRequire|
    by apply good_parsePort|by apply good_parseMetadata|fails].
Qed.

Lemma good_ruleLoop fuel p def : valid p → (length (tokens p) <= fuel)%nat → wfBody def →
  goodAt p 0 wfBody (ruleLoop source fuel def).
Proof.
  revert p def. induction fuel as [|fuel IH]; intros p def Hv Hf Hw; [pose proof (valid_nonempty p Hv); lia|].
  cbn [ruleLoop]. apply good_get. destruct (isPunct p "}"); [by apply good_ret|]. destruct (atEnd p); [fails|].
  eapply (good_seq _ 1 0); [by apply good_parseRuleStatement|lia|]. intros d p1 Hv1 Hl1 Hd.
  eapply good_weaken; [apply IH; [done|lia|done]|lia|done].
Qed.

Lemma undeclaredPort_none ports ks : undeclaredPort ports ks = None →
  ∀ k port, k ∈ ks → kr_port k = Some port → port ∈ ports.
Proof.
  induction ks as [|x ks IH]; cbn; [intros _ k port Hk; by apply elem_of_nil in Hk|].
  intros Hu k port [->|Hk]%elem_of_cons Hp.
  - rewrite Hp in Hu. unfold contains in Hu. by case_bool_decide.
  - destruct (kr_port x) as [q|]; [|by eapply IH]. unfold contains in Hu. case_bool_decide; [by eapply IH|done].
Qed.

Lemma good_parseRule p : valid p → tk_kind (current p) ≠ TEnd → goodAt p 1 wfRule (parseRule source).
Proof.
  intros Hv Hlive. unfold parseRule. next. intros p1 Hv1 _. next. intros i p2 Hv2 _ Hi.
  eapply (good_seq _ 0 0 _ (λ _, True)).
  { apply good_get. destruct (if isIdentifier p2 then _ else _) as [v|] eqn:Hver; [|by apply good_ret].
    destruct (isIdentifier p2) eqn:Hid; [|done]. next. intros p3 Hv3 _. by apply good_ret. }
  { lia. }
  intros version p3 Hv3 _ _. next. intros p4 Hv4 _.
  assert (wfBody (emptyRule i version)) as Hw.
  { split; cbn; try done; try apply NoDup_nil_2; [by left| |constructor]. split; [apply NoDup_nil_2|].
    intros n. rewrite lookup_empty. split; [by intros ?%elem_of_nil|by intros [? ?]]. }
  eapply (good_seq _ 0 0); [apply good_get, good_ruleLoop; [done|lia|done]|lia|]. intros def p5 Hv5 _ Hdef.
  eapply (good_seq _ 0 0); [by apply good_step_any|lia|]. intros [] p6 Hv6 _ _. unfold checkRule.
  destruct (str_empty (matchOp def)) eqn:H1; [fails|]. destruct (str_empty (r_bundle def)) eqn:H2; [fails|].
  destruct (str_empty (emitter def)) eqn:H3; [fails|]. destruct (undeclaredPort _ _) eqn:H4; [fails|].
  apply good_ret; [done|]. unfold str_empty in *. apply bool_decide_eq_false in H1, H2, H3.
  split; [done| |done|by apply undeclaredPort_none]. by destruct (wr_match def Hdef).
Qed.

Definition wfRules (registry : RuleRegistry) : Prop := SortedById registry ∧ Forall wfRule registry.

Lemma good_rulesLoop fuel p registry : valid p → (length (tokens p) <= fuel)%nat → wfRules registry →
  goodAt p 0 wfRules (rulesLoop source fuel registry).
Proof.
  revert p registry. induction fuel as [|fuel IH]; intros p registry Hv Hf Hr; [pose proof (valid_nonempty p Hv); lia|].
  cbn [rulesLoop]. apply good_get. destruct (atEnd p); [by apply good_ret|].
  destruct (keyword p ["rule"]) eqn:Hk; cbn [negb]; [|fails].
  eapply (good_seq _ 1 0); [apply good_parseRule; [done|by eapply keyword_live]|lia|]. intros def p1 Hv1 Hl1 Hd.
  destruct Hr as [Hs Hw]. pose proof (addRule_spec registry def Hs) as Ha.
  destruct (addRule registry def) as [registry'|m]; [|apply good_fail_plain]. destruct Ha as (Hs' & Hp & _).
  eapply IH; [done|lia|]. split; [done|]. rewrite Hp. by constructor.
Qed.
End good_rules.

Lemma parse_wf text sourceName :
  match parseRuleText text sourceName with
  | Some (Ok registry) => wfRules registry
  | Some (Err (Reported message)) => message ≠ ""
  | Some (Err (Thrown _)) => True
  | None => False
  end.
Proof.
  unfold parseRuleText, lexLlkMap. destruct (lex text) as [ts|[| |c|d]] eqn:Hl; try done.
  2-4: intros Hn; apply (f_equal String.length) in Hn; rewrite !str_app_length in Hn; cbn in Hn; lia.
  apply lex_loop_valid in Hl; [|done].
  pose proof (good_rulesLoop sourceName (length ts) (mkParser ts "") [] Hl (Nat.le_refl _)) as H.
  specialize (H (conj (SSorted_nil _) (Forall_nil_2 _))). unfold parseRules, get. cbn [tokens]. unfold goodAt in H.
  destruct (rulesLoop _ _ _ _) as [[registry| |] p]; [by destruct H as (_ & _ & ? & _)|done|done].
Qed.

(** Loading a rule file always ends, and what it loads is well formed: rules
    sorted by distinct ids, each matching a known operation (the anchor's, for a
    graph whose node names are distinct and whose edges join declared nodes), naming
    a bundle and an emitter, with typed predicates, distinct parameters that each
    have a nonempty domain, constraints over declared names, requirements that do
    not clash and name declared ports; otherwise the first problem is reported. *)
Theorem parseRuleText_wf text sourceName :
  match parseRuleText text sourceName with
  | Some (Ok registry) => wfRules registry
  | Some (Err (Reported message)) => message ≠ ""
  | Some (Err (Thrown _)) => True
  | None => False
  end.
Proof. exact (parse_wf text sourceName). Qed.

(** ** Access maps build *)
Lemma dimIndices_dom ds d : d ∈ ds → is_Some (dimIndices ds !! d).
Proof.
  unfold dimIndices. intros Hd.
  enough (∀ i m, is_Some (m !! d) ∨ d ∈ ds →
    is_Some (foldl (λ m '(i, d), <[d := i]> m) m (imap (λ j d, (i + j, d)%nat) ds) !! d)) as H by (apply (H O ∅); auto).
  clear Hd. induction ds as [|x ds IH]; intros i m Hd; cbn [imap foldl]; [by destruct Hd as [?|?%elem_of_nil]|].
  rewrite (imap_ext _ (λ j d, (S i + j, d)%nat)) by (intros; cbn; f_equal; lia).
  apply IH. rewrite lookup_insert_is_Some'. destruct Hd as [?|[->|?]%elem_of_cons]; auto.
Qed.

Lemma wf_operands k i t ops : wf (mkExpr k i t ops) = true → k ≠ Quantifier → Forall (λ e, wf e = true) ops.
Proof.
  intros Hw Hk. cbn [wf] in Hw. apply andb_true_iff in Hw as [Hw _]. apply Forall_forall. intros e He%list_elem_of_In.
  rewrite List.forallb_forall in Hw. by destruct k; auto.
Qed.

Section access.
Context `{AffineExprs} (HC : ∀ c, isConstant (getAffineConstantExpr c) = true).

Definition builds (ds : list string) (e : Expr) : Prop :=
  ∃ r, convert (dimIndices ds) ∅ e = Ok r ∧ (kind e = IntLit → isConstant r = true).

Lemma convertBinary_builds op kl kr (l r : AffineExpr) : op ∈ ["+"; "-"; "*"; "/"; "%"] →
  (op = "*" → kl = IntLit ∨ kr = IntLit) → (kl = IntLit → isConstant l = true) → (kr = IntLit → isConstant r = true) →
  ∃ x, convertBinary op l r = Ok x.
Proof.
  intros Hop Hm Hl Hr. unfold convertBinary. repeat case_decide; try by eexists.
  - destruct Hm as [E|E]; [done|..]; [rewrite (Hl E)|rewrite (Hr E), andb_false_r]; by eexists.
  - exfalso. by repeat (apply elem_of_cons in Hop as [->|Hop]; [done|]); apply elem_of_nil in Hop.
Qed.

Lemma convert_builds ds e : wf e = true → complaint (list_to_set ds) e = None → isAffineSpecExpr e = true → builds ds e.
Proof.
  induction e as [k i t ops IH] using Expr_nested_ind. intros Hw Hc Ha.
  assert (k ≠ Quantifier → Forall (λ x, complaint (list_to_set ds) x = None → isAffineSpecExpr x = true → builds ds x) ops) as IH'.
  { intros Hk. apply wf_operands in Hw; [|done]. eapply Forall_impl; [apply Forall_and; split; [exact IH|exact Hw]|].
    intros x [? ?]. auto. }
  clear IH Hw. unfold builds. cbn [complaint isAffineSpecExpr kind text operands convert] in *. destruct k; try done.
  - eexists. by rewrite HC.
  - case_bool_decide as Hin; [|done]. apply elem_of_list_to_set, dimIndices_dom in Hin as [d ->]. by eexists.
  - destruct (isKnownCall t); [|done]. apply firstComplaint_none in Hc. specialize (IH' ltac:(done)).
    apply andb_true_iff in Ha as [Ht%bool_decide_eq_true Ha]. destruct ops as [|l [|r []]]; try done.
    apply andb_true_iff in Ha as [Hl Hr]. apply Forall_cons in Hc as [Hcl [Hcr _]%Forall_cons], IH' as [Hbl [Hbr _]%Forall_cons].
    destruct (Hbl Hcl Hl) as (x & -> & _), (Hbr Hcr Hr) as (y & -> & _). cbn [mbind result_bind].
    unfold convertCall. repeat case_decide; try by eexists.
    exfalso. by repeat (apply elem_of_cons in Ht as [->|Ht]; [done|]); apply elem_of_nil in Ht.
  - apply firstComplaint_none in Hc. specialize (IH' ltac:(done)). destruct ops as [|x ops]; [done|].
    apply andb_true_iff in Ha as [->%bool_decide_eq_true Ha]. apply Forall_cons in Hc as [Hx _], IH' as [Hb _].
    destruct (Hb Hx Ha) as (y & -> & _). cbn [mbind result_bind]. rewrite decide_True by done. by eexists.
  - apply firstComplaint_none in Hc. specialize (IH' ltac:(done)). destruct ops as [|l [|r ops]]; [done..|].
    apply Forall_cons in Hc as [Hcl Hc], IH' as [Hbl IH']. apply Forall_cons in Hc as [Hcr _], IH' as [Hbr _].
    assert (t ∈ ["+"; "-"; "*"; "/"; "%"] ∧ (t = "*" → kind l = IntLit ∨ kind r = IntLit) ∧
      isAffineSpecExpr l = true ∧ isAffineSpecExpr r = true) as (Ht & Hm & Hl & Hr).
    { destruct (decide (t = "*")) as [->|Hn].
      - apply andb_true_iff in Ha as [[Hk%orb_true_iff ?]%andb_true_iff ?]. split_and!; [set_solver| |done..].
        rewrite !bool_decide_eq_true in Hk. done.
      - destruct (decide (t ∈ _)) as [Ht|]; [|done]. apply andb_true_iff in Ha as [? ?]. split_and!; [set_solver|done..]. }
    destruct (Hbl Hcl Hl) as (x & -> & Hxl), (Hbr Hcr Hr) as (y & -> & Hyr). cbn [mbind result_bind].
    destruct (convertBinary_builds t (kind l) (kind r) x y Ht Hm Hxl Hyr) as [z ->]. by eexists.
Qed.

Lemma access_builds m : wfAccess m → ∃ map, buildAffineMap m ∅ = Ok map.
Proof.
  intros [_ [_ Hr]]. unfold buildAffineMap.
  enough (∀ acc, ∃ rs', fold_result (λ rs e, r ← convert (dimIndices (dims m)) ∅ e; Ok (rs ++ [r])%list) acc (results m) = Ok rs')
    as Hall by (destruct (Hall []) as [rs' ->]; by eexists).
  induction Hr as [|e rs (Hw & Hc & Ha) _ IH]; intros acc; [by eexists|].
  cbn [fold_result]. destruct (convert_builds _ e Hw Hc Ha) as (r & -> & _). cbn [mbind result_bind]. apply IH.
Qed.

Lemma rule_predicates_wf def q : wfRule def →
  q ∈ predicates def ∨ (∃ pattern n, r_pattern def = Some pattern ∧ n ∈ pt_nodes pattern ∧ q ∈ pn_predicates n) →
  wfPredicate q.
Proof.
  intros [[Hq _ Hp _ _ _ _ _ _ _ _] _ _ _] [Hin|(pattern & n & Hpat & Hn & Hin)].
  - rewrite Forall_forall in Hq. auto.
  - destruct (Hp pattern Hpat) as ([_ Hnodes _ _] & _ & _). rewrite Forall_forall in Hnodes.
    destruct (Hnodes n Hn) as [_ Hqs]. rewrite Forall_forall in Hqs. auto.
Qed.

(** An access-map predicate of a loaded rule, of the rule or of a node of its
    graph, always builds: the check when it is loaded is as strict as the builder
    of affine maps, so no rule is silently dead for a map that is not affine. *)
Theorem loaded_access_map_builds text sourceName registry def q :
  parseRuleText text sourceName = Some (Ok registry) → def ∈ registry →
  q ∈ predicates def ∨ (∃ pattern n, r_pattern def = Some pattern ∧ n ∈ pt_nodes pattern ∧ q ∈ pn_predicates n) →
  rp_kind q = AccessMapPredicate →
  ∃ m map, rp_accessMap q = Some m ∧ buildAffineMap m ∅ = Ok map.
Proof.
  intros Hp Hdef Hq Hk. pose proof (parse_wf text sourceName) as Hw. rewrite Hp in Hw.
  destruct Hw as [_ Hw]. rewrite Forall_forall in Hw. apply Hw in Hdef.
  pose proof (rule_predicates_wf def q Hdef Hq) as [Hkind _]. rewrite Hk in Hkind. destruct Hkind as (m & Hm & Hwm).
  destruct (access_builds m Hwm) as [map Hmap]. eauto.
Qed.
End access.

(** ** Concrete rules *)
Definition sample_rules_text : string :=
  "rule t.gelu v2 { match graph { node mm: micro.mma(input[0].access_map = (d0, d1) -> (d1, 2 * d0 + d1 % 4)); " +:+
  "node act: micro.vector(op = gelu, element_type = f32, shape[0] = 64); edge mm.result -> act.operand1; } " +:+
  "param VW in [4..6]; require VW >= rank; require executor kind worker; output " +:+ quoted "big" +:+ "; " +:+
  "require memory output " +:+ quoted "big" +:+ " kind dram; bundle " +:+ quoted "b" +:+ " { n = VW, k = 3 }; emit " +:+
  quoted "e" +:+ "; cost 7; } rule t.add { match micro.vector(); bundle " +:+ quoted "b" +:+ "; emit " +:+ quoted "e" +:+ "; }".

Definition sample_registry : RuleRegistry :=
  match parseRuleText sample_rules_text "rules" with Some (Ok registry) => registry | _ => [] end.

(** The printed registry loads to itself. *)
Lemma sample_round_trip : length sample_registry = 2%nat ∧
  parseRuleText (String.concat "" (printRule <$> sample_registry)) "rules" = Some (Ok sample_registry).
Proof. split; vm_compute; reflexivity. Qed.

(** An occurrence index is narrowed to 32 bits, so an edge can name another
    operand than the one written. *)
Definition wide_edge_text (i : string) : string :=
  "rule t { match graph { node a: micro.mma(); node b: micro.vector(); edge a.result -> b.operand" +:+ i +:+
  "; } bundle " +:+ quoted "b" +:+ "; emit " +:+ quoted "e" +:+ "; }".
Lemma occurrence_index_wraps :
  parseRuleText (wide_edge_text "4294967296") "rules" = parseRuleText (wide_edge_text "0") "rules" ∧
  ∃ registry, parseRuleText (wide_edge_text "0") "rules" = Some (Ok registry).
Proof. split; [vm_compute; reflexivity|]. eexists. vm_compute. reflexivity. Qed.

Lemma addRules_order_independent_witness : ∃ registry,
  addRules [] (rev sample_registry) = Ok registry ∧ addRules [] sample_registry = Ok registry ∧
  r_id <$> registry = ["t.add"; "t.gelu"].
Proof.
  exists sample_registry. pose proof (addRules_order_independent (rev sample_registry) sample_registry) as H.
  assert (rev sample_registry ≡ₚ sample_registry) as Hp by (symmetry; apply Permutation_rev).
  specialize (H Hp). assert (addRules [] (rev sample_registry) = Ok sample_registry) as He by (vm_compute; reflexivity).
  rewrite He in H. destruct H as (H & _). split; [exact He|split; [exact H|vm_compute; reflexivity]].
Defined.

Definition sample_access : RulePredicate :=
  match sample_registry with
  | [_; def] => from_option (λ pt, from_option (λ n, default (mkPredicate AttributePredicate "" false true 0 0 (IntValue 0) None)
      (head (pn_predicates n))) (mkPredicate AttributePredicate "" false true 0 0 (IntValue 0) None) (head (pt_nodes pt)))
      (mkPredicate AttributePredicate "" false true 0 0 (IntValue 0) None) (r_pattern def)
  | _ => mkPredicate AttributePredicate "" false true 0 0 (IntValue 0) None
  end.
Lemma loaded_access_map_builds_witness : ∃ m map,
  rp_accessMap sample_access = Some m ∧ @buildAffineMap plainAffine m ∅ = Ok map ∧ length (results m) = 2%nat.
Proof.
  assert (∃ m map, rp_accessMap sample_access = Some m ∧ @buildAffineMap plainAffine m ∅ = Ok map) as (m & map & Hm & Hb).
  { eapply (@loaded_access_map_builds plainAffine (λ c, eq_refl) sample_rules_text "rules" sample_registry
      (default (emptyRule "" 1) (last sample_registry))); [vm_compute; reflexivity| | |vm_compute; reflexivity].
    - apply last_Some_elem_of. vm_compute. reflexivity.
    - right. eexists _, _. split; [vm_compute; reflexivity|]. split; [left|]. vm_compute. left. }
  exists m, map. split; [exact Hm|]. split; [exact Hb|]. revert Hm. vm_compute. intros [= <-]. reflexivity.
Defined.
