(* ===== verification/MappingPlan.v ===== *)
(** Mapping candidates, plans and their identities: include/LLK/Mapping/MappingPlan.h,
    lib/Mapping/MappingPlan.cpp, include/LLK/Mapping/SearchBinding.h and
    lib/Mapping/SearchBinding.cpp.

    The records the mapping search passes around, with their canonical strings and
    the FNV hashes of those that are their ids.  The theorems say which parts of a
    record an id depends on: not on the order its sets were collected in, and on
    every selected compute node, whose rendering is length-delimited and injective;
    the parameter rendering is injective on values without its separators, and not
    beyond.

    [llvm::StringMap] is [gmap string]; what its iteration order could reach is
    sorted by the code.  A null [mlir::AffineMap] and an unset one print alike, so
    both are [None]. *)
From S2P Require Import Prelude Float MachineModel Diagnostics CostModel WorkloadGraph.
From S2P Require EventSchedule StorageLiveness LlkMap.
Open Scope string_scope.
Open Scope Z_scope.

(** ** Search bindings *)

(** [std::variant<int64_t, std::string>], the type of the layout language's values. *)
Abbreviation SearchValue := LlkMap.LayoutValue (only parsing).
Abbreviation IntValue := LlkMap.IntValue.
Abbreviation StrValue := LlkMap.StrValue.

Record SearchBinding := mkSearchBinding {
  candidateId : string;
  sb_values : gmap string SearchValue;
  sb_stableHash : Z;
}.

Record BoundAxes := mkAxes { ownerMapping : string; memoryPath : string }.
Definition axes_empty (a : BoundAxes) : bool := str_empty (ownerMapping a) && str_empty (memoryPath a).

Definition kIntegerTag : Z := 0.
Definition kSymbolicTag : Z := 1.

Definition computeSearchBindingHash (values : gmap string SearchValue) : Z :=
  foldl (λ hash e,
    let hash := stableHashCombine hash (stableHash e.1) in
    match e.2 with
    | IntValue i => stableHashCombine (stableHashCombine hash kIntegerTag) (u64 i)
    | StrValue s => stableHashCombine (stableHashCombine hash kSymbolicTag) (stableHash s)
    end) fnv_offset_basis (in_order values).

Definition makeSearchBinding (candidate : string) (values : gmap string SearchValue) : SearchBinding :=
  mkSearchBinding candidate values (computeSearchBindingHash values).

Definition renderSearchValue (v : SearchValue) : string :=
  match v with
  | IntValue i => "i:" +:+ to_string i
  | StrValue s => "s:" +:+ s
  end.

Definition canonicalSearchValueString (values : gmap string SearchValue) : string :=
  foldl (λ out e, (if str_empty out then out else out +:+ ";") +:+ e.1 +:+ "=" +:+ renderSearchValue e.2)
    "" (in_order values).

Definition canonicalSearchBindingString (binding : SearchBinding) : string :=
  canonicalSearchValueString (sb_values binding).

Definition searchBindingLess (lhs rhs : SearchBinding) : bool :=
  let left := canonicalSearchBindingString lhs in
  let right := canonicalSearchBindingString rhs in
  if bool_decide (left ≠ right) then str_ltb left right
  else str_ltb (candidateId lhs) (candidateId rhs).

(** ** Data *)
Inductive ConnectionKind := Direct | Transfer | LayoutTransformKind | TransferAndTransform | Replicate | Reduce.
#[export] Instance ConnectionKind_eq_dec : EqDecision ConnectionKind.
Proof. solve_decision. Defined.

Inductive GatherSemantics := GatherSum | GatherMax | Concatenate.
#[export] Instance GatherSemantics_eq_dec : EqDecision GatherSemantics.
Proof. solve_decision. Defined.

Inductive PlanStepKind := ComputeStep | MovementStep | SynchronizationStepKind.
Inductive PlanScoreSource := Accumulation | Schedule.

(** What the code reads of an attribute dictionary, and the printed affine map. *)
Inductive AttributeView :=
| IntegerAttrView (i : Z)
| StringAttrView (s : string)
| OtherAttrView (printed : string).
Class MLIRPrint `{MLIRText} := {
  entriesOf : dictionary → list (string * AttributeView);
  printMap : affine_map → string;
}.

Record ComputeRequirement := mkComputeRequirement { cr_kind : string }.
Record ExecutorRequirement := mkExecutorRequirement { capability : string; er_attrs : gmap string string }.
Record MemoryRequirement := mkMemoryRequirement { mr_kind : string; minBytes : Z; mr_port : option PortRef }.
Record LayoutRequirement := mkLayoutRequirement {
  layoutClass : string;
  lr_elementType : string;
  lr_rank : Z;
  lr_portValue : Z;
  lr_port : option PortRef;
}.
Record PortSpec := mkPortSpec { ps_name : string; ps_value : nat; isInput : bool; ps_port : option PortRef }.
Record ResourceUsage := mkUsage { executorSlots : Z; ru_memoryBytes : gmap string Z }.
Record PortMemoryBinding := mkPortMemory { pm_port : PortRef; pm_memory : string }.
#[export] Instance PortMemoryBinding_eq_dec : EqDecision PortMemoryBinding.
Proof. solve_decision. Defined.

Record SynchronizationStep := mkSyncStep {
  ss_id : Z;
  waitsFor : list Z;
  precedes : list PortRef;
  requiresBarrier : bool;
}.
Record PlanStep := mkStep { st_id : Z; st_kind : PlanStepKind; st_node : nat; st_connection : Z; st_hop : option Z }.
Record PlanMovementHop := mkHop {
  hop_index : Z;
  hop_src : string;
  hop_dst : string;
  hop_engine : string;
  sourceStorageId : Z;
  destinationStorageId : Z;
  movementStep : Z;
  waitStep : Z;
}.
Record PlanShapeSampleCost := mkSample {
  sample_values : gmap string Z;
  sample_weight : double;
  sample_cost : Cost;
  sample_peakBytes : gmap string Z;
  sample_fillElements : Z;
}.
Record PlanDiagnostics := mkPlanDiagnostics {
  errors : list string;
  warnings : list string;
  searchTruncated : bool;
  storageNotes : list string;
  physicalComplete : bool;
  physicalReasons : list string;
  physicalDecisions : list string;
}.

Section plans.
Context `{MLIRPrint}.

Record TargetBundle := mkBundle { tb_name : string; tb_parameters : option dictionary; emitterKey : string }.

Record LayoutTransform := mkTransform {
  srcLayout : string;
  dstLayout : string;
  lt_srcMap : option affine_map;
  lt_dstMap : option affine_map;
  lt_memoryNode : string;
  lt_computeResource : string;
}.

Record MappingCandidate := mkCandidate {
  mc_id : Z;
  mc_rule : string;
  mc_coveredNodes : list nat;
  mc_bundle : TargetBundle;
  ports : list PortSpec;
  executorRequirements : list ExecutorRequirement;
  memoryRequirements : list MemoryRequirement;
  layoutRequirements : list LayoutRequirement;
  computeRequirements : list ComputeRequirement;
  mc_resolvedParameters : gmap string SearchValue;
  lowerBound : Cost;
}.

Record SolvedLayout := mkSolvedLayout {
  sl_layoutClass : string;
  sl_parameters : gmap string SearchValue;
  sl_map : option affine_map;
  sl_portValue : Z;
  sl_port : option PortRef;
}.

Record CandidateInstance := mkInstance {
  ci_id : Z;
  ci_candidate : Z;
  ci_bundle : TargetBundle;
  executorBindings : gmap string string;
  memoryBindings : gmap string string;
  computeBindings : gmap string string;
  layoutBindings : gmap string string;
  layoutSolutions : gmap string SolvedLayout;
  portMemoryBindings : list PortMemoryBinding;
  resourceUsage : ResourceUsage;
  localCost : Cost;
}.

Record ConnectionPlan := mkConnection {
  cp_id : Z;
  producer : Z;
  consumers : list Z;
  producerPort : option PortRef;
  consumerPorts : list PortRef;
  producers : list Z;
  gatherSemantics : option GatherSemantics;
  concatAxis : option Z;
  cp_value : nat;
  cp_kind : ConnectionKind;
  memoryRoute : list string;
  transferEngines : list string;
  producerMap : option affine_map;
  consumerMaps : list (option affine_map);
  transform : option LayoutTransform;
  cp_cost : Cost;
  cp_measuredCycles : option double;
}.

Record PlanPlacement := mkPlacement {
  pp_node : nat;
  pp_instance : Z;
  pp_rule : string;
  pp_bundle : TargetBundle;
  pp_executor : string;
  pp_memories : gmap string string;
  pp_layouts : gmap string string;
  pp_layoutSolutions : gmap string SolvedLayout;
  pp_computeBindings : gmap string string;
  pp_computeRequirements : list string;
  pp_resolvedParameters : gmap string SearchValue;
  pp_portMemoryBindings : list PortMemoryBinding;
  pp_cost : Cost;
  pp_workItems : Z;
  pp_measuredCycles : option double;
}.

Record PlanConnection := mkPlanConnection {
  pc_id : Z;
  pc_value : nat;
  pc_kind : ConnectionKind;
  pc_route : list string;
  pc_engines : list string;
  pc_transform : option LayoutTransform;
  pc_consumers : list Z;
  pc_gatherSemantics : option GatherSemantics;
  pc_concatAxis : option Z;
  pc_producerPorts : list PortRef;
  pc_producerPort : option PortRef;
  pc_consumerPorts : list PortRef;
  storageIds : list Z;
  hops : list PlanMovementHop;
  pc_cost : Cost;
  pc_workItems : Z;
  pc_valueType : option mlir_type;
  pc_measuredCycles : option double;
}.

Record CoveringPlan := mkPlan {
  plan_id : Z;
  sourceBindingHash : Z;
  sourceBindingCandidate : string;
  instances : list Z;
  connections : list Z;
  placements : list PlanPlacement;
  connectionPlans : list PlanConnection;
  globalParameters : gmap string SearchValue;
  totalCost : Cost;
  accumulatedCost : Cost;
  scoreSource : PlanScoreSource;
  analysisEvents : option EventSchedule.PlanEventDAG;
  shapeSamples : list PlanShapeSampleCost;
  shapeAggregation : string;
  shapeMaxVariants : Z;
  shapeProfileCanonical : string;
  diagnostics : PlanDiagnostics;
  schemaVersion : Z;
  materialized : bool;
  graphHash : Z;
  targetHash : Z;
  machineHash : Z;
  layoutHash : Z;
  ruleHash : Z;
  allocations : list StorageLiveness.StorageAllocation;
  synchronization : list SynchronizationStep;
  steps : list PlanStep;
  stepEdges : list StorageLiveness.PlanStepEdge;
}.

(** ** Rendering *)
Definition sortedEntries {V} (renderValue : V → string) (m : gmap string V) : list string :=
  sort_strings ((λ e, e.1 +:+ "=" +:+ renderValue e.2) <$> map_to_list m).
Definition sortedTexts (m : gmap string string) : list string := sortedEntries id m.

Definition joinStrings (parts : list string) (separator : string) : string :=
  foldl (λ out part, (if str_empty out then out else out +:+ separator) +:+ part) "" parts.

Definition portMemoryBindingsString (bindings : list PortMemoryBinding) : string :=
  joinStrings (sort_strings
    ((λ b, canonicalPortRefString (pm_port b) +:+ "=" +:+ pm_memory b) <$> bindings)) ",".

Definition joinNumbers (input : list Z) : string :=
  foldl (λ out v, (if str_empty out then out else out +:+ ",") +:+ to_string v) "" (merge_sort Z.le input).

Definition mapString (map : option affine_map) : string := from_option printMap "<null>" map.

Definition transformString (t : LayoutTransform) : string :=
  srcLayout t +:+ "->" +:+ dstLayout t +:+ ":src=" +:+ mapString (lt_srcMap t) +:+ ":dst=" +:+
  mapString (lt_dstMap t) +:+
  (if str_empty (lt_memoryNode t) then "" else ":memory=" +:+ lt_memoryNode t) +:+
  (if str_empty (lt_computeResource t) then "" else ":compute=" +:+ lt_computeResource t).

Definition solvedLayoutsString (solutions : gmap string SolvedLayout) : string :=
  joinStrings (sort_strings
    ((λ e, e.1 +:+ "{" +:+ canonicalSearchValueString (sl_parameters e.2) +:+ "}") <$> map_to_list solutions)) ";".

Definition bundleParameterString (entry : string * AttributeView) : string :=
  entry.1 +:+ ":" +:+
  match entry.2 with
  | IntegerAttrView i => "int:" +:+ to_string i
  | StringAttrView s => "str:" +:+ s
  | OtherAttrView printed => "attr:" +:+ printed
  end.

Definition bundleString (bundle : TargetBundle) : string :=
  tb_name bundle +:+ "|emit=" +:+ emitterKey bundle +:+ "|parameters=" +:+
  joinStrings (sort_strings (bundleParameterString <$> from_option entriesOf [] (tb_parameters bundle))) ",".

Definition lengthDelimited (s : string) : string := to_string (Z.of_nat (String.length s)) +:+ ":" +:+ s.

Definition computeBindingEntry (e : string * string) : string :=
  lengthDelimited e.1 +:+ "=" +:+ lengthDelimited e.2.

Definition canonicalComputeBindingsString (bindings : gmap string string) : string :=
  joinStrings (sort_strings (computeBindingEntry <$> map_to_list bindings)) ",".

Definition missingComputeBinding (placement : PlanPlacement) : option string :=
  snd <$> list_find (λ kind, pp_computeBindings placement !! kind = None) (pp_computeRequirements placement).

Definition stringifyConnectionKind (kind : ConnectionKind) : string :=
  match kind with
  | Direct => "direct"
  | Transfer => "transfer"
  | LayoutTransformKind => "layout_transform"
  | TransferAndTransform => "transfer_and_transform"
  | Replicate => "replicate"
  | Reduce => "reduce"
  end.
Definition kConnectionKinds : list (string * ConnectionKind) :=
  [("direct", Direct); ("transfer", Transfer); ("layout_transform", LayoutTransformKind);
   ("transfer_and_transform", TransferAndTransform); ("replicate", Replicate); ("reduce", Reduce)].
Definition symbolizeConnectionKind (text : string) : option ConnectionKind :=
  match list_find (λ e, e.1 = text) kConnectionKinds with Some (_, e) => Some e.2 | None => None end.

Definition stringifyPlanStepKind (kind : PlanStepKind) : string :=
  match kind with
  | ComputeStep => "compute"
  | MovementStep => "movement"
  | SynchronizationStepKind => "synchronization"
  end.
Definition kPlanStepKinds : list (string * PlanStepKind) :=
  [("compute", ComputeStep); ("movement", MovementStep); ("synchronization", SynchronizationStepKind)].
Definition symbolizePlanStepKind (text : string) : option PlanStepKind :=
  match list_find (λ e, e.1 = text) kPlanStepKinds with Some (_, e) => Some e.2 | None => None end.

Definition stringifyGatherSemantics (semantics : GatherSemantics) : string :=
  match semantics with GatherSum => "sum" | GatherMax => "max" | Concatenate => "concat" end.
Definition symbolizeGatherSemantics (text : string) : option GatherSemantics :=
  if decide (text = "sum") then Some GatherSum
  else if decide (text = "max") then Some GatherMax
  else if decide (text = "concat") then Some Concatenate
  else None.

Definition stringifyPlanScoreSource (source : PlanScoreSource) : string :=
  match source with Accumulation => "accumulation" | Schedule => "schedule" end.

(** ** Canonical strings *)
Definition candidatePortString (port : PortSpec) : string :=
  ps_name port +:+ ":" +:+ to_string (Z.of_nat (ps_value port)) +:+ (if isInput port then ":in" else ":out") +:+
  from_option (λ p, ":{" +:+ canonicalPortRefString p +:+ "}") "" (ps_port port).

(** [sortUnique]. *)
Definition sortUnique (ids : list Z) : list Z := merge_sort Z.le (remove_dups ids).

Definition canonicalCandidateString (candidate : MappingCandidate) : string :=
  "rule=" +:+ mc_rule candidate +:+
  "|bundle=" +:+ bundleString (mc_bundle candidate) +:+
  "|covered=" +:+ joinNumbers (sortUnique (Z.of_nat <$> mc_coveredNodes candidate)) +:+
  "|ports=" +:+ joinStrings (sort_strings (candidatePortString <$> ports candidate)) "," +:+
  "|exec=" +:+ joinStrings (sort_strings
    ((λ r, capability r +:+ "{" +:+ joinStrings (sortedTexts (er_attrs r)) "," +:+ "}") <$>
     executorRequirements candidate)) ";" +:+
  "|mem=" +:+ joinStrings (sort_strings
    ((λ r, mr_kind r +:+ ":" +:+ to_string (minBytes r)) <$> memoryRequirements candidate)) ";" +:+
  "|layout=" +:+ joinStrings (sort_strings (layoutClass <$> layoutRequirements candidate)) ";" +:+
  "|compute=" +:+ joinStrings (sort_strings (cr_kind <$> computeRequirements candidate)) ";" +:+
  "|params=" +:+ canonicalSearchValueString (mc_resolvedParameters candidate) +:+
  "|lower=" +:+ canonicalCostString (lowerBound candidate).

Definition canonicalInstanceString (instance : CandidateInstance) : string :=
  "v3|candidate=" +:+ to_string (ci_candidate instance) +:+
  "|bundle=" +:+ bundleString (ci_bundle instance) +:+
  "|exec=" +:+ joinStrings (sortedTexts (executorBindings instance)) "," +:+
  "|mem=" +:+ joinStrings (sortedTexts (memoryBindings instance)) "," +:+
  (if decide (portMemoryBindings instance = []) then ""
   else "|portmem=" +:+ portMemoryBindingsString (portMemoryBindings instance)) +:+
  "|layout=" +:+ joinStrings (sortedTexts (layoutBindings instance)) "," +:+
  "|solvedlayout=" +:+ solvedLayoutsString (layoutSolutions instance) +:+
  "|compute=" +:+ canonicalComputeBindingsString (computeBindings instance) +:+
  "|slots=" +:+ to_string (executorSlots (resourceUsage instance)) +:+
  "|membytes=" +:+ joinStrings (sortedEntries to_string (ru_memoryBytes (resourceUsage instance))) ",".

Definition gatherString (label axisLabel : string) (semantics : option GatherSemantics) (axis : option Z) : string :=
  match semantics with
  | None => ""
  | Some s => label +:+ stringifyGatherSemantics s +:+ from_option (λ a, axisLabel +:+ to_string a) "" axis
  end.

Definition bracedPort (p : PortRef) : string := "{" +:+ canonicalPortRefString p +:+ "}".

Definition canonicalConnectionString (connection : ConnectionPlan) : string :=
  "producer=" +:+ to_string (producer connection) +:+
  "|consumers=" +:+ joinNumbers (consumers connection) +:+
  "|producers=" +:+ joinNumbers (producers connection) +:+
  "|value=" +:+ to_string (Z.of_nat (cp_value connection)) +:+
  "|kind=" +:+ stringifyConnectionKind (cp_kind connection) +:+
  from_option (λ p, "|producerPort=" +:+ bracedPort p) "" (producerPort connection) +:+
  (if decide (consumerPorts connection = []) then ""
   else "|consumerPorts=" +:+ joinStrings (sort_strings (bracedPort <$> consumerPorts connection)) ",") +:+
  "|route=" +:+ joinStrings (sort_strings (memoryRoute connection)) "," +:+
  "|engines=" +:+ joinStrings (sort_strings (transferEngines connection)) "," +:+
  "|producerMap=" +:+ mapString (producerMap connection) +:+
  "|consumerMaps=" +:+ joinStrings (sort_strings (mapString <$> consumerMaps connection)) "," +:+
  "|transform=" +:+ from_option transformString "<null>" (transform connection) +:+
  gatherString "|gather=" ":axis=" (gatherSemantics connection) (concatAxis connection) +:+
  "|cost=" +:+ canonicalCostString (cp_cost connection).

Definition planPlacementString (placement : PlanPlacement) : string :=
  to_string (Z.of_nat (pp_node placement)) +:+ "=" +:+ to_string (pp_instance placement) +:+ ":" +:+
  pp_rule placement +:+ ":" +:+ bundleString (pp_bundle placement) +:+ ":" +:+ pp_executor placement +:+
  ":mem=" +:+ joinStrings (sortedTexts (pp_memories placement)) "," +:+
  (if decide (pp_portMemoryBindings placement = []) then ""
   else ":portmem=" +:+ portMemoryBindingsString (pp_portMemoryBindings placement)) +:+
  ":layout=" +:+ joinStrings (sortedTexts (pp_layouts placement)) "," +:+
  ":solvedlayout=" +:+ solvedLayoutsString (pp_layoutSolutions placement) +:+
  ":compute=" +:+ canonicalComputeBindingsString (pp_computeBindings placement).

Definition hopString (hop : PlanMovementHop) : string :=
  to_string (hop_index hop) +:+ ":" +:+ lengthDelimited (hop_src hop) +:+ ">" +:+
  lengthDelimited (hop_dst hop) +:+ ":" +:+ lengthDelimited (hop_engine hop) +:+ ":" +:+
  to_string (sourceStorageId hop) +:+ ">" +:+ to_string (destinationStorageId hop).

Definition planConnectionString (connection : PlanConnection) : string :=
  to_string (pc_id connection) +:+ ":" +:+ stringifyConnectionKind (pc_kind connection) +:+
  ":route=" +:+ joinStrings (sort_strings (pc_route connection)) "," +:+
  ":engines=" +:+ joinStrings (sort_strings (pc_engines connection)) "," +:+
  gatherString ":gather=" ":axis=" (pc_gatherSemantics connection) (pc_concatAxis connection) +:+
  (if decide (pc_producerPorts connection = []) then ""
   else ":producerPorts=" +:+ joinStrings (canonicalPortRefString <$> pc_producerPorts connection) ",") +:+
  (match hops connection with
   | [] => ""
   | hs => ":hops=" +:+ joinStrings (hopString <$> hs) ","
   end).

Definition canonicalPlanString (plan : CoveringPlan) : string :=
  "v3|binding=" +:+ hexId (sourceBindingHash plan) +:+
  "|instances=" +:+ joinNumbers (instances plan) +:+
  "|connections=" +:+ joinNumbers (connections plan) +:+
  "|placements=" +:+ joinStrings (sort_strings (planPlacementString <$> placements plan)) ";" +:+
  "|routes=" +:+ joinStrings (sort_strings (planConnectionString <$> connectionPlans plan)) ";" +:+
  "|params=" +:+ canonicalSearchValueString (globalParameters plan).

Definition computeCandidateId (candidate : MappingCandidate) : Z := stableHash (canonicalCandidateString candidate).
Definition computeInstanceId (instance : CandidateInstance) : Z := stableHash (canonicalInstanceString instance).
Definition computeConnectionId (connection : ConnectionPlan) : Z := stableHash (canonicalConnectionString connection).
Definition computePlanId (plan : CoveringPlan) : Z := stableHash (canonicalPlanString plan).

(** The executor of the first placement one of the consumers is, or else of the
    producing node's. *)
Definition transformExecutorFor (plan : CoveringPlan) (connection : PlanConnection) : string :=
  match list_find (λ p, pp_instance p ∈ pc_consumers connection) (placements plan) with
  | Some (_, p) => pp_executor p
  | None =>
    match pc_producerPort connection with
    | None => ""
    | Some port =>
      match list_find (λ p, pp_node p = ref_node port) (placements plan) with
      | Some (_, p) => pp_executor p
      | None => ""
      end
    end
  end.
End plans.

(** ** Renderings that can be read back *)
Lemma lengthDelimited_prefix : prefix_code lengthDelimited.
Proof.
  intros x y s t. unfold lengthDelimited. rewrite !str_app_assoc. intros Heq.
  change (":" +:+ ?a) with (String ":" a) in Heq.
  apply to_string_split in Heq as [Hl Heq]; [|done]. apply str_app_inj_length in Heq; [done|lia].
Qed.

Lemma computeBindingEntry_prefix : prefix_code computeBindingEntry.
Proof.
  intros [a b] [a' b'] s t. unfold computeBindingEntry. cbn [fst snd]. rewrite !str_app_assoc. intros Heq.
  apply lengthDelimited_prefix in Heq as [-> Heq]. injection Heq as Heq.
  apply lengthDelimited_prefix in Heq as [-> ->]. done.
Qed.

Lemma joinStrings_acc sep ps acc : acc ≠ "" →
  foldl (λ out part, (if str_empty out then out else out +:+ sep) +:+ part) acc ps =
  acc +:+ String.concat "" ((λ p, sep +:+ p) <$> ps).
Proof.
  revert acc. induction ps as [|p ps IH]; intros acc Hne; cbn [foldl]; [by rewrite str_app_nil_r|].
  unfold str_empty at 2. rewrite bool_decide_false by done.
  rewrite IH, fmap_cons, str_concat_cons, !str_app_assoc; [done|]. by destruct acc.
Qed.

Lemma joinStrings_cons p ps sep : p ≠ "" →
  joinStrings (p :: ps) sep = p +:+ String.concat "" ((λ p, sep +:+ p) <$> ps).
Proof. intros Hne. unfold joinStrings. cbn [foldl]. by rewrite joinStrings_acc. Qed.

(** A list of nonempty prefix codes separated by anything nonempty is read back. *)
Lemma joinStrings_inj {A} (f : A → string) c sep xs ys : prefix_code f → (∀ x, f x ≠ "") →
  joinStrings (f <$> xs) (String c sep) = joinStrings (f <$> ys) (String c sep) → xs = ys.
Proof.
  intros Hf Hne. assert (∀ xs ys, String.concat "" ((λ p, String c sep +:+ p) <$> (f <$> xs)) =
    String.concat "" ((λ p, String c sep +:+ p) <$> (f <$> ys)) → xs = ys) as Hrest.
  { clear xs ys. induction xs as [|x xs IH]; intros [|y ys]; rewrite ?fmap_cons, ?str_concat_cons; try done.
    rewrite !str_app_assoc. intros Heq. apply str_app_inj_length in Heq as [_ Heq]; [|done].
    apply Hf in Heq as [-> Heq]. f_equal. by apply IH. }
  assert (∀ x (t : string), f x +:+ t ≠ "") as Happ.
  { intros x t Heq. specialize (Hne x). by destruct (f x). }
  destruct xs as [|x xs], ys as [|y ys]; rewrite ?fmap_cons; [done|..].
  - rewrite joinStrings_cons by done. intros Heq. symmetry in Heq. by apply Happ in Heq.
  - rewrite joinStrings_cons by done. intros Heq. by apply Happ in Heq.
  - rewrite !joinStrings_cons by done. intros Heq. apply Hf in Heq as [-> Heq]. f_equal. by apply Hrest.
Qed.

Lemma sorted_entries_inj {A} (f : A → string) c sep xs ys : prefix_code f → (∀ x, f x ≠ "") →
  joinStrings (sort_strings (f <$> xs)) (String c sep) = joinStrings (sort_strings (f <$> ys)) (String c sep) →
  xs ≡ₚ ys.
Proof.
  intros Hf Hne Heq.
  assert (∀ zs, sort_strings (f <$> zs) ≡ₚ f <$> zs) as Hp by (intros; apply merge_sort_Permutation).
  destruct (Permutation_map_inv f _ (Hp xs)) as (xs' & Hx & Hxs).
  destruct (Permutation_map_inv f _ (Hp ys)) as (ys' & Hy & Hys).
  rewrite Hx, Hy in Heq. apply joinStrings_inj in Heq as ->; [|done..]. by rewrite Hxs, Hys.
Qed.

(** The rendering of the selected compute nodes is collision-free: two placements
    with the same text selected the same node for every kind, whatever characters
    the kinds and the node ids contain. *)
Theorem canonicalComputeBindingsString_injective (a b : gmap string string) :
  canonicalComputeBindingsString a = canonicalComputeBindingsString b ↔ a = b.
Proof.
  split; [|by intros ->]. intros Heq. apply map_to_list_inj.
  eapply sorted_entries_inj; [apply computeBindingEntry_prefix| |exact Heq].
  intros [k v]. unfold computeBindingEntry, lengthDelimited. cbn [fst].
  intros Hl%(f_equal String.length). rewrite !str_app_length in Hl. cbn in Hl. lia.
Qed.

Lemma joinNumbers_perm xs ys : xs ≡ₚ ys → joinNumbers xs = joinNumbers ys.
Proof. intros Hp. unfold joinNumbers. by rewrite (merge_sort_unique xs ys Hp). Qed.

Lemma sorted_texts_perm {A} (f : A → string) xs ys sep : xs ≡ₚ ys →
  joinStrings (sort_strings (f <$> xs)) sep = joinStrings (sort_strings (f <$> ys)) sep.
Proof. intros Hp. f_equal. by apply sort_strings_perm, fmap_Permutation. Qed.

(** ** Ids forget the order of sets *)
Section identities.
Context `{MLIRPrint}.

(** The same connection, with its sets listed in other orders; its score is part of
    the identity, a measured duration is not. *)
Record SameConnection (a b : ConnectionPlan) : Prop := {
  sc_producer : producer a = producer b;
  sc_consumers : consumers a ≡ₚ consumers b;
  sc_producerPort : producerPort a = producerPort b;
  sc_consumerPorts : consumerPorts a ≡ₚ consumerPorts b;
  sc_producers : producers a ≡ₚ producers b;
  sc_gather : gatherSemantics a = gatherSemantics b;
  sc_axis : concatAxis a = concatAxis b;
  sc_value : cp_value a = cp_value b;
  sc_kind : cp_kind a = cp_kind b;
  sc_route : memoryRoute a ≡ₚ memoryRoute b;
  sc_engines : transferEngines a ≡ₚ transferEngines b;
  sc_producerMap : producerMap a = producerMap b;
  sc_consumerMaps : consumerMaps a ≡ₚ consumerMaps b;
  sc_transform : transform a = transform b;
  sc_cost : cp_cost a = cp_cost b;
}.

Record SamePlacement (a b : PlanPlacement) : Prop := {
  sp_node : pp_node a = pp_node b;
  sp_instance : pp_instance a = pp_instance b;
  sp_rule : pp_rule a = pp_rule b;
  sp_bundle : pp_bundle a = pp_bundle b;
  sp_executor : pp_executor a = pp_executor b;
  sp_memories : pp_memories a = pp_memories b;
  sp_portMemories : pp_portMemoryBindings a ≡ₚ pp_portMemoryBindings b;
  sp_layouts : pp_layouts a = pp_layouts b;
  sp_solutions : pp_layoutSolutions a = pp_layoutSolutions b;
  sp_computes : pp_computeBindings a = pp_computeBindings b;
}.

(** Hops and producer ports keep their order: they are the route and the operands
    of a concatenation. *)
Record SamePlanConnection (a b : PlanConnection) : Prop := {
  sl_id : pc_id a = pc_id b;
  sl_kind : pc_kind a = pc_kind b;
  sl_route : pc_route a ≡ₚ pc_route b;
  sl_engines : pc_engines a ≡ₚ pc_engines b;
  sl_gather : pc_gatherSemantics a = pc_gatherSemantics b;
  sl_axis : pc_concatAxis a = pc_concatAxis b;
  sl_producerPorts : pc_producerPorts a = pc_producerPorts b;
  sl_hops : hops a = hops b;
}.

Definition same_set {A} (R : A → A → Prop) (xs ys : list A) : Prop := ∃ l, xs ≡ₚ l ∧ Forall2 R l ys.

Record SamePlan (a b : CoveringPlan) : Prop := {
  sm_binding : sourceBindingHash a = sourceBindingHash b;
  sm_instances : instances a ≡ₚ instances b;
  sm_connections : connections a ≡ₚ connections b;
  sm_placements : same_set SamePlacement (placements a) (placements b);
  sm_connectionPlans : same_set SamePlanConnection (connectionPlans a) (connectionPlans b);
  sm_parameters : globalParameters a = globalParameters b;
}.

Lemma empty_perm {A} (xs ys : list A) : xs ≡ₚ ys → xs = [] ↔ ys = [].
Proof. intros Hp%Permutation_length. by split; intros Heq; rewrite Heq in Hp; [destruct ys|destruct xs]. Qed.

Lemma text_if_nonempty_perm {A} (xs ys : list A) (s t : string) : xs ≡ₚ ys → s = t →
  (if decide (xs = []) then "" else s) = (if decide (ys = []) then "" else t).
Proof.
  intros Hp ->. pose proof (empty_perm xs ys Hp) as He. destruct (decide (xs = [])), (decide (ys = [])); tauto.
Qed.

Lemma same_set_texts {A} (R : A → A → Prop) (f : A → string) xs ys sep :
  (∀ x y, R x y → f x = f y) → same_set R xs ys →
  joinStrings (sort_strings (f <$> xs)) sep = joinStrings (sort_strings (f <$> ys)) sep.
Proof.
  intros Hf (l & Hp & Hl). rewrite (sorted_texts_perm f xs l) by done.
  enough (f <$> l = f <$> ys) as -> by done. clear Hp.
  induction Hl as [|x y l ys Hxy Hl IH]; [done|]. by rewrite !fmap_cons, IH, (Hf x y).
Qed.

Lemma canonicalConnectionString_same a b : SameConnection a b →
  canonicalConnectionString a = canonicalConnectionString b.
Proof.
  intros []. unfold canonicalConnectionString.
  rewrite (joinNumbers_perm (consumers a) (consumers b)), (joinNumbers_perm (producers a) (producers b)) by done.
  rewrite (sorted_texts_perm mapString (consumerMaps a) (consumerMaps b)) by done.
  rewrite (sort_strings_perm (memoryRoute a) (memoryRoute b)) by done.
  rewrite (sort_strings_perm (transferEngines a) (transferEngines b)) by done.
  rewrite (text_if_nonempty_perm (consumerPorts a) (consumerPorts b) _
    ("|consumerPorts=" +:+ joinStrings (sort_strings (bracedPort <$> consumerPorts b)) ",")); [|done|].
  - congruence.
  - f_equal. by apply sorted_texts_perm.
Qed.

Lemma planPlacementString_same a b : SamePlacement a b → planPlacementString a = planPlacementString b.
Proof.
  intros []. unfold planPlacementString.
  rewrite (text_if_nonempty_perm (pp_portMemoryBindings a) (pp_portMemoryBindings b) _
    (":portmem=" +:+ portMemoryBindingsString (pp_portMemoryBindings b))); [congruence|done|].
  f_equal. unfold portMemoryBindingsString. by apply sorted_texts_perm.
Qed.

Lemma planConnectionString_same a b : SamePlanConnection a b → planConnectionString a = planConnectionString b.
Proof.
  intros [Hi Hk Hr He Hg Ha Hp Hh]. unfold planConnectionString.
  rewrite (sort_strings_perm (pc_route a) (pc_route b)), (sort_strings_perm (pc_engines a) (pc_engines b)) by done.
  by rewrite Hi, Hk, Hg, Ha, Hp, Hh.
Qed.

(** A plan's id does not depend on the order its instances, connections and
    placements were collected in, nor on scores, diagnostics, storage or steps. *)
Theorem computePlanId_same a b : SamePlan a b → computePlanId a = computePlanId b.
Proof.
  intros [Hb Hi Hc Hp Hl Hg]. unfold computePlanId, canonicalPlanString. rewrite Hb, Hg.
  rewrite (joinNumbers_perm _ _ Hi), (joinNumbers_perm _ _ Hc).
  rewrite (same_set_texts _ planPlacementString _ _ _ planPlacementString_same Hp).
  by rewrite (same_set_texts _ planConnectionString _ _ _ planConnectionString_same Hl).
Qed.

Theorem computeConnectionId_same a b : SameConnection a b → computeConnectionId a = computeConnectionId b.
Proof. intros Hs. unfold computeConnectionId. by rewrite (canonicalConnectionString_same a b Hs). Qed.
End identities.

(** ** Bound parameters
    [name=value] entries separated by [;] are read back when no name holds [=] and no
    symbolic value holds [;]. *)
Definition entryText (e : string * SearchValue) : string := e.1 +:+ "=" +:+ renderSearchValue e.2.
Definition without (c : Ascii.ascii) (s : string) : bool := str_all (λ x, bool_decide (x ≠ c)) s.
Definition PlainEntry (e : string * SearchValue) : Prop :=
  without "=" e.1 = true ∧ without ";" (renderSearchValue e.2) = true.
#[export] Instance PlainEntry_dec e : Decision (PlainEntry e).
Proof. unfold PlainEntry. apply _. Defined.
Definition PlainValues (values : gmap string SearchValue) : Prop := Forall PlainEntry (in_order values).

Lemma foldl_map {A B S} (f : A → B) (g : S → B → S) acc xs :
  foldl (λ s x, g s (f x)) acc xs = foldl g acc (f <$> xs).
Proof. revert acc. induction xs as [|x xs IH]; intros acc; [done|]. cbn. apply IH. Qed.

Lemma canonicalSearchValueString_join values :
  canonicalSearchValueString values = joinStrings (entryText <$> in_order values) ";".
Proof. apply (foldl_map entryText (λ out part, (if str_empty out then out else out +:+ ";") +:+ part)). Qed.

Lemma renderSearchValue_inj v w : renderSearchValue v = renderSearchValue w → v = w.
Proof.
  destruct v as [i|s], w as [j|t]; cbn; intros Heq; try done; injection Heq as Heq;
    rewrite !str_app_nil_l in Heq; [|by rewrite Heq]. f_equal. by apply (inj pretty).
Qed.

Lemma entry_terminated_inj xs ys : Forall PlainEntry xs → Forall PlainEntry ys →
  String.concat "" ((λ e, entryText e +:+ ";") <$> xs) = String.concat "" ((λ e, entryText e +:+ ";") <$> ys) →
  xs = ys.
Proof.
  revert ys. induction xs as [|[k v] xs IH]; intros [|[k' v'] ys] Hx Hy; rewrite ?fmap_cons, ?str_concat_cons; try done.
  1,2: unfold entryText; cbn [fst snd]; rewrite !str_app_assoc; intros Hl%(f_equal String.length);
    rewrite !str_app_length in Hl; cbn in Hl; lia.
  apply Forall_cons in Hx as [[Hk Hv] Hx], Hy as [[Hk' Hv'] Hy]. unfold entryText. cbn [fst snd] in *.
  rewrite !str_app_assoc. intros Heq.
  apply str_split_at in Heq as [-> Heq]; [|done..].
  apply str_split_at in Heq as [->%renderSearchValue_inj Heq]; [|done..]. f_equal. by apply IH.
Qed.

Lemma joinStrings_terminated xs : xs ≠ [] →
  joinStrings (entryText <$> xs) ";" +:+ ";" = String.concat "" ((λ e, entryText e +:+ ";") <$> xs).
Proof.
  destruct xs as [|x xs]; [done|]. intros _. rewrite !fmap_cons.
  assert (∀ y, entryText y ≠ "") as Hne.
  { intros [k v] Hl%(f_equal String.length). unfold entryText in Hl. rewrite !str_app_length in Hl. cbn in Hl. lia. }
  rewrite joinStrings_cons by done. revert x. induction xs as [|y xs IH]; intros x.
  - by rewrite str_concat_cons, !str_app_assoc, str_app_nil_r.
  - rewrite !fmap_cons, !str_concat_cons, !str_app_assoc. do 2 f_equal.
    specialize (IH y). rewrite str_concat_cons, !str_app_assoc in IH. done.
Qed.

(** The rendering of bound parameters is injective on plain values. *)
Theorem canonicalSearchValueString_injective values values' : PlainValues values → PlainValues values' →
  canonicalSearchValueString values = canonicalSearchValueString values' → values = values'.
Proof.
  intros Hv Hv'. rewrite !canonicalSearchValueString_join. intros Heq. apply in_order_inj.
  destruct (decide (in_order values = [])) as [He|He], (decide (in_order values' = [])) as [He'|He'].
  - congruence.
  - rewrite He in Heq. pose proof (joinStrings_terminated _ He') as Ht. rewrite <- Heq in Ht.
    destruct (in_order values') as [|[k v] es]; [done|]. apply (f_equal String.length) in Ht.
    rewrite fmap_cons, str_concat_cons in Ht. unfold entryText in Ht. rewrite !str_app_length in Ht. cbn in Ht. lia.
  - rewrite He' in Heq. pose proof (joinStrings_terminated _ He) as Ht. rewrite Heq in Ht.
    destruct (in_order values) as [|[k v] es]; [done|]. apply (f_equal String.length) in Ht.
    rewrite fmap_cons, str_concat_cons in Ht. unfold entryText in Ht. rewrite !str_app_length in Ht. cbn in Ht. lia.
  - apply entry_terminated_inj; [done|done|]. rewrite <- !joinStrings_terminated by done. by rewrite Heq.
Qed.

Lemma canonicalSearchValueString_injective_witness :
  PlainValues {["tile" := IntValue 8; "path" := StrValue "dram"]} ∧
  canonicalSearchValueString {["tile" := IntValue 8; "path" := StrValue "dram"]} = "path=s:dram;tile=i:8" ∧
  (canonicalSearchValueString {["tile" := IntValue 8; "path" := StrValue "dram"]} =
   canonicalSearchValueString {["path" := StrValue "dram"; "tile" := IntValue 8]} →
   ({["tile" := IntValue 8; "path" := StrValue "dram"]} : gmap string SearchValue) =
   {["path" := StrValue "dram"; "tile" := IntValue 8]}).
Proof.
  split; [|split; [vm_compute; reflexivity|intros Heq; apply canonicalSearchValueString_injective; [| |exact Heq]]];
    (unfold PlainValues; apply (bool_decide_unpack _); vm_compute; exact I).
Defined.

(** Beyond them it is not: one symbolic value prints like two parameters. *)
Lemma parameter_texts_collide :
  canonicalSearchValueString {["a" := StrValue "x;b=i:2"]} =
  canonicalSearchValueString {["a" := StrValue "x"; "b" := IntValue 2]}.
Proof. vm_compute. reflexivity. Qed.

(** Search points are ordered by their values, then by their names: two points are
    unordered only when they print the same values and share the name. *)
Lemma searchBindingLess_trichotomy a b :
  searchBindingLess a b = true ∨ searchBindingLess b a = true ∨
  canonicalSearchBindingString a = canonicalSearchBindingString b ∧ candidateId a = candidateId b.
Proof.
  unfold searchBindingLess. set (l := canonicalSearchBindingString a). set (r := canonicalSearchBindingString b).
  destruct (decide (l = r)) as [Heq|Hne].
  - rewrite !bool_decide_false by congruence. destruct (str_ltb_total (candidateId a) (candidateId b)) as [|[|]]; auto.
  - rewrite !bool_decide_true by congruence. destruct (str_ltb_total l r) as [|[|]]; tauto.
Qed.

Lemma symbolize_stringify_kind kind : symbolizeConnectionKind (stringifyConnectionKind kind) = Some kind.
Proof. by destruct kind. Qed.
Lemma symbolize_stringify_step kind : symbolizePlanStepKind (stringifyPlanStepKind kind) = Some kind.
Proof. by destruct kind. Qed.
Lemma symbolize_stringify_gather s : symbolizeGatherSemantics (stringifyGatherSemantics s) = Some s.
Proof. by destruct s. Qed.

(** ** A concrete plan *)
Section witness.
#[local] Existing Instance sample_types.
#[local] Existing Instance sample_text.
#[local] Instance sample_print : MLIRPrint := {| entriesOf _ := []; printMap _ := "()" |}.

Definition sample_plan (ids : list Z) : CoveringPlan :=
  mkPlan 0 7 "cand" ids [3; 4] [] [] ∅ zeroCost zeroCost Accumulation None [] "" 0 ""
    (mkPlanDiagnostics [] [] false [] false [] []) 0 false 0 0 0 0 0 [] [] [] [].

Lemma computePlanId_same_witness :
  SamePlan (sample_plan [1; 2]) (sample_plan [2; 1]) ∧
  computePlanId (sample_plan [1; 2]) = computePlanId (sample_plan [2; 1]).
Proof.
  assert (SamePlan (sample_plan [1; 2]) (sample_plan [2; 1])) as Hs.
  { split; try done; try (exists []; by split). apply perm_swap. }
  split; [exact Hs|apply (computePlanId_same _ _ Hs)].
Defined.
End witness.
