(* ===== verification/MappingTarget.v ===== *)
(** The target a plan is made for: include/LLK/Mapping/MappingTarget.h and
    lib/Mapping/MappingTarget.cpp, CodegenRequirements.h and CodegenRequirements.cpp,
    BoundaryRequirements.h.

    A target is a machine, its layout and rule registries and the emitter keys its
    package declares.  Verifying one checks, in rule order, that the rules name only
    ports, layouts, machine resources and emitters that exist.  The theorems: the check
    accepts exactly the adequate targets; in a verified target no constraint of a rule
    or of a layout can fail on the subject of a machine query; the declared emitter
    accepts exactly the bundles of its own key; the host check accepts exactly the
    hosts that meet the requirements. *)
From S2P Require Import Prelude MachineModel CostModel WorkloadGraph LlkMap LayoutConstraints MappingRules MappingPlan.
Import (hints) LlkMap.
Open Scope string_scope.
Open Scope Z_scope.

(** ** The target *)
Record FileMappingTarget := mkTarget {
  t_name : string;
  t_machine : MachineModel;
  t_layouts : LayoutRegistry;
  t_rules : RuleRegistry;
  emitterKeys : list string;
}.

Inductive target_error :=
| UndeclaredPredicatePort (rule : string) (input : bool) (index : Z)
| UndeclaredLayoutPort (rule port : string)
| UndeclaredLayout (rule layout : string)
| RuleQuery (rule message : string)
| UnknownRole (rule role : string)
| NotOffered (rule role k : string)
| UndeclaredEmitter (rule emitter : string)
| LayoutQuery (layout message : string).

Definition isKnownRole (r : string) : bool := contains ["executor"; "compute"; "memory"] r.

Definition machineOffers (machine : MachineModel) (r k : string) : bool :=
  if decide (r = "executor") then List.existsb (λ e, ownerMatches machine k (ex_id e)) (executors machine)
  else if decide (r = "compute") then List.existsb (λ c, bool_decide (cmp_kind c = k)) (computes machine)
  else if decide (r = "memory") then List.existsb (λ m, bool_decide (mem_kind m = k)) (memories machine)
  else false.

Definition resolveMachineQuery (machine : MachineModel) (callee subject : string) : option string :=
  if decide (callee = "machine.compute") then
    if List.existsb (λ c, bool_decide (cmp_kind c = subject)) (computes machine) then None
    else Some ("unknown compute kind '" +:+ subject +:+ "'")
  else if decide (callee = "machine.memory") then
    match findMemory machine subject with
    | Some _ => None
    | None => Some ("unknown memory '" +:+ subject +:+ "'")
    end
  else None.

Definition isKnownEmitter (target : FileMappingTarget) (key : string) : bool := contains (emitterKeys target) key.

Definition declaredInputs (rule : RuleDef) : nat := length (List.filter rport_isInput (r_ports rule)).
Definition declaredOutputs (rule : RuleDef) : nat := (length (r_ports rule) - declaredInputs rule)%nat.

Definition predicatePort (rule : RuleDef) (predicate : RulePredicate) : result target_error unit :=
  if negb (directionSet predicate) then Ok ()
  else
    let declared := if rp_isInput predicate then declaredInputs rule else declaredOutputs rule in
    fail_if (bool_decide (0 <= portIndex predicate ∧ Z.of_nat declared <= portIndex predicate))
      (UndeclaredPredicatePort (r_id rule) (rp_isInput predicate) (portIndex predicate)).

Definition layoutRequirement (target : FileMappingTarget) (rule : RuleDef) (requirement : RuleLayoutRequirement) :
    result target_error unit :=
  fail! (UndeclaredLayoutPort (r_id rule) (rl_port requirement))
    when negb (List.existsb (λ port, bool_decide (rport_name port = rl_port requirement)) (r_ports rule));
  fail_if (bool_decide (LayoutConstraints.find (t_layouts target) (layoutId requirement) = None))
    (UndeclaredLayout (r_id rule) (layoutId requirement)).

Definition queriesResolve (machine : MachineModel) (error : string → target_error) (constraint : Expr) :
    result target_error unit :=
  let message := resolveMachineQueries (resolveMachineQuery machine) constraint in
  fail_if (negb (str_empty message)) (error message).

Definition kindRequirement (machine : MachineModel) (rule : RuleDef) (requirement : KindRequirement) :
    result target_error unit :=
  fail! (UnknownRole (r_id rule) (role requirement)) when negb (isKnownRole (role requirement));
  fail_if (negb (machineOffers machine (role requirement) (kr_kind requirement)))
    (NotOffered (r_id rule) (role requirement) (kr_kind requirement)).

Definition verifyTargetRule (target : FileMappingTarget) (rule : RuleDef) : result target_error unit :=
  _ ← for_each (predicatePort rule) (predicates rule);
  _ ← for_each (layoutRequirement target rule) (r_layoutRequirements rule);
  _ ← for_each (queriesResolve (t_machine target) (RuleQuery (r_id rule))) (r_constraints rule);
  _ ← for_each (kindRequirement (t_machine target) rule) (kindRequirements rule);
  fail_if (negb (isKnownEmitter target (emitter rule))) (UndeclaredEmitter (r_id rule) (emitter rule)).

Definition verifyTargetLayout (target : FileMappingTarget) (layout : LayoutDef) : result target_error unit :=
  for_each (queriesResolve (t_machine target) (LayoutQuery (id layout))) (constraints layout).

Definition verifyMappingTarget (target : FileMappingTarget) : result target_error unit :=
  _ ← for_each (verifyTargetRule target) (t_rules target);
  for_each (verifyTargetLayout target) (t_layouts target).

(** ** Loading

    The files are read by the caller: [machine] is what the machine file loads to.  An
    absent result of a parse is the one no parse has. *)
Inductive load_error :=
| MachineFile (message : string)
| LayoutFile (e : lex_failure)
| RuleFile (e : lex_failure)
| Unverified (e : target_error)
| OutOfFuel.

Definition loadMappingTarget (name : string) (machine : result string MachineModel)
    (layoutText layoutPath ruleText rulePath : string) (keys : list string) : result load_error FileMappingTarget :=
  match machine with
  | Err e => Err (MachineFile e)
  | Ok machine =>
    match parseLayoutText layoutText layoutPath with
    | None => Err OutOfFuel
    | Some (Err e) => Err (LayoutFile e)
    | Some (Ok layouts) =>
      match parseRuleText ruleText rulePath with
      | None => Err OutOfFuel
      | Some (Err e) => Err (RuleFile e)
      | Some (Ok rules) =>
        let target := mkTarget name machine layouts rules keys in
        match verifyMappingTarget target with
        | Err e => Err (Unverified e)
        | Ok _ => Ok target
        end
      end
    end
  end.

(** ** Emitters *)
Record DeclaredTargetEmitter := mkEmitter { key_ : string; declaredKeys_ : list string }.

Definition createEmitter (target : FileMappingTarget) (key : string) : option DeclaredTargetEmitter :=
  if negb (isKnownEmitter target key) then None else Some (mkEmitter key (emitterKeys target)).

(** The one without a key: the first declared. *)
Definition createDefaultEmitter (target : FileMappingTarget) : option DeclaredTargetEmitter :=
  match emitterKeys target with
  | [] => None
  | key :: _ => createEmitter target key
  end.

Inductive emitter_error :=
| NotDeclared (key : string)
| OtherEmitter (key handles : string)
| BadParameter (name : string).

Section emitters.
Context `{MLIRPrint}.

Definition bundleParameter (entry : string * AttributeView) : result emitter_error unit :=
  match entry.2 with
  | IntegerAttrView _ | StringAttrView _ => Ok ()
  | OtherAttrView _ => Err (BadParameter entry.1)
  end.

Definition verifyBundle (e : DeclaredTargetEmitter) (bundle : TargetBundle) : result emitter_error unit :=
  fail! (NotDeclared (emitterKey bundle))
    when negb (contains (declaredKeys_ e) (emitterKey bundle));
  fail! (OtherEmitter (emitterKey bundle) (key_ e)) when bool_decide (emitterKey bundle ≠ key_ e);
  match tb_parameters bundle with
  | None => Ok ()
  | Some parameters => for_each bundleParameter (entriesOf parameters)
  end.
End emitters.

(** *** Boundary behaviours: the default of [TargetEmitter::verifyBoundary]. *)
Record BoundaryRequirements := mkBoundary { boundedLoad : bool; boundedStore : bool; partialK : bool }.
Definition any (r : BoundaryRequirements) : bool := boundedLoad r || boundedStore r || partialK r.

Definition appendBehaviour (text : string) (entry : bool * string) : string :=
  if negb entry.1 then text else (if str_empty text then "" else text +:+ ", ") +:+ entry.2.
Definition renderBoundaryRequirements (r : BoundaryRequirements) : string :=
  let text := foldl appendBehaviour ""
    [(boundedLoad r, "bounded_load"); (boundedStore r, "bounded_store"); (partialK r, "partial_k")] in
  if str_empty text then "none" else text.

Definition verifyBoundary (e : DeclaredTargetEmitter) (requirements : BoundaryRequirements) : result string unit :=
  if negb (any requirements) then Ok ()
  else Err ("boundary_unsupported: emitter '" +:+ key_ e +:+ "' has no boundary implementation for " +:+
            renderBoundaryRequirements requirements).

(** ** Registered targets

    The factories by name; the names in the message are those of the map, in an order
    that is the hash table's. *)
Section factories.
Context {Factory : Type}.
Definition registerMappingTarget (factories : gmap string Factory) (name : string) (factory : Factory) :
    gmap string Factory := <[name := factory]> factories.
Definition isRegisteredMappingTarget (factories : gmap string Factory) (name : string) : bool :=
  bool_decide (is_Some (factories !! name)).
Definition createRegisteredMappingTarget {A} (factories : gmap string Factory)
    (run : Factory → result string A) (name : string) : result (gset string + string) A :=
  match factories !! name with
  | None => Err (inl (dom factories))
  | Some factory => match run factory with Ok a => Ok a | Err e => Err (inr e) end
  end.
End factories.

(** ** The host *)
Record TargetCodegenRequirements := mkCodegen {
  architecture : string;
  cpu : string;
  requiredFeatures : list string;
  vectorLengthBits : option Z;
  streamingVectorLengthBits : option Z;
  invocationAttributes : list string;
}.

Inductive host_error :=
| WrongArchitecture (required host : string)
| MissingFeature (feature : string)
| LengthUnknown (streaming : bool) (required : Z)
| LengthDiffers (streaming : bool) (host required : Z).

Definition checkFeature (hostFeatures : gmap string bool) (feature : string) : result host_error unit :=
  fail_if (bool_decide (hostFeatures !! feature ≠ Some true)) (MissingFeature feature).

Definition checkLength (streaming : bool) (required host : option Z) : result host_error unit :=
  match required with
  | None => Ok ()
  | Some bits =>
    match host with
    | None => Err (LengthUnknown streaming bits)
    | Some actual => fail_if (bool_decide (actual ≠ bits)) (LengthDiffers streaming actual bits)
    end
  end.

Definition checkHostRequirements (requirements : TargetCodegenRequirements) (hostArchitecture : string)
    (hostFeatures : gmap string bool) (hostVectorLengthBits hostStreamingVectorLengthBits : option Z) :
    result host_error unit :=
  fail! (WrongArchitecture (architecture requirements) hostArchitecture)
    when negb (str_empty (architecture requirements)) && bool_decide (architecture requirements ≠ hostArchitecture);
  _ ← for_each (checkFeature hostFeatures) (requiredFeatures requirements);
  _ ← checkLength false (vectorLengthBits requirements) hostVectorLengthBits;
  checkLength true (streamingVectorLengthBits requirements) hostStreamingVectorLengthBits.

(** The low sixteen bits are a length in bytes. *)
Definition vectorLengthBitsFromPrctl (value : Z) : Z := Z.land value 65535 * 8.

(** ** Adequacy: what verifying a target promises *)

(** The queries of an expression whose subject is a literal, outermost first. *)
Fixpoint literalQueries (e : Expr) : list (string * string) :=
  let inner := concat (List.map literalQueries (operands e)) in
  match operands e with
  | [subject] =>
    if decide (kind e = Call ∧ kind subject = StringLit) then
      if isMachineCall (text e) then (text e, text subject) :: inner else inner
    else inner
  | _ => inner
  end.

Definition exists_subject (machine : MachineModel) (query : string * string) : Prop :=
  if decide (query.1 = "machine.compute") then ∃ c, c ∈ computes machine ∧ cmp_kind c = query.2
  else if decide (query.1 = "machine.memory") then ∃ m, m ∈ memories machine ∧ mem_id m = query.2
  else True.

Inductive offered (machine : MachineModel) (k : string) : string → Prop :=
| offered_executor e : e ∈ executors machine → ownerMatches machine k (ex_id e) = true → offered machine k "executor"
| offered_compute c : c ∈ computes machine → cmp_kind c = k → offered machine k "compute"
| offered_memory m : m ∈ memories machine → mem_kind m = k → offered machine k "memory".

Definition portsOf (rule : RuleDef) (input : bool) : list RulePort :=
  List.filter (λ p, Bool.eqb (rport_isInput p) input) (r_ports rule).

Record AdequateRule (target : FileMappingTarget) (rule : RuleDef) : Prop := {
  ar_ports : ∀ q, q ∈ predicates rule → directionSet q = true →
    portIndex q < Z.of_nat (length (portsOf rule (rp_isInput q)));
  ar_layouts : ∀ q, q ∈ r_layoutRequirements rule →
    rl_port q ∈ rport_name <$> r_ports rule ∧ layoutId q ∈ id <$> t_layouts target;
  ar_queries : ∀ e q, e ∈ r_constraints rule → q ∈ literalQueries e → exists_subject (t_machine target) q;
  ar_kinds : ∀ q, q ∈ kindRequirements rule → offered (t_machine target) (kr_kind q) (role q);
  ar_emitter : emitter rule ∈ emitterKeys target;
}.

Record AdequateTarget (target : FileMappingTarget) : Prop := {
  at_rules : ∀ rule, rule ∈ t_rules target → AdequateRule target rule;
  at_layouts : ∀ layout e q, layout ∈ t_layouts target → e ∈ constraints layout → q ∈ literalQueries e →
    exists_subject (t_machine target) q;
}.

(** *** The parts of the check *)
Lemma existsb_elem {A} (p : A → bool) xs : List.existsb p xs = true ↔ ∃ x, x ∈ xs ∧ p x = true.
Proof.
  rewrite List.existsb_exists. split; intros (x & Hx & Hp); exists x; split; try done; by apply list_elem_of_In.
Qed.

Lemma findMemory_some_iff machine i : (∃ m, findMemory machine i = Some m) ↔ ∃ m, m ∈ memories machine ∧ mem_id m = i.
Proof.
  unfold findMemory, findById. split.
  - intros [m Hm]. destruct (list_find _ _) as [[k m']|] eqn:Hf; [|done]. injection Hm as ->.
    apply list_find_Some in Hf as (Hk & Hid & _). exists m. split; [by eapply list_elem_of_lookup_2|done].
  - intros (m & Hin & Hid). destruct (list_find_elem_of (λ n, mem_id n = i) _ m Hin Hid) as [[k m'] Hf].
    exists m'. by rewrite Hf.
Qed.

Lemma resolveMachineQuery_none machine q :
  resolveMachineQuery machine q.1 q.2 = None ↔ exists_subject machine q.
Proof.
  unfold resolveMachineQuery, exists_subject. destruct (decide _).
  { destruct (List.existsb _ _) eqn:He.
    - apply existsb_elem in He as (c & Hc & Hk%bool_decide_eq_true). split; [|done]. intros _. by exists c.
    - split; [done|]. intros (c & Hc & Hk). rewrite <- not_true_iff_false in He. destruct He. apply existsb_elem.
      exists c. by rewrite bool_decide_true. }
  destruct (decide _); [|done]. rewrite <- findMemory_some_iff. destruct (findMemory _ _).
  - split; [|done]. intros _. by eexists.
  - split; [done|]. by intros [? ?].
Qed.
Lemma resolveMachineQuery_message machine callee subject : resolveMachineQuery machine callee subject ≠ Some "".
Proof. unfold resolveMachineQuery. repeat case_match; discriminate. Qed.

Lemma str_empty_iff s : str_empty s = true ↔ s = "".
Proof. unfold str_empty. by rewrite bool_decide_eq_true. Qed.

(** The first message of the operands is empty when they all resolve. *)
Lemma resolveMachineQueries_empty resolver e : (∀ c s, resolver c s ≠ Some "") →
  resolveMachineQueries resolver e = "" ↔ Forall (λ q : string * string, resolver q.1 q.2 = None) (literalQueries e).
Proof.
  intros Hr. induction e as [k i t ops IH] using Expr_deep_ind.
  assert ((fix go (es : list Expr) : string := match es with
             | [] => ""
             | e :: es => let message := resolveMachineQueries resolver e in
                          if str_empty message then go es else message
             end) ops = "" ↔
          Forall (λ q : string * string, resolver q.1 q.2 = None) (concat (List.map literalQueries ops))) as Hinner.
  { induction IH as [|e es [He _] _ IHes]; [done|]. cbn [List.map concat]. rewrite Forall_app, <- He, <- IHes. cbv zeta.
    destruct (str_empty _) eqn:Hs.
    - apply str_empty_iff in Hs. rewrite Hs. tauto.
    - split; [|by intros [-> _]]. intros Hm. apply str_empty_iff in Hm. congruence. }
  cbn [resolveMachineQueries literalQueries operands kind text]. cbv zeta.
  destruct ops as [|subject [|]]; try done. change (contains _ t) with (isMachineCall t).
  destruct (decide _); [|done]. destruct (isMachineCall t); [|done]. rewrite Forall_cons. cbn [fst snd].
  destruct (resolver t (text subject)) as [m|] eqn:Hm; [|tauto].
  split; [|by intros []]. intros ->. by destruct (Hr t (text subject)).
Qed.

Lemma queriesResolve_ok machine error e :
  queriesResolve machine error e = Ok tt ↔ ∀ q, q ∈ literalQueries e → exists_subject machine q.
Proof.
  unfold queriesResolve. rewrite fail_if_ok, negb_false_iff, str_empty_iff.
  rewrite resolveMachineQueries_empty by apply resolveMachineQuery_message. rewrite Forall_forall.
  by setoid_rewrite resolveMachineQuery_none.
Qed.

Lemma machineOffers_iff machine r k : machineOffers machine r k = true ↔ offered machine k r.
Proof.
  unfold machineOffers. split.
  - destruct (decide (r = "executor")) as [->|]; [intros (e & ? & ?)%existsb_elem; by econstructor|].
    destruct (decide (r = "compute")) as [->|];
      [intros (e & ? & ?%bool_decide_eq_true)%existsb_elem; by econstructor|].
    destruct (decide (r = "memory")) as [->|]; [|done].
    intros (e & ? & ?%bool_decide_eq_true)%existsb_elem; by econstructor.
  - destruct 1 as [e He Hk|e He Hk|e He Hk]; cbn; apply existsb_elem; exists e; [done|by rewrite bool_decide_true..].
Qed.
Lemma offered_known machine r k : offered machine k r → isKnownRole r = true.
Proof. by destruct 1. Qed.

Lemma declared_ports rule (input : bool) :
  (if input then declaredInputs rule else declaredOutputs rule) = length (portsOf rule input).
Proof.
  unfold declaredOutputs, declaredInputs, portsOf.
  assert (∀ ps : list RulePort, length ps = (length (List.filter rport_isInput ps) +
    length (List.filter (λ p, Bool.eqb (rport_isInput p) false) ps))%nat) as Hsum.
  { induction ps as [|[n []] ps IH]; cbn in *; lia. }
  destruct input; [f_equal; apply List.filter_ext; by intros [n []]|]. specialize (Hsum (r_ports rule)). lia.
Qed.

Lemma predicatePort_ok rule q : predicatePort rule q = Ok tt ↔
  (directionSet q = true → portIndex q < Z.of_nat (length (portsOf rule (rp_isInput q)))).
Proof.
  unfold predicatePort. destruct (directionSet q); cbn [negb]; [|done]. rewrite declared_ports.
  rewrite fail_if_ok, bool_decide_eq_false. split; [|lia]. intros Hn _. lia.
Qed.

Lemma layoutRequirement_ok target rule q : layoutRequirement target rule q = Ok tt ↔
  rl_port q ∈ rport_name <$> r_ports rule ∧ layoutId q ∈ id <$> t_layouts target.
Proof.
  unfold layoutRequirement. rewrite fail_then_ok, fail_if_ok, negb_false_iff, bool_decide_eq_false, find_ids, existsb_elem.
  rewrite (list_elem_of_fmap rport_name). split.
  - intros [(p & Hp & He%bool_decide_eq_true) Hl]. split; [by exists p|]. by apply dec_stable.
  - intros [(p & -> & Hp) Hl]. split; [|tauto]. exists p. by rewrite bool_decide_true.
Qed.

Lemma kindRequirement_ok machine rule q :
  kindRequirement machine rule q = Ok tt ↔ offered machine (kr_kind q) (role q).
Proof.
  unfold kindRequirement. rewrite fail_then_ok, fail_if_ok, !negb_false_iff, machineOffers_iff.
  split; [by intros []|]. intros Ho. split; [by eapply offered_known|done].
Qed.

Lemma queries_ok machine error es : for_each (queriesResolve machine error) es = Ok tt ↔
  ∀ e q, e ∈ es → q ∈ literalQueries e → exists_subject machine q.
Proof. rewrite for_each_ok. setoid_rewrite queriesResolve_ok. naive_solver. Qed.

Lemma verifyTargetRule_ok target rule : verifyTargetRule target rule = Ok tt ↔ AdequateRule target rule.
Proof.
  unfold verifyTargetRule. rewrite !seq_ok, fail_if_ok, negb_false_iff, queries_ok, !for_each_ok.
  setoid_rewrite predicatePort_ok. setoid_rewrite layoutRequirement_ok. setoid_rewrite kindRequirement_ok.
  unfold isKnownEmitter. rewrite contains_true. split; [intros (? & ? & ? & ? & ?); by split|by intros []].
Qed.

Lemma verifyMappingTarget_ok target : verifyMappingTarget target = Ok tt ↔ AdequateTarget target.
Proof.
  unfold verifyMappingTarget, verifyTargetLayout. rewrite seq_ok, !for_each_ok. setoid_rewrite verifyTargetRule_ok.
  setoid_rewrite queries_ok. split; [intros []; split; eauto|intros []; eauto].
Qed.

(** Verifying a target is exact: it succeeds precisely on the targets whose rules
    have a declared port for every port predicate, declared ports and existing layouts
    in their layout requirements, existing subjects in every literal machine query,
    machine resources for every kind they require, and a declared emitter, and whose
    layouts query only what the machine has. *)
Theorem verifyMappingTarget_iff target : verifyMappingTarget target = Ok tt ↔ AdequateTarget target.
Proof. exact (verifyMappingTarget_ok target). Qed.

(** A refusal is the first violation in rule order: every rule before the reported one
    is adequate, and layouts are reported only when all the rules are. *)
Lemma verifyMappingTarget_first target e : verifyMappingTarget target = Err e →
  (∃ before rule after, t_rules target = (before ++ rule :: after)%list ∧ verifyTargetRule target rule = Err e ∧
     ∀ r, r ∈ before → AdequateRule target r) ∨
  ((∀ r, r ∈ t_rules target → AdequateRule target r) ∧
   ∃ layout, layout ∈ t_layouts target ∧ verifyTargetLayout target layout = Err e).
Proof.
  intros [Hr|([] & Hr & Hl)]%bind_err.
  - apply for_each_err in Hr as (before & rule & after & -> & He & Hb). left. exists before, rule, after.
    split; [done|]. split; [done|]. intros r Hin. apply verifyTargetRule_ok. auto.
  - right. apply for_each_err in Hl as (before & layout & after & Hl & He & _). split.
    + intros r Hin. apply verifyTargetRule_ok. by apply (proj1 (for_each_ok _ _) Hr).
    + exists layout. split; [rewrite Hl; set_solver|done].
Qed.

(** ** Evaluating the constraints of a verified target *)

(** The errors about the subject of a query. *)
Definition isUnknownSubject (e : eval_error) : bool :=
  match e with UnknownComputeKind _ | UnknownMemory _ | MalformedHandle => true | _ => false end.

(** Every machine query has a literal subject. *)
Fixpoint literalSubjects (e : Expr) : bool :=
  (match operands e with
   | [subject] => negb (bool_decide (kind e = Call) && isMachineCall (text e)) ||
                  bool_decide (kind subject = StringLit ∨ kind subject = IntLit)
   | _ => true
   end) && forallb literalSubjects (operands e).

Definition goodValue (machine : MachineModel) (v : EvalValue) : Prop :=
  match v with
  | VHandle h => ∃ callee subject, isMachineCall callee = true ∧ h = callee +:+ ":" +:+ subject ∧
                   exists_subject machine (callee, subject)
  | _ => True
  end.

Definition answers {A} (good : A → Prop) (m : eval A) : Prop :=
  ∀ b, match (m b).1 with Ok a => good a | Err e => isUnknownSubject e = false end.

Lemma answers_ret {A} (good : A → Prop) a : good a → answers good (mret a).
Proof. by intros H b. Qed.
Lemma answers_error {A} (good : A → Prop) e : isUnknownSubject e = false → answers good (evalError e).
Proof. by intros H b. Qed.
Lemma answers_bind {A B} (P : A → Prop) (Q : B → Prop) (m : eval A) (f : A → eval B) :
  answers P m → (∀ a, P a → answers Q (f a)) → answers Q (m ≫= f).
Proof.
  intros Hm Hf b. unfold mbind, eval_bind. specialize (Hm b). destruct (m b) as [[a|e] c]; [by apply Hf|done].
Qed.
Create HintDb answers.
#[local] Hint Resolve answers_ret answers_error : answers.

(** Splits on the tests of an evaluation, up to its values and errors. *)
Ltac answer :=
  repeat (first
    [ assumption | exact I
    | match goal with
      | |- answers _ (match ?x with _ => _ end) => destruct x eqn:?
      | |- answers _ (if ?x then _ else _) => destruct x eqn:?
      | |- answers _ (let _ := _ in _) => cbv zeta
      | |- answers _ (mret _) => apply answers_ret
      | |- answers _ (evalError _) => apply answers_error; reflexivity
      end ]).

Section evaluation.
Variable machine : MachineModel.
Notation answered := (answers (goodValue machine)).

Lemma answers_makeInt z : answered (makeInt z).
Proof. unfold makeInt. answer. Qed.
Lemma answers_evalBinary op l r : answered (evalBinary op l r).
Proof. unfold evalBinary, makeBool, divide, remainder. pose proof answers_makeInt. answer; auto. Qed.
Lemma answers_evalFunction f l r : answered (evalFunction f l r).
Proof. unfold evalFunction, divide, remainder. pose proof answers_makeInt. answer; auto. Qed.
Lemma answers_valueOf v : goodValue machine (valueOf v).
Proof. by destruct v. Qed.

(** The subject of a handle is read back whole. *)
Lemma handle_subject callee subject : isMachineCall callee = true →
  str_find ":" (callee +:+ ":" +:+ subject) = Some (String.length callee) ∧
  str_drop (S (String.length callee)) (callee +:+ ":" +:+ subject) = subject ∧
  String.prefix "machine.compute:" (callee +:+ ":" +:+ subject) = bool_decide (callee = "machine.compute").
Proof.
  intros [->| ->%list_elem_of_singleton]%contains_true%elem_of_cons; cbn; rewrite ?(proj2 (prefix_correct _ _));
    by destruct subject.
Qed.

Lemma answers_evalMember member handle arg : goodValue machine (VHandle handle) →
  (∀ m, arg = Some m → answered m) → answered (evalMember machine member handle arg).
Proof.
  intros (callee & subject & Hc & -> & Hs) Ha. unfold evalMember.
  destruct (handle_subject callee subject Hc) as (-> & -> & ->). cbv zeta. pose proof answers_makeInt.
  unfold exists_subject in Hs. cbn [fst snd] in Hs.
  destruct (decide (member = "count")).
  { case_bool_decide as Hk; cbn [negb]; [|answer]. rewrite decide_True in Hs by done. case_bool_decide as Hn; [|auto].
    destruct Hs as (c & Hin & Hkind). exfalso. destruct (filter _ _) eqn:Hf; [|cbn in Hn; lia].
    apply (filter_nil_not_elem_of _ _ c Hf) in Hin; done. }
  destruct (decide (member = "lanes")).
  { destruct (negb _); [answer|]. destruct arg as [m|]; [|answer]. eapply answers_bind; [by apply Ha|].
    intros [| |] _; answer. }
  destruct (contains _ member); [|answer]. case_bool_decide as Hk; [answer|].
  assert (callee = "machine.memory") as ->.
  { apply contains_true in Hc. set_unfold in Hc. tauto. }
  cbn in Hs. apply findMemory_some_iff in Hs as [m ->]. answer.
Qed.

Lemma answers_quantifierLoop isForall body domain : (∀ v, answered (body v)) →
  answered (quantifierLoop isForall body domain).
Proof.
  intros Hb. induction domain as [|v domain IH]; [done|]. intros b. rewrite quantifierLoop_cons.
  destruct (budget_step b) as [[] c]; [|done]. eapply answers_bind; [apply Hb|]. intros [i| |] _; cbn; unfold makeBool; answer.
Qed.

Lemma answers_evalDomain env domain operand : answered operand → answers (λ _, True) (evalDomain env domain operand).
Proof.
  intros Ho. unfold evalDomain. answer. eapply answers_bind; [exact Ho|]. intros [| |] _; answer.
  apply answers_error. by destruct (bool_decide (ownerClass _ _ = _)).
Qed.

Lemma literal_operands k i t ops : literalSubjects (mkExpr k i t ops) = true →
  (∀ q, q ∈ literalQueries (mkExpr k i t ops) → exists_subject machine q) →
  (∀ e, e ∈ ops → literalSubjects e = true ∧ ∀ q, q ∈ literalQueries e → exists_subject machine q).
Proof.
  intros [_ Hl]%andb_true_iff Hq e He. cbn [operands] in Hl. rewrite forallb_forall in Hl.
  split; [by apply Hl, list_elem_of_In|]. intros q Hin. apply Hq.
  assert (q ∈ concat (List.map literalQueries ops)) as Hc.
  { apply list_elem_of_In, List.in_concat. exists (literalQueries e). split; [by apply List.in_map, list_elem_of_In|].
    by apply list_elem_of_In. }
  cbn [literalQueries operands kind text]. destruct ops as [|s [|]]; [done| |done].
  repeat case_decide; repeat case_match; try done; by right.
Qed.

Lemma answers_evalImpl env e : LlkMap.machine env = machine → literalSubjects e = true →
  (∀ q, q ∈ literalQueries e → exists_subject machine q) → ∀ bindings, answered (evalImpl env bindings e).
Proof.
  intros Hm. induction e as [k i t ops IH] using Expr_deep_ind. intros Hl Hq.
  pose proof (literal_operands k i t ops Hl Hq) as Hops.
  assert (∀ e, e ∈ ops → ∀ bindings, answered (evalImpl env bindings e)) as Hall.
  { intros e He. rewrite Forall_forall in IH. destruct (Hops e He). by apply (proj1 (IH e He)). }
  assert (∀ d e, d ∈ ops → e ∈ operands d → ∀ bindings, answered (evalImpl env bindings e)) as Hdeep.
  { intros d e Hd He. rewrite Forall_forall in IH. destruct (IH d Hd) as [_ Hd']. rewrite Forall_forall in Hd'.
    destruct d as [k' i' t' ops']. destruct (Hops _ Hd) as [H1 H2].
    destruct (literal_operands k' i' t' ops' H1 H2 e He). by apply (Hd' e He). }
  intros bindings. destruct k; cbn [evalImpl kind text operands intValue].
  - answer.
  - answer.
  - unfold evalIdent. answer. apply answers_valueOf.
  - destruct (isMachineCall t) eqn:Hc.
    + destruct ops as [|a [|]]; [answer| |answer]. cbn [literalSubjects operands kind text] in Hl.
      rewrite bool_decide_true, Hc in Hl by done. cbn [negb orb andb] in Hl.
      apply andb_true_iff in Hl as [Ha%bool_decide_eq_true _]. destruct a as [ka ia ta opsa]. cbn [kind] in Ha.
      destruct Ha as [->| ->]; cbn [evalImpl kind text intValue]; [|by intros b].
      intros b. cbn. exists t, ta. split; [done|]. split; [done|]. apply Hq.
      cbn [literalQueries operands kind text]. rewrite decide_True, Hc by done. left.
    + destruct ops as [|a [|b [|]]]; [answer..| |answer].
      eapply answers_bind; [apply Hall; set_solver|]. intros va _.
      eapply answers_bind; [apply Hall; set_solver|]. intros vb _. apply answers_evalFunction.
  - destruct ops as [|r args]; [answer|]. eapply answers_bind; [apply Hall; set_solver|].
    intros [| |h] Hg; [answer..|]. rewrite Hm. apply answers_evalMember; [done|]. intros m Ha.
    destruct args as [|a [|]]; [done| |done]. injection Ha as <-. apply Hall. set_solver.
  - destruct ops as [|a ops]; [answer|]. eapply answers_bind; [apply Hall; set_solver|].
    intros [| |] _; unfold makeBool; answer. apply answers_makeInt.
  - destruct ops as [|a [|b ops]]; [answer..|]. eapply answers_bind; [apply Hall; set_solver|]. intros va _.
    eapply answers_bind; [apply Hall; set_solver|]. intros vb _. apply answers_evalBinary.
  - destruct ops as [|v [|d [|body ops]]]; [answer..|]. eapply answers_bind.
    + apply answers_evalDomain. destruct (operands d) as [|o ?] eqn:Hd; [answer|].
      apply (Hdeep d); [set_solver|rewrite Hd; left].
    + intros values _. apply answers_quantifierLoop. intros x. apply Hall. set_solver.
Qed.
End evaluation.

(** What a constraint of a target may name besides its subjects. *)
Inductive targetConstraint (target : FileMappingTarget) : gset string → Expr → Prop :=
| rule_constraint rule e : rule ∈ t_rules target → e ∈ r_constraints rule →
    targetConstraint target (ruleParamNames rule) e
| layout_constraint layout e : layout ∈ t_layouts target → e ∈ constraints layout →
    targetConstraint target (paramNames layout) e.

Lemma targetConstraint_queries target names e q : AdequateTarget target → targetConstraint target names e →
  q ∈ literalQueries e → exists_subject (t_machine target) q.
Proof.
  intros [Hr Hl] [rule e' Hin He|layout e' Hin He] Hq; [by eapply ar_queries; eauto|by eapply Hl].
Qed.

Lemma loadMappingTarget_ok name machine lt lp rt rp keys target :
  loadMappingTarget name machine lt lp rt rp keys = Ok target →
  AdequateTarget target ∧ wfRules (t_rules target) ∧ wfRegistry (t_layouts target).
Proof.
  unfold loadMappingTarget. destruct machine as [machine|]; [|done].
  pose proof (parse_layouts_wf lt lp) as Hl. pose proof (MappingRules.parse_wf rt rp) as Hr.
  destruct (parseLayoutText lt lp) as [[layouts|]|]; [|done..].
  destruct (parseRuleText rt rp) as [[rules|]|]; [|done..].
  destruct (verifyMappingTarget _) as [[]|] eqn:Hv; [|done]. intros [= <-].
  split; [by apply verifyMappingTarget_ok|done].
Qed.

Lemma targetConstraint_known target names e : wfRules (t_rules target) → wfRegistry (t_layouts target) →
  targetConstraint target names e → wf e = true ∧ complaint (names ∪ {["rank"; "element_type"]}) e = None.
Proof.
  intros [_ Hr] [_ Hl] [rule e' Hin He|layout e' Hin He].
  - rewrite Forall_forall in Hr. destruct (wf_body _ (Hr rule Hin)) as [_ _ _ _ _ Hc _ _ _ _ _].
    rewrite Forall_forall in Hc. auto.
  - rewrite Forall_forall in Hl. destruct (Hl layout Hin) as [_ _ _ Hc _ _]. rewrite Forall_forall in Hc. auto.
Qed.

(** Nothing in a loaded target fails on its own words: evaluating a constraint of one
    of its rules or layouts on its machine, with the declared parameters bound, never
    ends in an unknown identifier, function, operator or query, in a missing operand,
    or, when the subjects of its machine queries are literals, in a compute kind or a
    memory the machine does not have. *)
Theorem loaded_target_constraints name machine lt lp rt rp keys target names e env bindings :
  loadMappingTarget name machine lt lp rt rp keys = Ok target → targetConstraint target names e →
  LlkMap.machine env = t_machine target → names ⊆ dom bindings →
  match evaluateExpr env bindings e with
  | Ok _ => True
  | Err err => isUnknown err = false ∧ (literalSubjects e = true → isUnknownSubject err = false)
  end.
Proof.
  intros (Ha & Hr & Hl)%loadMappingTarget_ok Hc Hm Hn.
  destruct (targetConstraint_known target names e Hr Hl Hc) as [Hw Hk].
  assert (covered (names ∪ {["rank"; "element_type"]}) bindings) as Hcov by (unfold covered; set_solver).
  pose proof (known_evalImpl env e _ bindings Hw Hk Hcov (mkBudget kDefaultQuantifierIterations 0 false)) as Hkn.
  assert (literalSubjects e = true → answers (goodValue (t_machine target)) (evalImpl env bindings e)) as Han.
  { intros Hs. apply answers_evalImpl; [done..|]. intros q. by eapply targetConstraint_queries. }
  unfold evaluateExpr. destruct (evalImpl _ _ _ _) as [[v|err] b] eqn:He; [by destruct (exhausted b)|].
  split; [done|]. intros Hs. specialize (Han Hs (mkBudget kDefaultQuantifierIterations 0 false)). by rewrite He in Han.
Qed.

(** ** Emitters *)
Section emitter_theorems.
Context `{MLIRPrint}.

Definition typedParameter (entry : string * AttributeView) : Prop :=
  match entry.2 with OtherAttrView _ => False | _ => True end.

Lemma bundleParameter_ok entry : bundleParameter entry = Ok tt ↔ typedParameter entry.
Proof. unfold bundleParameter, typedParameter. by destruct entry.2. Qed.

(** The emitter of a declared key accepts exactly the bundles of that key whose
    parameters are integers and strings; there is none for another key. *)
Lemma createEmitter_verifies target key bundle :
  (∃ e, createEmitter target key = Some e ∧ verifyBundle e bundle = Ok tt) ↔
  key ∈ emitterKeys target ∧ emitterKey bundle = key ∧
  ∀ parameters entry, tb_parameters bundle = Some parameters → entry ∈ entriesOf parameters → typedParameter entry.
Proof.
  unfold createEmitter, isKnownEmitter. destruct (contains _ key) eqn:Hk; cbn [negb].
  - apply contains_true in Hk.
    assert (verifyBundle (mkEmitter key (emitterKeys target)) bundle = Ok tt ↔ emitterKey bundle = key ∧
      ∀ parameters entry, tb_parameters bundle = Some parameters → entry ∈ entriesOf parameters → typedParameter entry)
      as He; [|split; [intros (e & [= <-] & Hv); tauto|intros (_ & Hv); eexists; split; [done|tauto]]].
    unfold verifyBundle. rewrite !fail_then_ok, negb_false_iff, contains_true, bool_decide_eq_false. cbn [declaredKeys_ key_].
    assert (match tb_parameters bundle with None => Ok () | Some p => for_each bundleParameter (entriesOf p) end = Ok () ↔
      ∀ parameters entry, tb_parameters bundle = Some parameters → entry ∈ entriesOf parameters → typedParameter entry) as ->.
    { destruct (tb_parameters bundle) as [ps|]; [|naive_solver]. rewrite for_each_ok.
      setoid_rewrite bundleParameter_ok. naive_solver. }
    split; [intros (_ & Hd & Hp); split; [by apply dec_stable|done]|intros [-> Hp]; split_and!; tauto].
  - apply contains_false in Hk. split; [by intros (e & [=] & _)|tauto].
Qed.
End emitter_theorems.

(** The rendering of the required behaviours tells them apart. *)
Lemma renderBoundaryRequirements_inj r r' : renderBoundaryRequirements r = renderBoundaryRequirements r' → r = r'.
Proof. by destruct r as [[] [] []], r' as [[] [] []]. Qed.

(** ** The host *)
Definition lengthMet (required host : option Z) : Prop := ∀ bits, required = Some bits → host = Some bits.

Lemma checkLength_ok streaming required host : checkLength streaming required host = Ok tt ↔ lengthMet required host.
Proof.
  unfold checkLength, lengthMet. destruct required as [bits|]; [|naive_solver].
  destruct host as [actual|]; [rewrite fail_if_ok, bool_decide_eq_false|]; split; try naive_solver.
  intros Hd ? [= <-]. f_equal. by apply dec_stable.
Qed.

(** The host check is exact: the architecture is the required one if one is, every
    required feature is present and on, and each vector length that is required is
    known and equal. *)
Lemma checkHostRequirements_iff r arch features vl svl :
  checkHostRequirements r arch features vl svl = Ok tt ↔
  (architecture r = "" ∨ architecture r = arch) ∧ (∀ f, f ∈ requiredFeatures r → features !! f = Some true) ∧
  lengthMet (vectorLengthBits r) vl ∧ lengthMet (streamingVectorLengthBits r) svl.
Proof.
  unfold checkHostRequirements. rewrite fail_then_ok, !seq_ok, for_each_ok, !checkLength_ok.
  assert (negb (str_empty (architecture r)) && bool_decide (architecture r ≠ arch) = false ↔
    architecture r = "" ∨ architecture r = arch) as ->.
  { unfold str_empty. repeat case_bool_decide; cbn; naive_solver. }
  assert (∀ f, checkFeature features f = Ok () ↔ features !! f = Some true) as Hf.
  { intros f. unfold checkFeature. rewrite fail_if_ok, bool_decide_eq_false. split; [apply dec_stable|tauto]. }
  by setoid_rewrite Hf.
Qed.

(** A vector length read from the kernel is a whole number of bytes below 2^19 bits. *)
Lemma vectorLengthBitsFromPrctl_bounds value : 0 <= vectorLengthBitsFromPrctl value < 2 ^ 19 ∧
  (8 | vectorLengthBitsFromPrctl value).
Proof.
  unfold vectorLengthBitsFromPrctl. change 65535 with (Z.ones 16). rewrite Z.land_ones by lia.
  pose proof (Z.mod_pos_bound value (2 ^ 16)). split; [lia|apply Z.divide_factor_r].
Qed.

(** ** A target *)
Definition sample_target_rules : string :=
  "rule t.add v1 { match micro.vector(); input " +:+ quoted "a" +:+ "; output " +:+ quoted "o" +:+
  "; param VW in {4, 8}; require VW >= machine.compute(" +:+ quoted "mxu" +:+ ").count(); require compute kind mxu; " +:+
  "bundle " +:+ quoted "b" +:+ "; emit " +:+ quoted "e" +:+ "; }".
Definition sample_loaded : result load_error FileMappingTarget :=
  loadMappingTarget "t" (Ok sample_machine) "" "layouts" sample_target_rules "rules" ["e"; "f"].
Definition sample_loaded_target : FileMappingTarget :=
  match sample_loaded with Ok t => t | Err _ => mkTarget "" sample_machine [] [] [] end.
Definition sample_target_rule : RuleDef := default (emptyRule "" 1) (head (t_rules sample_loaded_target)).
Definition sample_constraint : Expr := default (makeExpr Ident "" []) (head (r_constraints sample_target_rule)).
Definition sample_env : EvalEnv := mkEnv sample_machine (mkContext 2 "f32") None.

Lemma loaded_target_constraints_witness :
  literalSubjects sample_constraint = true ∧
  evaluateExpr sample_env {["VW" := IntValue 8]} sample_constraint = Ok (VInt 1) ∧
  match evaluateExpr sample_env {["VW" := IntValue 8]} sample_constraint with
  | Ok _ => True
  | Err err => isUnknown err = false ∧ (literalSubjects sample_constraint = true → isUnknownSubject err = false)
  end.
Proof.
  split; [vm_compute; reflexivity|]. split; [vm_compute; reflexivity|].
  assert (loadMappingTarget "t" (Ok sample_machine) "" "layouts" sample_target_rules "rules" ["e"; "f"] =
    Ok sample_loaded_target) as Hl by (vm_compute; reflexivity).
  assert (sample_target_rule ∈ t_rules sample_loaded_target) as Hr by (vm_compute; left).
  assert (sample_constraint ∈ r_constraints sample_target_rule) as Hc by (vm_compute; left).
  assert (LlkMap.machine sample_env = t_machine sample_loaded_target) as Hm by (vm_compute; reflexivity).
  assert (ruleParamNames sample_target_rule ⊆ dom ({["VW" := IntValue 8]} : gmap string LayoutValue)) as Hn.
  { assert (ruleParamNames sample_target_rule = {["VW"]}) as -> by (vm_compute; reflexivity).
    by rewrite dom_singleton. }
  exact (loaded_target_constraints "t" (Ok sample_machine) "" "layouts" sample_target_rules "rules" ["e"; "f"]
    sample_loaded_target (ruleParamNames sample_target_rule) sample_constraint sample_env {["VW" := IntValue 8]}
    Hl (rule_constraint sample_loaded_target sample_target_rule sample_constraint Hr Hc) Hm Hn).
Defined.

(** A rule that asks for a compute kind the machine does not have is refused when the
    target is loaded, and so is one whose constraint queries it. *)
Example refuses_unknown_kind : verifyMappingTarget (mkTarget "t" vector_machine [] (t_rules sample_loaded_target) ["e"]) =
  Err (RuleQuery "t.add" "unknown compute kind 'mxu'").
Proof. vm_compute. reflexivity. Qed.

(** The check does not read the types a query names: the lanes of a type that the
    resource does not model are still found out at the first match. *)
Definition lanes_target_rules : string :=
  "rule t.add { match micro.vector(); require 4 == machine.compute(" +:+ quoted "mxu" +:+ ").lanes(" +:+ quoted "f64" +:+
  "); bundle " +:+ quoted "b" +:+ "; emit " +:+ quoted "e" +:+ "; }".
Example lanes_are_not_checked :
  match loadMappingTarget "t" (Ok sample_machine) "" "layouts" lanes_target_rules "rules" ["e"] with
  | Ok target => evaluateExpr sample_env ∅ <$> concat (r_constraints <$> t_rules target) =
                   [Err (UnmodelledType "mxu" "f64")]
  | Err _ => False
  end.
Proof. vm_compute. reflexivity. Qed.
