(* ===== verification/StorageFootprint.v ===== *)
(** What a value occupies and where: include/LLK/Mapping/StoragePlan.h and the part of
    lib/Mapping/StoragePlan.cpp before [finalizeStoragePlan].

    The physical footprint of a value is the bounding box of the image of its index
    space under the map of its layout, found at the corners of the space when the map is
    affine and by enumeration when it is not.  The memory an operand or result of a
    placed operation lives in is resolved from the recorded binding of the port, the
    kind its type states, or the one memory of its placement.  The peak of a set of
    allocations is taken over their steps.  The theorems: the extents are exactly those
    of the image; a resolved memory is the recorded one, the only compatible one, or the
    only one the placement binds; the peak is the maximum over the steps of the bytes of
    the live roots. *)
From S2P Require Import Prelude MachineModel CostModel WorkloadGraph TileFacts LlkMap MappingPlan StorageLiveness.
Open Scope string_scope.
Open Scope Z_scope.

(** ** Affine expressions, as MLIR has them *)
Inductive AffineTree :=
| ConstantExpr (value : Z)
| DimExpr (position : nat)
| SymbolExpr (position : nat)
| AddExpr (lhs rhs : AffineTree)
| MulExpr (lhs rhs : AffineTree)
| FloorDivExpr (lhs rhs : AffineTree)
| CeilDivExpr (lhs rhs : AffineTree)
| ModExpr (lhs rhs : AffineTree).

(** What the code reads of an [AffineMap]. *)
Class MLIRMapTrees `{MLIRTypes} := {
  getNumDims : affine_map → nat;
  getNumSymbols : affine_map → nat;
  getResults : affine_map → list AffineTree;
}.

Fixpoint isSemiAffine (expr : AffineTree) : bool :=
  match expr with
  | FloorDivExpr _ _ | CeilDivExpr _ _ | ModExpr _ _ => true
  | AddExpr lhs rhs | MulExpr lhs rhs => isSemiAffine lhs || isSemiAffine rhs
  | _ => false
  end.

(** The refusals of a footprint, and the arithmetic C++ does not define. *)
Inductive footprint_error :=
| NoValueType
| UnsizedTile (type : string)
| UnknownShape (type : string)
| DynamicExtent
| CountOverflows
| IndexSpaceOverflows
| PaddingWithoutMap
| RankMismatch
| NamesSymbols
| PaddingRank
| Unbounded
| TooLargeToEnumerate
| ExtentOverflows
| NegativePadding
| PaddedOverflows
| NegativeExtent
| PhysicalCountOverflows
| BytesOverflow
| UndefinedArithmetic.

Definition footprintMessage (e : footprint_error) : string :=
  "unsupported footprint: " +:+
  match e with
  | NoValueType => "no value type"
  | UnsizedTile type => "value type '" +:+ type +:+ "' does not state a static, sized tile"
  | UnknownShape type => "value type '" +:+ type +:+ "' does not state a static shape"
  | DynamicExtent => "a dynamic extent has no static image"
  | CountOverflows => "the logical element count overflows"
  | IndexSpaceOverflows => "the logical index space overflows"
  | PaddingWithoutMap => "padding requires a layout map"
  | RankMismatch => "the layout map's rank does not match the value"
  | NamesSymbols => "the layout map names symbols"
  | PaddingRank => "the padding rank does not match the layout map"
  | Unbounded => "the layout map cannot be bounded at a static index"
  | TooLargeToEnumerate => "the layout map is not affine and its image is too large to enumerate"
  | ExtentOverflows => "a physical extent overflows"
  | NegativePadding => "negative padding"
  | PaddedOverflows => "a padded extent overflows"
  | NegativeExtent => "a negative physical extent"
  | PhysicalCountOverflows => "the physical element count overflows"
  | BytesOverflow => "the physical byte count overflows"
  | UndefinedArithmetic => ""
  end.

(** The [__builtin_*_overflow] of 64-bit signed integers. *)
Definition checked_i64 (z : Z) : option Z := if decide (in_i64 z) then Some z else None.

(** A division whose quotient does not fit, INT64_MIN by -1, is the undefined one. *)
Definition divided (l r z : Z) : result footprint_error Z :=
  if decide (r = 0) then Err Unbounded
  else if decide (in_i64 (Z.quot l r)) then Ok z
  else Err UndefinedArithmetic.

Definition checked (z : Z) : result footprint_error Z :=
  if decide (in_i64 z) then Ok z else Err Unbounded.

Fixpoint evalAt (expr : AffineTree) (point : list Z) : result footprint_error Z :=
  match expr with
  | ConstantExpr value => Ok value
  | DimExpr position => match point !! position with Some v => Ok v | None => Err Unbounded end
  | SymbolExpr _ => Err Unbounded
  | AddExpr lhs rhs => l ← evalAt lhs point; r ← evalAt rhs point; checked (l + r)
  | MulExpr lhs rhs => l ← evalAt lhs point; r ← evalAt rhs point; checked (l * r)
  | FloorDivExpr lhs rhs => l ← evalAt lhs point; r ← evalAt rhs point; divided l r (l `div` r)
  | CeilDivExpr lhs rhs => l ← evalAt lhs point; r ← evalAt rhs point; divided l r (- ((- l) `div` r))
  | ModExpr lhs rhs => l ← evalAt lhs point; r ← evalAt rhs point; divided l r (l `mod` r)
  end.

Definition kMaxCornerRank : nat := 16.
Definition kFootprintEnumerationLimit : Z := 2 ^ 16.
Definition kAssumedValueBytes : Z := 4096.
Definition kMaxStorageSteps : Z := 2 ^ 20.

(** ** The image of an index space *)

(** The product of the extents, each of them checked; [overflows] is the message. *)
Definition countElements (overflows negative : footprint_error) (shape : list Z) : result footprint_error Z :=
  fold_result (λ points extent,
    fail! negative when bool_decide (extent < 0);
    match checked_mul_u64 points extent with
    | Some points => Ok points
    | None => Err overflows
    end) 1 shape.

(** One point: the ranges of the results are widened in order. *)
Fixpoint visit (exprs : list AffineTree) (ranges : list (Z * Z)) (point : list Z) :
    result footprint_error (list (Z * Z)) :=
  match exprs, ranges with
  | expr :: exprs, (minimum, maximum) :: ranges =>
    value ← evalAt expr point;
    rest ← visit exprs ranges point;
    Ok ((Z.min minimum value, Z.max maximum value) :: rest)
  | _, _ => Ok []
  end.

Definition visitAll (exprs : list AffineTree) (points : list (list Z)) : result footprint_error (list (Z * Z)) :=
  fold_result (visit exprs) (replicate (length exprs) (i64_max, - 2 ^ 63)) points.

(** The corner of a mask takes the last index of the dimensions whose bit is set. *)
Definition cornerAt (shape : list Z) (mask : Z) : list Z :=
  imap (λ d extent, if Z.testbit mask (Z.of_nat d) then extent - 1 else 0) shape.
Definition corners (shape : list Z) : list (list Z) := cornerAt shape <$> seqZ 0 (2 ^ Z.of_nat (length shape)).

(** The point of an index, the first dimension running fastest. *)
Fixpoint pointAt (shape : list Z) (index : Z) : list Z :=
  match shape with
  | [] => []
  | extent :: shape => index `mod` extent :: pointAt shape (index `div` extent)
  end.

Definition extentOf (range : Z * Z) : result footprint_error Z :=
  if decide (in_i64 (1 - range.1)) then
    match checked_i64 (range.2 + (1 - range.1)) with
    | Some extent => Ok extent
    | None => Err ExtentOverflows
    end
  else Err UndefinedArithmetic.

Definition pointsToVisit (exprs : list AffineTree) (shape : list Z) (points : Z) :
    result footprint_error (list (list Z)) :=
  if negb (List.existsb isSemiAffine exprs) && bool_decide (length shape <= kMaxCornerRank)%nat
  then Ok (corners shape)
  else if bool_decide (kFootprintEnumerationLimit < points) then Err TooLargeToEnumerate
  else Ok (pointAt shape <$> seqZ 0 points).

Definition imageExtents (exprs : list AffineTree) (shape : list Z) : result footprint_error (list Z) :=
  points ← countElements IndexSpaceOverflows DynamicExtent shape;
  if decide (points = 0) then Ok (replicate (length exprs) 0)
  else
    visited ← pointsToVisit exprs shape points;
    ranges ← visitAll exprs visited;
    mapM extentOf ranges.

(** ** The footprint of a value *)
Section footprint.
Context `{MLIRTiles} `{!MLIRMapTrees}.

Record PhysicalFootprint := mkFootprint { fp_bytes : Z; physicalShape : list Z; fp_known : bool }.

Definition padExtent (e : Z * Z) : result footprint_error Z :=
  let '(extent, pad) := e in
  fail! NegativePadding when bool_decide (pad < 0);
  match checked_i64 (extent + pad) with
  | Some padded => if decide (padded < 0) then Err PaddedOverflows else Ok padded
  | None => Err PaddedOverflows
  end.

Definition physicalShapeFor (map : option affine_map) (padding shape : list Z) : result footprint_error (list Z) :=
  let unmapped :=
    fail! PaddingWithoutMap when bool_decide (padding ≠ []);
    Ok shape in
  match map with
  | None => unmapped
  | Some map =>
    if decide (getResults map = []) then unmapped
    else
      fail! RankMismatch when bool_decide (getNumDims map ≠ length shape);
      fail! NamesSymbols when bool_decide (getNumSymbols map ≠ 0%nat);
      fail! PaddingRank when bool_decide (padding ≠ [] ∧ length padding ≠ length (getResults map));
      extents ← imageExtents (getResults map) shape;
      mapM padExtent (zip extents (if decide (padding = []) then replicate (length extents) 0 else padding))
  end.

Definition physicalFootprintFor (valueType : option mlir_type) (map : option affine_map) (padding : list Z) :
    result footprint_error PhysicalFootprint :=
  match valueType with
  | None => Err NoValueType
  | Some _ =>
    let facts := tileFactsFor valueType in
    fail! (UnsizedTile (typeString valueType)) when negb (f_known facts);
    match staticShapeOf valueType with
    | None => Err (UnknownShape (typeString valueType))
    | Some shape =>
      logicalElements ← countElements CountOverflows DynamicExtent shape;
      if decide (logicalElements = 0) then Ok (mkFootprint 0 [] true)
      else
        let elementWidth := f_bytes facts `div` logicalElements in
        physicalShape ← physicalShapeFor map padding shape;
        physicalElements ← countElements PhysicalCountOverflows NegativeExtent physicalShape;
        match checked_mul_u64 physicalElements elementWidth with
        | Some bytes => Ok (mkFootprint bytes physicalShape true)
        | None => Err BytesOverflow
        end
    end
  end.
End footprint.

(** ** The memory of an occurrence *)
Section endpoint.
Context `{MLIRTiles}.

(** The text between the marker and the next [>], if there is any. *)
Definition kMarker : string := "memory = #micro.memory<".
Definition explicitMemoryKind (type : option mlir_type) : option string :=
  _ ← type;
  let printed := typeString type in
  start ← str_find kMarker printed;
  let rest := str_drop (start + String.length kMarker) printed in
  stop ← str_find ">" rest;
  if decide (stop = 0%nat) then None else Some (str_take stop rest).

(** From a value back along what loops carry, each value once. *)
Fixpoint carriedMemoryKind (fuel : nat) (graph : WorkloadGraph) (visited : gset nat) (current : option nat) :
    option string :=
  match fuel, current with
  | S fuel, Some v =>
    if decide (v ∈ visited) then None
    else
      match findValue graph v with
      | None => None
      | Some value =>
        match explicitMemoryKind (v_type value) with
        | Some kind => Some kind
        | None =>
          match memoryKind value with
          | Some kind => Some kind
          | None => carriedMemoryKind fuel graph ({[v]} ∪ visited) (carriedFrom value)
          end
        end
      end
  | _, _ => None
  end.
Definition carriedFuel (graph : WorkloadGraph) : nat := S (length (values graph)).

Definition occurrenceMemoryKind (graph : WorkloadGraph) (ref : PortRef) : option string :=
  port ← lookupPort graph ref;
  match explicitMemoryKind (p_type port) with
  | Some kind => Some kind
  | None => carriedMemoryKind (carriedFuel graph) graph ∅ (Some (p_value port))
  end.

Definition reachable (machine : MachineModel) (executor : string) (node : MemoryNode) : bool :=
  str_empty executor || isVisible machine (mem_id node) executor.

Definition admits (port : option WorkloadPort) (node : MemoryNode) : bool :=
  match port with
  | None => true
  | Some port =>
    let facts := tileFactsFor (p_type port) in
    negb (f_known facts && bool_decide (0 < f_alignment facts) &&
          bool_decide (alignmentBytes node `mod` f_alignment facts ≠ 0))
  end.

Definition compatibleMemoriesFor (machine : MachineModel) (k executor : string) (port : option WorkloadPort) :
    list string :=
  mem_id <$> List.filter (λ node, bool_decide (mem_kind node = k) && reachable machine executor node && admits port node)
    (memories machine).

Definition visibleMemoriesOfKind (machine : MachineModel) (k executor : string) : list string :=
  mem_id <$> List.filter (λ node, bool_decide (mem_kind node = k) && reachable machine executor node) (memories machine).

(** What refuses an occurrence. *)
Inductive endpoint_error :=
| RecordsUnknown (ref : PortRef) (memory : string)
| RecordsInvisible (ref : PortRef) (memory executor : string)
| NoBinding (ref : PortRef)
| SeveralBare (ref : PortRef) (keys : list string)
| BareUnknown (ref : PortRef) (memory : string)
| BareConflict (bare k other : string)
| NoFact (ref : PortRef)
| Unaddressable (ref : PortRef) (k executor : string) (visible : list string)
| Ambiguous (ref : PortRef) (k : string) (compatible : list string).

Definition joinIds (ids : list string) : string :=
  foldl (λ text id, (if str_empty text then text else text +:+ ", ") +:+ "'" +:+ id +:+ "'") "" ids.

Definition whereOf (ref : PortRef) : string :=
  "value at node " +:+ to_string (Z.of_nat (ref_node ref)) +:+
  match direction ref with Input => " input " | Output => " output " end +:+ to_string (Z.of_nat (ref_index ref)).

Definition endpointMessage (e : endpoint_error) : string :=
  match e with
  | RecordsUnknown ref memory =>
    "memory: " +:+ whereOf ref +:+ " records memory '" +:+ memory +:+ "', which the machine does not declare"
  | RecordsInvisible ref memory executor =>
    "memory: " +:+ whereOf ref +:+ " records memory '" +:+ memory +:+ "', which executor '" +:+ executor +:+ "' cannot see"
  | NoBinding ref => "memory: " +:+ whereOf ref +:+ " has no memory binding to resolve it against"
  | SeveralBare ref keys =>
    "memory: " +:+ whereOf ref +:+ " has no single memory fact: the placement binds " +:+
    to_string (Z.of_nat (length keys)) +:+ " bare requirements (" +:+ joinIds keys +:+
    "); a named port requirement must say which memory governs it"
  | BareUnknown ref memory =>
    "memory: " +:+ whereOf ref +:+ " is bound to memory '" +:+ memory +:+ "', which the machine does not declare"
  | BareConflict bare k other =>
    "memory: the placement's bare requirement '" +:+ bare +:+ "' cannot decide this occurrence: another occurrence of " +:+
    "the same operation states kind '" +:+ k +:+ "' and resolves to '" +:+ other +:+
    "', so the two did not select one memory"
  | NoFact ref =>
    "memory: " +:+ whereOf ref +:+ " states no memory kind and its rule binds no memory, " +:+
    "so no physical memory fact exists for it"
  | Unaddressable ref k executor visible =>
    "memory: " +:+ whereOf ref +:+ " needs a '" +:+ k +:+ "' memory the executor can address" +:+
    (if str_empty executor then "" else " through executor '" +:+ executor +:+ "'") +:+
    (if decide (visible = []) then ""
     else "; the visible nodes of that kind (" +:+ joinIds visible +:+ ") do not admit it")
  | Ambiguous ref k compatible =>
    "memory: " +:+ whereOf ref +:+ " states kind '" +:+ k +:+ "', which resolves to " +:+
    to_string (Z.of_nat (length compatible)) +:+ " compatible nodes (" +:+ joinIds compatible +:+
    "); the binding is ambiguous, so a named port requirement must select one"
  end.

Record EndpointMemory := mkEndpoint { em_memory : string; fallbackReason : option string }.

(** The memory that another occurrence of the node resolves to by its own kind, if it
    is not the bare one. *)
Definition consider (graph : WorkloadGraph) (placement : PlanPlacement) (ref : PortRef) (bare : string)
    (machine : MachineModel) (other : PortRef) : option endpoint_error :=
  if decide (other = ref) then None
  else
    k ← occurrenceMemoryKind graph other;
    match compatibleMemoriesFor machine k (pp_executor placement) (lookupPort graph other) with
    | [memory] => if decide (memory = bare) then None else Some (BareConflict bare k memory)
    | _ => None
    end.

Definition occurrencesOf (node : WorkloadNode) : list PortRef :=
  ((λ i, mkRef (n_id node) Output i) <$> seq 0 (length (outputs node))) ++
  ((λ i, mkRef (n_id node) Input i) <$> seq 0 (length (inputs node))).

Definition bareRequirementConflict (graph : WorkloadGraph) (placement : PlanPlacement) (ref : PortRef) (bare : string)
    (machine : MachineModel) : option endpoint_error :=
  node ← findNode graph (pp_node placement);
  if decide (n_id node = ref_node ref)
  then head (omap (consider graph placement ref bare machine) (occurrencesOf node))
  else None.

Definition sortedMemoryKeys (map : gmap string string) : list string := sort_strings (map_to_list map).*1.

Definition resolveBareRequirement (graph : WorkloadGraph) (placement : PlanPlacement) (ref : PortRef)
    (machine : MachineModel) (because : option string) : result endpoint_error EndpointMemory :=
  match map_to_list (pp_memories placement) with
  | [] => Err (NoBinding ref)
  | [(_, memory)] =>
    match findMemory machine memory with
    | None => Err (BareUnknown ref memory)
    | Some _ =>
      match bareRequirementConflict graph placement ref memory machine with
      | Some conflict => Err conflict
      | None =>
        Ok (mkEndpoint memory ((λ reason, reason +:+ "; the rule's bare requirement '" +:+ memory +:+ "' decides instead")
                                 <$> because))
      end
    end
  | _ => Err (SeveralBare ref (sortedMemoryKeys (pp_memories placement)))
  end.

Definition recordedMemory (placement : PlanPlacement) (ref : PortRef) : option PortMemoryBinding :=
  List.find (λ binding, bool_decide (pm_port binding = ref)) (pp_portMemoryBindings placement).

Definition resolveEndpointMemory (graph : WorkloadGraph) (placement : PlanPlacement) (ref : PortRef)
    (machine : MachineModel) : result endpoint_error EndpointMemory :=
  match recordedMemory placement ref with
  | Some binding =>
    let memory := pm_memory binding in
    fail! (RecordsUnknown ref memory) when bool_decide (findMemory machine memory = None);
    fail! (RecordsInvisible ref memory (pp_executor placement))
      when negb (str_empty (pp_executor placement)) && negb (isVisible machine memory (pp_executor placement));
    Ok (mkEndpoint memory None)
  | None =>
    match occurrenceMemoryKind graph ref with
    | None =>
      if decide (pp_memories placement = ∅) then Err (NoFact ref)
      else resolveBareRequirement graph placement ref machine None
    | Some k =>
      match compatibleMemoriesFor machine k (pp_executor placement) (lookupPort graph ref) with
      | [memory] => Ok (mkEndpoint memory None)
      | [] =>
        if decide (size (pp_memories placement) = 1%nat)
        then resolveBareRequirement graph placement ref machine
               (Some ("memory: " +:+ whereOf ref +:+ " states kind '" +:+ k +:+
                      "', which no memory the executor can address offers"))
        else Err (Unaddressable ref k (pp_executor placement)
                    (visibleMemoriesOfKind machine k (pp_executor placement)))
      | compatible => Err (Ambiguous ref k compatible)
      end
    end
  end.
End endpoint.

(** ** Peak storage over the steps of a plan *)
Inductive peak_error :=
| EndsBeforeBegins (id : Z)
| DuplicateAllocation (id : Z)
| BorrowedAliases (id : Z)
| CyclicChain (id : Z)
| AliasesUnknown (id target : Z)
| AliasesBorrowed (id target : Z)
| OtherMemory (id root : Z)
| LargerThanRoot (id root : Z)
| RangeTooLarge
| LiveBytesOverflow (memory : string)
| NoAllocation.

Definition indexById (allocations : list StorageAllocation) : result peak_error (gmap Z nat) :=
  fold_result (λ index e,
    fail! (EndsBeforeBegins (al_id e.2)) when bool_decide (endStep e.2 < beginStep e.2);
    fail! (DuplicateAllocation (al_id e.2)) when bool_decide (is_Some (index !! al_id e.2));
    Ok (<[al_id e.2 := e.1]> index)) ∅ (imap (λ i a, (i, a)) allocations).

(** The chain from an allocation to its root; [start] is the id the messages name.  A
    position that is not there is [NoAllocation], which none is. *)
Fixpoint chainTo (fuel : nat) (allocations : list StorageAllocation) (index : gmap Z nat) (start : Z) (seen : gset nat)
    (current : nat) : result peak_error nat :=
  match fuel, allocations !! current with
  | S fuel, Some a =>
    match aliasOf a with
    | None => Ok current
    | Some target =>
      fail! (BorrowedAliases (al_id a)) when borrowed a;
      fail! (CyclicChain (al_id a)) when bool_decide (current ∈ seen);
      match index !! target with
      | None => Err (AliasesUnknown start target)
      | Some next =>
        match allocations !! next with
        | None => Err NoAllocation
        | Some b =>
          fail! (AliasesBorrowed start (al_id b)) when borrowed b;
          chainTo fuel allocations index start ({[current]} ∪ seen) next
        end
      end
    end
  | _, _ => Err NoAllocation
  end.

Definition rootFor (allocations : list StorageAllocation) (index : gmap Z nat) (i : nat) (a : StorageAllocation) :
    result peak_error nat :=
  root ← chainTo (S (S (length allocations))) allocations index (al_id a) ∅ i;
  match allocations !! root with
  | None => Err NoAllocation
  | Some r =>
    if decide (root = i) then Ok root
    else
      fail! (OtherMemory (al_id a) (al_id r)) when bool_decide (al_memory a ≠ al_memory r);
      fail! (LargerThanRoot (al_id a) (al_id r)) when bool_decide (al_bytes r < al_bytes a);
      Ok root
  end.

Definition rootsOf (allocations : list StorageAllocation) (index : gmap Z nat) : result peak_error (list nat) :=
  mapM (λ e, rootFor allocations index e.1 e.2) (imap (λ i a, (i, a)) allocations).

Definition liveAt (step : Z) (a : StorageAllocation) : bool := bool_decide (beginStep a <= step <= endStep a).

(** The groups of a step: memory and root, in the order of the map, with the bytes of
    the root. *)
Definition groupBytes (allocations : list StorageAllocation) (g : nat) : Z :=
  from_option al_bytes 0 (allocations !! g).
Definition groupsAt (allocations : list StorageAllocation) (roots : list nat) (step : Z) : list (string * nat) :=
  remove_dups (omap (λ e, if liveAt step e.1 then Some (al_memory e.1, e.2) else None) (zip allocations roots)).

Definition groupLe (l r : string * nat) : Prop :=
  str_ltb l.1 r.1 = true ∨ (l.1 = r.1 ∧ (l.2 <= r.2)%nat).
#[export] Instance groupLe_dec : RelDecision groupLe.
Proof. intros l r. unfold groupLe. apply _. Defined.

Definition addGroup (allocations : list StorageAllocation) (live : gmap string Z) (g : string * nat) :
    result peak_error (gmap string Z) :=
  match checked_add_u64 (default 0 (live !! g.1)) (groupBytes allocations g.2) with
  | Some held => Ok (<[g.1 := held]> live)
  | None => Err (LiveBytesOverflow g.1)
  end.

Definition liveBytesAt (allocations : list StorageAllocation) (roots : list nat) (step : Z) :
    result peak_error (gmap string Z) :=
  fold_result (addGroup allocations) ∅ (merge_sort groupLe (groupsAt allocations roots step)).

(** [peak[memory] = max(peak[memory], held)], a new entry starting from 0. *)
Definition raisePeak (peak live : gmap string Z) : gmap string Z :=
  union_with (λ p l, Some (Z.max p l)) peak (Z.max 0 <$> live).

Definition minStep (allocations : list StorageAllocation) : Z := foldr (λ a m, Z.min (beginStep a) m) u64_max allocations.
Definition maxStep (allocations : list StorageAllocation) : Z := foldr (λ a m, Z.max (endStep a) m) 0 allocations.

Definition computePeakStorage (allocations : list StorageAllocation) : result peak_error (gmap string Z) :=
  if decide (allocations = []) then Ok ∅
  else
    index ← indexById allocations;
    roots ← rootsOf allocations index;
    let first := minStep allocations in
    let last := maxStep allocations in
    fail! RangeTooLarge when bool_decide (kMaxStorageSteps < last - first);
    fold_result (λ peak step, live ← liveBytesAt allocations roots step; Ok (raisePeak peak live)) ∅
      (seqZ first (last - first + 1)).

(** ** The extents of an image *)
Definition inBox (shape point : list Z) : Prop := Forall2 (λ v extent, 0 <= v < extent) point shape.

(** No dimension inside. *)
Fixpoint isConstant (e : AffineTree) : bool :=
  match e with
  | ConstantExpr _ => true
  | DimExpr _ | SymbolExpr _ => false
  | AddExpr l r | MulExpr l r | FloorDivExpr l r | CeilDivExpr l r | ModExpr l r => isConstant l && isConstant r
  end.

(** A product has a constant side, as it has in an affine expression. *)
Fixpoint isLinear (e : AffineTree) : bool :=
  match e with
  | ConstantExpr _ | DimExpr _ | SymbolExpr _ => true
  | AddExpr l r => isLinear l && isLinear r
  | MulExpr l r => (isConstant l || isConstant r) && isLinear l && isLinear r
  | _ => false
  end.

(** The constants are 64-bit integers. *)
Fixpoint wfTree (e : AffineTree) : Prop :=
  match e with
  | ConstantExpr v => in_i64 v
  | DimExpr _ | SymbolExpr _ => True
  | AddExpr l r | MulExpr l r | FloorDivExpr l r | CeilDivExpr l r | ModExpr l r => wfTree l ∧ wfTree r
  end.

Lemma checked_ok z v : checked z = Ok v ↔ v = z ∧ in_i64 z.
Proof. unfold checked. destruct (decide (in_i64 z)); split; naive_solver. Qed.

Lemma divided_range l r z v : in_i64 l → in_i64 r → (r ≠ 0 → in_i64 (Z.quot l r) → in_i64 z) → divided l r z = Ok v → in_i64 v.
Proof. unfold divided. intros Hl Hr Hz. repeat case_decide; intros [= <-]. auto. Qed.

Lemma quotients_range l r : in_i64 l → in_i64 r → r ≠ 0 → in_i64 (Z.quot l r) →
  in_i64 (l `div` r) ∧ in_i64 (- ((- l) `div` r)) ∧ in_i64 (l `mod` r).
Proof.
  unfold in_i64. intros Hl Hr Hz Hq. assert (Z.abs (l `mod` r) < Z.abs r) by (Z.to_euclidean_division_equations; lia).
  assert (∀ x y : Z, y ≠ 0 → - 2 ^ 63 <= x <= 2 ^ 63 → - 2 ^ 63 <= x `div` y <= 2 ^ 63) as Hd.
  { intros x y Hy Hx. Z.to_euclidean_division_equations. nia. }
  Z.to_euclidean_division_equations. split_and!; nia.
Qed.

Lemma evalAt_range e point v : wfTree e → Forall in_i64 point → evalAt e point = Ok v → in_i64 v.
Proof.
  intros Hw Hp. revert v. induction e as [z|d|s|l IHl r IHr|l IHl r IHr|l IHl r IHr|l IHl r IHr|l IHl r IHr];
    intros v; cbn [evalAt].
  1: by intros [= <-].
  1: { destruct (point !! d) eqn:Hd; [|done]. intros [= <-]. by eapply Forall_lookup_1. }
  1: done.
  all: destruct Hw as [Hwl Hwr]; intros (a & Ha & (b & Hb & Hv)%bind_ok)%bind_ok;
    specialize (IHl Hwl _ Ha); specialize (IHr Hwr _ Hb).
  1,2: by apply checked_ok in Hv as [-> ?].
  all: eapply divided_range; [exact IHl|exact IHr| |exact Hv]; intros; by eapply quotients_range.
Qed.

(** *** Linear expressions

    A linear expression is a constant plus a combination of the coordinates. *)
Fixpoint dot (cs point : list Z) : Z :=
  match cs, point with c :: cs, v :: point => c * v + dot cs point | _, _ => 0 end.
Definition form : Type := Z * list Z.
Definition value (f : form) (point : list Z) : Z := f.1 + dot f.2 point.

Definition addCoefficients (cs ds : list Z) : list Z := zip_with Z.add cs ds.
Definition scale (k : Z) (f : form) : form := (k * f.1, Z.mul k <$> f.2).
Definition constantValue (f : form) : Z := f.1.

Fixpoint formOf (n : nat) (e : AffineTree) : form :=
  match e with
  | ConstantExpr v => (v, replicate n 0)
  | DimExpr d => (0, (λ i, if decide (i = d) then 1 else 0) <$> seq 0 n)
  | AddExpr l r => ((formOf n l).1 + (formOf n r).1, addCoefficients (formOf n l).2 (formOf n r).2)
  | MulExpr l r => if isConstant l then scale (formOf n l).1 (formOf n r) else scale (formOf n r).1 (formOf n l)
  | _ => (0, replicate n 0)
  end.

Lemma dot_zeros n point : dot (replicate n 0) point = 0.
Proof. revert point. induction n as [|n IH]; intros [|v point]; cbn; [done..|]. rewrite IH. lia. Qed.
Lemma dot_add cs ds point : length cs = length ds → dot (addCoefficients cs ds) point = dot cs point + dot ds point.
Proof.
  revert ds point. induction cs as [|c cs IH]; intros [|d ds] [|v point] Hl; try done.
  cbn. unfold addCoefficients in IH. rewrite IH by (cbn in Hl; lia). lia.
Qed.
Lemma dot_scale k cs point : dot (Z.mul k <$> cs) point = k * dot cs point.
Proof. revert point. induction cs as [|c cs IH]; intros [|v point]; cbn; [lia..|]. rewrite IH. lia. Qed.
Lemma dot_dim d start n point v : point !! (d - start)%nat = Some v → (start <= d < start + n)%nat →
  dot ((λ i, if decide (i = d) then 1 else 0) <$> seq start n) point = v.
Proof.
  revert start point. induction n as [|n IH]; intros start point Hd Hr; [lia|]. cbn [seq fmap list_fmap].
  destruct point as [|w point]; [by rewrite lookup_nil in Hd|]. cbn [dot]. destruct (decide (start = d)) as [->|Hne].
  - rewrite Nat.sub_diag in Hd. injection Hd as ->.
    assert ((λ i, if decide (i = d) then 1 else 0) <$> seq (S d) n = replicate n 0) as ->.
    { apply list_eq_same_length with n; [by rewrite length_replicate|by rewrite length_fmap, length_seq|].
      intros i x y Hi Hx Hy. apply lookup_replicate in Hy as [-> _]. apply list_lookup_fmap_Some in Hx as (j & -> & Hj).
      apply lookup_seq in Hj as [-> ?]. by rewrite decide_False by lia. }
    rewrite dot_zeros. lia.
  - rewrite (IH (S start)); [lia| |lia]. replace (d - start)%nat with (S (d - S start)) in Hd by lia. exact Hd.
Qed.

Lemma length_formOf n e : isLinear e = true → length (formOf n e).2 = n.
Proof.
  induction e as [z|d|s|l IHl r IHr|l IHl r IHr|l IHl r IHr|l IHl r IHr|l IHl r IHr]; cbn [isLinear formOf fst snd]; try done.
  - intros _. apply length_replicate.
  - intros _. by rewrite length_fmap, length_seq.
  - intros _. apply length_replicate.
  - intros [Hl Hr]%andb_true_iff. unfold addCoefficients. rewrite length_zip_with, IHl, IHr by done. lia.
  - intros [[_ Hl]%andb_true_iff Hr]%andb_true_iff. destruct (isConstant l); cbn; rewrite length_fmap; auto.
Qed.

Lemma constant_form n e point : isConstant e = true → isLinear e = true → dot (formOf n e).2 point = 0.
Proof.
  induction e as [z|d|s|l IHl r IHr|l IHl r IHr|l IHl r IHr|l IHl r IHr|l IHl r IHr]; cbn [isConstant isLinear formOf];
    try done.
  - intros _ _. apply dot_zeros.
  - intros [Hcl Hcr]%andb_true_iff [Hl Hr]%andb_true_iff. cbn.
    rewrite dot_add by (by rewrite !length_formOf). rewrite IHl, IHr by done. lia.
  - intros [Hcl Hcr]%andb_true_iff [[_ Hl]%andb_true_iff Hr]%andb_true_iff. rewrite Hcl. cbn.
    rewrite dot_scale, IHr by done. lia.
Qed.

(** Where the evaluation succeeds, it gives the value of the form. *)
Lemma evalAt_form e point v : isLinear e = true → evalAt e point = Ok v → v = value (formOf (length point) e) point.
Proof.
  unfold value. revert v. induction e as [z|d|s|l IHl r IHr|l IHl r IHr|l IHl r IHr|l IHl r IHr|l IHl r IHr];
    intros v; cbn [isLinear evalAt formOf]; try done.
  - intros _ [= <-]. cbn. rewrite dot_zeros. lia.
  - intros _. destruct (point !! d) eqn:Hd; [|done]. intros [= <-]. cbn [fst snd].
    rewrite (dot_dim d 0 _ _ z); [lia|by rewrite Nat.sub_0_r|]. apply lookup_lt_Some in Hd. lia.
  - intros [Hl Hr]%andb_true_iff (a & Ha & (b & Hb & [-> _]%checked_ok)%bind_ok)%bind_ok. cbn [fst snd].
    rewrite dot_add by (by rewrite !length_formOf). rewrite (IHl _ Hl Ha), (IHr _ Hr Hb). lia.
  - intros [[Hc Hl]%andb_true_iff Hr]%andb_true_iff (a & Ha & (b & Hb & [-> _]%checked_ok)%bind_ok)%bind_ok.
    rewrite (IHl _ Hl Ha), (IHr _ Hr Hb). destruct (isConstant l) eqn:Hcl; cbn [fst snd scale]; rewrite dot_scale.
    + rewrite (constant_form _ l) by done. lia.
    + cbn [orb] in Hc. rewrite (constant_form _ r) by done. lia.
Qed.

(** *** Corners *)
Definition corner (bs : list bool) (shape : list Z) : list Z :=
  zip_with (λ (b : bool) (extent : Z), if b then extent - 1 else 0) bs shape.

Lemma cornerAt_cons extent shape (b : bool) m : 
  cornerAt (extent :: shape) (2 * m + Z.b2z b) = (if b then extent - 1 else 0) :: cornerAt shape m.
Proof.
  unfold cornerAt. cbn [imap]. f_equal.
  - change (Z.of_nat 0) with 0. by rewrite Z.testbit_0_r.
  - apply imap_ext. intros i x _. cbn. rewrite Nat2Z.inj_succ.
    destruct b; cbn [Z.b2z]; [by rewrite Z.testbit_odd_succ by lia|].
    by rewrite Z.add_0_r, Z.testbit_even_succ by lia.
Qed.

Lemma corner_mask bs shape : length bs = length shape →
  ∃ m, 0 <= m < 2 ^ Z.of_nat (length shape) ∧ cornerAt shape m = corner bs shape.
Proof.
  revert bs. induction shape as [|extent shape IH]; intros [|b bs] Hl; try done; [by exists 0|].
  destruct (IH bs) as (m & Hm & Hc); [by injection Hl|]. exists (2 * m + Z.b2z b). rewrite cornerAt_cons, Hc. split; [|done].
  cbn [length]. rewrite Nat2Z.inj_succ, Z.pow_succ_r by lia. destruct b; cbn; lia.
Qed.

Lemma corner_elem bs shape : length bs = length shape → corner bs shape ∈ corners shape.
Proof.
  intros (m & Hm & Hc)%corner_mask. unfold corners. apply list_elem_of_fmap. exists m. split; [done|].
  apply elem_of_seqZ. lia.
Qed.

Lemma corners_inBox shape point : Forall (λ extent, 0 < extent) shape → point ∈ corners shape → inBox shape point.
Proof.
  intros Hs (m & -> & _)%list_elem_of_fmap. unfold inBox, cornerAt. apply Forall2_same_length_lookup_2.
  { by rewrite length_imap. }
  intros i v extent (x & Hx & ->)%list_lookup_imap_Some Hy. rewrite Hx in Hy. injection Hy as ->.
  pose proof (Forall_lookup_1 _ _ _ _ Hs Hx). cbn in *. destruct (Z.testbit _ _); lia.
Qed.

(** Over the box, a combination is greatest at the corner of its positive coefficients. *)
Lemma dot_corner cs shape point : length cs = length shape → inBox shape point →
  dot cs (corner ((λ c, bool_decide (c < 0)) <$> cs) shape) <= dot cs point <=
  dot cs (corner ((λ c, bool_decide (0 <= c)) <$> cs) shape).
Proof.
  intros Hl Hb. revert cs Hl. induction Hb as [|v extent point shape Hv Hb IH]; intros [|c cs] Hl; try done.
  specialize (IH cs ltac:(by injection Hl)). cbn. unfold corner in IH. repeat case_bool_decide; nia.
Qed.

Lemma corners_length shape k : k ∈ corners shape → length k = length shape.
Proof. intros (m & -> & _)%list_elem_of_fmap. apply length_imap. Qed.
Lemma some_corner shape : cornerAt shape 0 ∈ corners shape.
Proof. apply list_elem_of_fmap. exists 0. split; [done|]. apply elem_of_seqZ. lia. Qed.

(** The corners at which the form of an expression is least and greatest. *)
Definition lowest (e : AffineTree) (shape : list Z) : list Z :=
  corner ((λ c, bool_decide (c < 0)) <$> (formOf (length shape) e).2) shape.
Definition highest (e : AffineTree) (shape : list Z) : list Z :=
  corner ((λ c, bool_decide (0 <= c)) <$> (formOf (length shape) e).2) shape.

Lemma extreme_corners e shape : isLinear e = true → lowest e shape ∈ corners shape ∧ highest e shape ∈ corners shape.
Proof. intros He. split; apply corner_elem; rewrite length_fmap; by apply length_formOf. Qed.

Lemma form_bounds e shape point a b : isLinear e = true → inBox shape point →
  evalAt e (lowest e shape) = Ok a → evalAt e (highest e shape) = Ok b →
  a <= value (formOf (length shape) e) point <= b.
Proof.
  intros He Hp Ha Hb. destruct (extreme_corners e shape He) as [Hl Hh].
  apply evalAt_form in Ha, Hb; [|done..]. rewrite (corners_length _ _ Hl) in Ha. rewrite (corners_length _ _ Hh) in Hb.
  unfold value in *. pose proof (dot_corner _ shape point (length_formOf _ e He) Hp). unfold lowest, highest in *. lia.
Qed.

(** A linear expression that evaluates at every corner evaluates everywhere. *)
Lemma linear_everywhere e shape point : isLinear e = true → inBox shape point →
  (∀ k, k ∈ corners shape → ∃ v, evalAt e k = Ok v) → ∃ v, evalAt e point = Ok v.
Proof.
  intros He Hp. pose proof (Forall2_length _ _ _ Hp) as Hlen.
  (* the last operation of the expression does not overflow between the corners *)
  assert (∀ e l r op, isLinear e = true → (∀ q, evalAt e q = (l' ← evalAt l q; r' ← evalAt r q; checked (op l' r'))) →
    (∀ a b, evalAt l point = Ok a → evalAt r point = Ok b → op a b = value (formOf (length shape) e) point) →
    (∃ v, evalAt l point = Ok v) → (∃ v, evalAt r point = Ok v) →
    (∀ k, k ∈ corners shape → ∃ v, evalAt e k = Ok v) → ∃ v, evalAt e point = Ok v) as Hlast.
  { clear e He. intros e l r op He Heq Hop [a Ha] [b Hb] Hk. destruct (extreme_corners e shape He) as [Hl Hh].
    destruct (Hk _ Hl) as [x Hx], (Hk _ Hh) as [y Hy]. pose proof (form_bounds e shape point x y He Hp Hx Hy) as Hr.
    rewrite Heq in Hx, Hy. apply bind_ok in Hx as (? & _ & (? & _ & [-> ?]%checked_ok)%bind_ok).
    apply bind_ok in Hy as (? & _ & (? & _ & [-> ?]%checked_ok)%bind_ok).
    exists (op a b). rewrite Heq, Ha, Hb. cbn. apply checked_ok. split; [done|]. rewrite (Hop a b Ha Hb).
    unfold in_i64 in *. lia. }
  induction e as [z|d|s|l IHl r IHr|l IHl r IHr|l IHl r IHr|l IHl r IHr|l IHl r IHr]; try done; intros Hk.
  - by exists z.
  - cbn. destruct (Hk _ (some_corner shape)) as [v Hv]. cbn in Hv.
    destruct (cornerAt shape 0 !! d) eqn:Hd; [|done]. apply lookup_lt_Some in Hd.
    unfold cornerAt in Hd. rewrite length_imap, <- Hlen in Hd. apply lookup_lt_is_Some in Hd as [w ->]. by exists w.
  - by destruct (Hk _ (some_corner shape)) as [v Hv].
  - pose proof He as [Hl Hr]%andb_true_iff. apply (Hlast (AddExpr l r) l r Z.add He); [done| | | |done].
    + intros a b Ha Hb. apply evalAt_form in Ha, Hb; [|done..]. rewrite Hlen in Ha, Hb. subst. unfold value. cbn [formOf fst snd].
      rewrite dot_add by (by rewrite !length_formOf). lia.
    + apply IHl; [done|]. intros k [v (a & Ha & _)%bind_ok]%Hk. by exists a.
    + apply IHr; [done|]. intros k [v (a & _ & (b & Hb & _)%bind_ok)%bind_ok]%Hk. by exists b.
  - pose proof He as [[Hc Hl]%andb_true_iff Hr]%andb_true_iff. apply (Hlast (MulExpr l r) l r Z.mul He); [done| | | |done].
    + intros a b Ha Hb. apply evalAt_form in Ha, Hb; [|done..]. rewrite Hlen in Ha, Hb. subst. unfold value. cbn [formOf fst snd].
      destruct (isConstant l) eqn:Hcl; cbn [fst snd scale]; rewrite dot_scale.
      * rewrite (constant_form _ l) by done. lia.
      * cbn [orb] in Hc. rewrite (constant_form _ r) by done. lia.
    + apply IHl; [done|]. intros k [v (a & Ha & _)%bind_ok]%Hk. by exists a.
    + apply IHr; [done|]. intros k [v (a & _ & (b & Hb & _)%bind_ok)%bind_ok]%Hk. by exists b.
Qed.

(** *** Enumeration *)
Lemma product_positive shape : Forall (λ extent, 0 < extent) shape → 0 < foldr Z.mul 1 shape.
Proof. induction 1; cbn; [lia|nia]. Qed.

Lemma pointAt_inBox shape index : Forall (λ extent, 0 < extent) shape → inBox shape (pointAt shape index).
Proof.
  intros Hs. revert index. induction Hs as [|extent shape He Hs IH]; intros index; cbn; constructor; [|apply IH].
  apply Z.mod_pos_bound. lia.
Qed.

Lemma pointAt_onto shape point : inBox shape point →
  ∃ index, 0 <= index < foldr Z.mul 1 shape ∧ pointAt shape index = point.
Proof.
  induction 1 as [|v extent point shape Hv Hb (index & Hi & Hp)]; [by exists 0|].
  exists (v + extent * index). split; [cbn; nia|]. cbn. f_equal.
  - rewrite Z.mul_comm, Z.mod_add, Z.mod_small by lia. done.
  - rewrite Z.mul_comm, Z.div_add, Z.div_small by lia. rewrite Z.add_0_l. done.
Qed.

(** *** The ranges of a visit *)
Definition spans (points : list (list Z)) (e : AffineTree) (range : Z * Z) : Prop :=
  (∀ p, p ∈ points → ∃ v, evalAt e p = Ok v ∧ range.1 <= v <= range.2) ∧
  (∃ p, p ∈ points ∧ evalAt e p = Ok range.1) ∧ (∃ p, p ∈ points ∧ evalAt e p = Ok range.2).

Lemma visit_first exprs point ranges : Forall wfTree exprs → Forall in_i64 point →
  visit exprs (replicate (length exprs) (i64_max, - 2 ^ 63)) point = Ok ranges → Forall2 (spans [point]) exprs ranges.
Proof.
  intros Hw Hp. revert ranges. induction Hw as [|e exprs He Hw IH]; intros ranges; cbn [visit length replicate].
  { intros [= <-]. constructor. }
  intros (v & Hv & (rest & Hr & [= <-])%bind_ok)%bind_ok. constructor; [|auto].
  pose proof (evalAt_range e point v He Hp Hv) as Hi. unfold in_i64, i64_max in *.
  assert (Z.min (2 ^ 63 - 1) v = v ∧ Z.max (- 2 ^ 63) v = v) as [-> ->] by lia.
  split_and!; [intros p ->%list_elem_of_singleton; exists v; cbn; auto with lia|exists point; set_solver..].
Qed.

Lemma visit_next exprs points ranges point ranges' : Forall2 (spans points) exprs ranges →
  visit exprs ranges point = Ok ranges' → Forall2 (spans (points ++ [point])) exprs ranges'.
Proof.
  intros H. revert ranges'. induction H as [|e [lo hi] exprs ranges (Hall & (p & Hp & Hlo) & (q & Hq & Hhi)) _ IH];
    intros ranges'; cbn [visit]; [intros [= <-]; constructor|].
  intros (v & Hv & (rest & Hr & [= <-])%bind_ok)%bind_ok. constructor; [|auto]. cbn [fst snd] in *. split_and!; cbn.
  - intros r [Hin| ->%list_elem_of_singleton]%elem_of_app; [|exists v; split; [done|lia]].
    destruct (Hall r Hin) as (w & Hw & ?). exists w. split; [done|lia].
  - destruct (Z.min_spec lo v) as [[_ ->]|[_ ->]]; [exists p|exists point]; set_solver.
  - destruct (Z.max_spec hi v) as [[_ ->]|[_ ->]]; [exists point|exists q]; set_solver.
Qed.

Lemma visitAll_spans exprs points ranges : Forall wfTree exprs → Forall (Forall in_i64) points → points ≠ [] →
  visitAll exprs points = Ok ranges → Forall2 (spans points) exprs ranges.
Proof.
  intros Hw Hp Hne. unfold visitAll. destruct points as [|point points]; [done|].
  apply Forall_cons in Hp as [Hpt _]. cbn [fold_result].
  intros (first & Hf & Hrest)%bind_ok. apply (visit_first _ _ _ Hw Hpt) in Hf.
  assert (∀ done' ranges0 ranges, Forall2 (spans done') exprs ranges0 →
    fold_result (visit exprs) ranges0 points = Ok ranges → Forall2 (spans (done' ++ points)) exprs ranges) as Hind.
  { clear. induction points as [|q points IH]; intros done' r0 r Hr0; cbn [fold_result].
    - intros [= <-]. by rewrite app_nil_r.
    - intros (r1 & H1 & H2)%bind_ok. rewrite cons_middle, app_assoc. eapply IH; [|exact H2]. by eapply visit_next. }
  by apply (Hind [point] first).
Qed.

Lemma countElements_ok overflows negative shape n : countElements overflows negative shape = Ok n →
  Forall (λ extent, 0 <= extent) shape ∧ n = foldr Z.mul 1 shape ∧ in_u64 n.
Proof.
  assert (∀ m, in_u64 m → fold_result (λ points extent,
      fail! negative when bool_decide (extent < 0);
      match checked_mul_u64 points extent with Some points => Ok points | None => Err overflows end) m shape = Ok n →
    Forall (λ extent, 0 <= extent) shape ∧ n = m * foldr Z.mul 1 shape ∧ in_u64 n) as Hind.
  { induction shape as [|x shape IH]; intros m Hm; cbn [fold_result foldr].
    - intros [= <-]. split_and!; [constructor|lia|done].
    - intros (m' & [Hx%bool_decide_eq_false Hc]%fail_then_ok & Hf)%bind_ok.
      destruct (checked_mul_u64 m x) as [mx|] eqn:Hmx; [|done]. injection Hc as <-.
      apply checked_mul_u64_spec in Hmx as [-> Hr]. destruct (IH _ Hr Hf) as (? & -> & ?).
      split_and!; [constructor; [lia|done]|lia|done]. }
  intros Hf. destruct (Hind 1 ltac:(done) Hf) as (? & -> & ?). rewrite Z.mul_1_l in *. auto.
Qed.

(** *** Exactness *)

(** [extent] is the size of the range of an expression over the box, both ends taken. *)
Definition extentIs (shape : list Z) (e : AffineTree) (extent : Z) : Prop :=
  ∃ p q greatest least, inBox shape p ∧ inBox shape q ∧ evalAt e p = Ok greatest ∧ evalAt e q = Ok least ∧
    extent = greatest - least + 1 ∧
    ∀ r, inBox shape r → ∃ v, evalAt e r = Ok v ∧ least <= v <= greatest.

(** Products have a constant side unless a division or a remainder occurs. *)
Definition affineResults (exprs : list AffineTree) : Prop :=
  Forall wfTree exprs ∧ (List.existsb isSemiAffine exprs = false → Forall (λ e, isLinear e = true) exprs).

Lemma spans_extent shape points e range : (∀ p, p ∈ points → inBox shape p) →
  (∀ p, inBox shape p → p ∈ points) ∨ isLinear e = true ∧ points = corners shape →
  spans points e range → extentIs shape e (range.2 - range.1 + 1).
Proof.
  intros Hin Hall (Hs & (p & Hp & Hlo) & (q & Hq & Hhi)). exists q, p, range.2, range.1.
  split_and!; auto. intros r Hr. destruct Hall as [Hall|[He ->]]; [auto|].
  destruct (linear_everywhere e shape r He Hr) as [v Hv]; [intros k Hk; destruct (Hs k Hk) as (? & ? & _); eauto|].
  exists v. split; [done|]. destruct (extreme_corners e shape He) as [Hl Hh].
  destruct (Hs _ Hl) as (a & Ha & ?), (Hs _ Hh) as (b & Hb & ?).
  apply evalAt_form in Hv; [|done]. rewrite (Forall2_length _ _ _ Hr) in Hv. subst v.
  pose proof (form_bounds e shape r a b He Hr Ha Hb). lia.
Qed.

Lemma pointsToVisit_cases exprs shape points visited : affineResults exprs → Forall (λ extent, 0 < extent) shape →
  points = foldr Z.mul 1 shape → pointsToVisit exprs shape points = Ok visited →
  visited ≠ [] ∧ (∀ p, p ∈ visited → inBox shape p) ∧
  ((∀ p, inBox shape p → p ∈ visited) ∨ Forall (λ e, isLinear e = true) exprs ∧ visited = corners shape).
Proof.
  intros [_ Hlin] Hs ->. unfold pointsToVisit.
  destruct (negb _ && _) eqn:Hc; [intros [= <-]|destruct (bool_decide (_ < _)); [done|intros [= <-]]].
  - apply andb_true_iff in Hc as [Hc%negb_true_iff _]. split_and!; [|intros p; by apply corners_inBox|right; auto].
    pose proof (some_corner shape) as H. by destruct (corners shape); [apply elem_of_nil in H|].
  - pose proof (product_positive shape Hs). split_and!.
    + rewrite seqZ_cons by lia. done.
    + intros p (i & -> & _)%list_elem_of_fmap. by apply pointAt_inBox.
    + left. intros p (i & Hi & <-)%pointAt_onto. apply list_elem_of_fmap. exists i. split; [done|].
      apply elem_of_seqZ. lia.
Qed.

Lemma extentOf_ok range extent : extentOf range = Ok extent → extent = range.2 - range.1 + 1.
Proof. unfold extentOf, checked_i64. repeat case_decide; intros [= <-]. lia. Qed.

Lemma mapM_ok {E A B} (f : A → result E B) xs ys : mapM f xs = Ok ys ↔ Forall2 (λ x y, f x = Ok y) xs ys.
Proof.
  revert ys. induction xs as [|x xs IH]; intros ys; cbn.
  - split; [intros [= <-]; constructor|by intros ->%Forall2_nil_inv_l].
  - split.
    + intros (y & Hy & (zs & Hz & [= <-])%bind_ok)%bind_ok. constructor; [done|]. by apply IH.
    + intros (y & zs & Hy & Hz & ->)%Forall2_cons_inv_l. rewrite Hy. cbn. apply IH in Hz. by rewrite Hz.
Qed.

Lemma positive_extents shape : Forall (λ extent, 0 <= extent) shape → foldr Z.mul 1 shape ≠ 0 →
  Forall (λ extent, 0 < extent) shape.
Proof.
  induction 1 as [|x xs Hx _ IH]; cbn; intros Hp; [constructor|]. apply Z.neq_mul_0 in Hp as [? ?].
  constructor; [lia|by apply IH].
Qed.

Lemma box_range shape p : Forall in_i64 shape → inBox shape p → Forall in_i64 p.
Proof.
  intros Hs Hp. induction Hp; [constructor|]. apply Forall_cons in Hs as [? ?]. constructor; [|auto].
  unfold in_i64 in *. lia.
Qed.

Lemma extents_exact exprs shape extents : affineResults exprs → Forall in_i64 shape →
  imageExtents exprs shape = Ok extents →
  if decide (foldr Z.mul 1 shape = 0) then extents = replicate (length exprs) 0
  else Forall2 (extentIs shape) exprs extents.
Proof.
  intros Ha Hi. unfold imageExtents. intros (points & (Hn & -> & _)%countElements_ok & H)%bind_ok.
  destruct (decide _) as [|Hne]; [by injection H|].
  apply (positive_extents shape Hn) in Hne as Hs. apply bind_ok in H as (visited & Hv & (ranges & Hr & H)%bind_ok).
  apply (pointsToVisit_cases _ _ _ _ Ha Hs eq_refl) in Hv as (Hnil & Hin & Hall).
  apply visitAll_spans in Hr; [|apply Ha| |done].
  2: { apply Forall_forall. intros p Hp. by eapply box_range; [|apply Hin]. }
  apply mapM_ok in H. clear Ha. revert extents H. induction Hr as [|e range exprs ranges Hsp Hr IH]; intros extents H.
  - apply Forall2_nil_inv_l in H as ->. constructor.
  - apply Forall2_cons_inv_l in H as (x & xs & ->%extentOf_ok & Hxs & ->).
    assert ((∀ p, inBox shape p → p ∈ visited) ∨ isLinear e = true ∧ visited = corners shape) as Hone.
    { destruct Hall as [|[Hl ->]]; [by left|right]. by apply Forall_cons in Hl as [? _]. }
    constructor; [by eapply spans_extent|]. apply IH; [|done].
    destruct Hall as [|[Hl ->]]; [by left|right; split; [|done]]. by apply Forall_cons in Hl as [_ ?].
Qed.

Section footprint_theorems.
Context `{MLIRTiles} `{!MLIRMapTrees}.

(** The padded extents of a map's results, or the shape itself. *)
Definition imageShape (map : option affine_map) (padding shape physical : list Z) : Prop :=
  let results := from_option getResults [] map in
  if decide (results = []) then physical = shape ∧ padding = []
  else ∃ extents pads, Forall2 (extentIs shape) results extents ∧
         pads = (if decide (padding = []) then replicate (length extents) 0 else padding) ∧
         Forall (λ p, 0 <= p) pads ∧ length pads = length extents ∧ physical = zip_with Z.add extents pads.

Lemma padded_ok pairs physical : mapM padExtent pairs = Ok physical →
  Forall (λ p, 0 <= p) pairs.*2 ∧ physical = (λ e, e.1 + e.2) <$> pairs ∧ Forall (λ x, 0 <= x) physical.
Proof.
  intros Hm%mapM_ok. induction Hm as [|[x p] y pairs ys Hp Hm (IH1 & -> & IH3)]; [by repeat constructor|].
  unfold padExtent, checked_i64 in Hp. apply fail_then_ok in Hp as [Hn%bool_decide_eq_false Hp].
  destruct (decide (in_i64 (x + p))); [|done]. destruct (decide (x + p < 0)); [done|]. injection Hp as <-.
  split_and!; [constructor; [cbn; lia|done]|done|constructor; [lia|done]].
Qed.

Lemma physicalShapeFor_ok map padding shape physical :
  (∀ m, map = Some m → affineResults (getResults m)) → Forall in_i64 shape → foldr Z.mul 1 shape ≠ 0 →
  physicalShapeFor map padding shape = Ok physical → imageShape map padding shape physical.
Proof.
  intros Ha Hs Hne. unfold physicalShapeFor, imageShape. cbv zeta.
  assert ((fail! PaddingWithoutMap when bool_decide (padding ≠ []); Ok shape) = Ok physical →
    physical = shape ∧ padding = []) as Hun.
  { intros [Hp%bool_decide_eq_false [= <-]]%fail_then_ok. split; [done|]. by apply dec_stable. }
  destruct map as [m|]; cbn [from_option]; [|exact Hun]. destruct (decide (getResults m = [])); [exact Hun|].
  intros [_ [_ [Hp%bool_decide_eq_false (extents & He & Hpad)%bind_ok]%fail_then_ok]%fail_then_ok]%fail_then_ok.
  apply (extents_exact _ _ _ (Ha m eq_refl) Hs) in He. rewrite decide_False in He by done.
  pose proof (Forall2_length _ _ _ He) as Hlen. apply padded_ok in Hpad as (Hn & -> & _).
  set (pads := if decide (padding = []) then replicate (length extents) 0 else padding) in *.
  assert (length pads = length extents) as Hpl.
  { unfold pads. destruct (decide (padding = [])); [apply length_replicate|]. destruct (decide (length padding = length (getResults m)));
      [lia|]. destruct Hp; auto. }
  exists extents, pads. split_and!; [done..| |done|].
  - rewrite snd_zip in Hn by lia. done.
  - rewrite (zip_with_zip Z.add). apply list_fmap_ext. by intros ? [? ?] ?.
Qed.

(** C27: The footprint of a value is exact: it is that of the bounding box of the image of
    its index space under the layout map, each side the range of one result of the map
    over all the elements plus its padding (the shape itself without a map), and its
    bytes are the size of that box times the whole width of an element, within 64
    bits; a value without elements occupies nothing. *)
Theorem physicalFootprintFor_exact type map padding fp :
  (∀ shaped, shapedOf type = Some shaped →
     Forall in_i64 (getShape shaped) ∧ getNumElements shaped = foldr Z.mul 1 (getShape shaped) ∧
     ∀ w, float_width (getElementType shaped) = Some w ∨ int_width (getElementType shaped) = Some w → 0 <= w) →
  (∀ m, map = Some m → affineResults (getResults m)) →
  physicalFootprintFor type map padding = Ok fp →
  ∃ shaped, shapedOf type = Some shaped ∧
    if decide (foldr Z.mul 1 (getShape shaped) = 0) then fp = mkFootprint 0 [] true
    else ∃ width, elementByteWidth (getElementType shaped) = Some width ∧ fp_known fp = true ∧
      imageShape map padding (getShape shaped) (physicalShape fp) ∧
      fp_bytes fp = foldr Z.mul 1 (physicalShape fp) * width ∧ in_u64 (fp_bytes fp).
Proof.
  intros Hshape Ha. unfold physicalFootprintFor. destruct type as [t|]; [|done].
  assert (∀ shaped w, shapedOf (Some t) = Some shaped →
    float_width (getElementType shaped) = Some w ∨ int_width (getElementType shaped) = Some w → 0 <= w) as Hw.
  { intros shaped w Hs. by apply (Hshape shaped Hs). }
  intros [Hk%negb_false_iff Hrun]%fail_then_ok. pose proof (tileFactsFor_exact (Some t) Hw) as Hf. rewrite Hk in Hf.
  destruct Hf as (shaped & Hs & Hst & He & Hpos & _ & Hb). exists shaped. split; [done|].
  unfold staticShapeOf in Hrun. rewrite Hs in Hrun. cbn in Hrun. rewrite Hst in Hrun. destruct (Hshape shaped Hs) as (Hi & Hn & _).
  apply bind_ok in Hrun as (count & (_ & -> & _)%countElements_ok & Hrun).
  destruct (decide _) as [|Hne]; [by injection Hrun|]. exists (f_alignment (tileFactsFor (Some t))). split; [done|].
  apply bind_ok in Hrun as (physical & Hp & (elements & (_ & -> & _)%countElements_ok & Hrun)%bind_ok).
  destruct (checked_mul_u64 _ _) as [bytes|] eqn:Hm; [|done]. injection Hrun as <-. cbn.
  apply checked_mul_u64_spec in Hm as [-> Hr].
  assert (f_bytes (tileFactsFor (Some t)) `div` foldr Z.mul 1 (getShape shaped) = f_alignment (tileFactsFor (Some t)))
    as Hq by (rewrite Hb, Hn, Z.mul_comm; by apply Z.div_mul).
  rewrite Hq in Hr |- *.
  split_and!; [done|by apply physicalShapeFor_ok|done|done].
Qed.
End footprint_theorems.

(** ** The endpoint decision *)
Section endpoint_theorems.
Context `{MLIRTiles}.

(** A memory of the kind that the executor of the placement can address and whose
    alignment admits the value of the port. *)
Definition Compatible (graph : WorkloadGraph) (placement : PlanPlacement) (machine : MachineModel) (ref : PortRef)
    (k m : string) : Prop :=
  ∃ node, node ∈ memories machine ∧ mem_id node = m ∧ mem_kind node = k ∧
    (pp_executor placement = "" ∨ isVisible machine m (pp_executor placement) = true) ∧
    admits (lookupPort graph ref) node = true.

Definition OnlyCompatible graph placement machine ref k m : Prop :=
  Compatible graph placement machine ref k m ∧ ∀ x, Compatible graph placement machine ref k x → x = m.

Definition declared (machine : MachineModel) (m : string) : Prop := ∃ node, findMemory machine m = Some node.

(** No other operand or result of the node states a kind that selects another memory. *)
Definition Unchallenged graph placement machine (ref : PortRef) (bare : string) : Prop :=
  ∀ node other k m, findNode graph (pp_node placement) = Some node → n_id node = ref_node ref →
    other ∈ occurrencesOf node → other ≠ ref → occurrenceMemoryKind graph other = Some k →
    OnlyCompatible graph placement machine other k m → m = bare.

Inductive EndpointDecision graph placement machine (ref : PortRef) : EndpointMemory → Prop :=
| decided_by_record binding :
    recordedMemory placement ref = Some binding → declared machine (pm_memory binding) →
    (pp_executor placement = "" ∨ isVisible machine (pm_memory binding) (pp_executor placement) = true) →
    EndpointDecision graph placement machine ref (mkEndpoint (pm_memory binding) None)
| decided_by_kind k m :
    recordedMemory placement ref = None → occurrenceMemoryKind graph ref = Some k →
    OnlyCompatible graph placement machine ref k m →
    EndpointDecision graph placement machine ref (mkEndpoint m None)
| decided_by_rule key m :
    recordedMemory placement ref = None → occurrenceMemoryKind graph ref = None →
    pp_memories placement = {[key := m]} → declared machine m → Unchallenged graph placement machine ref m →
    EndpointDecision graph placement machine ref (mkEndpoint m None)
| decided_instead key m k :
    recordedMemory placement ref = None → occurrenceMemoryKind graph ref = Some k →
    (∀ x, ¬ Compatible graph placement machine ref k x) →
    pp_memories placement = {[key := m]} → declared machine m → Unchallenged graph placement machine ref m →
    EndpointDecision graph placement machine ref
      (mkEndpoint m (Some ("memory: " +:+ whereOf ref +:+ " states kind '" +:+ k +:+
         "', which no memory the executor can address offers" +:+ "; the rule's bare requirement '" +:+ m +:+
         "' decides instead"))).

Lemma compatible_elem graph placement machine ref k m :
  m ∈ compatibleMemoriesFor machine k (pp_executor placement) (lookupPort graph ref) ↔
  Compatible graph placement machine ref k m.
Proof.
  unfold compatibleMemoriesFor, Compatible, reachable. rewrite list_elem_of_fmap. split.
  - intros (node & -> & Hn%list_elem_of_In). apply List.filter_In in Hn as [Hn%list_elem_of_In Hc].
    apply andb_true_iff in Hc as [[Hk%bool_decide_eq_true Hr]%andb_true_iff Ha]. exists node. split_and!; try done.
    apply orb_true_iff in Hr as [He|]; [left; by apply bool_decide_eq_true in He|by right].
  - intros (node & Hn & <- & Hk & Hr & Ha). exists node. split; [done|]. apply list_elem_of_In, List.filter_In.
    split; [by apply list_elem_of_In|]. rewrite Ha, (bool_decide_true _ Hk). cbn. rewrite andb_true_r, orb_true_iff.
    unfold str_empty. destruct Hr as [->|]; [by left|by right].
Qed.

Section distinct.
Variable machine : MachineModel.
Hypothesis Hids : NoDup (mem_id <$> memories machine).

Lemma compatible_NoDup k executor port : NoDup (compatibleMemoriesFor machine k executor port).
Proof.
  unfold compatibleMemoriesFor. induction (memories machine) as [|m ms IH]; cbn; [constructor|].
  apply NoDup_cons in Hids as [Hn Hd]. specialize (IH Hd). destruct (_ && _); [|done]. cbn. constructor; [|done].
  intros (x & He & Hx%list_elem_of_In)%list_elem_of_fmap. apply List.filter_In in Hx as [Hx%list_elem_of_In _].
  apply Hn. rewrite He. by apply list_elem_of_fmap_2.
Qed.

Lemma only_compatible graph placement ref k m :
  compatibleMemoriesFor machine k (pp_executor placement) (lookupPort graph ref) = [m] ↔
  OnlyCompatible graph placement machine ref k m.
Proof.
  unfold OnlyCompatible. setoid_rewrite <- compatible_elem.
  pose proof (compatible_NoDup k (pp_executor placement) (lookupPort graph ref)) as Hnd.
  split; [intros ->; set_solver|]. intros [Hin Hall].
  destruct (compatibleMemoriesFor _ _ _ _) as [|x [|y xs]]; [by apply elem_of_nil in Hin|f_equal; set_solver|].
  apply NoDup_cons in Hnd as [Hx _]. assert (x = m ∧ y = m) as [-> ->] by set_solver. set_solver.
Qed.

Lemma consider_none graph placement ref bare other :
  consider graph placement ref bare machine other = None ↔
  (other ≠ ref → ∀ k m, occurrenceMemoryKind graph other = Some k → OnlyCompatible graph placement machine other k m → m = bare).
Proof.
  unfold consider. destruct (decide (other = ref)); [done|].
  destruct (occurrenceMemoryKind graph other) as [k|]; [|naive_solver]. cbn [mbind option_bind].
  setoid_rewrite <- only_compatible. split.
  - intros Hc _ k' m [= <-] Hm. rewrite Hm in Hc. by destruct (decide (m = bare)).
  - intros Hall. destruct (compatibleMemoriesFor _ _ _ _) as [|m [|]] eqn:Hm; [done| |done].
    rewrite (Hall n k m eq_refl Hm). by rewrite decide_True.
Qed.

Lemma head_omap_none {A B} (f : A → option B) xs : head (omap f xs) = None ↔ ∀ x, x ∈ xs → f x = None.
Proof.
  induction xs as [|x xs IH]; [set_solver|]. cbn. setoid_rewrite elem_of_cons. destruct (f x) eqn:Hx; cbn; [|naive_solver].
  split; [done|]. intros Hall. specialize (Hall x). naive_solver.
Qed.

Lemma bareRequirementConflict_none graph placement ref bare :
  bareRequirementConflict graph placement ref bare machine = None ↔ Unchallenged graph placement machine ref bare.
Proof.
  unfold bareRequirementConflict, Unchallenged. destruct (findNode graph (pp_node placement)) as [node|]; [|naive_solver].
  cbn [mbind option_bind]. destruct (decide (n_id node = ref_node ref)); [|naive_solver].
  rewrite head_omap_none. setoid_rewrite consider_none. naive_solver.
Qed.

Lemma resolveBareRequirement_ok graph placement ref because em :
  resolveBareRequirement graph placement ref machine because = Ok em ↔
  ∃ key m, pp_memories placement = {[key := m]} ∧ declared machine m ∧ Unchallenged graph placement machine ref m ∧
    em = mkEndpoint m ((λ reason, reason +:+ "; the rule's bare requirement '" +:+ m +:+ "' decides instead") <$> because).
Proof.
  unfold resolveBareRequirement, declared. setoid_rewrite <- bareRequirementConflict_none.
  destruct (map_to_list (pp_memories placement)) as [|[key m] [|[key' m'] rest]] eqn:Hm.
  - apply map_to_list_empty_iff in Hm. rewrite Hm. split; [done|]. intros (key & m & He & _).
    symmetry in He. by apply map_non_empty_singleton in He.
  - assert (pp_memories placement = {[key := m]}) as Hs.
    { rewrite <- (list_to_map_to_list (pp_memories placement)), Hm. cbn. by rewrite insert_empty. }
    destruct (findMemory machine m) as [node|] eqn:Hf.
    + destruct (bareRequirementConflict _ _ _ _ _) as [c|] eqn:Hc.
      * split; [done|]. intros (key' & m' & He & _ & Hn & _). rewrite Hs in He. apply (inj2 singletonM) in He as [<- <-].
        congruence.
      * split; [intros [= <-]; exists key, m; eauto|]. intros (key' & m' & He & _ & _ & ->). rewrite Hs in He.
        by apply (inj2 singletonM) in He as [<- <-].
    + split; [done|]. intros (key' & m' & He & [node Hd] & _). rewrite Hs in He.
      apply (inj2 singletonM) in He as [<- <-]. congruence.
  - split; [done|]. intros (k & v & He & _). rewrite He, map_to_list_singleton in Hm. done.
Qed.

Lemma compatible_empty graph placement ref k :
  compatibleMemoriesFor machine k (pp_executor placement) (lookupPort graph ref) = [] ↔
  ∀ x, ¬ Compatible graph placement machine ref k x.
Proof.
  setoid_rewrite <- compatible_elem. destruct (compatibleMemoriesFor _ _ _ _) as [|m ms].
  - split; [intros _ x Hx; by apply elem_of_nil in Hx|done].
  - split; [done|]. intros Hn. destruct (Hn m). left.
Qed.

Lemma addressed placement m : negb (str_empty (pp_executor placement)) && negb (isVisible machine m (pp_executor placement)) = false
  ↔ pp_executor placement = "" ∨ isVisible machine m (pp_executor placement) = true.
Proof.
  unfold str_empty. case_bool_decide; cbn; [tauto|]. rewrite negb_false_iff. naive_solver.
Qed.

(** C28: The memory of an operand or result of a placed operation is decided, never taken as
    the first of a class.  On a machine with distinct memory ids the resolution succeeds
    exactly when one of four facts decides: the binding recorded for the very port, on
    a memory the machine declares and the executor addresses; otherwise, for a stated
    kind, the only memory of that kind that the executor addresses and whose alignment
    admits the value; otherwise, with no kind or no such memory, the only memory the
    placement binds, unless another port of the operation states a kind that selects a
    different one.  The reason is recorded exactly in the case where that binding stands
    in for a stated kind. *)
Theorem resolveEndpointMemory_exact graph placement ref em :
  resolveEndpointMemory graph placement ref machine = Ok em ↔ EndpointDecision graph placement machine ref em.
Proof.
  unfold resolveEndpointMemory. destruct (recordedMemory placement ref) as [binding|] eqn:Hrec.
  { rewrite !fail_then_ok, addressed, bool_decide_eq_false. split.
    - intros (Hd & Ha & [= <-]). apply decided_by_record; [done| |done]. unfold declared.
      destruct (findMemory _ _); [by eexists|done].
    - intros Hd. inversion Hd as [b Hb [node Hn] Hv| | |]; simplify_eq. split_and!; [by rewrite Hn|done..]. }
  destruct (occurrenceMemoryKind graph ref) as [k|] eqn:Hk.
  - destruct (compatibleMemoriesFor machine k _ _) as [|m [|m' rest]] eqn:Hc.
    + pose proof (proj1 (compatible_empty graph placement ref k) Hc) as Hno. destruct (decide _) as [Hs|Hs].
      * rewrite resolveBareRequirement_ok. split.
        { intros (key & m & Hm & Hd & Hu & ->). cbn [fmap option_fmap option_map]. rewrite !str_app_assoc.
          by eapply decided_instead. }
        intros Hd. inversion Hd as [|k' m ? Hk' [Hm _]| |key m k' ? Hk' ? Hm Hdec Hu]; simplify_eq; [by destruct (Hno m)|].
        exists key, m. split_and!; try done. cbn [fmap option_fmap option_map]. by rewrite !str_app_assoc.
      * split; [done|]. intros Hd. inversion Hd as [|k' m ? Hk' [Hm _]| |key m k' ? Hk' ? Hm Hdec Hu]; simplify_eq.
        { by destruct (Hno m). }
        destruct Hs. rewrite Hm. apply map_size_singleton.
    + pose proof (proj1 (only_compatible graph placement ref k m) Hc) as Ho. split.
      * intros [= <-]. by eapply decided_by_kind.
      * intros Hd. inversion Hd as [|k' x ? Hk' Hx| |key x k' ? Hk' Hno]; simplify_eq.
        { destruct Ho as [Hm _]. by rewrite (proj2 Hx m Hm). }
        destruct (Hno m). apply Ho.
    + split; [done|]. intros Hd. exfalso. inversion Hd as [|k' x ? Hk' Hx| |key x k' ? Hk' Hno]; simplify_eq.
      * apply only_compatible in Hx. congruence.
      * apply compatible_empty in Hno. congruence.
  - destruct (decide (pp_memories placement = ∅)) as [He|He].
    + split; [done|]. intros Hd. inversion Hd as [| |key m ? ? Hm|]; simplify_eq. rewrite Hm in He.
      by apply map_non_empty_singleton in He.
    + rewrite resolveBareRequirement_ok. split.
      * intros (key & m & Hm & Hd & Hu & ->). by eapply decided_by_rule.
      * intros Hd. inversion Hd as [| |key m ? ? Hm Hdec Hu|]; simplify_eq. by exists key, m.
Qed.
End distinct.

(** The walk along carried values reads each value once, so its fuel is enough. *)
Lemma carriedMemoryKind_fuel graph fuel visited current : visited ⊆ set_seq 0 (length (values graph)) →
  (carriedFuel graph <= fuel + size visited)%nat →
  carriedMemoryKind fuel graph visited current = carriedMemoryKind (S fuel) graph visited current.
Proof.
  revert visited current. induction fuel as [|fuel IH]; intros visited current Hs Hf.
  - exfalso. apply subseteq_size in Hs. rewrite size_set_seq in Hs. unfold carriedFuel in Hf. lia.
  - destruct current as [v|]; [|done]. cbn [carriedMemoryKind].
    destruct (decide (v ∈ visited)) as [|Hv]; [done|]. destruct (findValue graph v) as [value|] eqn:Hfind; [|done].
    destruct (explicitMemoryKind _); [done|]. destruct (memoryKind value); [done|]. apply IH.
    + apply lookup_lt_Some in Hfind. intros x [->%elem_of_singleton|]%elem_of_union; [apply elem_of_set_seq; lia|auto].
    + rewrite size_union by set_solver. rewrite size_singleton. lia.
Qed.
End endpoint_theorems.

(** ** The peak is the maximum over the steps *)
Section peak.
Variable allocations : list StorageAllocation.
Hypothesis Hbytes : Forall (λ a, 0 <= al_bytes a) allocations.

(** Following the aliases of the allocation at a position. *)
Inductive RootAt : nat → nat → Prop :=
| root_self i a : allocations !! i = Some a → aliasOf a = None → RootAt i i
| root_step i a target j b r : allocations !! i = Some a → aliasOf a = Some target →
    allocations !! j = Some b → al_id b = target → RootAt j r → RootAt i r.

Definition LiveRoot (m : string) (step : Z) (r : nat) : Prop :=
  ∃ i a, allocations !! i = Some a ∧ al_memory a = m ∧ beginStep a <= step <= endStep a ∧ RootAt i r.

Definition total (rs : list nat) : Z := foldr (λ r n, groupBytes allocations r + n) 0 rs.

(** [h] bytes are held in [m] at [step]: those of the live roots, each once. *)
Definition Held (m : string) (step h : Z) : Prop :=
  ∃ rs, NoDup rs ∧ (∀ r, r ∈ rs ↔ LiveRoot m step r) ∧ h = total rs.

Lemma indexById_spec index : indexById allocations = Ok index →
  (∀ i a, allocations !! i = Some a → beginStep a <= endStep a) ∧
  ∀ target j, index !! target = Some j ↔ ∃ b, allocations !! j = Some b ∧ al_id b = target.
Proof.
  unfold indexById. intros Hf.
  set (I := λ (pre : list (nat * StorageAllocation)) (index : gmap Z nat),
    (∀ i a, (i, a) ∈ pre → beginStep a <= endStep a) ∧
    ∀ target j, index !! target = Some j ↔ ∃ b, (j, b) ∈ pre ∧ al_id b = target).
  assert (I (imap (λ i a, (i, a)) allocations) index) as [Hb Hi]; [eapply fold_result_inv; [..|exact Hf]|].
  - split; [by intros i a ?%elem_of_nil|]. intros target j. rewrite lookup_empty.
    split; [done|by intros (b & ?%elem_of_nil & _)].
  - intros pre [i a] post t t' _ [Hb Hi]. cbn [fst snd].
    intros [Hle%bool_decide_eq_false [Hn%bool_decide_eq_false [= <-]]%fail_then_ok]%fail_then_ok. split.
    + intros j b [Hin|[= -> ->]%list_elem_of_singleton]%elem_of_app; [by eapply Hb|lia].
    + intros target j. rewrite lookup_insert_Some, Hi. split.
      * intros [[<- <-]|[Hne (b & Hin & <-)]]; [exists a; set_solver|exists b; set_solver].
      * intros (b & [Hin|[= -> ->]%list_elem_of_singleton]%elem_of_app & <-); [|by left].
        right. split; [|by exists b]. intros He. apply Hn. exists j. apply Hi. exists b. by rewrite He.
  - assert (∀ j b, (j, b) ∈ imap (λ i a, (i, a)) allocations ↔ allocations !! j = Some b) as Him.
    { intros j b. rewrite list_elem_of_lookup. setoid_rewrite list_lookup_imap_Some. naive_solver. }
    setoid_rewrite Him in Hi. setoid_rewrite Him in Hb. done.
Qed.

Lemma chainTo_root index start : (∀ target j, index !! target = Some j ↔ ∃ b, allocations !! j = Some b ∧ al_id b = target) →
  ∀ fuel seen i r, chainTo fuel allocations index start seen i = Ok r → RootAt i r.
Proof.
  intros Hi. induction fuel as [|fuel IH]; intros seen i r; [done|]. cbn [chainTo].
  destruct (allocations !! i) as [a|] eqn:Ha; [|done]. destruct (aliasOf a) as [target|] eqn:Hal.
  - intros [_ [_ Hc]%fail_then_ok]%fail_then_ok. destruct (index !! target) as [j|] eqn:Hj; [|done].
    apply Hi in Hj as (b & Hb & Hid). rewrite Hb in Hc. apply fail_then_ok in Hc as [_ Hc].
    eapply root_step; eauto.
  - intros [= <-]. by eapply root_self.
Qed.

Lemma RootAt_unique : (∀ i j a b, allocations !! i = Some a → allocations !! j = Some b → al_id a = al_id b → i = j) →
  ∀ i r r', RootAt i r → RootAt i r' → r = r'.
Proof.
  intros Hu i r r' H. revert r'. induction H as [i a Ha Hn|i a target j b r Ha Ht Hb Hid _ IH]; intros r' H';
    inversion H' as [i' a' Ha' Hn'|i' a' target' j' b' r'' Ha' Ht' Hb' Hid' Hr']; simplify_eq; [done|].
  apply IH. by rewrite (Hu j j' b b') by congruence.
Qed.

Lemma rootsOf_spec index roots : indexById allocations = Ok index → rootsOf allocations index = Ok roots →
  length roots = length allocations ∧ ∀ i r, roots !! i = Some r → RootAt i r.
Proof.
  intros [_ Hi]%indexById_spec Hr%mapM_ok. split; [by rewrite <- (Forall2_length _ _ _ Hr), length_imap|].
  intros i r Hir. destruct (Forall2_lookup_r _ _ _ _ _ Hr Hir) as ([j a] & Him & Hf).
  apply list_lookup_imap_Some in Him as (x & Hx & [= -> ->]). cbn [fst snd] in Hf. unfold rootFor in Hf.
  apply bind_ok in Hf as (root & Hc & Hf). apply (chainTo_root _ _ Hi) in Hc.
  destruct (allocations !! root); [|done]. destruct (decide (root = i)); [by injection Hf as <-|].
  apply fail_then_ok in Hf as [_ [_ [= <-]]%fail_then_ok]. done.
Qed.

Definition ofMemory (m : string) (gs : list (string * nat)) : list nat := (filter (λ g, g.1 = m) gs).*2.

Lemma total_app rs ss : total (rs ++ ss) = total rs + total ss.
Proof. unfold total. induction rs as [|r rs IH]; [done|]. cbn. rewrite IH. lia. Qed.
Lemma total_perm rs ss : rs ≡ₚ ss → total rs = total ss.
Proof. unfold total. induction 1; cbn; lia. Qed.
Lemma groupBytes_nonneg r : 0 <= groupBytes allocations r.
Proof. unfold groupBytes. destruct (_ !! r) eqn:Hr; cbn; [by eapply (Forall_lookup_1 _ _ _ _ Hbytes Hr)|lia]. Qed.
Lemma total_nonneg rs : 0 <= total rs.
Proof.
  induction rs as [|r rs IH]; [done|]. change (total (r :: rs)) with (groupBytes allocations r + total rs).
  pose proof (groupBytes_nonneg r). lia.
Qed.

Lemma addGroups_ok gs live live' : fold_result (addGroup allocations) live gs = Ok live' →
  ∀ m, live' !! m = if decide (ofMemory m gs = []) then live !! m
                    else Some (default 0 (live !! m) + total (ofMemory m gs)).
Proof.
  revert live. induction gs as [|[n r] gs IH]; intros live; cbn [fold_result]; [intros [= <-] m; by rewrite decide_True|].
  intros (mid & Ha & Hf)%bind_ok m. unfold addGroup in Ha. cbn [fst snd] in Ha.
  destruct (checked_add_u64 _ _) as [held|] eqn:Hadd; [|done]. injection Ha as <-.
  apply checked_add_u64_spec in Hadd as [-> _]. rewrite (IH _ Hf m). unfold ofMemory. rewrite filter_cons. cbn [fst].
  destruct (decide (n = m)) as [->|Hne].
  - rewrite lookup_insert_eq. rewrite (decide_False (P := ((m, r) :: _).*2 = [])) by done. cbn [fmap list_fmap snd total foldr default from_option].
    unfold id. destruct (decide _) as [He|He]; [rewrite He; cbn; f_equal; lia|f_equal; unfold total; lia].
  - by rewrite lookup_insert_ne by done.
Qed.

Lemma groupsAt_elem roots step m r : (m, r) ∈ groupsAt allocations roots step ↔
  ∃ i a, allocations !! i = Some a ∧ roots !! i = Some r ∧ al_memory a = m ∧ beginStep a <= step <= endStep a.
Proof.
  unfold groupsAt. rewrite elem_of_remove_dups, list_elem_of_omap. split.
  - intros ([a r'] & (i & Hi)%list_elem_of_lookup & Hl). cbn [fst snd] in Hl. unfold liveAt in Hl.
    case_bool_decide; [|done]. injection Hl as <- <-. apply lookup_zip_with_Some in Hi as (x & y & [= <- <-] & ? & ?).
    by exists i, a.
  - intros (i & a & Ha & Hr & <- & Hl). exists (a, r). split.
    + apply list_elem_of_lookup. exists i. apply lookup_zip_with_Some. by exists a, r.
    + unfold liveAt. cbn. by rewrite bool_decide_true.
Qed.

Variable index : gmap Z nat.
Hypothesis Hindex : indexById allocations = Ok index.
Variable roots : list nat.
Hypothesis Hroots : rootsOf allocations index = Ok roots.

Lemma ids_unique i j a b : allocations !! i = Some a → allocations !! j = Some b → al_id a = al_id b → i = j.
Proof.
  intros Ha Hb He. destruct (indexById_spec _ Hindex) as [_ Hi].
  assert (index !! al_id a = Some i) as H1 by (apply Hi; by exists a).
  assert (index !! al_id a = Some j) as H2 by (apply Hi; by exists b). congruence.
Qed.

Lemma live_groups m step r : r ∈ ofMemory m (groupsAt allocations roots step) ↔ LiveRoot m step r.
Proof.
  destruct (rootsOf_spec _ _ Hindex Hroots) as [Hlen Hr]. unfold ofMemory. rewrite list_elem_of_fmap. split.
  - intros ([n r'] & -> & [Hn Hg]%list_elem_of_filter). cbn in *. subst n. apply groupsAt_elem in Hg as (i & a & Ha & Hi & Hm & Hl).
    exists i, a. auto.
  - intros (i & a & Ha & Hm & Hl & Hroot). exists (m, r). split; [done|]. apply list_elem_of_filter. split; [done|].
    apply groupsAt_elem. exists i, a. split_and!; [done| |done|lia|lia].
    destruct (lookup_lt_is_Some_2 roots i) as [r' Hi]; [apply lookup_lt_Some in Ha; lia|].
    by rewrite (RootAt_unique ids_unique i r r' Hroot (Hr i r' Hi)).
Qed.

Lemma ofMemory_NoDup m gs : NoDup gs → NoDup (ofMemory m gs).
Proof.
  intros Hnd. unfold ofMemory. apply NoDup_fmap_2_strong; [|by apply NoDup_filter].
  intros [] [] [Hx _]%list_elem_of_filter [Hy _]%list_elem_of_filter He. cbn in *. by subst.
Qed.

Lemma held_unique m step h h' : Held m step h → Held m step h' → h = h'.
Proof.
  intros (rs & Hd & Hr & ->) (rs' & Hd' & Hr' & ->). apply total_perm, NoDup_Permutation; [done..|].
  intros r. by rewrite Hr, Hr'.
Qed.

(** What a step holds in a memory: nothing recorded where no allocation is live, the held
    bytes otherwise. *)
Lemma liveBytesAt_ok step live : liveBytesAt allocations roots step = Ok live →
  ∀ m, match live !! m with
       | Some h => Held m step h ∧ 0 <= h ∧ ∃ r, LiveRoot m step r
       | None => Held m step 0 ∧ ∀ r, ¬ LiveRoot m step r
       end.
Proof.
  intros Hf m. set (gs := merge_sort groupLe (groupsAt allocations roots step)).
  assert (gs ≡ₚ groupsAt allocations roots step) as Hp by apply merge_sort_Permutation.
  assert (ofMemory m gs ≡ₚ ofMemory m (groupsAt allocations roots step)) as Hpm by (unfold ofMemory; by rewrite Hp).
  assert (Held m step (total (ofMemory m gs))) as Hh.
  { exists (ofMemory m gs). split_and!; [|intros r; by rewrite Hpm, live_groups|done].
    apply ofMemory_NoDup. rewrite Hp. apply NoDup_remove_dups. }
  rewrite (addGroups_ok _ _ _ Hf m). fold gs. rewrite lookup_empty. destruct (decide _) as [He|He].
  - rewrite He in Hh. split; [done|]. intros r Hr%live_groups. rewrite <- Hpm, He in Hr. by apply elem_of_nil in Hr.
  - cbn [default from_option]. unfold id. rewrite Z.add_0_l. split; [done|]. split; [apply total_nonneg|].
    destruct (ofMemory m gs) as [|r rs]; [done|]. exists r. apply live_groups. rewrite <- Hpm. left.
Qed.

Lemma peakLoop_ok steps peak : fold_result (λ peak step, live ← liveBytesAt allocations roots step; Ok (raisePeak peak live)) ∅ steps = Ok peak →
  ∀ m, match peak !! m with
       | Some p => (∀ step h, step ∈ steps → Held m step h → h <= p) ∧
                   ∃ step r, step ∈ steps ∧ Held m step p ∧ LiveRoot m step r
       | None => ∀ step r, step ∈ steps → ¬ LiveRoot m step r
       end.
Proof.
  intros Hf m.
  set (I := λ (pre : list Z) (peak : gmap string Z), match peak !! m with
       | Some p => (∀ step h, step ∈ pre → Held m step h → h <= p) ∧
                   ∃ step r, step ∈ pre ∧ Held m step p ∧ LiveRoot m step r
       | None => ∀ step r, step ∈ pre → ¬ LiveRoot m step r
       end).
  change (I steps peak). eapply fold_result_inv; [| |exact Hf]; clear peak Hf; unfold I.
  { rewrite lookup_empty. by intros step r ?%elem_of_nil. }
  intros pre step post t t' _ Hinv (live & Hl & [= <-])%bind_ok. pose proof (liveBytesAt_ok _ _ Hl m) as Hlive.
  unfold raisePeak. rewrite lookup_union_with, lookup_fmap.
  destruct (live !! m) as [h|]; cbn.
  - destruct Hlive as (Hheld & Hnn & r0 & Hr0). rewrite Z.max_r by done.
    destruct (t !! m) as [p|]; cbn.
    + destruct Hinv as [Hmax (s & r & Hs & Hp & Hr)]. split.
      * intros s' h' [Hin| ->%list_elem_of_singleton]%elem_of_app Hh'; [specialize (Hmax s' h' Hin Hh'); lia|].
        rewrite (held_unique _ _ _ _ Hh' Hheld). lia.
      * destruct (Z.max_spec p h) as [[_ ->]|[_ ->]]; [exists step, r0|exists s, r]; set_solver.
    + split; [|exists step, r0; set_solver].
      intros s' h' [Hin| ->%list_elem_of_singleton]%elem_of_app Hh'; [|by rewrite (held_unique _ _ _ _ Hh' Hheld)].
      destruct Hh' as (rs & _ & Hrs & ->). destruct rs as [|r rs]; [done|]. destruct (Hinv s' r Hin). apply Hrs. left.
  - destruct Hlive as [Hheld Hno]. destruct (t !! m) as [p|]; cbn.
    + destruct Hinv as [Hmax (s & r & Hs & Hp & Hr)]. split; [|exists s, r; set_solver].
      intros s' h' [Hin| ->%list_elem_of_singleton]%elem_of_app Hh'; [by apply (Hmax s')|].
      rewrite (held_unique _ _ _ _ Hh' Hheld). destruct Hp as (rs & _ & _ & ->). apply total_nonneg.
    + intros s' r [Hin| ->%list_elem_of_singleton]%elem_of_app; auto.
Qed.
End peak.

Lemma step_bounds allocations : Forall (λ a, in_u64 (beginStep a) ∧ in_u64 (endStep a)) allocations →
  ∀ a, a ∈ allocations → minStep allocations <= beginStep a ∧ endStep a <= maxStep allocations.
Proof.
  unfold minStep, maxStep. induction 1 as [|b allocations _ _ IH]; [by intros a ?%elem_of_nil|]. cbn.
  intros a [->|Ha]%elem_of_cons; [lia|]. specialize (IH a Ha). lia.
Qed.

(** The peak of a plan's storage is the maximum over all its steps: for each memory, no
    step holds more than the recorded bytes and some step with a live allocation holds
    exactly them, where what a step holds are the bytes of the roots of the alias
    chains of the allocations that are live, each root once; a memory without an
    allocation is not recorded. *)
Theorem computePeakStorage_maximum allocations peak m :
  Forall (λ a, 0 <= al_bytes a ∧ in_u64 (beginStep a) ∧ in_u64 (endStep a)) allocations →
  computePeakStorage allocations = Ok peak →
  match peak !! m with
  | Some p => (∀ step h, Held allocations m step h → h <= p) ∧
              ∃ step r, Held allocations m step p ∧ LiveRoot allocations m step r
  | None => ∀ a, a ∈ allocations → al_memory a ≠ m
  end.
Proof.
  intros Hall. assert (Forall (λ a, 0 <= al_bytes a) allocations) as Hb by (eapply Forall_impl; [exact Hall|cbn; tauto]).
  assert (Forall (λ a, in_u64 (beginStep a) ∧ in_u64 (endStep a)) allocations) as Hs
    by (eapply Forall_impl; [exact Hall|cbn; tauto]).
  unfold computePeakStorage. destruct (decide (allocations = [])) as [->|_].
  { intros [= <-]. rewrite lookup_empty. by intros a ?%elem_of_nil. }
  intros (index & Hi & (roots & Hr & [_ Hf]%fail_then_ok)%bind_ok)%bind_ok.
  pose proof (peakLoop_ok _ Hb _ Hi _ Hr _ _ Hf m) as Hp.
  assert (∀ step r, LiveRoot allocations m step r →
    step ∈ seqZ (minStep allocations) (maxStep allocations - minStep allocations + 1)) as Hin.
  { intros step r (i & a & Ha & _ & Hl & _). apply elem_of_seqZ.
    pose proof (step_bounds _ Hs a (list_elem_of_lookup_2 _ _ _ Ha)). lia. }
  destruct (peak !! m) as [p|].
  - destruct Hp as [Hmax (step & r & _ & Hheld & Hlive)]. split; [|by exists step, r].
    intros s h Hh. destruct (decide (s ∈ seqZ (minStep allocations) (maxStep allocations - minStep allocations + 1))) as [|Hout].
    { by apply (Hmax s). }
    destruct Hh as (rs & _ & Hrs & ->). destruct rs as [|r' rs]; [|destruct Hout; eapply Hin; apply Hrs; left].
    destruct Hheld as (rs' & _ & _ & ->). by apply total_nonneg.
  - intros a (i & Ha)%list_elem_of_lookup Hm. destruct (rootsOf_spec _ Hb _ _ Hi Hr) as [Hlen Hroot].
    destruct (lookup_lt_is_Some_2 roots i) as [r Hir]; [apply lookup_lt_Some in Ha; lia|].
    destruct (indexById_spec _ Hb _ Hi) as [Hbe _].
    assert (LiveRoot allocations m (beginStep a) r) as Hlr.
    { exists i, a. split; [done|]. split; [done|]. split; [specialize (Hbe i a Ha); lia|auto]. }
    exact (Hp _ _ (Hin _ _ Hlr) Hlr).
Qed.

(** ** Concrete values *)
#[local] Existing Instance sample_types.
#[local] Existing Instance sample_text.
#[local] Existing Instance sample_print.
#[local] Instance flat_tiles : MLIRTiles := {| parseType _ := None; isScalarType _ := false; getShape s := s.2 |}.

(** The map [tiled] sends a row to blocks of four, [row] transposes, and anything else
    squares its index. *)
Definition sample_results (map : string) : list AffineTree :=
  if decide (map = "tiled") then
    [FloorDivExpr (DimExpr 1) (ConstantExpr 4); AddExpr (DimExpr 0) (ConstantExpr 2); ModExpr (DimExpr 1) (ConstantExpr 4)]
  else if decide (map = "row") then [DimExpr 1; AddExpr (DimExpr 0) (MulExpr (ConstantExpr 2) (DimExpr 1))]
  else [MulExpr (AddExpr (DimExpr 0) (ConstantExpr (-2))) (AddExpr (DimExpr 0) (ConstantExpr (-2)))].
Definition sample_trees : MLIRMapTrees := {|
  getNumDims map := if decide (map ∈ ["tiled"; "row"]) then 2%nat else 1%nat;
  getNumSymbols _ := 0%nat;
  getResults := sample_results;
|}.
#[local] Existing Instance sample_trees.

(** Eight rows of ten 16-bit elements: two and a half blocks of four take three. *)
Example tiled_footprint : physicalFootprintFor (Some (16, [8; 10])) (Some "tiled") [0; 1; 0] =
  Ok (mkFootprint (3 * 9 * 4 * 2) [3; 9; 4] true).
Proof. vm_compute. reflexivity. Qed.

Lemma physicalFootprintFor_exact_witness :
  ∃ width, imageShape (Some "tiled") [0; 1; 0] [8; 10] [3; 9; 4] ∧ 3 * 9 * 4 * 2 = foldr Z.mul 1 [3; 9; 4] * width.
Proof.
  assert (physicalFootprintFor (Some (16, [8; 10])) (Some "tiled") [0; 1; 0] = Ok (mkFootprint (3 * 9 * 4 * 2) [3; 9; 4] true))
    as Hf by (vm_compute; reflexivity).
  unshelve epose proof (physicalFootprintFor_exact (Some (16, [8; 10])) (Some "tiled") [0; 1; 0] _ _ _ Hf)
    as (shaped & Hs & He).
  - intros shaped. cbn. intros [= <-]. split; [by repeat constructor|]. split; [done|].
    cbn. intros w [[=]|[= <-]]. lia.
  - intros m [= <-]. split; [by repeat constructor|done].
  - injection Hs as <-. destruct (decide _) as [Hz|_] in He; [vm_compute in Hz; discriminate|].
    destruct He as (width & _ & _ & Hi & Hb & _). exists width. split; [exact Hi|exact Hb].
Defined.

(** Corners do not bound a product of two dimensions: the squares of -2, -1, 0 and 1 span
    five values, and the corners show only four. *)
Example products_escape_corners :
  imageExtents (sample_results "square") [4] = Ok [4] ∧
  evalAt (MulExpr (AddExpr (DimExpr 0) (ConstantExpr (-2))) (AddExpr (DimExpr 0) (ConstantExpr (-2)))) [2] = Ok 0 ∧
  evalAt (MulExpr (AddExpr (DimExpr 0) (ConstantExpr (-2))) (AddExpr (DimExpr 0) (ConstantExpr (-2)))) [0] = Ok 4.
Proof. split_and!; vm_compute; reflexivity. Qed.

(** One node that reads a value stated to live in [dram] and writes one without a kind. *)
Definition sample_graph : WorkloadGraph :=
  mkGraph [mkNode 0 "micro.vector" [mkPort 0 (Some (16, [8; 10])) None] [mkPort 1 (Some (16, [8; 10])) None] None 0 None None]
    [mkValue 0 (Some (16, [8; 10])) "a" true false None (Some "dram");
     mkValue 1 (Some (16, [8; 10])) "b" false false None None].
Definition sample_placed : PlanPlacement :=
  mkPlacement 0 7 "t.add" (mkBundle "vec" None "emit") "pe.0" {["sram" := "sram.0"]} ∅ ∅ ∅ [] ∅ [] zeroCost 0 None.

Lemma resolveEndpointMemory_exact_witness :
  NoDup (mem_id <$> memories vector_machine) ∧
  resolveEndpointMemory sample_graph sample_placed (mkRef 0 Input 0) vector_machine = Ok (mkEndpoint "dram.0" None) ∧
  EndpointDecision sample_graph sample_placed vector_machine (mkRef 0 Input 0) (mkEndpoint "dram.0" None).
Proof.
  assert (NoDup (mem_id <$> memories vector_machine)) as Hn by (apply (bool_decide_unpack _); vm_compute; exact I).
  assert (resolveEndpointMemory sample_graph sample_placed (mkRef 0 Input 0) vector_machine = Ok (mkEndpoint "dram.0" None))
    as Hr by (vm_compute; reflexivity).
  split; [exact Hn|]. split; [exact Hr|].
  exact (proj1 (resolveEndpointMemory_exact vector_machine Hn sample_graph sample_placed (mkRef 0 Input 0) _) Hr).
Defined.

(** The bare requirement may not decide the output, whose sibling selects another memory. *)
Example challenged_output :
  resolveEndpointMemory sample_graph sample_placed (mkRef 0 Output 0) vector_machine =
  Err (BareConflict "sram.0" "dram" "dram.0").
Proof. vm_compute. reflexivity. Qed.

Definition sample_allocations : list StorageAllocation :=
  [mkAllocation 1 0 "sram.0" 100 None 0 2 false 1; mkAllocation 2 1 "sram.0" 60 None 1 3 false 1;
   mkAllocation 3 2 "sram.0" 80 (Some 1) 3 4 false 1; mkAllocation 4 3 "dram.0" 500 None 0 4 true 1].

Lemma computePeakStorage_maximum_witness :
  computePeakStorage sample_allocations = Ok {["sram.0" := 160; "dram.0" := 500]} ∧
  ∃ step r, Held sample_allocations "sram.0" step 160 ∧ LiveRoot sample_allocations "sram.0" step r.
Proof.
  assert (computePeakStorage sample_allocations = Ok {["sram.0" := 160; "dram.0" := 500]}) as Hp
    by (vm_compute; reflexivity).
  split; [exact Hp|].
  assert (Forall (λ a, 0 <= al_bytes a ∧ in_u64 (beginStep a) ∧ in_u64 (endStep a)) sample_allocations) as Ha
    by (apply (bool_decide_unpack _); vm_compute; exact I).
  exact (proj2 (computePeakStorage_maximum sample_allocations _ "sram.0" Ha Hp)).
Defined.
