(* ===== verification/Placement.v ===== *)
(** Placement and connection synthesis: include/LLK/Mapping/Placement.h and
    lib/Mapping/Placement.cpp.

    Placement chooses, for a mapping candidate, an executor and a compute node and
    memory for each of its requirements; connection synthesis lists the legal ways to
    move a value between two placements, and their bounded products, fan-outs and
    fan-ins.  The theorems say that placements are a prefix of the product of the
    legal choices, that every synthesized connection is legal for the value's layout,
    and that fan-out groups partition the consumers.

    What the code asks of MLIR is in the classes [MLIRTiles], [MLIRPrint] and
    [AffineExprs]; the maps of the last two are the one type [mlir::AffineMap]. *)
From S2P Require Import Prelude Odometer Float MachineModel CostModel WorkloadGraph TileFacts MappingPlan.
From S2P Require LlkMap LayoutConstraints Routing.
Import (hints) LlkMap.
Open Scope string_scope.
Open Scope Z_scope.

Abbreviation LayoutContext := LlkMap.LayoutContext.

Class MLIRMaps `{MLIRTypes} `{LayoutConstraints.AffineExprs} := {
  asAffineMap : LayoutConstraints.AffineMap → affine_map;
  simplifyAffineMap : affine_map → affine_map;
}.

Record PlacementOptions := mkPlacementOptions {
  reduceSymmetry : bool;
  maxInstances : Z;
  maxRoutesPerConnection : Z;
  maxConnectionCombinations : Z;
}.
Definition defaultPlacementOptions : PlacementOptions := mkPlacementOptions true 64 4 64.

Inductive PlacementFailure := NoFailure | NoLegalExecutor | NoLegalLayout | UnsupportedComputeFragment | NoLegalMemory.
#[export] Instance PlacementFailure_eq_dec : EqDecision PlacementFailure.
Proof. solve_decision. Defined.

(** What placement reads of the interface [MappingTarget]. *)
Record MappingTarget := mkTarget { machine : MachineModel; layouts : LayoutConstraints.LayoutRegistry }.

Inductive placement_error :=
| UnknownLayout (layoutClass : string)
| SolveFailed (e : LayoutConstraints.solve_error)
| UnknownMemory (memory : string)
| BytesMustBePositive
| CostFailed (e : cost_error).

(** ** Symmetry of executors *)
Definition attachedComputes (machine : MachineModel) (executor : ExecutorNode) : list string :=
  sort_strings (cmp_id <$> computesFor machine (ex_id executor)).

Definition visibleMemories (machine : MachineModel) (executor : ExecutorNode) : list string :=
  sort_strings (mem_id <$> List.filter (λ node, isVisible machine (mem_id node) (ex_id executor)) (memories machine)).

Definition declaredEquivalent (lhs rhs : ExecutorNode) : bool :=
  bool_decide (ex_kind lhs = ex_kind rhs) &&
  (contains (equivalentTo lhs) (ex_id rhs) || contains (equivalentTo rhs) (ex_id lhs)).

#[export] Instance SchedulingClass_eq_dec : EqDecision SchedulingClass.
Proof. solve_decision. Defined.

Definition interchangeable (machine : MachineModel) (lhs rhs : ExecutorNode) : bool :=
  declaredEquivalent lhs rhs ||
  (bool_decide (ex_kind lhs = ex_kind rhs) && bool_decide (parent lhs = parent rhs) &&
   bool_decide (coordinates lhs = coordinates rhs) && bool_decide (ex_concurrency lhs = ex_concurrency rhs) &&
   bool_decide (schedulingClass lhs = schedulingClass rhs) &&
   bool_decide (attachedComputes machine lhs = attachedComputes machine rhs) &&
   bool_decide (visibleMemories machine lhs = visibleMemories machine rhs)).

Definition reduceSymmetric (machine : MachineModel) (executors : list ExecutorNode) : list ExecutorNode :=
  foldl (λ representatives candidate,
    if existsb (λ kept, interchangeable machine kept candidate) representatives then representatives
    else (representatives ++ [candidate])%list) [] executors.

Section placement.
Context `{MLIRTiles} `{!MLIRPrint} `{AE : LayoutConstraints.AffineExprs} `{!MLIRMaps}.

(** ** Placements *)

(** A requirement with the layout it names and the first solution of it. *)
Record Solved := mkSolvedReq {
  sr_requirement : LayoutRequirement;
  sr_def : LayoutConstraints.LayoutDef;
  sr_solution : LayoutConstraints.LayoutSolution;
}.

Definition requirementContext (layoutContext : LayoutContext) (requirement : LayoutRequirement) : LayoutContext :=
  LlkMap.mkContext (if bool_decide (0 <= lr_rank requirement) then lr_rank requirement else LlkMap.rank layoutContext)
    (if str_empty (lr_elementType requirement) then LlkMap.elementType layoutContext else lr_elementType requirement).

(** [None]: some requirement has no solution the solver decided on. *)
Fixpoint solveRequirements (target : MappingTarget) (layoutContext : LayoutContext) (rs : list LayoutRequirement) :
    result placement_error (option (list Solved)) :=
  match rs with
  | [] => Ok (Some [])
  | r :: rs =>
    match LayoutConstraints.find (layouts target) (layoutClass r) with
    | None => Err (UnknownLayout (layoutClass r))
    | Some def =>
      match LayoutConstraints.solveLayout (machine target) (requirementContext layoutContext r) def
              LayoutConstraints.defaultLimits with
      | Err e => Err (SolveFailed e)
      | Ok solved =>
        if LayoutConstraints.undecided solved then Ok None
        else
          match LayoutConstraints.solutions solved with
          | [] => Ok None
          | solution :: _ =>
            rest ← solveRequirements target layoutContext rs;
            Ok (fmap (M := option) (cons (mkSolvedReq r def solution)) rest)
          end
      end
    end
  end.

(** Two requirements of one port that do not agree. *)
Definition disagree (lhs rhs : Solved) : bool :=
  match lr_port (sr_requirement lhs), lr_port (sr_requirement rhs) with
  | Some p, Some q =>
    bool_decide (p = q) &&
    (bool_decide (layoutClass (sr_requirement lhs) ≠ layoutClass (sr_requirement rhs)) ||
     bool_decide (LayoutConstraints.sol_values (sr_solution lhs) ≠ LayoutConstraints.sol_values (sr_solution rhs)) ||
     bool_decide (LayoutConstraints.sol_map (sr_solution lhs) ≠ LayoutConstraints.sol_map (sr_solution rhs)))
  | _, _ => false
  end.
Fixpoint conflicting (earlier : list Solved) (solved : list Solved) : bool :=
  match solved with
  | [] => false
  | s :: solved => existsb (disagree s) earlier || conflicting (earlier ++ [s]) solved
  end.

Definition matchingExecutors (machine : MachineModel) (candidate : MappingCandidate) : list ExecutorNode :=
  List.filter (λ executor,
    forallb (λ requirement, ownerMatches machine (capability requirement) (ex_id executor))
      (executorRequirements candidate)) (executors machine).

(** The nodes of a required kind that serve an executor. *)
Definition matchingComputes (machine : MachineModel) (executor : ExecutorNode) (r : ComputeRequirement) :
    list ComputeNode :=
  List.filter (λ node, bool_decide (cmp_kind node = cr_kind r)) (computesFor machine (ex_id executor)).
Definition matchingMemories (machine : MachineModel) (executor : ExecutorNode) (r : MemoryRequirement) :
    list MemoryNode :=
  List.filter (λ node, bool_decide (mem_kind node = mr_kind r) && isVisible machine (mem_id node) (ex_id executor))
    (memories machine).

(** The choices for each requirement, unless some requirement has none. *)
Definition nonemptyChoices {A B} (f : A → list B) (rs : list A) : option (list (list B)) :=
  mapM (λ r, match f r with [] => None | matches => Some matches end) rs.
Definition computeChoices (machine : MachineModel) (executor : ExecutorNode) (rs : list ComputeRequirement) :
    option (list (list ComputeNode)) := nonemptyChoices (matchingComputes machine executor) rs.
Definition memoryChoices (machine : MachineModel) (executor : ExecutorNode) (rs : list MemoryRequirement) :
    option (list (list MemoryNode)) := nonemptyChoices (matchingMemories machine executor) rs.

Definition bindComputes (rs : list ComputeRequirement) (chosen : list ComputeNode) : gmap string string :=
  foldl (λ m e, <[cr_kind e.1 := cmp_id e.2]> m) ∅ (zip rs chosen).
Definition bindMemories (rs : list MemoryRequirement) (chosen : list MemoryNode) : gmap string string :=
  foldl (λ m e, match mr_port e.1 with Some _ => m | None => <[mr_kind e.1 := mem_id e.2]> m end) ∅ (zip rs chosen).

(** The comparator of the bindings; [std::sort] may leave entries of one port in
    either order, the model keeps them as they came. *)
Definition directionRank (d : PortDirection) : nat := match d with Input => 0 | Output => 1 end.
Definition portBefore (lhs rhs : PortRef) : bool :=
  if bool_decide (ref_node lhs ≠ ref_node rhs) then bool_decide (ref_node lhs < ref_node rhs)%nat
  else if bool_decide (direction lhs ≠ direction rhs)
  then bool_decide (directionRank (direction lhs) < directionRank (direction rhs))%nat
  else bool_decide (ref_index lhs < ref_index rhs)%nat.
Definition binding_le (lhs rhs : PortMemoryBinding) : Prop := portBefore (pm_port rhs) (pm_port lhs) = false.
#[export] Instance binding_le_dec : RelDecision binding_le.
Proof. intros lhs rhs. unfold binding_le. apply _. Defined.
Definition bindPortMemories (rs : list MemoryRequirement) (chosen : list MemoryNode) : list PortMemoryBinding :=
  merge_sort binding_le
    (omap (λ e, (λ p, mkPortMemory p (mem_id e.2)) <$> mr_port e.1) (zip rs chosen)).

Definition bindLayouts (solved : list Solved) : gmap string string :=
  foldl (λ m s, <[layoutClass (sr_requirement s) := LayoutConstraints.id (sr_def s)]> m) ∅ solved.

Definition solutionKey (solved : list Solved) (i : nat) (s : Solved) : string :=
  let cls := layoutClass (sr_requirement s) in
  if bool_decide (1 < length (List.filter (λ o, bool_decide (layoutClass (sr_requirement o) = cls)) solved))%nat
  then cls +:+ "#" +:+ to_string (Z.of_nat i) else cls.
Definition solvedLayoutOf (s : Solved) : SolvedLayout :=
  mkSolvedLayout (layoutClass (sr_requirement s)) (LayoutConstraints.sol_values (sr_solution s))
    (asAffineMap <$> LayoutConstraints.sol_map (sr_solution s)) (lr_portValue (sr_requirement s))
    (lr_port (sr_requirement s)).
Definition bindSolutions (solved : list Solved) : gmap string SolvedLayout :=
  foldl (λ m e, <[solutionKey solved e.1 e.2 := solvedLayoutOf e.2]> m) ∅ (imap pair solved).

Definition usageOf (rs : list MemoryRequirement) : ResourceUsage :=
  mkUsage 1 (foldl (λ m r, match mr_port r with Some _ => m | None => <[mr_kind r := minBytes r]> m end) ∅ rs).

Definition localCostOf (machine : MachineModel) (lower : Cost) : Cost :=
  match utilizationEstimate (latencyCycles lower) machine (workerThreads machine) with
  | None => lower
  | Some utilization =>
    mkCost (latencyCycles lower) (dramBytes lower) (localBytes lower) (spillBytes lower) utilization
      (transferUtilization lower)
  end.

(** The instance of one choice of nodes; its id is hashed from the rest of it. *)
Definition instanceFor (machine : MachineModel) (candidate : MappingCandidate) (solved : list Solved)
    (executor : ExecutorNode) (chosenComputes : list ComputeNode) (chosenMemories : list MemoryNode) :
    CandidateInstance :=
  let instance id :=
    mkInstance id (mc_id candidate) (mc_bundle candidate) {["executor" := ex_id executor]}
      (bindMemories (memoryRequirements candidate) chosenMemories)
      (bindComputes (computeRequirements candidate) chosenComputes)
      (bindLayouts solved) (bindSolutions solved)
      (bindPortMemories (memoryRequirements candidate) chosenMemories)
      (usageOf (memoryRequirements candidate)) (localCostOf machine (lowerBound candidate)) in
  instance (computeInstanceId (instance 0)).

(** What the odometer's picks select of the choices. *)
Definition selectPicks {A} (choices : list (list A)) (pick : list nat) : list A :=
  omap (λ e, e.1 !! e.2) (zip choices pick).

(** The [do] loop over the choices of one executor; the flag says the cap ended it. *)
Fixpoint placeLoop (fuel : nat) (machine : MachineModel) (options : PlacementOptions) (candidate : MappingCandidate)
    (solved : list Solved) (executor : ExecutorNode) (cs : list (list ComputeNode)) (ms : list (list MemoryNode))
    (pick : list nat) (instances : list CandidateInstance) : list CandidateInstance * bool :=
  match fuel with
  | O => (instances, false)
  | S fuel =>
    let instances := (instances ++
      [instanceFor machine candidate solved executor (selectPicks cs (take (length cs) pick))
         (selectPicks ms (drop (length cs) pick))])%list in
    if bool_decide (maxInstances options <= Z.of_nat (length instances)) then (instances, true)
    else
      match odometer ((length <$> cs) ++ (length <$> ms)) (length pick) pick with
      | (_, None) => (instances, false)
      | (pick, Some _) => placeLoop fuel machine options candidate solved executor cs ms pick instances
      end
  end.
Definition placeFuel (cs : list (list ComputeNode)) (ms : list (list MemoryNode)) : nat :=
  foldr Nat.mul 1%nat ((length <$> cs) ++ (length <$> ms)).

(** The loop over the executors; the reason is that of the first one that fails. *)
Fixpoint placeExecutors (machine : MachineModel) (options : PlacementOptions) (candidate : MappingCandidate)
    (solved : list Solved) (es : list ExecutorNode) (failure : option PlacementFailure)
    (instances : list CandidateInstance) : list CandidateInstance * bool * option PlacementFailure :=
  match es with
  | [] => (instances, false, failure)
  | executor :: es =>
    let skip reason :=
      placeExecutors machine options candidate solved es (Some (default reason failure)) instances in
    match computeChoices machine executor (computeRequirements candidate) with
    | None => skip UnsupportedComputeFragment
    | Some cs =>
      match memoryChoices machine executor (memoryRequirements candidate) with
      | None => skip NoLegalMemory
      | Some ms =>
        match placeLoop (placeFuel cs ms) machine options candidate solved executor cs ms
                (replicate (length cs + length ms) O) instances with
        | (instances, true) => (instances, true, failure)
        | (instances, false) => placeExecutors machine options candidate solved es failure instances
        end
      end
    end
  end.

(** The instances, whether the cap was reached, and the reason that is reported. *)
Record Placements := mkPlacements {
  pl_instances : list CandidateInstance;
  pl_truncated : bool;
  pl_failure : option PlacementFailure;
}.

Definition enumeratePlacements (candidate : MappingCandidate) (target : MappingTarget) (layoutContext : LayoutContext)
    (options : PlacementOptions) : result placement_error Placements :=
  r ← solveRequirements target layoutContext (layoutRequirements candidate);
  match r with
  | None => Ok (mkPlacements [] false (Some NoLegalLayout))
  | Some solved =>
    if conflicting [] solved then Ok (mkPlacements [] false (Some NoLegalLayout))
    else
      let matching := matchingExecutors (machine target) candidate in
      let es := if reduceSymmetry options then reduceSymmetric (machine target) matching else matching in
      let '(instances, truncated, failure) :=
        placeExecutors (machine target) options candidate solved es None [] in
      let failure := if bool_decide (es = []) then Some NoLegalExecutor else failure in
      Ok (mkPlacements instances truncated (if bool_decide (instances = []) then failure else Some NoFailure))
  end.
End placement.

(** ** Symmetry reduction *)
Lemma reduceSymmetric_app machine es e :
  reduceSymmetric machine (es ++ [e]) =
  if existsb (λ kept, interchangeable machine kept e) (reduceSymmetric machine es) then reduceSymmetric machine es
  else (reduceSymmetric machine es ++ [e])%list.
Proof. unfold reduceSymmetric. by rewrite foldl_app. Qed.

(** Nothing is lost but copies: the representatives are some of the executors, in
    their order, no later one interchangeable with an earlier one, and every executor
    is a representative or interchangeable with an earlier one. *)
Lemma reduceSymmetric_spec machine es :
  reduceSymmetric machine es `sublist_of` es ∧
  (∀ i j a b, reduceSymmetric machine es !! i = Some a → reduceSymmetric machine es !! j = Some b →
    (i < j)%nat → interchangeable machine a b = false) ∧
  ∀ e, e ∈ es → e ∈ reduceSymmetric machine es ∨
    ∃ kept, kept ∈ reduceSymmetric machine es ∧ interchangeable machine kept e = true.
Proof.
  induction es as [|e es (Hsub & Hpair & Hcov)] using rev_ind; [split_and!; [done..|by intros ? ?%not_elem_of_nil]|].
  rewrite reduceSymmetric_app. destruct (existsb _ _) eqn:Hex.
  - split_and!; [by apply sublist_inserts_r|done|].
    intros x [Hx| ->%list_elem_of_singleton]%elem_of_app; [by apply Hcov|].
    apply existsb_exists in Hex as (kept & Hk & Hi). right. exists kept. split; [by apply list_elem_of_In|done].
  - split_and!; [by apply sublist_app|..].
    + intros i j a b Ha Hb Hij. apply lookup_app_Some in Ha as [Ha|[Hi Ha]], Hb as [Hb|[Hj Hb]].
      * by eapply Hpair.
      * apply list_lookup_singleton_Some in Hb as [_ <-].
        apply not_true_iff_false. intros Hi. apply not_true_iff_false in Hex. apply Hex, existsb_exists.
        exists a. split; [|done]. by eapply list_elem_of_In, list_elem_of_lookup_2.
      * apply lookup_lt_Some in Hb. lia.
      * apply list_lookup_singleton_Some in Ha as [Ha _], Hb as [Hb _]. lia.
    + intros x [Hx| ->%list_elem_of_singleton]%elem_of_app.
      * destruct (Hcov x Hx) as [|(kept & ? & ?)]; [left; set_solver|right; exists kept; set_solver].
      * left. set_solver.
Qed.

Section placement_proofs.
Context `{MLIRTiles} `{!MLIRPrint} `{AE : LayoutConstraints.AffineExprs} `{!MLIRMaps}.
Variables (candidate : MappingCandidate) (target : MappingTarget) (layoutContext : LayoutContext)
  (options : PlacementOptions).

(** Nodes that satisfy the requirements on an executor. *)
Definition LegalChoice (executor : ExecutorNode) (chosenComputes : list ComputeNode) (chosenMemories : list MemoryNode) :
    Prop :=
  Forall2 (λ r c, c ∈ computesFor (machine target) (ex_id executor) ∧ cmp_kind c = cr_kind r)
    (computeRequirements candidate) chosenComputes ∧
  Forall2 (λ r m, m ∈ memories (machine target) ∧ mem_kind m = mr_kind r ∧
                  isVisible (machine target) (mem_id m) (ex_id executor) = true)
    (memoryRequirements candidate) chosenMemories.

Definition capOf : nat := Z.to_nat (Z.max 1 (maxInstances options)).

Variable solved : list Solved.
Notation instanceOf := (instanceFor (machine target) candidate solved).

Definition instancesAt (executor : ExecutorNode) (cs : list (list ComputeNode)) (ms : list (list MemoryNode))
    (pick : list nat) : CandidateInstance :=
  instanceOf executor (selectPicks cs (take (length cs) pick)) (selectPicks ms (drop (length cs) pick)).

(** The specification: everything one executor, or all, admit. *)
Definition placementsOn (executor : ExecutorNode) : list CandidateInstance :=
  match computeChoices (machine target) executor (computeRequirements candidate),
        memoryChoices (machine target) executor (memoryRequirements candidate) with
  | Some cs, Some ms => instancesAt executor cs ms <$> index_vectors ((length <$> cs) ++ (length <$> ms))
  | _, _ => []
  end.

Lemma placeLoop_enum executor cs ms v l :
  enum ((length <$> cs) ++ (length <$> ms)) v l → length v = (length cs + length ms)%nat →
  ∀ fuel instances, (length l ≤ fuel)%nat → (length instances < capOf)%nat →
  placeLoop fuel (machine target) options candidate solved executor cs ms v instances =
    ((instances ++ take (capOf - length instances) (instancesAt executor cs ms <$> l))%list,
     bool_decide (capOf <= length instances + length l)%nat).
Proof.
  intros Hen. induction Hen as [v Hv|v v' l Hv Hen IH]; intros Hlv [|fuel] instances Hf Hlt; cbn in Hf; try lia;
    cbn [placeLoop fmap list_fmap]; set (next := (instances ++ [_])%list).
  all: assert (length next = S (length instances)) as Hli by (unfold next; rewrite length_app; cbn; lia).
  all: assert (∃ k, capOf - length instances = S k)%nat as [k Hk] by (exists (capOf - length instances - 1)%nat; lia).
  all: assert (bool_decide (maxInstances options <= Z.of_nat (length next)) = bool_decide (capOf <= length next)%nat) as ->
    by (apply bool_decide_ext; rewrite Hli; unfold capOf; lia).
  all: assert (length v = length ((length <$> cs) ++ (length <$> ms))) as Hls
    by (rewrite length_app, !length_fmap; lia).
  all: pose proof (odometer_next _ _ Hls) as Ho; rewrite Hv in Ho; rewrite Hk; cbn [take].
  - rewrite Ho. case_bool_decide as Hc.
    + rewrite take_nil. rewrite bool_decide_true; [done|cbn; lia].
    + rewrite take_nil, bool_decide_false; [done|cbn; lia].
  - destruct Ho as (Hl' & q & -> & _). case_bool_decide as Hc.
    + assert (k = 0)%nat as -> by lia. rewrite take_0, bool_decide_true; [done|cbn; lia].
    + rewrite IH; [|rewrite Hl', <- Hls; done|lia|lia]. rewrite Hli.
      assert (capOf - S (length instances) = k)%nat as -> by lia.
      unfold next. rewrite <- (assoc_L (++)%list). f_equal. apply bool_decide_ext. cbn. lia.
Qed.

Lemma choices_nonempty {A B} (f : A → list B) rs css :
  nonemptyChoices f rs = Some css →
  css = f <$> rs ∧ Forall (λ n, n ≠ O) (length <$> css).
Proof.
  unfold nonemptyChoices. revert css. induction rs as [|r rs IH]; intros css; cbn; [intros [= <-]; by split|].
  destruct (f r) as [|x xs] eqn:Hf; [done|]. cbn. destruct (mapM _ rs) as [rest|]; [|done].
  cbn. intros [= <-]. destruct (IH rest eq_refl) as [-> HF]. split; [by cbn; rewrite ?Hf|by constructor].
Qed.

Lemma choices_missing {A B} (f : A → list B) rs :
  nonemptyChoices f rs = None ↔ ∃ r, r ∈ rs ∧ f r = [].
Proof.
  unfold nonemptyChoices. rewrite mapM_None, Exists_exists. split; intros (r & Hr & Hf); exists r; (split; [done|]).
  - by destruct (f r).
  - by rewrite Hf.
Qed.

Lemma selectPicks_legal {A B} (f : A → list B) rs pick chosen :
  Forall2 (λ i n, (i < n)%nat) pick (length <$> (f <$> rs)) →
  selectPicks (f <$> rs) pick = chosen → Forall2 (λ r c, c ∈ f r) rs chosen.
Proof.
  revert pick chosen. induction rs as [|r rs IH]; intros [|i pick] chosen HF; rewrite ?fmap_cons in *; inversion HF; subst.
  - intros <-. constructor.
  - unfold selectPicks. cbn. destruct (lookup_lt_is_Some_2 (f r) i) as [c Hc]; [done|]. rewrite Hc.
    intros <-. constructor; [by eapply list_elem_of_lookup_2|]. by apply (IH pick).
Qed.

Lemma selectPicks_complete {A B} (f : A → list B) rs chosen : Forall2 (λ r c, c ∈ f r) rs chosen →
  ∃ pick, Forall2 (λ i n, (i < n)%nat) pick (length <$> (f <$> rs)) ∧ selectPicks (f <$> rs) pick = chosen.
Proof.
  induction 1 as [|r c rs chosen Hc _ (pick & HF & IH)]; [by exists []|].
  apply list_elem_of_lookup_1 in Hc as [i Hi]. exists (i :: pick). rewrite !fmap_cons. split.
  - constructor; [by eapply lookup_lt_Some|done].
  - unfold selectPicks in *. cbn. rewrite Hi. by f_equal.
Qed.

Lemma matchingComputes_elem executor r c :
  c ∈ matchingComputes (machine target) executor r ↔
  c ∈ computesFor (machine target) (ex_id executor) ∧ cmp_kind c = cr_kind r.
Proof. unfold matchingComputes. by rewrite list_elem_of_In, filter_In, <- list_elem_of_In, bool_decide_eq_true. Qed.
Lemma matchingMemories_elem executor r m :
  m ∈ matchingMemories (machine target) executor r ↔
  m ∈ memories (machine target) ∧ mem_kind m = mr_kind r ∧ isVisible (machine target) (mem_id m) (ex_id executor) = true.
Proof.
  unfold matchingMemories. by rewrite list_elem_of_In, filter_In, <- list_elem_of_In, andb_true_iff, bool_decide_eq_true.
Qed.

Lemma LegalChoice_alt executor cs ms : LegalChoice executor cs ms ↔
  Forall2 (λ r c, c ∈ matchingComputes (machine target) executor r) (computeRequirements candidate) cs ∧
  Forall2 (λ r m, m ∈ matchingMemories (machine target) executor r) (memoryRequirements candidate) ms.
Proof.
  unfold LegalChoice. split; intros [Hc Hm]; (split; (eapply Forall2_impl; [eassumption|])); intros r n;
    rewrite ?matchingComputes_elem, ?matchingMemories_elem; done.
Qed.

Lemma chosen_nonempty {A B} (f : A → list B) rs chosen r :
  Forall2 (λ r c, c ∈ f r) rs chosen → r ∈ rs → f r ≠ [].
Proof.
  intros HF [i Hi]%list_elem_of_lookup_1 Hf. eapply Forall2_lookup_l in HF as (c & _ & Hc); [|exact Hi].
  rewrite Hf in Hc. by apply not_elem_of_nil in Hc.
Qed.

Lemma placementsOn_elem executor inst :
  inst ∈ placementsOn executor ↔ ∃ cs ms, LegalChoice executor cs ms ∧ inst = instanceOf executor cs ms.
Proof.
  setoid_rewrite LegalChoice_alt. unfold placementsOn, computeChoices, memoryChoices.
  destruct (nonemptyChoices _ (computeRequirements candidate)) as [cs|] eqn:Hcs; last first.
  { apply choices_missing in Hcs as (r & Hr & Hf). split; [by intros ?%not_elem_of_nil|].
    intros (cs & ms & [Hc _] & _). by destruct (chosen_nonempty _ _ _ _ Hc Hr). }
  apply choices_nonempty in Hcs as [-> _].
  destruct (nonemptyChoices _ (memoryRequirements candidate)) as [ms|] eqn:Hms; last first.
  { apply choices_missing in Hms as (r & Hr & Hf). split; [by intros ?%not_elem_of_nil|].
    intros (cs & ms & [_ Hm] & _). by destruct (chosen_nonempty _ _ _ _ Hm Hr). }
  apply choices_nonempty in Hms as [-> _].
  rewrite list_elem_of_fmap. setoid_rewrite elem_of_index_vectors. unfold instancesAt. split.
  - intros (pick & -> & HF). apply Forall2_app_inv_r in HF as (pc & pm & Hc & Hm & ->).
    assert (length pc = length (matchingComputes (machine target) executor <$> computeRequirements candidate)) as Hl
      by (apply Forall2_length in Hc; by rewrite !length_fmap in *).
    rewrite take_app_length', drop_app_length' by done. eexists _, _.
    split; [split; by eapply selectPicks_legal|done].
  - intros (cs & ms & [Hc Hm] & ->).
    apply selectPicks_complete in Hc as (pc & Hc & <-), Hm as (pm & Hm & <-). exists (pc ++ pm)%list.
    assert (length pc = length (matchingComputes (machine target) executor <$> computeRequirements candidate)) as Hl
      by (apply Forall2_length in Hc; by rewrite !length_fmap in *).
    rewrite take_app_length', drop_app_length' by done. split; [done|]. by apply Forall2_app.
Qed.
(** Why an executor takes no instance. *)
Definition executorReason (executor : ExecutorNode) : option PlacementFailure :=
  match computeChoices (machine target) executor (computeRequirements candidate) with
  | None => Some UnsupportedComputeFragment
  | Some _ =>
    match memoryChoices (machine target) executor (memoryRequirements candidate) with
    | None => Some NoLegalMemory
    | Some _ => None
    end
  end.

Lemma executorReason_None executor : executorReason executor = None ↔ placementsOn executor ≠ [].
Proof.
  unfold executorReason, placementsOn. destruct (computeChoices _ _ _) as [cs|] eqn:Hc; [|done].
  destruct (memoryChoices _ _ _) as [ms|] eqn:Hm; [|done]. split; [intros _ Hn|done].
  apply choices_nonempty in Hc as [_ Hc], Hm as [_ Hm].
  assert (enum ((length <$> cs) ++ (length <$> ms)) (zeros ((length <$> cs) ++ (length <$> ms)))
    (index_vectors ((length <$> cs) ++ (length <$> ms)))) as Hen by (apply index_vectors_enum; by apply Forall_app).
  apply enum_nonempty in Hen as [l Hl]. by rewrite Hl in Hn.
Qed.

Lemma placeExecutors_spec es failure instances : (length instances < capOf)%nat →
  ∃ failure',
    placeExecutors (machine target) options candidate solved es failure instances =
      ((instances ++ take (capOf - length instances) (es ≫= placementsOn))%list,
       bool_decide (capOf <= length instances + length (es ≫= placementsOn))%nat, failure') ∧
    (es ≫= placementsOn = [] → failure' = match failure with Some f => Some f | None => head es ≫= executorReason end).
Proof.
  revert failure instances. induction es as [|e es IH]; intros failure instances Hlt.
  - exists failure. cbn. rewrite take_nil, app_nil_r, bool_decide_false by lia. by destruct failure.
  - cbn [placeExecutors mbind list_bind]. fold (mbind (M := list) placementsOn es).
    assert (∀ reason, executorReason e = Some reason → placementsOn e = []) as Hskip.
    { intros reason Hr. destruct (placementsOn e) eqn:Hp; [done|].
      assert (executorReason e = None) by (apply executorReason_None; by rewrite Hp). congruence. }
    unfold executorReason in Hskip. cbn [head].
    destruct (computeChoices _ e _) as [cs|] eqn:Hc; [destruct (memoryChoices _ e _) as [ms|] eqn:Hm|].
    + pose proof Hc as Hc'. pose proof Hm as Hm'. apply choices_nonempty in Hc' as [_ Hc'], Hm' as [_ Hm'].
      set (sizes := ((length <$> cs) ++ (length <$> ms))%list).
      assert (placementsOn e = instancesAt e cs ms <$> index_vectors sizes) as Hp
        by (unfold placementsOn; by rewrite Hc, Hm).
      assert (enum sizes (zeros sizes) (index_vectors sizes)) as Hen by (apply index_vectors_enum; by apply Forall_app).
      assert (length cs + length ms = length sizes)%nat as Hls by (unfold sizes; by rewrite length_app, !length_fmap).
      assert (placementsOn e ≠ []) as Hne.
      { rewrite Hp. apply enum_nonempty in Hen as [l ->]. done. }
      rewrite Hls. erewrite (placeLoop_enum e cs ms (zeros sizes) (index_vectors sizes));
        [|done|unfold zeros; by rewrite length_replicate|unfold placeFuel; by rewrite index_vectors_length|done].
      rewrite <- Hp. assert (length (index_vectors sizes) = length (placementsOn e)) as Hlp by (by rewrite Hp, length_fmap).
      rewrite Hlp. case_bool_decide as Hcap.
      * exists failure. split.
        { rewrite length_app, take_app_le by lia. rewrite (bool_decide_true (_ <= _ + (_ + _))%nat); [done|lia]. }
        intros [? _]%app_eq_nil. done.
      * rewrite (take_ge (placementsOn e)) by lia.
        destruct (IH failure (instances ++ placementsOn e)%list) as (f' & -> & Hf'); [rewrite length_app; lia|].
        exists f'. split; [|by intros [? _]%app_eq_nil].
        rewrite !length_app, take_app_ge by lia. rewrite <- (assoc_L (++)%list).
        rewrite Nat.sub_add_distr. do 2 f_equal. apply bool_decide_ext. lia.
    + rewrite (Hskip _ eq_refl). destruct (IH (Some (default NoLegalMemory failure)) instances Hlt) as (f' & -> & Hf').
      exists f'. split; [done|]. intros Hn. rewrite (Hf' Hn). cbn [head mbind option_bind]. unfold executorReason. rewrite Hc, Hm. by destruct failure.
    + rewrite (Hskip _ eq_refl).
      destruct (IH (Some (default UnsupportedComputeFragment failure)) instances Hlt) as (f' & -> & Hf').
      exists f'. split; [done|]. intros Hn. rewrite (Hf' Hn). cbn [head mbind option_bind]. unfold executorReason. rewrite Hc. by destruct failure.
Qed.

Definition representatives : list ExecutorNode :=
  let matching := matchingExecutors (machine target) candidate in
  if reduceSymmetry options then reduceSymmetric (machine target) matching else matching.

(** The reason reported when nothing is placed: the first executor's. *)
Definition reasonFor (es : list ExecutorNode) : PlacementFailure :=
  match es with
  | [] => NoLegalExecutor
  | e :: _ =>
    if bool_decide (computeChoices (machine target) e (computeRequirements candidate) = None)
    then UnsupportedComputeFragment else NoLegalMemory
  end.

(** C21: Placement lists, executor by executor and with the last requirement varying
    fastest, one instance per legal choice of a compute node and a memory for every
    requirement, up to the cap, and says so when it reached it.  When there is none,
    the reason is that of the first executor, or that no executor matches. *)
Theorem enumeratePlacements_exact :
  solveRequirements target layoutContext (layoutRequirements candidate) = Ok (Some solved) →
  conflicting [] solved = false →
  let all := representatives ≫= placementsOn in
  enumeratePlacements candidate target layoutContext options =
    Ok (mkPlacements (take capOf all) (bool_decide (capOf <= length all)%nat)
          (Some (if bool_decide (all = []) then reasonFor representatives else NoFailure))) ∧
  ∀ inst, inst ∈ all ↔ ∃ e cs ms, e ∈ representatives ∧ LegalChoice e cs ms ∧ inst = instanceOf e cs ms.
Proof.
  intros Hs Hc. cbn zeta. split.
  - unfold enumeratePlacements. rewrite Hs. cbn [mbind result_bind]. rewrite Hc. fold representatives.
    assert (0 < capOf)%nat as Hcap by (unfold capOf; lia).
    destruct (placeExecutors_spec representatives None [] Hcap) as (f & -> & Hf). cbn [length app].
    rewrite Nat.sub_0_r. cbn [plus]. do 2 f_equal.
    destruct (decide (representatives ≫= placementsOn = [])) as [Hn|Hn].
    + rewrite Hn, take_nil, !bool_decide_true by done. rewrite (Hf Hn).
      destruct representatives as [|e es]; [done|]. rewrite bool_decide_false by done. cbn [head mbind option_bind].
      apply app_eq_nil in Hn as [Hn _]. unfold reasonFor. unfold executorReason.
      destruct (executorReason e) eqn:He; [|by apply executorReason_None in He]. unfold executorReason in He.
      destruct (computeChoices _ _ _); [|done]. rewrite bool_decide_false by done. by destruct (memoryChoices _ _ _).
    + rewrite (bool_decide_false (representatives ≫= _ = [])) by done. rewrite bool_decide_false; [done|].
      destruct (representatives ≫= placementsOn); [done|]. by destruct capOf; [lia|].
  - intros inst. rewrite list_elem_of_bind. setoid_rewrite placementsOn_elem. naive_solver.
Qed.

(** An error means a requirement names a layout nobody declared, or its solve failed. *)
Lemma solveRequirements_error rs e : solveRequirements target layoutContext rs = Err e →
  ∃ r, r ∈ rs ∧
    ((LayoutConstraints.find (layouts target) (layoutClass r) = None ∧ e = UnknownLayout (layoutClass r)) ∨
     ∃ def s, LayoutConstraints.find (layouts target) (layoutClass r) = Some def ∧ e = SolveFailed s ∧
       LayoutConstraints.solveLayout (machine target) (requirementContext layoutContext r) def
         LayoutConstraints.defaultLimits = Err s).
Proof.
  induction rs as [|r rs IH]; [done|]. cbn [solveRequirements].
  destruct (LayoutConstraints.find _ _) as [def|] eqn:Hd; [|intros [= <-]; exists r; set_solver].
  destruct (LayoutConstraints.solveLayout _ _ _ _) as [res|s] eqn:Hsolve.
  - destruct (LayoutConstraints.undecided res); [done|]. destruct (LayoutConstraints.solutions res); [done|].
    destruct (solveRequirements _ _ rs) as [rest|s] eqn:Hr; [done|]. intros [= <-].
    destruct (IH eq_refl) as (r' & ? & ?). exists r'. split; [by right|done].
  - intros [= <-]. exists r. split; [by left|]. right. by exists def, s.
Qed.

(** The requirements in use name known layouts, hold the first decided solution of
    each, and agree on every port. *)
Lemma solveRequirements_ok rs ss : solveRequirements target layoutContext rs = Ok (Some ss) →
  Forall2 (λ r s, sr_requirement s = r ∧ LayoutConstraints.find (layouts target) (layoutClass r) = Some (sr_def s) ∧
    ∃ res, LayoutConstraints.solveLayout (machine target) (requirementContext layoutContext r) (sr_def s)
             LayoutConstraints.defaultLimits = Ok res ∧
      LayoutConstraints.undecided res = false ∧ head (LayoutConstraints.solutions res) = Some (sr_solution s)) rs ss.
Proof.
  revert ss. induction rs as [|r rs IH]; intros ss; cbn [solveRequirements]; [intros [= <-]; constructor|].
  destruct (LayoutConstraints.find _ _) as [def|] eqn:Hd; [|done].
  destruct (LayoutConstraints.solveLayout _ _ _ _) as [res|s] eqn:Hsolve; [|done].
  destruct (LayoutConstraints.undecided res) eqn:Hu; [done|].
  destruct (LayoutConstraints.solutions res) as [|sol sols] eqn:Hsol; [done|].
  destruct (solveRequirements _ _ rs) as [[rest|]|e] eqn:Hr; try done. intros [= <-].
  constructor; [|by apply IH]. cbn. split_and!; [done..|]. exists res. by rewrite Hsol.
Qed.
End placement_proofs.

(** ** A concrete placement *)
#[local] Existing Instance sample_types.
#[local] Existing Instance sample_text.
#[local] Existing Instance sample_print.
#[local] Existing Instance LayoutConstraints.plainAffine.

Definition sample_tiles : MLIRTiles := {| parseType _ := None; isScalarType _ := false; getShape s := s.2 |}.
#[local] Existing Instance sample_tiles.
Definition sample_maps : MLIRMaps := {| asAffineMap _ := "()"; simplifyAffineMap m := m |}.
#[local] Existing Instance sample_maps.

Definition sample_target : MappingTarget := mkTarget vector_machine [].
Definition sample_candidate : MappingCandidate :=
  mkCandidate 1 "vector" [O] (mkBundle "vec" None "emit") [] [mkExecutorRequirement "worker" ∅]
    [mkMemoryRequirement "sram" 256 None; mkMemoryRequirement "dram" 512 (Some (mkRef 0 Input 0))] []
    [mkComputeRequirement "vector_engine"] ∅ zeroCost.

Example sample_placed :
  (λ p, (length (pl_instances p), pl_truncated p, pl_failure p)) <$>
    (match enumeratePlacements sample_candidate sample_target (LlkMap.mkContext 2 "f32") defaultPlacementOptions with
     | Ok p => Some p
     | Err _ => None
     end) = Some (1%nat, false, Some NoFailure).
Proof. vm_compute. reflexivity. Qed.

Lemma enumeratePlacements_exact_witness : ∃ all,
  enumeratePlacements sample_candidate sample_target (LlkMap.mkContext 2 "f32") defaultPlacementOptions =
    Ok (mkPlacements (take 64 all) (bool_decide (64 <= length all)%nat)
          (Some (if bool_decide (all = []) then
                   reasonFor sample_candidate sample_target (representatives sample_candidate sample_target defaultPlacementOptions)
                 else NoFailure))).
Proof.
  eexists. refine (proj1 (enumeratePlacements_exact sample_candidate sample_target (LlkMap.mkContext 2 "f32")
    defaultPlacementOptions [] _ _)); reflexivity.
Defined.
