(* ===== verification/RuleMatching.v ===== *)
(** Matching rules: the second half of lib/Mapping/MappingRules.cpp and the port
    lookup of include/LLK/Mapping/MappingHelpers.h.

    A one-operation rule matches a node whose predicates it satisfies; a graph rule
    matches the bindings of its nodes found by a bounded backtracking search.  A
    match becomes a candidate once an assignment of the rule's parameters satisfies
    its constraints, and a recorded selection is checked against the same rule.
    The theorems: the backtracking finds exactly the legal bindings, a prefix when
    its bound ends it; the assignment found is the first legal one, and a rule
    refused without a bound has none; a recorded selection is accepted exactly when
    it is legal, which what placement makes of a candidate is, with two exceptions. *)
From S2P Require Import Prelude Odometer Float MachineModel Diagnostics CostModel WorkloadGraph TileFacts.
From S2P Require Import MappingRules MappingPlan Placement.
From S2P Require LlkMap LayoutConstraints.
Import (hints) LlkMap.
Open Scope string_scope.
Open Scope Z_scope.

(** [DictionaryAttr::get]. *)
Class MLIRBuild `{MLIRText} := { dictionaryGet : list (string * AttributeView) → dictionary }.

(** [StringRef::split], empty parts included. *)
Fixpoint splitOn (separator : Ascii.ascii) (s : string) : list string :=
  match s with
  | EmptyString => [""]
  | String c s =>
    match splitOn separator s with
    | part :: parts => if decide (c = separator) then "" :: part :: parts else String c part :: parts
    | [] => []
    end
  end.

(** ** Predicates *)
Section predicates.
Context `{MLIRTiles} `{!MLIRPrint} `{AE : LayoutConstraints.AffineExprs} `{!MLIRMaps}.

Definition printedType (type : mlir_type) : string := typeString (Some type).

Definition subjectPorts (q : RulePredicate) (node : WorkloadNode) : list WorkloadPort :=
  if directionSet q then
    if bool_decide (0 <= portIndex q)
    then option_list ((if rp_isInput q then inputs node else outputs node) !! Z.to_nat (portIndex q)) else []
  else if bool_decide (rp_kind q ≠ ShapePredicate) then inputs node else outputs node.

Definition attributeMatches (q : RulePredicate) (attributes : option dictionary) : bool :=
  match attributes ≫= λ d, List.find (λ e, bool_decide (e.1 = rp_attribute q)) (entriesOf d) with
  | None => false
  | Some (_, view) =>
    match rp_value q, view with
    | IntValue i, IntegerAttrView j => bool_decide (j = i)
    | StrValue s, StringAttrView t => bool_decide (t = s)
    | _, _ => false
    end
  end.

(** The loop over the subject ports: [reads] gives what a port exposes and whether
    it agrees; one that does not agree ends the loop. *)
Fixpoint exposes (reads : WorkloadPort → option bool) (ports : list WorkloadPort) (exposed : bool) : bool :=
  match ports with
  | [] => exposed
  | port :: ports =>
    match reads port with
    | None => exposes reads ports exposed
    | Some true => exposes reads ports true
    | Some false => false
    end
  end.

Definition readsElement (expected : string) (port : WorkloadPort) : option bool :=
  (λ element, bool_decide (printedType element = expected)) <$> elementTypeOf (p_type port).
Definition readsShape (dim expected : Z) (port : WorkloadPort) : option bool :=
  shape ← staticShapeOf (p_type port);
  if bool_decide (dim < 0) then None else (λ extent, bool_decide (extent = expected)) <$> shape !! Z.to_nat dim.
Definition readsMap (spec : LayoutConstraints.AffineMapSpec) (port : WorkloadPort) : option bool :=
  (λ declared,
    match LayoutConstraints.buildAffineMap spec ∅ with
    | Err _ => false
    | Ok expected => bool_decide (simplifyAffineMap (asAffineMap expected) = simplifyAffineMap declared)
    end) <$> accessMap port.

Definition predicateMatches (q : RulePredicate) (node : WorkloadNode) : bool :=
  match rp_kind q with
  | AttributePredicate => attributeMatches q (attributes node)
  | ElementTypePredicate =>
    match rp_value q with
    | StrValue expected => exposes (readsElement expected) (subjectPorts q node) false
    | IntValue _ => false
    end
  | ShapePredicate =>
    match rp_value q with
    | IntValue expected => exposes (readsShape (dimension q) expected) (subjectPorts q node) false
    | StrValue _ => false
    end
  | AccessMapPredicate =>
    match rp_accessMap q with
    | None => false
    | Some spec => exposes (readsMap spec) (subjectPorts q node) false
    end
  end.

(** The final sort by id leaves the order of the registry. *)
Definition matchRules (node : WorkloadNode) (rules : RuleRegistry) : list RuleDef :=
  sort_by r_id (List.filter (λ rule,
    bool_decide (r_pattern rule = None) && bool_decide (matchOp rule = opName node) &&
    forallb (λ q, predicateMatches q node) (predicates rule)) rules).

(** ** Graph patterns *)
Definition kMaxPatternNodes : nat := 64.

Definition edgeHolds (producer consumer : WorkloadNode) (edge : RulePatternEdge) : bool :=
  match outputs producer !! Z.to_nat (resultIndex edge), inputs consumer !! Z.to_nat (operandIndex edge) with
  | Some r, Some o => bool_decide (p_value r = p_value o)
  | _, _ => false
  end.

Record RulePatternMatch := mkMatch {
  rm_rule : RuleDef;
  rm_coveredNodes : list nat;
  boundary : list PortRef;
}.

(** The state of [PatternMatcher::run]; [bound_] and [used_] are the nodes bound so
    far, an argument of the recursion. *)
Record Matcher := mkMatcher { m_matches : list RulePatternMatch; m_truncated : bool }.

Section matcher.
Variables (rule : RuleDef) (pattern : RulePattern) (budget : Z) (graphNodes : list WorkloadNode).

Definition predicatesHold (node : RulePatternNode) (candidate : WorkloadNode) : bool :=
  forallb (λ q, predicateMatches q candidate) (pn_predicates node).

(** The bound node of a name, when it is bound. *)
Definition boundTo (bound : list WorkloadNode) (n : string) : option WorkloadNode :=
  '(i, _) ← findPatternNode pattern n; bound !! i.

Definition partialEdge (bound : list WorkloadNode) (n : string) (candidate : WorkloadNode) (edge : RulePatternEdge) : bool :=
  if bool_decide (pe_consumer edge = n) then
    match boundTo bound (pe_producer edge) with Some other => edgeHolds other candidate edge | None => true end
  else if bool_decide (pe_producer edge = n) then
    match boundTo bound (pe_consumer edge) with Some other => edgeHolds candidate other edge | None => true end
  else true.
Definition partialEdgesHold (bound : list WorkloadNode) (n : string) (candidate : WorkloadNode) : bool :=
  forallb (partialEdge bound n candidate) (pt_edges pattern).

Definition wholeEdge (bound : list WorkloadNode) (edge : RulePatternEdge) : bool :=
  match boundTo bound (pe_producer edge), boundTo bound (pe_consumer edge) with
  | Some producer, Some consumer => edgeHolds producer consumer edge
  | _, _ => false
  end.

(** The occurrences of one node that no edge of the pattern uses. *)
Definition boundaryOf (node : RulePatternNode) (w : WorkloadNode) : list PortRef :=
  (omap (λ i,
     if existsb (λ e, bool_decide (pe_consumer e = pn_name node) && bool_decide (operandIndex e = Z.of_nat i)) (pt_edges pattern)
     then None else Some (mkRef (n_id w) Input i)) (seq 0 (length (inputs w))) ++
   omap (λ i,
     if existsb (λ e, bool_decide (pe_producer e = pn_name node) && bool_decide (resultIndex e = Z.of_nat i)) (pt_edges pattern)
     then None else Some (mkRef (n_id w) Output i)) (seq 0 (length (outputs w))))%list.

Definition portRef_le (lhs rhs : PortRef) : Prop := portBefore rhs lhs = false.
#[local] Instance portRef_le_dec : RelDecision portRef_le.
Proof. intros lhs rhs. unfold portRef_le. apply _. Defined.

Definition matchOf (bound : list WorkloadNode) : RulePatternMatch :=
  mkMatch rule (n_id <$> bound)
    (merge_sort portRef_le (concat (zip_with boundaryOf (pt_nodes pattern) bound))).

Definition recordMatch (bound : list WorkloadNode) (st : Matcher) : Matcher :=
  if negb (forallb (wholeEdge bound) (pt_edges pattern)) then st
  else if bool_decide (budget <= Z.of_nat (length (m_matches st))) then mkMatcher (m_matches st) true
  else mkMatcher (m_matches st ++ [matchOf bound]) (m_truncated st).

(** A loop over the graph's nodes that ends once the search is truncated. *)
Fixpoint tryEach (body : WorkloadNode → Matcher → Matcher) (cs : list WorkloadNode) (st : Matcher) : Matcher :=
  match cs with
  | [] => st
  | c :: cs => if m_truncated st then st else tryEach body cs (body c st)
  end.

Fixpoint recurse (rest : list RulePatternNode) (bound : list WorkloadNode) (st : Matcher) : Matcher :=
  if m_truncated st then st
  else
    match rest with
    | [] => recordMatch bound st
    | node :: rest =>
      tryEach (λ c st,
        if bool_decide (opName c = pn_op node) && predicatesHold node c &&
           negb (contains (n_id <$> bound) (n_id c)) && partialEdgesHold bound (pn_name node) c
        then recurse rest (bound ++ [c]) st else st) graphNodes st
    end.

(** The anchor first; a pattern without nodes is not parsed. *)
Definition runMatcher : Matcher :=
  match pt_nodes pattern with
  | [] => mkMatcher [] false
  | anchor :: rest =>
    tryEach (λ c st,
      if bool_decide (opName c = pn_op anchor) && predicatesHold anchor c then recurse rest [c] st else st)
      graphNodes (mkMatcher [] false)
  end.
End matcher.

(** The graph's nodes by id, which are distinct. *)
Definition node_le (a b : WorkloadNode) : Prop := (n_id a <= n_id b)%nat.
#[export] Instance node_le_dec : RelDecision node_le.
Proof. intros a b. unfold node_le. apply _. Defined.
Definition canonicalNodes (graph : WorkloadGraph) : list WorkloadNode := merge_sort node_le (nodes graph).

Fixpoint patternsLoop (graph : WorkloadGraph) (rules : RuleRegistry) (maxMatches : Z) (found : list RulePatternMatch) :
    list RulePatternMatch * bool :=
  match rules with
  | [] => (found, false)
  | rule :: rules =>
    match r_pattern rule with
    | None => patternsLoop graph rules maxMatches found
    | Some pattern =>
      if bool_decide (kMaxPatternNodes < length (pt_nodes pattern))%nat then patternsLoop graph rules maxMatches found
      else
        let st := runMatcher rule pattern (maxMatches - Z.of_nat (length found)) (canonicalNodes graph) in
        let found := (found ++ m_matches st)%list in
        if m_truncated st then (found, true) else patternsLoop graph rules maxMatches found
    end
  end.

Definition matchRulePatterns (graph : WorkloadGraph) (rules : RuleRegistry) (maxMatches : Z) :
    list RulePatternMatch * bool :=
  if bool_decide (maxMatches = 0) then ([], false) else patternsLoop graph rules maxMatches [].
End predicates.

(** ** Constraints *)
Definition kMaxRuleAssignments : Z := 100000.

(** Why a rule makes no candidate of a match. *)
Inductive rule_reason :=
| ParameterWithoutDomain (p : string)
| PinnedOutsideDomain (p : string)
| TooManyAssignments
| QuantifierBound
| Evaluation (e : LlkMap.eval_error)
| ConstraintFails
| LayoutNotOffered (l : string)
| LayoutNotOfferedAt (l port : string)
| PortNotExposed (port : string)
| AxisNotSymbolic (axis : string)
| EmptyOwner
| OwnerNotModelled (owner : string)
| ContradictsExecutor (value k : string)
| ComputeNotReached (value k : string)
| LevelNotModelled (level : string)
| MemoryExcluded (value k : string)
| FusedCountChanged
| FusedNonBoundaryPort (port : string)
| FusedMissingNode (node : nat)
| FusedInvalidPort (port : string)
| NoReasonGiven.

(** The names an expression refers to outside its quantifiers. *)
Fixpoint collectIdentifiers (bound : gset string) (e : LlkMap.Expr) : gset string :=
  let all := (fix go es := match es with [] => ∅ | e :: es => collectIdentifiers bound e ∪ go es end) in
  match LlkMap.kind e with
  | LlkMap.Ident => if bool_decide (LlkMap.text e ∈ bound) then ∅ else {[LlkMap.text e]}
  | LlkMap.Quantifier =>
    match LlkMap.operands e with
    | variable :: domain :: body :: _ =>
      (if bool_decide (LlkMap.kind domain = LlkMap.Call) && bool_decide (LlkMap.text domain = "executors")
       then (fix go es := match es with [] => ∅ | e :: es => collectIdentifiers bound e ∪ go es end) (LlkMap.operands domain)
       else ∅) ∪
      collectIdentifiers ({[LlkMap.text variable]} ∪ bound) body
    | _ => ∅
    end
  | _ => all (LlkMap.operands e)
  end.
Definition referenced (rule : RuleDef) : gset string := ⋃ (collectIdentifiers ∅ <$> r_constraints rule).

Section constraints.
Context `{MLIRTiles}.

Definition firstElement (ports : list WorkloadPort) : option string :=
  head (omap (λ p, typeString ∘ Some <$> elementTypeOf (p_type p)) ports).
Definition firstRank (ports : list WorkloadPort) : option Z :=
  head (omap (λ p, Z.of_nat ∘ length <$> staticShapeOf (p_type p)) ports).

Definition ruleLayoutContext (node : WorkloadNode) (fallback : LayoutContext) : LayoutContext :=
  LlkMap.mkContext
    (match firstRank (outputs node) with
     | Some r => r
     | None => default (LlkMap.rank fallback) (firstRank (inputs node))
     end)
    (match firstElement (inputs node) with
     | Some t => t
     | None => default (LlkMap.elementType fallback) (firstElement (outputs node))
     end).

(** The values each declared parameter takes, in declaration order. *)
Fixpoint enumerable (domains : gmap string LayoutConstraints.ParamDomain) (pinned : gmap string SearchValue)
    (ps : list LayoutConstraints.LayoutParam) : result rule_reason (list (string * list SearchValue)) :=
  match ps with
  | [] => Ok []
  | p :: ps =>
    let n := LayoutConstraints.name p in
    match LayoutConstraints.values <$> domains !! n with
    | None | Some [] => Err (ParameterWithoutDomain n)
    | Some vs =>
      match pinned !! n with
      | Some v =>
        if contains vs v then rest ← enumerable domains pinned ps; Ok ((n, [v]) :: rest)
        else Err (PinnedOutsideDomain n)
      | None => rest ← enumerable domains pinned ps; Ok ((n, vs) :: rest)
      end
    end
  end.

Definition ruleEnv (machine : MachineModel) (context : LayoutContext) (rule : RuleDef) : LlkMap.EvalEnv :=
  LlkMap.mkEnv machine context (Some (λ n, LayoutConstraints.values <$> r_domains rule !! n)).

(** What the enumeration ends with: the assignment, or the reason and whether a
    bound is to blame. *)
Fixpoint resolveLoop (fuel : nat) (env : LlkMap.EvalEnv) (cs : list LlkMap.Expr) (ds : list (string * list SearchValue))
    (index : list nat) (assignments : Z) (b : LlkMap.QuantifierBudget) (failure : rule_reason) :
    result (rule_reason * bool) (gmap string SearchValue) :=
  match fuel with
  | O => Err (failure, LlkMap.exhausted b)
  | S fuel =>
    if bool_decide (kMaxRuleAssignments <= assignments) then Err (TooManyAssignments, true)
    else
      let bindings := LayoutConstraints.assignment ds index in
      let next failure b :=
        match odometer (length ∘ snd <$> ds) (length index) index with
        | (_, None) => Err (failure, LlkMap.exhausted b)
        | (index, Some _) => resolveLoop fuel env cs ds index (assignments + 1) b failure
        end in
      match LayoutConstraints.checkConstraints env bindings cs b with
      | (Err e, b) => next (Evaluation e) b
      | (Ok false, b) => next ConstraintFails b
      | (Ok true, b) => if LlkMap.exhausted b then Err (QuantifierBound, true) else Ok bindings
      end
  end.

Definition resolveFuel (ds : list (string * list SearchValue)) : nat := foldr Nat.mul 1%nat (length ∘ snd <$> ds).

Definition resolveRuleConstraints (rule : RuleDef) (node : WorkloadNode) (machine : MachineModel)
    (context : LayoutContext) (pinned : gmap string SearchValue) :
    result (rule_reason * bool) (gmap string SearchValue) :=
  if decide (r_constraints rule = []) then Ok ∅
  else
    match enumerable (r_domains rule) pinned (r_params rule) with
    | Err reason => Err (reason, false)
    | Ok ds =>
      bindings ← resolveLoop (resolveFuel ds) (ruleEnv machine (ruleLayoutContext node context) rule) (r_constraints rule) ds
        (replicate (length ds) O) 0 (LlkMap.mkBudget kMaxRuleAssignments 0 false) ConstraintFails;
      Ok (filter (λ e, e.1 ∈ referenced rule) bindings)
    end.
End constraints.

(** ** Candidates *)
Section candidates.
Context `{MLIRTiles} `{!MLIRPrint} `{AE : LayoutConstraints.AffineExprs} `{!MLIRMaps} `{!MLIRBuild}.

(** A rule is not applicable, or the code aborts: its bundle has parameters and the
    node no context to type them in. *)
Inductive no_candidate := NotApplicable (reason : rule_reason) (truncated : bool) | NoMLIRContext (rule : string) (node : nat).

Definition hasContext (node : WorkloadNode) : bool :=
  bool_decide (is_Some (attributes node)) ||
  existsb (λ p, bool_decide (is_Some (p_type p))) (inputs node) || existsb (λ p, bool_decide (is_Some (p_type p))) (outputs node).

Definition bundleAttribute (resolved : gmap string SearchValue) (v : SearchValue) : AttributeView :=
  match v with
  | IntValue i => IntegerAttrView i
  | StrValue s => match resolved !! s with Some (IntValue i) => IntegerAttrView i | _ => StringAttrView s end
  end.

Definition buildBundleParameters (rule : RuleDef) (node : WorkloadNode) (resolved : gmap string SearchValue) :
    result no_candidate (option dictionary) :=
  if decide (bundleParameters rule = []) then Ok None
  else if negb (hasContext node) then Err (NoMLIRContext (r_id rule) (n_id node))
  else Ok (Some (dictionaryGet ((λ e, (e.1, bundleAttribute resolved e.2)) <$> bundleParameters rule))).

(** The occurrence of the [index]-th port of a direction. *)
Definition portAt (node : WorkloadNode) (isIn : bool) (index : nat) : option (PortRef * WorkloadPort) :=
  pair (mkRef (n_id node) (if isIn then Input else Output) index) <$>
  ((if isIn then inputs node else outputs node) !! index).

(** The declared ports with their positions within their direction. *)
Fixpoint positioned (ports : list RulePort) (ins outs : nat) : list (RulePort * nat) :=
  match ports with
  | [] => []
  | port :: ports =>
    if rport_isInput port then (port, ins) :: positioned ports (S ins) outs
    else (port, outs) :: positioned ports ins (S outs)
  end.
Definition wired (rule : RuleDef) : list (RulePort * nat) := positioned (r_ports rule) 0 0.

Definition portRefForRulePort (rule : RuleDef) (node : WorkloadNode) (subject : RulePort) : option PortRef :=
  '(port, index) ← List.find (λ e, bool_decide (e.1 = subject)) (wired rule);
  fst <$> portAt node (rport_isInput port) index.

(** The overload by name: the first declared port of that name the node has. *)
Definition portRefForPortName (rule : RuleDef) (node : WorkloadNode) (n : string) : option PortRef :=
  head (omap (λ e, if bool_decide (rport_name e.1 = n) then fst <$> portAt node (rport_isInput e.1) e.2 else None)
    (wired rule)).

Definition portSpecOf (node : WorkloadNode) (e : RulePort * nat) : PortSpec :=
  match portAt node (rport_isInput e.1) e.2 with
  | Some (ref, port) => mkPortSpec (rport_name e.1) (p_value port) (rport_isInput e.1) (Some ref)
  | None => mkPortSpec (rport_name e.1) 0 (rport_isInput e.1) None
  end.

(** The first bound layout the rule does not offer. *)
Definition layoutContradiction (rule : RuleDef) (e : string * string) : option rule_reason :=
  let '(roleName, value) := e in
  let here := List.filter (λ r, str_empty roleName || bool_decide (rl_port r = roleName)) (r_layoutRequirements rule) in
  if existsb (λ r, bool_decide (layoutId r = value)) here then None
  else if str_empty roleName then Some (LayoutNotOffered value)
  else if bool_decide (here = []) then None
  else Some (LayoutNotOfferedAt value roleName).
#[local] Instance layout_nil_dec (l : list RuleLayoutRequirement) : Decision (l = []).
Proof. destruct l; [by left|by right]. Defined.

Definition checkBoundLayouts (rule : RuleDef) (boundLayouts : gmap string string) : option rule_reason :=
  if decide (r_layoutRequirements rule = []) then None
  else head (omap (layoutContradiction rule) (in_order boundLayouts)).

(** *** Bound axes *)

(** The value of an axis: the caller's, or the binding's under its usual name. *)
Definition axisValue (given axis : string) (pinned : gmap string SearchValue) : result rule_reason string :=
  if negb (str_empty given) then Ok given
  else
    match pinned !! axis with
    | None => Ok ""
    | Some (StrValue v) => if str_empty v then Err (AxisNotSymbolic axis) else Ok v
    | Some (IntValue _) => Err (AxisNotSymbolic axis)
    end.

(** The compute kinds the inner owners name. *)
Fixpoint innerOwners (machine : MachineModel) (owners : list string) : result rule_reason (list string) :=
  match owners with
  | [] => Ok []
  | owner :: owners =>
    let isCompute := negb (bool_decide (length (computesOfKind machine owner) = 0)%nat) in
    if negb (hasOwnerKind machine owner) && negb isCompute then Err (OwnerNotModelled owner)
    else rest ← innerOwners machine owners; Ok (if isCompute then owner :: rest else rest)
  end.

Definition with_requirements (c : MappingCandidate) (es : list ExecutorRequirement) (cs : list ComputeRequirement) :
    MappingCandidate :=
  mkCandidate (mc_id c) (mc_rule c) (mc_coveredNodes c) (mc_bundle c) (ports c) es (memoryRequirements c)
    (layoutRequirements c) cs (mc_resolvedParameters c) (lowerBound c).

Definition projectOwner (rule : RuleDef) (machine : MachineModel) (value : string) (candidate : MappingCandidate) :
    result rule_reason MappingCandidate :=
  match splitOn "/" value with
  | [] => Ok candidate
  | outer :: inner =>
    fail! EmptyOwner when existsb str_empty (outer :: inner);
    fail! (OwnerNotModelled outer) when negb (hasOwnerKind machine outer);
    match List.find (λ r, bool_decide (role r = "executor") && bool_decide (kr_kind r ≠ outer)) (kindRequirements rule) with
    | Some r => Err (ContradictsExecutor value (kr_kind r))
    | None =>
      computes ← innerOwners machine inner;
      match List.find (λ r, bool_decide (role r = "compute") && negb (bool_decide (computes = [])) &&
                            negb (contains computes (kr_kind r))) (kindRequirements rule) with
      | Some r => Err (ComputeNotReached value (kr_kind r))
      | None =>
        let es := executorRequirements candidate in
        let es := if existsb (λ e, bool_decide (capability e = outer)) es then es
                  else (es ++ [mkExecutorRequirement outer ∅])%list in
        let cs := foldl (λ cs k, if existsb (λ c, bool_decide (cr_kind c = k)) cs then cs
                                 else (cs ++ [mkComputeRequirement k])%list) (computeRequirements candidate) computes in
        Ok (with_requirements candidate es cs)
      end
    end
  end.

Definition projectMemory (machine : MachineModel) (value : string) (candidate : MappingCandidate) : result rule_reason unit :=
  let path := splitOn ":" value in
  match List.find (λ level, str_empty level || bool_decide (findMemoryOfKind machine level = None)) path with
  | Some level => Err (LevelNotModelled level)
  | None =>
    match List.find (λ r, negb (contains path (mr_kind r))) (memoryRequirements candidate) with
    | Some r => Err (MemoryExcluded value (mr_kind r))
    | None => Ok tt
    end
  end.

Definition projectBoundAxes (rule : RuleDef) (axes : BoundAxes) (pinned : gmap string SearchValue)
    (machine : MachineModel) (candidate : MappingCandidate) : result rule_reason MappingCandidate :=
  owner ← axisValue (ownerMapping axes) "owner_mapping" pinned;
  candidate ← (if str_empty owner then Ok candidate else projectOwner rule machine owner candidate);
  path ← axisValue (memoryPath axes) "memory_path" pinned;
  _ ← (if str_empty path then Ok tt else projectMemory machine path candidate);
  Ok candidate.

(** *** Requirements *)
Definition executorsOf (ks : list KindRequirement) : list ExecutorRequirement :=
  (λ k, mkExecutorRequirement (kr_kind k) ∅) <$> List.filter (λ k, bool_decide (role k = "executor")) ks.
Definition computesOf (ks : list KindRequirement) : list ComputeRequirement :=
  mkComputeRequirement ∘ kr_kind <$> List.filter (λ k, bool_decide (role k = "compute")) ks.
Fixpoint memoriesOf (rule : RuleDef) (node : WorkloadNode) (ks : list KindRequirement) :
    result rule_reason (list MemoryRequirement) :=
  match ks with
  | [] => Ok []
  | k :: ks =>
    if bool_decide (role k = "memory") then
      match kr_port k with
      | None => rest ← memoriesOf rule node ks; Ok (mkMemoryRequirement (kr_kind k) 0 None :: rest)
      | Some subject =>
        match portRefForRulePort rule node subject with
        | None => Err (PortNotExposed (rport_name subject))
        | Some ref => rest ← memoriesOf rule node ks; Ok (mkMemoryRequirement (kr_kind k) 0 (Some ref) :: rest)
        end
      end
    else memoriesOf rule node ks
  end.

(** Whether the binding keeps a layout requirement. *)
Definition keptLayout (boundLayouts : gmap string string) (r : RuleLayoutRequirement) : bool :=
  match boundLayouts !! rl_port r with
  | Some l => bool_decide (layoutId r = l)
  | None => match boundLayouts !! "" with Some l => bool_decide (layoutId r = l) | None => true end
  end.

(** The facts of a port the node has, read into a requirement. *)
Definition attribute (ref : PortRef) (port : WorkloadPort) (r : LayoutRequirement) : LayoutRequirement :=
  mkLayoutRequirement (layoutClass r)
    (from_option printedType (lr_elementType r) (elementTypeOf (p_type port)))
    (from_option (Z.of_nat ∘ length) (lr_rank r) (staticShapeOf (p_type port)))
    (Z.of_nat (p_value port)) (Some ref).

Definition resolveLayout (rule : RuleDef) (node : WorkloadNode) (r : RuleLayoutRequirement) : LayoutRequirement :=
  foldl (λ resolved e,
    if bool_decide (rport_name e.1 = rl_port r) then
      match portAt node (rport_isInput e.1) e.2 with
      | Some (ref, port) => attribute ref port resolved
      | None => resolved
      end
    else resolved) (mkLayoutRequirement (layoutId r) "" (-1) (-1) None) (wired rule).

Definition lowerBoundOf (rule : RuleDef) : Cost :=
  match costLowerBound rule with
  | None => zeroCost
  | Some c => mkCost (double_of_Z c) 0 0 0 dzero dzero
  end.

Definition notApplicable {A} (r : result rule_reason A) : result no_candidate A :=
  match r with Ok a => Ok a | Err reason => Err (NotApplicable reason false) end.

Definition with_id (c : MappingCandidate) : MappingCandidate :=
  mkCandidate (computeCandidateId c) (mc_rule c) (mc_coveredNodes c) (mc_bundle c) (ports c) (executorRequirements c)
    (memoryRequirements c) (layoutRequirements c) (computeRequirements c) (mc_resolvedParameters c) (lowerBound c).
Definition with_layouts (c : MappingCandidate) (ls : list LayoutRequirement) : MappingCandidate :=
  mkCandidate (mc_id c) (mc_rule c) (mc_coveredNodes c) (mc_bundle c) (ports c) (executorRequirements c)
    (memoryRequirements c) ls (computeRequirements c) (mc_resolvedParameters c) (lowerBound c).

Definition toMappingCandidate (rule : RuleDef) (node : WorkloadNode) (machine : MachineModel) (context : LayoutContext)
    (pinned : gmap string SearchValue) (boundLayouts : gmap string string) (axes : BoundAxes) :
    result no_candidate MappingCandidate :=
  match resolveRuleConstraints rule node machine context pinned with
  | Err (reason, truncated) => Err (NotApplicable reason truncated)
  | Ok parameters =>
    match checkBoundLayouts rule boundLayouts with
    | Some reason => Err (NotApplicable reason false)
    | None =>
      bundleParams ← buildBundleParameters rule node parameters;
      memories ← notApplicable (memoriesOf rule node (kindRequirements rule));
      candidate ← notApplicable (projectBoundAxes rule axes pinned machine
        (mkCandidate 0 (r_id rule) [n_id node] (mkBundle (r_bundle rule) bundleParams (emitter rule))
          (portSpecOf node <$> wired rule) (executorsOf (kindRequirements rule)) memories []
          (computesOf (kindRequirements rule)) parameters (lowerBoundOf rule)));
      Ok (with_id (with_layouts candidate
        (resolveLayout rule node <$> List.filter (keptLayout boundLayouts) (r_layoutRequirements rule))))
    end
  end.

(** ** Fused candidates *)
Definition fusedPort (pattern : RulePattern) (graph : WorkloadGraph) (covered : list nat) (ref : PortRef) :
    option PortSpec :=
  node ← findNode graph (ref_node ref);
  let patternIndex := default O (last (omap (λ e, if bool_decide (e.2 = ref_node ref) then Some e.1 else None) (imap pair covered))) in
  patternNode ← pt_nodes pattern !! patternIndex;
  let isIn := bool_decide (direction ref = Input) in
  port ← (if isIn then inputs node else outputs node) !! ref_index ref;
  let index := to_string (Z.of_nat (ref_index ref)) in
  Some (mkPortSpec
    (pn_name patternNode +:+ (if isIn then ".operand" +:+ index
                              else ".result" +:+ (if bool_decide (ref_index ref = O) then "" else index)))
    (p_value port) isIn (Some ref)).

Definition rebindLayout (graph : WorkloadGraph) (specs : list PortSpec) (declared : RuleLayoutRequirement)
    (resolved : LayoutRequirement) : result rule_reason LayoutRequirement :=
  if str_empty (rl_port declared) then Ok resolved
  else
    match List.find (λ s, bool_decide (ps_name s = rl_port declared)) specs ≫= ps_port with
    | None => Err (FusedNonBoundaryPort (rl_port declared))
    | Some ref =>
      match findNode graph (ref_node ref) with
      | None => Err (FusedMissingNode (ref_node ref))
      | Some node =>
        match portAt node (bool_decide (direction ref = Input)) (ref_index ref) with
        | None => Err (FusedInvalidPort (rl_port declared))
        | Some (_, port) => Ok (attribute ref port resolved)
        end
      end
    end.

Fixpoint rebindLayouts (graph : WorkloadGraph) (specs : list PortSpec) (ds : list RuleLayoutRequirement)
    (rs : list LayoutRequirement) : result rule_reason (list LayoutRequirement) :=
  match ds, rs with
  | d :: ds, r :: rs => r ← rebindLayout graph specs d r; rest ← rebindLayouts graph specs ds rs; Ok (r :: rest)
  | _, _ => Ok []
  end.

Definition toFusedMappingCandidate (rule : RuleDef) (m : RulePatternMatch) (graph : WorkloadGraph)
    (machine : MachineModel) (context : LayoutContext) (pinned : gmap string SearchValue)
    (boundLayouts : gmap string string) (axes : BoundAxes) : result no_candidate MappingCandidate :=
  let silent := NotApplicable NoReasonGiven false in
  match r_pattern rule with
  | None => Err silent
  | Some pattern =>
    fail! silent when bool_decide (length (rm_coveredNodes m) ≠ length (pt_nodes pattern));
    match head (rm_coveredNodes m) ≫= findNode graph with
    | None => Err silent
    | Some anchor =>
      c ← toMappingCandidate rule anchor machine context pinned boundLayouts axes;
      match mapM (fusedPort pattern graph (rm_coveredNodes m)) (boundary m) with
      | None => Err silent
      | Some specs =>
        fail! (NotApplicable FusedCountChanged false)
          when bool_decide (length (layoutRequirements c) ≠ length (r_layoutRequirements rule));
        layouts ← notApplicable (rebindLayouts graph specs (r_layoutRequirements rule) (layoutRequirements c));
        Ok (mkCandidate (mc_id c) (mc_rule c) (rm_coveredNodes m) (mc_bundle c) specs (executorRequirements c)
              (memoryRequirements c) layouts (computeRequirements c) (mc_resolvedParameters c) (lowerBound c))
      end
    end
  end.

(** ** Checking a recorded selection *)
Record RecordedRuleSelection := mkSelection {
  sel_executor : string;
  sel_memories : gmap string string;
  sel_computeBindings : gmap string string;
  computeBindingsRecorded : bool;
  portMemories : list PortMemoryBinding;
  sel_parameters : gmap string SearchValue;
}.

Inductive selection_error :=
| ImplementsOther (op : string)
| PredicateMismatch (q : RulePredicate)
| ParameterUndeclared (p : string)
| ParameterOutsideDomain (p : string)
| ParameterNotRecorded (p : string)
| RecordedEvaluation (e : LlkMap.eval_error)
| RecordedRejected
| RecordedBound
| Unresolved (reason : rule_reason)
| ExecutorUnknown
| ExecutorKind (k : string)
| ComputeNotRecorded (k : string)
| ComputeNotAttached (k : string)
| ComputeUnknown (node : string)
| ComputeKind (node k : string)
| ComputeElsewhere (node : string)
| MemoryPortNotExposed (port : string)
| MemoryPortUnbound (port : string)
| MemoryUnbound (k : string)
| MemoryUnknown (memory : string)
| MemoryKind (memory k : string)
| MemoryInvisible (memory : string).

Definition selectionCode (e : selection_error) : DiagnosticCode :=
  match e with
  | ImplementsOther _ | PredicateMismatch _ | ParameterUndeclared _ | ParameterOutsideDomain _ | ParameterNotRecorded _
  | RecordedEvaluation _ | RecordedRejected | RecordedBound | Unresolved _ => Diagnostics.NoMatchingRule
  | ExecutorUnknown | ExecutorKind _ => Diagnostics.NoLegalExecutor
  | ComputeNotRecorded _ | ComputeNotAttached _ | ComputeUnknown _ | ComputeKind _ _ | ComputeElsewhere _ =>
    Diagnostics.UnsupportedComputeFragment
  | MemoryPortNotExposed _ | MemoryPortUnbound _ | MemoryUnbound _ | MemoryUnknown _ | MemoryKind _ _
  | MemoryInvisible _ => Diagnostics.NoMemoryRoute
  end.

Definition emptyContext : LayoutContext := LlkMap.mkContext 0 "".

Definition derivedParams (rule : RuleDef) : list LayoutConstraints.LayoutParam :=
  List.filter (λ p, bool_decide (LayoutConstraints.name p ∈ referenced rule)) (r_params rule).
Definition ruleDerivesParameters (rule : RuleDef) : bool := negb (bool_decide (length (derivedParams rule) = 0)%nat).

Definition checkRecorded (rule : RuleDef) (e : string * SearchValue) : result selection_error unit :=
  match findRuleParam rule e.1 with
  | None => Err (ParameterUndeclared e.1)
  | Some _ =>
    if from_option (λ d, contains (LayoutConstraints.values d) e.2) false (r_domains rule !! e.1) then Ok tt
    else Err (ParameterOutsideDomain e.1)
  end.

(** [StringMap] order decides which parameter is complained about first. *)
Definition recordedParameterProblem (rule : RuleDef) (node : WorkloadNode) (machine : MachineModel)
    (recorded : gmap string SearchValue) : result selection_error unit :=
  _ ← for_each (checkRecorded rule) (in_order recorded);
  _ ← for_each (λ p, fail_if (bool_decide (recorded !! LayoutConstraints.name p = None))
        (ParameterNotRecorded (LayoutConstraints.name p))) (derivedParams rule);
  match LayoutConstraints.checkConstraints (ruleEnv machine (ruleLayoutContext node emptyContext) rule) recorded
          (r_constraints rule) (LlkMap.mkBudget kMaxRuleAssignments 0 false) with
  | (Err e, _) => Err (RecordedEvaluation e)
  | (Ok false, _) => Err RecordedRejected
  | (Ok true, b) => if LlkMap.exhausted b then Err RecordedBound else Ok tt
  end.

Definition checkCompute (rule : RuleDef) (machine : MachineModel) (s : RecordedRuleSelection) (r : KindRequirement) :
    result selection_error unit :=
  let k := kr_kind r in
  if bool_decide (role r ≠ "compute") then Ok tt
  else
    match sel_computeBindings s !! k with
    | None =>
      fail! (ComputeNotRecorded k) when computeBindingsRecorded s;
      fail_if (negb (existsb (λ c, bool_decide (cmp_kind c = k)) (computesFor machine (sel_executor s)))) (ComputeNotAttached k)
    | Some n =>
      match findCompute machine n with
      | None => Err (ComputeUnknown n)
      | Some c =>
        fail! (ComputeKind n k) when bool_decide (cmp_kind c ≠ k);
        fail_if (bool_decide (cmp_attachedTo c ≠ sel_executor s)) (ComputeElsewhere n)
      end
    end.

Definition boundMemory (rule : RuleDef) (node : WorkloadNode) (s : RecordedRuleSelection) (r : KindRequirement) :
    result selection_error string :=
  match kr_port r with
  | Some subject =>
    match portRefForRulePort rule node subject with
    | None => Err (MemoryPortNotExposed (rport_name subject))
    | Some ref =>
      match List.find (λ b, bool_decide (pm_port b = ref)) (portMemories s) with
      | None => Err (MemoryPortUnbound (rport_name subject))
      | Some b => Ok (pm_memory b)
      end
    end
  | None =>
    match sel_memories s !! kr_kind r with
    | None => Err (MemoryUnbound (kr_kind r))
    | Some m => Ok m
    end
  end.

Definition checkMemory (rule : RuleDef) (node : WorkloadNode) (machine : MachineModel) (s : RecordedRuleSelection)
    (r : KindRequirement) : result selection_error unit :=
  if bool_decide (role r ≠ "memory") then Ok tt
  else
    m ← boundMemory rule node s r;
    match findMemory machine m with
    | None => Err (MemoryUnknown m)
    | Some memory =>
      fail! (MemoryKind m (kr_kind r)) when bool_decide (mem_kind memory ≠ kr_kind r);
      fail_if (negb (isVisible machine m (sel_executor s))) (MemoryInvisible m)
    end.

Definition checkParameters (rule : RuleDef) (node : WorkloadNode) (machine : MachineModel) (s : RecordedRuleSelection) :
    result selection_error unit :=
  if negb (bool_decide (sel_parameters s = ∅)) then recordedParameterProblem rule node machine (sel_parameters s)
  else
    match resolveRuleConstraints rule node machine emptyContext ∅ with
    | Err (reason, _) => Err (Unresolved reason)
    | Ok _ => Ok tt
    end.

Definition verifyRuleSelection (rule : RuleDef) (node : WorkloadNode) (machine : MachineModel)
    (s : RecordedRuleSelection) : result selection_error unit :=
  fail! (ImplementsOther (matchOp rule)) when bool_decide (matchOp rule ≠ opName node);
  _ ← for_each (λ q, fail_if (negb (predicateMatches q node)) (PredicateMismatch q)) (predicates rule);
  _ ← checkParameters rule node machine s;
  fail! ExecutorUnknown
    when negb (str_empty (sel_executor s)) && bool_decide (findExecutor machine (sel_executor s) = None);
  _ ← for_each (λ r, fail_if (bool_decide (role r = "executor") && negb (ownerMatches machine (kr_kind r) (sel_executor s)))
        (ExecutorKind (kr_kind r))) (kindRequirements rule);
  _ ← for_each (checkCompute rule machine s) (kindRequirements rule);
  for_each (checkMemory rule node machine s) (kindRequirements rule).
End candidates.

(** ** The backtracking finds exactly the legal bindings *)

(** All lists of [n] elements, in lexicographic order. *)
Fixpoint tuples {A} (n : nat) (xs : list A) : list (list A) :=
  match n with O => [[]] | S n => xs ≫= λ x, cons x <$> tuples n xs end.

Lemma filter_bind {A B} (p : B → bool) (f : A → list B) xs :
  List.filter p (xs ≫= f) = xs ≫= λ x, List.filter p (f x).
Proof. induction xs as [|x xs IH]; [done|]. cbn. by rewrite List.filter_app, <- IH. Qed.
Lemma fmap_bind {A B C} (g : B → C) (f : A → list B) xs : g <$> (xs ≫= f) = xs ≫= λ x, g <$> f x.
Proof. induction xs as [|x xs IH]; [done|]. cbn. by rewrite fmap_app, <- IH. Qed.
Lemma filter_none {A} (p : A → bool) xs : (∀ x, x ∈ xs → p x = false) → List.filter p xs = [].
Proof.
  induction xs as [|x xs IH]; intros H; [done|]. cbn. rewrite H by left. apply IH. intros y Hy. apply H. by right.
Qed.

Section matching.
Context `{MLIRTiles} `{!MLIRPrint} `{AE : LayoutConstraints.AffineExprs} `{!MLIRMaps}.

Fixpoint nodesOk (ns : list RulePatternNode) (bound : list WorkloadNode) : bool :=
  match ns, bound with
  | [], [] => true
  | n :: ns, c :: bound => bool_decide (opName c = pn_op n) && predicatesHold n c && nodesOk ns bound
  | _, _ => false
  end.

(** The specification: one distinct graph node for each node of the pattern, of its
    operation and satisfying its predicates, with every edge joining the occurrences
    it names. *)
Definition isMatch (pattern : RulePattern) (bound : list WorkloadNode) : bool :=
  nodesOk (pt_nodes pattern) bound && bool_decide (NoDup (n_id <$> bound)) &&
  forallb (wholeEdge pattern bound) (pt_edges pattern).

Definition allMatches (graph : WorkloadGraph) (rule : RuleDef) : list RulePatternMatch :=
  match r_pattern rule with
  | None => []
  | Some pattern =>
    if bool_decide (kMaxPatternNodes < length (pt_nodes pattern))%nat || bool_decide (length (pt_nodes pattern) = 0)%nat then []
    else matchOf rule pattern <$> List.filter (isMatch pattern) (tuples (length (pt_nodes pattern)) (canonicalNodes graph))
  end.

(** Recording a list of matches within a budget. *)
Definition push (budget : Z) (st : Matcher) (ms : list RulePatternMatch) : Matcher :=
  if m_truncated st then st
  else
    let all := (m_matches st ++ ms)%list in
    mkMatcher (take (Z.to_nat budget) all) (bool_decide (budget < Z.of_nat (length all))).
Definition within (budget : Z) (st : Matcher) : Prop :=
  m_truncated st = false → Z.of_nat (length (m_matches st)) <= budget.

Lemma push_nil budget st : within budget st → push budget st [] = st.
Proof.
  unfold within, push. destruct (m_truncated st) eqn:Ht; [done|]. intros Hw. specialize (Hw eq_refl).
  rewrite app_nil_r, take_ge by lia. rewrite bool_decide_false by lia. destruct st; cbn in *. by subst.
Qed.

Lemma push_within budget st ms : within budget st → within budget (push budget st ms).
Proof.
  unfold within, push. intros Hw. destruct (m_truncated st) eqn:Ht; [by rewrite Ht|]. cbn.
  intros Hb%bool_decide_eq_false. rewrite length_take. lia.
Qed.

Lemma push_app budget st ms ms' : 0 <= budget → push budget (push budget st ms) ms' = push budget st (ms ++ ms')%list.
Proof.
  intros Hb. unfold push at 2 3. destruct (m_truncated st) eqn:Ht; [unfold push; by rewrite Ht|]. unfold push. cbn.
  case_bool_decide as Hc; cbn.
  - f_equal; [|symmetry; apply bool_decide_eq_true; rewrite app_assoc, length_app; lia].
    by rewrite app_assoc, (take_app_le (m_matches st ++ ms)) by lia.
  - rewrite (take_ge (m_matches st ++ ms)) by lia. by rewrite app_assoc.
Qed.

Lemma tryEach_push budget body f cs st : 0 <= budget → within budget st →
  (∀ c s, c ∈ cs → within budget s → m_truncated s = false → body c s = push budget s (f c)) →
  tryEach body cs st = push budget st (cs ≫= f).
Proof.
  intros Hb. revert st. induction cs as [|c cs IH]; intros st Hw Hbody; cbn [tryEach mbind list_bind].
  { by rewrite push_nil. }
  destruct (m_truncated st) eqn:Ht; [unfold push; by rewrite Ht|].
  rewrite Hbody, IH, push_app; [done..|by apply push_within| |left|done|done].
  intros c' s Hc'. apply Hbody. by right.
Qed.

Section one_rule.
Variables (rule : RuleDef) (pattern : RulePattern) (budget : Z) (graphNodes : list WorkloadNode).
Hypothesis (Hnames : NoDup (pn_name <$> pt_nodes pattern)) (Hbudget : 0 <= budget).

Lemma nodesOk_app ns ns' bound bound' : length ns = length bound →
  nodesOk (ns ++ ns') (bound ++ bound') = nodesOk ns bound && nodesOk ns' bound'.
Proof.
  revert bound. induction ns as [|n ns IH]; intros [|c bound] Hl; try done. cbn. injection Hl as Hl.
  by rewrite IH, andb_assoc.
Qed.

Lemma boundTo_prefix bound extra n c : boundTo pattern bound n = Some c → boundTo pattern (bound ++ extra) n = Some c.
Proof.
  unfold boundTo. destruct (findPatternNode pattern n) as [[i x]|]; [|done]. cbn. intros Hi. by apply lookup_app_l_Some.
Qed.

Lemma boundTo_here before node rest bound c extra : pt_nodes pattern = (before ++ node :: rest)%list →
  length bound = length before → boundTo pattern (bound ++ c :: extra) (pn_name node) = Some c.
Proof.
  intros Hp Hl. unfold boundTo, findPatternNode.
  assert (list_find (λ x, pn_name x = pn_name node) (pt_nodes pattern) = Some (length before, node)) as ->.
  { apply list_find_Some. rewrite Hp. split_and!; [by apply list_lookup_middle|done|].
    intros j y Hj Hlt Heq. rewrite Hp, fmap_app in Hnames. apply NoDup_app in Hnames as (_ & Hd & _).
    rewrite lookup_app_l in Hj by done. apply (Hd (pn_name y)); [|rewrite Heq; left].
    apply list_elem_of_fmap_2. by eapply list_elem_of_lookup_2. }
  cbn. rewrite <- Hl. by apply list_lookup_middle.
Qed.

(** A candidate one of whose edges fails extends to no match. *)
Lemma partial_sound before node rest bound c extra : pt_nodes pattern = (before ++ node :: rest)%list →
  length bound = length before → partialEdgesHold pattern bound (pn_name node) c = false →
  forallb (wholeEdge pattern (bound ++ c :: extra)) (pt_edges pattern) = false.
Proof.
  intros Hp Hl Hf. apply not_true_iff_false. intros Hall. apply not_true_iff_false in Hf. apply Hf.
  apply List.forallb_forall. intros e He. rewrite List.forallb_forall in Hall. specialize (Hall e He).
  pose proof (boundTo_here before node rest bound c extra Hp Hl) as Hc. unfold wholeEdge in Hall. unfold partialEdge.
  case_bool_decide as Hcons; [|case_bool_decide as Hprod; [|done]].
  - rewrite Hcons, Hc in Hall. destruct (boundTo pattern bound (pe_producer e)) as [o|] eqn:Ho; [|done].
    by rewrite (boundTo_prefix _ _ _ _ Ho) in Hall.
  - rewrite Hprod, Hc in Hall. destruct (boundTo pattern bound (pe_consumer e)) as [o|] eqn:Ho; [|done].
    by rewrite (boundTo_prefix _ _ _ _ Ho) in Hall.
Qed.

Lemma recordMatch_push bound st : within budget st → m_truncated st = false →
  recordMatch rule pattern budget bound st =
  push budget st (if forallb (wholeEdge pattern bound) (pt_edges pattern) then [matchOf rule pattern bound] else []).
Proof.
  intros Hw Ht. unfold recordMatch. specialize (Hw Ht) as Hl. destruct (forallb _ _); cbn [negb]; [|by rewrite push_nil].
  unfold push. rewrite Ht. rewrite length_app. cbn [length]. case_bool_decide as Hb.
  - rewrite take_app_le by lia. rewrite take_ge by lia. f_equal. symmetry. apply bool_decide_eq_true. lia.
  - rewrite take_ge by (rewrite length_app; cbn; lia). f_equal. symmetry. apply bool_decide_eq_false. lia.
Qed.

Lemma recurse_push rest before bound st : pt_nodes pattern = (before ++ rest)%list → length bound = length before →
  nodesOk before bound = true → NoDup (n_id <$> bound) → within budget st → m_truncated st = false →
  recurse rule pattern budget graphNodes rest bound st =
  push budget st (matchOf rule pattern <$> List.filter (isMatch pattern) (app bound <$> tuples (length rest) graphNodes)).
Proof.
  revert before bound st. induction rest as [|node rest IH]; intros before bound st Hp Hl Hn Hd Hw Ht.
  - cbn [recurse length tuples fmap list_fmap]. rewrite Ht, recordMatch_push by done. f_equal. cbn [List.filter].
    rewrite app_nil_r in Hp |- *. unfold isMatch. rewrite Hp, Hn, bool_decide_true by done. cbn [andb].
    by destruct (forallb _ _).
  - cbn [recurse length tuples]. rewrite Ht, fmap_bind, filter_bind, fmap_bind. apply tryEach_push; [done..|].
    intros c s Hc Hws Hts. destruct (_ && _ && _ && _) eqn:Hcheck.
    + apply andb_true_iff in Hcheck as [[[Hop Hpred]%andb_true_iff Hfresh%negb_true_iff]%andb_true_iff _].
      unfold contains in Hfresh. apply bool_decide_eq_false in Hfresh.
      rewrite (IH (before ++ [node])%list).
      * f_equal. do 2 f_equal. rewrite <- !list_fmap_compose. apply list_fmap_ext. intros i t _. cbn. by rewrite <- app_assoc.
      * by rewrite <- app_assoc.
      * rewrite !length_app. cbn. lia.
      * rewrite nodesOk_app, Hn by done. cbn. by rewrite Hop, Hpred.
      * rewrite fmap_app. apply NoDup_app. split_and!; [done| |apply NoDup_singleton].
        by intros x Hx ->%list_elem_of_singleton.
      * done.
      * done.
    + rewrite filter_none; [by rewrite push_nil|]. intros t (t' & -> & Ht')%list_elem_of_fmap.
      apply list_elem_of_fmap in Ht' as (t'' & -> & _). unfold isMatch. rewrite Hp, nodesOk_app by done. cbn [nodesOk].
      apply not_true_iff_false. intros [[[_ [[Hop Hpred]%andb_true_iff _]%andb_true_iff]%andb_true_iff
        Hnd%bool_decide_eq_true]%andb_true_iff Hedges]%andb_true_iff.
      apply not_true_iff_false in Hcheck. apply Hcheck. rewrite Hop, Hpred. cbn [andb]. apply andb_true_iff. split.
      * apply negb_true_iff. unfold contains. apply bool_decide_eq_false. rewrite fmap_app in Hnd.
        apply NoDup_app in Hnd as (_ & Hdisj & _). intros Hin. apply (Hdisj _ Hin). left.
      * apply not_false_iff_true. intros Hpart. rewrite (partial_sound before node rest) in Hedges; done.
Qed.

Lemma runMatcher_push : pt_nodes pattern ≠ [] →
  runMatcher rule pattern budget graphNodes =
  push budget (mkMatcher [] false)
    (matchOf rule pattern <$> List.filter (isMatch pattern) (tuples (length (pt_nodes pattern)) graphNodes)).
Proof.
  intros Hne. assert (∃ anchor rest, pt_nodes pattern = anchor :: rest) as (anchor & rest & Hp).
  { destruct (pt_nodes pattern) as [|anchor rest]; [done|eauto]. }
  unfold runMatcher. rewrite Hp. cbn [length tuples].
  rewrite filter_bind, fmap_bind. apply tryEach_push; [done|intros _; cbn; lia|]. intros c s Hc Hws Hts.
  destruct (bool_decide (opName c = pn_op anchor) && predicatesHold anchor c) eqn:Hcheck.
  - rewrite (recurse_push rest [anchor]); [done|done|done| |apply NoDup_singleton|done|done]. cbn. by rewrite Hcheck.
  - rewrite filter_none; [by rewrite push_nil|]. intros t (t' & -> & _)%list_elem_of_fmap. unfold isMatch. rewrite Hp.
    cbn [nodesOk]. by rewrite Hcheck.
Qed.
End one_rule.

Lemma patternsLoop_spec graph rules maxMatches found : Z.of_nat (length found) <= maxMatches →
  Forall (λ r, ∀ p, r_pattern r = Some p → NoDup (pn_name <$> pt_nodes p) ∧ pt_nodes p ≠ []) rules →
  patternsLoop graph rules maxMatches found =
  (let st := push maxMatches (mkMatcher found false) (rules ≫= allMatches graph) in (m_matches st, m_truncated st)).
Proof.
  intros Hf Hn. revert found Hf. induction Hn as [|rule rules Hr _ IH]; intros found Hf; cbn [patternsLoop]; rewrite ?bind_cons.
  { cbn [mbind list_bind]. rewrite push_nil by (unfold within; cbn; lia). done. }
  remember (allMatches graph rule) as ms eqn:Hms. unfold allMatches in Hms.
  destruct (r_pattern rule) as [pattern|]; [|subst ms; by apply IH].
  destruct (Hr pattern eq_refl) as [Hnames Hne].
  rewrite (bool_decide_false (length (pt_nodes pattern) = 0)%nat), orb_false_r in Hms by (by destruct (pt_nodes pattern)).
  case_bool_decide; [subst ms; by apply IH|].
  rewrite runMatcher_push by (done || lia). rewrite <- Hms.
  set (cut := maxMatches - Z.of_nat (length found)).
  change (push cut (mkMatcher [] false) ms) with (mkMatcher (take (Z.to_nat cut) ms) (bool_decide (cut < Z.of_nat (length ms)))).
  cbn [m_truncated m_matches]. subst cut.
  case_bool_decide as Hc.
  - unfold push. cbn. rewrite bool_decide_true by (rewrite !length_app; lia). f_equal.
    rewrite app_assoc, (take_app_le (found ++ ms)) by (rewrite length_app; lia).
    rewrite take_app_ge by lia. do 2 f_equal. lia.
  - rewrite take_ge by lia. rewrite IH by (rewrite length_app; lia). unfold push. cbn. by rewrite app_assoc.
Qed.

Lemma wfRule_pattern rule : wfRule rule →
  ∀ p, r_pattern rule = Some p → NoDup (pn_name <$> pt_nodes p) ∧ pt_nodes p ≠ [].
Proof.
  intros Hr p Hp. destruct (wr_pattern _ (wf_body _ Hr) p Hp) as (Hw & Hh & _). split; [by apply wt_names|].
  by destruct (pt_nodes p).
Qed.

(** *** No binding is matched twice *)
Lemma tuples_fmap {A B} (f : A → B) n (xs : list A) : fmap (M := list) (fmap (M := list) f) (tuples n xs) = tuples n (fmap (M := list) f xs).
Proof.
  induction n as [|n IH]; [done|]. cbn [tuples]. rewrite fmap_bind, <- IH. clear IH.
  generalize (tuples n xs). intros ts. induction xs as [|x xs IHx]; [done|]. rewrite !fmap_cons, !bind_cons, IHx. f_equal.
  by rewrite <- !list_fmap_compose.
Qed.
Lemma tuples_nodup {A} n (xs : list A) : NoDup xs → NoDup (tuples n xs).
Proof.
  intros Hx. induction n as [|n IH]; [apply NoDup_singleton|]. cbn [tuples]. apply NoDup_bind; [| |done].
  - intros x y t _ _ (u & -> & _)%list_elem_of_fmap (v & [= ->] & _)%list_elem_of_fmap. done.
  - intros x _. apply NoDup_fmap_2; [|done]. by intros ? ? [= ->].
Qed.
Lemma tuples_elem {A} n (xs t : list A) : t ∈ tuples n xs → Forall (.∈ xs) t.
Proof.
  revert t. induction n as [|n IH]; intros t; cbn [tuples]; [by intros ->%list_elem_of_singleton|].
  intros (x & (u & -> & Hu)%list_elem_of_fmap & Hx)%list_elem_of_bind. constructor; [done|by apply IH].
Qed.
Lemma nodup_filter_fmap {A B} (g : A → B) (p : A → bool) xs : NoDup (g <$> xs) → NoDup (g <$> List.filter p xs).
Proof.
  induction xs as [|x xs IH]; [done|]. rewrite fmap_cons. intros [Hn Hx]%NoDup_cons. cbn [List.filter]. destruct (p x); [|by apply IH].
  rewrite fmap_cons. apply NoDup_cons. split; [|by apply IH]. intros (y & Hy & [Hin _]%list_elem_of_In%List.filter_In)%list_elem_of_fmap.
  apply Hn. rewrite Hy. apply list_elem_of_fmap_2. by apply list_elem_of_In.
Qed.
Lemma nodesOk_lookup ns bound : nodesOk ns bound = true →
  length ns = length bound ∧ ∀ i c, bound !! i = Some c → ∃ n, ns !! i = Some n ∧ opName c = pn_op n.
Proof.
  revert bound. induction ns as [|n ns IH]; intros [|c bound]; cbn; try done.
  intros [[Hop _]%andb_true_iff Hrest]%andb_true_iff. apply bool_decide_eq_true in Hop. destruct (IH _ Hrest) as [-> Hl].
  split; [done|]. intros [|i] c' Hc; cbn in *; [|by apply Hl]. injection Hc as <-. eauto.
Qed.

Lemma nodup_fmap_inj {A B} (f : A → B) (xs : list A) x y : NoDup (f <$> xs) → x ∈ xs → y ∈ xs → f x = f y → x = y.
Proof.
  intros Hnd [i Hi]%list_elem_of_lookup [j Hj]%list_elem_of_lookup Hf.
  assert (i = j) as <-; [|congruence]. eapply NoDup_lookup; [exact Hnd|..]; rewrite list_lookup_fmap; [by rewrite Hi|rewrite Hj; cbn; congruence].
Qed.

(** Bindings of a pattern whose nodes have different operations are told apart by the nodes
    they cover. *)
Lemma covered_inj graph pattern b b' : NoDup (n_id <$> nodes graph) → NoDup (pn_op <$> pt_nodes pattern) →
  Forall (.∈ nodes graph) b → Forall (.∈ nodes graph) b' → isMatch pattern b = true → isMatch pattern b' = true →
  list_to_set (C := gset nat) (n_id <$> b) = list_to_set (n_id <$> b') → n_id <$> b = n_id <$> b'.
Proof.
  intros Hids Hops Hb Hb' [[Hn _]%andb_true_iff _]%andb_true_iff [[Hn' _]%andb_true_iff _]%andb_true_iff Hset.
  destruct (nodesOk_lookup _ _ Hn) as [Hl Hop], (nodesOk_lookup _ _ Hn') as [Hl' Hop'].
  f_equal. apply (list_eq_same_length b b' (length b)); [lia|done|]. intros i c c' _ Hc Hc'.
  destruct (Hop _ _ Hc) as (n & Hi & Hon). assert (n_id c ∈ list_to_set (C := gset nat) (n_id <$> b')) as Hin.
  { rewrite <- Hset. apply elem_of_list_to_set, list_elem_of_fmap_2. by eapply list_elem_of_lookup_2. }
  apply elem_of_list_to_set, list_elem_of_fmap in Hin as (d & Hid & [j Hd]%list_elem_of_lookup).
  rewrite Forall_lookup in Hb, Hb'. assert (c = d) as <- by (eapply nodup_fmap_inj; [exact Hids|by eapply Hb|by eapply Hb'|done]).
  destruct (Hop' _ _ Hd) as (n' & Hj & Hon'). assert (i = j) as <-; [|congruence].
  eapply NoDup_lookup; [exact Hops|..]; rewrite list_lookup_fmap; [by rewrite Hi|rewrite Hj; cbn; congruence].
Qed.

Lemma matches_distinct graph rule : NoDup (n_id <$> nodes graph) →
  NoDup (rm_coveredNodes <$> allMatches graph rule) ∧
  ((∀ p, r_pattern rule = Some p → NoDup (pn_op <$> pt_nodes p)) →
   NoDup ((λ m, list_to_set (C := gset nat) (rm_coveredNodes m)) <$> allMatches graph rule)).
Proof.
  intros Hids. unfold allMatches. destruct (r_pattern rule) as [pattern|]; [|split; constructor].
  destruct (_ || _); [split; constructor|]. rewrite <- !list_fmap_compose.
  assert (canonicalNodes graph ≡ₚ nodes graph) as Hperm by apply merge_sort_Permutation.
  set (bs := List.filter _ _).
  assert (NoDup (fmap (M := list) (fmap (M := list) n_id) bs)) as Hnd.
  { apply nodup_filter_fmap. rewrite tuples_fmap. apply tuples_nodup. by rewrite Hperm. }
  split; [done|]. intros Hops. specialize (Hops pattern eq_refl).
  replace ((λ m, list_to_set (rm_coveredNodes m)) ∘ matchOf rule pattern <$> bs)
    with (list_to_set (C := gset nat) <$> fmap (M := list) (fmap (M := list) n_id) bs) by (by rewrite <- list_fmap_compose).
  apply NoDup_fmap_2_strong; [|done]. intros x y (b & -> & Hb)%list_elem_of_fmap (b' & -> & Hb')%list_elem_of_fmap.
  apply list_elem_of_In, List.filter_In in Hb as [Hb Hm], Hb' as [Hb' Hm'].
  apply list_elem_of_In, tuples_elem in Hb, Hb'. setoid_rewrite Hperm in Hb. setoid_rewrite Hperm in Hb'. by apply (covered_inj graph pattern).
Qed.

End matching.

(** ** The assignment is the first legal one *)
Section resolution.
Import LlkMap LayoutConstraints.

Definition lawful (env : EvalEnv) (cs : list Expr) (bindings : gmap string LayoutValue) : bool :=
  forallb (satisfies env bindings) cs.

Lemma checkConstraints_full env bindings es b r c : unspent b →
  checkConstraints env bindings es b = (r, c) → exhausted c = false →
  unspent c ∧ lawful env es bindings = match r with Ok s => s | Err _ => false end.
Proof.
  intros Hb Hc He. destruct r as [s|e].
  { destruct (checkConstraints_legal _ _ _ _ _ _ Hb Hc He) as [? ->]. done. }
  revert b Hb Hc. induction es as [|x es IH]; intros b Hb; cbn [checkConstraints]; [done|].
  unfold mbind, eval_bind. destruct (evalImpl env bindings x b) as [[v|] d] eqn:Hx.
  - destruct v as [i| |]; try done. case_bool_decide as Hi; [done|]. intros Hc.
    assert (exhausted d = false) as Hd.
    { destruct (exhausted d) eqn:Hd; [|done]. pose proof (checkConstraints_spent env bindings es d Hd) as Hs.
      rewrite Hc in Hs. cbn in Hs. congruence. }
    destruct (eval_full env bindings x b _ d Hb Hx Hd) as [Hu Hv]. destruct (IH d Hu Hc) as [? Hl]. split; [done|].
    unfold lawful. cbn [forallb]. change (forallb (satisfies env bindings) es) with (lawful env es bindings).
    by rewrite Hl, andb_false_r.
  - intros [= _ <-]. destruct (eval_full env bindings x b _ d Hb Hx He) as [Hu Hv]. split; [done|].
    unfold lawful. cbn [forallb]. unfold satisfies at 1. by rewrite Hv.
Qed.

Definition sizes (ds : list (string * list LayoutValue)) : list nat := length ∘ snd <$> ds.

Lemma sizes_positive ds : Forall (λ nd, nd.2 ≠ []) ds → Forall (λ n, n ≠ 0%nat) (sizes ds).
Proof. intros Hne. apply Forall_fmap. eapply Forall_impl; [exact Hne|]. by intros [n []]. Qed.

(** How an enumeration of [as_] may end. *)
Definition resolves (env : EvalEnv) (cs : list Expr) (as_ : list (gmap string LayoutValue)) (a : Z)
    (r : result (rule_reason * bool) (gmap string LayoutValue)) : Prop :=
  match r with
  | Ok m => ∃ before after, as_ = (before ++ m :: after)%list ∧ Forall (λ x, lawful env cs x = false) before ∧
      lawful env cs m = true
  | Err (_, false) => Forall (λ x, lawful env cs x = false) as_
  | Err (reason, true) => reason = TooManyAssignments → kMaxRuleAssignments < a + Z.of_nat (length as_)
  end.

Lemma resolves_cons env cs m as_ a r : lawful env cs m = false → resolves env cs as_ (a + 1) r →
  resolves env cs (m :: as_) a r.
Proof.
  intros Hm. unfold resolves. destruct r as [x|[reason []]].
  - intros (before & after & -> & Hb & Hx). exists (m :: before), after. split_and!; [done|by constructor|done].
  - intros H Hr. cbn [length]. specialize (H Hr). lia.
  - by constructor.
Qed.

Lemma resolveLoop_spec fuel env cs ds v l a b failure : enum (sizes ds) v l → length v = length (sizes ds) →
  (length l <= fuel)%nat → unspent b ∨ exhausted b = true → failure ≠ TooManyAssignments →
  let r := resolveLoop fuel env cs ds v a b failure in
  match r with Ok _ | Err (_, false) => unspent b | _ => True end ∧
  resolves env cs (assignment ds <$> l) a r.
Proof.
  intros Hl. revert fuel a b failure. induction Hl as [v Hv|v v' l Hv Hl IH];
    intros fuel a b failure Hlen Hf Hb Hfail; (destruct fuel as [|fuel]; [cbn in Hf; lia|]); cbn [resolveLoop];
    fold (sizes ds); (case_bool_decide as Hmax; [split; [done|]; intros _; rewrite length_fmap; cbn [length]; lia|]);
    pose proof (odometer_next (sizes ds) v Hlen) as Hnext; rewrite Hv in Hnext.
  - rewrite Hnext. destruct (checkConstraints env (assignment ds v) cs b) as [r c] eqn:Hc.
    assert (exhausted b = true → exhausted c = true) as Hspent.
    { intros Hs. pose proof (checkConstraints_spent env (assignment ds v) cs b Hs) as H. by rewrite Hc in H. }
    assert (exhausted c = false → unspent b ∧ lawful env cs (assignment ds v) = match r with Ok s => s | Err _ => false end) as Hfull.
    { intros He. destruct Hb as [Hb|Hs]; [|rewrite Hspent in He by done; done].
      split; [done|]. by destruct (checkConstraints_full _ _ _ _ _ _ Hb Hc He). }
    destruct r as [[]|e]; destruct (exhausted c) eqn:He; cbn;
      try (split; [done|by intros [=]]); destruct (Hfull eq_refl) as [? Hlaw]; (split; [done|]).
    + exists [], []. done.
    + by repeat constructor.
    + by repeat constructor.
  - destruct Hnext as (Hlen' & q & -> & _). cbn [length fmap list_fmap] in Hf |- *.
    destruct (checkConstraints env (assignment ds v) cs b) as [r c] eqn:Hc.
    assert (exhausted b = true → exhausted c = true) as Hspent.
    { intros Hs. pose proof (checkConstraints_spent env (assignment ds v) cs b Hs) as H. by rewrite Hc in H. }
    assert (exhausted c = false → unspent b ∧ unspent c ∧ lawful env cs (assignment ds v) = match r with Ok s => s | Err _ => false end) as Hfull.
    { intros He. destruct Hb as [Hb|Hs]; [|rewrite Hspent in He by done; done].
      split; [done|]. by apply (checkConstraints_full _ _ _ _ _ _ Hb Hc He). }
    assert (unspent c ∨ exhausted c = true) as Hc'.
    { destruct (exhausted c) eqn:He; [by right|left]. by apply Hfull. }
    assert (∀ failure, failure ≠ TooManyAssignments → r ≠ Ok true →
      let r := resolveLoop fuel env cs ds v' (a + 1) c failure in
      match r with Ok _ | Err (_, false) => unspent b | _ => True end ∧
      resolves env cs (assignment ds v :: (assignment ds <$> l)) a r) as Hnextr.
    { intros failure' Hfail' Hr. destruct (IH fuel (a + 1) c failure' Hlen' ltac:(lia) Hc' Hfail') as [Hu Hres]. cbn zeta.
      destruct (exhausted c) eqn:He.
      - destruct (resolveLoop fuel env cs ds v' (a + 1) c failure') as [m|[reason []]];
          [by destruct Hu as [_ _ Hu]; congruence| |by destruct Hu as [_ _ Hu]; congruence].
        split; [done|]. cbn in Hres |- *. intros Hre. specialize (Hres Hre). lia.
      - destruct (Hfull eq_refl) as (Hub & _ & Hlaw). split; [by destruct (resolveLoop _ _ _ _ _ _ _ _) as [|[? []]]|].
        apply resolves_cons; [|done]. by destruct r as [[]|]. }
    destruct r as [[]|e].
    + destruct (exhausted c) eqn:He; [by split|]. destruct (Hfull eq_refl) as (Hub & _ & Hlaw). split; [done|].
      exists [], (assignment ds <$> l). done.
    + by apply Hnextr.
    + by apply Hnextr.
Qed.
End resolution.

Lemma enumerable_spec domains pinned ps :
  match enumerable domains pinned ps with
  | Ok ds => Forall2 (λ p nd, ∃ vs, let n := LayoutConstraints.name p in
      LayoutConstraints.values <$> domains !! n = Some vs ∧ nd.1 = n ∧ nd.2 ≠ [] ∧
      match pinned !! n with Some v => v ∈ vs ∧ nd.2 = [v] | None => nd.2 = vs end) ps ds
  | Err _ => ∃ p, p ∈ ps ∧ let n := LayoutConstraints.name p in
      match LayoutConstraints.values <$> domains !! n with
      | None | Some [] => True
      | Some vs => ∃ v, pinned !! n = Some v ∧ v ∉ vs
      end
  end.
Proof.
  induction ps as [|p ps IH]; [by constructor|]. cbn [enumerable].
  assert (∀ reason, enumerable domains pinned ps = Err reason → ∃ q, q ∈ p :: ps ∧ let n := LayoutConstraints.name q in
      match LayoutConstraints.values <$> domains !! n with
      | None | Some [] => True
      | Some vs => ∃ v, pinned !! n = Some v ∧ v ∉ vs
      end) as Hrest.
  { intros reason Hr. rewrite Hr in IH. destruct IH as (q & Hq & ?). exists q. split; [by right|done]. }
  destruct (LayoutConstraints.values <$> domains !! LayoutConstraints.name p) as [vs|] eqn:Hd.
  2: { exists p. split; [left|]. cbn zeta. by rewrite Hd. }
  destruct vs as [|v0 vs]; [exists p; split; [left|]; cbn zeta; by rewrite Hd|].
  destruct (pinned !! LayoutConstraints.name p) as [v|] eqn:Hp.
  - unfold contains. case_bool_decide as Hin.
    2: { exists p. split; [left|]. cbn zeta. rewrite Hd. eauto. }
    destruct (enumerable domains pinned ps) as [ds|reason]; cbn [mbind result_bind]; [|by eapply Hrest].
    constructor; [|done]. exists (v0 :: vs). cbn. rewrite Hp. eauto 6.
  - destruct (enumerable domains pinned ps) as [ds|reason]; cbn [mbind result_bind]; [|by eapply Hrest].
    constructor; [|done]. exists (v0 :: vs). cbn. rewrite Hp. eauto 6.
Qed.

Section resolve.
Context `{MLIRTiles}.

(** The reference: the points of the product of the domains, in order. *)
Definition ruleAssignments (ds : list (string * list SearchValue)) : list (gmap string SearchValue) :=
  LayoutConstraints.assignment ds <$> index_vectors (sizes ds).

(** What the constraints are evaluated with. *)
Definition matchEnv (rule : RuleDef) (node : WorkloadNode) (machine : MachineModel) (context : LayoutContext) : LlkMap.EvalEnv :=
  ruleEnv machine (ruleLayoutContext node context) rule.

Lemma resolve_inv rule node machine context pinned : r_constraints rule ≠ [] →
  match enumerable (r_domains rule) pinned (r_params rule) with
  | Err reason => resolveRuleConstraints rule node machine context pinned = Err (reason, false)
  | Ok ds =>
    let r := resolveLoop (resolveFuel ds) (matchEnv rule node machine context) (r_constraints rule) ds
      (replicate (length ds) O) 0 (LlkMap.mkBudget kMaxRuleAssignments 0 false) ConstraintFails in
    resolveRuleConstraints rule node machine context pinned =
      (bindings ← r; Ok (filter (λ e, e.1 ∈ referenced rule) bindings)) ∧
    resolves (matchEnv rule node machine context) (r_constraints rule) (ruleAssignments ds) 0 r
  end.
Proof.
  intros Hc. unfold resolveRuleConstraints. rewrite decide_False by done.
  pose proof (enumerable_spec (r_domains rule) pinned (r_params rule)) as Hs.
  destruct (enumerable _ _ _) as [ds|reason]; [|done]. cbv zeta. split; [reflexivity|].
  assert (Forall (λ nd, nd.2 ≠ []) ds) as Hne.
  { clear -Hs. induction Hs as [|p nd ps ds (vs & _ & _ & Hne & _) _ IH]; by constructor. }
  replace (replicate (length ds) O) with (zeros (sizes ds)) by (unfold zeros, sizes; by rewrite length_fmap).
  refine (proj2 (resolveLoop_spec _ _ _ ds (zeros (sizes ds)) (index_vectors (sizes ds)) 0 _ ConstraintFails _ _ _ _ _)).
  - by apply index_vectors_enum, sizes_positive.
  - unfold zeros. by rewrite length_replicate.
  - by rewrite index_vectors_length.
  - left. split; cbn; unfold kMaxRuleAssignments, u64_max; lia || done.
  - done.
Qed.

(** C25: The parameters of a match are decided exactly.  A rule without constraints
    binds none.  Otherwise the parameters are those of the first assignment, in the
    order of the product of the domains (a pinned parameter taking its pinned value
    only), under which every constraint evaluates to a nonzero value, restricted to
    the names the constraints refer to; a refusal without a bound means that some
    parameter has no domain or is pinned outside it, or that no assignment is legal;
    and the bound on assignments is only blamed when there are more than it. *)
Theorem resolveRuleConstraints_exact rule node machine context pinned :
  let legal := lawful (matchEnv rule node machine context) (r_constraints rule) in
  match resolveRuleConstraints rule node machine context pinned with
  | Ok parameters =>
    r_constraints rule = [] ∧ parameters = ∅ ∨
    ∃ ds before m after, enumerable (r_domains rule) pinned (r_params rule) = Ok ds ∧
      ruleAssignments ds = (before ++ m :: after)%list ∧ Forall (λ x, legal x = false) before ∧ legal m = true ∧
      parameters = filter (λ e, e.1 ∈ referenced rule) m
  | Err (reason, false) =>
    enumerable (r_domains rule) pinned (r_params rule) = Err reason ∨
    ∃ ds, enumerable (r_domains rule) pinned (r_params rule) = Ok ds ∧ Forall (λ x, legal x = false) (ruleAssignments ds)
  | Err (reason, true) => reason = TooManyAssignments →
    ∃ ds, enumerable (r_domains rule) pinned (r_params rule) = Ok ds ∧ kMaxRuleAssignments < Z.of_nat (length (ruleAssignments ds))
  end.
Proof.
  intros legal. destruct (decide (r_constraints rule = [])) as [Hc|Hc].
  { unfold resolveRuleConstraints. rewrite decide_True by done. by left. }
  pose proof (resolve_inv rule node machine context pinned Hc) as Hr.
  destruct (enumerable _ _ _) as [ds|reason] eqn:He; [|by rewrite Hr; left].
  destruct Hr as (-> & Hr). destruct (resolveLoop _ _ _ _ _ _ _ _) as [m|[reason []]]; cbn [mbind result_bind].
  - right. destruct Hr as (before & after & Has & Hb & Hm). by exists ds, before, m, after.
  - intros Hre. exists ds. split; [done|]. by apply Hr.
  - right. by exists ds.
Qed.
End resolve.

(** ** An evaluation depends on the names it refers to *)
Section twins.
Import LlkMap LayoutConstraints.

Definition sane (b : QuantifierBudget) : Prop := 0 <= used b ∧ limit b <= u64_max.

(** Two evaluations that end alike from every budget, and only ever use it up. *)
Definition twin {A} (m m' : eval A) : Prop := ∀ b, sane b →
  m b = m' b ∧ sane (m b).2 ∧ limit (m b).2 - used (m b).2 <= limit b - used b.

Lemma twin_alike {A} (m m' : eval A) : alike m m' → twin m m'.
Proof.
  intros Ha b Hb. destruct (Ha b b) as (r & -> & ->). cbn. by split_and!; [..|lia].
Qed.
Lemma twin_bind {A B} (m m' : eval A) (f f' : A → eval B) : twin m m' → (∀ a, twin (f a) (f' a)) → twin (m ≫= f) (m' ≫= f').
Proof.
  intros Hm Hf b Hb. unfold mbind, eval_bind. destruct (Hm b Hb) as (<- & Hs & Hl). destruct (m b) as [[a|e] c]; cbn in *; [|done].
  destruct (Hf a c Hs) as (? & ? & ?). split_and!; [done..|lia].
Qed.
Lemma twin_ret {A} (a : A) : twin (mret a) (mret a).
Proof. apply twin_alike, alike_ret. Qed.
Lemma twin_error {A} e : twin (@evalError A e) (evalError e).
Proof. apply twin_alike, alike_error. Qed.
Lemma twin_makeInt z : twin (makeInt z) (makeInt z).
Proof. apply twin_alike, alike_makeInt. Qed.
Lemma twin_makeBool z : twin (makeBool z) (makeBool z).
Proof. apply twin_ret. Qed.
#[local] Hint Resolve twin_ret twin_error twin_makeInt twin_makeBool : core.

Lemma twin_evalMember machine member handle arg arg' : option_Forall2 twin arg arg' →
  twin (evalMember machine member handle arg) (evalMember machine member handle arg').
Proof.
  intros Ha. unfold evalMember. destruct (str_find _ _); auto. case_decide.
  { destruct (negb _); auto. case_bool_decide; auto. }
  case_decide.
  { destruct (negb _); auto. destruct Ha as [a a' Ha|]; auto. apply twin_bind; auto. intros [| |]; auto. destruct (lanesFor _ _ _); auto. }
  destruct (contains _ _); auto. destruct (String.prefix _ _); auto. destruct (findMemory _ _); auto.
Qed.

Lemma budget_step_sane b : sane b → sane (budget_step b).2 ∧
  limit (budget_step b).2 - used (budget_step b).2 <= limit b - used b.
Proof.
  intros [Hu Hl]. unfold budget_step, sane. case_bool_decide; cbn; [lia|].
  rewrite u64_id by (unfold in_u64, u64_max in *; lia). lia.
Qed.

Lemma twin_quantifierLoop isForall body body' domain : (∀ v, twin (body v) (body' v)) →
  twin (quantifierLoop isForall body domain) (quantifierLoop isForall body' domain).
Proof.
  intros Hb. induction domain as [|v domain IH]; [exact (twin_makeBool isForall)|]. intros b Hs. cbn [quantifierLoop].
  pose proof (budget_step_sane b Hs) as [Hs' Hl]. destruct (budget_step b) as [[] c]; cbn [snd] in *; [|by split_and!].
  destruct (Hb v c Hs') as (<- & Hs'' & Hl'). destruct (body v c) as [[[i| |]|e] d]; cbn [snd] in *;
    try (split_and!; [done..|lia]).
  destruct (isForall && _); [split_and!; [done..|cbn; lia]|]. destruct (negb isForall && _); [split_and!; [done..|cbn; lia]|].
  destruct (IH d Hs'') as (? & ? & ?). split_and!; [done..|lia].
Qed.

Lemma collect_list bound es n :
  n ∈ (fix go es := match es with [] => ∅ | e :: es => collectIdentifiers bound e ∪ go es end) es ↔
  ∃ e, e ∈ es ∧ n ∈ collectIdentifiers bound e.
Proof.
  induction es as [|e es IH]; [set_solver|]. rewrite elem_of_union, IH. set_solver.
Qed.

(** The bindings agree on the names an expression reads. *)
Definition agree (bound : gset string) (e : Expr) (b1 b2 : gmap string LayoutValue) : Prop :=
  ∀ n, n ∈ collectIdentifiers bound e ∪ bound → b1 !! n = b2 !! n.
Definition local (env : EvalEnv) (e : Expr) : Prop :=
  ∀ bound b1 b2, agree bound e b1 b2 → twin (evalImpl env b1 e) (evalImpl env b2 e).

Lemma agree_sub bound e x b1 b2 : kind e ≠ Quantifier → kind e ≠ Ident → x ∈ operands e → agree bound e b1 b2 → agree bound x b1 b2.
Proof.
  intros Hk Hi Hx Ha n [Hn|Hn]%elem_of_union; apply Ha, elem_of_union; [left|by right].
  destruct e as [k i t ops]. destruct k; try done; cbn [collectIdentifiers kind operands] in *; apply collect_list; eauto.
Qed.

Lemma evalImpl_local env e : local env e ∧ Forall (local env) (operands e).
Proof.
  induction e as [k i t ops IH] using Expr_nested_ind. cbn [operands].
  assert (Forall (local env) ops) as Hops by (eapply Forall_impl; [exact IH|by intros x [? _]]). split; [|done].
  intros bound b1 b2 Ha. set (e := mkExpr k i t ops) in *.
  assert (k ≠ Quantifier → k ≠ Ident → Forall (λ x, twin (evalImpl env b1 x) (evalImpl env b2 x)) ops) as Hall.
  { intros Hq Hi. rewrite Forall_forall in Hops |- *. intros x Hx. apply (Hops x Hx bound). by eapply (agree_sub bound e). }
  destruct k; cbn [evalImpl kind text operands intValue e]; auto.
  - unfold evalIdent. assert (b1 !! t = b2 !! t) as ->.
    { apply Ha. unfold e. cbn [collectIdentifiers kind text]. case_bool_decide; set_solver. }
    destruct (b2 !! t); auto. repeat case_decide; auto.
  - specialize (Hall ltac:(done) ltac:(done)). destruct (isMachineCall t).
    + destruct ops as [|a [|]]; auto. apply Forall_cons in Hall as [? _]. apply twin_bind; auto. intros [| |]; auto.
    + destruct ops as [|a [|b [|]]]; auto. apply Forall_cons in Hall as [? [? _]%Forall_cons].
      apply twin_bind; auto. intros ?. apply twin_bind; auto. intros ?. apply twin_alike, alike_evalFunction.
  - specialize (Hall ltac:(done) ltac:(done)). destruct ops as [|r args]; auto. apply Forall_cons in Hall as [? Hall].
    apply twin_bind; auto. intros [| |]; auto. apply twin_evalMember. destruct args as [|a [|]]; [constructor| |constructor].
    constructor. by apply Forall_cons in Hall as [? _].
  - specialize (Hall ltac:(done) ltac:(done)). destruct ops as [|a ops]; auto. apply Forall_cons in Hall as [? _].
    apply twin_bind; auto. intros [| |]; auto. destruct (decide _); auto.
  - specialize (Hall ltac:(done) ltac:(done)). destruct ops as [|a [|b ops]]; auto. apply Forall_cons in Hall as [? [? _]%Forall_cons].
    apply twin_bind; auto. intros ?. apply twin_bind; auto. intros ?. apply twin_alike, alike_evalBinary.
  - destruct ops as [|v [|d [|body rest]]]; auto.
    apply Forall_cons in Hops as [_ [_ [Hbody _]%Forall_cons]%Forall_cons].
    apply Forall_cons in IH as [_ [[_ Hd] _]%Forall_cons].
    apply twin_bind.
    + unfold evalDomain. case_decide; auto. case_decide.
      { destruct (domainResolver env); auto. destruct (operands d) as [|p ps]; auto. destruct (o _); auto. }
      case_decide as Hx; auto. apply twin_bind; [|intros [| |]; auto; case_bool_decide; auto].
      destruct (operands d) as [|x xs] eqn:Hod; auto. apply Forall_cons in Hd as [Hd _]. apply (Hd bound).
      intros n [Hn|Hn]%elem_of_union; apply Ha, elem_of_union; [left|by right].
      unfold e. cbn [collectIdentifiers kind operands text]. destruct Hx as [Hx1 Hx2].
      rewrite !bool_decide_true by done. cbn [andb]. apply elem_of_union. left. apply collect_list.
      exists x. rewrite Hod. split; [left|done].
    + intros vs. apply twin_quantifierLoop. intros val. apply (Hbody ({[text v]} ∪ bound)).
      intros n Hn. destruct (decide (n = text v)) as [->|Hne]; [by rewrite !lookup_insert_eq|].
      rewrite !lookup_insert_ne by done. apply Ha. apply elem_of_union. apply elem_of_union in Hn as [Hn|Hn]; [|set_solver].
      left. unfold e. cbn [collectIdentifiers kind operands]. apply elem_of_union. by right.
Qed.

Lemma checkConstraints_local env b1 b2 cs : (∀ n, n ∈ ⋃ (collectIdentifiers ∅ <$> cs) → b1 !! n = b2 !! n) →
  twin (checkConstraints env b1 cs) (checkConstraints env b2 cs).
Proof.
  induction cs as [|c cs IH]; intros Ha; [apply twin_ret|]. cbn [checkConstraints]. apply twin_bind.
  - apply (proj1 (evalImpl_local env c) ∅). intros n Hn. apply Ha. cbn. set_solver.
  - intros [i| |]; auto. case_bool_decide; auto. apply IH. intros n Hn. apply Ha. cbn. set_solver.
Qed.
End twins.

(** ** What is generated verifies *)
Section recorded.
Context `{MLIRTiles}.
Import LlkMap LayoutConstraints.

Lemma robust_checkConstraints env bindings es : robust (checkConstraints env bindings es).
Proof.
  induction es as [|e es IH]; [apply robust_ret|]. cbn [checkConstraints]. apply robust_bind; [apply robust_evalImpl|].
  intros [i| |]; try apply robust_ret. case_bool_decide; [apply robust_ret|done].
Qed.

Definition freshBudget : QuantifierBudget := mkBudget kMaxRuleAssignments 0 false.

(** Bindings that pass a check on a part of the budget pass it on all of it. *)
Definition passes (env : EvalEnv) (cs : list Expr) (m : gmap string LayoutValue) : Prop :=
  ∃ c, checkConstraints env m cs freshBudget = (Ok true, c) ∧ exhausted c = false.

Lemma fresh_sane : sane freshBudget.
Proof. split; cbn; unfold kMaxRuleAssignments, u64_max; lia. Qed.

Lemma passes_within env cs m b c : sane b → exhausted b = false → limit b - used b <= kMaxRuleAssignments →
  checkConstraints env m cs b = (Ok true, c) → exhausted c = false → passes env cs m.
Proof.
  intros [Hu Hl] He Hk Hc Hx. destruct (robust_checkConstraints env m cs) as [_ Hr].
  destruct (Hr b freshBudget) as [Hs|[Hs Hsim]].
  - split; [done|split; cbn; [lia|unfold kMaxRuleAssignments, u64_max; lia|done]|cbn; lia].
  - rewrite Hc in Hs. cbn in Hs. congruence.
  - rewrite Hc in Hs, Hsim. destruct (checkConstraints env m cs freshBudget) as [r d] eqn:Hd. cbn in Hs, Hsim. subst r.
    exists d. split; [done|]. by destruct Hsim as [_ [] _].
Qed.

Lemma passes_agree env cs m m' : (∀ n, n ∈ ⋃ (collectIdentifiers ∅ <$> cs) → m !! n = m' !! n) →
  passes env cs m → passes env cs m'.
Proof.
  intros Ha (c & Hc & He). exists c. destruct (checkConstraints_local env m m' cs Ha freshBudget fresh_sane) as (<- & _). done.
Qed.

Lemma resolveLoop_passes fuel env cs ds v a b failure m :
  resolveLoop fuel env cs ds v a b failure = Ok m → sane b → exhausted b = false → limit b - used b <= kMaxRuleAssignments →
  passes env cs m.
Proof.
  revert v a b failure. induction fuel as [|fuel IH]; intros v a b failure; cbn [resolveLoop]; [done|].
  case_bool_decide; [done|]. destruct (checkConstraints env (assignment ds v) cs b) as [r c] eqn:Hc. intros Hr Hs He Hk.
  destruct (checkConstraints_local env (assignment ds v) (assignment ds v) cs (λ _ _, eq_refl) b Hs) as (_ & Hs' & Hk').
  rewrite Hc in Hs', Hk'. cbn [snd] in Hs', Hk'.
  assert (∀ failure, match odometer (length ∘ snd <$> ds) (length v) v with
        | (_, None) => Err (failure, exhausted c)
        | (index, Some _) => resolveLoop fuel env cs ds index (a + 1) c failure
        end = Ok m → passes env cs m) as Hnext.
  { intros f Hn. destruct (odometer _ _ _) as [w [p|]]; [|done]. destruct (exhausted c) eqn:Hx; [|by eapply IH; [exact Hn|done|done|lia]].
    exfalso. clear -Hn Hx. revert w a c f Hx Hn. induction fuel as [|fuel IH]; intros w a c f Hx; cbn [resolveLoop]; [done|].
    case_bool_decide; [done|]. pose proof (checkConstraints_spent env (assignment ds w) cs c Hx) as Hs.
    destruct (checkConstraints _ _ _ c) as [[[]|e] d]; cbn in Hs;
      [by rewrite Hs| |]; (destruct (odometer _ _ _) as [w' [p|]]; [by apply IH|done]). }
  destruct r as [[]|e]; [|by eapply Hnext..]. destruct (exhausted c) eqn:Hx; [done|]. injection Hr as <-.
  exact (passes_within env cs _ b c Hs He Hk Hc Hx).
Qed.

(** The names and values of an assignment that was resolved. *)
Lemma ruleAssignments_elem ds m : NoDup ds.*1 → m ∈ ruleAssignments ds → dom m = list_to_set ds.*1 ∧ inDomains ds m.
Proof.
  intros Hnd (v & -> & Hv)%list_elem_of_fmap. apply elem_of_index_vectors in Hv. unfold sizes in Hv.
  rewrite Forall2_fmap_r in Hv. destruct (bind_all ∅ ds v Hnd Hv) as (Hd & _ & Hi). split; [|exact Hi].
  change (dom (foldl bindStep ∅ (zip ds v)) = list_to_set ds.*1). rewrite Hd. set_solver.
Qed.

Lemma enumerable_names domains pinned ps ds : enumerable domains pinned ps = Ok ds → ds.*1 = name <$> ps.
Proof.
  intros He. pose proof (enumerable_spec domains pinned ps) as Hs. rewrite He in Hs. clear He.
  induction Hs as [|p nd ps ds (vs & _ & Hn & _) _ IH]; [done|]. cbn. by rewrite Hn, IH.
Qed.

Lemma enumerable_value domains pinned ps ds m n v : enumerable domains pinned ps = Ok ds → inDomains ds m →
  n ∈ name <$> ps → m !! n = Some v → ∃ d, domains !! n = Some d ∧ v ∈ LayoutConstraints.values d.
Proof.
  intros He. pose proof (enumerable_spec domains pinned ps) as Hs. rewrite He in Hs. clear He.
  induction Hs as [|p nd ps ds (vs & Hd & Hn & _ & Hp) _ IH]; intros Hi; [by intros []%elem_of_nil|]. rewrite fmap_cons.
  intros [->|Hin]%elem_of_cons Hv; [|apply IH; [|done..]; intros nd' ?; apply Hi; by right].
  destruct (Hi nd ltac:(left)) as (x & Hx & Hl). rewrite Hn, Hv in Hl. injection Hl as <-.
  destruct (domains !! name p) as [d|]; [|done]. injection Hd as <-. exists d. split; [done|].
  destruct (pinned !! name p) as [w|]; [destruct Hp as [Hw Hp]|]; [|by rewrite Hp in Hx].
  rewrite Hp in Hx. by apply list_elem_of_singleton in Hx as ->.
Qed.

Lemma enumerable_unpinned domains pinned ps ds : enumerable domains pinned ps = Ok ds →
  ∃ ds', enumerable domains ∅ ps = Ok ds' ∧ ds'.*1 = ds.*1.
Proof.
  revert ds. induction ps as [|p ps IH]; intros ds; cbn [enumerable]; [intros [= <-]; by exists []|].
  destruct (values <$> domains !! name p) as [[|v vs]|]; try done. rewrite lookup_empty.
  assert (∀ w, (rest ← enumerable domains pinned ps; Ok ((name p, w) :: rest)) = Ok ds →
    ∃ ds', (rest ← enumerable domains ∅ ps; Ok ((name p, v :: vs) :: rest)) = Ok ds' ∧ ds'.*1 = ds.*1) as Hgo.
  { intros w. destruct (enumerable domains pinned ps) as [rest|]; [|done]. intros [= <-].
    destruct (IH rest eq_refl) as (ds' & -> & Hn). eexists. split; [done|]. cbn. by rewrite Hn. }
  destruct (pinned !! name p) as [w|]; [destruct (contains _ _); [|done]|]; apply Hgo.
Qed.

(** What a resolution gives, when the rule has constraints. *)
Lemma resolve_passes rule node machine context pinned parameters : NoDup (name <$> r_params rule) →
  r_constraints rule ≠ [] → resolveRuleConstraints rule node machine context pinned = Ok parameters →
  ∃ ds m, enumerable (r_domains rule) pinned (r_params rule) = Ok ds ∧
    dom m = list_to_set (name <$> r_params rule) ∧ inDomains ds m ∧
    passes (matchEnv rule node machine context) (r_constraints rule) m ∧
    parameters = filter (λ e, e.1 ∈ referenced rule) m.
Proof.
  intros Hnd Hc Hr. pose proof (resolve_inv rule node machine context pinned Hc) as Hi.
  destruct (enumerable _ _ _) as [ds|] eqn:He; [|by rewrite Hr in Hi]. destruct Hi as [Hi Hres]. rewrite Hr in Hi.
  pose proof (enumerable_names _ _ _ _ He) as Hn. destruct (resolveLoop _ _ _ _ _ _ _ _) as [m|] eqn:Hl; [|done].
  injection Hi as ->. exists ds, m.
  assert (m ∈ ruleAssignments ds) as Hm by (destruct Hres as (before & after & -> & _); set_solver).
  apply ruleAssignments_elem in Hm as [Hd Hin]; [|by rewrite Hn]. rewrite Hn in Hd. split_and!; [done..| |done].
  eapply resolveLoop_passes; [exact Hl|apply fresh_sane|done|cbn; lia].
Qed.

(** Without a pin the first assignment is as good, when no name is referred to. *)
Lemma resolve_unpinned rule node machine context pinned : NoDup (name <$> r_params rule) →
  resolveRuleConstraints rule node machine context pinned = Ok ∅ →
  ∃ parameters, resolveRuleConstraints rule node machine context ∅ = Ok parameters.
Proof.
  intros Hnd Hr. destruct (decide (r_constraints rule = [])) as [Hc|Hc].
  { exists ∅. unfold resolveRuleConstraints. by rewrite decide_True. }
  destruct (resolve_passes _ _ _ _ _ _ Hnd Hc Hr) as (ds & m & He & Hd & Hin & Hp & Hf).
  destruct (enumerable_unpinned _ _ _ _ He) as (ds' & He' & Hn'). rewrite (enumerable_names _ _ _ _ He) in Hn'.
  unfold resolveRuleConstraints. rewrite decide_False by done. rewrite He'.
  assert (Forall (λ nd, nd.2 ≠ []) ds') as Hne.
  { pose proof (enumerable_spec (r_domains rule) ∅ (r_params rule)) as Hs. rewrite He' in Hs. clear -Hs.
    induction Hs as [|p nd ps ds (vs & _ & _ & Hne & _) _ IH]; by constructor. }
  assert (index_vectors (sizes ds') ≠ []) as Hvs.
  { destruct (enum_nonempty _ _ _ (index_vectors_enum _ (sizes_positive _ Hne))) as [l ->]. done. }
  unfold resolveFuel. fold (sizes ds'). rewrite <- index_vectors_length.
  destruct (index_vectors (sizes ds')) as [|v l] eqn:Hl; [done|]. cbn [length resolveLoop].
  assert (assignment ds' (replicate (length ds') O) ∈ ruleAssignments ds') as Hm0.
  { unfold ruleAssignments. apply list_elem_of_fmap. eexists. split; [done|].
    replace (replicate (length ds') O) with (zeros (sizes ds')) by (unfold zeros, sizes; by rewrite length_fmap).
    destruct (enum_nonempty _ _ _ (index_vectors_enum _ (sizes_positive _ Hne))) as [l' ->]. left. }
  apply ruleAssignments_elem in Hm0 as [Hd0 _]; [|by rewrite Hn'].
  rewrite bool_decide_false by (unfold kMaxRuleAssignments; lia).
  unshelve epose proof (passes_agree _ _ m (assignment ds' (replicate (length ds') O)) _ Hp) as (c & Hc' & Hx).
  - intros n Hn. assert (n ∉ name <$> r_params rule) as Hno.
    { intros Hin'. assert (is_Some (m !! n)) as [x Hx] by (apply elem_of_dom; rewrite Hd; by apply elem_of_list_to_set).
      assert (filter (λ e, e.1 ∈ referenced rule) m !! n = Some x) as Hfx by (apply map_lookup_filter_Some; by split).
      by rewrite <- Hf in Hfx. }
    trans (@None SearchValue); [|symmetry]; apply not_elem_of_dom; rewrite ?Hd, ?Hd0, ?Hn'; by rewrite elem_of_list_to_set.
  - unfold matchEnv, freshBudget in Hc'. rewrite Hc', Hx. by eexists.
Qed.

Lemma checkParameters_ok rule node machine context pinned parameters s : NoDup (name <$> r_params rule) →
  (∀ n, n ∈ name <$> r_params rule → is_Some (findRuleParam rule n)) →
  ruleLayoutContext node context = ruleLayoutContext node emptyContext →
  resolveRuleConstraints rule node machine context pinned = Ok parameters → sel_parameters s = parameters →
  checkParameters rule node machine s = Ok tt.
Proof.
  intros Hnd Hfind Hctx Hr Hs. unfold checkParameters. rewrite Hs.
  assert (resolveRuleConstraints rule node machine emptyContext pinned = Ok parameters) as Hr'.
  { rewrite <- Hr. unfold resolveRuleConstraints. by rewrite Hctx. }
  clear Hctx Hr. case_bool_decide as He; cbn [negb].
  { subst parameters. rewrite He in Hr'. by destruct (resolve_unpinned _ _ _ _ _ Hnd Hr') as [ps ->]. }
  destruct (decide (r_constraints rule = [])) as [Hc|Hc].
  { unfold resolveRuleConstraints in Hr'. rewrite decide_True in Hr' by done. congruence. }
  destruct (resolve_passes _ _ _ _ _ _ Hnd Hc Hr') as (ds & m & Hds & Hd & Hin & Hp & Hf).
  unfold recordedParameterProblem. apply bind_ok. exists tt. split.
  { apply for_each_ok. intros [n v] Hnv%in_order_elem. rewrite Hf in Hnv.
    apply map_lookup_filter_Some in Hnv as [Hv Hn]. unfold checkRecorded. cbn [fst snd].
    assert (n ∈ name <$> r_params rule) as Hin'.
    { apply elem_of_dom_2 in Hv. rewrite Hd in Hv. by apply elem_of_list_to_set in Hv. }
    destruct (Hfind n Hin') as [x ->]. destruct (enumerable_value _ _ _ _ _ _ _ Hds Hin Hin' Hv) as (d & Hdd & Hvd).
    rewrite Hdd. cbn. unfold contains. by rewrite bool_decide_true. }
  apply bind_ok. exists tt. split.
  { apply for_each_ok. intros p [Hp1 Hp2]%list_elem_of_In%filter_In. apply bool_decide_eq_true in Hp2. apply fail_if_ok.
    apply bool_decide_eq_false. assert (name p ∈ dom m) as [v Hv]%elem_of_dom.
    { rewrite Hd. apply elem_of_list_to_set, list_elem_of_fmap. exists p. split; [done|]. by apply list_elem_of_In. }
    rewrite Hf. intros Hno. assert (filter (λ e, e.1 ∈ referenced rule) m !! name p = Some v) as Hfx
      by (apply map_lookup_filter_Some; by split). congruence. }
  unshelve epose proof (passes_agree _ _ m parameters _ Hp) as (c & Hc' & Hx).
  - intros n Hn. rewrite Hf. destruct (m !! n) as [v|] eqn:Hv; symmetry.
    + apply map_lookup_filter_Some. by split.
    + apply map_lookup_filter_None. by left.
  - unfold matchEnv, freshBudget in Hc'. by rewrite Hc', Hx.
Qed.
End recorded.

Lemma foldl_bound {A V} (key : A → option string) (g : A → V) l (m0 : gmap string V) k : (∃ e, e ∈ l ∧ key e = Some k) →
  ∃ e, e ∈ l ∧ key e = Some k ∧
    foldl (λ m e, match key e with Some n => <[n := g e]> m | None => m end) m0 l !! k = Some (g e).
Proof.
  induction l as [|x l IH] using rev_ind; [by intros (? & []%elem_of_nil & _)|]. intros (e & He & Hk).
  setoid_rewrite foldl_app. cbn [foldl]. destruct (decide (key x = Some k)) as [Hx|Hx].
  { exists x. split_and!; [set_solver|done|]. rewrite Hx. by rewrite lookup_insert_eq. }
  apply elem_of_app in He as [He|[= ->]%list_elem_of_singleton]; [|done]. destruct IH as (e' & He' & Hk' & Hl); [eauto|].
  exists e'. split_and!; [set_solver|done|]. destruct (key x) as [n|]; [|done]. rewrite lookup_insert_ne; [done|congruence].
Qed.

Lemma zip_elem {A B} (R : A → B → Prop) xs ys x : Forall2 R xs ys → x ∈ xs → ∃ y, (x, y) ∈ zip xs ys.
Proof. intros HF Hx. induction HF as [|a b xs ys Hab _ IH]; [by apply elem_of_nil in Hx|]. cbn. set_solver. Qed.
Lemma elem_zip {A B} (R : A → B → Prop) xs ys x y : Forall2 R xs ys → (x, y) ∈ zip xs ys → x ∈ xs ∧ y ∈ ys ∧ R x y.
Proof. induction 1 as [|a b xs ys Hab _ IH]; [by intros []%elem_of_nil|]. cbn. set_solver. Qed.


Lemma find_all {A} (p : A → bool) xs x : x ∈ xs → p x = true → ∃ y, List.find p xs = Some y ∧ y ∈ xs ∧ p y = true.
Proof.
  intros Hx Hp. destruct (List.find p xs) as [y|] eqn:Hf.
  - apply List.find_some in Hf as [Hy%list_elem_of_In ?]. eauto.
  - apply List.find_none with (x := x) in Hf; [congruence|by apply list_elem_of_In].
Qed.

Section bindings.
Context `{MLIRTiles} `{!MLIRPrint} `{AE : LayoutConstraints.AffineExprs} `{!MLIRMaps} `{!MLIRBuild}.

Lemma bindComputes_bound rs chosen k : Forall2 (λ r c, cmp_kind c = cr_kind r) rs chosen →
  mkComputeRequirement k ∈ rs → ∃ c, c ∈ chosen ∧ cmp_kind c = k ∧ bindComputes rs chosen !! k = Some (cmp_id c).
Proof.
  intros HF Hr. destruct (zip_elem _ _ _ _ HF Hr) as [c Hc].
  destruct (foldl_bound (λ e : ComputeRequirement * ComputeNode, Some (cr_kind e.1)) (λ e, cmp_id e.2) (zip rs chosen) ∅ k)
    as ([r c'] & He & Hk & Hl); [by eexists (_, _)|].
  destruct (elem_zip _ _ _ _ _ HF He) as (_ & Hc' & Hkind). cbn in Hk. exists c'. split_and!; [done|congruence|exact Hl].
Qed.

Lemma bindMemories_bound rs chosen k bytes : Forall2 (λ r m, mem_kind m = mr_kind r) rs chosen →
  mkMemoryRequirement k bytes None ∈ rs → ∃ m, m ∈ chosen ∧ mem_kind m = k ∧ bindMemories rs chosen !! k = Some (mem_id m).
Proof.
  intros HF Hr. destruct (zip_elem _ _ _ _ HF Hr) as [c Hc].
  pose (key e := match mr_port (e : MemoryRequirement * MemoryNode).1 with Some _ => None | None => Some (mr_kind e.1) end).
  destruct (foldl_bound key (λ e, mem_id e.2) (zip rs chosen) ∅ k) as ([r m] & He & Hk & Hl); [by eexists (_, _)|].
  destruct (elem_zip _ _ _ _ _ HF He) as (_ & Hm & Hkind). exists m. split_and!; [done| |].
  - unfold key in Hk. cbn in Hk. destruct (mr_port r); [done|]. congruence.
  - etrans; [|exact Hl]. f_equal. unfold bindMemories. generalize (∅ : gmap string string) as m0. clear.
    induction (zip rs chosen) as [|e l IH]; intros m0; cbn [foldl]; [done|]. rewrite IH. unfold key at 3. by destruct (mr_port e.1).
Qed.

(** The first binding of an occurrence is that of a requirement that names it. *)
Lemma bindPortMemories_bound rs chosen k bytes ref : Forall2 (λ r m, mem_kind m = mr_kind r) rs chosen →
  mkMemoryRequirement k bytes (Some ref) ∈ rs →
  ∃ r m, m ∈ chosen ∧ r ∈ rs ∧ mr_port r = Some ref ∧ mem_kind m = mr_kind r ∧
    List.find (λ b, bool_decide (pm_port b = ref)) (bindPortMemories rs chosen) = Some (mkPortMemory ref (mem_id m)).
Proof.
  intros HF Hr. destruct (zip_elem _ _ _ _ HF Hr) as [c Hc].
  assert (∀ b, b ∈ bindPortMemories rs chosen ↔ ∃ r m, (r, m) ∈ zip rs chosen ∧ mr_port r = Some (pm_port b) ∧ mem_id m = pm_memory b) as Hb.
  { intros [p n]. unfold bindPortMemories. rewrite merge_sort_Permutation, list_elem_of_omap. split.
    - intros ([r m] & Hin & Heq). cbn in Heq. exists r, m. destruct (mr_port r); [|done]. by injection Heq as -> ->.
    - intros (r & m & Hin & Hp & Hm). cbn in Hp, Hm. exists (r, m). cbn. split; [done|]. by rewrite Hp, Hm. }
  destruct (find_all (λ b, bool_decide (pm_port b = ref)) (bindPortMemories rs chosen) (mkPortMemory ref (mem_id c)))
    as (b & Hf & Hin & Hp); [apply Hb; by eexists _, _|by apply bool_decide_eq_true|].
  apply bool_decide_eq_true in Hp. apply Hb in Hin as (r & m & Hrm & Hport & Hm).
  destruct (elem_zip _ _ _ _ _ HF Hrm) as (Hr' & Hm' & Hkind).
  exists r, m. rewrite Hf. destruct b as [q n]. cbn in *. subst. done.
Qed.

Lemma memoriesOf_elem rule node ks rs k : memoriesOf rule node ks = Ok rs → k ∈ ks → role k = "memory" →
  match kr_port k with
  | None => mkMemoryRequirement (kr_kind k) 0 None ∈ rs
  | Some port => ∃ ref, portRefForRulePort rule node port = Some ref ∧ mkMemoryRequirement (kr_kind k) 0 (Some ref) ∈ rs
  end.
Proof.
  revert rs. induction ks as [|x ks IH]; intros rs; [by intros _ []%elem_of_nil|]. cbn [memoriesOf].
  intros Hm [->|Hin]%elem_of_cons Hrole.
  - rewrite bool_decide_true in Hm by done. destruct (kr_port x) as [port|].
    + destruct (portRefForRulePort rule node port) as [ref|]; [|done]. apply bind_ok in Hm as (rest & _ & [= <-]).
      exists ref. split; [done|left].
    + apply bind_ok in Hm as (rest & _ & [= <-]). left.
  - assert (∀ r rest, rs = r :: rest → memoriesOf rule node ks = Ok rest → match kr_port k with
      | None => mkMemoryRequirement (kr_kind k) 0 None ∈ rs
      | Some port => ∃ ref, portRefForRulePort rule node port = Some ref ∧ mkMemoryRequirement (kr_kind k) 0 (Some ref) ∈ rs
      end) as Hlater.
    { intros r rest -> Hr. specialize (IH rest Hr Hin Hrole). destruct (kr_port k); [|by right].
      destruct IH as (ref & ? & ?). exists ref. split; [done|by right]. }
    case_bool_decide; [|by apply IH]. destruct (kr_port x) as [port|].
    + destruct (portRefForRulePort rule node port) as [ref|]; [|done]. apply bind_ok in Hm as (rest & Hr & [= <-]). by eapply Hlater.
    + apply bind_ok in Hm as (rest & Hr & [= <-]). by eapply Hlater.
Qed.

Lemma enumeratePlacements_elem candidate target context options pls inst :
  enumeratePlacements candidate target context options = Ok pls → inst ∈ pl_instances pls →
  ∃ solved e cs ms, e ∈ matchingExecutors (machine target) candidate ∧ LegalChoice candidate target e cs ms ∧
    inst = instanceFor (machine target) candidate solved e cs ms.
Proof.
  unfold enumeratePlacements. intros (r & _ & Hp)%bind_ok Hin. destruct r as [solved|]; [|injection Hp as <-; by apply elem_of_nil in Hin].
  destruct (conflicting [] solved); [injection Hp as <-; by apply elem_of_nil in Hin|].
  destruct (placeExecutors_spec candidate target options solved
    (representatives candidate target options) None []) as (f & Hpl & _); [unfold capOf; cbn; lia|].
  unfold representatives in Hpl at 1. rewrite Hpl in Hp. injection Hp as <-. cbn [pl_instances app] in Hin.
  apply elem_of_take in Hin as (i & Hi & _). apply list_elem_of_lookup_2 in Hi. apply list_elem_of_bind in Hi as (e & He1 & He2).
  apply placementsOn_elem in He1 as (cs & ms & Hl & ->). exists solved, e, cs, ms. split_and!; [|done..].
  unfold representatives in He2. destruct (reduceSymmetry options); [|done].
  destruct (reduceSymmetric_spec (machine target) (matchingExecutors (machine target) candidate)) as (Hsub & _).
  by eapply elem_of_sublist.
Qed.

(** What the requirements of a rule become in its candidate. *)
Record CandidateOf (rule : RuleDef) (node : WorkloadNode) (parameters : gmap string SearchValue) (c : MappingCandidate) : Prop := {
  co_executors : ∀ k, k ∈ kindRequirements rule → role k = "executor" → mkExecutorRequirement (kr_kind k) ∅ ∈ executorRequirements c;
  co_computes : ∀ k, k ∈ kindRequirements rule → role k = "compute" → mkComputeRequirement (kr_kind k) ∈ computeRequirements c;
  co_memories : memoriesOf rule node (kindRequirements rule) = Ok (memoryRequirements c);
  co_parameters : mc_resolvedParameters c = parameters;
}.

Lemma elem_grow {A} (p : list A → string → bool) (f : string → A) ks cs x : x ∈ cs →
  x ∈ foldl (λ cs k, if p cs k then cs else (cs ++ [f k])%list) cs ks.
Proof. revert cs. induction ks as [|k ks IH]; intros cs Hx; [done|]. cbn. apply IH. destruct (p cs k); set_solver. Qed.

Lemma projectOwner_of rule node machine parameters value c c' : CandidateOf rule node parameters c →
  projectOwner rule machine value c = Ok c' → CandidateOf rule node parameters c'.
Proof.
  intros [He Hc Hm Hp]. unfold projectOwner. destruct (splitOn "/" value) as [|outer inner]; [by intros [= <-]|].
  destruct (existsb str_empty _); [done|]. destruct (negb _); [done|]. cbn [fail_if mbind result_bind].
  destruct (List.find _ _); [done|]. intros (computes & _ & Hx)%bind_ok. destruct (List.find _ _); [done|].
  injection Hx as <-. split; cbn; [| |done..].
  - intros k Hk Hr. destruct (existsb _ _); [by apply He|]. apply elem_of_app. left. by apply He.
  - intros k Hk Hr.
    apply (elem_grow (λ cs k, existsb (λ c, bool_decide (cr_kind c = k)) cs) mkComputeRequirement). by apply Hc.
Qed.

Lemma toMappingCandidate_of rule node machine context pinned boundLayouts axes c :
  toMappingCandidate rule node machine context pinned boundLayouts axes = Ok c →
  ∃ parameters, resolveRuleConstraints rule node machine context pinned = Ok parameters ∧ CandidateOf rule node parameters c.
Proof.
  unfold toMappingCandidate. destruct (resolveRuleConstraints _ _ _ _ _) as [parameters|[reason t]]; [|done].
  destruct (checkBoundLayouts _ _); [done|]. intros (params & _ & Hc)%bind_ok.
  apply bind_ok in Hc as (ms & Hms & Hc). apply bind_ok in Hc as (c' & Hc' & [= <-]). exists parameters. split; [done|].
  assert (CandidateOf rule node parameters c') as [? ? ? ?]; [|by split].
  destruct (memoriesOf rule node (kindRequirements rule)) as [ms'|] eqn:Hm; [|done]. injection Hms as ->.
  unfold projectBoundAxes in Hc'. destruct (axisValue (ownerMapping axes) _ _) as [owner|]; [|done]. cbn [mbind result_bind notApplicable] in Hc'.
  match type of Hc' with context [projectOwner _ _ _ ?x] => assert (CandidateOf rule node parameters x) as H0c end.
  { split; cbn; [| |done..]; intros k Hk Hr.
    - unfold executorsOf. apply list_elem_of_fmap. exists k. split; [done|]. apply list_elem_of_In, filter_In.
      rewrite <- list_elem_of_In. by split; [|apply bool_decide_eq_true].
    - unfold computesOf. apply list_elem_of_fmap. exists k. split; [done|]. apply list_elem_of_In, filter_In.
      rewrite <- list_elem_of_In. by split; [|apply bool_decide_eq_true]. }
  destruct (if str_empty owner then _ else _) as [c''|] eqn:Hown; [|done]. cbn [mbind result_bind] in Hc'.
  assert (CandidateOf rule node parameters c'') as Hc''.
  { destruct (str_empty owner); [by injection Hown as <-|]. by eapply projectOwner_of. }
  destruct (axisValue (memoryPath axes) _ _) as [path|]; [|done]. cbn [mbind result_bind] in Hc'.
  destruct (if str_empty path then _ else _); [|done]. cbn in Hc'. by injection Hc' as <-.
Qed.

(** What a plan records of an instance. *)
Definition selectionOf (c : MappingCandidate) (inst : CandidateInstance) : RecordedRuleSelection :=
  mkSelection (default "" (executorBindings inst !! "executor")) (memoryBindings inst) (computeBindings inst) true
    (portMemoryBindings inst) (mc_resolvedParameters c).

Section generated.
Variables (rule : RuleDef) (node : WorkloadNode) (target : MappingTarget) (c : MappingCandidate)
  (parameters : gmap string SearchValue) (solved : list Solved) (e : ExecutorNode) (cs : list ComputeNode) (ms : list MemoryNode).
Hypothesis (Hco : CandidateOf rule node parameters c) (Hwf : verifyMachineModel (machine target) = Ok tt)
  (Hexec : e ∈ matchingExecutors (machine target) c) (Hlegal : LegalChoice c target e cs ms).
Let s := selectionOf c (instanceFor (machine target) c solved e cs ms).

Lemma selection_executor : sel_executor s = ex_id e.
Proof. unfold s, selectionOf, sel_executor, instanceFor, executorBindings. by rewrite lookup_singleton_eq. Qed.

Lemma generated_executor k : k ∈ kindRequirements rule → role k = "executor" →
  ownerMatches (machine target) (kr_kind k) (sel_executor s) = true.
Proof.
  intros Hk Hr. rewrite selection_executor. unfold matchingExecutors in Hexec. apply list_elem_of_In, filter_In in Hexec as [_ Hall].
  rewrite List.forallb_forall in Hall. apply (Hall (mkExecutorRequirement (kr_kind k) ∅)), list_elem_of_In. by apply (co_executors _ _ _ _ Hco).
Qed.

Lemma generated_compute k : k ∈ kindRequirements rule → checkCompute rule (machine target) s k = Ok tt.
Proof.
  intros Hk. unfold checkCompute. case_bool_decide as Hr; [done|]. destruct Hlegal as [Hcs _].
  destruct (bindComputes_bound (computeRequirements c) cs (kr_kind k)) as (n & Hn & Hkind & Hl).
  { eapply Forall2_impl; [exact Hcs|]. by intros ? ? [_ ?]. }
  { by apply (co_computes _ _ _ _ Hco). }
  change (sel_computeBindings s) with (bindComputes (computeRequirements c) cs). rewrite Hl.
  assert (n ∈ computesFor (machine target) (ex_id e)) as [Hat Hin]%list_elem_of_filter.
  { apply list_elem_of_lookup_1 in Hn as [i Hi]. by eapply Forall2_lookup_r in Hcs as (? & _ & ? & _). }
  assert (findCompute (machine target) (cmp_id n) = Some n) as ->.
  { apply find_fmap_some; [by apply verified_ids|done]. }
  rewrite selection_executor. by rewrite !bool_decide_false by (by intros []).
Qed.

(** A memory requirement is met, or it names an occurrence that another requirement, of
    another kind, names too, and that one's memory is what the occurrence is bound to. *)
Definition Contradicted (k : KindRequirement) (memory : string) : Prop :=
  role k = "memory" ∧ ∃ port ref r, kr_port k = Some port ∧ portRefForRulePort rule node port = Some ref ∧
    r ∈ memoryRequirements c ∧ mr_port r = Some ref ∧ mr_kind r ≠ kr_kind k ∧
    boundMemory rule node s k = Ok memory.
Lemma generated_memory k : k ∈ kindRequirements rule →
  checkMemory rule node (machine target) s k = Ok tt ∨
  ∃ memory, Contradicted k memory ∧ checkMemory rule node (machine target) s k = Err (MemoryKind memory (kr_kind k)).
Proof.
  intros Hk. unfold checkMemory. case_bool_decide as Hr; [by left|]. destruct Hlegal as [_ Hms].
  pose proof (memoriesOf_elem _ _ _ _ _ (co_memories _ _ _ _ Hco) Hk Hr) as Hreq.
  assert (Forall2 (λ r m, mem_kind m = mr_kind r) (memoryRequirements c) ms) as Hkinds.
  { eapply Forall2_impl; [exact Hms|]. by intros ? ? (_ & ? & _). }
  assert (∃ m, m ∈ ms ∧ (mem_kind m = kr_kind k ∨ Contradicted k (mem_id m)) ∧ boundMemory rule node s k = Ok (mem_id m))
    as (m & Hm & Hkind & Hbound).
  { destruct (kr_port k) as [port|] eqn:Hport.
    - destruct Hreq as (ref & Href & Hreq). destruct (bindPortMemories_bound _ _ _ _ _ Hkinds Hreq) as (r & m & Hm & Hr' & Hp & Hkind & Hf).
      assert (boundMemory rule node s k = Ok (mem_id m)) as Hb.
      { unfold boundMemory. rewrite Hport, Href. change (portMemories s) with (bindPortMemories (memoryRequirements c) ms). by rewrite Hf. }
      exists m. split_and!; [done| |done]. destruct (decide (mr_kind r = kr_kind k)) as [Hsame|Hother]; [left; congruence|right].
      split; [done|]. by exists port, ref, r.
    - destruct (bindMemories_bound _ _ _ _ Hkinds Hreq) as (m & Hm & Hkind & Hl). exists m. split_and!; [done|by left|].
      unfold boundMemory. rewrite Hport. change (sel_memories s) with (bindMemories (memoryRequirements c) ms). by rewrite Hl. }
  rewrite Hbound. cbn [mbind result_bind]. apply list_elem_of_lookup_1 in Hm as [i Hi].
  eapply Forall2_lookup_r in Hms as (r & _ & Hin & _ & Hvis); [|exact Hi].
  assert (findMemory (machine target) (mem_id m) = Some m) as ->.
  { apply find_fmap_some; [by apply verified_ids|done]. }
  rewrite selection_executor. destruct (decide (mem_kind m = kr_kind k)) as [Hsame|Hother].
  - left. rewrite bool_decide_false by (by intros []). by rewrite Hvis.
  - right. destruct Hkind as [|Hcon]; [done|]. exists (mem_id m). split; [done|]. by rewrite bool_decide_true.
Qed.
End generated.

End bindings.

(** ** Concrete matches *)
#[local] Existing Instance sample_types.
#[local] Existing Instance sample_text.
#[local] Existing Instance sample_print.
#[local] Existing Instance LayoutConstraints.plainAffine.
#[local] Existing Instance sample_tiles.
#[local] Existing Instance sample_maps.
#[local] Instance sample_build : MLIRBuild := {| dictionaryGet _ := "{}" |}.

Definition rulesOf (text : string) : RuleRegistry :=
  match parseRuleText text "rules" with Some (Ok registry) => registry | _ => [] end.
Lemma rulesOf_wf text : Forall wfRule (rulesOf text).
Proof.
  unfold rulesOf. pose proof (parse_wf text "rules") as Hw. destruct (parseRuleText text "rules") as [[registry|]|]; try constructor.
  by destruct Hw.
Qed.

Definition named (name : string) (id : nat) (ins outs : list nat) : WorkloadNode :=
  mkNode id name (toyPort <$> ins) (toyPort <$> outs) (Some "{}") id (Some 1) (Some 1).
(** Two vector operations, the second of the first's result. *)
Definition chain : WorkloadGraph :=
  mkGraph [named "micro.vector" 1 [1%nat] [2%nat]; named "micro.vector" 0 [0%nat] [1%nat]] [].

Definition fuse_text : string :=
  "rule t.fuse { match graph { node a: micro.vector(); node b: micro.vector(); edge a.result -> b.operand0; } " +:+
  "bundle " +:+ LlkMap.quoted "b" +:+ "; emit " +:+ LlkMap.quoted "e" +:+ "; }".
Definition pair_text : string :=
  "rule t.pair { match graph { node a: micro.vector(); node b: micro.vector(); } " +:+
  "bundle " +:+ LlkMap.quoted "b" +:+ "; emit " +:+ LlkMap.quoted "e" +:+ "; }".

(** A vector and a reduction; two vectors and one reduction to match. *)
Definition mixed_text : string :=
  "rule t.mixed { match graph { node a: micro.vector(); node b: micro.reduce(); } " +:+
  "bundle " +:+ LlkMap.quoted "b" +:+ "; emit " +:+ LlkMap.quoted "e" +:+ "; }".
Definition mixed : WorkloadGraph :=
  mkGraph [named "micro.vector" 1 [1%nat] [2%nat]; named "micro.vector" 0 [0%nat] [1%nat]; named "micro.reduce" 2 [2%nat] [3%nat]] [].
Definition mixed_rule : RuleDef := default (emptyRule "" 1) (head (rulesOf mixed_text)).


(** Interchangeable nodes of a pattern give one match in each order. *)
Example interchangeable_twice :
  (rm_coveredNodes <$> (matchRulePatterns chain (rulesOf pair_text) 8).1) = [[0; 1]; [1; 0]]%nat ∧
  (boundary <$> (matchRulePatterns chain (rulesOf pair_text) 8).1) =
    replicate 2 [mkRef 0 Input 0; mkRef 0 Output 0; mkRef 1 Input 0; mkRef 1 Output 0].
Proof. split; vm_compute; reflexivity. Qed.

Definition vector_text (memories : string) : string :=
  "rule t.vec { match micro.vector(); param VW in [2..4]; require VW >= 3; require executor kind worker; " +:+
  "require compute kind vector_engine; " +:+ memories +:+ "output " +:+ LlkMap.quoted "y" +:+ "; " +:+
  "bundle " +:+ LlkMap.quoted "b" +:+ " { n = VW }; emit " +:+ LlkMap.quoted "e" +:+ "; }".
Definition vector_rule (memories : string) : RuleDef := default (emptyRule "" 1) (head (rulesOf (vector_text memories))).
Definition the_node : WorkloadNode := named "micro.vector" 0 [0%nat] [1%nat].
Definition the_candidate (memories : string) : result no_candidate MappingCandidate :=
  toMappingCandidate (vector_rule memories) the_node (machine sample_target) (LlkMap.mkContext 2 "f32") ∅ ∅ (mkAxes "" "").

(** The first instance of the rule's candidate, and what the check says of it. *)
Definition first_instance (memories : string) : option (MappingCandidate * Placements * CandidateInstance) :=
  match the_candidate memories with
  | Err _ => None
  | Ok c =>
    match enumeratePlacements c sample_target (LlkMap.mkContext 2 "f32") defaultPlacementOptions with
    | Err _ => None
    | Ok pls => (λ i, (c, pls, i)) <$> head (pl_instances pls)
    end
  end.
Definition verdict (memories : string) : option (result selection_error unit) :=
  (λ '(c, _, i), verifyRuleSelection (vector_rule memories) the_node (machine sample_target) (selectionOf c i)) <$>
  first_instance memories.

Definition kept_memories : string :=
  "require memory kind sram; require memory output " +:+ LlkMap.quoted "y" +:+ " kind dram; ".
Definition contradictory_memories : string :=
  "require memory output " +:+ LlkMap.quoted "y" +:+ " kind sram; require memory output " +:+ LlkMap.quoted "y" +:+ " kind dram; ".

(** Two memories required of one port: placement binds both, and the check, which
    reads the first binding of the port, refuses what was placed. *)
Example two_memories_of_a_port : verdict contradictory_memories = Some (Err (MemoryKind "sram.0" "dram")).
Proof. vm_compute. reflexivity. Qed.

(** No memory requirement of the candidate names an occurrence for another kind. *)
Definition agreeing (memories : string) (c : MappingCandidate) : bool :=
  forallb (λ k, forallb (λ r, negb (bool_decide (is_Some (mr_port r) ∧
    mr_port r = kr_port k ≫= portRefForRulePort (vector_rule memories) the_node)) || bool_decide (mr_kind r = kr_kind k)) (memoryRequirements c))
    (kindRequirements (vector_rule memories)).

Definition passed (r : result selection_error unit) : bool := match r with Ok _ => true | Err _ => false end.
Lemma passed_not r : passed r = false → r ≠ Ok tt.
Proof. by destruct r. Qed.
(** The rule is read, matches the node, and the node fixes the constraints' context. *)
Definition Ready (memories : string) : Prop :=
  is_Some (head (rulesOf (vector_text memories))) ∧ verifyMachineModel (machine sample_target) = Ok tt ∧
  matchRules the_node [vector_rule memories] = [vector_rule memories] ∧
  ruleLayoutContext the_node (LlkMap.mkContext 2 "f32") = ruleLayoutContext the_node emptyContext.
Lemma kept_ready : Ready kept_memories.
Proof. split; [vm_compute; eauto|]. split_and!; vm_compute; reflexivity. Qed.
Lemma contradictory_ready : Ready contradictory_memories.
Proof. split; [vm_compute; eauto|]. split_and!; vm_compute; reflexivity. Qed.

