(* ===== verification/Connections.v ===== *)
(** Connection synthesis: the second half of include/LLK/Mapping/Placement.h and
    lib/Mapping/Placement.cpp.

    Given where a value is and where it is wanted, [synthesizeConnections] lists the
    legal ways to get it there: read it in place, transform its layout in place, or
    move it along the routes of [Routing], transforming it on the way when the ends
    want different layouts.  [enumerateConnectionChoices] bounds the product over
    several values, [enumerateFanOutAlternatives] and [synthesizeFanOut] serve the
    consumers of one value in groups, [synthesizeFanIn] gathers several producers.

    A [TopologyService] is its [RouteOptions] on the machine of the caller, which is
    how both callers build it. *)
From S2P Require Import Prelude Odometer Float MachineModel CostModel WorkloadGraph TileFacts MappingPlan Placement.
From S2P Require LlkMap LayoutConstraints Routing.
Import (hints) LlkMap.
Open Scope string_scope.
Open Scope Z_scope.

Section connections.
Context `{MLIRTiles} `{!MLIRPrint} `{AE : LayoutConstraints.AffineExprs} `{!MLIRMaps}.

Record ConnectionRequest := mkConnectionRequest {
  rq_producer : Z;
  rq_consumer : Z;
  rq_value : nat;
  rq_producerPort : option PortRef;
  rq_consumerPort : option PortRef;
  producerMemory : string;
  consumerMemory : string;
  producerLayout : option string;
  consumerLayout : option string;
  producerLayoutParameters : gmap string SearchValue;
  consumerLayoutParameters : gmap string SearchValue;
  producerLayoutMap : option affine_map;
  consumerLayoutMap : option affine_map;
  rq_elementType : option mlir_type;
  consumerType : option mlir_type;
  rq_producerExecutor : option string;
  rq_consumerExecutor : option string;
  rq_producerMap : option affine_map;
  rq_consumerMap : option affine_map;
  rq_bytes : Z;
  rq_alignmentBytes : Z;
  intermediateOccupancy : gmap string Z;
}.

(** ** Compatibility *)
Definition stated_agree {A} `{EqDecision A} (lhs rhs : option A) : bool :=
  match lhs, rhs with
  | Some l, Some r => bool_decide (l = r)
  | _, _ => true
  end.

Definition elementAndShapeCompatible (request : ConnectionRequest) : bool :=
  stated_agree (elementTypeOf (rq_elementType request)) (elementTypeOf (consumerType request)) &&
  stated_agree (staticShapeOf (rq_elementType request)) (staticShapeOf (consumerType request)).

Definition affineCompatible (request : ConnectionRequest) : bool :=
  stated_agree (simplifyAffineMap <$> rq_producerMap request) (simplifyAffineMap <$> rq_consumerMap request).

Definition consumerSeesProducerMemory (request : ConnectionRequest) (machine : MachineModel) : bool :=
  match rq_consumerExecutor request with
  | None => true
  | Some e => isVisible machine (producerMemory request) e
  end.

(** Every memory named exists and stores the layout. *)
Definition allSupport (machine : MachineModel) (layout : string) (nodes : list string) : bool :=
  forallb (λ n, match findMemory machine n with
                | Some memory => Routing.memorySupportsLayout memory layout
                | None => false
                end) nodes.

(** The first hop before which the value can keep its layout and after which the other. *)
Definition legalTransformHop (nodes : list string) (machine : MachineModel) (producerLayout consumerLayout : string) :
    option nat :=
  (λ e, e.2) <$> list_find (λ hop, Is_true
      (allSupport machine producerLayout (take (S hop) nodes) && allSupport machine consumerLayout (drop (S hop) nodes)))
    (seq 0 (length nodes - 1)).

(** Same names, same values. *)
Definition sameLayoutParameters (lhs rhs : gmap string SearchValue) : bool :=
  bool_decide (size lhs = size rhs) &&
  forallb (λ e, match rhs !! e.1 with Some v => bool_decide (v = e.2) | None => false end) (map_to_list lhs).

(** Both ends state a layout, and not the same one. *)
Definition transformRequired (request : ConnectionRequest) : bool :=
  match producerLayout request, consumerLayout request with
  | Some p, Some c =>
    bool_decide (p ≠ c) ||
    negb (sameLayoutParameters (producerLayoutParameters request) (consumerLayoutParameters request))
  | _, _ => false
  end.

Definition portsDirectCompatible (request : ConnectionRequest) (machine : MachineModel) : bool :=
  elementAndShapeCompatible request && negb (transformRequired request) && affineCompatible request &&
  consumerSeesProducerMemory request machine.

(** ** One request *)
Definition transformOf (request : ConnectionRequest) : option LayoutTransform :=
  if transformRequired request then
    Some (mkTransform (default "" (producerLayout request)) (default "" (consumerLayout request))
            (producerLayoutMap request) (consumerLayoutMap request) "" "")
  else None.

(** A transform is priced on a vector engine that sees the last memory of the route. *)
Definition chargeTransform (machine : MachineModel) (request : ConnectionRequest) (transform : option LayoutTransform)
    (memoryRoute : list string) (cost : Cost) : result placement_error (option LayoutTransform * Cost) :=
  match transform with
  | None => Ok (None, cost)
  | Some t =>
    let node := default "" (last memoryRoute) in
    match selectTransformResource machine node with
    | Err e => Err (CostFailed e)
    | Ok resource =>
      let tensorOf type := match tileAsTensor type with Some t => Some t | None => type end in
      match estimateTransformCost
              (mkTransformInput (tensorOf (rq_elementType request)) (tensorOf (consumerType request))
                 (lt_srcMap t) (lt_dstMap t) node resource) machine with
      | Err e => Err (CostFailed e)
      | Ok charge =>
        Ok (Some (mkTransform (srcLayout t) (dstLayout t) (lt_srcMap t) (lt_dstMap t) node resource),
            addCost cost charge)
      end
    end
  end.

(** A plan of the request, with the endpoints it states and its id. *)
Definition connectionOf (request : ConnectionRequest) (kind : ConnectionKind) (route engines : list string)
    (transform : option LayoutTransform) (cost : Cost) : ConnectionPlan :=
  let plan id :=
    mkConnection id (rq_producer request) [rq_consumer request] (rq_producerPort request)
      (option_list (rq_consumerPort request)) [] None None (rq_value request) kind route engines None [] transform
      cost None in
  plan (computeConnectionId (plan 0)).

Definition localCost (bytes : Z) : Cost := mkCost dzero 0 bytes 0 dzero dzero.

Definition routeRequestOf (request : ConnectionRequest) : Routing.RouteRequest :=
  Routing.mkRequest (producerMemory request) (consumerMemory request) (rq_bytes request) (rq_alignmentBytes request)
    (rq_producerExecutor request) (rq_consumerExecutor request)
    (if transformRequired request then None else producerLayout request) 0 (intermediateOccupancy request).

(** [None]: no hop can carry the transform, so the route is no alternative. *)
Definition emitRoute (machine : MachineModel) (request : ConnectionRequest) (route : Routing.MemoryRoute) :
    result placement_error (option ConnectionPlan) :=
  if transformRequired request &&
     bool_decide (legalTransformHop (Routing.nodes route) machine (default "" (producerLayout request))
                    (default "" (consumerLayout request)) = None)
  then Ok None
  else
    '(transform, cost) ← chargeTransform machine request (transformOf request) (Routing.nodes route)
                           (Routing.route_cost route);
    Ok (Some (connectionOf request (if transformRequired request then TransferAndTransform else Transfer)
                (Routing.nodes route) (Routing.route_engines route) transform cost)).

Fixpoint emitRoutes (machine : MachineModel) (request : ConnectionRequest) (routes : list Routing.MemoryRoute) :
    result placement_error (list ConnectionPlan) :=
  match routes with
  | [] => Ok []
  | route :: routes =>
    plan ← emitRoute machine request route;
    rest ← emitRoutes machine request routes;
    Ok (option_list plan ++ rest)%list
  end.

(** The plans in the order they are tried, and whether a route cap was reached. *)
Definition synthesizeConnections (request : ConnectionRequest) (machine : MachineModel) (topology : Routing.RouteOptions)
    (options : PlacementOptions) : result placement_error (list ConnectionPlan * bool) :=
  match findMemory machine (producerMemory request), findMemory machine (consumerMemory request) with
  | None, _ => Err (UnknownMemory (producerMemory request))
  | _, None => Err (UnknownMemory (consumerMemory request))
  | Some memory, Some _ =>
    fail! BytesMustBePositive when bool_decide (rq_bytes request = 0);
    if negb (elementAndShapeCompatible request) || negb (affineCompatible request) then Ok ([], false)
    else
      let direct :=
        if portsDirectCompatible request machine then
          [connectionOf request Direct [producerMemory request] [] None (localCost (rq_bytes request))]
        else [] in
      inPlace ←
        (if transformRequired request && consumerSeesProducerMemory request machine &&
            Routing.memorySupportsLayout memory (default "" (producerLayout request)) &&
            Routing.memorySupportsLayout memory (default "" (consumerLayout request)) then
           '(transform, cost) ← chargeTransform machine request (transformOf request) [producerMemory request] zeroCost;
           Ok [connectionOf request LayoutTransformKind [producerMemory request] [] transform cost]
         else Ok []);
      let plans := (direct ++ inPlace)%list in
      if bool_decide (producerMemory request = consumerMemory request) then Ok (plans, false)
      else
        match Routing.enumerateRoutes machine topology (routeRequestOf request) (maxRoutesPerConnection options) with
        | (truncated, Err _) => Ok (plans, truncated)
        | (truncated, Ok routes) =>
          let single (r : Routing.MemoryRoute) := bool_decide (length (Routing.route_links r) = 1%nat) in
          near ← emitRoutes machine request (List.filter single routes);
          far ← emitRoutes machine request (List.filter (negb ∘ single) routes);
          Ok ((plans ++ near ++ far)%list, truncated)
        end
  end.

(** ** Several requests *)
Record ConnectionChoiceSet := mkChoices {
  combinations : list (list ConnectionPlan);
  choices_truncated : bool;
  choices_undecided : bool;
}.

(** [None]: a request has no alternative. *)
Fixpoint alternativesOf (requests : list ConnectionRequest) (machine : MachineModel) (topology : Routing.RouteOptions)
    (options : PlacementOptions) (truncated : bool) :
    result placement_error (option (list (list ConnectionPlan)) * bool) :=
  match requests with
  | [] => Ok (Some [], truncated)
  | request :: requests =>
    '(plans, cut) ← synthesizeConnections request machine topology options;
    let truncated := truncated || cut in
    match plans with
    | [] => Ok (None, truncated)
    | _ =>
      '(rest, truncated) ← alternativesOf requests machine topology options truncated;
      Ok (fmap (M := option) (cons plans) rest, truncated)
    end
  end.

Fixpoint choiceLoop (fuel : nat) (options : PlacementOptions) (alternatives : list (list ConnectionPlan))
    (pick : list nat) (combos : list (list ConnectionPlan)) (truncated : bool) : list (list ConnectionPlan) * bool :=
  match fuel with
  | O => (combos, truncated)
  | S fuel =>
    if bool_decide (maxConnectionCombinations options <= Z.of_nat (length combos)) then (combos, true)
    else
      let combos := (combos ++ [selectPicks alternatives pick])%list in
      match odometer (length <$> alternatives) (length pick) pick with
      | (_, None) => (combos, truncated)
      | (pick, Some _) => choiceLoop fuel options alternatives pick combos truncated
      end
  end.
Definition choiceFuel (alternatives : list (list ConnectionPlan)) : nat := foldr Nat.mul 1%nat (length <$> alternatives).

Definition enumerateConnectionChoices (requests : list ConnectionRequest) (machine : MachineModel)
    (topology : Routing.RouteOptions) (options : PlacementOptions) : result placement_error ConnectionChoiceSet :=
  if decide (requests = []) then Ok (mkChoices [[]] false false)
  else
    '(alternatives, truncated) ← alternativesOf requests machine topology options false;
    match alternatives with
    | None => Ok (mkChoices [] truncated false)
    | Some alternatives =>
      let '(combos, truncated) := choiceLoop (choiceFuel alternatives) options alternatives
                                    (replicate (length requests) O) [] truncated in
      Ok (mkChoices combos truncated false)
    end.

(** The overload that builds its own topology service. *)
Definition enumerateTargetChoices (requests : list ConnectionRequest) (target : MappingTarget)
    (options : PlacementOptions) : result placement_error ConnectionChoiceSet :=
  enumerateConnectionChoices requests (machine target) (Routing.mkOptions (maxRoutesPerConnection options) 4) options.

(** ** Fan-out *)
Record FanOutKey := mkKey { key_memory : string; key_layout : option string; key_parameters : string }.
#[export] Instance FanOutKey_eq_dec : EqDecision FanOutKey.
Proof. solve_decision. Defined.

Definition fanOutKey (request : ConnectionRequest) : FanOutKey :=
  mkKey (consumerMemory request) (consumerLayout request)
    (canonicalSearchValueString (consumerLayoutParameters request)).

(** The request joins the first group of its key, or founds one. *)
Fixpoint addToGroup (key : FanOutKey) (request : ConnectionRequest) (groups : list (FanOutKey * list ConnectionRequest)) :
    list (FanOutKey * list ConnectionRequest) :=
  match groups with
  | [] => [(key, [request])]
  | (k, members) :: groups =>
    if decide (k = key) then (k, (members ++ [request])%list) :: groups
    else (k, members) :: addToGroup key request groups
  end.
Definition groupsOf (consumers : list ConnectionRequest) : list (FanOutKey * list ConnectionRequest) :=
  foldl (λ groups request, addToGroup (fanOutKey request) request groups) [] consumers.

(** The consumers and ports a group is served with. *)
Definition servedBy (fanGroup : list ConnectionRequest) : list Z := sortUnique (rq_consumer <$> fanGroup).
Definition portsOf (fanGroup : list ConnectionRequest) : list PortRef := fanGroup ≫= λ r, option_list (rq_consumerPort r).

Definition sharedRead (base : ConnectionRequest) (fanGroup : list ConnectionRequest) : ConnectionPlan :=
  let plan id :=
    mkConnection id (rq_producer base) (servedBy fanGroup) (rq_producerPort base) (portsOf fanGroup) [] None None
      (rq_value base) Direct [producerMemory base] [] None [] None (localCost (rq_bytes base)) None in
  plan (computeConnectionId (plan 0)).

(** One member's plan, made to serve its whole group. *)
Definition regroup (base : ConnectionRequest) (fanGroup : list ConnectionRequest) (plan : ConnectionPlan) : ConnectionPlan :=
  let plan id :=
    mkConnection id (producer plan) (servedBy fanGroup) (rq_producerPort base) (portsOf fanGroup) (producers plan)
      (gatherSemantics plan) (concatAxis plan) (cp_value plan) (cp_kind plan) (memoryRoute plan) (transferEngines plan)
      (producerMap plan) (consumerMaps plan) (transform plan) (cp_cost plan) (cp_measuredCycles plan) in
  plan (computeConnectionId (plan 0)).

Definition asReplica (plan : ConnectionPlan) : ConnectionPlan :=
  match cp_kind plan with
  | Transfer | TransferAndTransform =>
    let plan id :=
      mkConnection id (producer plan) (consumers plan) (producerPort plan) (consumerPorts plan) (producers plan)
        (gatherSemantics plan) (concatAxis plan) (cp_value plan) Replicate (memoryRoute plan) (transferEngines plan)
        (producerMap plan) (consumerMaps plan) (transform plan) (cp_cost plan) (cp_measuredCycles plan) in
    plan (computeConnectionId (plan 0))
  | _ => plan
  end.
Definition servesGroup (groupSeesProducer : bool) (plan : ConnectionPlan) : bool :=
  bool_decide (cp_kind plan = Replicate) || (bool_decide (cp_kind plan = LayoutTransformKind) && groupSeesProducer).

(** [None]: some member cannot be served. *)
Fixpoint memberAlternatives (fanGroup : list ConnectionRequest) (groupSeesProducer : bool) (machine : MachineModel)
    (topology : Routing.RouteOptions) (options : PlacementOptions) (truncated : bool) :
    result placement_error (option (list ConnectionPlan) * bool) :=
  match fanGroup with
  | [] => Ok (Some [], truncated)
  | member :: fanGroup =>
    '(plans, cut) ← synthesizeConnections member machine topology options;
    let truncated := truncated || cut in
    match plans with
    | [] => Ok (None, truncated)
    | _ =>
      '(rest, truncated) ← memberAlternatives fanGroup groupSeesProducer machine topology options truncated;
      Ok (fmap (M := option) (app (List.filter (servesGroup groupSeesProducer) (asReplica <$> plans))) rest, truncated)
    end
  end.

(** The alternatives of one group; none when it cannot be served. *)
Definition groupAlternatives (base : ConnectionRequest) (fanGroup : list ConnectionRequest) (machine : MachineModel)
    (topology : Routing.RouteOptions) (options : PlacementOptions) (truncated : bool) :
    result placement_error (list ConnectionPlan * bool) :=
  if forallb (λ r, portsDirectCompatible r machine) fanGroup then Ok ([sharedRead base fanGroup], truncated)
  else
    '(alternatives, truncated) ←
      memberAlternatives fanGroup (forallb (λ r, consumerSeesProducerMemory r machine) fanGroup) machine topology options
        truncated;
    Ok (regroup base fanGroup <$> default [] alternatives, truncated).

Fixpoint groupsLoop (base : ConnectionRequest) (groups : list (list ConnectionRequest)) (machine : MachineModel)
    (topology : Routing.RouteOptions) (options : PlacementOptions) (truncated : bool) :
    result placement_error (list (list ConnectionPlan) * bool) :=
  match groups with
  | [] => Ok ([], truncated)
  | fanGroup :: groups =>
    '(alternatives, truncated) ← groupAlternatives base fanGroup machine topology options truncated;
    '(rest, truncated) ← groupsLoop base groups machine topology options truncated;
    Ok (alternatives :: rest, truncated)
  end.

Definition enumerateFanOutAlternatives (base : ConnectionRequest) (consumers : list ConnectionRequest)
    (machine : MachineModel) (topology : Routing.RouteOptions) (options : PlacementOptions) :
    result placement_error (list (list ConnectionPlan) * bool) :=
  if decide (consumers = []) then Ok ([], false)
  else if forallb (λ r, portsDirectCompatible r machine) consumers then Ok ([[sharedRead base consumers]], false)
  else groupsLoop base (snd <$> groupsOf consumers) machine topology options false.

(** [llvm::min_element]: the first of the smallest. *)
Definition minElement {A} (less : A → A → bool) (x : A) (xs : list A) : A :=
  foldl (λ best y, if less y best then y else best) x xs.

(** The pick of each group, and whether one had alternatives; nothing when a group
    cannot be served. *)
Fixpoint pickGroups (objective : ObjectiveOrder) (groups : list (list ConnectionPlan)) (plans : list ConnectionPlan)
    (chose : bool) : list ConnectionPlan * bool :=
  match groups with
  | [] => (plans, chose)
  | [] :: _ => ([], chose)
  | (x :: xs) :: groups =>
    let chose := chose || negb (bool_decide (xs = [])) in
    pickGroups objective groups
      (plans ++ [minElement (λ lhs rhs, costLess (cp_cost lhs) (cp_cost rhs) objective) x xs]) chose
  end.

Definition synthesizeFanOut (base : ConnectionRequest) (consumers : list ConnectionRequest) (machine : MachineModel)
    (topology : Routing.RouteOptions) (options : PlacementOptions) (objective : ObjectiveOrder) :
    result placement_error (list ConnectionPlan * bool * bool) :=
  '(groups, truncated) ← enumerateFanOutAlternatives base consumers machine topology options;
  let '(plans, choseAmongAlternatives) := pickGroups objective groups [] false in
  Ok (plans, truncated, choseAmongAlternatives).

(** ** Fan-in *)
Definition synthesizeFanIn (producers consumers : list Z) (value : nat) (memory : string) (bytes : Z) (feedCost : Cost)
    (consumerPorts : list PortRef) (semantics : option GatherSemantics) (axis : option Z) : ConnectionPlan :=
  let plan id :=
    mkConnection id 0 consumers None consumerPorts producers semantics axis value Reduce [memory] [] None [] None
      feedCost None in
  plan (computeConnectionId (plan 0)).
End connections.

(** ** Routes *)
Section routes.
Variables (model : MachineModel) (request : Routing.RouteRequest) (src dest : string).

(** What a legal path asks of each memory it enters. *)
Record CanHold (node : string) (memory : MemoryNode) : Prop := {
  hold_found : findMemory model node = Some memory;
  hold_alignment : Routing.supportsAlignment memory (Routing.req_alignmentBytes request) = true;
  hold_layout : ∀ layout, Routing.layoutClass request = Some layout → Routing.memorySupportsLayout memory layout = true;
  hold_room : node ≠ dest → Routing.bytes request <= capacityBytes memory - Routing.liveOn request memory;
}.

Lemma legalHop_holds link next engine : findMemory model (mem_id next) = Some next →
  Routing.legalHop model link next request dest = Some engine → CanHold (mem_id next) next.
Proof.
  unfold Routing.legalHop. intros Hf.
  destruct (bool_decide _ || _); [done|].
  destruct (negb (Routing.supportsAlignment _ _)) eqn:Ha; [done|]. apply negb_false_iff in Ha.
  destruct (match Routing.layoutClass request with Some _ => _ | None => _ end) eqn:Hl; [done|].
  destruct (bool_decide (mem_id next ≠ dest) && _) eqn:Hc; [done|]. intros _.
  constructor; [done|done|..].
  - intros layout Heq. rewrite Heq in Hl. by apply negb_false_iff in Hl.
  - intros Hne. apply andb_false_iff in Hc as [Hc|Hc]; [by apply bool_decide_eq_false in Hc|].
    apply bool_decide_eq_false in Hc. lia.
Qed.

Lemma path_nodes p : Routing.LegalPath model request src dest p →
  ∃ rest, Routing.p_nodes p = src :: rest ∧ Forall (λ n, ∃ m, CanHold n m) rest.
Proof.
  unfold Routing.LegalPath. intros Hp. remember (Routing.startRoute src) as s eqn:Hs.
  assert (∃ rest, Routing.p_nodes s = src :: rest ∧ Forall (λ n, ∃ m, CanHold n m) rest) as Hstart
    by (exists []; subst; by split).
  clear Hs. induction Hp as [p|p q r Hpq _ IH]; [done|]. apply IH.
  destruct Hpq as (link & next & engine & _ & _ & Hf & _ & Hh & ->). destruct Hstart as (rest & Hn & HF).
  exists (rest ++ [mem_id next])%list. cbn. rewrite Hn. split; [done|].
  apply Forall_app. split; [done|]. apply Forall_singleton. exists next.
  destruct (Routing.findMemory_elem _ _ _ Hf) as [Hid _]. apply (legalHop_holds link next engine); [|done].
  by rewrite Hid.
Qed.
End routes.

(** ** Legality *)
Lemma option_list_elem {A} (x : A) o : x ∈ option_list o ↔ o = Some x.
Proof. destruct o as [y|]; cbn; [rewrite list_elem_of_singleton; naive_solver|]. split; [by intros ?%not_elem_of_nil|done]. Qed.

(** [min_element] of a transitive and irreflexive order. *)
Lemma minElement_least {A} (less : A → A → bool) x xs :
  (∀ a, a ∈ x :: xs → less a a = false) →
  (∀ a b c, a ∈ x :: xs → b ∈ x :: xs → c ∈ x :: xs → less a b = true → less b c = true → less a c = true) →
  minElement less x xs ∈ x :: xs ∧ ∀ y, y ∈ x :: xs → less y (minElement less x xs) = false.
Proof.
  induction xs as [|y xs IH] using rev_ind; intros Hirr Htr.
  { cbn. split; [by left|]. intros y ->%list_elem_of_singleton. apply Hirr. by left. }
  assert (∀ a, a ∈ x :: xs → a ∈ x :: xs ++ [y]) as Hsub by (intros a; rewrite !elem_of_cons, elem_of_app; tauto).
  destruct IH as [Hin Hleast]; [by auto|by eauto|].
  unfold minElement. rewrite foldl_app. cbn [foldl]. fold (minElement less x xs).
  assert (y ∈ x :: xs ++ [y]) as Hy by set_solver.
  destruct (less y (minElement less x xs)) eqn:Hless.
  - split; [done|]. intros z [->|[Hz| ->%list_elem_of_singleton]%elem_of_app]%elem_of_cons.
    + apply not_true_iff_false. intros Hl. assert (less x (minElement less x xs) = true) as Hc by (eapply (Htr x y); [set_solver|done|auto|done|done]).
      rewrite Hleast in Hc; [done|by left].
    + apply not_true_iff_false. intros Hl. assert (less z (minElement less x xs) = true) as Hc by (eapply (Htr z y); [set_solver|done|auto|done|done]).
      rewrite Hleast in Hc; [done|by right].
    + by apply Hirr.
  - split; [by auto|]. intros z [->|[Hz| ->%list_elem_of_singleton]%elem_of_app]%elem_of_cons; [|auto..].
    + apply Hleast. by left.
    + apply Hleast. by right.
Qed.

Section connection_proofs.
Context `{MLIRTiles} `{!MLIRPrint} `{AE : LayoutConstraints.AffineExprs} `{!MLIRMaps}.
Variables (machine : MachineModel) (topology : Routing.RouteOptions) (options : PlacementOptions).
Hypothesis maxHops_nonneg : 0 <= Routing.maxHops topology.
Hypothesis maxRoutes_nonneg : 0 <= Routing.maxRoutes topology.
Hypothesis maxRoutesPerConnection_nonneg : 0 <= maxRoutesPerConnection options.

(** The memory exists and stores the layout. *)
Definition Supports (layout node : string) : Prop :=
  ∃ memory, findMemory machine node = Some memory ∧ Routing.memorySupportsLayout memory layout = true.

Lemma allSupport_true layout nodes : allSupport machine layout nodes = true ↔ Forall (Supports layout) nodes.
Proof.
  unfold allSupport. rewrite forallb_forall, Forall_forall. setoid_rewrite list_elem_of_In.
  apply forall_proper. intros n. unfold Supports. destruct (findMemory machine n) as [m|]; naive_solver.
Qed.

(** Where the value changes its layout: kept on the memories before, the other after. *)
Definition TransformedAt (src dst : string) (route : list string) (hop : nat) : Prop :=
  Forall (Supports src) (take (S hop) route) ∧ Forall (Supports dst) (drop (S hop) route).

Lemma legalTransformHop_spec nodes src dst :
  match legalTransformHop nodes machine src dst with
  | Some hop => (S hop < length nodes)%nat ∧ TransformedAt src dst nodes hop ∧
      ∀ earlier, (earlier < hop)%nat → ¬ TransformedAt src dst nodes earlier
  | None => ∀ hop, (S hop < length nodes)%nat → ¬ TransformedAt src dst nodes hop
  end.
Proof.
  assert (∀ hop, Is_true (allSupport machine src (take (S hop) nodes) && allSupport machine dst (drop (S hop) nodes)) ↔
    TransformedAt src dst nodes hop) as Heq.
  { intros hop. rewrite Is_true_true, andb_true_iff, !allSupport_true. done. }
  unfold legalTransformHop. destruct (list_find _ _) as [[i hop]|] eqn:Hf; cbn.
  - apply list_find_Some in Hf as (Hi & Hh & Hmin). apply lookup_seq in Hi as [-> Hi]. cbn.
    split_and!; [lia|by apply Heq|]. intros e He Ht. apply Heq in Ht. eapply (Hmin e e); [|done|done].
    apply lookup_seq. lia.
  - apply list_find_None in Hf. intros hop Hh Ht. apply Heq in Ht.
    eapply Forall_forall in Hf; [by apply Hf|]. apply elem_of_seq. lia.
Qed.

Lemma sameLayoutParameters_true lhs rhs : sameLayoutParameters lhs rhs = true ↔ lhs = rhs.
Proof.
  unfold sameLayoutParameters. rewrite andb_true_iff, bool_decide_eq_true, forallb_forall. split.
  - intros [Hsize Hall]. assert (lhs ⊆ rhs) as Hsub.
    { apply map_subseteq_spec. intros i x Hi. specialize (Hall (i, x)).
      rewrite <- list_elem_of_In, elem_of_map_to_list in Hall. specialize (Hall Hi). cbn in Hall.
      destruct (rhs !! i) as [v|]; [|done]. by apply bool_decide_eq_true in Hall as ->. }
    destruct (decide (lhs = rhs)) as [|Hne]; [done|].
    assert (lhs ⊂ rhs) as Hs by (split; [done|]; intros Hr; apply Hne; by apply (anti_symm (⊆))).
    apply map_subset_size in Hs. lia.
  - intros ->. split; [done|]. intros [i x] Hi. rewrite <- list_elem_of_In, elem_of_map_to_list in Hi. cbn.
    by rewrite Hi, bool_decide_true.
Qed.

(** The ends state different layouts: another family, or other parameters. *)
Definition DifferentLayouts (request : ConnectionRequest) : Prop :=
  ∃ p c, producerLayout request = Some p ∧ consumerLayout request = Some c ∧
    (p ≠ c ∨ producerLayoutParameters request ≠ consumerLayoutParameters request).

Lemma transformRequired_true request : transformRequired request = true ↔ DifferentLayouts request.
Proof.
  unfold transformRequired, DifferentLayouts.
  destruct (producerLayout request) as [p|]; [|naive_solver]. destruct (consumerLayout request) as [c|]; [|naive_solver].
  rewrite orb_true_iff, bool_decide_eq_true, negb_true_iff, <- not_true_iff_false, sameLayoutParameters_true.
  naive_solver.
Qed.

(** A movement: a simple path within the hop cap whose memories can hold the value. *)
Record Moved (request : ConnectionRequest) (route : list string) : Prop := {
  mv_start : head route = Some (producerMemory request);
  mv_end : last route = Some (consumerMemory request);
  mv_simple : NoDup route;
  mv_hops : (2 <= length route)%nat ∧ Z.of_nat (length route) <= Routing.maxHops topology + 1;
  mv_hold : Forall (λ n, ∃ m, CanHold machine (routeRequestOf request) (consumerMemory request) n m) (tail route);
}.

Lemma searched_endpoints request src dst : Routing.Searched machine (routeRequestOf request) src dst →
  mem_id src = producerMemory request ∧ mem_id dst = consumerMemory request ∧
  findMemory machine (producerMemory request) = Some src.
Proof.
  intros (He & _ & _). apply Routing.routeEndpoints_source in He as [Hs Hd].
  split_and!; [by eapply (Routing.findMemory_elem machine)|by eapply (Routing.findMemory_elem machine)|done].
Qed.

(** An enumeration between different memories that returns routes has searched. *)
Lemma enumerateRoutes_ok_searched request limit cut rs : producerMemory request ≠ consumerMemory request →
  Routing.enumerateRoutes machine topology (routeRequestOf request) limit = (cut, Ok rs) →
  ∃ src dst, Routing.Searched machine (routeRequestOf request) src dst ∧ Routing.effectiveLimit topology limit ≠ 0.
Proof.
  intros Hne. unfold Routing.enumerateRoutes. destruct (Routing.routeEndpoints _ _) as [[src dst]|] eqn:He; [|done].
  pose proof (Routing.routeEndpoints_source machine (routeRequestOf request) src dst He) as [Hs Hd].
  apply (Routing.findMemory_elem machine) in Hs as [Hs _], Hd as [Hd _]. cbn in Hs, Hd.
  rewrite bool_decide_false by congruence. destruct (Routing.endpointFacts _ src dst) as [[]|] eqn:Hf; [|done].
  case_bool_decide as Hl; [done|]. intros _. exists src, dst. split; [|done]. split_and!; [done|congruence|done].
Qed.

Lemma routes_move request limit cut rs r : producerMemory request ≠ consumerMemory request →
  0 <= limit →
  Routing.enumerateRoutes machine topology (routeRequestOf request) limit = (cut, Ok rs) → r ∈ rs →
  Moved request (Routing.nodes r) ∧ length (Routing.nodes r) = S (length (Routing.route_links r)) ∧
  (∀ layout, Routing.layoutClass (routeRequestOf request) = Some layout → Forall (Supports layout) (Routing.nodes r)).
Proof.
  intros Hne Hlim Hen Hr. destruct (enumerateRoutes_ok_searched request limit cut rs Hne Hen) as (src & dst & Hs & _).
  destruct (searched_endpoints request src dst Hs) as (Hsrc & Hdst & Hfound).
  assert (0 <= Routing.effectiveLimit topology limit) as Hpos by (unfold Routing.effectiveLimit; lia).
  destruct (Routing.routes_sound machine topology (routeRequestOf request) maxHops_nonneg src dst limit cut rs Hs Hpos Hen)
    as (_ & _ & Hall).
  destruct (Hall r Hr) as (p & Hp & Hcur & Hnd & Hlen & Hhops & Heq).
  rewrite Hsrc, Hdst in Hp. destruct (path_nodes machine _ _ _ p Hp) as (rest & Hn & HF).
  assert (Routing.nodes r = producerMemory request :: rest) as Hnodes by (rewrite Heq; done).
  assert (last (Routing.nodes r) = Some (consumerMemory request)) as Hlast.
  { rewrite Hnodes, <- Hn. unfold Routing.currentId in Hcur. rewrite Hdst, Hn in Hcur. rewrite Hn.
    destruct (last (_ :: rest)) as [x|] eqn:Hx; [by cbn in Hcur; subst|by apply last_None in Hx]. }
  split_and!.
  - constructor; try done.
    + by rewrite Hnodes.
    + split; [|lia]. rewrite Hnodes in *. destruct rest; cbn; [|lia]. cbn in Hlast. congruence.
    + by rewrite Hnodes.
  - done.
  - intros layout Hl. rewrite Hnodes. constructor.
    + exists src. split; [done|]. destruct Hs as (_ & _ & Hf). unfold Routing.endpointFacts in Hf.
      rewrite !fail_then_ok, Hl in Hf. destruct Hf as (_ & _ & Hf). rewrite !fail_then_ok in Hf.
      by destruct Hf as (Hf%negb_false_iff & _).
    + eapply Forall_impl; [exact HF|]. intros n (m & [Hf _ Hlay _]). exists m. auto.
Qed.

(** A plan that serves its request: it names the request's value, ends and ports,
    carries its own hash as id, and gets the value where the consumer reads it in the
    layout the consumer wants. *)
Record LegalConnection (request : ConnectionRequest) (plan : ConnectionPlan) : Prop := {
  lc_request : plan = connectionOf request (cp_kind plan) (memoryRoute plan) (transferEngines plan) (transform plan)
                        (cp_cost plan);
  lc_compatible : elementAndShapeCompatible request = true ∧ affineCompatible request = true;
  lc_route : match cp_kind plan with
             | Direct | LayoutTransformKind =>
               memoryRoute plan = [producerMemory request] ∧ consumerSeesProducerMemory request machine = true
             | Transfer | TransferAndTransform => Moved request (memoryRoute plan)
             | _ => False
             end;
  lc_transform : match cp_kind plan with
                 | Direct | Transfer => transform plan = None ∧ ¬ DifferentLayouts request
                 | _ => is_Some (transform plan) ∧ DifferentLayouts request
                 end;
  lc_layouts : match transform plan with
               | Some t =>
                 producerLayout request = Some (srcLayout t) ∧ consumerLayout request = Some (dstLayout t) ∧
                 Some (lt_memoryNode t) = last (memoryRoute plan) ∧
                 if decide (cp_kind plan = LayoutTransformKind) then
                   Supports (srcLayout t) (producerMemory request) ∧ Supports (dstLayout t) (producerMemory request)
                 else ∃ hop, (S hop < length (memoryRoute plan))%nat ∧
                   TransformedAt (srcLayout t) (dstLayout t) (memoryRoute plan) hop
               | None => cp_kind plan = Transfer → ∀ layout, producerLayout request = Some layout →
                           Forall (Supports layout) (memoryRoute plan)
               end;
}.

Lemma chargeTransform_ok request t route cost t' cost' :
  chargeTransform machine request t route cost = Ok (t', cost') →
  match t with
  | None => t' = None ∧ cost' = cost
  | Some a => ∃ resource charge, cost' = addCost cost charge ∧
      t' = Some (mkTransform (srcLayout a) (dstLayout a) (lt_srcMap a) (lt_dstMap a) (default "" (last route)) resource)
  end.
Proof.
  unfold chargeTransform. destruct t as [a|]; [|by intros [= <- <-]].
  destruct (selectTransformResource _ _) as [resource|]; [|done]. cbn zeta.
  destruct (estimateTransformCost _ _) as [charge|]; [|done]. intros [= <- <-]. by exists resource, charge.
Qed.

Lemma transformOf_spec request :
  match transformOf request with
  | Some t => DifferentLayouts request ∧ producerLayout request = Some (srcLayout t) ∧
      consumerLayout request = Some (dstLayout t)
  | None => ¬ DifferentLayouts request
  end.
Proof.
  unfold transformOf. destruct (transformRequired request) eqn:Ht.
  - apply transformRequired_true in Ht. split; [done|]. destruct Ht as (p & c & -> & -> & _). done.
  - intros Hd%transformRequired_true. congruence.
Qed.

Lemma emitRoute_legal request route plan :
  elementAndShapeCompatible request = true → affineCompatible request = true →
  Moved request (Routing.nodes route) →
  (∀ layout, Routing.layoutClass (routeRequestOf request) = Some layout → Forall (Supports layout) (Routing.nodes route)) →
  emitRoute machine request route = Ok (Some plan) →
  LegalConnection request plan ∧ memoryRoute plan = Routing.nodes route.
Proof.
  intros He Ha Hm Hl. unfold emitRoute. pose proof (transformOf_spec request) as Ht.
  destruct (transformRequired request && _) eqn:Hhop; [done|].
  destruct (chargeTransform _ _ _ _ _) as [[t cost]|] eqn:Hc; [|done]. intros [= <-].
  split; [|done]. apply chargeTransform_ok in Hc.
  destruct (transformRequired request) eqn:Hr; pose proof Hr as Hr';
    [apply transformRequired_true in Hr'|rewrite <- not_true_iff_false, transformRequired_true in Hr'].
  - cbn in Hhop. apply bool_decide_eq_false in Hhop.
    destruct (transformOf request) as [a|]; [|done]. destruct Hc as (resource & charge & -> & ->).
    destruct Ht as (_ & Hp & Hq). destruct (mv_end _ _ Hm).
    constructor; cbn; rewrite ?Hp, ?Hq; try done.
    split_and!; [done..| |].
    + rewrite (mv_end _ _ Hm). done.
    + pose proof (legalTransformHop_spec (Routing.nodes route) (srcLayout a) (dstLayout a)) as Hs.
      rewrite Hp, Hq in Hhop. cbn in Hhop. destruct (legalTransformHop _ _ _ _) as [hop|]; [|done].
      destruct Hs as (? & ? & _). by exists hop.
  - destruct (transformOf request) as [a|]; [by destruct Ht as [? _]|]. destruct Hc as [-> ->].
    constructor; cbn; try done. intros _ layout Hlay. apply Hl. cbn. by rewrite Hr.
Qed.

Lemma emitRoutes_spec request rs plans : emitRoutes machine request rs = Ok plans →
  (∀ plan, plan ∈ plans ↔ ∃ r, r ∈ rs ∧ emitRoute machine request r = Ok (Some plan)) ∧
  ∀ r, r ∈ rs → ∃ o, emitRoute machine request r = Ok o.
Proof.
  revert plans. induction rs as [|r rs IH]; intros plans; cbn [emitRoutes].
  - intros [= <-]. split; [|by intros ? ?%not_elem_of_nil]. intros plan. split; [by intros ?%not_elem_of_nil|].
    by intros (? & ?%not_elem_of_nil & _).
  - destruct (emitRoute machine request r) as [o|] eqn:Hr; [|done]. cbn.
    destruct (emitRoutes machine request rs) as [rest|] eqn:Hrs; [|done]. intros [= <-].
    destruct (IH rest eq_refl) as [IH1 IH2]. split.
    + intros plan. rewrite elem_of_app, IH1, option_list_elem. setoid_rewrite elem_of_cons. split.
      * intros [->|(r' & ? & ?)]; [exists r; auto|exists r'; auto].
      * intros (r' & [->|?] & He); [left; congruence|right; eauto].
    + intros r' [->|?]%elem_of_cons; eauto.
Qed.

(** The four alternatives of a compatible request. *)
Definition directPlans (request : ConnectionRequest) : list ConnectionPlan :=
  if portsDirectCompatible request machine then
    [connectionOf request Direct [producerMemory request] [] None (localCost (rq_bytes request))]
  else [].
Definition InPlace (request : ConnectionRequest) (plan : ConnectionPlan) : Prop :=
  DifferentLayouts request ∧ consumerSeesProducerMemory request machine = true ∧
  (∀ p, producerLayout request = Some p → Supports p (producerMemory request)) ∧
  (∀ c, consumerLayout request = Some c → Supports c (producerMemory request)) ∧
  ∃ t cost, chargeTransform machine request (transformOf request) [producerMemory request] zeroCost = Ok (t, cost) ∧
    plan = connectionOf request LayoutTransformKind [producerMemory request] [] t cost.

Lemma synthesizeConnections_inv request plans cut :
  synthesizeConnections request machine topology options = Ok (plans, cut) →
  plans = [] ∧ cut = false ∧ (elementAndShapeCompatible request = false ∨ affineCompatible request = false) ∨
  elementAndShapeCompatible request = true ∧ affineCompatible request = true ∧
  ∃ inPlace routed, plans = (directPlans request ++ inPlace ++ routed)%list ∧
    Forall (InPlace request) inPlace ∧
    ((producerMemory request = consumerMemory request ∧ routed = [] ∧ cut = false) ∨
     producerMemory request ≠ consumerMemory request ∧
     match Routing.enumerateRoutes machine topology (routeRequestOf request) (maxRoutesPerConnection options) with
     | (t, Err _) => routed = [] ∧ cut = t
     | (t, Ok rs) => cut = t ∧
         (∀ plan, plan ∈ routed ↔ ∃ r, r ∈ rs ∧ emitRoute machine request r = Ok (Some plan)) ∧
         ∀ r, r ∈ rs → ∃ o, emitRoute machine request r = Ok o
     end).
Proof.
  unfold synthesizeConnections. destruct (findMemory machine (producerMemory request)) as [memory|] eqn:Hp; [|done].
  destruct (findMemory machine (consumerMemory request)) as [memory'|]; [|done].
  rewrite fail_then_ok. intros [_ Hs].
  destruct (negb (elementAndShapeCompatible request) || negb (affineCompatible request)) eqn:Hc.
  { injection Hs as <- <-. left. apply orb_true_iff in Hc as [Hc%negb_true_iff|Hc%negb_true_iff]; tauto. }
  apply orb_false_iff in Hc as [He%negb_false_iff Ha%negb_false_iff]. right. split_and!; [done..|].
  fold (directPlans request) in Hs. cbn zeta in Hs.
  destruct (if transformRequired request && _ && _ && _ then _ else _) as [inPlace|] eqn:Hin; [|done].
  exists inPlace. assert (Forall (InPlace request) inPlace) as HF.
  { destruct (transformRequired request && _ && _ && _) eqn:Hcond; [|by injection Hin as <-].
    rewrite !andb_true_iff in Hcond. destruct Hcond as [[[Ht Hv] Hl1] Hl2].
    destruct (chargeTransform _ _ _ _ _) as [[t cost]|] eqn:Hch; [|done]. injection Hin as <-.
    apply Forall_singleton. split_and!; [by apply transformRequired_true|done|..|by exists t, cost].
    - intros p Heq. rewrite Heq in Hl1. by exists memory.
    - intros c Heq. rewrite Heq in Hl2. by exists memory. }
  cbn [mbind result_bind] in Hs. case_bool_decide as Hm.
  { injection Hs as <- <-. exists []. rewrite app_nil_r. split_and!; [done..|]. by left. }
  destruct (Routing.enumerateRoutes _ _ _ _) as [t [rs|e]].
  - apply bind_ok in Hs as (near & Hnear & Hs). apply bind_ok in Hs as (far & Hfar & Hs).
    injection Hs as <- <-. exists (near ++ far)%list.
    rewrite <- !(assoc_L (++)%list). split_and!; [done..|]. right. split; [done|]. split; [done|].
    apply emitRoutes_spec in Hnear as [Hn1 Hn2], Hfar as [Hf1 Hf2].
    setoid_rewrite list_elem_of_In in Hn1. setoid_rewrite list_elem_of_In in Hf1.
    setoid_rewrite list_elem_of_In in Hn2. setoid_rewrite list_elem_of_In in Hf2.
    setoid_rewrite filter_In in Hn1. setoid_rewrite filter_In in Hf1.
    setoid_rewrite filter_In in Hn2. setoid_rewrite filter_In in Hf2.
    setoid_rewrite list_elem_of_In. setoid_rewrite in_app_iff. setoid_rewrite Hn1. setoid_rewrite Hf1. split.
    + intros plan. split; [intros [(r & [? _] & ?)|(r & [? _] & ?)]; eauto|].
      intros (r & Hr & Hem). destruct (bool_decide (length (Routing.route_links r) = 1%nat)) eqn:Hb.
      * left. exists r. auto.
      * right. exists r. split; [split; [done|]|done]. cbn. by rewrite Hb.
    + intros r Hr. destruct (bool_decide (length (Routing.route_links r) = 1%nat)) eqn:Hb; [by apply Hn2|].
      apply Hf2. split; [done|]. cbn. by rewrite Hb.
  - injection Hs as <- <-. exists []. rewrite app_nil_r. split_and!; [done..|]. by right.
Qed.

Lemma connections_legal request plans cut :
  synthesizeConnections request machine topology options = Ok (plans, cut) → Forall (LegalConnection request) plans.
Proof.
  intros [(-> & _)|(He & Ha & inPlace & routed & -> & Hin & Hroute)]%synthesizeConnections_inv; [constructor|].
  apply Forall_app. split; [|apply Forall_app; split].
  - unfold directPlans. destruct (portsDirectCompatible request machine) eqn:Hd; [|constructor].
    unfold portsDirectCompatible in Hd. rewrite !andb_true_iff in Hd. destruct Hd as [[[_ Ht%negb_true_iff] _] Hv].
    rewrite <- not_true_iff_false, transformRequired_true in Ht. apply Forall_singleton. by constructor.
  - eapply Forall_impl; [exact Hin|]. intros plan (Hd & Hv & Hp & Hc & t & cost & Hch & ->).
    apply chargeTransform_ok in Hch. pose proof (transformOf_spec request) as Ht.
    destruct (transformOf request) as [a|]; [|done]. destruct Ht as (_ & Ha1 & Ha2).
    destruct Hch as (resource & charge & -> & ->). constructor; cbn; try done.
    rewrite Ha1, Ha2. split_and!; [done..|]. rewrite decide_True by done. auto.
  - destruct Hroute as [(_ & -> & _)|[Hne Hroute]]; [constructor|].
    destruct (Routing.enumerateRoutes _ _ _ _) as [t [rs|e]] eqn:Hen; [|by destruct Hroute as [-> _]].
    destruct Hroute as (_ & Hspec & _). apply Forall_forall. intros plan (r & Hr & Hem)%Hspec.
    destruct (routes_move request _ t rs r Hne maxRoutesPerConnection_nonneg Hen Hr) as (Hm & _ & Hl).
    by destruct (emitRoute_legal request r plan He Ha Hm Hl Hem).
Qed.

(** C22: Every connection that is synthesized is legal.  It is the request's value
    between the request's ports, with its own hash as id.  A read in place sees the
    producer's memory; a movement is a simple path within the hop cap, on every
    memory of which the value fits, aligned.  Ends that state different layouts get a
    transform at a hop up to which every memory stores the one layout and from which
    on every memory stores the other; ends that do not, keep one layout throughout. *)
Theorem synthesizeConnections_legal request plans cut :
  synthesizeConnections request machine topology options = Ok (plans, cut) → Forall (LegalConnection request) plans.
Proof. apply connections_legal. Qed.

(** No alternative is lost.  A pair that can connect directly is offered the
    direct read; and when no route cap was reached, every legal path between the two
    memories that can carry the value, in one layout or through a transform at one of
    its hops, is offered as a movement. *)
Theorem synthesizeConnections_complete request plans cut :
  synthesizeConnections request machine topology options = Ok (plans, cut) →
  (portsDirectCompatible request machine = true →
     ∃ plan, plan ∈ plans ∧ cp_kind plan = Direct ∧ memoryRoute plan = [producerMemory request]) ∧
  (cut = false → elementAndShapeCompatible request = true → affineCompatible request = true →
   0 < Routing.effectiveLimit topology (maxRoutesPerConnection options) →
   ∀ src dst p, Routing.Searched machine (routeRequestOf request) src dst →
     Routing.LegalPath machine (routeRequestOf request) (mem_id src) (mem_id dst) p →
     Routing.currentId p = mem_id dst →
     (DifferentLayouts request → ∃ hop, (S hop < length (Routing.p_nodes p))%nat ∧
        TransformedAt (default "" (producerLayout request)) (default "" (consumerLayout request)) (Routing.p_nodes p) hop) →
     ∃ plan, plan ∈ plans ∧ memoryRoute plan = Routing.p_nodes p ∧
       (cp_kind plan = Transfer ∨ cp_kind plan = TransferAndTransform)).
Proof.
  intros [(-> & -> & Hbad)|(He & Ha & inPlace & routed & -> & _ & Hroute)]%synthesizeConnections_inv.
  { split; [|intros _ Hc1 Hc2; by destruct Hbad; congruence].
    unfold portsDirectCompatible. intros Hd. rewrite !andb_true_iff in Hd. destruct Hd as [[[Hd1 _] Hd2] _].
    by destruct Hbad; congruence. }
  split.
  { intros Hd. unfold directPlans. rewrite Hd. eexists. split; [by left|done]. }
  intros -> _ _ Hlim src dst p Hs Hp Hcur Hhop.
  destruct (searched_endpoints request src dst Hs) as (Hsrc & Hdst & _).
  destruct Hroute as [(Heq & _)|[Hne Hroute]]; [by destruct Hs as (_ & Hne & _); congruence|].
  destruct (Routing.enumerateRoutes _ _ _ _) as [t res] eqn:Hen.
  assert (t = false) as -> by (by destruct res, Hroute).
  destruct (Routing.routes_complete machine topology (routeRequestOf request) src dst
    (maxRoutesPerConnection options) res p Hs) as (rs & -> & Hin); [lia|done..|].
  destruct Hroute as (_ & Hspec & Htotal). destruct (Htotal _ Hin) as [o Ho].
  unfold emitRoute in Ho. pose proof (legalTransformHop_spec (Routing.p_nodes p)
    (default "" (producerLayout request)) (default "" (consumerLayout request))) as Hs2.
  cbn [Routing.completeRoute Routing.nodes] in Ho.
  destruct (transformRequired request) eqn:Ht; cbn [andb] in Ho.
  - apply transformRequired_true in Ht as Hd. destruct (Hhop Hd) as (hop & Hlt & Hat).
    destruct (legalTransformHop _ _ _ _) as [h|] eqn:Hh; [|by destruct (Hs2 hop Hlt)].
    rewrite bool_decide_false in Ho by done. destruct (chargeTransform _ _ _ _ _) as [[tr cost]|] eqn:Hch; [|done].
    injection Ho as <-. eexists. split; [apply elem_of_app; right; apply elem_of_app; right; apply Hspec|].
    + exists (Routing.completeRoute machine (routeRequestOf request) p). split; [done|].
      unfold emitRoute. cbn [Routing.completeRoute Routing.nodes]. rewrite Ht, Hh, bool_decide_false by done.
      cbn [andb]. rewrite Hch. reflexivity.
    + by split; [|right].
  - destruct (chargeTransform _ _ _ _ _) as [[tr cost]|] eqn:Hch; [|done].
    injection Ho as <-. eexists. split; [apply elem_of_app; right; apply elem_of_app; right; apply Hspec|].
    + exists (Routing.completeRoute machine (routeRequestOf request) p). split; [done|].
      unfold emitRoute. cbn [Routing.completeRoute Routing.nodes]. rewrite Ht. cbn [andb]. rewrite Hch. reflexivity.
    + by split; [|left].
Qed.

(** *** Joint choices *)
Definition capOfChoices : nat := Z.to_nat (maxConnectionCombinations options).

Lemma choiceLoop_enum alternatives v l : enum (length <$> alternatives) v l → length v = length alternatives →
  0 <= maxConnectionCombinations options →
  ∀ fuel combos truncated, (length l ≤ fuel)%nat → (length combos ≤ capOfChoices)%nat →
  choiceLoop fuel options alternatives v combos truncated =
    ((combos ++ take (capOfChoices - length combos) (selectPicks alternatives <$> l))%list,
     truncated || bool_decide (capOfChoices < length combos + length l)%nat).
Proof.
  intros Hen Hlv Hcap. revert Hlv.
  induction Hen as [v Hv|v v' l Hv Hen IH]; intros Hlv [|fuel] combos truncated Hf Hle; cbn in Hf; try lia;
    cbn [choiceLoop fmap list_fmap].
  all: assert (bool_decide (maxConnectionCombinations options <= Z.of_nat (length combos)) =
    bool_decide (capOfChoices = length combos)%nat) as -> by (apply bool_decide_ext; unfold capOfChoices in *; lia).
  all: case_bool_decide as Hfull.
  1,3: rewrite Hfull, Nat.sub_diag, take_0, app_nil_r, bool_decide_true, orb_true_r by (cbn; lia); done.
  all: assert (∃ k, capOfChoices - length combos = S k)%nat as [k Hk] by (exists (capOfChoices - length combos - 1)%nat; lia).
  all: assert (length v = length (length <$> alternatives)) as Hls by (by rewrite length_fmap).
  all: pose proof (odometer_next _ _ Hls) as Ho; rewrite Hv in Ho; rewrite Hk; cbn [take].
  - rewrite Ho, take_nil, bool_decide_false, orb_false_r; [done|cbn; lia].
  - destruct Ho as (Hl' & q & -> & _). rewrite IH; [|by rewrite Hl', length_fmap|lia|rewrite length_app; cbn; lia].
    rewrite length_app. cbn [length].
    assert (capOfChoices - (length combos + 1) = k)%nat as -> by lia.
    rewrite <- (assoc_L (++)%list). do 2 f_equal. apply bool_decide_ext. lia.
Qed.

Lemma alternativesOf_spec requests truncated alternatives cut :
  alternativesOf requests machine topology options truncated = Ok (alternatives, cut) →
  match alternatives with
  | Some plans => ∃ results,
      Forall2 (λ rq res, synthesizeConnections rq machine topology options = Ok res ∧ res.1 ≠ []) requests results ∧
      plans = fst <$> results ∧ cut = truncated || existsb snd results
  | None => ∃ rq t, rq ∈ requests ∧ synthesizeConnections rq machine topology options = Ok ([], t)
  end.
Proof.
  revert truncated alternatives cut. induction requests as [|rq requests IH]; intros truncated alternatives cut;
    cbn [alternativesOf].
  - intros [= <- <-]. exists []. rewrite orb_false_r. by split.
  - rewrite bind_ok. intros ([plans t] & Hs & Hk). destruct plans as [|plan plans].
    { injection Hk as <- <-. exists rq, t. split; [by left|done]. }
    apply bind_ok in Hk as ([rest t'] & Hrest & [= <- <-]). specialize (IH _ _ _ Hrest). destruct rest as [rest|]; cbn.
    + destruct IH as (results & HF & -> & ->). exists ((plan :: plans, t) :: results). split_and!; [by constructor|done|].
      cbn. by rewrite orb_assoc.
    + destruct IH as (rq' & t'' & Hin & ?). exists rq', t''. split; [by right|done].
Qed.

(** C23: The joint choices for several values are the first combinations, in
    lexicographic order with the last request varying fastest, of one synthesized
    connection per request; they are reported truncated exactly when the cap left
    some out or a route cap was reached; and there is none only when some request has
    no connection or the cap is 0. *)
Theorem enumerateConnectionChoices_exact requests set : requests ≠ [] → 0 <= maxConnectionCombinations options →
  enumerateConnectionChoices requests machine topology options = Ok set →
  (∃ results, let product := selectPicks (fst <$> results) <$> index_vectors (length <$> (fst <$> results)) in
    Forall2 (λ rq res, synthesizeConnections rq machine topology options = Ok res ∧ res.1 ≠ []) requests results ∧
    combinations set = take capOfChoices product ∧
    choices_truncated set = existsb snd results || bool_decide (capOfChoices < length product)%nat ∧
    ∀ c, c ∈ product ↔ Forall2 (λ res plan, plan ∈ res.1) results c) ∨
  combinations set = [] ∧ ∃ rq t, rq ∈ requests ∧ synthesizeConnections rq machine topology options = Ok ([], t).
Proof.
  intros Hne Hcap. unfold enumerateConnectionChoices. rewrite decide_False by done. rewrite bind_ok.
  intros ([alternatives cut] & Halt & Hset). apply alternativesOf_spec in Halt. destruct alternatives as [plans|].
  - left. destruct Halt as (results & HF & -> & ->). exists results. cbn zeta.
    assert (Forall (λ n, n ≠ O) (length <$> (fst <$> results))) as Hnz.
    { rewrite !Forall_fmap. eapply Forall2_Forall_r; [exact HF|]. apply Forall_true. intros rq res [_ Hres]. cbn.
      by destruct res.1. }
    apply index_vectors_enum in Hnz.
    assert (replicate (length requests) O = zeros (length <$> (fst <$> results))) as Hz
      by (unfold zeros; by rewrite !length_fmap, (Forall2_length _ _ _ HF)).
    rewrite Hz, (choiceLoop_enum _ _ _ Hnz) in Hset;
      [|unfold zeros; by rewrite length_replicate, length_fmap|done|unfold choiceFuel; by rewrite index_vectors_length|cbn; lia].
    injection Hset as <-. cbn [combinations choices_truncated length app orb]. rewrite Nat.sub_0_r.
    split_and!; [done|done|by rewrite length_fmap|].
    intros c. rewrite list_elem_of_fmap. setoid_rewrite elem_of_index_vectors. split.
    + intros (pick & -> & Hp). by eapply selectPicks_legal.
    + intros Hc. apply selectPicks_complete in Hc as (pick & Hp & <-). by exists pick.
  - right. injection Hset as <-. done.
Qed.

(** *** Fan-out *)
Record Grouped (groups : list (FanOutKey * list ConnectionRequest)) (consumers : list ConnectionRequest) : Prop := {
  gr_keys : NoDup (fst <$> groups);
  gr_members : Forall (λ g, g.2 ≠ [] ∧ Forall (λ r, fanOutKey r = g.1) g.2) groups;
  gr_partition : List.concat (snd <$> groups) ≡ₚ consumers;
}.

Lemma addToGroup_grouped groups consumers r : Grouped groups consumers →
  Grouped (addToGroup (fanOutKey r) r groups) (consumers ++ [r]).
Proof.
  intros [Hk Hm Hp].
  enough (NoDup (fst <$> addToGroup (fanOutKey r) r groups) ∧
    (∀ k, k ∈ fst <$> addToGroup (fanOutKey r) r groups → k = fanOutKey r ∨ k ∈ fst <$> groups) ∧
    Forall (λ g, g.2 ≠ [] ∧ Forall (λ r, fanOutKey r = g.1) g.2) (addToGroup (fanOutKey r) r groups) ∧
    List.concat (snd <$> addToGroup (fanOutKey r) r groups) ≡ₚ List.concat (snd <$> groups) ++ [r]) as (H1' & _ & H2' & H3').
  { constructor; [done|done|]. by rewrite H3', Hp. }
  clear Hp. induction groups as [|[k members] groups IH]; cbn [addToGroup fmap list_fmap fst snd List.concat].
  - split_and!; [apply NoDup_singleton|set_solver|by repeat constructor|done].
  - apply NoDup_cons in Hk as [Hnk Hk]. apply Forall_cons in Hm as [[Hne Hmk] Hm].
    destruct (IH Hk Hm) as (IH1 & IH2 & IH3 & IH4). case_decide as Hkey; cbn [fmap list_fmap fst snd List.concat].
    + split_and!; [by constructor|set_solver| |].
      * constructor; [|done]. split; [by destruct members|]. apply Forall_app. split; [done|]. by repeat constructor.
      * rewrite <- !(assoc_L (++)%list). f_equiv. apply Permutation_app_comm.
    + split_and!.
      * constructor; [|done]. intros Hin. by destruct (IH2 k Hin).
      * set_solver.
      * by constructor.
      * rewrite <- (assoc_L (++)%list). by f_equiv.
Qed.

Lemma groupsOf_grouped consumers : Grouped (groupsOf consumers) consumers.
Proof.
  unfold groupsOf. induction consumers as [|r consumers IH] using rev_ind.
  - constructor; [constructor|constructor|done].
  - rewrite foldl_app. cbn [foldl]. by apply addToGroup_grouped.
Qed.

(** A plan that serves a whole group. *)
Record ServesGroup (base : ConnectionRequest) (members : list ConnectionRequest) (plan : ConnectionPlan) : Prop := {
  sg_consumers : consumers plan = servedBy members;
  sg_ports : consumerPorts plan = portsOf members;
  sg_producer : producerPort plan = rq_producerPort base;
  sg_id : cp_id plan = computeConnectionId plan;
  sg_kind : match cp_kind plan with
            | Direct => memoryRoute plan = [producerMemory base] ∧
                Forall (λ r, portsDirectCompatible r machine = true) members
            | LayoutTransformKind => Forall (λ r, consumerSeesProducerMemory r machine = true) members ∧
                ∃ r q, r ∈ members ∧ LegalConnection r q ∧ cp_kind q = LayoutTransformKind ∧
                  memoryRoute plan = memoryRoute q ∧ transform plan = transform q
            | Replicate =>
                ∃ r q, r ∈ members ∧ LegalConnection r q ∧ (cp_kind q = Transfer ∨ cp_kind q = TransferAndTransform) ∧
                  memoryRoute plan = memoryRoute q ∧ transform plan = transform q
            | _ => False
            end;
}.

Lemma memberAlternatives_spec members sees truncated alternatives cut plan :
  memberAlternatives members sees machine topology options truncated = Ok (Some alternatives, cut) →
  plan ∈ alternatives → servesGroup sees plan = true ∧
    ∃ r q, r ∈ members ∧ LegalConnection r q ∧ plan = asReplica q.
Proof.
  revert truncated alternatives cut. induction members as [|r members IH]; intros truncated alternatives cut;
    cbn [memberAlternatives]; [by intros [= <- <-] ?%not_elem_of_nil|].
  rewrite bind_ok. intros ([plans t] & Hs & Hk) Hin. destruct plans as [|x xs]; [done|].
  remember (x :: xs) as plans eqn:Hplans. clear Hplans.
  apply bind_ok in Hk as ([rest t'] & Hrest & Hk). injection Hk as Hk Ht. destruct rest as [rest|]; [|done].
  injection Hk as Hk. rewrite <- Hk in Hin. apply elem_of_app in Hin as [Hin|Hin].
  - apply list_elem_of_In, filter_In in Hin as [Hin Hsv]. split; [done|].
    apply list_elem_of_In, list_elem_of_fmap in Hin as (q & -> & Hq). exists r, q. split; [by left|]. split; [|done].
    eapply Forall_forall; [|exact Hq]. by eapply connections_legal.
  - destruct (IH _ _ _ Hrest Hin) as (? & r' & q & ? & ?). split; [done|]. exists r', q. split; [by right|done].
Qed.

Lemma asReplica_kind q : cp_kind (asReplica q) =
  match cp_kind q with Transfer | TransferAndTransform => Replicate | k => k end.
Proof. unfold asReplica. by destruct (cp_kind q) eqn:Hk; rewrite ?Hk. Qed.
Lemma asReplica_route q : memoryRoute (asReplica q) = memoryRoute q ∧ transform (asReplica q) = transform q.
Proof. unfold asReplica. by destruct (cp_kind q). Qed.

Lemma groupAlternatives_serve base members truncated alternatives cut :
  groupAlternatives base members machine topology options truncated = Ok (alternatives, cut) →
  Forall (ServesGroup base members) alternatives.
Proof.
  unfold groupAlternatives. destruct (forallb _ members) eqn:Hall.
  - intros [= <- <-]. apply Forall_singleton. constructor; try done. split; [done|].
    apply Forall_forall. rewrite forallb_forall in Hall. intros r Hr%list_elem_of_In. by apply Hall.
  - rewrite bind_ok. intros ([[alts|] t] & Hm & [= <- <-]); [|constructor]. apply Forall_fmap, Forall_forall.
    intros plan Hin. destruct (memberAlternatives_spec _ _ _ _ _ _ Hm Hin) as (Hsv & r & q & Hr & Hq & ->).
    constructor; try done. cbn. destruct (asReplica_route q) as [Hrt Htr]. rewrite Hrt, Htr. unfold servesGroup in Hsv.
    pose proof (lc_route r q Hq) as Hroute. rewrite asReplica_kind in *. destruct (cp_kind q) eqn:Hk; try done.
    + exists r, q. auto.
    + split; [|by exists r, q]. apply orb_true_iff in Hsv as [Hsv|Hsv]; [by apply bool_decide_eq_true in Hsv|].
      apply andb_true_iff in Hsv as [_ Hsv].
      rewrite forallb_forall in Hsv. apply Forall_forall. intros r' Hr'%list_elem_of_In. by apply Hsv.
    + exists r, q. auto.
Qed.

(** Fan-out partitions the consumers.  Every consumer is in exactly one group;
    all members of a group read the producer in place, or want the value in the same
    memory and layout (and, when their parameters print unambiguously, with the same
    parameters); and every alternative of a group names all its consumers and ports
    and is the legal connection of one of them, a copy ending in the memory of all. *)
Theorem enumerateFanOutAlternatives_partition base consumers groups cut :
  enumerateFanOutAlternatives base consumers machine topology options = Ok (groups, cut) →
  ∃ members : list (list ConnectionRequest), List.concat members ≡ₚ consumers ∧
    Forall2 (λ rs alternatives, rs ≠ [] ∧ Forall (ServesGroup base rs) alternatives ∧
      (Forall (λ r, portsDirectCompatible r machine = true) rs ∨
       (∀ r r', r ∈ rs → r' ∈ rs → consumerMemory r = consumerMemory r' ∧ consumerLayout r = consumerLayout r' ∧
          (PlainValues (consumerLayoutParameters r) → PlainValues (consumerLayoutParameters r') →
           consumerLayoutParameters r = consumerLayoutParameters r')) ∧
       ∀ plan r, plan ∈ alternatives → r ∈ rs → cp_kind plan = Replicate →
         last (memoryRoute plan) = Some (consumerMemory r))) members groups.
Proof.
  unfold enumerateFanOutAlternatives. case_decide as Hne; [intros [= <- <-]; exists []; subst; by split|].
  destruct (forallb _ consumers) eqn:Hall.
  { intros [= <- <-]. exists [consumers]. cbn. rewrite app_nil_r. split; [done|]. constructor; [|done].
    assert (Forall (λ r, portsDirectCompatible r machine = true) consumers) as HF.
    { apply Forall_forall. rewrite forallb_forall in Hall. intros r Hr%list_elem_of_In. by apply Hall. }
    split_and!; [done| |by left]. apply Forall_singleton. by constructor. }
  pose proof (groupsOf_grouped consumers) as [_ Hmem Hpart]. intros Hloop. exists (snd <$> groupsOf consumers).
  split; [done|]. clear Hall Hne Hpart. revert Hloop. generalize false as truncated. revert groups cut.
  induction Hmem as [|[key rs] gs [Hrs Hkey] _ IH]; intros groups cut truncated; cbn [fmap list_fmap snd groupsLoop].
  - intros [= <- <-]. constructor.
  - rewrite bind_ok. intros ([alts t] & Hg & Hk). apply bind_ok in Hk as ([rest t'] & Hrest & [= <- <-]).
    constructor; [|by eapply IH]. cbn in Hrs, Hkey. pose proof (groupAlternatives_serve _ _ _ _ _ Hg) as Hserve.
    split_and!; [done|done|right].
    assert (∀ r r', r ∈ rs → r' ∈ rs → fanOutKey r = fanOutKey r') as Heq.
    { intros r r' Hr Hr'. rewrite Forall_forall in Hkey. by rewrite (Hkey r Hr), (Hkey r' Hr'). }
    split.
    + intros r r' Hr Hr'. injection (Heq r r' Hr Hr') as Hm Hl Hp. split_and!; [done..|].
      intros ? ?. by apply canonicalSearchValueString_injective.
    + intros plan r Hplan Hr Hkind. rewrite Forall_forall in Hserve. destruct (Hserve plan Hplan) as [_ _ _ _ Hk].
      rewrite Hkind in Hk. destruct Hk as (r' & q & Hr' & Hq & Hqk & -> & _).
      injection (Heq r r' Hr Hr') as Hm _ _. rewrite Hm. pose proof (lc_route r' q Hq) as Hroute.
      destruct Hqk as [Hqk|Hqk]; rewrite Hqk in Hroute; apply Hroute.
Qed.

Lemma pickGroups_spec objective groups plans chose result chose' :
  pickGroups objective groups plans chose = (result, chose') →
  [] ∈ groups ∧ result = [] ∨
  [] ∉ groups ∧ ∃ picks, result = (plans ++ picks)%list ∧
    Forall2 (λ alternatives plan, ∃ x xs, alternatives = x :: xs ∧
      plan = minElement (λ lhs rhs, costLess (cp_cost lhs) (cp_cost rhs) objective) x xs) groups picks.
Proof.
  revert plans chose. induction groups as [|[|x xs] groups IH]; intros plans chose; cbn [pickGroups].
  - intros [= <- <-]. right. split; [by apply not_elem_of_nil|]. exists []. by rewrite app_nil_r.
  - intros [= <- <-]. left. split; [by left|done].
  - intros [[Hin ->]|(Hin & picks & -> & HF)]%IH; [left; split; [by right|done]|right].
    split; [by intros [?|?]%elem_of_cons|]. eexists (_ :: picks). rewrite <- (assoc_L (++)%list). split; [done|].
    constructor; [by eauto|done].
Qed.

(** A fan-out that is synthesized takes, for every group, an alternative no other
    of the group ranks before under the objective; it takes nothing exactly when some
    group has no alternative. *)
Theorem synthesizeFanOut_optimal base consumers objective plans cut chose :
  synthesizeFanOut base consumers machine topology options objective = Ok (plans, cut, chose) →
  ∃ groups, enumerateFanOutAlternatives base consumers machine topology options = Ok (groups, cut) ∧
    ([] ∈ groups ∧ plans = [] ∨ [] ∉ groups ∧
     Forall2 (λ alternatives plan, Forall (λ p, comparable (cp_cost p)) alternatives →
       plan ∈ alternatives ∧ ∀ other, other ∈ alternatives → costLess (cp_cost other) (cp_cost plan) objective = false)
       groups plans).
Proof.
  unfold synthesizeFanOut. rewrite bind_ok. intros ([groups t] & Hen & Hk).
  destruct (pickGroups objective groups [] false) as [result chose'] eqn:Hpick. injection Hk as <- <- <-.
  exists groups. split; [done|]. apply pickGroups_spec in Hpick as [[Hin ->]|(Hin & picks & -> & HF)].
  - by left.
  - right. split; [done|]. cbn [app]. eapply Forall2_impl; [exact HF|]. intros alternatives plan (x & xs & -> & ->) Hc.
    rewrite Forall_forall in Hc.
    apply (minElement_least (λ lhs rhs, costLess (cp_cost lhs) (cp_cost rhs) objective)).
    + intros a Ha. by destruct (costLess_strict_weak_order objective (cp_cost a) (cp_cost a) (cp_cost a)) as (? & _); auto.
    + intros a b c Ha Hb Hcc.
      by destruct (costLess_strict_weak_order objective (cp_cost a) (cp_cost b) (cp_cost c)) as (_ & ? & _); auto.
Qed.
End connection_proofs.

(** ** Concrete connections

    Two workers see a register file each is served from, and not the DRAM the value
    is in; the producer sees both. *)
#[local] Existing Instance sample_types.
#[local] Existing Instance sample_text.
#[local] Existing Instance sample_print.
#[local] Existing Instance LayoutConstraints.plainAffine.
#[local] Existing Instance sample_tiles.
#[local] Existing Instance sample_maps.

Definition fan_memory (id kind owner : string) : MemoryNode := mkMemory id kind owner 4096 64 ["row"] None dzero 0 None.
Definition fan_machine : MachineModel :=
  mkMachine 2 0 "fan" "" None 1 (mkSync 8 0) [sample_group; sample_pe0; sample_pe1]
    [fan_memory "dram.0" "dram" "pe.1"; fan_memory "rf.0" "rf" "pe.0"; fan_memory "rf.1" "rf" "pe.0"] []
    [mkEngine "dma.0" "dma" ["transfer"] "pe.1" 1 1 0]
    [Routing.toy_link "l0" "dram.0" "rf.0" 20 ["dma.0"]; Routing.toy_link "l1" "dram.0" "rf.0" 40 ["dma.0"]] 0.

Definition sample_move (consumer : Z) (executor memory : string) : ConnectionRequest :=
  mkConnectionRequest 1 consumer 0 (Some (mkRef 0 Output 0)) (Some (mkRef (Z.to_nat consumer) Input 0)) "dram.0" memory
    (Some "row") (Some "row") ∅ ∅ None None (Some (8, [16; 16])) (Some (8, [16; 16])) None (Some executor) None None
    256 64 ∅.

Definition sample_connections (request : ConnectionRequest) : list ConnectionPlan * bool :=
  match synthesizeConnections request fan_machine Routing.toy_options defaultPlacementOptions with
  | Ok r => r
  | Err _ => ([], true)
  end.
Example sample_transfers :
  (λ p, (cp_kind p, memoryRoute p)) <$> (sample_connections (sample_move 2 "pe.0" "rf.0")).1 =
    [(Transfer, ["dram.0"; "rf.0"]); (Transfer, ["dram.0"; "rf.0"])].
Proof. vm_compute. reflexivity. Qed.
Example sample_direct :
  (λ p, (cp_kind p, memoryRoute p)) <$> (sample_connections (sample_move 2 "pe.1" "rf.0")).1 = [(Direct, ["dram.0"])].
Proof. vm_compute. reflexivity. Qed.

Lemma synthesizeConnections_legal_witness :
  (sample_connections (sample_move 2 "pe.0" "rf.0")).1 ≠ [] ∧
  Forall (LegalConnection fan_machine Routing.toy_options (sample_move 2 "pe.0" "rf.0"))
    (sample_connections (sample_move 2 "pe.0" "rf.0")).1.
Proof.
  split; [vm_compute; discriminate|].
  apply (synthesizeConnections_legal fan_machine Routing.toy_options defaultPlacementOptions ltac:(done) ltac:(done)
    ltac:(done) _ _ (sample_connections (sample_move 2 "pe.0" "rf.0")).2).
  vm_compute. reflexivity.
Defined.

Lemma fan_path_legal :
  Routing.LegalPath fan_machine (routeRequestOf (sample_move 2 "pe.0" "rf.0")) "dram.0" "rf.0"
    (Routing.advance (routeRequestOf (sample_move 2 "pe.0" "rf.0")) (Routing.startRoute "dram.0")
       (Routing.toy_link "l1" "dram.0" "rf.0" 40 ["dma.0"]) (fan_memory "rf.0" "rf" "pe.0") "dma.0").
Proof.
  eapply rtc_once. eexists _, _, _. split_and!; [..|reflexivity].
  - by right; left.
  - done.
  - vm_compute. reflexivity.
  - cbn. intros [=]%list_elem_of_singleton.
  - vm_compute. reflexivity.
Defined.

Lemma synthesizeConnections_complete_witness : ∃ plan,
  plan ∈ (sample_connections (sample_move 2 "pe.0" "rf.0")).1 ∧ memoryRoute plan = ["dram.0"; "rf.0"] ∧
  (cp_kind plan = Transfer ∨ cp_kind plan = TransferAndTransform).
Proof.
  refine (proj2 (synthesizeConnections_complete fan_machine Routing.toy_options defaultPlacementOptions
    (sample_move 2 "pe.0" "rf.0") (sample_connections (sample_move 2 "pe.0" "rf.0")).1 false _) _ _ _ _
    (fan_memory "dram.0" "dram" "pe.1") (fan_memory "rf.0" "rf" "pe.0") _ _ fan_path_legal _ _).
  - vm_compute. reflexivity.
  - reflexivity.
  - reflexivity.
  - reflexivity.
  - vm_compute. reflexivity.
  - split_and!; [vm_compute; reflexivity|done|vm_compute; reflexivity].
  - reflexivity.
  - intros (p & c & [= <-] & [= <-] & [Hne|Hne]); by destruct Hne.
Defined.

Definition sample_choices : ConnectionChoiceSet :=
  match enumerateConnectionChoices [sample_move 2 "pe.0" "rf.0"; sample_move 3 "pe.0" "rf.0"] fan_machine
          Routing.toy_options defaultPlacementOptions with
  | Ok set => set
  | Err _ => mkChoices [] true true
  end.
Example sample_choices_four : length (combinations sample_choices) = 4%nat ∧ choices_truncated sample_choices = false.
Proof. vm_compute. by split. Qed.

Lemma enumerateConnectionChoices_exact_witness :
  ∃ results : list (list ConnectionPlan * bool), length results = 2%nat ∧
    combinations sample_choices = take 64 (selectPicks (fst <$> results) <$> index_vectors (length <$> (fst <$> results))).
Proof.
  destruct (enumerateConnectionChoices_exact fan_machine Routing.toy_options defaultPlacementOptions
    [sample_move 2 "pe.0" "rf.0"; sample_move 3 "pe.0" "rf.0"] sample_choices) as [(results & HF & Hc & _)|[Hn _]].
  - done.
  - done.
  - vm_compute. reflexivity.
  - exists results. split; [by rewrite <- (Forall2_length _ _ _ HF)|exact Hc].
  - vm_compute in Hn. discriminate.
Defined.

Definition sample_fan : list ConnectionRequest :=
  [sample_move 2 "pe.0" "rf.0"; sample_move 3 "pe.1" "rf.1"; sample_move 4 "pe.0" "rf.0"].
Definition sample_groups : list (list ConnectionPlan) * bool :=
  match enumerateFanOutAlternatives (sample_move 0 "pe.1" "dram.0") sample_fan fan_machine Routing.toy_options
          defaultPlacementOptions with
  | Ok r => r
  | Err _ => ([], true)
  end.
Example sample_groups_found :
  List.map (List.map (λ p, (cp_kind p, consumers p))) sample_groups.1 =
  [[(Replicate, [2; 4]); (Replicate, [2; 4]); (Replicate, [2; 4]); (Replicate, [2; 4])]; [(Direct, [3])]].
Proof. vm_compute. reflexivity. Qed.

Lemma enumerateFanOutAlternatives_partition_witness :
  ∃ members : list (list ConnectionRequest), length members = 2%nat ∧ List.concat members ≡ₚ sample_fan.
Proof.
  destruct (enumerateFanOutAlternatives_partition fan_machine Routing.toy_options defaultPlacementOptions ltac:(done)
    ltac:(done) ltac:(done) (sample_move 0 "pe.1" "dram.0") sample_fan sample_groups.1 sample_groups.2)
    as (members & Hp & HF); [vm_compute; reflexivity|].
  exists members. split; [rewrite (Forall2_length _ _ _ HF); vm_compute; reflexivity|exact Hp].
Defined.

Definition sample_served : list ConnectionPlan * bool * bool :=
  match synthesizeFanOut (sample_move 0 "pe.1" "dram.0") sample_fan fan_machine Routing.toy_options
          defaultPlacementOptions latency_first with
  | Ok r => r
  | Err _ => ([], true, false)
  end.

Lemma synthesizeFanOut_optimal_witness : ∃ groups, length groups = 2%nat ∧
  Forall2 (λ alternatives plan, Forall (λ p, comparable (cp_cost p)) alternatives →
    plan ∈ alternatives ∧ ∀ other, other ∈ alternatives → costLess (cp_cost other) (cp_cost plan) latency_first = false)
    groups sample_served.1.1.
Proof.
  destruct (synthesizeFanOut_optimal fan_machine Routing.toy_options defaultPlacementOptions
    (sample_move 0 "pe.1" "dram.0") sample_fan latency_first sample_served.1.1 sample_served.1.2 sample_served.2)
    as (groups & Hen & [[_ Hn]|[_ HF]]); [vm_compute; reflexivity|vm_compute in Hn; discriminate|].
  exists groups. split; [rewrite (Forall2_length _ _ _ HF); vm_compute; reflexivity|exact HF].
Defined.
