(* ===== verification/Signatures.v ===== *)
(** The identity of a measurement: include/LLK/Mapping/LatencyProvider.h,
    lib/Mapping/LatencyProvider.cpp, and [connectionSignatureFor] of
    lib/Mapping/CostEvent.cpp.

    A measured latency is reused for work whose signature has the same text.  The theorems:
    the text of a signature determines every field, of an operation and of a connection; and
    the signature of a connection determines what the connection does, but for the ids it
    joins with separators they may themselves contain. *)
From S2P Require Import Prelude Float MachineModel CostModel WorkloadGraph MappingPlan.
Open Scope string_scope.
Open Scope Z_scope.

Definition kCostModelVersion : Z := 3.
Definition kConnectionKeyVersion : Z := 3.

Record OperationSignature := mkOperation {
  sig_operation : string;
  operandTypes : string;
  resultTypes : string;
  sig_attributes : string;
  sig_rule : string;
  sig_ruleVersion : Z;
  sig_bundle : string;
  bundleParameters : string;
  sig_layout : string;
  placementClass : string;
  sig_placement : string;
  sig_compute : string;
  routeClass : string;
  costModelVersion : Z;
}.

Record TargetContext := mkContext { tc_target : string; tc_machineHash : string; tc_ruleHash : string; tc_layoutHash : string }.

Record ConnectionSignature := mkConnectionSignature {
  cs_kind : string;
  cs_valueType : string;
  producerEndpoint : string;
  consumerEndpoints : string;
  cs_route : string;
  cs_links : string;
  cs_engines : string;
  cs_maps : string;
  cs_parameters : string;
  cs_storage : string;
  keyVersion : Z;
}.

(** ** Texts *)
Definition delimited (name value stop : string) : string :=
  name +:+ "=" +:+ to_string (Z.of_nat (String.length value)) +:+ ":" +:+ value +:+ stop.
Definition appendField (out name value : string) : string := out +:+ delimited name value ";".

(** [name]s and values, in order. *)
Definition operationFields (s : OperationSignature) : list (string * string) :=
  [("operation", sig_operation s); ("operand_types", operandTypes s); ("result_types", resultTypes s);
   ("attributes", sig_attributes s); ("rule", sig_rule s); ("rule_version", to_string (sig_ruleVersion s));
   ("bundle", sig_bundle s); ("bundle_parameters", bundleParameters s); ("layout", sig_layout s);
   ("placement_class", placementClass s); ("placement", sig_placement s); ("compute", sig_compute s);
   ("route", routeClass s); ("cost_model", to_string (costModelVersion s))].
Definition operationCanonicalString (s : OperationSignature) : string :=
  foldl (λ out field, appendField out field.1 field.2) "" (operationFields s).

Definition connectionFields (s : ConnectionSignature) : list (string * string) :=
  [("kind", cs_kind s); ("value_type", cs_valueType s); ("producer", producerEndpoint s); ("consumers", consumerEndpoints s);
   ("route", cs_route s); ("links", cs_links s); ("engines", cs_engines s); ("maps", cs_maps s); ("parameters", cs_parameters s);
   ("storage", cs_storage s); ("key_version", to_string (keyVersion s))].
Definition connectionCanonicalString (s : ConnectionSignature) : string :=
  foldl (λ out field, appendField out field.1 field.2) "" (connectionFields s).

(** A measurement source answers for some of the work. *)
Record LatencyProvider := mkProvider {
  lookupOperation : OperationSignature → TargetContext → option double;
  lookupConnection : ConnectionSignature → TargetContext → option double;
}.

(** ** The signature of a connection *)
Section signature.
Context `{MLIRPrint}.

(** The first link of every hop. *)
Definition linksCrossed (machine : MachineModel) (route : list string) : list string :=
  omap (λ hop, link_id <$> List.find (λ l, bool_decide (source l = hop.1) && bool_decide (destination l = hop.2)) (links machine))
    (zip route (tail route)).

(** [print] writes a null map too. *)
Definition renderMap (map : option affine_map) : string := from_option printMap "<<NULL AFFINE MAP>>" map.

Definition mapsText (connection : ConnectionPlan) : string :=
  "producer=" +:+ mapString (producerMap connection) +:+
  ";consumers=" +:+ String.concat "," (sort_strings (renderMap <$> consumerMaps connection)) +:+
  from_option (λ t, ";transform_src=" +:+ mapString (lt_srcMap t) +:+ ";transform_dst=" +:+ mapString (lt_dstMap t)) ""
    (transform connection).

Definition component (parameters : string) (field : string * string) : string :=
  parameters +:+ (if str_empty parameters then "" else ";") +:+ delimited field.1 field.2 "".
Definition components (connection : ConnectionPlan) : list (string * string) :=
  from_option (λ t, [("src", srcLayout t); ("dst", dstLayout t)] ++
    (if str_empty (lt_computeResource t) then [] else [("compute", lt_computeResource t)]))%list [] (transform connection) ++
  from_option (λ g, ("gather", stringifyGatherSemantics g) ::
    from_option (λ axis, [("axis", to_string axis)]) [] (concatAxis connection)) [] (gatherSemantics connection).

Definition consumerRole (port : PortRef) : string := "consumer{" +:+ canonicalPortRefString port +:+ "}".

Definition valueTypeText (connection : ConnectionPlan) (workload : WorkloadGraph) : string :=
  from_option (λ v, from_option (λ t, typeString (Some t)) "" (v_type v)) "" (findValue workload (cp_value connection)).

Definition connectionSignatureFor (connection : ConnectionPlan) (workload : WorkloadGraph) (machine : MachineModel) :
    ConnectionSignature :=
  mkConnectionSignature
    (stringifyConnectionKind (cp_kind connection))
    (valueTypeText connection workload)
    (from_option (λ p, "producer{" +:+ canonicalPortRefString p +:+ "}") "" (producerPort connection))
    (String.concat "," (sort_strings (consumerRole <$> consumerPorts connection)))
    (String.concat ">" (memoryRoute connection))
    (String.concat ">" (linksCrossed machine (memoryRoute connection)))
    (String.concat ">" (transferEngines connection))
    (mapsText connection)
    (foldl component "" (components connection))
    (default "" (last (memoryRoute connection)) +:+ "#" +:+ to_string (localBytes (cp_cost connection)))
    kConnectionKeyVersion.
End signature.

(** ** Texts identify *)

(** A length-delimited field is read back off the front of any text. *)
Definition plain_name (name : string) : Prop := str_all (λ x, bool_decide (x ≠ "="%char)) name = true.

Lemma delimited_prefix n m stop v w s t : plain_name n → plain_name m →
  delimited n v stop +:+ s = delimited m w stop +:+ t → n = m ∧ v = w ∧ s = t.
Proof.
  intros Hn Hm. unfold delimited. rewrite !str_app_assoc, !str_app_cons, !str_app_nil_l.
  intros [-> Heq]%str_split_at; [|done|done]. apply to_string_split in Heq as [Hl Heq]; [|done].
  rewrite ?str_app_assoc in Heq.
  apply str_app_inj_length in Heq as [-> Heq]; [|lia].
  apply str_app_inj_length in Heq as [_ ->]; done.
Qed.

Lemma fields_text out fields : foldl (λ out field, appendField out field.1 field.2) out fields =
  out +:+ String.concat "" ((λ field, delimited field.1 field.2 ";") <$> fields).
Proof.
  revert out. induction fields as [|f fields IH]; intros out; [cbn; by rewrite str_app_nil_r|]. cbn [foldl]. rewrite IH.
  unfold appendField. rewrite fmap_cons, str_concat_cons. by rewrite str_app_assoc.
Qed.

Lemma fields_inj fs gs : length fs = length gs → Forall (λ f, plain_name f.1) fs → Forall (λ f, plain_name f.1) gs →
  foldl (λ out field, appendField out field.1 field.2) "" fs = foldl (λ out field, appendField out field.1 field.2) "" gs → fs = gs.
Proof.
  rewrite !fields_text, !str_app_nil_l. revert gs. induction fs as [|[n v] fs IH]; intros [|[m w] gs] Hl; try done.
  intros [Hn Hfs]%Forall_cons [Hm Hgs]%Forall_cons. rewrite !fmap_cons, !str_concat_cons. intros Heq.
  apply delimited_prefix in Heq as (Hnm & Hvw & Heq); [|done..]. cbn in Hnm, Hvw, Hl. subst. f_equal. apply IH; [lia|done..].
Qed.

Lemma operation_text_inj s t : operationCanonicalString s = operationCanonicalString t → s = t.
Proof.
  intros Heq. apply fields_inj in Heq; [|done|repeat constructor..]. destruct s, t. unfold operationFields in Heq. cbn in Heq.
  repeat match goal with H : _ :: _ = _ :: _ |- _ => injection H as ?? || injection H as ? end.
  repeat match goal with H : to_string _ = to_string _ |- _ => apply (inj pretty) in H end. by subst.
Qed.

Lemma connection_text_inj s t : connectionCanonicalString s = connectionCanonicalString t → s = t.
Proof.
  intros Heq. apply fields_inj in Heq; [|done|repeat constructor..]. destruct s, t. unfold connectionFields in Heq. cbn in Heq.
  repeat match goal with H : _ :: _ = _ :: _ |- _ => injection H as ?? || injection H as ? end.
  repeat match goal with H : to_string _ = to_string _ |- _ => apply (inj pretty) in H end. by subst.
Qed.

(** The text of a signature determines it: two pieces of work, or two connections, share a
    measurement only when every field of their signatures agrees, whatever characters the
    fields hold. *)
Theorem signature_texts_identify :
  (∀ s t, operationCanonicalString s = operationCanonicalString t ↔ s = t) ∧
  (∀ s t, connectionCanonicalString s = connectionCanonicalString t ↔ s = t).
Proof. split; intros s t; (split; [|by intros ->]); [apply operation_text_inj|apply connection_text_inj]. Qed.

(** ** What a connection signature determines *)

(** Entries that can be read back, joined by a separator. *)
Lemma concat_inj {A} (f : A → string) (c : Ascii.ascii) (P : A → Prop) :
  (∀ x y s t, P x → P y → f x +:+ s = f y +:+ t → x = y ∧ s = t) → (∀ x, P x → f x ≠ "") →
  ∀ xs ys, Forall P xs → Forall P ys → String.concat (String c "") (f <$> xs) = String.concat (String c "") (f <$> ys) → xs = ys.
Proof.
  intros Hf Hne. induction xs as [|x xs IH]; intros [|y ys] Hxs Hys; try done.
  - apply Forall_cons in Hys as [Hy _]. specialize (Hne y Hy). destruct ys; cbn; [congruence|]. destruct (f y); done.
  - apply Forall_cons in Hxs as [Hx _]. specialize (Hne x Hx). destruct xs; cbn; [congruence|]. destruct (f x); done.
  - apply Forall_cons in Hxs as [Hx Hxs], Hys as [Hy Hys]. intros Heq.
    assert (∀ z zs, String.concat (String c "") (f <$> z :: zs) = f z +:+ match zs with [] => "" | _ => String c (String.concat (String c "") (f <$> zs)) end) as Hc.
    { intros z [|z' zs]; cbn; [by rewrite str_app_nil_r|done]. }
    rewrite !Hc in Heq. apply Hf in Heq as [-> Heq]; [|done..]. f_equal. apply IH; [done..|].
    destruct xs, ys; try done. by injection Heq.
Qed.

Section determines.
Context `{MLIRPrint}.

Lemma portRef_prefix p q s t : canonicalPortRefString p +:+ "}" +:+ s = canonicalPortRefString q +:+ "}" +:+ t → p = q ∧ s = t.
Proof.
  assert (∀ n d i u, canonicalPortRefString (mkRef n d i) +:+ "}" +:+ u =
    "node=" +:+ to_string (Z.of_nat n) +:+ String "," ((if decide (d = Input) then "input=" else "output=") +:+
      to_string (Z.of_nat i) +:+ String "}" u)) as Hr.
  { intros n d i u. unfold canonicalPortRefString. cbn [ref_node direction ref_index].
    destruct (decide (d = Input)); by rewrite !str_app_assoc, ?str_app_cons, ?str_app_nil_l. }
  destruct p as [pn pd pi], q as [qn qd qi]. rewrite !Hr. intros Heq. apply str_app_inj_length in Heq as [_ Heq]; [|done].
  apply to_string_split in Heq as [Hn Heq]; [|done]. apply (inj Z.of_nat) in Hn as ->.
  assert (pd = qd) as -> by (destruct pd, qd; done).
  apply str_app_inj_length in Heq as [_ Heq]; [|done]. apply to_string_split in Heq as [Hi ->]; [|done].
  by apply (inj Z.of_nat) in Hi as ->.
Qed.

Lemma consumerRole_prefix p q s t : consumerRole p +:+ s = consumerRole q +:+ t → p = q ∧ s = t.
Proof.
  unfold consumerRole. rewrite !str_app_assoc. intros Heq. apply str_app_inj_length in Heq as [_ Heq]; [|done].
  by apply portRef_prefix.
Qed.

Lemma consumerRoles_perm ps qs : String.concat "," (sort_strings (consumerRole <$> ps)) = String.concat "," (sort_strings (consumerRole <$> qs)) →
  ps ≡ₚ qs.
Proof.
  assert (∀ xs, ∃ xs', sort_strings (consumerRole <$> xs) = consumerRole <$> xs' ∧ xs' ≡ₚ xs) as Hs.
  { intros xs. destruct (Permutation_map_inv (l1:=sort_strings (consumerRole <$> xs)) consumerRole xs) as (xs' & -> & Hp);
      [apply merge_sort_Permutation|]. by exists xs'. }
  destruct (Hs ps) as (ps' & -> & Hps), (Hs qs) as (qs' & -> & Hqs). intros Heq.
  apply (concat_inj consumerRole "," (λ _, True)) in Heq as ->; [by rewrite <- Hps|..]; [|done|by apply Forall_true..].
  intros x y s t _ _. apply consumerRole_prefix.
Qed.

(** An accumulated field list is the list joined by semicolons. *)
Lemma components_text fs : foldl component "" fs = String.concat ";" ((λ f, delimited f.1 f.2 "") <$> fs).
Proof.
  destruct fs as [|f fs]; [done|]. cbn [foldl]. change (component "" f) with (delimited f.1 f.2 "").
  assert (∀ out, out ≠ "" → foldl component out fs = out +:+ String.concat "" ((λ f, ";" +:+ delimited f.1 f.2 "") <$> fs)) as Hall.
  { induction fs as [|g fs IH]; intros out Hne; [cbn; by rewrite str_app_nil_r|]. cbn [foldl]. rewrite IH.
    - unfold component. unfold str_empty. rewrite bool_decide_false by done. by rewrite fmap_cons, str_concat_cons, !str_app_assoc.
    - unfold component. destruct out; done. }
  rewrite Hall by (unfold delimited; destruct f.1; done). clear Hall. revert f. induction fs as [|g fs IH]; intros f; [cbn; by rewrite str_app_nil_r|].
  rewrite fmap_cons, str_concat_cons, str_app_assoc, IH. done.
Qed.

Lemma components_inj fs gs : Forall (λ f, plain_name f.1) fs → Forall (λ f, plain_name f.1) gs →
  foldl component "" fs = foldl component "" gs → fs = gs.
Proof.
  intros Hfs Hgs. rewrite !components_text. apply (concat_inj (λ f, delimited f.1 f.2 "") ";" (λ f, plain_name f.1)); [| |done..].
  - intros [n v] [m w] s t Hn Hm Heq. apply delimited_prefix in Heq as (? & ? & ->); [|done..]. cbn in *. by subst.
  - intros [n v] _. unfold delimited. cbn. by destruct n.
Qed.

(** Ids that keep apart when they are joined. *)
Definition RouteId (id : string) : Prop := id ≠ "" ∧ str_all (λ x, bool_decide (x ≠ ">"%char)) id = true.

Lemma route_inj xs ys : Forall RouteId xs → Forall RouteId ys → String.concat ">" xs = String.concat ">" ys → xs = ys.
Proof.
  assert (∀ z zs, String.concat ">" (z :: zs) = z +:+ match zs with [] => "" | _ => String ">" (String.concat ">" zs) end) as Hc.
  { intros z [|z' zs]; cbn; [by rewrite str_app_nil_r|done]. }
  assert (∀ x y s, str_all (λ x, bool_decide (x ≠ ">"%char)) x = true → x ≠ y +:+ String ">" s) as Hno.
  { intros x y s Hx ->. rewrite str_all_app in Hx. cbn in Hx. rewrite bool_decide_false in Hx by tauto. by rewrite andb_false_r in Hx. }
  revert ys. induction xs as [|x xs IH]; intros [|y ys] Hxs Hys Heq; try done.
  - apply Forall_cons in Hys as [[Hy _] _]. rewrite Hc in Heq. by destruct y.
  - apply Forall_cons in Hxs as [[Hx _] _]. rewrite Hc in Heq. by destruct x.
  - apply Forall_cons in Hxs as [[Hx Hxp] Hxs], Hys as [[Hy Hyp] Hys]. rewrite !Hc in Heq.
    destruct xs as [|x' xs], ys as [|y' ys]; rewrite ?str_app_nil_r in Heq.
    + by rewrite Heq.
    + by apply Hno in Heq.
    + symmetry in Heq. by apply Hno in Heq.
    + apply str_split_at in Heq as [-> Heq]; [|done..]. f_equal. by apply IH.
Qed.

Lemma components_plain connection : Forall (λ f, plain_name f.1) (components connection).
Proof.
  unfold components. apply Forall_app. split.
  - destruct (transform connection) as [t|]; [|done]. cbn. destruct (str_empty _); repeat constructor.
  - destruct (gatherSemantics connection) as [g|]; [|done]. cbn. destruct (concatAxis connection); repeat constructor.
Qed.

Lemma components_determine c d : components c = components d →
  (λ t, (srcLayout t, dstLayout t, lt_computeResource t)) <$> transform c = (λ t, (srcLayout t, dstLayout t, lt_computeResource t)) <$> transform d ∧
  gatherSemantics c = gatherSemantics d ∧ (is_Some (gatherSemantics c) → concatAxis c = concatAxis d).
Proof.
  unfold components. intros Heq.
  destruct (transform c) as [t|], (transform d) as [u|]; cbn in Heq;
    repeat match type of Heq with context [str_empty ?x] => let E := fresh "E" in destruct (str_empty x) eqn:E; unfold str_empty in E end;
    destruct (gatherSemantics c) as [g|], (gatherSemantics d) as [h|]; cbn in Heq;
    destruct (concatAxis c) as [a|], (concatAxis d) as [b|]; cbn in Heq; try done; simplify_eq/=.
  all: repeat match goal with
    | H : bool_decide _ = true |- _ => apply bool_decide_eq_true in H
    | H : bool_decide _ = false |- _ => apply bool_decide_eq_false in H
    | H : stringifyGatherSemantics ?g = stringifyGatherSemantics ?h |- _ =>
        apply (f_equal symbolizeGatherSemantics) in H; rewrite !symbolize_stringify_gather in H; injection H as ->
    end; try (split_and!; [congruence|done|done]); try done.
Qed.

(** C36: Two connections that share a measurement key are the same movement: one kind, a value
    type of one text, the same producer port, the same consumer ports in any order, the same
    layouts and resource of their transform, the same way of gathering, the same final memory
    and bytes; and, when no memory or engine id is empty or holds the separator, the same
    route through the same engines. *)
Theorem connection_signature_determines c d graph graph' machine machine' :
  connectionSignatureFor c graph machine = connectionSignatureFor d graph' machine' →
  (cp_kind c = cp_kind d ∧ valueTypeText c graph = valueTypeText d graph') ∧
  (producerPort c = producerPort d ∧ consumerPorts c ≡ₚ consumerPorts d) ∧
  ((λ t, (srcLayout t, dstLayout t, lt_computeResource t)) <$> transform c = (λ t, (srcLayout t, dstLayout t, lt_computeResource t)) <$> transform d ∧
    gatherSemantics c = gatherSemantics d ∧ (is_Some (gatherSemantics c) → concatAxis c = concatAxis d)) ∧
  (default "" (last (memoryRoute c)) = default "" (last (memoryRoute d)) ∧ localBytes (cp_cost c) = localBytes (cp_cost d)) ∧
  (Forall RouteId (memoryRoute c) → Forall RouteId (memoryRoute d) → memoryRoute c = memoryRoute d) ∧
  (Forall RouteId (transferEngines c) → Forall RouteId (transferEngines d) → transferEngines c = transferEngines d).
Proof.
  intros Heq. unfold connectionSignatureFor in Heq. injection Heq as Hkind Htype Hprod Hcons Hroute _ Heng _ Hparam Hstore.
  apply components_inj in Hparam; [|apply components_plain..]. apply components_determine in Hparam.
  apply consumerRoles_perm in Hcons.
  split_and!; try (by apply Hparam); try done.
  - apply (f_equal symbolizeConnectionKind) in Hkind. rewrite !symbolize_stringify_kind in Hkind. by injection Hkind.
  - destruct (producerPort c) as [p|], (producerPort d) as [q|]; try done. f_equal.
    apply str_app_inj_length in Hprod as [_ Hprod]; [|done]. by apply (portRef_prefix p q "" "").
  - by apply to_string_split_last in Hstore as [? _].
  - by apply to_string_split_last in Hstore as [_ ?].
  - intros Hc Hd. by apply route_inj.
  - intros Hc Hd. by apply route_inj.
Qed.
End determines.

(** ** Concrete connections *)
Section witness.
#[local] Existing Instance sample_types.
#[local] Existing Instance sample_text.
#[local] Existing Instance sample_print.

Definition key_connection (route engines : list string) (consumers : list PortRef) : ConnectionPlan :=
  mkConnection 1 1 [2] (Some (mkRef 0 Output 0)) consumers [] None None 0 MappingPlan.Transfer route engines None []
    (Some (mkTransform "row" "tiled" None None "sram.0" "")) (mkCost dzero 0 256 0 dzero dzero) None.
Definition key_of (c : ConnectionPlan) : ConnectionSignature := connectionSignatureFor c (mkGraph [] []) sample_machine.

Example key_text : connectionCanonicalString (key_of (key_connection ["dram.0"; "sram.0"] ["dma.0"] [mkRef 1 Input 0])) =
  "kind=8:transfer;value_type=0:;producer=25:producer{node=0,output=0};consumers=24:consumer{node=1,input=0};route=13:dram.0>sram.0;links=12:dram_to_sram;engines=5:dma.0;maps=68:producer=<null>;consumers=;transform_src=<null>;transform_dst=<null>;parameters=21:src=3:row;dst=5:tiled;storage=10:sram.0#256;key_version=1:3;".
Proof. vm_compute. reflexivity. Qed.

(** A memory whose id holds the separator makes two routes one. *)
Example joined_routes_collide :
  connectionCanonicalString (key_of (key_connection ["a"; "b"; "c"] [] [])) =
  connectionCanonicalString (key_of (key_connection ["a>b"; "c"] [] [])).
Proof. vm_compute. reflexivity. Qed.

Lemma connection_signature_determines_witness :
  [mkRef 1 Input 0; mkRef 1 Input 1] ≡ₚ [mkRef 1 Input 1; mkRef 1 Input 0] ∧ ["dram.0"; "sram.0"] = ["dram.0"; "sram.0"].
Proof.
  assert (key_of (key_connection ["dram.0"; "sram.0"] ["dma.0"] [mkRef 1 Input 0; mkRef 1 Input 1]) =
    key_of (key_connection ["dram.0"; "sram.0"] ["dma.0"] [mkRef 1 Input 1; mkRef 1 Input 0])) as Heq by (vm_compute; reflexivity).
  destruct (connection_signature_determines _ _ _ _ _ _ Heq) as (_ & (_ & Hp) & _ & _ & Hr & _).
  split; [exact Hp|]. apply Hr; repeat constructor; discriminate.
Defined.
End witness.
