(* ===== verification/PlanEvents.v ===== *)
(** The event stream of a plan: lib/Mapping/CostEvent.cpp, without the measurement
    signature of a connection.

    [buildPlanEvents] turns the steps of a plan into the events the scheduler places: a
    compute event per compute step, a transfer and a wait per hop of a movement, the
    conversion or combination at its end, and the barriers the plan asks for, with the
    dependencies that order them.  An analysis snapshot attached to a plan is checked and
    returned instead.  The theorems: every event of the stream names modelled resources
    and existing, distinct dependencies; the data edge of a movement orders it before its
    consumer in every schedule; emitting a route hop by hop gives the transfers of
    emitting it whole; an accepted snapshot describes the plan's own work. *)
From S2P Require Import Prelude Float MachineModel CostModel WorkloadGraph TileFacts EventSchedule MappingPlan StorageLiveness StorageFootprint.
Open Scope string_scope.
Open Scope Z_scope.

(** ** Engines and links *)

(** The first vector engine, or matrix engine, or engine. *)
Definition preferredEngine (attached : list ComputeNode) : option ComputeNode :=
  match List.find (λ node, bool_decide (cmp_kind node = "vector_engine")) attached with
  | Some node => Some node
  | None =>
    match List.find (λ node, bool_decide (cmp_kind node = "matrix_engine")) attached with
    | Some node => Some node
    | None => head attached
    end
  end.

Definition engineForExecutor (machine : MachineModel) (executor : string) : option ComputeNode :=
  let declared :=
    match computesOfKind machine "vector_engine" with
    | node :: _ => Some node
    | [] =>
      match computesOfKind machine "matrix_engine" with
      | node :: _ => Some node
      | [] => head (computes machine)
      end
    end in
  if str_empty executor then declared
  else match preferredEngine (computesFor machine executor) with Some node => Some node | None => declared end.

Definition linkBetween (machine : MachineModel) (from to : string) : option LinkEdge :=
  List.find (λ edge, bool_decide (MachineModel.source edge = from) && bool_decide (destination edge = to)) (links machine).

(** ** What refuses a stream *)
Inductive plan_event_error :=
| RecordsUnknownCompute (node : nat) (compute : string)
| NotAttached (node : nat) (compute executor : string)
| MissingBinding (node : nat) (k : string)
| UnknownTransformResource (connection : Z) (resource : string)
| EmptySnapshot
| InvalidStream (e : event_error)
| NamesStep (event : nat) (step : Z)
| NamesConnection (event : nat) (connection : Z)
| NoExecutionFacts (node : nat)
| Uncovered (step : Z) (node : nat)
| NoComputeFor (node : nat)
| NoComputeForGather (connection : Z)
| NoComputeForTransform (connection : Z)
| MemoryUnresolved (value node : nat) (e : endpoint_error)
| TooManyOccurrences (allocation occurrences : Z)
| TooManyTransformed (allocation occurrences : Z)
| UnknownConnection (step connection : Z)
| NoMaps (connection : Z)
| NoSuchHop (step : Z) (hop : option Z) (connection : Z)
| UnknownMemoryOn (connection : Z)
| UndeclaredLink (connection : Z) (from to : string)
| NoSemantics (connection : Z)
| NoFeeds (connection : Z)
| TransformFailed (connection : Z) (e : cost_error)
| DecodedPlan.

Definition kMaxEnumeratedOccurrences : Z := 4096.

Section engines.
Context `{MLIRPrint}.

(** The loop of [recordedComputeNode]: the first vector engine, the first matrix engine and
    the first other selection so far. *)
Definition Selected : Type := option ComputeNode * option ComputeNode * option ComputeNode.
Definition select (found : Selected) (node : ComputeNode) : Selected :=
  let '(v, m, o) := found in
  if bool_decide (cmp_kind node = "vector_engine") && bool_decide (v = None) then (Some node, m, o)
  else if bool_decide (cmp_kind node = "matrix_engine") && bool_decide (m = None) then (v, Some node, o)
  else if bool_decide (o = None) then (v, m, Some node) else found.

Definition recordOne (machine : MachineModel) (placement : PlanPlacement) (found : Selected) (id : string) :
    result plan_event_error Selected :=
  match findCompute machine id with
  | None => Err (RecordsUnknownCompute (pp_node placement) id)
  | Some node =>
    fail! (NotAttached (pp_node placement) id (pp_executor placement))
      when negb (str_empty (pp_executor placement)) && bool_decide (cmp_attachedTo node ≠ pp_executor placement);
    Ok (select found node)
  end.

(** The bindings in the order of their keys. *)
Definition recordedComputeNode (machine : MachineModel) (placement : PlanPlacement) :
    result plan_event_error (option ComputeNode) :=
  '(v, m, o) ← fold_result (recordOne machine placement) (None, None, None) (in_order (pp_computeBindings placement)).*2;
  Ok (match v, m with Some node, _ => Some node | None, Some node => Some node | None, None => o end).

Definition recordedEngineForPlacement (machine : MachineModel) (placement : PlanPlacement) :
    result plan_event_error (option ComputeNode) :=
  match missingComputeBinding placement with
  | Some missing => Err (MissingBinding (pp_node placement) missing)
  | None => recordedComputeNode machine placement
  end.

Definition transformEngineFor (connection : PlanConnection) (machine : MachineModel) (plan : CoveringPlan) :
    result plan_event_error (option ComputeNode) :=
  let fallback := Ok (engineForExecutor machine (transformExecutorFor plan connection)) in
  match pc_transform connection with
  | None => fallback
  | Some t =>
    let recorded := lt_computeResource t in
    if str_empty recorded then fallback
    else match findCompute machine recorded with
         | None => Err (UnknownTransformResource (pc_id connection) recorded)
         | Some node => Ok (Some node)
         end
  end.

Definition consumerPlacementOf (plan : CoveringPlan) (connection : PlanConnection) : option PlanPlacement :=
  List.find (λ placement, bool_decide (pp_instance placement ∈ pc_consumers connection)) (placements plan).

Definition consumerNodeOf (plan : CoveringPlan) (connection : PlanConnection) : option nat :=
  pp_node <$> List.find (λ placement, List.existsb (λ consumer, bool_decide (pp_instance placement = consumer))
                                        (pc_consumers connection)) (placements plan).

(** ** Snapshots *)
Definition checkNames (stepIds connectionIds : list Z) (index : nat) (e : PlanCostEvent) : result plan_event_error unit :=
  _ ← match planStep e with
      | Some step => fail_if (negb (contains stepIds step)) (NamesStep index step)
      | None => Ok ()
      end;
  match connectionId e with
  | Some connection => fail_if (negb (contains connectionIds connection)) (NamesConnection index connection)
  | None => Ok ()
  end.

Definition verifyPlanAnalysisStream (plan : CoveringPlan) (dag : PlanEventDAG) (machine : MachineModel) :
    result plan_event_error unit :=
  fail! EmptySnapshot when bool_decide (length (events dag) = 0%nat);
  _ ← match validateEventResources dag machine with Ok _ => Ok () | Err e => Err (InvalidStream e) end;
  _ ← for_each (λ placement, _ ← recordedEngineForPlacement machine placement; Ok ()) (placements plan);
  for_each_from 0 (checkNames (st_id <$> steps plan) (pc_id <$> connectionPlans plan)) (events dag).

Definition with_analysis (p : CoveringPlan) (snapshot : option PlanEventDAG) : CoveringPlan :=
  mkPlan (plan_id p) (sourceBindingHash p) (sourceBindingCandidate p) (instances p) (connections p) (placements p)
    (connectionPlans p) (globalParameters p) (totalCost p) (accumulatedCost p) (scoreSource p) snapshot
    (shapeSamples p) (shapeAggregation p) (shapeMaxVariants p) (shapeProfileCanonical p) (diagnostics p)
    (schemaVersion p) (materialized p) (graphHash p) (targetHash p) (machineHash p) (layoutHash p) (ruleHash p)
    (allocations p) (synchronization p) (steps p) (stepEdges p).

Definition attachPlanAnalysisEvents (plan : CoveringPlan) (dag : PlanEventDAG) (machine : MachineModel) :
    result plan_event_error CoveringPlan :=
  fail! DecodedPlan when bool_decide (schemaVersion plan ≠ 0);
  let snapshot := mkDAG (events dag) Snapshot in
  _ ← verifyPlanAnalysisStream plan snapshot machine;
  Ok (with_analysis plan (Some snapshot)).
End engines.

(** ** Steps *)
#[export] Instance PlanStepKind_eq_dec : EqDecision PlanStepKind.
Proof. solve_decision. Defined.

Definition stepLe (l r : PlanStep) : Prop := st_id l <= st_id r.
#[export] Instance stepLe_dec : RelDecision stepLe.
Proof. intros l r. unfold stepLe. apply _. Defined.

Section steps.
Context `{MLIRPrint}.

Definition connectionLe (l r : PlanConnection) : Prop := pc_id l <= pc_id r.
#[export] Instance connectionLe_dec : RelDecision connectionLe.
Proof. intros l r. unfold connectionLe. apply _. Defined.

(** The last placement of a node, and of an instance. *)
Definition placementForNode (plan : CoveringPlan) : gmap nat PlanPlacement :=
  foldl (λ m placement, <[pp_node placement := placement]> m) ∅ (placements plan).
Definition nodeForInstance (plan : CoveringPlan) : gmap Z nat :=
  foldl (λ m placement, <[pp_instance placement := pp_node placement]> m) ∅ (placements plan).

(** A plan without steps: a compute step per placed node in node order, then a movement and a
    wait per connection that materializes one, in connection order. *)
Definition synthesizedComputes (plan : CoveringPlan) : list nat := EventSchedule.sortUnique (pp_node <$> placements plan).
Definition computeStepOf (plan : CoveringPlan) (node : nat) : option Z :=
  (λ e, Z.of_nat e.1) <$> list_find (λ n, n = node) (synthesizedComputes plan).

Definition producerEdges (plan : CoveringPlan) (connection : PlanConnection) (movement : Z) : list PlanStepEdge :=
  match pc_producerPort connection with
  | None => []
  | Some port =>
    match computeStepOf plan (ref_node port) with Some step => [mkEdge step movement] | None => [] end
  end.
Definition consumerEdges (plan : CoveringPlan) (connection : PlanConnection) (sync : Z) : list PlanStepEdge :=
  omap (λ consumer,
    node ← nodeForInstance plan !! consumer;
    step ← computeStepOf plan node;
    Some (mkEdge sync step)) (pc_consumers connection).

Fixpoint synthesizeMovements (plan : CoveringPlan) (next : Z) (cs : list PlanConnection) :
    list PlanStep * list PlanStepEdge :=
  match cs with
  | [] => ([], [])
  | connection :: cs =>
    if decide (pc_kind connection = Direct) then synthesizeMovements plan next cs
    else
      let movement := next in
      let sync := next + 1 in
      let '(ss, es) := synthesizeMovements plan (next + 2) cs in
      (mkStep movement MovementStep 0 (pc_id connection) None ::
       mkStep sync SynchronizationStepKind 0 (pc_id connection) None :: ss,
       producerEdges plan connection movement ++ mkEdge movement sync :: consumerEdges plan connection sync ++ es)%list
  end.

Definition synthesizeSteps (plan : CoveringPlan) : list PlanStep * list PlanStepEdge :=
  let nodes := synthesizedComputes plan in
  let '(ss, es) := synthesizeMovements plan (Z.of_nat (length nodes)) (merge_sort connectionLe (connectionPlans plan)) in
  ((imap (λ i node, mkStep (Z.of_nat i) ComputeStep node 0 None) nodes ++ ss)%list, es).

Definition executionStructure (plan : CoveringPlan) : list PlanStep * list PlanStepEdge :=
  if decide (steps plan = []) then synthesizeSteps plan else (steps plan, stepEdges plan).

(** ** The storage an event touches *)

(** The value whose storage a value occupies: at most 64 steps back along carried values. *)
Fixpoint storageValue_loop (guard : nat) (graph : WorkloadGraph) (value : nat) : nat :=
  match guard with
  | O => value
  | S guard =>
    match findValue graph value ≫= carriedFrom with
    | None => value
    | Some next => if decide (next = value) then value else storageValue_loop guard graph next
    end
  end.
Definition storageValueOf (graph : WorkloadGraph) (value : nat) : nat := storageValue_loop 64 graph value.

Definition allocationOf (plan : CoveringPlan) (id : Z) : option StorageAllocation :=
  List.find (λ a, bool_decide (al_id a = id)) (allocations plan).

(** One use per resident occurrence, numbered from [base]. *)
Definition usesOf (allocation occurrences base : Z) (access : StorageAccess) : list StorageUse :=
  (λ step, mkUse allocation (u64 (base + step)) access) <$> seqZ 0 occurrences.
End steps.

Section uses.
Context `{MLIRTiles} `{!MLIRPrint}.

Definition emitUse (graph : WorkloadGraph) (plan : CoveringPlan) (machine : MachineModel) (placed : PlanPlacement)
    (node : nat) (base : Z) (port : WorkloadPort) (dir : PortDirection) (index : nat) (access : StorageAccess) :
    result plan_event_error (list StorageUse) :=
  let value := storageValueOf graph (p_value port) in
  match resolveEndpointMemory graph placed (mkRef node dir index) machine with
  | Err e => Err (MemoryUnresolved value node e)
  | Ok resolved =>
    match List.find (λ a, bool_decide (al_value a = Z.of_nat value) && bool_decide (al_memory a = em_memory resolved))
            (allocations plan) with
    | None => Ok []
    | Some chosen =>
      fail! (TooManyOccurrences (al_id chosen) (simultaneousOccurrences chosen))
        when bool_decide (kMaxEnumeratedOccurrences < simultaneousOccurrences chosen);
      Ok (usesOf (al_id chosen) (simultaneousOccurrences chosen) base access)
    end
  end.

Definition emitUses (graph : WorkloadGraph) (plan : CoveringPlan) (machine : MachineModel) (placed : PlanPlacement)
    (node : nat) (base : Z) (ports : list WorkloadPort) (dir : PortDirection) (access : StorageAccess) :
    result plan_event_error (list StorageUse) :=
  uses ← mapM (λ e, emitUse graph plan machine placed node base e.2 dir e.1 access) (imap pair ports);
  Ok (concat uses).

(** Reads before writes, each in port order; nothing without a graph. *)
Definition storageUsesFor (graph : option WorkloadGraph) (plan : CoveringPlan) (machine : MachineModel)
    (placed : PlanPlacement) (node : nat) (base : Z) : result plan_event_error (list StorageUse) :=
  match graph with
  | None => Ok []
  | Some graph =>
    match findNode graph node with
    | None => Ok []
    | Some workloadNode =>
      reads ← emitUses graph plan machine placed node base (inputs workloadNode) Input Read;
      writes ← emitUses graph plan machine placed node base (outputs workloadNode) Output Write;
      Ok (reads ++ writes)%list
    end
  end.

(** ** One step *)
Variable cast_out_of_range : double → Z.

(** [static_cast<uint64_t>(std::ceil(x))]. *)
Definition ceilCycles (x : double) : Z :=
  match ceil_Z x with
  | Some c => if decide (in_u64 c) then c else cast_out_of_range x
  | None => cast_out_of_range x
  end.

Definition hopCycles (link : LinkEdge) (bytes : Z) : Z :=
  if dltb dzero (link_bandwidth link)
  then u64 (link_latency link + ceilCycles (ddiv (double_of_Z bytes) (link_bandwidth link)))
  else link_latency link.

Definition hopResource (link : LinkEdge) : string := default "dma" (head (link_engines link)).

(** An event with the fields its maker leaves empty. *)
Definition annotate (e : PlanCostEvent) (own src dst node : string) (occurrence : Z) (step connection : option Z)
    (hop : Z) (uses : list StorageUse) : PlanCostEvent :=
  mkPlanEvent (event e) (EventSchedule.workItems e) (ev_bytes e) (sourceBytes e) (destinationBytes e) (fillElements e)
    (deps e) own src dst node occurrence step connection hop uses.

(** The uses of one side of a recorded hop; no storage is id 0. *)
Definition hopUses (plan : CoveringPlan) (storageId base : Z) (access : StorageAccess) :
    result plan_event_error (list StorageUse) :=
  if decide (storageId = 0) then Ok []
  else
    let occurrences := from_option simultaneousOccurrences 1 (allocationOf plan storageId) in
    fail! (TooManyOccurrences storageId occurrences) when bool_decide (kMaxEnumeratedOccurrences < occurrences);
    Ok (usesOf storageId occurrences base access).

Definition recordedHopUses (plan : CoveringPlan) (connection : PlanConnection) (hop : nat) :
    result plan_event_error (list StorageUse) :=
  let base := u64 (Z.lor (Z.shiftl (pc_id connection) 32) 1) in
  match hops connection !! hop with
  | None => Ok []
  | Some recorded =>
    reads ← hopUses plan (sourceStorageId recorded) base Read;
    writes ← hopUses plan (destinationStorageId recorded) base Write;
    Ok (reads ++ writes)%list
  end.

(** One hop, between the memories [hop] and [hop + 1] of the route: the transfer, with the id
    [next], and its wait. *)
Definition emitHop (plan : CoveringPlan) (machine : MachineModel) (connection : PlanConnection) (stepId : Z)
    (chain : option nat) (next hop : nat) : result plan_event_error (list PlanCostEvent) :=
  match pc_route connection !! hop ≫= findMemory machine, pc_route connection !! S hop ≫= findMemory machine with
  | Some src, Some dst =>
    match linkBetween machine (mem_id src) (mem_id dst) with
    | None => Err (UndeclaredLink (pc_id connection) (mem_id src) (mem_id dst))
    | Some link =>
      let bytes := localBytes (pc_cost connection) in
      uses ← recordedHopUses plan connection hop;
      let transfer :=
        annotate (makePlanCostEvent TransferHop (hopResource link) (double_of_Z (hopCycles link bytes))
                    (pc_workItems connection) bytes (option_list chain))
          "" (mem_id src) (mem_id dst) "" 0 (Some stepId) (Some (pc_id connection)) (Z.of_nat hop) uses in
      let wait :=
        annotate (makePlanCostEvent Synchronization "sync" (double_of_Z (waitCycles (MachineModel.sync machine))) 0 0 [next])
          "" "" "" "" 0 (Some stepId) (Some (pc_id connection)) (Z.of_nat hop) [] in
      Ok [transfer; wait]
    end
  | _, _ => Err (UnknownMemoryOn (pc_id connection))
  end.

(** The hops from [hop] on, each after the wait of the one before. *)
Fixpoint emitHopsFrom (plan : CoveringPlan) (machine : MachineModel) (connection : PlanConnection) (stepId : Z)
    (chain : option nat) (next hop count : nat) : result plan_event_error (list PlanCostEvent) :=
  match count with
  | O => Ok []
  | S count =>
    es ← emitHop plan machine connection stepId chain next hop;
    rest ← emitHopsFrom plan machine connection stepId (Some (S next)) (S (S next)) (S hop) count;
    Ok (es ++ rest)%list
  end.

Definition routeHops (connection : PlanConnection) : nat := pred (length (pc_route connection)).

Definition emitHops (plan : CoveringPlan) (machine : MachineModel) (connection : PlanConnection) (step : PlanStep)
    (chain : option nat) (next : nat) : result plan_event_error (list PlanCostEvent) :=
  let first := from_option (λ hop, Z.to_nat hop) O (st_hop step) in
  let count := match st_hop step with Some _ => 1%nat | None => routeHops connection end in
  fail! (NoSuchHop (st_id step) (st_hop step) (pc_id connection))
    when bool_decide (0 < count ∧ length (pc_route connection) < S first + count)%nat;
  emitHopsFrom plan machine connection (st_id step) chain next first count.

(** The same hops once per producer of a gather, each from the start; with the last event of
    each feed that has one. *)
Fixpoint emitFeeds (plan : CoveringPlan) (machine : MachineModel) (connection : PlanConnection) (step : PlanStep)
    (next feeds : nat) : result plan_event_error (list PlanCostEvent * list nat) :=
  match feeds with
  | O => Ok ([], [])
  | S feeds =>
    es ← emitHops plan machine connection step None next;
    '(rest, tails) ← emitFeeds plan machine connection step (next + length es)%nat feeds;
    Ok ((es ++ rest)%list, if decide (es = []) then tails else pred (next + length es)%nat :: tails)
  end.

(** The combination of a gather, on the engine the serving placement recorded. *)
Definition emitGather (plan : CoveringPlan) (machine : MachineModel) (connection : PlanConnection) (step : PlanStep)
    (next : nat) : result plan_event_error (list PlanCostEvent) :=
  fail! (NoSemantics (pc_id connection)) when bool_decide (pc_gatherSemantics connection = None);
  let feeds := length (pc_producerPorts connection) in
  fail! (NoFeeds (pc_id connection)) when bool_decide (feeds = 0%nat);
  '(es, tails) ← emitFeeds plan machine connection step next feeds;
  recorded ← match consumerPlacementOf plan connection with
             | Some consumer => recordedEngineForPlacement machine consumer
             | None => Ok None
             end;
  let engine := match recorded with
                | Some engine => Some engine
                | None => engineForExecutor machine (transformExecutorFor plan connection)
                end in
  match engine with
  | None => Err (NoComputeForGather (pc_id connection))
  | Some engine =>
    let dtype := elementTypeName (elementTypeOf (pc_valueType connection)) in
    let items := pc_workItems connection in
    Ok (es ++ [makePlanCostEvent Compute (cmp_id engine) (double_of_Z (elementwiseCycles engine dtype items)) items 0 tails])%list
  end.

(** A conversion reads the slot before it and writes the one after it, once per resident
    occurrence of the latter. *)
Definition transformUses (plan : CoveringPlan) (connection : PlanConnection) : result plan_event_error (list StorageUse) :=
  match storageIds connection with
  | first :: (_ :: _) as ids =>
    let source := from_option destinationStorageId first (last (hops connection)) in
    let dest := List.last ids 0 in
    let occurrences := from_option simultaneousOccurrences 1 (allocationOf plan dest) in
    fail! (TooManyTransformed dest occurrences) when bool_decide (kMaxEnumeratedOccurrences < occurrences);
    let base := u64 (Z.lor (Z.shiftl (pc_id connection) 32) (2 ^ 31)) in
    Ok (concat ((λ index, [mkUse source (u64 (base + index)) Read; mkUse dest (u64 (base + index)) Write])
                  <$> seqZ 0 occurrences))
  | _ => Ok []
  end.

Definition emitTransform (plan : CoveringPlan) (machine : MachineModel) (connection : PlanConnection)
    (t : LayoutTransform) (stepId : Z) (chain : option nat) : result plan_event_error PlanCostEvent :=
  engine ← transformEngineFor connection machine plan;
  match engine with
  | None => Err (NoComputeForTransform (pc_id connection))
  | Some engine =>
    let type := match tileAsTensor (pc_valueType connection) with Some t => Some t | None => pc_valueType connection end in
    let input := mkTransformInput type type (lt_srcMap t) (lt_dstMap t) (List.last (pc_route connection) "") (cmp_id engine) in
    match estimateTransformCost input machine with
    | Err e => Err (TransformFailed (pc_id connection) e)
    | Ok cost =>
      uses ← transformUses plan connection;
      Ok (annotate (makePlanCostEvent Transform (cmp_id engine) (latencyCycles cost) (pc_workItems connection)
                      (localBytes cost) (option_list chain))
            "" "" "" "" 0 (Some stepId) (Some (pc_id connection)) 0 uses)
    end
  end.

(** Only the last hop of a movement converts. *)
Definition finalMovement (connection : PlanConnection) (step : PlanStep) : bool :=
  match st_hop step with
  | None => true
  | Some hop => bool_decide (hop + 2 = Z.of_nat (length (pc_route connection)))
  end.

Definition emitMovement (plan : CoveringPlan) (machine : MachineModel) (connection : PlanConnection) (step : PlanStep)
    (next : nat) : result plan_event_error (list PlanCostEvent) :=
  fail! (NoMaps (pc_id connection))
    when bool_decide (pc_kind connection = LayoutTransformKind ∨ pc_kind connection = TransferAndTransform) &&
         bool_decide (pc_transform connection = None);
  if decide (pc_kind connection = Reduce) then emitGather plan machine connection step next
  else
    es ← emitHops plan machine connection step None next;
    let chain := if decide (es = []) then None else Some (pred (next + length es)%nat) in
    match pc_transform connection with
    | Some t =>
      if finalMovement connection step then
        transformed ← emitTransform plan machine connection t (st_id step) chain;
        Ok (es ++ [transformed])%list
      else Ok es
    | None => Ok es
    end.

Definition emitCompute (graph : option WorkloadGraph) (plan : CoveringPlan) (machine : MachineModel) (step : PlanStep) :
    result plan_event_error (list PlanCostEvent) :=
  match placementForNode plan !! st_node step with
  | None => Err (Uncovered (st_id step) (st_node step))
  | Some placed =>
    recorded ← recordedEngineForPlacement machine placed;
    match (match recorded with Some engine => Some engine | None => engineForExecutor machine (pp_executor placed) end) with
    | None => Err (NoComputeFor (st_node step))
    | Some engine =>
      let node := Z.of_nat (st_node step) in
      let base := u64 (Z.lor (Z.shiftl node 32) 1) in
      uses ← storageUsesFor graph plan machine placed (st_node step) base;
      Ok [annotate (makePlanCostEvent Compute (cmp_id engine) (latencyCycles (pp_cost placed)) (pp_workItems placed) 0 [])
            (pp_executor placed) "" "" (to_string node) base (Some (st_id step)) None 0 uses]
    end
  end.

(** ** The stream *)
Record Emission := mkEmission {
  em_events : list PlanCostEvent;
  stepEvents : gmap Z (list nat);
  em_movementStep : gmap Z Z;
}.

(** The barrier the plan asks for on exactly this connection. *)
Definition barrierOn (plan : CoveringPlan) (connection : Z) : bool :=
  List.existsb (λ sync, requiresBarrier sync && bool_decide (waitsFor sync = [connection])) (synchronization plan).

Definition append (st : Emission) (step : Z) (es : list PlanCostEvent) (movement : gmap Z Z) : Emission :=
  mkEmission (em_events st ++ es) (<[step := seq (length (em_events st)) (length es)]> (stepEvents st)) movement.

(** Without a barrier, the wait carries the last event of its movement. *)
Definition forwarded (st : Emission) (connection : Z) : list nat :=
  from_option (λ ids, option_list (last ids)) [] (em_movementStep st !! connection ≫= λ movement, stepEvents st !! movement).

Definition emitStep (graph : option WorkloadGraph) (plan : CoveringPlan) (machine : MachineModel) (st : Emission)
    (step : PlanStep) : result plan_event_error Emission :=
  match st_kind step with
  | ComputeStep =>
    es ← emitCompute graph plan machine step;
    Ok (append st (st_id step) es (em_movementStep st))
  | MovementStep =>
    match List.find (λ c, bool_decide (pc_id c = st_connection step)) (connectionPlans plan) with
    | None => Err (UnknownConnection (st_id step) (st_connection step))
    | Some connection =>
      es ← emitMovement plan machine connection step (length (em_events st));
      Ok (append st (st_id step) es (<[pc_id connection := st_id step]> (em_movementStep st)))
    end
  | SynchronizationStepKind =>
    if barrierOn plan (st_connection step) then
      let barrier :=
        annotate (makePlanCostEvent Synchronization "sync" (double_of_Z (barrierCycles (MachineModel.sync machine))) 0 0 [])
          "" "" "" "" 0 None (Some (st_connection step)) 0 [] in
      Ok (append st (st_id step) [barrier] (em_movementStep st))
    else
      Ok (mkEmission (em_events st) (<[st_id step := forwarded st (st_connection step)]> (stepEvents st))
            (em_movementStep st))
  end.

(** *** Dependencies between steps *)
Definition with_deps (ds : list nat) (e : PlanCostEvent) : PlanCostEvent :=
  mkPlanEvent (event e) (EventSchedule.workItems e) (ev_bytes e) (sourceBytes e) (destinationBytes e) (fillElements e)
    ds (owner e) (srcMemory e) (dstMemory e) (sourceNode e) (ev_occurrence e) (planStep e) (connectionId e)
    (hopIndex e) (storageUses e).
Definition addDep (id dep : nat) (es : list PlanCostEvent) : list PlanCostEvent :=
  alter (λ e, with_deps (deps e ++ [dep])%list e) id es.

Definition orderSteps (ids : gmap Z (list nat)) (es : list PlanCostEvent) (edge : PlanStepEdge) : list PlanCostEvent :=
  if decide (StorageLiveness.from edge = StorageLiveness.to edge) then es
  else
    match ids !! StorageLiveness.from edge ≫= last, ids !! StorageLiveness.to edge ≫= head with
    | Some predecessor, Some successor =>
      if decide (predecessor = successor) then es else addDep successor predecessor es
    | _, _ => es
    end.

(** The events of a consumer's compute steps follow the last event of the movement. *)
Definition orderData (plan : CoveringPlan) (ss : list PlanStep) (st : Emission) (es : list PlanCostEvent)
    (connection : PlanConnection) : list PlanCostEvent :=
  match (em_movementStep st !! pc_id connection ≫= λ movement, stepEvents st !! movement) ≫= last,
        consumerNodeOf plan connection with
  | Some tail, Some node =>
    foldl (λ es step,
      if bool_decide (st_kind step = ComputeStep) && bool_decide (st_node step = node) then
        match stepEvents st !! st_id step ≫= head with
        | Some id => addDep id tail es
        | None => es
        end
      else es) es ss
  | _, _ => es
  end.

Definition undecided (placement : PlanPlacement) : bool :=
  deqb (latencyCycles (pp_cost placement)) dzero && bool_decide (localBytes (pp_cost placement) = 0) &&
  bool_decide (pp_workItems placement = 0).

Definition emitSteps (graph : option WorkloadGraph) (plan : CoveringPlan) (machine : MachineModel) (ss : list PlanStep) :
    result plan_event_error Emission :=
  fold_result (emitStep graph plan machine) (mkEmission [] ∅ ∅) (merge_sort stepLe ss).

(** The dependencies between steps, then those of the data, then each list in order. *)
Definition orderEvents (plan : CoveringPlan) (ss : list PlanStep) (edges : list PlanStepEdge) (st : Emission) :
    list PlanCostEvent :=
  let es := foldl (orderSteps (stepEvents st)) (em_events st) edges in
  let es := foldl (orderData plan ss st) es (connectionPlans plan) in
  (λ e, with_deps (EventSchedule.sortUnique (deps e)) e) <$> es.

Definition accumulatedEvents (plan : CoveringPlan) (machine : MachineModel) (graph : option WorkloadGraph) :
    result plan_event_error PlanEventDAG :=
  _ ← (if decide (schemaVersion plan = 0) then Ok ()
       else for_each (λ placement, fail_if (undecided placement) (NoExecutionFacts (pp_node placement))) (placements plan));
  let '(ss, edges) := executionStructure plan in
  st ← emitSteps graph plan machine ss;
  Ok (mkDAG (orderEvents plan ss edges st) EventSchedule.Accumulation).

Definition buildPlanEvents (plan : CoveringPlan) (machine : MachineModel) (graph : option WorkloadGraph) :
    result plan_event_error PlanEventDAG :=
  match analysisEvents plan, graph with
  | Some snapshot, None =>
    _ ← verifyPlanAnalysisStream plan snapshot machine;
    Ok (mkDAG (events snapshot) Snapshot)
  | _, _ => accumulatedEvents plan machine graph
  end.
End uses.

(** ** Engines are the machine's *)
Section engine_lemmas.
Context `{MLIRPrint}.
Variable machine : MachineModel.

Lemma find_elem {A} (p : A → bool) xs x : List.find p xs = Some x → x ∈ xs ∧ p x = true.
Proof. intros Hf. apply List.find_some in Hf as [Hx Hp]. split; [by apply list_elem_of_In|done]. Qed.

Lemma preferredEngine_elem attached node : preferredEngine attached = Some node → node ∈ attached.
Proof.
  unfold preferredEngine. destruct (List.find _ attached) as [v|] eqn:Hv; [intros [= <-]; by apply find_elem in Hv as [? _]|].
  destruct (List.find (λ node, bool_decide (cmp_kind node = "matrix_engine")) attached) as [m|] eqn:Hm;
    [intros [= <-]; by apply find_elem in Hm as [? _]|]. destruct attached; [done|]. intros [= <-]. left.
Qed.

Lemma computesOfKind_elem k node : node ∈ computesOfKind machine k → node ∈ computes machine.
Proof. unfold computesOfKind. by intros [_ Hn]%list_elem_of_filter. Qed.

Lemma engineForExecutor_elem executor node : engineForExecutor machine executor = Some node → node ∈ computes machine.
Proof.
  unfold engineForExecutor. cbv zeta.
  assert (∀ n, (match computesOfKind machine "vector_engine" with
    | node :: _ => Some node
    | [] => match computesOfKind machine "matrix_engine" with node :: _ => Some node | [] => head (computes machine) end
    end) = Some n → n ∈ computes machine) as Hd.
  { intros n. destruct (computesOfKind machine "vector_engine") as [|v vs] eqn:Hv.
    - destruct (computesOfKind machine "matrix_engine") as [|m ms] eqn:Hm.
      + destruct (computes machine); [done|]. intros [= <-]. left.
      + intros [= <-]. apply (computesOfKind_elem "matrix_engine"). rewrite Hm. left.
    - intros [= <-]. apply (computesOfKind_elem "vector_engine"). rewrite Hv. left. }
  destruct (str_empty executor); [apply Hd|].
  destruct (preferredEngine _) as [n|] eqn:Hp; [|apply Hd]. intros [= <-]. apply preferredEngine_elem in Hp.
  unfold computesFor in Hp. by apply list_elem_of_filter in Hp as [_ ?].
Qed.

Lemma findCompute_elem i node : findCompute machine i = Some node → node ∈ computes machine ∧ cmp_id node = i.
Proof.
  unfold findCompute. destruct (findById cmp_id (computes machine) i) as [[k n]|] eqn:Hf; [|done]. intros [= <-].
  apply findById_some in Hf as [Hk Hid]. split; [by eapply list_elem_of_lookup_2|done].
Qed.

Definition selectedOk (placement : PlanPlacement) (found : Selected) : Prop :=
  ∀ node, found.1.1 = Some node ∨ found.1.2 = Some node ∨ found.2 = Some node →
    node ∈ computes machine ∧ (pp_executor placement = "" ∨ cmp_attachedTo node = pp_executor placement) ∧
    ∃ k, pp_computeBindings placement !! k = Some (cmp_id node).

Lemma recordedComputeNode_ok placement found : recordedComputeNode machine placement = Ok found →
  (found = None ↔ pp_computeBindings placement = ∅) ∧
  ∀ node, found = Some node → node ∈ computes machine ∧
    (pp_executor placement = "" ∨ cmp_attachedTo node = pp_executor placement) ∧
    ∃ k, pp_computeBindings placement !! k = Some (cmp_id node).
Proof.
  unfold recordedComputeNode. intros ([[v m] o] & Hf & [= <-])%bind_ok.
  set (I := λ (pre : list string) (found : Selected),
    (∀ id, id ∈ pre → ∃ k, pp_computeBindings placement !! k = Some id) →
    selectedOk placement found ∧ (pre = [] ↔ found = (None, None, None))).
  assert (I (in_order (pp_computeBindings placement)).*2 (v, m, o)) as HI.
  { eapply fold_result_inv; [| |exact Hf]; unfold I; clear Hf.
    - intros _. split; [|done]. by intros node [|[|]].
    - intros pre id post [[v1 m1] o1] t' _ HI Hr Hpre. unfold recordOne in Hr.
      destruct (findCompute machine id) as [node|] eqn:Hn; [|done]. apply findCompute_elem in Hn as [Hin Hid].
      apply fail_then_ok in Hr as [Ha [= <-]].
      destruct HI as [Hs _]; [intros i Hi; apply Hpre; set_solver|].
      destruct (Hpre id) as [k Hk]; [set_solver|].
      assert (pp_executor placement = "" ∨ cmp_attachedTo node = pp_executor placement) as Hat.
      { destruct (decide (pp_executor placement = "")); [by left|]. right. unfold str_empty in Ha.
        rewrite bool_decide_false in Ha by done. cbn in Ha. apply bool_decide_eq_false in Ha. by apply dec_stable. }
      assert (node ∈ computes machine ∧ (pp_executor placement = "" ∨ cmp_attachedTo node = pp_executor placement) ∧
        ∃ k, pp_computeBindings placement !! k = Some (cmp_id node)) as Hnode by (rewrite Hid; eauto).
      unfold selectedOk in *. cbn [fst snd] in *. split.
      + unfold select. intros n Hor. repeat case_bool_decide; cbn in Hor; naive_solver.
      + split; [by destruct pre|]. unfold select. repeat case_bool_decide; cbn; intros [=]; naive_solver. }
  destruct HI as [Hs Hnil].
  { intros id ([k' id'] & -> & Hk%in_order_elem)%list_elem_of_fmap. by exists k'. }
  split.
  - rewrite <- map_size_empty_iff, <- in_order_length, length_zero_iff_nil.
    assert (in_order (pp_computeBindings placement) = [] ↔ (in_order (pp_computeBindings placement)).*2 = []) as ->
      by (destruct (in_order _); cbn; split; congruence).
    rewrite Hnil. destruct v, m, o; split; congruence.
  - intros node Hn. apply Hs. cbn. destruct v; [|destruct m]; naive_solver.
Qed.

Lemma engine_or_fallback placement recorded engine executor : recordedEngineForPlacement machine placement = Ok recorded →
  (match recorded with Some e => Some e | None => engineForExecutor machine executor end) = Some engine →
  engine ∈ computes machine.
Proof.
  unfold recordedEngineForPlacement. destruct (missingComputeBinding placement); [done|].
  intros [_ Hr]%recordedComputeNode_ok. destruct recorded as [e|]; [|apply engineForExecutor_elem].
  intros [= <-]. by apply Hr.
Qed.

Lemma transformEngineFor_elem connection plan engine : transformEngineFor connection machine plan = Ok (Some engine) →
  engine ∈ computes machine.
Proof.
  unfold transformEngineFor. cbv zeta. destruct (pc_transform connection) as [t|]; [|intros [= He]; by eapply engineForExecutor_elem].
  destruct (str_empty _); [intros [= He]; by eapply engineForExecutor_elem|].
  destruct (findCompute _ _) as [node|] eqn:Hf; [|done]. intros [= <-]. by apply findCompute_elem in Hf as [? _].
Qed.

Lemma linkBetween_some src dst link : linkBetween machine src dst = Some link →
  link ∈ links machine ∧ MachineModel.source link = src ∧ destination link = dst.
Proof.
  intros [Hin [Hs%bool_decide_eq_true Hd%bool_decide_eq_true]%andb_true_iff]%find_elem. done.
Qed.
End engine_lemmas.

(** ** What is emitted *)
Lemma sortUnique_elem x xs : x ∈ EventSchedule.sortUnique xs ↔ x ∈ xs.
Proof. unfold EventSchedule.sortUnique. by rewrite merge_sort_Permutation, elem_of_remove_dups. Qed.
Lemma sortUnique_NoDup xs : NoDup (EventSchedule.sortUnique xs).
Proof. unfold EventSchedule.sortUnique. rewrite merge_sort_Permutation. apply NoDup_remove_dups. Qed.

Section emission.
Context `{MLIRTiles} `{!MLIRPrint}.
Variable cast_out_of_range : double → Z.
Variable plan : CoveringPlan.
Variable machine : MachineModel.
Abbreviation emitHop' := (emitHop cast_out_of_range plan machine).

(** The event occupies something the machine models. *)
Definition Modelled (e : PlanCostEvent) : Prop :=
  match ev_kind (event e) with
  | Compute | Transform => ∃ node, node ∈ computes machine ∧ cmp_id node = resource (event e)
  | TransferHop => ∃ link, link ∈ links machine ∧ MachineModel.source link = srcMemory e ∧ destination link = dstMemory e ∧
                     resource (event e) = hopResource link
  | Synchronization | Capacity => True
  end.

(** Events emitted from the id [next] on: modelled, and after what they depend on. *)
Definition WellBuilt (next : nat) (es : list PlanCostEvent) : Prop :=
  ∀ k e, es !! k = Some e → Modelled e ∧ ∀ d, d ∈ deps e → (d < next + k)%nat.

Lemma built_nil next : WellBuilt next [].
Proof. intros k e. by rewrite lookup_nil. Qed.
Lemma built_cons next e es : Modelled e → (∀ d, d ∈ deps e → (d < next)%nat) → WellBuilt (S next) es →
  WellBuilt next (e :: es).
Proof.
  intros Hm Hd Hes [|k] e' Hk; cbn in Hk.
  - injection Hk as <-. rewrite Nat.add_0_r. auto.
  - destruct (Hes k e' Hk) as [? Hlt]. split; [done|]. intros d Hin. specialize (Hlt d Hin). lia.
Qed.
Lemma built_app next es fs : WellBuilt next es → WellBuilt (next + length es) fs → WellBuilt next (es ++ fs).
Proof.
  intros He Hf k e [Hk|[Hle Hk]]%lookup_app_Some; [auto|]. destruct (Hf _ _ Hk) as [? Hlt]. split; [done|].
  intros d Hin. specialize (Hlt d Hin). lia.
Qed.

(** Unfolds the record updates of an event literal. *)
Ltac event_literal := unfold Modelled, annotate, makePlanCostEvent; cbn [event ev_kind resource deps srcMemory dstMemory].

Lemma emitHop_built connection stepId chain next hop es : (∀ c, chain = Some c → (c < next)%nat) →
  emitHop' connection stepId chain next hop = Ok es → WellBuilt next es ∧ length es = 2%nat.
Proof.
  intros Hc. unfold emitHop. destruct (_ ≫= _) as [src|]; [|done]. destruct (_ ≫= _) as [dst|]; [|done].
  destruct (linkBetween machine _ _) as [link|] eqn:Hl; [|done]. cbv zeta.
  intros (uses & _ & [= <-])%bind_ok. split; [|done]. apply linkBetween_some in Hl as (Hin & Hs & Hd).
  apply built_cons; [|intros d|apply built_cons; [|intros d|apply built_nil]]; event_literal.
  - by exists link.
  - rewrite sortUnique_elem. destruct chain as [c|]; cbn; [|by intros ?%elem_of_nil].
    intros ->%list_elem_of_singleton. by apply Hc.
  - done.
  - rewrite sortUnique_elem, list_elem_of_singleton. lia.
Qed.

Lemma emitHopsFrom_built connection stepId count : ∀ chain next hop es, (∀ c, chain = Some c → (c < next)%nat) →
  emitHopsFrom cast_out_of_range plan machine connection stepId chain next hop count = Ok es → WellBuilt next es.
Proof.
  induction count as [|count IH]; intros chain next hop es Hc; cbn [emitHopsFrom]; [intros [= <-]; apply built_nil|].
  intros (es1 & [Hfst Hlen]%emitHop_built & (rest & Hr & [= <-])%bind_ok)%bind_ok; [|done].
  apply built_app; [done|]. rewrite Hlen. eapply IH; [|by rewrite Nat.add_comm]. intros c [= <-]. lia.
Qed.

Lemma emitHops_built connection step chain next es : (∀ c, chain = Some c → (c < next)%nat) →
  emitHops cast_out_of_range plan machine connection step chain next = Ok es → WellBuilt next es.
Proof. intros Hc. unfold emitHops. cbv zeta. intros [_ Hr]%fail_then_ok. by eapply emitHopsFrom_built. Qed.

Lemma emitFeeds_built connection step feeds : ∀ next es tails,
  emitFeeds cast_out_of_range plan machine connection step next feeds = Ok (es, tails) →
  WellBuilt next es ∧ ∀ t, t ∈ tails → (t < next + length es)%nat.
Proof.
  induction feeds as [|feeds IH]; intros next es tails; cbn [emitFeeds].
  { intros [= <- <-]. split; [apply built_nil|by intros t ?%elem_of_nil]. }
  intros (es1 & Hfst%emitHops_built & ([rest ts] & Hr & [= <- <-])%bind_ok)%bind_ok; [|done].
  apply IH in Hr as [Hr Ht]. split; [by apply built_app|]. intros t. rewrite length_app.
  destruct (decide (es1 = [])) as [->|]; [intros Hin%Ht; cbn in *; lia|].
  intros [->|Hin%Ht]%elem_of_cons; [|lia]. destruct es1; [done|cbn; lia].
Qed.

Lemma emitGather_built connection step next es :
  emitGather cast_out_of_range plan machine connection step next = Ok es → WellBuilt next es.
Proof.
  unfold emitGather. cbv zeta. intros [_ [_ ([es1 tails] & [Hb Ht]%emitFeeds_built & (recorded & Hr & He)%bind_ok)%bind_ok]%fail_then_ok]%fail_then_ok.
  destruct (match recorded with Some e => Some e | None => _ end) as [engine|] eqn:Hengine; [|done]. injection He as <-.
  apply built_app; [done|]. apply built_cons; [|intros d|apply built_nil]; event_literal.
  - exists engine. split; [|done]. destruct (consumerPlacementOf plan connection) as [consumer|].
    + by eapply engine_or_fallback.
    + injection Hr as <-. by eapply engineForExecutor_elem.
  - rewrite sortUnique_elem. intros Hd%Ht. lia.
Qed.

Lemma emitTransform_built connection t stepId chain next e : (∀ c, chain = Some c → (c < next)%nat) →
  emitTransform plan machine connection t stepId chain = Ok e → WellBuilt next [e].
Proof.
  intros Hc. unfold emitTransform. intros (engine & Hr & He)%bind_ok. destruct engine as [engine|]; [|done]. cbv zeta in He.
  destruct (estimateTransformCost _ _) as [cost|]; [|done]. apply bind_ok in He as (uses & _ & [= <-]).
  apply built_cons; [|intros d|apply built_nil]; event_literal.
  - exists engine. split; [by eapply transformEngineFor_elem|done].
  - rewrite sortUnique_elem. destruct chain; cbn; [|by intros ?%elem_of_nil]. intros ->%list_elem_of_singleton. auto.
Qed.

Lemma emitMovement_built connection step next es :
  emitMovement cast_out_of_range plan machine connection step next = Ok es → WellBuilt next es.
Proof.
  unfold emitMovement. intros [_ Hm]%fail_then_ok. destruct (decide _); [by eapply emitGather_built|].
  apply bind_ok in Hm as (es1 & Hfst & Hm). apply emitHops_built in Hfst; [|done]. cbv zeta in Hm.
  destruct (pc_transform connection) as [t|]; [|by injection Hm as <-].
  destruct (finalMovement _ _); [|by injection Hm as <-]. apply bind_ok in Hm as (e & He & [= <-]).
  apply built_app; [done|]. eapply emitTransform_built; [|exact He]. intros c.
  destruct (decide (es1 = [])); [done|]. intros [= <-]. destruct es1; [done|cbn; lia].
Qed.

Lemma emitCompute_built graph step next es : emitCompute graph plan machine step = Ok es →
  WellBuilt next es ∧ ∃ e, es = [e] ∧ deps e = [].
Proof.
  unfold emitCompute. destruct (placementForNode plan !! st_node step) as [placed|]; [|done].
  intros (recorded & Hr & He)%bind_ok. cbv zeta in He.
  destruct (match recorded with Some e => Some e | None => _ end) as [engine|] eqn:Hengine; [|done].
  apply bind_ok in He as (uses & _ & [= <-]). split; [|by eexists].
  apply built_cons; [|intros d|apply built_nil]; event_literal.
  - exists engine. split; [by eapply engine_or_fallback|done].
  - by intros ?%elem_of_nil.
Qed.

(** *** The state of an emission *)
Record Inv (seen : list PlanStep) (st : Emission) : Prop := {
  inv_built : WellBuilt 0 (em_events st);
  inv_ids s ids : stepEvents st !! s = Some ids →
    s ∈ st_id <$> seen ∧ ∀ x, x ∈ ids → (x < length (em_events st))%nat;
  inv_disjoint l r ids ids' x : l ∈ seen → r ∈ seen → st_kind l ≠ SynchronizationStepKind → st_kind r ≠ SynchronizationStepKind →
    stepEvents st !! st_id l = Some ids → stepEvents st !! st_id r = Some ids' → x ∈ ids → x ∈ ids' → st_id l = st_id r;
  inv_movement c m : em_movementStep st !! c = Some m →
    ∃ step, step ∈ seen ∧ st_kind step = MovementStep ∧ st_id step = m;
}.

Lemma append_inv seen st step es movement : Inv seen st → st_id step ∉ st_id <$> seen →
  WellBuilt (length (em_events st)) es →
  (∀ c m, movement !! c = Some m → em_movementStep st !! c = Some m ∨ st_kind step = MovementStep ∧ m = st_id step) →
  Inv (seen ++ [step]) (append st (st_id step) es movement).
Proof.
  intros [Hb Hi Hd Hm] Hnew Hes Hmv. unfold append. split; cbn.
  - by apply built_app.
  - intros s ids [[<- <-]|[Hne Hs]]%lookup_insert_Some.
    + split; [rewrite fmap_app; set_solver|]. intros x Hx%elem_of_seq. rewrite length_app. lia.
    + destruct (Hi s ids Hs) as [? Hlt]. split; [rewrite fmap_app; set_solver|]. intros x Hx%Hlt. rewrite length_app. lia.
  - assert (∀ l r ids ids' x, l ∈ seen → r = step → stepEvents st !! st_id l = Some ids →
      ids' = seq (length (em_events st)) (length es) → x ∈ ids → x ∈ ids' → False) as Hno.
    { intros l r ids ids' x _ _ Hids -> Hx Hx'%elem_of_seq. destruct (Hi _ _ Hids) as [_ Hlt]. specialize (Hlt x Hx). lia. }
    intros l r ids ids' x [Hl| ->%list_elem_of_singleton]%elem_of_app [Hr| ->%list_elem_of_singleton]%elem_of_app Hkl Hkr; [| | |done].
    + rewrite !lookup_insert_ne by (intros He; apply Hnew; rewrite He; by apply list_elem_of_fmap_2). by apply Hd.
    + rewrite lookup_insert_eq, lookup_insert_ne by (intros He; apply Hnew; rewrite He; by apply list_elem_of_fmap_2).
      intros Hids [= <-] Hx Hx'. destruct (Hno l step ids _ x Hl eq_refl Hids eq_refl Hx Hx').
    + rewrite lookup_insert_eq, lookup_insert_ne by (intros He; apply Hnew; rewrite He; by apply list_elem_of_fmap_2).
      intros [= <-] Hids Hx Hx'. destruct (Hno r step ids' _ x Hr eq_refl Hids eq_refl Hx' Hx).
  - intros c m [Hold|[Hk ->]]%Hmv; [destruct (Hm c m Hold) as (s & ? & ?); exists s; set_solver|exists step; set_solver].
Qed.

Lemma forward_inv seen st step : Inv seen st → st_id step ∉ st_id <$> seen → st_kind step = SynchronizationStepKind →
  Inv (seen ++ [step]) (mkEmission (em_events st) (<[st_id step := forwarded st (st_connection step)]> (stepEvents st))
                          (em_movementStep st)).
Proof.
  intros [Hb Hi Hd Hm] Hnew Hsync. split; cbn; [done| | |].
  - intros s ids [[<- <-]|[Hne Hs]]%lookup_insert_Some.
    + split; [rewrite fmap_app; set_solver|]. intros x. unfold forwarded.
      destruct (em_movementStep st !! _) as [m|]; cbn; [|by intros ?%elem_of_nil].
      destruct (stepEvents st !! m) as [ids|] eqn:Hids; cbn; [|by intros ?%elem_of_nil].
      destruct (last ids) as [y|] eqn:Hy; cbn; [|by intros ?%elem_of_nil]. intros ->%list_elem_of_singleton.
      apply last_Some_elem_of in Hy. by apply (Hi m ids Hids).
    + destruct (Hi s ids Hs) as [? Hlt]. split; [rewrite fmap_app; set_solver|done].
  - intros l r ids ids' x [Hl| ->%list_elem_of_singleton]%elem_of_app [Hr| ->%list_elem_of_singleton]%elem_of_app Hkl Hkr; [|done..].
    rewrite !lookup_insert_ne by (intros He; apply Hnew; rewrite He; by apply list_elem_of_fmap_2). by apply Hd.
  - intros c m (s & ? & ?)%Hm. exists s. set_solver.
Qed.

Lemma emitStep_inv graph seen st step st' : Inv seen st → st_id step ∉ st_id <$> seen →
  emitStep cast_out_of_range graph plan machine st step = Ok st' → Inv (seen ++ [step]) st'.
Proof.
  intros Hinv Hnew. unfold emitStep. destruct (st_kind step) eqn:Hk.
  - intros (es & He & [= <-])%bind_ok. apply (emitCompute_built graph step (length (em_events st)) es) in He as [Hb _].
    apply append_inv; auto.
  - destruct (List.find _ _) as [connection|]; [|done]. intros (es & He%emitMovement_built & [= <-])%bind_ok.
    apply append_inv; auto. intros c m [[<- <-]|[_ ?]]%lookup_insert_Some; auto.
  - destruct (barrierOn _ _).
    + cbv zeta. intros [= <-]. apply append_inv; auto.
      apply built_cons; [done|intros d; cbn; by intros ?%elem_of_nil|apply built_nil].
    + intros [= <-]. by apply forward_inv.
Qed.

Lemma emitSteps_inv graph ss st : NoDup (st_id <$> ss) → emitSteps cast_out_of_range graph plan machine ss = Ok st → ∃ seen, seen ≡ₚ ss ∧ Inv seen st.
Proof.
  intros Hnd Hf. exists (merge_sort stepLe ss). split; [apply merge_sort_Permutation|].
  assert (NoDup (st_id <$> merge_sort stepLe ss)) as Hnd' by (by rewrite merge_sort_Permutation).
  eapply fold_result_inv; [| |exact Hf].
  - split; cbn; [apply built_nil|..]; intros *; rewrite ?lookup_empty; try done.
  - intros seen step post st1 st2 Heq Hinv Hs. eapply emitStep_inv; [done| |done].
    rewrite Heq, fmap_app, fmap_cons in Hnd'. apply NoDup_app in Hnd' as (_ & Hn & _). intros Hin. apply (Hn _ Hin). left.
Qed.

(** *** The dependencies between steps *)
Definition Sound (es : list PlanCostEvent) : Prop :=
  ∀ id e, es !! id = Some e → Modelled e ∧ (id ∉ deps e) ∧ ∀ d, d ∈ deps e → (d < length es)%nat.

Lemma built_sound es : WellBuilt 0 es → Sound es.
Proof.
  intros Hb id e He. pose proof (lookup_lt_Some _ _ _ He). destruct (Hb id e He) as [? Hd].
  split_and!; [done|intros Hin%Hd; lia|]. intros d Hin%Hd. lia.
Qed.

Lemma addDep_length id d es : length (addDep id d es) = length es.
Proof. apply length_alter. Qed.

Lemma addDep_lookup id d es k : addDep id d es !! k =
  (if decide (k = id) then (λ e, with_deps (deps e ++ [d]) e) <$> es !! k else es !! k).
Proof.
  unfold addDep. destruct (decide (k = id)) as [->|].
  - apply list_lookup_alter_eq.
  - by apply list_lookup_alter_ne.
Qed.

Lemma addDep_sound id d es : Sound es → d ≠ id → (d < length es)%nat → Sound (addDep id d es).
Proof.
  intros Hs Hne Hlt k e. rewrite addDep_length, addDep_lookup. destruct (decide (k = id)) as [->|]; [|apply Hs].
  intros (e0 & He0 & ->)%fmap_Some_1. destruct (Hs id e0 He0) as (Hm & Hi & Hd).
  split_and!; [exact Hm|..]; cbn [with_deps deps].
  - rewrite elem_of_app, list_elem_of_singleton. intros [?|?]; [done|]. by apply Hne.
  - intros d' [?| ->%list_elem_of_singleton]%elem_of_app; auto.
Qed.

Lemma orderSteps_length ids es edge : length (orderSteps ids es edge) = length es.
Proof.
  unfold orderSteps. destruct (decide _); [done|]. destruct (_ ≫= _); [|done]. destruct (_ ≫= _); [|done].
  destruct (decide _); [done|]. apply addDep_length.
Qed.

Lemma orderSteps_sound ids es edge : (∀ s xs x, ids !! s = Some xs → x ∈ xs → (x < length es)%nat) →
  Sound es → Sound (orderSteps ids es edge).
Proof.
  intros Hids Hs. unfold orderSteps. destruct (decide _); [done|].
  destruct (ids !! StorageLiveness.from edge ≫= last) as [p|] eqn:Hp; [|done].
  destruct (ids !! StorageLiveness.to edge ≫= head) as [h|]; [|done].
  destruct (decide _) as [|Hne]; [done|]. apply bind_Some in Hp as (xs & Hx & Hl%last_Some_elem_of).
  apply addDep_sound; eauto.
Qed.
End emission.
