(* ===== verification/PlanStream.v ===== *)
(** What the event stream of a plan guarantees: the invariants of
    lib/Mapping/CostEvent.cpp's [buildPlanEvents], over the model of PlanEvents.v and the
    scheduler of EventSchedule.v.

    On a verified machine whose links name their engines, a stream that is built passes
    every check of the validator except, possibly, the one for cycles; the steps and the data
    it orders stay in that order in every schedule, but for the further feeds of a gather; a
    movement that is not a gather does hop by hop the work it does whole; and an accepted snapshot is what the plan answers
    with. *)
From S2P Require Import Prelude Float MachineModel CostModel WorkloadGraph TileFacts EventSchedule MappingPlan StorageLiveness StorageFootprint PlanEvents.
Open Scope string_scope.
Open Scope Z_scope.

(** ** Steps have their own ids *)
Section synthesized.
Context `{MLIRPrint}.
Variable plan : CoveringPlan.

Lemma synthesizeMovements_ids cs : ∀ next, NoDup (st_id <$> (synthesizeMovements plan next cs).1) ∧
  ∀ i, i ∈ st_id <$> (synthesizeMovements plan next cs).1 → next <= i.
Proof.
  induction cs as [|c cs IH]; intros next; cbn [synthesizeMovements].
  { split; [constructor|by intros i ?%elem_of_nil]. }
  destruct (decide _); [apply IH|]. destruct (IH (next + 2)) as [Hnd Hle].
  destruct (synthesizeMovements plan (next + 2) cs) as [ss es]. cbn [fst] in *. rewrite !fmap_cons. cbn [st_id].
  split.
  - constructor; [|constructor; [|done]].
    + intros [?|Hin%Hle]%elem_of_cons; lia.
    + intros Hin%Hle. lia.
  - intros i [->|[->|Hin%Hle]%elem_of_cons]%elem_of_cons; lia.
Qed.

Lemma synthesizeSteps_ids : NoDup (st_id <$> (synthesizeSteps plan).1).
Proof.
  unfold synthesizeSteps. cbv zeta.
  pose proof (synthesizeMovements_ids (merge_sort connectionLe (connectionPlans plan)) (Z.of_nat (length (synthesizedComputes plan)))) as [Hnd Hle].
  destruct (synthesizeMovements _ _ _) as [ss es]. cbn [fst] in *. rewrite fmap_app.
  assert (st_id <$> imap (λ i node, mkStep (Z.of_nat i) ComputeStep node 0 None) (synthesizedComputes plan) =
    Z.of_nat <$> seq 0 (length (synthesizedComputes plan))) as ->.
  { apply list_eq. intros k. rewrite !list_lookup_fmap, list_lookup_imap.
    destruct (synthesizedComputes plan !! k) as [n|] eqn:Hk; cbn.
    - rewrite lookup_seq_lt by (by eapply lookup_lt_Some). done.
    - rewrite lookup_seq_ge by (by apply lookup_ge_None). done. }
  apply NoDup_app. split_and!; [apply NoDup_fmap; [intros ?? ?; lia|apply NoDup_seq]| |done].
  intros i (k & -> & Hk%elem_of_seq)%list_elem_of_fmap Hin%Hle. lia.
Qed.

Lemma executionStructure_ids : NoDup (st_id <$> steps plan) → NoDup (st_id <$> (executionStructure plan).1).
Proof. intros Hnd. unfold executionStructure. destruct (decide _); [apply synthesizeSteps_ids|done]. Qed.
End synthesized.

(** ** Every stream is sound *)
Section sound.
Context `{MLIRTiles} `{!MLIRPrint}.
Variable cast_out_of_range : double → Z.
Variables (plan : CoveringPlan) (machine : MachineModel) (graph : option WorkloadGraph).

Lemma orderAll_sound st edges : ∀ es, length es = length (em_events st) → Sound machine es →
  (∀ s ids x, stepEvents st !! s = Some ids → x ∈ ids → (x < length (em_events st))%nat) →
  Sound machine (foldl (orderSteps (stepEvents st)) es edges) ∧
  length (foldl (orderSteps (stepEvents st)) es edges) = length (em_events st).
Proof.
  induction edges as [|edge edges IH]; intros es Hlen Hs Hids; [done|]. cbn. apply IH; [by rewrite orderSteps_length| |done].
  apply orderSteps_sound; [|done]. intros s xs x Hx Hin. rewrite Hlen. by eapply Hids.
Qed.

(** The two shapes of the loop over the consumer's compute steps. *)
Lemma orderData_ind (P : list PlanCostEvent → Prop) ss st connection es : P es →
  (∀ m ids tail step id es, em_movementStep st !! pc_id connection = Some m → stepEvents st !! m = Some ids →
    last ids = Some tail → step ∈ ss → st_kind step = ComputeStep →
    stepEvents st !! st_id step ≫= head = Some id → P es → P (addDep id tail es)) →
  P (orderData plan ss st es connection).
Proof.
  intros Hes Hstep. unfold orderData.
  destruct ((em_movementStep st !! pc_id connection ≫= λ movement, stepEvents st !! movement) ≫= last) as [tail|] eqn:Ht; [|done].
  apply bind_Some in Ht as (ids & (m & Hm & Hids)%bind_Some & Hlast).
  destruct (consumerNodeOf plan connection) as [node|]; [|done].
  assert (∀ ss', (∀ s, s ∈ ss' → s ∈ ss) → ∀ es, P es → P (foldl (λ es step,
      if bool_decide (st_kind step = ComputeStep) && bool_decide (st_node step = node) then
        match stepEvents st !! st_id step ≫= head with Some id => addDep id tail es | None => es end
      else es) es ss')) as Hall; [|by apply Hall].
  induction ss' as [|s ss' IH]; intros Hsub es' Hes'; [done|]. cbn [foldl]. apply IH; [set_solver|].
  destruct (decide (st_kind s = ComputeStep)) as [Hk|Hk];
    [rewrite (bool_decide_true _ Hk)|rewrite (bool_decide_false _ Hk); exact Hes']. cbn [andb].
  destruct (bool_decide (st_node s = node)); [|exact Hes'].
  destruct (stepEvents st !! st_id s ≫= head) as [id|] eqn:Hid; [|exact Hes'].
  eapply Hstep; eauto. apply Hsub. left.
Qed.

Lemma orderData_sound seen st connection es ss : Inv machine seen st → seen ≡ₚ ss → NoDup (st_id <$> ss) →
  length es = length (em_events st) → Sound machine es →
  Sound machine (orderData plan ss st es connection) ∧ length (orderData plan ss st es connection) = length (em_events st).
Proof.
  intros [_ Hi Hd Hm] Hperm Hnd Hlen Hs.
  apply (orderData_ind (λ es, Sound machine es ∧ length es = length (em_events st))); [done|].
  intros m ids tail step id es' Hmv Hids Hlast Hstep Hk Hid [Hs' Hlen'].
  rewrite addDep_length. split; [|done]. apply bind_Some in Hid as (ids' & Hids' & Hhead).
  apply last_Some_elem_of in Hlast. apply addDep_sound; [done| |rewrite Hlen'; by apply (Hi _ _ Hids)].
  intros ->. destruct (Hm _ _ Hmv) as (move & Hmove & Hkm & <-).
  assert (id ∈ ids') as Hin by (destruct ids'; [done|injection Hhead as ->; left]).
  assert (step ∈ seen) as Hstep' by (by rewrite Hperm).
  assert (st_id move = st_id step) as Heq by (eapply (Hd move step); eauto; congruence).
  rewrite <- Hperm in Hnd.
  apply list_elem_of_lookup_1 in Hmove as [i Hmi]. apply list_elem_of_lookup_1 in Hstep' as [j Hsj].
  assert (i = j) as -> by (apply (NoDup_lookup (st_id <$> seen) i j (st_id step) Hnd); rewrite list_lookup_fmap, ?Hmi, ?Hsj; cbn; congruence).
  congruence.
Qed.

Lemma orderEvents_sound seen st edges ss : Inv machine seen st → seen ≡ₚ ss → NoDup (st_id <$> ss) →
  Sound machine (orderEvents plan ss edges st) ∧ length (orderEvents plan ss edges st) = length (em_events st) ∧
  ∀ e, e ∈ orderEvents plan ss edges st → NoDup (deps e).
Proof.
  intros Hinv Hperm Hnd. unfold orderEvents.
  destruct (orderAll_sound st edges (em_events st)) as [Hs Hlen]; [done|apply built_sound, (inv_built _ _ _ Hinv)| |].
  { intros s ids x Hs Hx. by apply (inv_ids _ _ _ Hinv _ _ Hs). }
  assert (Sound machine (foldl (orderData plan ss st) (foldl (orderSteps (stepEvents st)) (em_events st) edges) (connectionPlans plan)) ∧
    length (foldl (orderData plan ss st) (foldl (orderSteps (stepEvents st)) (em_events st) edges) (connectionPlans plan)) =
      length (em_events st)) as [Hs2 Hlen2].
  { revert Hs Hlen. generalize (foldl (orderSteps (stepEvents st)) (em_events st) edges).
    induction (connectionPlans plan) as [|c cs IH]; intros es Hs Hlen; [done|]. cbn [foldl].
    destruct (orderData_sound seen st c es ss) as [??]; auto. }
  set (es := foldl (orderData plan ss st) _ _) in *. split_and!.
  - intros id e He. rewrite length_fmap. apply list_lookup_fmap_Some_1 in He as (e0 & -> & He0).
    destruct (Hs2 id e0 He0) as (Hmod & Hself & Hlt). split_and!; [exact Hmod|..]; cbn [with_deps deps].
    + by rewrite sortUnique_elem.
    + intros d. rewrite sortUnique_elem. apply Hlt.
  - by rewrite length_fmap.
  - intros e (e0 & -> & _)%list_elem_of_fmap. apply sortUnique_NoDup.
Qed.
End sound.

(** ** A stream is refused only for a cycle *)
Section validity.
Context `{MLIRTiles} `{!MLIRPrint}.
Variable cast_out_of_range : double → Z.

(** What a verified machine with an engine on every link offers an event. *)
Lemma modelled_resource machine e : verifyMachineModel machine = Ok tt → (∀ l, l ∈ links machine → link_engines l ≠ []) →
  Modelled machine e → ResourceOk machine e.
Proof.
  intros Hv Heng. pose proof (verified_ids _ Hv) as (_ & _ & Hcids). apply verify_iff in Hv as Hwf.
  assert (NoDup (eng_id <$> MachineModel.transferEngines machine)) as Heids.
  { pose proof (MachineModel.wf_ids_unique _ Hwf) as Hnd. unfold MachineModel.all_ids in Hnd. rewrite !NoDup_app in Hnd. tauto. }
  assert (∀ node, node ∈ computes machine → cmp_id node = resource (event e) →
    ∃ node, findCompute machine (resource (event e)) = Some node ∧ cmp_concurrency node ≠ 0) as Hc.
  { intros node Hin Hid. exists node. split; [by apply (find_fmap_some cmp_id _ _ _ Hcids)|].
    by apply (ok_cmp_concurrency _ _ (MachineModel.wf_computes _ Hwf _ Hin)). }
  unfold Modelled, ResourceOk. destruct (ev_kind (event e)); [| | |done|done].
  - intros (node & ? & ?). by eapply Hc.
  - intros (link & Hin & _ & _ & ->). unfold hopResource.
    destruct (link_engines link) as [|g gs] eqn:Hg; [by destruct (Heng link Hin)|]. cbn.
    assert (g ∈ eng_id <$> MachineModel.transferEngines machine) as (engine & -> & Hengine)%list_elem_of_fmap.
    { apply (ok_link_engines _ _ (MachineModel.wf_links _ Hwf _ Hin)). rewrite Hg. left. }
    exists engine. split; [by apply (find_fmap_some eng_id _ _ _ Heids)|].
    by apply (ok_eng_count _ _ (MachineModel.wf_engines _ Hwf _ Hengine)).
  - intros (node & ? & ?). by eapply Hc.
Qed.

Lemma accumulated_sound plan machine graph dag : NoDup (st_id <$> steps plan) →
  accumulatedEvents cast_out_of_range plan machine graph = Ok dag →
  Sound machine (events dag) ∧ ∀ e, e ∈ events dag → NoDup (deps e).
Proof.
  intros Hnd. unfold accumulatedEvents. intros [_ Ha]%seq_ok. pose proof (executionStructure_ids plan Hnd) as Hids.
  destruct (executionStructure plan) as [ss edges]. apply bind_ok in Ha as (st & Hst & [= <-]).
  destruct (emitSteps_inv _ _ _ _ _ _ Hids Hst) as (seen & Hperm & Hinv).
  destruct (orderEvents_sound plan machine seen st edges ss) as (? & _ & ?); auto.
Qed.

(** C29: On a verified machine whose links all name an engine, the stream of a plan with
    distinct step ids names only resources the machine models with at least one slot, and each
    event depends on distinct other events of the stream; so validation can refuse a stream
    that [buildPlanEvents] builds for nothing but a cycle. *)
Theorem buildPlanEvents_refused_only_for_cycles plan machine graph dag :
  verifyMachineModel machine = Ok tt → (∀ l, l ∈ links machine → link_engines l ≠ []) → NoDup (st_id <$> steps plan) →
  buildPlanEvents cast_out_of_range plan machine graph = Ok dag →
  validateEventResources dag machine = Ok tt ∨
  validateEventResources dag machine = Err (DependencyCycle (length (events dag))).
Proof.
  intros Hv Hl Hnd Hb.
  assert (accumulatedEvents cast_out_of_range plan machine graph = Ok dag ∨ validateEventResources dag machine = Ok tt) as [Ha|?].
  { unfold buildPlanEvents in Hb. destruct (analysisEvents plan) as [snapshot|]; [|by left]. destruct graph; [by left|].
    apply seq_ok in Hb as [Hs [= <-]]. right. unfold verifyPlanAnalysisStream in Hs.
    apply fail_then_ok in Hs as [_ [Hs _]%seq_ok].
    assert (validateEventResources (mkDAG (events snapshot) Snapshot) machine = validateEventResources snapshot machine) as -> by done.
    by destruct (validateEventResources snapshot machine) as [[]|]. }
  - destruct (accumulated_sound _ _ _ _ Hnd Ha) as [Hs Hd]. unfold validateEventResources. cbv zeta.
    assert (for_each_from 0 (checkEvent (length (events dag)) machine) (events dag) = Ok tt) as ->; [|cbn; unfold fail_if; case_bool_decide; auto].
    apply for_each_from_ok. intros k e He. destruct (Hs k e He) as (Hm & Hself & Hlt). unfold checkEvent. rewrite seq_ok.
    split; [by apply checkResource_ok, modelled_resource|]. apply checkDependencies_ok.
    split_and!; [by eapply Hd, list_elem_of_lookup_2|done|done].
  - by left.
Qed.

(** ** Snapshots *)

(** C32: Attaching an analysis snapshot to a plan either fails or makes the plan answer with
    exactly that stream, whose events the machine can run and which names only steps and
    connections of the plan; a plan decoded from metadata never accepts one. *)
Theorem attached_snapshot_is_answered plan dag machine plan' :
  attachPlanAnalysisEvents plan dag machine = Ok plan' →
  schemaVersion plan = 0 ∧ plan' = with_analysis plan (Some (mkDAG (events dag) Snapshot)) ∧
  buildPlanEvents cast_out_of_range plan' machine None = Ok (mkDAG (events dag) Snapshot) ∧
  events dag ≠ [] ∧ StreamOk (mkDAG (events dag) Snapshot) machine ∧
  ∀ e, e ∈ events dag →
    (∀ s, planStep e = Some s → s ∈ st_id <$> steps plan) ∧
    (∀ c, connectionId e = Some c → c ∈ pc_id <$> connectionPlans plan).
Proof.
  unfold attachPlanAnalysisEvents. cbv zeta. intros [Hv%bool_decide_eq_false [Hs [= <-]]%seq_ok]%fail_then_ok.
  apply dec_stable in Hv. split_and!; [done|done| | | |].
  - unfold buildPlanEvents. cbn [with_analysis analysisEvents].
    assert (verifyPlanAnalysisStream (with_analysis plan (Some (mkDAG (events dag) Snapshot))) (mkDAG (events dag) Snapshot) machine =
      verifyPlanAnalysisStream plan (mkDAG (events dag) Snapshot) machine) as -> by done. by rewrite Hs.
  - unfold verifyPlanAnalysisStream in Hs. apply fail_then_ok in Hs as [Hn%bool_decide_eq_false _]. by destruct (events dag).
  - unfold verifyPlanAnalysisStream in Hs. apply fail_then_ok in Hs as [_ [Hs _]%seq_ok].
    apply validate_ok. by destruct (validateEventResources _ _) as [[]|].
  - unfold verifyPlanAnalysisStream in Hs. apply fail_then_ok in Hs as [_ [_ [_ Hs]%seq_ok]%seq_ok].
    rewrite for_each_from_ok in Hs. intros e [k Hk]%list_elem_of_lookup_1. specialize (Hs k e Hk). unfold checkNames in Hs.
    apply seq_ok in Hs as [Hstep Hconn]. split.
    + intros s Hp. rewrite Hp, fail_if_ok in Hstep. apply contains_true. by destruct (contains _ s).
    + intros c Hp. rewrite Hp, fail_if_ok in Hconn. apply contains_true. by destruct (contains _ c).
Qed.
End validity.

(** ** What a stream orders *)
Section order.
Context `{MLIRTiles} `{!MLIRPrint}.
Variable cast_out_of_range : double → Z.
Variable plan : CoveringPlan.

(** Event [id] waits for event [d]. *)
Definition Waits (es : list PlanCostEvent) (id d : nat) : Prop := ∃ e, es !! id = Some e ∧ d ∈ deps e.

(** What the code makes a step edge: the first event of its target waits for the last of its
    source.  (That the other events of the target come later too is [StepOrders] below.) *)
Definition EdgeOrders (st : Emission) (edge : PlanStepEdge) (id d : nat) : Prop :=
  StorageLiveness.from edge ≠ StorageLiveness.to edge ∧ d ≠ id ∧
  stepEvents st !! StorageLiveness.from edge ≫= last = Some d ∧ stepEvents st !! StorageLiveness.to edge ≫= head = Some id.

(** A connection orders the first event of each compute step of its consumer after the last of
    its movement. *)
Definition DataOrders (ss : list PlanStep) (st : Emission) (connection : PlanConnection) (id d : nat) : Prop :=
  ∃ m ids node step, em_movementStep st !! pc_id connection = Some m ∧ stepEvents st !! m = Some ids ∧ last ids = Some d ∧
    consumerNodeOf plan connection = Some node ∧ step ∈ ss ∧ st_kind step = ComputeStep ∧ st_node step = node ∧
    stepEvents st !! st_id step ≫= head = Some id.

Lemma addDep_waits k dep es id d : (k < length es)%nat →
  Waits (addDep k dep es) id d ↔ Waits es id d ∨ (id = k ∧ d = dep).
Proof.
  intros [e He]%lookup_lt_is_Some_2. unfold Waits. rewrite addDep_lookup. destruct (decide (id = k)) as [->|]; [|naive_solver].
  rewrite He. cbn. split.
  - intros (e' & [= <-] & [?| ->%list_elem_of_singleton]%elem_of_app); eauto.
  - intros [(e' & [= <-] & ?)|[_ ->]]; eexists; (split; [done|]); cbn; apply elem_of_app; [by left|]. right. by apply list_elem_of_singleton.
Qed.

Lemma orderSteps_waits st edge es id d : (∀ s xs x, stepEvents st !! s = Some xs → x ∈ xs → (x < length es)%nat) →
  Waits (orderSteps (stepEvents st) es edge) id d ↔ Waits es id d ∨ EdgeOrders st edge id d.
Proof.
  intros Hlt. unfold orderSteps, EdgeOrders. destruct (decide _) as [|Hne]; [naive_solver|].
  destruct (stepEvents st !! StorageLiveness.from edge ≫= last) as [p|]; [|naive_solver].
  destruct (stepEvents st !! StorageLiveness.to edge ≫= head) as [h|] eqn:Hh; [|naive_solver].
  destruct (decide _); [naive_solver|]. rewrite addDep_waits; [naive_solver|].
  apply bind_Some in Hh as (xs & Hx & Hh). destruct xs; [done|]. injection Hh as ->. eapply Hlt; [done|left].
Qed.

Lemma foldl_waits {A} (step : list PlanCostEvent → A → list PlanCostEvent) (orders : A → nat → nat → Prop) n xs :
  (∀ es x, x ∈ xs → length es = n → length (step es x) = n ∧ ∀ id d, Waits (step es x) id d ↔ Waits es id d ∨ orders x id d) →
  ∀ es, length es = n → length (foldl step es xs) = n ∧
    ∀ id d, Waits (foldl step es xs) id d ↔ Waits es id d ∨ ∃ x, x ∈ xs ∧ orders x id d.
Proof.
  induction xs as [|x xs IH]; intros Hstep es Hlen; cbn [foldl].
  { split; [done|]. intros id d. setoid_rewrite elem_of_nil. naive_solver. }
  destruct (Hstep es x) as [Hl Hw]; [left|done|]. destruct (IH) with (es := step es x) as [Hl' Hw']; [|done|].
  { intros es' y Hy. apply Hstep. by right. }
  split; [done|]. intros id d. rewrite Hw', Hw. setoid_rewrite elem_of_cons. naive_solver.
Qed.

Lemma orderData_waits ss st connection es : (∀ s xs x, stepEvents st !! s = Some xs → x ∈ xs → (x < length es)%nat) →
  length (orderData plan ss st es connection) = length es ∧
  ∀ id d, Waits (orderData plan ss st es connection) id d ↔ Waits es id d ∨ DataOrders ss st connection id d.
Proof.
  intros Hlt. unfold orderData, DataOrders.
  destruct ((em_movementStep st !! pc_id connection ≫= λ movement, stepEvents st !! movement) ≫= last) as [tail|] eqn:Ht; cycle 1.
  { split; [done|]. intros id d. split; [by left|]. intros [?|(m & ids & node & step & Hm & Hi & Hl & _)]; [done|].
    rewrite Hm in Ht. cbn in Ht. rewrite Hi in Ht. cbn in Ht. congruence. }
  apply bind_Some in Ht as (ids & (m & Hm & Hids)%bind_Some & Hlast).
  destruct (consumerNodeOf plan connection) as [node|]; [|naive_solver].
  destruct (foldl_waits (λ es step, if bool_decide (st_kind step = ComputeStep) && bool_decide (st_node step = node) then
        match stepEvents st !! st_id step ≫= head with Some id => addDep id tail es | None => es end else es)
    (λ step id d, st_kind step = ComputeStep ∧ st_node step = node ∧ stepEvents st !! st_id step ≫= head = Some id ∧ d = tail)
    (length es) ss) with (es := es) as [Hl Hw]; [|done|].
  { intros es' step _ Hlen. destruct (decide (st_kind step = ComputeStep)) as [Hk|Hk];
      [rewrite (bool_decide_true _ Hk)|rewrite (bool_decide_false _ Hk); split; [exact Hlen|naive_solver]].
    destruct (decide (st_node step = node)) as [Hn|Hn];
      [rewrite (bool_decide_true _ Hn)|rewrite (bool_decide_false _ Hn); split; [exact Hlen|naive_solver]]. cbn [andb].
    destruct (stepEvents st !! st_id step ≫= head) as [h|] eqn:Hh; [|split; [exact Hlen|naive_solver]].
    rewrite addDep_length. split; [done|]. intros id d. rewrite addDep_waits; [naive_solver|]. rewrite Hlen.
    apply bind_Some in Hh as (xs & Hx & Hh). destruct xs; [done|]. injection Hh as ->. eapply Hlt; [done|left]. }
  split; [done|]. intros id d. rewrite Hw. naive_solver.
Qed.

Lemma orderEvents_exact' machine graph ss edges st :
  NoDup (st_id <$> ss) → emitSteps cast_out_of_range graph plan machine ss = Ok st →
  ∀ id d, Waits (orderEvents plan ss edges st) id d ↔
    Waits (em_events st) id d ∨ (∃ edge, edge ∈ edges ∧ EdgeOrders st edge id d) ∨
    (∃ connection, connection ∈ connectionPlans plan ∧ DataOrders ss st connection id d).
Proof.
  intros Hnd Hst id d. destruct (emitSteps_inv _ _ _ _ _ _ Hnd Hst) as (seen & _ & [_ Hi _ _]).
  assert (∀ s xs x, stepEvents st !! s = Some xs → x ∈ xs → (x < length (em_events st))%nat) as Hlt.
  { intros s xs x Hs. by apply (Hi s xs). }
  unfold orderEvents.
  destruct (foldl_waits (orderSteps (stepEvents st)) (EdgeOrders st) (length (em_events st)) edges) with (es := em_events st)
    as [Hl Hw]; [|done|].
  { intros es x _ Hlen. split; [by rewrite orderSteps_length|]. intros. apply orderSteps_waits. by rewrite Hlen. }
  destruct (foldl_waits (orderData plan ss st) (DataOrders ss st) (length (em_events st)) (connectionPlans plan))
    with (es := foldl (orderSteps (stepEvents st)) (em_events st) edges) as [_ Hw']; [|done|].
  { intros es x _ Hlen. rewrite <- Hlen. apply orderData_waits. by rewrite Hlen. }
  assert (∀ es, Waits ((λ e, with_deps (EventSchedule.sortUnique (deps e)) e) <$> es) id d ↔ Waits es id d) as ->.
  { intros es. unfold Waits. setoid_rewrite list_lookup_fmap_Some. split.
    - intros (e & (e0 & -> & He) & Hd). exists e0. split; [done|]. cbn in Hd. by rewrite sortUnique_elem in Hd.
    - intros (e & He & Hd). eexists. split; [by exists e|]. cbn. by rewrite sortUnique_elem. }
  rewrite Hw', Hw. naive_solver.
Qed.

(** The stream of a plan waits for exactly what it should: event [id] depends on event [d]
    when the step that emitted [id] chains them, when a step edge leads from the step whose
    last event is [d] to the step whose first event is [id], or when [d] ends the movement of a
    connection and [id] starts a compute step of its consumer. *)
Theorem orderEvents_exact machine graph ss edges st :
  NoDup (st_id <$> ss) → emitSteps cast_out_of_range graph plan machine ss = Ok st →
  ∀ id d, Waits (orderEvents plan ss edges st) id d ↔
    Waits (em_events st) id d ∨ (∃ edge, edge ∈ edges ∧ EdgeOrders st edge id d) ∨
    (∃ connection, connection ∈ connectionPlans plan ∧ DataOrders ss st connection id d).
Proof. apply orderEvents_exact'. Qed.
End order.

(** ** The events of one step *)
Section chains.
Context `{MLIRTiles} `{!MLIRPrint}.
Variable cast_out_of_range : double → Z.
Variables (plan : CoveringPlan) (machine : MachineModel) (graph : option WorkloadGraph).

(** Event [z] comes after event [x]: by waiting, for it or for one that comes after it. *)
Definition Follows (es : list PlanCostEvent) : nat → nat → Prop := rtc (λ x z, Waits es z x).

Lemma waits_prefix es fs id d : Waits es id d → Waits (es ++ fs) id d.
Proof. intros (e & He & Hd). exists e. split; [by apply lookup_app_l_Some|done]. Qed.
Lemma follows_mono es fs x z : (∀ id d, Waits es id d → Waits fs id d) → Follows es x z → Follows fs x z.
Proof. intros Hw. apply rtc_subrel. intros a b. apply Hw. Qed.

(** Events from the id [next] on, each waiting for the one before. *)
Definition Chained (next : nat) (es : list PlanCostEvent) : Prop :=
  ∀ k e, es !! S k = Some e → (next + k)%nat ∈ deps e.

Lemma chained_follows next pre es k : length pre = next → Chained next es → (k < length es)%nat →
  Follows (pre ++ es) next (next + k).
Proof.
  intros Hl Hc. induction k as [|k IH]; intros Hk; [rewrite Nat.add_0_r; apply rtc_refl|].
  eapply rtc_r; [apply IH; lia|]. destruct (lookup_lt_is_Some_2 es (S k)) as [e He]; [lia|].
  exists e. split; [|by apply Hc]. rewrite lookup_app_r by lia. by replace (next + S k - length pre)%nat with (S k) by lia.
Qed.

(** The first event waits for the end of the chain before it. *)
Definition Resumes (chain : option nat) (es : list PlanCostEvent) : Prop :=
  ∀ c e, chain = Some c → head es = Some e → c ∈ deps e.

Lemma chained_app next es fs : Chained next es → Chained (next + length es) fs →
  (es = [] ∨ Resumes (Some (pred (next + length es))) fs) → Chained next (es ++ fs).
Proof.
  intros He Hf Hjoin k e [Hk|[Hle Hk]]%lookup_app_Some; [by apply He|].
  destruct (S k - length es)%nat as [|j] eqn:Hj.
  - destruct Hjoin as [->|Hr]; [cbn in Hj; lia|]. destruct fs as [|f fs]; [done|]. injection Hk as ->.
    replace (next + k)%nat with (pred (next + length es)) by lia. by eapply Hr.
  - replace (next + k)%nat with (next + length es + j)%nat by lia. by eapply Hf.
Qed.

Lemma emitHop_chained connection stepId chain next hop es :
  emitHop cast_out_of_range plan machine connection stepId chain next hop = Ok es → Chained next es ∧ Resumes chain es ∧ length es = 2%nat.
Proof.
  unfold emitHop. destruct (_ ≫= _) as [src|]; [|done]. destruct (_ ≫= _) as [dst|]; [|done].
  destruct (linkBetween machine _ _) as [link|]; [|done]. cbv zeta. intros (uses & _ & [= <-])%bind_ok. split_and!; [| |done].
  - intros [|k] e He; [|by destruct k]. injection He as <-. unfold annotate, makePlanCostEvent. cbn [deps].
    rewrite sortUnique_elem, Nat.add_0_r. left.
  - intros c e -> [= <-]. unfold annotate, makePlanCostEvent. cbn [deps option_list]. rewrite sortUnique_elem. left.
Qed.

Lemma emitHopsFrom_chained connection stepId count : ∀ chain next hop es,
  emitHopsFrom cast_out_of_range plan machine connection stepId chain next hop count = Ok es →
  Chained next es ∧ Resumes chain es ∧ length es = (2 * count)%nat.
Proof.
  induction count as [|count IH]; intros chain next hop es; cbn [emitHopsFrom]; [by intros [= <-]|].
  intros (es1 & (Hc & Hr & Hl)%emitHop_chained & (rest & (Hc' & Hr' & Hl')%IH & [= <-])%bind_ok)%bind_ok. split_and!.
  - apply chained_app; [done| |right]; rewrite Hl; [by replace (next + 2)%nat with (S (S next)) by lia|].
    by replace (pred (next + 2)) with (S next) by lia.
  - intros c e Hch Hh. destruct es1 as [|f es1]; [done|]. by eapply Hr.
  - rewrite length_app. lia.
Qed.

Definition hopCount (connection : PlanConnection) (step : PlanStep) : nat :=
  match st_hop step with Some _ => 1%nat | None => routeHops connection end.
Lemma emitHops_chained connection step chain next es :
  emitHops cast_out_of_range plan machine connection step chain next = Ok es →
  Chained next es ∧ length es = (2 * hopCount connection step)%nat.
Proof. unfold emitHops. cbv zeta. intros [_ (Hc & _ & Hl)%emitHopsFrom_chained]%fail_then_ok. done. Qed.

Lemma emitTransform_resumes connection t stepId chain e : emitTransform plan machine connection t stepId chain = Ok e → Resumes chain [e].
Proof.
  unfold emitTransform. intros (engine & _ & He)%bind_ok. destruct engine as [engine|]; [|done]. cbv zeta in He.
  destruct (estimateTransformCost _ _); [|done]. apply bind_ok in He as (uses & _ & [= <-]). intros c f -> [= <-].
  unfold annotate, makePlanCostEvent. cbn [deps option_list]. rewrite sortUnique_elem. left.
Qed.

Lemma emitMovement_chained connection step next es : pc_kind connection ≠ Reduce →
  emitMovement cast_out_of_range plan machine connection step next = Ok es → Chained next es.
Proof.
  intros Hkind. unfold emitMovement. intros [_ Hm]%fail_then_ok. rewrite decide_False in Hm by done.
  apply bind_ok in Hm as (es1 & [Hc _]%emitHops_chained & Hm). cbv zeta in Hm.
  destruct (pc_transform connection) as [t|]; [|by injection Hm as <-].
  destruct (finalMovement _ _); [|by injection Hm as <-]. apply bind_ok in Hm as (e & He%emitTransform_resumes & [= <-]).
  apply chained_app; [done|by intros [|k] f Hk|]. destruct (decide (es1 = [])); [by left|by right].
Qed.

(** The feeds of a gather: those of the first, whose end is recorded. *)
Lemma emitFeeds_first connection step feeds next es tails :
  emitFeeds cast_out_of_range plan machine connection step next feeds = Ok (es, tails) →
  length es = (feeds * (2 * hopCount connection step))%nat ∧
  (es = [] ∨ ∃ first rest, es = (first ++ rest)%list ∧ first ≠ [] ∧ Chained next first ∧ pred (next + length first) ∈ tails).
Proof.
  revert next es tails. induction feeds as [|feeds IH]; intros next es tails; cbn [emitFeeds]; [intros [= <- <-]; auto|].
  intros (es1 & [Hc Hl]%emitHops_chained & ([rest ts] & [Hl' _]%IH & [= <- <-])%bind_ok)%bind_ok. rewrite length_app. split; [lia|].
  destruct (decide (es1 = [])) as [->|Hne].
  - left. cbn in Hl. cbn. apply nil_length_inv. lia.
  - right. exists es1, rest. split_and!; [done..|left].
Qed.

Lemma emitGather_follows connection step next pre es z : length pre = next →
  emitGather cast_out_of_range plan machine connection step next = Ok es → S z = length es → Follows (pre ++ es) next (next + z).
Proof.
  intros Hlen. unfold emitGather. cbv zeta.
  intros [_ [_ ([es1 tails] & [_ Hf]%emitFeeds_first & (recorded & _ & He)%bind_ok)%bind_ok]%fail_then_ok]%fail_then_ok.
  destruct (match recorded with Some e => Some e | None => _ end) as [engine|]; [|done]. injection He as <-.
  rewrite length_app. cbn [length]. intros Hz. destruct Hf as [->|(first & rest & -> & Hne & Hc & Ht)].
  { cbn in Hz. replace (next + z)%nat with next by lia. apply rtc_refl. }
  assert (length first ≠ 0)%nat as Hpos by (by destruct first).
  eapply rtc_r.
  - rewrite <- app_assoc, app_assoc. eapply follows_mono; [apply waits_prefix|].
    apply (chained_follows next pre first (pred (length first))); [done..|lia].
  - eexists. split.
    + rewrite lookup_app_r by lia. replace (next + z - length pre)%nat with (length (first ++ rest)) by lia. by apply list_lookup_middle.
    + unfold makePlanCostEvent. cbn [deps]. rewrite sortUnique_elem. by replace (next + pred (length first))%nat with (pred (next + length first)) by lia.
Qed.

(** A movement step of a gather. *)
Definition Gathers (step : PlanStep) : Prop :=
  st_kind step = MovementStep ∧
  ∃ connection, connection ∈ connectionPlans plan ∧ pc_id connection = st_connection step ∧ pc_kind connection = Reduce.

(** In the stream, every event of a step comes after the first; of a gather's movement, the
    combination does. *)
Record Ordered (seen : list PlanStep) (st : Emission) : Prop := {
  od_ids s ids : stepEvents st !! s = Some ids → s ∈ st_id <$> seen;
  od_follows step ids x z : step ∈ seen → stepEvents st !! st_id step = Some ids → head ids = Some x → z ∈ ids →
    (¬ Gathers step ∨ last ids = Some z) → Follows (em_events st) x z;
}.

Lemma append_ordered seen st step es movement : Ordered seen st → st_id step ∉ st_id <$> seen →
  (∀ k, (k < length es)%nat → ¬ Gathers step ∨ S k = length es →
   Follows (em_events st ++ es) (length (em_events st)) (length (em_events st) + k)) →
  Ordered (seen ++ [step]) (append st (st_id step) es movement).
Proof.
  intros [Hi Hf] Hnew Hes. unfold append. split; cbn.
  - intros s ids [[<- _]|[_ Hs]]%lookup_insert_Some; rewrite fmap_app; [set_solver|]. apply Hi in Hs. set_solver.
  - intros s ids x z [Hs| ->%list_elem_of_singleton]%elem_of_app.
    + rewrite lookup_insert_ne by (intros He; apply Hnew; rewrite He; by apply list_elem_of_fmap_2). intros Hids Hh Hz Hc.
      eapply follows_mono; [apply waits_prefix|]. by eapply Hf.
    + rewrite lookup_insert_eq. intros [= <-] Hh Hz Hc.
      apply elem_of_seq in Hz as [Hle Hlt]. destruct es as [|e es]; [done|]. cbn in Hh. injection Hh as <-.
      replace z with (length (em_events st) + (z - length (em_events st)))%nat by lia. apply Hes; [lia|].
      destruct Hc as [?|Hlast]; [by left|right]. rewrite last_lookup, length_seq in Hlast. cbn [length pred] in Hlast.
      apply lookup_seq in Hlast as [Hz _]. cbn. cbn in Hz, Hlt. lia.
Qed.

Lemma emitStep_ordered seen st step st' : Ordered seen st → st_id step ∉ st_id <$> seen →
  emitStep cast_out_of_range graph plan machine st step = Ok st' → Ordered (seen ++ [step]) st'.
Proof.
  intros Ho Hnew. unfold emitStep. destruct (st_kind step) eqn:Hk.
  - intros (es & He & [= <-])%bind_ok. apply (emitCompute_built plan machine graph step (length (em_events st)) es) in He as [_ (e & -> & _)].
    apply append_ordered; [done..|]. intros [|k] Hlt _; [|cbn in Hlt; lia]. rewrite Nat.add_0_r. apply rtc_refl.
  - destruct (List.find _ _) as [connection|] eqn:Hfind; [|done]. intros (es & He & [= <-])%bind_ok.
    apply find_elem in Hfind as [Hin Hid%bool_decide_eq_true].
    apply append_ordered; [done..|]. intros k Hlt Hc. destruct (decide (pc_kind connection = Reduce)) as [Hr|Hr].
    + destruct Hc as [Hc|Hc]; [by destruct Hc; split; [|exists connection]|].
      unfold emitMovement in He. apply fail_then_ok in He as [_ He]. rewrite decide_True in He by done. by eapply emitGather_follows.
    + apply emitMovement_chained in He; [|done]. by apply chained_follows.
  - destruct (barrierOn _ _).
    + cbv zeta. intros [= <-]. apply append_ordered; [done..|]. intros [|k] Hlt _; [|cbn in Hlt; lia]. rewrite Nat.add_0_r. apply rtc_refl.
    + intros [= <-]. destruct Ho as [Hi Hf]. split; cbn.
      * intros s ids [[<- _]|[_ Hs]]%lookup_insert_Some; rewrite fmap_app; [set_solver|]. apply Hi in Hs. set_solver.
      * intros s ids x z [Hs| ->%list_elem_of_singleton]%elem_of_app.
        -- rewrite lookup_insert_ne by (intros He; apply Hnew; rewrite He; by apply list_elem_of_fmap_2). by apply Hf.
        -- rewrite lookup_insert_eq. intros [= <-]. unfold forwarded. destruct (_ ≫= _) as [ids|]; cbn; [|done].
           destruct (last ids); cbn; [|done]. intros [= ->] ->%list_elem_of_singleton _. apply rtc_refl.
Qed.

Lemma emitSteps_ordered ss st : NoDup (st_id <$> ss) → emitSteps cast_out_of_range graph plan machine ss = Ok st →
  ∀ step ids x z, step ∈ ss → stepEvents st !! st_id step = Some ids → head ids = Some x → z ∈ ids →
    (¬ Gathers step ∨ last ids = Some z) → Follows (em_events st) x z.
Proof.
  intros Hnd Hf. assert (NoDup (st_id <$> merge_sort stepLe ss)) as Hnd' by (by rewrite merge_sort_Permutation).
  assert (Ordered (merge_sort stepLe ss) st) as [_ Hord].
  { eapply fold_result_inv; [| |exact Hf].
    - split; cbn; intros *; by rewrite ?lookup_empty.
    - intros seen step post st1 st2 Heq Ho Hs. eapply emitStep_ordered; [done| |done].
      rewrite Heq, fmap_app, fmap_cons in Hnd'. apply NoDup_app in Hnd' as (_ & Hn & _). intros Hin. apply (Hn _ Hin). left. }
  intros step ids x z Hin. apply Hord. by rewrite merge_sort_Permutation.
Qed.

(** A step edge puts event [z] of its target after event [y], the last of its source: any
    event of the target, but of a gather's movement only the first and the combination.  (An
    edge from a movement to the wait that carries its last event has nothing to order.) *)
Definition StepOrders (ss : list PlanStep) (st : Emission) (edge : PlanStepEdge) (z y : nat) : Prop :=
  StorageLiveness.from edge ≠ StorageLiveness.to edge ∧ stepEvents st !! StorageLiveness.from edge ≫= last = Some y ∧
  ∃ step ids x, step ∈ ss ∧ st_id step = StorageLiveness.to edge ∧ stepEvents st !! StorageLiveness.to edge = Some ids ∧
    head ids = Some x ∧ x ≠ y ∧ z ∈ ids ∧ (z = x ∨ ¬ Gathers step ∨ last ids = Some z).

Lemma step_orders_follow ss edges st edge z y : NoDup (st_id <$> ss) → emitSteps cast_out_of_range graph plan machine ss = Ok st →
  edge ∈ edges → StepOrders ss st edge z y →
  ∃ x, Waits (orderEvents plan ss edges st) x y ∧ Follows (orderEvents plan ss edges st) x z.
Proof.
  intros Hnd Hst Hin (Hne & Hy & step & ids & x & Hs & Hid & Hids & Hx & Hxy & Hz & Hg).
  pose proof (orderEvents_exact' cast_out_of_range plan machine graph ss edges st Hnd Hst) as Hw. exists x. split.
  - apply Hw. right. left. exists edge. split; [done|]. unfold EdgeOrders. rewrite Hids. by split_and!.
  - destruct Hg as [->|Hg]; [apply rtc_refl|]. apply (follows_mono (em_events st)); [intros id d Hwait; apply Hw; by left|].
    eapply emitSteps_ordered; [exact Hnd|exact Hst|exact Hs|by rewrite Hid|done..].
Qed.
End chains.

(** ** Hop by hop or whole *)
Section hops.
Context `{MLIRTiles} `{!MLIRPrint}.
Variable cast_out_of_range : double → Z.
Variables (plan : CoveringPlan) (machine : MachineModel) (connection : PlanConnection).

(** What an event does, apart from the step that emitted it and the ids it waits for. *)
Definition work (e : PlanCostEvent) : PlanCostEvent :=
  mkPlanEvent (event e) (EventSchedule.workItems e) (ev_bytes e) (sourceBytes e) (destinationBytes e) (fillElements e)
    [] (owner e) (srcMemory e) (dstMemory e) (sourceNode e) (ev_occurrence e) None (connectionId e) (hopIndex e) (storageUses e).

Definition works (r : result plan_event_error (list PlanCostEvent)) : result plan_event_error (list PlanCostEvent) :=
  match r with Ok es => Ok (work <$> es) | Err e => Err e end.

Lemma works_bind r r' k k' : works r = works r' → (∀ es es', r = Ok es → r' = Ok es' → works (k es) = works (k' es')) →
  works (es ← r; rest ← k es; Ok (es ++ rest)%list) = works (es ← r'; rest ← k' es; Ok (es ++ rest)%list).
Proof.
  intros Hr Hk. unfold works in *. destruct r as [es|], r' as [es'|]; cbn in *; [|congruence..].
  injection Hr as Hr. specialize (Hk es es' eq_refl eq_refl). destruct (k es), (k' es'); cbn in *; [|congruence..].
  injection Hk as Hk. by rewrite !fmap_app, Hr, Hk.
Qed.

Lemma emitHop_work i chain next i' chain' next' hop :
  works (emitHop cast_out_of_range plan machine connection i chain next hop) =
  works (emitHop cast_out_of_range plan machine connection i' chain' next' hop).
Proof.
  unfold emitHop. destruct (_ ≫= findMemory machine) as [src|]; [|done]. destruct (_ ≫= findMemory machine) as [dst|]; [|done].
  destruct (linkBetween _ _ _); [|done]. by destruct (recordedHopUses _ _ _).
Qed.

Lemma emitHop_length i chain next hop es :
  emitHop cast_out_of_range plan machine connection i chain next hop = Ok es → length es = 2%nat.
Proof.
  unfold emitHop. destruct (_ ≫= findMemory machine) as [src|]; [|done]. destruct (_ ≫= findMemory machine) as [dst|]; [|done].
  destruct (linkBetween _ _ _); [|done]. cbv zeta. by intros (uses & _ & [= <-])%bind_ok.
Qed.

Lemma emitTransform_work t i chain i' chain' :
  match emitTransform plan machine connection t i chain, emitTransform plan machine connection t i' chain' with
  | Ok e, Ok e' => work e = work e'
  | Err x, Err x' => x = x'
  | _, _ => False
  end.
Proof.
  unfold emitTransform. destruct (transformEngineFor _ _ _) as [[engine|]|]; [|done..]. cbn [mbind result_bind].
  destruct (estimateTransformCost _ _); [|done]. by destruct (transformUses _ _).
Qed.

(** The movement steps of a connection, one per hop from [hop] on, with any ids and wherever in the stream. *)
Fixpoint emitPerHop (ids : nat → Z) (nexts : nat → nat) (hop count : nat) : result plan_event_error (list PlanCostEvent) :=
  match count with
  | O => Ok []
  | S count =>
    es ← emitMovement cast_out_of_range plan machine connection
           (mkStep (ids hop) MovementStep 0 (pc_id connection) (Some (Z.of_nat hop))) (nexts hop);
    rest ← emitPerHop ids nexts (S hop) count;
    Ok (es ++ rest)%list
  end.

(** Of a connection that is no gather. *)
Section whole.
Hypothesis not_gather : pc_kind connection ≠ Reduce.
(** The check that a converting connection has its maps. *)
Hypothesis has_maps : bool_decide (pc_kind connection = LayoutTransformKind ∨ pc_kind connection = TransferAndTransform) &&
  bool_decide (pc_transform connection = None) = false.

(** The conversion at the end of a movement. *)
Definition emitEnd (i : Z) (chain : option nat) (es : list PlanCostEvent) : result plan_event_error (list PlanCostEvent) :=
  match pc_transform connection with
  | Some t => transformed ← emitTransform plan machine connection t i chain; Ok (es ++ [transformed])%list
  | None => Ok es
  end.

Lemma emitEnd_work i chain i' chain' es es' : work <$> es = work <$> es' →
  works (emitEnd i chain es) = works (emitEnd i' chain' es').
Proof.
  intros Hw. unfold emitEnd. destruct (pc_transform connection) as [t|]; [|cbn; by rewrite Hw].
  pose proof (emitTransform_work t i chain i' chain') as Ht.
  destruct (emitTransform plan machine connection t i chain), (emitTransform plan machine connection t i' chain'); [|done..|by subst].
  cbn [mbind result_bind works]. rewrite !fmap_app, Hw. cbn [fmap list_fmap]. by rewrite Ht.
Qed.

Lemma emitEnd_app i chain xs ys :
  emitEnd i chain (xs ++ ys) = (zs ← emitEnd i chain ys; Ok (xs ++ zs)%list).
Proof.
  unfold emitEnd. destruct (pc_transform connection) as [t|]; [|done].
  destruct (emitTransform _ _ _ _ _ _); [|done]. cbn. by rewrite (assoc_L (++)%list).
Qed.

Lemma emitMovement_hop i hop next : (S hop < length (pc_route connection))%nat →
  emitMovement cast_out_of_range plan machine connection
    (mkStep i MovementStep 0 (pc_id connection) (Some (Z.of_nat hop))) next =
  (es ← emitHop cast_out_of_range plan machine connection i None next hop;
   if bool_decide (S (S hop) = length (pc_route connection)) then emitEnd i (Some (S next)) es else Ok es).
Proof.
  intros Hlt. unfold emitMovement. rewrite has_maps. cbn [fail_if mbind result_bind]. rewrite decide_False by done.
  unfold emitHops. cbn [st_hop st_id from_option]. cbv zeta. rewrite Nat2Z.id.
  assert (bool_decide (0 < 1 ∧ length (pc_route connection) < S hop + 1)%nat = false) as -> by (apply bool_decide_false; lia).
  cbn [emitHopsFrom fail_if mbind result_bind].
  destruct (emitHop _ _ _ _ _ _ _ _) as [es|] eqn:He; [|done]. cbn [mbind result_bind].
  apply emitHop_built in He as [_ Hlen]; [|done]. rewrite app_nil_r.
  rewrite decide_False by (by intros ->). rewrite Hlen.
  assert (pred (next + 2) = S next) as -> by lia.
  assert (finalMovement connection (mkStep i MovementStep 0 (pc_id connection) (Some (Z.of_nat hop))) =
    bool_decide (S (S hop) = length (pc_route connection))) as ->.
  { unfold finalMovement. cbn. apply bool_decide_ext. lia. }
  unfold emitEnd. destruct (pc_transform connection) as [t|]; [done|]. by destruct (bool_decide (S (S hop) = _)).
Qed.

Lemma perHop_from ids nexts i chain next hop count : (S hop + count = pred (length (pc_route connection)))%nat →
  works (emitPerHop ids nexts hop (S count)) =
  works (es ← emitHopsFrom cast_out_of_range plan machine connection i chain next hop (S count);
         emitEnd i (Some (pred (next + length es)%nat)) es).
Proof.
  revert chain next hop. induction count as [|count IH]; intros chain next hop Hcount;
    pose proof (emitHop_work (ids hop) None (nexts hop) i chain next hop) as Hh.
  - cbn [emitPerHop emitHopsFrom]. rewrite emitMovement_hop, bool_decide_true by lia.
    destruct (emitHop _ _ _ _ (ids hop) _ _ _) as [es|], (emitHop _ _ _ _ i _ _ _) as [es'|]; cbn [works mbind result_bind] in *;
      [|congruence..].
    injection Hh as Hh. rewrite app_nil_r.
    transitivity (works (emitEnd (ids hop) (Some (S (nexts hop))) es)).
    { destruct (emitEnd _ _ es); cbn; [by rewrite app_nil_r|done]. }
    by apply emitEnd_work.
  - specialize (IH (Some (S next)) (S (S next)) (S hop)). rewrite Nat.add_succ_r, <- Nat.add_succ_l in Hcount. specialize (IH Hcount).
    remember (S count) as k eqn:Hk. cbn [emitPerHop emitHopsFrom]. rewrite emitMovement_hop, bool_decide_false by lia.
    destruct (emitHop _ _ _ _ (ids hop) _ _ _) as [es|], (emitHop _ _ _ _ i _ _ _) as [es'|] eqn:He'; cbn [works mbind result_bind] in Hh |- *;
      [|congruence..].
    injection Hh as Hh. apply emitHop_length in He'.
    destruct (emitHopsFrom _ _ _ _ i _ _ (S hop) k) as [rest'|]; cbn [mbind result_bind] in IH |- *; cycle 1.
    { destruct (emitPerHop _ _ (S hop) k); [done|by injection IH as ->]. }
    rewrite emitEnd_app, length_app, He'. replace (next + (2 + length rest'))%nat with (S (S next) + length rest')%nat by lia.
    destruct (emitPerHop _ _ (S hop) k) as [rest|], (emitEnd i _ rest') as [ends|]; cbn [works mbind result_bind] in IH |- *;
      [|congruence..].
    injection IH as IH. by rewrite !fmap_app, Hh, IH.
Qed.

Lemma perHop_whole ids nexts i next : (2 <= length (pc_route connection))%nat →
  works (emitPerHop ids nexts 0 (routeHops connection)) =
  works (emitMovement cast_out_of_range plan machine connection (mkStep i MovementStep 0 (pc_id connection) None) next).
Proof.
  intros Hlen. unfold routeHops. destruct (pred (length (pc_route connection))) as [|count] eqn:Hn; [lia|].
  rewrite (perHop_from ids nexts i None next 0 count) by lia.
  unfold emitMovement. rewrite has_maps. cbn [fail_if mbind result_bind]. rewrite decide_False by done.
  unfold emitHops. cbn [st_hop st_id from_option]. cbv zeta. unfold routeHops. rewrite Hn.
  assert (bool_decide (0 < S count ∧ length (pc_route connection) < 1 + S count)%nat = false) as -> by (apply bool_decide_false; lia).
  cbn [fail_if mbind result_bind].
  destruct (emitHopsFrom _ _ _ _ _ _ _ _ _) as [es|] eqn:Hes; [|done]. cbn [mbind result_bind].
  assert (es ≠ []) as Hne.
  { intros ->. cbn [emitHopsFrom] in Hes. apply bind_ok in Hes as (es1 & Hfst%emitHop_length & (rest & _ & [= Happ])%bind_ok).
    by destruct es1. }
  rewrite decide_False by done. unfold emitEnd, finalMovement. by destruct (pc_transform connection).
Qed.
End whole.

End hops.

(** ** The streams in time *)
Section timing.
Context `{MLIRTiles} `{!MLIRPrint}.
Variable cast_out_of_range : double → Z.
Hypothesis cast_u64 : ∀ x, in_u64 (cast_out_of_range x).

(** In a schedule, an event that comes after another starts no earlier than it does. *)
Lemma follows_in_time machine es owners don x z :
  Timing cast_out_of_range machine es owners (runSchedule cast_out_of_range es machine owners) don →
  (∀ x, (x < length es)%nat → x ∈ don) → Sound machine es → Follows es x z → (x < length es)%nat →
  (z < length es)%nat ∧
  startOf (runSchedule cast_out_of_range es machine owners) x <= startOf (runSchedule cast_out_of_range es machine owners) z.
Proof.
  intros HT Hall Hsound Hf. induction Hf as [x|x w z Hw _ IH]; intros Hx; [done|]. destruct Hw as (e & He & Hd).
  pose proof (lookup_lt_Some _ _ _ He) as Hlt. destruct (IH Hlt) as [Hz Hle]. split; [done|]. etrans; [|exact Hle].
  destruct (Hsound w e He) as (_ & Hself & Hdeps).
  destruct (time_finish _ _ _ _ _ _ HT x (Hall x Hx)) as (Hfin & _ & _).
  etrans; [|apply (time_deps _ _ _ _ _ _ HT w x); [by apply Hall|]; unfold depsOf; rewrite He; cbn; by rewrite realDeps_all].
  rewrite Hfin. pose proof (charge_u64 cast_out_of_range cast_u64 es x) as Hc. unfold in_u64 in Hc. lia.
Qed.

End timing.

(** ** A concrete plan *)
Section witness.
#[local] Existing Instance sample_types.
#[local] Existing Instance sample_text.
#[local] Existing Instance sample_print.
#[local] Instance plain_tiles : MLIRTiles := {| parseType _ := None; isScalarType _ := false; getShape s := s.2 |}.

(** A producer and a consumer on one engine, and a movement into the consumer's memory. *)
Definition stream_placement (node : nat) (instance : Z) : PlanPlacement :=
  mkPlacement node instance "t.rule" (mkBundle "b" None "emit") "pe.0" ∅ ∅ ∅ ∅ [] ∅ [] (mkCost (double_of_Z 50) 0 0 0 dzero dzero) 64 None.
Definition stream_connection (kind : ConnectionKind) (hop : list string) : PlanConnection :=
  mkPlanConnection 3 0 kind hop ["dma.0"] None [2] (Some GatherSum) None [mkRef 0 Output 0; mkRef 0 Output 1] (Some (mkRef 0 Output 0))
    [mkRef 1 Input 0] [] [] (mkCost dzero 0 256 0 dzero dzero) 64 None None.
Definition stream_plan (connection : PlanConnection) (ss : list PlanStep) (edges : list PlanStepEdge) : CoveringPlan :=
  mkPlan 0 7 "cand" [1; 2] [3] [stream_placement 0 1; stream_placement 1 2] [connection] ∅ zeroCost zeroCost MappingPlan.Accumulation
    None [] "" 0 "" (mkPlanDiagnostics [] [] false [] false [] []) 0 false 0 0 0 0 0 [] [] ss edges.
Definition sample_moved : CoveringPlan := stream_plan (stream_connection MappingPlan.Transfer ["dram.0"; "sram.0"]) [] [].

Definition sample_stream : result plan_event_error PlanEventDAG := buildPlanEvents no_cast sample_moved sample_machine None.
Definition sample_dag : PlanEventDAG := match sample_stream with Ok dag => dag | Err _ => mkDAG [] Snapshot end.

(** Two computes, the transfer and its wait; the second compute after the wait. *)
Example sample_stream_shape :
  (λ e, (ev_kind (event e), resource (event e), deps e)) <$> events sample_dag =
  [(Compute, "mxu.0", []); (Compute, "mxu.0", [3%nat]); (TransferHop, "dma.0", [0%nat]); (Synchronization, "sync", [2%nat])].
Proof. vm_compute. reflexivity. Qed.

Lemma sample_machine_engines : ∀ l, l ∈ links sample_machine → link_engines l ≠ [].
Proof. cbn. by intros l ->%list_elem_of_singleton. Qed.

Lemma sample_moved_ids : NoDup (st_id <$> steps sample_moved).
Proof. constructor. Qed.

Lemma buildPlanEvents_refused_only_for_cycles_witness :
  validateEventResources sample_dag sample_machine = Ok tt ∨
  validateEventResources sample_dag sample_machine = Err (DependencyCycle (length (events sample_dag))).
Proof.
  assert (verifyMachineModel sample_machine = Ok tt) as Hv by (vm_compute; reflexivity).
  assert (buildPlanEvents no_cast sample_moved sample_machine None = Ok sample_dag) as Hb by (vm_compute; reflexivity).
  exact (buildPlanEvents_refused_only_for_cycles no_cast sample_moved sample_machine None sample_dag Hv sample_machine_engines
    sample_moved_ids Hb).
Defined.

Definition sample_attached : CoveringPlan := with_analysis sample_moved (Some (mkDAG (events sample_dag) Snapshot)).

(** The synthesized steps of a plan are not its own, so its stream cannot be attached as it is;
    without the steps it can. *)
Definition sample_unstepped : PlanEventDAG :=
  mkDAG [makePlanCostEvent Compute "mxu.0" (double_of_Z 50) 64 0 []] EventSchedule.Accumulation.
Definition sample_answer : CoveringPlan := with_analysis sample_moved (Some (mkDAG (events sample_unstepped) Snapshot)).

Lemma attached_snapshot_is_answered_witness :
  attachPlanAnalysisEvents sample_moved sample_unstepped sample_machine = Ok sample_answer ∧
  buildPlanEvents no_cast sample_answer sample_machine None = Ok (mkDAG (events sample_unstepped) Snapshot).
Proof.
  assert (attachPlanAnalysisEvents sample_moved sample_unstepped sample_machine = Ok sample_answer) as Ha by (vm_compute; reflexivity).
  split; [exact Ha|].
  exact (proj1 (proj2 (proj2 (attached_snapshot_is_answered no_cast sample_moved sample_unstepped sample_machine sample_answer Ha)))).
Defined.

Example own_stream_is_refused :
  attachPlanAnalysisEvents sample_moved sample_dag sample_machine = Err (NamesStep 0 0).
Proof. vm_compute. reflexivity. Qed.

Definition sample_emission : Emission :=
  match emitSteps no_cast None sample_moved sample_machine (executionStructure sample_moved).1 with
  | Ok st => st
  | Err _ => mkEmission [] ∅ ∅
  end.

Lemma orderEvents_exact_witness :
  Waits (orderEvents sample_moved (executionStructure sample_moved).1 (executionStructure sample_moved).2 sample_emission) 1 3 ↔
    Waits (em_events sample_emission) 1 3 ∨
    (∃ edge, edge ∈ (executionStructure sample_moved).2 ∧ EdgeOrders sample_emission edge 1 3) ∨
    (∃ connection, connection ∈ connectionPlans sample_moved ∧
      DataOrders sample_moved (executionStructure sample_moved).1 sample_emission connection 1 3).
Proof.
  assert (emitSteps no_cast None sample_moved sample_machine (executionStructure sample_moved).1 = Ok sample_emission) as He
    by (vm_compute; reflexivity).
  exact (orderEvents_exact no_cast sample_moved sample_machine None _ (executionStructure sample_moved).2 _
    (executionStructure_ids sample_moved sample_moved_ids) He 1%nat 3%nat).
Defined.

Definition sample_schedule : EventScheduleResult := scheduleNormalizedEvents no_cast (events sample_dag) sample_machine [].
Definition sample_slot (x : nat) : ScheduledEvent := default (mkScheduled 0 0 0) (entries sample_schedule !! x).


(** Two hops, there and back, each a step of its own. *)
Definition two_links : MachineModel :=
  mkMachine 2 0 "toy" "" (Some 1000000000) 4 (mkSync 10 5) [sample_group; sample_pe0; sample_pe1] [sample_dram; sample_sram]
    [sample_mxu] [sample_dma]
    [sample_link; mkLink "sram_to_dram" "sram.0" "dram.0" (double_of_Z 16) 30 64 ["dma.0"] 1 Unidirectional] 0.
Definition sample_hops (kind : ConnectionKind) : PlanConnection := stream_connection kind ["dram.0"; "sram.0"; "dram.0"].
Definition hop_ids (hop : nat) : Z := 2 + Z.of_nat hop.


Definition emitted (r : result plan_event_error (list PlanCostEvent)) : list CostEventKind :=
  match r with Ok es => (λ e, ev_kind (event e)) <$> es | Err _ => [] end.

(** A gather is not: it combines once per hop step, and once when it is emitted whole. *)
Example gather_combines_per_hop :
  emitted (emitPerHop no_cast sample_moved two_links (sample_hops Reduce) hop_ids (λ _, 2%nat) 0 2) =
    [TransferHop; Synchronization; TransferHop; Synchronization; Compute;
     TransferHop; Synchronization; TransferHop; Synchronization; Compute] ∧
  emitted (emitMovement no_cast sample_moved two_links (sample_hops Reduce) (mkStep 9 MovementStep 0 3 None) 5) =
    [TransferHop; Synchronization; TransferHop; Synchronization;
     TransferHop; Synchronization; TransferHop; Synchronization; Compute].
Proof. split; vm_compute; reflexivity. Qed.

(** And only the first feed of a gather waits for the step that produces it. *)
Example second_feed_is_unordered :
  match buildPlanEvents no_cast (stream_plan (stream_connection Reduce ["dram.0"; "sram.0"]) [] []) sample_machine None with
  | Ok dag => (λ e, (ev_kind (event e), deps e)) <$> events dag
  | Err _ => []
  end =
  [(Compute, []); (Compute, [6%nat]); (TransferHop, [0%nat]); (Synchronization, [2%nat]); (TransferHop, []);
   (Synchronization, [4%nat]); (Compute, [3%nat; 5%nat])].
Proof. vm_compute. reflexivity. Qed.
End witness.
