(* ===== verification/StepPlan.v ===== *)
(** The steps of a storage plan: the first half of [finalizeStoragePlan] in
    lib/Mapping/StoragePlan.cpp.

    The nodes of the workload graph are put in a deterministic dependency order; each gets
    a compute step, after the movements and waits of the connections its operands come
    through, hop by hop; and edges say which step follows which.  The theorems: the order
    is topological, complete, and fails exactly on a cyclic graph; the ids of the steps are
    their positions; and when no moved value is carried into by a loop, or written by its own
    reader, every edge leads forward, so the steps of a plan are numbered in an order they can
    run in.  Where the result of an accumulator is moved, that fails, by an example. *)
From S2P Require Import Prelude Float MachineModel CostModel WorkloadGraph EventSchedule MappingPlan StorageLiveness StorageFootprint PlanEvents PlanStream.
Open Scope string_scope.
Open Scope Z_scope.

(** ** What refuses a plan *)
Inductive storage_error :=
| SeveralPlacements (node : nat)
| NotPlaced (node : nat) (name : string)
| CyclicWorkload
| NodeNotInGraph (node : nat)
| ValueNotInGraph (value : nat)
| UnknownCarried (connection : Z) (value : nat)
| UnknownResidency (node : nat) (name : string)
| UnboundedStage (connection : Z)
| Unsupported (e : footprint_error)
| Incomplete (reason : string)
| WeightOverflows (allocation : Z)
| PeakFails (e : peak_error)
| UnknownMemory (memory : string)
| OverCapacity (memory : string) (peak mostResident capacity : Z).

(** ** The dependency order of the nodes *)
Section tables.
Context `{MLIRText}.

Definition valueProducer (graph : WorkloadGraph) : gmap nat nat :=
  foldl (λ m node, foldl (λ m output, <[p_value output := n_id node]> m) m (outputs node)) ∅ (nodes graph).

Definition addConsumer (graph : WorkloadGraph) (node : nat) (m : gmap nat (list nat)) (input : WorkloadPort) :
    gmap nat (list nat) :=
  let value := storageValueOf graph (p_value input) in
  let consumers := default [] (m !! value) in
  if contains consumers node then m else <[value := (consumers ++ [node])%list]> m.
Definition valueConsumers (graph : WorkloadGraph) : gmap nat (list nat) :=
  foldl (λ m node, foldl (addConsumer graph (n_id node)) m (inputs node)) ∅ (nodes graph).

(** The nodes that read what a node writes, itself excepted. *)
Definition addSuccessor (graph : WorkloadGraph) (producer : gmap nat nat) (node : nat) (m : gmap nat (gset nat))
    (input : WorkloadPort) : gmap nat (gset nat) :=
  match producer !! storageValueOf graph (p_value input) with
  | Some p => if decide (p = node) then m else <[p := {[node]} ∪ default ∅ (m !! p)]> m
  | None => m
  end.
Definition successorsOf (graph : WorkloadGraph) : gmap nat (gset nat) :=
  foldl (λ m node, foldl (addSuccessor graph (valueProducer graph) (n_id node)) m (inputs node)) ∅ (nodes graph).
Definition nextOf (successors : gmap nat (gset nat)) (node : nat) : gset nat := default ∅ (successors !! node).

(** A [std::set] in iteration order. *)
Definition ascending (s : gset nat) : list nat := merge_sort Nat.le (elements s).

Definition indegrees (graph : WorkloadGraph) (successors : gmap nat (gset nat)) : gmap nat Z :=
  let zeros := foldl (λ m node, <[n_id node := 0]> m) ∅ (nodes graph) in
  map_fold (λ _ consumers m,
    foldl (λ m consumer, <[consumer := default 0 (m !! consumer) + 1]> m) m (ascending consumers)) zeros successors.

Definition initiallyReady (graph : WorkloadGraph) (indegree : gmap nat Z) : gset nat :=
  list_to_set (filter (λ id, indegree !! id = Some 0) (n_id <$> nodes graph)).

Definition settle (state : gmap nat Z * gset nat) (consumer : nat) : gmap nat Z * gset nat :=
  let '(indegree, ready) := state in
  let left := default 0 (indegree !! consumer) - 1 in
  (<[consumer := left]> indegree, if decide (left = 0) then {[consumer]} ∪ ready else ready).

(** The least ready node first. *)
Fixpoint topoLoop (fuel : nat) (successors : gmap nat (gset nat)) (indegree : gmap nat Z) (ready : gset nat) : list nat :=
  match fuel, ascending ready with
  | S fuel, node :: _ =>
    let '(indegree, ready) := foldl settle (indegree, ready ∖ {[node]}) (ascending (nextOf successors node)) in
    node :: topoLoop fuel successors indegree ready
  | _, _ => []
  end.

Definition topologicalOrder (graph : WorkloadGraph) : result storage_error (list nat) :=
  let successors := successorsOf graph in
  let indegree := indegrees graph successors in
  let topo := topoLoop (length (nodes graph)) successors indegree (initiallyReady graph indegree) in
  fail! CyclicWorkload when bool_decide (length topo ≠ length (nodes graph));
  Ok topo.
End tables.

(** ** Steps *)
Section steps.
Context `{MLIRPrint}.

Definition placementsByNode (plan : CoveringPlan) : result storage_error (gmap nat PlanPlacement) :=
  fold_result (λ m placement,
    fail! (SeveralPlacements (pp_node placement)) when bool_decide (is_Some (m !! pp_node placement));
    Ok (<[pp_node placement := placement]> m)) ∅ (placements plan).

Definition placementsCover (graph : WorkloadGraph) (placed : gmap nat PlanPlacement) : result storage_error unit :=
  for_each (λ node, fail_if (bool_decide (placed !! n_id node = None)) (NotPlaced (n_id node) (opName node))) (nodes graph).

(** The positions of the connections of a value, in the order of their ids. *)
Definition idBefore (connections : list PlanConnection) (l r : nat) : Prop :=
  match connections !! l, connections !! r with
  | Some l, Some r => pc_id l <= pc_id r
  | _, _ => False
  end.
#[export] Instance idBefore_dec connections : RelDecision (idBefore connections).
Proof. intros l r. unfold idBefore. repeat case_match; apply _. Defined.

Definition connectionsOf (plan : CoveringPlan) (value : nat) : list nat :=
  merge_sort (idBefore (connectionPlans plan))
    (filter (λ index, pc_value <$> connectionPlans plan !! index = Some value) (seq 0 (length (connectionPlans plan)))).

Definition materializesMovement (connection : PlanConnection) : bool :=
  bool_decide (pc_kind connection ≠ Direct) || bool_decide (pc_transform connection ≠ None) ||
  bool_decide (1 < length (pc_route connection))%nat.

Definition hopCountFor (connection : PlanConnection) : nat := pred (length (pc_route connection)).

(** [nextStep] and [nextSyncId] are the lengths of the lists they number. *)
Record StepState := mkSteps {
  sp_steps : list PlanStep;
  computeStep : gmap nat Z;
  connectionStep : gmap Z Z;
  syncStep : gmap Z Z;
  connectionHops : gmap nat (list PlanMovementHop);
  emitted : gset nat;
  synchronizations : list SynchronizationStep;
}.
Definition noSteps : StepState := mkSteps [] ∅ ∅ ∅ ∅ ∅ [].

Definition nextStep (st : StepState) : Z := Z.of_nat (length (sp_steps st)).
Definition hopsOf (st : StepState) (index : nat) : list PlanMovementHop := default [] (connectionHops st !! index).

(** One movement step and its wait; the last pair of a movement releases its consumers. *)
Definition emitPair (index : nat) (connection : PlanConnection) (st : StepState) (hop : nat) : StepState :=
  let hopCount := hopCountFor connection in
  let stepPairs := if (0 <? hopCount)%nat then hopCount else 1%nat in
  let recorded := if (0 <? hopCount)%nat then Some (Z.of_nat hop) else None in
  let movement := nextStep st in
  let wait := movement + 1 in
  let sync := mkSyncStep (Z.of_nat (length (synchronizations st))) [pc_id connection]
                (if bool_decide (S hop = stepPairs) then pc_consumerPorts connection else [])
                (bool_decide (1 < length (pc_engines connection))%nat) in
  mkSteps
    (sp_steps st ++ [mkStep movement MovementStep 0 (pc_id connection) recorded;
                     mkStep wait SynchronizationStepKind 0 (pc_id connection) recorded])
    (computeStep st)
    (if decide (hop = 0%nat) then <[pc_id connection := movement]> (connectionStep st) else connectionStep st)
    (<[pc_id connection := wait]> (syncStep st))
    (if (0 <? hopCount)%nat then
       <[index := (hopsOf st index ++
          [mkHop (Z.of_nat hop) (default "" (pc_route connection !! hop)) (default "" (pc_route connection !! S hop)) ""
             0 0 movement wait])%list]> (connectionHops st)
     else connectionHops st)
    (emitted st)
    (synchronizations st ++ [sync]).

Definition stepPairsOf (connection : PlanConnection) : nat :=
  if (0 <? hopCountFor connection)%nat then hopCountFor connection else 1%nat.

Definition mark (index : nat) (st : StepState) : StepState :=
  mkSteps (sp_steps st) (computeStep st) (connectionStep st) (syncStep st) (connectionHops st)
    ({[index]} ∪ emitted st) (synchronizations st).

(** A connection is emitted once; one that moves nothing gets no step. *)
Definition emitConnection (plan : CoveringPlan) (st : StepState) (index : nat) : StepState :=
  if decide (index ∈ emitted st) then st
  else
    mark index
      match connectionPlans plan !! index with
      | Some connection =>
        if materializesMovement connection then foldl (emitPair index connection) st (seq 0 (stepPairsOf connection)) else st
      | None => st
      end.

Definition addComputeStep (node : nat) (st : StepState) : StepState :=
  mkSteps (sp_steps st ++ [mkStep (nextStep st) ComputeStep node 0 None]) (<[node := nextStep st]> (computeStep st))
    (connectionStep st) (syncStep st) (connectionHops st) (emitted st) (synchronizations st).

(** The values a node reads, each once, in port order. *)
Fixpoint distinct (seen : gset nat) (vs : list nat) : list nat :=
  match vs with
  | [] => []
  | v :: vs => if decide (v ∈ seen) then distinct seen vs else v :: distinct ({[v]} ∪ seen) vs
  end.

Definition emitNode (graph : WorkloadGraph) (plan : CoveringPlan) (st : StepState) (id : nat) : result storage_error StepState :=
  match findNode graph id with
  | None => Err (NodeNotInGraph id)
  | Some node =>
    Ok (addComputeStep id
      (foldl (λ st value, foldl (emitConnection plan) st (connectionsOf plan value)) st (distinct ∅ (p_value <$> inputs node))))
  end.

Definition assignSteps (graph : WorkloadGraph) (plan : CoveringPlan) (topo : list nat) : result storage_error StepState :=
  st ← fold_result (emitNode graph plan) noSteps topo;
  Ok (foldl (emitConnection plan) st (seq 0 (length (connectionPlans plan)))).

(** ** Edges *)
Definition edgeFrom (step : option Z) (target : Z) : list PlanStepEdge :=
  match step with Some s => [mkEdge s target] | None => [] end.

Definition producerStep (graph : WorkloadGraph) (st : StepState) (value : nat) : option Z :=
  valueProducer graph !! value ≫= λ node, computeStep st !! node.

Definition consumersAfter (graph : WorkloadGraph) (st : StepState) (value : nat) (tail : Z) : list PlanStepEdge :=
  omap (λ consumer, mkEdge tail <$> computeStep st !! consumer) (default [] (valueConsumers graph !! value)).

(** [previous] orders the first hop of what is left. *)
Fixpoint hopEdges (previous : option Z) (hs : list PlanMovementHop) : list PlanStepEdge :=
  match hs with
  | [] => []
  | h :: hs => (edgeFrom previous (movementStep h) ++ mkEdge (movementStep h) (waitStep h) :: hopEdges (Some (waitStep h)) hs)%list
  end.

Definition connectionEdges (graph : WorkloadGraph) (st : StepState) (index : nat) (connection : PlanConnection) : list PlanStepEdge :=
  match connectionStep st !! pc_id connection with
  | None => []
  | Some movement =>
    let producer := producerStep graph st (pc_value connection) in
    match last (hopsOf st index) with
    | Some final =>
      (hopEdges producer (hopsOf st index) ++ consumersAfter graph st (pc_value connection) (waitStep final))%list
    | None =>
      (edgeFrom producer movement ++
       match syncStep st !! pc_id connection with
       | Some sync => mkEdge movement sync :: consumersAfter graph st (pc_value connection) sync
       | None => consumersAfter graph st (pc_value connection) movement
       end)%list
    end
  end.

Definition sortEdges (es : list PlanStepEdge) : list PlanStepEdge := merge_sort edge_le (remove_dups es).

Definition stepEdgesOf (graph : WorkloadGraph) (plan : CoveringPlan) (st : StepState) : list PlanStepEdge :=
  sortEdges (mjoin (imap (connectionEdges graph st) (connectionPlans plan))).
End steps.

(** ** The tables *)
Section table_proofs.
Context `{MLIRText}.
Variable graph : WorkloadGraph.
(** Node [c] reads what node [p] writes. *)
Definition Depends (c p : nat) : Prop :=
  ∃ node input, node ∈ nodes graph ∧ n_id node = c ∧ input ∈ inputs node ∧
    valueProducer graph !! storageValueOf graph (p_value input) = Some p ∧ p ≠ c.

Lemma fold_inner {A B M} (f : M → A → B → M) (g : A → list B) (P : M → Prop) xs m :
  P m → (∀ m x y, P m → x ∈ xs → y ∈ g x → P (f m x y)) →
  P (foldl (λ m x, foldl (λ m y, f m x y) m (g x)) m xs).
Proof.
  revert m. induction xs as [|x xs IH]; intros m Hm Hf; [done|]. cbn. apply IH; [|intros; apply Hf; [done|by right|done]].
  assert (∀ ys m, (∀ y, y ∈ ys → y ∈ g x) → P m → P (foldl (λ m y, f m x y) m ys)) as Hin; [|by apply Hin].
  induction ys as [|y ys IHy]; intros m' Hys Hm'; [done|]. cbn. apply IHy; [set_solver|]. apply Hf; [done|left|set_solver].
Qed.

(** What a nested loop accumulates: [sem] reads the accumulator, [adds] says what a pair adds. *)
Lemma fold_inner_adds {A B M} (f : M → A → B → M) (g : A → list B) (sem : M → Prop) (adds : A → B → Prop) xs :
  (∀ m x y, x ∈ xs → y ∈ g x → (sem (f m x y) ↔ sem m ∨ adds x y)) → ∀ m,
  sem (foldl (λ m x, foldl (λ m y, f m x y) m (g x)) m xs) ↔ sem m ∨ ∃ x y, x ∈ xs ∧ y ∈ g x ∧ adds x y.
Proof.
  induction xs as [|x xs IH]; intros Hf m; cbn; [set_solver|]. rewrite IH by (intros; apply Hf; [by right|done]).
  assert (∀ ys m, (∀ y, y ∈ ys → y ∈ g x) →
    sem (foldl (λ m y, f m x y) m ys) ↔ sem m ∨ ∃ y, y ∈ ys ∧ adds x y) as Hinner.
  { induction ys as [|y ys IHy]; intros m' Hys; cbn; [set_solver|]. rewrite IHy by set_solver.
    rewrite Hf by (try left; set_solver). setoid_rewrite elem_of_cons. naive_solver. }
  rewrite Hinner by done. setoid_rewrite elem_of_cons. naive_solver.
Qed.

Lemma successors_spec c p : c ∈ nextOf (successorsOf graph) p ↔ Depends c p.
Proof.
  unfold successorsOf, Depends. set (P := valueProducer graph).
  rewrite (fold_inner_adds (λ m node input, addSuccessor graph P (n_id node) m input) inputs (λ m, c ∈ nextOf m p)
    (λ node input, n_id node = c ∧ P !! storageValueOf graph (p_value input) = Some p ∧ p ≠ c)).
  - assert (c ∉ nextOf ∅ p) by (unfold nextOf; rewrite lookup_empty; set_solver). naive_solver.
  - intros m node input _ _. unfold addSuccessor, nextOf. destruct (P !! storageValueOf graph (p_value input)) as [q|]; [|naive_solver].
    destruct (decide (q = n_id node)) as [->|Hne]; [naive_solver|].
    destruct (decide (q = p)) as [->|Hqp].
    + rewrite lookup_insert_eq. cbn. rewrite elem_of_union, elem_of_singleton. naive_solver.
    + rewrite lookup_insert_ne by done. naive_solver.
Qed.

Lemma producer_id v p : valueProducer graph !! v = Some p → p ∈ n_id <$> nodes graph.
Proof.
  unfold valueProducer. revert v p.
  apply (fold_inner (λ m node output, <[p_value output := n_id node]> m) outputs (λ m, ∀ v p, m !! v = Some p → p ∈ n_id <$> nodes graph)).
  - intros v p. by rewrite lookup_empty.
  - intros m node output Hm Hin _ v p [[_ <-]|[_ Hp]]%lookup_insert_Some; [by apply list_elem_of_fmap_2|by eapply Hm].
Qed.

Lemma depends_ids c p : Depends c p → c ∈ n_id <$> nodes graph ∧ p ∈ n_id <$> nodes graph.
Proof. intros (node & input & Hin & <- & _ & Hp%producer_id & _). split; [by apply list_elem_of_fmap_2|done]. Qed.
(** A finalized graph numbers its nodes. *)
Hypothesis numbered : ∀ i node, nodes graph !! i = Some node → n_id node = i.

Lemma numbered_ids : n_id <$> nodes graph = seq 0 (length (nodes graph)).
Proof.
  apply list_eq. intros i. rewrite list_lookup_fmap. destruct (nodes graph !! i) as [node|] eqn:Hi; cbn.
  - rewrite lookup_seq_lt by (by eapply lookup_lt_Some). by rewrite (numbered i node).
  - rewrite lookup_seq_ge; [done|]. by apply lookup_ge_None.
Qed.
End table_proofs.

(** ** The order is topological *)
Lemma ascending_elem x s : x ∈ ascending s ↔ x ∈ s.
Proof. unfold ascending. by rewrite merge_sort_Permutation, elem_of_elements. Qed.
Lemma ascending_NoDup s : NoDup (ascending s).
Proof. unfold ascending. rewrite merge_sort_Permutation. apply NoDup_elements. Qed.
Lemma ascending_head s x xs : ascending s = x :: xs → x ∈ s ∧ ∀ y, y ∈ s → (x <= y)%nat.
Proof.
  intros Ha. assert (StronglySorted Nat.le (ascending s)) as Hs.
  { apply (StronglySorted_merge_sort Nat.le). }
  rewrite Ha in Hs. apply StronglySorted_inv in Hs as [_ Hall]. rewrite Forall_forall in Hall.
  split; [rewrite <- ascending_elem, Ha; left|]. intros y Hy. rewrite <- ascending_elem, Ha in Hy.
  apply elem_of_cons in Hy as [->|Hy]; [lia|]. by apply Hall.
Qed.
Lemma ascending_nil s : ascending s = [] → s = ∅.
Proof. intros Ha. apply set_eq. intros x. rewrite <- ascending_elem, Ha. set_solver. Qed.

(** The producers a successor table gives a node. *)
Definition predsIn (m : gmap nat (gset nat)) (c : nat) : gset nat := dom (filter (λ e, c ∈ e.2) m).
Lemma predsIn_elem m c p : p ∈ predsIn m c ↔ c ∈ nextOf m p.
Proof.
  unfold predsIn, nextOf. rewrite elem_of_dom. setoid_rewrite is_Some_alt. unfold is_Some.
  destruct (m !! p) as [s|] eqn:Hp; cbn.
  - destruct (decide (c ∈ s)).
    + rewrite (map_lookup_filter_Some_2 _ m p s) by done. done.
    + rewrite map_lookup_filter_None_2; [done|]. right. intros s' Hs. rewrite Hp in Hs. by injection Hs as <-.
  - rewrite map_lookup_filter_None_2 by auto. set_solver.
Qed.

Lemma count_consumers (cs : list nat) (m : gmap nat Z) x : NoDup cs →
  foldl (λ m consumer, <[consumer := default 0 (m !! consumer) + 1]> m) m cs !! x =
  (if decide (x ∈ cs) then Some (default 0 (m !! x) + 1) else m !! x : option Z).
Proof.
  revert m. induction cs as [|c cs IH]; intros m; [done|]. intros [Hc Hnd]%NoDup_cons. cbn. rewrite IH by done.
  destruct (decide (x = c)) as [->|Hne].
  - rewrite decide_False by done. rewrite lookup_insert_eq, decide_True by left. done.
  - rewrite lookup_insert_ne by done. destruct (decide (x ∈ cs)), (decide (x ∈ c :: cs)); set_solver.
Qed.

Lemma settle_all (cs : list nat) (indegree : gmap nat Z) (ready : gset nat) : NoDup cs →
  ∃ indegree' ready', foldl settle (indegree, ready) cs = (indegree', ready') ∧
    (∀ x, indegree' !! x = if decide (x ∈ cs) then Some (default 0 (indegree !! x) - 1) else indegree !! x) ∧
    ∀ x, x ∈ ready' ↔ x ∈ ready ∨ (x ∈ cs ∧ default 0 (indegree !! x) = 1).
Proof.
  revert indegree ready. induction cs as [|c cs IH]; intros indegree ready.
  { intros _. exists indegree, ready. split; [done|]. split; [done|]. set_solver. }
  intros [Hc Hnd]%NoDup_cons. cbn [foldl settle]. cbv zeta.
  destruct (IH (<[c := default 0 (indegree !! c) - 1]> indegree)
    (if decide (default 0 (indegree !! c) - 1 = 0) then {[c]} ∪ ready else ready) Hnd) as (i' & r' & Hf & Hi & Hr).
  exists i', r'. split; [done|]. split.
  - intros x. rewrite Hi. destruct (decide (x = c)) as [->|Hne].
    + rewrite decide_False by done. by rewrite lookup_insert_eq, decide_True by left.
    + rewrite lookup_insert_ne by done. destruct (decide (x ∈ cs)), (decide (x ∈ c :: cs)); set_solver.
  - intros x. rewrite Hr. destruct (decide (x = c)) as [->|Hne].
    + destruct (decide (default 0 (indegree !! c) - 1 = 0)); [|]; rewrite ?elem_of_union, ?elem_of_singleton, ?elem_of_cons.
      * split; [|by left; left]. intros _. right. split; [by left|lia].
      * split; [naive_solver|]. intros [?|[_ ?]]; [by left|lia].
    + rewrite lookup_insert_ne by done. destruct (decide _); set_solver.
Qed.

Section kahn.
Context `{MLIRText}.
Variable graph : WorkloadGraph.
Local Abbreviation succs := (successorsOf graph).
Local Abbreviation ids := (n_id <$> nodes graph).

Lemma preds_depends c p : p ∈ predsIn succs c ↔ Depends graph c p.
Proof. by rewrite predsIn_elem, successors_spec. Qed.

Lemma indegrees_spec c : c ∈ ids → indegrees graph succs !! c = Some (Z.of_nat (size (predsIn succs c))).
Proof.
  intros Hc. unfold indegrees.
  assert (∀ ns, foldl (λ m node, <[n_id node := 0]> m) (∅ : gmap nat Z) ns !! c = if decide (c ∈ n_id <$> ns) then Some 0 else None) as Hz.
  { assert (∀ ns (m : gmap nat Z), foldl (λ m node, <[n_id node := 0]> m) m ns !! c = if decide (c ∈ n_id <$> ns) then Some 0 else m !! c) as Hz;
      [|intros ns; by rewrite Hz, lookup_empty].
    induction ns as [|n ns IH]; intros m; [done|]. cbn. rewrite IH. destruct (decide (c ∈ n_id <$> ns)), (decide (c ∈ n_id n :: (n_id <$> ns))) as [Hin|Hin]; [set_solver|set_solver| |].
    - apply elem_of_cons in Hin as [->|]; [by rewrite lookup_insert_eq|done].
    - rewrite lookup_insert_ne; set_solver. }
  revert c Hc Hz.
  apply (map_fold_weak_ind (λ r m, ∀ c, c ∈ ids →
    (∀ ns, foldl (λ m node, <[n_id node := 0]> m) (∅ : gmap nat Z) ns !! c = if decide (c ∈ n_id <$> ns) then Some 0 else None) →
    r !! c = Some (Z.of_nat (size (predsIn m c))))).
  - intros c Hc Hz. rewrite Hz, decide_True by done.
    assert (predsIn ∅ c = ∅) as -> by (apply set_eq; intros p; rewrite predsIn_elem; unfold nextOf; rewrite lookup_empty; set_solver).
    by rewrite size_empty.
  - intros k s m r Hk IH c Hc Hz. rewrite count_consumers by apply ascending_NoDup. rewrite (IH c Hc Hz). cbn.
    assert (∀ p, p ∈ predsIn (<[k := s]> m) c ↔ (p = k ∧ c ∈ s) ∨ p ∈ predsIn m c) as Hp.
    { intros p. rewrite !predsIn_elem. unfold nextOf. destruct (decide (p = k)) as [->|]; [rewrite lookup_insert_eq, Hk|rewrite lookup_insert_ne by done];
      cbn; set_solver. }
    assert (k ∉ predsIn m c) as Hkm by (rewrite predsIn_elem; unfold nextOf; rewrite Hk; set_solver).
    destruct (decide (c ∈ ascending s)) as [Hs|Hs]; rewrite ascending_elem in Hs.
    + assert (predsIn (<[k := s]> m) c = {[k]} ∪ predsIn m c) as -> by (apply set_eq; intros p; rewrite Hp; set_solver).
      rewrite size_union, size_singleton by set_solver. f_equal. lia.
    + assert (predsIn (<[k := s]> m) c = predsIn m c) as -> by (apply set_eq; intros p; rewrite Hp; set_solver). done.
Qed.

(** [don] has been taken, in order; [ready] may be taken next. *)
Record Taking (indegree : gmap nat Z) (ready : gset nat) (don : list nat) : Prop := {
  tk_indegree c : c ∈ ids → c ∉ don → indegree !! c = Some (Z.of_nat (size (predsIn succs c ∖ list_to_set don)));
  tk_ready c : c ∈ ready ↔ c ∈ ids ∧ c ∉ don ∧ predsIn succs c ⊆ list_to_set don;
  tk_ids c : c ∈ don → c ∈ ids;
  tk_NoDup : NoDup don;
  tk_order pre c post : don = (pre ++ c :: post)%list →
    predsIn succs c ⊆ list_to_set pre ∧
    ∀ q, q ∈ ids → q ∉ pre → predsIn succs q ⊆ list_to_set pre → (c <= q)%nat;
}.

Lemma taking_initial : Taking (indegrees graph succs) (initiallyReady graph (indegrees graph succs)) [].
Proof.
  split; [|intros c|by intros c ?%elem_of_nil|constructor|by intros [|] ? ? ?].
  - intros c Hc _. rewrite indegrees_spec by done. cbn. by rewrite difference_empty_L.
  - unfold initiallyReady. rewrite elem_of_list_to_set, list_elem_of_filter. cbn. split.
    + intros [Hz Hc]. split; [done|]. split; [by intros ?%elem_of_nil|]. rewrite indegrees_spec in Hz by done.
      injection Hz as Hz. assert (size (predsIn succs c) = 0%nat) as Hs by lia. apply size_empty_inv in Hs. set_solver.
    + intros (Hc & _ & Hp). split; [|done]. rewrite indegrees_spec by done.
      assert (predsIn succs c = ∅) as -> by set_solver. by rewrite size_empty.
Qed.

Lemma nextOf_ids node c : c ∈ nextOf succs node → c ∈ ids.
Proof. rewrite successors_spec. intros Hd. by apply (depends_ids graph) in Hd as [? _]. Qed.

Lemma taking_step indegree ready don node rest : Taking indegree ready don → ascending ready = node :: rest →
  ∃ indegree' ready', foldl settle (indegree, ready ∖ {[node]}) (ascending (nextOf succs node)) = (indegree', ready') ∧
    Taking indegree' ready' (don ++ [node]).
Proof.
  intros [Hi Hr Hids Hnd Ho] Ha. apply ascending_head in Ha as [Hnode Hleast].
  apply Hr in Hnode as Hn. destruct Hn as (Hnid & Hndon & Hnp).
  destruct (settle_all (ascending (nextOf succs node)) indegree (ready ∖ {[node]}) (ascending_NoDup _)) as (i' & r' & Hf & Hi' & Hr').
  exists i', r'. split; [done|].
  assert (∀ c, c ∈ nextOf succs node ↔ node ∈ predsIn succs c) as Hnext by (intros c; by rewrite predsIn_elem).
  assert (∀ c, c ∈ ids → c ∉ don → node ∈ predsIn succs c →
    Z.of_nat (size (predsIn succs c ∖ list_to_set don)) = Z.of_nat (size (predsIn succs c ∖ list_to_set (don ++ [node]))) + 1) as Hless.
  { intros c _ _ Hin. assert (predsIn succs c ∖ list_to_set don = {[node]} ∪ (predsIn succs c ∖ list_to_set (don ++ [node]))) as ->.
    { apply set_eq. intros p. rewrite elem_of_union, !elem_of_difference, elem_of_singleton, !elem_of_list_to_set, elem_of_app, list_elem_of_singleton.
      destruct (decide (p = node)) as [->|]; naive_solver. }
    rewrite size_union, size_singleton; [lia|]. intros p. rewrite elem_of_singleton, elem_of_difference, elem_of_list_to_set, elem_of_app, list_elem_of_singleton. tauto. }
  split.
  - intros c Hc Hcd. rewrite elem_of_app, list_elem_of_singleton in Hcd. rewrite Hi'.
    destruct (decide (c ∈ ascending (nextOf succs node))) as [Hin|Hin]; rewrite ascending_elem, Hnext in Hin.
    + rewrite Hi by tauto. cbn. rewrite Hless by tauto. f_equal. lia.
    + rewrite Hi by tauto. do 3 f_equal. apply set_eq. intros p.
      rewrite !elem_of_difference, !elem_of_list_to_set, elem_of_app, list_elem_of_singleton. destruct (decide (p = node)) as [->|]; tauto.
  - intros c. rewrite Hr', elem_of_difference, elem_of_singleton, Hr, ascending_elem, Hnext.
    rewrite list_to_set_app_L, elem_of_app, list_elem_of_singleton. cbn. split.
    + intros [((Hc & Hcd & Hp) & Hne)|[Hin Hone]]; [set_solver|].
      assert (c ∈ ids) as Hc by (by apply (nextOf_ids node), Hnext).
      assert (c ∉ don) as Hcd.
      { intros (pre & post & Heq)%list_elem_of_split. destruct (Ho _ _ _ Heq) as [Hp _]. apply Hndon. rewrite Heq. set_solver. }
      assert (c ≠ node) as Hne.
      { intros ->. apply Hndon, (elem_of_list_to_set (C := gset nat)). by apply Hnp. }
      split_and!; [done|tauto|]. rewrite Hi in Hone by done. cbn in Hone. rewrite Hless in Hone by done.
      assert (size (predsIn succs c ∖ list_to_set (don ++ [node])) = 0%nat) as Hz by lia. apply size_empty_inv in Hz.
      rewrite list_to_set_app_L in Hz. cbn in Hz. rewrite union_empty_r_L in Hz |- *. intros p Hp. apply dec_stable. intros Hn.
      apply (not_elem_of_empty (C := gset nat) p). rewrite <- Hz. by apply elem_of_difference.
    + intros (Hc & Hcd & Hp). destruct (decide (node ∈ predsIn succs c)) as [Hin|Hin]; [right|left; set_solver].
      split; [done|]. rewrite Hi by tauto. cbn. rewrite Hless by tauto.
      assert (predsIn succs c ∖ list_to_set (don ++ [node]) = ∅) as ->; [|by rewrite size_empty].
      rewrite list_to_set_app_L. cbn. set_solver.
  - intros c [?| ->%list_elem_of_singleton]%elem_of_app; auto.
  - apply NoDup_app. split_and!; [done| |apply NoDup_singleton]. set_solver.
  - intros pre c post Heq. destruct post as [|x post _] using rev_ind.
    + apply app_inj_tail in Heq as [-> ->]. split; [done|]. intros q Hq Hqd Hqp. apply Hleast, Hr. auto.
    + rewrite app_comm_cons, (assoc_L (++)%list) in Heq. apply app_inj_tail in Heq as [Heq _]. by apply (Ho pre c post).
Qed.

Lemma topoLoop_spec fuel : ∀ indegree ready don, Taking indegree ready don →
  ∃ rest indegree' ready', topoLoop fuel succs indegree ready = rest ∧ Taking indegree' ready' (don ++ rest) ∧
    (ready' = ∅ ∨ length rest = fuel).
Proof.
  induction fuel as [|fuel IH]; intros indegree ready don HT; cbn [topoLoop].
  { exists [], indegree, ready. rewrite app_nil_r. auto. }
  destruct (ascending ready) as [|node rest] eqn:Ha.
  { exists [], indegree, ready. rewrite app_nil_r. split_and!; [done|done|left; by apply ascending_nil]. }
  destruct (taking_step _ _ _ _ _ HT Ha) as (i' & r' & Hf & HT'). rewrite Hf.
  destruct (IH i' r' _ HT') as (rest' & i'' & r'' & <- & HT'' & Hend).
  eexists. exists i'', r''. split; [done|]. rewrite <- (assoc_L (++)%list) in HT''. split; [done|].
  destruct Hend as [?|?]; [by left|right; cbn; congruence].
Qed.
End kahn.

(** ** The order, exactly *)
Section order.
Context `{MLIRText}.
Variable graph : WorkloadGraph.
Local Abbreviation ids := (n_id <$> nodes graph).

(** The readable order: each node once, each after what it depends on, and the least node first
    among those that could be next. *)
Definition TopologicalOrder (topo : list nat) : Prop :=
  topo ≡ₚ ids ∧
  ∀ pre c post, topo = (pre ++ c :: post)%list →
    (∀ p, Depends graph c p → p ∈ pre) ∧
    (∀ q, q ∈ ids → q ∉ pre → (∀ p, Depends graph q p → p ∈ pre) → (c <= q)%nat).

Definition AcyclicWorkload : Prop := ∃ rank : nat → nat, ∀ c p, Depends graph c p → (rank p < rank c)%nat.

Lemma taking_order indegree ready topo : NoDup ids → Taking graph indegree ready topo → length topo = length (nodes graph) →
  TopologicalOrder topo.
Proof.
  intros Hnd [_ _ Hids Hndt Ho] Hlen. split.
  - apply submseteq_length_Permutation; [|by rewrite length_fmap, Hlen]. apply NoDup_submseteq; [done|]. intros c. apply Hids.
  - intros pre c post Heq. destruct (Ho pre c post Heq) as [Hp Hl]. split.
    + intros p Hdep%preds_depends%Hp. by apply elem_of_list_to_set in Hdep.
    + intros q Hq Hqp Hqd. apply Hl; [done|done|]. intros p Hdep%preds_depends%Hqd. by apply elem_of_list_to_set.
Qed.

Lemma order_acyclic topo : TopologicalOrder topo → NoDup topo → AcyclicWorkload.
Proof.
  intros [Hperm Ho] Hnd. exists (λ c, from_option fst 0%nat (list_find (λ x, x = c) topo)). intros c p Hdep.
  assert (c ∈ topo) as Hc by (rewrite Hperm; by apply (depends_ids graph c p)).
  apply list_elem_of_split in Hc as (pre & post & Heq). destruct (Ho pre c post Heq) as [Hp _]. specialize (Hp p Hdep).
  assert (c ∉ pre) as Hcp.
  { rewrite Heq, NoDup_app in Hnd. intros Hin. destruct Hnd as (_ & Hx & _). apply (Hx c Hin). left. }
  rewrite Heq. rewrite (list_find_app_r (λ x, x = c) pre (c :: post)).
  2: { apply list_find_None, Forall_forall. intros x Hx Hxc. apply Hcp. by rewrite <- Hxc. }
  cbn. rewrite decide_True by done. cbn.
  apply list_elem_of_split in Hp as (l & r & ->).
  destruct (list_find (λ x, x = p) (l ++ p :: r)) as [[i x]|] eqn:Hf.
  - rewrite (list_find_app_l _ _ _ _ _ Hf). cbn. apply list_find_Some in Hf as (Hi & _ & _). apply lookup_lt_Some in Hi. lia.
  - apply list_find_None in Hf. rewrite Forall_forall in Hf. destruct (Hf p); [|done]. apply elem_of_app. right. left.
Qed.

Lemma order_unique topo topo' : NoDup ids → TopologicalOrder topo → TopologicalOrder topo' → topo = topo'.
Proof.
  intros Hnd [Hp Ho] [Hp' Ho'].
  assert (∀ pre post post', topo = (pre ++ post)%list → topo' = (pre ++ post')%list → post = post') as Hall; [|by apply (Hall [])].
  intros pre post. revert pre. induction post as [|c post IH]; intros pre [|c' post'] Heq Heq'.
  - done.
  - exfalso. apply Permutation_length in Hp, Hp'. rewrite Heq in Hp. rewrite Heq' in Hp'. rewrite !length_app in *. cbn in *. lia.
  - exfalso. apply Permutation_length in Hp, Hp'. rewrite Heq in Hp. rewrite Heq' in Hp'. rewrite !length_app in *. cbn in *. lia.
  - destruct (Ho pre c post Heq) as [Hd Hl], (Ho' pre c' post' Heq') as [Hd' Hl'].
    assert (∀ (t : list nat) x r, t ≡ₚ ids → t = (pre ++ x :: r)%list → x ∈ ids ∧ x ∉ pre) as Hnext.
    { intros t x r Ht ->. rewrite <- Ht in Hnd. split; [rewrite <- Ht; apply elem_of_app; right; left|].
      apply NoDup_app in Hnd as (_ & Hx & _). intros Hin. apply (Hx x Hin). left. }
    destruct (Hnext _ _ _ Hp Heq) as [Hc Hcp], (Hnext _ _ _ Hp' Heq') as [Hc' Hcp'].
    assert (c = c') as <- by (apply Nat.le_antisymm; [by apply Hl|by apply Hl']).
    f_equal. apply (IH (pre ++ [c])%list); by rewrite <- (assoc_L (++)%list).
Qed.

Lemma topologicalOrder_ok : NoDup ids →
  (∀ topo, topologicalOrder graph = Ok topo → TopologicalOrder topo) ∧ (AcyclicWorkload → ∃ topo, topologicalOrder graph = Ok topo).
Proof.
  intros Hnd. unfold topologicalOrder. cbv zeta.
  destruct (topoLoop_spec graph (length (nodes graph)) _ _ [] (taking_initial graph)) as (topo & i' & r' & -> & HT & Hend). cbn [app] in HT.
  split.
  - intros topo' [Hlen%bool_decide_eq_false [= <-]]%fail_then_ok. apply dec_stable in Hlen. by eapply taking_order.
  - intros [rank Hrank].
    assert (length topo = length (nodes graph)) as Hlen; [|exists topo; by rewrite bool_decide_false by (by intros ?)].
    destruct Hend as [Hready|?]; [|done].
    assert (∀ k c, (rank c < k)%nat → c ∈ ids → c ∈ topo) as Hall.
    { induction k as [|k IH]; intros c Hk Hc; [lia|]. destruct (decide (c ∈ topo)) as [|Hn]; [done|exfalso].
      assert (c ∈ r') as Hcr.
      { apply (tk_ready _ _ _ _ HT). split_and!; [done|done|]. intros p Hp%preds_depends. apply elem_of_list_to_set, IH.
        - specialize (Hrank c p Hp). lia.
        - by apply (depends_ids graph c p). }
      rewrite Hready in Hcr. set_solver. }
    rewrite <- (length_fmap n_id). apply Permutation_length, NoDup_Permutation; [apply (tk_NoDup _ _ _ _ HT)|done|].
    intros c. split; [apply (tk_ids _ _ _ _ HT)|]. intros Hc. by apply (Hall (S (rank c))); [lia|].
Qed.
End order.

(** ** The steps *)
Section emission.
Context `{MLIRPrint}.
Variable graph : WorkloadGraph.
Variable plan : CoveringPlan.

Definition hopRecord (connection : PlanConnection) (first : Z) (hop : nat) : PlanMovementHop :=
  mkHop (Z.of_nat hop) (default "" (pc_route connection !! hop)) (default "" (pc_route connection !! S hop)) "" 0 0
    (first + 2 * Z.of_nat hop) (first + 2 * Z.of_nat hop + 1).

(** The two steps of a hop. *)
Definition stepPair (connection : PlanConnection) (first : Z) (hop : nat) : list PlanStep :=
  let recorded := if (0 <? hopCountFor connection)%nat then Some (Z.of_nat hop) else None in
  [mkStep (first + 2 * Z.of_nat hop) MovementStep 0 (pc_id connection) recorded;
   mkStep (first + 2 * Z.of_nat hop + 1) SynchronizationStepKind 0 (pc_id connection) recorded].

Record PairsEmitted (index : nat) (connection : PlanConnection) (st st' : StepState) (k : nat) : Prop := {
  pe_steps : sp_steps st' = (sp_steps st ++ (seq 0 k ≫= stepPair connection (nextStep st)))%list;
  pe_compute : computeStep st' = computeStep st;
  pe_connection : connectionStep st' = if decide (k = 0%nat) then connectionStep st else <[pc_id connection := nextStep st]> (connectionStep st);
  pe_sync i : syncStep st' !! i = if decide (k ≠ 0%nat ∧ i = pc_id connection) then Some (nextStep st + 2 * Z.of_nat k - 1) else syncStep st !! i;
  pe_hops i : hopsOf st' i = (hopsOf st i ++ if decide (i = index ∧ 0 < hopCountFor connection)%nat then hopRecord connection (nextStep st) <$> seq 0 k else [])%list;
  pe_emitted : emitted st' = emitted st;
}.

Lemma pair_length connection first k : length (seq 0 k ≫= stepPair connection first) = (2 * k)%nat.
Proof. induction k as [|k IH]; [done|]. rewrite seq_S, bind_app, length_app, IH. cbn. lia. Qed.

Lemma emitPairs index connection st k : PairsEmitted index connection st (foldl (emitPair index connection) st (seq 0 k)) k.
Proof.
  induction k as [|k [Hs Hc Hcn Hsy Hh He]].
  { split; [by cbn; rewrite app_nil_r|done|done|..|done]; intros i; cbn [seq foldl].
    - rewrite decide_False; [done|tauto].
    - destruct (decide _); by rewrite app_nil_r. }
  rewrite seq_S, foldl_app. cbn [foldl]. set (st1 := foldl _ st (seq 0 k)) in *.
  assert (nextStep st1 = nextStep st + 2 * Z.of_nat k) as Hn.
  { unfold nextStep. rewrite Hs, length_app, pair_length. lia. }
  split; unfold emitPair; cbv zeta; cbn [sp_steps computeStep connectionStep syncStep connectionHops emitted].
  - rewrite Hs, Hn, seq_S, bind_app, (assoc_L (++)%list). done.
  - done.
  - rewrite Hcn, Hn. destruct k; cbn; [|done]. by rewrite Z.add_0_r.
  - intros i. rewrite Hn. destruct (decide (i = pc_id connection)) as [->|Hne].
    + rewrite lookup_insert_eq, decide_True by (split; [lia|done]). f_equal. lia.
    + rewrite lookup_insert_ne, Hsy by done. rewrite !decide_False; [done|tauto..].
  - intros i. unfold hopsOf at 1. cbn [connectionHops]. destruct (0 <? hopCountFor connection)%nat eqn:Hp.
    + apply Nat.ltb_lt in Hp. destruct (decide (i = index)) as [->|Hne].
      * rewrite lookup_insert_eq. cbn [default]. rewrite Hh, !decide_True, seq_S, fmap_app, (assoc_L (++)%list) by done.
        cbn. by rewrite Hn.
      * rewrite lookup_insert_ne by done. fold (hopsOf st1 i). rewrite Hh, !decide_False; [done|tauto..].
    + apply Nat.ltb_ge in Hp. fold (hopsOf st1 i). rewrite Hh, !decide_False; [done|lia..].
  - done.
Qed.

(** The hops of a connection move one after the other. *)
Definition Rising (m : gmap nat (list PlanMovementHop)) : Prop :=
  ∀ index i h h', default [] (m !! index) !! i = Some h → default [] (m !! index) !! S i = Some h' →
    movementStep h <= movementStep h'.

(** ... and have all begun by the next step. *)
Definition HopsBegun (st : StepState) : Prop :=
  Rising (connectionHops st) ∧ ∀ index h, h ∈ hopsOf st index → movementStep h <= nextStep st.

Lemma emitPair_begun index connection st hop : HopsBegun st → HopsBegun (emitPair index connection st hop).
Proof.
  intros [Hr Hb]. set (st' := emitPair index connection st hop).
  assert (nextStep st' = nextStep st + 2) as Hn by (unfold nextStep, st', emitPair; cbn; rewrite length_app; cbn; lia).
  assert (∀ ix, hopsOf st' ix = hopsOf st ix ∨ ∃ h, hopsOf st' ix = (hopsOf st ix ++ [h])%list ∧ movementStep h = nextStep st) as Hh.
  { intros ix. unfold st', emitPair, hopsOf. cbv zeta. cbn [connectionHops]. destruct (0 <? hopCountFor connection)%nat; [|by left].
    destruct (decide (ix = index)) as [->|Hne]; [|by rewrite lookup_insert_ne; [left|]].
    rewrite lookup_insert_eq. right. by eexists. }
  split.
  - intros ix i h h'. change (hopsOf st' ix !! i = Some h → hopsOf st' ix !! S i = Some h' → movementStep h <= movementStep h').
    destruct (Hh ix) as [->|(x & -> & Hx)]; [apply Hr|]. rewrite !lookup_app_Some.
    intros Hi [HS|[Hlen HS]].
    + destruct Hi as [Hi|[Hl _]]; [by eapply Hr|]. apply lookup_lt_Some in HS. lia.
    + destruct (S i - _)%nat eqn:Hd in HS; [|done]. injection HS as <-. rewrite Hx.
      destruct Hi as [Hi|[Hl _]]; [|lia]. apply (Hb ix), list_elem_of_lookup. eauto.
  - intros ix h. rewrite Hn. destruct (Hh ix) as [->|(x & -> & Hx)].
    + intros Hin%Hb. lia.
    + intros [Hin%Hb| ->%list_elem_of_singleton]%elem_of_app; lia.
Qed.

Lemma emitConnection_begun st index : HopsBegun st → HopsBegun (emitConnection plan st index).
Proof.
  intros Hs. unfold emitConnection. destruct (decide _); [done|]. destruct (connectionPlans plan !! index) as [c|]; [|done].
  destruct (materializesMovement c); [|done].
  assert (∀ hops st, HopsBegun st → HopsBegun (foldl (emitPair index c) st hops)) as Hall.
  { induction hops as [|hop hops IH]; intros st0 Hs0; [done|]. by apply IH, emitPair_begun. }
  by apply (Hall _ st).
Qed.

Lemma foldl_begun indexes st : HopsBegun st → HopsBegun (foldl (emitConnection plan) st indexes).
Proof. revert st. induction indexes as [|i rest IH]; intros st Hs; [done|]. by apply IH, emitConnection_begun. Qed.

(** Whatever the plan, the hops of its connections begin in route order. *)
Lemma assignSteps_rising topo st : assignSteps graph plan topo = Ok st → Rising (connectionHops st).
Proof.
  unfold assignSteps. intros (st0 & Hst0 & [= <-])%bind_ok. apply foldl_begun.
  apply (fold_result_inv (emitNode graph plan) (λ _, HopsBegun) topo noSteps st0); [split; [done|by intros ix h ?%elem_of_nil]| |done].
  intros pre id post st1 st2 _ Hs. unfold emitNode. destruct (findNode graph id) as [node|]; [|done]. intros [= <-].
  set (st2 := foldl _ st1 _).
  assert (HopsBegun st2) as [Hr Hb].
  { unfold st2. generalize (distinct ∅ (p_value <$> inputs node)) as vs. intros vs. clear st2. revert st1 Hs.
    induction vs as [|v vs IH]; intros st1 Hs; [done|]. by apply IH, foldl_begun. }
  split; [done|]. intros ix h Hin%Hb. unfold nextStep in *. cbn. rewrite length_app. lia.
Qed.

(** The steps a connection was given, from [first] on. *)
Record Settled (st : StepState) (index : nat) (connection : PlanConnection) (first : Z) : Prop := {
  se_first : connectionStep st !! pc_id connection = Some first;
  se_last : syncStep st !! pc_id connection = Some (first + 2 * Z.of_nat (stepPairsOf connection) - 1);
  se_hops : hopsOf st index = hopRecord connection first <$> seq 0 (hopCountFor connection);
  se_bound : 0 <= first ∧ first + 2 * Z.of_nat (stepPairsOf connection) <= nextStep st;
  se_producer p : valueProducer graph !! pc_value connection = Some p →
    ∃ k, computeStep st !! p = Some k ∧ k < first;
  se_consumers c k : c ∈ default [] (valueConsumers graph !! pc_value connection) → computeStep st !! c = Some k →
    first + 2 * Z.of_nat (stepPairsOf connection) - 1 < k;
}.

Record Assigned (st : StepState) (don : list nat) : Prop := {
  as_ids i s : sp_steps st !! i = Some s → st_id s = Z.of_nat i;
  as_computes : st_node <$> filter (λ s, st_kind s = ComputeStep) (sp_steps st) = don;
  as_step n k : computeStep st !! n = Some k → 0 <= k < nextStep st;
  as_done n : is_Some (computeStep st !! n) ↔ n ∈ don;
  as_settled i c : connectionPlans plan !! i = Some c → i ∈ emitted st → materializesMovement c = true →
    ∃ first, Settled st i c first;
  as_clean i c : connectionPlans plan !! i = Some c → (i ∉ emitted st ∨ materializesMovement c = false) →
    connectionStep st !! pc_id c = None ∧ hopsOf st i = [];
}.

Lemma assigned_initial : Assigned noSteps [].
Proof.
  split; cbn; try done.
  - intros n. rewrite lookup_empty, elem_of_nil. split; [by intros [? ?]|done].
Qed.

Lemma emitConnection_emitted st j : emitted (emitConnection plan st j) = {[j]} ∪ emitted st.
Proof.
  unfold emitConnection. destruct (decide (j ∈ emitted st)) as [|Hn]; [set_solver|]. unfold mark. cbn [emitted].
  destruct (connectionPlans plan !! j) as [c|]; [|done]. destruct (materializesMovement c); [|done].
  by rewrite (pe_emitted _ _ _ _ _ (emitPairs j c st (stepPairsOf c))).
Qed.

Lemma distinct_elem vs : ∀ seen v, v ∈ distinct seen vs ↔ v ∈ vs ∧ v ∉ seen.
Proof.
  induction vs as [|w vs IH]; intros seen v; cbn [distinct]; [set_solver|].
  destruct (decide (w ∈ seen)); [rewrite IH; set_solver|]. rewrite elem_of_cons, IH. destruct (decide (v = w)); set_solver.
Qed.

Lemma connectionsOf_elem value i : i ∈ connectionsOf plan value ↔ ∃ c, connectionPlans plan !! i = Some c ∧ pc_value c = value.
Proof.
  unfold connectionsOf. rewrite merge_sort_Permutation, list_elem_of_filter, elem_of_seq. split.
  - intros [(c & -> & Hc)%fmap_Some_1 _]. eauto.
  - intros (c & Hc & <-). rewrite Hc. split; [done|]. apply lookup_lt_Some in Hc. lia.
Qed.

Lemma valueConsumers_spec x v : x ∈ default [] (valueConsumers graph !! v) ↔
  ∃ node input, node ∈ nodes graph ∧ input ∈ inputs node ∧ n_id node = x ∧ storageValueOf graph (p_value input) = v.
Proof.
  unfold valueConsumers.
  rewrite (fold_inner_adds (λ m node input, addConsumer graph (n_id node) m input) inputs (λ m, x ∈ default [] (m !! v))
    (λ node input, n_id node = x ∧ storageValueOf graph (p_value input) = v)).
  - rewrite lookup_empty. cbn. rewrite elem_of_nil. naive_solver.
  - intros m node input _ _. unfold addConsumer. cbv zeta. set (w := storageValueOf graph (p_value input)).
    destruct (contains (default [] (m !! w)) (n_id node)) eqn:Hc.
    + apply contains_true in Hc. split; [by left|]. intros [?|[<- <-]]; done.
    + destruct (decide (w = v)) as [->|Hne].
      * rewrite lookup_insert_eq. cbn. rewrite elem_of_app, list_elem_of_singleton. naive_solver.
      * rewrite lookup_insert_ne by done. naive_solver.
Qed.
End emission.

Section forward.
Context `{MLIRPrint}.
Variable graph : WorkloadGraph.
Variable plan : CoveringPlan.
Hypothesis distinct_connections : NoDup (pc_id <$> connectionPlans plan).

Lemma connection_by_id i j c d : connectionPlans plan !! i = Some c → connectionPlans plan !! j = Some d → pc_id c = pc_id d → i = j.
Proof.
  intros Hi Hj He. apply (NoDup_lookup (pc_id <$> connectionPlans plan) i j (pc_id c) distinct_connections);
    rewrite list_lookup_fmap, ?Hi, ?Hj; cbn; congruence.
Qed.

Lemma stepPairs_pos connection : (0 < stepPairsOf connection)%nat.
Proof. unfold stepPairsOf. destruct (Nat.ltb_spec 0 (hopCountFor connection)); lia. Qed.

(** Nothing a connection was given changes when steps are added at the end. *)
Lemma settled_mono st st' i c first : Settled graph st i c first → nextStep st <= nextStep st' →
  connectionStep st' !! pc_id c = connectionStep st !! pc_id c → syncStep st' !! pc_id c = syncStep st !! pc_id c →
  hopsOf st' i = hopsOf st i → (∀ n k, computeStep st !! n = Some k → computeStep st' !! n = Some k) →
  (∀ n k, computeStep st' !! n = Some k → computeStep st !! n = Some k ∨ nextStep st <= k) →
  Settled graph st' i c first.
Proof.
  intros [Hf Hl Hh Hb Hp Hc] Hn Hcs Hss Hhs Hold Hnew. split; [congruence|congruence|congruence|lia| |].
  - intros p (k & Hk & Hlt)%Hp. eauto.
  - intros x k Hx [Hk|Hk]%Hnew; [by apply (Hc x)|]. lia.
Qed.

Lemma pairs_are_movements connection first k : filter (λ s, st_kind s = ComputeStep) (seq 0 k ≫= stepPair connection first) = [].
Proof. induction k as [|k IH]; [done|]. rewrite seq_S, bind_app, filter_app, IH. done. Qed.

Lemma pairs_ids connection first k i s : (seq 0 k ≫= stepPair connection first) !! i = Some s → st_id s = first + Z.of_nat i.
Proof.
  induction k as [|k IH]; [done|]. rewrite seq_S, bind_app. intros [Hl|[Hle Hl]]%lookup_app_Some; [auto|].
  rewrite pair_length in *. destruct (i - 2 * k)%nat as [|[|[|n]]] eqn:Hi; cbn in Hl; [| |discriminate Hl..]; injection Hl as <-; cbn; lia.
Qed.

Lemma settled_mark st i j d first : Settled graph st j d first → Settled graph (mark i st) j d first.
Proof. by intros []. Qed.

(** What emitting a connection needs of the nodes that have run. *)
Definition Emittable (don : list nat) (c : PlanConnection) : Prop :=
  (∀ p, valueProducer graph !! pc_value c = Some p → p ∈ don) ∧
  (∀ x, x ∈ default [] (valueConsumers graph !! pc_value c) → x ∉ don).

Lemma emitConnection_assigned st don i : Assigned graph plan st don →
  (∀ c, connectionPlans plan !! i = Some c → materializesMovement c = true → i ∉ emitted st → Emittable don c) →
  Assigned graph plan (emitConnection plan st i) don ∧ emitted (emitConnection plan st i) = {[i]} ∪ emitted st.
Proof.
  intros HA Hem. unfold emitConnection. destruct (decide (i ∈ emitted st)) as [Hin|Hin]; [split; [done|set_solver]|].
  destruct (connectionPlans plan !! i) as [c|] eqn:Hi; cycle 1.
  { split; [|done]. destruct HA as [? ? ? ? Hs Hc]. split; try done; cbn [emitted mark].
    - intros j d Hj Hjin Hjm. destruct (Hs j d Hj) as [f Hf]; [|done|exists f; by apply settled_mark].
      assert (i ≠ j) by congruence. set_solver.
    - intros j d Hj Hjn. apply (Hc j d Hj). set_solver. }
  destruct (materializesMovement c) eqn:Hm; cycle 1.
  { split; [|done]. destruct HA as [? ? ? ? Hs Hc]. split; try done; cbn [emitted mark].
    - intros j d Hj Hjin Hjm. destruct (Hs j d Hj) as [f Hf]; [|done|exists f; by apply settled_mark].
      assert (i ≠ j) by congruence. set_solver.
    - intros j d Hj Hjn. apply (Hc j d Hj). destruct (decide (j = i)) as [->|]; [right; congruence|set_solver]. }
  destruct (Hem c eq_refl Hm Hin) as [Hprod Hcons].
  pose proof (emitPairs i c st (stepPairsOf c)) as [Hs Hcp Hcn Hsy Hh He].
  pose proof (stepPairs_pos c) as Hpos.
  set (st1 := foldl _ _ _) in *.
  assert (nextStep st1 = nextStep st + 2 * Z.of_nat (stepPairsOf c)) as Hn.
  { unfold nextStep. rewrite Hs, length_app, pair_length. lia. }
  rewrite decide_False in Hcn by lia.
  split; [|unfold mark; cbn [emitted]; by rewrite He].
  destruct HA as [Hids Hcomp Hstep Hdone Hset Hclean].
  assert (∀ j d, j ≠ i → connectionPlans plan !! j = Some d → pc_id d ≠ pc_id c) as Hother.
  { intros j d Hne Hj Heq. by apply Hne, (connection_by_id j i d c). }
  assert (∀ j d, j ≠ i → connectionPlans plan !! j = Some d → connectionStep st1 !! pc_id d = connectionStep st !! pc_id d ∧
    syncStep st1 !! pc_id d = syncStep st !! pc_id d ∧ hopsOf st1 j = hopsOf st j) as Hsame.
  { intros j d Hne Hj. pose proof (Hother j d Hne Hj). rewrite Hcn, Hsy, Hh, lookup_insert_ne by done.
    rewrite !decide_False by tauto. by rewrite app_nil_r. }
  split; unfold mark; cbn [sp_steps computeStep connectionStep syncStep emitted].
  - intros k s. rewrite Hs. intros [?|[Hle Hk]]%lookup_app_Some; [auto|]. apply pairs_ids in Hk. unfold nextStep in Hk. lia.
  - by rewrite Hs, filter_app, pairs_are_movements, app_nil_r.
  - intros n k. rewrite Hcp. intros Hk%Hstep. unfold nextStep at 1. cbn [sp_steps]. fold (nextStep st1). lia.
  - by rewrite Hcp.
  - intros j d Hj Hjin Hjm. destruct (decide (j = i)) as [->|Hne].
    + rewrite Hi in Hj. injection Hj as <-. exists (nextStep st). destruct (Hclean i c Hi) as [Hnone Hhops]; [by left|].
      split; unfold mark; cbn [computeStep connectionStep syncStep].
      * by rewrite Hcn, lookup_insert_eq.
      * rewrite Hsy, decide_True by (split; [lia|done]). done.
      * unfold hopsOf. cbn [connectionHops]. fold (hopsOf st1 i). rewrite Hh, Hhops. cbn [app]. unfold stepPairsOf in *.
        destruct (Nat.ltb_spec 0 (hopCountFor c)) as [Hlt|Hge]; [by rewrite decide_True|].
        rewrite decide_False by lia. by assert (hopCountFor c = 0%nat) as -> by lia.
      * unfold nextStep at 3. cbn [sp_steps]. fold (nextStep st1). rewrite Hn. unfold nextStep. lia.
      * intros p Hp%Hprod%Hdone. rewrite Hcp. destruct Hp as [k Hk]. exists k. split; [done|]. apply Hstep in Hk. lia.
      * intros x k Hx%Hcons Hk. rewrite Hcp in Hk. destruct Hx. apply Hdone. eauto.
    + destruct (Hset j d Hj) as [first Hfirst]; [set_solver|done|]. exists first. destruct (Hsame j d Hne Hj) as (? & ? & ?).
      eapply settled_mono; [exact Hfirst|..]; unfold mark; cbn [computeStep connectionStep syncStep]; try done.
      * unfold nextStep at 2. cbn [sp_steps]. fold (nextStep st1). lia.
      * intros n k. by rewrite Hcp.
      * intros n k. rewrite Hcp. by left.
  - intros j d Hj Hjn. destruct (decide (j = i)) as [->|Hne].
    + exfalso. rewrite Hi in Hj. injection Hj as <-. destruct Hjn as [Hjn|?]; [set_solver|congruence].
    + destruct (Hsame j d Hne Hj) as (-> & _ & Hhs). split.
      * apply (Hclean j d Hj). set_solver.
      * unfold hopsOf. cbn [connectionHops]. fold (hopsOf st1 j). rewrite Hhs. apply (Hclean j d Hj). set_solver.
Qed.

Lemma addComputeStep_assigned st don id : Assigned graph plan st don → id ∉ don →
  Assigned graph plan (addComputeStep id st) (don ++ [id]).
Proof.
  intros [Hids Hcomp Hstep Hdone Hset Hclean] Hid.
  assert (nextStep (addComputeStep id st) = nextStep st + 1) as Hn.
  { unfold nextStep. cbn [addComputeStep sp_steps]. rewrite length_app. cbn. lia. }
  assert (computeStep st !! id = None) as Hnone by (apply eq_None_not_Some; by rewrite Hdone).
  split; [..|exact Hclean].
  - intros i s. cbn. intros [?|[Hle Hk]]%lookup_app_Some; [auto|]. apply list_lookup_singleton_Some in Hk as [Hz <-].
    cbn. unfold nextStep. f_equal. lia.
  - cbn. rewrite filter_app, fmap_app, Hcomp. done.
  - intros n k. cbn [addComputeStep computeStep]. intros [[_ <-]|[_ Hk%Hstep]]%lookup_insert_Some; rewrite Hn; unfold nextStep in *; lia.
  - intros n. cbn. rewrite elem_of_app, list_elem_of_singleton, <- Hdone, lookup_insert_is_Some. naive_solver.
  - intros i c Hi Hin Hm. destruct (Hset i c Hi Hin Hm) as [first Hf]. exists first.
    eapply settled_mono; [exact Hf|lia|done..| |].
    + intros n k Hk. cbn. rewrite lookup_insert_ne; [done|]. intros <-. congruence.
    + intros n k. cbn [addComputeStep computeStep]. intros [[_ <-]|[_ Hk]]%lookup_insert_Some; [right; lia|by left].
Qed.
End forward.

(** ** Every step follows what it waits for *)
Section forward_edges.
Context `{MLIRPrint}.
Variable graph : WorkloadGraph.
Variable plan : CoveringPlan.
Hypothesis distinct_connections : NoDup (pc_id <$> connectionPlans plan).
Hypothesis numbered : ∀ i node, nodes graph !! i = Some node → n_id node = i.
(** The values that are moved are read plainly: no loop carries another value into one of
    them, and none is written by a node that reads it. *)
Definition MovedPlainly : Prop := ∀ i c node input, connectionPlans plan !! i = Some c → materializesMovement c = true →
  node ∈ nodes graph → input ∈ inputs node →
  (storageValueOf graph (p_value input) = pc_value c ↔ p_value input = pc_value c) ∧
  (p_value input = pc_value c → valueProducer graph !! pc_value c ≠ Some (n_id node)).
Hypothesis moved_plainly : MovedPlainly.

(** The connections of what has been read are emitted. *)
Definition Served (st : StepState) (don : list nat) : Prop :=
  ∀ node input i c, node ∈ nodes graph → n_id node ∈ don → input ∈ inputs node →
    connectionPlans plan !! i = Some c → pc_value c = p_value input → i ∈ emitted st.

Lemma served_emittable st don i c : Served st don → connectionPlans plan !! i = Some c → materializesMovement c = true → i ∉ emitted st →
  (∀ p, valueProducer graph !! pc_value c = Some p → p ∈ don) → Emittable graph don c.
Proof.
  intros Hs Hi Hm Hn Hp. split; [done|]. intros x (node & input & Hin & Hinput & <- & Hv)%valueConsumers_spec Hx.
  apply (moved_plainly i c node input) in Hv; [|done..]. apply Hn. by eapply Hs.
Qed.

Lemma emitNode_assigned st pre id node : Assigned graph plan st pre → Served st pre → id ∉ pre →
  findNode graph id = Some node → (∀ p, Depends graph id p → p ∈ pre) →
  ∃ st', emitNode graph plan st id = Ok st' ∧ Assigned graph plan st' (pre ++ [id]) ∧ Served st' (pre ++ [id]).
Proof.
  intros HA HS Hid Hnode Hdep. unfold emitNode. rewrite Hnode. eexists. split; [done|].
  pose proof (numbered id node Hnode) as Hnid. pose proof (list_elem_of_lookup_2 _ _ _ Hnode) as Hin.
  set (st1 := foldl _ st _).
  assert (Assigned graph plan st1 pre ∧ Served st1 pre) as [HA1 HS1].
  { unfold st1. apply (fold_inner (λ st _ index, emitConnection plan st index) (connectionsOf plan) (λ st, Assigned graph plan st pre ∧ Served st pre)); [done|].
    intros st' v i [HA' HS'] Hv Hi. apply connectionsOf_elem in Hi as (c & Hi & Hc).
    apply distinct_elem in Hv as [(input & -> & Hinput)%list_elem_of_fmap _]. split.
    - apply (emitConnection_assigned graph plan distinct_connections st' pre i HA').
      intros c' Hi' Hm Hn. rewrite Hi in Hi'. injection Hi' as <-. eapply served_emittable; [done..|].
      destruct (moved_plainly i c node input Hi Hm Hin Hinput) as [Hplain Hself].
      intros p Hp. apply Hdep. exists node, input. rewrite (proj2 Hplain) by done.
      split_and!; [done..|]. intros ->. apply Hself; [done|]. by rewrite Hnid.
    - intros n' in' j d ? ? ? ? ?. rewrite emitConnection_emitted. apply elem_of_union. right. by eapply HS'. }
  split; [by apply addComputeStep_assigned|]. intros n' in' j d Hn' Hdon Hin' Hj Hd. cbn [addComputeStep emitted].
  apply elem_of_app in Hdon as [Hdon|Hdon%list_elem_of_singleton]; [by eapply HS1|].
  assert (n' = node) as ->.
  { apply list_elem_of_lookup_1 in Hn' as [k Hk]. rewrite (numbered k n' Hk) in Hdon. subst k. unfold findNode in Hnode. congruence. }
  unfold st1. apply (fold_inner_adds (λ st _ index, emitConnection plan st index) (connectionsOf plan) (λ st, j ∈ emitted st) (λ _ index, index = j)).
  - intros m v i _ _. rewrite emitConnection_emitted. set_solver.
  - right. exists (p_value in'), j. split; [|split; [|done]].
    + apply distinct_elem. split; [by apply list_elem_of_fmap_2|set_solver].
    + apply connectionsOf_elem. eauto.
Qed.

Lemma assignSteps_assigned topo : TopologicalOrder graph topo →
  ∃ st, assignSteps graph plan topo = Ok st ∧ Assigned graph plan st topo ∧ ∀ i, (i < length (connectionPlans plan))%nat → i ∈ emitted st.
Proof.
  intros [Hperm Hord]. unfold assignSteps.
  assert (NoDup topo) as Hnd by (rewrite Hperm, (numbered_ids graph numbered); apply NoDup_seq).
  assert (∃ st, fold_result (emitNode graph plan) noSteps topo = Ok st ∧ Assigned graph plan st topo ∧ Served st topo) as (st & -> & HA & HS).
  { assert (∀ pre post, topo = (pre ++ post)%list →
      ∃ st, fold_result (emitNode graph plan) noSteps pre = Ok st ∧ Assigned graph plan st pre ∧ Served st pre) as Hall.
    { induction pre as [|id pre IH] using rev_ind; intros post Heq.
      - exists noSteps. split; [done|]. split; [apply assigned_initial|]. intros n' in' i c _ Hn. set_solver.
      - rewrite <- (assoc_L (++)%list) in Heq. destruct (IH _ Heq) as (st & Hf & HA & HS).
        assert (id ∈ n_id <$> nodes graph) as Hid by (rewrite <- Hperm, Heq; apply elem_of_app; right; left).
        rewrite (numbered_ids graph numbered), elem_of_seq in Hid. destruct (lookup_lt_is_Some_2 (nodes graph) id) as [node Hnode]; [lia|].
        destruct (emitNode_assigned st pre id node HA HS) as (st' & He & HA' & HS').
        + rewrite Heq, NoDup_app in Hnd. intros Hin. destruct Hnd as (_ & Hx & _). apply (Hx id Hin). left.
        + done.
        + by apply (Hord pre id post).
        + exists st'. split; [|done]. rewrite fold_result_app, Hf. cbn. by rewrite He. }
    by apply (Hall topo []); rewrite app_nil_r. }
  cbn [mbind result_bind]. eexists. split; [done|].
  assert (∀ xs st, (∀ i, i ∈ xs → (i < length (connectionPlans plan))%nat) → Assigned graph plan st topo → Served st topo →
    Assigned graph plan (foldl (emitConnection plan) st xs) topo ∧
    ∀ i, i ∈ emitted st ∨ i ∈ xs → i ∈ emitted (foldl (emitConnection plan) st xs)) as Hrest.
  { induction xs as [|i xs IH]; intros st0 Hxs HA0 HS0; [split; [done|set_solver]|]. cbn [foldl].
    destruct (emitConnection_assigned graph plan distinct_connections st0 topo i HA0) as [HA1 He1].
    { intros c Hi Hm Hn. eapply served_emittable; [done..|]. intros p Hp. rewrite Hperm. by eapply producer_id. }
    destruct (IH (emitConnection plan st0 i)) as [HA2 He2]; [set_solver|done| |].
    { intros n' in' j d ? ? ? ? ?. rewrite He1. apply elem_of_union. right. by eapply HS0. }
    split; [done|]. intros j Hj. apply He2. rewrite He1. set_solver. }
  destruct (Hrest (seq 0 (length (connectionPlans plan))) st) as [HA' He]; [intros i; rewrite elem_of_seq; lia|done|done|].
  split; [done|]. intros i Hi. apply He. right. apply elem_of_seq. lia.
Qed.

Definition Forward (e : PlanStepEdge) : Prop := StorageLiveness.from e < StorageLiveness.to e.

Lemma hopEdges_forward c first n : ∀ a previous, (∀ p, previous = Some p → p < first + 2 * Z.of_nat a) →
  ∀ e, e ∈ hopEdges previous (hopRecord c first <$> seq a n) → Forward e.
Proof.
  induction n as [|n IH]; intros a previous Hp e; cbn [seq fmap list_fmap hopEdges]; [by intros ?%elem_of_nil|].
  intros [He|[->|He]%elem_of_cons]%elem_of_app.
  - destruct previous as [p|]; cbn in He; [|by apply elem_of_nil in He]. apply list_elem_of_singleton in He as ->. by apply Hp.
  - unfold Forward. cbn. lia.
  - eapply IH; [|exact He]. cbn. intros p [= <-]. lia.
Qed.

Lemma connectionEdges_forward st i c first e : Settled graph st i c first → e ∈ connectionEdges graph st i c → Forward e.
Proof.
  intros [Hf Hl Hh Hb Hp Hc]. unfold connectionEdges. rewrite Hf, Hl, Hh. cbv zeta.
  assert (∀ p, producerStep graph st (pc_value c) = Some p → p < first) as Hprod.
  { unfold producerStep. intros p (n & (k & Hk & Hlt)%Hp & Hn)%bind_Some. congruence. }
  assert (∀ tail e, tail = first + 2 * Z.of_nat (stepPairsOf c) - 1 → e ∈ consumersAfter graph st (pc_value c) tail → Forward e) as Hcons.
  { intros tail e' -> (x & Hx & He)%list_elem_of_omap. apply fmap_Some_1 in He as (k & Hk & ->). by apply (Hc x k). }
  destruct (last (hopRecord c first <$> seq 0 (hopCountFor c))) as [final|] eqn:Hlast.
  - assert (waitStep final = first + 2 * Z.of_nat (stepPairsOf c) - 1) as Hw.
    { unfold stepPairsOf. destruct (hopCountFor c) as [|n]; [done|]. rewrite seq_S, fmap_app in Hlast.
      cbn [fmap list_fmap] in Hlast. rewrite last_snoc in Hlast. injection Hlast as <-. cbn [Nat.ltb Nat.leb]. cbn [waitStep hopRecord]. lia. }
    intros [He|He]%elem_of_app; [|by eapply Hcons]. eapply hopEdges_forward; [|exact He]. intros p Hpp%Hprod. lia.
  - pose proof (stepPairs_pos c). intros [He|[->|He]%elem_of_cons]%elem_of_app; [| |by eapply Hcons].
    + destruct (producerStep graph st (pc_value c)) as [p|]; cbn in He; [|by apply elem_of_nil in He].
      apply list_elem_of_singleton in He as ->. by apply Hprod.
    + unfold Forward. cbn. lia.
Qed.

Lemma remove_dups_id {A} `{EqDecision A} (xs : list A) : NoDup xs → remove_dups xs = xs.
Proof. induction 1 as [|x xs Hx _ IH]; [done|]. cbn. destruct (decide_rel _ x xs); [done|by rewrite IH]. Qed.

(** Sorting twice is sorting once. *)
Lemma sortEdges_idem es : sortEdges (sortEdges es) = sortEdges es.
Proof.
  assert (Transitive edge_le) by (intros a b c; unfold edge_le; repeat destruct (decide _); lia).
  assert (Total edge_le) by (intros a b; unfold edge_le; repeat destruct (decide _); lia).
  assert (AntiSymm (=) edge_le) by (intros [a b] [c d]; unfold edge_le; cbn; repeat destruct (decide _); intros ??; f_equal; lia).
  unfold sortEdges at 1. rewrite remove_dups_id.
  - apply (StronglySorted_unique edge_le); [apply StronglySorted_merge_sort; apply _..|by rewrite merge_sort_Permutation].
  - unfold sortEdges. rewrite merge_sort_Permutation. apply NoDup_remove_dups.
Qed.

Lemma sortEdges_elem e es : e ∈ sortEdges es ↔ e ∈ es.
Proof. unfold sortEdges. by rewrite merge_sort_Permutation, elem_of_remove_dups. Qed.

Lemma stepEdges_forward st topo : Assigned graph plan st topo → (∀ i, (i < length (connectionPlans plan))%nat → i ∈ emitted st) →
  ∀ e, e ∈ stepEdgesOf graph plan st → Forward e.
Proof.
  intros HA He e. unfold stepEdgesOf. rewrite sortEdges_elem, list_elem_of_join.
  intros (es & Hes & Hin). apply list_elem_of_lookup_1 in Hin as [i Hi]. rewrite list_lookup_imap in Hi.
  apply fmap_Some_1 in Hi as (c & Hi & ->). destruct (materializesMovement c) eqn:Hm.
  - destruct (as_settled _ _ _ _ HA i c Hi) as [first Hf]; [apply He; by eapply lookup_lt_Some|done|].
    by eapply connectionEdges_forward.
  - unfold connectionEdges in Hes. destruct (as_clean _ _ _ _ HA i c Hi) as [Hnone _]; [by right|].
    rewrite Hnone in Hes. by apply elem_of_nil in Hes.
Qed.

(** Every plan with distinct connection ids, whose moved values are read plainly, gets its
    steps, on a graph whose nodes are numbered by their positions. *)
Lemma steps_forward topo : TopologicalOrder graph topo →
  ∃ st, assignSteps graph plan topo = Ok st ∧
    (∀ i s, sp_steps st !! i = Some s → st_id s = Z.of_nat i) ∧
    st_node <$> filter (λ s, st_kind s = ComputeStep) (sp_steps st) = topo ∧
    (∀ i c, connectionPlans plan !! i = Some c → materializesMovement c = true → ∃ first, Settled graph st i c first) ∧
    ∀ e, e ∈ stepEdgesOf graph plan st → Forward e.
Proof.
  intros Htopo. destruct (assignSteps_assigned topo Htopo) as (st & Hst & HA & He). exists st.
  split_and!; [done|apply (as_ids _ _ _ _ HA)|apply (as_computes _ _ _ _ HA)| |by eapply stepEdges_forward].
  intros i c Hi Hm. apply (as_settled _ _ _ _ HA); [done| |done]. apply He. by eapply lookup_lt_Some.
Qed.
End forward_edges.


(** [topologicalOrder] answers exactly when the dependencies are acyclic, and then with the
    one order that has every node once, after all it depends on, and always the least node
    that can be next. *)
Theorem topologicalOrder_exact `{MLIRText} graph : (∀ i node, nodes graph !! i = Some node → n_id node = i) →
  (∀ topo, topologicalOrder graph = Ok topo ↔ TopologicalOrder graph topo) ∧
  (topologicalOrder graph = Err CyclicWorkload ↔ ¬ AcyclicWorkload graph).
Proof.
  intros Hnum. assert (NoDup (n_id <$> nodes graph)) as Hnd by (rewrite (numbered_ids graph Hnum); apply NoDup_seq).
  destruct (topologicalOrder_ok graph Hnd) as [Hsound Htotal].
  assert (∀ topo, TopologicalOrder graph topo → AcyclicWorkload graph) as Hacyclic.
  { intros topo Ht. eapply order_acyclic; [done|]. destruct Ht as [Hperm _]. by rewrite Hperm. }
  split.
  - intros topo. split; [apply Hsound|]. intros Ht. destruct (Htotal (Hacyclic _ Ht)) as [topo' Ht']. rewrite Ht'. f_equal.
    exact (order_unique graph topo' topo Hnd (Hsound _ Ht') Ht).
  - split.
    + intros He Ha. destruct (Htotal Ha) as [topo Ht]. congruence.
    + intros Hn. destruct (topologicalOrder graph) as [topo|e] eqn:Ht; [destruct Hn; by eapply Hacyclic, Hsound|].
      unfold topologicalOrder in Ht. cbv zeta in Ht. apply fail_then_err in Ht as [[_ <-]|[_ [=]]]. done.
Qed.

(** ** A concrete plan *)
Section witness.
#[local] Existing Instance sample_types.
#[local] Existing Instance sample_text.
#[local] Existing Instance sample_print.

(** Node 0 feeds nodes 1 and 2, and node 1 feeds node 2; the value of node 0 is moved over two
    hops. *)
Definition chain_port (value : nat) : WorkloadPort := mkPort value (Some (16, [8; 10])) None.
Definition chain_node (id : nat) (ins outs : list nat) : WorkloadNode :=
  mkNode id "micro.vector" (chain_port <$> ins) (chain_port <$> outs) None id (Some 1) (Some 1).
Definition chain_value (id : nat) : WorkloadValue := mkValue id (Some (16, [8; 10])) "v" false false None None.
Definition chain_graph : WorkloadGraph :=
  mkGraph [chain_node 0 [] [0%nat]; chain_node 1 [0%nat] [1%nat]; chain_node 2 [0%nat; 1%nat] [2%nat]]
    (chain_value <$> seq 0 3).
Definition chain_plan : CoveringPlan :=
  stream_plan (stream_connection MappingPlan.Transfer ["dram.0"; "sram.0"; "dram.0"]) [] [].

Definition chain_topo : list nat := match topologicalOrder chain_graph with Ok topo => topo | Err _ => [] end.
Definition chain_state : StepState := match assignSteps chain_graph chain_plan chain_topo with Ok st => st | Err _ => noSteps end.

Example chain_steps :
  chain_topo = [0%nat; 1%nat; 2%nat] ∧
  (λ s, (st_kind s, st_node s, st_hop s)) <$> sp_steps chain_state =
    [(ComputeStep, 0%nat, None); (MovementStep, 0%nat, Some 0); (SynchronizationStepKind, 0%nat, Some 0);
     (MovementStep, 0%nat, Some 1); (SynchronizationStepKind, 0%nat, Some 1); (ComputeStep, 1%nat, None); (ComputeStep, 2%nat, None)] ∧
  stepEdgesOf chain_graph chain_plan chain_state =
    [mkEdge 0 1; mkEdge 1 2; mkEdge 2 3; mkEdge 3 4; mkEdge 4 5; mkEdge 4 6].
Proof. split_and!; vm_compute; reflexivity. Qed.

Lemma chain_numbered : ∀ i node, nodes chain_graph !! i = Some node → n_id node = i.
Proof. intros [|[|[|i]]] node; cbn; [by intros [= <-]..|done]. Qed.

Lemma topologicalOrder_exact_witness : topologicalOrder chain_graph = Ok chain_topo ∧ TopologicalOrder chain_graph chain_topo.
Proof.
  assert (topologicalOrder chain_graph = Ok chain_topo) as Ht by (vm_compute; reflexivity).
  split; [exact Ht|]. exact (proj1 (proj1 (topologicalOrder_exact chain_graph chain_numbered) chain_topo) Ht).
Defined.

(** An accumulator: node 1 reads value 1, into which the loop carries its own result, value 2;
    that result is moved to node 2. *)
Definition accumulator_graph (moved : nat) : WorkloadGraph * CoveringPlan :=
  (mkGraph [chain_node 0 [] [0%nat]; chain_node 1 [0%nat; 1%nat] [2%nat]; chain_node 2 [2%nat] [3%nat]]
     [chain_value 0; mkValue 1 (Some (16, [8; 10])) "v" false true (Some 2%nat) None; chain_value 2; chain_value 3],
   stream_plan (mkPlanConnection 3 moved MappingPlan.Transfer ["dram.0"; "sram.0"] ["dma.0"] None [2] None None
     [] (Some (mkRef 0 Output 0)) [mkRef 1 Input 0] [] [] (mkCost dzero 0 256 0 dzero dzero) 64 None None) [] []).
Definition accumulator_state (moved : nat) : StepState :=
  match assignSteps (accumulator_graph moved).1 (accumulator_graph moved).2 [0%nat; 1%nat; 2%nat] with Ok st => st | Err _ => noSteps end.

(** The accumulator's compute is step 1, and its result is moved and waited for in steps 2 and
    3; an edge puts step 1 after step 3, and another puts step 2 after step 1. *)
Example accumulator_waits_for_itself :
  topologicalOrder (accumulator_graph 2).1 = Ok [0%nat; 1%nat; 2%nat] ∧
  (λ s, (st_kind s, st_node s)) <$> sp_steps (accumulator_state 2) =
    [(ComputeStep, 0%nat); (ComputeStep, 1%nat); (MovementStep, 0%nat); (SynchronizationStepKind, 0%nat); (ComputeStep, 2%nat)] ∧
  stepEdgesOf (accumulator_graph 2).1 (accumulator_graph 2).2 (accumulator_state 2) = [mkEdge 1 2; mkEdge 2 3; mkEdge 3 1; mkEdge 3 4].
Proof. split_and!; vm_compute; reflexivity. Qed.

(** A check of the proviso over all the operands of a graph. *)
Definition plainly (graph : WorkloadGraph) (plan : CoveringPlan) : bool :=
  forallb (λ c, negb (materializesMovement c) || forallb (λ node, forallb (λ input,
    eqb (bool_decide (storageValueOf graph (p_value input) = pc_value c)) (bool_decide (p_value input = pc_value c)) &&
    (bool_decide (p_value input ≠ pc_value c) || bool_decide (valueProducer graph !! pc_value c ≠ Some (n_id node)))) (inputs node)) (nodes graph))
    (connectionPlans plan).
Lemma plainly_moved graph plan : plainly graph plan = true → MovedPlainly graph plan.
Proof.
  unfold plainly. rewrite List.forallb_forall. intros Hall i c node input Hi Hm Hn Hin.
  specialize (Hall c (proj1 (list_elem_of_In _ _) (list_elem_of_lookup_2 _ _ _ Hi))). rewrite Hm in Hall. cbn [negb orb] in Hall.
  rewrite List.forallb_forall in Hall. specialize (Hall node (proj1 (list_elem_of_In _ _) Hn)).
  rewrite List.forallb_forall in Hall. specialize (Hall input (proj1 (list_elem_of_In _ _) Hin)).
  apply andb_true_iff in Hall as [Heq%eqb_prop Hor]. split.
  - destruct (decide (p_value input = pc_value c)) as [Hp|Hp]; [rewrite (bool_decide_true _ Hp) in Heq|rewrite (bool_decide_false _ Hp) in Heq].
    + by apply bool_decide_eq_true in Heq.
    + by apply bool_decide_eq_false in Heq.
  - intros Hp. rewrite Hp, (bool_decide_false (pc_value c ≠ pc_value c)) in Hor by auto. by apply bool_decide_eq_true in Hor.
Qed.

End witness.
