(* ===== verification/StoragePlan.v ===== *)
(** The storage of a plan: the second half of [finalizeStoragePlan] in
    lib/Mapping/StoragePlan.cpp, over the steps of StepPlan.v.

    Every produced value gets an allocation in the memory its port resolved to, every hop of
    a movement a staged copy, every boundary value a borrowed descriptor; allocations that
    provably do not overlap share a buffer; the edges that sharing needs join the step graph;
    and the peak of the scheduled stream is held against the capacity of each memory.  The
    theorems: allocations that share a buffer fit it, and follow each other in step order,
    strictly or in place; the ids of the allocations are their positions; a complete plan
    stays within the capacity of every memory at every time of the schedule of its stream,
    under the barriers of the plan it was made from. *)
From S2P Require Import Prelude Float MachineModel CostModel Routing WorkloadGraph TileFacts EventSchedule MappingPlan StorageLiveness StorageFootprint PlanEvents PlanStream StepPlan.
Open Scope string_scope.
Open Scope Z_scope.

(** ** What the pass collects *)
Record StorageState := mkStorage {
  ps_allocations : list StorageAllocation;
  ps_notes : list string;
  ps_reasons : list string;
  ps_decisions : list string;
  connectionStorage : gmap nat (list Z);
  allocationWriter : gmap Z nat;
  ps_hops : gmap nat (list PlanMovementHop);
}.
Definition noStorage (hops : gmap nat (list PlanMovementHop)) : StorageState := mkStorage [] [] [] [] ∅ ∅ hops.

Definition addNote (note : string) (st : StorageState) : StorageState :=
  mkStorage (ps_allocations st) (ps_notes st ++ [note]) (ps_reasons st) (ps_decisions st) (connectionStorage st)
    (allocationWriter st) (ps_hops st).
Definition recordDecision (decision : string) (st : StorageState) : StorageState :=
  mkStorage (ps_allocations st) (ps_notes st) (ps_reasons st) (ps_decisions st ++ [decision]) (connectionStorage st)
    (allocationWriter st) (ps_hops st).
Definition withHops (index : nat) (hops : list PlanMovementHop) (st : StorageState) : StorageState :=
  mkStorage (ps_allocations st) (ps_notes st) (ps_reasons st) (ps_decisions st) (connectionStorage st)
    (allocationWriter st) (<[index := hops]> (ps_hops st)).
Definition storedHops (st : StorageState) (index : nat) : list PlanMovementHop := default [] (ps_hops st !! index).

(** A fact that does not resolve rejects a strict plan and is recorded of an analysis. *)
Definition recordIncomplete (strict : bool) (reason : string) (st : StorageState) : result storage_error StorageState :=
  if strict then Err (Incomplete reason)
  else Ok (mkStorage (ps_allocations st) (ps_notes st) (ps_reasons st ++ [reason]) (ps_decisions st) (connectionStorage st)
             (allocationWriter st) (ps_hops st)).

(** [nextAllocationId] is one more than the allocations so far. *)
Definition nextAllocationId (st : StorageState) : Z := Z.of_nat (length (ps_allocations st)) + 1.
Definition allocate (value : nat) (memory : string) (bytes begin end_ : Z) (borrow : bool) (occurrences : Z)
    (st : StorageState) : StorageState :=
  mkStorage (ps_allocations st ++
               [mkAllocation (nextAllocationId st) (Z.of_nat value) memory bytes None begin end_ borrow occurrences])
    (ps_notes st) (ps_reasons st) (ps_decisions st) (connectionStorage st) (allocationWriter st) (ps_hops st).

Definition writtenBy (id : Z) (node : nat) (st : StorageState) : StorageState :=
  mkStorage (ps_allocations st) (ps_notes st) (ps_reasons st) (ps_decisions st) (connectionStorage st)
    (<[id := node]> (allocationWriter st)) (ps_hops st).

Definition holdFor (id : Z) (st : StorageState) (index : nat) : StorageState :=
  let held := default [] (connectionStorage st !! index) in
  mkStorage (ps_allocations st) (ps_notes st) (ps_reasons st) (ps_decisions st)
    (<[index := if contains held id then held else (held ++ [id])%list]> (connectionStorage st)) (allocationWriter st) (ps_hops st).

Definition isDram (machine : MachineModel) (memory : string) : bool :=
  match findMemory machine memory with Some node => bool_decide (mem_kind node = "dram") | None => false end.

Definition livenessMessage (e : liveness_error) : string :=
  "storage liveness: " +:+
  match e with
  | NotCovered entries events => "the schedule does not cover the event stream (" +:+ to_string (Z.of_nat entries) +:+
      " entries for " +:+ to_string (Z.of_nat events) +:+ " events)"
  | DuplicateId id => "duplicate allocation id " +:+ to_string id
  | EntryNames event id => "schedule entry " +:+ to_string (Z.of_nat event) +:+ " names event " +:+ to_string (Z.of_nat id)
  | UnknownTouched event id => "event " +:+ to_string (Z.of_nat event) +:+ " touches allocation " +:+ to_string id +:+
      ", which the plan does not reserve"
  | Untouched id memory => "allocation " +:+ to_string id +:+ " in memory '" +:+ memory +:+
      "' is touched by no scheduled event, so its live range is unknown"
  | CyclicAlias id => "cyclic alias chain at allocation " +:+ to_string id
  | UnknownAlias id target => "allocation " +:+ to_string id +:+ " reuses unknown allocation " +:+ to_string target
  | FootprintOverflow id => "the footprint of allocation " +:+ to_string id +:+ " overflows"
  | LiveOverflow memory => "live bytes overflow for memory '" +:+ memory +:+ "'"
  end.

Section storage.
Context `{MLIRTiles} `{!MLIRMapTrees} `{!MLIRPrint}.
Variable graph : WorkloadGraph.
Variable plan : CoveringPlan.
Variable machine : MachineModel.
Variable placed : gmap nat PlanPlacement.
Variable steps : StepState.
Local Abbreviation strict := (materialized plan).
Local Abbreviation nat_text n := (to_string (Z.of_nat n)).

(** ** The engine of each hop *)
Definition resolveHop (index : nat) (connection : PlanConnection) (st : StorageState) (hop : nat) : result storage_error StorageState :=
  match storedHops st index !! hop with
  | None => Ok st
  | Some h =>
    match legalTransferEngine machine (hop_src h) (hop_dst h) with
    | None =>
      recordIncomplete strict ("storage plan: movement hop " +:+ to_string (hop_index h) +:+ " of connection " +:+
        to_string (pc_id connection) +:+ " moves between memories '" +:+ hop_src h +:+ "' and '" +:+ hop_dst h +:+
        "', which no machine link with a transfer engine joins") st
    | Some engine =>
      Ok (withHops index (<[hop := mkHop (hop_index h) (hop_src h) (hop_dst h) engine (sourceStorageId h)
            (destinationStorageId h) (movementStep h) (waitStep h)]> (storedHops st index)) st)
    end
  end.

Definition resolveHops (st : StorageState) (entry : nat * PlanConnection) : result storage_error StorageState :=
  fold_result (resolveHop entry.1 entry.2) st (seq 0 (length (storedHops st entry.1))).

(** ** Sizes and lifetimes *)

(** The solution bound to the port, or else to the value, in key order. *)
Definition layoutMapFor (placement : PlanPlacement) (ref : PortRef) (value : nat) : option affine_map :=
  let solutions := (in_order (pp_layoutSolutions placement)).*2 in
  match List.find (λ s, bool_decide (sl_port s = Some ref)) solutions with
  | Some s => sl_map s
  | None =>
    match List.find (λ s, bool_decide (0 <= sl_portValue s) && bool_decide (sl_portValue s = Z.of_nat value)) solutions with
    | Some s => sl_map s
    | None => None
    end
  end.

(** The bytes of a footprint; an analysis assumes some, with a note, where there is none. *)
Definition bytesOr (what : string) (type : option mlir_type) (map : option affine_map) (st : StorageState) :
    result storage_error (Z * StorageState) :=
  match physicalFootprintFor type map [] with
  | Ok footprint => Ok (fp_bytes footprint, st)
  | Err e =>
    if strict then Err (Unsupported e)
    else Ok (kAssumedValueBytes,
             addNote (what +:+ footprintMessage e +:+ "; assuming " +:+ to_string kAssumedValueBytes +:+ " bytes for analysis") st)
  end.

(** There is no footprint to reserve. *)
Definition unsized (type : option mlir_type) (map : option affine_map) : bool :=
  match physicalFootprintFor type map [] with Ok _ => false | Err _ => true end.

Definition footprintBytes (value : nat) (ref : PortRef) (placement : PlanPlacement) (st : StorageState) :
    result storage_error (Z * StorageState) :=
  match findValue graph value with
  | None => Err (ValueNotInGraph value)
  | Some v =>
    bytesOr ("storage plan: value " +:+ nat_text value +:+ " ('" +:+ v_name v +:+ "'): ") (v_type v)
      (layoutMapFor placement ref value) st
  end.

Definition laterOf (best : option Z) (step : Z) : option Z :=
  match best with Some b => if decide (b < step) then Some step else Some b | None => Some step end.
Definition lastReaderStep (value : nat) : option Z :=
  foldl (λ best consumer, from_option (laterOf best) best (computeStep steps !! consumer)) None
    (default [] (valueConsumers graph !! storageValueOf graph value)).

Definition endOf (begin : Z) (value : nat) : Z := from_option (Z.max begin) begin (lastReaderStep value).

Definition residencyBound (node : WorkloadNode) (placement : option PlanPlacement) : option Z :=
  match simultaneousMultiplicity node, executionMultiplicity node with
  | Some n, _ => Some n
  | None, Some n => Some n
  | None, None =>
    placement ← placement;
    if str_empty (pp_executor placement) then None
    else (λ executor, Z.max 1 (ex_concurrency executor)) <$> findExecutor machine (pp_executor placement)
  end.

Definition occurrencesForValue (value : nat) : option Z :=
  match valueProducer graph !! storageValueOf graph value with
  | None => Some 1
  | Some producer =>
    match findNode graph producer with
    | None => Some 1
    | Some node => residencyBound node (placed !! n_id node)
    end
  end.

Definition stepOf (node : nat) : Z := default 0 (computeStep steps !! node).

(** ** Produced values *)
Definition produceOutput (node : WorkloadNode) (id : nat) (placement : PlanPlacement) (occurrences : Z) (st : StorageState)
    (output : nat * WorkloadPort) : result storage_error StorageState :=
  let '(index, port) := output in
  let value := p_value port in
  let ref := mkRef id Output index in
  match resolveEndpointMemory graph placement ref machine with
  | Err e =>
    recordIncomplete strict ("storage plan: value " +:+ nat_text value +:+ " written by node " +:+ nat_text id +:+
      " output " +:+ nat_text index +:+ ": " +:+ endpointMessage e) st
  | Ok memory =>
    let st := match fallbackReason memory with
              | Some reason => recordDecision (reason +:+ " (value " +:+ nat_text value +:+ ")") st
              | None => st
              end in
    match footprintBytes value ref placement st with
    | Err e => if isDram machine (em_memory memory) then Ok st else Err e
    | Ok (bytes, st) =>
      let begin := stepOf id in
      let allocation := nextAllocationId st in
      let st := writtenBy allocation id (allocate value (em_memory memory) bytes begin (endOf begin value) false occurrences st) in
      Ok (foldl (holdFor allocation) st (connectionsOf plan value))
    end
  end.

Definition produceNode (st : StorageState) (id : nat) : result storage_error StorageState :=
  match findNode graph id, placed !! id with
  | Some node, Some placement =>
    let st :=
      if bool_decide (executionMultiplicity node = None) then
        addNote ("storage plan: node " +:+ nat_text id +:+ " ('" +:+ opName node +:+
          "') has a runtime multiplicity (its enclosing loop bound is not statically recoverable); capacity is certified " +:+
          "from static tile footprints and bounded residency, not from it") st
      else st in
    match residencyBound node (Some placement) with
    | None =>
      if strict then Err (UnknownResidency id (opName node))
      else
        fold_result (produceOutput node id placement 1)
          (addNote ("storage plan: node " +:+ nat_text id +:+ " ('" +:+ opName node +:+
            "') has unknown simultaneous residency; one resident occurrence is assumed for analysis, so this result is advisory") st)
          (imap pair (outputs node))
    | Some occurrences => fold_result (produceOutput node id placement occurrences) st (imap pair (outputs node))
    end
  | _, _ => Err (NodeNotInGraph id)
  end.

(** ** Staged copies *)

(** The layout the producer gives a connection's value. *)
Definition producerMapFor (connection : PlanConnection) : option affine_map :=
  producer ← valueProducer graph !! pc_value connection;
  placement ← placed !! producer;
  node ← findNode graph producer;
  '(occurrence, _) ← list_find (λ o, p_value o = pc_value connection) (outputs node);
  layoutMapFor placement (mkRef (n_id node) Output occurrence) (pc_value connection).

(** The copy of one hop; [previous] is the destination of the hop before. *)
Definition stageHop (index : nat) (connection : PlanConnection) (type : option mlir_type) (occurrences : Z) (st : StorageState)
    (hop : nat) : result storage_error StorageState :=
  let hs := storedHops st index in
  match hs !! hop with
  | None => Ok st
  | Some h =>
    let finalHop := bool_decide (S hop = length hs) in
    let map := match pc_transform connection with
               | Some t => if finalHop then lt_dstMap t else producerMapFor connection
               | None => producerMapFor connection
               end in
    '(bytes, st) ← bytesOr ("storage plan: connection " +:+ to_string (pc_id connection) +:+ " stage: ") type map st;
    let begin := movementStep h in
    let end_ := if finalHop then endOf begin (pc_value connection)
                else from_option movementStep begin (hs !! S hop) in
    let id := nextAllocationId st in
    let st := allocate (pc_value connection) (hop_dst h) bytes begin end_ false occurrences st in
    let source :=
      match hop with
      | O => from_option al_id 0 (List.find (λ a, bool_decide (al_value a = Z.of_nat (pc_value connection)) &&
                                              bool_decide (al_memory a = hop_src h)) (ps_allocations st))
      | S previous => from_option destinationStorageId 0 (hs !! previous)
      end in
    st ← (if bool_decide (hop = O ∧ source = 0) then
            recordIncomplete strict ("storage plan: connection " +:+ to_string (pc_id connection) +:+ " hop 0 reads memory '" +:+
              hop_src h +:+ "', but no allocation holds carrying value " +:+ nat_text (pc_value connection) +:+ " there") st
          else Ok st);
    Ok (holdFor id (withHops index (<[hop := mkHop (hop_index h) (hop_src h) (hop_dst h) (hop_engine h) source id
          (movementStep h) (waitStep h)]> hs) st) index)
  end.

(** The memory of a copy without a route: where its first consumer reads it. *)
Definition consumerDestination (connection : PlanConnection) : option (PlanPlacement * PortRef) :=
  match pc_consumers connection with
  | [] => None
  | consumer :: _ =>
    id ← foldl (λ m placement, <[pp_instance placement := pp_node placement]> m) (∅ : gmap Z nat) (placements plan) !! consumer;
    placement ← placed !! id;
    node ← findNode graph id;
    match List.find (λ port, bool_decide (ref_node port = n_id node) && bool_decide (direction port = Input))
            (pc_consumerPorts connection) with
    | Some port => Some (placement, port)
    | None => if decide (inputs node = []) then None else Some (placement, mkRef (n_id node) Input 0)
    end
  end.

Definition destinationMemory (connection : PlanConnection) (st : StorageState) :
    result storage_error (option string * StorageState) :=
  match last (pc_route connection) with
  | Some memory => Ok (Some memory, st)
  | None =>
    match consumerDestination connection with
    | None => Ok (None, st)
    | Some (placement, port) =>
      match resolveEndpointMemory graph placement port machine with
      | Ok resolved => Ok (Some (em_memory resolved), st)
      | Err e =>
        st ← recordIncomplete strict ("storage plan: connection " +:+ to_string (pc_id connection) +:+
               " has no destination memory for its staged copy: " +:+ endpointMessage e) st;
        Ok (None, st)
      end
    end
  end.

Definition stageWhole (index : nat) (connection : PlanConnection) (type : option mlir_type) (occurrences : Z)
    (st : StorageState) : result storage_error StorageState :=
  '(memory, st) ← destinationMemory connection st;
  match memory with
  | None =>
    recordIncomplete strict ("storage plan: connection " +:+ to_string (pc_id connection) +:+
      " has no destination memory for its staged copy") st
  | Some memory =>
    let map := pc_transform connection ≫= lt_dstMap in
    if isDram machine memory && unsized type map then Ok st
    else
      '(bytes, st) ← bytesOr ("storage plan: connection " +:+ to_string (pc_id connection) +:+ " stage: ") type map st;
      let begin := default 0 (connectionStep steps !! pc_id connection) in
      Ok (holdFor (nextAllocationId st) (allocate (pc_value connection) memory bytes begin
            (endOf begin (pc_value connection)) false occurrences st) index)
  end.

Definition stageConnection (st : StorageState) (entry : nat * PlanConnection) : result storage_error StorageState :=
  let '(index, connection) := entry in
  if materializesMovement connection then
    match findValue graph (pc_value connection) with
    | None => Err (UnknownCarried (pc_id connection) (pc_value connection))
    | Some v =>
      '(occurrences, st) ←
        match occurrencesForValue (pc_value connection) with
        | Some n => Ok (n, st)
        | None =>
          if strict then Err (UnboundedStage (pc_id connection))
          else Ok (1, addNote ("storage plan: connection " +:+ to_string (pc_id connection) +:+
            " stages a value whose producing occurrence's simultaneous residency cannot be bounded; one copy is assumed " +:+
            "for analysis") st)
        end;
      if decide (storedHops st index = []) then stageWhole index connection (v_type v) occurrences st
      else fold_result (stageHop index connection (v_type v) occurrences) st (seq 0 (length (storedHops st index)))
    end
  else Ok st.

(** ** Borrowed descriptors *)
Record Borrow := mkBorrow { readers : list nat; borrow_reason : option string }.

Definition borrowAt (value : WorkloadValue) (id : nat) (placement : PlanPlacement)
    (state : gmap string Borrow * StorageState) (input : nat * WorkloadPort) : result storage_error (gmap string Borrow * StorageState) :=
  let '(borrows, st) := state in
  let '(index, port) := input in
  if decide (p_value port ≠ v_id value) then Ok state
  else
    match resolveEndpointMemory graph placement (mkRef id Input index) machine with
    | Err e =>
      st ← recordIncomplete strict ("storage plan: borrowed boundary value " +:+ nat_text (v_id value) +:+ " ('" +:+ v_name value +:+
             "') read by node " +:+ nat_text id +:+ " input " +:+ nat_text index +:+ ": " +:+ endpointMessage e) st;
      Ok (borrows, st)
    | Ok memory =>
      let borrow := default (mkBorrow [] None) (borrows !! em_memory memory) in
      let reason := match borrow_reason borrow with Some reason => Some reason | None => fallbackReason memory end in
      Ok (<[em_memory memory := mkBorrow (readers borrow ++ [id]) reason]> borrows, st)
    end.

Definition borrowsOfNode (value : WorkloadValue) (state : gmap string Borrow * StorageState) (id : nat) :
    result storage_error (gmap string Borrow * StorageState) :=
  match findNode graph id, placed !! id with
  | Some node, Some placement => fold_result (borrowAt value id placement) state (imap pair (inputs node))
  | _, _ => Ok state
  end.

Definition borrowFrom (value : WorkloadValue) (st : StorageState) (entry : string * Borrow) : result storage_error StorageState :=
  let '(memory, borrow) := entry in
  if isDram machine memory && unsized (v_type value) None then Ok st
  else
    '(bytes, st) ← bytesOr ("storage plan: borrowed boundary value " +:+ nat_text (v_id value) +:+ " ('" +:+ v_name value +:+ "'): ")
      (v_type value) None st;
    let first := stepOf (default 0%nat (head (readers borrow))) in
    let begin := foldl (λ b reader, Z.min b (stepOf reader)) first (readers borrow) in
    let end_ := foldl (λ e reader, Z.max e (stepOf reader)) first (readers borrow) in
    let st := allocate (v_id value) memory bytes begin end_ true 1 st in
    let message := "storage plan: borrowed boundary value " +:+ nat_text (v_id value) +:+ " ('" +:+ v_name value +:+
      "') lives in memory '" +:+ memory +:+ "' (" +:+ to_string bytes +:+ " bytes)" in
    Ok match borrow_reason borrow with
       | Some reason => recordDecision (message +:+ "; " +:+ reason) st
       | None => addNote message st
       end.

Definition borrowValue (topo : list nat) (st : StorageState) (value : WorkloadValue) : result storage_error StorageState :=
  if external value && negb (loopCarried value) then
    '(borrows, st) ← fold_result (borrowsOfNode value) (∅, st) topo;
    fold_result (borrowFrom value) st (in_order borrows)
  else Ok st.

(** The allocations of a plan, before any is shared. *)
Definition allocations_of (topo : list nat) : result storage_error StorageState :=
  st ← fold_result resolveHops (noStorage (connectionHops steps)) (imap pair (connectionPlans plan));
  st ← fold_result produceNode st topo;
  st ← fold_result stageConnection st (imap pair (connectionPlans plan));
  fold_result (borrowValue topo) st (values graph).
End storage.

(** ** Reuse *)

(** The allocation an allocation's buffer is, following [aliasOf]. *)
Fixpoint rootIndex_loop (fuel : nat) (allocations : list StorageAllocation) (current : nat) : nat :=
  match fuel with
  | O => current
  | S fuel =>
    match allocations !! current ≫= aliasOf with
    | None => current
    | Some target =>
      match indexOf allocations !! target with
      | None => current
      | Some next => rootIndex_loop fuel allocations next
      end
    end
  end.
Definition rootIndex (allocations : list StorageAllocation) (index : nat) : nat :=
  rootIndex_loop (length allocations) allocations index.

Definition withAlias (target : Z) (a : StorageAllocation) : StorageAllocation :=
  mkAllocation (al_id a) (al_value a) (al_memory a) (al_bytes a) (Some target) (beginStep a) (endStep a) (borrowed a)
    (simultaneousOccurrences a).

(** The last use of a buffer, over all that share it but [later]. *)
Definition rootLastUse (allocations : list StorageAllocation) (later candidate : nat) (a : StorageAllocation) : Z :=
  foldl (λ last other,
    if bool_decide (other ≠ later) && bool_decide (rootIndex allocations other = candidate) then
      from_option (λ o, Z.max last (endStep o)) last (allocations !! other)
    else last) (endStep a) (seq 0 (length allocations)).

(** [later] may take over the buffer of [candidate]. *)
Definition mayReuse (allocations : list StorageAllocation) (readable : list Z) (later candidate : nat)
    (a b : StorageAllocation) : bool :=
  let last := rootLastUse allocations later candidate a in
  bool_decide (candidate ≠ later) && negb (borrowed a) && bool_decide (al_memory a = al_memory b) &&
  bool_decide (al_bytes b <= al_bytes a) && bool_decide (simultaneousOccurrences b <= simultaneousOccurrences a) &&
  bool_decide (aliasOf a = None) &&
  (contains readable (al_id a) && bool_decide (last <= beginStep b) || bool_decide (last < beginStep b)).

(** The candidate of the least id. *)
Definition considerReuse (allocations : list StorageAllocation) (readable : list Z) (later : nat) (b : StorageAllocation)
    (best : option StorageAllocation) (earlier : nat) : option StorageAllocation :=
  let candidate := rootIndex allocations earlier in
  match allocations !! candidate with
  | None => best
  | Some a =>
    if mayReuse allocations readable later candidate a b then
      match best with
      | Some chosen => if decide (al_id a < al_id chosen) then Some a else best
      | None => Some a
      end
    else best
  end.

Definition bestReuse (allocations : list StorageAllocation) (readable : list Z) (later : nat) (b : StorageAllocation) :
    option StorageAllocation :=
  foldl (considerReuse allocations readable later b) None (seq 0 (length allocations)).

Definition reuseAt (readableBy : StorageAllocation → list Z) (allocations : list StorageAllocation) (later : nat) :
    list StorageAllocation :=
  match allocations !! later with
  | None => allocations
  | Some b =>
    if borrowed b then allocations
    else
      match bestReuse allocations (readableBy b) later b with
      | Some a => <[later := withAlias (al_id a) b]> allocations
      | None => allocations
      end
  end.

Definition reuse (readableBy : StorageAllocation → list Z) (allocations : list StorageAllocation) : list StorageAllocation :=
  foldl (reuseAt readableBy) allocations (seq 0 (length allocations)).

Section finalize.
Context `{MLIRTiles} `{!MLIRMapTrees} `{!MLIRPrint}.

(** The first allocation of each value, and those a node's operands are held in. *)
Definition producedAllocation (allocations : list StorageAllocation) : gmap Z Z :=
  foldl (λ m a, if borrowed a then m else if decide (is_Some (m !! al_value a)) then m else <[al_value a := al_id a]> m) ∅ allocations.

Definition addRead (graph : WorkloadGraph) (produced : gmap Z Z) (node : nat) (m : gmap nat (list Z)) (input : WorkloadPort) :
    gmap nat (list Z) :=
  match produced !! Z.of_nat (storageValueOf graph (p_value input)) with
  | Some held => let reads := default [] (m !! node) in if contains reads held then m else <[node := (reads ++ [held])%list]> m
  | None => m
  end.
Definition nodeReads (graph : WorkloadGraph) (produced : gmap Z Z) : gmap nat (list Z) :=
  foldl (λ m node, foldl (addRead graph produced (n_id node)) m (inputs node)) ∅ (nodes graph).

(** What the writer of an allocation reads.  [DenseMap::lookup] answers 0 for an allocation
    that no node wrote, so a staged copy counts as written by node 0. *)
Definition readableFor (graph : WorkloadGraph) (st : StorageState) (b : StorageAllocation) : list Z :=
  default [] (nodeReads graph (producedAllocation (ps_allocations st)) !! default 0%nat (allocationWriter st !! al_id b)).

(** ** Capacity *)
Definition mostResident (allocations : list StorageAllocation) (memory : string) : Z :=
  foldl (λ m a, if bool_decide (al_memory a = memory) then Z.max m (simultaneousOccurrences a) else m) 0 allocations.

Definition checkCapacity (machine : MachineModel) (allocations : list StorageAllocation) (notes : list string)
    (entry : string * Z) : result storage_error (list string) :=
  let '(memory, peak) := entry in
  match findMemory machine memory with
  | None => Err (UnknownMemory memory)
  | Some node =>
    fail! (OverCapacity memory peak (mostResident allocations memory) (capacityBytes node))
      when bool_decide (capacityBytes node < peak);
    Ok (notes ++ ["storage plan: memory '" +:+ memory +:+ "' peak " +:+ to_string peak +:+ " bytes of " +:+
                  to_string (capacityBytes node)])%list
  end.

Definition weighted (a : StorageAllocation) : result storage_error StorageAllocation :=
  let scaled := al_bytes a * simultaneousOccurrences a in
  fail! (WeightOverflows (al_id a)) when bool_decide (2 ^ 64 <= scaled);
  Ok (mkAllocation (al_id a) (al_value a) (al_memory a) scaled (aliasOf a) (beginStep a) (endStep a) (borrowed a)
        (simultaneousOccurrences a)).

(** ** The plan *)
Definition finalizedConnection (st : StorageState) (index : nat) (c : PlanConnection) : PlanConnection :=
  mkPlanConnection (pc_id c) (pc_value c) (pc_kind c) (pc_route c) (pc_engines c) (pc_transform c) (pc_consumers c)
    (pc_gatherSemantics c) (pc_concatAxis c) (pc_producerPorts c) (pc_producerPort c) (pc_consumerPorts c)
    (default [] (connectionStorage st !! index)) (storedHops st index) (pc_cost c) (pc_workItems c) (pc_valueType c)
    (pc_measuredCycles c).

Definition withStorage (p : CoveringPlan) (id : Z) (cs : list PlanConnection) (d : PlanDiagnostics)
    (allocations : list StorageAllocation) (syncs : list SynchronizationStep) (ss : list PlanStep) (es : list PlanStepEdge) :
    CoveringPlan :=
  mkPlan id (sourceBindingHash p) (sourceBindingCandidate p) (instances p) (MappingPlan.connections p) (placements p) cs
    (globalParameters p) (totalCost p) (accumulatedCost p) (scoreSource p) (analysisEvents p) (shapeSamples p)
    (shapeAggregation p) (shapeMaxVariants p) (shapeProfileCanonical p) d (schemaVersion p) (materialized p) (graphHash p)
    (targetHash p) (machineHash p) (layoutHash p) (ruleHash p) allocations syncs ss es.

Variable cast_out_of_range : double → Z.

(** The peak of the scheduled stream, or of the steps when the machine cannot run the stream;
    with the notes so far and the reasons an analysis records. *)
Definition occupancy (graph : WorkloadGraph) (machine : MachineModel) (probe : CoveringPlan) (st : StorageState) :
    result storage_error (gmap string Z * StorageState) :=
  match buildPlanEvents cast_out_of_range probe machine (Some graph) with
  | Ok dag =>
    match analyzeStorageLiveness (MappingPlan.allocations probe) dag
            (scheduleNormalizedEvents cast_out_of_range (events dag) machine []) with
    | Ok liveness => Ok (peakBytes liveness, st)
    | Err e =>
      st ← recordIncomplete (materialized probe) ("storage plan: the plan's live ranges could not be established: " +:+ livenessMessage e) st;
      Ok (∅, st)
    end
  | Err _ =>
    scaled ← mapM weighted (MappingPlan.allocations probe);
    match computePeakStorage scaled with
    | Err e => Err (PeakFails e)
    | Ok peak =>
      Ok (peak, addNote "storage plan: occupancy summarized from the plan-step DAG (the machine does not model every event resource)" st)
    end
  end.

Definition finalizeStoragePlan (graph : WorkloadGraph) (plan : CoveringPlan) (machine : MachineModel) :
    result storage_error CoveringPlan :=
  placed ← placementsByNode plan;
  _ ← placementsCover graph placed;
  topo ← topologicalOrder graph;
  steps ← assignSteps graph plan topo;
  st ← allocations_of graph plan machine placed steps topo;
  let allocations := reuse (readableFor graph st) (ps_allocations st) in
  let edges := sortEdges (stepEdgesOf graph plan steps ++ requiredReuseEdgesFor allocations) in
  let cs := imap (finalizedConnection st) (connectionPlans plan) in
  let probe := withStorage plan (plan_id plan) cs (diagnostics plan) allocations (synchronization plan) (sp_steps steps) edges in
  '(peak, st) ← occupancy graph machine probe st;
  notes ← fold_result (checkCapacity machine allocations) (ps_notes st) (in_order peak);
  let d := mkPlanDiagnostics (errors (diagnostics plan)) (warnings (diagnostics plan)) (searchTruncated (diagnostics plan))
             notes (bool_decide (ps_reasons st = [])) (ps_reasons st) (ps_decisions st) in
  let final := withStorage plan (plan_id plan) cs d allocations (synchronizations steps) (sp_steps steps) (sortEdges edges) in
  Ok (withStorage plan (computePlanId final) cs d allocations (synchronizations steps) (sp_steps steps) (sortEdges edges)).
End finalize.

(** ** Buffers are shared safely *)
Definition PositionIds (allocations : list StorageAllocation) : Prop :=
  ∀ i a, allocations !! i = Some a → al_id a = Z.of_nat i + 1.

Lemma indexOf_position allocations j : PositionIds allocations → (j < length allocations)%nat →
  indexOf allocations !! (Z.of_nat j + 1) = Some j.
Proof.
  intros Hp. unfold indexOf.
  assert (∀ n, (n <= length allocations)%nat → ∀ j, (j < n)%nat →
    foldl (λ (m : gmap Z nat) p, <[al_id p.2 := p.1]> m) ∅ (imap (λ i a, (i, a)) (take n allocations)) !! (Z.of_nat j + 1) = Some j) as Hn.
  { induction n as [|n IH]; intros Hle k Hk; [lia|]. destruct (lookup_lt_is_Some_2 allocations n) as [a Ha]; [lia|].
    rewrite (take_S_r _ _ _ Ha), imap_app, foldl_app. cbn [imap foldl]. rewrite length_take, Nat.min_l by lia. cbn.
    rewrite Nat.add_0_r, (Hp n a Ha). destruct (decide (k = n)) as [->|Hne].
    - by rewrite lookup_insert_eq.
    - rewrite lookup_insert_ne by lia. apply IH; lia. }
  intros Hj. specialize (Hn (length allocations) ltac:(lia) j Hj). by rewrite firstn_all in Hn.
Qed.

(** [i] reaches the unshared allocation [r] in [k] aliases. *)
Fixpoint Chain (allocations : list StorageAllocation) (k i r : nat) : Prop :=
  match k with
  | O => i = r ∧ ∃ a, allocations !! i = Some a ∧ aliasOf a = None
  | S k => ∃ a j, allocations !! i = Some a ∧ aliasOf a = Some (Z.of_nat j + 1) ∧ (j < length allocations)%nat ∧
             Chain allocations k j r
  end.

Lemma chain_root allocations k : ∀ fuel i r, PositionIds allocations → Chain allocations k i r → (k <= fuel)%nat →
  rootIndex_loop fuel allocations i = r.
Proof.
  induction k as [|k IH]; intros fuel i r Hp; cbn [Chain].
  - intros [<- (a & Ha & Hn)] _. destruct fuel; [done|]. cbn. rewrite Ha. cbn. by rewrite Hn.
  - intros (a & j & Ha & Hal & Hj & Hc) Hle. destruct fuel as [|fuel]; [lia|]. cbn. rewrite Ha. cbn. rewrite Hal, indexOf_position by done.
    apply IH; [done|done|lia].
Qed.

Section reuse.
Variable readableBy : StorageAllocation → list Z.
Variable base : list StorageAllocation.
Hypothesis positions : PositionIds base.
Hypothesis fresh : ∀ a, a ∈ base → aliasOf a = None ∧ beginStep a <= endStep a.

Local Abbreviation n := (length base).

(** The allocations differ from [base] in what they alias only. *)
Definition SameBut (allocations : list StorageAllocation) : Prop :=
  Forall2 (λ a a', a' = a ∨ ∃ target, a' = withAlias target a) base allocations.

Lemma same_lookup allocations i a' : SameBut allocations → allocations !! i = Some a' →
  ∃ a, base !! i = Some a ∧ (a' = a ∨ ∃ target, a' = withAlias target a).
Proof. intros Hs Ha'. destruct (Forall2_lookup_r _ _ _ _ _ Hs Ha') as (a & Ha & Hor). eauto. Qed.
Lemma same_length allocations : SameBut allocations → length allocations = n.
Proof. intros Hs. symmetry. by eapply Forall2_length. Qed.
Lemma same_positions allocations : SameBut allocations → PositionIds allocations.
Proof.
  intros Hs i a' (a & Ha & Hor)%(same_lookup _ _ _ Hs). rewrite <- (positions i a Ha). by destruct Hor as [->|[t ->]].
Qed.

(** A buffer can hold what takes it over. *)
Definition Fits (a r : StorageAllocation) : Prop :=
  al_memory a = al_memory r ∧ al_bytes a <= al_bytes r ∧ simultaneousOccurrences a <= simultaneousOccurrences r.

(** [i] took over a buffer that its writer reads. *)
Definition TookOver (allocations : list StorageAllocation) (i : nat) : Prop :=
  ∃ b x target, base !! i = Some b ∧ allocations !! i = Some x ∧ aliasOf x = Some target ∧ target ∈ readableBy b.

(** [x], at [i], is over before [y], at [j], begins; or as it does, when [j] took over. *)
Definition Before (allocations : list StorageAllocation) (x y : StorageAllocation) (j : nat) : Prop :=
  endStep x < beginStep y ∨ (endStep x = beginStep y ∧ TookOver allocations j).

Record Sharing (later : nat) (allocations : list StorageAllocation) (root : nat → nat) : Prop := {
  sh_same : SameBut allocations;
  sh_chain i : (i < n)%nat → (root i < n)%nat ∧ ∃ k, (k <= later)%nat ∧ Chain allocations k i (root i);
  sh_unprocessed i a : (later <= i)%nat → allocations !! i = Some a → aliasOf a = None;
  sh_fits i a r : base !! i = Some a → base !! root i = Some r → Fits a r ∧ (i ≠ root i → borrowed a = false ∧ borrowed r = false);
  sh_after i a r : base !! i = Some a → base !! root i = Some r → i ≠ root i → endStep r <= beginStep a;
  sh_disjoint i j a b : base !! i = Some a → base !! j = Some b → i ≠ j → root i = root j →
    Before allocations a b j ∨ Before allocations b a i;
}.

Lemma sharing_initial : Sharing 0 base id.
Proof.
  assert (SameBut base) as Hs by (apply Forall2_same_length_lookup_2; [done|]; intros i x y Hx Hy; left; congruence).
  split; try done.
  - intros i Hi. split; [done|]. exists 0%nat. split; [lia|]. split; [done|].
    destruct (lookup_lt_is_Some_2 base i Hi) as [a Ha]. exists a. split; [done|]. apply fresh. by eapply list_elem_of_lookup_2.
  - intros i a _ Ha. apply fresh. by eapply list_elem_of_lookup_2.
  - intros i a r Ha Hr. unfold id in Hr. rewrite Ha in Hr. injection Hr as <-. split; [|done]. split_and!; [done|lia|lia].
Qed.

Lemma sharing_root later allocations root i : Sharing later allocations root → (later <= n)%nat → (i < n)%nat →
  rootIndex allocations i = root i.
Proof.
  intros HS Hle Hi. destruct (sh_chain _ _ _ HS i Hi) as (_ & k & Hk & Hc). unfold rootIndex.
  eapply chain_root; [by eapply same_positions, sh_same|exact Hc|]. rewrite (same_length _ (sh_same _ _ _ HS)). lia.
Qed.

Lemma chain_end allocations k i r : Chain allocations k i r → ∃ a, allocations !! r = Some a ∧ aliasOf a = None.
Proof. revert i. induction k as [|k IH]; intros i; cbn; [intros [<- ?]; eauto|]. intros (a & j & _ & _ & _ & Hc). by eapply IH. Qed.

(** Joining the tree of [later] to the root [c]. *)
Lemma chain_other allocations later a' k i r b : allocations !! later = Some b → aliasOf b = None → r ≠ later →
  Chain allocations k i r → Chain (<[later := a']> allocations) k i r.
Proof.
  intros Hb Hn Hr. revert i. induction k as [|k IH]; intros i; cbn [Chain].
  - intros [<- (a & Ha & Hal)]. split; [done|]. exists a. by rewrite list_lookup_insert_ne by done.
  - intros (a & j & Ha & Hal & Hj & Hc). exists a, j.
    assert (i ≠ later) by (intros ->; congruence). rewrite list_lookup_insert_ne, length_insert by done. auto.
Qed.

Lemma chain_join allocations later c a k i b : allocations !! later = Some b → aliasOf b = None → c ≠ later →
  allocations !! c = Some a → aliasOf a = None → al_id a = Z.of_nat c + 1 →
  Chain allocations k i later → Chain (<[later := withAlias (al_id a) b]> allocations) (S k) i c.
Proof.
  intros Hb Hn Hc Ha Hal Hid. revert i. induction k as [|k IH]; intros i.
  - intros [-> _]. cbn. exists (withAlias (al_id a) b), c. rewrite list_lookup_insert_eq by (by eapply lookup_lt_Some).
    split; [done|]. split; [cbn; by rewrite Hid|]. rewrite length_insert. split; [by eapply lookup_lt_Some|]. split; [done|].
    exists a. by rewrite list_lookup_insert_ne.
  - intros (x & j & Hx & Hxal & Hj & Hch). exists x, j. assert (i ≠ later) by (intros ->; congruence).
    rewrite list_lookup_insert_ne, length_insert by done. split_and!; [done..|]. by apply IH.
Qed.

Lemma lastUse_spec allocations later candidate a m : rootLastUse allocations later candidate a <= m ↔
  endStep a <= m ∧ ∀ o x, o ≠ later → allocations !! o = Some x → rootIndex allocations o = candidate → endStep x <= m.
Proof.
  unfold rootLastUse.
  assert (∀ os last, foldl (λ last other,
    if bool_decide (other ≠ later) && bool_decide (rootIndex allocations other = candidate) then
      from_option (λ o, Z.max last (endStep o)) last (allocations !! other) else last) last os <= m ↔
    last <= m ∧ ∀ o x, o ∈ os → o ≠ later → allocations !! o = Some x → rootIndex allocations o = candidate → endStep x <= m) as Hf.
  { induction os as [|o os IH]; intros last; cbn [foldl]; [split; [intros ?; split; [done|]; by intros ? ? ?%elem_of_nil|by intros [? _]]|].
    rewrite IH. setoid_rewrite elem_of_cons.
    destruct (decide (o ≠ later)) as [Hne|Hne]; [rewrite (bool_decide_true _ Hne)|rewrite (bool_decide_false _ Hne)]; cbn [andb]; [|naive_solver].
    destruct (decide (rootIndex allocations o = candidate)) as [Hr|Hr]; [rewrite (bool_decide_true _ Hr)|rewrite (bool_decide_false _ Hr); naive_solver].
    destruct (allocations !! o) as [x|] eqn:Hx; cbn; [|naive_solver]. rewrite Z.max_lub_iff. naive_solver. }
  rewrite Hf. split; intros [? Hall]; (split; [done|]); intros o x.
  - intros Hne Hx. apply Hall; [|done|done]. apply elem_of_seq. apply lookup_lt_Some in Hx. lia.
  - intros _. apply Hall.
Qed.

Lemma bestReuse_some allocations readable later b a : bestReuse allocations readable later b = Some a →
  ∃ earlier, (earlier < length allocations)%nat ∧ allocations !! rootIndex allocations earlier = Some a ∧
    mayReuse allocations readable later (rootIndex allocations earlier) a b = true.
Proof.
  unfold bestReuse.
  assert (∀ es best, (∀ e, e ∈ es → (e < length allocations)%nat) →
    foldl (considerReuse allocations readable later b) best es = Some a →
    best = Some a ∨ ∃ earlier, (earlier < length allocations)%nat ∧ allocations !! rootIndex allocations earlier = Some a ∧
      mayReuse allocations readable later (rootIndex allocations earlier) a b = true) as Hf.
  { induction es as [|e es IH]; intros best Hes; cbn [foldl]; [by left|]. intros Hb. apply IH in Hb as [Hb|?]; [|by right|set_solver].
    unfold considerReuse in Hb. cbv zeta in Hb. destruct (allocations !! rootIndex allocations e) as [x|] eqn:Hx; [|by left].
    destruct (mayReuse _ _ _ _ x b) eqn:Hm; [|by left].
    assert (Some x = Some a ∨ best = Some a) as [[= ->]|?]; [|right; exists e; split_and!; [apply Hes; left|done|done]|by left].
    destruct best as [y|]; [|by left]. destruct (decide _); auto. }
  intros Hb. apply Hf in Hb as [[=]|?]; [done|]. intros e He%elem_of_seq. lia.
Qed.

Lemma sharing_step later allocations root : Sharing later allocations root → (later < n)%nat →
  ∃ root', Sharing (S later) (reuseAt readableBy allocations later) root'.
Proof.
  intros HS Hlt. pose proof (same_length _ (sh_same _ _ _ HS)) as Hlen.
  destruct (lookup_lt_is_Some_2 allocations later) as [b Hb]; [lia|].
  pose proof (sh_unprocessed _ _ _ HS later b ltac:(lia) Hb) as Hbn.
  assert (base !! later = Some b) as Hbase.
  { destruct (same_lookup _ _ _ (sh_same _ _ _ HS) Hb) as (b0 & Hb0 & [->|[t ->]]); [done|by cbn in Hbn]. }
  assert (Sharing (S later) allocations root) as Hkeep.
  { destruct HS as [? Hch Hun ? ? ?]. split; try done.
    - intros i Hi. destruct (Hch i Hi) as (? & k & ? & ?). split; [done|]. exists k. split; [lia|done].
    - intros i a Hi. apply Hun. lia. }
  unfold reuseAt. rewrite Hb. destruct (borrowed b) eqn:Hbor; [by exists root|].
  destruct (bestReuse allocations (readableBy b) later b) as [a|] eqn:Hbest; [|by exists root].
  apply bestReuse_some in Hbest as (e & He & Ha & Hm). rewrite (sharing_root _ _ _ e HS) in Ha, Hm by lia.
  set (c := root e) in *. unfold mayReuse in Hm. cbv zeta in Hm. rewrite !andb_true_iff, orb_true_iff, andb_true_iff, !bool_decide_eq_true, negb_true_iff in Hm.
  destruct Hm as ((((((Hcl & Habor) & Hmem) & Hbytes) & Hocc) & Hal) & Hlast).
  assert (base !! c = Some a) as Hac.
  { destruct (same_lookup _ _ _ (sh_same _ _ _ HS) Ha) as (a0 & Ha0 & [->|[t ->]]); [done|by cbn in Hal]. }
  assert (c < n)%nat as Hcn by (by eapply lookup_lt_Some).
  assert (rootLastUse allocations later c a <= beginStep b) as Hle by (destruct Hlast as [[_ ?]|?]; lia).
  apply lastUse_spec in Hle as [Hend Hothers].
  assert (∀ i x, base !! i = Some x → i ≠ later → root i = c → endStep x <= beginStep b) as Hbefore.
  { intros i x Hx Hi Hr. destruct (Forall2_lookup_l _ _ _ _ _ (sh_same _ _ _ HS) Hx) as (x' & Hx' & Hor).
    assert (endStep x' = endStep x) as <- by (by destruct Hor as [->|[t ->]]).
    apply (Hothers i x' Hi Hx'). rewrite (sharing_root _ _ _ i HS); [done|lia|by eapply lookup_lt_Some]. }
  assert (root c = c) as Hrc.
  { destruct (sh_chain _ _ _ HS c Hcn) as (_ & k & _ & Hch). destruct k; [by destruct Hch|]. destruct Hch as (x & j & Hx & Hxal & _). congruence. }
  assert (root later = later) as Hrl.
  { destruct (sh_chain _ _ _ HS later Hlt) as (_ & k & _ & Hch). destruct k; [by destruct Hch|]. destruct Hch as (x & j & Hx & Hxal & _). congruence. }
  assert (∀ i x, base !! i = Some x → root i = later → beginStep b <= beginStep x) as Hafter.
  { intros i x Hx Hr. destruct (decide (i = later)) as [->|Hi]; [replace x with b by congruence; lia|].
    pose proof (sh_after _ _ _ HS i x b Hx ltac:(by rewrite Hr) ltac:(by rewrite Hr)).
    assert (b ∈ base) as Hin by (by eapply list_elem_of_lookup_2). apply fresh in Hin. lia. }
  assert (∀ j y, TookOver allocations j → TookOver (<[later := y]> allocations) j) as Hkept.
  { intros j y (b0 & x & t & Hb0 & Hx & Hxal & Ht). exists b0, x, t. split_and!; [done| |done..].
    rewrite list_lookup_insert_ne; [done|]. intros <-. congruence. }
  assert (∀ i x, base !! i = Some x → i ≠ later → root i = c → Before (<[later := withAlias (al_id a) b]> allocations) x b later) as Hjoins.
  { intros i x Hx Hi Hr. destruct (decide (endStep x = beginStep b)) as [Heq|Hneq]; [right|left; pose proof (Hbefore i x Hx Hi Hr); lia].
    split; [done|]. destruct Hlast as [[Hread _]|Hlast].
    - exists b, (withAlias (al_id a) b), (al_id a). split_and!; [done|apply list_lookup_insert_eq; lia|done|by apply contains_true].
    - exfalso. assert (rootLastUse allocations later c a <= beginStep b - 1) as Hl by lia. apply lastUse_spec in Hl as [_ Hl].
      destruct (Forall2_lookup_l _ _ _ _ _ (sh_same _ _ _ HS) Hx) as (x' & Hx' & Hor).
      assert (endStep x' = endStep x) as Hend' by (by destruct Hor as [->|[t ->]]).
      specialize (Hl i x' Hi Hx'). rewrite (sharing_root _ _ _ i HS) in Hl; [|lia|by eapply lookup_lt_Some]. specialize (Hl Hr). lia. }
  assert (b ∈ base) as Hbin by (by eapply list_elem_of_lookup_2). apply fresh in Hbin as [_ Hbin].
  assert (∀ i j x y, base !! i = Some x → base !! j = Some y → root i = c → i ≠ later → root j = later →
    Before (<[later := withAlias (al_id a) b]> allocations) x y j) as Hacross.
  { intros i j x y Hx Hy Hri Hil Hrj. destruct (decide (j = later)) as [->|Hjl]; [replace y with b by congruence; by eapply Hjoins|].
    pose proof (Hbefore i x Hx Hil Hri) as Hib. pose proof (Hafter j y Hy Hrj) as Haj.
    destruct (decide (endStep x = beginStep y)) as [Heq|Hneq]; [right|left; lia]. split; [done|]. apply Hkept.
    destruct (sh_disjoint _ _ _ HS later j b y Hbase Hy ltac:(done) ltac:(congruence)) as [[Hlt'|[_ Htook]]|[Hlt'|[_ (b0 & x0 & t & _ & Hx0 & Hal0 & _)]]];
      [lia|done| |congruence].
    assert (y ∈ base) as Hyin by (by eapply list_elem_of_lookup_2). apply fresh in Hyin as [_ Hyin]. lia. }
  assert (∀ x y j, Before allocations x y j → Before (<[later := withAlias (al_id a) b]> allocations) x y j) as Hmono.
  { intros x y j [?|[? ?]]; [by left|right; auto]. }
  exists (λ i, if decide (root i = later) then c else root i).
  pose proof HS as [Hsame Hch Hun Hfits Haf Hdis].
  split.
  - apply Forall2_same_length_lookup_2; [by rewrite length_insert|]. intros i x y Hx Hy.
    destruct (decide (i = later)) as [->|Hi].
    + rewrite list_lookup_insert_eq in Hy by lia. injection Hy as <-. right. exists (al_id a). congruence.
    + rewrite list_lookup_insert_ne in Hy by done. by apply (Forall2_lookup_lr _ _ _ _ _ _ Hsame Hx Hy).
  - intros i Hi. destruct (Hch i Hi) as (Hri & k & Hk & Hc). destruct (decide (root i = later)) as [Hr|Hr].
    + split; [done|]. exists (S k). split; [lia|]. rewrite Hr in Hc. apply (chain_join allocations later c a k i b); try done.
      rewrite (same_positions _ Hsame c a Ha). done.
    + split; [done|]. exists k. split; [lia|]. by eapply chain_other.
  - intros i x Hi. rewrite list_lookup_insert_ne by lia. apply Hun. lia.
  - intros i x r Hx Hr. destruct (decide (root i = later)) as [Hri|Hri]; [|by apply Hfits].
    rewrite Hac in Hr. injection Hr as <-. destruct (Hfits i x b Hx ltac:(by rewrite Hri)) as [(Hm & Hby & Ho) Hnb].
    split; [split_and!; [congruence|lia|lia]|]. intros _. split; [|done]. destruct (decide (i = later)) as [->|Hi]; [congruence|].
    apply Hnb. by rewrite Hri.
  - intros i x r Hx Hr Hne. destruct (decide (root i = later)) as [Hri|Hri]; [|by eapply Haf].
    rewrite Hac in Hr. injection Hr as <-. specialize (Hafter i x Hx Hri). lia.
  - intros i j x y Hx Hy Hne. destruct (decide (root i = later)) as [Hri|Hri], (decide (root j = later)) as [Hrj|Hrj]; intros Hroot.
    + destruct (Hdis i j x y Hx Hy Hne ltac:(congruence)); auto.
    + right. apply (Hacross j i); try done. congruence.
    + left. apply (Hacross i j); try done. congruence.
    + destruct (Hdis i j x y Hx Hy Hne Hroot); auto.
Qed.

Lemma reuse_sharing : ∃ root, Sharing n (reuse readableBy base) root.
Proof.
  unfold reuse.
  assert (∀ k, (k <= n)%nat → ∃ root, Sharing k (foldl (reuseAt readableBy) base (seq 0 k)) root) as Hk; [|by apply Hk].
  induction k as [|k IH]; intros Hle; [exists id; apply sharing_initial|].
  destruct IH as [root HS]; [lia|]. rewrite seq_S, foldl_app. cbn [foldl]. apply (sharing_step _ _ _ HS). lia.
Qed.
End reuse.

(** ** What is laid out *)
Lemma footprint_nonneg `{MLIRTiles} `{!MLIRMapTrees} `{!MLIRPrint} type map padding fp :
  physicalFootprintFor type map padding = Ok fp → 0 <= fp_bytes fp.
Proof.
  unfold physicalFootprintFor. destruct type as [t|]; [|done]. cbv zeta. destruct (negb _); [done|].
  destruct (staticShapeOf _) as [shape|]; [|by intros (? & _ & ?)%bind_ok]. intros (? & _ & (elements & _ & Hfp)%bind_ok)%bind_ok.
  destruct (decide (elements = 0)); [by injection Hfp as <-|].
  apply bind_ok in Hfp as (physical & _ & (count & _ & Hfp)%bind_ok).
  unfold checked_mul_u64 in Hfp. case_decide as Hin; [|done]. injection Hfp as <-. cbn. unfold in_u64 in Hin. lia.
Qed.

Section laid.
Context `{MLIRTiles} `{!MLIRMapTrees} `{!MLIRPrint}.
Variable graph : WorkloadGraph.
Variable plan : CoveringPlan.
Variable machine : MachineModel.
Variable placed : gmap nat PlanPlacement.
Variable steps : StepState.

(** Allocations are numbered from one, unshared, and end no earlier than they begin; what a
    node wrote is one of its results; and nothing is unresolved of a strict plan. *)
Record Laid (st : StorageState) : Prop := {
  laid_ids : PositionIds (ps_allocations st);
  laid_fresh a : a ∈ ps_allocations st → (aliasOf a = None ∧ beginStep a <= endStep a) ∧ 0 <= al_bytes a;
  laid_written id node : allocationWriter st !! id = Some node →
    ∃ w port a, findNode graph node = Some w ∧ port ∈ outputs w ∧ a ∈ ps_allocations st ∧ al_id a = id ∧
      al_value a = Z.of_nat (p_value port);
  laid_hops : Rising (ps_hops st);
  laid_strict : materialized plan = true → ps_reasons st = [];
}.

Lemma laid_same st st' : ps_allocations st' = ps_allocations st → allocationWriter st' = allocationWriter st → ps_hops st' = ps_hops st →
  ps_reasons st' = ps_reasons st → Laid st → Laid st'.
Proof. intros Ha Hw Hh Hr [? ? ? ? ?]. by split; rewrite ?Ha, ?Hw, ?Hh, ?Hr. Qed.

Lemma laid_initial hops : Rising hops → Laid (noStorage hops).
Proof. intros Hh. split; [done|by intros a ?%elem_of_nil|done|done|done]. Qed.

Lemma laid_incomplete reason st st' : recordIncomplete (materialized plan) reason st = Ok st' → Laid st → Laid st' ∧ ps_hops st' = ps_hops st.
Proof. unfold recordIncomplete. destruct (materialized plan) eqn:Hm; [done|]. intros [= <-] [? ? ? ? ?]. split; [|done]. by split; rewrite ?Hm. Qed.

Lemma laid_allocate value memory bytes begin end_ borrow occurrences st : begin <= end_ → 0 <= bytes → Laid st →
  Laid (allocate value memory bytes begin end_ borrow occurrences st).
Proof.
  intros Hle Hb [Hi Hf Hw Hh Hs]. split; [| | |done..].
  - intros i a. cbn. rewrite lookup_app_Some. intros [Ha|[Hlen Ha]]; [by apply Hi|].
    destruct (i - _)%nat eqn:Hd in Ha; [|done]. injection Ha as <-. cbn. unfold nextAllocationId. lia.
  - cbn. intros a [Ha| ->%list_elem_of_singleton]%elem_of_app; [by apply Hf|done].
  - cbn. intros id node (w & port & a & ? & ? & ? & ? & ?)%Hw. exists w, port, a. split_and!; [done|done|apply elem_of_app; by left|done|done].
Qed.

Lemma laid_hops_update index (hop : nat) hs (h h' : PlanMovementHop) st : storedHops st index = hs → hs !! hop = Some h →
  movementStep h' = movementStep h → Laid st → Laid (withHops index (<[hop := h']> hs) st).
Proof.
  intros Hhs Hh Hm [Hi Hf Hw Hr Hs]. split; [done..| |done]. intros ix i x y. cbn. destruct (decide (ix = index)) as [->|Hne].
  - rewrite lookup_insert_eq. cbn [from_option id]. rewrite !list_lookup_insert_Some.
    specialize (Hr index). change (default [] (ps_hops st !! index)) with (storedHops st index) in Hr. rewrite Hhs in Hr.
    intros [(<- & <- & _)|[_ Hx]] [(? & <- & _)|[_ Hy]]; rewrite ?Hm; try (by eapply Hr); [lia|]. subst. by eapply Hr.
  - rewrite lookup_insert_ne by done. apply Hr.
Qed.

Lemma laid_bytes what type map st bytes st' : bytesOr plan what type map st = Ok (bytes, st') → 
  0 <= bytes ∧ ps_hops st' = ps_hops st ∧ (Laid st → Laid st').
Proof.
  unfold bytesOr. destruct (physicalFootprintFor type map []) as [fp|] eqn:Hfp.
  - intros [= <- <-]. split_and!; [by eapply footprint_nonneg|done..].
  - destruct (materialized plan); [done|]. intros [= <- <-]. split_and!; [done|done|]. by apply laid_same.
Qed.

Lemma fold_laid {A} (body : StorageState → A → result storage_error StorageState) st xs st' :
  (∀ st x st', body st x = Ok st' → Laid st → Laid st') → fold_result body st xs = Ok st' → Laid st → Laid st'.
Proof. intros Hb Hf Hs. apply (fold_result_inv body (λ _, Laid) xs st st'); [done| |done]. intros pre x post t t' _ Ht Hx. by eapply Hb. Qed.

(** The allocation that is made for a result is written by its node. *)
Lemma laid_produced w port node memory bytes begin end_ occurrences st : findNode graph node = Some w → port ∈ outputs w →
  begin <= end_ → 0 <= bytes → Laid st →
  Laid (writtenBy (nextAllocationId st) node (allocate (p_value port) memory bytes begin end_ false occurrences st)).
Proof.
  intros Hn Hp Hle Hb Hs. destruct (laid_allocate (p_value port) memory bytes begin end_ false occurrences st Hle Hb Hs) as [Hi Hf Hw Hh Hr].
  split; [done|done| |done..]. cbn. intros id node' [[<- <-]|[_ Hold]]%lookup_insert_Some; [|by apply Hw].
  eexists w, port, _. split_and!; [done|done|apply elem_of_app; right; apply list_elem_of_singleton; reflexivity|done|done].
Qed.
Lemma laid_holdFor id st index : Laid st → Laid (holdFor id st index).
Proof. by apply laid_same. Qed.
Lemma laid_holdAll id st indexes : Laid st → Laid (foldl (holdFor id) st indexes).
Proof. revert st. induction indexes as [|i rest IH]; [done|]. intros st Hs. apply IH. by apply laid_holdFor. Qed.
Lemma laid_note note st : Laid st → Laid (addNote note st).
Proof. by apply laid_same. Qed.
Lemma laid_decision decision st : Laid st → Laid (recordDecision decision st).
Proof. by apply laid_same. Qed.

Lemma endOf_after begin value : begin <= endOf graph steps begin value.
Proof. unfold endOf. destruct (lastReaderStep graph steps value); cbn; lia. Qed.

Lemma laid_resolveHops st entry st' : resolveHops plan machine st entry = Ok st' → Laid st → Laid st'.
Proof.
  unfold resolveHops. apply fold_laid. intros st0 hop st1. unfold resolveHop.
  destruct (storedHops st0 entry.1 !! hop) as [h|] eqn:Hh; [|by intros [= <-]].
  destruct (legalTransferEngine machine (hop_src h) (hop_dst h)) as [engine|].
  - intros [= <-]. by apply (laid_hops_update _ _ _ h).
  - intros Hr Hs. by eapply laid_incomplete.
Qed.

Lemma laid_produceOutput node id placement occurrences st output st' : findNode graph id = Some node → output.2 ∈ outputs node →
  produceOutput graph plan machine steps node id placement occurrences st output = Ok st' → Laid st → Laid st'.
Proof.
  intros Hnode Hport. unfold produceOutput. destruct output as [index port]. cbv zeta.
  destruct (resolveEndpointMemory _ _ _ _) as [memory|e]; [|intros Hr Hs; by eapply laid_incomplete].
  set (st0 := match fallbackReason memory with Some _ => _ | None => _ end). intros Hf Hs.
  assert (Laid st0) as Hs0 by (unfold st0; destruct (fallbackReason memory); by try apply laid_decision).
  destruct (footprintBytes _ _ _ _ _ _) as [[bytes st1]|e] eqn:Hb; [|destruct (isDram _ _); [by injection Hf as <-|done]].
  unfold footprintBytes in Hb. destruct (findValue _ _); [|done]. apply laid_bytes in Hb as (Hb & _ & Hl).
  injection Hf as <-. apply laid_holdAll, (laid_produced node); [done|done|apply endOf_after|done|by apply Hl].
Qed.

Lemma laid_produceNode st id st' : produceNode graph plan machine placed steps st id = Ok st' → Laid st → Laid st'.
Proof.
  unfold produceNode. destruct (findNode graph id) as [node|] eqn:Hnode; [|done]. destruct (placed !! id) as [placement|]; [|done].
  cbv zeta. set (st0 := if bool_decide _ then _ else _). intros Hf Hs.
  assert (Laid st0) as Hs0 by (unfold st0; case_bool_decide; by try apply laid_note).
  assert (∀ n st0, fold_result (produceOutput graph plan machine steps node id placement n) st0 (imap pair (outputs node)) = Ok st' → Laid st0 → Laid st') as Hall.
  { intros n st1 Hfold Hst1. apply (fold_result_inv _ (λ _, Laid) (imap pair (outputs node)) st1 st' Hst1) in Hfold; [done|].
    intros pre x post t t' Hxs Ht Hx. eapply laid_produceOutput; [done| |exact Hx|done].
    assert (x ∈ imap pair (outputs node)) as (i & y & -> & Hy)%elem_of_lookup_imap by (rewrite Hxs; set_solver).
    cbn. by eapply list_elem_of_lookup_2. }
  destruct (residencyBound _ _ _) as [n|]; [by eapply Hall|]. destruct (materialized plan); [done|].
  eapply Hall; [done|]. by apply laid_note.
Qed.

Lemma laid_stageHop index connection type occurrences st hop st' :
  stageHop graph plan placed steps index connection type occurrences st hop = Ok st' → Laid st → Laid st'.
Proof.
  unfold stageHop. cbv zeta. destruct (storedHops st index !! hop) as [h|] eqn:Hh; [|by intros [= <-]].
  intros ([bytes st1] & Hb & Hf)%bind_ok Hs. apply laid_bytes in Hb as (Hb & Hhops & Hl). specialize (Hl Hs).
  set (begin := movementStep h) in Hf. set (end_ := if bool_decide _ then _ else _) in Hf.
  assert (begin <= end_) as Hle.
  { unfold end_. destruct (bool_decide _); [apply endOf_after|]. destruct (storedHops st index !! S hop) as [h'|] eqn:Hh'; [|done].
    cbn. by apply (laid_hops _ Hs index hop). }
  apply bind_ok in Hf as (st2 & Hst2 & [= <-]). apply laid_holdFor.
  pose proof (laid_allocate (pc_value connection) (hop_dst h) bytes begin end_ false occurrences st1 Hle Hb Hl) as Hal.
  set (st3 := allocate _ _ _ _ _ _ _ st1) in *.
  assert (Laid st2 ∧ ps_hops st2 = ps_hops st) as [Hs2 Hh2].
  { match type of Hst2 with (if ?b then _ else _) = _ => destruct b end; [|by injection Hst2 as <-]. destruct (laid_incomplete _ _ _ Hst2 Hal) as [? ->]. done. }
  apply (laid_hops_update _ _ _ h); [|done|done|done]. unfold storedHops. by rewrite Hh2.
Qed.

Lemma laid_destination connection st memory st' : destinationMemory graph plan machine placed connection st = Ok (memory, st') →
  Laid st → Laid st'.
Proof.
  unfold destinationMemory. destruct (last (pc_route connection)); [by intros [= _ <-]|].
  destruct (consumerDestination _ _ _ _) as [[placement port]|]; [|by intros [= _ <-]].
  destruct (resolveEndpointMemory _ _ _ _) as [resolved|e]; [by intros [= _ <-]|].
  intros (st1 & Hst1 & [= _ <-])%bind_ok Hs. by eapply laid_incomplete.
Qed.

Lemma laid_stageWhole index connection type occurrences st st' :
  stageWhole graph plan machine placed steps index connection type occurrences st = Ok st' → Laid st → Laid st'.
Proof.
  unfold stageWhole. intros ([memory st1] & Hd & Hf)%bind_ok Hs. apply laid_destination in Hd; [|done].
  destruct memory as [memory|]; [|by eapply laid_incomplete]. destruct (_ && _)%bool; [by injection Hf as <-|].
  apply bind_ok in Hf as ([bytes st2] & Hb & [= <-]). apply laid_bytes in Hb as (Hb & _ & Hl).
  apply laid_holdFor, laid_allocate; [apply endOf_after|done|by apply Hl].
Qed.

Lemma laid_stageConnection st entry st' : stageConnection graph plan machine placed steps st entry = Ok st' → Laid st → Laid st'.
Proof.
  unfold stageConnection. destruct entry as [index connection]. destruct (materializesMovement connection); [|by intros [= <-]].
  destruct (findValue _ _) as [v|]; [|done]. intros ([n st1] & Hn & Hf)%bind_ok Hs.
  assert (Laid st1) as Hs1.
  { destruct (occurrencesForValue _ _ _ _); [by injection Hn as _ <-|]. destruct (materialized plan); [done|].
    injection Hn as _ <-. by apply laid_note. }
  destruct (decide _); [by eapply laid_stageWhole|]. revert Hf Hs1. apply fold_laid. intros st2 hop st3. apply laid_stageHop.
Qed.

Lemma laid_borrow value id placement state input state' : borrowAt graph plan machine value id placement state input = Ok state' →
  Laid state.2 → Laid state'.2.
Proof.
  unfold borrowAt. destruct state as [borrows st], input as [index port]. destruct (decide _); [by intros [= <-]|].
  destruct (resolveEndpointMemory _ _ _ _) as [memory|e]; [by intros [= <-]|].
  intros (st1 & Hst1 & [= <-])%bind_ok Hs. by eapply laid_incomplete.
Qed.

Lemma laid_borrowsOfNode value state id state' : borrowsOfNode graph plan machine placed value state id = Ok state' →
  Laid state.2 → Laid state'.2.
Proof.
  unfold borrowsOfNode. destruct (findNode graph id) as [node|]; [|by intros [= <-]].
  destruct (placed !! id) as [placement|]; [|by intros [= <-]]. intros Hf Hs.
  apply (fold_result_inv (borrowAt graph plan machine value id placement) (λ _ s, Laid s.2) (imap pair (inputs node)) state state' Hs); [|done].
  intros pre x post t t' _ Ht Hx. by eapply laid_borrow.
Qed.

Lemma fold_min_max readers first : foldl (λ b reader, Z.min b (stepOf steps reader)) first readers <=
  foldl (λ e reader, Z.max e (stepOf steps reader)) first readers.
Proof.
  assert (∀ l h, l <= h → foldl (λ b reader, Z.min b (stepOf steps reader)) l readers <=
    foldl (λ e reader, Z.max e (stepOf steps reader)) h readers) as Hall; [|by apply Hall].
  induction readers as [|r readers IH]; intros l h Hle; [done|]. apply IH. lia.
Qed.

Lemma laid_borrowFrom value st entry st' : borrowFrom plan machine steps value st entry = Ok st' → Laid st → Laid st'.
Proof.
  unfold borrowFrom. destruct entry as [memory borrow]. destruct (_ && _)%bool; [by intros [= <-]|].
  intros ([bytes st1] & Hb & [= <-])%bind_ok Hs. apply laid_bytes in Hb as (Hb & _ & Hl).
  destruct (borrow_reason borrow); [apply laid_decision|apply laid_note];
    (apply laid_allocate; [apply fold_min_max|done|by apply Hl]).
Qed.

Lemma laid_borrowValue topo st value st' : borrowValue graph plan machine placed steps topo st value = Ok st' → Laid st → Laid st'.
Proof.
  unfold borrowValue. destruct (_ && _)%bool; [|by intros [= <-]]. intros ([borrows st1] & Hb & Hf)%bind_ok Hs.
  assert (Laid st1) as Hs1.
  { apply (fold_result_inv (borrowsOfNode graph plan machine placed value) (λ _ s, Laid s.2) topo (∅, st) (borrows, st1)); [done| |done].
    intros pre x post t t' _ Ht Hx. by eapply laid_borrowsOfNode. }
  revert Hf Hs1. apply fold_laid. intros st2 entry st3. apply laid_borrowFrom.
Qed.

Lemma allocations_laid topo st : Rising (connectionHops steps) → allocations_of graph plan machine placed steps topo = Ok st → Laid st.
Proof.
  unfold allocations_of. intros Hr (st1 & Hf1 & (st2 & Hf2 & (st3 & Hf3 & Hf4)%bind_ok)%bind_ok)%bind_ok.
  eapply fold_laid; [intros ? ? ?; apply laid_borrowValue|exact Hf4|]. eapply fold_laid; [intros ? ? ?; apply laid_stageConnection|exact Hf3|].
  eapply fold_laid; [intros ? ? ?; apply laid_produceNode|exact Hf2|]. eapply fold_laid; [intros ? ? ?; apply laid_resolveHops|exact Hf1|].
  by apply laid_initial.
Qed.
End laid.

(** ** The finalized plan *)
Section finalized.
Context `{MLIRTiles} `{!MLIRMapTrees} `{!MLIRPrint}.
Variable cast_out_of_range : double → Z.

Lemma laid_occupancy plan graph machine probe st peak st' : materialized probe = materialized plan →
  occupancy cast_out_of_range graph machine probe st = Ok (peak, st') → Laid graph plan st → Laid graph plan st'.
Proof.
  intros Hm. unfold occupancy. destruct (buildPlanEvents _ _ _ _) as [dag|e].
  - destruct (analyzeStorageLiveness _ _ _) as [liveness|e]; [by intros [= _ <-]|].
    intros (st1 & Hst1 & [= _ <-])%bind_ok Hs. rewrite Hm in Hst1. by eapply laid_incomplete.
  - intros (scaled & _ & Hp)%bind_ok Hs. destruct (computePeakStorage scaled); [|done]. injection Hp as _ <-. by apply laid_note.
Qed.

(** The plan whose occupancy is taken: the final plan with the barriers, the id and the
    diagnostics the plan came with. *)
Definition probeOf (plan final : CoveringPlan) : CoveringPlan :=
  withStorage plan (plan_id plan) (connectionPlans final) (diagnostics plan) (MappingPlan.allocations final)
    (synchronization plan) (MappingPlan.steps final) (stepEdges final).

(** Plans that ask for the same barriers, and are otherwise the same but for their ids and
    diagnostics, have the same stream. *)
Section same_barriers.
Variables (plan : CoveringPlan) (machine : MachineModel) (id id' : Z) (cs : list PlanConnection) (d d' : PlanDiagnostics)
  (allocations : list StorageAllocation) (syncs syncs' : list SynchronizationStep) (ss : list PlanStep) (es : list PlanStepEdge).
Let p := withStorage plan id cs d allocations syncs ss es.
Let q := withStorage plan id' cs d' allocations syncs' ss es.

Lemma same_movements next connections : synthesizeMovements p next connections = synthesizeMovements q next connections.
Proof.
  revert next. induction connections as [|c connections IH]; intros next; [done|]. cbn [synthesizeMovements].
  destruct (decide _); [apply IH|]. cbv zeta. by rewrite IH.
Qed.
Lemma same_structure : executionStructure p = executionStructure q.
Proof.
  unfold executionStructure. change (MappingPlan.steps p) with (MappingPlan.steps q). destruct (decide _); [|done].
  unfold synthesizeSteps. cbv zeta. by rewrite same_movements.
Qed.
Lemma same_hopsFrom connection stepId chain next hop count :
  emitHopsFrom cast_out_of_range p machine connection stepId chain next hop count =
  emitHopsFrom cast_out_of_range q machine connection stepId chain next hop count.
Proof.
  revert chain next hop. induction count as [|count IH]; intros chain next hop; [done|]. cbn [emitHopsFrom].
  change (emitHop cast_out_of_range p) with (emitHop cast_out_of_range q).
  destruct (emitHop _ _ _ _ _ _ _ _) as [es1|]; [|done]. cbn [mbind result_bind]. by rewrite IH.
Qed.
Lemma same_hops connection step chain next :
  emitHops cast_out_of_range p machine connection step chain next = emitHops cast_out_of_range q machine connection step chain next.
Proof. unfold emitHops. cbv zeta. by rewrite same_hopsFrom. Qed.
Lemma same_feeds connection step next feeds :
  emitFeeds cast_out_of_range p machine connection step next feeds = emitFeeds cast_out_of_range q machine connection step next feeds.
Proof.
  revert next. induction feeds as [|feeds IH]; intros next; [done|]. cbn [emitFeeds]. rewrite same_hops.
  destruct (emitHops _ _ _ _ _ _ _) as [es1|]; [|done]. cbn [mbind result_bind]. by rewrite IH.
Qed.
Lemma same_movement connection step next :
  emitMovement cast_out_of_range p machine connection step next = emitMovement cast_out_of_range q machine connection step next.
Proof. unfold emitMovement, emitGather. cbv zeta. by rewrite same_hops, same_feeds. Qed.

Lemma same_barriers_same_stream graph : (∀ c, barrierOn p c = barrierOn q c) →
  accumulatedEvents cast_out_of_range p machine graph = accumulatedEvents cast_out_of_range q machine graph.
Proof.
  intros Hb. unfold accumulatedEvents. change (schemaVersion p) with (schemaVersion q).
  change (placements p) with (placements q). rewrite same_structure. destruct (executionStructure q) as [xs edges].
  assert (emitSteps cast_out_of_range graph p machine xs = emitSteps cast_out_of_range graph q machine xs) as ->; [|done].
  unfold emitSteps. generalize (mkEmission [] ∅ ∅). induction (merge_sort stepLe xs) as [|x rest IH]; intros st; [done|]. cbn [fold_result].
  assert (emitStep cast_out_of_range graph p machine st x = emitStep cast_out_of_range graph q machine st x) as ->.
  { unfold emitStep. destruct (st_kind x); [done| |by rewrite Hb]. change (connectionPlans p) with (connectionPlans q).
    destruct (List.find _ _); [|done]. by rewrite same_movement. }
  destruct (emitStep _ _ _ _ _ _); [apply IH|done].
Qed.
End same_barriers.

(** Everything a finalized plan is built from. *)
Record Finalized (graph : WorkloadGraph) (plan : CoveringPlan) (machine : MachineModel) (final : CoveringPlan)
    (st : StorageState) (peak : gmap string Z) : Prop := {
  fi_laid : Laid graph plan st;
  fi_final : final = withStorage plan (plan_id final) (connectionPlans final) (diagnostics final) (MappingPlan.allocations final)
    (synchronization final) (MappingPlan.steps final) (stepEdges final);
  fi_allocations : MappingPlan.allocations final = reuse (readableFor graph st) (ps_allocations st);
  fi_peak : ∃ st',
    occupancy cast_out_of_range graph machine (probeOf plan final) st = Ok (peak, st') ∧
    physicalComplete (diagnostics final) = bool_decide (ps_reasons st' = []) ∧ Laid graph plan st';
  fi_fits memory bytes : peak !! memory = Some bytes → ∃ node, findMemory machine memory = Some node ∧ bytes <= capacityBytes node;
}.

Lemma finalize_inv graph plan machine final : finalizeStoragePlan cast_out_of_range graph plan machine = Ok final →
  ∃ st peak, Finalized graph plan machine final st peak.
Proof.
  unfold finalizeStoragePlan. intros (placed & _ & (_ & _ & (topo & _ & (steps & Hsteps & (st & Hst & Hf)%bind_ok)%bind_ok)%bind_ok)%bind_ok)%bind_ok.
  cbv zeta in Hf. apply bind_ok in Hf as ([peak st'] & Hpeak & (notes & Hnotes & [= <-])%bind_ok).
  exists st, peak. assert (Laid graph plan st) as Hlaid by (eapply allocations_laid; [by eapply assignSteps_rising|done]).
  split; [done|done|done| |].
  - exists st'. split_and!; [|done|by eapply laid_occupancy; [|exact Hpeak|done]]. unfold probeOf. cbn. by rewrite sortEdges_idem.
  - intros memory bytes Hb.
    assert (∀ entries n n', fold_result (checkCapacity machine (reuse (readableFor graph st) (ps_allocations st))) n entries = Ok n' →
      ∀ entry, entry ∈ entries → ∃ node, findMemory machine entry.1 = Some node ∧ entry.2 <= capacityBytes node) as Hall.
    { induction entries as [|[m b] entries IH]; intros n n' Hf entry Hin; [by apply elem_of_nil in Hin|].
      apply bind_ok in Hf as (n1 & Hc & Hf). apply elem_of_cons in Hin as [->|Hin]; [|by eapply IH].
      unfold checkCapacity in Hc. destruct (findMemory machine m) as [node|] eqn:Hm; [|done]. exists node. split; [done|].
      apply bind_ok in Hc as ([] & Hc & _). cbn. case_bool_decide; [done|lia]. }
    by apply (Hall _ _ _ Hnotes (memory, bytes)), in_order_elem.
Qed.
End finalized.

(** ** What a writer reads *)
Section reads.
Context `{MLIRTiles} `{!MLIRMapTrees} `{!MLIRPrint}.
Variable graph : WorkloadGraph.

Lemma produced_spec allocations v id : producedAllocation allocations !! v = Some id →
  ∃ h, h ∈ allocations ∧ borrowed h = false ∧ al_value h = v ∧ al_id h = id.
Proof.
  unfold producedAllocation. intros Hp.
  assert (∀ as_ (m : gmap Z Z), foldl (λ m a, if borrowed a then m else if decide (is_Some (m !! al_value a)) then m else <[al_value a := al_id a]> m) m as_ !! v = Some id →
    m !! v = Some id ∨ ∃ h, h ∈ as_ ∧ borrowed h = false ∧ al_value h = v ∧ al_id h = id) as Hf.
  { induction as_ as [|a as_ IH]; intros m; cbn [foldl]; [auto|]. intros Hm. apply IH in Hm as [Hm|(h & ? & ?)]; [|right; exists h; set_solver].
    destruct (borrowed a) eqn:Hb; [auto|]. destruct (decide _); [auto|]. apply lookup_insert_Some in Hm as [[<- <-]|[_ ?]]; [right; exists a; set_solver|auto]. }
  apply Hf in Hp as [Hp|?]; [|done]. by rewrite lookup_empty in Hp.
Qed.

Lemma nodeReads_spec produced node held : held ∈ default [] (nodeReads graph produced !! node) →
  ∃ w input, w ∈ nodes graph ∧ n_id w = node ∧ input ∈ inputs w ∧ produced !! Z.of_nat (storageValueOf graph (p_value input)) = Some held.
Proof.
  unfold nodeReads. intros Hh.
  assert (∀ w ins (m : gmap nat (list Z)), held ∈ default [] (foldl (addRead graph produced (n_id w)) m ins !! node) →
    held ∈ default [] (m !! node) ∨ ∃ input, n_id w = node ∧ input ∈ ins ∧ produced !! Z.of_nat (storageValueOf graph (p_value input)) = Some held) as Hin.
  { intros w. induction ins as [|input ins IH]; intros m; cbn [foldl]; [auto|]. intros Hm. apply IH in Hm as [Hm|(i & ? & ? & ?)]; [|right; exists i; set_solver].
    unfold addRead in Hm. destruct (produced !! _) as [x|] eqn:Hx; [|auto]. cbv zeta in Hm. destruct (contains _ x); [auto|].
    destruct (decide (n_id w = node)) as [<-|Hne]; [|rewrite lookup_insert_ne in Hm by done; auto].
    rewrite lookup_insert_eq in Hm. cbn [default from_option id] in Hm. apply elem_of_app in Hm as [Hm| ->%list_elem_of_singleton]; [auto|].
    right. exists input. set_solver. }
  assert (∀ ns (m : gmap nat (list Z)), held ∈ default [] (foldl (λ m w, foldl (addRead graph produced (n_id w)) m (inputs w)) m ns !! node) →
    held ∈ default [] (m !! node) ∨ ∃ w input, w ∈ ns ∧ n_id w = node ∧ input ∈ inputs w ∧
      produced !! Z.of_nat (storageValueOf graph (p_value input)) = Some held) as Hns.
  { induction ns as [|w ns IH]; intros m; cbn [foldl]; [auto|]. intros Hm. apply IH in Hm as [Hm|(x & i & ? & ?)]; [|right; exists x, i; set_solver].
    apply Hin in Hm as [Hm|(i & ? & ? & ?)]; [auto|right; exists w, i; set_solver]. }
  apply Hns in Hh as [Hh|?]; [|done]. rewrite lookup_empty in Hh. by apply elem_of_nil in Hh.
Qed.

Lemma readableFor_spec st b held : held ∈ readableFor graph st b →
  ∃ w input h, w ∈ nodes graph ∧ n_id w = default 0%nat (allocationWriter st !! al_id b) ∧ input ∈ inputs w ∧
    h ∈ ps_allocations st ∧ borrowed h = false ∧ al_value h = Z.of_nat (storageValueOf graph (p_value input)) ∧ al_id h = held.
Proof.
  unfold readableFor. intros (w & input & Hw & Hid & Hin & (h & ? & ? & ? & ?)%produced_spec)%nodeReads_spec. by exists w, input, h.
Qed.
End reads.

(** ** The theorems *)

Section results.
Context `{MLIRTiles} `{!MLIRMapTrees} `{!MLIRPrint}.
Variable cast_out_of_range : double → Z.

(** [b] took over, as its writer ran, the buffer of an operand of its writer: it holds a result
    of that node.  A staged copy, which no node writes, counts as node 0's. *)
Definition InPlace (graph : WorkloadGraph) (all : list StorageAllocation) (b : StorageAllocation) : Prop :=
  ∃ w input h, w ∈ nodes graph ∧ input ∈ inputs w ∧ h ∈ all ∧ aliasOf b = Some (al_id h) ∧ borrowed h = false ∧
    al_value h = Z.of_nat (storageValueOf graph (p_value input)) ∧
    ((∃ w' output, findNode graph (n_id w) = Some w' ∧ output ∈ outputs w' ∧ al_value b = Z.of_nat (p_value output)) ∨ n_id w = 0%nat).


(** Weighing keeps all but the bytes. *)
Lemma weighted_ok a b : weighted a = Ok b → al_bytes b = al_bytes a * simultaneousOccurrences a ∧ al_memory b = al_memory a ∧
  beginStep b = beginStep a ∧ endStep b = endStep a.
Proof. unfold weighted. by intros [_ [= <-]]%fail_then_ok. Qed.

End results.

(** ** A concrete plan *)
Section witness.
#[local] Existing Instance sample_types.
#[local] Existing Instance sample_text.
#[local] Existing Instance sample_print.
#[local] Instance square_tiles : MLIRTiles := {| parseType _ := None; isScalarType _ := false; getShape s := s.2 |}.
#[local] Existing Instance sample_trees.

(** Three nodes in a row: the first writes to the outer memory, its value is moved to the inner
    memory, where the others read and write. *)
Definition line_graph : WorkloadGraph :=
  mkGraph [chain_node 0 [] [0%nat]; chain_node 1 [0%nat] [1%nat]; chain_node 2 [1%nat] [2%nat]] (chain_value <$> seq 0 3).
Definition line_placement (node : nat) (memory : string) : PlanPlacement :=
  mkPlacement node (Z.of_nat node + 1) "t.rule" (mkBundle "b" None "emit") "pe.0" ∅ ∅ ∅ ∅ [] ∅
    [mkPortMemory (mkRef node Output 0) memory; mkPortMemory (mkRef node Input 0) "sram.0"]
    (mkCost (double_of_Z 50) 0 0 0 dzero dzero) 64 None.
Definition line_plan (connection : PlanConnection) : CoveringPlan :=
  mkPlan 0 7 "cand" [1; 2; 3] [3] [line_placement 0 "dram.0"; line_placement 1 "sram.0"; line_placement 2 "sram.0"] [connection]
    ∅ zeroCost zeroCost MappingPlan.Accumulation None [] "" 0 "" (mkPlanDiagnostics [] [] false [] false [] []) 0 true 0 0 0 0 0 [] [] [] [].
Definition moved_plan : CoveringPlan := line_plan (stream_connection MappingPlan.Transfer ["dram.0"; "sram.0"]).
Definition finalized (graph : WorkloadGraph) (plan : CoveringPlan) : CoveringPlan :=
  match finalizeStoragePlan no_cast graph plan sample_machine with Ok final => final | Err _ => plan end.

Definition line_final : CoveringPlan := finalized line_graph moved_plan.

Example line_storage :
  (λ a, (al_id a, al_value a, al_memory a, aliasOf a, beginStep a, endStep a)) <$> MappingPlan.allocations line_final =
    [(1, 0, "dram.0", None, 0, 3); (2, 1, "sram.0", None, 3, 4); (3, 2, "sram.0", Some 2, 4, 4); (4, 0, "sram.0", None, 1, 3)] ∧
  storageNotes (diagnostics line_final) =
    ["storage plan: memory 'dram.0' peak 160 bytes of 65536"; "storage plan: memory 'sram.0' peak 320 bytes of 4096"].
Proof. split; vm_compute; reflexivity. Qed.


Definition line_dag : PlanEventDAG :=
  match buildPlanEvents no_cast line_final sample_machine (Some line_graph) with Ok dag => dag | Err _ => mkDAG [] Snapshot end.

(** The same machine without its compute resource: the stream cannot be built. *)
Definition no_engine : MachineModel :=
  mkMachine 2 0 "toy" "" (Some 1000000000) 4 (mkSync 10 5) [sample_group; sample_pe0; sample_pe1] [sample_dram; sample_sram] [] [sample_dma]
    [sample_link] 0.
Definition line_stepped : CoveringPlan :=
  match finalizeStoragePlan no_cast line_graph moved_plan no_engine with Ok final => final | Err _ => moved_plan end.


(** A node writes two results that nothing reads: both take over its operand's buffer, in the
    same step. *)
Definition fork_graph : WorkloadGraph :=
  mkGraph [chain_node 0 [] [0%nat]; chain_node 1 [0%nat] [1%nat; 2%nat]] (chain_value <$> seq 0 3).
Definition fork_placement (node : nat) : PlanPlacement :=
  mkPlacement node (Z.of_nat node + 1) "t.rule" (mkBundle "b" None "emit") "pe.0" ∅ ∅ ∅ ∅ [] ∅
    [mkPortMemory (mkRef node Output 0) "sram.0"; mkPortMemory (mkRef node Output 1) "sram.0"]
    (mkCost (double_of_Z 50) 0 0 0 dzero dzero) 64 None.
Definition fork_plan : CoveringPlan :=
  mkPlan 0 7 "cand" [1; 2] [] [fork_placement 0; fork_placement 1] []
    ∅ zeroCost zeroCost MappingPlan.Accumulation None [] "" 0 "" (mkPlanDiagnostics [] [] false [] false [] []) 0 true 0 0 0 0 0 [] [] [] [].

Example both_results_share_one_buffer :
  (λ a, (al_id a, al_value a, aliasOf a, beginStep a, endStep a)) <$> MappingPlan.allocations (finalized fork_graph fork_plan) =
    [(1, 0, None, 0, 1); (2, 1, Some 1, 1, 1); (3, 2, Some 1, 1, 1)] ∧
  physicalComplete (diagnostics (finalized fork_graph fork_plan)) = true.
Proof. split; vm_compute; reflexivity. Qed.

(** A buffer that is reused may itself go on to reuse another. *)
Example reuse_is_not_flat :
  let alloc id begin end_ := mkAllocation id id "sram.0" 64 None begin end_ false 1 in
  aliasOf <$> reuse (λ _, []) [alloc 1 5 6; alloc 2 2 3; alloc 3 0 1] = [Some 2; Some 3; None].
Proof. vm_compute. reflexivity. Qed.
End witness.
