(* ===== verification/Sorting.v ===== *)
(** The sorts of the standard library on a comparator.

    [std::stable_sort] is a function of its input; of [std::sort] (which is [llvm::sort]) only
    what the standard promises is assumed, the class [StdSort]: a permutation, in order when
    the comparator is a strict weak order, elements that tie in any order. *)
From S2P Require Import Prelude.

(** ** The stable sort *)
Fixpoint stable_insert {A} (less : A → A → bool) (x : A) (xs : list A) : list A :=
  match xs with
  | [] => [x]
  | y :: ys => if less y x then y :: stable_insert less x ys else x :: xs
  end.
Definition stable_sort {A} (less : A → A → bool) (xs : list A) : list A := foldr (stable_insert less) [] xs.

(** ** The promise *)
Record StrictWeak {A} (P : A → Prop) (less : A → A → bool) : Prop := {
  sw_irrefl x : P x → less x x = false;
  sw_trans x y z : P x → P y → P z → less x y = true → less y z = true → less x z = true;
  sw_ties x y z : P x → P y → P z → less x y = false → less y z = false → less x z = false;
}.

Class StdSort := {
  std_sort {A} : (A → A → bool) → list A → list A;
  std_sort_perm {A} (less : A → A → bool) xs : std_sort less xs ≡ₚ xs;
  std_sort_sorted {A} (less : A → A → bool) xs : StrictWeak (λ x, x ∈ xs) less →
    StronglySorted (λ x y, less y x = false) (std_sort less xs);
}.

(** ** The stable sort keeps it *)
Lemma stable_insert_perm {A} (less : A → A → bool) x xs : stable_insert less x xs ≡ₚ x :: xs.
Proof.
  induction xs as [|y ys IH]; cbn; [done|]. destruct (less y x); [|done].
  rewrite IH. apply Permutation_swap.
Qed.

Lemma stable_sort_perm {A} (less : A → A → bool) xs : stable_sort less xs ≡ₚ xs.
Proof. induction xs as [|x xs IH]; cbn; [done|]. by rewrite stable_insert_perm, IH. Qed.

Section strict.
Context {A : Type} (P : A → Prop) (less : A → A → bool) (Hs : StrictWeak P less).

Lemma strict_asym x y : P x → P y → less x y = true → less y x = false.
Proof.
  intros Hx Hy Hxy. apply not_true_iff_false. intros Hyx.
  pose proof (sw_trans _ _ Hs x y x Hx Hy Hx Hxy Hyx) as Hxx. by rewrite (sw_irrefl _ _ Hs) in Hxx.
Qed.

Lemma stable_insert_sorted x xs : P x → Forall P xs →
  StronglySorted (λ x y, less y x = false) xs → StronglySorted (λ x y, less y x = false) (stable_insert less x xs).
Proof.
  intros Hx HP Hsort. induction Hsort as [|y ys Hys IH Hall]; cbn; [by repeat constructor|].
  apply Forall_cons in HP as [Hy HP]. destruct (less y x) eqn:Hyx.
  - constructor; [by apply IH|]. rewrite stable_insert_perm. constructor; [|done]. by apply strict_asym.
  - constructor; [by constructor|]. constructor; [done|].
    apply Forall_forall. intros z Hz. rewrite Forall_forall in Hall, HP. apply (sw_ties _ _ Hs z y x); auto.
Qed.

Lemma stable_sort_sorted xs : Forall P xs → StronglySorted (λ x y, less y x = false) (stable_sort less xs).
Proof.
  induction 1 as [|x xs Hx HP IH]; cbn; [constructor|]. apply stable_insert_sorted; [done| |done].
  by rewrite (stable_sort_perm less xs).
Qed.
End strict.

(** Elements in order stay where they are. *)
Lemma stable_sort_id {A} (less : A → A → bool) xs :
  StronglySorted (λ x y, less y x = false) xs → stable_sort less xs = xs.
Proof.
  unfold stable_sort. induction 1 as [|x xs Hxs IH Hall]; cbn; [done|]. rewrite IH.
  destruct xs as [|y ys]; cbn; [done|]. apply Forall_cons in Hall as [Hyx _]. by rewrite Hyx.
Qed.

(** So a standard library may sort stably. *)
Definition stable_std_sort : StdSort := {|
  std_sort A less xs := stable_sort less xs;
  std_sort_perm A less xs := stable_sort_perm less xs;
  std_sort_sorted A less xs Hs := stable_sort_sorted _ less Hs xs (proj2 (Forall_forall _ _) (λ x Hx, Hx));
|}.

(** The order of a string key. *)
Lemma str_ltb_strict {A} (P : A → Prop) (key : A → string) : StrictWeak P (λ x y, str_ltb (key x) (key y)).
Proof.
  split; [intros x _; apply str_ltb_irrefl|intros x y z _ _ _; apply str_ltb_trans|].
  intros x y z _ _ _ Hxy Hyz. apply not_true_iff_false. intros Hxz.
  destruct (str_ltb_total (key y) (key z)) as [H|[H|H]]; [congruence|rewrite H in *; congruence|].
  rewrite (str_ltb_trans _ _ _ Hxz H) in Hxy. done.
Qed.
