(* ===== verification/SourceGraph.v ===== *)
(** The source identity of a workload graph: [computeSourceGraphHash] of
    lib/Mapping/MappingMetadata.cpp and what it is made of.

    The graph is projected to its semantic nodes in the order of their structural keys, its
    values renumbered as the nodes meet them, and rendered with every value named by what
    produces it; the hash of that text is the identity a report records.  The theorem: the
    identity is that of the content, whatever order the nodes and values of the graph were
    built in and whatever their place in the program, also when nodes have equal structures. *)
From S2P Require Import Prelude MachineModel CostModel Diagnostics MappingPlan RuleMatching Sorting.
From S2P Require Import WorkloadGraph.
Open Scope string_scope.
Open Scope Z_scope.

Section source.
Context `{MLIRPrint} `{!MLIRBuild}.
Local Abbreviation nat_text n := (to_string (Z.of_nat n)).

(** ** Keys *)
Definition isBookkeepingAttribute (name : string) : bool :=
  contains ["micro.mapping"; "micro.routes"; "micro.plan"; "micro.value"; "micro.dst_node"; "micro.connection"; "micro.hop";
            "micro.src_storage"; "micro.dst_storage"] name.

Definition strippedAttributesString (node : WorkloadNode) : string :=
  match attributes node with
  | None => ""
  | Some d =>
    match List.filter (λ e, negb (isBookkeepingAttribute e.1)) (entriesOf d) with
    | [] => ""
    | kept => attributeString (dictionaryGet kept)
    end
  end.

Definition structuralNodeKey (node : WorkloadNode) : string :=
  opName node +:+ "|in:" +:+ portTypes (inputs node) +:+ "|out:" +:+ portTypes (outputs node) +:+ "|attr:" +:+
  strippedAttributesString node.

Definition isBinderMovement (node : WorkloadNode) : bool :=
  existsb (λ e, bool_decide (e.1 = "micro.connection")) (from_option entriesOf [] (attributes node)).

(** ** The projection, of a graph that comes with no operations *)
Record Projection := mkProjection { projected : WorkloadGraph; valueIds : gmap nat nat }.

Definition projectedValue (graph : WorkloadGraph) (p : Projection) (v : nat) : nat * Projection :=
  match valueIds p !! v with
  | Some id => (id, p)
  | None =>
    let copy := from_option (λ w, mkValue 0 (v_type w) (v_name w) (external w) (loopCarried w) None (memoryKind w))
                  (mkValue 0 None "" false false None None) (findValue graph v) in
    let '(id, g) := addValue (projected p) copy in
    (id, mkProjection g (<[v := id]> (valueIds p)))
  end.

Definition projectPorts (graph : WorkloadGraph) (p : Projection) (ports : list WorkloadPort) : list WorkloadPort * Projection :=
  foldl (λ r port,
    let '(id, p) := projectedValue graph r.2 (p_value port) in
    ((r.1 ++ [mkPort id (p_type port) (accessMap port)])%list, p)) ([], p) ports.

Definition projectNode (graph : WorkloadGraph) (p : Projection) (node : WorkloadNode) : Projection :=
  let '(ins, p) := projectPorts graph p (inputs node) in
  let '(outs, p) := projectPorts graph p (outputs node) in
  mkProjection
    (addNode (projected p)
       (mkNode (n_id node) (opName node) ins outs (attributes node) 0 (executionMultiplicity node) (simultaneousMultiplicity node)))
    (valueIds p).

Definition semanticNodes (graph : WorkloadGraph) : list WorkloadNode :=
  stable_sort (λ lhs rhs, str_ltb (structuralNodeKey lhs) (structuralNodeKey rhs))
    (List.filter (negb ∘ isBinderMovement) (nodes graph)).

Definition projection (graph : WorkloadGraph) : Projection :=
  foldl (projectNode graph) (mkProjection emptyGraph ∅) (semanticNodes graph).

Definition buildSourceProjection (graph : WorkloadGraph) : option WorkloadGraph := snd <$> finalize (projected (projection graph)).

(** ** The text *)
Definition valueLabel (graph : WorkloadGraph) (v : nat) : string :=
  let entry := findValue graph v in
  let outside := "ext:" +:+ from_option v_name "" entry in
  if from_option external false entry then outside else
  match producerOf (nodes graph) !! v with
  | None => outside
  | Some (node, index) => "def:" +:+ from_option structuralNodeKey "" (findNode graph node) +:+ "#" +:+ nat_text index
  end.

Definition projectedRecord (graph : WorkloadGraph) (node : WorkloadNode) : string :=
  let input i port :=
    "|in" +:+ nat_text i +:+ "=" +:+ typeString (p_type port) +:+ "@" +:+ from_option printMap "-" (accessMap port) +:+ "#" +:+
    valueLabel graph (p_value port) in
  let output i port :=
    "|out" +:+ nat_text i +:+ "=" +:+ typeString (p_type port) +:+ "#" +:+ valueLabel graph (p_value port) in
  opName node +:+ String.concat "" (imap input (inputs node)) +:+ String.concat "" (imap output (outputs node)) +:+
  "|attrs=" +:+ strippedAttributesString node +:+ "|mult=" +:+ from_option to_string "?" (executionMultiplicity node).

Definition canonicalProjectedGraphString (graph : WorkloadGraph) : string :=
  String.concat "" ((λ r, r +:+ newline) <$> sort_strings (projectedRecord graph <$> nodes graph)).

(** [finalize] indexes a table by the values of ports, all of them values of the projection. *)
Definition computeSourceGraphHash (graph : WorkloadGraph) : Z :=
  stableHash (canonicalProjectedGraphString (default emptyGraph (buildSourceProjection graph))).
End source.

(** ** What the text depends on *)
Section identity.
Context `{MLIRPrint} `{!MLIRBuild}.

(** A node without its id and its place in the program, its values renamed. *)
Definition source_node (ρ : nat → nat) (n : WorkloadNode) : WorkloadNode :=
  mkNode O (opName n) (rename_port ρ <$> inputs n) (rename_port ρ <$> outputs n) (attributes n) O
    (executionMultiplicity n) (simultaneousMultiplicity n).

(** What a label reads of a value. *)
Definition facts (graph : WorkloadGraph) (v : nat) : string * bool :=
  (from_option v_name "" (findValue graph v), from_option external false (findValue graph v)).

(** The values of ports. *)
Definition Used (ns : list WorkloadNode) (v : nat) : Prop :=
  ∃ n port, n ∈ ns ∧ port ∈ (inputs n ++ outputs n)%list ∧ p_value port = v.

(** [h'] has the nodes of [h] in another order and under other names of their values. *)
Record Renames (ρ : nat → nat) (h h' : WorkloadGraph) : Prop := {
  rn_nodes : source_node id <$> nodes h' ≡ₚ source_node ρ <$> nodes h;
  rn_facts v : Used (nodes h) v → facts h' (ρ v) = facts h v;
  rn_inj v w : Used (nodes h) v → Used (nodes h) w → ρ v = ρ w → v = w;
}.

Lemma source_structure ρ n : structuralNodeKey (source_node ρ n) = structuralNodeKey n.
Proof. unfold structuralNodeKey. cbn [opName inputs outputs source_node]. by rewrite !portTypes_rename. Qed.

Lemma used_output ns n port : n ∈ ns → port ∈ outputs n → Used ns (p_value port).
Proof. intros Hn Hp. exists n, port. rewrite elem_of_app. auto. Qed.
Lemma used_input ns n port : n ∈ ns → port ∈ inputs n → Used ns (p_value port).
Proof. intros Hn Hp. exists n, port. rewrite elem_of_app. auto. Qed.

Lemma outValues_source ρ ns : outValues (source_node ρ <$> ns) = ρ <$> outValues ns.
Proof.
  unfold outValues. induction ns as [|n ns IH]; [done|]. cbn. rewrite fmap_app, IH. f_equal. by rewrite <- !list_fmap_compose.
Qed.

Lemma elem_of_outValues ns v : v ∈ outValues ns ↔ ∃ n i port, n ∈ ns ∧ outputs n !! i = Some port ∧ p_value port = v.
Proof.
  unfold outValues. rewrite list_elem_of_bind. split.
  - intros (n & (port & -> & Hp)%list_elem_of_fmap & Hn). apply list_elem_of_lookup in Hp as [i Hi]. by exists n, i, port.
  - intros (n & i & port & Hn & Hi & <-). exists n. split; [|done]. apply list_elem_of_fmap. exists port.
    split; [done|]. by eapply list_elem_of_lookup_2.
Qed.

(** A label names the producer by its structure: where in the list it is does not matter. *)
Definition producedLabel (n : WorkloadNode) (i : nat) : string :=
  "def:" +:+ structuralNodeKey n +:+ "#" +:+ to_string (Z.of_nat i).

Lemma label_outside graph v : (facts graph v).2 = true ∨ v ∉ outValues (nodes graph) → NoDup (outValues (nodes graph)) →
  valueLabel graph v = "ext:" +:+ (facts graph v).1.
Proof.
  intros Hout Hnd. unfold valueLabel. cbn [facts fst snd] in *. destruct (from_option external false (findValue graph v)); [done|].
  destruct Hout as [|Hout]; [done|]. destruct (producerOf (nodes graph) !! v) eqn:Hp; [|done].
  destruct Hout. apply producerOf_is_Some; [done|by eexists].
Qed.

Lemma label_inside graph v n i port : (facts graph v).2 = false → NoDup (outValues (nodes graph)) →
  n ∈ nodes graph → outputs n !! i = Some port → p_value port = v → valueLabel graph v = producedLabel n i.
Proof.
  intros Hext Hnd Hn Hi Hv. unfold valueLabel. cbn [facts snd] in Hext. rewrite Hext.
  apply list_elem_of_lookup in Hn as [k Hk].
  assert (producerOf (nodes graph) !! v = Some (k, i)) as ->.
  { apply producerOf_lookup; [done|]. apply elem_of_definitions. by exists n, port. }
  unfold findNode. by rewrite Hk.
Qed.

Section renamed.
Context (ρ : nat → nat) (h h' : WorkloadGraph) (Hr : Renames ρ h h') (Hnd : NoDup (outValues (nodes h))).

Lemma renamed_outputs : outValues (nodes h') ≡ₚ ρ <$> outValues (nodes h).
Proof.
  rewrite <- (outValues_source ρ), <- (list_fmap_id (outValues (nodes h'))), <- (outValues_source id). by apply outValues_perm, rn_nodes.
Qed.

Lemma renamed_NoDup : NoDup (outValues (nodes h')).
Proof.
  rewrite renamed_outputs. apply NoDup_fmap_2_strong; [|done]. intros v w Hv Hw.
  apply elem_of_outValues in Hv as (n & i & p & Hn & Hi & <-), Hw as (m & j & q & Hm & Hj & <-).
  apply (rn_inj ρ h h' Hr); [apply (used_output _ n)|apply (used_output _ m)]; try done; by eapply list_elem_of_lookup_2.
Qed.

Lemma renamed_node n : n ∈ nodes h → ∃ n', n' ∈ nodes h' ∧ source_node id n' = source_node ρ n.
Proof.
  intros Hn. assert (source_node ρ n ∈ source_node id <$> nodes h') as Hin.
  { rewrite (rn_nodes _ _ _ Hr). by apply list_elem_of_fmap_2. }
  apply list_elem_of_fmap in Hin as (n' & Heq & Hn'). by exists n'.
Qed.

Lemma renamed_label v : Used (nodes h) v → valueLabel h' (ρ v) = valueLabel h v.
Proof.
  intros Hv. pose proof (rn_facts _ _ _ Hr v Hv) as Hf.
  destruct (facts h v) as [name ext] eqn:Hfv. destruct ext.
  { rewrite !label_outside; [by rewrite Hf, Hfv|left; by rewrite Hfv|done|left; by rewrite Hf|apply renamed_NoDup]. }
  destruct (decide (v ∈ outValues (nodes h))) as [Hin|Hout].
  - apply elem_of_outValues in Hin as (n & i & port & Hn & Hi & Hp). destruct (renamed_node n Hn) as (n' & Hn' & Heq).
    rewrite (label_inside h v n i port); [|by rewrite Hfv|done..].
    assert (rename_port id <$> outputs n' = rename_port ρ <$> outputs n) as Hports by by injection Heq.
    assert (∃ port', outputs n' !! i = Some port' ∧ p_value port' = ρ v) as (port' & Hi' & Hp').
    { assert ((rename_port id <$> outputs n') !! i = Some (rename_port ρ port)) as Hl by by rewrite Hports, list_lookup_fmap, Hi.
      rewrite list_lookup_fmap in Hl. destruct (outputs n' !! i) as [port'|]; [|done]. exists port'. split; [done|].
      injection Hl as Hl. cbn in Hl. by rewrite Hl, Hp. }
    rewrite (label_inside h' (ρ v) n' i port'); [|by rewrite Hf|apply renamed_NoDup|done..].
    unfold producedLabel. by rewrite <- (source_structure id n'), Heq, source_structure.
  - rewrite !label_outside; [by rewrite Hf, Hfv|by right|done| |apply renamed_NoDup]. right. rewrite renamed_outputs.
    intros (w & Hw & Hin)%list_elem_of_fmap. apply Hout.
    pose proof Hin as Hin'. apply elem_of_outValues in Hin' as (n & i & port & Hn & Hi & <-).
    apply (rn_inj _ _ _ Hr) in Hw as ->; [done..|]. apply (used_output _ n); [done|by eapply list_elem_of_lookup_2].
Qed.

Lemma renamed_ports (f : nat → WorkloadPort → string) (f' : nat → WorkloadPort → string) ps ps' :
  (∀ i p, p ∈ ps → f' i (rename_port ρ p) = f i p) → (∀ i p, f' i (rename_port id p) = f' i p) →
  rename_port id <$> ps' = rename_port ρ <$> ps → imap f' ps' = imap f ps.
Proof.
  intros Hf Hid. revert f f' ps' Hf Hid. induction ps as [|p ps IH]; intros f f' [|p' ps'] Hf Hid; try done.
  cbn. intros [= Hp Hps]. f_equal.
  - rewrite <- (Hf 0%nat p) by by left. rewrite <- Hid. f_equal. unfold rename_port. cbn. by f_equal.
  - apply (IH (λ i, f (S i)) (λ i, f' (S i))); [|intros i q; apply Hid|done]. intros i q Hq. apply Hf. by right.
Qed.

Lemma renamed_record n n' : n ∈ nodes h → source_node id n' = source_node ρ n → projectedRecord h' n' = projectedRecord h n.
Proof.
  intros Hn Heq. unfold projectedRecord. injection Heq as Ho Hins Houts Hattr Hmult _.
  unfold strippedAttributesString. rewrite Ho, Hattr, Hmult. f_equal. f_equal; [|f_equal].
  - f_equal. eapply renamed_ports; [| |exact Hins]; [|done]. intros i p Hp. cbn. by rewrite renamed_label by by eapply used_input.
  - f_equal. eapply renamed_ports; [| |exact Houts]; [|done]. intros i p Hp. cbn. by rewrite renamed_label by by eapply used_output.
Qed.

Lemma renamed_text : canonicalProjectedGraphString h' = canonicalProjectedGraphString h.
Proof.
  unfold canonicalProjectedGraphString. do 2 f_equal. apply sort_strings_perm.
  destruct (Permutation_map_inv (source_node ρ) (nodes h) (rn_nodes _ _ _ Hr)) as (l & Heq & Hperm).
  rewrite Hperm. assert (∀ n, n ∈ l → n ∈ nodes h) as Hsub by by intros n; rewrite Hperm.
  clear Hperm. revert Heq. generalize (nodes h'). induction l as [|n l IH]; intros [|n' ns'] Heq; try done.
  injection Heq as Hn Hns. cbn. f_equiv; [apply renamed_record; [apply Hsub; by left|by unfold source_node; f_equal]|].
  apply IH; [|done]. intros m Hm. apply Hsub. by right.
Qed.
End renamed.

(** *** The projection renames *)
Definition renaming (p : Projection) (v : nat) : nat := default O (valueIds p !! v).

Record Renaming (graph : WorkloadGraph) (p : Projection) : Prop := {
  pr_range v i : valueIds p !! v = Some i → (i < length (values (projected p)))%nat ∧ facts (projected p) i = facts graph v;
  pr_inj v w i : valueIds p !! v = Some i → valueIds p !! w = Some i → v = w;
}.

(** Later projections extend earlier ones. *)
Record Extends (p q : Projection) : Prop := {
  ex_ids : valueIds p ⊆ valueIds q;
  ex_values : values (projected p) `prefix_of` values (projected q);
  ex_nodes : nodes (projected q) = nodes (projected p);
}.

Lemma extends_refl p : Extends p p.
Proof. by split. Qed.
Lemma extends_trans p q r : Extends p q → Extends q r → Extends p r.
Proof. intros [? ? Hn] [? ? Hm]. split; [by etrans|by etrans|by rewrite Hm, Hn]. Qed.

Lemma renaming_extends p q v : Extends p q → is_Some (valueIds p !! v) → renaming q v = renaming p v ∧ is_Some (valueIds q !! v).
Proof.
  intros [Hids _ _] [i Hi]. unfold renaming. rewrite Hi. rewrite (lookup_weaken _ _ _ _ Hi Hids). by split.
Qed.

Lemma projectedValue_ok graph p v : Renaming graph p →
  let '(id, q) := projectedValue graph p v in Renaming graph q ∧ Extends p q ∧ valueIds q !! v = Some id.
Proof.
  intros Hp. unfold projectedValue. destruct (valueIds p !! v) as [i|] eqn:Hv; [split_and!; [done|apply extends_refl|done]|].
  cbn. set (n := length (values (projected p))).
  set (copy := value_with_id n (from_option _ _ (findValue graph v))).
  assert (∀ w i, valueIds p !! w = Some i → i ≠ n) as Hfresh.
  { intros w i Hw ->. apply (pr_range _ _ Hp) in Hw as [Hlt _]. unfold n in Hlt. lia. }
  split_and!; [split; cbn| |by rewrite lookup_insert_eq].
  - intros w i. rewrite length_app. cbn. destruct (decide (v = w)) as [<-|Hne].
    + rewrite lookup_insert_eq. intros [= <-]. split; [lia|]. unfold facts, findValue. cbn. unfold n.
      rewrite list_lookup_middle by done. cbn. unfold copy, findValue. by destruct (values graph !! v).
    + rewrite lookup_insert_ne by done. intros Hw. destruct (pr_range _ _ Hp w i Hw) as [Hlt Hf]. split; [lia|].
      rewrite <- Hf. unfold facts, findValue. cbn. by rewrite lookup_app_l by done.
  - intros w x i. destruct (decide (v = w)) as [<-|Hw], (decide (v = x)) as [<-|Hx]; rewrite ?lookup_insert_eq, ?lookup_insert_ne by done; [done|..].
    + intros [= <-] Hi. by apply Hfresh in Hi.
    + intros Hi [= <-]. by apply Hfresh in Hi.
    + apply (pr_inj _ _ Hp).
  - split; cbn; [by apply insert_subseteq|by apply prefix_app_r|done].
Qed.

Lemma projectPorts_ok graph p ports : Renaming graph p →
  let '(out, q) := projectPorts graph p ports in
  Renaming graph q ∧ Extends p q ∧ out = rename_port (renaming q) <$> ports ∧
  ∀ port, port ∈ ports → is_Some (valueIds q !! p_value port).
Proof.
  intros Hp. unfold projectPorts.
  enough (∀ done p, Renaming graph p →
    let '(out, q) := foldl (λ r port, let '(id, p) := projectedValue graph r.2 (p_value port) in
      ((r.1 ++ [mkPort id (p_type port) (accessMap port)])%list, p)) (done, p) ports in
    Renaming graph q ∧ Extends p q ∧ out = (done ++ (rename_port (renaming q) <$> ports))%list ∧
    ∀ port, port ∈ ports → is_Some (valueIds q !! p_value port)) as Hfold by by apply (Hfold []).
  clear Hp p. induction ports as [|port ports IH]; intros done p Hp; cbn.
  - split_and!; [done|apply extends_refl|by rewrite app_nil_r|by intros ? ?%not_elem_of_nil].
  - pose proof (projectedValue_ok graph p (p_value port) Hp) as Hv. destruct (projectedValue graph p (p_value port)) as [i p1].
    destruct Hv as (Hp1 & Hext1 & Hi). specialize (IH (done ++ [mkPort i (p_type port) (accessMap port)])%list p1 Hp1).
    destruct (foldl _ _ ports) as [out q]. destruct IH as (Hq & Hext & -> & Hused).
    destruct (renaming_extends p1 q (p_value port) Hext) as [Hren Hsome]; [by eexists|].
    split_and!; [done|by eapply extends_trans| |].
    + rewrite <- app_assoc. cbn. do 2 f_equal. unfold rename_port. f_equal. rewrite Hren. unfold renaming. by rewrite Hi.
    + intros port' [->|Hin]%elem_of_cons; [done|by apply Hused].
Qed.

(** After some nodes: theirs are the nodes, renamed, and their values are known. *)
Record Projected (graph : WorkloadGraph) (done : list WorkloadNode) (p : Projection) : Prop := {
  pj_renaming : Renaming graph p;
  pj_used v : Used done v → is_Some (valueIds p !! v);
  pj_nodes : source_node id <$> nodes (projected p) = source_node (renaming p) <$> done;
}.

Lemma source_node_ext ρ ρ' n : (∀ port, port ∈ (inputs n ++ outputs n)%list → ρ (p_value port) = ρ' (p_value port)) →
  source_node ρ n = source_node ρ' n.
Proof.
  intros Hρ. unfold source_node. f_equal; apply list_fmap_ext; intros i port Hi; apply list_elem_of_lookup_2 in Hi;
    unfold rename_port; f_equal; apply Hρ, elem_of_app; auto.
Qed.

Lemma projectNode_ok graph done p node : Projected graph done p → Projected graph (done ++ [node]) (projectNode graph p node).
Proof.
  intros [Hp Hused Hnodes]. unfold projectNode.
  pose proof (projectPorts_ok graph p (inputs node) Hp) as Hins. destruct (projectPorts graph p (inputs node)) as [ins p1].
  destruct Hins as (Hp1 & Hext1 & -> & Hin1).
  pose proof (projectPorts_ok graph p1 (outputs node) Hp1) as Houts. destruct (projectPorts graph p1 (outputs node)) as [outs q].
  destruct Houts as (Hq & Hext2 & -> & Hin2). pose proof (extends_trans _ _ _ Hext1 Hext2) as Hext.
  assert (∀ v, renaming (mkProjection (addNode (projected q) (mkNode (n_id node) (opName node) (rename_port (renaming p1) <$> inputs node)
    (rename_port (renaming q) <$> outputs node) (attributes node) 0 (executionMultiplicity node) (simultaneousMultiplicity node))) (valueIds q)) v =
    renaming q v) as Hren by done.
  split.
  - destruct Hq as [Hr Hi]. split; [exact Hr|exact Hi].
  - intros v (n & port & [Hn| ->%list_elem_of_singleton]%elem_of_app & Hport & <-); cbn.
    + eapply renaming_extends; [exact Hext|]. apply Hused. by exists n, port.
    + apply elem_of_app in Hport as [Hport|Hport]; [|by apply Hin2]. eapply renaming_extends; [exact Hext2|]. by apply Hin1.
  - cbn. rewrite !fmap_app. cbn. rewrite (ex_nodes _ _ Hext), Hnodes. f_equal.
    + apply list_fmap_ext. intros i n Hn. apply source_node_ext. intros port Hport. symmetry.
      apply (renaming_extends p q); [done|]. apply Hused. exists n, port. split; [by eapply list_elem_of_lookup_2|done].
    + f_equal. unfold source_node. cbn. f_equal; rewrite <- list_fmap_compose; apply list_fmap_ext; intros i port Hi; unfold rename_port; cbn; f_equal.
      symmetry. apply (renaming_extends p1 q); [done|]. apply Hin1. by eapply list_elem_of_lookup_2.
Qed.

(** *** The identity *)
Definition semanticGraph (graph : WorkloadGraph) : WorkloadGraph := mkGraph (semanticNodes graph) (values graph).

Lemma semanticNodes_perm graph : semanticNodes graph ≡ₚ List.filter (negb ∘ isBinderMovement) (nodes graph).
Proof. apply stable_sort_perm. Qed.

Lemma semantic_elem graph n : n ∈ semanticNodes graph → n ∈ nodes graph.
Proof. rewrite semanticNodes_perm, list_elem_of_In. intros Hin. apply List.filter_In in Hin as [Hin _]. by apply list_elem_of_In. Qed.

Lemma used_semantic graph v : Used (semanticNodes graph) v → Used (nodes graph) v.
Proof. intros (n & port & Hn & Hp & Hv). exists n, port. split; [by apply semantic_elem|done]. Qed.

Lemma filter_outValues (f : WorkloadNode → bool) ns : NoDup (outValues ns) → NoDup (outValues (List.filter f ns)).
Proof.
  unfold outValues. induction ns as [|n ns IH]; [done|]. cbn. intros (Hn & Hdisj & Hns)%NoDup_app.
  destruct (f n); [|by apply IH]. cbn. apply NoDup_app. split_and!; [done| |by apply IH].
  intros v Hv Hin. apply (Hdisj v Hv). apply list_elem_of_bind in Hin as (m & Hm & Hin). apply list_elem_of_bind. exists m. split; [done|].
  apply list_elem_of_In in Hin. apply List.filter_In in Hin as [Hin _]. by apply list_elem_of_In.
Qed.

Lemma semantic_once graph : NoDup (outValues (nodes graph)) → NoDup (outValues (nodes (semanticGraph graph))).
Proof. intros Hnd. cbn. rewrite (outValues_perm _ _ (semanticNodes_perm graph)). by apply filter_outValues. Qed.

Lemma projection_ok graph : Projected graph (semanticNodes graph) (projection graph).
Proof.
  unfold projection. enough (∀ done p, Projected graph done p → Projected graph (done ++ semanticNodes graph) (foldl (projectNode graph) p (semanticNodes graph))) as Hfold.
  { apply (Hfold []). split; [by split; cbn; intros *; rewrite lookup_empty| |done]. by intros v (n & port & ?%not_elem_of_nil & _). }
  induction (semanticNodes graph) as [|n ns IH]; intros done p Hp; [by rewrite app_nil_r|]. cbn.
  replace (done ++ n :: ns)%list with ((done ++ [n]) ++ ns)%list by by rewrite <- app_assoc. by apply IH, projectNode_ok.
Qed.

Lemma projection_renames graph : Renames (renaming (projection graph)) (semanticGraph graph) (projected (projection graph)).
Proof.
  destruct (projection_ok graph) as [[Hrange Hinj] Hused Hnodes]. split.
  - by rewrite Hnodes.
  - intros v [i Hi]%Hused. unfold renaming. rewrite Hi. by apply (Hrange v i).
  - intros v w [i Hi]%Hused [j Hj]%Hused. unfold renaming. rewrite Hi, Hj. cbn. intros ->. by eapply Hinj.
Qed.

Lemma projection_wf graph : NoDup (outValues (nodes graph)) → WellFormed (projected (projection graph)).
Proof.
  intros Hnd. destruct (projection_ok graph) as [[Hrange Hinj] Hused Hnodes]. split.
  - intros n port Hn Hp. assert (source_node id n ∈ source_node (renaming (projection graph)) <$> semanticNodes graph) as Hin.
    { rewrite <- Hnodes. by apply list_elem_of_fmap_2. }
    apply list_elem_of_fmap in Hin as (m & Heq & Hm).
    assert (rename_port id <$> (inputs n ++ outputs n)%list = rename_port (renaming (projection graph)) <$> (inputs m ++ outputs m)%list) as Hports.
    { rewrite !fmap_app. by injection Heq as _ -> -> _ _. }
    apply (list_elem_of_fmap_2 (rename_port id)) in Hp. rewrite Hports in Hp. apply list_elem_of_fmap in Hp as (q & Hq & Hqin).
    injection Hq as Hv _ _. cbn in Hv. rewrite Hv. destruct (Hused (p_value q)) as [i Hi]; [by exists m, q|].
    unfold renaming. rewrite Hi. by apply (Hrange (p_value q)).
  - apply (renamed_NoDup _ _ _ (projection_renames graph)). by apply semantic_once.
Qed.

Lemma reordered_renames σ g g' : WellFormed g → Reordered σ g g' → Renames σ g g'.
Proof.
  intros Hwf [Hinj Hlen Hrange Hvalues Hnodes]. split.
  - set (erase := λ n, mkNode O (opName n) (inputs n) (outputs n) (attributes n) O (executionMultiplicity n) (simultaneousMultiplicity n)).
    assert (∀ ρ ns, source_node ρ <$> ns = erase <$> (rename_node ρ <$> ns)) as Herase by by intros ρ ns; rewrite <- list_fmap_compose.
    by rewrite !Herase, Hnodes.
  - intros v (n & port & Hn & Hp & <-). pose proof (wf_ports _ Hwf n port Hn Hp) as Hlt.
    apply lookup_lt_is_Some in Hlt as [w Hw]. destruct (Hvalues _ _ Hw) as (w' & Hw' & Heq). unfold facts, findValue. rewrite Hw, Hw'.
    injection Heq as _ Hname Hext _ _ _. cbn. by rewrite Hname, Hext.
  - intros v w _ _. apply Hinj.
Qed.

(** The projection and its renumbering leave the text of the semantic nodes. *)
Lemma projection_text graph : NoDup (outValues (nodes graph)) →
  computeSourceGraphHash graph = stableHash (canonicalProjectedGraphString (semanticGraph graph)).
Proof.
  intros Hnd. unfold computeSourceGraphHash, buildSourceProjection. pose proof (projection_wf graph Hnd) as Hwf.
  destruct (finalize_ok (projected (projection graph)) Hwf) as (remap & g' & Hf & Hro & _). rewrite Hf. cbn. f_equal.
  pose proof (semantic_once graph Hnd) as Hsnd. pose proof (projection_renames graph) as Hren.
  rewrite (renamed_text (λ x, default x (remap !! x)) (knownSources (projected (projection graph))) g').
  - etrans; [|exact (renamed_text _ _ _ Hren Hsnd)]. unfold canonicalProjectedGraphString. do 3 f_equal. apply list_fmap_ext. intros i n _.
    assert (∀ v, valueLabel (knownSources (projected (projection graph))) v = valueLabel (projected (projection graph)) v) as Hlabel.
    { intros v. unfold valueLabel, findValue, knownSources. cbn. rewrite list_lookup_fmap. by destruct (values _ !! v). }
    unfold projectedRecord. do 2 f_equal; [f_equal|do 2 f_equal]; apply imap_ext; intros j port _; by rewrite Hlabel.
  - apply reordered_renames; [by apply knownSources_wf|done].
  - cbn. by apply (renamed_NoDup _ _ _ Hren).
Qed.

Lemma filter_source f ρ ns : (∀ n, f (source_node ρ n) = f n) → source_node ρ <$> List.filter f ns = List.filter f (source_node ρ <$> ns).
Proof. intros Hf. induction ns as [|n ns IH]; [done|]. cbn. rewrite Hf. destruct (f n); cbn; by rewrite IH. Qed.

Lemma filter_perm (f : WorkloadNode → bool) xs ys : xs ≡ₚ ys → List.filter f xs ≡ₚ List.filter f ys.
Proof.
  induction 1 as [|x xs ys _ IH|x y xs|xs ys zs _ IH1 _ IH2]; cbn; [done|by destruct (f x); rewrite IH| |by etrans].
  destruct (f x), (f y); try done. apply Permutation_swap.
Qed.

Lemma semantic_renames ρ g g' : Renames ρ g g' → Renames ρ (semanticGraph g) (semanticGraph g').
Proof.
  intros [Hnodes Hfacts Hinj]. split.
  - cbn. rewrite !semanticNodes_perm, !filter_source by done. by apply filter_perm.
  - intros v Hv%used_semantic. by apply Hfacts.
  - intros v w Hv%used_semantic Hw%used_semantic. by apply Hinj.
Qed.

(** C40: The source identity is that of the content.  It is the hash of the semantic nodes' text,
    which the projection and its renumbering leave alone; and two graphs that differ in the
    order of their nodes, in their place in the program, and in the numbering of their values
    have one identity, also when nodes have equal structures. *)
Theorem source_identity ρ g g' : NoDup (outValues (nodes g)) → Renames ρ g g' →
  computeSourceGraphHash g = stableHash (canonicalProjectedGraphString (semanticGraph g)) ∧
  computeSourceGraphHash g' = computeSourceGraphHash g.
Proof.
  intros Hnd Hr. split; [by apply projection_text|]. pose proof (renamed_NoDup _ _ _ Hr Hnd) as Hnd'.
  rewrite !projection_text by done. f_equal. apply (renamed_text ρ); [by apply semantic_renames|by apply semantic_once].
Qed.
End identity.

(** ** Concrete graphs *)
Section witness.
#[local] Existing Instance sample_types.
#[local] Existing Instance sample_text.
#[local] Existing Instance sample_print.
#[local] Existing Instance sample_build.

Definition outsider (id : nat) (name : string) : WorkloadValue := mkValue id None name true false None None.
Definition inner (id : nat) : WorkloadValue := mkValue id None "" false false None None.

(** Two loads of different values, and an operation on what the lists name. *)
Definition loads (used : list nat) : WorkloadGraph :=
  mkGraph [named "micro.load" 0 [0%nat] [2%nat]; named "micro.load" 1 [1%nat] [3%nat]; named "micro.vector" 2 used [4%nat]]
    [outsider 0 "x"; outsider 1 "y"; inner 2; inner 3; inner 4].
(** The same in another order, its values numbered backwards. *)
Definition loads_reordered : WorkloadGraph :=
  mkGraph [named "micro.vector" 7 [2%nat; 1%nat] [0%nat]; named "micro.load" 8 [3%nat] [1%nat]; named "micro.load" 9 [4%nat] [2%nat]]
    [inner 0; inner 1; inner 2; outsider 3 "y"; outsider 4 "x"].

Lemma source_identity_witness :
  Renames (λ v, 4 - v)%nat (loads [2; 3]%nat) loads_reordered ∧
  computeSourceGraphHash loads_reordered = computeSourceGraphHash (loads [2; 3]%nat).
Proof.
  assert (NoDup (outValues (nodes (loads [2; 3]%nat)))) as Hnd.
  { cbn. apply NoDup_cons. split; [by rewrite !elem_of_cons, elem_of_nil; lia|]. apply NoDup_cons.
    split; [by rewrite !elem_of_cons, elem_of_nil; lia|]. apply NoDup_singleton. }
  assert (∀ v, Used (nodes (loads [2; 3]%nat)) v → (v ≤ 4)%nat) as Hused.
  { intros v (n & port & Hn & Hp & <-). cbn in Hn. rewrite !elem_of_cons, elem_of_nil in Hn.
    destruct Hn as [->|[->|[->|[]]]]; cbn in Hp; rewrite !elem_of_cons, elem_of_nil in Hp; destruct_or! Hp; try done; subst; cbn; lia. }
  assert (Renames (λ v, 4 - v)%nat (loads [2; 3]%nat) loads_reordered) as Hr.
  { split.
    - cbn. apply (Permutation_rev [_; _; _]).
    - intros v Hv%Hused. do 5 (destruct v as [|v]; [reflexivity|]). lia.
    - intros v w Hv%Hused Hw%Hused. lia. }
  split; [exact Hr|]. exact (proj2 (source_identity (λ v, 4 - v)%nat (loads [2; 3]%nat) loads_reordered Hnd Hr)).
Defined.

(** A label names a producer by its structure only, so the identity cannot tell which of two
    loads feeds an operation: [x + y] and [x + x] are the same source. *)
Example source_hash_confuses_operands :
  computeSourceGraphHash (loads [2; 3]%nat) = computeSourceGraphHash (loads [2; 2]%nat) ∧
  (canonicalString ∘ snd <$> finalize (loads [2; 3]%nat)) ≠ (canonicalString ∘ snd <$> finalize (loads [2; 2]%nat)).
Proof. split; [vm_compute; reflexivity|]. vm_compute. discriminate. Qed.
End witness.
