(* ===== verification/SearchTables.v ===== *)
(** The tables of the covering search: lib/Mapping/CoveringSearch.cpp up to the search
    itself, with the options and results of include/LLK/Mapping/CoveringSearch.h.

    For every node of the workload the legal instances of the rules that match it, the fused
    ones at the least node they cover; and for every value that crosses between nodes its
    producers and consumers.  Everything the search reports while it runs is an effect, logged
    in order, and applied to the state of the result by [applyEffect].  The lemmas: what is
    offered at a node covers that node, and covers no node twice. *)
From S2P Require Import Prelude Float MachineModel CostModel Diagnostics LayoutConstraints TileFacts MappingRules MappingPlan StorageFootprint Placement RuleMatching Signatures.
From S2P Require Import Routing WorkloadGraph.
Open Scope string_scope.
Open Scope Z_scope.

(** ** What is logged *)
Section log.
Context `{MLIRPrint}.

Inductive search_error :=
| MissingEvaluator
| PlacementFails (e : placement_error)
| FatalRule (rule : string) (node : nat)
| UnknownPlanMemory (memory : string)
| EvaluatorFails (message : string)
| PlanAndRejection
| NeitherPlanNorRejection.

Inductive Effect :=
| Report (d : Diagnostic)
| Truncate
| CountWithoutRules
| CountWithoutPlacement
| CountIncompatible
| CountCapacity
| CountCandidate
| CountInstances (n : nat)
| CountRoutes (n : nat)
| CountExpanded
| GatherPorts (id : Z) (ports : list PortRef)
| PlanError (e : search_error).

Record FailureFrontier := mkFrontier {
  nodesWithoutRules : Z;
  candidatesWithoutPlacement : Z;
  incompatibleInstancePairs : Z;
  plansRejectedByCapacity : Z;
  fr_diagnostics : list Diagnostic;
  codeCounts : gmap nat Z;
}.

Definition has (frontier : FailureFrontier) (c : DiagnosticCode) : bool :=
  existsb (λ d, bool_decide (code d = c)) (fr_diagnostics frontier).

(** The state of a search, beside the partial plans. *)
Record SearchState := mkState {
  s_frontier : FailureFrontier;
  s_truncated : bool;
  expandedStates : Z;
  candidateCount : Z;
  instanceCount : Z;
  routeCount : Z;
  gatherProducerPorts : gmap Z (list PortRef);
  pendingError : option search_error;
  s_retained : list CoveringPlan;
}.
Definition initialState : SearchState := mkState (mkFrontier 0 0 0 0 [] ∅) false 0 0 0 0 ∅ None [].

Definition withFrontier (f : FailureFrontier) (st : SearchState) : SearchState :=
  mkState f (s_truncated st) (expandedStates st) (candidateCount st) (instanceCount st) (routeCount st)
    (gatherProducerPorts st) (pendingError st) (s_retained st).

(** [report]: every event is counted, every distinct diagnostic listed once. *)
Definition reportTo (d : Diagnostic) (f : FailureFrontier) : FailureFrontier :=
  mkFrontier (nodesWithoutRules f) (candidatesWithoutPlacement f) (incompatibleInstancePairs f) (plansRejectedByCapacity f)
    (if decide (d ∈ fr_diagnostics f) then fr_diagnostics f else (fr_diagnostics f ++ [d])%list)
    (<[Diagnostics.ordinal (code d) := default 0 (codeCounts f !! Diagnostics.ordinal (code d)) + 1]> (codeCounts f)).

Definition applyEffect (st : SearchState) (e : Effect) : SearchState :=
  let f := s_frontier st in
  match e with
  | Report d => withFrontier (reportTo d f) st
  | CountWithoutRules =>
    withFrontier (mkFrontier (nodesWithoutRules f + 1) (candidatesWithoutPlacement f) (incompatibleInstancePairs f)
      (plansRejectedByCapacity f) (fr_diagnostics f) (codeCounts f)) st
  | CountWithoutPlacement =>
    withFrontier (mkFrontier (nodesWithoutRules f) (candidatesWithoutPlacement f + 1) (incompatibleInstancePairs f)
      (plansRejectedByCapacity f) (fr_diagnostics f) (codeCounts f)) st
  | CountIncompatible =>
    withFrontier (mkFrontier (nodesWithoutRules f) (candidatesWithoutPlacement f) (incompatibleInstancePairs f + 1)
      (plansRejectedByCapacity f) (fr_diagnostics f) (codeCounts f)) st
  | CountCapacity =>
    withFrontier (mkFrontier (nodesWithoutRules f) (candidatesWithoutPlacement f) (incompatibleInstancePairs f)
      (plansRejectedByCapacity f + 1) (fr_diagnostics f) (codeCounts f)) st
  | Truncate =>
    mkState f true (expandedStates st) (candidateCount st) (instanceCount st) (routeCount st) (gatherProducerPorts st)
      (pendingError st) (s_retained st)
  | CountCandidate =>
    mkState f (s_truncated st) (expandedStates st) (candidateCount st + 1) (instanceCount st) (routeCount st)
      (gatherProducerPorts st) (pendingError st) (s_retained st)
  | CountInstances n =>
    mkState f (s_truncated st) (expandedStates st) (candidateCount st) (instanceCount st + Z.of_nat n) (routeCount st)
      (gatherProducerPorts st) (pendingError st) (s_retained st)
  | CountRoutes n =>
    mkState f (s_truncated st) (expandedStates st) (candidateCount st) (instanceCount st) (routeCount st + Z.of_nat n)
      (gatherProducerPorts st) (pendingError st) (s_retained st)
  | CountExpanded =>
    mkState f (s_truncated st) (expandedStates st + 1) (candidateCount st) (instanceCount st) (routeCount st)
      (gatherProducerPorts st) (pendingError st) (s_retained st)
  | GatherPorts id ports =>
    mkState f (s_truncated st) (expandedStates st) (candidateCount st) (instanceCount st) (routeCount st)
      (<[id := ports]> (gatherProducerPorts st)) (pendingError st) (s_retained st)
  | PlanError e =>
    mkState f (s_truncated st) (expandedStates st) (candidateCount st) (instanceCount st) (routeCount st)
      (gatherProducerPorts st) (match pendingError st with None => Some e | error => error end) (s_retained st)
  end.

Definition keep (plan : CoveringPlan) (st : SearchState) : SearchState :=
  mkState (s_frontier st) (s_truncated st) (expandedStates st) (candidateCount st) (instanceCount st) (routeCount st)
    (gatherProducerPorts st) (pendingError st) (s_retained st ++ [plan]).
End log.

(** A value, and what was logged on the way to it. *)
Record Logged `{MLIRPrint} (A : Type) := mkLogged { value : A; log : list Effect }.
Arguments mkLogged {_ _ _ A} value log.
Arguments value {_ _ _ A} _.
Arguments log {_ _ _ A} _.
Definition done `{MLIRPrint} {A} (a : A) : Logged A := mkLogged a [].
Definition andThen `{MLIRPrint} {A B} (m : Logged A) (f : A → Logged B) : Logged B :=
  let next := f (value m) in mkLogged (value next) (log m ++ log next).
Notation "'let*' x ':=' m ';' k" := (andThen m (λ x, k)) (at level 20, x name, m at level 100, k at level 200) : dsl_scope.

Definition tell `{MLIRPrint} (es : list Effect) : Logged unit := mkLogged tt es.
Definition report `{MLIRPrint} (c : DiagnosticCode) (message : string) : Logged unit := tell [Report (mkDiagnostic c message)].

Definition whenever `{MLIRPrint} (c : bool) (m : Logged unit) : Logged unit := if c then m else done tt.
Definition truncate `{MLIRPrint} (message : string) : Logged unit := tell [Truncate; Report (mkDiagnostic SearchTruncated message)].

(** The loop [for (x : xs) s = body(s, x)]. *)
Fixpoint fold_logged `{MLIRPrint} {S A} (body : S → A → Logged S) (s : S) (xs : list A) : Logged S :=
  match xs with
  | [] => done s
  | x :: xs => let* s := body s x; fold_logged body s xs
  end.

(** [for (x : xs) out += body(x)]. *)
Definition collect_logged `{MLIRPrint} {A B} (body : A → Logged (list B)) (xs : list A) : Logged (list B) :=
  fold_logged (λ out x, let* more := body x; done (out ++ more)%list) [] xs.

(** ** Options and target *)
Inductive SearchMode := Deterministic | Beam | Exact.
#[export] Instance SearchMode_eq_dec : EqDecision SearchMode.
Proof. solve_decision. Defined.

Record CompletePlanEvaluation `{MLIRPrint} := mkEvaluation { ev_plan : option CoveringPlan; ev_rejection : option Diagnostic }.

(** A completion evaluator is a function of the proposal. *)
Record MappingSearchOptions `{MLIRPrint} := mkSearchOptions {
  mode : SearchMode;
  beamWidth : Z;
  topK : Z;
  maxCandidatesPerNode : Z;
  maxFusedMatches : Z;
  maxInstancesPerCandidate : Z;
  so_maxRoutesPerConnection : Z;
  so_maxConnectionCombinations : Z;
  memoryBudgetBytes : Z;
  enableLatencyCache : bool;
  enableSymmetryReduction : bool;
  so_objective : ObjectiveOrder;
  evaluateCompletePlan : option (CoveringPlan → result string CompletePlanEvaluation);
  requireCompleteEvaluation : bool;
}.
Arguments mkEvaluation {_ _ _}.
Arguments mkSearchOptions {_ _ _}.

(** What the search reads of a [MappingTarget]. *)
Record SearchTarget := mkSearchTarget {
  target_name : string;
  place : Placement.MappingTarget;
  rules : RuleRegistry;
  latencyProvider : option LatencyProvider;
}.

(** The texts of the errors that are constructors here. *)
Class SearchTexts := {
  reasonText : rule_reason → string;
  placementText : placement_error → string;
  footprintText : footprint_error → string;
}.

Definition present {A} (xs : list (option A)) : list A := omap (λ x, x) xs.
Definition is_nil {A} (xs : list A) : bool := match xs with [] => true | _ => false end.

(** ** Legal instances *)
Section tables.
Context `{MLIRTiles} `{!MLIRPrint} `{AE : LayoutConstraints.AffineExprs} `{!MLIRMaps} `{!MLIRBuild} `{!MLIRMapTrees} `{!SearchTexts}.
Variable workload : WorkloadGraph.
Variable target : SearchTarget.
Variable layoutContext : LayoutContext.
Variable options : MappingSearchOptions.
(** The values of the binding, its layouts and its axes; empty where nothing is bound. *)
Variable pinned : gmap string SearchValue.
Variable boundLayouts : gmap string string.
Variable boundAxes : BoundAxes.
Local Abbreviation model := (Placement.machine (place target)).
Local Abbreviation nat_text n := (to_string (Z.of_nat n)).

Record InstanceEntry := mkEntry {
  e_instance : CandidateInstance;
  e_rule : RuleDef;
  e_cost : Cost;
  e_measuredCycles : option double;
  e_resolvedParameters : gmap string SearchValue;
  e_coveredNodes : list nat;
}.
Record NodeTable := mkTable { t_node : nat; t_workload : WorkloadNode; t_instances : list InstanceEntry }.

Definition executorOf (instance : CandidateInstance) : string := default "" (executorBindings instance !! "executor").

(** The texts that identify an instance's work. *)
Definition sortedPortMemories (bindings : list PortMemoryBinding) : list string :=
  sort_strings ((λ b, canonicalPortRefString (pm_port b) +:+ "=" +:+ pm_memory b) <$> bindings).
Definition sortedBindings (bindings : gmap string string) : list string :=
  sort_strings ((λ e, e.1 +:+ "=" +:+ e.2) <$> map_to_list bindings).
Definition renderedType (type : option mlir_type) : string := from_option (λ t, typeString (Some t)) "" type.
Definition renderedPortTypes (ports : list WorkloadPort) : string := String.concat " " (renderedType ∘ p_type <$> ports).
Definition renderedAttribute (d : option dictionary) : string := from_option attributeString "" d.
Definition layoutIdentity (instance : CandidateInstance) : string :=
  String.concat "," (sort_strings
    ((λ e : string * SolvedLayout, sl_layoutClass e.2 +:+ "(" +:+ canonicalSearchValueString (sl_parameters e.2) +:+ ")") <$>
       map_to_list (layoutSolutions instance))).
Definition placementIdentity (instance : CandidateInstance) : string :=
  "executor=" +:+ executorOf instance +:+ ",memories=" +:+ String.concat "," (sortedBindings (memoryBindings instance)) +:+
  (if decide (portMemoryBindings instance = []) then ""
   else ",portmemories=" +:+ String.concat "," (sortedPortMemories (portMemoryBindings instance))).

Definition operationSignatureFor (node : WorkloadNode) (rule : RuleDef) (instance : CandidateInstance) : OperationSignature :=
  mkOperation (opName node) (renderedPortTypes (inputs node)) (renderedPortTypes (outputs node)) (renderedAttribute (attributes node))
    (r_id rule) (r_version rule) (if str_empty (tb_name (ci_bundle instance)) then r_bundle rule else tb_name (ci_bundle instance))
    (renderedAttribute (tb_parameters (ci_bundle instance))) (layoutIdentity instance)
    (from_option ex_kind "" (findExecutor model (executorOf instance))) (placementIdentity instance)
    (canonicalComputeBindingsString (computeBindings instance)) "" kCostModelVersion.

Definition targetContext : TargetContext :=
  Signatures.mkContext (target_name target) (hexId (contentHash model)) (hexId (computeRulesHash (rules target)))
    (hexId (LayoutConstraints.computeContentHash (Placement.layouts (place target)))).

Definition provider : option LatencyProvider := if enableLatencyCache options then latencyProvider target else None.

Definition withLatency (cycles : double) (cost : Cost) : Cost :=
  mkCost cycles (dramBytes cost) (localBytes cost) (spillBytes cost) (computeUtilization cost) (transferUtilization cost).

(** The entry of an instance, with the measured cost when there is one. *)
Definition measuredEntry (node : WorkloadNode) (rule : RuleDef) (parameters : gmap string SearchValue) (instance : CandidateInstance) :
    Logged InstanceEntry :=
  let entry cost measured := mkEntry instance rule cost measured parameters [n_id node] in
  match provider with
  | None => done (entry (localCost instance) None)
  | Some provider =>
    match lookupOperation provider (operationSignatureFor node rule instance) targetContext with
    | Some measured => done (entry (withLatency measured (localCost instance)) (Some measured))
    | None =>
      let* _ := report LatencyCacheMiss ("rule '" +:+ r_id rule +:+ "' (op '" +:+ opName node +:+
            "'): no cached latency; static estimate retained");
      done (entry (localCost instance) None)
    end
  end.

Definition placementFailureCode (failure : PlacementFailure) : DiagnosticCode :=
  match failure with
  | Placement.NoLegalLayout => Diagnostics.NoLegalLayout
  | Placement.UnsupportedComputeFragment => Diagnostics.UnsupportedComputeFragment
  | Placement.NoLegalExecutor | NoLegalMemory | NoFailure => Diagnostics.NoLegalExecutor
  end.

Definition placementOptions : PlacementOptions :=
  mkPlacementOptions (enableSymmetryReduction options) (maxInstancesPerCandidate options) (so_maxRoutesPerConnection options)
    (so_maxConnectionCombinations options).

(** What placing a candidate reports. *)
Definition placed (what cap : string) (placements : Placements) : Logged unit :=
  let* _ := tell [CountInstances (length (pl_instances placements))];
  let* _ := whenever (pl_truncated placements) (truncate (cap +:+ "instance cap reached (maxInstancesPerCandidate=" +:+
           to_string (maxInstancesPerCandidate options) +:+ ")"));
  match pl_instances placements with
  | [] =>
    let* _ := tell [CountWithoutPlacement];
    let c := placementFailureCode (default NoFailure (pl_failure placements)) in
    report c (what +:+ " has no legal placement (" +:+ stringifyDiagnosticCode c +:+ ")")
  | _ :: _ => done tt
  end.

Definition enumerate (candidate : MappingCandidate) : result search_error Placements :=
  match enumeratePlacements candidate (place target) layoutContext placementOptions with
  | Ok placements => Ok placements
  | Err e => Err (PlacementFails e)
  end.

(** One rule that matches a node by its operation: the entries it offers, and whether it made a
    candidate. *)
Definition ruleEntries (node : WorkloadNode) (rule : RuleDef) : result search_error (Logged (list InstanceEntry * bool)) :=
  match toMappingCandidate rule node model layoutContext pinned boundLayouts boundAxes with
  | Err (NoMLIRContext r n) => Err (FatalRule r n)
  | Err (NotApplicable reason truncated) =>
    Ok (let* _ := whenever (truncated) (truncate ("constraint assignment cap reached while matching rule '" +:+ r_id rule +:+ "'"));
        let* _ := report NoMatchingRule ("node " +:+ nat_text (n_id node) +:+ ": rule '" +:+ r_id rule +:+ "' not applicable: " +:+
              reasonText reason);
        done ([], false))
  | Ok candidate =>
    placements ← enumerate candidate;
    Ok (let* _ := tell [CountCandidate];
        let* _ := placed ("node " +:+ nat_text (n_id node) +:+ ": rule '" +:+ r_id rule +:+ "'") "" placements;
        let* entries := collect_logged (λ instance, let* entry := measuredEntry node rule (mc_resolvedParameters candidate) instance; done [entry])
                    (pl_instances placements);
        done (entries, true))
  end.

(** A loop over things that may fail, each logging. *)
Fixpoint collect_result {A B} (body : A → result search_error (Logged B)) (xs : list A) : result search_error (Logged (list B)) :=
  match xs with
  | [] => Ok (done [])
  | x :: xs =>
    y ← body x;
    ys ← collect_result body xs;
    Ok (let* b := y; let* bs := ys; done (b :: bs))
  end.

(** The fused candidates, each with the least node it covers. *)
Definition lowestCovered (covered : list nat) : nat :=
  match covered with [] => 0%nat | first :: rest => foldl Nat.min first rest end.

Definition fusedCandidate (found : RulePatternMatch) : result search_error (Logged (option (nat * MappingCandidate))) :=
  match toFusedMappingCandidate (rm_rule found) found workload model layoutContext pinned boundLayouts boundAxes with
  | Err (NoMLIRContext r n) => Err (FatalRule r n)
  | Err (NotApplicable reason _) =>
    Ok (let* _ := report NoMatchingRule ("fused rule '" +:+ r_id (rm_rule found) +:+ "' not applicable: " +:+ reasonText reason);
        done None)
  | Ok candidate => Ok (done (Some (lowestCovered (rm_coveredNodes found), candidate)))
  end.

Definition fusedCandidates : result search_error (Logged (list (nat * MappingCandidate))) :=
  if decide (maxFusedMatches options = 0) then Ok (done []) else
  let '(matches, truncated) := matchRulePatterns workload (rules target) (maxFusedMatches options) in
  found ← collect_result fusedCandidate matches;
  Ok (let* _ := whenever (truncated) (truncate ("fused pattern match cap reached (maxFusedMatches=" +:+ to_string (maxFusedMatches options) +:+ ")"));
      let* candidates := found;
      done (present candidates)).

(** The entries of a fused candidate, under the node it is offered at. *)
Definition fusedEntries (candidate : MappingCandidate) : result search_error (Logged (list InstanceEntry)) :=
  placements ← enumerate candidate;
  Ok (let* _ := placed ("fused rule '" +:+ mc_rule candidate +:+ "'") "fused " placements;
      match pl_instances placements, findRule (rules target) (mc_rule candidate) with
      | [], _ | _, None => done []
      | instances, Some rule =>
        let* _ := tell [CountCandidate];
        done ((λ instance, mkEntry instance rule (localCost instance) None (mc_resolvedParameters candidate)
                 (mc_coveredNodes candidate)) <$> instances)
      end).

Definition nodeTable (fused : list (nat * MappingCandidate)) (node : WorkloadNode) : result search_error (Logged NodeTable) :=
  let all := matchRules node (rules target) in
  let capped := bool_decide (maxCandidatesPerNode options < Z.of_nat (length all)) in
  let matches := if capped then take (Z.to_nat (maxCandidatesPerNode options)) all else all in
  let named := "node " +:+ nat_text (n_id node) +:+ " ('" +:+ opName node +:+ "'): " in
  offered ← collect_result (ruleEntries node) matches;
  more ← collect_result fusedEntries (snd <$> List.filter (λ f, bool_decide (f.1 = n_id node)) fused);
  Ok (let* _ := whenever (capped) (truncate ("candidate cap reached (maxCandidatesPerNode=" +:+ to_string (maxCandidatesPerNode options) +:+ ")"));
      let* _ := whenever (is_nil matches) (let* _ := tell [CountWithoutRules]; report NoMatchingRule (named +:+ "no matching rule"));
      let* entries := offered;
      let* _ := whenever (forallb (negb ∘ snd) entries && negb (is_nil matches)) (let* _ := tell [CountWithoutRules]; report NoMatchingRule (named +:+ "no rule satisfies its constraints"));
      let* fusedOffered := more;
      done (mkTable (n_id node) node (mjoin (fst <$> entries) ++ mjoin fusedOffered))).

Definition id_le (lhs rhs : WorkloadNode) : Prop := (n_id lhs ≤ n_id rhs)%nat.
#[export] Instance id_le_dec : RelDecision id_le.
Proof. intros x y. unfold id_le. apply _. Defined.

Definition nodeTables : result search_error (Logged (list NodeTable)) :=
  fused ← fusedCandidates;
  tables ← collect_result (nodeTable (value fused)) (merge_sort id_le (nodes workload));
  Ok (let* _ := fused; tables).

(** ** Sizes *)
Definition kUnknownValueBytes : Z := 4096.
Definition kUnknownAlignment : Z := 32.

Definition factsForValue (v : nat) : Logged TileFacts :=
  let moved := findValue workload v in
  let facts := from_option (λ w, tileFactsFor (v_type w)) (mkFacts 0 0 false) moved in
  if f_known facts then done facts else
  let* _ := report AssumedValueSize ("value " +:+ nat_text v +:+ " ('" +:+ from_option v_name "<unknown>" moved +:+
        "'): tile size unknown; assuming " +:+ to_string kUnknownValueBytes +:+ " bytes, " +:+ to_string kUnknownAlignment +:+
        "-byte alignment");
  done (mkFacts kUnknownValueBytes kUnknownAlignment false).

Definition elementsForValue (v : nat) : Z :=
  default 0 (
    moved ← findValue workload v;
    _ ← v_type moved;
    element ← elementTypeOf (v_type moved);
    width ← elementByteWidth element;
    if decide (width = 0) then None else
    let facts := tileFactsFor (v_type moved) in
    if f_known facts then Some (f_bytes facts `div` width) else None).

Definition portlessBytes (node : WorkloadNode) : Logged Z :=
  match inputs node with
  | port :: _ => let* facts := factsForValue (p_value port); done (f_bytes facts)
  | [] =>
    let* _ := report AssumedValueSize ("node " +:+ nat_text (n_id node) +:+ " has no port to size; assuming " +:+
          to_string kUnknownValueBytes +:+ " bytes");
    done kUnknownValueBytes
  end.

(** The map of the layout an instance solved for an output: by occurrence, else by value. *)
Definition outputMap (instance : CandidateInstance) (ref : PortRef) (v : nat) : option affine_map :=
  let solutions := snd <$> in_order (layoutSolutions instance) in
  let mapOf p := List.find p solutions ≫= sl_map in
  match mapOf (λ s, bool_decide (sl_port s = Some ref)) with
  | Some map => Some map
  | None => mapOf (λ s, bool_decide (0 <= sl_portValue s) && bool_decide (Z.to_nat (sl_portValue s) = v))
  end.

Definition physicalBytesForOutput (instance : CandidateInstance) (node : WorkloadNode) (index : nat) (port : WorkloadPort) : Logged Z :=
  let logical := let* facts := factsForValue (p_value port); done (f_bytes facts) in
  match findValue workload (p_value port), outputMap instance (mkRef (n_id node) Output index) (p_value port) with
  | None, _ | _, None => logical
  | Some moved, Some map =>
    match physicalFootprintFor (match p_type port with None => v_type moved | type => type end) (Some map) [] with
    | Ok footprint => done (fp_bytes footprint)
    | Err e =>
      let* _ := report AssumedValueSize ("value " +:+ nat_text (p_value port) +:+ " ('" +:+ v_name moved +:+
            "'): unsupported footprint: " +:+ footprintText e +:+ "; assuming " +:+ to_string kUnknownValueBytes +:+ " bytes");
      done kUnknownValueBytes
    end
  end.

(** ** Values that cross between nodes *)
Record ValueEndpoint := mkEndpoint { ve_node : nat; ve_index : nat; ve_port : WorkloadPort }.
Record ValueLink := mkLink { l_value : nat; l_producers : list ValueEndpoint; l_consumers : list ValueEndpoint }.

Definition valueInvolves (link : ValueLink) (node : nat) : bool :=
  existsb (λ e, bool_decide (ve_node e = node)) (l_producers link ++ l_consumers link).

(** The link of a value, appended when it is new, with one more endpoint. *)
Fixpoint addEndpoint (d : PortDirection) (v : nat) (e : ValueEndpoint) (links : list ValueLink) : list ValueLink :=
  match links with
  | [] => [match d with Output => mkLink v [e] [] | Input => mkLink v [] [e] end]
  | link :: links =>
    if decide (l_value link = v) then
      match d with
      | Output => mkLink v (l_producers link ++ [e]) (l_consumers link)
      | Input => mkLink v (l_producers link) (l_consumers link ++ [e])
      end :: links
    else link :: addEndpoint d v e links
  end.

Definition addPorts (d : PortDirection) (node : nat) (ports : list WorkloadPort) (links : list ValueLink) : list ValueLink :=
  foldl (λ links ip, addEndpoint d (p_value ip.2) (mkEndpoint node ip.1 ip.2) links) links (imap pair ports).

Definition allLinks (tables : list NodeTable) : list ValueLink :=
  foldl (λ links it, addPorts Input it.1 (inputs (t_workload it.2)) (addPorts Output it.1 (outputs (t_workload it.2)) links))
    [] (imap pair tables).

(** Endpoints in order, one of each occurrence. *)
Definition endpoint_le (lhs rhs : ValueEndpoint) : Prop :=
  (ve_node lhs < ve_node rhs)%nat ∨ (ve_node lhs = ve_node rhs ∧ (ve_index lhs ≤ ve_index rhs)%nat).
#[export] Instance endpoint_le_dec : RelDecision endpoint_le.
Proof. intros x y. unfold endpoint_le. apply _. Defined.
Fixpoint uniqueEndpoints (endpoints : list ValueEndpoint) : list ValueEndpoint :=
  match endpoints with
  | x :: (y :: _) as rest =>
    if bool_decide (ve_node x = ve_node y) && bool_decide (ve_index x = ve_index y)
    then match uniqueEndpoints rest with [] => [x] | _ :: tail => x :: tail end
    else x :: uniqueEndpoints rest
  | _ => endpoints
  end.
Definition canonicalEndpoints (endpoints : list ValueEndpoint) : list ValueEndpoint :=
  uniqueEndpoints (merge_sort endpoint_le endpoints).

(** A value nothing crosses is no link, nor one its only producer alone consumes. *)
Definition crossing (link : ValueLink) : option ValueLink :=
  let producers := canonicalEndpoints (l_producers link) in
  let consumers := canonicalEndpoints (l_consumers link) in
  let consumers :=
    match producers with
    | [only] => List.filter (λ e, negb (bool_decide (ve_node e = ve_node only))) consumers
    | _ => consumers
    end in
  match producers, consumers with
  | [], _ | _, [] => None
  | _, _ => Some (mkLink (l_value link) producers consumers)
  end.

Definition value_le (lhs rhs : ValueLink) : Prop := (l_value lhs ≤ l_value rhs)%nat.
#[export] Instance value_le_dec : RelDecision value_le.
Proof. intros x y. unfold value_le. apply _. Defined.
Definition valueLinksOf (tables : list NodeTable) : list ValueLink := merge_sort value_le (omap crossing (allLinks tables)).
End tables.

(** ** What the tables offer *)
Lemma collect_result_ok `{MLIRPrint} {A B} (body : A → result search_error (Logged B)) xs l :
  collect_result body xs = Ok l → Forall2 (λ x y, ∃ m, body x = Ok m ∧ value m = y) xs (value l).
Proof.
  revert l. induction xs as [|x xs IH]; cbn; intros l Hl; [by injection Hl as <-|].
  apply bind_ok in Hl as (y & Hy & Hl). apply bind_ok in Hl as (ys & Hys & [= <-]).
  constructor; [by exists y|]. cbn. by apply IH.
Qed.

Lemma collect_logged_value `{MLIRPrint} {A B} (body : A → Logged (list B)) xs :
  value (collect_logged body xs) = xs ≫= λ x, value (body x).
Proof.
  unfold collect_logged. enough (∀ out, value (fold_logged (λ out x, let* more := body x; done (out ++ more)%list) out xs) =
    (out ++ (xs ≫= λ x, value (body x)))%list) as H' by apply H'.
  induction xs as [|x xs IH]; intros out; cbn; [by rewrite app_nil_r|]. by rewrite IH, <- app_assoc.
Qed.

Section offers.
Context `{MLIRTiles} `{!MLIRPrint} `{AE : LayoutConstraints.AffineExprs} `{!MLIRMaps} `{!MLIRBuild} `{!MLIRMapTrees} `{!SearchTexts}.
Variable workload : WorkloadGraph.
Variable target : SearchTarget.
Variable layoutContext : LayoutContext.
Variable options : MappingSearchOptions.
Variable pinned : gmap string SearchValue.
Variable boundLayouts : gmap string string.
Variable boundAxes : BoundAxes.

Lemma foldl_min_elem x xs : foldl Nat.min x xs ∈ x :: xs.
Proof.
  revert x. induction xs as [|y xs IH]; intros x; cbn; [by left|].
  specialize (IH (Nat.min x y)). apply elem_of_cons in IH as [->|Hin].
  - destruct (Nat.min_spec x y) as [[_ ->]|[_ ->]]; [by left|by right; left].
  - by do 2 right.
Qed.
Lemma lowestCovered_elem covered : covered ≠ [] → lowestCovered covered ∈ covered.
Proof. destruct covered as [|x xs]; [done|]. intros _. apply foldl_min_elem. Qed.

Lemma fused_covers rule found machine c : toFusedMappingCandidate rule found workload machine layoutContext pinned boundLayouts boundAxes = Ok c →
  mc_coveredNodes c = rm_coveredNodes found ∧ rm_coveredNodes found ≠ [].
Proof.
  unfold toFusedMappingCandidate. destruct (r_pattern rule); [|done]. intros [_ Hc]%fail_then_ok.
  destruct (head (rm_coveredNodes found)) as [n|] eqn:Hn; [|done]. cbn in Hc. destruct (findNode workload n); [|done].
  apply bind_ok in Hc as (? & _ & Hc). destruct (mapM _ _); [|done]. apply fail_then_ok in Hc as [_ Hc].
  apply bind_ok in Hc as (? & _ & [= <-]). split; [done|]. by intros Hnil; rewrite Hnil in Hn.
Qed.

Local Abbreviation fusedCandidates := (fusedCandidates workload target layoutContext options pinned boundLayouts boundAxes).
Local Abbreviation nodeTables := (nodeTables workload target layoutContext options pinned boundLayouts boundAxes).

Lemma fused_anchored l anchor c : fusedCandidates = Ok l → (anchor, c) ∈ value l → anchor ∈ mc_coveredNodes c.
Proof.
  unfold SearchTables.fusedCandidates. destruct (decide _); [intros [= <-]; by intros ?%not_elem_of_nil|].
  destruct (matchRulePatterns _ _ _) as [matches truncated]. intros Hl Hin. apply bind_ok in Hl as (found & Hf & [= <-]). cbn in Hin.
  apply list_elem_of_omap in Hin as (o & Ho & ->).
  apply collect_result_ok in Hf. apply list_elem_of_lookup in Ho as [i Hi].
  apply (Forall2_lookup_r _ _ _ _ _ Hf) in Hi as (m & _ & lg & Hb & Hv). unfold fusedCandidate in Hb.
  destruct (toFusedMappingCandidate _ _ _ _ _ _ _ _) as [cand|[]] eqn:Hc; [|by injection Hb as <-|done].
  injection Hb as <-. cbn in Hv. injection Hv as <- <-. apply fused_covers in Hc as [-> Hne]. by apply lowestCovered_elem.
Qed.

Lemma measured_covers node rule parameters instance :
  e_coveredNodes (value (measuredEntry target options node rule parameters instance)) = [n_id node].
Proof. unfold measuredEntry. destruct (provider _ _); [|done]. by destruct (lookupOperation _ _ _). Qed.

Lemma rule_covers node rule l entry :
  ruleEntries target layoutContext options pinned boundLayouts boundAxes node rule = Ok l → entry ∈ (value l).1 →
  n_id node ∈ e_coveredNodes entry.
Proof.
  unfold ruleEntries. destruct (toMappingCandidate _ _ _ _ _ _ _) as [c|[]]; [|by intros [= <-] ?%not_elem_of_nil|done].
  intros Hl Hin. apply bind_ok in Hl as (placements & _ & [= <-]). cbn in Hin. rewrite collect_logged_value in Hin.
  apply list_elem_of_bind in Hin as (instance & Hin & _). cbn in Hin. apply list_elem_of_singleton in Hin as ->.
  rewrite measured_covers. by left.
Qed.

Lemma fusedEntries_covers c l entry : fusedEntries target layoutContext options c = Ok l → entry ∈ value l →
  e_coveredNodes entry = mc_coveredNodes c.
Proof.
  unfold fusedEntries. intros Hl Hin. apply bind_ok in Hl as (placements & _ & [= <-]). cbn in Hin.
  destruct (pl_instances placements) as [|i others]; [by apply not_elem_of_nil in Hin|].
  destruct (findRule _ _); [|by apply not_elem_of_nil in Hin]. cbn in Hin.
  apply elem_of_cons in Hin as [->|(? & -> & _)%list_elem_of_fmap]; done.
Qed.

(** What the search relies on: one table for each node, in order, offering only what covers its
    node. *)
Record TablesOk (tables : list NodeTable) : Prop := {
  tables_nodes : t_node <$> tables = n_id <$> merge_sort id_le (nodes workload);
  tables_offer : ∀ i table entry, tables !! i = Some table → entry ∈ t_instances table → t_node table ∈ e_coveredNodes entry;
}.

Lemma nodeTables_ok l : nodeTables = Ok l → TablesOk (value l).
Proof.
  unfold SearchTables.nodeTables. intros Hl. apply bind_ok in Hl as (fused & Hfused & Hl). apply bind_ok in Hl as (ts & Hts & [= <-]).
  apply collect_result_ok in Hts. cbn. 
  assert (Forall2 (λ node table, t_node table = n_id node ∧ ∀ entry, entry ∈ t_instances table → t_node table ∈ e_coveredNodes entry)
    (merge_sort id_le (nodes workload)) (value ts)) as Hall.
  { eapply Forall2_impl; [exact Hts|]. intros node table (m & Hm & <-). unfold nodeTable in Hm.
    apply bind_ok in Hm as (offered & Ho & Hm). apply bind_ok in Hm as (more & Hmore & [= <-]). cbn. split; [done|].
    intros entry [Hin|Hin]%elem_of_app.
    - apply list_elem_of_join in Hin as (es & Hin & Hes). apply list_elem_of_fmap in Hes as (eb & -> & Heb).
      apply collect_result_ok in Ho. apply list_elem_of_lookup in Heb as [i Hi].
      apply (Forall2_lookup_r _ _ _ _ _ Ho) in Hi as (rule & _ & lg & Hb & Hv). subst eb. by apply (rule_covers node rule lg).
    - apply list_elem_of_join in Hin as (es & Hin & Hes). apply collect_result_ok in Hmore. apply list_elem_of_lookup in Hes as [i Hi].
      apply (Forall2_lookup_r _ _ _ _ _ Hmore) in Hi as (c & Hc & lg & Hb & Hv). subst es.
      rewrite (fusedEntries_covers c lg entry Hb Hin). apply list_elem_of_lookup_2 in Hc.
      apply list_elem_of_fmap in Hc as ([anchor c'] & -> & Hc). apply list_elem_of_In, List.filter_In in Hc as [Hc Hanchor].
      apply list_elem_of_In in Hc. apply bool_decide_eq_true in Hanchor. cbn in *. subst anchor.
      by apply (fused_anchored fused). }
  split.
  - clear Hts. induction Hall as [|node table ns ts' [Hn _] _ IH]; cbn; [done|]. by rewrite Hn, IH.
  - intros i table entry Hi. apply (Forall2_lookup_r _ _ _ _ _ Hall) in Hi as (node & _ & _ & H'). apply H'.
Qed.

Lemma tables_ids tables : TablesOk tables → t_node <$> tables ≡ₚ n_id <$> nodes workload.
Proof. intros [-> _]. by rewrite merge_sort_Permutation. Qed.
End offers.
