(* ===== verification/SearchBranch.v ===== *)
(** The branching of the covering search: the middle of lib/Mapping/CoveringSearch.cpp.

    A partial cover chooses an instance for some nodes.  [extendStates] places one more
    instance, decides how every value it completes is carried, one state for each joint
    combination within the cap, charges the memories and releases what is done with.  The
    theorems: a cover is a partition of the nodes among its instances, and what a memory is
    charged is what the live values and the staged copies owe, so a release never takes more
    than is there. *)
From S2P Require Import Prelude Float MachineModel CostModel Diagnostics LayoutConstraints TileFacts MappingRules MappingPlan StorageFootprint Placement RuleMatching Connections Signatures Sorting SearchTables.
From S2P Require Import Routing WorkloadGraph.
Open Scope string_scope.
Open Scope Z_scope.

(** ** Partial covers

    A chosen instance is an entry of a table, and two are the same when their places in the
    tables are: the code compares their addresses. *)
Section branch.
Context `{MLIRTiles} `{!MLIRPrint} `{AE : LayoutConstraints.AffineExprs} `{!MLIRMaps} `{!MLIRBuild} `{!MLIRMapTrees} `{!SearchTexts}.
Variable workload : WorkloadGraph.
Variable target : SearchTarget.
Variable options : MappingSearchOptions.
Variable tables : list NodeTable.
Local Abbreviation model := (Placement.machine (place target)).
Local Abbreviation nat_text n := (to_string (Z.of_nat n)).

Record Choice := mkChoice { c_place : nat * nat; c_entry : InstanceEntry }.
Definition c_instance (c : Choice) : CandidateInstance := e_instance (c_entry c).

Record Partial := mkPartial {
  chosen : list (option Choice);
  p_connections : list ConnectionPlan;
  linked : gset nat;
  p_cost : Cost;
  p_lowerBound : Cost;
  p_id : Z;
  covered : Z;
  p_executorSlots : Z;
  memoryBytes : gmap string Z;
  liveValueCharges : gmap nat (list (string * Z));
}.
Definition start : Partial :=
  mkPartial (replicate (length tables) None) [] ∅ zeroCost infiniteCost 0 0 0 ∅ ∅.

Definition with_chosen (c : list (option Choice)) (p : Partial) : Partial :=
  mkPartial c (p_connections p) (linked p) (p_cost p) (p_lowerBound p) (p_id p) (covered p) (p_executorSlots p)
    (memoryBytes p) (liveValueCharges p).
Definition with_linked (l : gset nat) (p : Partial) : Partial :=
  mkPartial (chosen p) (p_connections p) l (p_cost p) (p_lowerBound p) (p_id p) (covered p) (p_executorSlots p)
    (memoryBytes p) (liveValueCharges p).
Definition with_cost (c : Cost) (p : Partial) : Partial :=
  mkPartial (chosen p) (p_connections p) (linked p) c (p_lowerBound p) (p_id p) (covered p) (p_executorSlots p)
    (memoryBytes p) (liveValueCharges p).
Definition with_bound (c : Cost) (p : Partial) : Partial :=
  mkPartial (chosen p) (p_connections p) (linked p) (p_cost p) c (p_id p) (covered p) (p_executorSlots p)
    (memoryBytes p) (liveValueCharges p).
Definition with_memory (m : gmap string Z) (l : gmap nat (list (string * Z))) (p : Partial) : Partial :=
  mkPartial (chosen p) (p_connections p) (linked p) (p_cost p) (p_lowerBound p) (p_id p) (covered p) (p_executorSlots p) m l.
Definition with_slots (n slots : Z) (p : Partial) : Partial :=
  mkPartial (chosen p) (p_connections p) (linked p) (p_cost p) (p_lowerBound p) (p_id p) n slots
    (memoryBytes p) (liveValueCharges p).
Definition published (plans : list ConnectionPlan) (id : Z) (p : Partial) : Partial :=
  mkPartial (chosen p) (p_connections p ++ plans) (linked p) (p_cost p) (p_lowerBound p) id (covered p) (p_executorSlots p)
    (memoryBytes p) (liveValueCharges p).

(** [state.memoryBytes[memory] += bytes], for good or until the value's last consumer. *)
Definition charge (memory : string) (bytes : Z) (p : Partial) : Partial :=
  with_memory (<[memory := u64 (default 0 (memoryBytes p !! memory) + bytes)]> (memoryBytes p)) (liveValueCharges p) p.
Definition chargeLive (v : nat) (memory : string) (bytes : Z) (p : Partial) : Partial :=
  let p := charge memory bytes p in
  with_memory (memoryBytes p)
    (<[v := (default [] (liveValueCharges p !! v) ++ [(memory, bytes)])%list]> (liveValueCharges p)) p.

Definition primaryMemory (instance : CandidateInstance) : string :=
  match in_order (memoryBindings instance) with
  | (_, memory) :: _ => memory
  | [] =>
    match portMemoryBindings instance with
    | first :: rest =>
      pm_memory (foldl (λ best b,
        if str_ltb (canonicalPortRefString (pm_port b)) (canonicalPortRefString (pm_port best)) then b else best) first rest)
    | [] => from_option mem_id "" (List.find (λ memory, isVisible model (mem_id memory) (executorOf instance)) (memories model))
    end
  end.

(** The layout that governs an occurrence: nothing when the solutions for it disagree. *)
Definition agree (lhs rhs : SolvedLayout) : bool :=
  bool_decide (sl_layoutClass lhs = sl_layoutClass rhs) &&
  bool_decide (canonicalSearchValueString (sl_parameters lhs) = canonicalSearchValueString (sl_parameters rhs)).
Definition boundSolvedLayoutForPort (instance : CandidateInstance) (port : PortRef) : option SolvedLayout :=
  match List.filter (λ s, bool_decide (sl_port s = Some port)) (snd <$> in_order (layoutSolutions instance)) with
  | [] => None
  | found :: others => if forallb (agree found) others then Some found else None
  end.
Definition boundLayoutForPort (instance : CandidateInstance) (port : PortRef) : option string :=
  sl_layoutClass <$> boundSolvedLayoutForPort instance port.

Definition foldId (hash id : Z) : Z :=
  foldl (λ h byte, u64 (Z.lxor h (Z.land (Z.shiftr id (8 * Z.of_nat byte)) 0xff) * fnv_prime)) hash (seq 0 8).
Definition partialId (instances : list (option Choice)) : Z :=
  foldl foldId fnv_offset_basis (merge_sort Z.le ((λ c, ci_id (c_instance c)) <$> present instances)).

(** ** Placing an instance *)
Definition tableIndexByNode (id : nat) : option nat :=
  fst <$> list_find (λ t, t_node t = id) tables.

(** Every node of the instance must be free; they are its own from now on. *)
Definition coveredIndices (p : Partial) (entry : InstanceEntry) : option (list nat) :=
  mapM (λ id,
    index ← tableIndexByNode id;
    match chosen p !! index with Some None => Some index | _ => None end) (e_coveredNodes entry).
Definition choose (c : Choice) (indices : list nat) (instances : list (option Choice)) : list (option Choice) :=
  foldl (λ l index, <[index := Some c]> l) instances indices.

Definition ambiguous (node : WorkloadNode) (what : string) : Logged (option Partial) :=
  let* _ := report MemoryCapacityExceeded ("node " +:+ nat_text (n_id node) +:+ what +:+
    "; placement is ambiguous and cannot be proven within capacity");
  done None.
Definition several (node : WorkloadNode) (memories what : string) : Logged (option Partial) :=
  ambiguous node (": " +:+ nat_text (length (outputs node)) +:+ " outputs with " +:+ memories +:+ what +:+
    " have no output-to-memory association").

(** Every output to the one memory. *)
Definition chargeOutputs (instance : CandidateInstance) (node : WorkloadNode) (memory : string) (p : Partial) : Logged Partial :=
  fold_logged (λ p ip,
    let* bytes := physicalBytesForOutput workload instance node ip.1 ip.2;
    done (chargeLive (p_value ip.2) memory bytes p)) p (imap pair (outputs node)).

(** The only output to each memory. *)
Definition chargeEach (instance : CandidateInstance) (node : WorkloadNode) (output : WorkloadPort) (memories : list string)
    (p : Partial) : Logged Partial :=
  let* bytes := physicalBytesForOutput workload instance node 0 output;
  done (foldl (λ p memory, chargeLive (p_value output) memory bytes p) p memories).

Definition sinkCharges (node : WorkloadNode) (memories : list string) (p : Partial) : Logged Partial :=
  let* bytes := portlessBytes workload node;
  done (foldl (λ p memory, charge memory bytes p) p memories).

(** Every output to the memory its own binding names. *)
Fixpoint chargeNamed (instance : CandidateInstance) (node : WorkloadNode) (ports : list (nat * WorkloadPort)) (p : Partial) :
    Logged (option Partial) :=
  match ports with
  | [] => done (Some p)
  | (index, port) :: ports =>
    match List.filter (λ b, bool_decide (pm_port b = mkRef (n_id node) Output index)) (portMemoryBindings instance) with
    | [b] =>
      let* bytes := physicalBytesForOutput workload instance node index port;
      chargeNamed instance node ports (chargeLive (p_value port) (pm_memory b) bytes p)
    | [] => ambiguous node (": output " +:+ nat_text index +:+ " has no memory association")
    | _ => ambiguous node (": output " +:+ nat_text index +:+ " has several memory associations")
    end
  end.

Definition some_logged {A} (m : Logged A) : Logged (option A) := let* a := m; done (Some a).

(** The tiles an instance materializes, each in the memory that holds it. *)
Definition storageCharges (instance : CandidateInstance) (node : WorkloadNode) (p : Partial) : Logged (option Partial) :=
  match portMemoryBindings instance, map_to_list (memoryBindings instance) with
  | [], [] => done (Some p)
  | [], bindings =>
    match outputs node, bindings with
    | [], _ => some_logged (sinkCharges node (snd <$> bindings) p)
    | _, [(_, memory)] => some_logged (chargeOutputs instance node memory p)
    | [output], _ => some_logged (chargeEach instance node output (snd <$> bindings) p)
    | _, _ => several node (nat_text (length bindings)) " memory bindings"
    end
  | _, _ :: _ => ambiguous node ": memory requirements mix named-port and bare associations"
  | named, [] =>
    let memories := foldl (λ out b, if contains out (pm_memory b) then out else (out ++ [pm_memory b])%list) [] named in
    match outputs node with
    | [] => some_logged (sinkCharges node memories p)
    | ports =>
      if existsb (λ b, bool_decide (direction (pm_port b) = Output)) named
      then chargeNamed instance node (imap pair ports) p
      else
        match memories, ports with
        | [memory], _ => some_logged (chargeOutputs instance node memory p)
        | _, [output] => some_logged (chargeEach instance node output memories p)
        | _, _ => several node (nat_text (length memories)) " named input memories"
        end
    end
  end.

(** What the rule declares beside. *)
Definition usageCharges (instance : CandidateInstance) (p : Partial) : Partial :=
  foldl (λ p usage,
    let node := default "" (memoryBindings instance !! usage.1) in
    charge (if str_empty node then usage.1 else node) usage.2 p)
    p (map_to_list (ru_memoryBytes (resourceUsage instance))).

Definition placeInstance (p : Partial) (table : NodeTable) (c : Choice) : Logged (option Partial) :=
  match coveredIndices p (c_entry c) with
  | None => done None
  | Some indices =>
    let p := with_chosen (choose c indices (chosen p)) p in
    let p := with_slots (u32 (covered p + Z.of_nat (length indices)))
               (u64 (p_executorSlots p + executorSlots (resourceUsage (c_instance c)))) p in
    let* charged := storageCharges (c_instance c) (t_workload table) p;
    done (usageCharges (c_instance c) <$> charged)
  end.

(** ** What a placement completes *)
Definition valueLinks : list ValueLink := valueLinksOf tables.
Definition hasEvaluator : bool := match evaluateCompletePlan options with Some _ => true | None => false end.

(** A chosen instance; the code reads it only where the link is complete. *)
Definition noUsage : ResourceUsage := mkUsage 0 ∅.
Definition noInstance : CandidateInstance := mkInstance 0 0 (mkBundle "" None "") ∅ ∅ ∅ ∅ ∅ [] noUsage zeroCost.
Definition chosenAt (p : Partial) (index : nat) : option Choice := mjoin (chosen p !! index).
Definition instanceAt (p : Partial) (index : nat) : CandidateInstance := from_option c_instance noInstance (chosenAt p index).
Definition nodeAt (index : nat) : nat := from_option t_node 0%nat (tables !! index).

Definition realPort (d : PortDirection) (e : ValueEndpoint) : option PortRef :=
  let ref := mkRef (nodeAt (ve_node e)) d (ve_index e) in
  if lookupPort workload ref then Some ref else None.
Definition groupPorts (d : PortDirection) (endpoints : list ValueEndpoint) : list PortRef := omap (realPort d) endpoints.

Definition executorText (instance : CandidateInstance) : option string :=
  let executor := executorOf instance in if str_empty executor then None else Some executor.

Definition makeRequest (p : Partial) (producer consumer : CandidateInstance) (producerEnd consumerEnd : ValueEndpoint)
    (v : nat) : Logged ConnectionRequest :=
  let producerPort := realPort Output producerEnd in
  let consumerPort := realPort Input consumerEnd in
  let solved instance port := port ≫= boundSolvedLayoutForPort instance in
  let from := solved producer producerPort in
  let to := solved consumer consumerPort in
  let* facts := factsForValue workload v;
  done (mkConnectionRequest (ci_id producer) (ci_id consumer) v producerPort consumerPort
    (primaryMemory producer) (primaryMemory consumer) (sl_layoutClass <$> from) (sl_layoutClass <$> to)
    (from_option sl_parameters ∅ from) (from_option sl_parameters ∅ to) (from ≫= sl_map) (to ≫= sl_map)
    (findValue workload v ≫= v_type) (p_type (ve_port consumerEnd)) (executorText producer) (executorText consumer)
    (accessMap (ve_port producerEnd)) (accessMap (ve_port consumerEnd)) (f_bytes facts) (f_alignment facts) (memoryBytes p)).

(** Uses of a value that one connection can serve. *)
Record ConsumerUseKey := mkUseKey {
  uk_memory : string;
  uk_layout : option string;
  uk_layoutParameters : string;
  uk_executor : string;
  uk_portType : option mlir_type;
  uk_portMap : option affine_map;
}.
Definition sameUse (lhs rhs : ConsumerUseKey) : bool :=
  bool_decide (uk_memory lhs = uk_memory rhs) && bool_decide (uk_layout lhs = uk_layout rhs) &&
  bool_decide (uk_layoutParameters lhs = uk_layoutParameters rhs) && bool_decide (uk_executor lhs = uk_executor rhs) &&
  bool_decide (uk_portType lhs = uk_portType rhs) && bool_decide (uk_portMap lhs = uk_portMap rhs).
Definition useKeyFor (p : Partial) (e : ValueEndpoint) : ConsumerUseKey :=
  let consumer := instanceAt p (ve_node e) in
  let solved := realPort Input e ≫= boundSolvedLayoutForPort consumer in
  mkUseKey (primaryMemory consumer) (sl_layoutClass <$> solved)
    (from_option (λ s, canonicalSearchValueString (sl_parameters s)) "" solved) (executorOf consumer)
    (p_type (ve_port e)) (accessMap (ve_port e)).
Fixpoint addToUseGroup (key : ConsumerUseKey) (e : ValueEndpoint) (groups : list (ConsumerUseKey * list ValueEndpoint)) :
    list (ConsumerUseKey * list ValueEndpoint) :=
  match groups with
  | [] => [(key, [e])]
  | (k, members) :: groups =>
    if sameUse k key then (k, (members ++ [e])%list) :: groups else (k, members) :: addToUseGroup key e groups
  end.
Definition useGroups (p : Partial) (consumers : list ValueEndpoint) : list (list ValueEndpoint) :=
  snd <$> foldl (λ groups e, addToUseGroup (useKeyFor p e) e groups) [] consumers.

Inductive DecisionKind := PlainUseGroup | FanOutGroup | GatherGroup.
Record DecisionSpec := mkSpec { d_kind : DecisionKind; d_link : ValueLink; d_endpoints : list ValueEndpoint }.

Definition isComplete (p : Partial) (link : ValueLink) : bool :=
  forallb (λ e, match chosenAt p (ve_node e) with Some _ => true | None => false end) (l_producers link ++ l_consumers link).

(** A link between nodes one instance covers is inside that instance. *)
Definition isInternal (p : Partial) (link : ValueLink) : bool :=
  match ve_node <$> (l_producers link ++ l_consumers link)%list with
  | [] => false
  | first :: others =>
    existsb (λ n, negb (bool_decide (n = first))) others &&
    forallb (λ n, bool_decide (c_place <$> chosenAt p n = c_place <$> chosenAt p first)) others
  end.

Definition linkSpecs (p : Partial) (link : ValueLink) : list DecisionSpec :=
  let groups kind := (λ group, mkSpec kind link group) <$> useGroups p (l_consumers link) in
  match l_producers link, l_consumers link with
  | [_], first :: others =>
    if existsb (λ e, negb (bool_decide (ve_node e = ve_node first))) others
    then [mkSpec FanOutGroup link (l_consumers link)]
    else groups PlainUseGroup
  | _, _ => groups GatherGroup
  end.

Record DecisionList := mkDecisions { base : Partial; specs : list DecisionSpec; completedLinks : list ValueLink }.

Definition addDecisions (nodeIndex : nat) (d : DecisionList) (il : nat * ValueLink) : Logged DecisionList :=
  let '(index, link) := il in
  let p := base d in
  if bool_decide (index ∈ linked p) || negb (valueInvolves link nodeIndex) || negb (isComplete p link) then done d else
  let p := with_linked ({[index]} ∪ linked p) p in
  if isInternal p link then done (mkDecisions p (specs d) (completedLinks d)) else
  let* facts := factsForValue workload (l_value link);
  if decide (f_bytes facts = 0) then done (mkDecisions p (specs d) (completedLinks d))
  else done (mkDecisions p (specs d ++ linkSpecs p link) (completedLinks d ++ [link])).

Definition buildDecisionSpecs (p : Partial) (nodeIndex : nat) : Logged DecisionList :=
  fold_logged (addDecisions nodeIndex) (mkDecisions p [] []) (imap pair valueLinks).

(** ** The ways to carry a value *)
Record ConnectionRealization := mkRealization {
  r_plans : list ConnectionPlan;
  r_liveValue : nat;
  r_liveBytes : list (string * Z);
  r_stagedBytes : list (string * Z);
}.

Definition topology : RouteOptions := Routing.mkOptions (so_maxRoutesPerConnection options) 4.
Local Abbreviation placementOptions := (SearchTables.placementOptions options).

Definition reportTruncation (truncated : bool) : Logged unit :=
  whenever truncated (SearchTables.truncate
    ("route cap reached (maxRoutesPerConnection=" +:+ to_string (so_maxRoutesPerConnection options) +:+ ")")).
Definition choiceCap : string :=
  "connection choice cap reached (maxConnectionCombinations=" +:+ to_string (so_maxConnectionCombinations options) +:+ ")".
Definition incompatible (message : string) : Logged unit := let* _ := tell [CountIncompatible]; report NoMemoryRoute message.

Definition attributeNamed (node : WorkloadNode) (name : string) : option AttributeView :=
  attributes node ≫= λ d, snd <$> List.find (λ e, bool_decide (e.1 = name)) (entriesOf d).
Definition declaredGather (node : WorkloadNode) : option GatherSemantics :=
  match attributeNamed node "micro.gather_kind" with Some (StringAttrView kind) => symbolizeGatherSemantics kind | _ => None end.
Definition declaredConcatAxis (node : WorkloadNode) : option Z :=
  match attributeNamed node "micro.gather_axis" with Some (IntegerAttrView axis) => Some (u64 axis) | _ => None end.

(** The plan serves every use of the group; its id is that of what it serves. *)
Definition serving (ports : list PortRef) (plan : ConnectionPlan) : ConnectionPlan :=
  match ports with
  | [] => plan
  | _ =>
    let served id :=
      mkConnection id (producer plan) (consumers plan) (producerPort plan) ports (producers plan) (gatherSemantics plan)
        (concatAxis plan) (cp_value plan) (cp_kind plan) (memoryRoute plan) (transferEngines plan) (producerMap plan)
        (consumerMaps plan) (transform plan) (cp_cost plan) (cp_measuredCycles plan) in
    served (computeConnectionId (served (cp_id plan)))
  end.

Definition plainRealization (request : ConnectionRequest) (ports : list PortRef) (v : nat) (combination : list ConnectionPlan) :
    option ConnectionRealization :=
  first ← head combination;
  let plan := serving ports first in
  let moved := bool_decide (cp_kind plan = Transfer ∨ cp_kind plan = TransferAndTransform) in
  Some (mkRealization [plan] v
    (if moved then [(default (consumerMemory request) (last (memoryRoute plan)), rq_bytes request)] else []) []).

Definition plainAlternatives (p : Partial) (link : ValueLink) (producerEnd front : ValueEndpoint) (endpoints : list ValueEndpoint) :
    Logged (list ConnectionRealization) :=
  let* request := makeRequest p (instanceAt p (ve_node producerEnd)) (instanceAt p (ve_node front)) producerEnd front (l_value link);
  let between := "connection " +:+ producerMemory request +:+ " -> " +:+ consumerMemory request +:+ ": " in
  match enumerateConnectionChoices [request] model topology placementOptions with
  | Err e => let* _ := report NoMemoryRoute (between +:+ placementText e); done []
  | Ok choices =>
    let* _ := reportTruncation (choices_truncated choices);
    match combinations choices with
    | [] => let* _ := incompatible (between +:+ "no legal route"); done []
    | combos =>
      let* _ := tell [CountRoutes (length combos)];
      done (omap (plainRealization request (groupPorts Input endpoints) (l_value link)) combos)
    end
  end.

(** A copy fills every memory after its source. *)
Definition copiedBytes (bytes : Z) (plan : ConnectionPlan) : list (string * Z) :=
  if bool_decide (cp_kind plan = Replicate) then (λ hop, (hop, bytes)) <$> tail (memoryRoute plan) else [].

Definition fanOutAlternatives (p : Partial) (link : ValueLink) (bytes : Z) (producerEnd : ValueEndpoint)
    (endpoints : list ValueEndpoint) : Logged (list ConnectionRealization) :=
  let producer := instanceAt p (ve_node producerEnd) in
  let* requests := collect_logged (λ e,
    let* request := makeRequest p producer (instanceAt p (ve_node e)) producerEnd e (l_value link); done [request]) endpoints;
  match requests with
  | [] => done []
  | first :: _ =>
    let from := "fan-out " +:+ producerMemory first +:+ ": " in
    match enumerateFanOutAlternatives first requests model topology placementOptions with
    | Err e => let* _ := report NoMemoryRoute (from +:+ placementText e); done []
    | Ok (groups, truncated) =>
      let* _ := reportTruncation truncated;
      if existsb is_nil groups then let* _ := incompatible (from +:+ "no legal route"); done []
      else
        let* _ := tell [CountRoutes (length groups)];
        let '(combos, capped) :=
          choiceLoop (choiceFuel groups) placementOptions groups (replicate (length groups) O) [] false in
        let* _ := whenever capped (SearchTables.truncate choiceCap);
        done ((λ plans, mkRealization plans 0 [] (plans ≫= copiedBytes bytes)) <$> combos)
    end
  end.

Definition with_engines (engines : list string) (plan : ConnectionPlan) : ConnectionPlan :=
  mkConnection (cp_id plan) (producer plan) (consumers plan) (producerPort plan) (consumerPorts plan) (producers plan)
    (gatherSemantics plan) (concatAxis plan) (cp_value plan) (cp_kind plan) (memoryRoute plan) engines (producerMap plan)
    (consumerMaps plan) (transform plan) (cp_cost plan) (cp_measuredCycles plan).

Definition feedEngines (feeds : list ConnectionPlan) : list string :=
  foldl (λ engines engine, if contains engines engine then engines else (engines ++ [engine])%list) [] (feeds ≫= transferEngines).

Definition gatherAlternatives (p : Partial) (link : ValueLink) (bytes : Z) (representative : ValueEndpoint)
    (endpoints : list ValueEndpoint) : Logged (list ConnectionRealization) :=
  let consumer := instanceAt p (ve_node representative) in
  let idsOf ends := merge_sort Z.le ((λ e, ci_id (instanceAt p (ve_node e))) <$> ends) in
  let producerPorts := groupPorts Output (l_producers link) in
  match t_workload <$> tables !! ve_node representative with
  | None => done []
  | Some consumerNode =>
    let semantics := declaredGather consumerNode in
    let concatAxis := if bool_decide (semantics = Some Concatenate) then declaredConcatAxis consumerNode else None in
    if bool_decide (semantics = Some Concatenate) && bool_decide (concatAxis = None) then
      let* _ := report InvalidGatherDeclaration ("node " +:+ nat_text (n_id consumerNode) +:+
        ": a Concatenate gather for value " +:+ nat_text (l_value link) +:+ " declares no axis");
      done []
    else
      let* feeds := collect_logged (λ e,
        let* request := makeRequest p (instanceAt p (ve_node e)) consumer e representative (l_value link); done [request])
        (l_producers link);
      match enumerateConnectionChoices feeds model topology placementOptions with
      | Err e => let* _ := report NoMemoryRoute ("gather: " +:+ placementText e); done []
      | Ok choices =>
        let* _ := reportTruncation (choices_truncated choices);
        match combinations choices with
        | [] => let* _ := incompatible "gather: a producer has no legal route"; done []
        | combos =>
          let* _ := tell [CountRoutes (length combos)];
          collect_logged (λ combination,
            let feedCost := foldl (λ c feed, addCost c (cp_cost feed)) zeroCost combination in
            let reduce := with_engines (feedEngines combination)
              (synthesizeFanIn (idsOf (l_producers link)) (idsOf endpoints) (l_value link) (primaryMemory consumer) bytes feedCost
                 (groupPorts Input endpoints) semantics concatAxis) in
            let* _ := tell [GatherPorts (cp_id reduce) producerPorts];
            done [mkRealization [reduce] 0 [] [(primaryMemory consumer, bytes)]]) combos
        end
      end
  end.

Definition specAlternatives (spec : DecisionSpec) (p : Partial) : Logged (list ConnectionRealization) :=
  let link := d_link spec in
  let* facts := factsForValue workload (l_value link);
  match d_kind spec, l_producers link, d_endpoints spec with
  | PlainUseGroup, producerEnd :: _, front :: _ => plainAlternatives p link producerEnd front (d_endpoints spec)
  | FanOutGroup, producerEnd :: _, _ => fanOutAlternatives p link (f_bytes facts) producerEnd (d_endpoints spec)
  | GatherGroup, _, representative :: _ => gatherAlternatives p link (f_bytes facts) representative (d_endpoints spec)
  | _, _, _ => done []
  end.

Definition realizationCost (r : ConnectionRealization) : Cost := foldl (λ c plan, addCost c (cp_cost plan)) zeroCost (r_plans r).
Definition sortDecision (decision : list ConnectionRealization) : list ConnectionRealization :=
  stable_sort (λ lhs rhs, costLess (realizationCost lhs) (realizationCost rhs) (so_objective options)) decision.

(** A measured connection is charged what was measured. *)
Definition measuredPlan (plan : ConnectionPlan) : ConnectionPlan :=
  match provider target options with
  | None => plan
  | Some provider =>
    match lookupConnection provider (connectionSignatureFor plan workload model) (targetContext target) with
    | None => plan
    | Some cycles =>
      mkConnection (cp_id plan) (producer plan) (consumers plan) (producerPort plan) (consumerPorts plan) (producers plan)
        (gatherSemantics plan) (concatAxis plan) (cp_value plan) (cp_kind plan) (memoryRoute plan) (transferEngines plan)
        (producerMap plan) (consumerMaps plan) (transform plan) (withLatency cycles (cp_cost plan)) (Some cycles)
    end
  end.

Definition applyRealization (p : Partial) (r : ConnectionRealization) : Partial * list ConnectionPlan :=
  let plans := measuredPlan <$> r_plans r in
  let p := with_cost (foldl (λ c plan, addCost c (cp_cost plan)) (p_cost p) plans) p in
  let p := foldl (λ p c, chargeLive (r_liveValue r) c.1 c.2 p) p (r_liveBytes r) in
  (foldl (λ p c, charge c.1 c.2 p) p (r_stagedBytes r), plans).

(** ** Capacity and release *)
Definition overCapacity (message : string) : Logged bool :=
  let* _ := tell [CountCapacity]; let* _ := report MemoryCapacityExceeded message; done false.

Fixpoint capacityLoop (charges : list (string * Z)) (total : Z) : Logged bool :=
  match charges with
  | [] =>
    if negb hasEvaluator && bool_decide (memoryBudgetBytes options < total) then
      overCapacity ("plan byte total exceeds the global budget (" +:+ to_string (memoryBudgetBytes options) +:+ " bytes)")
    else done true
  | (key, bytes) :: charges =>
    match findMemory model key with
    | None => let* _ := tell [PlanError (UnknownPlanMemory key)]; done false
    | Some memory =>
      if negb hasEvaluator && bool_decide (capacityBytes memory < bytes) then
        overCapacity ("memory '" +:+ key +:+ "' over capacity (" +:+ to_string (capacityBytes memory) +:+ " bytes)")
      else capacityLoop charges (u64 (total + bytes))
    end
  end.
Definition capacityOk (p : Partial) : Logged bool := capacityLoop (in_order (memoryBytes p)) 0.

(** [held -= charge.second], which the code asserts does not wrap. *)
Definition release (p : Partial) (link : ValueLink) : Partial :=
  match liveValueCharges p !! l_value link with
  | None => p
  | Some charges =>
    with_memory (foldl (λ m c, <[c.1 := u64 (default 0 (m !! c.1) - c.2)]> m) (memoryBytes p) charges)
      (delete (l_value link) (liveValueCharges p)) p
  end.
Definition releaseCompleted (p : Partial) (completed : list ValueLink) : Partial := foldl release p completed.

(** ** Extending a cover *)
Record Extension := mkExtension { examined : Z; capped : bool; extended : list Partial }.

(** A leaf: every decision taken. *)
Definition finishState (completed : list ValueLink) (w : Extension) (p : Partial) (staged : list ConnectionPlan) : Logged Extension :=
  if decide (examined w = so_maxConnectionCombinations options) then done (mkExtension (examined w) true (extended w)) else
  let w := mkExtension (examined w + 1) (capped w) (extended w) in
  let* fits := capacityOk p;
  if negb fits then done w else
  let final := published staged (partialId (chosen p)) (releaseCompleted p completed) in
  let* _ := tell [CountExpanded];
  done (mkExtension (examined w) (capped w) (extended w ++ [final])).

Fixpoint decisionStep (completed : list ValueLink) (decisions : list DecisionSpec) (w : Extension) (p : Partial)
    (staged : list ConnectionPlan) : Logged Extension :=
  if capped w then done w else
  match decisions with
  | [] => finishState completed w p staged
  | spec :: decisions =>
    let* alternatives := specAlternatives spec p;
    fold_logged (λ w r,
      if capped w then done w else
      let '(next, plans) := applyRealization p r in
      decisionStep completed decisions w next (staged ++ plans)) w (sortDecision alternatives)
  end.

Definition extendStates (parent : Partial) (nodeIndex : nat) (table : NodeTable) (c : Choice) : Logged (list Partial) :=
  let* placed := placeInstance parent table c;
  match placed with
  | None => done []
  | Some p =>
    let* d := buildDecisionSpecs (with_cost (addCost (p_cost p) (e_cost (c_entry c))) p) nodeIndex;
    let* w := decisionStep (completedLinks d) (specs d) (mkExtension 0 false []) (base d) [];
    let* _ := whenever (capped w) (SearchTables.truncate choiceCap);
    done (extended w)
  end.

(** ** Bound and frontier *)
Definition boundEntry (best : option Cost) (entry : InstanceEntry) : option Cost :=
  Some (match best with None => e_cost entry | Some b => bestCostForObjective b (e_cost entry) (so_objective options) end).
Fixpoint boundLoop (remaining : list (NodeTable * option Choice)) (total : Cost) : Cost :=
  match remaining with
  | [] => total
  | (_, Some _) :: remaining => boundLoop remaining total
  | (table, None) :: remaining =>
    match foldl boundEntry None (t_instances table) with
    | None => infiniteCost
    | Some best => boundLoop remaining (addCost total best)
    end
  end.
Definition boundCost (p : Partial) : Cost := boundLoop (zip tables (chosen p)) (p_cost p).

Definition lowestUncovered (p : Partial) : option nat := fst <$> list_find (λ c, c = None) (chosen p).

(** The places of a table's entries. *)
Definition choicesAt (index : nat) : list Choice :=
  match tables !! index with
  | None => []
  | Some table => imap (λ i entry, mkChoice (index, i) entry) (t_instances table)
  end.
End branch.

(** ** The logging monad *)
Lemma fold_logged_value `{MLIRPrint} {S A} (body : S → A → Logged S) s xs :
  value (fold_logged body s xs) = foldl (λ s x, value (body s x)) s xs.
Proof. revert s. induction xs as [|x xs IH]; intros s; cbn; [done|]. by rewrite IH. Qed.

Lemma fold_logged_closed `{MLIRPrint} {S A} (Q : S → Prop) (body : S → A → Logged S) s xs :
  (∀ s x, x ∈ xs → Q s → Q (value (body s x))) → Q s → Q (value (fold_logged body s xs)).
Proof.
  revert s. induction xs as [|x xs IH]; intros s Hb Hs; cbn; [done|]. apply IH.
  - intros s' y Hy. apply Hb. by right.
  - apply Hb; [by left|done].
Qed.

Lemma foldl_closed {S A} (Q : S → Prop) (body : S → A → S) s xs :
  (∀ s x, x ∈ xs → Q s → Q (body s x)) → Q s → Q (foldl body s xs).
Proof.
  revert s. induction xs as [|x xs IH]; intros s Hb Hs; cbn; [done|]. apply IH.
  - intros s' y Hy. apply Hb. by right.
  - apply Hb; [by left|done].
Qed.

Lemma foldl_bind {A B S} (f : S → B → S) (g : A → list B) s xs : foldl f s (xs ≫= g) = foldl (λ s x, foldl f s (g x)) s xs.
Proof. revert s. induction xs as [|x xs IH]; intros s; cbn; [done|]. rewrite foldl_app. by rewrite <- IH. Qed.

(** ** What charging leaves alone *)
Section closed.
Context `{MLIRTiles} `{!MLIRPrint} `{AE : LayoutConstraints.AffineExprs} `{!MLIRMaps} `{!MLIRBuild} `{!MLIRMapTrees} `{!SearchTexts}.
Variable workload : WorkloadGraph.
Variable target : SearchTarget.
Variable options : MappingSearchOptions.
Variable tables : list NodeTable.
(** A property that every charge keeps. *)
Variable Q : Partial → Prop.
Hypothesis charge_closed : ∀ memory bytes p, Q p → Q (charge memory bytes p).
Hypothesis chargeLive_closed : ∀ v memory bytes p, Q p → Q (chargeLive v memory bytes p).

Lemma chargeOutputs_closed instance node memory p : Q p → Q (value (chargeOutputs workload instance node memory p)).
Proof. intros Hp. unfold chargeOutputs. apply (fold_logged_closed Q); [|done]. intros s [i port] _ Hs. by apply chargeLive_closed. Qed.

Lemma chargeEach_closed instance node output memories p : Q p → Q (value (chargeEach workload instance node output memories p)).
Proof. intros Hp. cbn. apply (foldl_closed Q); auto. Qed.

Lemma sinkCharges_closed node memories p : Q p → Q (value (sinkCharges workload node memories p)).
Proof. intros Hp. cbn. apply (foldl_closed Q); auto. Qed.

Lemma chargeNamed_closed instance node ports p p' : Q p → value (chargeNamed workload instance node ports p) = Some p' → Q p'.
Proof.
  revert p. induction ports as [|[i port] ports IH]; intros p Hp; cbn; [by intros [= <-]|].
  destruct (List.filter _ _) as [|b [|]]; [done| |done]. cbn. intros Hp'. eapply IH; [|exact Hp']. by apply chargeLive_closed.
Qed.

Lemma some_logged_closed m p' : Q (value m) → value (some_logged m) = Some p' → Q p'.
Proof. unfold some_logged. cbn. by intros Hm [= <-]. Qed.

Lemma storageCharges_closed instance node p p' : Q p → value (storageCharges workload instance node p) = Some p' → Q p'.
Proof.
  intros Hp. unfold storageCharges.
  destruct (portMemoryBindings instance) as [|b bs], (map_to_list (memoryBindings instance)) as [|[k m] ms]; [by intros [= <-]| | |done].
  - destruct (outputs node) as [|o os]; [by apply some_logged_closed, sinkCharges_closed|].
    destruct ms, os; try done; apply some_logged_closed; first [by apply chargeOutputs_closed|by apply chargeEach_closed].
  - set (memories := foldl _ _ _). clearbody memories. destruct (outputs node) as [|o os]; [by apply some_logged_closed, sinkCharges_closed|].
    destruct (existsb _ _); [by apply chargeNamed_closed|].
    destruct memories as [|m' [|]], os; try done;
      apply some_logged_closed; first [by apply chargeOutputs_closed|by apply chargeEach_closed].
Qed.

Lemma usageCharges_closed instance p : Q p → Q (usageCharges instance p).
Proof. intros Hp. unfold usageCharges. apply (foldl_closed Q); [|done]. intros s [k b] _. apply charge_closed. Qed.

Lemma applyRealization_closed p r : (∀ c p, Q p → Q (with_cost c p)) → Q p → Q (applyRealization workload target options p r).1.
Proof.
  intros Hcost Hp. unfold applyRealization. cbn. apply (foldl_closed Q); [intros; by apply charge_closed|].
  apply (foldl_closed Q); [intros; by apply chargeLive_closed|]. by apply Hcost.
Qed.
End closed.

(** ** The product of the decisions *)
Section product.
Context `{MLIRTiles} `{!MLIRPrint} `{AE : LayoutConstraints.AffineExprs} `{!MLIRMaps} `{!MLIRBuild} `{!MLIRMapTrees} `{!SearchTexts}.
Variable workload : WorkloadGraph.
Variable target : SearchTarget.
Variable options : MappingSearchOptions.
Variable tables : list NodeTable.
Local Abbreviation cap := (so_maxConnectionCombinations options).
Local Abbreviation specAlternatives := (specAlternatives workload target options tables).
Local Abbreviation applyRealization := (applyRealization workload target options).
Local Abbreviation extendStates := (extendStates workload target options tables).

(** Specification: every joint choice, the alternatives of each decision seen from the choices
    before it. *)
Fixpoint jointChoices (decisions : list DecisionSpec) (p : Partial) (staged : list ConnectionPlan) :
    list (Partial * list ConnectionPlan) :=
  match decisions with
  | [] => [(p, staged)]
  | spec :: decisions =>
    sortDecision options (value (specAlternatives spec p)) ≫= λ r,
      jointChoices decisions (applyRealization p r).1 (staged ++ (applyRealization p r).2)
  end.

(** The state a joint choice ends in, when the memories can hold it. *)
Definition settled (completed : list ValueLink) (choice : Partial * list ConnectionPlan) : option Partial :=
  if value (capacityOk target options choice.1)
  then Some (published choice.2 (partialId (chosen choice.1)) (releaseCompleted choice.1 completed))
  else None.

(** One leaf of the walk. *)
Definition leafStep (completed : list ValueLink) (w : Extension) (choice : Partial * list ConnectionPlan) : Extension :=
  if capped w then w else value (finishState target options completed w choice.1 choice.2).

Lemma leafStep_capped completed w cs : capped w = true → foldl (leafStep completed) w cs = w.
Proof. intros Hw. induction cs as [|c cs IH]; cbn; [done|]. unfold leafStep at 2. by rewrite Hw. Qed.

Lemma decisionStep_leaves completed decisions w p staged :
  value (decisionStep workload target options tables completed decisions w p staged) =
  foldl (leafStep completed) w (jointChoices decisions p staged).
Proof.
  revert w p staged. induction decisions as [|spec decisions IH]; intros w p staged.
  - cbn. unfold leafStep. by destruct (capped w).
  - cbn [decisionStep jointChoices]. destruct (capped w) eqn:Hw; [by rewrite leafStep_capped|].
    rewrite foldl_bind. cbn [andThen value]. rewrite fold_logged_value. clear Hw.
    generalize (sortDecision options (value (specAlternatives spec p))). intros rs. revert w.
    induction rs as [|r rs IHrs]; intros w; [done|]. cbn [foldl].
    assert (value (if capped w then done w else
      let '(next, plans) := applyRealization p r in decisionStep workload target options tables completed decisions w next (staged ++ plans)) =
      foldl (leafStep completed) w (jointChoices decisions (applyRealization p r).1 (staged ++ (applyRealization p r).2))) as ->.
    { destruct (capped w) eqn:Hw; [by rewrite leafStep_capped|]. destruct (applyRealization p r). apply IH. }
    apply IHrs.
Qed.

Lemma leaves_spec completed w cs : capped w = false → examined w <= cap →
  foldl (leafStep completed) w cs =
  mkExtension (Z.min (examined w + Z.of_nat (length cs)) cap) (bool_decide (cap < examined w + Z.of_nat (length cs)))
    (extended w ++ omap (settled completed) (take (Z.to_nat (cap - examined w)) cs)).
Proof.
  revert w. induction cs as [|c cs IH]; intros w Hw He.
  - cbn. rewrite take_nil, app_nil_r. destruct w as [e k out]. cbn in *. subst k. f_equal; [lia|].
    symmetry. apply bool_decide_eq_false. lia.
  - cbn [foldl]. unfold leafStep at 2, finishState. rewrite Hw.
    destruct (decide (examined w = cap)) as [Heq|Hne].
    + cbn [done value]. rewrite leafStep_capped by done. rewrite <- Heq, Z.sub_diag. cbn.
      rewrite app_nil_r. f_equal; [lia|]. symmetry. apply bool_decide_eq_true. lia.
    + cbn [andThen value]. replace (Z.to_nat (cap - examined w)) with (S (Z.to_nat (cap - (examined w + 1)))) by lia.
      cbn [firstn length omap list_omap]. unfold settled at 1.
      assert (Z.of_nat (S (length cs)) = 1 + Z.of_nat (length cs)) as -> by lia. rewrite Z.add_assoc.
      destruct (value (capacityOk target options c.1)); cbn [negb];
        (rewrite IH; [|cbn; done|cbn; lia]); cbn; [by rewrite <- app_assoc|done].
Qed.

(** The decisions a placement makes, once the instance is placed. *)
Definition decisionsOf (parent : Partial) (nodeIndex : nat) (table : NodeTable) (c : Choice) : option DecisionList :=
  p ← value (placeInstance workload tables parent table c);
  Some (value (buildDecisionSpecs workload target tables (with_cost (addCost (p_cost p) (e_cost (c_entry c))) p) nodeIndex)).
Definition joint (d : DecisionList) : list (Partial * list ConnectionPlan) := jointChoices (specs d) (base d) [].

Lemma extendStates_value parent nodeIndex table c : 0 <= cap →
  value (extendStates parent nodeIndex table c) =
    match decisionsOf parent nodeIndex table c with
    | None => []
    | Some d => omap (settled (completedLinks d)) (take (Z.to_nat cap) (joint d))
    end ∧
  (Truncate ∉ log (extendStates parent nodeIndex table c) → ∀ d, decisionsOf parent nodeIndex table c = Some d →
   Z.of_nat (length (joint d)) <= cap).
Proof.
  intros Hcap. unfold SearchBranch.extendStates, decisionsOf. cbn [andThen value log].
  destruct (value (placeInstance workload tables parent table c)) as [p|]; cbn [mbind option_bind]; [|by cbn].
  set (d := value (buildDecisionSpecs _ _ _ _ _)). cbn [andThen value log]. rewrite decisionStep_leaves.
  rewrite leaves_spec by (cbn; lia). cbn [extended capped examined]. rewrite Z.add_0_l, Z.sub_0_r. split; [done|].
  intros Hcut ? [= <-]. apply Znot_gt_le. intros Hgt. apply Hcut. rewrite !elem_of_app. right. right. right.
  left. unfold joint, d in Hgt. destruct (bool_decide _) eqn:Hb; [by left|]. apply bool_decide_eq_false in Hb. lia.
Qed.

(** C2: [extendStates] is the product of the decisions it makes.  The walk that tries
    alternatives best first, stops at the cap and carries charges along yields exactly the
    joint choices in lexicographic order, cut at the cap and less those the memories cannot
    hold; and when it reports no truncation it has yielded them all. *)
Theorem extendStates_product parent nodeIndex table c : 0 <= cap →
  (decisionsOf parent nodeIndex table c = None → value (extendStates parent nodeIndex table c) = []) ∧
  ∀ d, decisionsOf parent nodeIndex table c = Some d →
    value (extendStates parent nodeIndex table c) = omap (settled (completedLinks d)) (take (Z.to_nat cap) (joint d)) ∧
    (Truncate ∉ log (extendStates parent nodeIndex table c) →
     value (extendStates parent nodeIndex table c) = omap (settled (completedLinks d)) (joint d)).
Proof.
  intros Hcap. destruct (extendStates_value parent nodeIndex table c Hcap) as [Hv Hl]. split; [by intros Hd; rewrite Hd in Hv|].
  intros d Hd. rewrite Hd in Hv. split; [done|]. intros Hcut. rewrite Hv. f_equal. apply take_ge. specialize (Hl Hcut d Hd). lia.
Qed.

(** What every decision leaves alone. *)
Lemma joint_closed (Q : Partial → Prop) ds p staged q :
  (∀ memory bytes p, Q p → Q (charge memory bytes p)) → (∀ v memory bytes p, Q p → Q (chargeLive v memory bytes p)) →
  (∀ c p, Q p → Q (with_cost c p)) → Q p → q ∈ jointChoices ds p staged → Q q.1.
Proof.
  intros Hc Hl Hcost. revert p staged. induction ds as [|d ds IH]; intros p staged Hp Hq; cbn in Hq.
  - by apply list_elem_of_singleton in Hq as ->.
  - apply list_elem_of_bind in Hq as (r & Hq & _). eapply IH; [|exact Hq]. by apply (applyRealization_closed workload target options Q).
Qed.

Lemma buildDecisions_closed (Q : Partial → Prop) p nodeIndex :
  (∀ l p, Q p → Q (with_linked l p)) → Q p → Q (base (value (buildDecisionSpecs workload target tables p nodeIndex))).
Proof.
  intros Hlinked Hp. unfold buildDecisionSpecs. apply (fold_logged_closed (λ d, Q (base d))); [|done].
  intros d [i link] _ Hd. unfold addDecisions. destruct (bool_decide _ || _ || _); [done|].
  destruct (isInternal _ _); [by apply Hlinked|]. cbn [andThen value].
  destruct (decide _); by apply Hlinked.
Qed.

(** Only placing an instance changes what is chosen. *)
Lemma extend_chosen parent nodeIndex table c q : 0 <= cap → q ∈ value (extendStates parent nodeIndex table c) →
  ∃ indices, coveredIndices tables parent (c_entry c) = Some indices ∧ chosen q = choose c indices (chosen parent).
Proof.
  intros Hcap Hq. destruct (extendStates_value parent nodeIndex table c Hcap) as [Hv _]. rewrite Hv in Hq. clear Hv.
  destruct (decisionsOf _ _ _ _) as [d|] eqn:Hd; [|by apply not_elem_of_nil in Hq].
  apply list_elem_of_omap in Hq as ([p' staged] & Hin & Hs). unfold settled in Hs.
  destruct (value (capacityOk _ _ _)); [|done]. injection Hs as <-. cbn [fst snd].
  assert (∀ links p, chosen (releaseCompleted p links) = chosen p) as Hrelease.
  { intros links. induction links as [|l links IH]; intros p; cbn; [done|]. unfold releaseCompleted in IH. rewrite IH.
    unfold release. by destruct (liveValueCharges p !! _). }
  cbn. rewrite Hrelease. apply list_elem_of_lookup in Hin as [k Hk]. apply lookup_take_Some in Hk as [Hk _].
  apply list_elem_of_lookup_2 in Hk. unfold decisionsOf in Hd. 
  destruct (value (placeInstance workload tables parent table c)) as [p|] eqn:Hp; [|done]. injection Hd as <-.
  unfold placeInstance in Hp. destruct (coveredIndices tables parent (c_entry c)) as [indices|]; [|done].
  exists indices. split; [done|]. cbn [andThen value] in Hp.
  destruct (value (storageCharges _ _ _ _)) as [p1|] eqn:Hp1; [|done]. injection Hp as <-.
  set (Q := λ p, chosen p = choose c indices (chosen parent)).
  assert (Q (usageCharges (c_instance c) p1)) as HQ.
  { apply (usageCharges_closed Q); [done|]. eapply (storageCharges_closed workload Q); [done|done| |exact Hp1]. done. }
  assert (Q p') as HQ'; [|exact HQ'].
  change p' with (p', staged).1. eapply (joint_closed Q); [done|done|done| |exact Hk].
  apply (buildDecisions_closed Q); [done|]. exact HQ.
Qed.
End product.

(** ** Covers *)
Section covers.
Context `{MLIRTiles} `{!MLIRPrint} `{AE : LayoutConstraints.AffineExprs} `{!MLIRMaps} `{!MLIRBuild} `{!MLIRMapTrees} `{!SearchTexts}.
Variable workload : WorkloadGraph.
Variable target : SearchTarget.
Variable options : MappingSearchOptions.
Variable tables : list NodeTable.
Local Abbreviation nodeAt := (nodeAt tables).

(** A choice holds exactly the nodes its instance covers, whichever of them it is seen at. *)
Record Covers (p : Partial) : Prop := {
  cov_length : length (chosen p) = length tables;
  cov_entry i c : chosen p !! i = Some (Some c) →
    ∃ table, tables !! (c_place c).1 = Some table ∧ t_instances table !! (c_place c).2 = Some (c_entry c);
  cov_node i c : chosen p !! i = Some (Some c) → nodeAt i ∈ e_coveredNodes (c_entry c);
  cov_all i c id : chosen p !! i = Some (Some c) → id ∈ e_coveredNodes (c_entry c) →
    ∃ j, (j < length tables)%nat ∧ nodeAt j = id ∧ chosen p !! j = Some (Some c);
}.

Lemma start_covers : Covers (start tables).
Proof.
  split; cbn; [by rewrite length_replicate|..]; intros i c; [|intros|intros id]; rewrite lookup_replicate in *; naive_solver.
Qed.

Lemma choose_length c indices l : length (choose c indices l) = length l.
Proof. unfold choose. revert l. induction indices as [|i js IH]; intros l; cbn; [done|]. by rewrite IH, length_insert. Qed.

Lemma choose_lookup c indices l j : choose c indices l !! j =
  if bool_decide (j ∈ indices) then (λ _, Some c) <$> l !! j else l !! j.
Proof.
  unfold choose. revert l. induction indices as [|i js IH]; intros l; cbn [foldl].
  - by rewrite bool_decide_false by apply not_elem_of_nil.
  - rewrite IH. destruct (decide (i = j)) as [->|Hne].
    + rewrite (bool_decide_true (j ∈ j :: js)) by by left.
      assert (<[j:=Some c]> l !! j = (λ _, Some c) <$> l !! j) as ->.
      { destruct (l !! j) eqn:Hj; cbn; [by apply list_lookup_insert_eq; eapply lookup_lt_Some|].
        apply lookup_ge_None. rewrite length_insert. by apply lookup_ge_None. }
      destruct (bool_decide (j ∈ js)); by destruct (l !! j).
    + rewrite list_lookup_insert_ne by done.
      by rewrite (bool_decide_ext (j ∈ i :: js) (j ∈ js)) by (rewrite elem_of_cons; naive_solver).
Qed.

Lemma tableIndexByNode_spec id j : tableIndexByNode tables id = Some j → (j < length tables)%nat ∧ nodeAt j = id.
Proof.
  unfold tableIndexByNode, SearchBranch.nodeAt. intros ([j' t] & Hf & ->)%fmap_Some. apply list_find_Some in Hf as (Ht & Hid & _).
  cbn. rewrite Ht. split; [by eapply lookup_lt_Some|done].
Qed.

Lemma coveredIndices_spec p entry indices : coveredIndices tables p entry = Some indices →
  Forall2 (λ id j, (j < length tables)%nat ∧ nodeAt j = id ∧ chosen p !! j = Some None) (e_coveredNodes entry) indices.
Proof.
  unfold coveredIndices. intros Hm%mapM_Some. eapply Forall2_impl; [exact Hm|]. cbn. intros id j Hj.
  destruct (tableIndexByNode tables id) as [j'|] eqn:Ht; [|done]. cbn in Hj.
  destruct (chosen p !! j') as [[]|] eqn:Hc; [done| |done]. injection Hj as <-.
  apply tableIndexByNode_spec in Ht as [??]. done.
Qed.

(** An instance offered by the tables, placed on free nodes, leaves a cover. *)
Definition offered (c : Choice) : Prop :=
  ∃ table, tables !! (c_place c).1 = Some table ∧ t_instances table !! (c_place c).2 = Some (c_entry c).

Lemma choose_covers p q c indices : Covers p → offered c → coveredIndices tables p (c_entry c) = Some indices →
  chosen q = choose c indices (chosen p) → Covers q.
Proof.
  intros Hp Hc Hi%coveredIndices_spec Hq.
  assert (∀ i c', chosen q !! i = Some (Some c') → (i ∈ indices ∧ c' = c) ∨ (i ∉ indices ∧ chosen p !! i = Some (Some c'))) as Hold.
  { intros i c'. rewrite Hq, choose_lookup. case_bool_decide; [|by right]. destruct (chosen p !! i); [|done]. intros [= <-]. by left. }
  assert (∀ j, j ∈ indices → chosen p !! j = Some None ∧ chosen q !! j = Some (Some c) ∧ nodeAt j ∈ e_coveredNodes (c_entry c) ∧
    (j < length tables)%nat) as Hnew.
  { intros j Hj. rewrite Hq, choose_lookup, bool_decide_true by done. apply list_elem_of_lookup in Hj as [k Hk].
    apply (Forall2_lookup_r _ _ _ _ _ Hi) in Hk as (id & Hid & ? & <- & ->). split_and!; [done..|by eapply list_elem_of_lookup_2|done]. }
  split.
  - rewrite Hq, choose_length. apply Hp.
  - intros i c' [[_ ->]|[_ Hi']]%Hold; [done|]. by eapply (cov_entry p Hp).
  - intros i c' [[Hin ->]|[_ Hi']]%Hold; [by apply Hnew|]. by eapply (cov_node p Hp).
  - intros i c' id [[Hin ->]|[_ Hi']]%Hold Hid.
    + apply list_elem_of_lookup in Hid as [k Hk]. apply (Forall2_lookup_l _ _ _ _ _ Hi) in Hk as (j & Hj & ? & ? & ?).
      exists j. split_and!; [done..|]. apply Hnew. by eapply list_elem_of_lookup_2.
    + destruct (cov_all p Hp i c' id Hi' Hid) as (j & ? & ? & Hj). exists j. split_and!; [done..|].
      rewrite Hq, choose_lookup, bool_decide_false; [done|]. intros Hin. apply Hnew in Hin as [Hn _]. congruence.
Qed.

(** *** Counting the free nodes *)
Definition free (p : Partial) : nat := length (filter (λ c, c = None) (chosen p)).

Lemma filter_fewer (l l' : list (option Choice)) : Forall2 (λ x y, x = None ∨ y = x) l l' →
  (length (filter (λ c, c = None) l') ≤ length (filter (λ c, c = None) l))%nat ∧
  (length (filter (λ c, c = None) l') = length (filter (λ c, c = None) l) → l' = l) ∧
  (∀ i c, l !! i = Some None → l' !! i = Some (Some c) →
    S (length (filter (λ c, c = None) l')) = length (filter (λ c, c = None) l) → ∀ j, j ≠ i → l' !! j = l !! j).
Proof.
  induction 1 as [|x y l l' Hxy Hl (Hle & Heq & Hone)]; [naive_solver|].
  destruct x as [x|], y as [y|]; rewrite !filter_cons; destruct Hxy as [|Hxy]; try done.
  - injection Hxy as ->. rewrite !decide_False by done. split_and!; [done|by intros ->%Heq|].
    intros [|i] c; [done|]. cbn. intros Hi Hi' Hlen [|j] Hj; [done|]. cbn. eapply Hone; eauto.
  - rewrite decide_False, decide_True by done. cbn. split_and!; [lia|lia|].
    intros [|i] c; cbn; intros Hi Hi' Hlen [|j] Hj; try done; cbn.
    + by rewrite Heq by lia.
    + exfalso. assert (l' = l) as -> by (apply Heq; lia). congruence.
    + assert (l' = l) as -> by (apply Heq; lia). done.
  - rewrite !decide_True by done. cbn. split_and!; [lia|by intros [= ->%Heq]|].
    intros [|i] c; [done|]. cbn. intros Hi Hi' Hlen [|j] Hj; [done|]. cbn. eapply Hone; eauto.
  - rewrite !decide_True by done. cbn. split_and!; [lia|by intros [= ->%Heq]|].
    intros [|i] c; [done|]. cbn. intros Hi Hi' Hlen [|j] Hj; [done|]. cbn. eapply Hone; eauto.
Qed.

Lemma free_start : free (start tables) = length tables.
Proof.
  unfold free, start. cbn [chosen]. induction (length tables) as [|n IH]; [done|].
  by rewrite replicate_S, filter_cons, decide_True by done; cbn [length]; rewrite IH.
Qed.

Lemma lowestUncovered_free p node : lowestUncovered p = Some node → chosen p !! node = Some None.
Proof. unfold lowestUncovered. intros ([j c] & Hf & ->)%fmap_Some. by apply list_find_Some in Hf as (Hj & -> & _). Qed.

Lemma lowestUncovered_none p : lowestUncovered p = None ↔ free p = O.
Proof.
  unfold lowestUncovered, free. rewrite fmap_None, list_find_None, length_zero_iff_nil. split.
  - intros Hall. induction Hall as [|x xs Hx _ IH]; [done|]. by rewrite filter_cons, decide_False.
  - intros Hf. apply Forall_forall. intros c Hc ->.
    assert (@None Choice ∈ filter (λ c, c = None) (chosen p)) as Hin by by apply list_elem_of_filter.
    rewrite Hf in Hin. by apply not_elem_of_nil in Hin.
Qed.

Lemma choicesAt_offered node c : c ∈ choicesAt tables node →
  offered c ∧ ∃ table, tables !! node = Some table ∧ c_entry c ∈ t_instances table.
Proof.
  unfold choicesAt. destruct (tables !! node) as [table|] eqn:Ht; [|by intros ?%not_elem_of_nil].
  intros Hin. apply list_elem_of_lookup in Hin as [k Hk]. rewrite list_lookup_imap in Hk.
  apply fmap_Some in Hk as (entry & He & ->). split; [by exists table|]. exists table. split; [done|]. by eapply list_elem_of_lookup_2.
Qed.

(** A cover in which no instance spans two nodes. *)
Definition unfused (p : Partial) : Prop :=
  ∀ i j c c', chosen p !! i = Some (Some c) → chosen p !! j = Some (Some c') → c_place c = c_place c' → i = j.

Section extension.
Hypothesis ids_distinct : NoDup (t_node <$> tables).
Hypothesis offers : ∀ i table entry, tables !! i = Some table → entry ∈ t_instances table → t_node table ∈ e_coveredNodes entry.
Hypothesis cap_unsigned : 0 <= so_maxConnectionCombinations options.

Lemma nodeAt_inj i j : (i < length tables)%nat → (j < length tables)%nat → nodeAt i = nodeAt j → i = j.
Proof.
  unfold SearchBranch.nodeAt. intros [x Hx]%lookup_lt_is_Some [y Hy]%lookup_lt_is_Some. rewrite Hx, Hy. cbn. intros Heq.
  eapply (NoDup_lookup _ i j (t_node x) ids_distinct); rewrite list_lookup_fmap; [by rewrite Hx|]. rewrite Hy. cbn. by rewrite Heq.
Qed.

Lemma extend_step p node table c q : Covers p → lowestUncovered p = Some node → c ∈ choicesAt tables node →
  q ∈ value (extendStates workload target options tables p node table c) →
  Covers q ∧ (free q < free p)%nat ∧ (unfused p → S (free q) = free p → unfused q).
Proof.
  intros Hp Hnode%lowestUncovered_free Hc Hq. apply choicesAt_offered in Hc as (Hoff & t & Ht & Hentry).
  apply extend_chosen in Hq as (indices & Hi & Hq); [|done]. split; [by eapply choose_covers|].
  pose proof (coveredIndices_spec _ _ _ Hi) as Hspec.
  assert (nodeAt node ∈ e_coveredNodes (c_entry c)) as Hcov.
  { unfold SearchBranch.nodeAt. rewrite Ht. cbn. by eapply offers. }
  assert ((node < length tables)%nat) as Hlt by by eapply lookup_lt_Some.
  assert (node ∈ indices) as Hin.
  { apply list_elem_of_lookup in Hcov as [k Hk]. apply (Forall2_lookup_l _ _ _ _ _ Hspec) in Hk as (j & Hj & ? & Heq & _).
    apply nodeAt_inj in Heq as ->; [|done..]. by eapply list_elem_of_lookup_2. }
  assert (chosen q !! node = Some (Some c)) as Hqnode by by rewrite Hq, choose_lookup, bool_decide_true, Hnode by done.
  assert (Forall2 (λ x y, x = None ∨ y = x) (chosen p) (chosen q)) as Hall.
  { apply Forall2_same_length_lookup_2; [by rewrite Hq, choose_length|]. intros j x y Hx. rewrite Hq, choose_lookup, Hx.
    case_bool_decide as Hj; cbn; intros [= <-]; [|by right]. left.
    apply list_elem_of_lookup in Hj as [k Hk]. apply (Forall2_lookup_r _ _ _ _ _ Hspec) in Hk as (id & _ & _ & _ & Hn). congruence. }
  destruct (filter_fewer _ _ Hall) as (Hle & Heq & Hone). fold (free p) (free q) in Hle, Heq, Hone. split.
  { destruct (decide (free q = free p)) as [Hf%Heq|]; [|lia]. rewrite Hf in Hqnode. congruence. }
  intros Hunf Hfree i j c1 c2 Hc1 Hc2 Hplace.
  specialize (Hone node c Hnode Hqnode Hfree).
  assert (∀ i c', i ≠ node → chosen q !! i = Some (Some c') → c_place c' = c_place c → False) as Hother.
  { intros k c' Hk Hck Hpl. rewrite Hone in Hck by done. destruct (cov_entry p Hp k c' Hck) as (t1 & Ht1 & He1).
    destruct Hoff as (t2 & Ht2 & He2). rewrite Hpl in Ht1, He1. assert (t1 = t2) as -> by congruence.
    assert (c_entry c' = c_entry c) as Hec by congruence. rewrite <- Hec in Hcov.
    destruct (cov_all p Hp k c' _ Hck Hcov) as (j' & Hj' & Hn & Hcj). apply nodeAt_inj in Hn as ->; [|done..]. congruence. }
  destruct (decide (i = node)) as [->|Hin1], (decide (j = node)) as [->|Hin2]; [done|..].
  - exfalso. apply (Hother j c2); [done..|]. rewrite <- Hplace. congruence.
  - exfalso. apply (Hother i c1); [done..|]. rewrite Hplace. congruence.
  - rewrite Hone in Hc1, Hc2 by done. by eapply Hunf.
Qed.
End extension.
End covers.

(** ** A concrete search

    Two vector operations, one after the other; rules read from text; the machine of
    [Placement]. *)
Section witness.
#[local] Existing Instance sample_types.
#[local] Existing Instance sample_text.
#[local] Existing Instance sample_print.
#[local] Existing Instance LayoutConstraints.plainAffine.
#[local] Existing Instance sample_tiles.
#[local] Existing Instance sample_maps.
#[local] Existing Instance sample_build.
#[local] Existing Instance sample_trees.
Definition sample_search_texts : SearchTexts :=
  {| reasonText _ := "reason"; placementText _ := "placement"; footprintText _ := "footprint" |}.
#[local] Existing Instance sample_search_texts.

Definition sampleValue (id : nat) : WorkloadValue :=
  mkValue id None ("v" +:+ to_string (Z.of_nat id)) (bool_decide (id = 0%nat)) false None None.
Definition two_vectors : WorkloadGraph :=
  mkGraph [named "micro.vector" 0 [0%nat] [1%nat]; named "micro.vector" 1 [1%nat] [2%nat]] (sampleValue <$> seq 0 3).

Definition ruleText (name pattern : string) : string :=
  "rule " +:+ name +:+ " { match " +:+ pattern +:+ " require executor kind worker; bundle " +:+ LlkMap.quoted "b" +:+ "; emit " +:+
  LlkMap.quoted "e" +:+ "; }".
Definition fused_rule : string :=
  ruleText "t.fuse" "graph { node a: micro.vector(); node b: micro.vector(); edge a.result -> b.operand0; }".
Definition single_rule : string := ruleText "t.vec" "micro.vector();".

Definition sample_search_options (m : SearchMode) (k : Z) : MappingSearchOptions :=
  mkSearchOptions m 64 k 64 256 64 8 64 (2 ^ 29) true true latency_first None false.
Definition searching (text : string) : SearchTarget := mkSearchTarget "sample" sample_target (rulesOf text) None.

Definition sample_tables_of (text : string) (m : SearchMode) : list NodeTable :=
  match nodeTables two_vectors (searching text) (LlkMap.mkContext 2 "f32") (sample_search_options m 8) ∅ ∅ (mkAxes "" "") with
  | Ok tables => value tables
  | Err _ => []
  end.

Lemma sample_tables_ok text m : sample_tables_of text m ≠ [] → TablesOk two_vectors (sample_tables_of text m).
Proof.
  unfold sample_tables_of. destruct (nodeTables _ _ _ _ _ _ _) as [l|] eqn:Hl; [|done]. intros _. by eapply nodeTables_ok.
Qed.

(** Two vectors in [dram] and a reduction of both results in [rf]; two links move a value. *)
Definition quotedRule (name pattern kind bundle : string) : string :=
  "rule " +:+ name +:+ " { match " +:+ pattern +:+ "(); require executor kind worker; require memory kind " +:+ kind +:+
  "; bundle " +:+ LlkMap.quoted bundle +:+ "; emit " +:+ LlkMap.quoted "e" +:+ "; }".
Definition moving_rules : RuleRegistry := rulesOf (quotedRule "t.load" "micro.vector" "dram" "b" +:+ " " +:+ quotedRule "t.use" "micro.reduce" "rf" "c").
Definition twin_links (capacity : Z) : MachineModel :=
  mkMachine 2 0 "twin" "" None 4 (mkSync 10 5) [MachineModel.sample_group; MachineModel.sample_pe0; MachineModel.sample_pe1]
    [mkMemory "dram.0" "dram" "pe.1" 65536 64 ["row"] None (double_of_Z 16) 100 None;
     mkMemory "rf.0" "rf" "pe.0" capacity 64 ["row"] None (double_of_Z 64) 10 None] []
    [mkEngine "dma.0" "dma" ["transfer"] "pe.1" 1 1 0]
    [Routing.toy_link "l0" "dram.0" "rf.0" 20 ["dma.0"]; Routing.toy_link "l1" "dram.0" "rf.0" 40 ["dma.0"]] 0.
Definition moved : WorkloadGraph :=
  mkGraph [named "micro.vector" 0 [0%nat] [1%nat]; named "micro.vector" 1 [0%nat] [2%nat]; named "micro.reduce" 2 [1%nat; 2%nat] [3%nat]]
    (sampleValue <$> seq 0 4).
Definition moving (capacity : Z) : SearchTarget := mkSearchTarget "twin" (mkTarget (twin_links capacity) []) moving_rules None.
Definition moving_options (combinations : Z) : MappingSearchOptions :=
  mkSearchOptions Exact 64 8 64 256 64 8 combinations (2 ^ 29) true false latency_first None false.
Definition moving_tables (capacity combinations : Z) : list NodeTable :=
  match nodeTables moved (moving capacity) (LlkMap.mkContext 2 "f32") (moving_options combinations) ∅ ∅ (mkAxes "" "") with
  | Ok tables => value tables
  | Err _ => []
  end.
Definition moving_extended (capacity combinations : Z) (tables : list NodeTable) (x : Partial * NodeTable * Choice) (k : nat) : Logged (list Partial) :=
  extendStates moved (moving capacity) (moving_options combinations) tables x.1.1 k x.1.2 x.2.
Definition moving_joint (capacity combinations : Z) (tables : list NodeTable) : DecisionList → list (Partial * list ConnectionPlan) :=
  joint moved (moving capacity) (moving_options combinations) tables.
Definition moving_decisions (capacity : Z) (tables : list NodeTable) (x : Partial * NodeTable * Choice) : option DecisionList :=
  decisionsOf moved (moving capacity) tables x.1.1 2 x.1.2 x.2.
(** The state that places the first [k] nodes, and what is placed at the next. *)
Fixpoint placing (capacity combinations : Z) (tables : list NodeTable) (k : nat) : option (Partial * NodeTable * Choice) :=
  p ← (match k with
       | O => Some (start tables)
       | S j => x ← placing capacity combinations tables j; head (value (moving_extended capacity combinations tables x j))
       end);
  table ← tables !! k;
  c ← head (choicesAt tables k);
  Some (p, table, c).
(** At the reduction: the decisions, their joint choices, the states, and whether it was cut. *)
Local Abbreviation reduced capacity combinations sizes :=
  (match placing capacity combinations (moving_tables capacity combinations) 2 with
   | None => False
   | Some x =>
     match moving_decisions capacity (moving_tables capacity combinations) x with
     | None => False
     | Some d =>
       (length (specs d), length (moving_joint capacity combinations (moving_tables capacity combinations) d),
        length (value (moving_extended capacity combinations (moving_tables capacity combinations) x 2)),
        existsb (λ e, match e with Truncate => true | _ => false end)
          (log (moving_extended capacity combinations (moving_tables capacity combinations) x 2))) = sizes
     end
   end).

(** Two values, each by either link: four joint choices.  A cap of three cuts the last; a
    register file that holds two tiles, not the three it would have to, leaves none. *)
Example moving_cut : reduced 65536 3 (2%nat, 4%nat, 3%nat, true).
Proof. vm_compute. reflexivity. Qed.
Example moving_whole : reduced 65536 64 (2%nat, 4%nat, 4%nat, false).
Proof. vm_compute. reflexivity. Qed.
Example moving_full : reduced 8192 64 (2%nat, 4%nat, 0%nat, false).
Proof. vm_compute. reflexivity. Qed.

Lemma quadruple_eq {A B C D} (a a' : A) (b b' : B) (c c' : C) (d d' : D) :
  (a, b, c, d) = (a', b', c', d') → a = a' ∧ b = b' ∧ c = c' ∧ d = d'.
Proof. by intros [= -> -> -> ->]. Qed.
Lemma not_truncated l : existsb (λ e, match e with Truncate => true | _ => false end) l = false → Truncate ∉ l.
Proof. intros He Hin. apply not_true_iff_false in He. apply He. apply existsb_exists. exists Truncate. by rewrite <- list_elem_of_In. Qed.

(** The theorem at the reduction: three of the four joint choices under a cap of three, all
    four when nothing is cut, and none when the register file holds none. *)
Lemma extendStates_product_witness :
  (∃ x d, moving_decisions 65536 (moving_tables 65536 3) x = Some d ∧
    length (moving_joint 65536 3 (moving_tables 65536 3) d) = 4%nat ∧
    length (omap (settled (moving 65536) (moving_options 3) (completedLinks d))
      (take 3 (moving_joint 65536 3 (moving_tables 65536 3) d))) = 3%nat) ∧
  (∃ x d, moving_decisions 65536 (moving_tables 65536 64) x = Some d ∧
    length (moving_joint 65536 64 (moving_tables 65536 64) d) = 4%nat ∧
    length (omap (settled (moving 65536) (moving_options 64) (completedLinks d))
      (moving_joint 65536 64 (moving_tables 65536 64) d)) = 4%nat) ∧
  (∃ x d, moving_decisions 8192 (moving_tables 8192 64) x = Some d ∧
    length (moving_joint 8192 64 (moving_tables 8192 64) d) = 4%nat ∧
    omap (settled (moving 8192) (moving_options 64) (completedLinks d)) (moving_joint 8192 64 (moving_tables 8192 64) d) = []).
Proof.
  split; [|split].
  - pose proof moving_cut as H. destruct (placing _ _ _ _) as [x|]; [|destruct H].
    destruct (moving_decisions _ _ x) as [d|] eqn:Hd; [|destruct H]. apply quadruple_eq in H as (_ & Hj & Hn & _). exists x, d. split; [exact Hd|]. split; [exact Hj|].
    refine (eq_trans (f_equal length (eq_sym _)) Hn).
    exact (proj1 ((proj2 (extendStates_product moved (moving 65536) (moving_options 3) (moving_tables 65536 3) x.1.1 2 x.1.2 x.2 ltac:(done))) d Hd)).
  - pose proof moving_whole as H. destruct (placing _ _ _ _) as [x|]; [|destruct H].
    destruct (moving_decisions _ _ x) as [d|] eqn:Hd; [|destruct H]. apply quadruple_eq in H as (_ & Hj & Hn & Hcut). exists x, d. split; [exact Hd|]. split; [exact Hj|].
    refine (eq_trans (f_equal length (eq_sym _)) Hn).
    exact (proj2 ((proj2 (extendStates_product moved (moving 65536) (moving_options 64) (moving_tables 65536 64) x.1.1 2 x.1.2 x.2 ltac:(done))) d Hd)
      (not_truncated _ Hcut)).
  - pose proof moving_full as H. destruct (placing _ _ _ _) as [x|]; [|destruct H].
    destruct (moving_decisions _ _ x) as [d|] eqn:Hd; [|destruct H]. apply quadruple_eq in H as (_ & Hj & Hn & Hcut). exists x, d. split; [exact Hd|]. split; [exact Hj|].
    apply nil_length_inv. refine (eq_trans (f_equal length (eq_sym _)) Hn).
    exact (proj2 ((proj2 (extendStates_product moved (moving 8192) (moving_options 64) (moving_tables 8192 64) x.1.1 2 x.1.2 x.2 ltac:(done))) d Hd)
      (not_truncated _ Hcut)).
Defined.
End witness.
