(* ===== verification/CoveringSearch.v ===== *)
(** The covering search: the end of lib/Mapping/CoveringSearch.cpp and its results.

    A complete cover becomes a proposal; a proposal is scored, or evaluated by the caller, and
    kept or not.  Three walks find the covers: the deterministic and the exact one depth
    first, the beam level by level.  The theorems: exact retains every complete cover the
    branching reaches; deterministic retains the plan exact would retain first; the beam
    retains only covers in which no instance spans two nodes; and what [search] returns is
    ranked, cut at [topK] and counted. *)
From S2P Require Import Prelude Float MachineModel CostModel Diagnostics LayoutConstraints TileFacts MappingRules MappingPlan StorageFootprint Placement RuleMatching Connections Signatures PlanEvents Sorting SourceGraph.
From S2P Require Import Routing EventSchedule WorkloadGraph.
From S2P Require Import SearchTables SearchBranch.
Open Scope string_scope.
Open Scope Z_scope.

(** The text of the errors of [buildPlanEvents]. *)
Class PlanEventTexts := { planEventText : plan_event_error → string }.

Record MappingSearchResult `{MLIRPrint} := mkResult {
  result_plans : list CoveringPlan;
  result_truncated : bool;
  connectionChoicesUnexplored : bool;
  frontier : FailureFrontier;
  result_expandedStates : Z;
  result_candidateCount : Z;
  result_instanceCount : Z;
  result_routeCount : Z;
  planCount : Z;
  workloadHash : Z;
}.
Arguments mkResult {_ _ _}.

Section search.
Context `{MLIRTiles} `{!MLIRPrint} `{AE : LayoutConstraints.AffineExprs} `{!MLIRMaps} `{!MLIRBuild} `{!MLIRMapTrees} `{!SearchTexts} `{!PlanEventTexts} `{!StdSort}.
Variable cast_out_of_range : double → Z.
Variable workload : WorkloadGraph.
Variable target : SearchTarget.
Variable layoutContext : LayoutContext.
Variable options : MappingSearchOptions.
Variable binding : option SearchBinding.
Variable boundLayouts : gmap string string.
Variable boundAxes : BoundAxes.
Local Abbreviation model := (Placement.machine (place target)).

(** ** Proposals *)
Section walks.
Variable tables : list NodeTable.
Local Abbreviation extendStates := (extendStates workload target options tables).
Local Abbreviation elementsForValue := (elementsForValue workload).

(** The fields of a placement's order, and the order: the first that differ decide. *)
Fixpoint strings_ltb (xs ys : list string) : bool :=
  match xs, ys with
  | _, [] => false
  | [], _ :: _ => true
  | x :: xs, y :: ys => if str_ltb x y then true else if str_ltb y x then false else strings_ltb xs ys
  end.
Definition placementBefore (lhs rhs : PlanPlacement) : bool :=
  let texts p := [[pp_executor p]; sortedBindings (pp_memories p); sortedPortMemories (pp_portMemoryBindings p);
                  sortedBindings (pp_layouts p); sortedBindings (pp_computeBindings p)] in
  (fix go xs ys :=
     match xs, ys with
     | x :: xs, y :: ys => if decide (x = y) then go xs ys else strings_ltb x y
     | _, _ =>
       if decide (pp_node lhs = pp_node rhs) then bool_decide (pp_instance lhs < pp_instance rhs)
       else bool_decide (pp_node lhs < pp_node rhs)%nat
     end) (texts lhs) (texts rhs).

Definition computeRequirementsOf (rule : RuleDef) : list string :=
  sort_strings (remove_dups (kr_kind <$> List.filter (λ q, bool_decide (role q = "compute")) (kindRequirements rule))).

Definition placementOf (table : NodeTable) (c : Choice) : PlanPlacement :=
  let instance := c_instance c in
  let entry := c_entry c in
  mkPlacement (t_node table) (ci_id instance) (r_id (e_rule entry)) (ci_bundle instance) (executorOf instance)
    (memoryBindings instance) (layoutBindings instance) (layoutSolutions instance) (computeBindings instance)
    (computeRequirementsOf (e_rule entry)) (e_resolvedParameters entry) (portMemoryBindings instance) (e_cost entry)
    (from_option (λ port, elementsForValue (p_value port)) 0 (head (outputs (t_workload table)))) (e_measuredCycles entry).

Definition portBefore (lhs rhs : PortRef) : bool :=
  if decide (ref_node lhs = ref_node rhs) then
    if decide (direction lhs = direction rhs) then bool_decide (ref_index lhs < ref_index rhs)%nat
    else bool_decide (direction lhs = Input)
  else bool_decide (ref_node lhs < ref_node rhs)%nat.

Definition connectionOf (gathers : gmap Z (list PortRef)) (plan : ConnectionPlan) : PlanConnection :=
  mkPlanConnection (cp_id plan) (cp_value plan) (cp_kind plan) (memoryRoute plan) (transferEngines plan) (transform plan)
    (merge_sort Z.le (consumers plan)) (gatherSemantics plan) (concatAxis plan) (default [] (gathers !! cp_id plan))
    (producerPort plan) (std_sort portBefore (consumerPorts plan)) [] [] (cp_cost plan) (elementsForValue (cp_value plan))
    (findValue workload (cp_value plan) ≫= v_type) (cp_measuredCycles plan).

Definition placedChoices (p : Partial) : list (NodeTable * Choice) :=
  omap (λ tc, c ← tc.2; Some (tc.1, c)) (zip tables (chosen p)).

Definition buildProposal (st : SearchState) (p : Partial) : CoveringPlan :=
  mkPlan 0 (from_option sb_stableHash 0 binding) (from_option candidateId "" binding)
    (merge_sort Z.le ((λ tc, ci_id (c_instance tc.2)) <$> placedChoices p))
    (merge_sort Z.le (cp_id <$> p_connections p))
    (std_sort placementBefore ((λ tc, placementOf tc.1 tc.2) <$> placedChoices p))
    (std_sort (λ lhs rhs, bool_decide (pc_id lhs < pc_id rhs)) (connectionOf (gatherProducerPorts st) <$> p_connections p))
    (from_option sb_values ∅ binding) (p_cost p) (p_cost p) MappingPlan.Accumulation None [] "" 1 ""
    (mkPlanDiagnostics [] [] (s_truncated st) [] true [] []) 0 true 0 0 0 0 0 [] [] [] [].

(** ** Retaining *)
Definition with_score (cost : Cost) (source : PlanScoreSource) (notes : list string) (id : Z) (plan : CoveringPlan) : CoveringPlan :=
  mkPlan id (sourceBindingHash plan) (sourceBindingCandidate plan) (MappingPlan.instances plan) (MappingPlan.connections plan)
    (placements plan) (connectionPlans plan) (globalParameters plan) cost (accumulatedCost plan) source (analysisEvents plan)
    (shapeSamples plan) (shapeAggregation plan) (shapeMaxVariants plan) (shapeProfileCanonical plan)
    (let d := diagnostics plan in
     mkPlanDiagnostics (errors d) (warnings d) (searchTruncated d) (storageNotes d ++ notes) (physicalComplete d)
       (physicalReasons d) (physicalDecisions d))
    (schemaVersion plan) (materialized plan) (graphHash plan) (targetHash plan) (machineHash plan) (layoutHash plan)
    (ruleHash plan) (allocations plan) (synchronization plan) (steps plan) (stepEdges plan).

(** Scored by the shared scheduler, which always answers, when the events can be built. *)
Definition scored (proposal : CoveringPlan) : CoveringPlan :=
  let plan :=
    match buildPlanEvents cast_out_of_range proposal model None with
    | Ok dag => with_score (schedulePlanEvents cast_out_of_range dag model) MappingPlan.Schedule [] 0 proposal
    | Err e =>
      with_score (totalCost proposal) (scoreSource proposal)
        ["plan score: accumulation reported, not scheduled (the plan's events could not be built: " +:+ planEventText e +:+ ")"]
        0 proposal
    end in
  with_score (totalCost plan) (scoreSource plan) [] (computePlanId plan) plan.

Definition absorb (st : SearchState) (es : list Effect) : SearchState := foldl applyEffect st es.

(** A verdict of the evaluator, and whether a plan was kept. *)
Definition settle (st : SearchState) (verdict : result string CompletePlanEvaluation) : SearchState * bool :=
  match verdict with
  | Err message => (absorb st [PlanError (EvaluatorFails message)], false)
  | Ok evaluated =>
    match ev_plan evaluated, ev_rejection evaluated with
    | Some _, Some _ => (absorb st [PlanError PlanAndRejection], false)
    | None, Some rejection =>
      (absorb st ((if decide (code rejection = MemoryCapacityExceeded) then [CountCapacity] else []) ++ [Report rejection]), false)
    | None, None => (absorb st [PlanError NeitherPlanNorRejection], false)
    | Some plan, None =>
      if negb (materialized plan) || negb (physicalComplete (diagnostics plan)) then
        (absorb st [Report (mkDiagnostic UnsupportedMaterialization
           ("analysis_incomplete: partial report is not rankable" +:+
            String.concat "" ((λ w, "; " +:+ w) <$> (warnings (diagnostics plan) ++ physicalReasons (diagnostics plan))%list)))], false)
      else (keep plan st, true)
    end
  end.

Definition retain (st : SearchState) (p : Partial) : SearchState * bool :=
  let proposal := buildProposal st p in
  match evaluateCompletePlan options with
  | None => (keep (scored proposal) st, true)
  | Some evaluate => settle st (evaluate proposal)
  end.

(** ** The depth-first walks *)
Fixpoint until_stopped {S A} (body : S → A → S * bool) (s : S) (xs : list A) : S * bool :=
  match xs with
  | [] => (s, false)
  | x :: xs => let '(s, stop) := body s x in if stop then (s, true) else until_stopped body s xs
  end.

Definition failed (st : SearchState) : bool := match pendingError st with Some _ => true | None => false end.

Definition extendAt (p : Partial) (node : nat) (c : Choice) : Logged (list Partial) :=
  match tables !! node with None => done [] | Some table => extendStates p node table c end.

(** Every extension covers a node, so [length tables] levels are enough. *)
Fixpoint visit (exact : bool) (fuel : nat) (st : SearchState) (p : Partial) : SearchState * bool :=
  match lowestUncovered p with
  | None =>
    let '(st, accepted) := retain st p in
    if failed st then (st, true) else (st, negb exact && accepted)
  | Some node =>
    match fuel with
    | O => (st, false)
    | S fuel =>
      until_stopped (λ st c,
        let branches := extendAt p node c in
        until_stopped (visit exact fuel) (absorb st (log branches)) (value branches)) st (choicesAt tables node)
    end
  end.

(** ** The beam *)
Definition beamBefore (lhs rhs : Partial) : bool :=
  if boundIsBetterThan (p_lowerBound lhs) (p_lowerBound rhs) (so_objective options) then true
  else if boundIsBetterThan (p_lowerBound rhs) (p_lowerBound lhs) (so_objective options) then false
  else if decide (covered lhs = covered rhs) then bool_decide (p_id lhs < p_id rhs)
  else bool_decide (covered rhs < covered lhs).

(** What a level grows to; a complete partial grows to nothing. *)
Definition grow (p : Partial) : Logged (list Partial) :=
  match lowestUncovered p with
  | None => done []
  | Some node =>
    collect_logged (λ c,
      let* states := extendAt p node c;
      done ((λ s, with_bound (boundCost options tables s) s) <$> states)) (choicesAt tables node)
  end.

Definition beamLevel (st : SearchState) (beam : list Partial) : SearchState * list Partial :=
  let next := collect_logged grow beam in
  let st := absorb st (log next) in
  let sorted := std_sort beamBefore (value next) in
  if decide (beamWidth options < Z.of_nat (length sorted)) then
    (absorb st [Truncate; Report (mkDiagnostic SearchTruncated
       ("beam width reached (beamWidth=" +:+ to_string (beamWidth options) +:+ ")"))],
     take (Z.to_nat (beamWidth options)) sorted)
  else (st, sorted).

Fixpoint beamLevels (levels : nat) (st : SearchState) (beam : list Partial) : SearchState * list Partial :=
  match levels with
  | O => (st, beam)
  | S levels =>
    let '(st, beam) := beamLevel st beam in
    if is_nil beam then (st, beam) else beamLevels levels st beam
  end.

Definition retainComplete (st : SearchState) (p : Partial) : SearchState :=
  if failed st then st else
  match lowestUncovered p with None => (retain st p).1 | Some _ => st end.

Definition beamSearch (st : SearchState) : SearchState :=
  let '(st, beam) := beamLevels (length tables) st [start tables] in
  foldl retainComplete st beam.

Definition explore (st : SearchState) : SearchState :=
  match mode options with
  | Beam => beamSearch st
  | Exact => (visit true (length tables) st (start tables)).1
  | Deterministic => (visit false (length tables) st (start tables)).1
  end.
End walks.

(** ** The search *)
Definition with_truncated (truncated : bool) (plan : CoveringPlan) : CoveringPlan :=
  mkPlan (plan_id plan) (sourceBindingHash plan) (sourceBindingCandidate plan) (MappingPlan.instances plan)
    (MappingPlan.connections plan) (placements plan) (connectionPlans plan) (globalParameters plan) (totalCost plan)
    (accumulatedCost plan) (scoreSource plan) (analysisEvents plan) (shapeSamples plan) (shapeAggregation plan)
    (shapeMaxVariants plan) (shapeProfileCanonical plan)
    (let d := diagnostics plan in
     mkPlanDiagnostics (errors d) (warnings d) truncated (storageNotes d) (physicalComplete d) (physicalReasons d)
       (physicalDecisions d))
    (schemaVersion plan) (materialized plan) (graphHash plan) (targetHash plan) (machineHash plan) (layoutHash plan)
    (ruleHash plan) (allocations plan) (synchronization plan) (steps plan) (stepEdges plan).

Definition planBefore (lhs rhs : CoveringPlan) : bool :=
  ranksBefore (totalCost lhs) (plan_id lhs) (totalCost rhs) (plan_id rhs) (so_objective options).

(** Ranks what was retained, cuts it and reports the cut. *)
Definition conclude (st : SearchState) : MappingSearchResult :=
  let found := s_retained st in
  let cut := negb (bool_decide (topK options = 0)) && bool_decide (topK options < Z.of_nat (length found)) in
  let st := if cut then
      absorb st [Truncate; Report (mkDiagnostic SearchTruncated ("top-K cap reached (topK=" +:+ to_string (topK options) +:+ ")"))]
    else st in
  let ranked := std_sort planBefore found in
  let kept := if cut then take (Z.to_nat (topK options)) ranked else ranked in
  let f := s_frontier st in
  mkResult (with_truncated (s_truncated st) <$> kept) (s_truncated st) false
    (mkFrontier (nodesWithoutRules f) (candidatesWithoutPlacement f) (incompatibleInstancePairs f) (plansRejectedByCapacity f)
       (std_sort diagnosticLess (fr_diagnostics f)) (codeCounts f))
    (expandedStates st) (candidateCount st) (instanceCount st) (routeCount st) (Z.of_nat (length found))
    (computeSourceGraphHash workload).

Definition tablesOf : result search_error (Logged (list NodeTable)) :=
  nodeTables workload target layoutContext options (from_option sb_values ∅ binding) boundLayouts boundAxes.

Definition search : result search_error MappingSearchResult :=
  fail! MissingEvaluator when requireCompleteEvaluation options && negb (hasEvaluator options);
  tables ← tablesOf;
  let st := explore (value tables) (absorb initialState (log tables)) in
  match pendingError st with
  | Some error => Err error
  | None => Ok (conclude st)
  end.
End search.

(** ** What the walks retain *)
Section retained.
Context `{MLIRTiles} `{!MLIRPrint} `{AE : LayoutConstraints.AffineExprs} `{!MLIRMaps} `{!MLIRBuild} `{!MLIRMapTrees} `{!SearchTexts} `{!PlanEventTexts} `{!StdSort}.
Variable cast_out_of_range : double → Z.
Variable workload : WorkloadGraph.
Variable target : SearchTarget.
Variable options : MappingSearchOptions.
Variable binding : option SearchBinding.
Variable tables : list NodeTable.
Local Abbreviation buildProposal := (buildProposal workload binding tables).
Local Abbreviation retain := (retain cast_out_of_range workload target options binding tables).
Local Abbreviation visit := (visit cast_out_of_range workload target options binding tables).
Local Abbreviation extendAt := (extendAt workload target options tables).

Lemma absorb_retained st es : s_retained (absorb st es) = s_retained st.
Proof. unfold absorb. revert st. induction es as [|e es IH]; intros st; cbn; [done|]. rewrite IH. by destruct e. Qed.

(** The plan a complete cover is kept as, when it is. *)
Definition verdict (st : SearchState) (p : Partial) : option CoveringPlan :=
  match evaluateCompletePlan options with
  | None => Some (scored cast_out_of_range target (buildProposal st p))
  | Some evaluate =>
    match evaluate (buildProposal st p) with
    | Err _ => None
    | Ok evaluated =>
      match ev_plan evaluated, ev_rejection evaluated with
      | Some plan, None => if materialized plan && physicalComplete (diagnostics plan) then Some plan else None
      | _, _ => None
      end
    end
  end.

Lemma retain_verdict st p :
  s_retained (retain st p).1 = (s_retained st ++ option_list (verdict st p))%list ∧
  (retain st p).2 = bool_decide (is_Some (verdict st p)).
Proof.
  unfold CoveringSearch.retain, verdict. destruct (evaluateCompletePlan options) as [evaluate|]; [|done].
  unfold settle. destruct (evaluate (buildProposal st p)) as [v|]; [|cbn [fst snd]; by rewrite absorb_retained, app_nil_r].
  destruct (ev_plan v) as [plan|], (ev_rejection v); cbn [fst snd]; try (by rewrite absorb_retained, app_nil_r).
  destruct (materialized plan), (physicalComplete (diagnostics plan)); cbn [negb orb andb fst snd];
    try (by rewrite absorb_retained, app_nil_r). done.
Qed.

(** [st'] has retained the verdicts on some covers, in order. *)
Definition Keeps (covers : list Partial) (st st' : SearchState) : Prop :=
  ∃ verdicts, Forall2 (λ q v, ∃ s, v = verdict s q) covers verdicts ∧ s_retained st' = (s_retained st ++ present verdicts)%list.

Lemma keeps_nil st es : Keeps [] st (absorb st es).
Proof. exists []. rewrite absorb_retained. cbn. by rewrite app_nil_r. Qed.

Lemma keeps_app xs ys st1 st2 st3 : Keeps xs st1 st2 → Keeps ys st2 st3 → Keeps (xs ++ ys) st1 st3.
Proof.
  intros (v & Hv & H12) (w & Hw & H23). exists (v ++ w)%list. split; [by apply Forall2_app|].
  unfold present in *. by rewrite omap_app, app_assoc, <- H12.
Qed.

(** The complete covers below a partial, as the walk meets them. *)
Fixpoint coversFrom (fuel : nat) (p : Partial) : list Partial :=
  match lowestUncovered p with
  | None => [p]
  | Some node =>
    match fuel with
    | O => []
    | S fuel => choicesAt tables node ≫= λ c, value (extendAt p node c) ≫= coversFrom fuel
    end
  end.

(** An error is never forgotten. *)
Lemma absorb_failed st es : failed st = true → failed (absorb st es) = true.
Proof.
  unfold absorb. revert st. induction es as [|e es IH]; intros st Hst; cbn; [done|]. apply IH. destruct e; try done.
  unfold failed in *. cbn. by destruct (pendingError st).
Qed.

Lemma retain_failed st p : failed st = true → failed (retain st p).1 = true.
Proof.
  intros Hst. unfold CoveringSearch.retain. destruct (evaluateCompletePlan options) as [evaluate|]; [|done].
  unfold settle. destruct (evaluate _) as [v|]; [|by apply absorb_failed].
  destruct (ev_plan v) as [plan|], (ev_rejection v); try by apply absorb_failed.
  destruct (_ || _); [by apply absorb_failed|done].
Qed.

Lemma until_failed {A} (body : SearchState → A → SearchState * bool) xs st :
  (∀ x st, failed st = true → failed (body st x).1 = true) → failed st = true → failed (until_stopped body st xs).1 = true.
Proof.
  intros Hbody. revert st. induction xs as [|x xs IH]; intros st Hst; cbn; [done|]. specialize (Hbody x st Hst).
  destruct (body st x) as [s []]; [done|]. by apply IH.
Qed.

Lemma visit_failed exact fuel st p : failed st = true → failed (visit exact fuel st p).1 = true.
Proof.
  revert st p. induction fuel as [|fuel IH]; intros st p Hst; cbn.
  - destruct (lowestUncovered p); [done|]. pose proof (retain_failed st p Hst) as Hr. destruct (retain st p) as [s a]. cbn in Hr. by rewrite Hr.
  - destruct (lowestUncovered p) as [node|].
    + apply until_failed; [|done]. intros c s Hs. apply until_failed; [|by apply absorb_failed]. intros q s'. apply IH.
    + pose proof (retain_failed st p Hst) as Hr. destruct (retain st p) as [s a]. cbn in Hr. by rewrite Hr.
Qed.

Lemma until_keeps {A} (body : SearchState → A → SearchState * bool) (covers : A → list Partial) xs st st' b :
  (∀ x st, failed st = true → failed (body st x).1 = true) →
  (∀ x st st' b, body st x = (st', b) → failed st' = false → b = false ∧ Keeps (covers x) st st') →
  until_stopped body st xs = (st', b) → failed st' = false → b = false ∧ Keeps (xs ≫= covers) st st'.
Proof.
  intros Hmono Hbody. revert st. induction xs as [|x xs IH]; intros st; cbn.
  - intros [= <- <-] _. split; [done|]. exact (keeps_nil st []).
  - destruct (body st x) as [s stop] eqn:Hx. intros Hrun Hok. destruct stop; [injection Hrun as <- <-; by apply Hbody in Hx as [[=] _]|].
    destruct (IH _ Hrun Hok) as [-> Hrest]. split; [done|]. apply keeps_app with s; [|done].
    destruct (failed s) eqn:Hs; [|by apply Hbody in Hx as [_ Hk]].
    pose proof (until_failed body xs s Hmono Hs) as Hf. rewrite Hrun in Hf. cbn in Hf. congruence.
Qed.

Lemma retain_exact st p st' b : (let '(st, accepted) := retain st p in if failed st then (st, true) else (st, negb true && accepted)) = (st', b) →
  failed st' = false → b = false ∧ Keeps [p] st st'.
Proof.
  destruct (retain_verdict st p) as [Hr _]. destruct (retain st p) as [s a]. cbn in Hr. destruct (failed s) eqn:Hs; intros [= <- <-] Hok; [congruence|].
  split; [done|]. exists [verdict st p]. split; [by repeat constructor; exists st|]. rewrite Hr. by destruct (verdict st p).
Qed.

Lemma visit_keeps fuel st p st' b : visit true fuel st p = (st', b) → failed st' = false → b = false ∧ Keeps (coversFrom fuel p) st st'.
Proof.
  revert st p st' b. induction fuel as [|fuel IH]; intros st p st' b; cbn.
  - destruct (lowestUncovered p); [|apply retain_exact]. intros [= <- <-] _. split; [done|]. exact (keeps_nil st []).
  - destruct (lowestUncovered p) as [node|]; [|apply retain_exact].
    apply until_keeps.
    + intros c s Hs. apply until_failed; [|by apply absorb_failed]. intros q s'. apply visit_failed.
    + intros c s s' b' Hrun Hok. apply (until_keeps _ (coversFrom fuel)) in Hrun as [-> Hk]; [|intros q s1; apply visit_failed|intros q s1 s2 b2; apply IH|done].
      split; [done|]. rewrite <- (app_nil_l (_ ≫= _)). eapply keeps_app; [|exact Hk]. apply keeps_nil.
Qed.

(** One more instance, placed at the lowest free node. *)
Inductive Branch (p q : Partial) : Prop :=
| branch node c : lowestUncovered p = Some node → c ∈ choicesAt tables node → q ∈ value (extendAt p node c) → Branch p q.

(** Deterministic and exact walk alike until the first plan. *)
Definition Follows (st : SearchState) (exact_run deterministic_run : SearchState * bool) : Prop :=
  (deterministic_run = exact_run ∧ s_retained exact_run.1 = s_retained st) ∨
  (deterministic_run.2 = true ∧ ∃ plan rest, s_retained deterministic_run.1 = (s_retained st ++ [plan])%list ∧
     s_retained exact_run.1 = (s_retained st ++ plan :: rest)%list).

Definition Grows (st st' : SearchState) : Prop := ∃ more, s_retained st' = (s_retained st ++ more)%list.

Lemma until_grows {A} (body : SearchState → A → SearchState * bool) xs st :
  (∀ x st, Grows st (body st x).1) → Grows st (until_stopped body st xs).1.
Proof.
  intros Hbody. revert st. induction xs as [|x xs IH]; intros st; cbn; [by exists []; rewrite app_nil_r|].
  destruct (Hbody x st) as [more Hm]. destruct (body st x) as [s []]; cbn in *; [by exists more|].
  destruct (IH s) as [more' Hm']. exists (more ++ more')%list. by rewrite Hm', Hm, app_assoc.
Qed.

Lemma visit_grows exact fuel st p : Grows st (visit exact fuel st p).1.
Proof.
  assert (∀ st b, Grows st (let '(s, a) := retain st p in if failed s then (s, true) else (s, b && a)).1) as Hretain.
  { intros st' b. destruct (retain_verdict st' p) as [Hr _]. destruct (retain st' p) as [s a]. cbn in Hr.
    eexists. destruct (failed s); exact Hr. }
  revert st p Hretain. induction fuel as [|fuel IH]; intros st p Hretain; cbn; (destruct (lowestUncovered p) as [node|]; [|apply Hretain]).
  - exists []. cbn. by rewrite app_nil_r.
  - apply until_grows. intros c s. destruct (until_grows (visit exact fuel) (value (extendAt p node c)) (absorb s (log (extendAt p node c)))) as [more Hm].
    + intros q s'. apply IH. intros st' b. destruct (retain_verdict st' q) as [Hr _]. destruct (retain st' q) as [s1 a]. cbn in Hr.
      eexists. destruct (failed s1); exact Hr.
    + exists more. by rewrite Hm, absorb_retained.
Qed.

Lemma until_follows {A} (exact_body deterministic_body : SearchState → A → SearchState * bool) xs st :
  (∀ x st, Grows st (exact_body st x).1) →
  (∀ x st, Follows st (exact_body st x) (deterministic_body st x)) →
  Follows st (until_stopped exact_body st xs) (until_stopped deterministic_body st xs).
Proof.
  intros Hgrows Hbody. revert st. induction xs as [|x xs IH]; intros st; cbn; [by left|].
  destruct (Hbody x st) as [[Heq Hr]|(Hstop & plan & rest & Hd & He)].
  - rewrite Heq. destruct (exact_body st x) as [s []]; cbn in Hr; [by left|].
    destruct (IH s) as [[-> Hs]|(Hstop & plan & rest & Hd & He)]; [left; by rewrite Hs, Hr|].
    right. split; [done|]. exists plan, rest. by rewrite <- Hr.
  - destruct (deterministic_body st x) as [d b]. cbn in Hstop, Hd. subst b. right. split; [done|].
    destruct (exact_body st x) as [s stop]. cbn in He. destruct stop; [by exists plan, rest|].
    destruct (until_grows exact_body xs s Hgrows) as [more Hm]. exists plan, (rest ++ more)%list. split; [done|].
    cbn. rewrite Hm, He, <- app_assoc. done.
Qed.

Lemma retain_follows st p :
  Follows st (let '(s, a) := retain st p in if failed s then (s, true) else (s, negb true && a))
             (let '(s, a) := retain st p in if failed s then (s, true) else (s, negb false && a)).
Proof.
  destruct (retain_verdict st p) as [Hr Ha]. destruct (retain st p) as [s a]. cbn in Hr, Ha. subst a.
  destruct (verdict st p) as [plan|]; cbn in Hr.
  - right. rewrite bool_decide_true by done. destruct (failed s); (split; [done|]; exists plan, []; done).
  - left. rewrite app_nil_r in Hr. rewrite bool_decide_false by by intros []. by destruct (failed s).
Qed.

Lemma follows_absorb st es run run' : Follows (absorb st es) run run' → Follows st run run'.
Proof. unfold Follows. by rewrite absorb_retained. Qed.

(** C3: Deterministic search returns what exact search would retain first.  From the same state
    the two walks do the same until a plan is kept: either exact keeps nothing here, and
    deterministic ends in the very same state, or deterministic stops with one plan, the first
    that exact keeps; whatever the evaluator accepts or rejects on the way. *)
Theorem deterministic_is_first_exact fuel st p :
  let exact_run := visit true fuel st p in
  let deterministic_run := visit false fuel st p in
  (deterministic_run = exact_run ∧ s_retained exact_run.1 = s_retained st) ∨
  (deterministic_run.2 = true ∧ ∃ plan rest, s_retained deterministic_run.1 = (s_retained st ++ [plan])%list ∧
     s_retained exact_run.1 = (s_retained st ++ plan :: rest)%list).
Proof.
  cbv zeta. change (Follows st (visit true fuel st p) (visit false fuel st p)).
  revert st p. induction fuel as [|fuel IH]; intros st p; cbn; (destruct (lowestUncovered p) as [node|]; [|apply retain_follows]).
  - by left.
  - apply until_follows.
    + intros c s. destruct (until_grows (visit true fuel) (value (extendAt p node c)) (absorb s (log (extendAt p node c)))) as [more Hm].
      * intros q s'. apply visit_grows.
      * exists more. by rewrite Hm, absorb_retained.
    + intros c s. eapply follows_absorb. apply until_follows; [intros q s'; apply visit_grows|done].
Qed.

(** *** What is reached *)
Section reached.
Hypothesis ids_distinct : NoDup (t_node <$> tables).
Hypothesis offers : ∀ i table entry, tables !! i = Some table → entry ∈ t_instances table → t_node table ∈ e_coveredNodes entry.
Hypothesis cap_unsigned : 0 <= so_maxConnectionCombinations options.
Local Abbreviation Covers := (Covers tables).

Lemma extendAt_step p node c q : Covers p → lowestUncovered p = Some node → c ∈ choicesAt tables node → q ∈ value (extendAt p node c) →
  Covers q ∧ (free q < free p)%nat ∧ (unfused p → S (free q) = free p → unfused q).
Proof.
  unfold CoveringSearch.extendAt. destruct (tables !! node) as [table|]; [|by intros _ _ _ ?%not_elem_of_nil].
  by apply (extend_step workload target options tables ids_distinct offers cap_unsigned).
Qed.

Lemma branch_step p q : Covers p → Branch p q → Covers q ∧ (free q < free p)%nat.
Proof. intros Hp [node c Hn Hc Hq]. destruct (extendAt_step p node c q Hp Hn Hc Hq) as (? & ? & _). done. Qed.

Lemma reached_covers p q : Covers p → rtc Branch p q → Covers q.
Proof. intros Hp Hr. induction Hr as [|p p' q Hb _ IH]; [done|]. apply IH. by apply (branch_step p p'). Qed.

Lemma coversFrom_spec fuel p q : Covers p → (free p ≤ fuel)%nat →
  q ∈ coversFrom fuel p ↔ rtc Branch p q ∧ lowestUncovered q = None.
Proof.
  revert p. induction fuel as [|fuel IH]; intros p Hp Hfree; cbn.
  - assert (lowestUncovered p = None) as Hn by (apply lowestUncovered_none; lia). rewrite Hn, list_elem_of_singleton. split.
    + by intros ->.
    + intros [Hr _]. inversion Hr as [|? p' ? [node c Hnode] _]; subst; [done|congruence].
  - destruct (lowestUncovered p) as [node|] eqn:Hn.
    + split.
      * intros (c & Hq & Hc)%list_elem_of_bind. apply list_elem_of_bind in Hq as (p' & Hq & Hp').
        destruct (extendAt_step p node c p' Hp Hn Hc Hp') as (Hcov & Hlt & _). apply IH in Hq as [Hr ?]; [|done|lia].
        split; [|done]. eapply rtc_l; [|exact Hr]. by econstructor.
      * intros [Hr Hq]. inversion Hr as [|? p' ? Hb Hr']; subst; [congruence|]. destruct (branch_step p p' Hp Hb) as [Hcov Hlt].
        destruct Hb as [node' c Hn' Hc Hp']. assert (node' = node) as -> by congruence.
        apply list_elem_of_bind. exists c. split; [|done]. apply list_elem_of_bind. exists p'. split; [|done]. apply IH; [done|lia|done].
    + rewrite list_elem_of_singleton. split; [by intros ->|].
      intros [Hr _]. inversion Hr as [|? p' ? [node c Hnode] _]; subst; [done|congruence].
Qed.

Lemma start_free : (free (start tables) ≤ length tables)%nat.
Proof. by rewrite free_start. Qed.

(** *** The beam *)

(** After [k] levels a partial has taken at least [k] nodes, and exactly [k] only without fusion. *)
Definition Level (k : nat) (p : Partial) : Prop :=
  Covers p ∧ (free p + k ≤ length tables)%nat ∧ ((free p + k)%nat = length tables → unfused p).

Lemma bound_level k b p : Level k p → Level k (with_bound b p).
Proof. intros ([? ? ? ?] & ? & ?). split_and!; [by split|done|done]. Qed.

Lemma grow_level k p q : Level k p → q ∈ value (grow workload target options tables p) → Level (S k) q.
Proof.
  intros (Hp & Hle & Hunf). unfold grow. destruct (lowestUncovered p) as [node|] eqn:Hn; [|by intros ?%not_elem_of_nil].
  rewrite collect_logged_value. intros (c & Hq & Hc)%list_elem_of_bind. cbn in Hq. apply list_elem_of_fmap in Hq as (q' & -> & Hq').
  apply bound_level. destruct (extendAt_step p node c q' Hp Hn Hc Hq') as (? & ? & Hu). split_and!; [done|lia|].
  intros Heq. apply Hu; [apply Hunf|]; lia.
Qed.

Lemma beamLevel_spec st beam : (beamLevel workload target options tables st beam).2 ⊆ value (collect_logged (grow workload target options tables) beam) ∧
  s_retained (beamLevel workload target options tables st beam).1 = s_retained st.
Proof.
  unfold beamLevel. set (next := collect_logged _ _). clearbody next. cbv zeta.
  assert (∀ q, q ∈ std_sort (beamBefore options) (value next) → q ∈ value next) as Hsort by by intros q; rewrite std_sort_perm.
  destruct (decide _); cbn; rewrite ?absorb_retained.
  - split; [|done]. intros q Hq. apply Hsort. apply list_elem_of_lookup in Hq as [i Hi].
    apply lookup_take_Some in Hi as [Hi _]. by eapply list_elem_of_lookup_2.
  - done.
Qed.

Lemma beamLevels_level levels st beam k : Forall (Level k) beam → 
  let '(st', beam') := beamLevels workload target options tables levels st beam in
  s_retained st' = s_retained st ∧ (beam' = [] ∨ Forall (Level (levels + k)) beam').
Proof.
  revert st beam k. induction levels as [|levels IH]; intros st beam k Hbeam; cbn [beamLevels]; [split; [done|by right]|].
  destruct (beamLevel_spec st beam) as [Hsub Hr]. destruct (beamLevel _ _ _ _ st beam) as [st1 next]. cbn in Hsub, Hr.
  assert (Forall (Level (S k)) next) as Hnext.
  { apply Forall_forall. intros q Hq%Hsub. rewrite collect_logged_value in Hq. apply list_elem_of_bind in Hq as (p & Hq & Hp).
    rewrite Forall_forall in Hbeam. by apply (grow_level k p q (Hbeam p Hp)). }
  destruct (is_nil next) eqn:Hnil; [split; [done|]; left; by destruct next|].
  specialize (IH st1 next (S k) Hnext). rewrite Nat.add_succ_r in IH. destruct (beamLevels _ _ _ _ levels st1 next) as [st2 beam2].
  by rewrite Hr in IH.
Qed.

(** [st'] has retained plans of complete covers that satisfy [P]. *)
Definition Retains (P : Partial → Prop) (st st' : SearchState) : Prop :=
  ∃ new, s_retained st' = (s_retained st ++ new)%list ∧
    ∀ plan, plan ∈ new → ∃ q s, Covers q ∧ lowestUncovered q = None ∧ P q ∧ verdict s q = Some plan.

Lemma retainComplete_spec (P : Partial → Prop) st beam : Forall (λ q, Covers q ∧ (lowestUncovered q = None → P q)) beam →
  Retains P st (foldl (retainComplete cast_out_of_range workload target options binding tables) st beam).
Proof.
  revert st. induction beam as [|q beam IH]; intros st Hbeam; cbn; [by exists []; rewrite app_nil_r; split; [|by intros ? ?%not_elem_of_nil]|].
  apply Forall_cons in Hbeam as [[Hq HP] Hbeam]. set (s := retainComplete _ _ _ _ _ _ st q).
  destruct (IH s Hbeam) as (new & Hnew & Hplans).
  assert (∃ first, s_retained s = (s_retained st ++ option_list first)%list ∧
    ∀ plan, first = Some plan → lowestUncovered q = None ∧ ∃ s, verdict s q = Some plan) as (first & Hf & Hfirst).
  { unfold s, retainComplete. destruct (failed st); [exists None; by rewrite app_nil_r|].
    destruct (lowestUncovered q); [exists None; by rewrite app_nil_r|]. exists (verdict st q).
    split; [apply retain_verdict|]. intros plan Hv. split; [done|]. by exists st. }
  exists (option_list first ++ new)%list. split; [by rewrite Hnew, Hf, app_assoc|].
  intros plan [Hin|Hin]%elem_of_app; [|by apply Hplans]. destruct first as [plan'|]; [|by apply not_elem_of_nil in Hin].
  apply list_elem_of_singleton in Hin as <-. destruct (Hfirst plan eq_refl) as [Hn [s' Hv]].
  exists q, s'. split_and!; [done|done|by apply HP|done].
Qed.

Lemma beamSearch_unfused st : Retains unfused st (beamSearch cast_out_of_range workload target options binding tables st).
Proof.
  unfold beamSearch. assert (Forall (Level 0) [start tables]) as Hstart.
  { apply Forall_singleton. split_and!; [apply start_covers|by rewrite free_start, Nat.add_0_r|].
    intros _ i j c c' Hi. apply lookup_replicate in Hi as [[=] _]. }
  pose proof (beamLevels_level (length tables) st [start tables] 0 Hstart) as Hlevels.
  destruct (beamLevels _ _ _ _ _ st [start tables]) as [st' beam]. destruct Hlevels as [Hr Hbeam].
  enough (Forall (λ q, Covers q ∧ (lowestUncovered q = None → unfused q)) beam) as Hall.
  { destruct (retainComplete_spec unfused st' beam Hall) as (new & Hn & Hplans). exists new. by rewrite <- Hr. }
  destruct Hbeam as [->|Hbeam]; [constructor|]. eapply Forall_impl; [exact Hbeam|]. rewrite Nat.add_0_r.
  intros q (Hq & _ & Hu). split; [done|]. intros Hn%lowestUncovered_none. apply Hu. lia.
Qed.

(** The depth-first walks retain complete covers. *)
Lemma retains_refl P st st' : s_retained st' = s_retained st → Retains P st st'.
Proof. intros Hr. exists []. rewrite app_nil_r. split; [done|]. by intros ? ?%not_elem_of_nil. Qed.

Lemma retains_trans P st1 st2 st3 : Retains P st1 st2 → Retains P st2 st3 → Retains P st1 st3.
Proof.
  intros (xs & Hx & HPx) (ys & Hy & HPy). exists (xs ++ ys)%list. split; [by rewrite Hy, Hx, app_assoc|].
  intros plan [?|?]%elem_of_app; auto.
Qed.

Lemma until_retains {A} P (body : SearchState → A → SearchState * bool) xs st :
  (∀ x st, x ∈ xs → Retains P st (body st x).1) → Retains P st (until_stopped body st xs).1.
Proof.
  revert st. induction xs as [|x xs IH]; intros st Hbody; cbn; [by apply retains_refl|].
  assert (Retains P st (body st x).1) as Hx by (apply Hbody; by left). destruct (body st x) as [s []]; [done|].
  eapply retains_trans; [exact Hx|]. apply IH. intros y s' Hy. apply Hbody. by right.
Qed.

Lemma leaf_retains b st p : Covers p → lowestUncovered p = None →
  Retains (λ _, True) st (let '(s, a) := retain st p in if failed s then (s, true) else (s, b && a)).1.
Proof.
  intros Hp Hn. destruct (retain_verdict st p) as [Hr _]. destruct (retain st p) as [s a]. cbn in Hr.
  assert (Retains (λ _, True) st s) as Hs; [|by destruct (failed s)].
  exists (option_list (verdict st p)). split; [done|]. intros plan Hplan. destruct (verdict st p) as [plan'|] eqn:Hv; [|by apply not_elem_of_nil in Hplan].
  apply list_elem_of_singleton in Hplan as ->. by exists p, st.
Qed.

Lemma visit_retains exact fuel st p : Covers p → Retains (λ _, True) st (visit exact fuel st p).1.
Proof.
  revert st p. induction fuel as [|fuel IH]; intros st p Hp; cbn; (destruct (lowestUncovered p) as [node|] eqn:Hn; [|by apply leaf_retains]).
  - by apply retains_refl.
  - apply until_retains. intros c s Hc.
    apply retains_trans with (absorb s (log (extendAt p node c))); [apply retains_refl, absorb_retained|]. apply until_retains. intros q s' Hq. apply IH. by destruct (extendAt_step p node c q Hp Hn Hc Hq).
Qed.

Lemma explore_retains st : Retains (λ q, mode options = Beam → unfused q) st (explore cast_out_of_range workload target options binding tables st).
Proof.
  assert (∀ exact, Retains (λ q, mode options ≠ Beam) st (visit exact (length tables) st (start tables)).1 ∨ mode options = Beam) as Hvisit.
  { intros exact. destruct (decide (mode options = Beam)) as [|Hm]; [by right|left].
    destruct (visit_retains exact (length tables) st _ (start_covers tables)) as (new & Hn & Hplans). exists new. split; [done|].
    intros plan Hin. destruct (Hplans plan Hin) as (q & s & ? & ? & _ & ?). by exists q, s. }
  assert (∀ P Q st', (∀ q, P q → Q q) → Retains P st st' → Retains Q st st') as Himpl.
  { intros P Q st' HPQ (new & Hn & Hplans). exists new. split; [done|]. intros plan Hin.
    destruct (Hplans plan Hin) as (q & s & ? & ? & ? & ?). exists q, s. split_and!; [done|done|by apply HPQ|done]. }
  unfold explore. destruct (mode options).
  - destruct (Hvisit false) as [Hv|]; [|done]. by eapply Himpl; [|exact Hv].
  - eapply Himpl; [|apply beamSearch_unfused]. done.
  - destruct (Hvisit true) as [Hv|]; [|done]. by eapply Himpl; [|exact Hv].
Qed.
End reached.

(** C4: Exact search is exhaustive.  When no error ends it, the plans it retains are, in order,
    the verdicts on all the complete covers that placing instances at lowest free nodes can
    reach, each cover judged; the walk stops only there. *)
Theorem exact_exhaustive st st' b : TablesOk workload tables → NoDup (n_id <$> nodes workload) →
  0 <= so_maxConnectionCombinations options →
  visit true (length tables) st (start tables) = (st', b) → failed st' = false →
  ∃ covers verdicts, (∀ q, q ∈ covers ↔ rtc Branch (start tables) q ∧ lowestUncovered q = None) ∧
    Forall2 (λ q v, ∃ s, v = verdict s q) covers verdicts ∧ s_retained st' = (s_retained st ++ present verdicts)%list.
Proof.
  intros Hok Hids Hcap Hrun Hf. apply visit_keeps in Hrun as [_ (verdicts & Hv & Hr)]; [|done].
  exists (coversFrom (length tables) (start tables)), verdicts. split_and!; [|done|done].
  intros q. apply coversFrom_spec; [by rewrite (tables_ids _ _ Hok)|apply Hok|done|apply start_covers|apply start_free].
Qed.

(** C39: The beam never fuses.  A partial cover that completes before the last level is dropped
    by the next level, so what the beam retains took one level per node: no instance of such a
    plan implements two nodes, whatever fused rules the tables offer. *)
Theorem beam_never_fuses st : TablesOk workload tables → NoDup (n_id <$> nodes workload) →
  0 <= so_maxConnectionCombinations options → mode options = Beam →
  ∃ new, s_retained (explore cast_out_of_range workload target options binding tables st) = (s_retained st ++ new)%list ∧
    ∀ plan, plan ∈ new → ∃ q s, verdict s q = Some plan ∧ lowestUncovered q = None ∧
      ∀ i j c c', chosen q !! i = Some (Some c) → chosen q !! j = Some (Some c') → c_place c = c_place c' → i = j.
Proof.
  intros Hok Hids Hcap Hm. destruct (explore_retains ltac:(by rewrite (tables_ids _ _ Hok)) (tables_offer _ _ Hok) Hcap st) as (new & Hn & Hplans).
  exists new. split; [done|]. intros plan Hin. destruct (Hplans plan Hin) as (q & s & _ & ? & Hu & ?). exists q, s. by split_and!; [..|apply Hu].
Qed.
End retained.

(** ** What the search returns *)
Section returned.
Context `{MLIRTiles} `{!MLIRPrint} `{AE : LayoutConstraints.AffineExprs} `{!MLIRMaps} `{!MLIRBuild} `{!MLIRMapTrees} `{!SearchTexts} `{!PlanEventTexts} `{!StdSort}.
Variable cast_out_of_range : double → Z.
Variable workload : WorkloadGraph.
Variable target : SearchTarget.
Variable layoutContext : LayoutContext.
Variable options : MappingSearchOptions.
Variable binding : option SearchBinding.
Variable boundLayouts : gmap string string.
Variable boundAxes : BoundAxes.
Local Abbreviation tablesOf := (tablesOf workload target layoutContext options binding boundLayouts boundAxes).
Local Abbreviation search := (search cast_out_of_range workload target layoutContext options binding boundLayouts boundAxes).

Lemma placedChoices_elem tables p table c :
  (table, c) ∈ placedChoices tables p ↔ ∃ i, tables !! i = Some table ∧ chosen p !! i = Some (Some c).
Proof.
  unfold placedChoices. rewrite list_elem_of_omap. split.
  - intros ([t o] & Hin & Ho). cbn in Ho. destruct o as [c'|]; [|done]. injection Ho as -> ->.
    apply list_elem_of_lookup in Hin as [i Hi]. apply lookup_zip_with_Some in Hi as (? & ? & [= <- <-] & ? & ?). by exists i.
  - intros (i & Ht & Hc). exists (table, Some c). split; [|done]. apply list_elem_of_lookup. exists i.
    apply lookup_zip_with_Some. by exists table, (Some c).
Qed.

Lemma placedChoices_tables tables p : length (chosen p) = length tables → lowestUncovered p = None →
  fst <$> placedChoices tables p = tables.
Proof.
  unfold placedChoices, lowestUncovered. intros Hlen Hn%fmap_None%list_find_None. symmetry in Hlen. revert Hn.
  apply Forall2_same_length in Hlen. generalize dependent (chosen p). intros l.
  induction 1 as [|t o ts os _ _ IH]; [done|]. intros [Ho Hos]%Forall_cons. destruct o as [c|]; [|done].
  cbn. f_equal. by apply IH.
Qed.

Lemma placed_nodes (l : list (NodeTable * Choice)) :
  pp_node <$> ((λ tc, placementOf workload tc.1 tc.2) <$> l) = t_node <$> (fst <$> l).
Proof. induction l as [|tc l IH]; [done|]. cbn. f_equal. exact IH. Qed.

(** The placements of a proposal: the nodes, once each; and what is placed at one node of an
    instance is placed at them all. *)
Lemma proposal_placements tables st p :
  let plan := buildProposal workload binding tables st p in
  Covers tables p → lowestUncovered p = None →
  pp_node <$> placements plan ≡ₚ t_node <$> tables ∧
  ∀ pl, pl ∈ placements plan → ∃ table entry i, tables !! i = Some table ∧ entry ∈ t_instances table ∧
    ci_id (e_instance entry) = pp_instance pl ∧ pp_node pl ∈ e_coveredNodes entry ∧
    ∀ id, id ∈ e_coveredNodes entry → ∃ pl', pl' ∈ placements plan ∧ pp_node pl' = id ∧
      pp_instance pl' = pp_instance pl ∧ pp_rule pl' = pp_rule pl ∧ pp_executor pl' = pp_executor pl.
Proof.
  intros plan Hp Hn. cbn [plan buildProposal placements].
  assert (∀ pl, pl ∈ placements plan ↔ ∃ table c, pl = placementOf workload table c ∧ (table, c) ∈ placedChoices tables p) as Hin.
  { intros pl. cbn. rewrite std_sort_perm, list_elem_of_fmap. split; [intros ([t c] & -> & ?); by exists t, c|].
    intros (t & c & -> & ?). by exists (t, c). }
  split.
  - rewrite std_sort_perm. rewrite <- (placedChoices_tables tables p (cov_length _ _ Hp) Hn) at 2.
    by rewrite placed_nodes.
  - intros pl Hpl. apply (Hin pl) in Hpl as (t & c & -> & (i & Ht & Hc)%placedChoices_elem).
    destruct (cov_entry _ _ Hp i c Hc) as (t' & Ht' & He). exists t', (c_entry c), (c_place c).1.
    pose proof (cov_node _ _ Hp i c Hc) as Hcov. unfold nodeAt in Hcov. rewrite Ht in Hcov.
    split_and!; [done|by eapply list_elem_of_lookup_2|done|done|]. intros id Hid.
    destruct (cov_all _ _ Hp i c id Hc Hid) as (j & Hj & Hnode & Hcj). apply lookup_lt_is_Some in Hj as [tj Htj].
    exists (placementOf workload tj c). split_and!; [|by unfold nodeAt in Hnode; rewrite Htj in Hnode|done..].
    apply (Hin (placementOf workload tj c)). exists tj, c. split; [done|]. apply placedChoices_elem. by exists j.
Qed.

(** C1: Every plan the search returns covers the workload.  It places each node of the graph
    exactly once, by an instance some table offers for it; and an instance that implements
    several nodes is placed at every one of them, with the same rule and executor: the plan is
    a partition of the nodes among legal instances, in every mode. *)
Theorem search_covers r plan : NoDup (n_id <$> nodes workload) → 0 <= so_maxConnectionCombinations options →
  evaluateCompletePlan options = None → search = Ok r → plan ∈ result_plans r →
  pp_node <$> placements plan ≡ₚ n_id <$> nodes workload ∧
  ∃ tables, tablesOf = Ok tables ∧
  ∀ pl, pl ∈ placements plan → ∃ table entry i, value tables !! i = Some table ∧ entry ∈ t_instances table ∧
    ci_id (e_instance entry) = pp_instance pl ∧ pp_node pl ∈ e_coveredNodes entry ∧
    ∀ id, id ∈ e_coveredNodes entry → ∃ pl', pl' ∈ placements plan ∧ pp_node pl' = id ∧
      pp_instance pl' = pp_instance pl ∧ pp_rule pl' = pp_rule pl ∧ pp_executor pl' = pp_executor pl.
Proof.
  intros Hids Hcap Heval Hrun Hplan. unfold CoveringSearch.search in Hrun. apply fail_then_ok in Hrun as [_ Hrun].
  apply bind_ok in Hrun as (tables & Htables & Hrun). cbv zeta in Hrun. set (st := explore _ _ _ _ _ _ _) in Hrun.
  destruct (pendingError st); [done|]. injection Hrun as <-.
  pose proof (nodeTables_ok _ _ _ _ _ _ _ _ Htables) as Hok. pose proof (tables_ids _ _ Hok) as Hperm.
  assert (∃ plan', plan' ∈ s_retained st ∧ placements plan = placements plan') as (plan' & Hin & Hpl).
  { cbn in Hplan. apply list_elem_of_fmap in Hplan as (plan' & -> & Hin). exists plan'. split; [|done].
    rewrite <- (std_sort_perm (planBefore options)). destruct (_ && _); [|done].
    apply list_elem_of_lookup in Hin as [i Hi]. apply lookup_take_Some in Hi as [Hi _]. by eapply list_elem_of_lookup_2. }
  destruct (explore_retains cast_out_of_range workload target options binding (value tables) ltac:(by rewrite Hperm) (tables_offer _ _ Hok) Hcap
    (absorb initialState (log tables))) as (new & Hnew & Hplans). fold st in Hnew.
  rewrite absorb_retained in Hnew. rewrite Hnew in Hin. destruct (Hplans plan' Hin) as (q & s & Hq & Hn & _ & Hv).
  unfold verdict in Hv. rewrite Heval in Hv. injection Hv as <-.
  assert (placements plan = placements (buildProposal workload binding (value tables) s q)) as ->.
  { rewrite Hpl. unfold scored. by destruct (buildPlanEvents _ _ _ _). }
  destruct (proposal_placements (value tables) s q Hq Hn) as [Hnodes Hall]. split; [by rewrite Hnodes, Hperm|].
  by exists tables.
Qed.

Lemma planBefore_strict (plans : list CoveringPlan) : Forall (λ plan, comparable (totalCost plan)) plans →
  StrictWeak (λ plan, plan ∈ plans) (planBefore options).
Proof.
  rewrite Forall_forall. intros Hcost.
  assert (∀ x y z : CoveringPlan, x ∈ plans → y ∈ plans → z ∈ plans → planBefore options x y = true → planBefore options y z = true →
    planBefore options x z = true) as Htrans.
  { intros x y z Hx Hy Hz. unfold planBefore. apply ranksBefore_total_order; by apply Hcost. }
  split; [|exact Htrans|].
  - intros x Hx. unfold planBefore. apply (ranksBefore_total_order _ _ _ (totalCost x) 0 (totalCost x) 0); by apply Hcost.
  - intros x y z Hx Hy Hz Hxy Hyz. apply not_true_iff_false. intros Hxz.
    destruct (planBefore options y x) eqn:Hyx; [by rewrite (Htrans y x z) in Hyz|].
    destruct (planBefore options z y) eqn:Hzy; [by rewrite (Htrans x z y) in Hxy|].
    assert (∀ a b : CoveringPlan, a ∈ plans → b ∈ plans → planBefore options a b = false → planBefore options b a = false → plan_id a = plan_id b) as Hid.
    { intros v w Hv Hw Hvw Hwv. destruct (decide (plan_id v = plan_id w)) as [|Hne]; [done|]. unfold planBefore in Hvw, Hwv.
      destruct (ranksBefore_total_order (so_objective options) (totalCost v) (plan_id v) (totalCost w) (plan_id w) (totalCost w) 0) as (_ & _ & Ht);
        [by apply Hcost..|]. rewrite (Ht Hne), Hwv in Hvw. done. }
    pose proof (Hid x y Hx Hy Hxy Hyx) as Hi. pose proof (Hid y z Hy Hz Hyz Hzy) as Hj.
    unfold planBefore, ranksBefore in *.
    destruct (costLess (totalCost x) (totalCost y) _) eqn:C1; [done|]. destruct (costLess (totalCost y) (totalCost x) _) eqn:C2; [done|].
    destruct (costLess (totalCost y) (totalCost z) _) eqn:C3; [done|]. destruct (costLess (totalCost z) (totalCost y) _) eqn:C4; [done|].
    destruct (costLess_strict_weak_order (so_objective options) (totalCost x) (totalCost y) (totalCost z)) as (_ & _ & Hties); [by apply Hcost..|].
    destruct (Hties (conj C1 C2) (conj C3 C4)) as [C5 C6]. rewrite C5, C6 in Hxz. apply bool_decide_eq_true in Hxz. lia.
Qed.

Lemma sorted_before {A} (R : A → A → Prop) xs ys x y : StronglySorted R (xs ++ ys) → x ∈ xs → y ∈ ys → R x y.
Proof.
  intros Hs Hx Hy. induction xs as [|z xs IH]; [by apply not_elem_of_nil in Hx|]. cbn in Hs. apply StronglySorted_inv in Hs as [Hs Hall].
  apply elem_of_cons in Hx as [->|Hx]; [|by apply IH]. rewrite Forall_forall in Hall. apply Hall, elem_of_app. by right.
Qed.

Lemma sorted_prefix {A} (R : A → A → Prop) xs ys : StronglySorted R (xs ++ ys) → StronglySorted R xs.
Proof.
  induction xs as [|x xs IH]; intros Hs; [constructor|]. cbn in Hs. apply StronglySorted_inv in Hs as [Hs Hall].
  constructor; [by apply IH|]. by apply Forall_app in Hall as [??].
Qed.

(** C38: The plans returned are the best, ranked.  They are the retained plans in the order of the
    objective and the plan id, the first [topK] of them when there is a cap; nothing left out
    ranks before anything returned; the count is that of all the plans retained; and a plan says
    the search was truncated exactly when the result does, as it does whenever the cap cut. *)
Theorem conclude_ranked st : 0 <= topK options → Forall (λ plan, comparable (totalCost plan)) (s_retained st) →
  let r := conclude workload options st in
  ∃ kept dropped, result_plans r = with_truncated (result_truncated r) <$> kept ∧ kept ++ dropped ≡ₚ s_retained st ∧
    StronglySorted (λ x y, planBefore options y x = false) kept ∧
    (∀ x y, x ∈ kept → y ∈ dropped → planBefore options y x = false) ∧
    planCount r = Z.of_nat (length (s_retained st)) ∧
    (topK options = 0 → dropped = []) ∧
    (topK options ≠ 0 → Z.of_nat (length kept) = Z.min (topK options) (planCount r)) ∧
    (dropped ≠ [] → result_truncated r = true) ∧ (s_truncated st = true → result_truncated r = true).
Proof.
  intros Hk Hcost r. pose proof (std_sort_perm (planBefore options) (s_retained st)) as Hperm.
  pose proof (std_sort_sorted (planBefore options) (s_retained st) (planBefore_strict _ Hcost)) as Hsorted.
  set (ranked := std_sort (planBefore options) (s_retained st)) in *.
  set (cut := negb (bool_decide (topK options = 0)) && bool_decide (topK options < Z.of_nat (length (s_retained st)))).
  pose proof (Permutation_length Hperm) as Hlen.
  set (k := Z.to_nat (topK options)).
  exists (if cut then take k ranked else ranked), (if cut then drop k ranked else []).
  assert (result_plans r = with_truncated (result_truncated r) <$> (if cut then take k ranked else ranked)) as Hplans.
  { unfold r, conclude. cbv zeta. fold cut ranked k. by destruct cut. }
  assert (cut = true → result_truncated r = true) as Hcut.
  { intros Hc. unfold r, conclude. cbv zeta. fold cut. by rewrite Hc. }
  assert (s_truncated st = true → result_truncated r = true) as Htr.
  { intros Ht. unfold r, conclude. cbv zeta. fold cut. by destruct cut. }
  assert (planCount r = Z.of_nat (length (s_retained st))) as Hcount by done.
  split; [done|]. destruct cut eqn:Hc; unfold cut in Hc.
  - apply andb_true_iff in Hc as [Hz%negb_true_iff%bool_decide_eq_false Hlt%bool_decide_eq_true].
    assert (StronglySorted (λ x y, planBefore options y x = false) (take k ranked ++ drop k ranked)) as Hs by by rewrite take_drop.
    split_and!; [by rewrite take_drop|by eapply sorted_prefix|intros x y; by apply (sorted_before (λ x y, planBefore options y x = false))|done|by intros ?| |by intros _; apply Hcut|done].
    intros _. rewrite length_take, Hcount, Hlen. unfold k. lia.
  - split_and!; [by rewrite app_nil_r|done|by intros ? ? _ ?%not_elem_of_nil|done|done| |done|done].
    intros Hz. apply andb_false_iff in Hc as [Hc%negb_false_iff%bool_decide_eq_true|Hc%bool_decide_eq_false]; [done|].
    rewrite Hlen, Hcount. lia.
Qed.
End returned.

(** ** Concrete searches *)
Section witness.
#[local] Existing Instance sample_types.
#[local] Existing Instance sample_text.
#[local] Existing Instance sample_print.
#[local] Existing Instance LayoutConstraints.plainAffine.
#[local] Existing Instance sample_tiles.
#[local] Existing Instance sample_maps.
#[local] Existing Instance sample_build.
#[local] Existing Instance sample_trees.
#[local] Existing Instance sample_search_texts.
#[local] Existing Instance stable_std_sort.
Definition sample_event_texts : PlanEventTexts := {| planEventText _ := "event" |}.
#[local] Existing Instance sample_event_texts.

Local Abbreviation sample_search text m :=
  (search (λ _, 0) two_vectors (searching text) (LlkMap.mkContext 2 "f32") (sample_search_options m 8) None ∅ (mkAxes "" "")).
Definition placed_rules (r : result search_error MappingSearchResult) : list (list (nat * string)) :=
  match r with
  | Ok r => (λ plan, (λ pl, (pp_node pl, pp_rule pl)) <$> placements plan) <$> result_plans r
  | Err _ => []
  end.

(** The default mode misses the only plan: exact returns it, and the beam returns nothing and
    reports no truncation. *)
Example beam_misses_the_only_plan :
  placed_rules (sample_search fused_rule Exact) = [[(0%nat, "t.fuse"); (1%nat, "t.fuse")]] ∧
  placed_rules (sample_search fused_rule Deterministic) = [[(0%nat, "t.fuse"); (1%nat, "t.fuse")]] ∧
  match sample_search fused_rule Beam with Ok r => result_plans r = [] ∧ result_truncated r = false | Err _ => False end.
Proof. split_and!; [vm_compute; reflexivity..|]. vm_compute. split; reflexivity. Qed.

Lemma two_vectors_distinct : NoDup (n_id <$> nodes two_vectors).
Proof. cbn. apply NoDup_cons. split; [by intros [=]%list_elem_of_singleton|]. apply NoDup_singleton. Qed.

Lemma found_some (r : result search_error MappingSearchResult) : (length (placed_rules r) =? 1)%nat = true →
  ∃ found plan, r = Ok found ∧ plan ∈ result_plans found.
Proof.
  intros Hl%Nat.eqb_eq. destruct r as [found|]; [|done]. cbn in Hl. rewrite length_fmap in Hl.
  destruct (result_plans found) as [|plan plans] eqn:Hp; [done|]. exists found, plan. rewrite Hp. split; [done|by left].
Qed.

Lemma sample_found : ∃ found plan, sample_search fused_rule Exact = Ok found ∧ plan ∈ result_plans found.
Proof. apply found_some. vm_compute. reflexivity. Qed.

Lemma search_covers_witness : ∃ r plan, sample_search fused_rule Exact = Ok r ∧ plan ∈ result_plans r ∧
  pp_node <$> placements plan ≡ₚ [0; 1]%nat.
Proof.
  destruct sample_found as (r & plan & Hr & Hplan). exists r, plan. split; [exact Hr|]. split; [exact Hplan|].
  pose proof (search_covers (λ _, 0) two_vectors (searching fused_rule) (LlkMap.mkContext 2 "f32") (sample_search_options Exact 8) None ∅
    (mkAxes "" "") r plan two_vectors_distinct) as H.
  exact (proj1 (H ltac:(cbn; lia) eq_refl Hr Hplan)).
Defined.

Definition sample_start (text : string) (m : SearchMode) : Partial := start (sample_tables_of text m).
Lemma sample_tables_length text m : (length (sample_tables_of text m) =? 2)%nat = true → TablesOk two_vectors (sample_tables_of text m).
Proof. intros Hl%Nat.eqb_eq. apply sample_tables_ok. by intros Hn; rewrite Hn in Hl. Qed.

Lemma exact_exhaustive_witness : ∃ st' b,
  visit (λ _, 0) two_vectors (searching fused_rule) (sample_search_options Exact 8) None (sample_tables_of fused_rule Exact) true
    (length (sample_tables_of fused_rule Exact)) initialState (sample_start fused_rule Exact) = (st', b) ∧ failed st' = false ∧
  ∃ covers verdicts,
    (∀ q, q ∈ covers ↔ rtc (Branch two_vectors (searching fused_rule) (sample_search_options Exact 8) (sample_tables_of fused_rule Exact))
                         (sample_start fused_rule Exact) q ∧ lowestUncovered q = None) ∧
    Forall2 (λ q v, ∃ s, v = verdict (λ _, 0) two_vectors (searching fused_rule) (sample_search_options Exact 8) None
                               (sample_tables_of fused_rule Exact) s q) covers verdicts ∧
    s_retained st' = ([] ++ present verdicts)%list.
Proof.
  destruct (visit (λ _, 0) two_vectors (searching fused_rule) (sample_search_options Exact 8) None (sample_tables_of fused_rule Exact) true
    (length (sample_tables_of fused_rule Exact)) initialState (sample_start fused_rule Exact)) as [st' b] eqn:Hrun.
  assert (failed (visit (λ _, 0) two_vectors (searching fused_rule) (sample_search_options Exact 8) None (sample_tables_of fused_rule Exact) true
    (length (sample_tables_of fused_rule Exact)) initialState (sample_start fused_rule Exact)).1 = false) as Hf by (vm_compute; reflexivity).
  rewrite Hrun in Hf. exists st', b. split; [exact eq_refl|]. split; [exact Hf|].
  refine (exact_exhaustive (λ _, 0) two_vectors (searching fused_rule) (sample_search_options Exact 8) None (sample_tables_of fused_rule Exact)
    initialState st' b _ two_vectors_distinct _ Hrun Hf); [|cbn; lia].
  apply sample_tables_length. vm_compute. reflexivity.
Defined.

Lemma beam_never_fuses_witness :
  ∃ new, s_retained (explore (λ _, 0) two_vectors (searching fused_rule) (sample_search_options Beam 8) None
    (sample_tables_of fused_rule Beam) initialState) = ([] ++ new)%list ∧
  ∀ plan, plan ∈ new → ∃ q s,
    verdict (λ _, 0) two_vectors (searching fused_rule) (sample_search_options Beam 8) None (sample_tables_of fused_rule Beam) s q = Some plan ∧
    lowestUncovered q = None ∧
    ∀ i j c c', chosen q !! i = Some (Some c) → chosen q !! j = Some (Some c') → c_place c = c_place c' → i = j.
Proof.
  refine (beam_never_fuses (λ _, 0) two_vectors (searching fused_rule) (sample_search_options Beam 8) None (sample_tables_of fused_rule Beam)
    initialState _ two_vectors_distinct _ eq_refl); [|cbn; lia].
  apply sample_tables_length. vm_compute. reflexivity.
Defined.

Lemma conclude_ranked_witness :
  let st := keep (sample_plan [2; 1]) (keep (sample_plan [3]) initialState) in
  let r := conclude two_vectors (sample_search_options Exact 1) st in
  ∃ kept dropped, result_plans r = with_truncated (result_truncated r) <$> kept ∧ (kept ++ dropped)%list ≡ₚ s_retained st ∧
    StronglySorted (λ x y, planBefore (sample_search_options Exact 1) y x = false) kept.
Proof.
  cbv zeta.
  destruct (conclude_ranked two_vectors (sample_search_options Exact 1) (keep (sample_plan [2; 1]) (keep (sample_plan [3]) initialState)))
    as (kept & dropped & Hp & Hperm & Hs & _); [cbn; lia|by repeat constructor|].
  by exists kept, dropped.
Defined.
End witness.
