(* ===== verification/ShapeEvaluation.v ===== *)
(** Concrete shape arithmetic: lib/Mapping/ShapeEvaluation.cpp and the context of
    include/LLK/Mapping/ShapeEvaluation.h.

    [evaluateShapeIndex] folds the index arithmetic that shape lowering emits under a
    binding of index values, and refuses everything else: what it does not support, what is
    unbound, what divides by zero, overflows or is negative.  The specification is the value
    the expression has on the machine, each operation and each cast at the width of its
    type, where that value is the number the integers give.  The theorem: the evaluation
    answers every such value; an answer is such a value except where the machine value of
    an operation it runs is another number than the integers', which the code, reading no
    type, does not see (a truncation keeps its operand); between 64-bit values and indices
    that cannot happen. *)
From S2P Require Import Prelude.
Open Scope string_scope.
Open Scope Z_scope.

(** ** The operations MLIR defines a value with *)
Inductive CmpIPredicate := Eq_ | Ne_ | Slt | Sle | Sgt | Sge | Ult | Ule | Ugt | Uge.
Inductive CastOp := IndexCast | IndexCastUI | ExtSI | ExtUI | TruncI.
Inductive BinaryOp := AddI | SubI | MulI | DivUI | RemUI | CeilDivUI | MinSI | MaxSI | MinUI | MaxUI.
#[export] Instance BinaryOp_eq_dec : EqDecision BinaryOp.
Proof. solve_decision. Defined.

Inductive ShapeOp (V : Type) :=
| Binary (op : BinaryOp) (lhs rhs : V)
| CmpI (predicate : CmpIPredicate) (lhs rhs : V)
| Select (condition true_value false_value : V)
| Cast (op : CastOp) (in_ : V)
| DivSI
| DimOp
| OtherOp (name : string).
Arguments Binary {V} op lhs rhs.
Arguments CmpI {V} predicate lhs rhs.
Arguments Select {V} condition true_value false_value.
Arguments Cast {V} op in_.
Arguments DivSI {V}.
Arguments DimOp {V}.
Arguments OtherOp {V} name.

(** What the code reads of an SSA value: whether it is null, the constant it is, and the
    operation that defines it (none for a block argument); and the width of its type, which
    the code does not read: 64 for an index. *)
Class MLIRIndices := {
  index_value : Type;
  index_eq_dec :: EqDecision index_value;
  index_countable :: Countable index_value;
  null_value : index_value → bool;
  getConstantIntValue : index_value → option Z;
  getDefiningOp : index_value → option (ShapeOp index_value);
  bit_width : index_value → Z;
}.

Inductive shape_eval_error :=
| NegativeIndex (what : string) (value : Z)
| TooDeep
| NullValue
| UnboundArgument
| DividesByZero
| NotBoolean
| SignedDivision
| UnboundDimension
| UnsupportedShape (name : string).

Section evaluation.
Context `{MLIRIndices}.

(** [ShapeEvaluationContext]. *)
Definition ShapeEvaluationContext := gmap index_value Z.
Definition bind (context : ShapeEvaluationContext) (value : index_value) (resolved : Z) : ShapeEvaluationContext :=
  if null_value value then context else <[value := resolved]> context.
Definition contextLookup (context : ShapeEvaluationContext) (value : index_value) : option Z := context !! value.

Definition known (value : Z) (what : string) : result shape_eval_error Z :=
  if decide (value < 0) then Err (NegativeIndex what value) else Ok value.

Definition opName (op : BinaryOp) : string :=
  match op with
  | AddI => "arith.addi" | SubI => "arith.subi" | MulI => "arith.muli" | DivUI => "arith.divui" | RemUI => "arith.remui"
  | CeilDivUI => "arith.ceildivui" | MinSI => "arith.minsi" | MaxSI => "arith.maxsi" | MinUI => "arith.minui"
  | MaxUI => "arith.maxui"
  end.

(** The arithmetic on [int64_t]; -1 where it is not defined. *)
Definition operation (op : BinaryOp) (a b : Z) : Z :=
  match op with
  | AddI => if decide (in_i64 (a + b)) then a + b else -1
  | SubI => a - b
  | MulI => if decide (in_i64 (a * b)) then a * b else -1
  | DivUI => if decide (b = 0) then -1 else Z.quot a b
  | RemUI => if decide (b = 0) then -1 else Z.rem a b
  | CeilDivUI =>
    if decide (b = 0) then -1
    else if decide (a = 0) then 0
    else if decide (in_i64 (a + (b - 1))) then Z.quot (a + (b - 1)) b else -1
  | MinSI | MinUI => Z.min a b
  | MaxSI | MaxUI => Z.max a b
  end.

Definition compare_ (predicate : CmpIPredicate) (lhs rhs : Z) : bool :=
  match predicate with
  | Eq_ => bool_decide (lhs = rhs)
  | Ne_ => bool_decide (lhs ≠ rhs)
  | Slt | Ult => bool_decide (lhs < rhs)
  | Sle | Ule => bool_decide (lhs <= rhs)
  | Sgt | Ugt => bool_decide (rhs < lhs)
  | Sge | Uge => bool_decide (rhs <= lhs)
  end.

(** [fuel] is what is left of the depth the code allows. *)
Fixpoint evaluate (fuel : nat) (context : ShapeEvaluationContext) (value : index_value) : result shape_eval_error Z :=
  match fuel with
  | O => Err TooDeep
  | S fuel =>
    if null_value value then Err NullValue
    else
      match contextLookup context value, getConstantIntValue value with
      | Some bound, _ => known bound "a bound index value"
      | None, Some constant => known constant "an index constant"
      | None, None =>
        match getDefiningOp value with
        | None => Err UnboundArgument
        | Some (Binary op lhs rhs) =>
          fail! DividesByZero when bool_decide (op = DivUI ∧ contextLookup context rhs = Some 0);
          a ← evaluate fuel context lhs;
          b ← evaluate fuel context rhs;
          known (operation op a b) (opName op)
        | Some (CmpI predicate lhs rhs) =>
          a ← evaluate fuel context lhs;
          b ← evaluate fuel context rhs;
          Ok (Z.b2z (compare_ predicate a b))
        | Some (Select condition true_value false_value) =>
          c ← evaluate fuel context condition;
          fail! NotBoolean when bool_decide (c ≠ 0 ∧ c ≠ 1);
          evaluate fuel context (if decide (c = 0) then false_value else true_value)
        | Some (Cast _ in_) => evaluate fuel context in_
        | Some DivSI => Err SignedDivision
        | Some DimOp => Err UnboundDimension
        | Some (OtherOp name) => Err (UnsupportedShape name)
        end
      end
  end.

(** [depth] runs from 0 to 64. *)
Definition evaluateShapeIndex (context : ShapeEvaluationContext) (value : index_value) : result shape_eval_error Z :=
  evaluate 65 context value.

(** ** The value of an expression *)

(** The number a word of [w] bits is when its top bit is the sign. *)
Definition signed (w v : Z) : Z := if decide (v < 2 ^ (w - 1)) then v else v - 2 ^ w.

(** The operations on words of [w] bits, each a number below [2 ^ w]. *)
Definition binaryMeaning (op : BinaryOp) (w a b : Z) : Z :=
  match op with
  | AddI => (a + b) mod 2 ^ w
  | SubI => (a - b) mod 2 ^ w
  | MulI => (a * b) mod 2 ^ w
  | DivUI => a `div` b
  | RemUI => a `mod` b
  | CeilDivUI => - ((- a) `div` b)
  | MinSI => if decide (signed w a <= signed w b) then a else b
  | MaxSI => if decide (signed w a <= signed w b) then b else a
  | MinUI => if decide (a <= b) then a else b
  | MaxUI => if decide (a <= b) then b else a
  end.
Definition cmpMeaning (predicate : CmpIPredicate) (w a b : Z) : bool :=
  match predicate with
  | Eq_ => bool_decide (a = b)
  | Ne_ => bool_decide (a ≠ b)
  | Slt => bool_decide (signed w a < signed w b)
  | Sle => bool_decide (signed w a <= signed w b)
  | Sgt => bool_decide (signed w b < signed w a)
  | Sge => bool_decide (signed w b <= signed w a)
  | Ult => bool_decide (a < b)
  | Ule => bool_decide (a <= b)
  | Ugt => bool_decide (b < a)
  | Uge => bool_decide (b <= a)
  end.
(** A cast from [w_in] bits to [w_out]: the sign is extended, or zeroes are; what does not
    fit is cut. *)
Definition castMeaning (op : CastOp) (w_in w_out v : Z) : Z :=
  match op with
  | IndexCast | ExtSI => signed w_in v mod 2 ^ w_out
  | IndexCastUI | ExtUI | TruncI => v mod 2 ^ w_out
  end.

(** The operation over the integers, where the evaluation allows it. *)
Inductive Result : BinaryOp → Z → Z → Z → Prop :=
| ResultAdd a b : Result AddI a b (a + b)
| ResultSub a b : b <= a → Result SubI a b (a - b)
| ResultMul a b : Result MulI a b (a * b)
| ResultDiv a b : b ≠ 0 → Result DivUI a b (a `div` b)
| ResultRem a b : b ≠ 0 → Result RemUI a b (a `mod` b)
| ResultCeil a b : b ≠ 0 → (a ≠ 0 → a + b - 1 < 2 ^ 63) → Result CeilDivUI a b (- ((- a) `div` b))
| ResultMin a b op : op = MinSI ∨ op = MinUI → Result op a b (Z.min a b)
| ResultMax a b op : op = MaxSI ∨ op = MaxUI → Result op a b (Z.max a b).

(** [value] is the index [v], by an expression less than [depth] deep: what every operation
    of it yields on the machine, at the width of its type, is the number the integers give. *)
Inductive Denotes (context : ShapeEvaluationContext) : nat → index_value → Z → Prop :=
| DenotesBound n value v : null_value value = false → contextLookup context value = Some v → 0 <= v < 2 ^ bit_width value →
    Denotes context (S n) value v
| DenotesConstant n value v : null_value value = false → contextLookup context value = None →
    getConstantIntValue value = Some v → 0 <= v < 2 ^ bit_width value → Denotes context (S n) value v
| DenotesOperation n value v op : null_value value = false → contextLookup context value = None →
    getConstantIntValue value = None → getDefiningOp value = Some op → DenotesOp context n value op v → Denotes context (S n) value v
with DenotesOp (context : ShapeEvaluationContext) : nat → index_value → ShapeOp index_value → Z → Prop :=
| DenotesBinary n value op lhs rhs a b v : Denotes context n lhs a → Denotes context n rhs b → Result op a b v → v < 2 ^ 63 →
    binaryMeaning op (bit_width value) a b = v → DenotesOp context n value (Binary op lhs rhs) v
| DenotesCmp n value predicate lhs rhs a b : Denotes context n lhs a → Denotes context n rhs b →
    cmpMeaning predicate (bit_width lhs) a b = compare_ predicate a b →
    DenotesOp context n value (CmpI predicate lhs rhs) (Z.b2z (cmpMeaning predicate (bit_width lhs) a b))
| DenotesTrue n value condition t f v : Denotes context n condition 1 → Denotes context n t v →
    DenotesOp context n value (Select condition t f) v
| DenotesFalse n value condition t f v : Denotes context n condition 0 → Denotes context n f v →
    DenotesOp context n value (Select condition t f) v
| DenotesCast n value op in_ v : Denotes context n in_ v → castMeaning op (bit_width in_) (bit_width value) v = v →
    DenotesOp context n value (Cast op in_) v.

(** An expression whose evaluation comes to a number its type does not hold, or to an
    operation that is another number on the machine than over the integers; up to there it
    is exact. *)
Inductive Loses (context : ShapeEvaluationContext) : nat → index_value → Prop :=
| LosesBound n value v : contextLookup context value = Some v → 2 ^ bit_width value <= v → Loses context (S n) value
| LosesConstant n value v : contextLookup context value = None → getConstantIntValue value = Some v →
    2 ^ bit_width value <= v → Loses context (S n) value
| LosesOperation n value op : contextLookup context value = None → getConstantIntValue value = None →
    getDefiningOp value = Some op → LosesOp context n value op → Loses context (S n) value
with LosesOp (context : ShapeEvaluationContext) : nat → index_value → ShapeOp index_value → Prop :=
| LosesBinaryLhs n value op lhs rhs : Loses context n lhs → LosesOp context n value (Binary op lhs rhs)
| LosesBinaryRhs n value op lhs rhs : Loses context n rhs → LosesOp context n value (Binary op lhs rhs)
| LosesBinary n value op lhs rhs a b v : Denotes context n lhs a → Denotes context n rhs b → Result op a b v → v < 2 ^ 63 →
    binaryMeaning op (bit_width value) a b ≠ v → LosesOp context n value (Binary op lhs rhs)
| LosesCmpLhs n value p lhs rhs : Loses context n lhs → LosesOp context n value (CmpI p lhs rhs)
| LosesCmpRhs n value p lhs rhs : Loses context n rhs → LosesOp context n value (CmpI p lhs rhs)
| LosesCmp n value p lhs rhs a b : Denotes context n lhs a → Denotes context n rhs b →
    cmpMeaning p (bit_width lhs) a b ≠ compare_ p a b → LosesOp context n value (CmpI p lhs rhs)
| LosesCondition n value c t f : Loses context n c → LosesOp context n value (Select c t f)
| LosesTrue n value c t f : Denotes context n c 1 → Loses context n t → LosesOp context n value (Select c t f)
| LosesFalse n value c t f : Denotes context n c 0 → Loses context n f → LosesOp context n value (Select c t f)
| LosesIn n value op in_ : Loses context n in_ → LosesOp context n value (Cast op in_)
| LosesCast n value op in_ v : Denotes context n in_ v → castMeaning op (bit_width in_) (bit_width value) v ≠ v →
    LosesOp context n value (Cast op in_).

(** A value an operation works on: 64 bits wide. *)
Definition full (value : index_value) : Prop := bit_width value = 64.
(** Shape arithmetic on indices: bindings, constants, results and operands are 64 bits wide,
    comparisons' results apart, which only conditions read. *)
Definition Indexed (context : ShapeEvaluationContext) : Prop :=
  (∀ value v, contextLookup context value = Some v ∨ getConstantIntValue value = Some v → full value) ∧
  ∀ value op, getDefiningOp value = Some op →
    match op with
    | Binary _ lhs rhs => full value ∧ full lhs ∧ full rhs
    | CmpI _ lhs rhs => full lhs ∧ full rhs
    | Cast _ in_ => full value ∧ full in_
    | _ => True
    end.

(** Bindings and constants are 64-bit numbers. *)
Definition Wide (context : ShapeEvaluationContext) : Prop :=
  (∀ value v, contextLookup context value = Some v → in_i64 v) ∧ ∀ value v, getConstantIntValue value = Some v → in_i64 v.

Lemma wide_empty : (∀ value v, getConstantIntValue value = Some v → in_i64 v) → Wide ∅.
Proof. intros Hc. split; [|done]. intros value v Hl. discriminate Hl. Qed.
Lemma wide_bind context value r : Wide context → in_i64 r → Wide (bind context value r).
Proof.
  intros [Hw Hc] Hr. split; [|done]. intros x v. unfold bind, contextLookup. destruct (null_value value); [apply Hw|].
  intros [[_ <-]|[_ Hx]]%lookup_insert_Some; [done|by eapply Hw].
Qed.

Lemma known_ok v what r : known v what = Ok r ↔ r = v ∧ 0 <= v.
Proof. unfold known. destruct (decide (v < 0)); split; try (intros [= <-]); try (intros [-> ?]); try done; lia. Qed.

(** What the division of two indices may be. *)
Lemma index_division a b : 0 <= a < 2 ^ 63 → 0 <= b < 2 ^ 63 → b ≠ 0 →
  (0 <= a `div` b < 2 ^ 63 ∧ 0 <= a `mod` b < 2 ^ 63) ∧
  (a ≠ 0 → a + (b - 1) < 2 ^ 63 → 0 <= - ((- a) `div` b) < 2 ^ 63 ∧ Z.quot (a + (b - 1)) b = - ((- a) `div` b)).
Proof.
  intros Ha Hb Hn. split.
  - pose proof (Z.mod_pos_bound a b). pose proof (Z.div_pos a b). pose proof (Z.div_le_upper_bound a b a). nia.
  - intros Hz Hfit. rewrite Z.quot_div_nonneg by lia. split; Z.to_euclidean_division_equations; nia.
Qed.

Lemma operation_sound op a b : 0 <= a < 2 ^ 63 → 0 <= b < 2 ^ 63 → 0 <= operation op a b →
  Result op a b (operation op a b) ∧ operation op a b < 2 ^ 63.
Proof.
  intros Ha Hb. destruct op; cbn [operation]; unfold in_i64.
  - destruct (decide _); [|lia]. split; [constructor|lia].
  - split; [constructor|]; lia.
  - destruct (decide _); [|lia]. split; [constructor|lia].
  - destruct (decide _) as [|Hn]; [lia|]. rewrite Z.quot_div_nonneg by lia. pose proof (index_division a b Ha Hb Hn). split; [by constructor|lia].
  - destruct (decide _) as [|Hn]; [lia|]. rewrite Z.rem_mod_nonneg by lia. pose proof (index_division a b Ha Hb Hn). split; [by constructor|lia].
  - destruct (decide _) as [|Hn]; [lia|]. destruct (index_division a b Ha Hb Hn) as [_ Hc]. destruct (decide (a = 0)) as [->|Hz].
    + split; [|lia]. change 0 with (- ((- 0) `div` b)) at 2. by constructor.
    + destruct (decide _) as [Hfit|]; [|lia]. destruct Hc as [? ->]; [done|lia|]. split; [constructor; [done|lia]|lia].
  - split; [apply ResultMin; auto|lia].
  - split; [apply ResultMax; auto|lia].
  - split; [apply ResultMin; auto|lia].
  - split; [apply ResultMax; auto|lia].
Qed.

Lemma operation_complete op a b v : 0 <= a < 2 ^ 63 → 0 <= b < 2 ^ 63 → Result op a b v → v < 2 ^ 63 →
  operation op a b = v ∧ 0 <= v.
Proof.
  intros Ha Hb Hr Hv. destruct Hr as [a b|a b Hle|a b|a b Hn|a b Hn|a b Hn Hfit|a b op [-> | ->]|a b op [-> | ->]]; cbn [operation]; unfold in_i64.
  - rewrite decide_True by lia. lia.
  - lia.
  - rewrite decide_True by nia. nia.
  - rewrite decide_False, Z.quot_div_nonneg by lia. pose proof (index_division a b Ha Hb Hn). lia.
  - rewrite decide_False, Z.rem_mod_nonneg by lia. pose proof (index_division a b Ha Hb Hn). lia.
  - rewrite decide_False by done. destruct (index_division a b Ha Hb Hn) as [_ Hc]. destruct (decide (a = 0)) as [->|Hz]; [done|].
    specialize (Hfit Hz). destruct Hc as [? Hq]; [done|lia|]. rewrite decide_True by lia. lia.
  - lia.
  - lia.
  - lia.
  - lia.
Qed.

Lemma evaluate_sound context : Wide context → ∀ fuel value v, evaluate fuel context value = Ok v →
  0 <= v < 2 ^ 63 ∧ (Denotes context fuel value v ∨ Loses context fuel value).
Proof.
  intros [Hwide Hconst]. induction fuel as [|fuel IH]; intros value v; [done|].
  cbn [evaluate]. destruct (null_value value) eqn:Hnull; [done|].
  destruct (contextLookup context value) as [b|] eqn:Hb.
  { intros [-> Hv]%known_ok. specialize (Hwide _ _ Hb). unfold in_i64 in Hwide. split; [lia|].
    destruct (decide (b < 2 ^ bit_width value)); [left; by apply DenotesBound|right; eapply LosesBound; [done|lia]]. }
  destruct (getConstantIntValue value) as [c|] eqn:Hc.
  { intros [-> Hv]%known_ok. specialize (Hconst _ _ Hc). unfold in_i64 in Hconst. split; [lia|].
    destruct (decide (c < 2 ^ bit_width value)); [left; by apply DenotesConstant|right; eapply LosesConstant; [done..|lia]]. }
  destruct (getDefiningOp value) as [op|] eqn:Hop; [|done]. intros Hev.
  assert (0 <= v < 2 ^ 63 ∧ (DenotesOp context fuel value op v ∨ LosesOp context fuel value op)) as [Hr Hd];
    [|split; [done|destruct Hd; [left; by eapply DenotesOperation|right; by eapply LosesOperation]]].
  destruct op as [op lhs rhs|predicate lhs rhs|condition t f|op x| | |name]; try done.
  - apply bind_ok in Hev as ([] & _ & (a & Ha & (b & Hbe & [-> Hv]%known_ok)%bind_ok)%bind_ok).
    apply IH in Ha as [Hra Ha], Hbe as [Hrb Hbe]. destruct (operation_sound op a b Hra Hrb Hv). split; [lia|].
    destruct Ha as [Ha|Ha]; [|right; by apply LosesBinaryLhs]. destruct Hbe as [Hbe|Hbe]; [|right; by apply LosesBinaryRhs].
    destruct (decide (binaryMeaning op (bit_width value) a b = operation op a b)); [left; by eapply DenotesBinary|right; by eapply LosesBinary].
  - apply bind_ok in Hev as (a & Ha & (b & Hbe & [= <-])%bind_ok). apply IH in Ha as [_ Ha], Hbe as [_ Hbe].
    split; [destruct (compare_ predicate a b); cbn; lia|].
    destruct Ha as [Ha|Ha]; [|right; by apply LosesCmpLhs]. destruct Hbe as [Hbe|Hbe]; [|right; by apply LosesCmpRhs].
    destruct (decide (cmpMeaning predicate (bit_width lhs) a b = compare_ predicate a b)) as [He|]; [|right; by eapply LosesCmp].
    left. rewrite <- He. by apply DenotesCmp.
  - apply bind_ok in Hev as (c & Hce & ([] & Hbool & Hev)%bind_ok). apply IH in Hce as [_ Hce].
    case_bool_decide as Hcb; [done|]. apply IH in Hev as [Hr Hev]. split; [done|].
    destruct Hce as [Hce|Hce]; [|right; by apply LosesCondition]. destruct (decide (c = 0)) as [->|Hz].
    + destruct Hev; [left; by apply DenotesFalse|right; by apply LosesFalse].
    + assert (c = 1) as -> by lia. destruct Hev; [left; by apply DenotesTrue|right; by apply LosesTrue].
  - apply IH in Hev as [Hr [Hev|Hev]]; (split; [done|]); [|right; by apply LosesIn].
    destruct (decide (castMeaning op (bit_width x) (bit_width value) v = v)); [left; by apply DenotesCast|right; by eapply LosesCast].
Qed.

Lemma result_div_zero a v : ¬ Result DivUI a 0 v.
Proof. intros Hr. remember 0 as b eqn:Hb. remember DivUI as op eqn:Ho. destruct Hr; naive_solver. Qed.

Lemma evaluate_complete context : Wide context → ∀ fuel value v, Denotes context fuel value v → evaluate fuel context value = Ok v.
Proof.
  intros Hwide. induction fuel as [|fuel IH]; intros value v Hd; [inversion Hd|].
  inversion Hd as [n x w Hnull Hb [Hv _]|n x w Hnull Hb Hc [Hv _]|n x w op Hnull Hb Hc Hop Hd']; subst;
    cbn [evaluate]; rewrite Hnull, Hb; [by apply known_ok|rewrite Hc; by apply known_ok|]. rewrite Hc, Hop.
  inversion Hd' as [n y op' lhs rhs a b w Ha Hbe Hr Hv Hm|n y p lhs rhs a b Ha Hbe Hm|n y c t f w Hce Ht|n y c t f w Hce Hf|n y op' x w Hx Hm]; subst.
  - apply IH in Ha, Hbe. pose proof (proj1 (evaluate_sound context Hwide _ _ _ Ha)) as Hra.
    pose proof (proj1 (evaluate_sound context Hwide _ _ _ Hbe)) as Hrb.
    destruct (operation_complete op' a b _ Hra Hrb Hr Hv) as [Ho Hpos].
    case_bool_decide as Hz.
    + exfalso. destruct Hz as [-> Hz]. destruct fuel as [|fuel]; [done|]. cbn [evaluate] in Hbe. destruct (null_value rhs); [done|].
      rewrite Hz in Hbe. injection Hbe as <-. by eapply result_div_zero.
    + cbn. rewrite Ha, Hbe. cbn. rewrite Ho. by apply known_ok.
  - apply IH in Ha, Hbe. rewrite Ha, Hbe, Hm. done.
  - apply IH in Hce, Ht. rewrite Hce. cbn. done.
  - apply IH in Hce, Hf. rewrite Hce. cbn. done.
  - by apply IH.
Qed.

(** An expression denotes one number. *)
Lemma denotes_inj context fuel value v w : Wide context → Denotes context fuel value v → Denotes context fuel value w → v = w.
Proof. intros Hw Hv%evaluate_complete Hx%evaluate_complete; [|done..]. rewrite Hv in Hx. by injection Hx. Qed.

Lemma result_operation op a b v w : Result op a b v → Result op a b w → v = w.
Proof. intros Hv Hw. inversion Hv; subst; inversion Hw; subst; try done; naive_solver. Qed.

Lemma denotes_keeps context : Wide context → ∀ fuel value v, Denotes context fuel value v → Loses context fuel value → False.
Proof.
  intros Hw. induction fuel as [|fuel IH]; intros value v Hd Hl; [inversion Hl|].
  inversion Hd as [n x w Hnull Hb [_ Hv]|n x w Hnull Hb Hc [_ Hv]|n x w op Hnull Hb Hc Hop Hd']; subst;
    inversion Hl as [n y u Hb' Hu|n y u Hb' Hc' Hu|n y op' Hb' Hc' Hop' Hl']; subst; simplify_eq; try lia.
  inversion Hd' as [n y o lhs rhs a b w Ha Hbe Hr Hv Hm|n y p lhs rhs a b Ha Hbe Hm|n y c t f w Hce Ht|n y c t f w Hce Hf|n y o x w Hx Hm]; subst;
    inversion Hl'; subst;
    try match goal with H1 : Denotes context fuel ?x _, H2 : Loses context fuel ?x |- _ => exact (IH _ _ H1 H2) end;
    repeat match goal with H1 : Denotes context ?n ?x ?a, H2 : Denotes context ?n ?x ?b |- _ =>
      lazymatch a with b => fail | _ => pose proof (denotes_inj context n x a b Hw H1 H2) as ?; clear H2; simplify_eq end end;
    try done.
  match goal with Hx : Result _ _ _ _, Hn : _ ≠ _ |- _ => by pose proof (result_operation _ _ _ _ _ Hr Hx) end.
Qed.

Lemma signed_index v : 0 <= v < 2 ^ 63 → signed 64 v = v.
Proof. intros Hv. unfold signed. by rewrite decide_True by (cbn; lia). Qed.

(** On 64 bits nothing an index computation does loses. *)
Lemma indexed_binary op a b v : 0 <= a < 2 ^ 63 → 0 <= b < 2 ^ 63 → Result op a b v → v < 2 ^ 63 → binaryMeaning op 64 a b = v.
Proof.
  intros Ha Hb Hr Hv.
  destruct Hr as [a b|a b Hle|a b|a b Hn|a b Hn|a b Hn Hfit|a b op [-> | ->]|a b op [-> | ->]]; cbn [binaryMeaning]; rewrite ?signed_index by done;
    try done; try (apply Z.mod_small; nia); case_decide; lia.
Qed.
Lemma indexed_cmp p a b : 0 <= a < 2 ^ 63 → 0 <= b < 2 ^ 63 → cmpMeaning p 64 a b = compare_ p a b.
Proof. intros Ha Hb. by destruct p; cbn [cmpMeaning compare_]; rewrite ?signed_index by done. Qed.
Lemma indexed_cast op v : 0 <= v < 2 ^ 63 → castMeaning op 64 64 v = v.
Proof. intros Hv. destruct op; cbn [castMeaning]; rewrite ?signed_index by done; apply Z.mod_small; lia. Qed.

Lemma indexed_keeps context : Wide context → Indexed context → ∀ fuel value, ¬ Loses context fuel value.
Proof.
  intros Hw [Hnum Hops]. pose proof Hw as [Hwide Hconst].
  assert (∀ fuel value v, Denotes context fuel value v → 0 <= v < 2 ^ 63) as Hr.
  { intros fuel value v Hd%evaluate_complete; [|done]. by apply evaluate_sound in Hd as []. }
  unfold full in Hnum, Hops. induction fuel as [|fuel IH]; intros value Hl; inversion Hl as [n y v Hb Hv|n y v Hb Hc Hv|n y op Hb Hc Hop Hl']; subst.
  - pose proof (Hwide _ _ Hb) as Hi. unfold in_i64 in Hi. rewrite (Hnum value v) in Hv by auto. lia.
  - pose proof (Hconst _ _ Hc) as Hi. unfold in_i64 in Hi. rewrite (Hnum value v) in Hv by auto. lia.
  - specialize (Hops _ _ Hop). inversion Hl'; subst; try (by eapply IH); destruct_and?;
      repeat match goal with Hd : Denotes context _ _ _ |- _ => apply Hr in Hd end;
      repeat match goal with Hw : bit_width _ = 64 |- _ => rewrite Hw in *; clear Hw end.
    + match goal with Hn : _ ≠ _ |- _ => apply Hn end. by apply indexed_binary.
    + match goal with Hn : _ ≠ _ |- _ => apply Hn end. by apply indexed_cmp.
    + match goal with Hn : _ ≠ _ |- _ => apply Hn end. by apply indexed_cast.
Qed.

End evaluation.

(** ** The extent of a boundary tile *)
Section witness.

(** [min(tile, dim - offset)], the tile constant, the trip count; and the byte a dimension
    is truncated to, where the expression has that cast. *)
Definition tail_ops (truncated : bool) (value : string) : option (ShapeOp string) :=
  if decide (value = "rest") then Some (Binary SubI "dim" "offset")
  else if decide (value = "extent") then Some (Binary MinSI "tile" "rest")
  else if decide (value = "trips") then Some (Binary CeilDivUI "dim" "tile")
  else if decide (value = "narrow" ∧ truncated = true) then Some (Cast TruncI "dim")
  else None.
Definition tail_indices (truncated : bool) : MLIRIndices := {|
  index_value := string;
  null_value _ := false;
  getConstantIntValue value := if decide (value = "tile") then Some 64 else None;
  getDefiningOp := tail_ops truncated;
  bit_width value := if decide (value = "narrow") then 8 else 64;
|}.

Definition tail_context truncated : ShapeEvaluationContext (H := tail_indices truncated) :=
  bind (H := tail_indices truncated) (bind (H := tail_indices truncated) ∅ "dim" 300) "offset" 256.

Example tail_values :
  let extent context := evaluateShapeIndex (H := tail_indices false) context "extent" in
  extent (tail_context false) = Ok 44 ∧
  evaluateShapeIndex (H := tail_indices false) (tail_context false) "trips" = Ok 5 ∧
  extent (bind (H := tail_indices false) (tail_context false) "offset" 320) = Err (NegativeIndex "arith.subi" (-20)) ∧
  extent ∅ = Err UnboundArgument.
Proof. split_and!; vm_compute; reflexivity. Qed.

Lemma tail_wide truncated : Wide (tail_context truncated).
Proof.
  apply wide_bind; [apply wide_bind; [apply wide_empty|]|]; [|by vm_compute..].
  intros value v. cbn [getConstantIntValue tail_indices]. case_decide as Hd; [|intros Hx; discriminate Hx]. intros [= <-]. by vm_compute.
Qed.
Lemma tail_indexed : Indexed (tail_context false).
Proof.
  split.
  - intros value v Hv. unfold full. cbn [bit_width tail_indices]. case_decide as Hd; [|done]. exfalso. cbn in value. subst value.
    destruct Hv as [Hv|Hv]; vm_compute in Hv; discriminate Hv.
  - intros value op. cbn. unfold tail_ops, full.
    repeat (case_decide as Hd; [intros [= <-]; try (destruct Hd as [_ Hd]; discriminate Hd); cbn in value; subst value; by vm_compute|clear Hd]).
    intros Hx. discriminate Hx.
Qed.

(** A truncation is its operand, whatever the width it truncates to: 300 as a byte is 44. *)
Example truncation_keeps_the_value :
  evaluateShapeIndex (H := tail_indices true) (tail_context true) "narrow" = Ok 300 ∧
  castMeaning TruncI 64 8 300 = 44 ∧ Loses (H := tail_indices true) (tail_context true) 65 "narrow".
Proof.
  split; [vm_compute; reflexivity|]. split; [done|]. apply (LosesOperation (H := tail_indices true) (tail_context true) 64 "narrow" (Cast TruncI "dim")); [done..|].
  apply (LosesCast (H := tail_indices true) (tail_context true) 64 "narrow" TruncI "dim" 300); [|done].
  by apply (DenotesBound (H := tail_indices true)).
Qed.

End witness.
