(* ===== verification/ThreadPool.v ===== *)
(** The worker pool: runtime/ThreadPool.cpp and include/LLK/Runtime/ThreadPool.h.

    A pool is a state that its threads change one atomic action at a time: the
    caller's thread and each worker have a program counter, and [step] performs
    the next action of one of them, or is [None] when that thread is blocked in a
    condition-variable wait.  A run is any list of actions, so a theorem about all
    runs is about all interleavings.  The sections under the mutex are one action
    each; [next_tile_] is a 64-bit counter whose [fetch_add] wraps.

    The theorems: a [parallelFor] that returns has run every tile exactly once and
    left no worker in the callback; it always returns; a grain near the end of the
    64-bit range breaks this; and [barrier] can lose an arrival and deadlock.

    A wait is an action that is enabled when its predicate holds, which is what
    [std::condition_variable] gives as every change of a predicate is made under
    the mutex and followed by a notification.  [setAffinity] is an empty stub. *)
From S2P Require Import Prelude.
Open Scope Z_scope.

(** ** State *)

(** The loop that claims and runs tiles: about to claim, about to run tile [t] of
    the chunk that ends at [e], or out of tiles. *)
Inductive tile_loop := Claiming | Running (t e : Z) | Exhausted.

#[export] Instance tile_loop_eq_dec : EqDecision tile_loop.
Proof. solve_decision. Defined.

Inductive worker_phase := Waiting | Looping (l : tile_loop) | Exited.

(** The thread that owns the pool: outside the pool, inside [parallelFor], or
    past the destructor's notification. *)
Inductive caller_phase := Idle | InFor (l : tile_loop) | Gone.

Record ThreadPool := mkPool {
  workers : list worker_phase;
  running : list bool;
  worker_done : list bool;
  next_tile : Z;
  total_tiles : Z;
  grain_size : Z;
  callback : bool;
  caller : caller_phase;
  executed : list (Z * Z);
}.

(** The value of a 64-bit signed counter. *)
Definition i64 (z : Z) : Z := (z + 2 ^ 63) `mod` 2 ^ 64 - 2 ^ 63.

Definition newPool (num_threads : Z) : ThreadPool :=
  let n := Z.to_nat (if num_threads <? 1 then 1 else num_threads) in
  mkPool (replicate n Waiting) (replicate n true) (replicate n false) 0 0 0 false Idle [].

(** ** Actions *)
Definition set_next (p : ThreadPool) (next : Z) : ThreadPool :=
  mkPool (workers p) (running p) (worker_done p) next (total_tiles p) (grain_size p) (callback p)
    (caller p) (executed p).
Definition log_tile (p : ThreadPool) (t worker_id : Z) : ThreadPool :=
  mkPool (workers p) (running p) (worker_done p) (next_tile p) (total_tiles p) (grain_size p)
    (callback p) (caller p) (executed p ++ [(t, worker_id)]).
Definition set_worker (p : ThreadPool) (i : nat) (w : worker_phase) : ThreadPool :=
  mkPool (<[i := w]> (workers p)) (running p) (worker_done p) (next_tile p) (total_tiles p)
    (grain_size p) (callback p) (caller p) (executed p).
Definition set_done (p : ThreadPool) (i : nat) : ThreadPool :=
  mkPool (workers p) (running p) (<[i := true]> (worker_done p)) (next_tile p) (total_tiles p)
    (grain_size p) (callback p) (caller p) (executed p).
Definition set_caller (p : ThreadPool) (c : caller_phase) : ThreadPool :=
  mkPool (workers p) (running p) (worker_done p) (next_tile p) (total_tiles p) (grain_size p)
    (callback p) c (executed p).

(** [int64_t start = next_tile_.fetch_add(grain_size_); if (start >= total_tiles_)
    break; end = min(start + grain_size_, total_tiles_)]. *)
Definition claim (p : ThreadPool) : tile_loop * ThreadPool :=
  let start := next_tile p in
  (if start >=? total_tiles p then Exhausted
   else Running start (Z.min (start + grain_size p) (total_tiles p)),
   set_next p (i64 (start + grain_size p))).

(** One action of the loop, in a worker or in the caller (as worker -1). *)
Definition loop_step (p : ThreadPool) (worker_id : Z) (l : tile_loop) :
    option (tile_loop * ThreadPool) :=
  match l with
  | Claiming => Some (claim p)
  | Running t e =>
    if t <? e then Some (Running (t + 1) e, log_tile p t worker_id) else Some (Claiming, p)
  | Exhausted => None
  end.

(** One action of [workerLoop]. *)
Definition workerLoop_step (p : ThreadPool) (i : nat) : option ThreadPool :=
  match workers p !! i with
  | Some Waiting =>
    if negb (default false (running p !! i)) then Some (set_worker p i Exited)
    else if callback p && negb (default false (worker_done p !! i))
    then Some (set_worker p i (Looping Claiming))
    else None
  | Some (Looping Exhausted) => Some (set_done (set_worker p i Waiting) i)
  | Some (Looping l) =>
    '(l, p) ← loop_step p (Z.of_nat i) l; Some (set_worker p i (Looping l))
  | _ => None
  end.

(** [parallelFor] up to its first claim. *)
Definition parallelFor (p : ThreadPool) (total_tiles grain_size : Z) : ThreadPool :=
  if total_tiles <=? 0 then p
  else
    mkPool (workers p) (running p) ((λ _, false) <$> worker_done p) 0 total_tiles
      (Z.max 1 grain_size) true (InFor Claiming) [].

(** The caller's next action inside [parallelFor]; once out of tiles it waits for
    every worker and clears the callback. *)
Definition caller_step (p : ThreadPool) : option ThreadPool :=
  match caller p with
  | InFor Exhausted =>
    if forallb id (worker_done p)
    then Some (mkPool (workers p) (running p) (worker_done p) (next_tile p) (total_tiles p)
                 (grain_size p) false Idle (executed p))
    else None
  | InFor l => '(l, p) ← loop_step p (-1) l; Some (set_caller p (InFor l))
  | _ => None
  end.

(** The destructor up to its joins. *)
Definition shutdown (p : ThreadPool) : ThreadPool :=
  mkPool (workers p) ((λ _, false) <$> running p) (worker_done p) (next_tile p) (total_tiles p)
    (grain_size p) (callback p) Gone (executed p).

Inductive action :=
| Call (total grain : Z)
| Caller
| Worker (i : nat)
| Destroy.

Definition step (p : ThreadPool) (a : action) : option ThreadPool :=
  match a with
  | Call total grain =>
    match caller p with
    | Idle => Some (parallelFor p total grain)
    | _ => None
    end
  | Caller => caller_step p
  | Worker i => workerLoop_step p i
  | Destroy =>
    match caller p with
    | Idle => Some (shutdown p)
    | _ => None
    end
  end.

Fixpoint run (p : ThreadPool) (actions : list action) : option ThreadPool :=
  match actions with
  | [] => Some p
  | a :: actions => p' ← step p a; run p' actions
  end.

(** ** Scratch buffers *)
Record Scratch := mkScratch { scratch : Z; scratch_size : Z }.

Definition valid_worker (buffers : list Scratch) (worker_id : Z) : bool :=
  negb ((worker_id <? 0) || (worker_id >=? Z.of_nat (length buffers))).

Definition getScratch (buffers : list Scratch) (worker_id : Z) : Z :=
  if valid_worker buffers worker_id
  then from_option scratch 0 (buffers !! Z.to_nat worker_id) else 0.

(** The buffers, and the pointer that was freed. *)
Definition setScratch (buffers : list Scratch) (worker_id ptr size : Z) : list Scratch * option Z :=
  if valid_worker buffers worker_id
  then (<[Z.to_nat worker_id := mkScratch ptr size]> buffers,
        scratch <$> buffers !! Z.to_nat worker_id)
  else (buffers, None).

(** ** The barrier

    A thread loads the epoch, adds itself to the count, and either spins until
    the epoch moves or, as the last, advances the epoch and then clears the
    count. *)
Inductive barrier_phase :=
| Outside
| Loaded (epoch : Z)
| Spinning (epoch : Z)
| Last
| Advanced.

Record Barrier := mkBarrier {
  barrier_count : Z;
  barrier_epoch : Z;
  barrier_target : Z;
  threads : list barrier_phase;
  passed : list nat;
}.

Definition newBarrier (n : nat) : Barrier :=
  mkBarrier 0 0 (Z.of_nat n) (replicate n Outside) (replicate n O).

Definition set_thread (b : Barrier) (i : nat) (t : barrier_phase) : Barrier :=
  mkBarrier (barrier_count b) (barrier_epoch b) (barrier_target b) (<[i := t]> (threads b)) (passed b).
Definition leave (b : Barrier) (i : nat) : Barrier :=
  mkBarrier (barrier_count b) (barrier_epoch b) (barrier_target b) (<[i := Outside]> (threads b))
    (alter S i (passed b)).

Definition barrier_step (b : Barrier) (i : nat) : option Barrier :=
  match threads b !! i with
  | Some Outside => Some (set_thread b i (Loaded (barrier_epoch b)))
  | Some (Loaded epoch) =>
    let count := barrier_count b + 1 in
    Some (set_thread (mkBarrier count (barrier_epoch b) (barrier_target b) (threads b) (passed b)) i
            (if count =? barrier_target b then Last else Spinning epoch))
  | Some Last =>
    Some (set_thread (mkBarrier (barrier_count b) (barrier_epoch b + 1) (barrier_target b) (threads b)
            (passed b)) i Advanced)
  | Some Advanced =>
    Some (leave (mkBarrier 0 (barrier_epoch b) (barrier_target b) (threads b) (passed b)) i)
  | Some (Spinning epoch) => if barrier_epoch b =? epoch then Some b else Some (leave b i)
  | None => None
  end.

Fixpoint barrier_run (b : Barrier) (schedule : list nat) : option Barrier :=
  match schedule with
  | [] => Some b
  | i :: schedule => b' ← barrier_step b i; barrier_run b' schedule
  end.

(** ** Sums over the participants *)

(** Changing one index of a concatenation changes one piece. *)
Lemma join_change {A} (F : nat → list A) l i : NoDup l → i ∈ l →
  ∃ R, mjoin (F <$> l) ≡ₚ F i ++ R ∧
    ∀ F', (∀ j, j ≠ i → F' j = F j) → mjoin (F' <$> l) ≡ₚ F' i ++ R.
Proof.
  induction l as [|x l IH]; intros Hnd Hi; [by apply elem_of_nil in Hi|].
  apply NoDup_cons in Hnd as [Hx Hnd]. destruct (decide (x = i)) as [->|Hne].
  - exists (mjoin (F <$> l)). split; [done|]. intros F' HF. rewrite fmap_cons. cbn.
    assert (F' <$> l = F <$> l) as ->; [|done].
    apply list_fmap_ext. intros k j Hj. apply HF. intros ->. apply Hx. by eapply list_elem_of_lookup_2.
  - apply elem_of_cons in Hi as [?|Hi]; [congruence|]. destruct (IH Hnd Hi) as (R & H1 & H2).
    exists (F x ++ R)%list. split.
    + rewrite fmap_cons. cbn. rewrite H1. by rewrite !(assoc_L (++)), (comm (++) (F x) (F i)).
    + intros F' HF. rewrite fmap_cons. cbn. rewrite (H2 F' HF), (HF x Hne).
      by rewrite !(assoc_L (++)), (comm (++) (F x) (F' i)).
Qed.

Lemma filter_change (P P' : nat → bool) (l : list nat) i : NoDup l → i ∈ l →
  (∀ j, j ≠ i → P' j = P j) →
  (length (filter (λ j, P' j = true) l) + Nat.b2n (P i) =
   length (filter (λ j, P j = true) l) + Nat.b2n (P' i))%nat.
Proof.
  intros Hnd Hi HP. induction l as [|x l IH]; [by apply elem_of_nil in Hi|].
  apply NoDup_cons in Hnd as [Hx Hnd]. destruct (decide (x = i)) as [->|Hne].
  - assert (filter (λ j, P' j = true) l = filter (λ j, P j = true) l) as Heq.
    { clear IH Hi Hnd. induction l as [|y l IH]; [done|]. apply not_elem_of_cons in Hx as [Hy Hx].
      rewrite !filter_cons, HP, IH by auto. done. }
    rewrite !filter_cons, Heq. destruct (P i), (P' i); repeat destruct (decide _); try done; cbn; lia.
  - apply elem_of_cons in Hi as [?|Hi]; [congruence|]. specialize (IH Hnd Hi).
    rewrite !filter_cons, (HP x Hne). destruct (decide (P x = true)); cbn; lia.
Qed.

Lemma filter_same (P P' : nat → bool) (l : list nat) : (∀ j, j ∈ l → P' j = P j) →
  filter (λ j, P' j = true) l = filter (λ j, P j = true) l.
Proof.
  induction l as [|x l IH]; intros HP; [done|]. rewrite !filter_cons, HP by left.
  rewrite IH by (intros; apply HP; by right). done.
Qed.

(** ** The invariant

    Participant [i < n] is worker [i], participant [n] is the caller. *)
Definition loop_of (n : nat) (p : ThreadPool) (i : nat) : option tile_loop :=
  if decide (i = n) then match caller p with InFor l => Some l | _ => None end
  else match workers p !! i with Some (Looping l) => Some l | _ => None end.

(** The tiles a participant has claimed and not yet run. *)
Definition pend (l : option tile_loop) : list Z :=
  match l with
  | Some (Running t e) => seqZ t (e - t)
  | _ => []
  end.
Definition pending (n : nat) (p : ThreadPool) : list Z := mjoin ((λ i, pend (loop_of n p i)) <$> seq 0 (S n)).

(** Whether a participant has found the tiles exhausted in this round. *)
Definition is_exhausted (l : option tile_loop) : bool :=
  match l with Some Exhausted => true | _ => false end.
Definition failed (n : nat) (p : ThreadPool) (i : nat) : bool :=
  is_exhausted (loop_of n p i) || (bool_decide (i ≠ n) && default false (worker_done p !! i)).
Definition fails (n : nat) (p : ThreadPool) : nat :=
  length (filter (λ i, failed n p i = true) (seq 0 (S n))).

#[local] Arguments fails : simpl never.
#[local] Arguments pending : simpl never.

(** The largest value the counter reaches fits: every participant overshoots at
    most once. *)
Definition call_ok (n : nat) (total grain : Z) : Prop :=
  total + (Z.of_nat n + 2) * Z.max 1 grain ≤ 2 ^ 63.

Record in_round (n : nat) (p : ThreadPool) : Prop := {
  r_callback : callback p = true;
  r_total : 0 < total_tiles p;
  r_grain : 1 ≤ grain_size p;
  r_fit : call_ok n (total_tiles p) (grain_size p);
  r_next : 0 ≤ next_tile p ≤ total_tiles p - 1 + grain_size p * (1 + Z.of_nat (fails n p));
  r_out : (0 < fails n p)%nat → total_tiles p ≤ next_tile p;
  r_perm : (executed p).*1 ++ pending n p ≡ₚ seqZ 0 (Z.min (next_tile p) (total_tiles p));
  r_chunk : ∀ i t e, loop_of n p i = Some (Running t e) → t ≤ e;
}.

Definition same_round (p p' : ThreadPool) : Prop :=
  callback p' = callback p ∧ total_tiles p' = total_tiles p ∧ grain_size p' = grain_size p ∧
  next_tile p' = next_tile p ∧ executed p' = executed p.

(** Steps that change neither the claimed tiles nor who has given up. *)
Lemma in_round_same n p p' : in_round n p → same_round p p' →
  (∀ i, (i ≤ n)%nat → pend (loop_of n p' i) = pend (loop_of n p i) ∧ failed n p' i = failed n p i) →
  (∀ i t e, loop_of n p' i = Some (Running t e) → t ≤ e) →
  in_round n p'.
Proof.
  intros [H1 H2 H3 H4 H5 H6 H7 H8] (E1 & E2 & E3 & E4 & E5) Hi Hc.
  assert (fails n p' = fails n p) as Ef.
  { unfold fails. f_equal. apply filter_same. intros j Hj%elem_of_seq. apply Hi. lia. }
  assert (pending n p' = pending n p) as Ep.
  { unfold pending. f_equal. apply list_fmap_ext. intros k j Hj%list_elem_of_lookup_2%elem_of_seq. apply Hi. lia. }
  split; rewrite ?E1, ?E2, ?E3, ?E4, ?E5, ?Ef, ?Ep; done.
Qed.

Lemma i64_id z : - 2 ^ 63 ≤ z < 2 ^ 63 → i64 z = z.
Proof. intros H. unfold i64. rewrite Z.mod_small; lia. Qed.

Lemma fails_bound n p i : (i ≤ n)%nat → failed n p i = false → (fails n p ≤ n)%nat.
Proof.
  intros Hi Hf. unfold fails.
  pose proof (filter_change (failed n p) (λ j, if decide (j = i) then true else failed n p j) (seq 0 (S n)) i
    (NoDup_seq _ _)) as H.
  rewrite Hf in H. rewrite decide_True in H by done. cbn [Nat.b2n] in H.
  pose proof (length_filter (λ j, (if decide (j = i) then true else failed n p j) = true) (seq 0 (S n))) as Hl.
  rewrite length_seq in Hl. specialize (H ltac:(apply elem_of_seq; lia)).
  specialize (H ltac:(intros j Hj; by rewrite decide_False)). lia.
Qed.

(** What a claim does to the counter: it never wraps, and it overshoots only once
    the tiles are out. *)
Lemma claim_next n p i : in_round n p → (i ≤ n)%nat → failed n p i = false →
  i64 (next_tile p + grain_size p) = next_tile p + grain_size p.
Proof.
  intros [_ H2 H3 H4 H5 _ _ _] Hi Hf. pose proof (fails_bound n p i Hi Hf). unfold call_ok in H4.
  apply i64_id. rewrite Z.max_r in H4 by done. nia.
Qed.

Lemma fails_change n p p' i : (i ≤ n)%nat → (∀ j, j ≠ i → failed n p' j = failed n p j) →
  (fails n p' + Nat.b2n (failed n p i) = fails n p + Nat.b2n (failed n p' i))%nat.
Proof.
  intros Hi Hf. apply (filter_change (failed n p) (failed n p')); [apply NoDup_seq|apply elem_of_seq; lia|done].
Qed.

Lemma pending_change n p p' i l l' : (i ≤ n)%nat → loop_of n p i = l → loop_of n p' i = l' →
  (∀ j, j ≠ i → loop_of n p' j = loop_of n p j) →
  ∃ R, pending n p ≡ₚ pend l ++ R ∧ pending n p' ≡ₚ pend l' ++ R.
Proof.
  intros Hi <- <- Hl. unfold pending.
  destruct (join_change (λ j, pend (loop_of n p j)) (seq 0 (S n)) i) as (R & H1 & H2);
    [apply NoDup_seq|apply elem_of_seq; lia|].
  exists R. split; [done|]. apply (H2 (λ j, pend (loop_of n p' j))). intros j Hj. by rewrite Hl.
Qed.

(** An action of the loop keeps the invariant, whichever participant performs it. *)
Lemma in_round_loop n p p1 p' i w l l' :
  in_round n p → (i ≤ n)%nat → loop_of n p i = Some l →
  (bool_decide (i ≠ n) && default false (worker_done p !! i)) = false →
  loop_step p w l = Some (l', p1) → same_round p1 p' → worker_done p' = worker_done p →
  loop_of n p' i = Some l' → (∀ j, j ≠ i → loop_of n p' j = loop_of n p j) →
  in_round n p'.
Proof.
  intros Hr Hi Hl Hnd Hstep (E1 & E2 & E3 & E4 & E5) Ed Hl' Hoth.
  assert (failed n p i = is_exhausted (Some l)) as Hfi by (unfold failed; by rewrite Hl, Hnd, orb_false_r).
  assert (failed n p' i = is_exhausted (Some l')) as Hfi'
    by (unfold failed; by rewrite Hl', Ed, Hnd, orb_false_r).
  pose proof (fails_change n p p' i Hi) as Hfails.
  specialize (Hfails ltac:(intros j Hj; unfold failed; by rewrite (Hoth j Hj), Ed)).
  rewrite Hfi, Hfi' in Hfails.
  destruct (pending_change n p p' i (Some l) (Some l') Hi Hl Hl' Hoth) as (R & HR & HR').
  pose proof (claim_next n p i Hr Hi) as Hclaim. pose proof Hr as [H1 H2 H3 H4 H5 H6 H7 H8].
  assert (∀ j t e, j ≠ i → loop_of n p' j = Some (Running t e) → t ≤ e) as Hchunk.
  { intros j t e Hj. rewrite (Hoth j Hj). apply H8. }
  rewrite HR in H7. destruct l as [|t e|]; cbn in Hfails, H7; [|specialize (H8 i t e Hl)|done].
  - rewrite Hfi in Hclaim. specialize (Hclaim eq_refl). unfold loop_step, claim in Hstep.
    injection Hstep as Hl1 <-. cbn in E1, E2, E3, E4, E5. rewrite Hclaim in E4.
    rewrite <- Hl1 in Hfails, HR', Hl'. destruct (next_tile p >=? total_tiles p) eqn:Hcmp; cbn in Hfails, HR'.
    + apply Z.geb_le in Hcmp.
      split; rewrite ?E1, ?E2, ?E3, ?E4, ?E5; try done.
      * rewrite Nat.add_0_r in Hfails. rewrite Hfails. nia.
      * intros _. lia.
      * rewrite HR', H7. by replace (Z.min (next_tile p + grain_size p) (total_tiles p)) with
          (Z.min (next_tile p) (total_tiles p)) by lia.
      * intros j t e Hj. destruct (decide (j = i)) as [->|]; [congruence|by eapply Hchunk].
    + rewrite Z.geb_leb in Hcmp. apply Z.leb_gt in Hcmp.
      assert (fails n p = O) as Hz by (destruct (fails n p); [done|]; specialize (H6 ltac:(lia)); lia).
      split; rewrite ?E1, ?E2, ?E3, ?E4, ?E5; try done.
      * assert (fails n p' = O) as -> by lia. nia.
      * lia.
      * rewrite HR', (Permutation_app_comm (seqZ _ _)), app_assoc, H7.
        replace (Z.min (next_tile p) (total_tiles p)) with (next_tile p) by lia.
        replace (Z.min (next_tile p + grain_size p) (total_tiles p)) with
          (next_tile p + (Z.min (next_tile p + grain_size p) (total_tiles p) - next_tile p)) at 2 by lia.
        rewrite seqZ_app by lia. done.
      * intros j t e Hj. destruct (decide (j = i)) as [->|]; [|by eapply Hchunk].
        rewrite Hl' in Hj. injection Hj as <- <-. lia.
  - cbn [loop_step] in Hstep. destruct (t <? e) eqn:Hlt; injection Hstep as <- <-;
      cbn in E1, E2, E3, E4, E5, Hfails, HR'.
    + apply Z.ltb_lt in Hlt. rewrite !Nat.add_0_r in Hfails.
      split; rewrite ?E1, ?E2, ?E3, ?E4, ?E5, ?Hfails; try done.
      * rewrite HR', <- H7, fmap_app. cbn. rewrite (seqZ_cons t) by lia.
        rewrite <- app_assoc. cbn. f_equiv. f_equiv.
        unfold Z.succ. replace (Z.pred (e - t)) with (e - (t + 1)) by lia. done.
      * intros j t' e' Hj. destruct (decide (j = i)) as [->|]; [|by eapply Hchunk].
        rewrite Hl' in Hj. injection Hj as <- <-. lia.
    + apply Z.ltb_ge in Hlt. rewrite !Nat.add_0_r in Hfails.
      split; rewrite ?E1, ?E2, ?E3, ?E4, ?E5, ?Hfails; try done.
      * rewrite HR', <- H7. replace (e - t) with 0 by lia. done.
      * intros j t' e' Hj. destruct (decide (j = i)) as [->|]; [congruence|by eapply Hchunk].
Qed.

Record pool_inv (n : nat) (p : ThreadPool) : Prop := {
  i_workers : length (workers p) = n;
  i_done : length (worker_done p) = n;
  i_running : length (running p) = n;
  i_loop : ∀ i l, workers p !! i = Some (Looping l) → worker_done p !! i = Some false;
  i_alive : caller p ≠ Gone → (∀ i, (i < n)%nat → running p !! i = Some true) ∧
    ∀ i, workers p !! i ≠ Some Exited;
  i_phase : match caller p with
            | InFor _ => in_round n p
            | _ => callback p = false ∧ ∀ i l, workers p !! i ≠ Some (Looping l)
            end;
}.

Lemma newPool_inv num_threads :
  pool_inv (Z.to_nat (if num_threads <? 1 then 1 else num_threads)) (newPool num_threads).
Proof.
  unfold newPool. split; cbn; rewrite ?length_replicate; try done.
  - by intros i l [? _]%lookup_replicate.
  - intros _. split; [intros i Hi; by apply lookup_replicate|]. by intros i [? _]%lookup_replicate.
  - split; [done|]. by intros i l [? _]%lookup_replicate.
Qed.

Lemma parallelFor_inv n p total grain : pool_inv n p → caller p = Idle → call_ok n total grain →
  pool_inv n (parallelFor p total grain).
Proof.
  intros Hp Hc Hok. pose proof Hp as [H1 H2 H3 H4 H5 H6]. unfold parallelFor.
  destruct (total <=? 0) eqn:Ht; [done|]. apply Z.leb_gt in Ht.
  rewrite Hc in H6. destruct H6 as [Hcb Hno]. destruct (H5 ltac:(by rewrite Hc)) as [Hrun Hex].
  set (p' := mkPool _ _ _ _ _ _ _ _ _).
  assert (∀ i, loop_of n p' i = if decide (i = n) then Some Claiming else None) as Hl.
  { intros i. unfold loop_of. destruct (decide (i = n)); [done|]. cbn.
    destruct (workers p !! i) as [[| |]|] eqn:Hi; try done. by destruct (Hno i l). }
  assert (∀ i, failed n p' i = false) as Hf.
  { intros i. unfold failed. rewrite Hl. destruct (decide (i = n)) as [->|Hne]; cbn.
    - by rewrite bool_decide_false by auto.
    - rewrite list_lookup_fmap. destruct (worker_done p !! i); cbn; apply andb_false_r. }
  assert (fails n p' = O) as Hfails.
  { unfold fails. induction (seq 0 (S n)) as [|i l IH]; [done|].
    by rewrite filter_cons_False by (by rewrite Hf). }
  assert (pending n p' = []) as Hpend.
  { unfold pending. apply join_nil, Forall_forall. intros x (i & -> & _)%list_elem_of_fmap.
    rewrite Hl. by destruct (decide (i = n)). }
  split; cbn; rewrite ?length_fmap; try done.
  - intros i l Hi. by destruct (Hno i l).
  - split; cbn; rewrite ?Hfails, ?Hpend; try done; try lia.
    + unfold call_ok in *. by rewrite Z.max_r by lia.
    + cbn. rewrite Z.min_l by lia. done.
    + intros i t e. rewrite Hl. by destruct (decide (i = n)).
Qed.

Lemma loop_of_worker n p i l : (i < n)%nat → workers p !! i = Some (Looping l) → loop_of n p i = Some l.
Proof. intros Hi Hw. unfold loop_of. rewrite decide_False by lia. by rewrite Hw. Qed.

Lemma loop_step_frame p w l l' p' : loop_step p w l = Some (l', p') →
  workers p' = workers p ∧ worker_done p' = worker_done p ∧ running p' = running p ∧
  caller p' = caller p.
Proof.
  destruct l as [|t e|]; cbn; [intros [= _ <-]; done| |done].
  destruct (t <? e); intros [= _ <-]; done.
Qed.

Lemma in_round_chunk n p i t e : in_round n p → loop_of n p i = Some (Running t e) → t ≤ e.
Proof. intros [_ _ _ _ _ _ _ H] Hi. by eapply H. Qed.

Lemma worker_in_round n p i l : pool_inv n p → workers p !! i = Some (Looping l) →
  ∃ lc, caller p = InFor lc ∧ in_round n p.
Proof.
  intros [_ _ _ _ _ H6] Hi. destruct (caller p) as [|lc|]; [|by eauto|];
    destruct H6 as [_ Hno]; by destruct (Hno i l).
Qed.

(** A worker that signals completion had found the tiles exhausted. *)
Lemma worker_finish_inv n p i : pool_inv n p → workers p !! i = Some (Looping Exhausted) →
  pool_inv n (set_done (set_worker p i Waiting) i).
Proof.
  intros Hp Hi. destruct (worker_in_round n p i _ Hp Hi) as (lc & Hc & Hr).
  pose proof Hp as [H1 H2 H3 H4 H5 H6].
  assert (i < n)%nat as Hin by (apply lookup_lt_Some in Hi; lia).
  assert (∀ j, j ≠ i → loop_of n (set_done (set_worker p i Waiting) i) j = loop_of n p j) as Hoth.
  { intros j Hj. unfold loop_of. cbn. by rewrite list_lookup_insert_ne. }
  assert (loop_of n (set_done (set_worker p i Waiting) i) i = None) as Hli.
  { unfold loop_of. rewrite decide_False by lia. cbn. by rewrite list_lookup_insert_eq by lia. }
  split; cbn; rewrite ?length_insert, ?Hc; try done.
  - intros j l [(_ & [=] & _)|[Hne Hj]]%list_lookup_insert_Some. rewrite list_lookup_insert_ne by done.
    by eapply H4.
  - intros _. destruct (H5 ltac:(by rewrite Hc)) as [Hrun Hex]. split; [done|].
    intros j [(_ & [=] & _)|[_ Hj]]%list_lookup_insert_Some. by destruct (Hex j).
  - apply (in_round_same n p); [done|done| |].
    + intros j Hj. destruct (decide (j = i)) as [->|Hne].
      * unfold failed. rewrite Hli, (loop_of_worker n p i Exhausted) by done. cbn.
        rewrite list_lookup_insert_eq by lia. by rewrite bool_decide_true by lia.
      * unfold failed. rewrite (Hoth j Hne). cbn. by rewrite list_lookup_insert_ne.
    + intros j t e. destruct (decide (j = i)) as [->|Hne]; [by rewrite Hli|].
      rewrite (Hoth j Hne). by apply in_round_chunk.
Qed.

Lemma worker_loop_inv n p i l p' : pool_inv n p → workers p !! i = Some (Looping l) →
  ('(l, p) ← loop_step p (Z.of_nat i) l; Some (set_worker p i (Looping l))) = Some p' →
  pool_inv n p'.
Proof.
  intros Hp Hi Hstep. destruct (worker_in_round n p i l Hp Hi) as (lc & Hc & Hr).
  pose proof Hp as [H1 H2 H3 H4 H5 H6].
  assert (i < n)%nat as Hin by (apply lookup_lt_Some in Hi; lia).
  apply bind_Some in Hstep as ([l' p1] & Hl & [= <-]).
  destruct (loop_step_frame _ _ _ _ _ Hl) as (Fw & Fd & Fr & Fc).
  assert (worker_done p !! i = Some false) as Hd by (by eapply H4).
  split; cbn; rewrite ?length_insert, ?Fw, ?Fd, ?Fr, ?Fc, ?Hc; try done.
  - intros j l2 [(<- & _ & _)|[_ Hj]]%list_lookup_insert_Some; [done|by eapply H4].
  - intros _. destruct (H5 ltac:(by rewrite Hc)) as [Hrun Hex]. split; [done|].
    intros j [(_ & [=] & _)|[_ Hj]]%list_lookup_insert_Some. by destruct (Hex j).
  - eapply (in_round_loop n p p1 _ i (Z.of_nat i) l l'); [done|lia|by apply loop_of_worker| |done|done|done| |].
    + by rewrite Hd, andb_false_r.
    + apply loop_of_worker; [done|]. cbn. rewrite Fw. by rewrite list_lookup_insert_eq by lia.
    + intros j Hj. unfold loop_of. cbn. by rewrite Fw, Fc, list_lookup_insert_ne.
Qed.

(** A worker's action. *)
Lemma worker_step_inv n p i p' : pool_inv n p → workerLoop_step p i = Some p' → pool_inv n p'.
Proof.
  intros Hp Hstep. pose proof Hp as [H1 H2 H3 H4 H5 H6]. unfold workerLoop_step in Hstep.
  destruct (workers p !! i) as [[|l|]|] eqn:Hi; try done.
  - assert (i < n)%nat as Hin by (apply lookup_lt_Some in Hi; lia).
    destruct (negb (default false (running p !! i))) eqn:Hrun.
    + injection Hstep as <-. assert (caller p = Gone) as Hg.
      { destruct (caller p) eqn:Hc; [..|done]; destruct (H5 ltac:(done)) as [Hr _];
          by rewrite (Hr i Hin) in Hrun. }
      rewrite Hg in H6. destruct H6 as [Hcb Hno].
      split; cbn; rewrite ?length_insert, ?Hg; try done.
      * intros j l [(_ & [=] & _)|[_ Hj]]%list_lookup_insert_Some. by eapply H4.
      * split; [done|]. intros j l [(_ & [=] & _)|[_ Hj]]%list_lookup_insert_Some. by destruct (Hno j l).
    + destruct (callback p && negb (default false (worker_done p !! i))) eqn:Hgo; [|done].
      injection Hstep as <-. apply andb_true_iff in Hgo as [Hcb Hd].
      assert (worker_done p !! i = Some false) as Hdi.
      { destruct (lookup_lt_is_Some_2 (worker_done p) i) as [b Hb]; [lia|]. rewrite Hb in *. by destruct b. }
      destruct (caller p) as [|lc|] eqn:Hc; [destruct H6; congruence| |destruct H6; congruence].
      destruct (H5 ltac:(done)) as [Hr Hex].
      split; cbn; rewrite ?length_insert, ?Hc; try done.
      * intros j l [(<- & _ & _)|[_ Hj]]%list_lookup_insert_Some; [done|by eapply H4].
      * intros _. split; [done|]. intros j [(_ & [=] & _)|[_ Hj]]%list_lookup_insert_Some. by destruct (Hex j).
      * apply (in_round_same n p); [done|done| |].
        -- intros j Hj. unfold failed, loop_of. cbn. destruct (decide (j = n)) as [->|Hjn]; [done|].
           destruct (decide (j = i)) as [->|Hji].
           ++ rewrite list_lookup_insert_eq by lia. by rewrite Hi.
           ++ by rewrite list_lookup_insert_ne.
        -- intros j t e. unfold loop_of. cbn. destruct (decide (j = n)) as [->|Hjn].
           { intros Hj. apply (in_round_chunk n p n t e H6). unfold loop_of. by rewrite decide_True. }
           destruct (decide (j = i)) as [->|Hji]; [by rewrite list_lookup_insert_eq by lia|].
           rewrite list_lookup_insert_ne by done. intros Hj. apply (in_round_chunk n p j t e H6).
           unfold loop_of. by rewrite decide_False.
  - assert (i < n)%nat as Hin by (apply lookup_lt_Some in Hi; lia).
    destruct (worker_in_round n p i l Hp Hi) as (lc & Hc & Hr).
    destruct l as [|t e|].
    + eapply (worker_loop_inv n p i); done.
    + eapply (worker_loop_inv n p i); done.
    + injection Hstep as <-. by apply worker_finish_inv.
Qed.

Lemma all_done (l : list bool) i : forallb id l = true → (i < length l)%nat → l !! i = Some true.
Proof.
  intros Hl Hi. destruct (lookup_lt_is_Some_2 l i Hi) as [b Hb]. rewrite Hb. f_equal.
  rewrite forallb_forall in Hl. apply (Hl b). apply list_elem_of_In. by eapply list_elem_of_lookup_2.
Qed.

(** The caller's action. *)
Lemma caller_step_inv n p p' : pool_inv n p → caller_step p = Some p' → pool_inv n p'.
Proof.
  intros Hp Hstep. pose proof Hp as [H1 H2 H3 H4 H5 H6]. unfold caller_step in Hstep.
  destruct (caller p) as [|l|] eqn:Hc; [done| |done].
  assert (∀ l', l = l' → l' ≠ Exhausted →
    ('(l, p) ← loop_step p (-1) l'; Some (set_caller p (InFor l))) = Some p' → pool_inv n p') as Hloop.
  { intros ? <- Hne Hs. apply bind_Some in Hs as ([l' p1] & Hl & [= <-]).
    destruct (loop_step_frame _ _ _ _ _ Hl) as (Fw & Fd & Fr & Fc).
    split; cbn; rewrite ?Fw, ?Fd, ?Fr; try done.
    - intros _. by apply H5.
    - eapply (in_round_loop n p p1 _ n (-1) l l'); [done|lia| | |done|done|done| |].
      + unfold loop_of. by rewrite decide_True, Hc.
      + by rewrite bool_decide_false by auto.
      + unfold loop_of. by rewrite decide_True.
      + intros j Hj. unfold loop_of. rewrite !decide_False by done. cbn. by rewrite Fw. }
  destruct l as [|t e|]; [by eapply Hloop|by eapply Hloop|].
  destruct (forallb id (worker_done p)) eqn:Hall; [|done]. injection Hstep as <-.
  split; cbn; try done.
  - intros _. by apply H5.
  - split; [done|]. intros i l Hi. pose proof (H4 i l Hi) as Hd.
    rewrite (all_done _ i Hall) in Hd; [done|]. apply lookup_lt_Some in Hi. lia.
Qed.

Lemma shutdown_inv n p : pool_inv n p → caller p = Idle → pool_inv n (shutdown p).
Proof.
  intros [H1 H2 H3 H4 H5 H6] Hc. rewrite Hc in H6. split; cbn; rewrite ?length_fmap; done.
Qed.

(** The calls of a run. *)
Definition action_ok (n : nat) (a : action) : Prop :=
  match a with
  | Call total grain => call_ok n total grain
  | _ => True
  end.

Lemma step_inv n p a p' : pool_inv n p → action_ok n a → step p a = Some p' → pool_inv n p'.
Proof.
  intros Hp Ha. destruct a as [total grain| |i|]; cbn in *.
  - destruct (caller p) eqn:Hc; [|done..]. intros [= <-]. by apply parallelFor_inv.
  - by apply caller_step_inv.
  - by apply worker_step_inv.
  - destruct (caller p) eqn:Hc; [|done..]. intros [= <-]. by apply shutdown_inv.
Qed.

Lemma run_inv n p actions p' : pool_inv n p → Forall (action_ok n) actions →
  run p actions = Some p' → pool_inv n p'.
Proof.
  revert p. induction actions as [|a actions IH]; intros p Hp; cbn [run]; [by intros _ [= <-]|].
  intros [Ha Hr]%Forall_cons (p1 & H1 & H2)%bind_Some. eapply IH; [by eapply step_inv|done|done].
Qed.

(** C13: Whatever the interleaving of the workers and the caller over any number
    of calls, when a [parallelFor] returns each of its tiles 0 .. total-1 has been
    run exactly once, and no worker is inside the callback any more; the chunk
    overshoots of all participants must fit the 64-bit counter. *)
Theorem parallelFor_runs_each_tile_once num_threads actions p p' :
  let n := Z.to_nat (if num_threads <? 1 then 1 else num_threads) in
  Forall (action_ok n) actions →
  run (newPool num_threads) actions = Some p →
  step p Caller = Some p' → caller p' = Idle →
  (executed p').*1 ≡ₚ seqZ 0 (total_tiles p') ∧
  ∀ i l, workers p' !! i ≠ Some (Looping l).
Proof.
  intros n Hok Hrun Hstep Hidle.
  pose proof (run_inv n _ _ _ (newPool_inv num_threads) Hok Hrun) as Hp.
  pose proof (caller_step_inv n p p' Hp Hstep) as Hp'.
  destruct Hp' as [_ _ _ _ _ H6']. rewrite Hidle in H6'. split; [|by apply H6'].
  pose proof Hp as [H1 H2 H3 H4 H5 H6]. cbn in Hstep. unfold caller_step in Hstep.
  destruct (caller p) as [|l|] eqn:Hc; [done| |done].
  destruct l as [|t e|]; [apply bind_Some in Hstep as ([l' p1] & _ & [= <-]); discriminate Hidle..|].
  destruct (forallb id (worker_done p)) eqn:Hall; [|done]. injection Hstep as <-. cbn.
  assert (∀ i, pend (loop_of n p i) = []) as Hpend.
  { intros i. unfold loop_of. destruct (decide (i = n)); [by rewrite Hc|].
    destruct (workers p !! i) as [[|l|]|] eqn:Hi; try done. pose proof (H4 i l Hi) as Hd.
    rewrite (all_done _ i Hall) in Hd; [done|]. apply lookup_lt_Some in Hi. lia. }
  destruct H6 as [_ _ _ _ Hn Hout Hperm _].
  assert (pending n p = []) as Hnil.
  { unfold pending. apply join_nil, Forall_forall. intros x (i & -> & _)%list_elem_of_fmap. apply Hpend. }
  rewrite Hnil, app_nil_r in Hperm. rewrite Hperm, Z.min_r; [done|]. apply Hout.
  unfold fails. apply Nat.neq_0_lt_0. rewrite length_zero_iff_nil. intros Hf.
  assert (n ∈ filter (λ i, failed n p i = true) (seq 0 (S n))) as Hin.
  { apply list_elem_of_filter. split; [|apply elem_of_seq; lia].
    unfold failed, loop_of. by rewrite decide_True, Hc. }
  rewrite Hf in Hin. by apply elem_of_nil in Hin.
Qed.

(** ** Termination

    Every action of a thread inside a [parallelFor] lowers a measure: the tiles
    not yet claimed, the tiles claimed and not yet run, and the positions of the
    participants on their way to the end of the round. *)
Definition weight (n : nat) (p : ThreadPool) (i : nat) : nat :=
  match loop_of n p i with
  | Some Claiming => 3
  | Some (Running t e) => Z.to_nat (e - t) + 4
  | Some Exhausted => 2
  | None => if bool_decide (i ≠ n) && negb (default false (worker_done p !! i)) then 4 else 0
  end.
Definition unclaimed (p : ThreadPool) : nat := Z.to_nat (total_tiles p - next_tile p).
Definition weights (n : nat) (p : ThreadPool) : nat := sum_list_with (weight n p) (seq 0 (S n)).
Definition measure (n : nat) (p : ThreadPool) : nat := 3 * unclaimed p + weights n p.
#[local] Arguments weights : simpl never.

Lemma sum_change (F F' : nat → nat) (l : list nat) i : NoDup l → i ∈ l → (∀ j, j ≠ i → F' j = F j) →
  (sum_list_with F' l + F i = sum_list_with F l + F' i)%nat.
Proof.
  intros Hnd Hi HF. induction l as [|x l IH]; [by apply elem_of_nil in Hi|].
  apply NoDup_cons in Hnd as [Hx Hnd]. cbn. destruct (decide (x = i)) as [->|Hne].
  - assert (sum_list_with F' l = sum_list_with F l); [|lia].
    clear IH Hi Hnd. induction l as [|y l IH]; [done|]. apply not_elem_of_cons in Hx as [Hy Hx].
    cbn. rewrite HF, IH by auto. done.
  - apply elem_of_cons in Hi as [?|Hi]; [congruence|]. specialize (IH Hnd Hi). rewrite (HF x Hne). lia.
Qed.

Lemma weights_change n p p' i : (i ≤ n)%nat → (∀ j, j ≠ i → weight n p' j = weight n p j) →
  (weights n p' + weight n p i = weights n p + weight n p' i)%nat.
Proof. intros Hi HF. apply sum_change; [apply NoDup_seq|apply elem_of_seq; lia|done]. Qed.

Lemma loop_measure n p p1 p' i w l l' :
  in_round n p → (i ≤ n)%nat → loop_of n p i = Some l →
  (bool_decide (i ≠ n) && default false (worker_done p !! i)) = false →
  loop_step p w l = Some (l', p1) → same_round p1 p' → worker_done p' = worker_done p →
  loop_of n p' i = Some l' → (∀ j, j ≠ i → loop_of n p' j = loop_of n p j) →
  (measure n p' < measure n p)%nat.
Proof.
  intros Hr Hi Hl Hnd Hstep (E1 & E2 & E3 & E4 & E5) Ed Hl' Hoth.
  pose proof (weights_change n p p' i Hi) as Hw.
  specialize (Hw ltac:(intros j Hj; unfold weight; by rewrite (Hoth j Hj), Ed)).
  unfold weight at 1 2 in Hw. rewrite Hl, Hl' in Hw. unfold measure, unclaimed. rewrite E2, E4.
  destruct l as [|t e|]; [| |done].
  - pose proof (claim_next n p i Hr Hi) as Hclaim. pose proof (r_grain _ _ Hr).
    unfold failed in Hclaim. rewrite Hl, Hnd in Hclaim. specialize (Hclaim eq_refl).
    cbn in Hstep. unfold claim in Hstep. injection Hstep as Hl1 <-. cbn. rewrite Hclaim.
    destruct (next_tile p >=? total_tiles p) eqn:Hcmp; rewrite <- Hl1 in Hw; [lia|].
    rewrite Z.geb_leb in Hcmp. apply Z.leb_gt in Hcmp. lia.
  - pose proof (r_chunk _ _ Hr i t e Hl). cbn [loop_step] in Hstep.
    destruct (t <? e) eqn:Hlt; injection Hstep as <- <-; cbn; lia.
Qed.

Definition in_for (p : ThreadPool) : Prop := ∃ l, caller p = InFor l.
Definition thread_action (a : action) : Prop :=
  match a with
  | Caller | Worker _ => True
  | _ => False
  end.
Definition thread_step (p p' : ThreadPool) : Prop := ∃ a, thread_action a ∧ step p a = Some p'.

Lemma worker_measure n p i p' : pool_inv n p → in_for p → workerLoop_step p i = Some p' →
  (measure n p' < measure n p)%nat.
Proof.
  intros Hp [lc Hc] Hstep. pose proof Hp as [H1 H2 H3 H4 H5 H6]. rewrite Hc in H6.
  destruct (H5 ltac:(by rewrite Hc)) as [Hrun Hex].
  assert (i < n)%nat as Hin.
  { unfold workerLoop_step in Hstep. destruct (workers p !! i) eqn:Hi; [|done]. apply lookup_lt_Some in Hi. lia. }
  assert (∀ q w, workers q = <[i := w]> (workers p) → caller q = caller p →
    ∀ j, j ≠ i → loop_of n q j = loop_of n p j) as Hoth.
  { intros q w Hq Hqc j Hj. unfold loop_of. by rewrite Hq, Hqc, list_lookup_insert_ne. }
  unfold workerLoop_step in Hstep. destruct (workers p !! i) as [[|l|]|] eqn:Hi; try done.
  - rewrite (Hrun i Hin) in Hstep. cbn in Hstep.
    destruct (callback p && _) eqn:Hgo; [|done]. injection Hstep as <-. apply andb_true_iff in Hgo as [_ Hd].
    pose proof (weights_change n p (set_worker p i (Looping Claiming)) i ltac:(lia)) as Hw.
    specialize (Hw ltac:(intros j Hj; unfold weight; by rewrite (Hoth (set_worker p i (Looping Claiming)) (Looping Claiming) eq_refl eq_refl j Hj))).
    unfold weight at 1 2 in Hw. unfold loop_of in Hw. rewrite !decide_False in Hw by lia. cbn in Hw.
    rewrite Hi, list_lookup_insert_eq, Hd in Hw by lia. rewrite bool_decide_true in Hw by lia.
    cbn in Hw. unfold measure. change (unclaimed (set_worker p i (Looping Claiming))) with (unclaimed p). lia.
  - destruct (worker_in_round n p i l Hp Hi) as (_ & _ & Hr).
    assert (∀ l', l = l' → l' ≠ Exhausted →
      ('(l, p) ← loop_step p (Z.of_nat i) l'; Some (set_worker p i (Looping l))) = Some p' →
      (measure n p' < measure n p)%nat) as Hloop.
    { intros ? <- _ Hs. apply bind_Some in Hs as ([l' p1] & Hl & [= <-]).
      destruct (loop_step_frame _ _ _ _ _ Hl) as (Fw & Fd & _ & Fc).
      eapply (loop_measure n p p1 _ i (Z.of_nat i) l l'); [done|lia|by apply loop_of_worker| |done|done|done| |].
      - by rewrite (H4 i l Hi), andb_false_r.
      - apply loop_of_worker; [done|]. cbn. rewrite Fw. by rewrite list_lookup_insert_eq by lia.
      - apply (Hoth _ (Looping l')); cbn; by rewrite ?Fw, ?Fc. }
    destruct l as [|t e|]; [by eapply Hloop|by eapply Hloop|]. injection Hstep as <-.
    set (q := set_done (set_worker p i Waiting) i).
    pose proof (weights_change n p q i ltac:(lia)) as Hw.
    specialize (Hw ltac:(intros j Hj; unfold weight; rewrite (Hoth q Waiting eq_refl eq_refl j Hj); cbn;
      by rewrite list_lookup_insert_ne)).
    unfold weight at 1 2 in Hw. rewrite (loop_of_worker n p i Exhausted Hin Hi) in Hw.
    unfold loop_of in Hw. rewrite decide_False in Hw by lia. cbn in Hw.
    rewrite !list_lookup_insert_eq in Hw by lia. cbn in Hw. rewrite andb_false_r in Hw.
    unfold measure. change (unclaimed q) with (unclaimed p). lia.
Qed.

Lemma caller_measure n p p' : pool_inv n p → in_for p → caller_step p = Some p' →
  caller p' = Idle ∨ (measure n p' < measure n p)%nat.
Proof.
  intros [H1 H2 H3 H4 H5 H6] [l Hc] Hstep. unfold caller_step in Hstep. rewrite Hc in H6, Hstep.
  assert (∀ l', l = l' → ('(l, p) ← loop_step p (-1) l'; Some (set_caller p (InFor l))) = Some p' →
    (measure n p' < measure n p)%nat) as Hloop.
  { intros ? <- Hs. apply bind_Some in Hs as ([l' p1] & Hl & [= <-]).
    destruct (loop_step_frame _ _ _ _ _ Hl) as (Fw & Fd & _ & Fc).
    eapply (loop_measure n p p1 _ n (-1) l l'); [done|lia| | |done|done|done| |].
    - unfold loop_of. by rewrite decide_True, Hc.
    - by rewrite bool_decide_false by auto.
    - unfold loop_of. by rewrite decide_True.
    - intros j Hj. unfold loop_of. rewrite !decide_False by done. cbn. by rewrite Fw. }
  destruct l as [|t e|]; [right; by eapply Hloop|right; by eapply Hloop|].
  destruct (forallb id (worker_done p)); [|done]. injection Hstep as <-. by left.
Qed.

(** In a round some thread can always act. *)
Lemma round_progress n p : pool_inv n p → in_for p → ∃ p', thread_step p p'.
Proof.
  intros [H1 H2 H3 H4 H5 H6] [l Hc]. rewrite Hc in H6. destruct (H5 ltac:(by rewrite Hc)) as [Hrun Hex].
  assert (∀ w l', l' ≠ Exhausted → is_Some (loop_step p w l')) as Henabled.
  { intros w [|t e|] Hne; [by eexists| |done]. cbn. destruct (t <? e); by eexists. }
  destruct (decide (l = Exhausted)) as [->|Hne].
  2:{ destruct (Henabled (-1) l Hne) as [[l' p1] Hl]. exists (set_caller p1 (InFor l')), Caller.
      split; [done|]. cbn. unfold caller_step. rewrite Hc. destruct l; try done; by rewrite Hl. }
  destruct (forallb id (worker_done p)) eqn:Hall.
  { eexists _, Caller. split; [done|]. cbn. unfold caller_step. by rewrite Hc, Hall. }
  assert (∃ i, worker_done p !! i = Some false) as [i Hi].
  { clear -Hall. induction (worker_done p) as [|[] l IH]; [done| |by exists O].
    destruct IH as [i Hi]; [done|]. by exists (S i). }
  destruct (lookup_lt_is_Some_2 (workers p) i) as [w Hw]; [apply lookup_lt_Some in Hi; lia|].
  assert (is_Some (workerLoop_step p i)) as [p' Hp']; [|by exists p', (Worker i)].
  unfold workerLoop_step. rewrite Hw. destruct w as [|l|]; [| |by destruct (Hex i)].
  - rewrite (Hrun i), Hi, (r_callback _ _ H6) by (apply lookup_lt_Some in Hi; lia). by eexists.
  - destruct l as [|t e|]; [| |by eexists].
    + destruct (Henabled (Z.of_nat i) Claiming ltac:(done)) as [[l' p1] ->]. by eexists.
    + destruct (Henabled (Z.of_nat i) (Running t e) ltac:(done)) as [[l' p1] ->]. by eexists.
Qed.

(** C14: A [parallelFor] returns: in every reachable state inside one, some thread
    can act, and there is no infinite sequence of thread actions that stays
    inside it. *)
Theorem parallelFor_returns num_threads actions p :
  let n := Z.to_nat (if num_threads <? 1 then 1 else num_threads) in
  Forall (action_ok n) actions →
  run (newPool num_threads) actions = Some p → in_for p →
  (∃ p', thread_step p p') ∧ Acc (λ q' q, in_for q ∧ thread_step q q') p.
Proof.
  intros n Hok Hrun Hin.
  pose proof (run_inv n _ _ _ (newPool_inv num_threads) Hok Hrun) as Hp.
  split; [by eapply round_progress|]. clear Hok Hrun Hin actions.
  remember (measure n p) as m eqn:Hm. revert p Hp Hm.
  induction (lt_wf m) as [m _ IH]. intros p Hp ->. constructor.
  intros p' (Hin & a & Ha & Hstep).
  assert (action_ok n a) as Hok by (by destruct a).
  pose proof (step_inv n p a p' Hp Hok Hstep) as Hp'.
  assert (caller p' = Idle ∨ (measure n p' < measure n p)%nat) as [Hidle|Hlt].
  { destruct a as [| |i|]; try done; [by apply caller_measure|right; by eapply worker_measure]. }
  - constructor. intros p'' ([l Hl] & _). congruence.
  - by eapply IH.
Qed.

(** ** What goes wrong *)

(** The counter is not protected against a large grain: with two workers and
    a grain of 2^63 - 1, a [parallelFor] over two tiles can run the tiles -4 .. -1,
    which do not exist, and run tiles 0 and 1 three times, since every second
    claim wraps the counter to a negative value. *)
Theorem huge_grain_reruns_tiles :
  ∃ actions p, run (newPool 2) (Call 2 (2 ^ 63 - 1) :: actions) = Some p ∧ caller p = Idle ∧
    (executed p).*1 = [0; 1; -2; -1; 0; 1; -4; -3; -2; -1; 0; 1].
Proof.
  exists ([Caller; Worker 0; Worker 0; Worker 1; Worker 1] ++ repeat Caller 3 ++ repeat (Worker 1) 5 ++
    [Worker 0; Worker 1; Worker 1] ++ repeat Caller 10)%list.
  eexists. split_and!; [vm_compute; reflexivity|vm_compute; reflexivity|vm_compute; reflexivity].
Qed.

(** Nothing moves in a barrier when every thread spins on the current epoch. *)
Definition stuck (b : Barrier) : Prop := ∀ i t, threads b !! i = Some t → t = Spinning (barrier_epoch b).

Lemma stuck_forever b schedule b' : stuck b → barrier_run b schedule = Some b' → b' = b.
Proof.
  intros Hb. induction schedule as [|i schedule IH]; cbn; [congruence|].
  intros (b1 & H1 & H2)%bind_Some. assert (b1 = b) as ->; [|by apply IH].
  unfold barrier_step in H1. destruct (threads b !! i) as [t|] eqn:Hi; [|done].
  rewrite (Hb i t Hi), Z.eqb_refl in H1. congruence.
Qed.

(** C15: [barrier] can deadlock: the last arriver advances the epoch before it
    clears the count, so a released thread that arrives again in between is
    forgotten.  With two threads there is an interleaving after which both have
    passed the barrier once, have arrived a second time, and spin for ever. *)
Theorem barrier_loses_arrival :
  ∃ schedule b, barrier_run (newBarrier 2) schedule = Some b ∧
    passed b = [1%nat; 1%nat] ∧ threads b = [Spinning 1; Spinning 1] ∧
    ∀ schedule' b', barrier_run b schedule' = Some b' → b' = b.
Proof.
  exists [0; 0; 1; 1; 1; 0; 0; 0; 1; 1; 1]%nat.
  eexists. split_and!; [vm_compute; reflexivity|reflexivity|reflexivity|].
  intros schedule' b'. apply stuck_forever. intros [|[|i]] t; [cbn; congruence|cbn; congruence|].
  destruct i; discriminate.
Qed.

(** ** Witnesses *)
Definition sample_run : list action :=
  Call 3 2 :: [Worker 0; Worker 0; Worker 0; Worker 0; Worker 0; Caller; Caller; Caller; Worker 0; Worker 0;
    Caller].

Definition final_tiles (p : option ThreadPool) : list Z := from_option (λ p, (executed p).*1) [] p.

Lemma parallelFor_runs_each_tile_once_witness :
  final_tiles (p ← run (newPool 1) sample_run; step p Caller) ≡ₚ seqZ 0 3.
Proof.
  destruct (run (newPool 1) sample_run) as [p|] eqn:Hp; [|vm_compute in Hp; discriminate Hp].
  cbn [mbind option_bind]. destruct (step p Caller) as [p'|] eqn:Hs.
  - assert (caller p' = Idle ∧ total_tiles p' = 3) as [Hi Ht].
    { vm_compute in Hp. injection Hp as <-. vm_compute in Hs. injection Hs as <-. split; reflexivity. }
    rewrite <- Ht. cbn [final_tiles from_option].
    destruct (parallelFor_runs_each_tile_once 1 sample_run p p') as [H _];
      [|exact Hp|exact Hs|exact Hi|exact H].
    unfold sample_run. repeat (apply Forall_cons; split; [exact I || (vm_compute; discriminate)|]).
    apply Forall_nil_2.
  - vm_compute in Hp. injection Hp as <-. vm_compute in Hs. discriminate Hs.
Defined.

Lemma parallelFor_returns_witness :
  ∃ p, run (newPool 1) [Call 3 2; Worker 0] = Some p ∧ (∃ p', thread_step p p') ∧
    Acc (λ q' q, in_for q ∧ thread_step q q') p.
Proof.
  eexists. split; [vm_compute; reflexivity|].
  apply (parallelFor_returns 1 [Call 3 2; Worker 0]).
  - repeat (apply Forall_cons; split; [exact I || (vm_compute; discriminate)|]). apply Forall_nil_2.
  - vm_compute. reflexivity.
  - exists Claiming. reflexivity.
Defined.

(** A scratch buffer set is read back, out-of-range workers have none, and the
    buffer replaced is the one freed. *)
Lemma setScratch_get buffers w ptr size : valid_worker buffers w = true →
  getScratch (setScratch buffers w ptr size).1 w = ptr ∧
  (setScratch buffers w ptr size).2 = Some (getScratch buffers w).
Proof.
  intros Hv. unfold setScratch, getScratch. rewrite Hv. cbn [fst snd].
  assert (valid_worker (<[Z.to_nat w := mkScratch ptr size]> buffers) w = true) as ->
    by (unfold valid_worker in *; by rewrite length_insert).
  unfold valid_worker in Hv. apply negb_true_iff, orb_false_iff in Hv as [Hlo Hhi].
  apply Z.ltb_ge in Hlo. rewrite Z.geb_leb in Hhi. apply Z.leb_gt in Hhi.
  rewrite list_lookup_insert_eq by lia. split; [done|].
  destruct (lookup_lt_is_Some_2 buffers (Z.to_nat w)) as [s Hs]; [lia|]. by rewrite Hs.
Qed.
