(* ===== verification/SearchSpace.v ===== *)
(** The tuning search space and its candidates: lib/Perf/SearchSpace.cpp,
    lib/Perf/Candidate.cpp and lib/Perf/CandidateGenerator.cpp.

    A space is a list of parameters, each with its choices.  [loadSearchSpace]
    reads it from a [micro.search_space] operation; [generateGridCandidates]
    enumerates its points with an odometer and [generateRandomCandidates] samples
    them with [std::mt19937_64].  The grid theorem says the odometer yields the
    Cartesian product in lexicographic order, each point once, and a cap keeps a
    prefix.

    The operations a space is read from are records of what their accessors
    return; an attribute that is neither an integer nor a string is [OtherAttr]. *)
From S2P Require Import Prelude Odometer MachineModel.
Open Scope string_scope.
Open Scope Z_scope.

(** ** Vocabulary *)
Inductive SearchChoice := IntegerChoice (integer : Z) | SymbolChoice (symbol : string).
#[export] Instance SearchChoice_eq_dec : EqDecision SearchChoice.
Proof. solve_decision. Defined.

Record SearchParam := mkParam {
  param_name : string;
  param_kind : string;
  choices : list SearchChoice;
  role : string;
}.

Inductive ConstraintKind :=
| SramCapacity | AccCapacity | MmaCompatible | MappingExtent | TailSupported
| VectorWidthSupported | TileHierarchyCompatible | LayoutSupported | OwnerSupported
| FragmentCompatible | PipelineLiveTiles.

Definition stringifyConstraintKind (kind : ConstraintKind) : string :=
  match kind with
  | SramCapacity => "sram_capacity"
  | AccCapacity => "acc_capacity"
  | MmaCompatible => "mma_compatible"
  | MappingExtent => "mapping_extent"
  | TailSupported => "tail_supported"
  | VectorWidthSupported => "vector_width_supported"
  | TileHierarchyCompatible => "tile_hierarchy_compatible"
  | LayoutSupported => "layout_supported"
  | OwnerSupported => "owner_supported"
  | FragmentCompatible => "fragment_compatible"
  | PipelineLiveTiles => "pipeline_live_tiles"
  end.

Definition symbolizeConstraintKind (text : string) : option ConstraintKind :=
  if decide (text = "sram_capacity") then Some SramCapacity
  else if decide (text = "acc_capacity") then Some AccCapacity
  else if decide (text = "mma_compatible") then Some MmaCompatible
  else if decide (text = "mapping_extent") then Some MappingExtent
  else if decide (text = "tail_supported") then Some TailSupported
  else if decide (text = "vector_width_supported") then Some VectorWidthSupported
  else if decide (text = "tile_hierarchy_compatible") then Some TileHierarchyCompatible
  else if decide (text = "layout_supported") then Some LayoutSupported
  else if decide (text = "owner_supported") then Some OwnerSupported
  else if decide (text = "fragment_compatible") then Some FragmentCompatible
  else if decide (text = "pipeline_live_tiles") then Some PipelineLiveTiles
  else None.

(** [attrs] of a constraint is always empty. *)
Record SearchConstraint := mkConstraint { con_kind : ConstraintKind; con_params : list string }.

Inductive ObjectiveDirection := Minimize | Maximize.
#[export] Instance ObjectiveDirection_eq_dec : EqDecision ObjectiveDirection.
Proof. solve_decision. Defined.

Definition stringifyObjectiveDirection (direction : ObjectiveDirection) : string :=
  match direction with
  | Minimize => "minimize"
  | Maximize => "maximize"
  end.

Definition symbolizeObjectiveDirection (text : string) : option ObjectiveDirection :=
  if decide (text = "minimize") then Some Minimize
  else if decide (text = "maximize") then Some Maximize
  else None.

Record SearchObjective := mkObjective {
  direction : ObjectiveDirection;
  primaryMetric : string;
  secondaryMetrics : list string;
}.

Definition defaultObjective : SearchObjective := mkObjective Minimize "latency_cycles" [].

Record SearchSpace := mkSpace {
  space_name : string;
  workload : string;
  params : list SearchParam;
  constraints : list SearchConstraint;
  objective : SearchObjective;
  singleton_space : bool;
}.

Definition findParam (space : SearchSpace) (name : string) : option SearchParam :=
  snd <$> list_find (λ p, param_name p = name) (params space).

(** The only parameter of a kind. *)
Fixpoint findParamOfKind_loop (kind : string) (found : option SearchParam)
    (ps : list SearchParam) : option SearchParam :=
  match ps with
  | [] => found
  | p :: ps =>
    if decide (param_kind p = kind) then
      match found with
      | Some _ => None
      | None => findParamOfKind_loop kind (Some p) ps
      end
    else findParamOfKind_loop kind found ps
  end.
Definition findParamOfKind (space : SearchSpace) (kind : string) : option SearchParam :=
  findParamOfKind_loop kind None (params space).

Definition classifyMBucket (M : Z) : Z :=
  if decide (M = 1) then 0
  else if decide (M <= 4) then 1
  else if decide (M <= 16) then 2
  else if decide (M <= 64) then 3
  else 4.

Record WorkloadShape := mkShape {
  shape_M : Z;
  shape_N : Z;
  shape_K : Z;
  inputDType : string;
  weightDType : string;
  accumulatorDType : string;
  outputDType : string;
}.

(** ** Loading *)
Inductive Attribute := IntegerAttr (value : Z) | StringAttr (value : string) | OtherAttr.

Record ParamOp := mkParamOp {
  op_name : string;
  op_kind : string;
  op_role : option string;
  op_choices : list Attribute;
}.
Record ConstraintOp := mkConstraintOp { cop_kind : string; cop_params : list Attribute }.
Record ObjectiveOp := mkObjectiveOp {
  oop_direction : string;
  oop_metric : string;
  oop_secondary : option (list string);
}.
Inductive NestedOp :=
| NestedParam (op : ParamOp)
| NestedConstraint (op : ConstraintOp)
| NestedObjective (op : ObjectiveOp)
| NestedOther.
Record SearchSpaceOp := mkSpaceOp {
  sop_name : string;
  sop_workload : string;
  sop_singleton : option bool;
  sop_body : list NestedOp;
}.

Inductive space_error :=
| BadChoice (space param : string)
| NoChoices (space param : string)
| RepeatedChoice (space param : string)
| NoEvaluator (space kind : string)
| ConstraintParamNotString (space : string)
| NoSpace
| AmbiguousSpace
| NoSpaceNamed (symbol : string).

Definition loadChoice (space param : string) (choice : Attribute) : result space_error SearchChoice :=
  match choice with
  | IntegerAttr z => Ok (IntegerChoice z)
  | StringAttr s => Ok (SymbolChoice s)
  | OtherAttr => Err (BadChoice space param)
  end.

Definition choiceKey (choice : SearchChoice) : string :=
  match choice with
  | IntegerChoice z => "i:" +:+ to_string z
  | SymbolChoice s => "s:" +:+ s
  end.

Definition choiceStep (space param : string) (s : gset string * list SearchChoice)
    (choice : Attribute) : result space_error (gset string * list SearchChoice) :=
  loaded ← loadChoice space param choice;
  fail! (RepeatedChoice space param) when bool_decide (choiceKey loaded ∈ s.1);
  Ok ({[choiceKey loaded]} ∪ s.1, (s.2 ++ [loaded])%list).

Definition loadParam (space : string) (op : ParamOp) : result space_error SearchParam :=
  fail! (NoChoices space (op_name op)) when bool_decide (op_choices op = []);
  s ← fold_result (choiceStep space (op_name op)) (∅, []) (op_choices op);
  Ok (mkParam (op_name op) (op_kind op) s.2 (default "" (op_role op))).

Definition constraintStep (space : string) (acc : list string) (param : Attribute) :
    result space_error (list string) :=
  match param with
  | StringAttr s => Ok (acc ++ [s])%list
  | _ => Err (ConstraintParamNotString space)
  end.

Definition loadConstraint (space : string) (op : ConstraintOp) : result space_error SearchConstraint :=
  match symbolizeConstraintKind (cop_kind op) with
  | None => Err (NoEvaluator space (cop_kind op))
  | Some kind =>
    names ← fold_result (constraintStep space) [] (cop_params op);
    Ok (mkConstraint kind names)
  end.

Definition loadObjective (objective : SearchObjective) (op : ObjectiveOp) : SearchObjective :=
  mkObjective (default (direction objective) (symbolizeObjectiveDirection (oop_direction op)))
    (oop_metric op) (default [] (oop_secondary op)).

Definition loadNested (space : SearchSpace) (nested : NestedOp) : result space_error SearchSpace :=
  match nested with
  | NestedParam op =>
    p ← loadParam (space_name space) op;
    Ok (mkSpace (space_name space) (workload space) (params space ++ [p]) (constraints space)
          (objective space) (singleton_space space))
  | NestedConstraint op =>
    c ← loadConstraint (space_name space) op;
    Ok (mkSpace (space_name space) (workload space) (params space) (constraints space ++ [c])
          (objective space) (singleton_space space))
  | NestedObjective op =>
    Ok (mkSpace (space_name space) (workload space) (params space) (constraints space)
          (loadObjective (objective space) op) (singleton_space space))
  | NestedOther => Ok space
  end.

Definition loadSearchSpaceOp (op : SearchSpaceOp) : result space_error SearchSpace :=
  fold_result loadNested
    (mkSpace (sop_name op) (sop_workload op) [] [] defaultObjective (default false (sop_singleton op)))
    (sop_body op).

(** The spaces of a module in the order of the walk. *)
Definition loadSearchSpace (spaces : list SearchSpaceOp) (symbol : string) : result space_error SearchSpace :=
  if str_empty symbol then
    match spaces with
    | [] => Err NoSpace
    | [space] => loadSearchSpaceOp space
    | _ => Err AmbiguousSpace
    end
  else
    match list_find (λ s, sop_name s = symbol) spaces with
    | Some (_, space) => loadSearchSpaceOp space
    | None => Err (NoSpaceNamed symbol)
    end.

(** ** Candidates *)
Record Candidate := mkCandidate {
  cand_id : string;
  values : gmap string Z;
  symbolicValues : gmap string string;
}.

Definition integer (c : Candidate) (name : string) : option Z := values c !! name.
Definition symbol (c : Candidate) (name : string) : option string := symbolicValues c !! name.

Fixpoint fnv1a (text : string) (hash : Z) : Z :=
  match text with
  | EmptyString => hash
  | String c text => fnv1a text (u64 (Z.lxor hash (Z.of_N (Ascii.N_of_ascii c)) * 1099511628211))
  end.

Definition hashBindings (values : gmap string Z) (symbolicValues : gmap string string) : Z :=
  let hash := foldl (λ h b, fnv1a (b.1 +:+ "=" +:+ to_string b.2 +:+ ";") h)
                14695981039346656037 (in_order values) in
  let hash := fnv1a "|" hash in
  foldl (λ h b, fnv1a (b.1 +:+ "=" +:+ b.2 +:+ ";") h) hash (in_order symbolicValues).

Definition computeCandidateId (values : gmap string Z) (symbolicValues : gmap string string) : string :=
  "candidate_" +:+ hex64 (hashBindings values symbolicValues).

(** [std::map::emplace], which keeps an existing binding. *)
Definition emplace_binding {V} (m : gmap string V) (name : string) (v : V) : gmap string V :=
  match m !! name with
  | Some _ => m
  | None => <[name := v]> m
  end.

Definition bindParam (s : gmap string Z * gmap string string) (p : SearchParam * nat) :
    gmap string Z * gmap string string :=
  match choices p.1 !! p.2 with
  | Some (IntegerChoice z) => (emplace_binding s.1 (param_name p.1) z, s.2)
  | Some (SymbolChoice t) => (s.1, emplace_binding s.2 (param_name p.1) t)
  | None => s
  end.

(** A choice index per parameter. *)
Definition buildCandidate (space : SearchSpace) (indices : list nat) : Candidate :=
  let s := foldl bindParam (∅, ∅) (zip (params space) indices) in
  mkCandidate (computeCandidateId s.1 s.2) s.1 s.2.

Fixpoint domainSize_loop (size : Z) (ps : list SearchParam) : Z :=
  match ps with
  | [] => size
  | p :: ps =>
    let n := Z.of_nat (length (choices p)) in
    if bool_decide (n = 0) then 0
    else if bool_decide (size > u64_max `div` n) then u64_max
    else domainSize_loop (size * n) ps
  end.

Definition domainSize (space : SearchSpace) : Z :=
  match params space with
  | [] => if singleton_space space then 1 else 0
  | ps => domainSize_loop 1 ps
  end.

(** ** The grid *)

(** Whether the product is exhausted: [position == 0 && indices[0] == 0]. *)
Definition wrapped (r : list nat * option nat) : bool :=
  match default O r.2 with
  | O => bool_decide (r.1 !! O = Some O)
  | S _ => false
  end.

Definition sizes_of (space : SearchSpace) : list nat := length ∘ choices <$> params space.

Fixpoint gridLoop (fuel : nat) (space : SearchSpace) (cap : Z) (indices : list nat)
    (candidates : list Candidate) : list Candidate :=
  match fuel with
  | O => candidates
  | S fuel =>
    if bool_decide (Z.of_nat (length candidates) < cap) then
      let candidates := (candidates ++ [buildCandidate space indices])%list in
      match indices with
      | [] => candidates
      | _ =>
        let r := odometer (sizes_of space) (length indices) indices in
        if wrapped r then candidates else gridLoop fuel space cap r.1 candidates
      end
    else candidates
  end.

(** One round per point of the product. *)
Definition gridFuel (space : SearchSpace) : nat := foldr Nat.mul 1%nat (sizes_of space).

Definition generateGridCandidates (space : SearchSpace) (maxCandidates : option Z) : list Candidate :=
  if bool_decide (domainSize space = 0) then []
  else gridLoop (gridFuel space) space (default u64_max maxCandidates)
         (replicate (length (params space)) O) [].

(** ** [std::mt19937_64] *)
Definition mt_n : nat := 312.

Fixpoint mt_seed_from (n : nat) (i x : Z) : list Z :=
  match n with
  | O => []
  | S n =>
    let next := u64 (6364136223846793005 * Z.lxor x (Z.shiftr x 62) + i) in
    next :: mt_seed_from n (i + 1) next
  end.
Definition mt_seed (seed : Z) : list Z := u64 seed :: mt_seed_from (pred mt_n) 1 (u64 seed).

Definition mt_twist_at (x : list Z) (k : nat) : list Z :=
  let upper := Z.land (default 0 (x !! k)) 0xffffffff80000000 in
  let lower := Z.land (default 0 (x !! ((k + 1) mod mt_n)%nat)) 0x7fffffff in
  let y := Z.lor upper lower in
  let mag := if Z.odd y then 0xb5026f5aa96619e9 else 0 in
  <[k := Z.lxor (Z.lxor (default 0 (x !! ((k + 156) mod mt_n)%nat)) (Z.shiftr y 1)) mag]> x.
Definition mt_twist (x : list Z) : list Z := foldl mt_twist_at x (seq 0 mt_n).

Definition mt_temper (z : Z) : Z :=
  let z := Z.lxor z (Z.land (Z.shiftr z 29) 0x5555555555555555) in
  let z := Z.lxor z (Z.land (u64 (Z.shiftl z 17)) 0x71d67fffeda60000) in
  let z := Z.lxor z (Z.land (u64 (Z.shiftl z 37)) 0xfff7eee000000000) in
  Z.lxor z (Z.shiftr z 43).

(** The state and the position of the next word. *)
Record mt_state := mkMT { mt_words : list Z; mt_pos : nat }.
Definition mt_init (seed : Z) : mt_state := mkMT (mt_seed seed) mt_n.
Definition mt_next (g : mt_state) : Z * mt_state :=
  let g := if (mt_n <=? mt_pos g)%nat then mkMT (mt_twist (mt_words g)) O else g in
  (mt_temper (default 0 (mt_words g !! mt_pos g)), mkMT (mt_words g) (S (mt_pos g))).

(** ** Random sampling *)

(** One index per parameter. *)
Fixpoint drawIndices (g : mt_state) (ps : list SearchParam) : list nat * mt_state :=
  match ps with
  | [] => ([], g)
  | p :: ps =>
    let (r, g) := mt_next g in
    let (rest, g) := drawIndices g ps in
    (Z.to_nat (r `mod` Z.of_nat (length (choices p))) :: rest, g)
  end.

Fixpoint randomLoop (attempts : nat) (space : SearchSpace) (target domain : Z) (g : mt_state)
    (seen : gset string) (candidates : list Candidate) : list Candidate :=
  match attempts with
  | O => candidates
  | S attempts =>
    if bool_decide (Z.of_nat (length candidates) < target) then
      let (indices, g) := drawIndices g (params space) in
      let candidate := buildCandidate space indices in
      if decide (cand_id candidate ∈ seen)
      then randomLoop attempts space target domain g seen candidates
      else
        let candidates := (candidates ++ [candidate])%list in
        let seen := {[cand_id candidate]} ∪ seen in
        if bool_decide (Z.of_nat (length candidates) = domain) then candidates
        else randomLoop attempts space target domain g seen candidates
    else candidates
  end.

Definition maxAttempts (target : Z) : Z :=
  if bool_decide (target > (u64_max - 64) `div` 64) then u64_max else 64 * target + 64.

Definition generateRandomCandidates (space : SearchSpace) (seed maxCandidates : Z) : list Candidate :=
  let domain := domainSize space in
  if bool_decide (domain = 0) || bool_decide (maxCandidates = 0) then []
  else
    let target := Z.min maxCandidates domain in
    randomLoop (Z.to_nat (maxAttempts target)) space target domain (mt_init seed) ∅ [].

Inductive SearchMode := Grid | Random.
Record CandidateGeneratorOptions := mkGenOptions {
  mode : SearchMode;
  gen_seed : Z;
  maxCandidates : option Z;
}.

Definition generateCandidates (space : SearchSpace) (options : CandidateGeneratorOptions) :
    list Candidate :=
  match mode options with
  | Grid => generateGridCandidates space (maxCandidates options)
  | Random =>
    generateRandomCandidates space (gen_seed options)
      (default (domainSize space) (maxCandidates options))
  end.

(** The 10000th word from the default seed is the one the C++ standard fixes. *)
Example mt_standard_value :
  (mt_next (Nat.iter (100 * 100 - 1) (λ g, (mt_next g).2) (mt_init 5489))).1 = 9981545732273789042.
Proof. vm_compute. reflexivity. Qed.

(** ** The grid is the product *)
Lemma gridLoop_enum fuel space cap v l acc :
  enum (sizes_of space) v l → length v = length (sizes_of space) → v ≠ [] → (length l ≤ fuel)%nat →
  gridLoop fuel space cap v acc =
  (acc ++ (buildCandidate space <$> take (Z.to_nat (cap - Z.of_nat (length acc))) l))%list.
Proof.
  intros Hl. revert fuel acc. induction Hl as [v Hv|v v' l Hv Hl IH]; intros fuel acc Hlen Hne Hfuel;
    (destruct fuel as [|fuel]; [cbn in Hfuel; lia|]); cbn [gridLoop];
    pose proof (odometer_next (sizes_of space) v Hlen) as Hnext; rewrite Hv in Hnext.
  - case_bool_decide as Hcap; cbv zeta.
    + rewrite Hnext. replace (Z.to_nat (cap - Z.of_nat (length acc))) with
        (S (pred (Z.to_nat (cap - Z.of_nat (length acc))))) by lia.
      cbn [take]. rewrite take_nil. destruct v as [|i v]; [done|].
      assert (wrapped (zeros (sizes_of space), None) = true) as ->; [|done].
      unfold zeros. by rewrite <- Hlen.
    + replace (Z.to_nat (cap - Z.of_nat (length acc))) with O by lia. cbn. by rewrite app_nil_r.
  - case_bool_decide as Hcap; cbv zeta.
    + destruct Hnext as (Hl' & q & -> & Hq).
      assert (wrapped (v', Some q) = false) as ->.
      { unfold wrapped. cbn. destruct q; [|done]. by rewrite bool_decide_false by auto. }
      destruct v as [|i v]; [done|]. cbn [fst]. cbn in Hfuel. rewrite IH; [|done| |lia].
      * rewrite length_app. cbn [length]. replace (Z.to_nat (cap - Z.of_nat (length acc))) with
          (S (Z.to_nat (cap - Z.of_nat (length acc + 1)))) by lia.
        cbn [take fmap list_fmap]. by rewrite <- app_assoc.
      * destruct v'; [|done]. by rewrite <- Hl' in Hlen.
    + replace (Z.to_nat (cap - Z.of_nat (length acc))) with O by lia. cbn. by rewrite app_nil_r.
Qed.

Lemma domainSize_loop_pos size ps : 1 <= size → Forall (λ p, choices p ≠ []) ps →
  1 <= domainSize_loop size ps.
Proof.
  revert size. induction ps as [|p ps IH]; intros size Hs Hps; cbn [domainSize_loop]; [done|].
  apply Forall_cons in Hps as [Hp Hps]. destruct (choices p) as [|c cs]; [done|]. cbn [length].
  rewrite bool_decide_false by lia. case_bool_decide; [unfold u64_max; lia|]. apply IH; [nia|done].
Qed.

(** The points of a space: none for an ordinary space without parameters. *)
Definition points (space : SearchSpace) : list (list nat) :=
  if bool_decide (params space = []) && negb (singleton_space space) then []
  else index_vectors (sizes_of space).

(** When every parameter has a choice, the grid generator returns the
    candidates of the choice vectors in lexicographic order, and with a cap the
    first ones of that sequence.  The vectors are exactly those with an index in
    range for every parameter, each once. *)
Theorem grid_is_lexicographic_product space cap :
  Forall (λ p, choices p ≠ []) (params space) →
  generateGridCandidates space cap =
    buildCandidate space <$> take (Z.to_nat (default u64_max cap)) (points space) ∧
  NoDup (index_vectors (sizes_of space)) ∧
  ∀ v, v ∈ index_vectors (sizes_of space) ↔
    Forall2 (λ i p, (i < length (choices p))%nat) v (params space).
Proof.
  intros Hps. split_and!; [|apply index_vectors_NoDup|].
  - unfold generateGridCandidates, domainSize, points. destruct (params space) as [|p ps] eqn:Hp.
    + unfold gridFuel, sizes_of. rewrite Hp. rewrite (bool_decide_true ([] = [])) by done.
      destruct (singleton_space space); [rewrite bool_decide_false by done|].
      2:{ rewrite bool_decide_true by done. cbn [andb negb]. by rewrite take_nil. }
      cbn. case_bool_decide; [|by replace (Z.to_nat (default u64_max cap)) with O by lia].
      destruct (Z.to_nat (default u64_max cap)) eqn:E; [lia|]. cbn. by rewrite take_nil.
    + pose proof (domainSize_loop_pos 1 (p :: ps) ltac:(lia) Hps).
      rewrite bool_decide_false by lia. rewrite bool_decide_false by done. cbn [andb].
      rewrite <- Hp in *. assert (length (zeros (sizes_of space)) = length (sizes_of space)) as Hz
        by apply length_replicate.
      replace (replicate (length (params space)) O) with (zeros (sizes_of space))
        by (unfold zeros, sizes_of; by rewrite length_fmap).
      rewrite (gridLoop_enum _ space _ _ (index_vectors (sizes_of space)));
        [cbn; by rewrite Z.sub_0_r| |done| |by rewrite index_vectors_length].
      * apply index_vectors_enum. unfold sizes_of. apply Forall_fmap.
        eapply Forall_impl; [done|]. intros q Hq. cbn in Hq |- *. by destruct (choices q).
      * unfold sizes_of. by rewrite Hp.
  - intros v. rewrite elem_of_index_vectors. unfold sizes_of. by rewrite Forall2_fmap_r.
Qed.

(** ** Random sampling *)
Lemma drawIndices_range g ps : Forall (λ p, choices p ≠ []) ps →
  Forall2 (λ i p, (i < length (choices p))%nat) (drawIndices g ps).1 ps.
Proof.
  revert g. induction ps as [|p ps IH]; intros g Hps; [constructor|].
  apply Forall_cons in Hps as [Hp Hps]. cbn [drawIndices]. destruct (mt_next g) as [r g1].
  specialize (IH g1 Hps). destruct (drawIndices g1 ps) as [rest g2]. constructor; [|done].
  assert (0 < Z.of_nat (length (choices p))) by (destruct (choices p); [done|cbn; lia]).
  pose proof (Z.mod_pos_bound r (Z.of_nat (length (choices p)))). lia.
Qed.

(** What the loop has collected. *)
Definition sampled (space : SearchSpace) (target : Z) (seen : gset string) (cs : list Candidate) : Prop :=
  NoDup (cand_id <$> cs) ∧ (∀ c, c ∈ cs → cand_id c ∈ seen) ∧ Z.of_nat (length cs) <= target ∧
  ∀ c, c ∈ cs → ∃ v, v ∈ index_vectors (sizes_of space) ∧ c = buildCandidate space v.

Lemma randomLoop_sampled attempts space target domain g seen cs :
  Forall (λ p, choices p ≠ []) (params space) → sampled space target seen cs →
  ∃ seen', sampled space target seen' (randomLoop attempts space target domain g seen cs).
Proof.
  intros Hps. revert g seen cs. induction attempts as [|attempts IH]; intros g seen cs Hs;
    cbn [randomLoop]; [by eexists|].
  case_bool_decide as Hlt; [|by eexists].
  pose proof (drawIndices_range g (params space) Hps) as Hv.
  destruct (drawIndices g (params space)) as [v g']. cbn [fst] in Hv.
  destruct (decide (cand_id (buildCandidate space v) ∈ seen)) as [|Hnew]; [by apply IH|].
  assert (sampled space target ({[cand_id (buildCandidate space v)]} ∪ seen)
    (cs ++ [buildCandidate space v])%list) as Hs'.
  { destruct Hs as (Hnd & Hseen & Hlen & Hpt). split_and!.
    - rewrite fmap_app. apply NoDup_app. split_and!; [done| |apply NoDup_singleton].
      intros i (c & -> & Hc)%list_elem_of_fmap Hi%list_elem_of_singleton. apply Hnew. rewrite <- Hi. auto.
    - intros c [Hc| ->%list_elem_of_singleton]%elem_of_app; rewrite elem_of_union, elem_of_singleton; auto.
    - rewrite length_app. cbn. lia.
    - intros c [Hc| ->%list_elem_of_singleton]%elem_of_app; [auto|]. exists v. split; [|done].
      apply elem_of_index_vectors. unfold sizes_of. by rewrite Forall2_fmap_r. }
  case_bool_decide; [by eexists|by apply IH].
Qed.

(** The random generator returns points of the grid under distinct ids, at
    most as many as asked for and as the domain has; it is a function of the space
    and the seed. *)
Theorem random_candidates_are_grid_points space seed cap :
  Forall (λ p, choices p ≠ []) (params space) → 0 <= cap →
  let cs := generateRandomCandidates space seed cap in
  NoDup (cand_id <$> cs) ∧ Z.of_nat (length cs) <= Z.min cap (domainSize space) ∧
  ∀ c, c ∈ cs → ∃ v, v ∈ index_vectors (sizes_of space) ∧ c = buildCandidate space v.
Proof.
  intros Hps Hcap cs. unfold cs, generateRandomCandidates.
  assert (0 <= domainSize space) as Hd.
  { unfold domainSize. destruct (params space) as [|p ps] eqn:Hp; [by destruct (singleton_space space)|].
    pose proof (domainSize_loop_pos 1 (p :: ps) ltac:(lia) Hps). lia. }
  destruct (_ || _) eqn:Hz; cbv zeta.
  - split_and!; [apply NoDup_nil_2|cbn; lia|]. by intros c []%elem_of_nil.
  - destruct (randomLoop_sampled (Z.to_nat (maxAttempts (Z.min cap (domainSize space)))) space
      (Z.min cap (domainSize space)) (domainSize space) (mt_init seed) ∅ [] Hps) as (seen & H1 & _ & H2 & H3); [|done].
    split_and!; [apply NoDup_nil_2|by intros c []%elem_of_nil|cbn; lia|by intros c []%elem_of_nil].
Qed.

(** ** Vocabulary and loader *)
Lemma symbolize_stringify_constraint kind :
  symbolizeConstraintKind (stringifyConstraintKind kind) = Some kind.
Proof. by destruct kind. Qed.
Lemma symbolize_stringify_direction d : symbolizeObjectiveDirection (stringifyObjectiveDirection d) = Some d.
Proof. by destruct d. Qed.

Lemma choiceKey_inj : Inj (=) (=) choiceKey.
Proof.
  intros [z|s] [z'|s'] Heq; cbn in Heq; try discriminate.
  - apply str_app_inj_length in Heq as [_ Heq]; [|done]. f_equal. by apply (inj pretty).
  - apply str_app_inj_length in Heq as [_ Heq]; [|done]. by f_equal.
Qed.

(** A loaded parameter has choices, each once. *)
Lemma loadParam_choices space op p : loadParam space op = Ok p →
  choices p ≠ [] ∧ NoDup (choices p) ∧ length (choices p) = length (op_choices op).
Proof.
  unfold loadParam. intros H. apply fail_then_ok in H as [Hne H].
  apply bool_decide_eq_false in Hne. apply bind_ok in H as (s & Hs & [= <-]). cbn.
  assert (NoDup s.2 ∧ length s.2 = length (op_choices op) ∧ ∀ c, c ∈ s.2 → choiceKey c ∈ s.1) as (Hnd & Hl & _).
  { revert Hs. apply (fold_result_inv (choiceStep space (op_name op))
      (λ pre s, NoDup s.2 ∧ length s.2 = length pre ∧ ∀ c, c ∈ s.2 → choiceKey c ∈ s.1)).
    - split_and!; [apply NoDup_nil_2|done|by intros c []%elem_of_nil].
    - intros pre x post t t' _ (Hnd & Hl & Hin) Hstep. unfold choiceStep in Hstep.
      apply bind_ok in Hstep as (c & _ & Hstep). apply fail_then_ok in Hstep as [Hnew [= <-]].
      apply bool_decide_eq_false in Hnew. cbn. split_and!.
      + apply NoDup_app. split_and!; [done| |apply NoDup_singleton].
        intros d Hd ->%list_elem_of_singleton. auto.
      + rewrite !length_app, Hl. done.
      + intros d [Hd| ->%list_elem_of_singleton]%elem_of_app; rewrite elem_of_union, elem_of_singleton; auto. }
  split_and!; [|done|done]. intros Heq. rewrite Heq in Hl. by destruct (op_choices op).
Qed.

(** A loaded space satisfies the generators' precondition. *)
Lemma loadSearchSpaceOp_choices op space : loadSearchSpaceOp op = Ok space →
  Forall (λ p, choices p ≠ []) (params space).
Proof.
  unfold loadSearchSpaceOp. apply (fold_result_inv loadNested (λ _ s, Forall (λ p, choices p ≠ []) (params s))).
  - by cbn.
  - intros pre x post t t' _ Ht Hstep. destruct x as [p|c|o|]; cbn [loadNested] in Hstep.
    + apply bind_ok in Hstep as (q & Hq%loadParam_choices & [= <-]). cbn. apply Forall_app.
      split; [done|]. apply Forall_cons. naive_solver.
    + apply bind_ok in Hstep as (q & _ & [= <-]). done.
    + injection Hstep as <-. done.
    + by injection Hstep as <-.
Qed.

(** *** What the comments promise and the code does not *)

(** [domainSize] is documented to be 0 when any parameter has no choices, but it
    stops at the first saturation. *)
Lemma domainSize_saturates_before_empty p : Z.of_nat (length (choices p)) = 2 ^ 32 →
  domainSize (mkSpace "s" "w" [p; p; mkParam "empty" "integer" [] ""] [] defaultObjective false) = u64_max.
Proof.
  intros Hp. unfold domainSize, params, domainSize_loop. rewrite !Hp.
  vm_compute. reflexivity.
Qed.

(** The bindings are hashed without separating names from values, so distinct
    points can share an id: the sample below has two points and one id. *)
Definition clashing_space : SearchSpace :=
  mkSpace "s" "w"
    [mkParam "a" "layout" [SymbolChoice "x"; SymbolChoice "x;b=y"] "";
     mkParam "b" "layout" [SymbolChoice "y;b=z"; SymbolChoice "z"] ""] [] defaultObjective false.
Lemma candidate_ids_clash :
  cand_id (buildCandidate clashing_space [0; 0]%nat) = cand_id (buildCandidate clashing_space [1; 1]%nat) ∧
  symbolicValues (buildCandidate clashing_space [0; 0]%nat) ≠
    symbolicValues (buildCandidate clashing_space [1; 1]%nat).
Proof. split; [by vm_compute|]. intros H. apply (f_equal (.!! "a")) in H. vm_compute in H. discriminate H. Qed.

(** ** Witnesses *)
Definition sample_space : SearchSpace :=
  mkSpace "s" "w"
    [mkParam "BM" "integer" [IntegerChoice 16; IntegerChoice 32] "";
     mkParam "layout" "layout" [SymbolChoice "row"; SymbolChoice "packed"; SymbolChoice "col"] ""]
    [] defaultObjective false.

Lemma sample_space_ok : Forall (λ p, choices p ≠ []) (params sample_space).
Proof. by repeat (apply Forall_cons; split; [done|]). Qed.

Lemma grid_is_lexicographic_product_witness :
  generateGridCandidates sample_space (Some 4) =
  buildCandidate sample_space <$> [[0; 0]; [0; 1]; [0; 2]; [1; 0]]%nat.
Proof.
  destruct (grid_is_lexicographic_product sample_space (Some 4) sample_space_ok) as (H & _).
  exact H.
Defined.

Lemma random_candidates_are_grid_points_witness :
  NoDup (cand_id <$> generateRandomCandidates sample_space 7 3).
Proof.
  destruct (random_candidates_are_grid_points sample_space 7 3 sample_space_ok) as (H & _); [discriminate|].
  exact H.
Defined.
