(* ===== verification/Tuning.v ===== *)
(** The tuning session: lib/Perf/TuningSession.cpp and
    include/LLK/Perf/TuningSession.h, with [CandidateMetrics] and [TuningResult]
    of include/LLK/Perf/Candidate.h.

    A session generates candidates, drops the illegal ones with a reason, binds
    and analyses the rest, ranks them by the objective, measures the best, and
    reports.  The theorems: the ranking is a strict total order on results with
    distinct ids, the report is ranked by it, and every generated candidate is in
    exactly one of its lists.

    Legality, binding and analysis are components of their own, and the provider
    is the caller's: the class [TuningEnv] says what the session uses of them. *)
From S2P Require Import Prelude Float MachineModel SearchSpace.
Open Scope string_scope.
Open Scope Z_scope.

(** ** Data *)
Record CandidateMetrics := mkMetrics {
  predictedCycles : Z;
  predictedNs : double;
  matrixUtilization : double;
  dmaUtilization : double;
  dramBytes : Z;
  sramBytes : Z;
  bottleneck : string;
  measuredNs : option double;
  measuredGflops : option double;
}.

Definition noMetrics : CandidateMetrics := mkMetrics 0 dzero dzero dzero 0 0 "" None None.

Record TuningResult := mkResult {
  candidate : Candidate;
  metrics : CandidateMetrics;
  legal : bool;
  rejectionReason : string;
}.

Inductive MetricOrigin := Static | Measured | Unavailable.
Record MetricValue := mkMetric { mv_value : option double; mv_origin : MetricOrigin }.

(** The parts of a performance report the session reads. *)
Record L0Report := mkL0 {
  l0_predictedCycles : Z;
  totalBytesDram : Z;
  totalBytesSram : Z;
  l0_bottleneck : string;
}.
Record L1Report := mkL1 {
  l1_predictedCycles : Z;
  l1_predictedNs : double;
  l1_matrixUtilization : double;
  l1_dmaUtilization : double;
  l1_bottleneck : string;
}.
Record MicroPerfReport := mkPerf { l0 : L0Report; l1 : option L1Report }.

(** ** Metrics and ranking *)
Definition lowerIsBetter (name : string) : bool :=
  negb (contains ["matrix_utilization"; "dma_utilization"; "measured_gflops"] name).

Definition objectiveUsesMeasuredMetric (objective : SearchObjective) : bool :=
  let measured := contains ["measured_ns"; "measured_gflops"] in
  measured (primaryMetric objective) || existsb measured (secondaryMetrics objective).

Definition metricsFrom (report : MicroPerfReport) (machine : MachineModel) : CandidateMetrics :=
  let dram := totalBytesDram (l0 report) in
  let sram := totalBytesSram (l0 report) in
  match l1 report with
  | Some r =>
    mkMetrics (l1_predictedCycles r) (l1_predictedNs r) (l1_matrixUtilization r)
      (l1_dmaUtilization r) dram sram (l1_bottleneck r) None None
  | None =>
    let cycles := l0_predictedCycles (l0 report) in
    mkMetrics cycles
      (match clockHz machine with
       | Some clock => ddiv (dmul (double_of_Z cycles) (double_of_Z 1000000000)) (double_of_Z clock)
       | None => dzero
       end)
      dzero dzero dram sram (l0_bottleneck (l0 report)) None None
  end.

(** The field a name stands for. *)
Definition namedMetric (m : CandidateMetrics) (name : string) : MetricValue :=
  if decide (name = "latency_cycles") then mkMetric (Some (double_of_Z (predictedCycles m))) Static
  else if decide (name = "dram_bytes") then mkMetric (Some (double_of_Z (dramBytes m))) Static
  else if decide (name = "sram_bytes") then mkMetric (Some (double_of_Z (sramBytes m))) Static
  else if decide (name = "matrix_utilization") then mkMetric (Some (matrixUtilization m)) Static
  else if decide (name = "dma_utilization") then mkMetric (Some (dmaUtilization m)) Static
  else if decide (name = "measured_ns" ∧ is_Some (measuredNs m)) then mkMetric (measuredNs m) Measured
  else if decide (name = "measured_gflops" ∧ is_Some (measuredGflops m))
  then mkMetric (measuredGflops m) Measured
  else mkMetric None Unavailable.

(** Values that are not finite are unavailable. *)
Definition resolveMetric (m : CandidateMetrics) (name : string) : MetricValue :=
  match mv_value (namedMetric m name) with
  | Some v => if isfinite v then namedMetric m name else mkMetric None Unavailable
  | None => mkMetric None Unavailable
  end.

Definition isKnownMetric (name : string) : bool :=
  contains ["latency_cycles"; "dram_bytes"; "sram_bytes"; "matrix_utilization"; "dma_utilization";
            "measured_ns"; "measured_gflops"] name.

Inductive tuning_error :=
| UnknownMetric (name : string)
| UnsupportedPerfLevel
| MeasurementProviderMissing.

Definition checkMetric (name : string) : result tuning_error unit :=
  fail! (UnknownMetric name) when negb (isKnownMetric name); Ok tt.

(** The direction is one of the two enumerators. *)
Definition validateObjective (objective : SearchObjective) : result tuning_error unit :=
  _ ← checkMetric (primaryMetric objective);
  for_each checkMetric (secondaryMetrics objective).

Definition compareMetric (left right : double) (lower : bool) : Z :=
  if deqb left right then 0
  else if Bool.eqb (dltb left right) lower then -1 else 1.

(** One metric: decided by availability, or by the comparison; 0 is a tie. *)
Definition compareBy (a b : TuningResult) (name : string) (lower : bool) : Z :=
  match mv_value (resolveMetric (metrics a) name), mv_value (resolveMetric (metrics b) name) with
  | Some l, Some r => compareMetric l r lower
  | Some _, None => -1
  | None, Some _ => 1
  | None, None => 0
  end.

Fixpoint ranksBefore_secondary (a b : TuningResult) (names : list string) : bool :=
  match names with
  | [] => str_ltb (cand_id (candidate a)) (cand_id (candidate b))
  | name :: names =>
    let secondary := compareBy a b name (lowerIsBetter name) in
    if decide (secondary ≠ 0) then bool_decide (secondary < 0)
    else ranksBefore_secondary a b names
  end.

Definition ranksBefore (a b : TuningResult) (objective : SearchObjective) : bool :=
  let primary := compareBy a b (primaryMetric objective)
                   (bool_decide (direction objective = Minimize)) in
  if decide (primary ≠ 0) then bool_decide (primary < 0)
  else ranksBefore_secondary a b (secondaryMetrics objective).

(** [std::stable_sort] and [std::sort] with [ranksBefore]. *)
Definition rank_le (objective : SearchObjective) (a b : TuningResult) : Prop :=
  ranksBefore b a objective = false.
#[export] Instance rank_le_dec objective : RelDecision (rank_le objective).
Proof. intros a b. unfold rank_le. apply _. Defined.

Definition rankTuningResults (results : list TuningResult) (objective : SearchObjective) :
    list TuningResult := merge_sort (rank_le objective) results.

(** *** The ranking is lexicographic

    A metric's score orders present values by their sense and puts a missing one
    last. *)
Definition score : Type := option (Z * Z * Z).
Definition neg_key (k : Z * Z * Z) : Z * Z * Z := let '(a, b, c) := k in (- a, - b, - c).
Definition score_of (m : CandidateMetrics) (name : string) (lower : bool) : score :=
  (λ v, if lower then dkey v else neg_key (dkey v)) <$> mv_value (resolveMetric m name).
Definition score_lt (a b : score) : Prop :=
  match a, b with
  | Some a, Some b => key_lt a b
  | Some _, None => True
  | None, _ => False
  end.

Lemma score_lt_irrefl a : ¬ score_lt a a.
Proof. destruct a; [apply key_lt_irrefl|tauto]. Qed.
Lemma score_lt_trans a b c : score_lt a b → score_lt b c → score_lt a c.
Proof. destruct a, b, c; cbn; try tauto. apply key_lt_trans. Qed.
Lemma score_total a b : score_lt a b ∨ a = b ∨ score_lt b a.
Proof.
  destruct a as [a|], b as [b|]; cbn; auto. destruct (key_lt_total a b) as [?|[->|?]]; auto.
Qed.

Lemma neg_key_lt a b : key_lt (neg_key a) (neg_key b) ↔ key_lt b a.
Proof. destruct a as [[? ?] ?], b as [[? ?] ?]; cbn. lia. Qed.
Lemma neg_key_inj a b : neg_key a = neg_key b ↔ a = b.
Proof. destruct a as [[? ?] ?], b as [[? ?] ?]; cbn. split; [intros [= ? ? ?]; repeat f_equal; lia|congruence]. Qed.

Lemma resolveMetric_finite m name v : mv_value (resolveMetric m name) = Some v → is_nan v = false.
Proof.
  unfold resolveMetric. destruct (mv_value (namedMetric m name)) as [w|] eqn:Hw; [|done].
  destruct (isfinite w) eqn:Hf; [|done]. rewrite Hw. intros [= <-]. by destruct w.
Qed.

Lemma compareMetric_spec (l r : double) (lower : bool) : is_nan l = false → is_nan r = false →
  let kl := if lower then dkey l else neg_key (dkey l) in
  let kr := if lower then dkey r else neg_key (dkey r) in
  (compareMetric l r lower = 0 ∧ kl = kr) ∨ (compareMetric l r lower = -1 ∧ key_lt kl kr) ∨
  (compareMetric l r lower = 1 ∧ key_lt kr kl).
Proof.
  intros Hl Hr. unfold compareMetric. destruct (deqb l r) eqn:He.
  - apply deqb_true in He as (_ & _ & Hk). left. split; [done|]. cbn. by rewrite Hk.
  - destruct (dltb l r) eqn:Hlt.
    + apply dltb_true in Hlt as (_ & _ & Hk). destruct lower; cbn; [auto|]. rewrite !neg_key_lt. auto.
    + destruct (dltb_total l r Hl Hr) as [Ht|[Ht|Ht]]; [congruence..|].
      apply dltb_true in Ht as (_ & _ & Hk). destruct lower; cbn; [auto|]. rewrite !neg_key_lt. auto.
Qed.

Lemma compareBy_spec a b name (lower : bool) :
  let sa := score_of (metrics a) name lower in
  let sb := score_of (metrics b) name lower in
  (compareBy a b name lower = 0 ∧ sa = sb) ∨ (compareBy a b name lower = -1 ∧ score_lt sa sb) ∨
  (compareBy a b name lower = 1 ∧ score_lt sb sa).
Proof.
  unfold compareBy, score_of.
  destruct (mv_value (resolveMetric (metrics a) name)) as [l|] eqn:Hl;
    destruct (mv_value (resolveMetric (metrics b) name)) as [r|] eqn:Hr; cbn; auto.
  apply resolveMetric_finite in Hl, Hr.
  destruct (compareMetric_spec l r lower Hl Hr) as [[-> ->]|[[-> ?]|[-> ?]]]; auto.
Qed.

(** The scores of a result, in the order they are compared. *)
Definition scores (objective : SearchObjective) (r : TuningResult) : list score :=
  score_of (metrics r) (primaryMetric objective) (bool_decide (direction objective = Minimize)) ::
  ((λ name, score_of (metrics r) name (lowerIsBetter name)) <$> secondaryMetrics objective).

Fixpoint lex_lt (xs ys : list score) (s t : string) : Prop :=
  match xs, ys with
  | [], [] => str_ltb s t = true
  | x :: xs, y :: ys => score_lt x y ∨ (x = y ∧ lex_lt xs ys s t)
  | _, _ => False
  end.

Lemma secondary_lex a b names :
  ranksBefore_secondary a b names = true ↔
  lex_lt ((λ name, score_of (metrics a) name (lowerIsBetter name)) <$> names)
    ((λ name, score_of (metrics b) name (lowerIsBetter name)) <$> names)
    (cand_id (candidate a)) (cand_id (candidate b)).
Proof.
  induction names as [|name names IH]; cbn [ranksBefore_secondary fmap list_fmap lex_lt]; [done|].
  destruct (compareBy_spec a b name (lowerIsBetter name)) as [[-> ->]|[[-> Hlt]|[-> Hlt]]].
  - rewrite decide_False by lia. rewrite IH. split; [auto|].
    intros [Hlt|[_ ?]]; [by apply score_lt_irrefl in Hlt|done].
  - rewrite decide_True by lia. rewrite bool_decide_true by lia. tauto.
  - rewrite decide_True by lia. rewrite bool_decide_false by lia. split; [done|].
    intros [Hlt'|[Heq _]].
    + by apply (score_lt_trans _ _ _ Hlt'), score_lt_irrefl in Hlt.
    + rewrite Heq in Hlt. by apply score_lt_irrefl in Hlt.
Qed.

Lemma ranksBefore_lex a b objective : ranksBefore a b objective = true ↔
  lex_lt (scores objective a) (scores objective b) (cand_id (candidate a)) (cand_id (candidate b)).
Proof.
  unfold ranksBefore, scores. cbn [lex_lt].
  destruct (compareBy_spec a b (primaryMetric objective) (bool_decide (direction objective = Minimize)))
    as [[-> ->]|[[-> Hlt]|[-> Hlt]]].
  - rewrite decide_False by lia. rewrite secondary_lex. split; [auto|].
    intros [Hlt|[_ ?]]; [by apply score_lt_irrefl in Hlt|done].
  - rewrite decide_True by lia. rewrite bool_decide_true by lia. tauto.
  - rewrite decide_True by lia. rewrite bool_decide_false by lia. split; [done|].
    intros [Hlt'|[Heq _]].
    + by apply (score_lt_trans _ _ _ Hlt'), score_lt_irrefl in Hlt.
    + rewrite Heq in Hlt. by apply score_lt_irrefl in Hlt.
Qed.

Lemma lex_irrefl xs s : ¬ lex_lt xs xs s s.
Proof.
  induction xs as [|x xs IH]; cbn; [by rewrite str_ltb_irrefl|].
  intros [H|[_ H]]; [by apply score_lt_irrefl in H|auto].
Qed.

Lemma lex_trans xs ys zs s t u : lex_lt xs ys s t → lex_lt ys zs t u → lex_lt xs zs s u.
Proof.
  revert ys zs. induction xs as [|x xs IH]; intros [|y ys] [|z zs]; cbn; try tauto; [apply str_ltb_trans|].
  intros [H1|[-> H1]] [H2|[-> H2]]; eauto using score_lt_trans.
Qed.

Lemma lex_total xs ys s t : length xs = length ys →
  lex_lt xs ys s t ∨ (xs = ys ∧ s = t) ∨ lex_lt ys xs t s.
Proof.
  revert ys. induction xs as [|x xs IH]; intros [|y ys] Hl; try done; cbn.
  - destruct (str_ltb_total s t) as [?|[?|?]]; auto.
  - injection Hl as Hl. destruct (score_total x y) as [?|[->|?]]; auto.
    destruct (IH ys Hl) as [?|[[-> ->]|?]]; auto.
Qed.

Lemma scores_length objective a b : length (scores objective a) = length (scores objective b).
Proof. unfold scores. cbn. by rewrite !length_fmap. Qed.

(** Two results that neither order before the other agree in all scores and in
    their ids. *)
Lemma ranksBefore_tie objective a b :
  ranksBefore a b objective = false → ranksBefore b a objective = false →
  scores objective a = scores objective b ∧ cand_id (candidate a) = cand_id (candidate b).
Proof.
  rewrite <- !not_true_iff_false, !ranksBefore_lex. intros H1 H2.
  destruct (lex_total _ _ (cand_id (candidate a)) (cand_id (candidate b)) (scores_length objective a b))
    as [?|[?|?]]; tauto.
Qed.

#[export] Instance rank_le_trans objective : Transitive (rank_le objective).
Proof.
  unfold rank_le. intros a b c. rewrite <- !not_true_iff_false, !ranksBefore_lex. intros H1 H2 H3.
  destruct (lex_total _ _ (cand_id (candidate a)) (cand_id (candidate b)) (scores_length objective a b))
    as [Hab|[[Hs Hi]|Hba]]; [|rewrite Hs, Hi in H3; tauto|tauto].
  apply H2. eapply lex_trans; [exact H3|exact Hab].
Qed.

#[export] Instance rank_le_total objective : Total (rank_le objective).
Proof.
  unfold rank_le. intros a b. destruct (ranksBefore b a objective) eqn:Hba; [|by left]. right.
  apply not_true_iff_false. rewrite ranksBefore_lex in Hba |- *. intros Hab.
  by apply (lex_irrefl (scores objective a) (cand_id (candidate a))), (lex_trans _ _ _ _ _ _ Hab).
Qed.

(** The ranking is a strict total order on results with distinct ids, whatever
    the metrics and the objective (missing and non-finite values included), and
    [rankTuningResults] returns its argument sorted by it. *)
Theorem ranksBefore_strict_total objective a b c results :
  ranksBefore a a objective = false ∧
  (ranksBefore a b objective = true → ranksBefore b c objective = true →
   ranksBefore a c objective = true) ∧
  (cand_id (candidate a) ≠ cand_id (candidate b) →
   ranksBefore a b objective = true ∨ ranksBefore b a objective = true) ∧
  rankTuningResults results objective ≡ₚ results ∧
  StronglySorted (rank_le objective) (rankTuningResults results objective).
Proof.
  split_and!.
  - apply not_true_iff_false. rewrite ranksBefore_lex. apply lex_irrefl.
  - rewrite !ranksBefore_lex. apply lex_trans.
  - intros Hne. destruct (ranksBefore a b objective) eqn:Hab; [by left|]. right.
    destruct (ranksBefore b a objective) eqn:Hba; [done|]. destruct Hne. by eapply ranksBefore_tie.
  - apply merge_sort_Permutation.
  - apply StronglySorted_merge_sort; apply _.
Qed.

(** ** The session *)

(** What the session uses of the components it drives: the verdict on a candidate
    and its reason, the module, kernel and decisions a candidate binds to, and the
    analysis of a kernel at a level. *)
Class TuningEnv := {
  Module_ : Type;
  Kernel : Type;
  Decisions : Type;
  checkLegality : SearchSpace → Candidate → WorkloadShape → MachineModel → bool * string;
  bindCandidateToMicroKernel :
    SearchSpace → Candidate → WorkloadShape → result string (Module_ * Kernel * Decisions);
  analyzeKernel : Kernel → MachineModel → Z → result string MicroPerfReport;
}.

Section session.
Context `{Env : TuningEnv}.

Record RankedCandidate := mkRanked {
  ranked_result : TuningResult;
  decisions : Decisions;
  measured : option CandidateMetrics;
  measuredTarget : string;
  measuredMachine : string;
  measuredAbi : string;
  measuredCodegenIdentity : string;
}.

Record TuningSessionReport := mkReport {
  machinePath : string;
  machineName : string;
  perfLevel : Z;
  generated : Z;
  ranked : list RankedCandidate;
  unrankable : list RankedCandidate;
  measuredCohortOnly : bool;
  measuredCohortSize : Z;
  measurementAttempts : Z;
  hasMeasuredResult : bool;
  rejected : list TuningResult;
  report_objective : SearchObjective;
  schemaVersion : Z;
}.

Record MeasurementOptions := mkMeasurement {
  provider : option (Module_ → TuningResult → result string (option CandidateMetrics));
  measureTop : Z;
  maxAttempts : Z;
  targetIdentity : string;
  machineIdentity : string;
  abiIdentity : string;
  codegenIdentity : string;
}.

Record TuningSessionOptions := mkOptions {
  generator : CandidateGeneratorOptions;
  opt_perfLevel : Z;
  topK : Z;
  opt_machinePath : string;
  measurement : MeasurementOptions;
}.

Definition ranked_le (objective : SearchObjective) (a b : RankedCandidate) : Prop :=
  rank_le objective (ranked_result a) (ranked_result b).
#[export] Instance ranked_le_dec objective : RelDecision (ranked_le objective).
Proof. intros a b. unfold ranked_le. apply _. Defined.

Definition set_ranked (report : TuningSessionReport) (r : list RankedCandidate)
    (u : list RankedCandidate) (rej : list TuningResult) (attempts : Z) : TuningSessionReport :=
  mkReport (machinePath report) (machineName report) (perfLevel report) (generated report) r u
    (measuredCohortOnly report) (measuredCohortSize report) attempts (hasMeasuredResult report) rej
    (report_objective report) (schemaVersion report).

(** One candidate of the session: ranked, or rejected with a reason. *)
Definition tryCandidate (space : SearchSpace) (shape : WorkloadShape) (machine : MachineModel)
    (level : Z) (c : Candidate) : RankedCandidate + TuningResult :=
  let '(ok, reason) := checkLegality space c shape machine in
  if negb ok then inr (mkResult c noMetrics false reason)
  else
    match bindCandidateToMicroKernel space c shape with
    | Err e => inr (mkResult c noMetrics false ("binding: " +:+ e))
    | Ok (_, kernel, ds) =>
      match analyzeKernel kernel machine level with
      | Err e => inr (mkResult c noMetrics false ("analysis: " +:+ e))
      | Ok perf => inl (mkRanked (mkResult c (metricsFrom perf machine) true "") ds None "" "" "" "")
      end
    end.

Definition sortOutcome (s : list RankedCandidate * list TuningResult)
    (o : RankedCandidate + TuningResult) : list RankedCandidate * list TuningResult :=
  match o with
  | inl r => ((s.1 ++ [r])%list, s.2)
  | inr r => (s.1, (s.2 ++ [r])%list)
  end.

Definition hasValue (m : CandidateMetrics) (name : string) : bool :=
  bool_decide (is_Some (mv_value (resolveMetric m name))).

(** A value for every metric the objective names. *)
Definition hasObjectiveMetrics (m : CandidateMetrics) (objective : SearchObjective) : bool :=
  foldl (λ ok name, ok && hasValue m name) (hasValue m (primaryMetric objective))
    (secondaryMetrics objective).

(** An observation with a time that is not finite and positive, or a rate that is
    not finite and nonnegative. *)
Definition invalidObservation (m : CandidateMetrics) : bool :=
  match measuredNs m with
  | Some ns => negb (isfinite ns) || dleb ns dzero
  | None => false
  end ||
  match measuredGflops m with
  | Some g => negb (isfinite g) || dltb g dzero
  | None => false
  end.

Definition takeMeasured (m observed : CandidateMetrics) : CandidateMetrics :=
  mkMetrics (predictedCycles m) (predictedNs m) (matrixUtilization m) (dmaUtilization m) (dramBytes m)
    (sramBytes m) (bottleneck m)
    (match measuredNs observed with Some ns => Some ns | None => measuredNs m end)
    (match measuredGflops observed with Some g => Some g | None => measuredGflops m end).

Definition set_metrics (r : TuningResult) (m : CandidateMetrics) : TuningResult :=
  mkResult (candidate r) m (legal r) (rejectionReason r).

(** What one attempt makes of a candidate. *)
Inductive attempt :=
| Failed (reason : string)
| Observed (r : RankedCandidate)
| Missed.

Definition measureOne (space : SearchSpace) (shape : WorkloadShape) (options : MeasurementOptions)
    (run : Module_ → TuningResult → result string (option CandidateMetrics)) (r : RankedCandidate) :
    attempt :=
  match bindCandidateToMicroKernel space (candidate (ranked_result r)) shape with
  | Err e => Failed ("measurement binding: " +:+ e)
  | Ok (scratchModule, _, _) =>
    match run scratchModule (ranked_result r) with
    | Err e => Failed ("measurement: " +:+ e)
    | Ok None => Missed
    | Ok (Some observed) =>
      if invalidObservation observed
      then Failed "measurement: invalid non-finite or out-of-range metric"
      else
        Observed (mkRanked
          (set_metrics (ranked_result r) (takeMeasured (metrics (ranked_result r)) observed))
          (decisions r) (Some observed) (targetIdentity options) (machineIdentity options)
          (abiIdentity options) (codegenIdentity options))
    end
  end.

(** The loop's variables: the list, the rejections, the indices rejected, the
    attempts, the successful measurements and the completed candidates. *)
Record MeasureState := mkMeasure {
  ms_ranked : list RankedCandidate;
  ms_rejected : list TuningResult;
  rejectedIndices : list nat;
  ms_attempts : Z;
  successfulMeasurements : Z;
  completedCandidates : Z;
}.

Definition measureStep (space : SearchSpace) (shape : WorkloadShape) (objective : SearchObjective)
    (options : MeasurementOptions)
    (run : Module_ → TuningResult → result string (option CandidateMetrics))
    (index : nat) (r : RankedCandidate) (s : MeasureState) : MeasureState :=
  let attempts := ms_attempts s + 1 in
  match measureOne space shape options run r with
  | Failed reason =>
    mkMeasure (ms_ranked s)
      (ms_rejected s ++ [mkResult (candidate (ranked_result r)) (metrics (ranked_result r)) false reason])
      (rejectedIndices s ++ [index]) attempts (successfulMeasurements s) (completedCandidates s)
  | Observed r' =>
    mkMeasure (<[index := r']> (ms_ranked s)) (ms_rejected s) (rejectedIndices s) attempts
      (if hasObjectiveMetrics (metrics (ranked_result r')) objective
       then successfulMeasurements s + 1 else successfulMeasurements s)
      (completedCandidates s + 1)
  | Missed =>
    mkMeasure (ms_ranked s) (ms_rejected s) (rejectedIndices s) attempts (successfulMeasurements s)
      (if objectiveUsesMeasuredMetric objective then completedCandidates s
       else completedCandidates s + 1)
  end.

(** The loop over the first [fuel] candidates from [index]. *)
Fixpoint measureLoop (fuel : nat) (space : SearchSpace) (shape : WorkloadShape)
    (objective : SearchObjective) (options : MeasurementOptions)
    (run : Module_ → TuningResult → result string (option CandidateMetrics))
    (index : nat) (s : MeasureState) : MeasureState :=
  match fuel with
  | O => s
  | S fuel =>
    if bool_decide ((if objectiveUsesMeasuredMetric objective
                     then successfulMeasurements s else completedCandidates s) < measureTop options)
    then
      match ms_ranked s !! index with
      | None => s
      | Some r =>
        measureLoop fuel space shape objective options run (S index)
          (measureStep space shape objective options run index r s)
      end
    else s
  end.

(** [erase] back to front. *)
Definition eraseAll (indices : list nat) (r : list RankedCandidate) : list RankedCandidate :=
  foldr delete r indices.

Definition measureTopCandidates (space : SearchSpace) (shape : WorkloadShape)
    (report : TuningSessionReport) (options : MeasurementOptions) : TuningSessionReport :=
  match provider options with
  | None => report
  | Some run =>
    if bool_decide (measureTop options = 0) then report
    else
      let size := Z.of_nat (length (ranked report)) in
      let limit := if bool_decide (maxAttempts options = 0) then size
                   else Z.min (maxAttempts options) size in
      let s := measureLoop (Z.to_nat limit) space shape (report_objective report) options run O
                 (mkMeasure (ranked report) (rejected report) [] (measurementAttempts report) 0 0) in
      set_ranked report (eraseAll (rejectedIndices s) (ms_ranked s)) (unrankable report)
        (ms_rejected s) (ms_attempts s)
  end.

Definition set_reason (r : RankedCandidate) (reason : string) : RankedCandidate :=
  mkRanked (mkResult (candidate (ranked_result r)) (metrics (ranked_result r))
              (legal (ranked_result r)) reason)
    (decisions r) (measured r) (measuredTarget r) (measuredMachine r) (measuredAbi r)
    (measuredCodegenIdentity r).

(** Candidates without a value for every metric leave the ranking. *)
Definition splitCohort (objective : SearchObjective) (s : list RankedCandidate * list RankedCandidate)
    (r : RankedCandidate) : list RankedCandidate * list RankedCandidate :=
  if hasObjectiveMetrics (metrics (ranked_result r)) objective
  then ((s.1 ++ [r])%list, s.2)
  else (s.1, (s.2 ++ [set_reason r
    "measurement_unavailable: candidate has no value for every objective metric"])%list).

Definition measuredCohort (objective : SearchObjective) (report : TuningSessionReport) :
    TuningSessionReport :=
  let s := foldl (splitCohort objective) ([], unrankable report) (ranked report) in
  mkReport (machinePath report) (machineName report) (perfLevel report) (generated report)
    (merge_sort (ranked_le objective) s.1) s.2 true (Z.of_nat (length s.1))
    (measurementAttempts report) (negb (bool_decide (s.1 = []))) (rejected report)
    (report_objective report) (schemaVersion report).

Definition truncate (topK : Z) (report : TuningSessionReport) : TuningSessionReport :=
  if bool_decide (topK ≠ 0) && bool_decide (Z.of_nat (length (ranked report)) > topK)
  then set_ranked report (take (Z.to_nat topK) (ranked report)) (unrankable report) (rejected report)
         (measurementAttempts report)
  else report.

Definition runTuningSession (space : SearchSpace) (shape : WorkloadShape) (machine : MachineModel)
    (options : TuningSessionOptions) : result tuning_error TuningSessionReport :=
  fail! UnsupportedPerfLevel when bool_decide (opt_perfLevel options > 1);
  _ ← validateObjective (objective space);
  let measuredObjective := objectiveUsesMeasuredMetric (objective space) in
  fail! MeasurementProviderMissing
    when measuredObjective && bool_decide (provider (measurement options) = None);
  let candidates := generateCandidates space (generator options) in
  let outcomes := tryCandidate space shape machine (opt_perfLevel options) <$> candidates in
  let s := foldl sortOutcome ([], []) outcomes in
  let report := mkReport (opt_machinePath options) (target machine) (opt_perfLevel options)
    (Z.of_nat (length candidates)) (merge_sort (ranked_le (objective space)) s.1) [] false 0 0 false
    s.2 (objective space) 2 in
  let report := measureTopCandidates space shape report (measurement options) in
  let report := if measuredObjective then measuredCohort (objective space) report else report in
  Ok (truncate (topK options) report).

(** ** The report accounts for every candidate *)
Implicit Types (r : RankedCandidate) (rs : list RankedCandidate).

Definition cands rs : list Candidate := (candidate ∘ ranked_result) <$> rs.
Definition rejects (ts : list TuningResult) : list Candidate := candidate <$> ts.

Lemma sortOutcome_fold space shape machine level cs s :
  (∀ r, r ∈ s.1 → legal (ranked_result r) = true) → (∀ t, t ∈ s.2 → legal t = false) →
  let s' := foldl sortOutcome s (tryCandidate space shape machine level <$> cs) in
  cands s'.1 ++ rejects s'.2 ≡ₚ cands s.1 ++ rejects s.2 ++ cs ∧
  (∀ r, r ∈ s'.1 → legal (ranked_result r) = true) ∧ (∀ t, t ∈ s'.2 → legal t = false).
Proof.
  revert s. induction cs as [|c cs IH]; intros s H1 H2; cbn [fmap list_fmap foldl].
  { by rewrite app_nil_r. }
  assert ((∃ r, tryCandidate space shape machine level c = inl r ∧ candidate (ranked_result r) = c ∧
      legal (ranked_result r) = true) ∨
    (∃ t, tryCandidate space shape machine level c = inr t ∧ candidate t = c ∧ legal t = false)) as Htry.
  { unfold tryCandidate. destruct (checkLegality space c shape machine) as [[] reason]; cbn [negb]; [|eauto].
    destruct (bindCandidateToMicroKernel space c shape) as [[[m k] ds]|e]; [|eauto].
    destruct (analyzeKernel k machine level); [left|right]; eauto. }
  destruct Htry as [(r & -> & Hc & Hl)|(t & -> & Hc & Hl)]; cbn [sortOutcome].
  - destruct (IH ((s.1 ++ [r])%list, s.2)) as (Hp & H3 & H4); [|done|].
    { intros x [Hx| ->%list_elem_of_singleton]%elem_of_app; auto. }
    split_and!; [|done|done]. rewrite Hp. cbn [fst snd]. unfold cands. rewrite fmap_app. cbn. rewrite Hc.
    rewrite <- app_assoc. f_equiv. cbn. by rewrite Permutation_middle.
  - destruct (IH (s.1, (s.2 ++ [t])%list)) as (Hp & H3 & H4); [done| |].
    { intros x [Hx| ->%list_elem_of_singleton]%elem_of_app; auto. }
    split_and!; [|done|done]. rewrite Hp. cbn [fst snd]. unfold rejects. rewrite fmap_app. cbn. rewrite Hc.
    by rewrite <- !app_assoc.
Qed.

(** *** Measuring *)
Lemma eraseAll_lookup js l k : Forall (λ i, (k < i)%nat) js → eraseAll js l !! k = l !! k.
Proof.
  induction js as [|i js IH]; intros H; [done|]. apply Forall_cons in H as [Hi H]. cbn.
  rewrite list_lookup_delete_lt by done. by apply IH.
Qed.

Lemma eraseAll_perm js rs : StronglySorted lt js → Forall (λ i, (i < length rs)%nat) js →
  cands (eraseAll js rs) ++ omap (λ i, cands rs !! i) js ≡ₚ cands rs.
Proof.
  intros Hs. induction Hs as [|i js Hs IH Hi]; intros Hlen; [by rewrite app_nil_r|].
  apply Forall_cons in Hlen as [Hli Hlen]. specialize (IH Hlen).
  destruct (lookup_lt_is_Some_2 rs i Hli) as [r Hr]. cbn.
  assert (cands rs !! i = Some (candidate (ranked_result r))) as -> by (unfold cands; by rewrite list_lookup_fmap, Hr).
  assert (eraseAll js rs !! i = Some r) as He by (rewrite eraseAll_lookup; done).
  fold (eraseAll js rs). rewrite <- IH.
  assert (cands (eraseAll js rs) ≡ₚ candidate (ranked_result r) :: cands (delete i (eraseAll js rs))) as ->.
  { unfold cands. rewrite (delete_Permutation _ _ _ He) at 1. done. }
  cbn. by rewrite Permutation_middle.
Qed.

Lemma eraseAll_sublist js rs : sublist (eraseAll js rs) rs.
Proof.
  induction js as [|i js IH]; cbn; [done|]. etransitivity; [apply sublist_delete|exact IH].
Qed.

(** Agreement in everything but what a measurement writes. *)
Definition same_static (a b : RankedCandidate) : Prop :=
  candidate (ranked_result a) = candidate (ranked_result b) ∧
  legal (ranked_result a) = legal (ranked_result b) ∧
  let m := metrics (ranked_result a) in
  let m' := metrics (ranked_result b) in
  predictedCycles m = predictedCycles m' ∧ dramBytes m = dramBytes m' ∧ sramBytes m = sramBytes m' ∧
  matrixUtilization m = matrixUtilization m' ∧ dmaUtilization m = dmaUtilization m'.

Lemma same_static_refl r : same_static r r.
Proof. by split_and!. Qed.
Lemma same_static_trans a b c : same_static a b → same_static b c → same_static a c.
Proof. unfold same_static. intros (? & ? & ? & ? & ? & ? & ?) (? & ? & ? & ? & ? & ? & ?). split_and!; congruence. Qed.

Lemma static_metric a b name : same_static a b → contains ["measured_ns"; "measured_gflops"] name = false →
  resolveMetric (metrics (ranked_result a)) name = resolveMetric (metrics (ranked_result b)) name.
Proof.
  intros (_ & _ & H1 & H2 & H3 & H4 & H5) Hn%contains_false.
  assert (name ≠ "measured_ns" ∧ name ≠ "measured_gflops") as [Hn1 Hn2] by set_solver.
  unfold resolveMetric. assert (namedMetric (metrics (ranked_result a)) name =
    namedMetric (metrics (ranked_result b)) name) as ->; [|done].
  unfold namedMetric. rewrite H1, H2, H3, H4, H5. repeat (destruct (decide (name = _)); [done|]).
  by rewrite !decide_False by tauto.
Qed.

(** A static objective does not see the difference. *)
Lemma static_scores a b objective : same_static a b → objectiveUsesMeasuredMetric objective = false →
  scores objective (ranked_result a) = scores objective (ranked_result b).
Proof.
  intros Hs Ho. unfold objectiveUsesMeasuredMetric in Ho. apply orb_false_iff in Ho as [Hp Hsec].
  unfold scores, score_of. rewrite (static_metric a b _ Hs Hp). f_equal.
  apply list_fmap_ext. intros i name Hi. rewrite (static_metric a b name Hs); [done|].
  destruct (contains _ name) eqn:Hc; [|done]. rewrite <- Hsec. symmetry. apply existsb_exists.
  exists name. split; [|done]. apply list_elem_of_In. by eapply list_elem_of_lookup_2.
Qed.

Lemma static_rank a b a' b' objective : same_static a' a → same_static b' b →
  objectiveUsesMeasuredMetric objective = false → ranked_le objective a b → ranked_le objective a' b'.
Proof.
  intros Ha Hb Ho. unfold ranked_le, rank_le. rewrite <- !not_true_iff_false, !ranksBefore_lex.
  rewrite (static_scores _ _ _ Ha Ho), (static_scores _ _ _ Hb Ho).
  destruct Ha as [-> _], Hb as [-> _]. done.
Qed.

Section measuring.
Variables (space : SearchSpace) (shape : WorkloadShape) (objective : SearchObjective)
  (options : MeasurementOptions) (run : Module_ → TuningResult → result string (option CandidateMetrics)).

(** What holds before the attempt at [index]: the list is the original one up to
    measurements, and the indices rejected so far name the candidates rejected. *)
Record measuring (rs0 : list RankedCandidate) (rej0 : list TuningResult) (index : nat) (s : MeasureState) :
    Prop := {
  m_static : Forall2 same_static (ms_ranked s) rs0;
  m_sorted : StronglySorted lt (rejectedIndices s);
  m_before : Forall (λ i, (i < index)%nat ∧ (i < length rs0)%nat) (rejectedIndices s);
  m_rejects : rejects (ms_rejected s) =
    (rejects rej0 ++ omap (λ i, cands rs0 !! i) (rejectedIndices s))%list;
  m_illegal : ∀ t, t ∈ ms_rejected s → t ∈ rej0 ∨ legal t = false;
}.

Lemma measureOne_observed r r' : measureOne space shape options run r = Observed r' → same_static r' r.
Proof.
  unfold measureOne. destruct (bindCandidateToMicroKernel space _ shape) as [[[m k] ds]|e]; [|done].
  destruct (run m (ranked_result r)) as [[observed|]|e]; [|done..].
  destruct (invalidObservation observed); [done|]. intros [= <-]. by split_and!.
Qed.

Lemma sorted_snoc js (k : nat) : StronglySorted lt js → Forall (λ i, (i < k)%nat) js →
  StronglySorted lt (js ++ [k])%list.
Proof.
  induction 1 as [|i js Hs IH Hi]; intros Hk; cbn; [by repeat constructor|].
  apply Forall_cons in Hk as [Hik Hk]. constructor; [by apply IH|]. apply Forall_app. split; [done|].
  by repeat constructor.
Qed.

Lemma measureStep_measuring rs0 rej0 index s r :
  measuring rs0 rej0 index s → ms_ranked s !! index = Some r →
  measuring rs0 rej0 (S index) (measureStep space shape objective options run index r s).
Proof.
  intros [H1 H2 H3 H4 H5] Hr. unfold measureStep.
  destruct (Forall2_lookup_l _ _ _ _ _ H1 Hr) as (r0 & Hr0 & Hst).
  assert (Forall (λ i, (i < S index)%nat ∧ (i < length rs0)%nat) (rejectedIndices s)) as H3'.
  { eapply Forall_impl; [exact H3|]. cbn. lia. }
  destruct (measureOne space shape options run r) as [reason|r'|] eqn:Hone; [| |by split].
  - split; cbn; [done| | | |].
    + apply sorted_snoc; [done|]. eapply Forall_impl; [exact H3|]. cbn. tauto.
    + apply Forall_app. split; [done|]. apply Forall_singleton. apply lookup_lt_Some in Hr0. lia.
    + unfold rejects in *. rewrite fmap_app, H4, omap_app, <- app_assoc. cbn.
      unfold cands. rewrite list_lookup_fmap, Hr0. cbn. by destruct Hst as [-> _].
    + intros t [Ht| ->%list_elem_of_singleton]%elem_of_app; auto.
  - split; cbn; [|done..].
    apply measureOne_observed in Hone. rewrite <- (list_insert_id rs0 index r0 Hr0).
    apply Forall2_insert; [done|]. by eapply same_static_trans.
Qed.

Lemma measureLoop_measuring fuel rs0 rej0 index s :
  measuring rs0 rej0 index s →
  ∃ index', measuring rs0 rej0 index' (measureLoop fuel space shape objective options run index s).
Proof.
  revert index s. induction fuel as [|fuel IH]; intros index s Hs; cbn [measureLoop]; [by eexists|].
  case_bool_decide; [|by eexists]. destruct (ms_ranked s !! index) as [r|] eqn:Hr; [|by eexists].
  by apply IH, measureStep_measuring.
Qed.
End measuring.

(** What a report says of the candidates it was made from. *)
Record report_ok (cs : list Candidate) (report : TuningSessionReport) : Prop := {
  rp_all : cands (ranked report) ++ cands (unrankable report) ++ rejects (rejected report) ≡ₚ cs;
  rp_legal : ∀ r, r ∈ ranked report ∨ r ∈ unrankable report → legal (ranked_result r) = true;
  rp_illegal : ∀ t, t ∈ rejected report → legal t = false;
}.

Lemma cands_static rs rs' : Forall2 same_static rs rs' → cands rs = cands rs'.
Proof. unfold cands. induction 1 as [|a b rs rs' [Hc _] _ IH]; cbn; [done|]. by rewrite Hc, IH. Qed.

Lemma sorted_static objective rs rs' : objectiveUsesMeasuredMetric objective = false →
  Forall2 same_static rs' rs → StronglySorted (ranked_le objective) rs →
  StronglySorted (ranked_le objective) rs'.
Proof.
  intros Ho Hst. induction Hst as [|a b rs' rs Hab Hst IH]; intros Hs; [constructor|].
  apply StronglySorted_inv in Hs as [Hs Hb]. constructor; [by apply IH|].
  apply Forall_forall. intros x Hx. apply list_elem_of_lookup in Hx as [i Hi].
  destruct (Forall2_lookup_l _ _ _ _ _ Hst Hi) as (y & Hy & Hxy).
  eapply static_rank; [exact Hab|exact Hxy|done|]. rewrite Forall_forall in Hb. apply Hb.
  by eapply list_elem_of_lookup_2.
Qed.

Lemma sublist_in {A} (l k : list A) x : sublist l k → x ∈ l → x ∈ k.
Proof.
  induction 1 as [|y l k Hl IH|y l k Hl IH]; [done| |].
  - intros [->|Hx]%elem_of_cons; [left|right; auto].
  - intros Hx. right. auto.
Qed.

Lemma sublist_sorted {A} (R : A → A → Prop) l k : sublist l k → StronglySorted R k → StronglySorted R l.
Proof.
  induction 1 as [|x l k Hl IH|x l k Hl IH]; intros Hs; [done| |].
  - apply StronglySorted_inv in Hs as [Hs Hx]. constructor; [by apply IH|].
    rewrite Forall_forall in Hx |- *. intros y Hy. apply Hx. by eapply sublist_in.
  - apply StronglySorted_inv in Hs as [Hs _]. by apply IH.
Qed.

Lemma measureTopCandidates_ok space shape report options cs :
  report_ok cs report → unrankable report = [] →
  let report' := measureTopCandidates space shape report options in
  report_ok cs report' ∧ unrankable report' = [] ∧ report_objective report' = report_objective report ∧
  generated report' = generated report ∧
  (objectiveUsesMeasuredMetric (report_objective report) = false →
   StronglySorted (ranked_le (report_objective report)) (ranked report) →
   StronglySorted (ranked_le (report_objective report)) (ranked report')).
Proof.
  intros Hok Hu. unfold measureTopCandidates. destruct (provider options) as [run|]; [|by split_and!].
  case_bool_decide; [by split_and!|]. cbv zeta.
  set (fuel := Z.to_nat _). set (s0 := mkMeasure _ _ _ _ _ _).
  destruct (measureLoop_measuring space shape (report_objective report) options run fuel
    (ranked report) (rejected report) O s0) as (k & Hm).
  { split; cbn; [|constructor|constructor|by rewrite app_nil_r|auto].
    apply Forall_Forall2_diag, Forall_forall. intros r _. apply same_static_refl. }
  set (s := measureLoop _ _ _ _ _ _ _ _) in *. destruct Hm as [H1 H2 H3 H4 H5].
  assert (Forall (λ i, (i < length (ms_ranked s))%nat) (rejectedIndices s)) as Hlen.
  { rewrite (Forall2_length _ _ _ H1). eapply Forall_impl; [exact H3|]. cbn. tauto. }
  pose proof (eraseAll_perm (rejectedIndices s) (ms_ranked s) H2 Hlen) as Hp.
  rewrite !(cands_static _ _ H1) in Hp. destruct Hok as [Ha Hl Hi].
  clearbody s. split_and!; cbn; try done.
  - split; cbn.
    + change (cands (eraseAll (rejectedIndices s) (ms_ranked s)) ++ cands (unrankable report) ++
        rejects (ms_rejected s) ≡ₚ cs).
      rewrite Hu in Ha |- *. cbn [cands fmap list_fmap app] in Ha |- *. rewrite H4, <- Ha.
      rewrite (Permutation_app_comm (rejects _) (omap _ _)), app_assoc. by rewrite Hp.
    + intros r [Hr|Hr]; [|apply Hl; auto]. eapply sublist_in in Hr; [|apply eraseAll_sublist].
      apply list_elem_of_lookup in Hr as [i Hr].
      destruct (Forall2_lookup_l _ _ _ _ _ H1 Hr) as (r0 & Hr0 & Hst).
      destruct Hst as (_ & -> & _). apply Hl. left. by eapply list_elem_of_lookup_2.
    + intros t Ht. destruct (H5 t Ht); auto.
  - intros Ho Hs. eapply sublist_sorted; [apply eraseAll_sublist|]. by eapply sorted_static.
Qed.

Lemma cands_app rs rs' : cands (rs ++ rs') = (cands rs ++ cands rs')%list.
Proof. apply fmap_app. Qed.
Lemma cands_cons r rs : cands (r :: rs) = candidate (ranked_result r) :: cands rs.
Proof. done. Qed.

Lemma splitCohort_spec objective r s : ∃ r', candidate (ranked_result r') = candidate (ranked_result r) ∧
  legal (ranked_result r') = legal (ranked_result r) ∧
  ((splitCohort objective s r = ((s.1 ++ [r])%list, s.2) ∧
    hasObjectiveMetrics (metrics (ranked_result r)) objective = true) ∨
   splitCohort objective s r = (s.1, (s.2 ++ [r'])%list)).
Proof. eexists (set_reason r _). split_and!; [done..|]. unfold splitCohort. destruct (hasObjectiveMetrics _ _); auto. Qed.

Lemma splitCohort_fold objective rs s :
  let s' := foldl (splitCohort objective) s rs in
  cands s'.1 ++ cands s'.2 ≡ₚ cands s.1 ++ cands s.2 ++ cands rs ∧
  (∀ r, r ∈ s'.1 → r ∈ s.1 ∨ r ∈ rs ∧ hasObjectiveMetrics (metrics (ranked_result r)) objective = true) ∧
  (∀ r, r ∈ s'.2 → r ∈ s.2 ∨ ∃ r0, r0 ∈ rs ∧ legal (ranked_result r) = legal (ranked_result r0)).
Proof.
  revert s. induction rs as [|r rs IH]; intros s; cbn [foldl].
  { change (cands []) with (@nil Candidate). rewrite app_nil_r. split_and!; auto. }
  destruct (IH (splitCohort objective s r)) as (Hp & H1 & H2).
  destruct (splitCohort_spec objective r s) as (r' & Hc & Hl & [[He Hm]|He]);
    rewrite He in Hp, H1, H2 |- *; cbn [fst snd] in Hp, H1, H2; split_and!.
  - rewrite Hp, cands_app, !cands_cons, <- app_assoc. apply Permutation_app_head. exact (Permutation_middle (cands s.2) (cands rs) _).
  - intros x Hx. destruct (H1 x Hx) as [[?| ->%list_elem_of_singleton]%elem_of_app|[? ?]]; [auto| |];
      (right; split; [by constructor|done]).
  - intros x Hx. destruct (H2 x Hx) as [?|(r0 & ? & ?)]; [auto|]. right. exists r0. split; [by right|done].
  - rewrite Hp, cands_app, !cands_cons, Hc. by rewrite <- app_assoc.
  - intros x Hx. destruct (H1 x Hx) as [?|[? ?]]; [auto|]. right. split; [by right|done].
  - intros x Hx. destruct (H2 x Hx) as [[?| ->%list_elem_of_singleton]%elem_of_app|(r0 & ? & ?)]; [auto| |].
    + right. exists r. split; [by left|done].
    + right. exists r0. split; [by right|done].
Qed.

Lemma measuredCohort_ok cs report : report_ok cs report → unrankable report = [] →
  let report' := measuredCohort (report_objective report) report in
  report_ok cs report' ∧ generated report' = generated report ∧
  StronglySorted (ranked_le (report_objective report)) (ranked report') ∧
  (∀ r, r ∈ ranked report' → hasObjectiveMetrics (metrics (ranked_result r)) (report_objective report) = true).
Proof.
  intros [Ha Hl Hi] Hu. unfold measuredCohort. cbv zeta.
  destruct (splitCohort_fold (report_objective report) (ranked report) ([], unrankable report))
    as (Hp & H1 & H2). cbn [fst snd] in Hp, H1, H2. rewrite Hu in *.
  set (s := foldl _ _ _) in *. clearbody s.
  assert (merge_sort (ranked_le (report_objective report)) s.1 ≡ₚ s.1) as Hs by apply merge_sort_Permutation.
  split_and!; cbn [ranked generated unrankable rejected].
  - split; cbn [ranked unrankable rejected].
    + rewrite <- Ha. unfold cands at 1. rewrite Hs. fold (cands s.1). rewrite app_assoc, Hp. done.
    + intros r [Hr|Hr].
      * rewrite Hs in Hr. destruct (H1 r Hr) as [Hn|[Hr' _]]; [by apply elem_of_nil in Hn|auto].
      * destruct (H2 r Hr) as [Hn|(r0 & Hr0 & ->)]; [by apply elem_of_nil in Hn|auto].
    + done.
  - done.
  - apply StronglySorted_merge_sort; unfold ranked_le; [intros a b c; apply rank_le_trans|intros a b; apply rank_le_total].
  - intros r Hr. rewrite Hs in Hr. destruct (H1 r Hr) as [Hn|[_ ?]]; [by apply elem_of_nil in Hn|done].
Qed.

(** What a session's report says, [full] the ranking before [topK] cuts it. *)
Record session_ok (space : SearchSpace) (options : TuningSessionOptions) (full : list RankedCandidate)
    (report : TuningSessionReport) : Prop := {
  so_cut : ranked report =
    (if bool_decide (topK options = 0) then full else take (Z.to_nat (topK options)) full);
  so_all : cands full ++ cands (unrankable report) ++ rejects (rejected report)
    ≡ₚ generateCandidates space (generator options);
  so_count : generated report = Z.of_nat (length (generateCandidates space (generator options)));
  so_sorted : StronglySorted (ranked_le (objective space)) full;
  so_legal : ∀ r, r ∈ full ∨ r ∈ unrankable report → legal (ranked_result r) = true;
  so_illegal : ∀ t, t ∈ rejected report → legal t = false;
  so_measured : objectiveUsesMeasuredMetric (objective space) = true →
    ∀ r, r ∈ full → hasObjectiveMetrics (metrics (ranked_result r)) (objective space) = true;
  so_static : objectiveUsesMeasuredMetric (objective space) = false → unrankable report = [];
}.

Lemma truncate_ranked topK report : ranked (truncate topK report) =
  if bool_decide (topK = 0) then ranked report else take (Z.to_nat topK) (ranked report).
Proof.
  unfold truncate. destruct (decide (topK = 0)) as [H|H].
  - by rewrite (bool_decide_true (topK = 0)), (bool_decide_false (topK ≠ 0)) by tauto.
  - rewrite (bool_decide_false (topK = 0)), (bool_decide_true (topK ≠ 0)) by done. cbn [andb].
    case_bool_decide; [done|]. by rewrite take_ge by lia.
Qed.

Lemma truncate_rest topK report : unrankable (truncate topK report) = unrankable report ∧
  rejected (truncate topK report) = rejected report ∧ generated (truncate topK report) = generated report.
Proof. unfold truncate. destruct (_ && _); by split_and!. Qed.

Lemma validateObjective_err o e : validateObjective o = Err e ↔
  ∃ pre name post, primaryMetric o :: secondaryMetrics o = (pre ++ name :: post)%list ∧
    Forall (λ n, isKnownMetric n = true) pre ∧ isKnownMetric name = false ∧ e = UnknownMetric name.
Proof.
  change (validateObjective o) with (for_each checkMetric (primaryMetric o :: secondaryMetrics o)).
  rewrite for_each_err. split.
  - intros (pre & x & post & Hl & Hx & Hpre). exists pre, x, post. unfold checkMetric in Hpre, Hx.
    rewrite fail_then_err in Hx. destruct Hx as [[Hx <-]|[_ [=]]]. apply negb_true_iff in Hx.
    split_and!; [done| |done..]. apply Forall_forall. intros n Hn. specialize (Hpre n Hn).
    apply fail_then_ok in Hpre as [Hn' _]. by apply negb_false_iff.
  - intros (pre & x & post & Hl & Hpre & Hx & ->). exists pre, x, post. split_and!; [done| |].
    + unfold checkMetric. by rewrite Hx.
    + intros n Hn. rewrite Forall_forall in Hpre. unfold checkMetric. by rewrite (Hpre n Hn).
Qed.

Lemma validateObjective_ok o : validateObjective o = Ok tt ↔
  Forall (λ n, isKnownMetric n = true) (primaryMetric o :: secondaryMetrics o).
Proof.
  change (validateObjective o) with (for_each checkMetric (primaryMetric o :: secondaryMetrics o)).
  rewrite for_each_ok, Forall_forall. apply forall_proper. intros n. unfold checkMetric.
  destruct (isKnownMetric n); cbn; naive_solver.
Qed.

(** A session fails only before it generates anything, and on exactly these
    causes in this order: a level above 1, the first metric of the objective the
    tuner does not produce, a measured objective without a provider. *)
Theorem session_fails_only_up_front space shape machine options e :
  runTuningSession space shape machine options = Err e ↔
  (opt_perfLevel options > 1 ∧ e = UnsupportedPerfLevel) ∨
  (opt_perfLevel options <= 1 ∧
   ((∃ pre name post, primaryMetric (objective space) :: secondaryMetrics (objective space) =
        (pre ++ name :: post)%list ∧
      Forall (λ n, isKnownMetric n = true) pre ∧ isKnownMetric name = false ∧ e = UnknownMetric name) ∨
    (Forall (λ n, isKnownMetric n = true)
       (primaryMetric (objective space) :: secondaryMetrics (objective space)) ∧
     objectiveUsesMeasuredMetric (objective space) = true ∧ provider (measurement options) = None ∧
     e = MeasurementProviderMissing))).
Proof.
  rewrite <- validateObjective_err, <- validateObjective_ok. unfold runTuningSession.
  rewrite fail_then_err, bool_decide_eq_true, bool_decide_eq_false.
  destruct (validateObjective (objective space)) as [[]|e'] eqn:Hv; cbn [mbind result_bind].
  - cbv zeta. rewrite fail_then_err, andb_true_iff, bool_decide_eq_true. split.
    + intros [[? <-]|[? [[[? ?] <-]|[? [=]]]]]; [by left|right]. split; [lia|]. right. by split_and!.
    + intros [[? ->]|[? [[=]|(_ & ? & ? & ->)]]]; [by left|right]. split; [lia|]. left. by split_and!.
  - split.
    + intros [[? <-]|[? [= <-]]]; [by left|right]. split; [lia|]. by left.
    + intros [[? ->]|[? [[= <-]|([=] & _)]]]; [by left|right]. split; [lia|done].
Qed.

(** C16: A session that does not fail accounts for every generated candidate: each
    is in the ranking, among the unrankable or among the rejected, as often as it
    was generated; the ranking is sorted by the objective and cut to [topK], ranked
    candidates are legal and rejected ones are not, and under a measured objective
    every ranked candidate has a value for every metric. *)
Theorem session_accounts_for_every_candidate space shape machine options report :
  runTuningSession space shape machine options = Ok report →
  ∃ full, session_ok space options full report.
Proof.
  intros H. unfold runTuningSession in H. apply fail_then_ok in H as [_ H]. apply bind_ok in H as ([] & _ & H).
  cbv zeta in H. apply fail_then_ok in H as [_ H]. injection H as <-.
  destruct (sortOutcome_fold space shape machine (opt_perfLevel options)
    (generateCandidates space (generator options)) ([], [])) as (Hp & Hl & Hi);
    [intros r Hr; by apply elem_of_nil in Hr..|].
  set (s := foldl sortOutcome _ _) in *. clearbody s.
  set (report0 := mkReport _ _ _ _ _ _ _ _ _ _ _ _ _).
  assert (merge_sort (ranked_le (objective space)) s.1 ≡ₚ s.1) as Hs by apply merge_sort_Permutation.
  assert (report_ok (generateCandidates space (generator options)) report0) as Hok.
  { split; cbn [report0 ranked unrankable rejected].
    - rewrite <- Hp. unfold cands at 1. by rewrite Hs.
    - intros r [Hr|Hr]; [rewrite Hs in Hr; auto|by apply elem_of_nil in Hr].
    - done. }
  destruct (measureTopCandidates_ok space shape report0 (measurement options) _ Hok eq_refl)
    as (Hok1 & Hu1 & Ho1 & Hg1 & Hsort1).
  change (report_objective report0) with (objective space) in Ho1, Hsort1.
  set (report1 := measureTopCandidates space shape report0 (measurement options)) in *. clearbody report1.
  destruct (measuredCohort_ok _ report1 Hok1 Hu1) as (Hok2 & Hg2 & Hsort2 & Hm2). rewrite Ho1 in Hok2, Hg2, Hsort2, Hm2.
  destruct (objectiveUsesMeasuredMetric (objective space)) eqn:Hobj.
  - set (report2 := measuredCohort (objective space) report1) in *. clearbody report2.
    destruct Hok2 as [Ha2 Hl2 Hi2]. destruct (truncate_rest (topK options) report2) as (Hr1 & Hr2 & Hr3).
    exists (ranked report2). split; rewrite ?Hr1, ?Hr2, ?Hr3; auto using truncate_ranked; [|congruence].
    by rewrite Hg2, Hg1.
  - destruct Hok1 as [Ha2 Hl2 Hi2]. destruct (truncate_rest (topK options) report1) as (Hr1 & Hr2 & Hr3).
    exists (ranked report1). split; rewrite ?Hr1, ?Hr2, ?Hr3; auto using truncate_ranked; [|intros; congruence].
    apply Hsort1; [done|]. apply StronglySorted_merge_sort; unfold ranked_le;
      [intros a b c; apply rank_le_trans|intros a b; apply rank_le_total].
Qed.
End session.

(** ** A session on sample components *)
Module Sample.
Definition BM (c : Candidate) : Z := default 0 (values c !! "BM").

#[export] Instance Env : TuningEnv := {|
  Module_ := unit;
  Kernel := Z;
  Decisions := Z;
  checkLegality _ c _ _ := if bool_decide (BM c > 32) then (false, "tile too large") else (true, "");
  bindCandidateToMicroKernel _ c _ := Ok (tt, BM c, BM c);
  analyzeKernel k _ _ := if bool_decide (k = 8) then Err "no engine" else
    Ok (mkPerf (mkL0 (1024 / k) k 0 "memory") None);
|}.

Definition space : SearchSpace :=
  mkSpace "s" "w" [mkParam "BM" "integer" (IntegerChoice <$> [8; 16; 32; 64]) ""] [] defaultObjective false.
Definition shape : WorkloadShape := mkShape 64 64 64 "f16" "f16" "f32" "f16".
Definition session_options : TuningSessionOptions :=
  mkOptions (mkGenOptions Grid 0 None) 0 1 "m.mlir" (mkMeasurement None 0 0 "" "" "" "").

Definition outcome (r : result tuning_error TuningSessionReport) : option (list Z * list string * Z) :=
  match r with
  | Ok report => Some ((λ r, BM (candidate (ranked_result r))) <$> ranked report,
                       rejectionReason <$> rejected report, generated report)
  | Err _ => None
  end.

Lemma sample_session :
  outcome (runTuningSession space shape sample_machine session_options) =
  Some ([32], ["analysis: no engine"; "tile too large"], 4).
Proof. by vm_compute. Qed.
End Sample.

(** ** Witnesses *)
Definition sample_result (id : string) (cycles : Z) : TuningResult :=
  mkResult (mkCandidate id ∅ ∅) (mkMetrics cycles dzero dzero dzero 0 0 "" None None) true "".

Lemma ranksBefore_strict_total_witness :
  ranksBefore (sample_result "a" 5) (sample_result "b" 5) defaultObjective = true ∨
  ranksBefore (sample_result "b" 5) (sample_result "a" 5) defaultObjective = true.
Proof.
  destruct (ranksBefore_strict_total defaultObjective (sample_result "a" 5) (sample_result "b" 5)
    (sample_result "a" 5) []) as (_ & _ & H & _).
  apply H. discriminate.
Defined.

Lemma session_accounts_for_every_candidate_witness :
  match runTuningSession Sample.space Sample.shape sample_machine Sample.session_options with
  | Ok report => ∃ full, session_ok Sample.space Sample.session_options full report
  | Err _ => False
  end.
Proof.
  destruct (runTuningSession Sample.space Sample.shape sample_machine Sample.session_options)
    as [report|e] eqn:H.
  - exact (session_accounts_for_every_candidate _ _ _ _ _ H).
  - vm_compute in H. discriminate H.
Defined.
